(* ===== verification/_CoqProject ===== *)
-Q . S2P
Prelude.v
PyStr.v
PyDict.v
PyFloat.v
PyText.v
Values.v
Events.v
EventBackend.v
EventManager.v
EventLog.v
EventRuns.v
EventDispatch.v
EventQuery.v
Fifo.v
Admission.v
AdmissionRuns.v
AdmissionConfig.v
Broker.v
BrokerRuns.v
Channels.v
ChannelRuns.v
Queues.v
QueueRuns.v
Todo.v
TodoRuns.v
TodoClosure.v
TodoMerge.v
LoopGuard.v
TruncStream.v
BoundedIO.v
Retry.v
Sqlite.v
SqliteRuns.v
SqliteSafety.v
SessionLock.v
SnapCodec.v
SnapCodecRuns.v
SnapCodecSafety.v
ContextManager.v
ContextRuns.v
AgentSnapshot.v
AgentRuns.v
PromptContext.v
PromptRuns.v
Render.v
RenderRuns.v
PyAst.v
Restrictions.v
CodeContext.v
CodeSecurity.v
CodeSecurityRuns.v
CodePolicy.v
CodePolicyRuns.v
CodeClass.v
CodeBlocking.v
StripImports.v
ResponseCleanup.v
CodeValidator.v
CodeValidatorRuns.v
CellWrap.v
Replay.v
ReplayRuns.v
CachePolicy.v
CachePolicyRuns.v
LayeredConfig.v
ChatReplay.v
ChatReplayRuns.v
StateM.v
CodeAct.v
CodeActLoop.v
CodeActRuns.v
CodeActCalls.v
CodeActSafety.v
CallBinding.v
CallRules.v
CallRuns.v
Predict.v
PredictRuns.v
Summarizer.v
SummarizerRuns.v
