(* ===== verification/Prelude.v ===== *)
(** * The core of the agent runtime, verified

    A development beside [src/src/nooa], the Python runtime for
    object-oriented agents.  It models the parts of the library that keep state
    of their own and whose correctness the rest relies on: the event log and
    its stores, the snapshots of an agent, its context blocks, the prompt that
    is built from both, the admission control of model calls, channels and
    background jobs, the todo workspace, the validation of generated code, how
    the arguments of a call are bound, the CodeAct and Predict strategies,
    background summaries, the replay and caching of model requests, layered
    configuration, and the bounded input/output and retry helpers.
    Definitions are executable translations of the methods they are named
    after; theorems are proved about them, not about a simplification.

    ** Conventions

    - An object with identity is a reference into a heap; a method is a
      function on an explicit state.  A method that may raise returns a
      [result] (exception class, no message), or a sum type of its own where
      more of the exception matters.
    - A block that runs under a lock, or between two awaits on one event loop,
      is one atomic function, unless another thread may run within it without
      a lock, as in [Channels].  Interleavings are step relations over these
      functions; [steps] of this file is their closure and [steps_invariant]
      its induction.
    - Dictionaries keep their insertion order ([PyDict]), strings that are
      only compared are [string], text that is measured or cut is a list of
      code points ([PyText]), Python integers are [Z], floats are IEEE binary64
      ([PyFloat], on the Standard Library's [spec_float]).
    - Third-party code and what the operating system does are arguments of the
      definitions: the JSON codec of pydantic (an event is what its stored text
      reads back as), the faults of SQLite, the result of a file operation, regular expressions, hashes, clocks, random
      numbers, class lookup and constructors, whether an expression compiles.
      So are Python's parser, whose trees are modelled ([PyAst]), and the word
      characters of the Unicode database.  The standard library is modelled
      where the code relies on it; [inspect] is that of CPython 3.13.

    ** Files

    This file: exceptions, results and options, the closure of step relations,
    lemmas on lists, and the tactics the proofs share.

    Python data.  [PyStr] ([int], [str], [split], [lower]), [PyDict], [PyFloat],
    [PyText], [Values] (JSON-like values).

    Event log ([context_blocks/events.py], [runtime/event_backend.py],
    [runtime/event_manager.py], [runtime/event_query.py]).
    [Events]: events, tags, and the storage protocol as the class
    [EventBackend] with its laws [EventBackendLaws].  [EventBackend]:
    [InMemoryBackend] and its instance.  [EventManager]: every operation over
    any backend.  [EventLog], [EventRuns]: ordered disjoint tag ranges, the
    effect of [collapse], stable access, termination of the expansion of
    summaries, for any backend that obeys the laws.  [EventDispatch]: handlers,
    close callbacks, middleware.  [EventQuery]: the declarative filter against
    [filter].

    Storage ([storage/sqlite.py], [storage/serialization.py],
    [storage/snapshot.py]).  [Sqlite]: tables, counters, faults, degraded
    reads, retries and the snapshot table.  [SqliteRuns]: the refinement of the
    protocol's contract.  [SqliteSafety]: restart, faults, latest snapshot, and
    the divergence from the in-memory store.  [SessionLock]: the lock file of a
    session as the interleaved system calls of one machine, while others may
    rewrite the file.  [SnapCodec]: [serialize] and
    [deserialize] on a heap with cycles.  [SnapCodecRuns]: the copy a value
    restores to.  [SnapCodecSafety]: located errors, totality, the allowlist.
    [AgentSnapshot], [AgentRuns]: the whole agent, on the codec and the context
    manager, through what its JSON text does to the data.

    Prompt ([runtime/context_builder.py], [context_blocks/renderer.py],
    [context_blocks/formatter.py], [llm_types.py]).  [PromptContext],
    [PromptRuns]: the pipeline that gathers, overrides and orders the blocks;
    its single pass against the application of one override after the other,
    which phase decides a block, and what the agent reads afterwards.  [Render],
    [RenderRuns]: the context budget, the replay of assistant turns and the
    provider messages; every tool call is followed by exactly its results.

    Context blocks ([runtime/context_manager.py]).  [ContextManager],
    [ContextRuns]: agreement of its tables, protection, reads that are never
    stale.

    Admission ([unifiedllm/admission.py], [unifiedllm/broker_admission.py]).
    [Fifo]: queues served in order, shared by both.  [Admission]: one group
    with its waiters, timers and event-loop callbacks.  [AdmissionRuns]:
    accounting, order, pacing, no lost wakeup, and what an abandoned event loop
    blocks.  [AdmissionConfig]: validators,
    group identities and the registry.  [Broker], [BrokerRuns]: the
    cross-process broker, its connections, capacity and progress.

    Channels ([runtime/channels.py]).  [Channels], [ChannelRuns]: delivery with
    cancellation, several event loops and producers on other threads, whose
    wakeup can be lost.  [Queues], [QueueRuns]: registry,
    races and background jobs.

    Todo workspace ([tools/todo.py]).  [Todo], [TodoRuns], [TodoClosure]
    (dependency walk), [TodoMerge] (three-way merge, snapshots, and a concrete
    workspace).

    Generated code ([runtime/code_validator.py], [runtime/restrictions.py],
    [runtime/response_cleanup.py], the preparation of a cell in
    [runtime/actor.py]).  [PyAst]: syntax trees, [NodeVisitor] and the lemma
    [visitor_accepts] that the visitors share.  [Restrictions]: module lists
    and the stripping of the name space.  [CodeContext]: issues and the
    context.  The validators, each with its specification: [CodeSecurity] and
    [CodeSecurityRuns]; [CodePolicy] and [CodePolicyRuns] (with executions of
    loops); [CodeClass] (class attributes and the return type);
    [CodeBlocking] (which calls are refused, by the spelling of the callee).
    [StripImports]: redundant imports cut out of the text of a
    cell.  [ResponseCleanup]: code fences and XML wrappers.
    [CodeValidator], [CodeValidatorRuns]: the validators in order and what is
    known of a cell that is accepted.  [CellWrap]: the wrapper that
    [execute_code] and the sandbox worker ([runtime/sandbox/cell_core.py]) put
    around a cell, its implicit return and its line numbers.

    CodeAct ([strategies/codeact.py], [strategies/codeact_v2.py]).  [StateM]: a
    state-and-exception monad with postconditions ([wp]), preserved relations
    ([keeps]) and values ([yields]).  [CodeAct]: one tool call, with the
    validation of results and the execution of a cell.  [CodeActLoop]: the loop
    guard around calls, turns, text-only replies, prefill, the whole
    generation.  [CodeActRuns]: budgets, termination, turn events.
    [CodeActCalls]: every call gets its result.  [CodeActSafety]: what a
    returned value was checked against, with services that record the cells and
    the checks of a run; the guard as the machine of [LoopGuard].  Concrete generations end the file.

    Calls ([strategies/current_call.py], and the check of a generated call in
    [strategies/generated_code.py]).  [CallBinding]: [Signature.bind], the
    inputs of a [CurrentCall] and their listing, over the class [CallValues] of
    printable values.  [CallRules]: Python's own rules, by parameter.
    [CallRuns]: the binding agrees with the rules, and the inputs are the
    locals of the method.

    Predict ([strategies/predict.py]).  [Predict]: the response model, the
    parameter sizes, the attempts with parsing, validation and feedback, the
    whole run, on [StateM].  [PredictRuns]: the conversation of a run, what a
    returned value fits, when the parameters are within their limit, and
    concrete runs.

    Summaries ([agents/summarization.py]).  [Summarizer]: the pending summary,
    the fork of the token-budget summarizer, the range of the method
    summarizer.  [SummarizerRuns]: steps of the log, of overlapping calls and
    of the summarizer; a summary replaces exactly what its call read, failing
    forks end the summaries, and the range of a call takes in all its events;
    concrete logs.

    Model requests ([unifiedllm/response_parts.py],
    [unifiedllm/chat_parts.py], [_immutable_json.py],
    [unifiedllm/replay_state.py], [unifiedllm/media_inputs.py] with
    [media_inputs.py], [media_policy.py] and [request_interface.py],
    [unifiedllm/cache_policy.py]).  [Replay], [ReplayRuns]: how the output of a
    Responses call becomes the parts of a turn and is sent again, with the check
    of the media in its native state; the round trip, and where native state may
    go.
    [ChatReplay], [ChatReplayRuns]: the same for Chat messages, with signed
    thinking and the private ids of tool calls, and a whole Chat history.
    [CachePolicy], [CachePolicyRuns]: what a request is marked with for the
    prompt cache, and that a growing history repeats its marked prefix.

    Configuration ([layered_config.py]).  [LayeredConfig]: the order of
    the files and what their merge reads as.

    Helpers.  [LoopGuard] ([strategies/loop_guard.py] and its use in
    [strategies/codeact.py]), [TruncStream] ([agentdoc/_truncating_stream.py]),
    [BoundedIO] ([tools/_bounded_io.py]), [Retry] ([unifiedllm/retry.py],
    [retry_config.py]).

    ** How the parts meet

    [EventManager] is proved against [EventBackendLaws] alone;
    [EventBackend.mem_backend_refines] and [SqliteRuns.sqlite_refines_contract]
    say how far the two stores meet that contract: the in-memory store always,
    the SQLite store as long as the positions of the active tags have no gap
    below an insertion ([SqliteSafety.second_collapse_misordered] shows the
    other case).  [AgentSnapshot] calls [serialize]/[deserialize] and the
    setters of [ContextManager]; its round trip is composed from the round trip
    of the codec and the effects of the setters.  [PromptContext] reads the
    context manager and, through [EventQuery] and any [EventBackend], the event
    log; [PromptRuns.reads_match_prompt] closes the loop through the cache of
    the context manager.  [Render] takes the blocks of [PromptContext].
    [LoopGuard] composes the guard with the calls it sees;
    [CodeActSafety.guard_refines] says that the session is that composition,
    and [CodeActSafety.repeated_call_stops] carries
    [LoopGuard.repetition_stops] over to it.  The services that [CodeAct]
    takes as arguments (the provider, the runtime of a cell, conditions,
    handlers) may change the world and the log; [services_settle] is what
    [CodeActCalls] assumes of them, and a nested generation meets it by the
    theorem itself.
    [Predict] reads its inputs through [CallBinding.bound_parameters] and
    measures them with the stream of [TruncStream].  [SummarizerRuns] lets the
    log take any step of [EventRuns] between the steps of the summarizer and
    derives what a summary replaces from the lemmas on [collapse] of
    [EventLog].
    [CodeValidator.prepare_cell] composes the clean-up, the restrictions, the
    import stripping and the validators as [execute_code] does;
    [CodeValidatorRuns.accepted_cell] is proved from the specifications of its
    parts.

    ** Bounds and fuel

    [MAX_SNAPSHOT_DEPTH] levels are the structural argument of the codec: the
    code has the same bound, so nothing is cut off.  [pump_loop] and
    [offer_loop] take one turn per waiter of the queue they pop;
    [retry_loop] one per attempt the loop condition admits; [iter_lines_go]
    one per chunk; [closure_loop] is proved to end within [closure_fuel].
    [all_originals] takes the recursion depth: [all_originals_terminates] gives
    a sufficient one, [recollapse_never_expands] shows the calls for which no
    depth suffices.  [collect_type_names] takes the frames that Python allows
    and raises [RecursionError] without them: [type_names_terminate] says when
    they suffice, [self_reference_raises] when none do.  [run_turns] takes the
    turns of a generation: [most_turns] is enough when the iterations are
    bounded ([generation_ends]); without a bound the loop of the code need not
    end either.  [attempt_loop] takes the attempts that [max_retries] allows,
    so it never runs out.

    ** Not modelled

    - The actor runtime, the pure-Python and reflexion strategies, model
      clients and object documentation: introspection of live Python objects, calls of third-party
      SDKs and code execution.  Their shared state (event log, channels, context blocks) and
      what stands between a model's answer and its execution are modelled.
    - The sandbox, tracing, the viewers, the protocol clients, command line,
      examples: user interfaces, network and operating system glue.
    - Inside modelled components: the Markdown formatter (it differs from the
      XML one in two wrappers), the text of the utilization statistics and the
      mapping interface of assistant turns; exception messages, validation
      messages and hints, log lines and rendered status texts; the socket
      transport and client side of the broker; the rendering of the events to
      summarize and the budget that is derived from a model's context window;
      the notify event that wakes
      [race] for event-mode puts; the connection settings of a SQLite session
      and the deletion of its files. *)

From stdpp Require Export base tactics numbers list option strings sets gmap.
From Stdlib Require Export Lia.

(** ** Python exceptions and results

    A Python function that may raise is a function into [result].  The
    exception classes are the ones the modelled code raises; messages are not
    modelled. *)
Inductive exc :=
  | ValueError
  | TypeError
  | KeyError
  | IndexError
  | RuntimeError
  | NotImplementedError
  | CancelledError
  | TimeoutError
  | AdmissionTimeoutError
  | RecursionError
  | InvalidStateError
  | FileTooLargeError
  | ObserverError
  | ReasoningReplayError
  | GenerationError
  | LoopDetectedError
  | BlockSyntaxError
  | SyntaxError
  | AttributeError
  | OtherError.

#[export] Instance exc_eq_dec : EqDecision exc.
Proof. solve_decision. Defined.

Inductive result (A : Type) :=
  | Ok (a : A)
  | Raise (e : exc).
Arguments Ok {A} a.
Arguments Raise {A} e.

#[export] Instance result_eq_dec {A} `{EqDecision A} : EqDecision (result A).
Proof. solve_decision. Defined.

Definition result_bind {A B} (r : result A) (k : A → result B) : result B :=
  match r with
  | Ok a => k a
  | Raise e => Raise e
  end.

Definition is_ok {A} (r : result A) : bool :=
  match r with Ok _ => true | Raise _ => false end.

Declare Scope nooa_scope.
Delimit Scope nooa_scope with nooa.

Notation "'let!' x := r 'in' k" :=
  (result_bind r (λ x, k))
  (at level 10, x name, r at level 100, k at level 200) : nooa_scope.

(** [[f(x) for x in l]] for an [f] that may raise. *)
Section MapResult.
Local Open Scope nooa_scope.
Context {A B : Type} (f : A → result B).

Fixpoint map_result (l : list A) : result (list B) :=
  match l with
  | [] => Ok []
  | x :: l' => let! y := f x in let! ys := map_result l' in Ok (y :: ys)
  end.

Lemma map_result_ok l l' : map_result l = Ok l' ↔ Forall2 (λ x y, f x = Ok y) l l'.
Proof.
  revert l'. induction l as [|x l IH]; intros l'; cbn.
  - split; [by intros [= <-]|]. by inversion 1.
  - split.
    + destruct (f x) as [y|e] eqn:Hy; cbn; [|done]. destruct (map_result l) as [ys|e]; cbn; [|done].
      intros [= <-]. constructor; [done|]. by apply IH.
    + inversion 1 as [|? y ? ys Hy Hys]; subst. rewrite Hy. cbn. apply IH in Hys. by rewrite Hys.
Qed.
End MapResult.

(** ** Tactics shared by the components *)

(** Destruct the scrutinee of one [match] or [if] of the goal or of the
    hypotheses, remembering the equation. *)
Ltac break_match :=
  match goal with
  | |- context [match ?x with _ => _ end] => destruct x eqn:?
  | H : context [match ?x with _ => _ end] |- _ => destruct x eqn:?
  end.

(** Case analysis until nothing is left to destruct, discarding impossible
    branches on the way. *)
Ltac break_all := repeat (break_match; simplify_eq/=; try done).

(** Replace boolean comparisons by the propositions they decide. *)
Ltac bool_prop :=
  repeat match goal with
  | H : (_ && _)%bool = true |- _ => apply andb_true_iff in H as [? ?]
  | H : (_ || _)%bool = false |- _ => apply orb_false_iff in H as [? ?]
  | H : negb _ = true |- _ => apply negb_true_iff in H
  | H : negb _ = false |- _ => apply negb_false_iff in H
  | H : bool_decide _ = true |- _ => apply bool_decide_eq_true in H
  | H : bool_decide _ = false |- _ => apply bool_decide_eq_false in H
  | H : (_ <? _)%nat = true |- _ => apply Nat.ltb_lt in H
  | H : (_ <? _)%nat = false |- _ => apply Nat.ltb_ge in H
  | H : (_ <=? _)%nat = true |- _ => apply Nat.leb_le in H
  | H : (_ <=? _)%nat = false |- _ => apply Nat.leb_gt in H
  | H : (_ =? _)%nat = true |- _ => apply Nat.eqb_eq in H
  | H : (_ =? _)%nat = false |- _ => apply Nat.eqb_neq in H
  | H : (_ <? _)%Z = true |- _ => apply Z.ltb_lt in H
  | H : (_ <? _)%Z = false |- _ => apply Z.ltb_ge in H
  | H : (_ <=? _)%Z = true |- _ => apply Z.leb_le in H
  | H : (_ <=? _)%Z = false |- _ => apply Z.leb_gt in H
  | H : (_ =? _)%Z = true |- _ => apply Z.eqb_eq in H
  | H : (_ =? _)%Z = false |- _ => apply Z.eqb_neq in H
  end.

(** ** Python lists *)

(** [l[i:]] for an integer [i]: a negative index counts from the end and is
    clamped at the front. *)
Definition py_slice_from {A} (i : Z) (l : list A) : list A :=
  if (i <? 0)%Z then drop (length l - Z.to_nat (- i)) l
  else drop (Z.to_nat i) l.

(** [l[:i]]. *)
Definition py_slice_to {A} (i : Z) (l : list A) : list A :=
  if (i <? 0)%Z then take (length l - Z.to_nat (- i)) l
  else take (Z.to_nat i) l.

(** The last [n] elements. *)
Definition last_n {A} (n : nat) (l : list A) : list A :=
  drop (length l - n) l.

Definition snoc {A} (l : list A) (x : A) : list A := l ++ [x].

(** [l.remove(x)]: drop the first occurrence; Python raises [ValueError] when
    there is none, which is [None] here. *)
Fixpoint remove_first {A} `{EqDecision A} (x : A) (l : list A) : option (list A) :=
  match l with
  | [] => None
  | y :: l' => if decide (x = y) then Some l' else (y ::.) <$> remove_first x l'
  end.

(** The list after [if x in l: l.remove(x)]. *)
Definition discard_first {A} `{EqDecision A} (x : A) (l : list A) : list A :=
  default l (remove_first x l).

(** [l.insert(i, x)] for a non-negative index: past the end it appends. *)
Definition list_insert_at {A} (i : nat) (x : A) (l : list A) : list A :=
  take i l ++ x :: drop i l.

(** [max] of a list of integers with a default. *)
Definition max_default (d : Z) (l : list Z) : Z := foldr Z.max d l.

(** ** The reflexive transitive closure of a step relation

    Transitions carry a label, and a run records the labels in order. *)
Section Star.
Context {S L : Type} (step : S → L → S → Prop).

Inductive steps : S → list L → S → Prop :=
  | steps_nil s : steps s [] s
  | steps_cons s l s' ls s'' :
      step s l s' → steps s' ls s'' → steps s (l :: ls) s''.

Lemma steps_app s ls s' ls' s'' :
  steps s ls s' → steps s' ls' s'' → steps s (ls ++ ls') s''.
Proof. induction 1; simpl; eauto using steps. Qed.

Lemma steps_snoc s ls s' l s'' :
  steps s ls s' → step s' l s'' → steps s (ls ++ [l]) s''.
Proof. intros. eapply steps_app; eauto using steps. Qed.

Lemma steps_snoc_inv s ls l s'' :
  steps s (ls ++ [l]) s'' → ∃ s', steps s ls s' ∧ step s' l s''.
Proof.
  revert s. induction ls as [|l' ls IH]; intros s Hrun; inversion Hrun as [|? ? s1 ? ? Hs Hr]; subst.
  - inversion Hr; subst. eauto using steps.
  - destruct (IH _ Hr) as (s' & ? & ?). eauto using steps.
Qed.

(** An invariant of the steps is an invariant of the runs. *)
Lemma steps_invariant (P : S → Prop) :
  (∀ s l s', P s → step s l s' → P s') →
  ∀ s ls s', P s → steps s ls s' → P s'.
Proof. intros Hstep s ls s' Hs Hsteps. induction Hsteps; eauto. Qed.

(** A function that computes the next state yields a run. *)
Fixpoint computes (next : S → L → S) (s : S) (ls : list L) : Prop :=
  match ls with
  | [] => True
  | l :: ls' => step s l (next s l) ∧ computes next (next s l) ls'
  end.

Lemma steps_foldl next s ls : computes next s ls → steps s ls (foldl next s ls).
Proof. revert s. induction ls as [|l ls IH]; intros s; [constructor|]. intros [H1 H2]. econstructor; eauto. Qed.
End Star.

(** ** Lemmas on Python lists *)
Section PyListLemmas.
Context {A : Type}.
Implicit Types (l : list A) (x y : A).

Lemma py_slice_from_neg n l :
  0 < n → py_slice_from (- Z.of_nat n) l = last_n n l.
Proof.
  intros Hn. unfold py_slice_from, last_n.
  destruct (Z.ltb_spec (- Z.of_nat n) 0); [|lia].
  by rewrite Z.opp_involutive, Nat2Z.id.
Qed.

Lemma py_slice_from_zero l : py_slice_from 0 l = l.
Proof. done. Qed.

Lemma last_n_length n l : length (last_n n l) = n `min` length l.
Proof. unfold last_n. rewrite length_drop. lia. Qed.

Lemma last_n_all n l : length l ≤ n → last_n n l = l.
Proof. intros. unfold last_n. by replace (length l - n) with 0 by lia. Qed.

Lemma last_n_suffix n l : last_n n l `suffix_of` l.
Proof. exists (take (length l - n) l). symmetry. apply take_drop. Qed.

Lemma last_n_0 l : last_n 0 l = [].
Proof. unfold last_n. apply drop_ge. lia. Qed.

Lemma last_n_app_ge n l1 l2 :
  length l2 ≤ n → last_n n (l1 ++ l2) = last_n (n - length l2) l1 ++ l2.
Proof.
  intros. unfold last_n. rewrite length_app.
  replace (length l1 + length l2 - n) with (length l1 - (n - length l2)) by lia.
  rewrite drop_app_le by lia. done.
Qed.

Lemma last_n_app_le n l1 l2 :
  n ≤ length l2 → last_n n (l1 ++ l2) = last_n n l2.
Proof.
  intros. unfold last_n. rewrite length_app.
  rewrite drop_app_ge by lia. f_equal. lia.
Qed.

Lemma last_n_last_n n m l : n ≤ m → last_n n (last_n m l) = last_n n l.
Proof.
  intros. unfold last_n. rewrite drop_drop, length_drop. f_equal. lia.
Qed.

Lemma list_insert_at_length i x l :
  length (list_insert_at i x l) = S (length l).
Proof.
  unfold list_insert_at. rewrite length_app. simpl.
  rewrite length_take, length_drop. lia.
Qed.

Lemma list_insert_at_app l1 l2 x :
  list_insert_at (length l1) x (l1 ++ l2) = l1 ++ x :: l2.
Proof. unfold list_insert_at. by rewrite take_app_length, drop_app_length. Qed.

Lemma elem_of_list_insert_at i x y l :
  y ∈ list_insert_at i x l ↔ y = x ∨ y ∈ l.
Proof.
  unfold list_insert_at.
  rewrite elem_of_app, elem_of_cons.
  rewrite <- (take_drop i l) at 3. rewrite elem_of_app. tauto.
Qed.

Context `{EqDecision A}.

Lemma remove_first_None x l : remove_first x l = None ↔ x ∉ l.
Proof.
  induction l as [|y l IH]; simpl; [set_solver|].
  case_decide; [set_solver|]. rewrite fmap_None, IH. set_solver.
Qed.

Lemma remove_first_Some x l l' :
  remove_first x l = Some l' ↔
  ∃ l1 l2, l = l1 ++ x :: l2 ∧ x ∉ l1 ∧ l' = l1 ++ l2.
Proof.
  revert l'. induction l as [|y l IH]; intros l'; simpl.
  { split; [done|]. intros (l1 & l2 & ? & _). by destruct l1. }
  case_decide as Hxy; subst.
  - split.
    + intros [= <-]. exists [], l. set_solver.
    + intros ([|z l1] & l2 & Heq & Hnin & ->); simplify_eq/=; [done|set_solver].
  - rewrite fmap_Some. split.
    + intros (l0 & (l1 & l2 & -> & Hnin & ->)%IH & ->).
      exists (y :: l1), l2. set_solver.
    + intros ([|z l1] & l2 & Heq & Hnin & ->); simplify_eq/=.
      exists (l1 ++ l2). split; [|done]. apply IH. exists l1, l2. set_solver.
Qed.

Lemma discard_first_absent x l : x ∉ l → discard_first x l = l.
Proof. intros ?%remove_first_None. unfold discard_first. by simplify_option_eq. Qed.

Lemma discard_first_app x l1 l2 :
  x ∉ l1 → discard_first x (l1 ++ x :: l2) = l1 ++ l2.
Proof.
  intros Hnin. unfold discard_first.
  destruct (remove_first x (l1 ++ x :: l2)) as [l'|] eqn:Hr.
  - apply remove_first_Some in Hr as (k1 & k2 & Heq & Hk & ->). simpl.
    revert k1 Heq Hk. induction l1 as [|y l1 IH]; intros k1 Heq Hk.
    + destruct k1; simplify_eq/=; [done|set_solver].
    + destruct k1 as [|z k1]; simplify_eq/=; [set_solver|].
      f_equal. apply IH; set_solver.
  - apply remove_first_None in Hr. set_solver.
Qed.

Lemma discard_first_snoc x l : x ∉ l → discard_first x (l ++ [x]) = l.
Proof. intros. rewrite discard_first_app by done. apply app_nil_r. Qed.

Lemma discard_first_sublist x l : discard_first x l `sublist_of` l.
Proof.
  unfold discard_first. destruct (remove_first x l) as [l'|] eqn:Hr; [|done].
  apply remove_first_Some in Hr as (l1 & l2 & -> & _ & ->). simpl.
  apply sublist_app; [done|]. by apply sublist_cons.
Qed.

Lemma elem_of_discard_first_ne x y l :
  x ≠ y → y ∈ discard_first x l ↔ y ∈ l.
Proof.
  intros Hne. unfold discard_first.
  destruct (remove_first x l) as [l'|] eqn:Hr; [|done].
  apply remove_first_Some in Hr as (l1 & l2 & -> & _ & ->). set_solver.
Qed.

Lemma discard_first_NoDup x l :
  NoDup l → NoDup (discard_first x l) ∧ x ∉ discard_first x l.
Proof.
  intros Hnd. split; [by eapply sublist_NoDup, discard_first_sublist|].
  unfold discard_first. destruct (remove_first x l) as [l'|] eqn:Hr; simpl.
  - apply remove_first_Some in Hr as (l1 & l2 & -> & Hnin & ->).
    apply NoDup_app in Hnd as (_ & _ & Hnd%NoDup_cons_1_1). set_solver.
  - by apply remove_first_None in Hr.
Qed.

Lemma discard_first_filter x l :
  NoDup l → discard_first x l = filter (λ y, y ≠ x) l.
Proof.
  intros Hnd. destruct (decide (x ∈ l)) as [Hin|Hnin].
  - apply list_elem_of_split in Hin as (l1 & l2 & ->).
    apply NoDup_app in Hnd as (Hnd1 & Hd & [Hx Hnd2]%NoDup_cons).
    rewrite discard_first_app by set_solver.
    rewrite filter_app, filter_cons_False by tauto.
    assert (Hall : ∀ k : list A, x ∉ k → filter (λ y, y ≠ x) k = k).
    { induction k as [|z k IH]; intros Hk; [done|].
      rewrite filter_cons_True by set_solver. f_equal. apply IH. set_solver. }
    by rewrite !Hall by set_solver.
  - rewrite discard_first_absent by done. symmetry.
    induction l as [|z l IH]; [done|]. apply NoDup_cons in Hnd as [_ Hnd].
    rewrite filter_cons_True by set_solver. f_equal. apply IH; set_solver.
Qed.
End PyListLemmas.

Lemma max_default_ge d l : (d ≤ max_default d l)%Z.
Proof. induction l; simpl; lia. Qed.

Lemma max_default_elem d l z : z ∈ l → (z ≤ max_default d l)%Z.
Proof. induction 1; simpl; lia. Qed.

Lemma max_default_le d l b :
  (d ≤ b)%Z → Forall (λ z, z ≤ b)%Z l → (max_default d l ≤ b)%Z.
Proof. intros Hd. induction 1; simpl; lia. Qed.

Create HintDb nooa.
(** ** Counting *)

(** How many elements of a list satisfy a test. *)
Fixpoint count {A} (p : A → bool) (l : list A) : Z :=
  match l with
  | [] => 0
  | x :: l' => (if p x then 1 else 0) + count p l'
  end%Z.

Section Count.
Context {A : Type} (p : A → bool).
Implicit Types (l : list A) (x y : A).

Lemma count_app l1 l2 : count p (l1 ++ l2) = (count p l1 + count p l2)%Z.
Proof. induction l1 as [|x l1 IH]; simpl; [done|]. rewrite IH. lia. Qed.

Lemma count_nonneg l : (0 <= count p l)%Z.
Proof. induction l as [|x l IH]; simpl; [done|]. case_match; lia. Qed.

Lemma count_le_length l : (count p l <= Z.of_nat (length l))%Z.
Proof. induction l as [|x l IH]; simpl; [done|]. case_match; lia. Qed.

Lemma count_insert l i x y :
  l !! i = Some x →
  count p (<[i := y]> l) = (count p l - (if p x then 1 else 0) + (if p y then 1 else 0))%Z.
Proof.
  intros Hi. apply list_elem_of_split_length in Hi as (l1 & l2 & -> & ->).
  rewrite insert_app_r_alt by lia. rewrite Nat.sub_diag. simpl.
  rewrite !count_app. simpl. lia.
Qed.

Lemma count_pos l i x : l !! i = Some x → p x = true → (0 < count p l)%Z.
Proof.
  intros Hi Hp. apply list_elem_of_split_length in Hi as (l1 & l2 & -> & _).
  rewrite count_app. simpl. rewrite Hp. pose proof (count_nonneg l1). pose proof (count_nonneg l2). lia.
Qed.

Lemma count_pos_inv l : (0 < count p l)%Z → ∃ i x, l !! i = Some x ∧ p x = true.
Proof.
  induction l as [|x l IH]; simpl; [lia|]. destruct (p x) eqn:Hx; [by exists 0, x|].
  intros Hpos. destruct IH as (i & y & ? & ?); [lia|]. by exists (S i), y.
Qed.

Lemma count_zero l : Forall (λ x, p x = false) l → count p l = 0%Z.
Proof. induction 1 as [|x l Hx _ IH]; simpl; [done|]. by rewrite Hx, IH. Qed.
End Count.

#[export] Hint Resolve max_default_ge max_default_elem last_n_suffix : nooa.
