(* ===== verification/PyStr.v ===== *)
(** * PyStr: the Python string operations the modelled code uses

    Strings are sequences of the code points 0 to 255 (one [ascii] each), on
    which the functions below agree with CPython's [str] methods: decimal
    digits are [0-9] only, white space is what [str.isspace] accepts.  This
    file holds [int(s)], [str(n)], [s.split("..")], [s.split(".")] and
    [s.lower()], with the round trips that the tags of the event log and the
    dotted names of modules need. *)

From S2P Require Import Prelude.
From stdpp Require Export pretty.
From Stdlib Require Import Ascii.

Open Scope string_scope.

(** ** Characters *)

Definition code (c : ascii) : N := N_of_ascii c.

Definition is_digit (c : ascii) : bool :=
  (N.leb 48 (code c) && N.leb (code c) 57)%bool.

Definition digit_val (c : ascii) : Z := Z.of_N (code c) - 48.

(** [str.isspace] on one code point below 256. *)
Definition is_space (c : ascii) : bool :=
  ((N.leb 9 (code c) && N.leb (code c) 13)
   || (N.leb 28 (code c) && N.leb (code c) 32)
   || N.eqb (code c) 133 || N.eqb (code c) 160)%bool.

(** [str.lower] on one code point below 256. *)
Definition lower_char (c : ascii) : ascii :=
  if ((N.leb 65 (code c) && N.leb (code c) 90)
      || (N.leb 192 (code c) && N.leb (code c) 222 && negb (N.eqb (code c) 215)))%bool
  then ascii_of_N (code c + 32) else c.

(** ** Whole strings *)

Fixpoint lower (s : string) : string :=
  match s with
  | "" => ""
  | String c s' => String (lower_char c) (lower s')
  end.

Fixpoint lstrip (s : string) : string :=
  match s with
  | "" => ""
  | String c s' => if is_space c then lstrip s' else s
  end.

Fixpoint rstrip (s : string) : string :=
  match s with
  | "" => ""
  | String c s' =>
      match rstrip s' with
      | "" => if is_space c then "" else String c ""
      | t => String c t
      end
  end.

Definition strip (s : string) : string := rstrip (lstrip s).

(** [x in s]: the substring test. *)
Fixpoint contains (x s : string) : bool :=
  (String.prefix x s ||
   match s with "" => false | String _ s' => contains x s' end)%bool.

(** The digits of a decimal literal, an underscore being allowed between two
    digits. *)
Fixpoint digits_go (acc : Z) (s : string) : option Z :=
  match s with
  | "" => Some acc
  | String c s' =>
      if is_digit c then digits_go (acc * 10 + digit_val c) s'
      else match c, s' with
           | "_"%char, String d s'' =>
               if is_digit d then digits_go (acc * 10 + digit_val d) s'' else None
           | _, _ => None
           end
  end.

Definition digits (s : string) : option Z :=
  match s with
  | String c s' => if is_digit c then digits_go (digit_val c) s' else None
  | "" => None
  end.

(** [int(s)]; [ValueError] is [None].  (CPython also refuses literals of more
    than 4300 digits.) *)
Definition py_int (s : string) : option Z :=
  match strip s with
  | String "-" s' => Z.opp <$> digits s'
  | String "+" s' => digits s'
  | s' => digits s'
  end.

(** [s.split("..")]. *)
Fixpoint split_dots (s : string) : list string :=
  match s with
  | "" => [""]
  | String c s' =>
      match c, s' with
      | "."%char, String "." s'' => "" :: split_dots s''
      | _, _ =>
          match split_dots s' with
          | [] => [String c ""]
          | p :: ps => String c p :: ps
          end
      end
  end.

(** [".." in s]. *)
Definition has_dots (s : string) : bool :=
  match split_dots s with [_] => false | _ => true end.

(** [str(n)] of an integer. *)
Definition str_int (n : Z) : string := pretty n.

(** ** Decimal literals read back *)

Definition all_digits (s : string) : Prop := Forall (λ c, is_digit c = true) (String.list_ascii_of_string s).

Lemma is_digit_not_space c : is_digit c = true → is_space c = false.
Proof.
  unfold is_digit, is_space. intros [?%N.leb_le ?%N.leb_le]%andb_true_iff.
  rewrite !orb_false_iff, !andb_false_iff, !N.leb_gt, !N.eqb_neq. lia.
Qed.

Lemma digits_go_app acc s t :
  all_digits s → ∃ acc', digits_go acc s = Some acc' ∧ digits_go acc (s +:+ t) = digits_go acc' t.
Proof.
  revert acc. induction s as [|c s IH]; intros acc Hs; simpl.
  { by exists acc. }
  inversion Hs as [|? ? Hc Hs']; simplify_eq/=. rewrite Hc. by apply IH.
Qed.

Lemma lstrip_digit c s : is_digit c = true → lstrip (String c s) = String c s.
Proof. intros H%is_digit_not_space. simpl. by rewrite H. Qed.

Lemma rstrip_digits s : all_digits s → rstrip s = s.
Proof.
  induction s as [|c s IH]; intros Hs; simpl; [done|].
  inversion Hs as [|? ? Hc Hs']; simplify_eq/=. rewrite IH by done.
  apply is_digit_not_space in Hc. by destruct s; rewrite ?Hc.
Qed.

Lemma rstrip_minus s : all_digits s → rstrip (String "-" s) = String "-" s.
Proof. intros H. simpl. rewrite rstrip_digits by done. by destruct s. Qed.

(** What [pretty] prints for a natural number. *)
Lemma pretty_N_char_digit n : (n < 10)%N → is_digit (pretty_N_char n) = true.
Proof.
  intros Hn. assert (n ∈ [0;1;2;3;4;5;6;7;8;9]%N) as Hin
    by (rewrite !elem_of_cons; lia).
  rewrite !elem_of_cons, elem_of_nil in Hin. by destruct_or!; subst.
Qed.

Lemma pretty_N_char_val n : (n < 10)%N → digit_val (pretty_N_char n) = Z.of_N n.
Proof.
  intros Hn. assert (n ∈ [0;1;2;3;4;5;6;7;8;9]%N) as Hin
    by (rewrite !elem_of_cons; lia).
  rewrite !elem_of_cons, elem_of_nil in Hin. by destruct_or!; subst.
Qed.

Lemma pretty_N_go_digits n s : all_digits s → all_digits (pretty_N_go n s).
Proof.
  revert s. induction n as [n IH] using (well_founded_induction N.lt_wf_0).
  intros s Hs. destruct (decide (n = 0%N)) as [->|Hn].
  { by rewrite pretty_N_go_0. }
  rewrite pretty_N_go_step by lia.
  apply IH; [apply N.div_lt; lia|].
  constructor; [|done]. apply pretty_N_char_digit. apply N.mod_lt. lia.
Qed.

Lemma pretty_N_go_read n s acc :
  all_digits s →
  digits_go 0 (pretty_N_go n s) = digits_go (Z.of_N n) s ∧
  (acc = 0%Z → digits_go acc (pretty_N_go n s) = digits_go (Z.of_N n) s).
Proof.
  intros Hs. enough (digits_go 0 (pretty_N_go n s) = digits_go (Z.of_N n) s)
    by (split; intros; by subst).
  revert s Hs. induction n as [n IH] using (well_founded_induction N.lt_wf_0).
  intros s Hs. destruct (decide (n = 0%N)) as [->|Hn].
  { by rewrite pretty_N_go_0. }
  assert (Hmod : (n `mod` 10 < 10)%N) by (apply N.mod_lt; lia).
  rewrite pretty_N_go_step by lia. rewrite IH.
  - simpl. rewrite pretty_N_char_digit, pretty_N_char_val by done. f_equal.
    rewrite (N.div_mod n 10) at 3 by lia. lia.
  - apply N.div_lt; lia.
  - constructor; [|done]. by apply pretty_N_char_digit.
Qed.

Lemma all_digits_pretty_N (n : N) : all_digits (pretty n).
Proof.
  unfold pretty, pretty_N. case_decide.
  - repeat constructor.
  - apply pretty_N_go_digits. constructor.
Qed.

Lemma pretty_N_nonempty (n : N) : pretty n ≠ "".
Proof.
  unfold pretty, pretty_N. case_decide; [done|]. intros Hs.
  destruct (pretty_N_go_read n "" 0 ltac:(constructor)) as [Hr _].
  rewrite Hs in Hr. simplify_eq/=. lia.
Qed.

Lemma digits_pretty_N (n : N) : digits (pretty n) = Some (Z.of_N n).
Proof.
  assert (Hgo : digits_go 0 (pretty n) = Some (Z.of_N n)).
  { unfold pretty, pretty_N. case_decide as Hn; [by subst|].
    destruct (pretty_N_go_read n "" 0 ltac:(constructor)) as [-> _]. done. }
  pose proof (all_digits_pretty_N n) as Hd. pose proof (pretty_N_nonempty n) as Hne.
  destruct (pretty n) as [|c s]; [done|]. inversion Hd as [|? ? Hc _]; subst.
  simpl in *. by rewrite Hc in *.
Qed.

Lemma strip_all_digits s : all_digits s → strip s = s.
Proof.
  intros Hs. unfold strip. destruct s as [|c s]; [done|].
  inversion Hs as [|? ? Hc _]; subst. rewrite lstrip_digit by done.
  by apply rstrip_digits.
Qed.

Lemma py_int_digits s : all_digits s → s ≠ "" → py_int s = digits s.
Proof.
  intros Hs Hne. unfold py_int. rewrite strip_all_digits by done.
  destruct s as [|c s]; [done|]. inversion Hs as [|? ? Hc _]; simplify_eq/=.
  destruct c as [b0 b1 b2 b3 b4 b5 b6 b7].
  by destruct b0, b1, b2, b3, b4, b5, b6, b7.
Qed.

(** [int(str(n)) == n]. *)
Lemma py_int_str_int (n : Z) : py_int (str_int n) = Some n.
Proof.
  unfold str_int. destruct n as [|p|p].
  - reflexivity.
  - change (pretty (Z.pos p)) with (pretty (N.pos p)).
    rewrite py_int_digits by auto using all_digits_pretty_N, pretty_N_nonempty.
    apply digits_pretty_N.
  - change (pretty (Z.neg p)) with (String "-" (pretty (N.pos p))).
    unfold py_int, strip.
    change (lstrip (String "-" (pretty (N.pos p)))) with (String "-" (pretty (N.pos p))).
    rewrite rstrip_minus by apply all_digits_pretty_N.
    by rewrite digits_pretty_N.
Qed.

(** ** Splitting on [".."] *)

Definition no_dot (s : string) : Prop :=
  Forall (λ c, c ≠ "."%char) (String.list_ascii_of_string s).

Lemma split_dots_no_dot s : no_dot s → split_dots s = [s].
Proof.
  induction s as [|c s IH]; intros Hs; [done|].
  inversion Hs as [|? ? Hc Hs']; simplify_eq/=. rewrite IH by done.
  destruct c as [b0 b1 b2 b3 b4 b5 b6 b7].
  destruct b0, b1, b2, b3, b4, b5, b6, b7; done.
Qed.

Lemma split_dots_cons c s :
  c ≠ "."%char →
  split_dots (String c s) =
    match split_dots s with [] => [String c ""] | p :: ps => String c p :: ps end.
Proof.
  intros Hc. destruct c as [b0 b1 b2 b3 b4 b5 b6 b7].
  by destruct b0, b1, b2, b3, b4, b5, b6, b7.
Qed.

Lemma split_dots_range s t :
  no_dot s → no_dot t → split_dots (s +:+ ".." +:+ t) = [s; t].
Proof.
  intros Hs Ht. induction s as [|c s IH].
  - simpl. by rewrite split_dots_no_dot.
  - inversion Hs as [|? ? Hc Hs']; subst.
    change (String c s +:+ ".." +:+ t) with (String c (s +:+ ".." +:+ t)).
    rewrite split_dots_cons by done. by rewrite IH.
Qed.

Lemma no_dot_all_digits s : all_digits s → no_dot s.
Proof. intros Hs. eapply Forall_impl; [exact Hs|]. by intros c Hc ->. Qed.

Lemma no_dot_str_int n : no_dot (str_int n).
Proof.
  unfold str_int. destruct n as [|p|p].
  - repeat constructor; done.
  - apply no_dot_all_digits, (all_digits_pretty_N (N.pos p)).
  - constructor; [done|]. apply no_dot_all_digits, (all_digits_pretty_N (N.pos p)).
Qed.

Lemma str_int_inj n m : str_int n = str_int m → n = m.
Proof. intros H. pose proof (py_int_str_int n) as Hn. rewrite H, py_int_str_int in Hn. congruence. Qed.

#[export] Hint Resolve no_dot_str_int : nooa.

Close Scope string_scope.

(** ** Dotted names *)

(** [s.split(".")]. *)
Fixpoint split_dot (s : string) : list string :=
  match s with
  | EmptyString => [""]
  | String c s' =>
      if Ascii.eqb c "."%char then "" :: split_dot s'
      else match split_dot s' with
           | part :: parts => String c part :: parts
           | [] => [String c ""]
           end
  end.

(** [".".join(parts)]. *)
Fixpoint join_dot (parts : list string) : string :=
  match parts with
  | [] => ""
  | [part] => part
  | part :: parts' => part +:+ "." +:+ join_dot parts'
  end.

(** *** Lemmas *)

Lemma str_app_assoc (a b c : string) : (a +:+ b) +:+ c = a +:+ b +:+ c.
Proof. induction a as [|x a IH]; [done|]. exact (f_equal (String x) IH). Qed.

Lemma str_length_app (a b : string) : String.length (a +:+ b) = (String.length a + String.length b)%nat.
Proof. induction a as [|x a IH]; [done|]. exact (f_equal S IH). Qed.

Lemma split_dot_cons c s :
  split_dot (String c s) =
  if Ascii.eqb c "."%char then "" :: split_dot s
  else match split_dot s with part :: parts => String c part :: parts | [] => [String c ""] end.
Proof. done. Qed.

Lemma split_dot_not_nil s : split_dot s ≠ [].
Proof. destruct s as [|c s]; [done|]. rewrite split_dot_cons. repeat case_match; done. Qed.

Lemma split_dot_app a b : split_dot (a +:+ "." +:+ b) = (split_dot a ++ split_dot b)%list.
Proof.
  induction a as [|c a IH]; [done|].
  change (String c a +:+ "." +:+ b) with (String c (a +:+ "." +:+ b)). rewrite !split_dot_cons, IH.
  destruct (Ascii.eqb c "."%char); [done|].
  destruct (split_dot a) eqn:Ha; [by apply split_dot_not_nil in Ha|done].
Qed.

Lemma join_dot_cons p parts : parts ≠ [] → join_dot (p :: parts) = p +:+ "." +:+ join_dot parts.
Proof. by destruct parts. Qed.

Lemma join_dot_app l1 l2 : l1 ≠ [] → l2 ≠ [] → join_dot (l1 ++ l2) = join_dot l1 +:+ "." +:+ join_dot l2.
Proof.
  intros H1 H2. induction l1 as [|p l1 IH]; [done|]. destruct (decide (l1 = [])) as [->|Hne].
  - by apply join_dot_cons.
  - change ((p :: l1) ++ l2)%list with (p :: (l1 ++ l2))%list.
    rewrite (join_dot_cons p l1) by done. rewrite join_dot_cons by by destruct l1. rewrite IH by done.
    by rewrite !str_app_assoc.
Qed.

Lemma join_split_dot s : join_dot (split_dot s) = s.
Proof.
  induction s as [|c s IH]; [done|]. rewrite split_dot_cons. destruct (Ascii.eqb c "."%char) eqn:Hc.
  - apply Ascii.eqb_eq in Hc as ->. rewrite join_dot_cons, IH by apply split_dot_not_nil. done.
  - destruct (split_dot s) as [|p parts] eqn:Hs; [by apply split_dot_not_nil in Hs|].
    destruct parts; cbn in IH |- *; by rewrite <- IH.
Qed.
