(* ===== verification/PyDict.v ===== *)
(** * PyDict: Python dictionaries, with their insertion order

    A [dict] is an association list in insertion order whose keys are
    pairwise different ([dict_wf]).  Assigning to a present key keeps its
    position, assigning to a new key appends, deleting removes the pair.  The
    modelled code iterates over dictionaries and relies on this order (the
    channel registry, [find_tag], the handler tables). *)

From S2P Require Import Prelude.

Section PyDict.
Context {K : Type} `{EqDecision K} {V : Type}.

Definition dict := list (K * V).

(** [d.get(k)]. *)
Fixpoint dict_get (k : K) (d : dict) : option V :=
  match d with
  | [] => None
  | (k', v) :: d' => if decide (k = k') then Some v else dict_get k d'
  end.

(** [d[k] = v]. *)
Fixpoint dict_set (k : K) (v : V) (d : dict) : dict :=
  match d with
  | [] => [(k, v)]
  | (k', v') :: d' => if decide (k = k') then (k', v) :: d' else (k', v') :: dict_set k v d'
  end.

(** [d.pop(k, None)]. *)
Fixpoint dict_del (k : K) (d : dict) : dict :=
  match d with
  | [] => []
  | (k', v') :: d' => if decide (k = k') then d' else (k', v') :: dict_del k d'
  end.

Definition dict_keys (d : dict) : list K := d.*1.
Definition dict_values (d : dict) : list V := d.*2.
Definition dict_mem (k : K) (d : dict) : bool := bool_decide (is_Some (dict_get k d)).

(** [d.update(e)]. *)
Definition dict_update (d e : dict) : dict :=
  foldl (λ acc kv, dict_set kv.1 kv.2 acc) d e.

Definition dict_wf (d : dict) : Prop := NoDup (dict_keys d).

Implicit Types (d e : dict) (k : K) (v : V).

Lemma dict_get_Some_elem k v d : dict_get k d = Some v → (k, v) ∈ d.
Proof.
  induction d as [|[k' v'] d IH]; csimpl; [done|].
  case_decide; intros; simplify_eq; set_solver.
Qed.

Lemma dict_get_None k d : dict_get k d = None ↔ k ∉ dict_keys d.
Proof.
  unfold dict_keys. induction d as [|[k' v'] d IH]; csimpl; [set_solver|].
  case_decide; [set_solver|]. rewrite IH. set_solver.
Qed.

Lemma dict_get_is_Some k d : is_Some (dict_get k d) ↔ k ∈ dict_keys d.
Proof.
  rewrite <- not_eq_None_Some, dict_get_None.
  split; [|tauto]. destruct (decide (k ∈ dict_keys d)); tauto.
Qed.

Lemma dict_get_elem k v d : dict_wf d → dict_get k d = Some v ↔ (k, v) ∈ d.
Proof.
  unfold dict_wf, dict_keys. intros Hwf. split; [apply dict_get_Some_elem|].
  induction d as [|[k' v'] d IH]; csimpl in *; [set_solver|].
  apply NoDup_cons in Hwf as [Hk' Hwf].
  intros [Heq|Hin]%elem_of_cons; simplify_eq.
  - by rewrite decide_True.
  - rewrite decide_False; [by apply IH|]. intros ->.
    apply Hk'. by apply (list_elem_of_fmap_2 fst _ (k', v)).
Qed.

Lemma dict_get_set k k' v d :
  dict_get k' (dict_set k v d) = if decide (k' = k) then Some v else dict_get k' d.
Proof.
  induction d as [|[k0 v0] d IH]; csimpl; [done|].
  repeat (case_decide; simplify_eq/=; try done).
Qed.

Lemma dict_get_set_eq k v d : dict_get k (dict_set k v d) = Some v.
Proof. rewrite dict_get_set. by rewrite decide_True. Qed.

Lemma dict_get_set_ne k k' v d : k' ≠ k → dict_get k' (dict_set k v d) = dict_get k' d.
Proof. intros. rewrite dict_get_set. by rewrite decide_False. Qed.

Lemma dict_keys_set_present k v d :
  k ∈ dict_keys d → dict_keys (dict_set k v d) = dict_keys d.
Proof.
  unfold dict_keys. induction d as [|[k' v'] d IH]; csimpl; [set_solver|].
  case_decide; [done|]. intros Hin. csimpl. rewrite IH; set_solver.
Qed.

Lemma dict_keys_set_absent k v d :
  k ∉ dict_keys d → dict_keys (dict_set k v d) = dict_keys d ++ [k].
Proof.
  unfold dict_keys. induction d as [|[k' v'] d IH]; csimpl; [done|].
  intros Hnin. case_decide; [set_solver|]. csimpl. rewrite IH; set_solver.
Qed.

Lemma dict_set_absent k v d : k ∉ dict_keys d → dict_set k v d = d ++ [(k, v)].
Proof.
  unfold dict_keys. induction d as [|[k' v'] d IH]; csimpl; [done|].
  intros Hnin. case_decide; [set_solver|]. rewrite IH; set_solver.
Qed.

Lemma elem_of_dict_keys_set k k' v d :
  k' ∈ dict_keys (dict_set k v d) ↔ k' = k ∨ k' ∈ dict_keys d.
Proof.
  destruct (decide (k ∈ dict_keys d)).
  - rewrite dict_keys_set_present by done. set_solver.
  - rewrite dict_keys_set_absent by done. set_solver.
Qed.

Lemma dict_wf_set k v d : dict_wf d → dict_wf (dict_set k v d).
Proof.
  unfold dict_wf. destruct (decide (k ∈ dict_keys d)).
  - by rewrite dict_keys_set_present.
  - rewrite dict_keys_set_absent by done. intros.
    apply NoDup_app. split_and!; [done|set_solver|apply NoDup_singleton].
Qed.

Lemma dict_keys_del k d : dict_wf d → dict_keys (dict_del k d) = filter (λ k', k' ≠ k) (dict_keys d).
Proof.
  unfold dict_wf, dict_keys. induction d as [|[k' v'] d IH]; csimpl; [done|].
  intros [Hnin Hnd]%NoDup_cons. case_decide; subst.
  - rewrite filter_cons_False by tauto. symmetry.
    clear IH Hnd. induction (d.*1) as [|z l IH]; [done|].
    rewrite filter_cons_True by set_solver. f_equal. apply IH. set_solver.
  - rewrite filter_cons_True by done. csimpl. f_equal. by apply IH.
Qed.

Lemma dict_wf_del k d : dict_wf d → dict_wf (dict_del k d).
Proof. intros Hwf. unfold dict_wf. rewrite dict_keys_del by done. by apply NoDup_filter. Qed.

Lemma dict_get_del_ne k k' d : k' ≠ k → dict_get k' (dict_del k d) = dict_get k' d.
Proof.
  intros Hk. induction d as [|[k0 v0] d IH]; csimpl; [done|].
  repeat (case_decide; simplify_eq/=; try done).
Qed.

Lemma dict_get_del k k' d :
  dict_wf d → dict_get k' (dict_del k d) = if decide (k' = k) then None else dict_get k' d.
Proof.
  intros Hwf. case_decide as Hk; subst.
  - apply dict_get_None. rewrite dict_keys_del by done. rewrite list_elem_of_filter. tauto.
  - by apply dict_get_del_ne.
Qed.

Lemma Forall_dict_set (P : V → Prop) k v d :
  P v → Forall (λ kv, P kv.2) d → Forall (λ kv, P kv.2) (dict_set k v d).
Proof. intros Hv. induction 1 as [|[k' v'] d Hd Hall IH]; cbn; [by repeat constructor|]. case_decide; by constructor. Qed.

Lemma Forall_dict_del (P : V → Prop) k d : Forall (λ kv, P kv.2) d → Forall (λ kv, P kv.2) (dict_del k d).
Proof. induction 1 as [|[k' v'] d Hd Hall IH]; cbn; [by constructor|]. case_decide; [done|by constructor]. Qed.

Lemma dict_del_absent k d : k ∉ dict_keys d → dict_del k d = d.
Proof.
  unfold dict_keys. induction d as [|[k' v'] d IH]; csimpl; [done|].
  intros Hnin. case_decide; [set_solver|]. rewrite IH; set_solver.
Qed.

Lemma dict_wf_update d e : dict_wf d → dict_wf (dict_update d e).
Proof.
  unfold dict_update. revert d. induction e as [|[k v] e IH]; intros d Hwf; csimpl; [done|].
  by apply IH, dict_wf_set.
Qed.

Lemma dict_get_update k d e :
  dict_wf e →
  dict_get k (dict_update d e) =
    match dict_get k e with Some v => Some v | None => dict_get k d end.
Proof.
  unfold dict_update, dict_wf, dict_keys. revert d.
  induction e as [|[k0 v0] e IH]; intros d Hwf; csimpl in *; [done|].
  apply NoDup_cons in Hwf as [Hnin Hwf]. rewrite IH by done.
  rewrite dict_get_set. repeat case_decide; subst; try done.
  destruct (dict_get k0 e) eqn:Hg; [|done].
  exfalso. apply Hnin. apply dict_get_is_Some. eauto.
Qed.

Lemma dict_mem_true k d : dict_mem k d = true ↔ k ∈ dict_keys d.
Proof. unfold dict_mem. by rewrite bool_decide_eq_true, dict_get_is_Some. Qed.

Lemma dict_mem_false k d : dict_mem k d = false ↔ k ∉ dict_keys d.
Proof. unfold dict_mem. by rewrite bool_decide_eq_false, dict_get_is_Some. Qed.

Lemma dict_wf_nil : dict_wf [].
Proof. apply NoDup_nil_2. Qed.
End PyDict.

Arguments dict : clear implicits.

#[export] Hint Resolve dict_wf_nil dict_wf_set dict_wf_del dict_wf_update : nooa.
