(* ===== verification/PyFloat.v ===== *)
(** * PyFloat: Python floats

    IEEE 754 binary64 numbers and the comparisons and arithmetic the program
    uses, on the Standard Library's executable [spec_float]. *)

From Stdlib Require Import ZArith SpecFloat Lia.
From S2P Require Import Prelude.

#[local] Open Scope Z_scope.

Notation pyfloat := spec_float (only parsing).

Definition f_lt (x y : pyfloat) : bool := SFltb x y.
Definition f_le (x y : pyfloat) : bool := SFleb x y.
Definition f_add (x y : pyfloat) : pyfloat := SFadd 53 1024 x y.
Definition f_sub (x y : pyfloat) : pyfloat := SFsub 53 1024 x y.
Definition f_div (x y : pyfloat) : pyfloat := SFdiv 53 1024 x y.
Definition f_mul (x y : pyfloat) : pyfloat := SFmul 53 1024 x y.
Definition f_zero : pyfloat := S754_zero false.
Definition f_one : pyfloat := binary_normalize 53 1024 1 0 false.

(** [float(n)] of an integer: [OverflowError] when it rounds to infinity. *)
Definition f_of_Z (n : Z) : pyfloat := binary_normalize 53 1024 n 0 false.

(** [max(x, y)] keeps [x] unless [y > x]; [min(x, y)] keeps [x] unless
    [y < x]. *)
Definition f_max (x y : pyfloat) : pyfloat := if f_lt x y then y else x.
Definition f_min (x y : pyfloat) : pyfloat := if f_lt y x then y else x.

(** The order of the numbers that are not NaN, as a lexicographic key. *)
Definition f_key (x : pyfloat) : option (Z * Z * Z) :=
  match x with
  | S754_nan => None
  | S754_infinity true => Some (-2, 0, 0)
  | S754_infinity false => Some (2, 0, 0)
  | S754_zero _ => Some (0, 0, 0)
  | S754_finite true m e => Some (-1, - e, - Zpos m)
  | S754_finite false m e => Some (1, e, Zpos m)
  end.

Definition key_lt (a b : Z * Z * Z) : Prop :=
  a.1.1 < b.1.1 ∨ (a.1.1 = b.1.1 ∧ (a.1.2 < b.1.2 ∨ (a.1.2 = b.1.2 ∧ a.2 < b.2))).

Definition key_compare (a b : Z * Z * Z) : comparison :=
  match a.1.1 ?= b.1.1 with
  | Eq => match a.1.2 ?= b.1.2 with Eq => a.2 ?= b.2 | c => c end
  | c => c
  end.

Lemma key_compare_lt a b : key_compare a b = Lt ↔ key_lt a b.
Proof.
  unfold key_compare, key_lt.
  destruct (Z.compare_spec a.1.1 b.1.1); [|split; [tauto|done]|split; [done|lia]].
  destruct (Z.compare_spec a.1.2 b.1.2); [|split; [tauto|done]|split; [done|lia]].
  destruct (Z.compare_spec a.2 b.2); split; try done; lia.
Qed.

Lemma SFcompare_key x y :
  SFcompare x y =
    match f_key x, f_key y with Some a, Some b => Some (key_compare a b) | _, _ => None end.
Proof.
  destruct x as [sx|sx| |sx mx ex]; [|destruct sx|done|destruct sx];
    (destruct y as [sy|sy| |sy my ey]; [|destruct sy| |destruct sy]); try reflexivity.
  all: cbn; unfold key_compare; cbn.
  all: rewrite ?Z.compare_opp, ?Z.opp_involutive.
  rewrite (Z.compare_antisym ex ey). destruct (ex ?= ey); cbn; [|done..].
  by rewrite (Pos.compare_antisym mx my).
Qed.

Lemma f_lt_key x y :
  f_lt x y = true ↔ ∃ a b, f_key x = Some a ∧ f_key y = Some b ∧ key_lt a b.
Proof.
  unfold f_lt, SFltb. rewrite SFcompare_key.
  destruct (f_key x) as [a|], (f_key y) as [b|]; [|split; [done|naive_solver]..].
  transitivity (key_lt a b).
  - rewrite <- key_compare_lt. by destruct (key_compare a b).
  - split; [eauto|]. by intros (a' & b' & [= ->] & [= ->] & ?).
Qed.

Lemma f_lt_trans x y z : f_lt x y = true → f_lt y z = true → f_lt x z = true.
Proof.
  rewrite !f_lt_key. intros (a & b & Ha & Hb & Hab) (b' & c & Hb' & Hc & Hbc). simplify_eq.
  exists a, c. unfold key_lt in *. split_and!; [done|done|lia].
Qed.

Lemma f_lt_irrefl x : f_lt x x = false.
Proof.
  apply not_true_is_false. rewrite f_lt_key. intros (a & b & Ha & Hb & Hab). simplify_eq.
  unfold key_lt in Hab. lia.
Qed.

Lemma f_lt_asym x y : f_lt x y = true → f_lt y x = false.
Proof.
  intros H. apply not_true_is_false. intros H'.
  pose proof (f_lt_trans _ _ _ H H') as Hi. by rewrite f_lt_irrefl in Hi.
Qed.

(** A time that is not before a [max] is not before its first argument. *)
Lemma f_lt_max_l t x y : f_lt t (f_max x y) = false → f_lt t x = false.
Proof.
  unfold f_max. destruct (f_lt x y) eqn:Hxy; [|done]. intros Ht.
  apply not_true_is_false. intros Htx. by rewrite (f_lt_trans _ _ _ Htx Hxy) in Ht.
Qed.

(** [max] never goes below its first argument. *)
Lemma f_max_ge_l x y : f_lt (f_max x y) x = false.
Proof.
  unfold f_max. destruct (f_lt x y) eqn:Hxy; [by apply f_lt_asym|apply f_lt_irrefl].
Qed.

Lemma f_le_key x y :
  f_le x y = true ↔ ∃ a b, f_key x = Some a ∧ f_key y = Some b ∧ ¬ key_lt b a.
Proof.
  unfold f_le, SFleb. rewrite SFcompare_key.
  destruct (f_key x) as [a|], (f_key y) as [b|]; [|split; [done|naive_solver]..].
  transitivity (key_compare a b ≠ Gt).
  - by destruct (key_compare a b).
  - assert (Hsym : key_compare a b = Gt ↔ key_lt b a).
    { rewrite <- key_compare_lt. unfold key_compare.
      rewrite (Z.compare_antisym b.1.1 a.1.1), (Z.compare_antisym b.1.2 a.1.2),
        (Z.compare_antisym b.2 a.2).
      destruct (b.1.1 ?= a.1.1), (b.1.2 ?= a.1.2), (b.2 ?= a.2); done. }
    rewrite Hsym. split; [eauto|]. by intros (a' & b' & [= ->] & [= ->] & ?).
Qed.

Lemma f_le_lt_trans x y z : f_le x y = true → f_lt y z = true → f_lt x z = true.
Proof.
  rewrite f_le_key, !f_lt_key. intros (a & b & Ha & Hb & Hab) (b' & c & Hb' & Hc & Hbc).
  simplify_eq. exists a, c. unfold key_lt in *. split_and!; [done|done|lia].
Qed.

Lemma f_le_not_lt x y : f_le x y = true → f_lt y x = false.
Proof.
  intros H. apply not_true_is_false. intros H'.
  pose proof (f_le_lt_trans _ _ _ H H') as Hi. by rewrite f_lt_irrefl in Hi.
Qed.
