(* ===== verification/PyText.v ===== *)
(** * PyText: Python strings over the whole of Unicode

    A [text] is a sequence of code points, which is what [len], slicing,
    [splitlines], [strip] and [split] of a Python [str] work on.  The
    components that measure, cut or render text use it; identifiers and keys,
    which are only compared, stay [string]s. *)

From S2P Require Import Prelude PyStr.
From Stdlib Require Import Ascii.

Definition text := list N.

(** A literal of the source, written as an ASCII string. *)
Definition lit (s : string) : text := N_of_ascii <$> String.list_ascii_of_string s.

(** [str(n)]. *)
Definition t_nat (n : nat) : text := lit (pretty n).

(** [str.isspace] on one code point. *)
Definition t_space (c : N) : bool :=
  ((N.leb 9 c && N.leb c 13) || (N.leb 28 c && N.leb c 32) || N.eqb c 133 || N.eqb c 160
   || N.eqb c 5760 || (N.leb 8192 c && N.leb c 8202) || N.eqb c 8232 || N.eqb c 8233
   || N.eqb c 8239 || N.eqb c 8287 || N.eqb c 12288)%bool.

Fixpoint t_lstrip (s : text) : text :=
  match s with
  | [] => []
  | c :: s' => if t_space c then t_lstrip s' else s
  end.

Definition t_rstrip (s : text) : text := reverse (t_lstrip (reverse s)).
Definition t_strip (s : text) : text := t_rstrip (t_lstrip s).

(** [s.split()]: the maximal runs without white space. *)
Fixpoint t_split_go (word : text) (s : text) : list text :=
  match s with
  | [] => if decide (word = []) then [] else [word]
  | c :: s' =>
      if t_space c
      then if decide (word = []) then t_split_go [] s' else word :: t_split_go [] s'
      else t_split_go (word ++ [c]) s'
  end.
Definition t_split (s : text) : list text := t_split_go [] s.

(** [sep.join(parts)]. *)
Fixpoint t_join (sep : text) (parts : list text) : text :=
  match parts with
  | [] => []
  | [p] => p
  | p :: ps => p ++ sep ++ t_join sep ps
  end.

(** [s.endswith(suffix)]. *)
Definition t_ends_with (suffix s : text) : bool :=
  bool_decide (length suffix ≤ length s ∧ drop (length s - length suffix) s = suffix).

(** The code points at which [str.splitlines] ends a line.  ["\r\n"] is one
    boundary; text read through universal newlines holds no ["\r"]. *)
Definition line_end (c : N) : bool :=
  ((N.leb 10 c && N.leb c 13) || (N.leb 28 c && N.leb c 30)
   || N.eqb c 133 || N.eqb c 8232 || N.eqb c 8233)%bool.

(** [s.splitlines(keepends=True)] of a text without ["\r"]. *)
Fixpoint splitlines_go (line : text) (s : text) : list text :=
  match s with
  | [] => if decide (line = []) then [] else [line]
  | c :: s' =>
      if line_end c then (line ++ [c]) :: splitlines_go [] s'
      else splitlines_go (line ++ [c]) s'
  end.
Definition splitlines (s : text) : list text := splitlines_go [] s.

(** ** Lemmas *)

Lemma t_lstrip_length s : length (t_lstrip s) ≤ length s.
Proof. induction s as [|c s IH]; simpl; [done|]. case_match; simpl; lia. Qed.

Lemma t_rstrip_length s : length (t_rstrip s) ≤ length s.
Proof.
  unfold t_rstrip. rewrite length_reverse. etrans; [apply t_lstrip_length|].
  by rewrite length_reverse.
Qed.

Lemma concat_splitlines_go line s : concat (splitlines_go line s) = line ++ s.
Proof.
  revert line. induction s as [|c s IH]; intros line; simpl.
  - case_decide; subst; simpl; by rewrite ?app_nil_r.
  - case_match; simpl; rewrite IH; by rewrite <- app_assoc.
Qed.

(** The lines of a text, joined, are the text. *)
Lemma concat_splitlines s : concat (splitlines s) = s.
Proof. apply concat_splitlines_go. Qed.

Lemma splitlines_go_nonempty line s : Forall (λ l, l ≠ []) (splitlines_go line s).
Proof.
  revert line. induction s as [|c s IH]; intros line; simpl.
  - case_decide; by repeat constructor.
  - case_match; [|done]. constructor; [by destruct line|done].
Qed.

(** Splitting where a line ends splits the lines. *)
Lemma splitlines_go_app_end line s c t :
  line_end c = true →
  splitlines_go line (s ++ c :: t) = splitlines_go line (s ++ [c]) ++ splitlines t.
Proof.
  intros Hc. revert line. induction s as [|d s IH]; intros line; simpl.
  - rewrite Hc. simpl. done.
  - case_match; simpl; by rewrite IH.
Qed.

(** ** Columns of the syntax tree, which count the bytes of UTF-8 *)

Definition utf8_width (c : N) : nat :=
  if (c <? 128)%N then 1 else if (c <? 2048)%N then 2 else if (c <? 65536)%N then 3 else 4.

(** The text from a column on, and up to a column. *)
Fixpoint from_column (col : nat) (line : text) : text :=
  match col, line with
  | O, _ => line
  | _, [] => []
  | _, c :: line' => from_column (col - utf8_width c) line'
  end.
Fixpoint to_column (col : nat) (line : text) : text :=
  match col, line with
  | O, _ => []
  | _, [] => []
  | _, c :: line' => c :: to_column (col - utf8_width c) line'
  end.

(** The width of a text. *)
Fixpoint utf8_length (s : text) : nat :=
  match s with
  | [] => 0
  | c :: s' => utf8_width c + utf8_length s'
  end.

Definition ascii_line (line : text) : Prop := Forall (λ c, (c < 128)%N) line.

Lemma utf8_width_ascii c : (c < 128)%N → utf8_width c = 1.
Proof. intros H. unfold utf8_width. by rewrite (proj2 (N.ltb_lt _ _) H). Qed.

Lemma from_column_ascii col line : ascii_line line → from_column col line = drop col line.
Proof.
  revert col. induction line as [|c line IH]; intros [|col] H; try done. inversion H; subst.
  change (from_column (S col - utf8_width c) line = drop col line).
  rewrite utf8_width_ascii, Nat.sub_succ, Nat.sub_0_r by done. by apply IH.
Qed.

Lemma to_column_ascii col line : ascii_line line → to_column col line = take col line.
Proof.
  revert col. induction line as [|c line IH]; intros [|col] H; try done. inversion H; subst.
  change (c :: to_column (S col - utf8_width c) line = c :: take col line).
  rewrite utf8_width_ascii, Nat.sub_succ, Nat.sub_0_r by done. f_equal. by apply IH.
Qed.

Lemma ascii_drop n line : ascii_line line → ascii_line (drop n line).
Proof. apply Forall_drop. Qed.

Lemma utf8_width_wide c : (128 ≤ c)%N → 1 < utf8_width c.
Proof. intros H. unfold utf8_width. rewrite (proj2 (N.ltb_ge _ _) H). repeat case_match; lia. Qed.

Lemma utf8_length_ge s : length s ≤ utf8_length s.
Proof. induction s as [|c s IH]; [done|]. cbn. unfold utf8_width. repeat case_match; lia. Qed.

(** The bytes are as many as the characters of ASCII text only. *)
Lemma utf8_length_ascii s : ascii_line s ↔ utf8_length s = length s.
Proof.
  unfold ascii_line. induction s as [|c s IH]; [by split; [|constructor]|]. pose proof (utf8_length_ge s).
  rewrite Forall_cons, IH. cbn [utf8_length length]. destruct (N.lt_ge_cases c 128) as [Hc|Hc].
  - rewrite utf8_width_ascii by done. lia.
  - pose proof (utf8_width_wide c Hc). lia.
Qed.
