(* ===== verification/Values.v ===== *)
(** * Values: the Python data the components pass around

    JSON-like values as the code handles them: [None], [bool], [int],
    [float], [str], [list], [tuple] and [dict] with string keys in insertion
    order.  A [float] is an IEEE double in the representation of
    [SpecFloat]. *)

From S2P Require Import Prelude PyDict.
From Stdlib Require Import SpecFloat.

Inductive pyval :=
  | VNone
  | VBool (b : bool)
  | VInt (z : Z)
  | VFloat (f : spec_float)
  | VStr (s : string)
  | VList (l : list pyval)
  | VTuple (l : list pyval)
  | VDict (d : list (string * pyval)).

(** The induction principle that reaches inside containers. *)
Section PyvalInd.
Context (P : pyval → Prop).
Context (Hnone : P VNone) (Hbool : ∀ b, P (VBool b)) (Hint : ∀ z, P (VInt z)).
Context (Hfloat : ∀ f, P (VFloat f)) (Hstr : ∀ s, P (VStr s)).
Context (Hlist : ∀ l, Forall P l → P (VList l)).
Context (Htuple : ∀ l, Forall P l → P (VTuple l)).
Context (Hdict : ∀ d, Forall (λ kv, P kv.2) d → P (VDict d)).

Fixpoint pyval_ind' (v : pyval) : P v :=
  match v with
  | VNone => Hnone
  | VBool b => Hbool b
  | VInt z => Hint z
  | VFloat f => Hfloat f
  | VStr s => Hstr s
  | VList l =>
      Hlist l ((fix go l : Forall P l :=
        match l with
        | [] => Forall_nil_2 P
        | x :: l' => Forall_cons_2 P x l' (pyval_ind' x) (go l')
        end) l)
  | VTuple l =>
      Htuple l ((fix go l : Forall P l :=
        match l with
        | [] => Forall_nil_2 P
        | x :: l' => Forall_cons_2 P x l' (pyval_ind' x) (go l')
        end) l)
  | VDict d =>
      Hdict d ((fix go d : Forall (λ kv, P kv.2) d :=
        match d with
        | [] => Forall_nil_2 _
        | kv :: d' => Forall_cons_2 _ kv d' (pyval_ind' kv.2) (go d')
        end) d)
  end.
End PyvalInd.

(** [math.isfinite]. *)
Definition is_finite (f : spec_float) : bool :=
  match f with
  | S754_zero _ | S754_finite _ _ _ => true
  | S754_infinity _ | S754_nan => false
  end.

(** The number of constructors of a value, a measure for recursion on it. *)
Fixpoint val_size (v : pyval) : nat :=
  match v with
  | VList l | VTuple l => S (list_sum (val_size <$> l))
  | VDict d => S (list_sum ((λ kv, val_size kv.2) <$> d))
  | _ => 1
  end.

(** [v == s] where [v] is the result of [dict.get] and [s] an optional
    string: the only comparison the event filters make on metadata. *)
Definition got_eq_str (v : option pyval) (s : option string) : bool :=
  match v, s with
  | Some (VStr t), Some s => bool_decide (t = s)
  | (None | Some VNone), None => true
  | _, _ => false
  end.
