(* ===== verification/Events.v ===== *)
(** * Events: the event log's data and the storage protocol

    Models the data of [nooa/context_blocks/events.py] and
    [nooa/events.py] ([EventBase], [Summary]), the tag arithmetic of
    [nooa/runtime/event_backend.py] and [event_manager.py], and the
    [EventBackend] protocol as a type class: its operations, an abstract view
    of a backend's contents, and the laws every operation obeys on the view.
    [EventManager] is written and verified against the class alone;
    [EventBackend.v] is the in-memory implementation. *)

From S2P Require Import Prelude PyStr PyDict Values.

(** ** Data *)

Inductive role := SYSTEM | USER | ASSISTANT | TOOL | RUNTIME_EVENT | METADATA.

#[export] Instance role_eq_dec : EqDecision role.
Proof. solve_decision. Defined.

Inductive event_status := ACTIVE | ARCHIVED.

#[export] Instance event_status_eq_dec : EqDecision event_status.
Proof. solve_decision. Defined.

(** The fields of a [Summary] event beyond those of [EventBase]. *)
Record summary := mk_summary {
  sm_tag : string;
  sm_range : Z * Z;
  sm_children : list string;
  sm_text : option string;
  sm_doc : string;
}.

(** One event object.  [ev_summary] is present exactly for instances of
    [Summary]; [ev_fields] holds the remaining model fields by name. *)
Record event := mk_event {
  ev_id : string;
  ev_type : string;
  ev_class : string;
  ev_role : role;
  ev_tag : option string;
  ev_status : event_status;
  ev_metadata : dict string pyval;
  ev_fields : dict string pyval;
  ev_summary : option summary;
}.

Definition with_tag (t : option string) (e : event) : event :=
  mk_event (ev_id e) (ev_type e) (ev_class e) (ev_role e) t (ev_status e)
    (ev_metadata e) (ev_fields e) (ev_summary e).

Definition with_status (s : event_status) (e : event) : event :=
  mk_event (ev_id e) (ev_type e) (ev_class e) (ev_role e) (ev_tag e) s
    (ev_metadata e) (ev_fields e) (ev_summary e).

Definition with_metadata (m : dict string pyval) (e : event) : event :=
  mk_event (ev_id e) (ev_type e) (ev_class e) (ev_role e) (ev_tag e) (ev_status e)
    m (ev_fields e) (ev_summary e).

Definition with_id (i : string) (e : event) : event :=
  mk_event i (ev_type e) (ev_class e) (ev_role e) (ev_tag e) (ev_status e)
    (ev_metadata e) (ev_fields e) (ev_summary e).

Definition with_fields (f : dict string pyval) (e : event) : event :=
  mk_event (ev_id e) (ev_type e) (ev_class e) (ev_role e) (ev_tag e) (ev_status e)
    (ev_metadata e) f (ev_summary e).

Definition with_summary_fields (sm : option summary) (e : event) : event :=
  mk_event (ev_id e) (ev_type e) (ev_class e) (ev_role e) (ev_tag e) (ev_status e)
    (ev_metadata e) (ev_fields e) sm.

(** An assignment to a field of a [Summary]. *)
Inductive summary_update :=
  | UpdSummaryTag (t : string)
  | UpdRange (r : Z * Z)
  | UpdChildren (l : list string)
  | UpdText (t : option string)
  | UpdDoc (t : string).

Definition apply_summary (u : summary_update) (sm : summary) : summary :=
  match u with
  | UpdSummaryTag t => mk_summary t (sm_range sm) (sm_children sm) (sm_text sm) (sm_doc sm)
  | UpdRange r => mk_summary (sm_tag sm) r (sm_children sm) (sm_text sm) (sm_doc sm)
  | UpdChildren l => mk_summary (sm_tag sm) (sm_range sm) l (sm_text sm) (sm_doc sm)
  | UpdText t => mk_summary (sm_tag sm) (sm_range sm) (sm_children sm) t (sm_doc sm)
  | UpdDoc t => mk_summary (sm_tag sm) (sm_range sm) (sm_children sm) (sm_text sm) t
  end.

(** A keyword argument of [update(tag, **fields)].  The last two forms are the
    fields of a [Summary] and any other keyword; they are ignored when the
    event has no such attribute. *)
Inductive field_update :=
  | UpdMetadata (m : dict string pyval)
  | UpdStatus (s : event_status)
  | UpdTag (t : option string)
  | UpdId (i : string)
  | UpdSummary (u : summary_update)
  | UpdField (name : string) (v : pyval).

Definition apply_field (e : event) (u : field_update) : event :=
  match u with
  | UpdMetadata m => with_metadata (dict_update (ev_metadata e) m) e
  | UpdStatus s => with_status s e
  | UpdTag t => with_tag t e
  | UpdId i => with_id i e
  | UpdSummary u => with_summary_fields (apply_summary u <$> ev_summary e) e
  | UpdField name v =>
      if dict_mem name (ev_fields e) then with_fields (dict_set name v (ev_fields e)) e else e
  end.

Definition apply_fields (us : list field_update) (e : event) : event :=
  foldl apply_field e us.

(** ** Tags: ["5"] or ["2..40"] *)

(** [_tag_max_num]: the number the next tag must exceed, 0 when the tag is
    not numeric. *)
Definition tag_max_num (tag : string) : Z :=
  default 0%Z
    (if has_dots tag then py_int (default "" (split_dots tag !! 1)) else py_int tag).

Definition value_error {A} (o : option A) : result A :=
  match o with Some a => Ok a | None => Raise ValueError end.

(** [_parse_tag_start]. *)
Definition parse_tag_start (tag : string) : result Z :=
  value_error
    (if has_dots tag then py_int (default "" (split_dots tag !! 0)) else py_int tag).

(** [_parse_tag_end]. *)
Definition parse_tag_end (tag : string) : result Z :=
  value_error
    (if has_dots tag then py_int (default "" (split_dots tag !! 1)) else py_int tag).

(** [_validate_tag]. *)
Definition validate_tag (tag : string) : result unit :=
  if has_dots tag then
    match split_dots tag with
    | [s; t] =>
        match py_int s, py_int t with
        | Some a, Some b => if (b <? a)%Z then Raise ValueError else Ok tt
        | _, _ => Raise ValueError
        end
    | _ => Raise ValueError
    end
  else match py_int tag with Some _ => Ok tt | None => Raise ValueError end.

(** The f-string [f"{a}..{b}"]. *)
Definition range_tag (a b : Z) : string := (str_int a +:+ ".." +:+ str_int b)%string.

(** ** Object references and the abstract view of a backend

    Events are mutable Python objects shared between the caller, the event
    list and the tag table.  An [oid] is a reference into the heap of event
    objects, which only grows. *)
Notation oid := nat (only parsing).

Record view := mk_view {
  v_heap : list event;              (** the event objects, by reference *)
  v_log : list oid;                 (** [all_events()], in insertion order *)
  v_tags : gmap string oid;         (** tag to event *)
  v_active : list string;           (** [active_tags()] *)
  v_next : Z;                       (** the number of the next allocated tag *)
}.

Definition view_empty : view := mk_view [] [] ∅ [] 1.

Definition view_alloc (e : event) (w : view) : view :=
  mk_view (v_heap w ++ [e]) (v_log w) (v_tags w) (v_active w) (v_next w).

(** Assign attributes of the object [o]. *)
Definition view_modify (f : event → event) (o : oid) (w : view) : view :=
  mk_view (alter f o (v_heap w)) (v_log w) (v_tags w) (v_active w) (v_next w).

Definition view_store (t : string) (o : oid) (w : view) : view :=
  mk_view (v_heap w) (v_log w ++ [o]) (<[t := o]> (v_tags w)) (v_active w ++ [t])
    (Z.max (v_next w) (tag_max_num t + 1)).

Definition same_id (i : string) (w : view) (o : oid) : bool :=
  match v_heap w !! o with Some e => bool_decide (ev_id e = i) | None => false end.

(** Drop the first reference in the log to an event with the given id. *)
Fixpoint drop_first {A} (p : A → bool) (l : list A) : list A :=
  match l with
  | [] => []
  | x :: l' => if p x then l' else x :: drop_first p l'
  end.

Definition view_remove (t : string) (w : view) : view :=
  match v_tags w !! t with
  | None => w
  | Some o =>
      mk_view (v_heap w)
        (match v_heap w !! o with
         | Some e => drop_first (same_id (ev_id e) w) (v_log w)
         | None => v_log w
         end)
        (delete t (v_tags w)) (discard_first t (v_active w)) (v_next w)
  end.

Definition view_on_tag (f : event → event) (t : string) (w : view) : view :=
  match v_tags w !! t with Some o => view_modify f o w | None => w end.

Definition view_insert_active (t : string) (i : nat) (w : view) : view :=
  mk_view (v_heap w) (v_log w) (v_tags w) (list_insert_at i t (v_active w)) (v_next w).

Definition view_remove_active (t : string) (w : view) : view :=
  mk_view (v_heap w) (v_log w) (v_tags w) (discard_first t (v_active w)) (v_next w).

Definition view_clear (w : view) : view := mk_view (v_heap w) [] ∅ [] 1.

Definition view_allocate (w : view) : view :=
  mk_view (v_heap w) (v_log w) (v_tags w) (v_active w) (v_next w + 1).

(** ** The storage protocol *)
Class EventBackend (B : Type) := {
  be_new : B;
  be_alloc : event → B → oid * B;               (** construct an event object *)
  be_modify : (event → event) → oid → B → B;    (** assign attributes of an object *)
  be_deref : B → oid → option event;            (** read an object *)
  be_store : string → oid → B → B;
  be_get : string → B → option oid;
  be_get_by_id : string → B → option oid;
  be_update : string → list field_update → B → B * bool;
  be_remove : string → B → B * bool;
  be_set_status : string → event_status → B → B * bool;
  be_active_tags : B → list string;
  be_insert_active_tag : string → nat → B → B;
  be_remove_active_tag : string → B → B * bool;
  be_all_events : B → list oid;
  be_find_tag : oid → B → option string;
  be_clear : B → B;
  be_allocate_next_tag : B → string * B;
  be_len : B → nat;
}.

(** What a backend promises: an abstraction function to [view] and, for every
    operation, its effect and its result in terms of the view. *)
Class EventBackendLaws (B : Type) `{EventBackend B} := {
  be_view : B → view;
  be_wf : B → Prop;

  new_wf : be_wf be_new;
  new_view : be_view be_new = view_empty;

  alloc_wf e b : be_wf b → be_wf (be_alloc e b).2;
  alloc_ref e b : (be_alloc e b).1 = length (v_heap (be_view b));
  alloc_view e b : be_view (be_alloc e b).2 = view_alloc e (be_view b);

  modify_wf f o b : be_wf b → be_wf (be_modify f o b);
  modify_view f o b : be_view (be_modify f o b) = view_modify f o (be_view b);

  deref_view b o : be_deref b o = v_heap (be_view b) !! o;

  store_wf t o b : be_wf b → o < length (v_heap (be_view b)) → be_wf (be_store t o b);
  store_view t o b : be_view (be_store t o b) = view_store t o (be_view b);

  get_view t b : be_get t b = v_tags (be_view b) !! t;

  get_by_id_some i b o :
    be_get_by_id i b = Some o → o ∈ v_log (be_view b) ∧ same_id i (be_view b) o = true;
  get_by_id_none i b :
    be_get_by_id i b = None → Forall (λ o, same_id i (be_view b) o = false) (v_log (be_view b));

  update_wf t us b : be_wf b → be_wf (be_update t us b).1;
  update_view t us b : be_view (be_update t us b).1 = view_on_tag (apply_fields us) t (be_view b);
  update_ok t us b : (be_update t us b).2 = bool_decide (is_Some (v_tags (be_view b) !! t));

  remove_wf t b : be_wf b → be_wf (be_remove t b).1;
  remove_view t b : be_wf b → be_view (be_remove t b).1 = view_remove t (be_view b);
  remove_ok t b : (be_remove t b).2 = bool_decide (is_Some (v_tags (be_view b) !! t));

  set_status_wf t s b : be_wf b → be_wf (be_set_status t s b).1;
  set_status_view t s b : be_view (be_set_status t s b).1 = view_on_tag (with_status s) t (be_view b);

  active_tags_view b : be_active_tags b = v_active (be_view b);

  insert_active_wf t i b : be_wf b → be_wf (be_insert_active_tag t i b);
  insert_active_view t i b :
    be_view (be_insert_active_tag t i b) = view_insert_active t i (be_view b);

  remove_active_wf t b : be_wf b → be_wf (be_remove_active_tag t b).1;
  remove_active_view t b : be_view (be_remove_active_tag t b).1 = view_remove_active t (be_view b);
  remove_active_ok t b :
    (be_remove_active_tag t b).2 = bool_decide (t ∈ v_active (be_view b));

  all_events_view b : be_all_events b = v_log (be_view b);

  find_tag_some o b t :
    be_wf b → be_find_tag o b = Some t →
    ∃ o', v_tags (be_view b) !! t = Some o' ∧
      (o' = o ∨ ∃ e, v_heap (be_view b) !! o = Some e ∧ same_id (ev_id e) (be_view b) o' = true);
  find_tag_none o b t : be_wf b → be_find_tag o b = None → v_tags (be_view b) !! t ≠ Some o;

  clear_wf b : be_wf b → be_wf (be_clear b);
  clear_view b : be_view (be_clear b) = view_clear (be_view b);

  allocate_wf b : be_wf b → be_wf (be_allocate_next_tag b).2;
  allocate_tag b : (be_allocate_next_tag b).1 = str_int (v_next (be_view b));
  allocate_view b : be_view (be_allocate_next_tag b).2 = view_allocate (be_view b);

  len_view b : be_len b = length (v_log (be_view b));
}.
