(* ===== verification/EventBackend.v ===== *)
(** * EventBackend: the in-memory event store

    [InMemoryBackend] of [nooa/runtime/event_backend.py]: a list of event
    references in insertion order, a dictionary from tags to references, the
    ordered list of active tags and the tag counter.  Every operation is
    translated as written; the [EventBackendLaws] instance at the end shows
    that it implements the abstract view of [Events.v]. *)

From S2P Require Import Prelude PyStr PyDict Values Events.

Record mem_backend := mk_mem {
  mem_heap : list event;
  mem_events : list oid;              (* _events *)
  mem_tag_to_event : dict string oid; (* _tag_to_event *)
  mem_active : list string;           (* _active_tags *)
  mem_next_tag_num : Z;               (* _next_tag_num *)
}.

(** [max_tag_num]. *)
Definition mem_max_tag_num (b : mem_backend) : Z :=
  match dict_keys (mem_tag_to_event b) with
  | [] => 0
  | t :: ts => foldl (λ m t', Z.max m (tag_max_num t')) (tag_max_num t) ts
  end.

(** [__init__]: empty containers, then the counter is read off the storage. *)
Definition mem_init : mem_backend :=
  let b := mk_mem [] [] [] [] 0 in
  mk_mem [] [] [] [] (mem_max_tag_num b + 1).

Definition mem_deref (b : mem_backend) (o : oid) : option event := mem_heap b !! o.

Definition mem_alloc (e : event) (b : mem_backend) : oid * mem_backend :=
  (length (mem_heap b),
   mk_mem (mem_heap b ++ [e]) (mem_events b) (mem_tag_to_event b) (mem_active b) (mem_next_tag_num b)).

Definition mem_modify (f : event → event) (o : oid) (b : mem_backend) : mem_backend :=
  mk_mem (alter f o (mem_heap b)) (mem_events b) (mem_tag_to_event b) (mem_active b) (mem_next_tag_num b).

Definition mem_store (tag : string) (o : oid) (b : mem_backend) : mem_backend :=
  mk_mem (mem_heap b) (mem_events b ++ [o]) (dict_set tag o (mem_tag_to_event b))
    (mem_active b ++ [tag]) (Z.max (mem_next_tag_num b) (tag_max_num tag + 1)).

Definition mem_get (tag : string) (b : mem_backend) : option oid := dict_get tag (mem_tag_to_event b).

(** [e.id == i] for the event [o] refers to. *)
Definition mem_has_id (i : string) (b : mem_backend) (o : oid) : bool :=
  match mem_deref b o with Some e => bool_decide (ev_id e = i) | None => false end.

Definition mem_get_by_id (i : string) (b : mem_backend) : option oid :=
  snd <$> list_find (λ o, mem_has_id i b o = true) (mem_events b).

Definition mem_update (tag : string) (fields : list field_update) (b : mem_backend) : mem_backend * bool :=
  match mem_get tag b with
  | None => (b, false)
  | Some o => (mem_modify (apply_fields fields) o b, true)
  end.

(** The loop of [remove] over [enumerate(self._events)]: pop the first event
    whose id equals the removed event's, and stop. *)
Fixpoint pop_same_id (p : oid → bool) (l : list oid) : list oid :=
  match l with
  | [] => []
  | o :: l' => if p o then l' else o :: pop_same_id p l'
  end.

Definition mem_remove (tag : string) (b : mem_backend) : mem_backend * bool :=
  match mem_get tag b with
  | None => (b, false)
  | Some o =>
      let tags' := dict_del tag (mem_tag_to_event b) in
      let active' :=
        if bool_decide (tag ∈ mem_active b)
        then default (mem_active b) (remove_first tag (mem_active b)) else mem_active b in
      let events' :=
        match mem_deref b o with
        | Some e => pop_same_id (mem_has_id (ev_id e) b) (mem_events b)
        | None => mem_events b
        end in
      (mk_mem (mem_heap b) events' tags' active' (mem_next_tag_num b), true)
  end.

Definition mem_set_status (tag : string) (s : event_status) (b : mem_backend) : mem_backend * bool :=
  match mem_get tag b with
  | None => (b, false)
  | Some o => (mem_modify (with_status s) o b, true)
  end.

Definition mem_active_tags (b : mem_backend) : list string := mem_active b.

Definition mem_insert_active_tag (tag : string) (index : nat) (b : mem_backend) : mem_backend :=
  mk_mem (mem_heap b) (mem_events b) (mem_tag_to_event b)
    (list_insert_at index tag (mem_active b)) (mem_next_tag_num b).

Definition mem_remove_active_tag (tag : string) (b : mem_backend) : mem_backend * bool :=
  if bool_decide (tag ∈ mem_active b) then
    (mk_mem (mem_heap b) (mem_events b) (mem_tag_to_event b)
       (default (mem_active b) (remove_first tag (mem_active b))) (mem_next_tag_num b), true)
  else (b, false).

Definition mem_all_events (b : mem_backend) : list oid := mem_events b.

(** [find_tag]: the first tag, in dictionary order, of the same object or of
    an event with the same id. *)
Definition mem_find_tag (o : oid) (b : mem_backend) : option string :=
  (λ p, p.2.1) <$>
    list_find (λ kv, (bool_decide (kv.2 = o) ||
                      match mem_deref b o with
                      | Some e => mem_has_id (ev_id e) b kv.2
                      | None => false
                      end)%bool = true) (mem_tag_to_event b).

Definition mem_clear (b : mem_backend) : mem_backend := mk_mem (mem_heap b) [] [] [] 1.

Definition mem_allocate_next_tag (b : mem_backend) : string * mem_backend :=
  (str_int (mem_next_tag_num b),
   mk_mem (mem_heap b) (mem_events b) (mem_tag_to_event b) (mem_active b) (mem_next_tag_num b + 1)).

Definition mem_len (b : mem_backend) : nat := length (mem_events b).

(** ** The representation invariant and the abstraction *)

Definition mem_wf (b : mem_backend) : Prop :=
  dict_wf (mem_tag_to_event b) ∧
  Forall (λ o, o < length (mem_heap b)) (mem_events b) ∧
  Forall (λ kv, kv.2 < length (mem_heap b)) (mem_tag_to_event b).

Definition mem_abs (b : mem_backend) : view :=
  mk_view (mem_heap b) (mem_events b) (list_to_map (mem_tag_to_event b)) (mem_active b) (mem_next_tag_num b).

(** ** The in-memory backend implements the protocol *)

Lemma list_to_map_dict_get (d : dict string oid) t :
  (list_to_map d : gmap string oid) !! t = dict_get t d.
Proof.
  induction d as [|[t' o] d IH]; simpl; [done|].
  rewrite lookup_insert. repeat case_decide; congruence.
Qed.

Lemma list_to_map_dict_set (d : dict string oid) t o :
  (list_to_map (dict_set t o d) : gmap string oid) = <[t := o]> (list_to_map d).
Proof.
  apply map_eq. intros t'. rewrite lookup_insert, !list_to_map_dict_get, dict_get_set.
  repeat case_decide; congruence.
Qed.

Lemma list_to_map_dict_del (d : dict string oid) t :
  dict_wf d → (list_to_map (dict_del t d) : gmap string oid) = delete t (list_to_map d).
Proof.
  intros. apply map_eq. intros t'.
  rewrite lookup_delete, !list_to_map_dict_get, dict_get_del by done.
  repeat case_decide; congruence.
Qed.

Lemma mem_has_id_same_id i b o : mem_has_id i b o = same_id i (mem_abs b) o.
Proof. done. Qed.

Lemma pop_same_id_drop_first p l : pop_same_id p l = drop_first p l.
Proof. induction l; simpl; [done|]. case_match; congruence. Qed.

Lemma drop_first_Forall {A} (P : A → Prop) p l : Forall P l → Forall P (drop_first p l).
Proof. induction 1; simpl; [constructor|]. case_match; [done|by constructor]. Qed.

(** Attribute assignment does not create or remove references. *)
Lemma mem_modify_wf f o b : mem_wf b → mem_wf (mem_modify f o b).
Proof. unfold mem_wf. simpl. by rewrite length_alter. Qed.

Lemma mem_wf_tag b t o : mem_wf b → dict_get t (mem_tag_to_event b) = Some o → o < length (mem_heap b).
Proof.
  intros (_ & _ & Htags) Hg%dict_get_Some_elem. rewrite Forall_forall in Htags.
  by apply (Htags (t, o)).
Qed.

Lemma mem_store_wf t o b : mem_wf b → o < length (mem_heap b) → mem_wf (mem_store t o b).
Proof.
  intros (Hd & Hl & Ht) Ho. split_and!; simpl.
  - by apply dict_wf_set.
  - apply Forall_app. by repeat constructor.
  - clear Hd. induction Ht as [|[k v] d Hk Ht IH]; simpl; [by repeat constructor|].
    case_decide; (constructor; [done|]); done.
Qed.

Lemma mem_remove_wf t b : mem_wf b → mem_wf (mem_remove t b).1.
Proof.
  intros (Hd & Hl & Ht). unfold mem_remove, mem_get.
  destruct (dict_get t (mem_tag_to_event b)) as [o|]; [|done]. split_and!; simpl.
  - by apply dict_wf_del.
  - case_match; [|done]. rewrite pop_same_id_drop_first. by apply drop_first_Forall.
  - clear Hd. induction Ht as [|[k v] d Hk Ht IH]; simpl; [constructor|].
    case_decide; [done|by constructor].
Qed.

Lemma mem_remove_view t b : mem_wf b → mem_abs (mem_remove t b).1 = view_remove t (mem_abs b).
Proof.
  intros (Hd & _ & _). unfold mem_remove, mem_get, view_remove. simpl.
  rewrite list_to_map_dict_get.
  destruct (dict_get t (mem_tag_to_event b)) as [o|]; [|done]. simpl.
  unfold mem_abs; simpl. rewrite list_to_map_dict_del by done. f_equal.
  - unfold mem_deref. case_match; [|done]. apply pop_same_id_drop_first.
  - case_bool_decide; [done|]. by rewrite discard_first_absent.
Qed.

Lemma mem_get_by_id_some i b o :
  mem_get_by_id i b = Some o → o ∈ mem_events b ∧ mem_has_id i b o = true.
Proof.
  unfold mem_get_by_id. intros ([k o'] & (Hk & Hid & _)%list_find_Some & ->)%fmap_Some.
  simpl. split; [by eapply list_elem_of_lookup_2|done].
Qed.

Lemma mem_get_by_id_none i b :
  mem_get_by_id i b = None → Forall (λ o, mem_has_id i b o = false) (mem_events b).
Proof.
  unfold mem_get_by_id. intros Hf%fmap_None%list_find_None.
  eapply Forall_impl; [exact Hf|]. intros o Ho. by apply not_true_is_false.
Qed.

Lemma mem_find_tag_some o b t :
  mem_wf b → mem_find_tag o b = Some t →
  ∃ o', dict_get t (mem_tag_to_event b) = Some o' ∧
    (o' = o ∨ ∃ e, mem_heap b !! o = Some e ∧ mem_has_id (ev_id e) b o' = true).
Proof.
  intros (Hd & _ & _). unfold mem_find_tag.
  intros ([k [t' o']] & (Hk & Hp & _)%list_find_Some & ->)%fmap_Some. simpl in *.
  exists o'. split.
  - apply dict_get_elem; [done|]. by eapply list_elem_of_lookup_2.
  - apply orb_true_iff in Hp as [Hp|Hp]; [left; by bool_prop|right].
    unfold mem_deref in Hp. destruct (mem_heap b !! o); [eauto|done].
Qed.

Lemma mem_find_tag_none o b t : mem_find_tag o b = None → dict_get t (mem_tag_to_event b) ≠ Some o.
Proof.
  unfold mem_find_tag. intros Hf%fmap_None%list_find_None Hg%dict_get_Some_elem.
  rewrite Forall_forall in Hf. apply (Hf _ Hg). simpl. by rewrite bool_decide_true.
Qed.

#[export] Instance mem_EventBackend : EventBackend mem_backend := {
  be_new := mem_init; be_alloc := mem_alloc; be_modify := mem_modify; be_deref := mem_deref;
  be_store := mem_store; be_get := mem_get; be_get_by_id := mem_get_by_id;
  be_update := mem_update; be_remove := mem_remove; be_set_status := mem_set_status;
  be_active_tags := mem_active_tags; be_insert_active_tag := mem_insert_active_tag;
  be_remove_active_tag := mem_remove_active_tag; be_all_events := mem_all_events;
  be_find_tag := mem_find_tag; be_clear := mem_clear;
  be_allocate_next_tag := mem_allocate_next_tag; be_len := mem_len;
}.

Lemma mem_on_tag_view f t b :
  mem_abs (match mem_get t b with Some o => mem_modify f o b | None => b end) =
  view_on_tag f t (mem_abs b).
Proof. unfold mem_get, view_on_tag. simpl. rewrite list_to_map_dict_get. by case_match. Qed.

#[export] Instance mem_EventBackendLaws : EventBackendLaws mem_backend.
Proof.
  refine {| be_view := mem_abs; be_wf := mem_wf |}; simpl.
  - by repeat constructor.
  - done.
  - intros e b (Hd & Hl & Ht). split_and!; simpl; [done|..];
      (eapply Forall_impl; [eassumption|]); intros; simpl in *; rewrite length_app; simpl; lia.
  - done.
  - done.
  - apply mem_modify_wf.
  - done.
  - done.
  - apply mem_store_wf.
  - intros. unfold mem_abs. simpl. by rewrite list_to_map_dict_set.
  - intros. unfold mem_get. symmetry. apply list_to_map_dict_get.
  - apply mem_get_by_id_some.
  - apply mem_get_by_id_none.
  - intros t us b Hwf. unfold mem_update. case_match; [by apply mem_modify_wf|done].
  - intros. rewrite <- mem_on_tag_view. unfold mem_update. by case_match.
  - intros. rewrite list_to_map_dict_get. unfold mem_update, mem_get. case_match; symmetry;
      [by apply bool_decide_true|apply bool_decide_false; by intros [? ?]].
  - apply mem_remove_wf.
  - apply mem_remove_view.
  - intros. rewrite list_to_map_dict_get. unfold mem_remove, mem_get. case_match; symmetry;
      [by apply bool_decide_true|apply bool_decide_false; by intros [? ?]].
  - intros t s b Hwf. unfold mem_set_status. case_match; [by apply mem_modify_wf|done].
  - intros. rewrite <- mem_on_tag_view. unfold mem_set_status. by case_match.
  - done.
  - done.
  - done.
  - intros t b Hwf. unfold mem_remove_active_tag. by case_bool_decide.
  - intros. unfold mem_remove_active_tag, view_remove_active. case_bool_decide; [done|].
    simpl. rewrite discard_first_absent by done. by destruct b.
  - intros. unfold mem_remove_active_tag. simpl. by case_bool_decide.
  - done.
  - intros o b t Hwf Hf. rewrite list_to_map_dict_get. by apply mem_find_tag_some.
  - intros o b t Hwf Hf. rewrite list_to_map_dict_get. by apply mem_find_tag_none.
  - intros b _. by repeat constructor.
  - done.
  - done.
  - done.
  - done.
  - done.
Defined.

(** ** Refinement of the abstract view

    The calls of the storage protocol as steps of a backend and of the view.
    An object is allocated by its creator, which is a step as well. *)
Inductive backend_op :=
  | BAlloc (e : event)
  | BAssign (f : event → event) (o : oid)
  | BStore (t : string) (o : oid)
  | BUpdate (t : string) (us : list field_update)
  | BRemove (t : string)
  | BSetStatus (t : string) (s : event_status)
  | BInsertActive (t : string) (i : nat)
  | BRemoveActive (t : string)
  | BClear
  | BAllocate.

Definition backend_apply {B} `{EventBackend B} (b : B) (op : backend_op) : B :=
  match op with
  | BAlloc e => (be_alloc e b).2
  | BAssign f o => be_modify f o b
  | BStore t o => be_store t o b
  | BUpdate t us => (be_update t us b).1
  | BRemove t => (be_remove t b).1
  | BSetStatus t s => (be_set_status t s b).1
  | BInsertActive t i => be_insert_active_tag t i b
  | BRemoveActive t => (be_remove_active_tag t b).1
  | BClear => be_clear b
  | BAllocate => (be_allocate_next_tag b).2
  end.

Definition view_apply (w : view) (op : backend_op) : view :=
  match op with
  | BAlloc e => view_alloc e w
  | BAssign f o => view_modify f o w
  | BStore t o => view_store t o w
  | BUpdate t us => view_on_tag (apply_fields us) t w
  | BRemove t => view_remove t w
  | BSetStatus t s => view_on_tag (with_status s) t w
  | BInsertActive t i => view_insert_active t i w
  | BRemoveActive t => view_remove_active t w
  | BClear => view_clear w
  | BAllocate => view_allocate w
  end.

(** Only existing objects are stored. *)
Fixpoint stores_objects (w : view) (ops : list backend_op) : Prop :=
  match ops with
  | [] => True
  | op :: ops' =>
      match op with BStore _ o => o < length (v_heap w) | _ => True end ∧
      stores_objects (view_apply w op) ops'
  end.

Section Refinement.
Context {B : Type} `{EventBackendLaws B}.

Lemma backend_apply_view b op :
  be_wf b → match op with BStore _ o => o < length (v_heap (be_view b)) | _ => True end →
  be_wf (backend_apply b op) ∧ be_view (backend_apply b op) = view_apply (be_view b) op.
Proof.
  intros Hwf Hop. destruct op; simpl; split;
    auto using alloc_wf, alloc_view, modify_wf, modify_view, store_wf, store_view, update_wf, update_view,
      remove_wf, remove_view, set_status_wf, set_status_view, insert_active_wf, insert_active_view,
      remove_active_wf, remove_active_view, clear_wf, clear_view, allocate_wf, allocate_view.
Qed.

Lemma backend_run_view ops b :
  be_wf b → stores_objects (be_view b) ops →
  be_wf (foldl backend_apply b ops) ∧
  be_view (foldl backend_apply b ops) = foldl view_apply (be_view b) ops.
Proof.
  revert b. induction ops as [|op ops IH]; intros b Hwf Hops; [done|]. destruct Hops as [Hop Hops].
  destruct (backend_apply_view b op Hwf Hop) as [Hwf' Hview]. cbn [foldl]. rewrite <- Hview.
  apply IH; [done|]. by rewrite Hview.
Qed.
End Refinement.

(** C4.  The in-memory store implements the abstract event store: after any
    sequence of protocol calls the log, the tag lookups, the active tags, the
    length and the next tag it reports are those of the specification. *)
Theorem mem_backend_refines ops :
  stores_objects view_empty ops →
  let b := foldl backend_apply mem_init ops in
  let w := foldl view_apply view_empty ops in
  mem_all_events b = v_log w ∧ mem_active_tags b = v_active w ∧ mem_len b = length (v_log w) ∧
  (∀ t, mem_get t b = v_tags w !! t) ∧
  (mem_allocate_next_tag b).1 = str_int (v_next w) ∧
  (∀ t, (mem_remove t b).2 = true ↔ is_Some (v_tags w !! t)) ∧
  (∀ o, mem_heap b !! o = v_heap w !! o).
Proof.
  intros Hops b w.
  assert (mem_wf mem_init) as Hinit by (by repeat constructor).
  pose proof (backend_run_view (B := mem_backend) ops mem_init) as Hrun.
  destruct (Hrun Hinit Hops) as [Hwf Hview].
  change (foldl backend_apply mem_init ops) with b in Hwf, Hview.
  change (be_view mem_init) with view_empty in Hview.
  change (foldl view_apply view_empty ops) with w in Hview.
  split_and!.
  - rewrite <- Hview. exact (all_events_view b).
  - rewrite <- Hview. exact (active_tags_view b).
  - rewrite <- Hview. exact (len_view b).
  - intros t. rewrite <- Hview. exact (get_view t b).
  - rewrite <- Hview. exact (allocate_tag b).
  - intros t. rewrite <- Hview. pose proof (remove_ok t b) as Hr. simpl in Hr. rewrite Hr.
    apply bool_decide_eq_true.
  - intros o. rewrite <- Hview. exact (deref_view b o).
Qed.

Definition demo_stored : event := mk_event "e1" "Message" "Message" USER None ACTIVE [] [] None.

Lemma mem_backend_refines_witness :
  mem_active_tags (foldl backend_apply mem_init
    [BAlloc demo_stored; BStore "1" 0; BInsertActive "0" 0; BRemoveActive "1"]) = ["0"]%string.
Proof.
  destruct (mem_backend_refines [BAlloc demo_stored; BStore "1" 0; BInsertActive "0" 0; BRemoveActive "1"])
    as (_ & H & _).
  - repeat split. vm_compute. lia.
  - etrans; [exact H|vm_compute; reflexivity].
Defined.
