(* ===== verification/EventManager.v ===== *)
(** * EventManager: the unified event pipeline

    [EventManager] of [nooa/runtime/event_manager.py], over any storage that
    implements [EventBackend]: emission to handlers, recording, lookup by tag
    or id, filtering, mutation and [collapse].  Handlers, regular expressions
    and the rendering of an event to searchable text are arguments of the
    definitions that use them. *)

From S2P Require Import Prelude PyStr PyDict Values Events.

Open Scope nooa_scope.

Notation hid := nat (only parsing).

Section Manager.
Context {B : Type} `{EventBackend B}.

(** The state of an [EventManager]: its backend and its subscribers.
    [em_handlers] is a [defaultdict(list)]. *)
Record manager := mk_manager {
  em_backend : B;
  em_handlers : dict string (list hid);
}.

Definition with_backend (b : B) (m : manager) : manager := mk_manager b (em_handlers m).
Definition with_handlers (h : dict string (list hid)) (m : manager) : manager :=
  mk_manager (em_backend m) h.

(** ** Subscriptions *)

(** [_REMOVED_EVENT_TYPES] and [_validate_event_type_name]. *)
Definition removed_event_types : list string := ["LLMOutput"; "LLMComplete"]%string.

Definition validate_event_type_name (event_type : string) : result unit :=
  if bool_decide (event_type ∈ removed_event_types) then Raise ValueError else Ok tt.

(** [on]. *)
Definition on (event_type : string) (h : hid) (m : manager) : result manager :=
  let! _ := validate_event_type_name event_type in
  let hs := default [] (dict_get event_type (em_handlers m)) in
  Ok (with_handlers (dict_set event_type (hs ++ [h]) (em_handlers m)) m).

(** The closure [on] returns. *)
Definition unsubscribe (event_type : string) (h : hid) (m : manager) : manager :=
  let hs := default [] (dict_get event_type (em_handlers m)) in
  with_handlers (dict_set event_type (discard_first h hs) (em_handlers m)) m.

(** ** Emission *)

(** How a handler call ends.  [HBase] is a [BaseException] that is not an
    [Exception]. *)
Inductive houtcome := HReturn | HException | HBase.

Section Emit.
(** What calling handler [h] on the event [o] does: handlers are application
    code and may call back into the manager. *)
Variable call : hid → oid → manager → manager * houtcome.

(** One [for handler in list(...)] loop: the calls made, the state reached and
    whether a [BaseException] escaped. *)
Fixpoint run_handlers (hs : list hid) (o : oid) (m : manager) : list hid * manager * bool :=
  match hs with
  | [] => ([], m, false)
  | h :: hs' =>
      match call h o m with
      | (m', HBase) => ([h], m', true)
      | (m', _) => let '(called, m'', esc) := run_handlers hs' o m' in (h :: called, m'', esc)
      end
  end.

(** [self._handlers[key]] on a [defaultdict]: a missing key is created. *)
Definition handlers_at (key : string) (m : manager) : list hid * manager :=
  match dict_get key (em_handlers m) with
  | Some hs => (hs, m)
  | None => ([], with_handlers (dict_set key [] (em_handlers m)) m)
  end.

(** [_emit]: the handlers of the event's type, then the wildcard handlers. *)
Definition emit (event_type : string) (o : oid) (m : manager) : list hid * manager * bool :=
  let '(hs, m1) := handlers_at event_type m in
  let '(called, m2, esc) := run_handlers hs o m1 in
  if (esc : bool) then (called, m2, true)
  else
    let '(ws, m3) := handlers_at "*" m2 in
    let '(called', m4, esc') := run_handlers ws o m3 in
    (called ++ called', m4, esc').

(** ** [add] *)

(** The metadata a recorded event carries: the innermost call id and the
    event format in force, unless already present. *)
Definition inject_metadata (stack : list string) (fmt : option pyval) (e : event) : event :=
  let e1 :=
    match last stack with
    | Some c => if dict_mem "call_id"%string (ev_metadata e) then e
                else with_metadata (dict_set "call_id"%string (VStr c) (ev_metadata e)) e
    | None => e
    end in
  match fmt with
  | Some f => if dict_mem "truncation_event_format"%string (ev_metadata e1) then e1
              else with_metadata (dict_set "truncation_event_format"%string f (ev_metadata e1)) e1
  | None => e1
  end.

(** The tag a recorded event gets: its own when it is a tagged summary,
    otherwise the next one of the backend. *)
Definition choose_tag (e : event) (b : B) : result (string * B) :=
  match ev_summary e with
  | Some sm =>
      if bool_decide (sm_tag sm ≠ ""%string) then
        let! _ := validate_tag (sm_tag sm) in Ok (sm_tag sm, b)
      else Ok (be_allocate_next_tag b)
  | None => Ok (be_allocate_next_tag b)
  end.

(** The part of [add] after the emission. *)
Definition record_event (o : oid) (record : bool) (m : manager) : result (string * manager) :=
  match be_deref (em_backend m) o with
  | None => Raise OtherError
  | Some e =>
      if (record && bool_decide (ev_role e ≠ RUNTIME_EVENT))%bool then
        let! tb := choose_tag e (em_backend m) in
        let '(tag, b) := tb in
        Ok (tag, with_backend (be_store tag o (be_modify (with_tag (Some tag)) o b)) m)
      else Ok (ev_id e, m)
  end.

(** [add(event, record=...)]: the event is the live object [o].  The second
    component lists the handlers called. *)
Definition add (stack : list string) (fmt : option pyval) (o : oid) (record : bool) (m : manager)
    : result (string * list hid * manager) :=
  match be_deref (em_backend m) o with
  | None => Raise OtherError
  | Some e =>
      let m1 := with_backend (be_modify (inject_metadata stack fmt) o (em_backend m)) m in
      let '(called, m2, esc) := emit (ev_type e) o m1 in
      if (esc : bool) then Raise OtherError
      else
        let! tm := record_event o record m2 in
        Ok (tm.1, called, tm.2)
  end.

End Emit.

(** ** Lookup *)

(** [get]: by tag, then by id. *)
Definition get (key : string) (m : manager) : option oid :=
  match be_get key (em_backend m) with
  | Some o => Some o
  | None => be_get_by_id key (em_backend m)
  end.

(** [__getitem__]. *)
Definition getitem (key : string) (m : manager) : result oid :=
  match be_get key (em_backend m) with
  | Some o => Ok o
  | None =>
      match be_get_by_id key (em_backend m) with
      | Some o => Ok o
      | None => Raise KeyError
      end
  end.

(** [__contains__], [__len__], [all_events]. *)
Definition contains_key (key : string) (m : manager) : bool := bool_decide (is_Some (get key m)).
Definition len (m : manager) : nat := be_len (em_backend m).
Definition all_events (m : manager) : list oid := be_all_events (em_backend m).

(** [items], [keys], [values]: the active view. *)
Definition items (m : manager) : list (string * oid) :=
  omap (λ t, (t,.) <$> be_get t (em_backend m)) (be_active_tags (em_backend m)).
Definition keys (m : manager) : list string := be_active_tags (em_backend m).
Definition values (m : manager) : list oid :=
  omap (λ t, be_get t (em_backend m)) (be_active_tags (em_backend m)).

(** ** Mutation *)

(** [update]. *)
Definition update (key : string) (fields : list field_update) (m : manager) : manager * bool :=
  let '(b, ok) := be_update key fields (em_backend m) in
  if (ok : bool) then (with_backend b m, true)
  else
    match be_get_by_id key b with
    | None => (with_backend b m, false)
    | Some o =>
        match be_find_tag o b with
        | Some t =>
            if bool_decide (t ≠ ""%string) then
              let '(b', ok') := be_update t fields b in (with_backend b' m, ok')
            else (with_backend b m, false)
        | None => (with_backend b m, false)
        end
    end.

(** [remove]. *)
Definition remove (key : string) (m : manager) : manager * bool :=
  let '(b, ok) := be_remove key (em_backend m) in
  if (ok : bool) then (with_backend b m, true)
  else
    match be_get_by_id key b with
    | None => (with_backend b m, false)
    | Some o =>
        match be_find_tag o b with
        | Some t =>
            if bool_decide (t ≠ ""%string) then
              let '(b', ok') := be_remove t b in (with_backend b' m, ok')
            else (with_backend b m, false)
        | None => (with_backend b m, false)
        end
    end.

(** [clear]. *)
Definition clear (m : manager) : manager := with_backend (be_clear (em_backend m)) m.

(** ** [collapse] *)

(** The tags whose range overlaps [lo..hi], in active order. *)
Fixpoint tags_to_collapse (lo hi : Z) (tags : list string) : result (list string) :=
  match tags with
  | [] => Ok []
  | t :: ts =>
      let! s := parse_tag_start t in
      let! e := parse_tag_end t in
      let! rest := tags_to_collapse lo hi ts in
      Ok (if ((s <=? hi) && (lo <=? e))%Z%bool then t :: rest else rest)
  end.

(** Archive the events and drop their tags from the active list. *)
Definition archive_all (tags : list string) (b : B) : B :=
  foldl (λ b t, (be_remove_active_tag t (be_set_status t ARCHIVED b).1).1) b tags.

(** [min(...)] and [max(...)] of a non-empty sequence. *)
Definition min_list (l : list Z) : Z := match l with [] => 0 | x :: l' => foldl Z.min x l' end.
Definition max_list (l : list Z) : Z := match l with [] => 0 | x :: l' => foldl Z.max x l' end.

(** The index of the first active tag starting after [first], or the length. *)
Fixpoint find_insert_idx (first : Z) (tags : list string) (i : nat) : result nat :=
  match tags with
  | [] => Ok i
  | t :: ts =>
      let! s := parse_tag_start t in
      if (first <? s)%Z then Ok i else find_insert_idx first ts (S i)
  end.

Definition quote : string := String (Ascii.ascii_of_nat 34) "".

(** The recovery instructions of a summary. *)
Definition summary_doc (actual_start : Z) (tag : string) : string :=
  ("Search original events (including archived): "
   +:+ "self.events.query(query=" +:+ quote +:+ "keyword" +:+ quote +:+ ", limit=10). "
   +:+ "Read by tag, e.g. self.events[" +:+ quote +:+ str_int actual_start +:+ quote +:+ "]. "
   +:+ "Expand this summary: self.events[self.events[" +:+ quote +:+ tag +:+ quote
   +:+ "].children_tags]. "
   +:+ "For nested summaries, expand their children_tags again. "
   +:+ "Inspect originals when exact wording or omitted details matter.")%string.

Definition new_summary (new_id : string) (a e : Z) (children : list string)
    (text : option string) : event :=
  let tag := range_tag a e in
  mk_event new_id "Summary" "Summary" ASSISTANT (Some tag) ACTIVE [] []
    (Some (mk_summary tag (a, e) children text (summary_doc a tag))).

(** The second half of [collapse]: the selected tags, whose first one is
    [first], are archived and replaced by one summary at their position. *)
Definition replace_block (new_id first : string) (tags : list string) (text : option string) (b : B)
    : result (string * oid * B) :=
  let b1 := archive_all tags b in
  let! starts := map_result parse_tag_start tags in
  let! ends := map_result parse_tag_end tags in
  let actual_start := min_list starts in
  let actual_end := max_list ends in
  let tag := range_tag actual_start actual_end in
  let! first_start := parse_tag_start first in
  let! idx := find_insert_idx first_start (be_active_tags b1) 0 in
  let '(o, b2) := be_alloc (new_summary new_id actual_start actual_end tags text) b1 in
  let b3 := be_store tag o b2 in
  let b4 := (be_remove_active_tag tag b3).1 in
  Ok (tag, o, be_insert_active_tag tag idx b4).

(** [collapse] up to the emission: the summary's tag, its reference and the
    new backend.  [new_id] is the fresh id of the summary event. *)
Definition collapse_backend (new_id start_tag end_tag : string) (text : option string) (b : B)
    : result (string * oid * B) :=
  let! start_num := parse_tag_start start_tag in
  let! end_num := parse_tag_end end_tag in
  let! tags := tags_to_collapse start_num end_num (be_active_tags b) in
  match tags with
  | [] => Raise ValueError
  | first :: _ => replace_block new_id first tags text b
  end.

(** [collapse]. *)
Definition collapse (call : hid → oid → manager → manager * houtcome)
    (new_id start_tag end_tag : string) (text : option string) (m : manager)
    : result (string * list hid * manager) :=
  let! tob := collapse_backend new_id start_tag end_tag text (em_backend m) in
  let '(tag, o, b) := tob in
  let '(called, m', esc) := emit call "Summary" o (with_backend b m) in
  if (esc : bool) then Raise OtherError else Ok (tag, called, m').

(** ** Expanding summaries *)

Definition summary_of (b : B) (o : oid) : option summary := be_deref b o ≫= ev_summary.

(** [_all_originals] with a bound on the recursion depth; [None] is running
    out of it. *)
Fixpoint all_originals (fuel : nat) (tag : string) (b : B) : option (list oid) :=
  match fuel with
  | 0 => None
  | S fuel' =>
      match be_get tag b with
      | None => Some []
      | Some o =>
          match summary_of b o with
          | None => Some [o]
          | Some sm =>
              foldr (λ child acc,
                match be_get child b with
                | None => acc
                | Some c =>
                    match summary_of b c with
                    | Some csm =>
                        l ← all_originals fuel' (sm_tag csm) b; r ← acc; Some (l ++ r)
                    | None => r ← acc; Some (c :: r)
                    end
                end) (Some []) (sm_children sm)
          end
      end
  end.

(** ** [filter] *)
Section Filter.
(** [_get_searchable_text] renders an event through [pformat].
    [re_compile ignore_case pattern] is the [search] test of the compiled
    pattern, [None] when the [re] module rejects the pattern. *)
Variable searchable_text : event → string.
Variable re_compile : bool → string → option (string → bool).

Record filter_args := mk_filter {
  f_type : option string;
  f_call_id : option string;
  f_execution_status : option string;
  f_query : option string;
  f_regex : bool;
  f_limit : option Z;
}.

Definition keep {A} (c : option A) (p : A → oid → bool) (l : list oid) : list oid :=
  match c with Some a => List.filter (p a) l | None => l end.

Definition on_event (b : B) (p : event → bool) (o : oid) : bool :=
  match be_deref b o with Some e => p e | None => false end.

(** The text or regular-expression filter. *)
Definition filter_query (b : B) (regex : bool) (query : option string) (es : list oid)
    : result (list oid) :=
  match query with
  | None => Ok es
  | Some q =>
      if regex then
        match re_compile true q with
        | None => Raise OtherError
        | Some search => Ok (List.filter (on_event b (λ e, search (searchable_text e))) es)
        end
      else Ok (List.filter (on_event b (λ e, contains (lower q) (lower (searchable_text e)))) es)
  end.

Definition filter (a : filter_args) (m : manager) : result (list oid) :=
  let! _ := match f_type a with Some t => validate_event_type_name t | None => Ok tt end in
  let b := em_backend m in
  let es := be_all_events b in
  let es := keep (f_type a) (λ t, on_event b (λ e, bool_decide (ev_type e = t))) es in
  let es := keep (f_call_id a)
    (λ c, on_event b (λ e, got_eq_str (dict_get "call_id"%string (ev_metadata e)) (Some c))) es in
  let es := keep (f_execution_status a)
    (λ s, on_event b (λ e, got_eq_str (dict_get "execution_status"%string (ev_fields e)) (Some s))) es in
  let! es := filter_query b (f_regex a) (f_query a) es in
  Ok (match f_limit a with
      | Some n => if (n <? Z.of_nat (length es))%Z then py_slice_from (- n) es else es
      | None => es
      end).
End Filter.

End Manager.

Arguments manager B : clear implicits.
