(* ===== verification/EventLog.v ===== *)
(** * EventLog: correctness of recording and collapsing

    The active tags of a manager are disjoint integer ranges in increasing
    order.  This file proves, against the backend interface of [Events.v],
    that [add], [collapse], [remove], [update] and [clear] keep that order,
    that [collapse] replaces exactly the overlapping block by one range tag
    and archives it, that earlier tags keep giving access to the same
    objects, and when the expansion of a summary terminates. *)

From S2P Require Import Prelude PyStr PyDict Values Events EventManager.

Open Scope nooa_scope.
Local Open Scope Z_scope.

(** ** The span of a tag *)

Definition tag_span (t : string) : option (Z * Z) :=
  match parse_tag_start t, parse_tag_end t with
  | Ok s, Ok e => Some (s, e)
  | _, _ => None
  end.

Lemma has_dots_str_int n : has_dots (str_int n) = false.
Proof. unfold has_dots. by rewrite split_dots_no_dot by auto with nooa. Qed.

Lemma split_dots_range_tag a e : split_dots (range_tag a e) = [str_int a; str_int e].
Proof. apply split_dots_range; auto with nooa. Qed.

Lemma has_dots_range_tag a e : has_dots (range_tag a e) = true.
Proof. unfold has_dots. by rewrite split_dots_range_tag. Qed.

Lemma tag_span_str_int n : tag_span (str_int n) = Some (n, n).
Proof.
  unfold tag_span, parse_tag_start, parse_tag_end.
  by rewrite has_dots_str_int, py_int_str_int.
Qed.

Lemma tag_span_range_tag a e : tag_span (range_tag a e) = Some (a, e).
Proof.
  unfold tag_span, parse_tag_start, parse_tag_end.
  rewrite has_dots_range_tag, split_dots_range_tag. simpl. by rewrite !py_int_str_int.
Qed.

Lemma tag_max_num_str_int n : tag_max_num (str_int n) = n.
Proof. unfold tag_max_num. by rewrite has_dots_str_int, py_int_str_int. Qed.

Lemma tag_max_num_range_tag a e : tag_max_num (range_tag a e) = e.
Proof.
  unfold tag_max_num. rewrite has_dots_range_tag, split_dots_range_tag. simpl.
  by rewrite py_int_str_int.
Qed.

Lemma tag_span_Some t s e :
  tag_span t = Some (s, e) → parse_tag_start t = Ok s ∧ parse_tag_end t = Ok e.
Proof. unfold tag_span. repeat case_match; naive_solver. Qed.

Lemma range_tag_inj a e a' e' : range_tag a e = range_tag a' e' → a = a' ∧ e = e'.
Proof.
  intros Heq. pose proof (tag_span_range_tag a e) as Hs.
  rewrite Heq, tag_span_range_tag in Hs. by simplify_eq.
Qed.

Lemma range_tag_not_str_int a e n : range_tag a e ≠ str_int n.
Proof. intros Heq. pose proof (has_dots_range_tag a e) as Hd. by rewrite Heq, has_dots_str_int in Hd. Qed.

(** ** Increasing disjoint spans *)

Inductive ordered : Z → list string → Prop :=
  | ordered_nil lo : ordered lo []
  | ordered_cons lo t s e ts :
      tag_span t = Some (s, e) → lo < s → s ≤ e → ordered e ts → ordered lo (t :: ts).

(** The end of the last span, [lo] when there is none. *)
Definition last_end (lo : Z) (ts : list string) : Z :=
  foldl (λ acc t, match tag_span t with Some (_, e) => e | None => acc end) lo ts.

Lemma ordered_app lo l1 l2 :
  ordered lo (l1 ++ l2) ↔ ordered lo l1 ∧ ordered (last_end lo l1) l2.
Proof.
  unfold last_end. revert lo. induction l1 as [|t l1 IH]; intros lo; csimpl.
  - split; [|tauto]. intros; split; [constructor|done].
  - split.
    + inversion 1 as [|? ? s e ? Hspan Hlo Hse Ho]; subst. rewrite Hspan.
      apply IH in Ho as [? ?]. split; [by econstructor|done].
    + intros [H1 H2]. inversion H1 as [|? ? s e ? Hspan Hlo Hse Ho]; subst.
      rewrite Hspan in H2. econstructor; [done..|]. by apply IH.
Qed.

Lemma ordered_weaken lo lo' ts : lo' ≤ lo → ordered lo ts → ordered lo' ts.
Proof. intros ? Ho. inversion Ho; subst; econstructor; eauto; lia. Qed.

Lemma ordered_last_end_ge lo ts : ordered lo ts → lo ≤ last_end lo ts.
Proof.
  unfold last_end. induction 1 as [|lo t s e ts Hspan Hlo Hse Ho IH]; csimpl; [lia|].
  rewrite Hspan. lia.
Qed.

Lemma ordered_elem lo ts t :
  ordered lo ts → t ∈ ts → ∃ s e, tag_span t = Some (s, e) ∧ lo < s ∧ s ≤ e ∧ e ≤ last_end lo ts.
Proof.
  unfold last_end. induction 1 as [|lo t' s e ts Hspan Hlo Hse Ho IH]; [by intros ?%elem_of_nil|].
  csimpl. rewrite Hspan. intros [->|Hin]%elem_of_cons.
  - exists s, e. split_and!; [done..|]. by apply (ordered_last_end_ge e ts).
  - destruct (IH Hin) as (s' & e' & ? & ? & ? & ?). exists s', e'. split_and!; auto; lia.
Qed.

Lemma ordered_NoDup lo ts : ordered lo ts → NoDup ts.
Proof.
  induction 1 as [|lo t s e ts Hspan Hlo Hse Ho IH]; constructor; [|done].
  intros Hin. destruct (ordered_elem _ _ _ Ho Hin) as (s' & e' & ? & ?). simplify_eq. lia.
Qed.

Lemma ordered_snoc lo ts t s e :
  ordered lo ts → tag_span t = Some (s, e) → last_end lo ts < s → s ≤ e → ordered lo (ts ++ [t]).
Proof.
  intros Ho Hspan Hlt Hse. apply ordered_app. split; [done|].
  econstructor; [done..|constructor].
Qed.

Lemma ordered_sublist lo ts ts' : ordered lo ts → ts' `sublist_of` ts → ordered lo ts'.
Proof.
  intros Ho. revert ts'. induction Ho as [|lo t s e ts Hspan Hlo Hse Ho IH]; intros ts' Hsub.
  - apply sublist_nil_r in Hsub. subst. constructor.
  - apply sublist_cons_r in Hsub as [Hsub|(ts'' & -> & Hsub)].
    + apply IH in Hsub. eapply ordered_weaken; [|done]. lia.
    + econstructor; eauto.
Qed.

Lemma last_end_app lo l1 l2 : last_end lo (l1 ++ l2) = last_end (last_end lo l1) l2.
Proof. unfold last_end. by rewrite foldl_app. Qed.

Lemma last_end_sublist lo ts ts' :
  ordered lo ts → ts' `sublist_of` ts → last_end lo ts' ≤ last_end lo ts.
Proof.
  intros Ho Hsub. pose proof (ordered_sublist _ _ _ Ho Hsub) as Ho'.
  destruct ts' as [|t ts' _] using rev_ind.
  { simpl. by apply ordered_last_end_ge. }
  assert (Hin : t ∈ ts' ++ [t]) by set_solver.
  pose proof (ordered_elem _ _ _ Ho' Hin) as (s & e & Hspan & _).
  assert (Hin' : t ∈ ts) by (eapply elem_of_sublist; eauto).
  pose proof (ordered_elem _ _ _ Ho Hin') as (s' & e' & Hspan' & _ & _ & Hle).
  unfold last_end at 1. rewrite foldl_app. simpl. rewrite Hspan. simplify_eq. lia.
Qed.

(** ** Selecting the overlapping block *)

Definition overlaps (lo hi : Z) (t : string) : Prop :=
  ∃ s e, tag_span t = Some (s, e) ∧ s ≤ hi ∧ lo ≤ e.

Lemma tags_to_collapse_elem lo hi ts sel :
  tags_to_collapse lo hi ts = Ok sel → ∀ t, t ∈ sel ↔ t ∈ ts ∧ overlaps lo hi t.
Proof.
  revert sel. induction ts as [|t ts IH]; intros sel; csimpl.
  { intros [= <-] t. set_solver. }
  destruct (parse_tag_start t) as [s|] eqn:Hs; simpl; [|done].
  destruct (parse_tag_end t) as [e|] eqn:He; simpl; [|done].
  destruct (tags_to_collapse lo hi ts) as [rest|]; simpl; [|done].
  intros [= <-] t'. specialize (IH rest eq_refl t').
  assert (Hspan : tag_span t = Some (s, e)) by (unfold tag_span; by rewrite Hs, He).
  assert (Hov : overlaps lo hi t ↔ s ≤ hi ∧ lo ≤ e).
  { unfold overlaps. rewrite Hspan. naive_solver. }
  destruct (Z.leb_spec s hi), (Z.leb_spec lo e); simpl; rewrite ?elem_of_cons, IH;
    (split; [|intros [Hin Ht']]; try naive_solver lia);
    apply elem_of_cons in Hin as [->|Hin]; naive_solver lia.
Qed.

Lemma tags_to_collapse_ordered_ok lo hi lo' ts :
  ordered lo' ts → ∃ sel, tags_to_collapse lo hi ts = Ok sel.
Proof.
  induction 1 as [|lo' t s e ts Hspan Hlo Hse Ho [rest IH]]; simpl; [eauto|].
  apply tag_span_Some in Hspan as [-> ->]. rewrite IH. simpl. eauto.
Qed.

Lemma tags_to_collapse_prefix lo hi lo' ts sel :
  ordered lo' ts → lo ≤ lo' → tags_to_collapse lo hi ts = Ok sel →
  ∃ post, ts = sel ++ post.
Proof.
  intros Ho. revert sel. induction Ho as [|lo' t s e ts Hspan Hlo Hse Ho IH]; intros sel Hle; csimpl.
  { intros [= <-]. by exists []. }
  pose proof (tag_span_Some _ _ _ Hspan) as [-> ->]. simpl.
  destruct (tags_to_collapse_ordered_ok lo hi _ _ Ho) as [rest Hrest]. rewrite Hrest. simpl.
  intros [= <-]. destruct (Z.leb_spec s hi), (Z.leb_spec lo e); simpl; try lia.
  - destruct (IH rest ltac:(lia) Hrest) as [post ->]. by exists post.
  - (* nothing later can overlap either *)
    destruct rest as [|t' rest]; [by eexists|].
    assert (Hin : t' ∈ t' :: rest) by set_solver.
    apply (tags_to_collapse_elem _ _ _ _ Hrest) in Hin as [Hin (s' & e' & Hspan' & ? & ?)].
    destruct (ordered_elem _ _ _ Ho Hin) as (s2 & e2 & ? & ? & ? & ?). simplify_eq. lia.
Qed.

(** The selected tags form one contiguous block. *)
Lemma tags_to_collapse_block lo hi lo' ts sel :
  ordered lo' ts → tags_to_collapse lo hi ts = Ok sel →
  ∃ pre post, ts = pre ++ sel ++ post.
Proof.
  intros Ho. revert sel. induction Ho as [|lo' t s e ts Hspan Hlo Hse Ho IH]; intros sel; csimpl.
  { intros [= <-]. by exists [], []. }
  pose proof (tag_span_Some _ _ _ Hspan) as [-> ->]. simpl.
  destruct (tags_to_collapse_ordered_ok lo hi _ _ Ho) as [rest Hrest]. rewrite Hrest. simpl.
  intros [= <-]. destruct ((s <=? hi) && (lo <=? e))%bool eqn:Hov.
  - bool_prop. destruct (tags_to_collapse_prefix lo hi _ _ _ Ho ltac:(lia) Hrest) as [post ->].
    by exists [], post.
  - destruct (IH rest Hrest) as (pre & post & ->). by exists (t :: pre), post.
Qed.

(** ** The hull of a block *)

Lemma map_result_starts lo ts :
  ordered lo ts →
  map_result parse_tag_start ts = Ok (omap (λ t, fst <$> tag_span t) ts) ∧
  map_result parse_tag_end ts = Ok (omap (λ t, snd <$> tag_span t) ts).
Proof.
  induction 1 as [|lo t s e ts Hspan Hlo Hse Ho [IH1 IH2]]; csimpl; [done|].
  rewrite Hspan. apply tag_span_Some in Hspan as [-> ->]. simpl. by rewrite IH1, IH2.
Qed.

Lemma foldl_min_ge x l : Forall (λ y, x ≤ y) l → foldl Z.min x l = x.
Proof.
  revert x. induction l as [|y l IH]; intros x; csimpl; [done|].
  intros [? ?]%Forall_cons. rewrite Z.min_l by done. by apply IH.
Qed.

Lemma min_list_starts lo t s e ts :
  ordered lo (t :: ts) → tag_span t = Some (s, e) →
  min_list (omap (λ t, fst <$> tag_span t) (t :: ts)) = s.
Proof.
  intros Ho Hspan. csimpl. rewrite Hspan. simpl. apply foldl_min_ge.
  inversion Ho as [|? ? ? ? ? ? ? ? Ho']; simplify_eq. apply Forall_forall. intros y Hy.
  apply list_elem_of_omap in Hy as (t' & Hin & (? & Ht' & ->)%fmap_Some).
  destruct (ordered_elem _ _ _ Ho' Hin) as (s' & e' & ? & ? & ? & ?). simplify_eq/=. lia.
Qed.

Lemma foldl_max_last_end lo ts x :
  ordered lo ts → x ≤ lo →
  foldl Z.max x (omap (λ t, snd <$> tag_span t) ts) = match ts with [] => x | _ => last_end lo ts end.
Proof.
  intros Ho. revert x. induction Ho as [|lo t s e ts Hspan Hlo Hse Ho IH]; intros x Hx; csimpl; [done|].
  unfold last_end. csimpl. rewrite Hspan. simpl. rewrite Z.max_r by lia.
  rewrite IH by lia. by destruct ts.
Qed.

Lemma max_list_ends lo t ts :
  ordered lo (t :: ts) →
  max_list (omap (λ t, snd <$> tag_span t) (t :: ts)) = last_end lo (t :: ts).
Proof.
  intros Ho. inversion Ho as [|? ? s e ? Hspan Hlo Hse Ho']; subst.
  unfold last_end. csimpl. rewrite Hspan. simpl.
  rewrite (foldl_max_last_end e) by (done || lia). by destruct ts.
Qed.

(** The insertion point is where the block was. *)
Lemma find_insert_idx_spec first pre post lo i :
  ordered lo pre → Forall (λ t, ∃ s e, tag_span t = Some (s, e) ∧ s ≤ first) pre →
  Forall (λ t, ∃ s e, tag_span t = Some (s, e) ∧ first < s) post →
  find_insert_idx first (pre ++ post) i = Ok (i + length pre)%nat.
Proof.
  intros _ Hpre Hpost. revert i. induction Hpre as [|t pre (s & e & Hspan & Hs) _ IH]; intros i; csimpl.
  - rewrite Nat.add_0_r. destruct Hpost as [|t post (s & e & Hspan & Hs)]; simpl; [done|].
    apply tag_span_Some in Hspan as [-> _]. simpl. destruct (Z.ltb_spec first s); [done|lia].
  - apply tag_span_Some in Hspan as [-> _]. simpl. destruct (Z.ltb_spec first s); [lia|].
    rewrite IH. f_equal. lia.
Qed.

(** What [collapse] computes from a block inside ordered tags. *)
Lemma block_hull lo pre first mid post a e :
  ordered lo (pre ++ mid ++ post) → head mid = Some first → tag_span first = Some (a, e) →
  let z := last_end lo (pre ++ mid) in
  a ≤ z ∧
  map_result parse_tag_start mid = Ok (omap (λ t, fst <$> tag_span t) mid) ∧
  map_result parse_tag_end mid = Ok (omap (λ t, snd <$> tag_span t) mid) ∧
  min_list (omap (λ t, fst <$> tag_span t) mid) = a ∧
  max_list (omap (λ t, snd <$> tag_span t) mid) = z ∧
  ordered lo (pre ++ range_tag a z :: post) ∧
  find_insert_idx a (pre ++ post) 0 = Ok (length pre).
Proof.
  intros Ho Hhead Hspan z. unfold z. rewrite last_end_app.
  apply ordered_app in Ho as [Hpre Ho]. apply ordered_app in Ho as [Hmid Hpost].
  set (lo1 := last_end lo pre) in *. destruct mid as [|t mid]; [done|].
  injection Hhead as ->. inversion Hmid as [|? ? a' e' ? Hspan' Hlo Hse Hmid0]; simplify_eq.
  assert (Hz : a ≤ last_end lo1 (first :: mid)).
  { pose proof (ordered_last_end_ge _ _ Hmid0) as Hge. unfold last_end in *. csimpl. rewrite Hspan. lia. }
  destruct (map_result_starts _ _ Hmid) as [Hs He].
  split_and!; [done|done|done|by eapply min_list_starts|by apply max_list_ends|..].
  - apply ordered_app. split; [done|].
    econstructor; [apply tag_span_range_tag|done|done|done].
  - apply (find_insert_idx_spec a pre post lo 0); [done|..]; apply Forall_forall; intros t Hin.
    + destruct (ordered_elem _ _ _ Hpre Hin) as (s & e1 & Hs1 & _ & Hs2 & Hs3).
      fold lo1 in Hs3. exists s, e1. split; [done|lia].
    + destruct (ordered_elem _ _ _ Hpost Hin) as (s & e1 & Hs1 & Hs2 & _ & _).
      exists s, e1. split; [done|]. lia.
Qed.

Lemma ordered_fresh lo pre t post : ordered lo (pre ++ t :: post) → t ∉ pre ++ post.
Proof.
  intros (_ & Hd & Hn)%ordered_NoDup%NoDup_app.
  apply NoDup_cons in Hn as [Hn _]. rewrite elem_of_app. intros [Hin|Hin]; [|done].
  apply (Hd _ Hin). set_solver.
Qed.

(** ** Archiving a block, on the view *)

Definition view_archive (t : string) (w : view) : view :=
  view_remove_active t (view_on_tag (with_status ARCHIVED) t w).

Definition view_archive_all (ts : list string) (w : view) : view :=
  foldl (λ w t, view_archive t w) w ts.

(** The event [e] with its status possibly set to [ARCHIVED]. *)
Definition archived_or_same (e e' : event) : Prop := e' = e ∨ e' = with_status ARCHIVED e.

Lemma view_on_tag_fields f t w :
  v_tags (view_on_tag f t w) = v_tags w ∧ v_log (view_on_tag f t w) = v_log w ∧
  v_active (view_on_tag f t w) = v_active w ∧ v_next (view_on_tag f t w) = v_next w ∧
  length (v_heap (view_on_tag f t w)) = length (v_heap w).
Proof. unfold view_on_tag. case_match; simpl; rewrite ?length_alter; done. Qed.

Lemma view_archive_all_fields ts w :
  v_tags (view_archive_all ts w) = v_tags w ∧ v_log (view_archive_all ts w) = v_log w ∧
  v_next (view_archive_all ts w) = v_next w ∧
  length (v_heap (view_archive_all ts w)) = length (v_heap w) ∧
  v_active (view_archive_all ts w) = foldl (λ l t, discard_first t l) (v_active w) ts.
Proof.
  unfold view_archive_all. revert w. induction ts as [|t ts IH]; intros w; csimpl; [done|].
  destruct (IH (view_archive t w)) as (-> & -> & -> & -> & ->).
  destruct (view_on_tag_fields (with_status ARCHIVED) t w) as (Ht & Hl & Ha & Hn & Hh).
  unfold view_archive; simpl. by rewrite Ht, Hl, Ha, Hn, Hh.
Qed.

Lemma discard_block (pre mid post : list string) :
  NoDup (pre ++ mid ++ post) →
  foldl (λ l t, discard_first t l) (pre ++ mid ++ post) mid = pre ++ post.
Proof.
  induction mid as [|t mid IH]; intros Hnd; [done|]. csimpl.
  rewrite discard_first_app.
  - apply IH. eapply sublist_NoDup; [exact Hnd|].
    apply sublist_app; [done|]. by apply sublist_cons.
  - apply NoDup_app in Hnd as (_ & Hd & _). intros Hin. by apply (Hd t Hin), elem_of_cons; left.
Qed.

Lemma heap_on_tag f t w o e :
  v_heap w !! o = Some e →
  v_heap (view_on_tag f t w) !! o = Some (if decide (v_tags w !! t = Some o) then f e else e).
Proof.
  intros He. unfold view_on_tag. destruct (v_tags w !! t) as [o'|]; simpl.
  - destruct (decide (o' = o)) as [->|Hne].
    + rewrite list_lookup_alter_eq, He. by rewrite decide_True.
    + rewrite list_lookup_alter_ne by done. rewrite He. by rewrite decide_False by congruence.
  - done.
Qed.

Lemma with_status_idem s e : with_status s (with_status s e) = with_status s e.
Proof. by destruct e. Qed.

(** Archiving sets exactly the status of the events the tags point to. *)
Lemma heap_archive_all ts w o e :
  v_heap w !! o = Some e →
  v_heap (view_archive_all ts w) !! o =
    Some (if decide (Exists (λ t, v_tags w !! t = Some o) ts) then with_status ARCHIVED e else e).
Proof.
  revert w e. induction ts as [|t ts IH]; intros w e He.
  { rewrite decide_False; [done|]. by intros ?%Exists_nil. }
  change (view_archive_all (t :: ts) w) with (view_archive_all ts (view_archive t w)).
  assert (Htags : v_tags (view_archive t w) = v_tags w).
  { unfold view_archive. simpl. by destruct (view_on_tag_fields (with_status ARCHIVED) t w) as (-> & _). }
  pose proof (heap_on_tag (with_status ARCHIVED) t w o e He) as He'.
  change (v_heap (view_on_tag (with_status ARCHIVED) t w)) with (v_heap (view_archive t w)) in He'.
  rewrite (IH _ _ He'), Htags. f_equal.
  repeat case_decide; rewrite ?with_status_idem; try done;
    rewrite Exists_cons in *; naive_solver.
Qed.

(** ** [collapse] against the backend laws *)
Section CollapseSpec.
Context {B : Type} `{EventBackendLaws B}.

Lemma archive_all_view ts b :
  be_wf b → be_wf (archive_all ts b) ∧ be_view (archive_all ts b) = view_archive_all ts (be_view b).
Proof.
  unfold archive_all, view_archive_all. revert b. induction ts as [|t ts IH]; intros b Hwf; csimpl; [done|].
  destruct (IH (be_remove_active_tag t (be_set_status t ARCHIVED b).1).1) as [Hw Hv].
  { by apply remove_active_wf, set_status_wf. }
  split; [done|]. rewrite Hv. unfold view_archive.
  by rewrite remove_active_view, set_status_view.
Qed.

(** The view after a successful collapse of the block [mid]. *)
Definition collapsed_view (pre mid post : list string) (tag : string) (sum : event) (w : view) : view :=
  let w1 := view_archive_all mid w in
  mk_view (v_heap w1 ++ [sum]) (v_log w ++ [length (v_heap w)])
    (<[tag := length (v_heap w)]> (v_tags w)) (pre ++ tag :: post)
    (Z.max (v_next w) (tag_max_num tag + 1)).

(** Replacing a block of ordered active tags, all at once: the tag is that of
    the block's hull and the new contents are [collapsed_view]. *)
Lemma replace_block_spec id b lo pre first mid post text a e :
  be_wf b → v_active (be_view b) = pre ++ mid ++ post → ordered lo (pre ++ mid ++ post) →
  head mid = Some first → tag_span first = Some (a, e) →
  let z := last_end lo (pre ++ mid) in
  let tag := range_tag a z in
  a ≤ z ∧ ordered lo (pre ++ tag :: post) ∧
  ∃ b', replace_block id first mid text b = Ok (tag, length (v_heap (be_view b)), b') ∧ be_wf b' ∧
    be_view b' = collapsed_view pre mid post tag (new_summary id a z mid text) (be_view b).
Proof.
  intros Hwf Hact Ho Hhead Hspan z tag.
  destruct (block_hull _ _ _ _ _ _ _ Ho Hhead Hspan) as (Hz & Hmap1 & Hmap2 & Hmin & Hmax & Hord & Hidx).
  fold z tag in Hz, Hmax, Hord. split; [done|]. split; [done|].
  destruct (archive_all_view mid b Hwf) as [Hwf1 Hv1].
  destruct (view_archive_all_fields mid (be_view b)) as (Htags & Hlog & Hnext & Hlen & Hactive).
  rewrite Hact, discard_block in Hactive by (by eapply ordered_NoDup).
  unfold replace_block. rewrite Hmap1, Hmap2. cbn [result_bind]. rewrite Hmin, Hmax. fold tag.
  destruct (tag_span_Some _ _ _ Hspan) as [-> _]. cbn [result_bind].
  rewrite active_tags_view, Hv1, Hactive, Hidx. cbn [result_bind].
  set (sm := new_summary id a z mid text).
  pose proof (alloc_ref sm (archive_all mid b)) as Hr.
  pose proof (alloc_view sm (archive_all mid b)) as Hv2.
  pose proof (alloc_wf sm (archive_all mid b) Hwf1) as Hwf2.
  destruct (be_alloc sm (archive_all mid b)) as [o b2]. cbn [fst snd] in *.
  rewrite Hv1 in Hr, Hv2. rewrite Hlen in Hr. subst o.
  eexists. split; [done|]. split.
  - apply insert_active_wf, remove_active_wf, store_wf; [done|].
    rewrite Hv2. simpl. rewrite length_app, Hlen. simpl. lia.
  - rewrite insert_active_view, remove_active_view, store_view, Hv2.
    unfold collapsed_view, view_insert_active, view_remove_active, view_store, view_alloc.
    cbn [v_heap v_log v_tags v_active v_next]. rewrite Hlog, Htags, Hnext, Hactive. f_equal.
    rewrite discard_first_snoc by (by eapply ordered_fresh). apply list_insert_at_app.
Qed.

(** What [collapse] does on ordered active tags: it selects exactly the
    overlapping tags, which form a block, and replaces that block. *)
Lemma collapse_backend_spec id st et text b lo tag o b' :
  be_wf b → ordered lo (v_active (be_view b)) →
  collapse_backend id st et text b = Ok (tag, o, b') →
  ∃ sn en pre first mid post a e,
    parse_tag_start st = Ok sn ∧ parse_tag_end et = Ok en ∧
    v_active (be_view b) = pre ++ mid ++ post ∧
    (∀ t, t ∈ mid ↔ t ∈ v_active (be_view b) ∧ overlaps sn en t) ∧
    head mid = Some first ∧ tag_span first = Some (a, e) ∧
    let z := last_end lo (pre ++ mid) in
    a ≤ z ∧ tag = range_tag a z ∧ o = length (v_heap (be_view b)) ∧ be_wf b' ∧
    be_view b' = collapsed_view pre mid post tag (new_summary id a z mid text) (be_view b) ∧
    ordered lo (pre ++ tag :: post).
Proof.
  intros Hwf Ho. unfold collapse_backend.
  destruct (parse_tag_start st) as [sn|] eqn:Hsn; simpl; [|done].
  destruct (parse_tag_end et) as [en|] eqn:Hen; simpl; [|done]. rewrite active_tags_view.
  destruct (tags_to_collapse sn en (v_active (be_view b))) as [mid|] eqn:Hsel; [|done].
  cbn [result_bind]. destruct mid as [|first mid0] eqn:Hmid; [done|].
  rewrite <- Hmid in *. assert (Hhead : head mid = Some first) by (by subst).
  clear Hmid mid0.
  destruct (tags_to_collapse_block _ _ _ _ _ Ho Hsel) as (pre & post & Hact).
  pose proof (tags_to_collapse_elem _ _ _ _ Hsel) as Helem.
  rewrite Hact in Ho. assert (Hin : first ∈ pre ++ mid ++ post).
  { rewrite !elem_of_app. right; left. destruct mid; set_solver. }
  destruct (ordered_elem _ _ _ Ho Hin) as (a & e & Hspan & _).
  destruct (replace_block_spec id b lo pre first mid post text a e) as (Hz & Hord & b1 & -> & Hwf1 & Hv);
    [done..|].
  intros [= <- <- <-]. exists sn, en, pre, first, mid, post, a, e. split_and!; done.
Qed.
End CollapseSpec.

(** ** The invariant of the log *)

Definition canonical (t : string) : Prop :=
  (∃ n, t = str_int n) ∨ (∃ a e, t = range_tag a e).

(** A bound on how deep the expansion of a summary can nest. *)
Definition tag_measure (t : string) : nat :=
  match tag_span t with
  | Some (s, e) => Z.to_nat (2 * (e - s)) + (if has_dots t then 1 else 0)
  | None => 0
  end%nat.

Record log_inv (w : view) : Prop := {
  li_ordered : ordered 0 (v_active w);
  li_active : ∀ t, t ∈ v_active w → is_Some (v_tags w !! t);
  li_tags : ∀ t o, v_tags w !! t = Some o →
    canonical t ∧ tag_max_num t < v_next w ∧ (o < length (v_heap w))%nat;
  li_next : 0 < v_next w;
}.

(** Every tagged summary lists children of a smaller measure. *)
Definition nested (w : view) : Prop :=
  ∀ t o e sm, v_tags w !! t = Some o → v_heap w !! o = Some e → ev_summary e = Some sm →
    sm_tag sm = t ∧ Forall (λ c, tag_measure c < tag_measure t)%nat (sm_children sm).

Lemma tag_span_max t s e : tag_span t = Some (s, e) → tag_max_num t = e.
Proof.
  unfold tag_span, parse_tag_end, tag_max_num. intros Hspan. repeat case_match; simplify_eq/=;
    destruct (py_int _); by simplify_eq/=.
Qed.

Lemma log_inv_last_end w : log_inv w → last_end 0 (v_active w) < v_next w.
Proof.
  intros [Ho Ha Ht Hn]. destruct (v_active w) as [|t ts _] using rev_ind; [done|].
  assert (Hin : t ∈ ts ++ [t]) by set_solver.
  destruct (ordered_elem _ _ _ Ho Hin) as (s & e & Hspan & _).
  destruct (Ha t Hin) as [o Ho']. destruct (Ht t o Ho') as (_ & Hmax & _).
  unfold last_end. rewrite foldl_app. simpl. rewrite Hspan.
  by rewrite (tag_span_max _ _ _ Hspan) in Hmax.
Qed.

Lemma log_inv_fresh w : log_inv w → v_tags w !! str_int (v_next w) = None.
Proof.
  intros [_ _ Ht _]. destruct (v_tags w !! str_int (v_next w)) eqn:Hg; [|done].
  destruct (Ht _ _ Hg) as (_ & Hlt & _). rewrite tag_max_num_str_int in Hlt. lia.
Qed.

Lemma log_inv_empty : log_inv view_empty.
Proof.
  split; simpl; [constructor|by intros ? ?%elem_of_nil| |lia].
  intros t o. by rewrite lookup_empty.
Qed.

(** Attribute assignment and object creation. *)
Lemma log_inv_modify f o w : log_inv w → log_inv (view_modify f o w).
Proof. intros [? ? ? ?]. split; simpl; rewrite ?length_alter; done. Qed.

Lemma log_inv_on_tag f t w : log_inv w → log_inv (view_on_tag f t w).
Proof. unfold view_on_tag. case_match; [apply log_inv_modify|done]. Qed.

Lemma log_inv_alloc e w : log_inv w → log_inv (view_alloc e w).
Proof.
  intros [? ? Ht ?]. split; simpl; [done..| |done].
  intros t o Hg. destruct (Ht t o Hg) as (? & ? & ?). rewrite length_app. simpl. split_and!; [done..|lia].
Qed.

(** Recording under the next tag. *)
Definition recorded_view (f : event → event) (o : oid) (w : view) : view :=
  view_store (str_int (v_next w)) o (view_modify f o (view_allocate w)).

Lemma log_inv_record f o w :
  log_inv w → (o < length (v_heap w))%nat → log_inv (recorded_view f o w).
Proof.
  intros Hinv Ho. pose proof (log_inv_last_end _ Hinv) as Hlast. destruct Hinv as [Hord Ha Ht Hn].
  split; simpl.
  - eapply ordered_snoc; [done|apply tag_span_str_int|lia|lia].
  - intros t [Hin| ->%list_elem_of_singleton]%elem_of_app; rewrite lookup_insert; case_decide; try done; eauto.
  - intros t o'. rewrite length_alter, lookup_insert. rewrite tag_max_num_str_int.
    case_decide as Heq; subst.
    + intros [= <-]. rewrite tag_max_num_str_int. split_and!; [left; eauto|lia|done].
    + intros Hg. destruct (Ht _ _ Hg) as (? & ? & ?). split_and!; [done|lia|done].
  - rewrite tag_max_num_str_int. lia.
Qed.

Lemma log_inv_remove t w : log_inv w → log_inv (view_remove t w).
Proof.
  intros Hinv. unfold view_remove. destruct (v_tags w !! t) as [o|]; [|done].
  destruct Hinv as [Ho Ha Ht Hn]. split; simpl; [|..|done].
  - eapply ordered_sublist; [done|apply discard_first_sublist].
  - intros t' Hin. destruct (discard_first_NoDup t (v_active w)) as [_ Hnin]; [by eapply ordered_NoDup|].
    rewrite lookup_delete_ne by (by intros ->). apply Ha.
    eapply elem_of_sublist; [done|apply discard_first_sublist].
  - intros t' o'. rewrite lookup_delete. case_decide; [done|]. apply Ht.
Qed.

Lemma log_inv_clear w : log_inv w → log_inv (view_clear w).
Proof.
  intros _. split; simpl; [constructor|by intros ? ?%elem_of_nil| |lia].
  intros t o. by rewrite lookup_empty.
Qed.

Lemma log_inv_collapsed pre mid post a sm w :
  let z := last_end 0 (pre ++ mid) in
  log_inv w → v_active w = pre ++ mid ++ post → mid ≠ [] → ordered 0 (pre ++ range_tag a z :: post) →
  log_inv (collapsed_view pre mid post (range_tag a z) sm w).
Proof.
  intros z Hinv Hact Hmid Hord. pose proof (log_inv_last_end _ Hinv) as Hlast.
  destruct Hinv as [Ho Ha Ht Hn].
  destruct (view_archive_all_fields mid w) as (_ & _ & _ & Hlen & _).
  assert (Hz : z < v_next w).
  { rewrite Hact in Ho, Hlast. rewrite app_assoc in Ho, Hlast. rewrite last_end_app in Hlast.
    apply ordered_app in Ho as [_ Hpost]. apply ordered_last_end_ge in Hpost. unfold z. lia. }
  unfold collapsed_view. split; cbn [v_active v_tags v_heap v_next]; rewrite ?tag_max_num_range_tag.
  - done.
  - intros t Hin. rewrite lookup_insert. case_decide; [done|]. apply Ha. rewrite Hact. set_solver.
  - intros t o. rewrite lookup_insert, length_app, Hlen. simpl. case_decide; subst.
    + intros [= <-]. rewrite tag_max_num_range_tag. split_and!; [right; eauto|lia|lia].
    + intros Hg. destruct (Ht _ _ Hg) as (? & ? & ?). split_and!; [done|lia|lia].
  - lia.
Qed.
