(* ===== verification/EventRuns.v ===== *)
(** * EventRuns: runs of an event manager

    The operations of [EventManager] as labelled steps over any backend that
    obeys the laws, with handlers that observe but do not write to the log.
    The theorems are about every run from an empty manager, and about single
    operations in any state satisfying the log invariant of [EventLog.v]. *)

From S2P Require Import Prelude PyStr PyDict Values Events EventBackend EventManager EventLog.

Open Scope nooa_scope.

(** An operation on a manager, with the arguments that matter to the log. *)
Inductive mop :=
  | OpAdd (stack : list string) (fmt : option pyval) (e : event) (record : bool)
  | OpCollapse (id st et : string) (text : option string)
  | OpUpdate (key : string) (fields : list field_update)
  | OpRemove (key : string)
  | OpClear
  | OpOn (event_type : string) (h : hid)
  | OpUnsubscribe (event_type : string) (h : hid).

Section Runs.
Context {B : Type} `{EventBackendLaws B}.
Variable call : hid → oid → manager B → manager B * houtcome.

(** One successful operation.  An added event is a new object and not an
    already tagged summary. *)
Inductive op_step (m : manager B) : mop → manager B → Prop :=
  | step_add stack fmt e record tag called m' :
      ev_summary e = None →
      add call stack fmt (be_alloc e (em_backend m)).1 record
        (with_backend (be_alloc e (em_backend m)).2 m) = Ok (tag, called, m') →
      op_step m (OpAdd stack fmt e record) m'
  | step_collapse id st et text tag called m' :
      collapse call id st et text m = Ok (tag, called, m') →
      op_step m (OpCollapse id st et text) m'
  | step_update key fields :
      op_step m (OpUpdate key fields) (update key fields m).1
  | step_remove key : op_step m (OpRemove key) (remove key m).1
  | step_clear : op_step m OpClear (clear m)
  | step_on t h m' : on t h m = Ok m' → op_step m (OpOn t h) m'
  | step_unsubscribe t h : op_step m (OpUnsubscribe t h) (unsubscribe t h m).

(** The manager a program starts with: an empty backend and no subscriber. *)
Definition new_manager : manager B := mk_manager be_new [].

(** Handlers may change subscriptions but not the log. *)
Definition observing : Prop := ∀ h o m, em_backend (call h o m).1 = em_backend m.

Definition mview (m : manager B) : view := be_view (em_backend m).
Definition good (m : manager B) : Prop := be_wf (em_backend m) ∧ log_inv (mview m).

(** ** What each operation does to the backend *)

Lemma emit_backend t o m : observing → em_backend (emit call t o m).1.2 = em_backend m.
Proof.
  intros Hobs.
  assert (Hrun : ∀ hs (m : manager B), em_backend (run_handlers call hs o m).1.2 = em_backend m).
  { induction hs as [|h hs IH]; intros m0; simpl; [done|].
    specialize (Hobs h o m0). destruct (call h o m0) as [m1 []]; simpl in *; [| |done];
      specialize (IH m1); destruct (run_handlers call hs o m1) as [[? ?] ?]; simpl in *; congruence. }
  assert (Hat : ∀ k (m : manager B), em_backend (handlers_at k m).2 = em_backend m).
  { intros k m0. unfold handlers_at. by case_match. }
  unfold emit. pose proof (Hat t m) as H1. destruct (handlers_at t m) as [hs m1].
  pose proof (Hrun hs m1) as H2. destruct (run_handlers call hs o m1) as [[? m2] []]; simpl in *; [congruence|].
  pose proof (Hat "*"%string m2) as H3. destruct (handlers_at _ m2) as [ws m3].
  pose proof (Hrun ws m3) as H4. destruct (run_handlers call ws o m3) as [[? m4] ?]; simpl in *. congruence.
Qed.

Lemma emit_backend' t o m called m' esc :
  observing → emit call t o m = (called, m', esc) → em_backend m' = em_backend m.
Proof. intros Hobs He. pose proof (emit_backend t o m Hobs) as Hb. by rewrite He in Hb. Qed.

Lemma inject_metadata_frame stack fmt e :
  ev_summary (inject_metadata stack fmt e) = ev_summary e ∧
  ev_role (inject_metadata stack fmt e) = ev_role e ∧
  ev_type (inject_metadata stack fmt e) = ev_type e ∧
  ev_id (inject_metadata stack fmt e) = ev_id e.
Proof. unfold inject_metadata. repeat case_match; simplify_eq/=; done. Qed.

(** [add] of an ordinary event: when it is recorded, it gets the next number
    as its tag; otherwise its id is returned and the log is untouched. *)
Lemma add_backend stack fmt o e record m tag called m' :
  observing → be_deref (em_backend m) o = Some e → ev_summary e = None →
  add call stack fmt o record m = Ok (tag, called, m') →
  let b1 := be_modify (inject_metadata stack fmt) o (em_backend m) in
  if (record && bool_decide (ev_role e ≠ RUNTIME_EVENT))%bool then
    tag = str_int (v_next (mview m)) ∧
    em_backend m' = be_store tag o (be_modify (with_tag (Some tag)) o (be_allocate_next_tag b1).2)
  else tag = ev_id e ∧ em_backend m' = b1.
Proof.
  intros Hobs He Hsum. unfold add. rewrite He.
  destruct (emit call _ o _) as [[called1 m2] esc] eqn:Hemit.
  pose proof (emit_backend' _ _ _ _ _ _ Hobs Hemit) as Hb. simpl in Hb.
  destruct esc; [done|]. unfold record_event. rewrite Hb.
  rewrite deref_view in He. rewrite deref_view, modify_view. simpl.
  rewrite list_lookup_alter_eq, He. simpl.
  destruct (inject_metadata_frame stack fmt e) as (Hs & -> & _ & Hi).
  destruct (record && _)%bool; [|intros; by simplify_eq/=].
  unfold choose_tag. rewrite Hs, Hsum. cbn [result_bind].
  set (b1 := be_modify (inject_metadata stack fmt) o (em_backend m)).
  destruct (be_allocate_next_tag b1) as [t b2] eqn:Hal. intros [= <- <- <-]. simpl.
  pose proof (allocate_tag b1) as Ht. rewrite Hal in Ht. simpl in Ht.
  unfold b1 in Ht. rewrite modify_view in Ht. by subst t.
Qed.

(** [update] and [remove] act on one tag: the key itself or the tag of the
    event with that id (the key, unmapped, when there is none). *)
Lemma update_backend key fields m :
  be_wf (em_backend m) →
  ∃ t, be_wf (em_backend (update key fields m).1) ∧
    mview (update key fields m).1 = view_on_tag (apply_fields fields) t (mview m).
Proof.
  intros Hwf. unfold update, mview.
  pose proof (update_wf key fields _ Hwf) as Hw1. pose proof (update_view key fields (em_backend m)) as Hv1.
  pose proof (update_ok key fields (em_backend m)) as Hok.
  destruct (be_update key fields (em_backend m)) as [b1 []]; simpl in *; [eauto|].
  symmetry in Hok. apply bool_decide_eq_false in Hok. rewrite <- eq_None_not_Some in Hok.
  assert (Hid : be_view b1 = be_view (em_backend m)).
  { rewrite Hv1. unfold view_on_tag. by rewrite Hok. }
  destruct (be_get_by_id key b1) as [o|]; simpl; [|eauto].
  destruct (be_find_tag o b1) as [t|]; simpl; [|eauto]. case_bool_decide; simpl; [|eauto].
  pose proof (update_wf t fields _ Hw1) as Hw2. pose proof (update_view t fields b1) as Hv2.
  destruct (be_update t fields b1) as [b2 ok]; simpl in *. exists t. by rewrite <- Hid.
Qed.

Lemma remove_backend key m :
  be_wf (em_backend m) →
  ∃ t, be_wf (em_backend (remove key m).1) ∧ mview (remove key m).1 = view_remove t (mview m).
Proof.
  intros Hwf. unfold remove, mview.
  pose proof (remove_wf key _ Hwf) as Hw1. pose proof (remove_view key (em_backend m) Hwf) as Hv1.
  pose proof (remove_ok key (em_backend m)) as Hok.
  destruct (be_remove key (em_backend m)) as [b1 []]; simpl in *; [eauto|].
  symmetry in Hok. apply bool_decide_eq_false in Hok. rewrite <- eq_None_not_Some in Hok.
  assert (Hid : be_view b1 = be_view (em_backend m)).
  { rewrite Hv1. unfold view_remove. by rewrite Hok. }
  destruct (be_get_by_id key b1) as [o|]; simpl; [|eauto].
  destruct (be_find_tag o b1) as [t|]; simpl; [|eauto]. case_bool_decide; simpl; [|eauto].
  pose proof (remove_wf t _ Hw1) as Hw2. pose proof (remove_view t b1 Hw1) as Hv2.
  destruct (be_remove t b1) as [b2 ok]; simpl in *. exists t. by rewrite <- Hid.
Qed.

Lemma collapse_backend_of id st et text m tag called m' :
  observing → collapse call id st et text m = Ok (tag, called, m') →
  ∃ o, collapse_backend id st et text (em_backend m) = Ok (tag, o, em_backend m').
Proof.
  intros Hobs. unfold collapse. destruct (collapse_backend id st et text (em_backend m)) as [[[t o] b]|]; [|done].
  cbn [result_bind]. destruct (emit call _ o _) as [[called1 m2] []] eqn:Hemit; [done|].
  intros [= <- <- <-]. exists o. by rewrite (emit_backend' _ _ _ _ _ _ Hobs Hemit).
Qed.

(** ** The log invariant along runs *)

Lemma mid_nonempty (mid : list string) first : head mid = Some first → mid ≠ [].
Proof. by destruct mid. Qed.

Lemma op_step_good m op m' : observing → good m → op_step m op m' → good m'.
Proof.
  intros Hobs [Hwf Hinv] Hstep. unfold good.
  destruct Hstep as [stack fmt e record tag called m' Hsum Hadd|id st et text tag called m' Hcol
    |key fields|key| |t h m' Hon|t h].
  - pose proof (alloc_wf e _ Hwf) as Hwa. pose proof (alloc_view e (em_backend m)) as Hva.
    pose proof (alloc_ref e (em_backend m)) as Hra.
    destruct (be_alloc e (em_backend m)) as [o b0]; simpl in *.
    assert (Hde : be_deref b0 o = Some e).
    { rewrite deref_view, Hva. simpl. rewrite lookup_app_r by lia. by rewrite Hra, Nat.sub_diag. }
    pose proof (add_backend _ _ _ _ _ (with_backend b0 m) _ _ _ Hobs Hde Hsum Hadd) as Hb. simpl in Hb.
    assert (Hinv0 : log_inv (be_view b0)) by (rewrite Hva; by apply log_inv_alloc).
    assert (Hlt : (o < length (v_heap (be_view b0)))%nat)
      by (rewrite Hva; simpl; rewrite length_app; simpl; lia).
    unfold mview in *. destruct (record && _)%bool.
    + destruct Hb as [Htag Hb]. unfold mview in Htag. simpl in Htag. subst tag. rewrite Hb. split.
      * apply store_wf; [by apply modify_wf, allocate_wf, modify_wf|].
        rewrite modify_view, allocate_view, modify_view. simpl. by rewrite !length_alter.
      * rewrite store_view, modify_view, allocate_view, modify_view.
        apply (log_inv_record _ _ (view_modify _ _ _)); [by apply log_inv_modify|].
        simpl. by rewrite length_alter.
    + destruct Hb as [_ ->]. rewrite modify_view. split; [by apply modify_wf|by apply log_inv_modify].
  - destruct (collapse_backend_of _ _ _ _ _ _ _ _ Hobs Hcol) as [o Hc].
    destruct (collapse_backend_spec _ _ _ _ _ _ _ _ _ Hwf (li_ordered _ Hinv) Hc)
      as (sn & en & pre & first & mid & post & a & e & _ & _ & Hact & _ & Hhd & Hsp & Hz & -> & _ & Hw & Hv & Ho).
    split; [done|]. unfold mview. rewrite Hv. apply log_inv_collapsed; eauto using mid_nonempty.
  - destruct (update_backend key fields m Hwf) as (t & ? & Hv). rewrite Hv.
    split; [done|by apply log_inv_on_tag].
  - destruct (remove_backend key m Hwf) as (t & ? & Hv). rewrite Hv.
    split; [done|by apply log_inv_remove].
  - unfold clear, mview. simpl. rewrite clear_view. split; [by apply clear_wf|by eapply log_inv_clear].
  - unfold on in Hon. destruct (validate_event_type_name t); simplify_eq/=. done.
  - done.
Qed.

Lemma reachable_good ops m : observing → steps op_step new_manager ops m → good m.
Proof.
  intros Hobs Hrun. eapply (steps_invariant op_step good); [|split|exact Hrun].
  - intros; by eapply op_step_good.
  - apply new_wf.
  - unfold mview. simpl. rewrite new_view. apply log_inv_empty.
Qed.

(** C1.  In every state a manager reaches from empty through adds, collapses,
    updates, removals, clears and subscription changes, the active tags are
    disjoint numeric ranges in increasing order, every active tag maps to an
    event, every tag is numeric with a number below the backend's counter,
    and the counter's tag is unused. *)
Theorem log_invariant_reachable ops m :
  observing → steps op_step new_manager ops m →
  ordered 0 (keys m) ∧ NoDup (keys m) ∧
  (∀ t, t ∈ keys m → is_Some (be_get t (em_backend m))) ∧
  (∀ t o, be_get t (em_backend m) = Some o →
     is_Some (tag_span t) ∧ (tag_max_num t < v_next (mview m))%Z ∧ is_Some (be_deref (em_backend m) o)) ∧
  be_get (str_int (v_next (mview m))) (em_backend m) = None.
Proof.
  intros Hobs Hrun. destruct (reachable_good _ _ Hobs Hrun) as [Hwf Hinv]. pose proof (log_inv_fresh _ Hinv) as Hfresh. pose proof Hinv as [Ho Ha Ht Hn].
  unfold keys, mview in *. rewrite active_tags_view. rewrite get_view.
  split_and!; [done|by eapply ordered_NoDup| | |done].
  - intros t Hin. rewrite get_view. by apply Ha.
  - intros t o. rewrite get_view. intros Hg. destruct (Ht _ _ Hg) as (Hcan & ? & ?).
    rewrite deref_view. split_and!; [|done|by apply lookup_lt_is_Some].
    destruct Hcan as [[n ->]|(a & z & ->)]; rewrite ?tag_span_str_int, ?tag_span_range_tag; eauto.
Qed.
(** Recording an ordinary event gives it the backend's next number as a
    tag that was unused, appends it to the log and to the active view, and
    leaves every other tag and object as it was; the event itself carries the
    tag and the injected metadata. *)
Theorem add_assigns_fresh_tag stack fmt o e m tag called m' :
  observing → good m →
  be_deref (em_backend m) o = Some e → ev_summary e = None → ev_role e ≠ RUNTIME_EVENT →
  add call stack fmt o true m = Ok (tag, called, m') →
  be_get tag (em_backend m) = None ∧ be_get tag (em_backend m') = Some o ∧
  (∀ t, t ≠ tag → be_get t (em_backend m') = be_get t (em_backend m)) ∧
  keys m' = keys m ++ [tag] ∧ all_events m' = all_events m ++ [o] ∧ len m' = S (len m) ∧
  be_deref (em_backend m') o = Some (with_tag (Some tag) (inject_metadata stack fmt e)) ∧
  (∀ o', o' ≠ o → be_deref (em_backend m') o' = be_deref (em_backend m) o').
Proof.
  intros Hobs [Hwf Hinv] He Hsum Hrole Hadd.
  pose proof (add_backend _ _ _ _ _ _ _ _ _ Hobs He Hsum Hadd) as Hb.
  rewrite bool_decide_true in Hb by done. destruct Hb as [-> Hb].
  pose proof (log_inv_fresh _ Hinv) as Hfresh. unfold keys, all_events, len.
  rewrite Hb, !active_tags_view, !all_events_view, !len_view, !get_view.
  rewrite deref_view in He. setoid_rewrite get_view. setoid_rewrite deref_view.
  rewrite store_view, modify_view, allocate_view, modify_view. simpl.
  split_and!; try done.
  - apply lookup_insert_eq.
  - intros t Hne. by rewrite lookup_insert_ne.
  - rewrite length_app. simpl. lia.
  - unfold mview in *. by rewrite !list_lookup_alter_eq, He.
  - intros o' Hne. by rewrite !list_lookup_alter_ne.
Qed.

(** The event objects after a collapse: those under the tags of the block are
    archived. *)
Lemma collapsed_heap (b b' : B) pre mid post tag sm o' e :
  be_view b' = collapsed_view pre mid post tag sm (be_view b) → be_deref b o' = Some e →
  be_deref b' o' = Some (if decide (Exists (λ t, be_get t b = Some o') mid) then with_status ARCHIVED e else e).
Proof.
  intros Hv. destruct (view_archive_all_fields mid (be_view b)) as (_ & _ & _ & Hlen & _).
  rewrite !deref_view, Hv. unfold collapsed_view; cbn [v_heap]. intros He'.
  rewrite lookup_app_l by (rewrite Hlen; by eapply lookup_lt_Some).
  rewrite (heap_archive_all _ _ _ _ He'). f_equal.
  assert (Hiff : Exists (λ t, v_tags (be_view b) !! t = Some o') mid ↔ Exists (λ t, be_get t b = Some o') mid).
  { rewrite !Exists_exists. by setoid_rewrite get_view. }
  repeat case_decide; tauto.
Qed.

(** C2.  A successful [collapse] on ordered active tags removes exactly the
    tags overlapping the requested range, which form a contiguous block, and
    puts in their place one tag spanning from the block's first start to its
    last end; the new event is a summary listing the block in order, appended
    to the log, and the order invariant is kept.  The events under the tags of
    the block become [ARCHIVED] and every other event object is untouched. *)
Theorem collapse_replaces_block id st et text m tag called m' :
  observing → good m → collapse call id st et text m = Ok (tag, called, m') →
  ∃ sn en pre mid post a z o,
    parse_tag_start st = Ok sn ∧ parse_tag_end et = Ok en ∧
    keys m = pre ++ mid ++ post ∧ mid ≠ [] ∧
    (∀ t, t ∈ mid ↔ t ∈ keys m ∧ overlaps sn en t) ∧
    (fst <$> (head mid ≫= tag_span)) = Some a ∧ (snd <$> (last mid ≫= tag_span)) = Some z ∧
    tag = range_tag a z ∧ keys m' = pre ++ tag :: post ∧ ordered 0 (keys m') ∧
    all_events m' = all_events m ++ [o] ∧ be_get tag (em_backend m') = Some o ∧
    be_deref (em_backend m') o = Some (new_summary id a z mid text) ∧
    (∀ o' e, be_deref (em_backend m) o' = Some e →
       be_deref (em_backend m') o' =
         Some (if decide (Exists (λ t, be_get t (em_backend m) = Some o') mid)
               then with_status ARCHIVED e else e)).
Proof.
  intros Hobs [Hwf Hinv] Hcol. destruct (collapse_backend_of _ _ _ _ _ _ _ _ Hobs Hcol) as [o Hc].
  destruct (collapse_backend_spec _ _ _ _ _ _ _ _ _ Hwf (li_ordered _ Hinv) Hc)
    as (sn & en & pre & first & mid & post & a & e & Hs & He & Hact & Hel & Hhd & Hsp & Hz & -> & -> & Hw & Hv & Ho).
  exists sn, en, pre, mid, post, a, (last_end 0 (pre ++ mid)), (length (v_heap (mview m))).
  unfold keys, all_events. rewrite !active_tags_view, !all_events_view, get_view, deref_view, Hv.
  unfold collapsed_view; cbn [v_active v_log v_tags v_heap].
  destruct (view_archive_all_fields mid (be_view (em_backend m))) as (_ & _ & _ & Hlen & _).
  split_and!; try done.
  - by eapply mid_nonempty.
  - by rewrite Hhd; simpl; rewrite Hsp.
  - pose proof (li_ordered _ Hinv) as Hord. unfold mview in Hord. rewrite Hact, app_assoc in Hord.
    apply ordered_app in Hord as [Hord _].
    destruct mid as [|t mid _] using rev_ind; [done|]. rewrite last_snoc. simpl.
    assert (Hin : t ∈ pre ++ mid ++ [t]) by set_solver.
    destruct (ordered_elem _ _ _ Hord Hin) as (s1 & e1 & Hspan & _).
    rewrite app_assoc, last_end_app. unfold last_end at 1. simpl. by rewrite Hspan.
  - apply lookup_insert_eq.
  - unfold mview. rewrite lookup_app_r by lia. by rewrite Hlen, Nat.sub_diag.
  - intros o' e'. by eapply collapsed_heap.
Qed.

(** C3.  Collapsing loses no event: every event stays in the log, every tag but
    that of the new summary still maps to the same object, and an object
    changes at most in its status, which becomes [ARCHIVED] exactly for the
    events of the collapsed tags.  The tag of the new summary may have been
    that of an earlier one of the same range, which is then reached through the
    log or its id only. *)
Theorem collapse_stable_access id st et text m tag called m' :
  observing → good m → collapse call id st et text m = Ok (tag, called, m') →
  ∃ sm o mid, be_deref (em_backend m') o = Some sm ∧ (sm_children <$> ev_summary sm) = Some mid ∧
  all_events m' = all_events m ++ [o] ∧
  (∀ t, t ≠ tag → be_get t (em_backend m') = be_get t (em_backend m)) ∧
  (∀ o' e, be_deref (em_backend m) o' = Some e →
     be_deref (em_backend m') o' =
       Some (if decide (Exists (λ t, be_get t (em_backend m) = Some o') mid)
             then with_status ARCHIVED e else e)).
Proof.
  intros Hobs [Hwf Hinv] Hcol. destruct (collapse_backend_of _ _ _ _ _ _ _ _ Hobs Hcol) as [o Hc].
  destruct (collapse_backend_spec _ _ _ _ _ _ _ _ _ Hwf (li_ordered _ Hinv) Hc)
    as (sn & en & pre & first & mid & post & a & e & _ & _ & Hact & _ & Hhd & Hsp & Hz & -> & -> & Hw & Hv & Ho).
  destruct (view_archive_all_fields mid (be_view (em_backend m))) as (_ & _ & _ & Hlen & _).
  eexists _, (length (v_heap (be_view (em_backend m)))), mid. split_and!.
  - rewrite deref_view, Hv. unfold collapsed_view; cbn [v_heap]. rewrite lookup_app_r by lia. by rewrite Hlen, Nat.sub_diag.
  - done.
  - unfold all_events. rewrite !all_events_view, Hv. done.
  - intros t Hne. rewrite !get_view, Hv. simpl. by rewrite lookup_insert_ne.
  - intros o' e'. by eapply collapsed_heap.
Qed.

Lemma value_error_raise {A} (r : option A) x : value_error r = Raise x → x = ValueError.
Proof. unfold value_error. case_match; naive_solver. Qed.

(** [collapse] succeeds exactly when both arguments are numeric tags and
    some active tag overlaps the range; in every other case it raises
    [ValueError]. *)
Theorem collapse_outcome id st et text b :
  be_wf b → log_inv (be_view b) →
  (∀ sn en, parse_tag_start st = Ok sn → parse_tag_end et = Ok en →
    (Exists (overlaps sn en) (be_active_tags b) → ∃ r, collapse_backend id st et text b = Ok r) ∧
    (¬ Exists (overlaps sn en) (be_active_tags b) →
       collapse_backend id st et text b = Raise ValueError)) ∧
  (is_ok (parse_tag_start st) = false ∨ is_ok (parse_tag_end et) = false →
     collapse_backend id st et text b = Raise ValueError).
Proof.
  intros Hwf Hinv. unfold collapse_backend. split.
  - intros sn en Hs He. rewrite Hs, He. cbn [result_bind]. rewrite active_tags_view.
    destruct (tags_to_collapse_ordered_ok sn en _ _ (li_ordered _ Hinv)) as [mid Hsel].
    rewrite Hsel. cbn [result_bind]. pose proof (tags_to_collapse_elem _ _ _ _ Hsel) as Hel.
    destruct (tags_to_collapse_block _ _ _ _ _ (li_ordered _ Hinv) Hsel) as (pre & post & Hact).
    rewrite Exists_exists. destruct mid as [|first mid].
    { split; [|done]. intros (t & Hin & Hov).
      assert (t ∈ []) by (apply Hel; done). set_solver. }
    pose proof (li_ordered _ Hinv) as Ho. rewrite Hact in Ho.
    assert (Hin : first ∈ pre ++ (first :: mid) ++ post) by set_solver.
    destruct (ordered_elem _ _ _ Ho Hin) as (a & e & Hspan & _).
    destruct (replace_block_spec id b 0 pre first (first :: mid) post text a e)
      as (_ & _ & b' & -> & _); [done..|]. split; [eauto|]. intros Hno. destruct Hno.
    exists first. apply Hel. set_solver.
  - destruct (parse_tag_start st) as [|x] eqn:Hs.
    + simpl. destruct (parse_tag_end et) as [|x] eqn:He; [naive_solver|].
      by apply value_error_raise in He as ->.
    + by apply value_error_raise in Hs as ->.
Qed.

(** ** Expanding summaries *)

(** The assignments of an update that leave the tree of summaries alone. *)
Definition keeps_tree (u : field_update) : bool :=
  match u with UpdSummary (UpdSummaryTag _ | UpdChildren _) => false | _ => true end.

(** The tag and the children of a summary. *)
Definition tree_of (e : event) : option (string * list string) :=
  (λ sm, (sm_tag sm, sm_children sm)) <$> ev_summary e.

Lemma apply_fields_tree us e : forallb keeps_tree us = true → tree_of (apply_fields us e) = tree_of e.
Proof.
  unfold apply_fields. revert e. induction us as [|u us IH]; intros e; simpl; [done|].
  intros [Hu Hus]%andb_prop. rewrite IH by done. unfold tree_of.
  destruct u as [| | | |[]|]; simpl in *; try done; [by destruct (ev_summary e)..|by case_match].
Qed.

Lemma nested_mono w w' :
  nested w →
  (∀ t o, v_tags w' !! t = Some o → v_tags w !! t = Some o) →
  (∀ t o e', v_tags w' !! t = Some o → v_heap w' !! o = Some e' →
     ∃ e, v_heap w !! o = Some e ∧ tree_of e' = tree_of e) →
  nested w'.
Proof.
  intros Hn Ht Hh t o e' sm Hg He' Hsm. destruct (Hh _ _ _ Hg He') as (e & He & Heq).
  unfold tree_of in Heq. rewrite Hsm in Heq. destruct (ev_summary e) as [sm0|] eqn:Hsm0; simplify_eq/=.
  destruct (Hn t o e sm0) as [Htag Hc]; [by apply Ht|done|done|]. split; congruence.
Qed.

(** A bound on the recursion depth that always suffices: the measure of the
    tag, which is at most twice the width of its range plus one. *)
Lemma all_originals_fuel b t fuel :
  nested (be_view b) → (tag_measure t < fuel)%nat →
  ∃ l, all_originals fuel t b = Some l ∧
    Forall (λ o, summary_of b o = None) l.
Proof.
  intros Hn. revert t. induction fuel as [|fuel IH]; intros t Hlt; [lia|]. simpl.
  destruct (be_get t b) as [o|] eqn:Hg; [|by exists []].
  destruct (summary_of b o) as [sm|] eqn:Hsm; [|exists [o]; by repeat constructor].
  unfold summary_of in Hsm. rewrite deref_view in Hsm. rewrite get_view in Hg.
  apply bind_Some in Hsm as (e & He & Hsm). destruct (Hn _ _ _ _ Hg He Hsm) as [_ Hch].
  induction Hch as [|c cs Hc Hcs IHcs]; simpl; [by exists []|].
  destruct IHcs as (r & Hr & Hall). rewrite Hr.
  destruct (be_get c b) as [oc|] eqn:Hgc; [|by exists r].
  destruct (summary_of b oc) as [csm|] eqn:Hcsm.
  - pose proof Hcsm as Hcsm'. unfold summary_of in Hcsm'. rewrite deref_view in Hcsm'.
    apply bind_Some in Hcsm' as (ec & Hec & Hsmc). rewrite get_view in Hgc.
    destruct (Hn _ _ _ _ Hgc Hec Hsmc) as [-> _].
    destruct (IH c ltac:(lia)) as (l & -> & Hl). simpl. exists (l ++ r).
    split; [done|]. by apply Forall_app.
  - simpl. exists (oc :: r). by repeat constructor.
Qed.

Lemma nested_modify f o w : (∀ e, tree_of (f e) = tree_of e) → nested w → nested (view_modify f o w).
Proof.
  intros Hf Hn. eapply nested_mono; [done|done|]. simpl. intros t o' e' _ He'.
  destruct (decide (o = o')) as [<-|Hne].
  - rewrite list_lookup_alter_eq in He'. apply fmap_Some in He' as (e & He & ->). by exists e.
  - rewrite list_lookup_alter_ne in He' by done. by exists e'.
Qed.

Lemma nested_on_tag f t w : (∀ e, tree_of (f e) = tree_of e) → nested w → nested (view_on_tag f t w).
Proof. unfold view_on_tag. case_match; [apply nested_modify|done]. Qed.

Lemma nested_alloc e w : log_inv w → nested w → nested (view_alloc e w).
Proof.
  intros Hinv Hn. eapply nested_mono; [done|done|]. simpl. intros t o e' Hg He'.
  destruct (li_tags _ Hinv _ _ Hg) as (_ & _ & Hlt). rewrite lookup_app_l in He' by done. eauto.
Qed.

Lemma nested_remove t w : nested w → nested (view_remove t w).
Proof.
  intros Hn. unfold view_remove. destruct (v_tags w !! t) as [o|]; [|done].
  eapply nested_mono; [done|..]; simpl.
  - intros t' o'. rewrite lookup_delete. by case_decide.
  - eauto.
Qed.

Lemma nested_record f o e w :
  (∀ e, tree_of (f e) = tree_of e) → v_heap w !! o = Some e → ev_summary e = None →
  nested w → nested (recorded_view f o w).
Proof.
  intros Hf He Hsum Hn t o' e' sm. simpl. rewrite lookup_insert. case_decide; subst.
  - intros [= <-]. rewrite list_lookup_alter_eq, He. simpl. intros [= <-] Hsm.
    specialize (Hf e). unfold tree_of in Hf. by rewrite Hsum, Hsm in Hf.
  - by apply (nested_modify f o w Hf Hn).
Qed.

Lemma block_bounds lo pre mid post first a e0 c :
  ordered lo (pre ++ mid ++ post) → head mid = Some first → tag_span first = Some (a, e0) → c ∈ mid →
  ∃ s e, tag_span c = Some (s, e) ∧ (a ≤ s)%Z ∧ (s ≤ e)%Z ∧ (e ≤ last_end lo (pre ++ mid))%Z.
Proof.
  intros Ho Hhd Hsp Hin. rewrite app_assoc in Ho. apply ordered_app in Ho as [Ho _].
  assert (Hin' : c ∈ pre ++ mid) by set_solver.
  destruct (ordered_elem _ _ _ Ho Hin') as (s & e & Hspc & _ & Hse & Hle).
  exists s, e. split_and!; [done| |done|done].
  apply ordered_app in Ho as [_ Ho]. destruct mid as [|f mid]; [done|]. injection Hhd as ->.
  inversion Ho as [|? ? ? ? ? ? ? Hse' Ho']; simplify_eq.
  apply elem_of_cons in Hin as [->|Hin]; [simplify_eq; lia|].
  destruct (ordered_elem _ _ _ Ho' Hin) as (s' & e' & ? & ? & _). simplify_eq. lia.
Qed.

(** The children of a new summary have a smaller measure than its tag, unless
    the tag itself is being collapsed. *)
Lemma block_measure lo pre mid post first a e0 c :
  let z := last_end lo (pre ++ mid) in
  ordered lo (pre ++ mid ++ post) → head mid = Some first → tag_span first = Some (a, e0) →
  range_tag a z ∉ mid → canonical c → c ∈ mid → (tag_measure c < tag_measure (range_tag a z))%nat.
Proof.
  intros z Ho Hhd Hsp Hnin Hcan Hin.
  destruct (block_bounds _ _ _ _ _ _ _ _ Ho Hhd Hsp Hin) as (s & e & Hspc & Has & Hse & Hez).
  fold z in Hez. unfold tag_measure.
  rewrite Hspc, tag_span_range_tag, has_dots_range_tag.
  destruct Hcan as [[n ->]|(a' & z' & ->)].
  - rewrite has_dots_str_int. lia.
  - rewrite has_dots_range_tag. rewrite tag_span_range_tag in Hspc. simplify_eq.
    destruct (decide (s = a ∧ e = z)) as [[-> ->]|Hne]; [done|]. lia.
Qed.

Lemma nested_collapsed pre mid post first a e0 id text w :
  let z := last_end 0 (pre ++ mid) in
  log_inv w → nested w → v_active w = pre ++ mid ++ post →
  head mid = Some first → tag_span first = Some (a, e0) → range_tag a z ∉ v_active w →
  nested (collapsed_view pre mid post (range_tag a z) (new_summary id a z mid text) w).
Proof.
  intros z Hinv Hn Hact Hhd Hsp Hnin t o e sm.
  destruct (view_archive_all_fields mid w) as (_ & _ & _ & Hlen & _).
  unfold collapsed_view. cbn [v_tags v_heap]. rewrite lookup_insert. case_decide; subst.
  - intros [= <-]. rewrite lookup_app_r by lia. rewrite Hlen, Nat.sub_diag. simpl.
    intros [= <-] [= <-]. simpl. split; [done|]. apply Forall_forall. intros c Hc.
    eapply (block_measure 0 pre mid post); try done.
    + rewrite <- Hact. apply (li_ordered _ Hinv).
    + rewrite Hact in Hnin. set_solver.
    + destruct (li_active _ Hinv c) as [oc Hoc]; [rewrite Hact; set_solver|].
      by destruct (li_tags _ Hinv _ _ Hoc).
  - intros Hg. destruct (li_tags _ Hinv _ _ Hg) as (_ & _ & Hlt).
    destruct (lookup_lt_is_Some_2 (v_heap w) o Hlt) as [e1 He1].
    rewrite lookup_app_l by (by rewrite Hlen). rewrite (heap_archive_all _ _ _ _ He1).
    intros [= <-] Hsm. apply (Hn t o e1); [done..|]. by case_decide.
Qed.

(** A collapse whose resulting tag is not already active, or an update that
    leaves the tags and the children of summaries. *)
Definition no_recollapse (m : manager B) (op : mop) : Prop :=
  match op with
  | OpCollapse id st et text =>
      ∀ tag o b, collapse_backend id st et text (em_backend m) = Ok (tag, o, b) → tag ∉ keys m
  | OpUpdate _ fields => forallb keeps_tree fields = true
  | _ => True
  end.

Definition safe_step (m : manager B) (op : mop) (m' : manager B) : Prop :=
  op_step m op m' ∧ no_recollapse m op.

Lemma safe_step_nested m op m' :
  observing → good m → nested (mview m) → safe_step m op m' → nested (mview m').
Proof.
  intros Hobs [Hwf Hinv] Hn [Hstep Hsafe].
  destruct Hstep as [stack fmt e record tag called m' Hsum Hadd|id st et text tag called m' Hcol
    |key fields|key| |t h m' Hon|t h].
  - pose proof (alloc_view e (em_backend m)) as Hva. pose proof (alloc_ref e (em_backend m)) as Hra.
    destruct (be_alloc e (em_backend m)) as [o b0]; simpl in *.
    assert (Hde : v_heap (be_view b0) !! o = Some e).
    { rewrite Hva. simpl. rewrite lookup_app_r by lia. by rewrite Hra, Nat.sub_diag. }
    assert (Hn0 : nested (be_view b0)) by (rewrite Hva; by apply nested_alloc).
    pose proof Hde as Hde'. rewrite <- deref_view in Hde'.
    pose proof (add_backend _ _ _ _ _ (with_backend b0 m) _ _ _ Hobs Hde' Hsum Hadd) as Hb. simpl in Hb.
    assert (Hinj : ∀ e, ev_summary (inject_metadata stack fmt e) = ev_summary e)
      by (intros; apply inject_metadata_frame).
    assert (Htree : ∀ e, tree_of (inject_metadata stack fmt e) = tree_of e)
      by (intros; unfold tree_of; by rewrite Hinj).
    unfold mview. destruct (record && _)%bool; destruct Hb as [Htag ->]; [|rewrite modify_view; by apply nested_modify].
    unfold mview in Htag. simpl in Htag. subst tag.
    rewrite store_view, modify_view, allocate_view, modify_view.
    eapply (nested_record _ _ (inject_metadata stack fmt e) (view_modify _ _ _)); [done|..].
    + simpl. by rewrite list_lookup_alter_eq, Hde.
    + by rewrite Hinj.
    + by apply nested_modify.
  - destruct (collapse_backend_of _ _ _ _ _ _ _ _ Hobs Hcol) as [o Hc].
    pose proof (Hsafe _ _ _ Hc) as Hnin. unfold keys in Hnin. rewrite active_tags_view in Hnin.
    destruct (collapse_backend_spec _ _ _ _ _ _ _ _ _ Hwf (li_ordered _ Hinv) Hc)
      as (sn & en & pre & first & mid & post & a & e & _ & _ & Hact & _ & Hhd & Hsp & Hz & -> & _ & Hw & Hv & Ho).
    unfold mview. rewrite Hv. by eapply nested_collapsed.
  - destruct (update_backend key fields m Hwf) as (t & _ & ->).
    apply nested_on_tag; [|done]. intros. by apply apply_fields_tree.
  - destruct (remove_backend key m Hwf) as (t & _ & ->). by apply nested_remove.
  - unfold mview, clear. simpl. rewrite clear_view. intros t o e sm. simpl. by rewrite lookup_empty.
  - unfold on in Hon. by destruct (validate_event_type_name t); simplify_eq/=.
  - done.
Qed.

(** In a run in which no collapse reuses an active range tag and no update
    rewrites the tag or the children of a summary, expanding
    any tag terminates, with a recursion no deeper than twice the width of
    the tag's range plus one, and yields only events that are not summaries. *)
Theorem all_originals_terminates ops m tag :
  observing → steps safe_step new_manager ops m →
  ∃ l, all_originals (S (tag_measure tag)) tag (em_backend m) = Some l ∧
    Forall (λ o, summary_of (em_backend m) o = None) l.
Proof.
  intros Hobs Hrun.
  assert (Hg : good m ∧ nested (mview m)).
  { eapply (steps_invariant safe_step (λ m, good m ∧ nested (mview m))); [|split|exact Hrun].
    - intros m1 op m2 [Hg Hn] Hs. split; [|by eapply safe_step_nested].
      eapply op_step_good; [done..|]. apply Hs.
    - split; [apply new_wf|]. unfold mview. simpl. rewrite new_view. apply log_inv_empty.
    - unfold mview. simpl. rewrite new_view. intros t o e sm. simpl. by rewrite lookup_empty. }
  apply all_originals_fuel; [apply Hg|lia].
Qed.

(** Two overlapping active tags are the same tag. *)
Lemma ordered_overlap_eq lo ts t a z c :
  ordered lo ts → t ∈ ts → c ∈ ts → tag_span t = Some (a, z) → overlaps a z c → c = t.
Proof.
  intros Ho. induction Ho as [|lo t' s e ts Hspan Hlo Hse Ho IH]; [by intros ?%elem_of_nil|].
  intros Ht Hc Hsp (s1 & e1 & Hsp1 & H1 & H2).
  assert (Hov : overlaps a z c) by (by exists s1, e1).
  apply elem_of_cons in Ht as [->|Ht], Hc as [->|Hc]; [done|..|by apply IH].
  - destruct (ordered_elem _ _ _ Ho Hc) as (? & ? & ? & ? & ?). simplify_eq. lia.
  - destruct (ordered_elem _ _ _ Ho Ht) as (? & ? & ? & ? & ?). simplify_eq. lia.
Qed.

(** Collapsing an active range tag again (its own range) yields a summary
    under the same tag whose only child is that tag: the previous summary is
    no longer reachable by tag, and expanding the tag recurses forever. *)
Theorem recollapse_never_expands id a z text b tag o b' :
  be_wf b → log_inv (be_view b) → range_tag a z ∈ be_active_tags b →
  collapse_backend id (range_tag a z) (range_tag a z) text b = Ok (tag, o, b') →
  tag = range_tag a z ∧ be_get tag b' = Some o ∧ be_get tag b ≠ Some o ∧
  (sm_children <$> summary_of b' o) = Some [tag] ∧
  ∀ fuel, all_originals fuel tag b' = None.
Proof.
  intros Hwf Hinv Hin Hc. rewrite active_tags_view in Hin.
  destruct (collapse_backend_spec _ _ _ _ _ _ _ _ _ Hwf (li_ordered _ Hinv) Hc)
    as (sn & en & pre & first & mid & post & a' & e & Hs & He & Hact & Hel & Hhd & Hsp & Hz & Htag & -> & Hw & Hv & Ho).
  pose proof (tag_span_Some _ _ _ (tag_span_range_tag a z)) as [Hps Hpe].
  rewrite Hps in Hs. rewrite Hpe in He. simplify_eq.
  assert (Hspan : tag_span (range_tag sn en) = Some (sn, en)) by apply tag_span_range_tag.
  assert (Hse : (sn ≤ en)%Z).
  { destruct (ordered_elem _ _ _ (li_ordered _ Hinv) Hin) as (? & ? & ? & ? & ? & ?). by simplify_eq. }
  assert (Hall : ∀ c, c ∈ mid ↔ c = range_tag sn en).
  { intros c. rewrite Hel. split.
    - intros [Hc1 Hov]. eapply ordered_overlap_eq; [apply Hinv|exact Hin|done|done|done].
    - intros ->. split; [done|]. exists sn, en. by split_and!. }
  assert (Hmid : mid = [range_tag sn en]).
  { pose proof (ordered_NoDup _ _ (li_ordered _ Hinv)) as Hnd. rewrite Hact in Hnd.
    apply NoDup_app in Hnd as (_ & _ & Hnd). apply NoDup_app in Hnd as (Hnd & _ & _).
    destruct mid as [|c1 [|c2 mid]]; [done|f_equal; by apply Hall; left|].
    assert (c1 = c2) by (rewrite (proj1 (Hall c1)), (proj1 (Hall c2)); set_solver).
    apply NoDup_cons in Hnd as [Hnd _]. set_solver. }
  subst mid. injection Hhd as <-. simplify_eq.
  assert (Hlast : last_end 0 (pre ++ [range_tag a' e]) = e).
  { rewrite last_end_app. unfold last_end at 1. simpl. by rewrite tag_span_range_tag. }
  rewrite Hlast in *.
  destruct (view_archive_all_fields [range_tag a' e] (be_view b)) as (_ & _ & _ & Hlen & _).
  assert (Hgo : be_get (range_tag a' e) b' = Some (length (v_heap (be_view b)))).
  { rewrite get_view, Hv. simpl. apply lookup_insert_eq. }
  assert (Hsm : summary_of b' (length (v_heap (be_view b))) =
    ev_summary (new_summary id a' e [range_tag a' e] text)).
  { unfold summary_of. rewrite deref_view, Hv. unfold collapsed_view; cbn [v_heap].
    rewrite lookup_app_r by lia. by rewrite Hlen, Nat.sub_diag. }
  split_and!; [done|done| |by rewrite Hsm|].
  - rewrite get_view. intros Hg. destruct (li_tags _ Hinv _ _ Hg) as (_ & _ & ?). lia.
  - induction fuel as [|fuel IH]; [done|]. simpl. rewrite Hgo, Hsm. simpl. rewrite Hgo, Hsm. simpl.
    by rewrite IH.
Qed.
End Runs.

(** ** A concrete run on the in-memory backend *)

Definition demo_call (h : hid) (o : oid) (m : manager mem_backend) : manager mem_backend * houtcome :=
  (m, HReturn).

Definition demo_event (id : string) : event := mk_event id "Task" "Task" USER None ACTIVE [] [] None.

(** The manager after an operation, unchanged when it raises. *)
Definition demo_apply (op : mop) (m : manager mem_backend) : manager mem_backend :=
  match op with
  | OpAdd stack fmt e record =>
      match add demo_call stack fmt (be_alloc e (em_backend m)).1 record
              (with_backend (be_alloc e (em_backend m)).2 m) with
      | Ok (_, _, m') => m'
      | Raise _ => m
      end
  | OpCollapse id st et text =>
      match collapse demo_call id st et text m with Ok (_, _, m') => m' | Raise _ => m end
  | OpUpdate key fields => (update key fields m).1
  | OpRemove key => (remove key m).1
  | OpClear => clear m
  | OpOn t h => match on t h m with Ok m' => m' | Raise _ => m end
  | OpUnsubscribe t h => unsubscribe t h m
  end.

Definition demo_adds : list mop :=
  [OpAdd ["call-1"] None (demo_event "a") true; OpAdd [] None (demo_event "b") true;
   OpAdd [] None (demo_event "c") true; OpAdd [] None (demo_event "d") true]%string.
Definition demo_ops : list mop := demo_adds ++ [OpCollapse "s" "2" "3" None]%string.

Definition demo_base : manager mem_backend := foldl (λ m op, demo_apply op m) new_manager demo_adds.
Definition demo_manager : manager mem_backend := foldl (λ m op, demo_apply op m) new_manager demo_ops.

Lemma demo_observing : observing demo_call.
Proof. by intros h o m. Qed.

(** One concrete step: both sides compute. *)
Ltac demo_step :=
  (eapply step_add; [reflexivity|vm_compute; reflexivity]) ||
  (eapply step_collapse; vm_compute; reflexivity).

Lemma demo_run : steps (op_step demo_call) new_manager demo_ops demo_manager.
Proof. repeat (eapply steps_cons; [demo_step|]). apply steps_nil. Qed.

Lemma demo_base_run : steps (op_step demo_call) new_manager demo_adds demo_base.
Proof. repeat (eapply steps_cons; [demo_step|]). apply steps_nil. Qed.

#[local] Opaque demo_manager demo_base.

Lemma demo_good : good demo_base ∧ good demo_manager.
Proof.
  split; eapply reachable_good; eauto using demo_observing, demo_run, demo_base_run.
Qed.

Lemma log_invariant_reachable_witness :
  keys demo_manager = ["1"; "2..3"; "4"]%string ∧ ordered 0 (keys demo_manager) ∧ NoDup (keys demo_manager).
Proof.
  split; [vm_compute; reflexivity|].
  destruct (log_invariant_reachable demo_call demo_ops demo_manager demo_observing demo_run) as (H1 & H2 & _).
  exact (conj H1 H2).
Defined.

Definition demo_add5 : string * list hid * manager mem_backend :=
  match add demo_call ["c5"]%string None 5 true (with_backend (be_alloc (demo_event "e") (em_backend demo_manager)).2 demo_manager) with
  | Ok r => r | Raise _ => (""%string, [], demo_manager) end.

Lemma demo_alloc_good e : good (with_backend (be_alloc e (em_backend demo_manager)).2 demo_manager).
Proof.
  destruct demo_good as [_ [Hwf Hinv]]. unfold good, mview, with_backend. cbn [em_backend]. split.
  - apply alloc_wf. exact Hwf.
  - rewrite alloc_view. apply log_inv_alloc. exact Hinv.
Qed.

Lemma add_assigns_fresh_tag_witness :
  demo_add5.1.1 = "5"%string ∧ keys demo_add5.2 = ["1"; "2..3"; "4"; "5"]%string.
Proof.
  split; [vm_compute; reflexivity|].
  destruct (add_assigns_fresh_tag demo_call ["c5"]%string None 5 (demo_event "e")
    (with_backend (be_alloc (demo_event "e") (em_backend demo_manager)).2 demo_manager)
    demo_add5.1.1 demo_add5.1.2 demo_add5.2 demo_observing (demo_alloc_good _))
    as (_ & _ & _ & H & _); [vm_compute; reflexivity|reflexivity|discriminate|vm_compute; reflexivity|].
  rewrite H. vm_compute. reflexivity.
Defined.

Lemma collapse_replaces_block_witness :
  ∃ pre mid post, keys demo_base = pre ++ mid ++ post ∧ mid ≠ [] ∧ ordered 0 (keys demo_manager).
Proof.
  destruct (collapse_replaces_block demo_call "s" "2" "3" None demo_base "2..3" [] demo_manager)
    as (sn & en & pre & mid & post & a & z & o & _ & _ & H1 & H2 & _ & _ & _ & _ & _ & H3 & _).
  - apply demo_observing.
  - apply demo_good.
  - vm_compute. reflexivity.
  - exists pre, mid, post. exact (conj H1 (conj H2 H3)).
Defined.

Lemma collapse_stable_access_witness :
  be_get "2" (em_backend demo_manager) = be_get "2" (em_backend demo_base).
Proof.
  destruct (collapse_stable_access demo_call "s" "2" "3" None demo_base "2..3" [] demo_manager)
    as (sm & o & mid & _ & _ & _ & H & _).
  - apply demo_observing.
  - apply demo_good.
  - vm_compute. reflexivity.
  - apply H. discriminate.
Defined.

Lemma collapse_outcome_witness :
  collapse_backend "s" "9" "12" None (em_backend demo_base) = Raise ValueError ∧
  collapse_backend "s" "x" "12" None (em_backend demo_base) = Raise ValueError.
Proof.
  destruct demo_good as [[Hwf Hinv] _]. split.
  - apply (collapse_outcome "s" "9" "12" None (em_backend demo_base) Hwf Hinv) with (sn := 9%Z) (en := 12%Z);
      [vm_compute; reflexivity..|].
    intros (t & Hin & s & e & Hsp & ? & ?)%Exists_exists. revert Hin. vm_compute be_active_tags.
    rewrite !elem_of_cons, elem_of_nil. intros Hin. destruct_or! Hin; subst; vm_compute in Hsp; simplify_eq; lia.
  - apply (collapse_outcome "s" "x" "12" None (em_backend demo_base) Hwf Hinv). left. vm_compute. reflexivity.
Defined.

Lemma demo_safe_run : steps (safe_step demo_call) new_manager demo_ops demo_manager.
Proof.
  repeat (eapply steps_cons; [split; [demo_step|]|]);
    [exact I..| |apply steps_nil].
  intros tag o b Hc. vm_compute in Hc. injection Hc as <- <- <-.
  apply (bool_decide_unpack _). vm_compute. exact I.
Qed.

Lemma all_originals_terminates_witness : ∃ l,
  all_originals (S (tag_measure "2..3")) "2..3" (em_backend demo_manager) = Some l ∧ l = [1; 2].
Proof.
  destruct (all_originals_terminates demo_call demo_ops demo_manager "2..3" demo_observing demo_safe_run)
    as (l & H & _).
  exists l. split; [exact H|]. vm_compute in H. by injection H as <-.
Defined.

Definition demo_recollapse : string * oid * mem_backend :=
  match collapse_backend "s2" "2..3" "2..3" None (em_backend demo_manager) with
  | Ok r => r | Raise _ => (""%string, 0, em_backend demo_manager) end.

Lemma recollapse_never_expands_witness :
  (sm_children <$> summary_of demo_recollapse.2 5) = Some ["2..3"]%string ∧
  all_originals 40 "2..3" demo_recollapse.2 = None.
Proof.
  destruct demo_good as [_ [Hwf Hinv]].
  destruct (recollapse_never_expands "s2" 2 3 None (em_backend demo_manager) "2..3" 5 demo_recollapse.2 Hwf Hinv)
    as (_ & _ & _ & H4 & H5).
  - apply (bool_decide_unpack _). vm_compute. exact I.
  - vm_compute. reflexivity.
  - exact (conj H4 (H5 40)).
Defined.
