(* ===== verification/EventDispatch.v ===== *)
(** * EventDispatch: handlers, close callbacks and middleware

    How [EventManager] calls application code: the order and the snapshot
    discipline of [_emit], the reverse-order drain of the close callbacks, and
    the middleware engine ([intercept], [run_middleware], [_make_next]) of
    [nooa/runtime/event_manager.py]. *)

From Stdlib Require Import FunctionalExtensionality.
From S2P Require Import Prelude PyStr PyDict Values Events EventBackend EventManager.

Open Scope nooa_scope.

(** ** Close callbacks *)
Section Close.
(** The world the callbacks act on, with the list of registered callbacks
    [_close_callbacks] kept apart from it. *)
Context {W : Type}.

Record close_state := mk_close { cs_world : W; cs_callbacks : list nat }.

(** How awaiting a callback ends. *)
Inductive close_outcome := CloseDone | CloseCancelled | CloseFailed | CloseBase.

(** What awaiting callback [c] does; it may register and unregister. *)
Variable run : nat → close_state → close_state * close_outcome.

(** [on_close] and the closure it returns. *)
Definition on_close (c : nat) (s : close_state) : close_state :=
  mk_close (cs_world s) (cs_callbacks s ++ [c]).

Definition on_close_unsubscribe (c : nat) (s : close_state) : close_state :=
  if bool_decide (c ∈ cs_callbacks s)
  then mk_close (cs_world s) (discard_first c (cs_callbacks s)) else s.

Fixpoint drain_loop (cs : list nat) (s : close_state) : list nat * close_state * bool :=
  match cs with
  | [] => ([], s, false)
  | c :: cs' =>
      match run c s with
      | (s', CloseBase) => ([c], s', true)
      | (s', _) => let '(ran, s'', esc) := drain_loop cs' s' in (c :: ran, s'', esc)
      end
  end.

(** [_drain_close_callbacks]: the callbacks awaited, the state reached and
    whether a [BaseException] other than a cancellation escaped. *)
Definition drain_close_callbacks (s : close_state) : list nat * close_state * bool :=
  drain_loop (rev (cs_callbacks s)) (mk_close (cs_world s) []).

Lemma drain_loop_all cs s :
  (∀ c s', (run c s').2 ≠ CloseBase) →
  drain_loop cs s = (cs, foldl (λ s c, (run c s).1) s cs, false).
Proof.
  intros Hrun. revert s. induction cs as [|c cs IH]; intros s; [done|]. cbn [drain_loop foldl].
  specialize (Hrun c s). destruct (run c s) as [s' []]; cbn [fst snd] in *; try done;
    by rewrite IH.
Qed.

(** Draining awaits every registered callback exactly once, in reverse
    registration order, whatever cancellations and failures they report, and
    leaves registered only what the callbacks themselves registered. *)
Theorem drain_close_runs_all_in_reverse s :
  (∀ c s', (run c s').2 ≠ CloseBase) →
  drain_close_callbacks s =
    (rev (cs_callbacks s),
     foldl (λ s c, (run c s).1) (mk_close (cs_world s) []) (rev (cs_callbacks s)), false).
Proof. apply drain_loop_all. Qed.
End Close.
Arguments close_state : clear implicits.

(** ** Emission *)
Section Emission.
Context {B : Type} `{EventBackend B}.
Variable call : hid → oid → manager B → manager B * houtcome.

(** The handlers registered under a key. *)
Definition registered (key : string) (m : manager B) : list hid :=
  default [] (dict_get key (em_handlers m)).

(** Calling a list of handlers one after the other. *)
Definition call_all (o : oid) (m : manager B) (hs : list hid) : manager B :=
  foldl (λ m h, (call h o m).1) m hs.

Lemma handlers_at_registered key m : (handlers_at key m).1 = registered key m.
Proof. unfold handlers_at, registered. by destruct (dict_get key (em_handlers m)). Qed.

Lemma handlers_at_lookup key k m :
  registered k (handlers_at key m).2 = registered k m.
Proof.
  unfold handlers_at, registered. destruct (dict_get key (em_handlers m)) eqn:E; [done|]. simpl.
  destruct (decide (k = key)) as [->|Hne].
  - by rewrite dict_get_set_eq, E.
  - by rewrite dict_get_set_ne by done.
Qed.

Lemma run_handlers_all hs o m :
  (∀ h m', (call h o m').2 ≠ HBase) →
  run_handlers call hs o m = (hs, call_all o m hs, false).
Proof.
  intros Hc. revert m. induction hs as [|h hs IH]; intros m; [done|].
  cbn [run_handlers]. unfold call_all. cbn [foldl].
  specialize (Hc h m). destruct (call h o m) as [m' []]; cbn [fst snd] in *; try done; by rewrite IH.
Qed.

Lemma emit_calls t o m :
  (∀ h m', (call h o m').2 ≠ HBase) →
  let m1 := call_all o (handlers_at t m).2 (registered t m) in
  emit call t o m =
    (registered t m ++ registered "*" m1,
     call_all o (handlers_at "*" m1).2 (registered "*" m1), false).
Proof.
  intros Hc. unfold emit. pose proof (handlers_at_registered t m) as H1.
  destruct (handlers_at t m) as [hs m1]; cbn [fst snd] in *. subst hs.
  rewrite run_handlers_all by done. cbn [fst snd].
  set (m2 := call_all o m1 (registered t m)).
  pose proof (handlers_at_registered "*"%string m2) as H2.
  destruct (handlers_at "*" m2) as [ws m3]; cbn [fst snd] in *. subst ws.
  by rewrite run_handlers_all by done.
Qed.

(** What a handler subscribes stays subscribed while others run. *)
Lemma call_all_keeps o h' hs m :
  (∀ x m', h' ∈ registered "*" m' → h' ∈ registered "*" (call x o m').1) →
  h' ∈ registered "*" m → h' ∈ registered "*" (call_all o m hs).
Proof.
  intros Hk. revert m. induction hs as [|h hs IH]; intros m Hin; [done|].
  apply (IH (call h o m).1). by apply Hk.
Qed.

(** When no handler raises a non-[Exception], [_emit] calls exactly the
    handlers subscribed to the event's type when it starts, then the wildcard
    handlers subscribed when the typed ones are done, each once and in
    subscription order; a failing handler silences no other one, and nothing
    escapes. *)
Theorem emit_calls_snapshots t o m :
  (∀ h m', (call h o m').2 ≠ HBase) →
  let m1 := call_all o (handlers_at t m).2 (registered t m) in
  (emit call t o m).1.1 = registered t m ++ registered "*" m1 ∧ (emit call t o m).2 = false.
Proof. intros Hc. by rewrite emit_calls. Qed.

(** A typed handler that subscribes a wildcard handler changes the
    current emission: the wildcard list is read after the typed handlers ran,
    so the new handler is called in the same cycle, against what the docstring
    of [_emit] says of handlers that subscribe while it runs. *)
Theorem emit_sees_new_wildcard_handler t o m h h' :
  (∀ x m', (call x o m').2 ≠ HBase) →
  h ∈ registered t m →
  (∀ m', on "*" h' m' = Ok (call h o m').1) →
  (∀ x m', h' ∈ registered "*" m' → h' ∈ registered "*" (call x o m').1) →
  h' ∈ (emit call t o m).1.1.
Proof.
  intros Hc Hin Hsub Hkeep. rewrite (emit_calls t o m Hc). simpl. apply elem_of_app. right.
  apply list_elem_of_split in Hin as (l1 & l2 & ->).
  unfold call_all. rewrite foldl_app. cbn [foldl]. apply call_all_keeps; [done|].
  match goal with |- context [call h o ?m0] => specialize (Hsub m0) end.
  unfold on in Hsub. cbn in Hsub. injection Hsub as <-.
  unfold registered. simpl. rewrite dict_get_set_eq. simpl. apply elem_of_app. right.
  by apply list_elem_of_singleton.
Qed.
End Emission.

(** ** The middleware engine *)
Section Middleware.
(** [C] is the context object, [W] the state of the world the calls act on. *)
Context {C W : Type}.

(** An awaited call: it returns a value or raises, and changes the world. *)
Definition action (A : Type) : Type := W → result A * W.

(** A call that must return a context; [None] is Python's [None]. *)
Definition next_fn : Type := C → action (option C).
Definition middleware : Type := C → next_fn → action (option C).

(** [_make_next]. *)
Definition make_next (mw_fn : middleware) (nxt : next_fn) : next_fn := λ ctx w,
  match mw_fn ctx nxt w with
  | (Ok None, w') => (Raise RuntimeError, w')
  | (Ok (Some c), w') => (Ok (Some c), w')
  | (Raise e, w') => (Raise e, w')
  end.

Definition middleware_kinds : list string :=
  ["agent_call"; "llm_call"; "decision_call"; "execute_python"]%string.

(** The table [_middleware]: the functions registered for each kind, by id. *)
Definition mw_table : Type := dict string (list nat).

Definition mw_init : mw_table := (λ k, (k, [])) <$> middleware_kinds.

(** [intercept]. *)
Definition intercept (kind : string) (fn : nat) (t : mw_table) : result mw_table :=
  match dict_get kind t with
  | None => Raise ValueError
  | Some fns => Ok (dict_set kind (fns ++ [fn]) t)
  end.

(** The closure [intercept] returns. *)
Definition intercept_unsubscribe (kind : string) (fn : nat) (t : mw_table) : mw_table :=
  match dict_get kind t with
  | None => t
  | Some fns => dict_set kind (discard_first fn fns) t
  end.

(** The function behind each id. *)
Variable fn_of : nat → middleware.

(** [run_middleware]. *)
Definition run_middleware (kind : string) (core : next_fn) (t : mw_table) : next_fn :=
  match default [] (dict_get kind t) with
  | [] => core
  | entries => foldl (λ current fn, make_next (fn_of fn) current) core (rev entries)
  end.

(** The nesting in registration order, the first middleware outermost. *)
Fixpoint chain (fns : list nat) (core : next_fn) : next_fn :=
  match fns with
  | [] => core
  | fn :: fns' => make_next (fn_of fn) (chain fns' core)
  end.

Lemma foldl_chain fns core :
  foldl (λ current fn, make_next (fn_of fn) current) core (rev fns) = chain fns core.
Proof.
  induction fns as [|fn fns IH]; [done|].
  cbn [rev chain]. rewrite foldl_app. cbn [foldl]. by rewrite IH.
Qed.

Lemma run_middleware_chain kind core t :
  run_middleware kind core t = chain (default [] (dict_get kind t)) core.
Proof.
  unfold run_middleware. destruct (default [] (dict_get kind t)) as [|fn fns]; [done|].
  apply foldl_chain.
Qed.

Lemma chain_app l1 l2 core : chain (l1 ++ l2) core = chain l1 (chain l2 core).
Proof. induction l1 as [|fn l1 IH]; simpl; [done|]. by rewrite IH. Qed.

(** A context is returned whenever the core returns one: no [None] reaches the
    caller through at least one middleware. *)
Lemma chain_no_none fn fns core ctx w w' : chain (fn :: fns) core ctx w ≠ (Ok None, w').
Proof.
  simpl. unfold make_next. by destruct (fn_of fn ctx _ w) as [[[c|]|e] w1].
Qed.

(** Running the middleware of a kind after registering one more is
    running the earlier ones around the new one around the core: registration
    order is nesting order, the first registered outermost. *)
Theorem intercept_nests_innermost kind fn t t' core :
  intercept kind fn t = Ok t' →
  run_middleware kind core t' = run_middleware kind (make_next (fn_of fn) core) t ∧
  ∀ kind', kind' ≠ kind → run_middleware kind' core t' = run_middleware kind' core t.
Proof.
  unfold intercept. destruct (dict_get kind t) as [fns|] eqn:E; [|done]. intros [= <-].
  rewrite !run_middleware_chain. rewrite dict_get_set_eq, E. simpl. rewrite chain_app. split; [done|].
  intros kind' Hne. rewrite !run_middleware_chain. by rewrite dict_get_set_ne by done.
Qed.

(** A middleware that never calls [nxt] shields everything inside it:
    the outcome does not depend on later middleware nor on the core, and a
    [None] it returns becomes a [RuntimeError] the outer ones see. *)
Theorem blocking_middleware_shields kind t pre b post core core' :
  dict_get kind t = Some (pre ++ b :: post) →
  (∀ ctx n n' w, fn_of b ctx n w = fn_of b ctx n' w) →
  run_middleware kind core t = chain pre (make_next (fn_of b) core') ∧
  ∀ ctx w w', fn_of b ctx core' w = (Ok None, w') →
    make_next (fn_of b) core' ctx w = (Raise RuntimeError, w').
Proof.
  intros Hk Hb. split.
  - rewrite run_middleware_chain, Hk. simpl. rewrite chain_app. simpl. f_equal.
    extensionality ctx. extensionality w. unfold make_next.
    by rewrite (Hb ctx _ core').
  - intros ctx w w' Hw. unfold make_next. by rewrite Hw.
Qed.

(** Registering is possible for exactly the four kinds, in any state that
    registrations and removals reach from the initial table. *)
Definition mw_ok (t : mw_table) : Prop := dict_keys t = middleware_kinds.

Lemma mw_ok_init : mw_ok mw_init.
Proof. done. Qed.

(** The table always has exactly the four kinds: registering under any
    other name raises [ValueError] and changes nothing, registering under one
    of them succeeds, and removing what was last registered restores the
    list of that kind. *)
Theorem intercept_kinds kind fn t :
  mw_ok t →
  (kind ∉ middleware_kinds → intercept kind fn t = Raise ValueError) ∧
  (kind ∈ middleware_kinds → ∃ t' fns, intercept kind fn t = Ok t' ∧ mw_ok t' ∧
     dict_get kind t = Some fns ∧
     mw_ok (intercept_unsubscribe kind fn t') ∧
     (fn ∉ fns → dict_get kind (intercept_unsubscribe kind fn t') = Some fns)).
Proof.
  intros Hok. unfold intercept. split.
  - intros Hn. rewrite <- Hok in Hn. apply dict_get_None in Hn. by rewrite Hn.
  - intros Hin. destruct (dict_get kind t) as [fns|] eqn:E.
    + exists (dict_set kind (fns ++ [fn]) t), fns. split; [done|].
      unfold mw_ok, intercept_unsubscribe. rewrite dict_get_set_eq.
      assert (Hp : kind ∈ dict_keys t) by (by rewrite Hok).
      rewrite !dict_keys_set_present by (rewrite ?dict_keys_set_present; done).
      repeat split; [done|done|]. intros Hfn. rewrite dict_get_set_eq. f_equal.
      by apply discard_first_snoc.
    + exfalso. apply dict_get_None in E. by rewrite Hok in E.
Qed.
End Middleware.

(** ** Witnesses *)

(** Three handlers: 0 fails, 1 subscribes the wildcard handler 9. *)
Definition demo_handler (h : hid) (o : oid) (m : manager mem_backend)
    : manager mem_backend * houtcome :=
  match h with
  | 0 => (m, HException)
  | 1 => (match on "*" 9 m with Ok m' => m' | Raise _ => m end, HReturn)
  | _ => (m, HReturn)
  end.

Definition demo_subscribed : manager mem_backend :=
  mk_manager mem_init [("Task", [0; 1; 2]); ("*", [5])]%string.

Lemma demo_handler_no_base h o m : (demo_handler h o m).2 ≠ HBase.
Proof. by destruct h as [|[|h]]. Qed.

Lemma emit_calls_snapshots_witness :
  (emit demo_handler "Task" 0 demo_subscribed).1.1 = [0; 1; 2; 5; 9] ∧
  (emit demo_handler "Task" 0 demo_subscribed).2 = false.
Proof.
  exact (emit_calls_snapshots demo_handler "Task" 0 demo_subscribed
           (λ h m', demo_handler_no_base h 0 m')).
Defined.

Lemma demo_handler_keeps o x m :
  9 ∈ registered "*" m → 9 ∈ registered "*" (demo_handler x o m).1.
Proof.
  destruct x as [|[|x]]; [done| |done]. intros _.
  unfold registered. simpl. rewrite dict_get_set_eq. simpl. apply elem_of_app. right.
  by apply list_elem_of_singleton.
Qed.

Lemma emit_sees_new_wildcard_handler_witness :
  9 ∈ (emit demo_handler "Task" 0 demo_subscribed).1.1.
Proof.
  apply (emit_sees_new_wildcard_handler demo_handler "Task" 0 demo_subscribed 1 9).
  - intros x m'. exact (demo_handler_no_base x 0 m').
  - apply (bool_decide_unpack _). vm_compute. exact I.
  - intros m'. reflexivity.
  - intros x m'. exact (demo_handler_keeps 0 x m').
Defined.

(** Callback 1 registers callback 7, callback 2 is cancelled. *)
Definition demo_callback (c : nat) (s : close_state (list nat)) :
    close_state (list nat) * close_outcome :=
  let s1 := mk_close (cs_world s ++ [c]) (cs_callbacks s) in
  match c with
  | 1 => (on_close 7 s1, CloseDone)
  | 2 => (s1, CloseCancelled)
  | _ => (s1, CloseFailed)
  end.

Lemma drain_close_runs_all_in_reverse_witness :
  drain_close_callbacks demo_callback (mk_close [] [1; 2; 3]) =
    ([3; 2; 1], mk_close [3; 2; 1] [7], false).
Proof.
  apply (drain_close_runs_all_in_reverse demo_callback (mk_close [] [1; 2; 3])).
  intros c s'. by destruct c as [|[|[|c]]].
Defined.

(** Middleware on a context counter: 0 and 1 log around the inner call, 2
    blocks, 3 forgets to return the context. *)
Definition demo_middleware (i : nat) : middleware (C := nat) (W := list nat) := λ ctx nxt w,
  match i with
  | 2 => (Ok (Some ctx), w ++ [i])
  | 3 => (Ok None, w ++ [i])
  | _ => match nxt (S ctx) (w ++ [i]) with
         | (Ok r, w') => (Ok r, w' ++ [10 + i])
         | e => e
         end
  end.

Definition demo_core : next_fn (C := nat) (W := list nat) := λ ctx w, (Ok (Some ctx), w ++ [100]).

Lemma intercept_nests_innermost_witness :
  run_middleware demo_middleware "llm_call" demo_core
    [("llm_call", [0; 1]); ("agent_call", [])]%string 0 [] = (Ok (Some 2), [0; 1; 100; 11; 10]).
Proof.
  exact (f_equal (λ n, n 0 []) (proj1 (intercept_nests_innermost demo_middleware "llm_call" 1
    [("llm_call", [0]); ("agent_call", [])]%string _ demo_core eq_refl))).
Defined.

Lemma blocking_middleware_shields_witness :
  run_middleware demo_middleware "llm_call" demo_core [("llm_call", [0; 3; 1])]%string 0 [] =
    (Raise RuntimeError, [0; 3]).
Proof.
  rewrite (proj1 (blocking_middleware_shields demo_middleware "llm_call"
    [("llm_call", [0; 3; 1])]%string [0] 3 [1] demo_core (λ _ w, (Raise OtherError, w))
    eq_refl (λ _ _ _ _, eq_refl))).
  reflexivity.
Defined.

Lemma intercept_kinds_witness : ∃ t' fns,
  intercept "llm_call" 4 mw_init = Ok t' ∧ mw_ok t' ∧ dict_get "llm_call"%string mw_init = Some fns ∧
  mw_ok (intercept_unsubscribe "llm_call" 4 t') ∧
  (4 ∉ fns → dict_get "llm_call"%string (intercept_unsubscribe "llm_call" 4 t') = Some fns).
Proof.
  apply (proj2 (intercept_kinds "llm_call" 4 mw_init mw_ok_init)).
  apply (bool_decide_unpack _). vm_compute. exact I.
Defined.
