(* ===== verification/EventQuery.v ===== *)
(** * EventQuery: the declarative event filter

    [EventQuery] of [nooa/runtime/event_query.py] and how its [apply] relates
    to [EventManager.filter]. *)

From S2P Require Import Prelude PyStr PyDict Values Events EventBackend EventManager.

Open Scope nooa_scope.

(** The frozen dataclass. *)
Record event_query := mk_query {
  q_type : option string;
  q_call_id : option string;
  q_query : option string;
  q_regex : bool;
  q_limit : option Z;
}.

(** [__init__] with [__post_init__]. *)
Definition make_query (type call_id query : option string) (regex : bool) (limit : option Z)
    : result event_query :=
  let! _ := match type with Some t => validate_event_type_name t | None => Ok tt end in
  Ok (mk_query type call_id query regex limit).

(** The class methods. *)
Definition current_call (limit : option Z) : result event_query :=
  make_query None (Some "current"%string) None false limit.
Definition by_type (event_type : string) (limit : option Z) : result event_query :=
  make_query (Some event_type) None None false limit.
Definition last_n_query (n : Z) : result event_query := make_query None None None false (Some n).

Section Apply.
(** [str(e)], the class of the event and the [re] module. *)
Variable event_str : event → string.
Variable class_name : event → string.
Variable re_compile : bool → string → option (string → bool).

(** The [call_id] a query looks for: [None] is also what [metadata.get] returns
    when the event has none. *)
Definition target_call_id (current c : option string) : option string :=
  if bool_decide (c = Some "current"%string) then current else c.

Definition has_call_id (target : option string) (e : event) : bool :=
  got_eq_str (dict_get "call_id"%string (ev_metadata e)) target.

Definition apply_query (regex : bool) (query : option string) (es : list event)
    : result (list event) :=
  match query with
  | None => Ok es
  | Some q =>
      if regex then
        match re_compile false q with
        | None => Raise OtherError
        | Some search => Ok (List.filter (λ e, search (event_str e)) es)
        end
      else Ok (List.filter (λ e, contains (lower q) (lower (event_str e))) es)
  end.

Definition apply_limit {A} (limit : option Z) (es : list A) : list A :=
  match limit with Some n => py_slice_from (- n) es | None => es end.

(** [apply]. *)
Definition apply (q : event_query) (current_call_id : option string) (es : list event)
    : result (list event) :=
  let es := match q_call_id q with
            | Some c => List.filter (has_call_id (target_call_id current_call_id (Some c))) es
            | None => es end in
  let es := match q_type q with
            | Some t => List.filter (λ e, bool_decide (class_name e = t)) es
            | None => es end in
  let! es := apply_query (q_regex q) (q_query q) es in
  Ok (apply_limit (q_limit q) es).

(** The events a query without a regular expression selects before its limit. *)
Definition selects (q : event_query) (current : option string) (e : event) : bool :=
  match q_call_id q with
  | Some c => has_call_id (target_call_id current (Some c)) e
  | None => true
  end &&
  match q_type q with Some t => bool_decide (class_name e = t) | None => true end &&
  match q_query q with
  | Some s => contains (lower s) (lower (event_str e))
  | None => true
  end.

Lemma list_filter_and {A} (p p' : A → bool) l :
  List.filter p' (List.filter p l) = List.filter (λ x, p x && p' x) l.
Proof.
  induction l as [|x l IH]; [done|]. simpl. destruct (p x); simpl; [|done].
  destruct (p' x); by rewrite IH.
Qed.

Lemma list_filter_true {A} (l : list A) : List.filter (λ _, true) l = l.
Proof. induction l as [|x l IH]; simpl; [done|by rewrite IH]. Qed.

(** An optional filter is always a filter. *)
Lemma filter_option {A T} (c : option T) (p : T → A → bool) l :
  match c with Some a => List.filter (p a) l | None => l end =
  List.filter (λ x, match c with Some a => p a x | None => true end) l.
Proof. destruct c; [done|]. by rewrite list_filter_true. Qed.

Lemma apply_selects q current es :
  q_regex q = false →
  apply q current es = Ok (apply_limit (q_limit q) (List.filter (selects q current) es)).
Proof.
  intros Hre. unfold apply, apply_query. rewrite Hre.
  rewrite (filter_option (q_call_id q) (λ c, has_call_id (target_call_id current (Some c)))).
  rewrite (filter_option (q_type q) (λ t e, bool_decide (class_name e = t))).
  rewrite list_filter_and. unfold selects. destruct (q_query q); cbn [result_bind].
  - by rewrite list_filter_and.
  - do 2 f_equal. apply filter_ext. intros e. by rewrite andb_true_r.
Qed.

(** A text query with a positive limit [n] returns the most recent [n]
    of exactly the events matching its call, type and text, in log order, and
    fewer than [n] only when fewer match. *)
Theorem apply_returns_most_recent q current es n :
  q_regex q = false → q_limit q = Some n → (0 < n)%Z →
  ∃ out, apply q current es = Ok out ∧
    out `suffix_of` List.filter (selects q current) es ∧
    length out = (Z.to_nat n `min` length (List.filter (selects q current) es))%nat ∧
    Forall (λ e, selects q current e = true) out.
Proof.
  intros Hre Hl Hn. rewrite apply_selects by done. rewrite Hl. simpl.
  replace (- n)%Z with (- Z.of_nat (Z.to_nat n))%Z by lia. rewrite py_slice_from_neg by lia.
  eexists. split; [done|]. split; [apply last_n_suffix|]. split; [apply last_n_length|].
  apply Forall_drop, Forall_forall. intros e He. apply list_elem_of_In, filter_In in He. tauto.
Qed.

(** A limit of zero is no limit: [filtered[-0:]] is the whole list. *)
Theorem apply_zero_limit_returns_all q current es :
  q_regex q = false → q_limit q = Some 0%Z →
  apply q current es = Ok (List.filter (selects q current) es).
Proof. intros Hre Hl. rewrite apply_selects by done. by rewrite Hl. Qed.
End Apply.

(** ** Agreement with [EventManager.filter] *)
Section Agreement.
Context {B : Type} `{EventBackend B}.
Variable event_str : event → string.
Variable re_compile : bool → string → option (string → bool).

(** The arguments [EventManager.filter] takes for a query. *)
Definition filter_args_of (q : event_query) : filter_args :=
  mk_filter (q_type q) (q_call_id q) None (q_query q) (q_regex q) (q_limit q).

(** References [os] denote the events [es]. *)
Definition denotes (b : B) : list oid → list event → Prop :=
  Forall2 (λ o e, be_deref b o = Some e).

Lemma denotes_filter b p os es :
  denotes b os es → denotes b (List.filter (on_event b p) os) (List.filter p es).
Proof.
  unfold denotes. induction 1 as [|o e os es Ho _ IH]; simpl; [constructor|].
  unfold on_event at 1. rewrite Ho. destruct (p e); [by constructor|done].
Qed.

Lemma denotes_keep {A} b (c : option A) p os es :
  denotes b os es →
  denotes b (keep c (λ a, on_event b (p a)) os)
    (List.filter (λ e, match c with Some a => p a e | None => true end) es).
Proof. intros Hd. destruct c; simpl; [by apply denotes_filter|by rewrite list_filter_true]. Qed.

Lemma denotes_slice b i os es :
  denotes b os es → denotes b (py_slice_from i os) (py_slice_from i es).
Proof.
  intros Hd. unfold py_slice_from. rewrite (Forall2_length _ _ _ Hd).
  destruct (i <? 0)%Z; by apply Forall2_drop.
Qed.

(** [filter]'s guard on the length does not change what the slice returns. *)
Lemma limit_guard {A} (n : Z) (l : list A) :
  (if (n <? Z.of_nat (length l))%Z then py_slice_from (- n) l else l) = py_slice_from (- n) l.
Proof.
  destruct (n <? Z.of_nat (length l))%Z eqn:E; [done|]. apply Z.ltb_ge in E.
  unfold py_slice_from. destruct (- n <? 0)%Z eqn:E'.
  - by replace (length l - Z.to_nat (- - n))%nat with 0%nat by lia.
  - apply Z.ltb_ge in E'. by replace (Z.to_nat (- n)) with 0%nat by lia.
Qed.

(** For events whose class name is their event type and whose text is
    their searchable text, [EventQuery.apply] on a manager's events and
    [EventManager.filter] with the same arguments select the same events, for
    every limit, unless the query names the call [current] (which only
    [apply] resolves) or is a regular expression (which only [filter]
    compiles case-insensitively). *)
Theorem apply_agrees_with_filter q current m es :
  q_regex q = false → q_call_id q ≠ Some "current"%string →
  validate_event_type_name (default "" (q_type q)) = Ok tt →
  denotes (em_backend m) (be_all_events (em_backend m)) es →
  ∃ os out, filter event_str re_compile (filter_args_of q) m = Ok os ∧
    apply event_str ev_type re_compile q current es = Ok out ∧
    denotes (em_backend m) os out.
Proof.
  intros Hre Hcur Hval Hd. unfold filter, filter_args_of. simpl.
  assert (match q_type q with Some t => validate_event_type_name t | None => Ok tt end = Ok tt) as ->
    by (by destruct (q_type q)).
  cbn [result_bind]. unfold filter_query. rewrite Hre.
  set (os1 := keep (q_type q) _ _). set (os2 := keep (q_call_id q) _ os1).
  set (sel := λ e, match q_type q with Some t => bool_decide (ev_type e = t) | None => true end &&
                   match q_call_id q with Some c => has_call_id (Some c) e | None => true end).
  assert (H2 : denotes (em_backend m) os2 (List.filter sel es)).
  { pose proof (denotes_keep _ (q_call_id q) (λ c e, has_call_id (Some c) e) _ _
      (denotes_keep _ (q_type q) (λ t e, bool_decide (ev_type e = t)) _ _ Hd)) as Hk.
    by rewrite list_filter_and in Hk. }
  assert (Hsel : ∀ e, selects event_str ev_type q current e =
    (sel e && match q_query q with
              | Some s => contains (lower s) (lower (event_str e)) | None => true end)).
  { intros e. unfold selects, sel. f_equal. rewrite andb_comm. f_equal.
    destruct (q_call_id q); [|done]. unfold target_call_id. by case_bool_decide. }
  rewrite apply_selects by done.
  assert (H3 : ∃ os3, (match q_query q with
     | Some q0 => Ok (List.filter (on_event (em_backend m) (λ e, contains (lower q0) (lower (event_str e)))) os2)
     | None => Ok os2 end : result (list oid)) = Ok os3 ∧
     denotes (em_backend m) os3 (List.filter (selects event_str ev_type q current) es)).
  { destruct (q_query q) as [s|] eqn:Eq; eexists; (split; [done|]).
    - apply (denotes_filter _ (λ e, contains (lower s) (lower (event_str e)))) in H2.
      rewrite list_filter_and in H2. by rewrite (filter_ext _ _ Hsel).
    - rewrite (filter_ext _ _ Hsel).
      by rewrite (filter_ext _ _ (λ e, andb_true_r (sel e))). }
  destruct H3 as (os3 & -> & H3). cbn [result_bind]. eexists _, _. split; [done|]. split; [done|].
  destruct (q_limit q); simpl; [|done]. rewrite limit_guard. by apply denotes_slice.
Qed.
End Agreement.

(** ** Witnesses *)

Definition demo_ev (id type call : string) : event :=
  mk_event id type type USER None ACTIVE [("call_id", VStr call)]%string [] None.

Definition demo_events : list event :=
  [demo_ev "a" "Task" "c1"; demo_ev "b" "Error" "c1"; demo_ev "c" "Task" "c2";
   demo_ev "d" "Task" "c1"]%string.

Definition demo_query (limit : Z) : event_query :=
  mk_query (Some "Task"%string) (Some "current"%string) None false (Some limit).

Definition no_re (i : bool) (s : string) : option (string → bool) := None.

Lemma apply_returns_most_recent_witness : ∃ out,
  apply ev_id ev_type no_re (demo_query 1) (Some "c1"%string) demo_events = Ok out ∧
  length out = 1%nat.
Proof.
  destruct (apply_returns_most_recent ev_id ev_type no_re (demo_query 1) (Some "c1"%string)
              demo_events 1 eq_refl eq_refl eq_refl) as (out & H1 & _ & H3 & _).
  exists out. split; [exact H1|]. rewrite H3. vm_compute. reflexivity.
Defined.

Lemma apply_zero_limit_returns_all_witness :
  apply ev_id ev_type no_re (demo_query 0) (Some "c1"%string) demo_events =
    Ok [demo_ev "a" "Task" "c1"; demo_ev "d" "Task" "c1"]%string.
Proof.
  exact (apply_zero_limit_returns_all ev_id ev_type no_re (demo_query 0) (Some "c1"%string)
           demo_events eq_refl eq_refl).
Defined.

Definition demo_query_manager : manager mem_backend :=
  mk_manager
    (foldl (λ b e, let '(o, b1) := be_alloc e b in
                   let '(t, b2) := be_allocate_next_tag b1 in be_store t o b2)
       mem_init demo_events) [].

Lemma apply_agrees_with_filter_witness : ∃ os out,
  filter ev_id no_re (filter_args_of (mk_query (Some "Task"%string) (Some "c1"%string) None false
    (Some 5%Z))) demo_query_manager = Ok os ∧
  apply ev_id ev_type no_re (mk_query (Some "Task"%string) (Some "c1"%string) None false (Some 5%Z))
    None demo_events = Ok out ∧
  denotes (em_backend demo_query_manager) os out.
Proof.
  apply (apply_agrees_with_filter ev_id no_re
    (mk_query (Some "Task"%string) (Some "c1"%string) None false (Some 5%Z)) None demo_query_manager
    demo_events eq_refl).
  - simpl. intros [=].
  - reflexivity.
  - repeat constructor.
Defined.
