(* ===== verification/Fifo.v ===== *)
(** * Fifo: first-come first-served queues

    Waiters are numbered in order of arrival; [sts] gives the state of each
    and [ws] is the queue.  The lemmas say how the discipline survives the
    moves the admission queues make: serving or dropping the head, settling a
    waiter that was served, enqueueing, and cancelling anywhere. *)

From Stdlib Require Import Sorted.
From S2P Require Import Prelude.

Section Fifo.
Context {X : Type}.
(** [q] is the state of a queued waiter, [skipped] holds of the states in which
    a later waiter may be while an earlier one is still queued. *)
Variable q : X.
Variable skipped : X → Prop.

(** The queue holds exactly the queued waiters, in order of arrival, and no
    later waiter was served before an earlier queued one. *)
Record fifo_ok (ws : list nat) (sts : list X) : Prop := mk_fifo_ok {
  fi_sorted : StronglySorted lt ws;
  fi_queued : ∀ w, w ∈ ws ↔ sts !! w = Some q;
  fi_order : ∀ w w' x, sts !! w = Some q → sts !! w' = Some x → w < w' → x = q ∨ skipped x;
}.

Lemma sorted_head_lt w ws x : StronglySorted lt (w :: ws) → x ∈ ws → w < x.
Proof. intros [_ Hf]%StronglySorted_inv Hx. by eapply Forall_forall in Hf. Qed.

Lemma sorted_head_notin w ws : StronglySorted lt (w :: ws) → w ∉ ws.
Proof. intros Hs Hin. pose proof (sorted_head_lt _ _ _ Hs Hin). lia. Qed.

Lemma sorted_NoDup ws : StronglySorted lt ws → NoDup ws.
Proof.
  induction ws as [|w ws IH]; intros Hs; constructor.
  - by apply sorted_head_notin.
  - apply IH. by apply StronglySorted_inv in Hs as [? _].
Qed.

Lemma sorted_snoc ws n :
  StronglySorted lt ws → Forall (λ w, w < n) ws → StronglySorted lt (ws ++ [n]).
Proof.
  induction 1 as [|w ws Hs IH Hf]; intros Hn; simpl; [repeat constructor|].
  apply Forall_cons in Hn as [Hwn Hn]. constructor; [by apply IH|].
  apply Forall_app. split; [done|by constructor].
Qed.

Lemma sorted_delete l1 l2 w : StronglySorted lt (l1 ++ w :: l2) → StronglySorted lt (l1 ++ l2).
Proof.
  induction l1 as [|x l1 IH]; simpl; intros Hs; [by apply StronglySorted_inv in Hs as [? _]|].
  apply StronglySorted_inv in Hs as [Hs Hf]. constructor; [by apply IH|].
  apply Forall_app in Hf as [Hf1 Hf2]. apply Forall_cons in Hf2 as [_ Hf2]. by apply Forall_app.
Qed.

Lemma fifo_nil : fifo_ok [] [].
Proof. split; [constructor| |]; intros w; [split; [by intros ?%not_elem_of_nil|done]|done]. Qed.

Lemma fifo_head w ws sts : fifo_ok (w :: ws) sts → sts !! w = Some q.
Proof. intros [_ Hq _]. apply Hq. by left. Qed.

(** The head leaves the queue, whatever becomes of it. *)
Lemma fifo_pop w ws sts v :
  fifo_ok (w :: ws) sts → v ≠ q → fifo_ok ws (<[w := v]> sts).
Proof.
  intros Hok Hv. pose proof (fifo_head _ _ _ Hok) as Hlk. destruct Hok as [Hs Hw Hf].
  assert (Hlt : w < length sts) by (by eapply lookup_lt_Some).
  split; [by apply StronglySorted_inv in Hs as [? _]| |].
  - intros w'. destruct (decide (w' = w)) as [->|Hne].
    + rewrite list_lookup_insert_eq by done.
      pose proof (sorted_head_notin _ _ Hs). split; [done|by intros [=]].
    + rewrite list_lookup_insert_ne by done. rewrite <- Hw. set_solver.
  - intros w1 w' x H1 H2 Hlt1. destruct (decide (w1 = w)) as [->|Hne1].
    { rewrite list_lookup_insert_eq in H1 by done. by simplify_eq. }
    rewrite list_lookup_insert_ne in H1 by done.
    assert (w < w1). { eapply sorted_head_lt; [done|]. apply Hw in H1. set_solver. }
    rewrite list_lookup_insert_ne in H2 by lia. eauto.
Qed.

(** A served waiter changes state: nothing moves in the queue. *)
Lemma fifo_settle ws sts w y v :
  fifo_ok ws sts → sts !! w = Some y → y ≠ q → ¬ skipped y → v ≠ q →
  fifo_ok ws (<[w := v]> sts).
Proof.
  intros [Hs Hw Hf] Hlk Hy Hsk Hv. assert (Hlt : w < length sts) by (by eapply lookup_lt_Some).
  split; [done| |].
  - intros w'. rewrite Hw. destruct (decide (w' = w)) as [->|Hne].
    + rewrite list_lookup_insert_eq, Hlk by done. split; intros [=]; congruence.
    + by rewrite list_lookup_insert_ne.
  - intros w1 w' x H1 H2 Hlt1. destruct (decide (w1 = w)) as [->|Hne1].
    { rewrite list_lookup_insert_eq in H1 by done. by simplify_eq. }
    rewrite list_lookup_insert_ne in H1 by done. destruct (decide (w' = w)) as [->|Hne].
    + destruct (Hf _ _ _ H1 Hlk Hlt1); done.
    + rewrite list_lookup_insert_ne in H2 by done. eauto.
Qed.

Lemma fifo_enqueue ws sts : fifo_ok ws sts → fifo_ok (ws ++ [length sts]) (sts ++ [q]).
Proof.
  intros [Hs Hw Hf].
  assert (Hlt : ∀ w, w ∈ ws → w < length sts) by (intros w Hin%Hw; by eapply lookup_lt_Some).
  split.
  - apply sorted_snoc; [done|]. apply Forall_forall. auto.
  - intros w. rewrite elem_of_app, list_elem_of_singleton.
    destruct (decide (w = length sts)) as [->|Hne].
    + rewrite lookup_app_r, Nat.sub_diag by lia. simpl. split; [done|by right].
    + split.
      * intros [Hin|]; [|done]. rewrite lookup_app_l by (by apply Hlt). by apply Hw.
      * intros [Hl|[Hge Hl]]%lookup_app_Some; [left; by apply Hw|].
        apply list_lookup_singleton_Some in Hl as [? _]. lia.
  - intros w w' x H1 H2 Hlt'. apply lookup_app_Some in H2 as [H2|[Hge H2]].
    + apply lookup_lt_Some in H2 as Hl2. rewrite lookup_app_l in H1 by lia. eauto.
    + apply list_lookup_singleton_Some in H2 as [_ <-]. by left.
Qed.

(** A queued waiter leaves from anywhere in the queue. *)
Lemma fifo_cancel ws sts w v :
  fifo_ok ws sts → sts !! w = Some q → skipped v → v ≠ q →
  fifo_ok (discard_first w ws) (<[w := v]> sts) ∧ length ws = S (length (discard_first w ws)).
Proof.
  intros [Hs Hw Hf] Hlk Hv Hne. assert (Hin : w ∈ ws) by (by apply Hw).
  pose proof (sorted_NoDup _ Hs) as Hnd. assert (Hlt : w < length sts) by (by eapply lookup_lt_Some).
  destruct (list_elem_of_split _ _ Hin) as (l1 & l2 & Heq).
  assert (Hdisc : discard_first w ws = l1 ++ l2).
  { rewrite Heq in *. apply discard_first_app.
    apply NoDup_app in Hnd as (_ & Hd & _). intros Hx. apply (Hd _ Hx). set_solver. }
  split; [|rewrite Hdisc, Heq, !length_app; simpl; lia]. split.
  - rewrite Hdisc. rewrite Heq in Hs. by eapply sorted_delete.
  - intros w'. rewrite discard_first_filter by done. rewrite list_elem_of_filter, Hw.
    destruct (decide (w' = w)) as [->|Hn].
    + rewrite list_lookup_insert_eq by done. split; [by intros [? _]|by intros [=]].
    + rewrite list_lookup_insert_ne by done. tauto.
  - intros w1 w' x H1 H2 Hlt1. destruct (decide (w1 = w)) as [->|Hn1].
    { rewrite list_lookup_insert_eq in H1 by done. by simplify_eq. }
    rewrite list_lookup_insert_ne in H1 by done. destruct (decide (w' = w)) as [->|Hn].
    + rewrite list_lookup_insert_eq in H2 by done. simplify_eq. by right.
    + rewrite list_lookup_insert_ne in H2 by done. eauto.
Qed.
End Fifo.
