(* ===== verification/Admission.v ===== *)
(** * Admission: the process-local admission group

    [_AdmissionGroup], [_Waiter] and [_Permit] of
    [nooa/unifiedllm/admission.py].  Every block the code runs under the
    group's lock is one function on the state; the asyncio tasks and event
    loops around them (which waiters are blocked, what
    [call_soon_threadsafe] has scheduled, which loops are closed) are part of
    the state, so that a run interleaves these blocks in any order. *)

From S2P Require Import Prelude PyFloat.

Open Scope nooa_scope.

Inductive wstate := Queued | Granted | Acquired | Cancelled.

#[global] Instance wstate_eq_dec : EqDecision wstate.
Proof. solve_decision. Defined.

(** Where the task of a waiter is: about to run [_wait_for_grant]'s loop body,
    suspended in [wakeup.wait()] with or without a timer, or gone. *)
Inductive task := TaskReady | TaskBlocked (timer : option pyfloat) | TaskDone.

(** [_Waiter], with its [asyncio.Event] as the flag [w_set] and its task. *)
Record waiter := mk_waiter {
  w_loop : nat;
  w_set : bool;
  w_queued_at : pyfloat;
  w_queue_depth : Z;
  w_state : wstate;
  w_task : task;
}.

Definition with_set (v : bool) (w : waiter) : waiter :=
  mk_waiter (w_loop w) v (w_queued_at w) (w_queue_depth w) (w_state w) (w_task w).
Definition with_state (v : wstate) (w : waiter) : waiter :=
  mk_waiter (w_loop w) (w_set w) (w_queued_at w) (w_queue_depth w) v (w_task w).
Definition with_task (v : task) (w : waiter) : waiter :=
  mk_waiter (w_loop w) (w_set w) (w_queued_at w) (w_queue_depth w) (w_state w) v.

(** The fields of [_AdmissionGroup]; waiters are named by their index in
    [s_table]. *)
Record group := mk_group {
  g_identity : string;
  g_display_name : string;
  g_max_in_flight : Z;
  g_requests_per_second : option pyfloat;
  g_max_cooldown : option pyfloat;
  g_interval : pyfloat;
  g_next_admission : pyfloat;
  g_cooldown_until : pyfloat;
  g_active : Z;
  g_queued : Z;
  g_waiters : list nat;
}.

(** [__init__]. *)
Definition new_group (identity display_name : string) (max_in_flight : Z)
    (requests_per_second max_cooldown : option pyfloat) : group :=
  mk_group identity display_name max_in_flight requests_per_second max_cooldown
    (match requests_per_second with None => f_zero | Some r => f_div f_one r end)
    f_zero f_zero 0 0 [].

Definition with_admission (next : pyfloat) (g : group) : group :=
  mk_group (g_identity g) (g_display_name g) (g_max_in_flight g) (g_requests_per_second g)
    (g_max_cooldown g) (g_interval g) next (g_cooldown_until g) (g_active g) (g_queued g) (g_waiters g).
Definition with_cooldown (c : pyfloat) (g : group) : group :=
  mk_group (g_identity g) (g_display_name g) (g_max_in_flight g) (g_requests_per_second g)
    (g_max_cooldown g) (g_interval g) (g_next_admission g) c (g_active g) (g_queued g) (g_waiters g).
Definition with_active (n : Z) (g : group) : group :=
  mk_group (g_identity g) (g_display_name g) (g_max_in_flight g) (g_requests_per_second g)
    (g_max_cooldown g) (g_interval g) (g_next_admission g) (g_cooldown_until g) n (g_queued g) (g_waiters g).
Definition with_queue (n : Z) (ws : list nat) (g : group) : group :=
  mk_group (g_identity g) (g_display_name g) (g_max_in_flight g) (g_requests_per_second g)
    (g_max_cooldown g) (g_interval g) (g_next_admission g) (g_cooldown_until g) (g_active g) n ws.

(** What [call_soon_threadsafe] has scheduled on a waiter's loop:
    [waiter.wakeup.set] or [_deliver_grant(waiter)]. *)
Inductive callback := CbSet (w : nat) | CbDeliver (w : nat).

#[global] Instance callback_eq_dec : EqDecision callback.
Proof. solve_decision. Defined.

(** The group with everything that refers to it: its waiters, the [_released]
    flags of its permits, the scheduled callbacks, the closed loops, how often
    the clock was read, and the history of admission times. *)
Record st := mk_st {
  s_group : group;
  s_table : list waiter;
  s_permits : list bool;
  s_pending : list callback;
  s_closed : list nat;
  s_tick : nat;
  s_admitted : list pyfloat;
}.

Definition st_group (f : group → group) (s : st) : st :=
  mk_st (f (s_group s)) (s_table s) (s_permits s) (s_pending s) (s_closed s) (s_tick s) (s_admitted s).
Definition st_waiter (w : nat) (f : waiter → waiter) (s : st) : st :=
  mk_st (s_group s) (alter f w (s_table s)) (s_permits s) (s_pending s) (s_closed s) (s_tick s) (s_admitted s).
Definition st_permits (p : list bool) (s : st) : st :=
  mk_st (s_group s) (s_table s) p (s_pending s) (s_closed s) (s_tick s) (s_admitted s).
Definition st_pending (p : list callback) (s : st) : st :=
  mk_st (s_group s) (s_table s) (s_permits s) p (s_closed s) (s_tick s) (s_admitted s).
Definition st_tick (s : st) : st :=
  mk_st (s_group s) (s_table s) (s_permits s) (s_pending s) (s_closed s) (S (s_tick s)) (s_admitted s).
Definition st_admit (t : pyfloat) (s : st) : st :=
  mk_st (s_group s) (s_table s) (s_permits s) (s_pending s) (s_closed s) (s_tick s) (s_admitted s ++ [t]).
Definition st_spawn (w : waiter) (s : st) : st :=
  mk_st (s_group s) (s_table s ++ [w]) (s_permits s) (s_pending s) (s_closed s) (s_tick s) (s_admitted s).
Definition st_close (l : nat) (s : st) : st :=
  mk_st (s_group s) (s_table s) (s_permits s) (s_pending s) (l :: s_closed s) (s_tick s) (s_admitted s).

Definition new_st (g : group) : st := mk_st g [] [] [] [] 0 [].

Definition state_of (w : nat) (s : st) : option wstate := w_state <$> s_table s !! w.

Section Group.
(** Successive readings of [time.monotonic()]. *)
Variable clock : nat → pyfloat.

Definition now (s : st) : pyfloat := clock (s_tick s).

(** [_not_before_locked]. *)
Definition not_before (g : group) : pyfloat := f_max (g_next_admission g) (g_cooldown_until g).

(** [waiter.loop.call_soon_threadsafe(...)]: [None] is the [RuntimeError] of a
    closed loop. *)
Definition call_soon (w : nat) (cb : callback) (s : st) : option st :=
  match s_table s !! w with
  | None => None
  | Some x => if bool_decide (w_loop x ∈ s_closed s) then None
              else Some (st_pending (s_pending s ++ [cb]) s)
  end.

(** [self._waiters.popleft(); self._queued -= 1] with the rest of the queue. *)
Definition pop_to (ws : list nat) (s : st) : st :=
  st_group (λ g, with_queue (g_queued g - 1) ws g) s.

(** [_wake_head_locked], by recursion on the queue. *)
Fixpoint wake_loop (ws : list nat) (s : st) : st :=
  match ws with
  | [] => s
  | w :: ws' =>
      match call_soon w (CbSet w) s with
      | Some s' => s'
      | None => wake_loop ws' (st_waiter w (with_state Cancelled) (pop_to ws' s))
      end
  end.

Definition wake_head (s : st) : st := wake_loop (g_waiters (s_group s)) s.

(** [_pump_locked]; every turn takes a waiter off the queue. *)
Fixpoint pump_loop (fuel : nat) (s : st) : st :=
  match fuel with
  | 0 => s
  | S fuel' =>
      match g_waiters (s_group s) with
      | [] => s
      | w :: ws =>
          if (g_active (s_group s) <? g_max_in_flight (s_group s))%Z then
            let t := now s in
            let s1 := st_tick s in
            if f_lt t (not_before (s_group s1)) then s1
            else
              let s2 := st_waiter w (with_state Granted) (pop_to ws s1) in
              let s3 := st_group (λ g, with_active (g_active g + 1) g) s2 in
              match call_soon w (CbDeliver w) s3 with
              | None =>
                  let s4 := st_waiter w (with_state Cancelled) s3 in
                  pump_loop fuel' (st_group (λ g, with_active (g_active g - 1) g) s4)
              | Some s4 =>
                  let s5 := st_group (λ g, with_admission (f_add t (g_interval g)) g) s4 in
                  pump_loop fuel' (wake_head (st_admit t s5))
              end
          else s
      end
  end.

Definition pump (s : st) : st := pump_loop (length (g_waiters (s_group s))) s.

(** [release] of the group. *)
Definition release (s : st) : result st :=
  if (g_active (s_group s) <=? 0)%Z then Raise RuntimeError
  else Ok (wake_head (pump (st_group (λ g, with_active (g_active g - 1) g) s))).

(** [_Permit.release]. *)
Definition permit_release (p : nat) (s : st) : result st :=
  match s_permits s !! p with
  | None => Raise OtherError
  | Some true => Ok s
  | Some false => release (st_permits (<[p := true]> (s_permits s)) s)
  end.

(** [_permit_with_observation]: the permit's number, or what the observer
    raised after the slot was returned. *)
Definition permit_with_observation (observed : bool) (s : st) : result (result nat * st) :=
  let p := length (s_permits s) in
  let s1 := st_permits (s_permits s ++ [false]) s in
  if observed then Ok (Ok p, s1)
  else let! s2 := permit_release p s1 in Ok (Raise ObserverError, s2).

(** The first locked block of [acquire]: [inl tt] when a slot is taken at
    once, otherwise [inr w] with the new waiter [w] in the queue. *)
Definition acquire_enter (loop : nat) (started : pyfloat) (s : st) : (unit + nat) * st :=
  let t := now s in
  let s1 := st_tick s in
  let g := s_group s1 in
  if (g_active g <? g_max_in_flight g)%Z && bool_decide (g_waiters g = []) &&
     f_le (not_before g) t
  then (inl tt, st_admit t (st_group (λ g, with_admission (f_add t (g_interval g))
                                      (with_active (g_active g + 1) g)) s1))
  else
    let w := length (s_table s1) in
    let depth := (g_queued g + 1)%Z in
    (inr w, st_group (λ g, with_queue (g_queued g + 1) (g_waiters g ++ [w]) g)
              (st_spawn (mk_waiter loop false started depth Queued TaskReady) s1)).

(** One turn of [_wait_for_grant]: the grant is claimed, or the task waits
    with the given timer, or [self._waiters[0]] fails on an empty queue. *)
Inductive poll_result := PollAcquired | PollWaits | PollIndexError.

Definition poll (w : nat) (s : st) : poll_result * st :=
  let s1 := pump s in
  if bool_decide (state_of w s1 = Some Granted) then
    (PollAcquired, st_waiter w (λ x, with_task TaskDone (with_state Acquired x)) s1)
  else
    let s2 := st_waiter w (with_set false) s1 in
    match g_waiters (s_group s2) with
    | [] => (PollIndexError, s2)
    | h :: _ =>
        if bool_decide (h = w) && (g_active (s_group s2) <? g_max_in_flight (s_group s2))%Z then
          let delay := f_max f_zero (f_sub (not_before (s_group s2)) (now s2)) in
          (PollWaits, st_waiter w (with_task (TaskBlocked (Some delay))) (st_tick s2))
        else (PollWaits, st_waiter w (with_task (TaskBlocked None)) s2)
    end.

(** [_cancel_waiter]; the task is gone afterwards.  A granted waiter is
    cancelled in one locked block and its slot returned by [release] in a
    second one, as [_Permit.release] sets its flag before [release] locks the
    group; both pairs are one step here, so the slot, which another thread
    between the two blocks would still see as taken, is returned at once. *)
Definition cancel_waiter (w : nat) (s : st) : result st :=
  let s0 := st_waiter w (with_task TaskDone) s in
  match state_of w s0 with
  | Some Queued =>
      let s1 := st_waiter w (with_state Cancelled) s0 in
      Ok (wake_head (st_group (λ g, with_queue (g_queued g - 1) (discard_first w (g_waiters g)) g) s1))
  | Some Granted => release (st_waiter w (with_state Cancelled) s0)
  | _ => Ok s0
  end.

(** [cooldown] of the group with a validated delay, and of a permit. *)
Definition group_cooldown (delay : pyfloat) (s : st) : st :=
  match g_max_cooldown (s_group s) with
  | None => s
  | Some m =>
      let t := now s in
      wake_head (st_group (λ g, with_cooldown
        (f_max (g_cooldown_until g) (f_add t (f_min delay m))) g) (st_tick s))
  end.

Definition permit_cooldown (p : nat) (delay : pyfloat) (s : st) : st :=
  match s_permits s !! p with
  | Some false => group_cooldown delay s
  | _ => s
  end.

(** A scheduled callback runs: [waiter.wakeup.set()] or [_deliver_grant]. *)
Definition run_callback (cb : callback) (s : st) : st :=
  match cb with
  | CbSet w => st_waiter w (with_set true) s
  | CbDeliver w =>
      if bool_decide (state_of w s = Some Granted) then st_waiter w (with_set true) s else s
  end.

(** ** Runs *)

(** What can happen next: a task enters [acquire]; a waiting task takes a turn
    ([observed] is whether the observer returned); a waiting task is cancelled
    or times out; a permit is released or reports a cooldown; a scheduled
    callback runs; an event loop is closed. *)
Inductive label :=
  | LAcquire (loop : nat) (started : pyfloat) (observed : bool)
  | LPoll (w : nat) (observed : bool)
  | LCancel (w : nat)
  | LRelease (p : nat)
  | LCooldown (p : nat) (delay : pyfloat)
  | LCallback (cb : callback)
  | LClose (loop : nat).

Definition open_loop (l : nat) (s : st) : bool := bool_decide (l ∉ s_closed s).

(** The task of [w] can take a turn: it has just been queued, its event is set,
    or it has a timer, which may fire at any moment. *)
Definition runnable (w : nat) (s : st) : bool :=
  match s_table s !! w with
  | Some x =>
      open_loop (w_loop x) s &&
      match w_task x with
      | TaskReady => true
      | TaskBlocked (Some _) => true
      | TaskBlocked None => w_set x
      | TaskDone => false
      end
  | None => false
  end.

(** The task of [w] is still inside [_wait_for_grant]. *)
Definition waiting (w : nat) (s : st) : bool :=
  match s_table s !! w with
  | Some x => open_loop (w_loop x) s && match w_task x with TaskDone => false | _ => true end
  | None => false
  end.

Definition cb_waiter (cb : callback) : nat := match cb with CbSet w | CbDeliver w => w end.

Definition callback_ready (cb : callback) (s : st) : bool :=
  bool_decide (cb ∈ s_pending s) &&
  match s_table s !! cb_waiter cb with Some x => open_loop (w_loop x) s | None => false end.

(** One step: [None] when the label is not enabled, [Raise] when the group's
    own code fails. *)
Definition step (l : label) (s : st) : option (result st) :=
  match l with
  | LAcquire loop started observed =>
      if open_loop loop s then
        Some (match acquire_enter loop started s with
              | (inl _, s1) => let! ps := permit_with_observation observed s1 in Ok ps.2
              | (inr _, s1) => Ok s1
              end)
      else None
  | LPoll w observed =>
      if runnable w s then
        Some (match poll w s with
              | (PollAcquired, s1) => let! ps := permit_with_observation observed s1 in Ok ps.2
              | (PollWaits, s1) => Ok s1
              | (PollIndexError, _) => Raise IndexError
              end)
      else None
  | LCancel w => if waiting w s then Some (cancel_waiter w s) else None
  | LRelease p =>
      if bool_decide (p < length (s_permits s)) then Some (permit_release p s) else None
  | LCooldown p delay => Some (Ok (permit_cooldown p delay s))
  | LCallback cb =>
      if callback_ready cb s
      then Some (Ok (run_callback cb (st_pending (discard_first cb (s_pending s)) s))) else None
  | LClose loop => Some (Ok (st_close loop s))
  end.

Definition adm_step (s : st) (l : label) (s' : st) : Prop := step l s = Some (Ok s').
End Group.
