(* ===== verification/AdmissionRuns.v ===== *)
(** * AdmissionRuns: the invariants of an admission group

    Accounting (slots, queue, permits), first-come first-served order, pacing
    and the absence of lost wakeups, for every interleaving of the operations
    of [Admission.v]. *)

From S2P Require Import Prelude PyFloat Fifo Admission.

Open Scope nooa_scope.

(** ** Accounting *)

Definition states (s : st) : list wstate := w_state <$> s_table s.

Definition is_granted (x : wstate) : bool := match x with Granted => true | _ => false end.

(** The part of the state that counts. *)
Record acct := mk_acct {
  ac_max : Z;
  ac_active : Z;
  ac_queued : Z;
  ac_waiters : list nat;
  ac_states : list wstate;
  ac_permits : list bool;
}.

Definition acct_of (s : st) : acct :=
  mk_acct (g_max_in_flight (s_group s)) (g_active (s_group s)) (g_queued (s_group s))
    (g_waiters (s_group s)) (states s) (s_permits s).

(** Active slots are the unclaimed grants and the unreleased permits, never
    more than the bound, and the queue is first-come first-served. *)
Record acct_ok (a : acct) : Prop := mk_acct_ok {
  ok_max : (0 < ac_max a)%Z;
  ok_active : ac_active a = (count is_granted (ac_states a) + count negb (ac_permits a))%Z;
  ok_bound : (ac_active a <= ac_max a)%Z;
  ok_queued : ac_queued a = Z.of_nat (length (ac_waiters a));
  ok_fifo : fifo_ok Queued (eq Cancelled) (ac_waiters a) (ac_states a);
}.

Ltac acct_tac :=
  split; simpl in *; try done; try lia;
  try (match goal with H : _ !! _ = Some _ |- _ => rewrite (count_insert _ _ _ _ _ H) end);
  rewrite ?count_app; cbn; try lia.

Lemma acct_drop a w ws :
  acct_ok a → ac_waiters a = w :: ws →
  acct_ok (mk_acct (ac_max a) (ac_active a) (ac_queued a - 1) ws
             (<[w := Cancelled]> (ac_states a)) (ac_permits a)).
Proof.
  intros [Hmax Hact Hb Hq Hf] Hws. rewrite Hws in Hq, Hf.
  pose proof (fifo_pop _ _ _ _ _ Cancelled Hf) as Hp. apply fifo_head in Hf. acct_tac. by apply Hp.
Qed.

Lemma acct_grant a w ws :
  acct_ok a → ac_waiters a = w :: ws → (ac_active a < ac_max a)%Z →
  acct_ok (mk_acct (ac_max a) (ac_active a + 1) (ac_queued a - 1) ws
             (<[w := Granted]> (ac_states a)) (ac_permits a)).
Proof.
  intros [Hmax Hact Hb Hq Hf] Hws Hlt. rewrite Hws in Hq, Hf.
  pose proof (fifo_pop _ _ _ _ _ Granted Hf) as Hp. apply fifo_head in Hf. acct_tac. by apply Hp.
Qed.

Lemma acct_claim a w :
  acct_ok a → ac_states a !! w = Some Granted →
  acct_ok (mk_acct (ac_max a) (ac_active a) (ac_queued a) (ac_waiters a)
             (<[w := Acquired]> (ac_states a)) (ac_permits a ++ [false])).
Proof.
  intros [Hmax Hact Hb Hq Hf] Hlk.
  pose proof (fifo_settle _ _ _ _ _ _ Acquired Hf Hlk) as Hp. acct_tac. by apply Hp.
Qed.

Lemma acct_revoke a w :
  acct_ok a → ac_states a !! w = Some Granted →
  acct_ok (mk_acct (ac_max a) (ac_active a - 1) (ac_queued a) (ac_waiters a)
             (<[w := Cancelled]> (ac_states a)) (ac_permits a)).
Proof.
  intros [Hmax Hact Hb Hq Hf] Hlk.
  pose proof (fifo_settle _ _ _ _ _ _ Cancelled Hf Hlk) as Hp. acct_tac. by apply Hp.
Qed.

Lemma acct_release a p :
  acct_ok a → ac_permits a !! p = Some false →
  acct_ok (mk_acct (ac_max a) (ac_active a - 1) (ac_queued a) (ac_waiters a)
             (ac_states a) (<[p := true]> (ac_permits a))).
Proof. intros [Hmax Hact Hb Hq Hf] Hlk. acct_tac. Qed.

Lemma acct_immediate a :
  acct_ok a → (ac_active a < ac_max a)%Z →
  acct_ok (mk_acct (ac_max a) (ac_active a + 1) (ac_queued a) (ac_waiters a)
             (ac_states a) (ac_permits a ++ [false])).
Proof. intros [Hmax Hact Hb Hq Hf] Hlt. acct_tac. Qed.

Lemma acct_enqueue a :
  acct_ok a →
  acct_ok (mk_acct (ac_max a) (ac_active a) (ac_queued a + 1) (ac_waiters a ++ [length (ac_states a)])
             (ac_states a ++ [Queued]) (ac_permits a)).
Proof.
  intros [Hmax Hact Hb Hq Hf]. pose proof (fifo_enqueue _ _ _ _ Hf) as Hp. acct_tac.
  rewrite length_app. simpl. lia.
Qed.

Lemma acct_cancel_queued a w :
  acct_ok a → ac_states a !! w = Some Queued →
  acct_ok (mk_acct (ac_max a) (ac_active a) (ac_queued a - 1) (discard_first w (ac_waiters a))
             (<[w := Cancelled]> (ac_states a)) (ac_permits a)).
Proof.
  intros [Hmax Hact Hb Hq Hf] Hlk.
  destruct (fifo_cancel _ _ _ _ w Cancelled Hf Hlk) as [Hp Hlen]; [done|done|]. acct_tac.
Qed.

(** ** Wakefulness *)

(** The waiter [w] is on an open loop. *)
Definition on_open_loop (w : nat) (s : st) : Prop := ∃ x, s_table s !! w = Some x ∧ w_loop x ∉ s_closed s.

(** The task of [w] will take another turn: it is about to run, has a timer, a
    set event or a scheduled one. *)
Definition will_poll (w : nat) (s : st) (x : waiter) : Prop :=
  w_task x = TaskReady ∨ (∃ d, w_task x = TaskBlocked (Some d)) ∨ w_set x = true ∨ CbSet w ∈ s_pending s.

Definition awake (w : nat) (s : st) : Prop := ∃ x, s_table s !! w = Some x ∧ w_loop x ∉ s_closed s ∧ will_poll w s x.

Definition awake_or_closed (w : nat) (s : st) : Prop :=
  ∃ x, s_table s !! w = Some x ∧ (w_loop x ∈ s_closed s ∨ will_poll w s x).

(** [wakeup.set] of [w] is scheduled on its loop, which is open. *)
Definition woken (w : nat) (s : st) : Prop := on_open_loop w s ∧ CbSet w ∈ s_pending s.

Lemma awake_open w s : awake_or_closed w s → on_open_loop w s → awake w s.
Proof. intros (x & Hx & [Hc|Hp]) (y & Hy & Ho); simplify_eq; [done|]. by exists x. Qed.

Lemma woken_awake w s : woken w s → awake_or_closed w s.
Proof. intros [(x & Hx & _) Hp]. exists x. split; [done|]. do 4 right. done. Qed.

(** The head of the queue is awake whenever a slot is free, unless its loop has
    been closed. *)
Definition head_awake (s : st) : Prop :=
  ∀ h ws, g_waiters (s_group s) = h :: ws →
    (g_active (s_group s) < g_max_in_flight (s_group s))%Z → awake_or_closed h s.

(** Accounting, every unclaimed grant is on its way to a task that can claim
    it, and the tasks on open loops are those of queued and granted waiters. *)
Record sound (s : st) : Prop := mk_sound {
  so_acct : acct_ok (acct_of s);
  so_granted : ∀ w, state_of w s = Some Granted → awake_or_closed w s ∨ CbDeliver w ∈ s_pending s;
  so_task : ∀ w x, s_table s !! w = Some x → w_loop x ∉ s_closed s →
    ((w_state x = Queued ∨ w_state x = Granted) ↔ w_task x ≠ TaskDone);
}.

(** How the group's own code changes a waiter it does not run: a queued one is
    granted, or cancelled when its loop is closed. *)
Definition settles (closed : list nat) (x x' : waiter) : Prop :=
  x' = with_state (w_state x') x ∧
  (w_state x' = w_state x ∨
   (w_state x = Queued ∧ (w_state x' = Granted ∨ (w_state x' = Cancelled ∧ w_loop x ∈ closed)))).

Record evolves (s s' : st) : Prop := mk_evolves {
  ev_table : ∀ w, option_Forall2 (settles (s_closed s)) (s_table s !! w) (s_table s' !! w);
  ev_closed : s_closed s' = s_closed s;
  ev_permits : s_permits s' = s_permits s;
  ev_max : g_max_in_flight (s_group s') = g_max_in_flight (s_group s);
  ev_interval : g_interval (s_group s') = g_interval (s_group s);
  ev_pending : s_pending s ⊆ s_pending s';
}.

Lemma settles_refl closed x : settles closed x x.
Proof. split; [by destruct x|by left]. Qed.

Lemma settles_trans closed x y z : settles closed x y → settles closed y z → settles closed x z.
Proof.
  intros [Hy H1] [Hz H2]. assert (Hl : w_loop y = w_loop x) by (by rewrite Hy).
  split; [rewrite Hz, Hy; by destruct x|].
  rewrite Hl in H2. clear Hy Hz.
  destruct H1 as [E1|(? & E1)], H2 as [E2|(? & E2)]; rewrite ?E1, ?E2 in *; naive_solver congruence.
Qed.

#[export] Instance evolves_preorder : PreOrder evolves.
Proof.
  split.
  - intros s. split; try done. intros w. destruct (s_table s !! w); constructor. apply settles_refl.
  - intros s1 s2 s3 [T1 C1 P1 M1 I1 Q1] [T2 C2 P2 M2 I2 Q2].
    split; [|congruence..|set_solver].
    intros w. specialize (T1 w). specialize (T2 w). rewrite C1 in T2.
    inversion T1 as [x y Hxy Ex Ey|Ex Ey]; rewrite <- Ey in T2;
      inversion T2 as [y' z Hyz Ey' Ez|Ey' Ez]; constructor. by eapply settles_trans.
Qed.

Lemma evolves_awake w s s' : evolves s s' → awake_or_closed w s → awake_or_closed w s'.
Proof.
  intros [T C _ _ _ Q] (x & Hx & Hd). specialize (T w). rewrite Hx in T.
  inversion T as [y x' [Hx' _] Ey Ex'|]; subst. exists x'. split; [done|].
  unfold will_poll in *. rewrite Hx', C. simpl. naive_solver.
Qed.

Lemma table_waiter w f s w' :
  s_table (st_waiter w f s) !! w' =
    if decide (w = w') then f <$> s_table s !! w' else s_table s !! w'.
Proof. simpl. rewrite list_lookup_alter. by destruct (decide (w = w')) as [->|]. Qed.

Lemma states_lookup s w : states s !! w = state_of w s.
Proof. unfold states, state_of. by rewrite list_lookup_fmap. Qed.

Lemma states_with_state w v s : states (st_waiter w (with_state v) s) = <[w := v]> (states s).
Proof.
  apply list_eq. intros w'. unfold states. rewrite list_lookup_fmap, table_waiter.
  destruct (decide (w = w')) as [->|Hne].
  - rewrite <- list_lookup_fmap. destruct (decide (w' < length (s_table s))) as [Hlt|Hge].
    + rewrite list_lookup_insert_eq by (by rewrite length_fmap).
      rewrite list_lookup_fmap. apply lookup_lt_is_Some in Hlt as [x ->]. done.
    + rewrite !lookup_ge_None_2; [done|rewrite length_insert, length_fmap; lia|].
      rewrite length_fmap. lia.
  - by rewrite list_lookup_insert_ne, list_lookup_fmap.
Qed.

Lemma states_same w f s :
  (∀ x, w_state (f x) = w_state x) → states (st_waiter w f s) = states s.
Proof.
  intros Hf. apply list_eq. intros w'. unfold states. rewrite !list_lookup_fmap, table_waiter.
  destruct (decide (w = w')) as [->|]; [|done].
  destruct (s_table s !! w'); simpl; [by rewrite Hf|done].
Qed.

(** A change that keeps every waiter's state and the counters. *)
Lemma sound_frame s s' : evolves s s' → acct_of s' = acct_of s → sound s → sound s'.
Proof.
  intros He Ha [Hac Hg Ht].
  assert (Hst : ∀ w, state_of w s' = state_of w s).
  { intros w. rewrite <- !states_lookup. pose proof (f_equal ac_states Ha) as Hs. simpl in Hs. by rewrite Hs. }
  split.
  - by rewrite Ha.
  - intros w Hw. rewrite Hst in Hw. destruct (Hg w Hw) as [?|?].
    + left. by eapply evolves_awake.
    + right. by apply (ev_pending _ _ He).
  - intros w x' Hx' Hop. pose proof (ev_table _ _ He w) as T. rewrite Hx' in T.
    inversion T as [x y [Hy _] Ex Ey|]; subst. specialize (Hst w).
    unfold state_of in Hst. rewrite Hx', <- Ex in Hst. simpl in Hst. injection Hst as Hst.
    rewrite Hy, Hst in Hop |- *. rewrite (ev_closed _ _ He) in Hop. simpl in *. by apply (Ht w x).
Qed.

(** A queued waiter is granted, with its delivery scheduled, or dropped with
    its closed loop. *)
Lemma sound_settle w v s s' :
  sound s → state_of w s = Some Queued → acct_ok (acct_of s') →
  s_table s' = alter (with_state v) w (s_table s) → s_closed s' = s_closed s →
  s_permits s' = s_permits s → g_max_in_flight (s_group s') = g_max_in_flight (s_group s) →
  g_interval (s_group s') = g_interval (s_group s) → s_pending s ⊆ s_pending s' →
  (v = Granted ∧ CbDeliver w ∈ s_pending s' ∨
   v = Cancelled ∧ ∀ x, s_table s !! w = Some x → w_loop x ∈ s_closed s) →
  sound s' ∧ evolves s s'.
Proof.
  intros [Hac Hg Ht] Hq Hac' Htab Hcl Hpm Hmx Hin Hpd Hv.
  assert (Hlk : ∀ w', s_table s' !! w' =
    if decide (w = w') then with_state v <$> s_table s !! w' else s_table s !! w').
  { intros w'. by rewrite Htab, <- (table_waiter w (with_state v) s w'). }
  unfold state_of in Hq. destruct (s_table s !! w) as [x|] eqn:Hx; [|done]. injection Hq as Hq.
  assert (He : evolves s s').
  { split; try done. intros w'. rewrite Hlk. destruct (decide (w = w')) as [<-|Hne].
    - rewrite Hx. constructor. split; [by destruct x|]. right. simpl. naive_solver.
    - destruct (s_table s !! w'); constructor. apply settles_refl. }
  split; [split; [done| |]|done].
  - intros w' Hw'. unfold state_of in Hw'. rewrite Hlk in Hw'.
    destruct (decide (w = w')) as [<-|Hne].
    + rewrite Hx in Hw'. simpl in Hw'. injection Hw' as ->. destruct Hv as [[_ ?]|[? _]]; [by right|done].
    + destruct (Hg w' Hw') as [?|?]; [left; by eapply evolves_awake|right; by apply Hpd].
  - intros w' x' Hx' Hop. rewrite Hlk in Hx'. rewrite Hcl in Hop.
    destruct (decide (w = w')) as [<-|Hne]; [|by apply (Ht w' x')].
    rewrite Hx in Hx'. injection Hx' as <-. simpl in *.
    destruct Hv as [[-> _]|[-> Hc]]; [|by destruct (Hop (Hc _ eq_refl))].
    destruct (Ht w x Hx Hop) as [H1 H2]. split; [auto|by right].
Qed.

Lemma call_soon_Some w cb s s' :
  call_soon w cb s = Some s' →
  s' = st_pending (s_pending s ++ [cb]) s ∧ ∃ x, s_table s !! w = Some x ∧ w_loop x ∉ s_closed s.
Proof.
  unfold call_soon. destruct (s_table s !! w) as [x|]; [|done]. case_bool_decide; [done|].
  intros [= <-]. eauto.
Qed.

Lemma call_soon_None w cb s x :
  call_soon w cb s = None → s_table s !! w = Some x → w_loop x ∈ s_closed s.
Proof. unfold call_soon. intros Hc Hx. rewrite Hx in Hc. by case_bool_decide. Qed.

Lemma evolves_pending cb s : evolves s (st_pending (s_pending s ++ [cb]) s).
Proof.
  split; try done.
  - intros w. simpl. destruct (s_table s !! w); constructor. apply settles_refl.
  - simpl. set_solver.
Qed.

Lemma sound_head_queued s w ws :
  sound s → g_waiters (s_group s) = w :: ws → state_of w s = Some Queued.
Proof.
  intros [Hac _ _] Hws. rewrite <- states_lookup. apply (fifo_head Queued (eq Cancelled) w ws). pose proof (ok_fifo _ Hac) as Hf. simpl in Hf. by rewrite Hws in Hf.
Qed.

Lemma sound_drop s w ws :
  sound s → g_waiters (s_group s) = w :: ws →
  (∀ x, s_table s !! w = Some x → w_loop x ∈ s_closed s) →
  let s' := st_waiter w (with_state Cancelled) (pop_to ws s) in sound s' ∧ evolves s s'.
Proof.
  intros Hs Hws Hc s'. apply (sound_settle w Cancelled); try done; [by eapply sound_head_queued| |auto].
  replace (acct_of s') with (mk_acct (ac_max (acct_of s)) (ac_active (acct_of s))
    (ac_queued (acct_of s) - 1) ws (<[w := Cancelled]> (ac_states (acct_of s))) (ac_permits (acct_of s))).
  - apply acct_drop; [apply Hs|done].
  - unfold s', acct_of. by rewrite states_with_state.
Qed.

(** ** [_wake_head_locked] *)

Definition same_pace (s s' : st) : Prop :=
  g_next_admission (s_group s') = g_next_admission (s_group s) ∧ s_admitted s' = s_admitted s.

Lemma wake_loop_spec ws s :
  sound s → g_waiters (s_group s) = ws →
  let s' := wake_loop ws s in
  sound s' ∧ evolves s s' ∧ same_pace s s' ∧ s_tick s' = s_tick s ∧
  not_before (s_group s') = not_before (s_group s) ∧
  g_active (s_group s') = g_active (s_group s) ∧
  (∀ h rest, g_waiters (s_group s') = h :: rest → woken h s') ∧
  length (g_waiters (s_group s')) <= length ws.
Proof.
  revert s. induction ws as [|w ws IH]; intros s Hs Hws; cbn [wake_loop].
  { split_and!; try done. rewrite Hws. by intros. simpl; by rewrite Hws. }
  destruct (call_soon w (CbSet w) s) as [s1|] eqn:Hc.
  - apply call_soon_Some in Hc as [-> (x & Hx & Hop)].
    split_and!; try done; [by eapply sound_frame; [apply evolves_pending| |]
      |apply evolves_pending| |simpl; by rewrite Hws].
    intros h rest Hh. simpl in Hh. rewrite Hws in Hh. injection Hh as <- <-.
    split; [by exists x|]. simpl. set_solver.
  - destruct (sound_drop s w ws Hs Hws (λ x, call_soon_None _ _ _ x Hc)) as [Hs1 He1].
    set (s1 := st_waiter w (with_state Cancelled) (pop_to ws s)) in *.
    destruct (IH s1 Hs1 eq_refl) as (? & ? & [??] & ? & ? & ? & ? & ?).
    split_and!; try done; [by etransitivity|simpl; lia].
Qed.

Lemma wake_head_spec s :
  sound s →
  let s' := wake_head s in
  sound s' ∧ evolves s s' ∧ same_pace s s' ∧ s_tick s' = s_tick s ∧
  not_before (s_group s') = not_before (s_group s) ∧
  g_active (s_group s') = g_active (s_group s) ∧
  (∀ h rest, g_waiters (s_group s') = h :: rest → woken h s') ∧
  length (g_waiters (s_group s')) <= length (g_waiters (s_group s)).
Proof. intros Hs. by apply wake_loop_spec. Qed.

(** ** Pacing *)

(** Consecutive admissions are at least one interval apart: none happens at a
    time before the previous one plus the interval. *)
Definition gaps (interval : pyfloat) (l : list pyfloat) : Prop :=
  ∀ l1 t1 t2 l2, l = l1 ++ t1 :: t2 :: l2 → f_lt t2 (f_add t1 interval) = false.

Definition paced (s : st) : Prop :=
  gaps (g_interval (s_group s)) (s_admitted s) ∧
  ∀ t, last (s_admitted s) = Some t →
    g_next_admission (s_group s) = f_add t (g_interval (s_group s)).

Lemma gaps_snoc i l t :
  gaps i l → (∀ t', last l = Some t' → f_lt t (f_add t' i) = false) → gaps i (l ++ [t]).
Proof.
  intros Hg Ht l1 t1 t2 l2 Heq. destruct l2 as [|x l2 _] using rev_ind.
  - assert (l = l1 ++ [t1] ∧ t = t2) as [-> ->].
    { change (l1 ++ [t1; t2]) with (l1 ++ ([t1] ++ [t2])) in Heq. rewrite app_assoc in Heq.
      by apply app_inj_tail in Heq. }
    apply Ht. by rewrite last_snoc.
  - change (l1 ++ t1 :: t2 :: l2 ++ [x]) with (l1 ++ (t1 :: t2 :: l2) ++ [x]) in Heq.
    rewrite app_assoc in Heq. apply app_inj_tail in Heq as [-> _]. by eapply Hg.
Qed.

Lemma paced_frame s s' : same_pace s s' → evolves s s' → paced s → paced s'.
Proof. intros [Hn Ha] He [Hg Hl]. unfold paced. by rewrite Hn, Ha, (ev_interval _ _ He). Qed.

(** An admission at [t], not before the gate, keeps the pace. *)
Lemma paced_admit t s s' :
  paced s → f_lt t (not_before (s_group s)) = false →
  g_interval (s_group s') = g_interval (s_group s) → s_admitted s' = s_admitted s ++ [t] →
  g_next_admission (s_group s') = f_add t (g_interval (s_group s)) → paced s'.
Proof.
  intros [Hg Hl] Hgate Hi Ha Hn. apply f_lt_max_l in Hgate. split.
  - rewrite Hi, Ha. apply gaps_snoc; [done|]. intros t' Ht'. by rewrite <- Hl.
  - intros t'. rewrite Ha, last_snoc. intros [= <-]. by rewrite Hn, Hi.
Qed.

(** ** [_pump_locked] *)
Section Runs.
Variable clock : nat → pyfloat.

(** [time.monotonic()] does not go backwards. *)
Definition monotone_clock : Prop := ∀ i, f_le (clock i) (clock (S i)) = true.

Hypothesis Hclock : monotone_clock.

Lemma alter_settle_twice w u v (l : list waiter) :
  alter (with_state v) w (alter (with_state u) w l) = alter (with_state v) w l.
Proof.
  apply list_eq. intros w'. rewrite !list_lookup_alter.
  destruct (decide (w = w')) as [<-|]; [|done]. rewrite decide_True by done.
  by destruct (l !! w).
Qed.

Lemma evolves_tick s : evolves s (st_tick s).
Proof.
  split; try done. intros w. simpl. destruct (s_table s !! w); constructor. apply settles_refl.
Qed.

Lemma pump_loop_spec fuel s :
  sound s → paced s → length (g_waiters (s_group s)) <= fuel →
  let s' := pump_loop clock fuel s in
  sound s' ∧ evolves s s' ∧ paced s' ∧
  (head_awake s ∨ f_lt (now clock s) (not_before (s_group s)) = false → head_awake s').
Proof.
  revert s. induction fuel as [|fuel IH]; intros s Hs Hp Hlen; cbn [pump_loop].
  { split_and!; try done. intros _ h ws Hh. by rewrite Hh in Hlen; simpl in Hlen; lia. }
  destruct (g_waiters (s_group s)) as [|w ws] eqn:Hws.
  { split_and!; try done. intros _ h ws' Hh. by rewrite Hws in Hh. }
  destruct (g_active (s_group s) <? g_max_in_flight (s_group s))%Z eqn:Hact; cycle 1.
  { split_and!; try done. intros _ h ws' _ Hlt. apply Z.ltb_ge in Hact. lia. }
  apply Z.ltb_lt in Hact. cbv zeta. change (s_group (st_tick s)) with (s_group s).
  destruct (f_lt (now clock s) (not_before (s_group s))) eqn:Hg.
  { split_and!; [by eapply sound_frame; [apply evolves_tick| |]
      |apply evolves_tick|done|]. intros [Hh|?]; [|done]. intros h ws' Hw' Hlt. eapply evolves_awake; [apply evolves_tick|].
    by eapply Hh. }
  pose proof (acct_grant (acct_of s) w ws (so_acct _ Hs) Hws Hact) as Hgr.
  pose proof (sound_head_queued _ _ _ Hs Hws) as Hq.
  set (s3 := st_group _ (st_waiter w (with_state Granted) (pop_to ws (st_tick s)))).
  destruct (call_soon w (CbDeliver w) s3) as [s4|] eqn:Hc.
  - apply call_soon_Some in Hc as [-> _].
    set (s5 := st_admit (now clock s) _).
    destruct (sound_settle w Granted s s5 Hs Hq) as [Hs5 He5]; try done.
    { replace (acct_of s5) with (mk_acct (ac_max (acct_of s)) (ac_active (acct_of s) + 1)
        (ac_queued (acct_of s) - 1) ws (<[w := Granted]> (ac_states (acct_of s)))
        (ac_permits (acct_of s))); [done|]. simpl. by rewrite <- states_with_state. }
    { simpl. set_solver. }
    { left. split; [done|]. simpl. set_solver. }
    assert (Hp5 : paced s5) by (by eapply paced_admit).
    destruct (wake_head_spec s5 Hs5) as (Hs6 & He6 & Hpc & _ & _ & _ & Hh & Hl6).
    destruct (IH (wake_head s5) Hs6) as (Hs7 & He7 & Hp7 & Hh7).
    + by eapply paced_frame.
    + simpl in *. lia.
    + split_and!; try done; [etransitivity; [done|]; by etransitivity|].
      intros _. apply Hh7. left. intros h rest Hr _. by eapply woken_awake, Hh.
  - set (s5 := st_group _ (st_waiter w (with_state Cancelled) s3)).
    destruct (sound_settle w Cancelled s s5 Hs Hq) as [Hs5 He5]; try done.
    { replace (acct_of s5) with (mk_acct (ac_max (acct_of s)) (ac_active (acct_of s))
        (ac_queued (acct_of s) - 1) ws (<[w := Cancelled]> (ac_states (acct_of s)))
        (ac_permits (acct_of s))); [by apply acct_drop; [apply Hs|]|].
      unfold s5, acct_of, st_group, s3. simpl. f_equal; [lia|].
      rewrite <- states_with_state. unfold states. simpl. by rewrite alter_settle_twice. }
    { simpl. by rewrite alter_settle_twice. }
    { right. split; [done|]. intros x Hx.
      eapply (call_soon_None _ _ _ (with_state Granted x)) in Hc; [done|].
      unfold s3. simpl. by rewrite list_lookup_alter_eq, Hx. }
    destruct (IH s5 Hs5) as (Hs7 & He7 & Hp7 & Hh7); [done|simpl in *; lia|].
    split_and!; try done; [by etransitivity|]. intros _. apply Hh7. right.
    apply not_true_is_false. intros Hlt.
    assert (f_lt (now clock s) (not_before (s_group s)) = true); [|congruence].
    eapply f_le_lt_trans; [apply Hclock|exact Hlt].
Qed.

Lemma pump_spec s :
  sound s → paced s →
  let s' := pump clock s in
  sound s' ∧ evolves s s' ∧ paced s' ∧ (head_awake s → head_awake s').
Proof.
  intros Hs Hp. destruct (pump_loop_spec _ s Hs Hp (le_n _)) as (? & ? & ? & ?). naive_solver.
Qed.

(** ** The operations *)

Record good (s : st) : Prop := mk_good {
  go_sound : sound s;
  go_paced : paced s;
  go_head : head_awake s;
}.

(** Whoever is first in the queue has been woken. *)
Definition head_woken (s : st) : Prop := ∀ h ws, g_waiters (s_group s) = h :: ws → woken h s.

Lemma head_woken_awake s : head_woken s → head_awake s.
Proof. intros H h ws Hw _. by eapply woken_awake, H. Qed.

(** Giving a slot back cannot underflow and leaves a good state. *)
Lemma release_spec s :
  let s0 := st_group (λ g, with_active (g_active g - 1) g) s in
  sound s0 → paced s0 → (0 < g_active (s_group s))%Z →
  ∃ s', release clock s = Ok s' ∧ good s' ∧ evolves s0 s' ∧ head_woken s'.
Proof.
  intros s0 Hs Hp Hpos. unfold release. destruct (Z.leb_spec (g_active (s_group s)) 0); [lia|].
  fold s0. destruct (pump_spec s0 Hs Hp) as (Hs1 & He1 & Hp1 & _).
  destruct (wake_head_spec _ Hs1) as (Hs2 & He2 & Hpc & _ & _ & _ & Hh & _).
  eexists. split; [done|]. split_and!; [|by etransitivity|done].
  split; [done|by eapply paced_frame|]. by apply head_woken_awake.
Qed.

Lemma table_frame s s' :
  s_table s' = s_table s → s_closed s' = s_closed s → s_permits s' = s_permits s →
  g_max_in_flight (s_group s') = g_max_in_flight (s_group s) →
  g_interval (s_group s') = g_interval (s_group s) → s_pending s ⊆ s_pending s' → evolves s s'.
Proof.
  intros Ht ?????. split; try done. intros w. rewrite Ht.
  destruct (s_table s !! w); constructor. apply settles_refl.
Qed.

(** [sound] of a state with the same waiters and another accounting. *)
Lemma sound_acct s s' :
  s_table s' = s_table s → s_closed s' = s_closed s → s_pending s' = s_pending s →
  acct_ok (acct_of s') → sound s → sound s'.
Proof.
  intros Ht Hc Hp Ha [_ Hg Hk]. split; [done| |].
  - intros w. unfold state_of, awake_or_closed, will_poll. rewrite Ht, Hc, Hp. apply Hg.
  - intros w x. rewrite Ht, Hc. apply Hk.
Qed.

Lemma awake_same w s s' :
  s_table s' = s_table s → s_closed s' = s_closed s → s_pending s' = s_pending s →
  awake_or_closed w s → awake_or_closed w s'.
Proof. unfold awake_or_closed, will_poll. by intros -> -> ->. Qed.

Lemma permit_release_good p s :
  good s → p < length (s_permits s) →
  ∃ s', permit_release clock p s = Ok s' ∧ good s' ∧ (s_permits s !! p = Some false → head_woken s').
Proof.
  intros [Hs Hp Hh] Hlt. unfold permit_release.
  destruct (lookup_lt_is_Some_2 _ _ Hlt) as [[] Hlk]; rewrite Hlk; [by eexists|].
  set (s1 := st_permits (<[p := true]> (s_permits s)) s).
  destruct (release_spec s1) as (s' & -> & Hg & _ & Hw); [| | |by exists s'].
  - eapply sound_acct; [..|exact Hs]; try done. by apply (acct_release (acct_of s)), Hlk; apply Hs.
  - done.
  - simpl. pose proof (so_acct _ Hs) as Hok. pose proof (ok_active _ Hok) as Ha. simpl in Ha.
    rewrite Ha. pose proof (count_nonneg is_granted (states s)).
    pose proof (count_pos negb (s_permits s) p false Hlk eq_refl). lia.
Qed.

(** A permit is handed out in a good state, or returned when the observer
    fails. *)
Lemma permit_with_observation_good observed s :
  good (st_permits (s_permits s ++ [false]) s) →
  ∃ r s', permit_with_observation clock observed s = Ok (r, s') ∧ good s' ∧
    is_ok r = observed.
Proof.
  intros Hg. unfold permit_with_observation. destruct observed; [by eexists _, _|].
  destruct (permit_release_good (length (s_permits s)) _ Hg) as (s' & -> & Hg' & _).
  - simpl. rewrite length_app. simpl. lia.
  - by eexists _, _.
Qed.

Lemma acquire_enter_good loop started s :
  good s →
  match acquire_enter clock loop started s with
  | (inl _, s1) => good (st_permits (s_permits s1 ++ [false]) s1)
  | (inr w, s1) => good s1
  end.
Proof.
  intros [Hs Hp Hh]. unfold acquire_enter. cbv zeta. change (s_group (st_tick s)) with (s_group s).
  destruct (_ && _ && _)%bool eqn:Hcond.
  - apply andb_prop in Hcond as [[Hact%Z.ltb_lt Hemp%bool_decide_eq_true]%andb_prop Hgate%f_le_not_lt].
    split.
    + eapply sound_acct; [..|exact Hs]; try done. by apply (acct_immediate (acct_of s)); [apply Hs|].
    + by eapply paced_admit.
    + intros h ws Hw. simpl in Hw. by rewrite Hemp in Hw.
  - assert (Hst : ∀ w, w < length (s_table s) →
      (s_table s ++ [mk_waiter loop false started (g_queued (s_group s) + 1) Queued TaskReady]) !! w =
      s_table s !! w) by (intros; by rewrite lookup_app_l).
    set (s' := st_group _ _).
    assert (Haw : ∀ w, awake_or_closed w s → awake_or_closed w s').
    { intros w (x & Hx & Hd). exists x. split; [|done]. simpl.
      by rewrite Hst by (by eapply lookup_lt_Some). }
    split; [split| |].
    + replace (acct_of s') with (mk_acct (ac_max (acct_of s)) (ac_active (acct_of s))
        (ac_queued (acct_of s) + 1) (ac_waiters (acct_of s) ++ [length (ac_states (acct_of s))])
        (ac_states (acct_of s) ++ [Queued]) (ac_permits (acct_of s))); [apply acct_enqueue, Hs|].
      unfold acct_of, states. simpl. by rewrite fmap_app, length_fmap.
    + intros w Hw. unfold state_of in Hw. simpl in Hw.
      destruct (decide (w < length (s_table s))) as [Hlt|Hge].
      * rewrite Hst in Hw by done. destruct (so_granted _ Hs w Hw); [left; auto|by right].
      * rewrite lookup_app_r in Hw by lia. destruct (w - _); simpl in Hw; done.
    + intros w x Hx Hop. simpl in Hx. apply lookup_app_Some in Hx as [Hx|[_ Hx]].
      * by apply (so_task _ Hs w x).
      * apply list_lookup_singleton_Some in Hx as [_ <-]. simpl. split; [done|auto].
    + done.
    + intros h ws Hw Hlt. simpl in Hw.
      destruct (g_waiters (s_group s)) as [|h' ws'] eqn:Eq; simpl in Hw; injection Hw as <- <-.
      * eexists. split; [simpl; by rewrite lookup_app_r, Nat.sub_diag by lia|]. unfold will_poll. simpl. tauto.
      * apply Haw. by eapply Hh.
Qed.

(** Changing only the event and the task of a waiter that stays queued. *)
Lemma sound_waiter w f s :
  sound s → state_of w s = Some Queued → (∀ x, w_state (f x) = w_state x) →
  (∀ x, w_loop (f x) = w_loop x) → (∀ x, w_task (f x) ≠ TaskDone) →
  sound (st_waiter w f s).
Proof.
  intros [Ha Hg Ht] Hq Hst Hlp Htk. split.
  - unfold acct_of. by rewrite states_same.
  - intros w' Hw'. unfold state_of in Hw'. rewrite table_waiter in Hw'.
    destruct (decide (w = w')) as [<-|Hne].
    + exfalso. unfold state_of in Hq. destruct (s_table s !! w); simpl in *; [|done].
      rewrite Hst in Hw'. congruence.
    + destruct (Hg w' Hw') as [(x & Hx & Hd)|?]; [left|by right]. exists x. split; [|done].
      by rewrite table_waiter, decide_False.
  - intros w' x' Hx' Hop. rewrite table_waiter in Hx'.
    destruct (decide (w = w')) as [<-|Hne]; [|by apply (Ht w' x')].
    unfold state_of in Hq. destruct (s_table s !! w) as [x|]; simpl in *; [|done].
    injection Hx' as <-. rewrite Hst. injection Hq as ->. split; [done|auto].
Qed.

Lemma awake_other w w' f s : w ≠ w' → awake_or_closed w' s → awake_or_closed w' (st_waiter w f s).
Proof.
  intros Hne (x & Hx & Hd). exists x. split; [|done]. by rewrite table_waiter, decide_False.
Qed.

(** A waiter inside [_wait_for_grant] on an open loop is queued or granted. *)
Lemma waiting_spec w s :
  sound s → waiting w s = true →
  ∃ x, s_table s !! w = Some x ∧ w_loop x ∉ s_closed s ∧ w_task x ≠ TaskDone ∧
    (w_state x = Queued ∨ w_state x = Granted).
Proof.
  intros Hs. unfold waiting. destruct (s_table s !! w) as [x|] eqn:Hx; [|done].
  intros [Hop%bool_decide_eq_true Htk]%andb_prop. exists x.
  assert (w_task x ≠ TaskDone) by (by destruct (w_task x)).
  split_and!; try done. by apply (so_task _ Hs w x).
Qed.

Lemma runnable_waiting w s : runnable w s = true → waiting w s = true.
Proof.
  unfold runnable, waiting. destruct (s_table s !! w) as [x|]; [|done].
  intros [-> ?]%andb_prop. by destruct (w_task x).
Qed.

(** The group's own code leaves a waiter on an open loop queued or granted. *)
Lemma evolves_open w x s s' :
  evolves s s' → s_table s !! w = Some x → w_loop x ∉ s_closed s →
  (w_state x = Queued ∨ w_state x = Granted) →
  state_of w s' = Some Queued ∨ state_of w s' = Some Granted.
Proof.
  intros He Hx Hop Hst. pose proof (ev_table _ _ He w) as T. rewrite Hx in T.
  inversion T as [x0 x' [Hx' Hd] E1 E2|]; subst. unfold state_of. rewrite <- E2. simpl.
  destruct Hd as [Hd|[_ [Hd|[_ Hc]]]]; [|by rewrite Hd; right|done].
  rewrite Hd. destruct Hst as [-> | ->]; auto.
Qed.

Lemma poll_good w s :
  good s → runnable w s = true →
  match poll clock w s with
  | (PollAcquired, s1) => good (st_permits (s_permits s1 ++ [false]) s1)
  | (PollWaits, s1) => good s1
  | (PollIndexError, _) => False
  end.
Proof.
  intros [Hs Hp Hh] Hrun. destruct (waiting_spec w s Hs (runnable_waiting _ _ Hrun)) as (x & Hx & Hop & _ & Hst).
  unfold poll. destruct (pump_spec s Hs Hp) as (Hs1 & He1 & Hp1 & Hh1). specialize (Hh1 Hh).
  pose proof (evolves_open _ _ _ _ He1 Hx Hop Hst) as Hst1. clear Hx Hop Hst Hrun x.
  set (s1 := pump clock s) in *. clearbody s1. cbv zeta. case_bool_decide as Hg.
  - assert (Hne : ∀ h ws, g_waiters (s_group s1) = h :: ws → w ≠ h).
    { intros h ws Hw ->. pose proof (sound_head_queued _ _ _ Hs1 Hw). congruence. }
    split; [split| |].
    + replace (acct_of _) with (mk_acct (ac_max (acct_of s1)) (ac_active (acct_of s1))
        (ac_queued (acct_of s1)) (ac_waiters (acct_of s1))
        (<[w := Acquired]> (ac_states (acct_of s1))) (ac_permits (acct_of s1) ++ [false])).
      * apply acct_claim; [apply Hs1|]. simpl. by rewrite states_lookup.
      * unfold acct_of. simpl. f_equal. rewrite <- states_with_state. unfold states. simpl.
        apply list_eq. intros i. rewrite !list_lookup_fmap, !list_lookup_alter.
        destruct (decide (w = i)); [|done]. by destruct (s_table s1 !! w).
    + intros w' Hw'. destruct (decide (w = w')) as [<-|Hn].
      * exfalso. unfold state_of in Hw'. cbn [st_permits s_table] in Hw'.
        rewrite table_waiter, decide_True in Hw' by done. by destruct (s_table s1 !! w).
      * unfold state_of in Hw'. cbn [st_permits s_table] in Hw'.
        rewrite table_waiter, decide_False in Hw' by done.
        destruct (so_granted _ Hs1 w' Hw') as [?|?]; [left|by right].
        eapply (awake_same w' (st_waiter w _ s1)); [done..|]. by apply awake_other.
    + intros w' x' Hx' Hop. cbn [st_permits s_table] in Hx'. rewrite table_waiter in Hx'.
      destruct (decide (w = w')) as [<-|Hn]; [|by apply (so_task _ Hs1 w' x')].
      destruct (s_table s1 !! w); [|done]. injection Hx' as <-. simpl. naive_solver.
    + done.
    + intros h ws Hw Hlt. eapply (awake_same h (st_waiter w _ s1)); [done..|].
      apply awake_other; [by eapply Hne|]. by eapply Hh1.
  - destruct Hst1 as [Hq|]; [|done].
    assert (Hin : w ∈ g_waiters (s_group s1)).
    { apply (fi_queued _ _ _ _ (ok_fifo _ (so_acct _ Hs1))). simpl. by rewrite states_lookup. }
    change (s_group (st_waiter w (with_set false) s1)) with (s_group s1).
    assert (Hs2 : ∀ t, t ≠ TaskDone →
      sound (st_waiter w (with_task t) (st_waiter w (with_set false) s1))).
    { intros t Ht. replace (st_waiter w (with_task t) (st_waiter w (with_set false) s1)) with
        (st_waiter w (λ x, with_task t (with_set false x)) s1); [by apply sound_waiter|].
      unfold st_waiter. simpl. f_equal. apply list_eq. intros i. rewrite !list_lookup_alter.
      destruct (decide (w = i)) as [<-|]; [|done]. rewrite decide_True by done.
      by destruct (s_table s1 !! w). }
    destruct (g_waiters (s_group s1)) as [|h ws] eqn:Hw; [by apply not_elem_of_nil in Hin|].
    destruct (bool_decide (h = w) && _)%bool eqn:Hc.
    + apply andb_prop in Hc as [->%bool_decide_eq_true Hlt]. split; [|done|].
      * eapply (sound_frame (st_waiter w (with_task (TaskBlocked _)) (st_waiter w (with_set false) s1)));
          [by apply table_frame|done|]. by apply Hs2.
      * intros h ws' Hw' _. simpl in Hw'. rewrite Hw in Hw'. injection Hw' as <- <-.
        unfold state_of in Hq. destruct (s_table s1 !! w) as [x|] eqn:Hx; [|done].
        eexists. cbn [st_waiter st_tick s_table]. rewrite !list_lookup_alter_eq, Hx. split; [done|]. unfold will_poll. simpl. eauto.
    + split; [by apply Hs2|done|]. intros h' ws' Hw' Hlt. simpl in Hw', Hlt. rewrite Hw in Hw'.
      injection Hw' as <- <-. apply andb_false_iff in Hc as [Hc|Hc].
      * apply bool_decide_eq_false in Hc. do 2 (apply awake_other; [done|]). by eapply Hh1.
      * apply Z.ltb_ge in Hc. lia.
Qed.

(** A waiter that leaves the queue or gives up its grant. *)
Lemma cancel_sound w s s' :
  sound s → acct_ok (acct_of s') →
  (∀ w', w ≠ w' → s_table s' !! w' = s_table s !! w') →
  (∀ x, s_table s' !! w = Some x → w_state x = Cancelled ∧ w_task x = TaskDone) →
  s_closed s' = s_closed s → s_pending s' = s_pending s → sound s'.
Proof.
  intros [_ Hg Ht] Ha Hother Hw Hc Hp. split; [done| |].
  - intros w' Hw'. unfold state_of in Hw'. destruct (decide (w = w')) as [<-|Hne].
    + exfalso. destruct (s_table s' !! w) as [x|] eqn:Hx; [|done].
      destruct (Hw x eq_refl) as [Hxc _]. simpl in Hw'. by rewrite Hxc in Hw'.
    + rewrite Hother in Hw' by done. unfold awake_or_closed, will_poll. rewrite Hother, Hc, Hp by done. by apply Hg.
  - intros w' x Hx Hop. rewrite Hc in Hop. destruct (decide (w = w')) as [<-|Hne].
    + destruct (Hw x Hx) as [-> ->]. naive_solver.
    + rewrite Hother in Hx by done. by apply (Ht w' x).
Qed.

Lemma cancel_waiter_good w s :
  good s → waiting w s = true → ∃ s', cancel_waiter clock w s = Ok s' ∧ good s' ∧ head_woken s'.
Proof.
  intros [Hs Hp Hh] Hw. destruct (waiting_spec w s Hs Hw) as (x & Hx & Hop & _ & Hst).
  unfold cancel_waiter.
  assert (Hst0 : ∀ v, state_of w (st_waiter w (with_task v) s) = Some (w_state x)).
  { intros v. unfold state_of. by rewrite table_waiter, decide_True, Hx by done. }
  rewrite Hst0. set (s1 := st_waiter w (with_state Cancelled) (st_waiter w (with_task TaskDone) s)).
  assert (Hother : ∀ w', w ≠ w' → s_table s1 !! w' = s_table s !! w').
  { intros w' Hne. unfold s1. by rewrite !table_waiter, !decide_False by done. }
  assert (Hself : ∀ y, s_table s1 !! w = Some y → w_state y = Cancelled ∧ w_task y = TaskDone).
  { unfold s1. rewrite !table_waiter, !decide_True by done. rewrite Hx. by intros y [= <-]. }
  assert (Hstates : states s1 = <[w := Cancelled]> (states s)).
  { unfold s1. rewrite states_with_state. by rewrite states_same by done. }
  assert (Hlk : states s !! w = Some (w_state x)).
  { rewrite states_lookup. unfold state_of. by rewrite Hx. }
  destruct Hst as [Hst|Hst]; rewrite Hst in *.
  - set (s2 := st_group _ s1). eexists. split; [done|].
    assert (Hs2 : sound s2).
    { apply (cancel_sound w s); try done. unfold s2, acct_of.
      change (states (st_group _ s1)) with (states s1). rewrite Hstates.
      by apply (acct_cancel_queued (acct_of s)); [apply Hs|]. }
    destruct (wake_head_spec s2 Hs2) as (Hs3 & He & Hpc & _ & _ & _ & Hh3 & _).
    split; [|done]. split; [done|by eapply paced_frame|]. by apply head_woken_awake.
  - pose proof (acct_revoke (acct_of s) w (so_acct _ Hs) Hlk) as Hac.
    destruct (release_spec s1) as (s' & -> & Hg & _ & Hwk); [|done| |by eexists].
    + apply (cancel_sound w s); try done. unfold acct_of.
      change (states (st_group _ s1)) with (states s1). by rewrite Hstates.
    + pose proof (ok_active _ (so_acct _ Hs)) as Ha. simpl in Ha |- *. rewrite Ha.
      pose proof (count_pos is_granted (states s) w Granted Hlk eq_refl).
      pose proof (count_nonneg negb (s_permits s)). lia.
Qed.

Lemma group_cooldown_good delay s :
  good s → good (group_cooldown clock delay s) ∧
    (g_max_cooldown (s_group s) ≠ None → head_woken (group_cooldown clock delay s)).
Proof.
  intros [Hs Hp Hh]. unfold group_cooldown. destruct (g_max_cooldown (s_group s)) as [m|]; [|done].
  cbv zeta. set (s1 := st_group _ (st_tick s)).
  assert (Hs1 : sound s1) by (by apply (sound_frame s s1); [apply table_frame| |]).
  destruct (wake_head_spec s1 Hs1) as (Hs3 & He & Hpc & _ & _ & _ & Hh3 & _).
  split; [|done]. split; [done|by eapply paced_frame|]. by apply head_woken_awake.
Qed.

(** Running a scheduled callback turns a scheduled wakeup into a set event. *)
Lemma run_callback_awake cb w s :
  awake_or_closed w s → awake_or_closed w (run_callback cb (st_pending (discard_first cb (s_pending s)) s)).
Proof.
  intros (x & Hx & Hd). destruct cb as [w'|w']; simpl.
  - destruct (decide (w' = w)) as [->|Hne].
    + eexists. simpl. rewrite list_lookup_alter_eq, Hx. split; [done|]. unfold will_poll. simpl. tauto.
    + exists x. simpl. rewrite list_lookup_alter_ne by done. split; [done|].
      unfold will_poll. simpl. rewrite elem_of_discard_first_ne by congruence. done.
  - assert (H0 : awake_or_closed w (st_pending (discard_first (CbDeliver w') (s_pending s)) s)).
    { exists x. split; [done|]. unfold will_poll. simpl. by rewrite elem_of_discard_first_ne. }
    case_bool_decide; [|done]. destruct (decide (w' = w)) as [->|Hne]; [|by apply awake_other].
    eexists. simpl. rewrite list_lookup_alter_eq, Hx. split; [done|]. unfold will_poll. simpl. tauto.
Qed.

Lemma run_callback_table cb s w :
  ∃ b, (s_table (run_callback cb s) !! w) = (λ x, if (b : bool) then with_set true x else x) <$> s_table s !! w.
Proof.
  assert (Hs : ∀ w', ∃ b : bool, s_table (st_waiter w' (with_set true) s) !! w =
    (λ x, if b then with_set true x else x) <$> s_table s !! w).
  { intros w'. rewrite table_waiter. exists (bool_decide (w' = w)).
    case_decide; [by rewrite bool_decide_eq_true_2|rewrite bool_decide_eq_false_2 by done].
    by destruct (s_table s !! w). }
  destruct cb as [w'|w']; cbn [run_callback]; [apply Hs|]. case_bool_decide; [apply Hs|].
  exists false. by destruct (s_table s !! w).
Qed.

Lemma run_callback_good cb s :
  good s → callback_ready cb s = true →
  good (run_callback cb (st_pending (discard_first cb (s_pending s)) s)).
Proof.
  intros [Hs Hp Hh] _.
  set (s1 := st_pending (discard_first cb (s_pending s)) s). set (s2 := run_callback cb s1).
  assert (Hgrp : s_group s2 = s_group s ∧ s_closed s2 = s_closed s ∧ s_permits s2 = s_permits s ∧
    s_pending s2 = discard_first cb (s_pending s) ∧ s_admitted s2 = s_admitted s).
  { unfold s2. destruct cb; simpl; [done|]. by case_bool_decide. }
  destruct Hgrp as (Hgp & Hcl & Hpm & Hpd & Had).
  assert (Hst : ∀ w, state_of w s2 = state_of w s).
  { intros w. unfold state_of. destruct (run_callback_table cb s1 w) as [b Hb]. unfold s2. rewrite Hb.
    simpl. destruct (s_table s !! w); [|done]. by destruct b. }
  split; [split| |].
  - replace (acct_of s2) with (acct_of s); [apply Hs|]. unfold acct_of. rewrite Hgp, Hpm. f_equal.
    apply list_eq. intros w. by rewrite !states_lookup, Hst.
  - intros w Hw. rewrite Hst in Hw. destruct (so_granted _ Hs w Hw) as [Ha|Hin].
    + left. by apply run_callback_awake.
    + destruct (decide (cb = CbDeliver w)) as [->|Hne].
      * left. unfold s2. simpl. rewrite bool_decide_eq_true_2 by done. unfold state_of in Hw.
        destruct (s_table s !! w) as [x|] eqn:Hx; [|done].
        eexists. simpl. rewrite list_lookup_alter_eq, Hx. split; [done|]. unfold will_poll. simpl. tauto.
      * right. rewrite Hpd. by apply elem_of_discard_first_ne.
  - intros w x' Hx' Hop. rewrite Hcl in Hop. destruct (run_callback_table cb s1 w) as [b Hb].
    unfold s2 in Hx'. rewrite Hb in Hx'. simpl in Hx'.
    destruct (s_table s !! w) as [x|] eqn:Hx; [|done]. injection Hx' as <-.
    pose proof (so_task _ Hs w x Hx) as Ht. by destruct b; apply Ht.
  - unfold paced. rewrite Hgp, Had. apply Hp.
  - intros h ws Hw Hlt. rewrite Hgp in *. apply run_callback_awake. by eapply Hh.
Qed.

Lemma close_good l s : good s → good (st_close l s).
Proof.
  intros [Hs Hp Hh].
  assert (Haw : ∀ w, awake_or_closed w s → awake_or_closed w (st_close l s)).
  { intros w (x & Hx & Hd). exists x. split; [done|]. simpl. set_solver. }
  split; [split| |].
  - apply Hs.
  - intros w Hw. destruct (so_granted _ Hs w Hw); [left; auto|by right].
  - intros w x Hx Hop. apply (so_task _ Hs w x Hx). simpl in Hop. set_solver.
  - done.
  - intros h ws Hw Hlt. apply Haw. by eapply Hh.
Qed.

(** The steps that return a slot, free a place in the queue or move the gate. *)
Definition stirs (l : label) (s : st) : Prop :=
  match l with
  | LRelease p => s_permits s !! p = Some false
  | LCancel _ => True
  | LCooldown p _ => s_permits s !! p = Some false ∧ g_max_cooldown (s_group s) ≠ None
  | _ => False
  end.

(** Every step of a good state ends well, in a good state. *)
Lemma adm_step_good l s r :
  good s → step clock l s = Some r → ∃ s', r = Ok s' ∧ good s' ∧ (stirs l s → head_woken s').
Proof.
  intros Hg. destruct l as [loop at' obs|w obs|w|p|p d|cb|loop]; cbn [step].
  - destruct (open_loop loop s); [|done]. intros [= <-]. pose proof (acquire_enter_good loop at' s Hg) as He.
    destruct (acquire_enter clock loop at' s) as [[[]|w] s1]; [|naive_solver].
    destruct (permit_with_observation_good obs s1 He) as (r & s' & -> & Hg' & _). cbn [result_bind]. naive_solver.
  - destruct (runnable w s) eqn:Hr; [|done]. intros [= <-]. pose proof (poll_good w s Hg Hr) as He.
    destruct (poll clock w s) as [[] s1]; [|naive_solver|done].
    destruct (permit_with_observation_good obs s1 He) as (r & s' & -> & Hg' & _). cbn [result_bind]. naive_solver.
  - destruct (waiting w s) eqn:Hw; [|done]. intros [= <-].
    destruct (cancel_waiter_good w s Hg Hw) as (s' & -> & Hg' & Hk). naive_solver.
  - case_bool_decide as Hp; [|done]. intros [= <-].
    destruct (permit_release_good p s Hg Hp) as (s' & -> & Hg' & Hk). naive_solver.
  - intros [= <-]. eexists. split; [done|]. unfold permit_cooldown.
    cbn [stirs]. destruct (s_permits s !! p) as [[]|]; try (split; [done|by intros [??]]).
    destruct (group_cooldown_good d s Hg) as [Hg' Hk]. split; [done|]. intros [_ Hm]. by apply Hk.
  - destruct (callback_ready cb s) eqn:Hc; [|done]. intros [= <-]. eexists. split; [done|]. split; [|done].
    by apply run_callback_good.
  - intros [= <-]. eexists. split; [done|]. split; [|done]. by apply close_good.
Qed.

Lemma adm_new_good i d m rps mc : (0 < m)%Z → good (new_st (new_group i d m rps mc)).
Proof.
  intros Hm. split; [split; try done| |].
  - split; try done; [simpl; lia|apply fifo_nil].
  - split; [|done]. intros l1 t1 t2 l2. by destruct l1.
  - by intros h ws.
Qed.

Lemma adm_reachable_good i d m rps mc ls s :
  (0 < m)%Z → steps (adm_step clock) (new_st (new_group i d m rps mc)) ls s → good s.
Proof.
  intros Hm Hrun. eapply (steps_invariant (adm_step clock) good); [|by apply adm_new_good|exact Hrun].
  intros s0 l s1 Hg Hst. destruct (adm_step_good l s0 _ Hg Hst) as (s' & [= <-] & ? & _). done.
Qed.

(** ** The settings of a group never change *)

Definition settings (s : st) : Z * pyfloat * option pyfloat :=
  (g_max_in_flight (s_group s), g_interval (s_group s), g_max_cooldown (s_group s)).

Lemma wake_loop_settings ws s : settings (wake_loop ws s) = settings s.
Proof.
  revert s. induction ws as [|w ws IH]; intros s; cbn [wake_loop]; [done|].
  destruct (call_soon w _ s) as [s'|] eqn:Hc; [by apply call_soon_Some in Hc as [-> _]|].
  by rewrite IH.
Qed.

Lemma pump_loop_settings fuel s : settings (pump_loop clock fuel s) = settings s.
Proof.
  revert s. induction fuel as [|fuel IH]; intros s; cbn [pump_loop]; [done|].
  destruct (g_waiters (s_group s)) as [|w ws]; [done|]. case_match; [|done]. cbv zeta.
  case_match; [done|].
  destruct (call_soon w _ _) as [s'|] eqn:Hc; rewrite IH; [|done].
  apply call_soon_Some in Hc as [-> _]. unfold wake_head. etransitivity; [apply wake_loop_settings|done].
Qed.

Lemma release_settings s s' : release clock s = Ok s' → settings s' = settings s.
Proof.
  unfold release. case_match; [done|]. intros [= <-].
  unfold wake_head, pump. by rewrite wake_loop_settings, pump_loop_settings.
Qed.

Lemma permit_release_settings p s s' : permit_release clock p s = Ok s' → settings s' = settings s.
Proof.
  unfold permit_release. destruct (s_permits s !! p) as [[]|]; [by intros [= <-]| |done].
  intros Hr. by apply release_settings in Hr.
Qed.

Lemma permit_with_observation_settings obs s r s' :
  permit_with_observation clock obs s = Ok (r, s') → settings s' = settings s.
Proof.
  unfold permit_with_observation. destruct obs; [by intros [= _ <-]|].
  destruct (permit_release clock _ _) as [s1|] eqn:Hr; [|done]. intros [= _ <-].
  by apply permit_release_settings in Hr.
Qed.

Lemma poll_settings w s : settings (poll clock w s).2 = settings s.
Proof.
  unfold poll. cbv zeta. case_bool_decide; [apply pump_loop_settings|].
  repeat case_match; (etransitivity; [|apply pump_loop_settings]); done.
Qed.

Lemma step_settings l s s' : step clock l s = Some (Ok s') → settings s' = settings s.
Proof.
  destruct l as [loop at' obs|w obs|w|p|p d|cb|loop]; cbn [step].
  - case_match; [|done]. intros [= Hs]. unfold acquire_enter in Hs. cbv zeta in Hs.
    destruct (_ && _ && _)%bool; [|by injection Hs as <-].
    destruct (permit_with_observation _ _ _) as [[r s1]|] eqn:Hr; [|done]. injection Hs as <-.
    by apply permit_with_observation_settings in Hr.
  - case_match; [|done]. intros [= Hs]. pose proof (poll_settings w s) as Hp.
    destruct (poll clock w s) as [[] s1]; [|by injection Hs as <-|done].
    destruct (permit_with_observation _ _ _) as [[r s2]|] eqn:Hr; [|done]. injection Hs as <-.
    apply permit_with_observation_settings in Hr. by rewrite Hr.
  - case_match; [|done]. intros [= Hs]. unfold cancel_waiter in Hs.
    destruct (state_of w _) as [[]|]; try (by injection Hs as <-).
    + injection Hs as <-. unfold wake_head. by rewrite wake_loop_settings.
    + by apply release_settings in Hs.
  - case_bool_decide; [|done]. intros [= Hs]. by apply permit_release_settings in Hs.
  - intros [= <-]. unfold permit_cooldown. destruct (s_permits s !! p) as [[]|]; try done.
    unfold group_cooldown. destruct (g_max_cooldown (s_group s)) eqn:Hmc; [|done].
    unfold wake_head. by rewrite wake_loop_settings.
  - case_match; [|done]. intros [= <-]. destruct cb; simpl; [done|]. by case_bool_decide.
  - by intros [= <-].
Qed.

Lemma reachable_settings ls s s' : steps (adm_step clock) s ls s' → settings s' = settings s.
Proof.
  intros Hrun. apply (steps_invariant (adm_step clock) (λ s', settings s' = settings s)) in Hrun;
    [done| |done]. intros s0 l s1 <- Hst. by eapply step_settings.
Qed.

(** ** Theorems *)

(** The slots in use according to the objects that hold them. *)
Definition slots_held (s : st) : Z :=
  (count is_granted (states s) + count negb (s_permits s))%Z.

(** C35.  Under every interleaving of acquisitions, grants, cancellations,
    releases, cooldowns, callbacks and loop closings, the number of active
    calls is the number of unclaimed grants and unreleased permits, and stays
    between zero and [max_in_flight]; the queue count is the length of the
    queue; and no operation fails: releases never underflow and a waiting task
    never finds the queue empty. *)
Theorem admission_accounting i d m rps mc ls s :
  (0 < m)%Z → steps (adm_step clock) (new_st (new_group i d m rps mc)) ls s →
  g_active (s_group s) = slots_held s ∧
  (0 <= g_active (s_group s) <= m)%Z ∧
  g_queued (s_group s) = Z.of_nat (length (g_waiters (s_group s))) ∧
  ∀ l r, step clock l s = Some r → is_ok r = true.
Proof.
  intros Hm Hrun. pose proof (adm_reachable_good _ _ _ _ _ _ _ Hm Hrun) as Hg.
  destruct (so_acct _ (go_sound _ Hg)) as [Hmax Hact Hb Hq _]. simpl in *.
  pose proof (reachable_settings _ _ _ Hrun) as [= Hmx _ _]. simpl in Hmx.
  rewrite Hmx in Hb. split_and!; try done.
  - rewrite Hact. pose proof (count_nonneg is_granted (states s)).
    pose proof (count_nonneg negb (s_permits s)). lia.
  - intros l r Hl. by destruct (adm_step_good l s r Hg Hl) as (? & -> & _).
Qed.

(** First come, first served: no waiter is granted or admitted while one
    that entered the queue earlier is still queued, and nobody is admitted at
    once while the queue is not empty. *)
Theorem admission_fifo i d m rps mc ls s w w' x :
  (0 < m)%Z → steps (adm_step clock) (new_st (new_group i d m rps mc)) ls s →
  state_of w s = Some Queued → w < w' → state_of w' s = Some x →
  (x = Queued ∨ x = Cancelled) ∧
  ∀ loop started, ∃ w'', (acquire_enter clock loop started s).1 = inr w''.
Proof.
  intros Hm Hrun Hq Hlt Hx. pose proof (adm_reachable_good _ _ _ _ _ _ _ Hm Hrun) as Hg.
  pose proof (so_acct _ (go_sound _ Hg)) as Hok. rewrite <- !states_lookup in *. split.
  - destruct (fi_order _ _ _ _ (ok_fifo _ Hok) w w' x); auto.
  - intros loop started. unfold acquire_enter. cbv zeta.
    change (s_group (st_tick s)) with (s_group s).
    assert (Hin : w ∈ g_waiters (s_group s)) by (by apply (fi_queued _ _ _ _ (ok_fifo _ Hok))).
    destruct (g_waiters (s_group s)) as [|h ws]; [by apply not_elem_of_nil in Hin|].
    rewrite (bool_decide_eq_false_2 (h :: ws = [])) by done. rewrite andb_false_r. by eexists.
Qed.

(** C36.  No wakeup is lost.  Whenever a slot is free and the first waiter of
    the queue is on an open loop, its task is going to re-check the gate: it is
    about to run, has a timer, or its event is set or scheduled to be set.  A
    waiter on an open loop whose grant is unclaimed will be woken to claim it.
    After every release of a held permit, every cancellation of a waiter and
    every cooldown that is in force, the first waiter of the queue is on an open
    loop and its event is scheduled to be set: waiters of closed loops do not
    stay in front of it. *)
Theorem admission_no_lost_wakeup i d m rps mc ls s :
  (0 < m)%Z → steps (adm_step clock) (new_st (new_group i d m rps mc)) ls s →
  (∀ h ws, g_waiters (s_group s) = h :: ws → (g_active (s_group s) < m)%Z → on_open_loop h s → awake h s) ∧
  (∀ w, state_of w s = Some Granted → on_open_loop w s → awake w s ∨ CbDeliver w ∈ s_pending s) ∧
  (∀ l s', stirs l s → adm_step clock s l s' →
     ∀ h ws, g_waiters (s_group s') = h :: ws → on_open_loop h s' ∧ CbSet h ∈ s_pending s').
Proof.
  intros Hm Hrun. pose proof (adm_reachable_good _ _ _ _ _ _ _ Hm Hrun) as Hg. pose proof Hg as [Hs _ Hh].
  pose proof (reachable_settings _ _ _ Hrun) as [= Hmx _ _]. simpl in Hmx.
  split_and!.
  - intros h ws Hw Hlt. apply awake_open. eapply Hh; [done|]. by rewrite Hmx.
  - intros w Hw Ho. destruct (so_granted _ Hs w Hw) as [Ha|]; [left; by apply awake_open|by right].
  - intros l s' Hl Hst. destruct (adm_step_good l s _ Hg Hst) as (s2 & [= <-] & _ & Hk). by apply Hk.
Qed.

(** Admissions are paced: with a request rate, no admission of a run
    happens before the previous one plus one interval, whatever cooldowns,
    cancellations and closed loops come between, and no missed interval is
    credited. *)
Theorem admission_paced i d m rps mc ls s :
  (0 < m)%Z → steps (adm_step clock) (new_st (new_group i d m rps mc)) ls s →
  gaps (match rps with None => f_zero | Some r => f_div f_one r end) (s_admitted s).
Proof.
  intros Hm Hrun. destruct (adm_reachable_good _ _ _ _ _ _ _ Hm Hrun) as [_ [Hp _] _].
  pose proof (f_equal (λ x, x.1.2) (reachable_settings _ _ _ Hrun)) as Hi.
  cbn [settings fst snd] in Hi. rewrite Hi in Hp. exact Hp.
Qed.

(** A permit releases one slot, once: releasing it marks this permit and
    no other, and releasing it again changes nothing. *)
Theorem permit_release_once i d m rps mc ls s p s1 :
  (0 < m)%Z → steps (adm_step clock) (new_st (new_group i d m rps mc)) ls s →
  permit_release clock p s = Ok s1 →
  s_permits s1 = <[p := true]> (s_permits s) ∧ permit_release clock p s1 = Ok s1.
Proof.
  intros Hm Hrun. pose proof (adm_reachable_good _ _ _ _ _ _ _ Hm Hrun) as [Hs Hp Hh].
  unfold permit_release at 1. destruct (s_permits s !! p) as [[]|] eqn:Hlk; [| |done].
  - intros [= <-]. split; [by rewrite list_insert_id|]. unfold permit_release. by rewrite Hlk.
  - intros Hr. destruct (release_spec (st_permits (<[p := true]> (s_permits s)) s)) as (s' & Hr' & _ & He & _).
    + eapply sound_acct; [..|exact Hs]; try done. by apply (acct_release (acct_of s)), Hlk; apply Hs.
    + done.
    + simpl. pose proof (ok_active _ (so_acct _ Hs)) as Ha. simpl in Ha. rewrite Ha.
      pose proof (count_nonneg is_granted (states s)).
      pose proof (count_pos negb (s_permits s) p false Hlk eq_refl). lia.
    + rewrite Hr in Hr'. injection Hr' as <-. pose proof (ev_permits _ _ He) as Hpm. simpl in Hpm.
      split; [done|]. unfold permit_release. rewrite Hpm, list_lookup_insert_eq; [done|].
      by eapply lookup_lt_Some.
Qed.
End Runs.

(** ** Witnesses *)

(** Two calls per second; the clock reads 0, 0, 0.25, 0.5, 1, and then 2. *)
Definition demo_quarter (n : Z) : pyfloat := f_div (f_of_Z n) (f_of_Z 4).
Definition demo_clock (i : nat) : pyfloat :=
  match i with 0 | 1 => f_zero | 2 => demo_quarter 1 | 3 => demo_quarter 2 | 4 => demo_quarter 4
  | _ => demo_quarter 8 end.

Lemma demo_clock_monotone : monotone_clock demo_clock.
Proof. intros i. do 6 (destruct i as [|i]; [reflexivity|]). reflexivity. Qed.

Definition demo_start : st := new_st (new_group "g" "g" 2 (Some (f_of_Z 2)) None).

(** One call is admitted at once, three queue up, the first of them polls too
    early, then after the timer, and the second is cancelled. *)
Definition demo_labels : list label :=
  [LAcquire 0 f_zero true; LAcquire 0 f_zero true; LAcquire 1 f_zero true; LAcquire 0 f_zero true;
   LPoll 0 true; LPoll 1 true; LCancel 1; LRelease 0].

Definition run_at (clock : nat → pyfloat) (ls : list label) : st :=
  foldl (λ s l, match step clock l s with Some (Ok s') => s' | _ => s end) demo_start ls.
Definition demo_run : list label → st := run_at demo_clock.

Lemma demo_steps : steps (adm_step demo_clock) demo_start demo_labels (demo_run demo_labels).
Proof.
  unfold demo_labels.
  repeat (eapply steps_cons; [unfold adm_step; vm_compute; reflexivity|]). apply steps_nil.
Qed.

Lemma admission_accounting_witness :
  g_active (s_group (demo_run demo_labels)) = slots_held (demo_run demo_labels) ∧
  (0 <= g_active (s_group (demo_run demo_labels)) <= 2)%Z.
Proof.
  destruct (admission_accounting demo_clock demo_clock_monotone _ _ 2 _ _ _ _ eq_refl demo_steps)
    as (H1 & H2 & _). exact (conj H1 H2).
Defined.

Lemma demo_steps_5 : steps (adm_step demo_clock) demo_start (take 5 demo_labels) (demo_run (take 5 demo_labels)).
Proof. simpl. repeat (eapply steps_cons; [unfold adm_step; vm_compute; reflexivity|]). apply steps_nil. Qed.

Lemma admission_fifo_witness : ∃ w'',
  (acquire_enter demo_clock 0 f_zero (demo_run (take 5 demo_labels))).1 = inr w''.
Proof.
  exact (proj2 (admission_fifo demo_clock demo_clock_monotone "g" "g" 2 (Some (f_of_Z 2)) None
    (take 5 demo_labels) (demo_run (take 5 demo_labels)) 1 2 Queued eq_refl demo_steps_5 eq_refl
    (le_n _) eq_refl) 0 f_zero).
Defined.

Lemma demo_steps_4 : steps (adm_step demo_clock) demo_start (take 4 demo_labels) (demo_run (take 4 demo_labels)).
Proof. simpl. repeat (eapply steps_cons; [unfold adm_step; vm_compute; reflexivity|]). apply steps_nil. Qed.

Lemma open_waiter w s : (w_loop <$> s_table s !! w) ≫= (λ l, Some (open_loop l s)) = Some true → on_open_loop w s.
Proof.
  unfold on_open_loop, open_loop. destruct (s_table s !! w) as [x|]; [|done]. intros [= H]. exists x.
  by apply bool_decide_eq_true in H.
Qed.

Lemma demo_steps_6 : steps (adm_step demo_clock) demo_start (take 6 demo_labels) (demo_run (take 6 demo_labels)).
Proof. simpl. repeat (eapply steps_cons; [unfold adm_step; vm_compute; reflexivity|]). apply steps_nil. Qed.

(** With a slot free the queue's head is awake; the grant waiter 2 got from
    the released slot is on its way to a task that can take it; and the
    cancellation of waiter 1 wakes the next one. *)
Lemma admission_no_lost_wakeup_witness :
  awake 0 (demo_run (take 4 demo_labels)) ∧
  (awake 2 (demo_run demo_labels) ∨ CbDeliver 2 ∈ s_pending (demo_run demo_labels)) ∧
  CbSet 2 ∈ s_pending (demo_run (take 7 demo_labels)).
Proof.
  split_and!.
  - refine (proj1 (admission_no_lost_wakeup demo_clock demo_clock_monotone "g" "g" 2
      (Some (f_of_Z 2)) None _ _ eq_refl demo_steps_4) 0 [1; 2] eq_refl eq_refl _).
    apply open_waiter. vm_compute. reflexivity.
  - refine (proj1 (proj2 (admission_no_lost_wakeup demo_clock demo_clock_monotone "g" "g" 2
      (Some (f_of_Z 2)) None _ _ eq_refl demo_steps)) 2 eq_refl _).
    apply open_waiter. vm_compute. reflexivity.
  - refine (proj2 (proj2 (proj2 (admission_no_lost_wakeup demo_clock demo_clock_monotone "g" "g" 2
      (Some (f_of_Z 2)) None _ _ eq_refl demo_steps_6)) (LCancel 1) _ I _ 2 [] _)).
    + unfold adm_step. vm_compute. reflexivity.
    + vm_compute. reflexivity.
Defined.

(** A loop that is closed without cancelling its tasks leaves its waiter in the
    queue.  With nothing in flight, the waiter behind it has no timer, no set
    event and no callback: it waits until somebody else calls the group. *)
Definition abandoned_labels : list label :=
  [LAcquire 0 f_zero true; LAcquire 1 f_zero true; LRelease 0; LAcquire 0 f_zero true; LPoll 0 true; LPoll 1 true; LClose 1].

Example abandoned_head_blocks :
  let s := run_at (λ _, f_zero) abandoned_labels in
  steps (adm_step (λ _, f_zero)) demo_start abandoned_labels s ∧ g_active (s_group s) = 0%Z ∧
  g_waiters (s_group s) = [0; 1] ∧ runnable 1 s = false ∧ forallb (λ cb, negb (callback_ready cb s)) (s_pending s) = true.
Proof.
  split_and!; [|vm_compute; reflexivity..].
  - unfold abandoned_labels. repeat (eapply steps_cons; [unfold adm_step; vm_compute; reflexivity|]). apply steps_nil.
Qed.

Lemma admission_paced_witness :
  gaps (f_div f_one (f_of_Z 2)) (s_admitted (demo_run demo_labels)).
Proof.
  exact (admission_paced demo_clock demo_clock_monotone "g" "g" 2 (Some (f_of_Z 2)) None _ _ eq_refl demo_steps).
Defined.

Lemma permit_release_once_witness : ∃ s1,
  permit_release demo_clock 0 (demo_run demo_labels) = Ok s1 ∧
  permit_release demo_clock 0 s1 = Ok s1.
Proof.
  destruct (permit_release demo_clock 0 (demo_run demo_labels)) as [s1|e] eqn:Hr.
  - exists s1. split; [reflexivity|].
    exact (proj2 (permit_release_once demo_clock demo_clock_monotone _ _ 2 _ _ _ _ 0 s1 eq_refl demo_steps Hr)).
  - exfalso. vm_compute in Hr. discriminate.
Defined.
