(* ===== verification/AdmissionConfig.v ===== *)
(** * AdmissionConfig: settings and the registry of admission groups

    The validators, group identities, the process-wide registry,
    [AdmissionPolicy] and [AdmissionControlConfig] of
    [nooa/unifiedllm/admission.py]. *)

From Stdlib Require Import SpecFloat Ascii.
From S2P Require Import Prelude PyStr PyDict PyFloat Values Admission.

Open Scope nooa_scope.

(** ** Validators *)

(** [_validated_limit]. *)
Definition validated_limit (max_in_flight : pyval) : result (option Z) :=
  match max_in_flight with
  | VNone => Ok None
  | VInt n => if (n <=? 0)%Z then Raise ValueError else Ok (Some n)
  | _ => Raise TypeError
  end.

(** [float(value)] of an accepted number: [None] is the [OverflowError]. *)
Definition to_float (v : pyval) : option (option spec_float) :=
  match v with
  | VInt n => Some (if is_finite (f_of_Z n) then Some (f_of_Z n) else None)
  | VFloat f => Some (Some f)
  | _ => None
  end.

(** [_validated_positive_option] and [_validated_timeout]. *)
Definition validated_positive_option (value : pyval) : result (option spec_float) :=
  match value with
  | VNone => Ok None
  | _ =>
      match to_float value with
      | None => Raise TypeError
      | Some None => Raise ValueError
      | Some (Some r) =>
          if f_le r f_zero || negb (is_finite r) then Raise ValueError else Ok (Some r)
      end
  end.

Definition validated_timeout (queue_timeout : pyval) : result (option spec_float) :=
  validated_positive_option queue_timeout.

(** The class of the characters of a group label after the first. *)
Definition is_alnum (c : ascii) : bool :=
  let n := nat_of_ascii c in
  ((48 <=? n) && (n <=? 57)) || ((65 <=? n) && (n <=? 90)) || ((97 <=? n) && (n <=? 122)).

Definition is_label_char (c : ascii) : bool :=
  is_alnum c || bool_decide (c ∈ ["_"; "."; ":"; "/"; "-"]%char).

Fixpoint all_chars (p : ascii → bool) (s : string) : bool :=
  match s with EmptyString => true | String c s' => p c && all_chars p s' end.

(** [_GROUP_LABEL_RE.fullmatch(label)]. *)
Definition label_matches (label : string) : bool :=
  match label with
  | EmptyString => false
  | String c s => is_alnum c && all_chars is_label_char s && (String.length s <=? 127)
  end.

(** [_named_group_identity]: the identity and the display name. *)
Definition named_group_identity (label : pyval) : result (string * string) :=
  match label with
  | VStr l => if label_matches l then Ok (("named:" +:+ l)%string, l) else Raise ValueError
  | _ => Raise TypeError
  end.

(** ** The registry *)

Definition registry : Type := dict string group.

(** [existing != value] on optional floats. *)
Definition opt_float_eq (x y : option spec_float) : bool :=
  match x, y with
  | None, None => true
  | Some a, Some b => SFeqb a b
  | _, _ => false
  end.

(** [_get_or_create_group]: the group, if any, and the registry. *)
Definition get_or_create_group (identity display_name : string) (max_in_flight : option Z)
    (requests_per_second max_cooldown : option spec_float) (groups : registry)
    : result (option group * registry) :=
  let existing := dict_get identity groups in
  match max_in_flight with
  | None => Ok (existing, groups)
  | Some m =>
      match existing with
      | Some g =>
          if negb (g_max_in_flight g =? m)%Z then Raise ValueError
          else if negb (opt_float_eq (g_requests_per_second g) requests_per_second) then Raise ValueError
          else if negb (opt_float_eq (g_max_cooldown g) max_cooldown) then Raise ValueError
          else Ok (Some g, groups)
      | None =>
          let g := new_group identity display_name m requests_per_second max_cooldown in
          Ok (Some g, dict_set identity g groups)
      end
  end.

(** [_reset_admission_groups_after_fork] and [_reset_admission_groups_for_tests]. *)
Definition reset_after_fork (groups : registry) : registry := [].

Definition reset_for_tests (groups : registry) : result registry :=
  if existsb (λ g, negb (g_active g =? 0)%Z || negb (g_queued g =? 0)%Z) (dict_values groups)
  then Raise RuntimeError else Ok [].

(** ** Policies *)

(** The attributes of an [AdmissionPolicy]. *)
Record policy := mk_policy {
  p_identity : string;
  p_display_name : string;
  p_max_in_flight : Z;
  p_queue_timeout : option spec_float;
  p_requests_per_second : option spec_float;
  p_max_cooldown : option spec_float;
}.

(** [math.isfinite(1.0 / rate)]. *)
Definition rate_ok (rate : option spec_float) : bool :=
  match rate with None => true | Some r => is_finite (f_div f_one r) end.

Section Policy.
(** What [urlsplit] finds in an endpoint, [None] when it is no absolute
    HTTP(S) address: the scheme, the host, the port if any and the path; and
    the hexadecimal digest of a text. *)
Record url := mk_url { u_https : bool; u_host : string; u_port : option Z; u_path : string }.
Variable http_url : string → option url.
Variable sha256_hex : string → string.

(** [path.rstrip("/")]. *)
Fixpoint rstrip_slash (s : string) : string :=
  match s with
  | EmptyString => EmptyString
  | String c s' =>
      let r := rstrip_slash s' in
      if bool_decide (r = EmptyString) && bool_decide (c = "/"%char) then EmptyString else String c r
  end.

(** The normalized address of an endpoint: [urlunsplit] of the lower-case
    scheme, host with its port unless it is the default one, and path. *)
Definition normalize_url (u : url) : string :=
  let host := lower (u_host u) in
  let host := if PyStr.contains ":" host then ("[" +:+ host +:+ "]")%string else host in
  let host :=
    match u_port u with
    | Some p => if (negb (u_https u) && (p =? 80)%Z) || (u_https u && (p =? 443)%Z) then host
                else (host +:+ ":" +:+ str_int p)%string
    | None => host
    end in
  ((if u_https u then "https" else "http") +:+ "://" +:+ host +:+ rstrip_slash (u_path u))%string.

(** [_endpoint_group_identity]. *)
Definition endpoint_group_identity (api_base : pyval) : result (string * string) :=
  match api_base with
  | VStr s =>
      if bool_decide (s = ""%string) then Raise TypeError
      else match http_url s with
           | None => Raise ValueError
           | Some u =>
               let digest := sha256_hex (normalize_url u) in
               Ok (("endpoint:" +:+ digest)%string, ("endpoint:" +:+ String.substring 0 12 digest)%string)
           end
  | _ => Raise TypeError
  end.

(** [AdmissionPolicy.__init__]. *)
Definition new_policy (max_in_flight concurrency_group queue_timeout api_base
    requests_per_second max_cooldown : pyval) (groups : registry) : result (policy * registry) :=
  let! m := validated_limit max_in_flight in
  match m with
  | None => Raise ValueError
  | Some m =>
      let! qt := validated_timeout queue_timeout in
      let! rps := validated_positive_option requests_per_second in
      let! mc := validated_positive_option max_cooldown in
      if negb (rate_ok rps) then Raise ValueError
      else
        let! ids :=
          match concurrency_group with
          | VNone => match api_base with
                     | VNone => Raise ValueError
                     | _ => endpoint_group_identity api_base
                     end
          | _ => named_group_identity concurrency_group
          end in
        let! gr := get_or_create_group ids.1 ids.2 (Some m) rps mc groups in
        Ok (mk_policy ids.1 ids.2 m qt rps mc, gr.2)
  end.

(** The group [AdmissionPolicy.acquire] waits on. *)
Definition policy_group (p : policy) (groups : registry) : result (option group * registry) :=
  get_or_create_group (p_identity p) (p_display_name p) (Some (p_max_in_flight p))
    (p_requests_per_second p) (p_max_cooldown p) groups.
End Policy.

(** ** [AdmissionControlConfig] *)

(** The configured fields; [c_controller] is whether a controller object was
    given and, if so, whether it has an [acquire] method. *)
Record config := mk_config {
  c_max_in_flight : pyval;
  c_concurrency_group : pyval;
  c_queue_timeout : pyval;
  c_controller : option bool;
  c_requests_per_second : pyval;
  c_max_cooldown : pyval;
}.

Definition is_none (v : pyval) : bool := match v with VNone => true | _ => false end.

(** [__post_init__]. *)
Definition config_post_init (c : config) : result unit :=
  match c_controller c with
  | Some is_controller =>
      if negb (is_none (c_max_in_flight c) && is_none (c_concurrency_group c) &&
               is_none (c_queue_timeout c) && is_none (c_requests_per_second c) &&
               is_none (c_max_cooldown c)) then Raise ValueError
      else if is_controller then Ok tt else Raise TypeError
  | None =>
      if is_none (c_max_in_flight c) then Raise ValueError
      else
        let! _ := validated_limit (c_max_in_flight c) in
        let! _ := validated_timeout (c_queue_timeout c) in
        let! rate := validated_positive_option (c_requests_per_second c) in
        if negb (rate_ok rate) then Raise ValueError
        else
          let! _ := validated_positive_option (c_max_cooldown c) in
          match c_concurrency_group c with
          | VNone => Ok tt
          | g => let! _ := named_group_identity g in Ok tt
          end
  end.

(** [_controller_for] of a configuration without a controller object, for a
    client configured with [api_base]. *)
Definition controller_for (http_url : string → option url) (sha256_hex : string → string)
    (c : config) (api_base : pyval) (groups : registry) : result (policy * registry) :=
  new_policy http_url sha256_hex (c_max_in_flight c) (c_concurrency_group c) (c_queue_timeout c)
    api_base (c_requests_per_second c) (c_max_cooldown c) groups.

(** ** Theorems *)

(** A group has the settings it was asked for. *)
Definition has_settings (g : group) (m : Z) (rps mc : option spec_float) : Prop :=
  g_max_in_flight g = m ∧ opt_float_eq (g_requests_per_second g) rps = true ∧
  opt_float_eq (g_max_cooldown g) mc = true.

Lemma opt_float_eq_refl x : match x with Some f => is_finite f = true | None => True end →
  opt_float_eq x x = true.
Proof.
  destruct x as [[s|s| |s m e]|]; simpl; try done; intros _; unfold SFeqb; simpl.
  rewrite Z.compare_refl. change (Pos.compare_cont Eq m m) with (m ?= m)%positive.
  rewrite Pos.compare_refl. by destruct s.
Qed.

Lemma validated_positive_finite v r :
  validated_positive_option v = Ok r → match r with Some f => is_finite f = true | None => True end.
Proof.
  unfold validated_positive_option. destruct v; try done; [by intros [= <-]|..]; simpl;
    repeat case_match; try done; intros [= <-]; simplify_eq;
    by match goal with H : (_ || negb ?x)%bool = false |- _ =>
         apply orb_false_iff in H as [_ ?%negb_false_iff] end.
Qed.

Lemma get_or_create_group_spec i d m rps mc groups r groups' :
  get_or_create_group i d (Some m) rps mc groups = Ok (r, groups') →
  opt_float_eq rps rps = true → opt_float_eq mc mc = true →
  ∃ g, r = Some g ∧ dict_get i groups' = Some g ∧ has_settings g m rps mc ∧
    (∀ g0, dict_get i groups = Some g0 → g0 = g ∧ groups' = groups) ∧
    (dict_get i groups = None → g_active g = 0%Z ∧ g_queued g = 0%Z) ∧
    (∀ j, j ≠ i → dict_get j groups' = dict_get j groups).
Proof.
  unfold get_or_create_group. intros Hget Hr Hm. destruct (dict_get i groups) as [g|] eqn:Hi.
  - revert Hget. repeat case_match; try done. intros [= <- <-]. exists g.
    repeat match goal with H : negb _ = false |- _ => apply negb_false_iff in H end.
    unfold has_settings. split_and!; try done; [lia|]. by intros g0 [= <-].
  - injection Hget as <- <-. eexists. split; [done|]. rewrite dict_get_set_eq.
    unfold has_settings. split_and!; try done.
    intros j Hj. by rewrite dict_get_set_ne.
Qed.

(** A policy that was built can always join its group again, gets the
    same group, and the registry does not change; two policies of one identity
    that were both built share a group with the same limits. *)
Theorem policy_rejoins_group http sha mf cg qt ab rps mc groups p groups' :
  new_policy http sha mf cg qt ab rps mc groups = Ok (p, groups') →
  ∃ g, policy_group p groups' = Ok (Some g, groups') ∧ dict_get (p_identity p) groups' = Some g ∧
    (0 < p_max_in_flight p)%Z ∧
    has_settings g (p_max_in_flight p) (p_requests_per_second p) (p_max_cooldown p).
Proof.
  unfold new_policy. intros H.
  destruct (validated_limit mf) as [[m|]|] eqn:Hm; try done. simpl in H.
  destruct (validated_timeout qt) as [qt'|]; [|done]. simpl in H.
  destruct (validated_positive_option rps) as [rps'|] eqn:Hrps; [|done]. simpl in H.
  destruct (validated_positive_option mc) as [mc'|] eqn:Hmc; [|done]. simpl in H.
  destruct (negb (rate_ok rps')); [done|].
  match type of H with result_bind ?x _ = _ => destruct x as [[i d]|]; [|done] end.
  cbn [result_bind fst snd] in H.
  match type of H with result_bind ?x _ = _ => destruct x as [[r gs]|] eqn:Hget; [|done] end.
  change (get_or_create_group i d (Some m) rps' mc' groups = Ok (r, gs)) in Hget.
  injection H as <- <-. simpl.
  apply validated_positive_finite, opt_float_eq_refl in Hrps, Hmc.
  destruct (get_or_create_group_spec _ _ _ _ _ _ _ _ Hget Hrps Hmc)
    as (g & -> & Hg & (Hs1 & Hs2 & Hs3) & _).
  exists g. unfold policy_group, get_or_create_group, has_settings. simpl. rewrite Hg.
  rewrite Hs1, Z.eqb_refl, Hs2, Hs3. split_and!; try done.
  unfold validated_limit in Hm. destruct mf; try done. case_match; [done|].
  injection Hm as <-. lia.
Qed.

(** Joining a group whose settings disagree with the registered ones
    raises [ValueError]; an agreeing one gets the registered group itself. *)
Theorem conflicting_settings_rejected i d m rps mc groups g :
  dict_get i groups = Some g →
  (has_settings g m rps mc → get_or_create_group i d (Some m) rps mc groups = Ok (Some g, groups)) ∧
  (¬ has_settings g m rps mc → get_or_create_group i d (Some m) rps mc groups = Raise ValueError).
Proof.
  intros Hi. unfold get_or_create_group, has_settings. rewrite Hi. split.
  - intros (-> & -> & ->). by rewrite Z.eqb_refl.
  - intros Hn. destruct (g_max_in_flight g =? m)%Z eqn:E1; [|done].
    destruct (opt_float_eq (g_requests_per_second g) rps) eqn:E2; [|done].
    destruct (opt_float_eq (g_max_cooldown g) mc) eqn:E3; [|done].
    destruct Hn. split_and!; try done. lia.
Qed.

(** Configuration errors are caught when the configuration is built: a
    configuration without a controller that passes [__post_init__] builds a
    policy whenever it names a group that is not registered yet. *)
Theorem valid_config_builds_policy http sha c label api_base groups :
  config_post_init c = Ok tt → c_controller c = None → c_concurrency_group c = VStr label →
  dict_get ("named:" +:+ label)%string groups = None →
  ∃ p groups', controller_for http sha c api_base groups = Ok (p, groups') ∧
    p_identity p = ("named:" +:+ label)%string ∧ p_display_name p = label.
Proof.
  unfold config_post_init, controller_for, new_policy. intros Hc Hn Hg Hi. rewrite Hn in Hc.
  destruct (is_none (c_max_in_flight c)) eqn:Hm; [done|].
  destruct (validated_limit (c_max_in_flight c)) as [[m|]|] eqn:Hl; simpl in *; [| |done].
  - destruct (validated_timeout (c_queue_timeout c)) as [qt|]; simpl in *; [|done].
    destruct (validated_positive_option (c_requests_per_second c)) as [rps|]; simpl in *; [|done].
    destruct (validated_positive_option (c_max_cooldown c)) as [mc|]; simpl in *;
      destruct (negb (rate_ok rps)); try done.
    rewrite Hg in *. unfold named_group_identity in *. destruct (label_matches label); [|done].
    cbn [result_bind fst snd]. unfold get_or_create_group. rewrite Hi.
    eexists _, _. split; [reflexivity|done].
  - unfold validated_limit in Hl. destruct (c_max_in_flight c); try done. repeat case_match; done.
Qed.

(** ** Witnesses *)

Definition demo_config : config :=
  mk_config (VInt 3) (VStr "team/a") (VInt 30) None (VFloat (f_of_Z 2)) VNone.

Definition demo_policy : policy * registry :=
  match controller_for (λ _, None) id demo_config VNone [] with
  | Ok r => r | Raise _ => (mk_policy "" "" 0 None None None, []) end.

Lemma conflicting_settings_rejected_witness :
  get_or_create_group "named:team/a" "team/a" (Some 4%Z) (Some (f_of_Z 2)) None demo_policy.2 =
    Raise ValueError.
Proof.
  apply (proj2 (conflicting_settings_rejected "named:team/a" "team/a" 4 (Some (f_of_Z 2)) None
    demo_policy.2 (new_group "named:team/a" "team/a" 3 (Some (f_of_Z 2)) None) eq_refl)).
  intros [H _]. vm_compute in H. discriminate.
Defined.

Lemma policy_rejoins_group_witness : ∃ g,
  policy_group demo_policy.1 demo_policy.2 = Ok (Some g, demo_policy.2) ∧
  (0 < p_max_in_flight demo_policy.1)%Z.
Proof.
  destruct (policy_rejoins_group (λ _, None) id (VInt 3) (VStr "team/a") (VInt 30) VNone
    (VFloat (f_of_Z 2)) VNone [] demo_policy.1 demo_policy.2 eq_refl) as (g & H1 & _ & H3 & _).
  exists g. exact (conj H1 H3).
Defined.

Lemma valid_config_builds_policy_witness : ∃ p groups',
  controller_for (λ _, None) id demo_config VNone [] = Ok (p, groups') ∧
  p_identity p = "named:team/a"%string ∧ p_display_name p = "team/a"%string.
Proof.
  exact (valid_config_builds_policy (λ _, None) id demo_config "team/a" VNone [] eq_refl eq_refl
           eq_refl eq_refl).
Defined.
