(* ===== verification/Broker.v ===== *)
(** * Broker: the parent-owned admission broker

    [_BrokerState] and the per-connection protocol of
    [_AdmissionBrokerServer._handle] in [nooa/unifiedllm/broker_admission.py].
    The broker runs on one event loop, so each method of [_BrokerState] is
    atomic; the handlers of the connections interleave at their awaits. *)

From Stdlib Require Import SpecFloat Ascii.
From S2P Require Import Prelude PyDict PyFloat Values AdmissionConfig.

Open Scope nooa_scope.

Inductive bstate := BQueued | BOffered | BLeased | BCancelled | BTerminal.

#[global] Instance bstate_eq_dec : EqDecision bstate.
Proof. solve_decision. Defined.

(** The messages put into a waiter's future. *)
Inductive outcome :=
  | CallCap (queued : bool) (queue_depth : Z) (wait_s : pyfloat) (admitted_calls : Z)
  | Offered (queued : bool) (queue_depth : Z) (wait_s : pyfloat) (admitted_calls : Z).

Inductive future := FutPending | FutResult (o : outcome) | FutCancelled.

(** [_BrokerWaiter]. *)
Record bwaiter := mk_bwaiter {
  bw_ticket : string;
  bw_queued_at : pyfloat;
  bw_queue_depth : Z;
  bw_queued : bool;
  bw_future : future;
  bw_state : bstate;
}.

Definition bw_with_state (v : bstate) (w : bwaiter) : bwaiter :=
  mk_bwaiter (bw_ticket w) (bw_queued_at w) (bw_queue_depth w) (bw_queued w) (bw_future w) v.
Definition bw_with_future (f : future) (w : bwaiter) : bwaiter :=
  mk_bwaiter (bw_ticket w) (bw_queued_at w) (bw_queue_depth w) (bw_queued w) f (bw_state w).

(** The attributes of [_BrokerState], the waiters ever created (named by their
    index) and how often the clocks were read.  [b_wake] is the time an armed
    timer fires at. *)
Record broker := mk_broker {
  b_group : string;
  b_max_in_flight : Z;
  b_max_calls : option Z;
  b_active : Z;
  b_peak_active : Z;
  b_admitted_calls : Z;
  b_reserved_calls : Z;
  b_waiters : list nat;
  b_interval : pyfloat;
  b_max_cooldown : option pyfloat;
  b_not_before : pyfloat;
  b_wake : option pyfloat;
  b_closed : bool;
  b_table : list bwaiter;
  b_tick : nat;
}.

(** [__init__]. *)
Definition new_broker (group : string) (max_in_flight : Z) (max_calls : option Z)
    (requests_per_second max_cooldown : option pyfloat) : broker :=
  mk_broker group max_in_flight max_calls 0 0 0 0 []
    (match requests_per_second with Some r => f_div f_one r | None => f_zero end)
    max_cooldown f_zero None false [] 0.

Definition b_counters (active peak admitted reserved : Z) (b : broker) : broker :=
  mk_broker (b_group b) (b_max_in_flight b) (b_max_calls b) active peak admitted reserved
    (b_waiters b) (b_interval b) (b_max_cooldown b) (b_not_before b) (b_wake b) (b_closed b)
    (b_table b) (b_tick b).
Definition b_queue (ws : list nat) (b : broker) : broker :=
  mk_broker (b_group b) (b_max_in_flight b) (b_max_calls b) (b_active b) (b_peak_active b)
    (b_admitted_calls b) (b_reserved_calls b) ws (b_interval b) (b_max_cooldown b)
    (b_not_before b) (b_wake b) (b_closed b) (b_table b) (b_tick b).
Definition b_pace (not_before : pyfloat) (b : broker) : broker :=
  mk_broker (b_group b) (b_max_in_flight b) (b_max_calls b) (b_active b) (b_peak_active b)
    (b_admitted_calls b) (b_reserved_calls b) (b_waiters b) (b_interval b) (b_max_cooldown b)
    not_before (b_wake b) (b_closed b) (b_table b) (b_tick b).
Definition b_timer (wake : option pyfloat) (b : broker) : broker :=
  mk_broker (b_group b) (b_max_in_flight b) (b_max_calls b) (b_active b) (b_peak_active b)
    (b_admitted_calls b) (b_reserved_calls b) (b_waiters b) (b_interval b) (b_max_cooldown b)
    (b_not_before b) wake (b_closed b) (b_table b) (b_tick b).
Definition b_close_flag (b : broker) : broker :=
  mk_broker (b_group b) (b_max_in_flight b) (b_max_calls b) (b_active b) (b_peak_active b)
    (b_admitted_calls b) (b_reserved_calls b) (b_waiters b) (b_interval b) (b_max_cooldown b)
    (b_not_before b) (b_wake b) true (b_table b) (b_tick b).
Definition b_tables (t : list bwaiter) (b : broker) : broker :=
  mk_broker (b_group b) (b_max_in_flight b) (b_max_calls b) (b_active b) (b_peak_active b)
    (b_admitted_calls b) (b_reserved_calls b) (b_waiters b) (b_interval b) (b_max_cooldown b)
    (b_not_before b) (b_wake b) (b_closed b) t (b_tick b).
Definition b_ticked (b : broker) : broker :=
  mk_broker (b_group b) (b_max_in_flight b) (b_max_calls b) (b_active b) (b_peak_active b)
    (b_admitted_calls b) (b_reserved_calls b) (b_waiters b) (b_interval b) (b_max_cooldown b)
    (b_not_before b) (b_wake b) (b_closed b) (b_table b) (S (b_tick b)).

Definition b_waiter (w : nat) (f : bwaiter → bwaiter) (b : broker) : broker :=
  b_tables (alter f w (b_table b)) b.

Definition b_state_of (w : nat) (b : broker) : option bstate := bw_state <$> b_table b !! w.

(** The truth value of a float. *)
Definition f_truth (x : pyfloat) : bool := match x with S754_zero _ => false | _ => true end.

(** What [max_calls] still allows: [true] when [n] calls have used it up. *)
Definition cap_reached (n : Z) (b : broker) : bool :=
  match b_max_calls b with Some m => (m <=? n)%Z | None => false end.

Section State.
(** Successive readings of the loop's clock and of [time.perf_counter()]. *)
Variable loop_time perf_counter : nat → pyfloat.

(** The loop of [_offer_available]; every turn but the last takes a waiter off
    the queue. *)
Fixpoint offer_loop (fuel : nat) (b : broker) : broker :=
  match fuel with
  | 0 => b
  | S fuel' =>
      match b_waiters b with
      | [] => b
      | w :: ws =>
          match b_table b !! w with
          | None => b
          | Some x =>
              if cap_reached (b_admitted_calls b) b then
                let wait_s := f_sub (perf_counter (b_tick b)) (bw_queued_at x) in
                offer_loop fuel'
                  (b_waiter w (λ x, bw_with_future
                                (FutResult (CallCap (bw_queued x) (bw_queue_depth x) wait_s
                                              (b_admitted_calls b))) (bw_with_state BTerminal x))
                     (b_ticked (b_queue ws b)))
              else if cap_reached (b_admitted_calls b + b_reserved_calls b) b then b
              else if (b_max_in_flight b <=? b_active b)%Z then b
              else if f_truth (b_interval b) && negb (b_reserved_calls b =? 0)%Z then b
              else
                let t := loop_time (b_tick b) in
                let b0 := b_ticked b in
                if f_lt t (b_not_before b0) then b_timer (Some (b_not_before b0)) b0
                else
                  let b1 := b_queue ws b0 in
                  if negb (bool_decide (bw_state x = BQueued)) then offer_loop fuel' b1
                  else
                    let b2 := b_waiter w (bw_with_state BOffered) b1 in
                    let b3 := b_counters (b_active b2 + 1) (Z.max (b_peak_active b2) (b_active b2 + 1))
                                (b_admitted_calls b2) (b_reserved_calls b2 + 1) b2 in
                    let b4 := if f_truth (b_interval b3)
                              then b_pace (f_add (loop_time (b_tick b3)) (b_interval b3)) (b_ticked b3)
                              else b3 in
                    let wait_s := f_sub (perf_counter (b_tick b4)) (bw_queued_at x) in
                    let queued := bw_queued x || f_le (f_div f_one (f_of_Z 1000)) wait_s in
                    offer_loop fuel'
                      (b_waiter w (bw_with_future
                         (FutResult (Offered queued (if queued then bw_queue_depth x else 0%Z) wait_s
                                       (b_admitted_calls b4)))) (b_ticked b4))
          end
      end
  end.

(** [_offer_available]: an armed timer is cancelled first. *)
Definition offer_available (b : broker) : broker :=
  let b0 := b_timer None b in
  if b_closed b0 then b0 else offer_loop (S (length (b_waiters b0))) b0.

(** [enqueue]: the new waiter and the broker. *)
Definition enqueue (ticket : string) (b : broker) : nat * broker :=
  let t := loop_time (b_tick b) in
  let queued :=
    negb (bool_decide (b_waiters b = [])) || (b_max_in_flight b <=? b_active b)%Z ||
    f_lt t (b_not_before b) || (f_truth (b_interval b) && negb (b_reserved_calls b =? 0)%Z) in
  let w := length (b_table b) in
  let x := mk_bwaiter ticket (perf_counter (b_tick b)) (Z.of_nat (length (b_waiters b)) + 1) queued
             FutPending BQueued in
  (w, offer_available (b_queue (b_waiters b ++ [w]) (b_tables (b_table b ++ [x]) (b_ticked b)))).

(** [_decrement_active]. *)
Definition decrement_active (retract_reservation : bool) (b : broker) : result broker :=
  if (b_active b <=? 0)%Z || (retract_reservation && (b_reserved_calls b <=? 0)%Z)
  then Raise RuntimeError
  else Ok (b_counters (b_active b - 1) (b_peak_active b) (b_admitted_calls b)
             (if retract_reservation then b_reserved_calls b - 1 else b_reserved_calls b) b).

(** [disconnect]. *)
Definition disconnect (w : nat) (b : broker) : result broker :=
  let! b' :=
    match b_state_of w b with
    | Some BQueued =>
        Ok (b_waiter w (bw_with_future FutCancelled)
              (b_queue (discard_first w (b_waiters b)) (b_waiter w (bw_with_state BCancelled) b)))
    | Some BOffered => decrement_active true (b_waiter w (bw_with_state BCancelled) b)
    | Some BLeased => decrement_active false (b_waiter w (bw_with_state BTerminal) b)
    | _ => Ok b
    end in
  Ok (offer_available b').

(** [confirm]: the admitted calls it reports and the broker. *)
Definition confirm (w : nat) (b : broker) : result (Z * broker) :=
  if negb (bool_decide (b_state_of w b = Some BOffered)) then Raise RuntimeError
  else
    let b1 := b_waiter w (bw_with_state BLeased) b in
    if (b_reserved_calls b1 <=? 0)%Z then Raise RuntimeError
    else
      let b2 := b_counters (b_active b1) (b_peak_active b1) (b_admitted_calls b1 + 1)
                  (b_reserved_calls b1 - 1) b1 in
      let b3 := if f_truth (b_interval b2)
                then b_pace (f_max (b_not_before b2)
                               (f_add (loop_time (b_tick b2)) (b_interval b2))) (b_ticked b2)
                else b2 in
      Ok (b_admitted_calls b3, offer_available b3).

(** [cooldown] with a delay that was validated. *)
Definition cooldown (delay : pyfloat) (b : broker) : broker :=
  match b_max_cooldown b with
  | None => b
  | Some m =>
      offer_available (b_pace (f_max (b_not_before b)
        (f_add (loop_time (b_tick b)) (f_min delay m))) (b_ticked b))
  end.

(** [close]. *)
Definition close (b : broker) : broker := b_timer None (b_close_flag b).

(** [snapshot]. *)
Definition snapshot (b : broker) : Z * Z * Z * Z * Z * option Z :=
  (b_active b, b_peak_active b, Z.of_nat (length (b_waiters b)), b_admitted_calls b,
   b_max_in_flight b, b_max_calls b).

(** The armed timer fires: [loop.call_at(..., self._offer_available)]. *)
Definition timer_fires (b : broker) : option broker :=
  match b_wake b with Some _ => Some (offer_available b) | None => None end.

(** ** Connections *)

(** A line read from a connection: end of file, more than
    [_MAX_MESSAGE_BYTES], a line that is not JSON, or a JSON value. *)
Inductive line := LEof | LTooLong | LBadJson | LJson (v : pyval).

(** Where the handler of a connection is suspended: reading a request, in
    [_wait_for_outcome], after the offer, after [ready], holding a lease, or
    done. *)
Inductive conn :=
  | CIdle
  | CWaiting (w : nat)
  | COffered (w : nat)
  | CReady (w : nat)
  | CLeased (w : nat)
  | CClosed.

(** The messages the handler writes. *)
Inductive reply :=
  | RUnauthorized | ROutcome (o : outcome) | RReady | RConfirmed (admitted_calls : Z)
  | RCooldownApplied.

Definition conn_waiter (c : conn) : option nat :=
  match c with CWaiting w | COffered w | CReady w | CLeased w => Some w | CIdle | CClosed => None end.

Variable auth_token : string.
(** [str(v)] of a JSON value. *)
Variable py_str : pyval → string.

(** [request.get(key)] of a JSON object; [None] when the value is no object,
    where the attribute lookup fails. *)
Definition json_get (key : string) (v : pyval) : option pyval :=
  match v with VDict d => Some (default VNone (dict_get key d)) | _ => None end.

(** [key in request]. *)
Definition dict_has (key : string) (v : pyval) : bool :=
  match v with VDict d => dict_mem key d | _ => false end.

(** [v == n] for a JSON value. *)
Definition eq_int (v : pyval) (n : Z) : bool :=
  match v with
  | VInt m => (m =? n)%Z
  | VBool b => ((if b then 1 else 0) =? n)%Z
  | VFloat f => SFeqb f (f_of_Z n)
  | _ => false
  end.

Definition eq_str (v : pyval) (s : string) : bool :=
  match v with VStr t => bool_decide (t = s) | _ => false end.

(** [hmac.compare_digest] of two texts takes ASCII only. *)
Fixpoint is_ascii (s : string) : bool :=
  match s with EmptyString => true | String c s' => (nat_of_ascii c <? 128) && is_ascii s' end.

(** [_authorized]. *)
Definition authorized (request : pyval) (b : broker) : result bool :=
  match request with
  | VDict d =>
      if eq_int (default VNone (dict_get "version"%string d)) 3 &&
         eq_str (default VNone (dict_get "group"%string d)) (b_group b)
      then match dict_get "auth_token"%string d with
           | Some (VStr token) =>
               if is_ascii token && is_ascii auth_token then Ok (bool_decide (token = auth_token))
               else Raise TypeError
           | _ => Ok false
           end
      else Ok false
  | _ => Ok false
  end.

Definition status_is (v : pyval) (s : string) : bool :=
  match json_get "status" v with Some x => eq_str x s | None => false end.

(** The handler ends: its waiter, if any, is disconnected. *)
Definition hang_up (c : conn) (b : broker) : result (conn * list reply * broker) :=
  match conn_waiter c with
  | Some w => let! b' := disconnect w b in Ok (CClosed, [], b')
  | None => Ok (CClosed, [], b)
  end.

(** A line arrives on the connection. *)
Definition on_line (l : line) (c : conn) (b : broker) : result (conn * list reply * broker) :=
  match c, l with
  | CIdle, LJson request =>
      match authorized request b with
      | Raise _ => hang_up c b
      | Ok false => Ok (CClosed, [RUnauthorized], b)
      | Ok true =>
          let ticket := match json_get "ticket" request with
                        | Some (VNone as v) => if dict_has "ticket" request then py_str v else ""%string
                        | Some v => py_str v
                        | None => ""%string
                        end in
          if bool_decide (ticket = ""%string) then hang_up c b
          else let '(w, b') := enqueue ticket b in Ok (CWaiting w, [], b')
      end
  | CWaiting w, _ =>
      (* [_wait_for_outcome] disconnects, and so does the end of the handler. *)
      let! b' := disconnect w b in hang_up c b'
  | COffered w, LJson v =>
      if status_is v "accept" then Ok (CReady w, [RReady], b) else hang_up c b
  | CReady w, LJson v =>
      if status_is v "acquired" then
        match confirm w b with
        | Ok (n, b') => Ok (CLeased w, [RConfirmed n], b')
        | Raise _ => hang_up c b
        end
      else hang_up c b
  | CLeased w, LJson v =>
      if status_is v "cooldown" then
        match validated_positive_option (default VNone (json_get "delay_s" v)) with
        | Ok (Some delay) => Ok (c, [RCooldownApplied], cooldown delay b)
        | _ => hang_up c b
        end
      else if status_is v "release" then
        let! b' := disconnect w b in Ok (CIdle, [], b')
      else hang_up c b
  | _, _ => hang_up c b
  end.

(** The future of a waiting connection is done: [None] while it is pending. *)
Definition on_future (c : conn) (b : broker) : option (result (conn * list reply * broker)) :=
  match c with
  | CWaiting w =>
      match b_table b !! w with
      | Some x =>
          match bw_future x with
          | FutPending => None
          | FutCancelled => Some (hang_up c b)
          | FutResult (CallCap _ _ _ _ as o) =>
              Some (let! cb := hang_up c b in Ok (CClosed, [ROutcome o], cb.2))
          | FutResult (Offered _ _ _ _ as o) => Some (Ok (COffered w, [ROutcome o], b))
          end
      | None => None
      end
  | _ => None
  end.

(** ** The server *)

(** The broker and its connections, by number. *)
Record server := mk_server { sv_broker : broker; sv_conns : list conn }.

(** A client connects; a line arrives; a waiter's future wakes its handler; a
    connection breaks or its handler is cancelled; the timer fires; the broker
    shuts down. *)
Inductive event :=
  | EConnect
  | ELine (c : nat) (l : line)
  | EFuture (c : nat)
  | EDrop (c : nat)
  | ETimer
  | EClose.

Definition with_conn (i : nat) (r : result (conn * list reply * broker)) (s : server) : result server :=
  let! cb := r in Ok (mk_server cb.2 (<[i := cb.1.1]> (sv_conns s))).

Definition server_step (e : event) (s : server) : option (result server) :=
  match e with
  | EConnect => Some (Ok (mk_server (sv_broker s) (sv_conns s ++ [CIdle])))
  | ELine i l =>
      match sv_conns s !! i with
      | None | Some CClosed => None
      | Some c => Some (with_conn i (on_line l c (sv_broker s)) s)
      end
  | EFuture i =>
      match sv_conns s !! i with
      | None => None
      | Some c => (λ r, with_conn i r s) <$> on_future c (sv_broker s)
      end
  | EDrop i =>
      match sv_conns s !! i with
      | None | Some CClosed => None
      | Some c => Some (with_conn i (hang_up c (sv_broker s)) s)
      end
  | ETimer => (λ b, Ok (mk_server b (sv_conns s))) <$> timer_fires (sv_broker s)
  | EClose => Some (Ok (mk_server (close (sv_broker s)) (sv_conns s)))
  end.

Definition sv_step (s : server) (e : event) (s' : server) : Prop := server_step e s = Some (Ok s').
End State.
