(* ===== verification/BrokerRuns.v ===== *)
(** * BrokerRuns: the invariants of the admission broker

    Capacity, the call budget, first-come first-served order and progress, for
    every interleaving of connections, timers and failures of [Broker.v]. *)

From S2P Require Import Prelude PyFloat Values Fifo Broker.

Open Scope nooa_scope.

(** ** Accounting *)

Definition bstates (b : broker) : list bstate := bw_state <$> b_table b.

Definition is_offered (x : bstate) : bool := match x with BOffered => true | _ => false end.
Definition is_leased (x : bstate) : bool := match x with BLeased => true | _ => false end.

Record bacct := mk_bacct {
  ba_max : Z;
  ba_cap : option Z;
  ba_active : Z;
  ba_peak : Z;
  ba_admitted : Z;
  ba_reserved : Z;
  ba_waiters : list nat;
  ba_states : list bstate;
}.

Definition bacct_of (b : broker) : bacct :=
  mk_bacct (b_max_in_flight b) (b_max_calls b) (b_active b) (b_peak_active b) (b_admitted_calls b)
    (b_reserved_calls b) (b_waiters b) (bstates b).

(** Reserved calls are the open offers, active slots the offers and leases; the
    concurrency bound and the call budget hold, the budget with every open
    offer counted in. *)
Record bok (a : bacct) : Prop := mk_bok {
  bk_max : (0 < ba_max a)%Z;
  bk_reserved : ba_reserved a = count is_offered (ba_states a);
  bk_active : ba_active a = (count is_offered (ba_states a) + count is_leased (ba_states a))%Z;
  bk_peak : (ba_active a <= ba_peak a <= ba_max a)%Z;
  bk_admitted : (0 <= ba_admitted a)%Z;
  bk_cap : ∀ m, ba_cap a = Some m → (ba_admitted a + ba_reserved a <= m)%Z;
  bk_fifo : fifo_ok BQueued (eq BCancelled) (ba_waiters a) (ba_states a);
}.

Ltac bok_tac :=
  split; simpl in *; try done; try lia;
  try (match goal with H : _ !! _ = Some _ |- _ => rewrite !(count_insert _ _ _ _ _ H) end);
  rewrite ?count_app; cbn; try lia.

Lemma bok_enqueue a :
  bok a →
  bok (mk_bacct (ba_max a) (ba_cap a) (ba_active a) (ba_peak a) (ba_admitted a) (ba_reserved a)
         (ba_waiters a ++ [length (ba_states a)]) (ba_states a ++ [BQueued])).
Proof. intros [? ? ? ? ? ? Hf]. pose proof (fifo_enqueue _ _ _ _ Hf). bok_tac. Qed.

(** The head of the queue is refused: the budget is used up. *)
Lemma bok_refuse a w ws :
  bok a → ba_waiters a = w :: ws →
  bok (mk_bacct (ba_max a) (ba_cap a) (ba_active a) (ba_peak a) (ba_admitted a) (ba_reserved a)
         ws (<[w := BTerminal]> (ba_states a))).
Proof.
  intros [? ? ? ? ? ? Hf] Hw. rewrite Hw in Hf. pose proof (fifo_pop _ _ _ _ _ BTerminal Hf) as Hp.
  apply fifo_head in Hf. bok_tac. by apply Hp.
Qed.

Lemma bok_offer a w ws :
  bok a → ba_waiters a = w :: ws → (ba_active a < ba_max a)%Z →
  (∀ m, ba_cap a = Some m → ba_admitted a + ba_reserved a < m)%Z →
  bok (mk_bacct (ba_max a) (ba_cap a) (ba_active a + 1) (Z.max (ba_peak a) (ba_active a + 1))
         (ba_admitted a) (ba_reserved a + 1) ws (<[w := BOffered]> (ba_states a))).
Proof.
  intros [? ? ? ? ? ? Hf] Hw Hlt Hcap. rewrite Hw in Hf.
  pose proof (fifo_pop _ _ _ _ _ BOffered Hf) as Hp. apply fifo_head in Hf. bok_tac.
  - intros m Hm. specialize (Hcap m Hm). lia.
  - by apply Hp.
Qed.

Lemma bok_confirm a w :
  bok a → ba_states a !! w = Some BOffered →
  (0 < ba_reserved a)%Z ∧
  bok (mk_bacct (ba_max a) (ba_cap a) (ba_active a) (ba_peak a) (ba_admitted a + 1)
         (ba_reserved a - 1) (ba_waiters a) (<[w := BLeased]> (ba_states a))).
Proof.
  intros [? Hr ? ? ? Hc Hf] Hlk. pose proof (fifo_settle _ _ _ _ _ _ BLeased Hf Hlk) as Hp.
  split; [rewrite Hr; by eapply count_pos|]. bok_tac.
  - intros m Hm. specialize (Hc m Hm). lia.
  - by apply Hp.
Qed.

Lemma bok_retract a w :
  bok a → ba_states a !! w = Some BOffered →
  (0 < ba_active a)%Z ∧ (0 < ba_reserved a)%Z ∧
  bok (mk_bacct (ba_max a) (ba_cap a) (ba_active a - 1) (ba_peak a) (ba_admitted a)
         (ba_reserved a - 1) (ba_waiters a) (<[w := BCancelled]> (ba_states a))).
Proof.
  intros [? Hr Ha ? ? Hc Hf] Hlk. pose proof (fifo_settle _ _ _ _ _ _ BCancelled Hf Hlk) as Hp.
  pose proof (count_pos is_offered _ _ _ Hlk eq_refl). pose proof (count_nonneg is_leased (ba_states a)).
  split_and!; [lia|lia|]. bok_tac.
  - intros m Hm. specialize (Hc m Hm). lia.
  - by apply Hp.
Qed.

Lemma bok_return a w :
  bok a → ba_states a !! w = Some BLeased →
  (0 < ba_active a)%Z ∧
  bok (mk_bacct (ba_max a) (ba_cap a) (ba_active a - 1) (ba_peak a) (ba_admitted a)
         (ba_reserved a) (ba_waiters a) (<[w := BTerminal]> (ba_states a))).
Proof.
  intros [? Hr Ha ? ? Hc Hf] Hlk. pose proof (fifo_settle _ _ _ _ _ _ BTerminal Hf Hlk) as Hp.
  pose proof (count_pos is_leased _ _ _ Hlk eq_refl). pose proof (count_nonneg is_offered (ba_states a)).
  split; [lia|]. bok_tac. by apply Hp.
Qed.

Lemma bok_cancel a w :
  bok a → ba_states a !! w = Some BQueued →
  bok (mk_bacct (ba_max a) (ba_cap a) (ba_active a) (ba_peak a) (ba_admitted a) (ba_reserved a)
         (discard_first w (ba_waiters a)) (<[w := BCancelled]> (ba_states a))).
Proof.
  intros [? ? ? ? ? ? Hf] Hlk. destruct (fifo_cancel _ _ _ _ w BCancelled Hf Hlk); [done|done|]. bok_tac.
Qed.

Lemma bstates_waiter w f b v :
  (∀ x, bw_state (f x) = v) → bstates (b_waiter w f b) = <[w := v]> (bstates b).
Proof.
  intros Hf. apply list_eq. intros i. unfold bstates. simpl. rewrite list_lookup_fmap, list_lookup_alter.
  destruct (decide (w = i)) as [<-|Hne].
  - destruct (b_table b !! w) eqn:Hx; simpl.
    + rewrite list_lookup_insert_eq; [by rewrite Hf|]. rewrite length_fmap. by eapply lookup_lt_Some.
    + symmetry. apply lookup_ge_None_2. rewrite length_insert, length_fmap. by apply lookup_ge_None_1.
  - by rewrite list_lookup_insert_ne, list_lookup_fmap.
Qed.

Lemma bstates_waiter_same w f b :
  (∀ x, bw_state (f x) = bw_state x) → bstates (b_waiter w f b) = bstates b.
Proof.
  intros Hf. apply list_eq. intros i. unfold bstates. simpl. rewrite !list_lookup_fmap, list_lookup_alter.
  destruct (decide (w = i)) as [<-|]; [|done]. destruct (b_table b !! w); simpl; [by rewrite Hf|done].
Qed.

Lemma bstates_lookup b w : bstates b !! w = b_state_of w b.
Proof. unfold bstates, b_state_of. by rewrite list_lookup_fmap. Qed.

(** ** [_offer_available] *)

(** How offering changes a waiter: a queued one gets an offer or is refused. *)
Definition answered (x x' : bwaiter) : Prop :=
  x' = x ∨
  (bw_state x = BQueued ∧
   ((bw_state x' = BOffered ∧ ∃ q d t n, bw_future x' = FutResult (Offered q d t n)) ∨
    (bw_state x' = BTerminal ∧ ∃ q d t n, bw_future x' = FutResult (CallCap q d t n)))).

Record offers (b b' : broker) : Prop := mk_offers {
  of_table : ∀ w, option_Forall2 answered (b_table b !! w) (b_table b' !! w);
  of_closed : b_closed b' = b_closed b;
  of_max : b_max_in_flight b' = b_max_in_flight b;
  of_calls : b_max_calls b' = b_max_calls b;
  of_interval : b_interval b' = b_interval b;
  of_admitted : b_admitted_calls b' = b_admitted_calls b;
  of_group : b_group b' = b_group b;
}.

#[export] Instance offers_preorder : PreOrder offers.
Proof.
  split.
  - intros b. split; try done. intros w. destruct (b_table b !! w); constructor. by left.
  - intros b1 b2 b3 [T1 ? ? ? ? ? ?] [T2 ? ? ? ? ? ?]. split; [|congruence..]. intros w.
    specialize (T1 w). specialize (T2 w).
    inversion T1 as [x y Hxy Ex Ey|Ex Ey]; rewrite <- Ey in T2;
      inversion T2 as [y' z Hyz Ey' Ez|Ey' Ez]; constructor. subst.
    destruct Hxy as [->|(Hq & Hd)]; [done|]. destruct Hyz as [->|(Hq' & _)]; [by right|].
    destruct Hd as [[Hd _]|[Hd _]]; congruence.
Qed.

(** What keeps a queue waiting although a slot is free: in a paced group an
    offer that is not confirmed yet, or a budget that the open offers would use
    up. *)
Definition offer_pending (b : broker) : Prop := f_truth (b_interval b) = true ∧ (0 < b_reserved_calls b)%Z.
Definition budget_pending (b : broker) : Prop :=
  ∃ n, b_max_calls b = Some n ∧ (b_admitted_calls b < n <= b_admitted_calls b + b_reserved_calls b)%Z.

(** The queue moves on by itself: while the broker is open, it is empty, or its
    head waits for the timer, armed for the gate, for a slot or for an open
    offer. *)
Definition flowing (b : broker) : Prop :=
  b_closed b = false → b_waiters b = [] ∨ b_wake b = Some (b_not_before b) ∨
    (b_max_in_flight b <= b_active b)%Z ∨ offer_pending b ∨ budget_pending b.

Lemma offers_head w ws v f b b' :
  bok (bacct_of b) → b_waiters b = w :: ws →
  b_table b' = alter f w (b_table b) → (∀ x, answered x (f x) ∨ bw_state x ≠ BQueued) →
  b_closed b' = b_closed b → b_max_in_flight b' = b_max_in_flight b →
  b_max_calls b' = b_max_calls b → b_interval b' = b_interval b →
  b_admitted_calls b' = b_admitted_calls b → b_group b' = b_group b →
  (∀ x, bw_state (f x) = v) → offers b b' ∧ bstates b' = <[w := v]> (bstates b).
Proof.
  intros Hok Hw Ht Hf ?????? Hv. split.
  - split; try done. intros i. rewrite Ht, list_lookup_alter.
    destruct (decide (w = i)) as [<-|Hne].
    + destruct (b_table b !! w) as [x|] eqn:Hx; constructor. destruct (Hf x) as [?|Hn]; [done|].
      destruct Hn. pose proof (bk_fifo _ Hok) as Hff. simpl in Hff. rewrite Hw in Hff.
      apply fifo_head in Hff. rewrite bstates_lookup in Hff. unfold b_state_of in Hff.
      rewrite Hx in Hff. by injection Hff.
    + destruct (b_table b !! i); constructor. by left.
  - rewrite <- (bstates_waiter w f b v Hv). unfold bstates. by rewrite Ht.
Qed.

Section Runs.
Variable loop_time perf_counter : nat → pyfloat.

Lemma offer_loop_spec fuel b :
  length (b_waiters b) < fuel → bok (bacct_of b) →
  let b' := offer_loop loop_time perf_counter fuel b in
  bok (bacct_of b') ∧ offers b b' ∧ flowing b'.
Proof.
  revert b. induction fuel as [|fuel IH]; intros b Hlen Hok; [lia|]. cbn [offer_loop].
  destruct (b_waiters b) as [|w ws] eqn:Hw; [by split_and!; [..|left]|].
  destruct (b_table b !! w) as [x|] eqn:Hx; cycle 1.
  { exfalso. pose proof (bk_fifo _ Hok) as Hff. simpl in Hff. rewrite Hw in Hff.
    apply fifo_head in Hff. rewrite bstates_lookup in Hff. unfold b_state_of in Hff. by rewrite Hx in Hff. }
  destruct (cap_reached (b_admitted_calls b) b) eqn:Hcap.
  { cbv zeta. set (b1 := b_waiter w _ _).
    destruct (offers_head w ws BTerminal _ b b1 Hok Hw eq_refl) as [Ho Hst]; try done.
    { intros y. destruct (bw_state y) eqn:Hy; try (by right). left. right.
      split; [done|]. right. simpl. eauto 10. }
    destruct (IH b1) as (? & ? & ?); [simpl in *; lia| |split_and!; [done|by etransitivity|done]].
    pose proof (bok_refuse _ _ _ Hok Hw) as Hr. unfold bacct_of. rewrite Hst. exact Hr. }
  destruct (cap_reached (b_admitted_calls b + b_reserved_calls b) b) eqn:Hcap2.
  { split_and!; [done..|]. do 4 right. unfold cap_reached in *.
    destruct (b_max_calls b) as [n|] eqn:Hn; [|done]. exists n. split; [done|]. lia. }
  destruct (Z.leb_spec (b_max_in_flight b) (b_active b)) as [Hm|Hm]; [by split_and!; [done..|intros _; right; right; left]|].
  destruct (f_truth (b_interval b) && negb (b_reserved_calls b =? 0)%Z)%bool eqn:Hi.
  { split_and!; [done..|]. do 3 right. left. apply andb_prop in Hi as [? Hi%negb_true_iff%Z.eqb_neq].
    pose proof (bk_reserved _ Hok) as Hr. simpl in Hr.
    pose proof (count_nonneg is_offered (bstates b)). split; [done|lia]. }
  cbv zeta. case_match; [split_and!; [done| |]|].
  { split; try done. intros i. simpl. destruct (b_table b !! i); constructor. by left. }
  { intros _. right. by left. }
  assert (Hxq : bw_state x = BQueued).
  { pose proof (bk_fifo _ Hok) as Hff. simpl in Hff. rewrite Hw in Hff. apply fifo_head in Hff.
    rewrite bstates_lookup in Hff. unfold b_state_of in Hff. rewrite Hx in Hff. by injection Hff. }
  rewrite Hxq, bool_decide_eq_true_2 by done. cbn [negb].
  assert (Hcm : ∀ m, b_max_calls b = Some m → (b_admitted_calls b + b_reserved_calls b < m)%Z).
  { intros m Hmc. unfold cap_reached in Hcap2. rewrite Hmc in Hcap2. lia. }
  pose proof (bok_offer _ _ _ Hok Hw Hm Hcm) as Hoff.
  set (b3 := b_counters _ _ _ _ _).
  set (b4 := if f_truth (b_interval b3) then _ else b3).
  set (b5 := b_waiter w _ (b_ticked b4)).
  assert (Hb5 : ∃ f, b_table b5 = alter f w (b_table b) ∧ (∀ x, bw_state (f x) = BOffered) ∧
    (∀ x, answered x (f x) ∨ bw_state x ≠ BQueued)).
  { set (g := bw_with_future _) in b5. exists (λ x, g (bw_with_state BOffered x)). split_and!.
    - assert (Ht : b_table b4 = alter (bw_with_state BOffered) w (b_table b)).
      { unfold b4. by destruct (f_truth _). }
      subst b5. unfold b_waiter, b_tables, b_ticked. cbn [b_table]. rewrite Ht.
      apply list_eq. intros i. rewrite !list_lookup_alter.
      destruct (decide (w = i)) as [<-|]; [|done]. rewrite decide_True by done.
      by destruct (b_table b !! w).
    - done.
    - intros y. destruct (bw_state y) eqn:Hy; try (by right). left. right.
      split; [done|]. left. split; [done|]. unfold g. simpl. eauto 10. }
  destruct Hb5 as (f & Ht5 & Hf5 & Hans).
  assert (Hrest : b_closed b5 = b_closed b ∧ b_max_in_flight b5 = b_max_in_flight b ∧
    b_max_calls b5 = b_max_calls b ∧ b_interval b5 = b_interval b ∧
    b_admitted_calls b5 = b_admitted_calls b ∧ b_group b5 = b_group b ∧
    b_active b5 = (b_active b + 1)%Z ∧ b_peak_active b5 = Z.max (b_peak_active b) (b_active b + 1) ∧
    b_reserved_calls b5 = (b_reserved_calls b + 1)%Z ∧ b_waiters b5 = ws).
  { subst b5 b4 b3. by destruct (f_truth _). }
  destruct Hrest as (E1 & E2 & E3 & E4 & E5 & E6 & E7 & E8 & E9 & E10).
  destruct (offers_head w ws BOffered f b b5 Hok Hw Ht5 Hans) as [Ho Hst]; try done.
  clearbody b5. destruct (IH b5) as (? & ? & ?); [simpl in *; rewrite E10; lia| |].
  - unfold bacct_of. rewrite E2, E3, E5, E7, E8, E9, E10, Hst. exact Hoff.
  - split_and!; [done|by etransitivity|done].
Qed.

Lemma offer_available_spec b :
  bok (bacct_of b) →
  let b' := offer_available loop_time perf_counter b in
  bok (bacct_of b') ∧ offers b b' ∧ flowing b'.
Proof.
  intros Hok. unfold offer_available. cbv zeta.
  assert (Ho : offers b (b_timer None b)).
  { split; try done. intros i. simpl. destruct (b_table b !! i); constructor. by left. }
  destruct (b_closed (b_timer None b)) eqn:Hc.
  - split_and!; [done|done|]. intros Hf. congruence.
  - destruct (offer_loop_spec (S (length (b_waiters (b_timer None b)))) (b_timer None b))
      as (? & ? & ?); [lia|done|]. split_and!; [done|by etransitivity|done].
Qed.

(** ** The operations of [_BrokerState] *)

(** Waiters other than [w] are only answered. *)
Definition others_answered (w : nat) (b b' : broker) : Prop :=
  ∀ w', w' ≠ w → option_Forall2 answered (b_table b !! w') (b_table b' !! w').

(** What no operation changes. *)
Definition b_settings (b : broker) : Z * option Z * string :=
  (b_max_in_flight b, b_max_calls b, b_group b).

(** The states in which a waiter belongs to a connection. *)
Definition held (x : bwaiter) : Prop :=
  bw_state x = BQueued ∨ bw_state x = BOffered ∨ bw_state x = BLeased.

Lemma answered_held x x' : answered x x' → held x' → held x.
Proof. intros [->|(Hq & _)]; [done|by left]. Qed.

Lemma answered_fixed x x' : answered x x' → bw_state x ≠ BQueued → x' = x.
Proof. by intros [->|(Hq & _)]. Qed.

Lemma offers_settings b b' : offers b b' → b_settings b' = b_settings b.
Proof. intros []. unfold b_settings. congruence. Qed.

Lemma alter_others w f b b0 b' :
  b_table b0 = alter f w (b_table b) → offers b0 b' → others_answered w b b'.
Proof.
  intros Ht Ho w' Hne. pose proof (of_table _ _ Ho w') as T.
  by rewrite Ht, list_lookup_alter_ne in T.
Qed.

(** Offering after a direct change of [w] to a state that is not [queued]. *)
Lemma offer_after w f v b b0 x :
  b_table b !! w = Some x → b_table b0 = alter f w (b_table b) → bw_state (f x) = v → v ≠ BQueued →
  bok (bacct_of b0) →
  let b' := offer_available loop_time perf_counter b0 in
  bok (bacct_of b') ∧ flowing b' ∧ others_answered w b b' ∧ b_table b' !! w = Some (f x) ∧
  offers b0 b'.
Proof.
  intros Hx Ht Hv Hnq Hok. destruct (offer_available_spec b0 Hok) as (H1 & H2 & H3).
  split_and!; try done; [by eapply alter_others|].
  pose proof (of_table _ _ H2 w) as T. rewrite Ht, list_lookup_alter_eq, Hx in T.
  inversion T as [y y' Ha E1 E2|]; subst. f_equal. by apply answered_fixed.
Qed.

Lemma alter_lookup_states w f v b b0 :
  b_table b0 = alter f w (b_table b) → (∀ x, bw_state (f x) = v) →
  bstates b0 = <[w := v]> (bstates b).
Proof. intros Ht Hv. rewrite <- (bstates_waiter w f b v Hv). unfold bstates. by rewrite Ht. Qed.

Lemma disconnect_spec w b x :
  bok (bacct_of b) → b_table b !! w = Some x →
  ∃ b' x', disconnect loop_time perf_counter w b = Ok b' ∧ bok (bacct_of b') ∧ flowing b' ∧
    others_answered w b b' ∧ b_table b' !! w = Some x' ∧ ¬ held x' ∧ b_settings b' = b_settings b.
Proof.
  intros Hok Hx. unfold disconnect.
  assert (Hst : bstates b !! w = Some (bw_state x)).
  { rewrite bstates_lookup. unfold b_state_of. by rewrite Hx. }
  assert (Hs : b_state_of w b = Some (bw_state x)) by (by rewrite <- bstates_lookup).
  rewrite Hs. destruct (bw_state x) eqn:Hb.
  - set (b0 := b_waiter w _ _). cbn [result_bind].
    assert (Ht : b_table b0 = alter (λ y, bw_with_future FutCancelled (bw_with_state BCancelled y)) w (b_table b)).
    { apply list_eq. intros i. simpl. rewrite !list_lookup_alter.
      destruct (decide (w = i)) as [<-|]; [|done]. rewrite decide_True by done. by destruct (b_table b !! w). }
    destruct (offer_after w _ BCancelled b b0 x Hx Ht) as (H1 & H2 & H3 & H4 & H5); [done|done| |].
    { unfold bacct_of. rewrite (alter_lookup_states _ _ BCancelled _ _ Ht) by done.
      exact (bok_cancel (bacct_of b) w Hok Hst). }
    eexists _, _. split_and!; try done; [by intros [|[]]|by rewrite (offers_settings _ _ H5)].
  - destruct (bok_retract (bacct_of b) w Hok Hst) as (Ha & Hr & Hok').
    unfold decrement_active. simpl in Ha, Hr. cbn [b_waiter b_tables b_active b_reserved_calls andb].
    destruct (Z.leb_spec (b_active b) 0); [lia|]. destruct (Z.leb_spec (b_reserved_calls b) 0); [lia|].
    cbn [orb result_bind]. set (b0 := b_counters _ _ _ _ _).
    assert (Ht : b_table b0 = alter (bw_with_state BCancelled) w (b_table b)) by done.
    destruct (offer_after w _ BCancelled b b0 x Hx Ht) as (H1 & H2 & H3 & H4 & H5); [done|done| |].
    { unfold bacct_of. rewrite (alter_lookup_states _ _ BCancelled _ _ Ht) by done. exact Hok'. }
    eexists _, _. split_and!; try done; [by intros [|[]]|by rewrite (offers_settings _ _ H5)].
  - destruct (bok_return (bacct_of b) w Hok Hst) as (Ha & Hok').
    unfold decrement_active. simpl in Ha. cbn [b_waiter b_tables b_active b_reserved_calls andb].
    destruct (Z.leb_spec (b_active b) 0); [lia|]. cbn [orb result_bind]. set (b0 := b_counters _ _ _ _ _).
    assert (Ht : b_table b0 = alter (bw_with_state BTerminal) w (b_table b)) by done.
    destruct (offer_after w _ BTerminal b b0 x Hx Ht) as (H1 & H2 & H3 & H4 & H5); [done|done| |].
    { unfold bacct_of. rewrite (alter_lookup_states _ _ BTerminal _ _ Ht) by done. exact Hok'. }
    eexists _, _. split_and!; try done; [by intros [|[]]|by rewrite (offers_settings _ _ H5)].
  - cbn [result_bind]. destruct (offer_available_spec b Hok) as (H1 & H2 & H3).
    pose proof (of_table _ _ H2 w) as T. rewrite Hx in T. inversion T as [y y' Ha' E1 E2|]; subst.
    apply answered_fixed in Ha'; [|by rewrite Hb]. subst y'.
    exists (offer_available loop_time perf_counter b), x.
    split_and!; try done; [intros w' _; apply H2|intros [|[]]; congruence|by apply offers_settings].
  - cbn [result_bind]. destruct (offer_available_spec b Hok) as (H1 & H2 & H3).
    pose proof (of_table _ _ H2 w) as T. rewrite Hx in T. inversion T as [y y' Ha' E1 E2|]; subst.
    apply answered_fixed in Ha'; [|by rewrite Hb]. subst y'.
    exists (offer_available loop_time perf_counter b), x.
    split_and!; try done; [intros w' _; apply H2|intros [|[]]; congruence|by apply offers_settings].
Qed.

Lemma confirm_spec w b x :
  bok (bacct_of b) → b_table b !! w = Some x → bw_state x = BOffered →
  ∃ b', confirm loop_time perf_counter w b = Ok ((b_admitted_calls b + 1)%Z, b') ∧
    bok (bacct_of b') ∧ flowing b' ∧ others_answered w b b' ∧
    b_table b' !! w = Some (bw_with_state BLeased x) ∧
    b_admitted_calls b' = (b_admitted_calls b + 1)%Z ∧ b_settings b' = b_settings b.
Proof.
  intros Hok Hx Hb. unfold confirm, b_state_of. rewrite Hx. simpl fmap. rewrite Hb.
  assert (Hst : bstates b !! w = Some BOffered).
  { rewrite bstates_lookup. unfold b_state_of. by rewrite Hx, <- Hb. }
  destruct (bok_confirm (bacct_of b) w Hok Hst) as (Hr & Hok'). simpl in Hr.
  rewrite bool_decide_eq_true_2 by done. cbn [negb b_waiter b_tables b_reserved_calls].
  destruct (Z.leb_spec (b_reserved_calls b) 0); [lia|]. cbv zeta.
  set (b2 := b_counters _ _ _ _ _). set (b3 := if f_truth _ then _ else _).
  assert (H3 : b_table b3 = alter (bw_with_state BLeased) w (b_table b) ∧
    b_admitted_calls b3 = (b_admitted_calls b + 1)%Z ∧ b_settings b3 = b_settings b ∧
    bacct_of b3 = bacct_of b2).
  { unfold b3. by destruct (f_truth _). }
  destruct H3 as (Ht & Had & Hse & Hac). clearbody b3.
  destruct (offer_after w _ BLeased b b3 x Hx Ht) as (H1 & H2 & H3 & H4 & H5); [done|done| |].
  { rewrite Hac. unfold bacct_of. unfold b2.
    rewrite (alter_lookup_states w (bw_with_state BLeased) BLeased b) by done. exact Hok'. }
  rewrite Had. eexists. split; [done|]. split_and!; try done.
  - rewrite (of_admitted _ _ H5). done.
  - by rewrite (offers_settings _ _ H5).
Qed.

Lemma enqueue_spec t b :
  bok (bacct_of b) →
  let '(w, b') := enqueue loop_time perf_counter t b in
  w = length (b_table b) ∧ bok (bacct_of b') ∧ flowing b' ∧ others_answered w b b' ∧
  b_settings b' = b_settings b ∧
  ∃ y x', bw_state y = BQueued ∧ bw_future y = FutPending ∧ b_table b' !! w = Some x' ∧ answered y x'.
Proof.
  intros Hok. unfold enqueue. cbv zeta. set (b0 := b_queue _ _). set (y := mk_bwaiter _ _ _ _ _ _) in b0.
  assert (Hok0 : bok (bacct_of b0)).
  { pose proof (bok_enqueue _ Hok) as He. simpl in He. unfold bacct_of. unfold bstates, b0. simpl.
    rewrite fmap_app. unfold bstates in He. by rewrite length_fmap in He. }
  destruct (offer_available_spec b0 Hok0) as (H1 & H2 & H3).
  pose proof (of_table _ _ H2 (length (b_table b))) as T. simpl in T.
  rewrite lookup_app_r, Nat.sub_diag in T by lia. simpl in T. inversion T as [y0 x' Ha E1 E2|]; subst.
  split_and!; try done.
  - intros w' Hne. pose proof (of_table _ _ H2 w') as T'. simpl in T'.
    destruct (decide (w' < length (b_table b))) as [Hlt|Hge].
    + by rewrite lookup_app_l in T'.
    + rewrite lookup_ge_None_2 in T' by (rewrite length_app; simpl; lia).
      inversion T'. rewrite (lookup_ge_None_2 (b_table b)) by lia. constructor.
  - by rewrite (offers_settings _ _ H2).
  - by exists y, x'.
Qed.

Lemma cooldown_spec d b :
  bok (bacct_of b) → flowing b →
  let b' := cooldown loop_time perf_counter d b in
  bok (bacct_of b') ∧ flowing b' ∧ offers b b'.
Proof.
  intros Hok Hf. unfold cooldown. destruct (b_max_cooldown b); [|done]. cbv zeta.
  set (b0 := b_pace _ _). destruct (offer_available_spec b0) as (H1 & H2 & H3); [done|].
  split_and!; try done. etransitivity; [|exact H2].
  split; try done. intros w. simpl. destruct (b_table b !! w); constructor. by left.
Qed.

(** ** Connections *)

(** What a connection's place in the protocol says of its waiter. *)
Definition conn_ok (c : conn) (b : broker) : Prop :=
  match c with
  | CIdle | CClosed => True
  | CWaiting w => ∃ x, b_table b !! w = Some x ∧
      ((bw_state x = BQueued ∧ bw_future x = FutPending) ∨
       (bw_state x = BOffered ∧ ∃ q d t n, bw_future x = FutResult (Offered q d t n)) ∨
       (bw_state x = BTerminal ∧ ∃ q d t n, bw_future x = FutResult (CallCap q d t n)))
  | COffered w | CReady w => ∃ x, b_table b !! w = Some x ∧ bw_state x = BOffered
  | CLeased w => ∃ x, b_table b !! w = Some x ∧ bw_state x = BLeased
  end.

(** Every waiter in line, offered or leased belongs to exactly one connection. *)
Record sv_ok (s : server) : Prop := mk_sv_ok {
  sk_bok : bok (bacct_of (sv_broker s));
  sk_flow : flowing (sv_broker s);
  sk_conn : ∀ i c, sv_conns s !! i = Some c → conn_ok c (sv_broker s);
  sk_inj : ∀ i j c d w, sv_conns s !! i = Some c → sv_conns s !! j = Some d →
    conn_waiter c = Some w → conn_waiter d = Some w → i = j;
  sk_own : ∀ w x, b_table (sv_broker s) !! w = Some x → held x →
    ∃ i c, sv_conns s !! i = Some c ∧ conn_waiter c = Some w;
}.

Lemma conn_ok_lookup c b w : conn_ok c b → conn_waiter c = Some w → is_Some (b_table b !! w).
Proof. destruct c; simpl; try done; intros (x & Hx & _) [= <-]; eauto. Qed.

Lemma answered_waiting x x' :
  answered x x' →
  ((bw_state x = BQueued ∧ bw_future x = FutPending) ∨
   (bw_state x = BOffered ∧ ∃ q d t n, bw_future x = FutResult (Offered q d t n)) ∨
   (bw_state x = BTerminal ∧ ∃ q d t n, bw_future x = FutResult (CallCap q d t n))) →
  (bw_state x' = BQueued ∧ bw_future x' = FutPending) ∨
  (bw_state x' = BOffered ∧ ∃ q d t n, bw_future x' = FutResult (Offered q d t n)) ∨
  (bw_state x' = BTerminal ∧ ∃ q d t n, bw_future x' = FutResult (CallCap q d t n)).
Proof. intros [->|(_ & [?|?])]; tauto. Qed.

Lemma conn_ok_answered c b b' :
  conn_ok c b → (∀ w, conn_waiter c = Some w → option_Forall2 answered (b_table b !! w) (b_table b' !! w)) →
  conn_ok c b'.
Proof.
  destruct c as [|w|w|w|w|]; simpl; try done; intros (x & Hx & Hst) Ha; specialize (Ha w eq_refl);
    rewrite Hx in Ha; inversion Ha as [x0 x' Hans E1 E2|]; subst; exists x'.
  - split; [done|]. by eapply answered_waiting.
  - by rewrite (answered_fixed _ _ Hans) by congruence.
  - by rewrite (answered_fixed _ _ Hans) by congruence.
  - by rewrite (answered_fixed _ _ Hans) by congruence.
Qed.

(** One connection moves and the others' waiters are at most answered. *)
Lemma sv_update s i c c' b' :
  sv_ok s → sv_conns s !! i = Some c →
  bok (bacct_of b') → flowing b' → conn_ok c' b' →
  (∀ w, conn_waiter c ≠ Some w → conn_waiter c' ≠ Some w →
     option_Forall2 answered (b_table (sv_broker s) !! w) (b_table b' !! w)) →
  (∀ w x', conn_waiter c = Some w → conn_waiter c' ≠ Some w → b_table b' !! w = Some x' → ¬ held x') →
  (∀ w, conn_waiter c' = Some w → conn_waiter c = Some w ∨ b_table (sv_broker s) !! w = None) →
  sv_ok (mk_server b' (<[i := c']> (sv_conns s))).
Proof.
  intros [Hok Hfl Hco Hin Hown] Hi Hok' Hfl' Hc' Hans Hgone Hnew.
  assert (Hlt : i < length (sv_conns s)) by (by eapply lookup_lt_Some).
  assert (Hother : ∀ j d w, j ≠ i → sv_conns s !! j = Some d → conn_waiter d = Some w →
    conn_waiter c ≠ Some w ∧ conn_waiter c' ≠ Some w).
  { intros j d w Hne Hj Hw. assert (Hcw : conn_waiter c ≠ Some w) by (intros Hw'; by destruct Hne; eapply Hin).
    split; [done|]. intros [?|Hnone]%Hnew; [done|].
    destruct (conn_ok_lookup _ _ _ (Hco _ _ Hj) Hw) as [x Hx]. congruence. }
  split; simpl; try done.
  - intros j d Hj. destruct (decide (j = i)) as [->|Hne].
    + rewrite list_lookup_insert_eq in Hj by done. by injection Hj as <-.
    + rewrite list_lookup_insert_ne in Hj by done. eapply conn_ok_answered; [by eapply Hco|].
      intros w Hw. destruct (Hother j d w Hne Hj Hw). by apply Hans.
  - intros j k d e w Hj Hk Hwd Hwe.
    destruct (decide (j = i)) as [->|Hji], (decide (k = i)) as [->|Hki]; [done|..].
    + rewrite list_lookup_insert_eq in Hj by done. rewrite list_lookup_insert_ne in Hk by done.
      injection Hj as ->. by destruct (Hother k e w Hki Hk Hwe).
    + rewrite list_lookup_insert_eq in Hk by done. rewrite list_lookup_insert_ne in Hj by done.
      injection Hk as ->. by destruct (Hother j d w Hji Hj Hwd).
    + rewrite list_lookup_insert_ne in Hj, Hk by done. eauto.
  - intros w x' Hx' Hh. destruct (decide (conn_waiter c' = Some w)) as [Hw|Hw].
    { exists i, c'. by rewrite list_lookup_insert_eq. }
    destruct (decide (conn_waiter c = Some w)) as [Hcw|Hcw]; [by destruct (Hgone w x' Hcw Hw Hx')|].
    specialize (Hans w Hcw Hw). rewrite Hx' in Hans. inversion Hans as [x y Ha E1 E2|]; subst.
    destruct (Hown w x) as (j & d & Hj & Hd); [done|by eapply answered_held|].
    exists j, d. split; [|done]. destruct (decide (j = i)) as [->|]; [|by rewrite list_lookup_insert_ne].
    congruence.
Qed.

Variable auth_token : string.
Variable py_str : pyval → string.

(** The handler of a connection ends. *)
Lemma hang_up_ok s i c :
  sv_ok s → sv_conns s !! i = Some c →
  ∃ rs b', hang_up loop_time perf_counter c (sv_broker s) = Ok (CClosed, rs, b') ∧
    sv_ok (mk_server b' (<[i := CClosed]> (sv_conns s))) ∧ b_settings b' = b_settings (sv_broker s).
Proof.
  intros Hs Hi. unfold hang_up. destruct (conn_waiter c) as [w|] eqn:Hw.
  - destruct (conn_ok_lookup _ _ _ (sk_conn _ Hs _ _ Hi) Hw) as [x Hx].
    destruct (disconnect_spec w _ x (sk_bok _ Hs) Hx) as (b' & x' & -> & H1 & H2 & H3 & H4 & H5 & H6).
    eexists _, _. split; [done|]. split; [|done]. eapply sv_update; try done.
    + intros w' Hc _. apply H3. congruence.
    + intros w' y Hc _ Hy. rewrite Hw in Hc. injection Hc as <-. rewrite H4 in Hy. by injection Hy as <-.
  - eexists _, _. split; [done|]. split; [|done]. eapply sv_update; try done; try apply Hs.
    + intros w' _ _. destruct (b_table _ !! w'); constructor. by left.
    + intros w' x' Hc. congruence.
Qed.

(** The goal of a step: it ends well and the server is still consistent. *)
Definition step_ok (i : nat) (s : server) (r : result (conn * list reply * broker)) : Prop :=
  ∃ c' rs b', r = Ok (c', rs, b') ∧ sv_ok (mk_server b' (<[i := c']> (sv_conns s))) ∧
    b_settings b' = b_settings (sv_broker s).

Lemma hang_up_step s i c :
  sv_ok s → sv_conns s !! i = Some c → step_ok i s (hang_up loop_time perf_counter c (sv_broker s)).
Proof. intros Hs Hi. destruct (hang_up_ok s i c Hs Hi) as (rs & b' & ? & ? & ?). by eexists _, _, _. Qed.

(** Changing only the place of a connection. *)
Lemma move_step s i c c' rs :
  sv_ok s → sv_conns s !! i = Some c → conn_ok c' (sv_broker s) → conn_waiter c' = conn_waiter c →
  step_ok i s (Ok (c', rs, sv_broker s)).
Proof.
  intros Hs Hi Hc Hw. eexists _, _, _. split; [done|]. split; [|done].
  eapply sv_update; try done; try apply Hs.
  - intros w' _ _. destruct (b_table _ !! w'); constructor. by left.
  - intros w' x' ?? . congruence.
  - intros w' ?. left. congruence.
Qed.

Lemma request_step s i t :
  sv_ok s → sv_conns s !! i = Some CIdle →
  step_ok i s (let '(w, b') := enqueue loop_time perf_counter t (sv_broker s) in Ok (CWaiting w, [], b')).
Proof.
  intros Hs Hi. pose proof (enqueue_spec t _ (sk_bok _ Hs)) as He.
  destruct (enqueue loop_time perf_counter t (sv_broker s)) as [w b'].
  destruct He as (-> & H1 & H2 & H3 & H4 & y & x' & Hy & Hf & Hx' & Ha).
  eexists _, _, _. split; [done|]. split; [|done]. eapply sv_update; try done.
  - exists x'. split; [done|]. apply (answered_waiting y x' Ha). by left.
  - intros w' _ Hn. apply H3. simpl in Hn. congruence.
  - intros w' [= <-]. right. by apply lookup_ge_None_2.
Qed.

Lemma confirm_step s i w :
  sv_ok s → sv_conns s !! i = Some (CReady w) →
  step_ok i s (match confirm loop_time perf_counter w (sv_broker s) with
               | Ok (n, b') => Ok (CLeased w, [RConfirmed n], b')
               | Raise _ => hang_up loop_time perf_counter (CReady w) (sv_broker s)
               end).
Proof.
  intros Hs Hi. destruct (sk_conn _ Hs _ _ Hi) as (x & Hx & Hb).
  destruct (confirm_spec w _ x (sk_bok _ Hs) Hx Hb) as (b' & -> & H1 & H2 & H3 & H4 & _ & H6).
  eexists _, _, _. split; [done|]. split; [|done]. eapply sv_update; try done.
  - by eexists.
  - intros w' Hn _. apply H3. simpl in Hn. congruence.
  - intros w' Hw. by left.
Qed.

Lemma release_step s i w :
  sv_ok s → sv_conns s !! i = Some (CLeased w) →
  step_ok i s (let! b' := disconnect loop_time perf_counter w (sv_broker s) in Ok (CIdle, [], b')).
Proof.
  intros Hs Hi. destruct (sk_conn _ Hs _ _ Hi) as (x & Hx & Hb).
  destruct (disconnect_spec w _ x (sk_bok _ Hs) Hx) as (b' & x' & -> & H1 & H2 & H3 & H4 & H5 & H6).
  eexists _, _, _. split; [done|]. split; [|done]. eapply sv_update; try done.
  - intros w' Hn _. apply H3. simpl in Hn. congruence.
  - intros w' y [= <-] _ Hy. rewrite H4 in Hy. by injection Hy as <-.
Qed.

Lemma cooldown_step s i c d :
  sv_ok s → sv_conns s !! i = Some c →
  step_ok i s (Ok (c, [RCooldownApplied], cooldown loop_time perf_counter d (sv_broker s))).
Proof.
  intros Hs Hi. destruct (cooldown_spec d _ (sk_bok _ Hs) (sk_flow _ Hs)) as (H1 & H2 & H3).
  eexists _, _, _. split; [done|]. split; [|by apply offers_settings]. eapply sv_update; try done.
  - eapply conn_ok_answered; [by eapply sk_conn|]. intros w _. apply H3.
  - intros w _ _. apply H3.
  - intros w ?. by left.
Qed.

(** A waiting client that sends anything has gone: it is disconnected twice. *)
Lemma abandon_step s i w :
  sv_ok s → sv_conns s !! i = Some (CWaiting w) →
  step_ok i s (let! b' := disconnect loop_time perf_counter w (sv_broker s) in
               hang_up loop_time perf_counter (CWaiting w) b').
Proof.
  intros Hs Hi. destruct (conn_ok_lookup _ _ w (sk_conn _ Hs _ _ Hi) eq_refl) as [x Hx].
  destruct (disconnect_spec w _ x (sk_bok _ Hs) Hx) as (b' & x' & -> & H1 & H2 & H3 & H4 & H5 & H6).
  cbn [result_bind hang_up conn_waiter].
  destruct (disconnect_spec w b' x' H1 H4) as (b'' & x'' & -> & K1 & K2 & K3 & K4 & K5 & K6).
  eexists _, _, _. split; [done|]. split; [|congruence]. eapply sv_update; try done.
  - intros w' Hn _. simpl in Hn. assert (w' ≠ w) by congruence.
    specialize (H3 w' H). specialize (K3 w' H).
    inversion H3 as [y z Hyz Ey Ez|Ey Ez]; rewrite <- Ez in K3; inversion K3 as [z' u Hzu|]; constructor.
    subst. destruct Hyz as [->|Hyz]; [done|]. destruct Hzu as [->|(Hq & _)]; [by right|].
    destruct Hyz as (_ & [[Hz _]|[Hz _]]); congruence.
  - intros w' y [= <-] _ Hy. rewrite K4 in Hy. by injection Hy as <-.
Qed.

Lemma line_step s i c l :
  sv_ok s → sv_conns s !! i = Some c → c ≠ CClosed →
  step_ok i s (on_line loop_time perf_counter auth_token py_str l c (sv_broker s)).
Proof.
  intros Hs Hi Hc. pose proof (hang_up_step s i c Hs Hi) as Hup.
  destruct c as [|w|w|w|w|]; [| | | | |done]; cbn [on_line].
  - destruct l as [| | |v]; try done. destruct (authorized _ _ _) as [[]|]; [|by apply (move_step s i CIdle)|done].
    cbv zeta. case_bool_decide; [done|by apply request_step].
  - by apply abandon_step.
  - destruct l as [| | |v]; try done. destruct (status_is v "accept"); [|done].
    apply (move_step s i (COffered w)); try done. by apply (sk_conn _ Hs _ _ Hi).
  - destruct l as [| | |v]; try done. destruct (status_is v "acquired"); [|done]. by apply confirm_step.
  - destruct l as [| | |v]; try done. destruct (status_is v "cooldown").
    + destruct (AdmissionConfig.validated_positive_option _) as [[d|]|]; try done. by apply cooldown_step.
    + destruct (status_is v "release"); [by apply release_step|done].
Qed.

Lemma future_step s i c r :
  sv_ok s → sv_conns s !! i = Some c → on_future loop_time perf_counter c (sv_broker s) = Some r →
  step_ok i s r.
Proof.
  intros Hs Hi. unfold on_future. destruct c as [|w|w|w|w|]; try done.
  destruct (sk_conn _ Hs _ _ Hi) as (x & Hx & Hst). rewrite Hx.
  destruct (bw_future x) as [|[q d t n|q d t n]|] eqn:Hf; try done; intros [= <-].
  - destruct (hang_up_ok s i _ Hs Hi) as (rs & b' & -> & ? & ?). by eexists _, _, _.
  - apply (move_step s i (CWaiting w)); try done. exists x. split; [done|].
    destruct Hst as [[_ ?]|[[? _]|[_ (?&?&?&?&?)]]]; congruence.
  - by apply hang_up_step.
Qed.

Lemma connect_ok s : sv_ok s → sv_ok (mk_server (sv_broker s) (sv_conns s ++ [CIdle])).
Proof.
  intros [Hok Hfl Hco Hin Hown].
  assert (Hl : ∀ j d, (sv_conns s ++ [CIdle]) !! j = Some d → sv_conns s !! j = Some d ∨ d = CIdle).
  { intros j d [?|[_ Hj]]%lookup_app_Some; [by left|right]. by apply list_lookup_singleton_Some in Hj as [_ <-]. }
  split; simpl; try done.
  - intros j d [Hj| ->]%Hl; [by eapply Hco|done].
  - intros j k d e w [Hj| ->]%Hl [Hk| ->]%Hl Hd He; [by eapply Hin|done..].
  - intros w x Hx Hh. destruct (Hown w x Hx Hh) as (j & d & Hj & Hd). exists j, d.
    by rewrite lookup_app_l by (by eapply lookup_lt_Some).
Qed.

Lemma offers_ok s b' :
  sv_ok s → bok (bacct_of b') → flowing b' →
  (∀ w, option_Forall2 answered (b_table (sv_broker s) !! w) (b_table b' !! w)) →
  sv_ok (mk_server b' (sv_conns s)).
Proof.
  intros [Hok Hfl Hco Hin Hown] Hok' Hfl' Hans. split; simpl; try done.
  - intros j d Hj. eapply conn_ok_answered; [by eapply Hco|auto].
  - intros w x' Hx' Hh. specialize (Hans w). rewrite Hx' in Hans.
    inversion Hans as [x y Ha E1 E2|]; subst. eapply Hown; [done|]. by eapply answered_held.
Qed.

Lemma with_conn_ok i s r :
  step_ok i s r → ∃ s', with_conn i r s = Ok s' ∧ sv_ok s' ∧
    b_settings (sv_broker s') = b_settings (sv_broker s).
Proof. intros (c' & rs & b' & -> & H1 & H2). by eexists. Qed.

Lemma server_step_ok e s r :
  sv_ok s → server_step loop_time perf_counter auth_token py_str e s = Some r →
  ∃ s', r = Ok s' ∧ sv_ok s' ∧ b_settings (sv_broker s') = b_settings (sv_broker s).
Proof.
  intros Hs. destruct e as [|i l|i|i| |]; cbn [server_step].
  - intros [= <-]. eexists. split; [done|]. split; [by apply connect_ok|done].
  - destruct (sv_conns s !! i) as [c|] eqn:Hi; [|done].
    assert (c = CClosed ∨ c ≠ CClosed) as [->|Hc] by (destruct c; auto); [done|]. intros Hr.
    assert (Hr' : Some (with_conn i (on_line loop_time perf_counter auth_token py_str l c (sv_broker s)) s) = Some r) by (by destruct c).
    injection Hr' as <-.
    by apply with_conn_ok, line_step.
  - destruct (sv_conns s !! i) as [c|] eqn:Hi; [|done].
    destruct (on_future _ _ c _) as [r0|] eqn:Hf; [|done]. intros [= <-].
    eapply with_conn_ok, future_step; done.
  - destruct (sv_conns s !! i) as [c|] eqn:Hi; [|done].
    assert (c = CClosed ∨ c ≠ CClosed) as [->|Hc] by (destruct c; auto); [done|]. intros Hr.
    assert (Hr' : Some (with_conn i (hang_up loop_time perf_counter c (sv_broker s)) s) = Some r) by (by destruct c).
    injection Hr' as <-.
    by apply with_conn_ok, hang_up_step.
  - unfold timer_fires. destruct (b_wake _); [|done]. intros [= <-]. eexists. split; [done|].
    destruct (offer_available_spec _ (sk_bok _ Hs)) as (H1 & H2 & H3).
    split; [|by apply offers_settings]. apply offers_ok; try done. apply H2.
  - intros [= <-]. eexists. split; [done|]. split; [|done]. apply offers_ok; try done; [by apply Hs|].
    intros w. simpl. destruct (b_table _ !! w); constructor. by left.
Qed.

(** The server a broker starts with. *)
Definition new_server (g : string) (m : Z) (cap : option Z) (rps mc : option pyfloat) : server :=
  mk_server (new_broker g m cap rps mc) [].

Lemma new_server_ok g m cap rps mc :
  (0 < m)%Z → (∀ n, cap = Some n → 0 < n)%Z → sv_ok (new_server g m cap rps mc).
Proof.
  intros Hm Hc. split; try done.
  - split; simpl; try done; try lia; [|apply fifo_nil]. intros n Hn. specialize (Hc n Hn). lia.
  - intros _. by left.
Qed.

Lemma reachable_ok g m cap rps mc es s :
  (0 < m)%Z → (∀ n, cap = Some n → 0 < n)%Z →
  steps (sv_step loop_time perf_counter auth_token py_str) (new_server g m cap rps mc) es s →
  sv_ok s ∧ b_settings (sv_broker s) = (m, cap, g).
Proof.
  intros Hm Hc Hrun. eapply (steps_invariant (sv_step loop_time perf_counter auth_token py_str)
    (λ s, sv_ok s ∧ b_settings (sv_broker s) = (m, cap, g))); [| |exact Hrun].
  - intros s0 e s1 [Hs Hset] Hst. destruct (server_step_ok e s0 _ Hs Hst) as (s' & [= <-] & ? & ->). done.
  - split; [by apply new_server_ok|done].
Qed.

(** A slot in use belongs to a connection that has an offer or a lease, a
    reservation to one that has an offer. *)
Definition connection_in (s : server) (p : bstate → bool) : Prop :=
  ∃ i c w x, sv_conns s !! i = Some c ∧ conn_waiter c = Some w ∧
    b_table (sv_broker s) !! w = Some x ∧ p (bw_state x) = true.

Lemma count_connection s p :
  sv_ok s → (0 < count p (bstates (sv_broker s)))%Z → (∀ x, p x = true → x = BOffered ∨ x = BLeased) →
  connection_in s p.
Proof.
  intros Hs (w & st & Hw & Hst)%count_pos_inv Hp. rewrite bstates_lookup in Hw. unfold b_state_of in Hw.
  destruct (b_table _ !! w) as [x|] eqn:Hx; [|done]. injection Hw as <-.
  destruct (sk_own _ Hs w x Hx) as (i & c & Hi & Hc); [right; by apply Hp|].
  by exists i, c, w, x.
Qed.

Definition in_use (x : bstate) : bool := is_offered x || is_leased x.

Lemma active_connection s : sv_ok s → (0 < b_active (sv_broker s))%Z → connection_in s in_use.
Proof.
  intros Hs Hpos. pose proof (bk_active _ (sk_bok _ Hs)) as Ha. simpl in Ha.
  destruct (decide (0 < count is_offered (bstates (sv_broker s)))%Z) as [Hc|Hc].
  - destruct (count_connection s is_offered Hs Hc) as (i & c & w & x & ? & ? & ? & Hx); [by intros []; auto|].
    exists i, c, w, x. unfold in_use. by rewrite Hx.
  - destruct (count_connection s is_leased Hs) as (i & c & w & x & ? & ? & ? & Hx); [lia|by intros []; auto|].
    exists i, c, w, x. unfold in_use. by rewrite Hx, orb_true_r.
Qed.

Lemma reserved_connection s : sv_ok s → (0 < b_reserved_calls (sv_broker s))%Z → connection_in s is_offered.
Proof.
  intros Hs Hpos. pose proof (bk_reserved _ (sk_bok _ Hs)) as Hr. simpl in Hr.
  apply count_connection; [done|lia|]. by intros []; auto.
Qed.

(** ** Theorems *)

(** Under every interleaving of connections, protocol lines (malformed
    ones included), broken connections, timer expirations and shutdown, the
    broker keeps its bounds: the slots in use are the open offers and the
    leases and never exceed [max_in_flight], admitted calls plus open offers
    never exceed [max_calls], and no event makes the accounting raise. *)
Theorem broker_capacity g m cap rps mc es s :
  (0 < m)%Z → (∀ n, cap = Some n → 0 < n)%Z →
  steps (sv_step loop_time perf_counter auth_token py_str) (new_server g m cap rps mc) es s →
  let b := sv_broker s in
  b_active b = (count is_offered (bstates b) + count is_leased (bstates b))%Z ∧
  (0 <= b_active b <= b_peak_active b)%Z ∧ (b_peak_active b <= m)%Z ∧
  (∀ n, cap = Some n → 0 <= b_admitted_calls b + b_reserved_calls b <= n)%Z ∧
  ∀ e r, server_step loop_time perf_counter auth_token py_str e s = Some r → is_ok r = true.
Proof.
  intros Hm Hc Hrun b. destruct (reachable_ok _ _ _ _ _ _ _ Hm Hc Hrun) as [Hs [= Hmx Hcap _]].
  destruct (sk_bok _ Hs) as [? Hr Ha Hp Had Hb _]. simpl in *. fold b in Hr, Ha, Hp, Had, Hb, Hmx, Hcap.
  pose proof (count_nonneg is_offered (bstates b)). pose proof (count_nonneg is_leased (bstates b)).
  split_and!; try lia.
  - intros n Hn. rewrite <- Hcap in Hn. specialize (Hb n Hn). lia.
  - intros e r He. by destruct (server_step_ok e s r Hs He) as (? & -> & _).
Qed.

(** Capacity is tied to connections: once every connection is closed, by
    whatever sequence of events, no slot and no reservation is held and nobody
    is queued. *)
Theorem broker_connections_return_capacity g m cap rps mc es s :
  (0 < m)%Z → (∀ n, cap = Some n → 0 < n)%Z →
  steps (sv_step loop_time perf_counter auth_token py_str) (new_server g m cap rps mc) es s →
  Forall (eq CClosed) (sv_conns s) →
  b_active (sv_broker s) = 0%Z ∧ b_reserved_calls (sv_broker s) = 0%Z ∧ b_waiters (sv_broker s) = [].
Proof.
  intros Hm Hc Hrun Hall. destruct (reachable_ok _ _ _ _ _ _ _ Hm Hc Hrun) as [Hs _].
  assert (Hnone : ∀ w x, b_table (sv_broker s) !! w = Some x → ¬ held x).
  { intros w x Hx Hh. destruct (sk_own _ Hs w x Hx Hh) as (i & c & Hi & Hw).
    apply (Forall_lookup_1 _ _ _ _ Hall) in Hi as <-. done. }
  destruct (sk_bok _ Hs) as [? Hr Ha Hp Had Hb Hf]. simpl in *.
  assert (Hz : ∀ p, (∀ x, p x = true → x = BQueued ∨ x = BOffered ∨ x = BLeased) →
    count p (bstates (sv_broker s)) = 0%Z).
  { intros p Hpx. pose proof (count_nonneg p (bstates (sv_broker s))).
    destruct (decide (0 < count p (bstates (sv_broker s)))%Z) as [Hpos|]; [|lia].
    apply count_pos_inv in Hpos as (w & st & Hw & Hst). rewrite bstates_lookup in Hw. unfold b_state_of in Hw.
    destruct (b_table _ !! w) as [x|] eqn:Hx; [|done]. destruct (Hnone w x Hx). injection Hw as <-.
    by apply Hpx. }
  rewrite Hr, Ha, !Hz by (by intros []; auto). split_and!; [lia|done|].
  destruct (b_waiters (sv_broker s)) as [|w ws] eqn:Hw; [done|].
  apply fifo_head in Hf. rewrite bstates_lookup in Hf. unfold b_state_of in Hf.
  destruct (b_table _ !! w) as [x|] eqn:Hx; [|done]. destruct (Hnone w x Hx). injection Hf as Hf. by left.
Qed.

(** C37.  The broker does not sit on free capacity.  While it is open and
    somebody is queued, one of these holds: the timer is armed for the time of
    the shared gate; all [max_in_flight] slots are in use, and a connection has
    one of them; the group is paced and a connection has an offer that is not
    confirmed yet; or the calls admitted are below [max_calls] but not so with
    the open offers counted in, and a connection has such an offer. *)
Theorem broker_progress g m cap rps mc es s :
  (0 < m)%Z → (∀ n, cap = Some n → 0 < n)%Z →
  steps (sv_step loop_time perf_counter auth_token py_str) (new_server g m cap rps mc) es s →
  let b := sv_broker s in
  b_closed b = false → b_waiters b ≠ [] →
  b_wake b = Some (b_not_before b) ∨
  (b_active b = m ∧ connection_in s in_use) ∨
  (f_truth (b_interval b) = true ∧ connection_in s is_offered) ∨
  (∃ n, cap = Some n ∧ (b_admitted_calls b < n <= b_admitted_calls b + b_reserved_calls b)%Z ∧
     connection_in s is_offered).
Proof.
  intros Hm Hc Hrun b Hopen Hw. subst b. destruct (reachable_ok _ _ _ _ _ _ _ Hm Hc Hrun) as [Hs [= Hmx Hcap _]].
  destruct (sk_bok _ Hs) as [_ _ _ Hp _ _ _]. simpl in Hp.
  destruct (sk_flow _ Hs Hopen) as [?|[?|[Hfull|[[Hi Hres]|(n & Hn & Hres)]]]]; [done|by left|..]; right.
  - left. split; [lia|]. apply active_connection; [done|]. lia.
  - right. left. split; [done|]. by apply reserved_connection.
  - right. right. exists n. split_and!; [congruence|lia..|]. apply reserved_connection; [done|]. lia.
Qed.

(** First come, first served across connections: while a waiter is
    queued, no later one has an offer or a lease. *)
Theorem broker_fifo g m cap rps mc es s w w' x :
  (0 < m)%Z → (∀ n, cap = Some n → 0 < n)%Z →
  steps (sv_step loop_time perf_counter auth_token py_str) (new_server g m cap rps mc) es s →
  b_state_of w (sv_broker s) = Some BQueued → w < w' → b_state_of w' (sv_broker s) = Some x →
  x = BQueued ∨ x = BCancelled.
Proof.
  intros Hm Hc Hrun Hq Hlt Hx. destruct (reachable_ok _ _ _ _ _ _ _ Hm Hc Hrun) as [Hs _].
  rewrite <- !bstates_lookup in *.
  destruct (fi_order _ _ _ _ (bk_fifo _ (sk_bok _ Hs)) w w' x); auto.
Qed.
End Runs.

(** ** Witnesses *)

Definition demo_time (i : nat) : pyfloat := f_zero.
Definition demo_str (v : pyval) : string := match v with VStr s => s | _ => "" end%string.

Definition demo_request (t : string) : line :=
  LJson (VDict [("version", VInt 3); ("group", VStr "g"); ("auth_token", VStr "key");
                ("ticket", VStr t)])%string.
Definition demo_status (s : string) : line := LJson (VDict [("status", VStr s)])%string.

(** Two connections compete for one slot; the first completes the handshake. *)
Definition demo_events : list event :=
  [EConnect; EConnect; ELine 0 (demo_request "a"); ELine 1 (demo_request "b"); EFuture 0;
   ELine 0 (demo_status "accept"); ELine 0 (demo_status "acquired")]%string.

(** Then the first process dies and the second one sends garbage. *)
Definition demo_end : list event := [ELine 0 LEof; EFuture 1; ELine 1 LBadJson].

Definition demo_server (es : list event) : server :=
  foldl (λ s e, match server_step demo_time demo_time "key" demo_str e s with
                | Some (Ok s') => s' | _ => s end)
    (new_server "g" 1 (Some 2%Z) None None) es.

Ltac run_steps :=
  repeat (eapply steps_cons; [unfold sv_step; vm_compute; reflexivity|]); apply steps_nil.

Lemma demo_server_run :
  steps (sv_step demo_time demo_time "key" demo_str) (new_server "g" 1 (Some 2%Z) None None)
    demo_events (demo_server demo_events).
Proof. unfold demo_events. run_steps. Qed.

Lemma demo_server_end :
  steps (sv_step demo_time demo_time "key" demo_str) (new_server "g" 1 (Some 2%Z) None None)
    (demo_events ++ demo_end) (demo_server (demo_events ++ demo_end)).
Proof. simpl. run_steps. Qed.

Lemma demo_cap n : Some 2%Z = Some n → (0 < n)%Z.
Proof. by intros [= <-]. Qed.

Lemma broker_capacity_witness :
  (b_active (sv_broker (demo_server demo_events)) = 1 ∧
   b_admitted_calls (sv_broker (demo_server demo_events)) = 1 ∧
   b_peak_active (sv_broker (demo_server demo_events)) <= 1)%Z.
Proof.
  destruct (broker_capacity demo_time demo_time "key" demo_str _ 1 (Some 2%Z) _ _ _ _ eq_refl demo_cap
    demo_server_run) as (_ & _ & H & _).
  split; [reflexivity|]. split; [reflexivity|exact H].
Defined.

Lemma broker_connections_return_capacity_witness :
  b_active (sv_broker (demo_server (demo_events ++ demo_end))) = 0%Z ∧
  b_waiters (sv_broker (demo_server (demo_events ++ demo_end))) = [].
Proof.
  destruct (broker_connections_return_capacity demo_time demo_time "key" demo_str _ 1 (Some 2%Z) _ _ _ _
    eq_refl demo_cap demo_server_end) as (H1 & _ & H2).
  - vm_compute. repeat constructor.
  - exact (conj H1 H2).
Defined.

(** The only slot is leased, so the second client waits. *)
Lemma broker_progress_witness :
  let b := sv_broker (demo_server demo_events) in
  b_wake b = Some (b_not_before b) ∨
  (b_active b = 1%Z ∧ connection_in (demo_server demo_events) in_use) ∨
  (f_truth (b_interval b) = true ∧ connection_in (demo_server demo_events) is_offered) ∨
  (∃ n, Some 2%Z = Some n ∧ (b_admitted_calls b < n <= b_admitted_calls b + b_reserved_calls b)%Z ∧
     connection_in (demo_server demo_events) is_offered).
Proof.
  apply (broker_progress demo_time demo_time "key" demo_str "g" 1 (Some 2%Z) None None demo_events
    (demo_server demo_events) eq_refl demo_cap demo_server_run).
  - reflexivity.
  - vm_compute. discriminate.
Defined.

Definition demo_queue : list event := take 4 demo_events ++ [EConnect; ELine 2 (demo_request "c")]%string.

Lemma demo_queue_run :
  steps (sv_step demo_time demo_time "key" demo_str) (new_server "g" 1 (Some 2%Z) None None)
    demo_queue (demo_server demo_queue).
Proof. unfold demo_queue. simpl. run_steps. Qed.

Lemma broker_fifo_witness :
  b_state_of 1 (sv_broker (demo_server demo_queue)) = Some BQueued ∧
  (BQueued = BQueued ∨ BQueued = BCancelled).
Proof.
  split; [reflexivity|].
  exact (broker_fifo demo_time demo_time "key" demo_str "g" 1 (Some 2%Z) None None demo_queue
    (demo_server demo_queue) 1 2 BQueued eq_refl demo_cap demo_queue_run eq_refl (le_n _) eq_refl).
Defined.
