(* ===== verification/Channels.v ===== *)
(** * Channels: queue and event channels

    [Channel] of [nooa/runtime/channels.py]: producers, consumers blocked in
    [_drain_one], cancellation, and the notifications published along the way.
    A consumer is the task running [get]; it is named by its number, which
    also names the future it currently awaits, since a consumer never awaits a
    second future while the first is still in [_waiters].  Futures belong to
    event loops, and a wakeup from another thread is scheduled on the loop of
    the future before it sets it.

    No lock protects a channel.  Tasks of one event loop switch only at an
    [await], but a producer on another thread can run between any two steps, so
    a consumer's check of the deque and the append of its future are two steps
    here, and so are the append of a [put] on another thread and the wakeup it
    then sends.  The turns of [_wake_next_waiter] are one step: that two threads
    pop the waiters at once is left out. *)

From S2P Require Import Prelude.

Open Scope nooa_scope.

Inductive chan_mode := QueueMode | EventMode.

#[global] Instance chan_mode_eq_dec : EqDecision chan_mode.
Proof. solve_decision. Defined.

(** The future of a consumer: pending, given a result, or cancelled. *)
Inductive fstate := FPending | FDone | FCancelled.

#[global] Instance fstate_eq_dec : EqDecision fstate.
Proof. solve_decision. Defined.

Section Channel.
(** Items are object references: equality is identity. *)
Context {T : Type} `{EqDecision T}.

(** Where a consumer is: about to put a future in line, since it found the deque
    empty, awaiting its future ([scheduled]: a [_safe_wake] is on its way;
    [must_cancel]: cancelled after the future was set), finished with an item,
    or ended by a cancellation. *)
Inductive cstate :=
  | CChecked
  | CAwaiting (f : fstate) (scheduled must_cancel : bool)
  | CGot (x : T)
  | CEnded.

Record consumer := mk_consumer { c_loop : nat; c_state : cstate }.

(** What the channel tells others: the [on_get] hook, the two runtime events,
    the [on_put] hook, and the event an event-mode channel records. *)
Inductive note :=
  | OnGet (x : T)
  | ItemConsumed (x : T)
  | ItemsDiscarded (xs : list T)
  | OnPut
  | OutputEvent (x : T).

(** A [Channel] with its consumers, the loops closed so far, how many [put]s have
    appended their item and not yet sent the wakeup, and what it published.
    [ch_events] is whether it has an [event_manager]. *)
Record channel := mk_channel {
  ch_name : string;
  ch_mode : chan_mode;
  ch_events : bool;
  ch_on_get : bool;
  ch_on_put : bool;
  ch_items : list T;
  ch_waiters : list nat;
  ch_consumers : list consumer;
  ch_closed : list nat;
  ch_owed : nat;
  ch_log : list note;
}.

Definition ch_with_items (l : list T) (s : channel) : channel :=
  mk_channel (ch_name s) (ch_mode s) (ch_events s) (ch_on_get s) (ch_on_put s) l
    (ch_waiters s) (ch_consumers s) (ch_closed s) (ch_owed s) (ch_log s).
Definition ch_with_waiters (l : list nat) (s : channel) : channel :=
  mk_channel (ch_name s) (ch_mode s) (ch_events s) (ch_on_get s) (ch_on_put s) (ch_items s)
    l (ch_consumers s) (ch_closed s) (ch_owed s) (ch_log s).
Definition ch_with_consumers (l : list consumer) (s : channel) : channel :=
  mk_channel (ch_name s) (ch_mode s) (ch_events s) (ch_on_get s) (ch_on_put s) (ch_items s)
    (ch_waiters s) l (ch_closed s) (ch_owed s) (ch_log s).
Definition ch_with_closed (l : list nat) (s : channel) : channel :=
  mk_channel (ch_name s) (ch_mode s) (ch_events s) (ch_on_get s) (ch_on_put s) (ch_items s)
    (ch_waiters s) (ch_consumers s) l (ch_owed s) (ch_log s).
Definition ch_with_owed (n : nat) (s : channel) : channel :=
  mk_channel (ch_name s) (ch_mode s) (ch_events s) (ch_on_get s) (ch_on_put s) (ch_items s)
    (ch_waiters s) (ch_consumers s) (ch_closed s) n (ch_log s).
Definition ch_notes (l : list note) (s : channel) : channel :=
  mk_channel (ch_name s) (ch_mode s) (ch_events s) (ch_on_get s) (ch_on_put s) (ch_items s)
    (ch_waiters s) (ch_consumers s) (ch_closed s) (ch_owed s) (ch_log s ++ l).

Definition set_cstate (c : nat) (v : cstate) (s : channel) : channel :=
  ch_with_consumers (alter (λ x, mk_consumer (c_loop x) v) c (ch_consumers s)) s.

(** [__init__] with a valid mode. *)
Definition new_channel (name : string) (mode : chan_mode) (events on_get on_put : bool) : channel :=
  mk_channel name mode events on_get on_put [] [] [] [] 0 [].

(** ** Producers *)

(** [_wake_next_waiter], called on the loop [running] or on no loop. *)
Fixpoint wake_waiters (running : option nat) (ws : list nat) (s : channel) : channel :=
  match ws with
  | [] => ch_with_waiters [] s
  | c :: ws' =>
      match ch_consumers s !! c with
      | Some (mk_consumer loop (CAwaiting FPending _ mc)) =>
          if bool_decide (running = Some loop) then
            ch_with_waiters ws' (set_cstate c (CAwaiting FDone false mc) s)
          else if bool_decide (loop ∈ ch_closed s) then wake_waiters running ws' s
          else ch_with_waiters ws' (set_cstate c (CAwaiting FPending true mc) s)
      | _ => wake_waiters running ws' s
      end
  end.

Definition wake_next_waiter (running : option nat) (s : channel) : channel :=
  wake_waiters running (ch_waiters s) s.

Definition fire_on_put (s : channel) : channel := if ch_on_put s then ch_notes [OnPut] s else s.

(** [put], when nothing runs between its steps. *)
Definition put (running : option nat) (x : T) (s : channel) : result channel :=
  match ch_mode s with
  | EventMode =>
      if ch_events s then Ok (fire_on_put (ch_notes [OutputEvent x] s)) else Raise RuntimeError
  | QueueMode => Ok (fire_on_put (wake_next_waiter running (ch_with_items (ch_items s ++ [x]) s)))
  end.

(** The same [put] of a queue-mode channel in two steps, for a producer on
    another thread. *)
Definition put_item (x : T) (s : channel) : channel :=
  ch_with_owed (S (ch_owed s)) (ch_with_items (ch_items s ++ [x]) s).
Definition put_wake (running : option nat) (s : channel) : channel :=
  fire_on_put (wake_next_waiter running (ch_with_owed (pred (ch_owed s)) s)).

(** [_restore_front]. *)
Definition restore_front (running : option nat) (x : T) (s : channel) : channel :=
  fire_on_put (wake_next_waiter running (ch_with_items (x :: ch_items s) s)).

(** ** Consumers *)

(** [_publish], with an [event_manager] that never affects the channel. *)
Definition publish (n : note) (s : channel) : channel := if ch_events s then ch_notes [n] s else s.

(** [_fire_on_get]: whatever the hook does, the item is published. *)
Definition fire_on_get (x : T) (s : channel) : channel :=
  publish (ItemConsumed x) (if ch_on_get s then ch_notes [OnGet x] s else s).

(** [_fire_on_discard]. *)
Definition fire_on_discard (xs : list T) (s : channel) : channel :=
  match xs with [] => s | _ => publish (ItemsDiscarded xs) s end.

(** The first half of the loop body of [_drain_one], run by consumer [c]: it
    takes the head, or finds nothing. *)
Definition drain_turn (c : nat) (s : channel) : option T * channel :=
  match ch_items s with
  | x :: xs => (Some x, set_cstate c (CGot x) (ch_with_items xs s))
  | [] => (None, set_cstate c CChecked s)
  end.

(** The second half: [c] appends a new future to the waiters and awaits it;
    [None] when [c] is not there. *)
Definition drain_await (c : nat) (s : channel) : option channel :=
  match ch_consumers s !! c with
  | Some (mk_consumer _ CChecked) =>
      Some (set_cstate c (CAwaiting FPending false false) (ch_with_waiters (ch_waiters s ++ [c]) s))
  | _ => None
  end.

(** What a turn leads to in [get], which fires the hooks, or in a bare
    [_drain_one]. *)
Definition finish_turn (hooks : bool) (r : option T * channel) : channel :=
  match r with
  | (Some x, s) => if hooks then fire_on_get x s else s
  | (None, s) => s
  end.

(** A new consumer on [loop] calls [get] ([hooks]) or [_drain_one]. *)
Definition get (hooks : bool) (loop : nat) (s : channel) : result (nat * channel) :=
  match ch_mode s with
  | EventMode => Raise NotImplementedError
  | QueueMode =>
      let c := length (ch_consumers s) in
      let s1 := ch_with_consumers (ch_consumers s ++ [mk_consumer loop CEnded]) s in
      Ok (c, finish_turn hooks (drain_turn c s1))
  end.

(** The [except asyncio.CancelledError] clause of [_drain_one]. *)
Definition drain_cancelled (c loop : nat) (s : channel) : channel :=
  let s1 := set_cstate c CEnded (ch_with_waiters (discard_first c (ch_waiters s)) s) in
  if bool_decide (ch_items s1 = []) then s1 else wake_next_waiter (Some loop) s1.

(** The loop resumes a consumer whose future is done: [None] when it is not. *)
Definition resume (hooks : bool) (c : nat) (s : channel) : option channel :=
  match ch_consumers s !! c with
  | Some (mk_consumer loop (CAwaiting FDone _ false)) => Some (finish_turn hooks (drain_turn c s))
  | Some (mk_consumer loop (CAwaiting FDone _ true))
  | Some (mk_consumer loop (CAwaiting FCancelled _ _)) => Some (drain_cancelled c loop s)
  | _ => None
  end.

(** [task.cancel()] on a consumer: its future is cancelled, or the task is
    marked when the future was already set. *)
Definition cancel_consumer (c : nat) (s : channel) : channel :=
  match ch_consumers s !! c with
  | Some (mk_consumer _ (CAwaiting FPending sch mc)) => set_cstate c (CAwaiting FCancelled sch mc) s
  | Some (mk_consumer _ (CAwaiting FDone sch mc)) => set_cstate c (CAwaiting FDone sch true) s
  | _ => s
  end.

(** A scheduled [_safe_wake] runs. *)
Definition safe_wake (c : nat) (s : channel) : channel :=
  match ch_consumers s !! c with
  | Some (mk_consumer _ (CAwaiting FPending true mc)) => set_cstate c (CAwaiting FDone false mc) s
  | _ => s
  end.

(** [drain]. *)
Definition drain (s : channel) : list T * channel :=
  match ch_mode s with
  | EventMode => ([], s)
  | QueueMode => (ch_items s, foldl (λ s x, fire_on_get x (ch_with_items (tail (ch_items s)) s)) s (ch_items s))
  end.

(** [qsize], [is_empty], [has_waiters], [snapshot]. *)
Definition qsize (s : channel) : nat := length (ch_items s).
Definition is_empty (s : channel) : bool := bool_decide (ch_items s = []).
Definition has_waiters (s : channel) : bool :=
  existsb (λ c, match ch_consumers s !! c with
                | Some (mk_consumer _ (CAwaiting FPending _ _)) => true | _ => false end) (ch_waiters s).
Definition snapshot (s : channel) : list T := ch_items s.

(** [pop_last]. *)
Definition pop_last (s : channel) : option T * channel :=
  match last (ch_items s) with
  | None => (None, s)
  | Some x => (Some x, ch_with_items (take (length (ch_items s) - 1) (ch_items s)) s)
  end.

(** [remove]: the occurrence nearest the head. *)
Definition remove (x : T) (s : channel) : bool * channel :=
  if bool_decide (x ∈ ch_items s) then (true, ch_with_items (discard_first x (ch_items s)) s)
  else (false, s).

(** [clear]. *)
Definition clear (s : channel) : channel := fire_on_discard (ch_items s) (ch_with_items [] s).

(** [flush]: how many items were discarded. *)
Definition flush (s : channel) : nat * channel :=
  let dropped := ch_items s in
  let s1 := foldl (λ s c, match ch_consumers s !! c with
                          | Some (mk_consumer _ (CAwaiting FPending sch mc)) =>
                              set_cstate c (CAwaiting FCancelled sch mc) s
                          | _ => s end)
              (ch_with_items [] s) (ch_waiters s) in
  (length dropped, fire_on_discard dropped (ch_with_waiters [] s1)).

(** ** Runs *)

Inductive chan_op :=
  | OpPut (running : option nat) (x : T)
  | OpPutItem (x : T)
  | OpPutWake (running : option nat)
  | OpRestore (running : option nat) (x : T)
  | OpGet (hooks : bool) (loop : nat)
  | OpAwait (c : nat)
  | OpResume (hooks : bool) (c : nat)
  | OpCancel (c : nat)
  | OpSafeWake (c : nat)
  | OpDrain
  | OpPopLast
  | OpRemove (x : T)
  | OpClear
  | OpFlush
  | OpCloseLoop (loop : nat).

Definition loop_open (l : nat) (s : channel) : bool := bool_decide (l ∉ ch_closed s).

(** The loop a consumer runs on is open. *)
Definition consumer_open (c : nat) (s : channel) : bool :=
  match ch_consumers s !! c with Some x => loop_open (c_loop x) s | None => false end.

Definition running_open (running : option nat) (s : channel) : bool :=
  match running with Some l => loop_open l s | None => true end.

(** One operation that succeeds; code runs on open loops only. *)
Definition chan_step (s : channel) (o : chan_op) (s' : channel) : Prop :=
  match o with
  | OpPut r x => running_open r s = true ∧ put r x s = Ok s'
  | OpPutItem x => ch_mode s = QueueMode ∧ s' = put_item x s
  | OpPutWake r => running_open r s = true ∧ ch_mode s = QueueMode ∧ ch_owed s ≠ 0 ∧ s' = put_wake r s
  | OpRestore r x => running_open r s = true ∧ ch_mode s = QueueMode ∧ s' = restore_front r x s
  | OpGet h l => loop_open l s = true ∧ ∃ c, get h l s = Ok (c, s')
  | OpAwait c => drain_await c s = Some s'
  | OpResume h c => consumer_open c s = true ∧ resume h c s = Some s'
  | OpCancel c => s' = cancel_consumer c s
  | OpSafeWake c => consumer_open c s = true ∧ s' = safe_wake c s
  | OpDrain => s' = (drain s).2
  | OpPopLast => s' = (pop_last s).2
  | OpRemove x => s' = (remove x s).2
  | OpClear => s' = clear s
  | OpFlush => s' = (flush s).2
  | OpCloseLoop l => s' = ch_with_closed (l :: ch_closed s) s
  end.
End Channel.
Arguments channel : clear implicits.
Arguments chan_op : clear implicits.
Arguments note : clear implicits.
Arguments cstate : clear implicits.
Arguments consumer : clear implicits.
