(* ===== verification/ChannelRuns.v ===== *)
(** * ChannelRuns: delivery on a channel

    For every interleaving of producers, consumers, cancellations, scheduled
    wakeups and closed loops: items are delivered in order and none disappears,
    each is announced once, and no wakeup is lost unless a producer on another
    thread sends it between a consumer's check of the deque and the append of
    its future, which is shown to lose it. *)

From S2P Require Import Prelude Channels.

Open Scope nooa_scope.

Section Runs.
Context {T : Type} `{EqDecision T}.
Implicit Types (s : channel T).

(** ** Wakeups *)

(** A consumer that is going to take another turn: its future is done or
    cancelled, or the wakeup is scheduled. *)
Definition is_woken (x : consumer T) : bool :=
  match c_state x with
  | CAwaiting FPending false _ => false
  | CAwaiting _ _ _ => true
  | _ => false
  end.

(** A consumer blocked on an open loop with no wakeup on its way. *)
Definition blocked (c : nat) s : Prop :=
  ∃ l mc, ch_consumers s !! c = Some (mk_consumer l (CAwaiting FPending false mc)) ∧ l ∉ ch_closed s.

(** A consumer that found the deque empty and has not put its future in line. *)
Definition checked (c : nat) s : Prop := ∃ l, ch_consumers s !! c = Some (mk_consumer l CChecked).

(** A consumer that waits for a wakeup, or is about to. *)
Definition sleepy (c : nat) s : Prop := blocked c s ∨ checked c s.

Definition woken s : Z := count is_woken (ch_consumers s).

(** The waiters are consumers still to be woken, and contain every blocked
    one. *)
Record waiters_ok (ws : list nat) s : Prop := mk_waiters_ok {
  wo_nodup : NoDup ws;
  wo_wait : ∀ c, c ∈ ws → ∃ l f mc,
    ch_consumers s !! c = Some (mk_consumer l (CAwaiting f false mc)) ∧ f ≠ FDone;
  wo_blocked : ∀ c, blocked c s → c ∈ ws;
}.

(** While a consumer is blocked or about to block, every pending item has a
    woken consumer, or a producer that has not sent its wakeup yet. *)
Record chan_ok s : Prop := mk_chan_ok {
  co_mode : ch_mode s = EventMode → ch_items s = [] ∧ ch_consumers s = [];
  co_waiters : waiters_ok (ch_waiters s) s;
  co_woken : (∃ c, sleepy c s) → (Z.of_nat (length (ch_items s)) <= woken s + Z.of_nat (ch_owed s))%Z;
}.

Lemma consumers_set c v s c' :
  ch_consumers (set_cstate c v s) !! c' =
    if decide (c = c') then (λ x, mk_consumer (c_loop x) v) <$> ch_consumers s !! c'
    else ch_consumers s !! c'.
Proof. simpl. rewrite list_lookup_alter. by destruct (decide (c = c')) as [->|]. Qed.

Lemma woken_set c v s x :
  ch_consumers s !! c = Some x →
  woken (set_cstate c v s) = (woken s - (if is_woken x then 1 else 0) +
    (if is_woken (mk_consumer (c_loop x) v) then 1 else 0))%Z.
Proof.
  intros Hx. unfold woken. simpl.
  replace (alter (λ x, mk_consumer (c_loop x) v) c (ch_consumers s))
    with (<[c := mk_consumer (c_loop x) v]> (ch_consumers s)).
  - by apply count_insert.
  - apply list_eq. intros i. rewrite list_lookup_alter.
    destruct (decide (c = i)) as [<-|Hne].
    + rewrite Hx, list_lookup_insert_eq; [done|]. by eapply lookup_lt_Some.
    + by rewrite list_lookup_insert_ne.
Qed.

Lemma blocked_set c v s c' :
  blocked c' (set_cstate c v s) → is_woken (mk_consumer 0 v) = true ∨ (∀ f a b, v ≠ CAwaiting f a b) →
  c' ≠ c ∧ blocked c' s.
Proof.
  intros (l & mc & Hc & Hop) Hv. rewrite consumers_set in Hc. destruct (decide (c = c')) as [<-|Hne].
  - exfalso. destruct (ch_consumers s !! c) as [y|]; [|done]. injection Hc as _ ->.
    destruct Hv as [Hv|Hv]; [done|by eapply Hv].
  - split; [done|]. by exists l, mc.
Qed.

Lemma sleepy_set c v s c' :
  sleepy c' (set_cstate c v s) → is_woken (mk_consumer 0 v) = true ∨ (∀ f a b, v ≠ CAwaiting f a b) → v ≠ CChecked →
  c' ≠ c ∧ sleepy c' s.
Proof.
  intros [Hb|[l Hl]] Hv Hc; [apply blocked_set in Hb as [? ?]; [by split; [|left]|done]|].
  rewrite consumers_set in Hl. destruct (decide (c = c')) as [<-|Hne].
  - exfalso. destruct (ch_consumers s !! c) as [y|]; [|done]. by injection Hl as _ ->.
  - split; [done|]. right. by exists l.
Qed.

(** [c] leaves the waiters and the blocked. *)
Lemma waiters_ok_set c v ws s :
  waiters_ok ws s → is_woken (mk_consumer 0 v) = true ∨ (∀ f a b, v ≠ CAwaiting f a b) →
  c ∉ ws → waiters_ok ws (set_cstate c v s).
Proof.
  intros [Hn Hw Hb] Hv Hc. split; [done| |].
  - intros c' Hin. rewrite consumers_set, decide_False by (by intros <-). by apply Hw.
  - intros c' [_ Hbl]%blocked_set; [|done]. by apply Hb.
Qed.

Lemma waiters_ok_pop c ws s : waiters_ok (c :: ws) s → ¬ blocked c s → waiters_ok ws s.
Proof.
  intros [Hn Hw Hb] Hc. apply NoDup_cons in Hn as [Hnc Hn]. split; [done| |].
  - intros c' Hin. apply Hw. by right.
  - intros c' Hbl. specialize (Hb c' Hbl). apply elem_of_cons in Hb as [->|]; done.
Qed.

Lemma waiters_ok_with_waiters ws ws' s : waiters_ok ws s → waiters_ok ws (ch_with_waiters ws' s).
Proof. by intros []. Qed.

(** What [_wake_next_waiter] leaves alone. *)
Definition same_items s s' : Prop :=
  ch_items s' = ch_items s ∧ ch_mode s' = ch_mode s ∧ ch_closed s' = ch_closed s ∧
  ch_log s' = ch_log s ∧ ch_events s' = ch_events s ∧ ch_on_get s' = ch_on_get s ∧
  ch_on_put s' = ch_on_put s ∧ ch_owed s' = ch_owed s ∧ (ch_consumers s = [] → ch_consumers s' = []).

Lemma same_items_refl s : same_items s s.
Proof. done. Qed.

Lemma wake_waiters_spec running ws s :
  waiters_ok ws s → running_open running s = true →
  let s' := wake_waiters running ws s in
  waiters_ok (ch_waiters s') s' ∧ same_items s s' ∧
  (woken s' = (woken s + 1)%Z ∨ (woken s' = woken s ∧ ∀ c, ¬ blocked c s')) ∧
  (∀ c, blocked c s' → blocked c s) ∧ (∀ c, checked c s' → checked c s).
Proof.
  intros Hok Hr. revert Hok. induction ws as [|c ws IH]; intros Hok; cbn [wake_waiters].
  { split_and!; [by apply waiters_ok_with_waiters|done| |done|done].
    right. split; [done|]. intros c Hc. destruct Hok as [_ _ Hb].
    by apply (not_elem_of_nil c), Hb. }
  destruct (wo_wait _ _ Hok c) as (l & f & mc & Hc & Hf); [by left|]. rewrite Hc.
  destruct f; [|done|]; cycle 1.
  { apply IH. apply waiters_ok_pop in Hok; [done|]. intros (l' & mc' & Hc' & _). congruence. }
  assert (Hset : ∀ f' sch, is_woken (mk_consumer 0 (CAwaiting (T:=T) f' sch mc)) = true →
    let s' := ch_with_waiters ws (set_cstate c (CAwaiting f' sch mc) s) in
    waiters_ok ws s' ∧ same_items s s' ∧
    (woken s' = (woken s + 1)%Z ∨ (woken s' = woken s ∧ ∀ c, ¬ blocked c s')) ∧
    (∀ c', blocked c' s' → blocked c' s) ∧ (∀ c', checked c' s' → checked c' s)).
  { intros f' sch Hw s'. split_and!.
    - apply waiters_ok_with_waiters. destruct Hok as [Hn Hwt Hb]. apply NoDup_cons in Hn as [Hnc Hn].
      split; [done| |].
      + intros c' Hin. rewrite consumers_set, decide_False by (by intros <-). apply Hwt. by right.
      + intros c' [Hne Hbl]%blocked_set; [|by left]. specialize (Hb c' Hbl).
        by apply elem_of_cons in Hb as [->|].
    - unfold same_items. simpl. split_and!; try done. intros Hnil. by rewrite Hnil.
    - left. change (woken s') with (woken (set_cstate c (CAwaiting f' sch mc) s)).
      rewrite (woken_set _ _ _ _ Hc). simpl in *. unfold is_woken in *. simpl in *. rewrite Hw. lia.
    - intros c' [_ Hbl]%blocked_set; [done|by left].
    - intros c' [l' Hl']. exists l'. pose proof (consumers_set c (CAwaiting f' sch mc) s c') as Hlk. simpl in Hl', Hlk.
      rewrite Hlk in Hl'. case_decide as Hcc; [|done]. subst. by rewrite Hc in Hl'. }
  case_bool_decide as Hrun; [by apply Hset|]. case_bool_decide as Hcl; [|by apply Hset].
  apply IH. apply waiters_ok_pop in Hok; [done|]. intros (l' & mc' & Hc' & Hop'). congruence.
Qed.

Lemma same_items_chan s s' :
  chan_ok s → same_items s s' → waiters_ok (ch_waiters s') s' →
  ((∃ c, sleepy c s') → Z.of_nat (length (ch_items s')) <= woken s' + Z.of_nat (ch_owed s'))%Z → chan_ok s'.
Proof.
  intros [Hm _ _] (Hi & Hmo & _ & _ & _ & _ & _ & _ & Hc) Hw Hk. split; [|done|done].
  rewrite Hmo, Hi. intros Hev. destruct (Hm Hev). auto.
Qed.

(** One more item, or one wakeup less to be sent, and one waiter woken keeps the
    balance, when no consumer is about to put its future in line. *)
Lemma wake_after_item running items n s :
  chan_ok s → ch_mode s = QueueMode → running_open running s = true → (∀ c, ¬ checked c s) →
  length items + ch_owed s <= S (length (ch_items s) + n) →
  chan_ok (wake_next_waiter running (ch_with_owed n (ch_with_items items s))).
Proof.
  intros [Hm Hw Hk] Hq Hr Hno Hlen. unfold wake_next_waiter. cbn [ch_with_items ch_with_owed ch_waiters].
  destruct (wake_waiters_spec running (ch_waiters s) (ch_with_owed n (ch_with_items items s))) as (H1 & H2 & H3 & H4 & H5).
  { by destruct Hw. } { done. }
  destruct H2 as (Hi & Hmo & _ & _ & _ & _ & _ & Ho & _). split; [rewrite Hmo; simpl; congruence|done|].
  intros [c [Hc|Hc]]; [|by apply H5, Hno in Hc]. rewrite Hi, Ho. simpl. destruct H3 as [->|[_ Hn]]; [|by destruct (Hn c)].
  change (woken (ch_with_owed n (ch_with_items items s))) with (woken s).
  assert (∃ c, sleepy c s) as Hbl%Hk by (exists c; left; by apply H4). lia.
Qed.

Lemma chan_ok_notes l s : chan_ok s → chan_ok (ch_notes l s).
Proof. intros [Hm [] Hk]. by split. Qed.

Lemma chan_ok_on_put s : chan_ok s → chan_ok (fire_on_put s).
Proof. unfold fire_on_put. destruct (ch_on_put s); [apply chan_ok_notes|done]. Qed.

Lemma chan_ok_on_get x s : chan_ok s → chan_ok (fire_on_get x s).
Proof.
  intros Hs. unfold fire_on_get, publish.
  assert (chan_ok (if ch_on_get s then ch_notes [OnGet x] s else s)) by
    (destruct (ch_on_get s); [by apply chan_ok_notes|done]).
  destruct (ch_events _); [by apply chan_ok_notes|done].
Qed.

Lemma chan_ok_discard xs s : chan_ok s → chan_ok (fire_on_discard xs s).
Proof.
  intros Hs. destruct xs; simpl; [done|]. unfold publish. destruct (ch_events s); [by apply chan_ok_notes|done].
Qed.

(** Fewer items and no other change. *)
Lemma chan_ok_fewer items s :
  chan_ok s → length items <= length (ch_items s) → chan_ok (ch_with_items items s).
Proof.
  intros [Hm [Hn Hw Hb] Hk] Hlen. split; [|by split|].
  - intros Hev. destruct (Hm Hev) as [Hi Hc]. split; [|done]. rewrite Hi in Hlen. simpl in *.
    destruct items; [done|simpl in *; lia].
  - intros Hbl. simpl. specialize (Hk Hbl). unfold woken in *. simpl. lia.
Qed.

(** A turn of a consumer that is in nobody's way: it takes the head, or it
    finds nothing. *)
Lemma drain_turn_ok c s y :
  chan_ok s → ch_mode s = QueueMode → ch_consumers s !! c = Some y → ¬ blocked c s →
  c ∉ ch_waiters s → chan_ok (drain_turn c s).2.
Proof.
  intros [Hm Hw Hk] Hq Hc Hnb Hnin. unfold drain_turn. destruct (ch_items s) as [|x xs] eqn:Hi.
  - cbn [snd]. split; [simpl; congruence| |].
    + apply waiters_ok_set; [by destruct Hw|right; done|done].
    + intros _. simpl. rewrite Hi. pose proof (count_nonneg is_woken (ch_consumers (set_cstate c CChecked s))).
      unfold woken. simpl in *. lia.
  - cbn [snd]. split; [simpl; congruence| |].
    + apply waiters_ok_set; [by destruct Hw|right; done|done].
    + intros [c' Hbl]. apply sleepy_set in Hbl as [Hne Hbl]; [|right; done|done].
      rewrite (woken_set _ _ _ y) by done. simpl.
      change (woken (ch_with_items xs s)) with (woken s).
      assert (Hlen : (Z.of_nat (length (x :: xs)) <= woken s + Z.of_nat (ch_owed s))%Z).
      { rewrite <- Hi in *. apply Hk. by exists c'. }
      simpl in Hlen. destruct (is_woken y); unfold is_woken; simpl; lia.
Qed.

(** A consumer that found nothing becomes a waiter. *)
Lemma drain_await_ok c s s' : chan_ok s → drain_await c s = Some s' → chan_ok s'.
Proof.
  intros Hs. unfold drain_await. destruct (ch_consumers s !! c) as [[l [|f sch mc|?|]]|] eqn:Hc; try done. intros [= <-].
  destruct (ch_mode s) eqn:Hq; [|by destruct (co_mode _ Hs Hq) as [_ Hnil]; rewrite Hnil in Hc].
  assert (Hnin : c ∉ ch_waiters s).
  { intros Hin. destruct (wo_wait _ _ (co_waiters _ Hs) _ Hin) as (? & ? & ? & Hc' & _). congruence. }
  destruct Hs as [Hm [Hn Hwt Hb] Hk]. split; [simpl; congruence| |].
  - split.
    + simpl. apply NoDup_app. split_and!; [done| |by apply NoDup_singleton].
      intros c' Hin ->%list_elem_of_singleton. done.
    + intros c' Hin. rewrite consumers_set. simpl in Hin.
      destruct (decide (c = c')) as [<-|Hne]; [simpl; rewrite Hc; simpl; eauto 10|].
      apply elem_of_app in Hin as [Hin|?%list_elem_of_singleton]; [by apply Hwt|congruence].
    + intros c' (l' & mc & Hbl & Hop). rewrite consumers_set in Hbl. simpl. apply elem_of_app.
      destruct (decide (c = c')) as [<-|Hne]; [right; by apply list_elem_of_singleton|left].
      apply Hb. by exists l', mc.
  - intros _. simpl. rewrite (woken_set c (CAwaiting FPending false false) (ch_with_waiters (ch_waiters s ++ [c]) s) _ Hc).
    change (woken (ch_with_waiters (ch_waiters s ++ [c]) s)) with (woken s).
    assert (∃ c, sleepy c s) as Hk'%Hk by (exists c; right; by exists l). unfold is_woken. simpl. lia.
Qed.

Lemma finish_turn_ok hooks r : chan_ok r.2 → chan_ok (finish_turn hooks r).
Proof. destruct r as [[x|] s]; simpl; [destruct hooks; [apply chan_ok_on_get|done]|done]. Qed.

Lemma get_ok hooks l s c s' : chan_ok s → get hooks l s = Ok (c, s') → chan_ok s'.
Proof.
  intros Hs. unfold get. destruct (ch_mode s) eqn:Hq; [|done]. intros [= _ <-].
  apply finish_turn_ok. set (s1 := ch_with_consumers _ s).
  assert (Hlk : ∀ c, c ≠ length (ch_consumers s) → ch_consumers s1 !! c = ch_consumers s !! c).
  { intros c' Hne. simpl. destruct (decide (c' < length (ch_consumers s))).
    - by rewrite lookup_app_l.
    - rewrite !lookup_ge_None_2; [done|lia|rewrite length_app; simpl; lia]. }
  assert (Hnew : ch_consumers s1 !! length (ch_consumers s) = Some (mk_consumer l CEnded)).
  { simpl. by rewrite lookup_app_r, Nat.sub_diag by lia. }
  assert (Hbl : ∀ c, blocked c s1 → blocked c s).
  { intros c' (l' & mc & Hc & Hop). exists l', mc. split; [|done].
    rewrite Hlk in Hc; [done|]. intros ->. congruence. }
  assert (Hin : ∀ c, c ∈ ch_waiters s → c ≠ length (ch_consumers s)).
  { intros c' Hin ->. destruct (wo_wait _ _ (co_waiters _ Hs) _ Hin) as (? & ? & ? & Hc & _).
    apply lookup_lt_Some in Hc. lia. }
  assert (Hs1 : chan_ok s1).
  { destruct Hs as [Hm [Hn Hw Hb] Hk]. split; [simpl; congruence|split; [done| |]|].
    - intros c' Hc'. rewrite Hlk; [by apply Hw|by apply Hin].
    - intros c' Hc'. apply Hb. by apply Hbl.
    - intros [c' Hc']. simpl. assert (∃ c, sleepy c s) as Hk'%Hk.
      { exists c'. destruct Hc' as [Hc'|[l' Hc']]; [left; by apply Hbl|right; exists l'].
        rewrite Hlk in Hc'; [done|]. intros ->. congruence. }
      unfold woken, s1. simpl. rewrite count_app. simpl. unfold woken in Hk'. lia. }
  eapply drain_turn_ok; [done|done|exact Hnew| |].
  - intros (l' & mc & Hc & _). congruence.
  - intros Hc. by apply (Hin _ Hc).
Qed.

Lemma drain_cancelled_ok c l s y :
  chan_ok s → ch_mode s = QueueMode → ch_consumers s !! c = Some y → is_woken y = true →
  loop_open l s = true → (∀ c, ¬ checked c s) → chan_ok (drain_cancelled c l s).
Proof.
  intros Hs Hq Hc Hy Hop Hno. pose proof Hs as [Hm [Hn Hw Hb] Hk]. unfold drain_cancelled.
  set (s1 := set_cstate c CEnded _).
  assert (Hbl : ∀ c', blocked c' s1 → blocked c' s).
  { intros c' Hc'. apply blocked_set in Hc' as [_ Hc']; [done|right; done]. }
  assert (Hwk : woken s1 = (woken s - 1)%Z).
  { unfold s1. rewrite (woken_set _ _ _ y) by done. rewrite Hy. simpl. unfold woken. simpl. lia. }
  assert (Hw1 : waiters_ok (ch_waiters s1) s1).
  { split.
    - by apply discard_first_NoDup.
    - intros c' Hin. simpl in Hin. unfold s1. rewrite consumers_set.
      assert (c ≠ c').
      { intros <-. destruct (discard_first_NoDup c _ Hn) as [_ Hnot]. done. }
      rewrite decide_False by done. apply Hw. by eapply elem_of_discard_first_ne.
    - intros c' Hc'. pose proof Hc' as Hc''. apply blocked_set in Hc'' as [Hne _]; [|right; done].
      simpl. apply elem_of_discard_first_ne; [done|]. apply Hb. by apply Hbl. }
  destruct (decide (ch_items s = [])) as [Hi|Hi].
  - rewrite bool_decide_eq_true_2 by done. split; [simpl; congruence|done|].
    intros _. pose proof (count_nonneg is_woken (ch_consumers s1)). unfold woken. simpl in *. rewrite Hi. simpl. lia.
  - rewrite bool_decide_eq_false_2 by done. unfold wake_next_waiter.
    destruct (wake_waiters_spec (Some l) (ch_waiters s1) s1 Hw1 Hop) as (H1 & H2 & H3 & H4 & H5).
    destruct H2 as (Hit & Hmo & _ & _ & _ & _ & _ & Ho & _). split; [rewrite Hmo; simpl; congruence|done|].
    intros [c' [Hc'|Hc']].
    2: { apply H5 in Hc' as [l' Hc']. destruct (Hno c'). exists l'. unfold s1 in Hc'. rewrite consumers_set in Hc'.
      case_decide; [|done]. by destruct (ch_consumers _ !! c'). }
    rewrite Hit, Ho. destruct H3 as [->|[_ Hn']]; [|by destruct (Hn' c')].
    rewrite Hwk. change (ch_items s1) with (ch_items s). change (ch_owed s1) with (ch_owed s).
    assert (∃ c, sleepy c s) as Hk'%Hk by (exists c'; left; auto). lia.
Qed.

Lemma consumer_queue c s y : chan_ok s → ch_consumers s !! c = Some y → ch_mode s = QueueMode.
Proof.
  intros Hs Hc. destruct (ch_mode s) eqn:Hm; [done|].
  destruct (co_mode _ Hs Hm) as [_ Hnil]. by rewrite Hnil in Hc.
Qed.

(** The steps that run [_wake_next_waiter]. *)
Definition sends_wakeup (o : chan_op T) s : bool :=
  match o with
  | OpPut _ _ | OpPutWake _ | OpRestore _ _ => true
  | OpResume _ c =>
      match ch_consumers s !! c with
      | Some (mk_consumer _ (CAwaiting FDone _ false)) => false
      | _ => true
      end
  | _ => false
  end.

(** No wakeup is sent while a consumer is between its check of the deque and the
    append of its future.  Tasks of one loop do not switch there, so on one
    thread every step is so. *)
Definition undisturbed s (o : chan_op T) : Prop := sends_wakeup o s = true → ∀ c, ¬ checked c s.

Lemma resume_ok hooks c s s' :
  chan_ok s → consumer_open c s = true → undisturbed s (OpResume hooks c) → resume hooks c s = Some s' → chan_ok s'.
Proof.
  intros Hs Hop Hu. unfold undisturbed, sends_wakeup in Hu. unfold resume, consumer_open in *.
  destruct (ch_consumers s !! c) as [[l [|f sch mc|?|]]|] eqn:Hc; try done; simpl in Hop.
  pose proof (consumer_queue _ _ _ Hs Hc) as Hq.
  destruct f; [done| |]; [destruct mc|]; intros [= <-].
  - eapply drain_cancelled_ok; try done. by apply Hu.
  - apply finish_turn_ok. eapply drain_turn_ok; [done|done|exact Hc| |].
    + intros (l' & mc & Hc' & _). congruence.
    + intros Hin. destruct (wo_wait _ _ (co_waiters _ Hs) _ Hin) as (? & ? & ? & Hc' & Hf). congruence.
  - eapply drain_cancelled_ok; try done. by apply Hu.
Qed.

(** A consumer awaiting its future changes the future and stays where it is. *)
Lemma set_future_ok c l f f' sch sch' mc mc' s :
  chan_ok s → ch_consumers s !! c = Some (mk_consumer l (CAwaiting f sch mc)) →
  (f = FPending ∨ f = FDone ∧ f' = FDone) → f' ≠ FPending →
  (c ∈ ch_waiters s → sch' = false ∧ f' = FCancelled) →
  chan_ok (set_cstate c (CAwaiting f' sch' mc') s).
Proof.
  intros Hs Hc Hf Hf' Hin. pose proof (consumer_queue _ _ _ Hs Hc) as Hq.
  destruct Hs as [Hm [Hn Hw Hb] Hk]. assert (Hwn : is_woken (mk_consumer 0 (CAwaiting (T:=T) f' sch' mc')) = true).
  { by destruct f'. }
  split; [simpl; congruence|split; [done| |]|].
  - intros c' Hc'. rewrite consumers_set. destruct (decide (c = c')) as [<-|Hne]; [|by apply Hw].
    rewrite Hc. simpl. destruct (Hin Hc') as [-> ->]. eauto 10.
  - intros c' Hc'. apply blocked_set in Hc' as [_ Hc']; [|by left]. by apply Hb.
  - intros [c' Hc']. apply sleepy_set in Hc' as [_ Hc']; [|by left|done].
    rewrite (woken_set _ _ _ _ Hc). simpl. unfold is_woken in Hwn at 1. simpl in Hwn.
    assert (∃ c, sleepy c s) as Hk'%Hk by (by exists c').
    unfold is_woken. simpl. rewrite Hwn. destruct f, sch; simpl; lia.
Qed.

Lemma cancel_ok c s : chan_ok s → chan_ok (cancel_consumer c s).
Proof.
  intros Hs. unfold cancel_consumer.
  destruct (ch_consumers s !! c) as [[l [|f sch mc|?|]]|] eqn:Hc; try done. destruct f; [| |done].
  - eapply set_future_ok; try done; [by left|]. intros Hin.
    destruct (wo_wait _ _ (co_waiters _ Hs) _ Hin) as (? & ? & ? & Hc' & Hf).
    split; [congruence|done].
  - eapply set_future_ok; try done; [by right|]. intros Hin.
    destruct (wo_wait _ _ (co_waiters _ Hs) _ Hin) as (? & ? & ? & Hc' & Hf). congruence.
Qed.

Lemma safe_wake_ok c s : chan_ok s → chan_ok (safe_wake c s).
Proof.
  intros Hs. unfold safe_wake.
  destruct (ch_consumers s !! c) as [[l [|f sch mc|?|]]|] eqn:Hc; try done.
  destruct f, sch; try done. eapply set_future_ok; try done; [by left|]. intros Hin.
  destruct (wo_wait _ _ (co_waiters _ Hs) _ Hin) as (? & ? & ? & Hc' & Hf). congruence.
Qed.

Definition get_notes (x : T) s : list (note T) :=
  (if ch_on_get s then [OnGet x] else []) ++ (if ch_events s then [ItemConsumed x] else []).

Lemma fire_on_get_notes x s : fire_on_get x s = ch_notes (get_notes x s) s.
Proof.
  destruct s as [? ? ev og ? ? ? ? ? ? ?]. unfold fire_on_get, publish, get_notes. simpl.
  destruct og, ev; unfold ch_notes; simpl; by rewrite ?app_nil_r, <- ?app_assoc.
Qed.

Lemma drain_spec s : ch_mode s = QueueMode →
  (drain s).2 = ch_notes (concat ((λ x, get_notes x s) <$> ch_items s)) (ch_with_items [] s).
Proof.
  intros Hq. unfold drain. rewrite Hq. cbn [snd].
  assert (H : ∀ xs s, ch_items s = xs →
    foldl (λ s x, fire_on_get x (ch_with_items (tail (ch_items s)) s)) s xs =
    ch_notes (concat ((λ x, get_notes x s) <$> xs)) (ch_with_items [] s)).
  { induction xs as [|x xs IH]; intros s0 Hi; cbn [foldl].
    - destruct s0; simpl in *; subst. unfold ch_notes. simpl. by rewrite app_nil_r.
    - rewrite Hi, fire_on_get_notes. cbn [tail]. rewrite IH by done.
      unfold ch_notes. simpl. by rewrite app_assoc. }
  by apply H.
Qed.

Lemma drain_ok s : chan_ok s → chan_ok (drain s).2.
Proof.
  intros Hs. destruct (ch_mode s) eqn:Hq.
  - rewrite (drain_spec s Hq). apply chan_ok_notes, chan_ok_fewer; [done|simpl; lia].
  - unfold drain. by rewrite Hq.
Qed.

(** Cancelling every pending waiter. *)
Lemma flush_fold ws s :
  let s' := foldl (λ s c, match ch_consumers s !! c with
                          | Some (mk_consumer _ (CAwaiting FPending sch mc)) =>
                              set_cstate c (CAwaiting FCancelled sch mc) s
                          | _ => s end) s ws in
  ch_items s' = ch_items s ∧ ch_mode s' = ch_mode s ∧ ch_closed s' = ch_closed s ∧
  ch_log s' = ch_log s ∧ ch_events s' = ch_events s ∧
  length (ch_consumers s') = length (ch_consumers s) ∧
  ∀ c, ¬ (blocked c s ∧ c ∉ ws) → ¬ blocked c s'.
Proof.
  revert s. induction ws as [|c ws IH]; intros s; cbn [foldl].
  { split_and!; try done. intros c Hn Hb. apply Hn. split; [done|by apply not_elem_of_nil]. }
  set (s1 := match ch_consumers s !! c with Some _ => _ | None => s end).
  assert (H1 : ch_items s1 = ch_items s ∧ ch_mode s1 = ch_mode s ∧ ch_closed s1 = ch_closed s ∧
    ch_log s1 = ch_log s ∧ ch_events s1 = ch_events s ∧
    length (ch_consumers s1) = length (ch_consumers s) ∧ ¬ blocked c s1 ∧ ∀ c', blocked c' s1 → blocked c' s).
  { unfold s1. destruct (ch_consumers s !! c) as [[l [|[] sch mc|?|]]|] eqn:Hc;
      try (split_and!; try done; intros (?&?&?&?); congruence).
    split_and!; try done.
    - simpl. by rewrite length_alter.
    - intros Hb. apply blocked_set in Hb as [? _]; [done|by left].
    - intros c' Hb. apply blocked_set in Hb as [_ ?]; [done|by left]. }
  destruct H1 as (E1 & E2 & E3 & E4 & E5 & E6 & Hn & Hback).
  destruct (IH s1) as (F1 & F2 & F3 & F4 & F5 & F6 & Hf).
  rewrite F1, F2, F3, F4, F5, F6. split_and!; try done. intros c' Hc' Hb. apply (Hf c'); [|done].
  intros [Hb1 Hnin]. apply Hc'. split; [by apply Hback|].
  intros [->|Hin]%elem_of_cons; done.
Qed.

Lemma flush_ok s : chan_ok s → chan_ok (flush s).2.
Proof.
  intros Hs. unfold flush. cbn [snd]. apply chan_ok_discard.
  destruct (flush_fold (ch_waiters s) (ch_with_items [] s)) as (F1 & F2 & _ & _ & _ & F6 & Hf).
  set (s1 := foldl _ _ _) in *.
  assert (Hno : ∀ c, ¬ blocked c s1).
  { intros c. apply Hf. intros [Hb Hn]. by apply Hn, (wo_blocked _ _ (co_waiters _ Hs)). }
  split; [|split; [constructor| |]|].
  - simpl. rewrite F1, F2. simpl. intros [_ Hc]%(co_mode _ Hs). split; [done|].
    apply nil_length_inv. rewrite F6. simpl. by rewrite Hc.
  - intros c Hin. by apply not_elem_of_nil in Hin.
  - intros c Hb. by destruct (Hno c).
  - intros _. pose proof (count_nonneg is_woken (ch_consumers s1)). unfold woken. simpl. rewrite F1. simpl. lia.
Qed.

Lemma close_loop_ok l s : chan_ok s → chan_ok (ch_with_closed (l :: ch_closed s) s).
Proof.
  intros [Hm [Hn Hw Hb] Hk].
  assert (H1 : ∀ c, blocked c (ch_with_closed (l :: ch_closed s) s) → blocked c s).
  { intros c (l' & mc & Hc & Hop). exists l', mc. split; [done|]. simpl in Hop. set_solver. }
  split; [done|split; [done|done|auto]|]. intros [c [Hc|Hc]]; apply Hk; exists c; [left; by apply H1|by right].
Qed.

Lemma chan_step_ok s o s' : chan_ok s → undisturbed s o → chan_step s o s' → chan_ok s'.
Proof.
  intros Hs Hu. destruct o as [r x|x|r|r x|h l|c|h c|c|c| | |x| | |l]; cbn [chan_step].
  - intros [Hr Hp]. unfold put in Hp. destruct (ch_mode s) eqn:Hq.
    + injection Hp as <-. apply chan_ok_on_put. change (ch_with_items (ch_items s ++ [x]) s) with (ch_with_owed (ch_owed s) (ch_with_items (ch_items s ++ [x]) s)).
      apply wake_after_item; try done; [by apply Hu|]. rewrite length_app. simpl. lia.
    + destruct (ch_events s); [|done]. injection Hp as <-. by apply chan_ok_on_put, chan_ok_notes.
  - intros [Hq ->]. destruct Hs as [Hm [Hn Hw Hb] Hk]. split; [simpl; congruence|by split|].
    intros Hsl. change (∃ c, sleepy c s) in Hsl. specialize (Hk Hsl). unfold woken in *. simpl. rewrite length_app. simpl. lia.
  - intros (Hr & Hq & Ho & ->). apply chan_ok_on_put.
    change (ch_with_owed (pred (ch_owed s)) s) with (ch_with_owed (pred (ch_owed s)) (ch_with_items (ch_items s) s)).
    apply wake_after_item; try done; [by apply Hu|]. lia.
  - intros (Hr & Hq & ->). apply chan_ok_on_put.
    change (ch_with_items (x :: ch_items s) s) with (ch_with_owed (ch_owed s) (ch_with_items (x :: ch_items s) s)).
    apply wake_after_item; try done. by apply Hu.
  - intros (Hop & c & Hg). by eapply get_ok.
  - by apply drain_await_ok.
  - intros [Hop Hr]. by eapply resume_ok.
  - intros ->. by apply cancel_ok.
  - intros [_ ->]. by apply safe_wake_ok.
  - intros ->. by apply drain_ok.
  - intros ->. unfold pop_last. destruct (last (ch_items s)); [|done].
    apply chan_ok_fewer; [done|]. rewrite length_take. lia.
  - intros ->. unfold remove. case_bool_decide; [|done]. apply chan_ok_fewer; [done|].
    apply sublist_length, discard_first_sublist.
  - intros ->. apply chan_ok_discard, chan_ok_fewer; [done|simpl; lia].
  - intros ->. by apply flush_ok.
  - intros ->. by apply close_loop_ok.
Qed.

Lemma new_channel_ok name m e g p : chan_ok (new_channel name m e g p).
Proof.
  split; [done|split; [constructor| |]|].
  - intros c Hin. by apply not_elem_of_nil in Hin.
  - by intros c (l & mc & Hc & _).
  - by intros [c [(l & mc & Hc & _)|[l Hc]]].
Qed.


(** ** Histories *)

(** What an operation does with items, from the state it starts in. *)
Definition produced (o : chan_op T) s : list T :=
  match o with OpPut _ x => if bool_decide (ch_mode s = QueueMode) then [x] else [] | OpPutItem x => [x] | _ => [] end.

Definition delivered (o : chan_op T) s : list T :=
  match o with
  | OpGet _ _ => take 1 (ch_items s)
  | OpResume _ c =>
      match ch_consumers s !! c with
      | Some (mk_consumer _ (CAwaiting FDone _ false)) => take 1 (ch_items s)
      | _ => []
      end
  | OpDrain => (drain s).1
  | _ => []
  end.

Definition dropped (o : chan_op T) s : list T :=
  match o with OpClear | OpFlush => ch_items s | _ => [] end.

Definition withdrawn (o : chan_op T) s : list T :=
  match o with
  | OpPopLast => option_list (last (ch_items s))
  | OpRemove x => if bool_decide (x ∈ ch_items s) then [x] else []
  | _ => []
  end.

(** A channel with everything that happened to its items so far. *)
Record history := mk_history {
  h_chan : channel T;
  h_put : list T;
  h_got : list T;
  h_dropped : list T;
  h_withdrawn : list T;
}.

(** One operation, other than the internal [_restore_front]. *)
Definition hist_step (h : history) (o : chan_op T) (h' : history) : Prop :=
  (∀ r x, o ≠ OpRestore r x) ∧ chan_step (h_chan h) o (h_chan h') ∧
  h_put h' = h_put h ++ produced o (h_chan h) ∧
  h_got h' = h_got h ++ delivered o (h_chan h) ∧
  h_dropped h' = h_dropped h ++ dropped o (h_chan h) ∧
  h_withdrawn h' = h_withdrawn h ++ withdrawn o (h_chan h).

Lemma wake_waiters_frame running ws s :
  let s' := wake_waiters running ws s in
  ch_items s' = ch_items s ∧ ch_mode s' = ch_mode s ∧ ch_log s' = ch_log s ∧
  ch_events s' = ch_events s.
Proof.
  revert s. induction ws as [|c ws IH]; intros s; cbn [wake_waiters]; [done|].
  destruct (ch_consumers s !! c) as [[l [|[] sch mc|?|]]|]; try apply IH.
  case_bool_decide; [done|]. case_bool_decide; [apply IH|done].
Qed.

Lemma drain_cancelled_frame c l s :
  ch_items (drain_cancelled c l s) = ch_items s ∧ ch_log (drain_cancelled c l s) = ch_log s ∧
  ch_events (drain_cancelled c l s) = ch_events s.
Proof.
  unfold drain_cancelled. case_bool_decide; [done|].
  unfold wake_next_waiter. match goal with |- context [wake_waiters ?r ?ws ?s0] =>
    destruct (wake_waiters_frame r ws s0) as (-> & _ & -> & ->) end. done.
Qed.

(** The items and the log after a turn that fires the hooks or not. *)
Lemma finish_turn_frame hooks c s :
  let s' := finish_turn hooks (drain_turn c s) in
  ch_items s = take 1 (ch_items s) ++ ch_items s' ∧ ch_events s' = ch_events s ∧
  ch_log s' = ch_log s ++ (if hooks then concat ((λ x, get_notes x s) <$> take 1 (ch_items s)) else []).
Proof.
  unfold drain_turn. destruct (ch_items s) as [|x xs] eqn:Hi; simpl.
  - rewrite Hi. destruct hooks; by rewrite app_nil_r.
  - destruct hooks; simpl; [|by rewrite app_nil_r].
    rewrite fire_on_get_notes. simpl. by rewrite app_nil_r.
Qed.

(** Items are delivered in order, and none disappears. *)
Lemma step_items s o s' :
  (∀ r x, o ≠ OpRestore r x) → chan_step s o s' →
  delivered o s ++ ch_items s' `sublist_of` ch_items s ++ produced o s ∧
  ch_items s ++ produced o s ≡ₚ delivered o s ++ dropped o s ++ withdrawn o s ++ ch_items s'.
Proof.
  intros Hnr. destruct o as [r x|x|r|r x|h l|c|h c|c|c| | |x| | |l]; cbn [chan_step delivered produced dropped withdrawn app].
  - intros [_ Hp]. unfold put in Hp. destruct (ch_mode s).
    + injection Hp as <-. rewrite bool_decide_eq_true_2 by done. unfold fire_on_put, wake_next_waiter.
      match goal with |- context [wake_waiters ?r0 ?ws ?s0] =>
        destruct (wake_waiters_frame r0 ws s0) as (Hi & _) end.
      case_match; cbn [ch_notes ch_items]; by rewrite Hi.
    + destruct (ch_events s); [|done]. injection Hp as <-. rewrite bool_decide_eq_false_2 by done.
      rewrite app_nil_r. unfold fire_on_put. by case_match.
  - by intros [_ ->].
  - intros (_ & _ & _ & ->). rewrite app_nil_r. unfold put_wake, fire_on_put, wake_next_waiter.
    match goal with |- context [wake_waiters ?r0 ?ws ?s0] => destruct (wake_waiters_frame r0 ws s0) as (Hi & _) end.
    case_match; cbn [ch_notes ch_items]; by rewrite Hi.
  - by destruct (Hnr r x).
  - intros (_ & c & Hg). unfold get in Hg. destruct (ch_mode s); [|done]. injection Hg as _ <-.
    rewrite app_nil_r. match goal with |- context [finish_turn h (drain_turn ?c0 ?s0)] =>
      destruct (finish_turn_frame h c0 s0) as (Hi & _) end. cbn [ch_with_consumers ch_items] in Hi.
    by rewrite <- Hi.
  - intros Hr. rewrite app_nil_r. unfold drain_await in Hr. destruct (ch_consumers s !! c) as [[l []]|]; try done. by injection Hr as <-.
  - intros [_ Hr]. unfold resume in Hr. rewrite app_nil_r.
    destruct (ch_consumers s !! c) as [[l [|[] sch []|?|]]|]; try done; injection Hr as <-;
      try (destruct (drain_cancelled_frame c l s) as (-> & _); done).
    destruct (finish_turn_frame h c s) as (Hi & _). by rewrite <- Hi.
  - intros ->. rewrite app_nil_r. unfold cancel_consumer. by repeat case_match.
  - intros [_ ->]. rewrite app_nil_r. unfold safe_wake. by repeat case_match.
  - intros ->. rewrite app_nil_r. destruct (ch_mode s) eqn:Hq.
    + rewrite (drain_spec s Hq). unfold drain. rewrite Hq. simpl. by rewrite app_nil_r.
    + unfold drain. rewrite Hq. done.
  - intros ->. rewrite app_nil_r. unfold pop_last. destruct (last (ch_items s)) as [x|] eqn:Hl; [|done].
    apply last_Some in Hl as [l Hl]. cbn [fst snd ch_with_items ch_items option_list].
    rewrite Hl, length_app. simpl. replace (length l + 1 - 1) with (length l) by lia.
    rewrite take_app_length. split; [apply sublist_inserts_r; done|]. by rewrite Permutation_app_comm.
  - intros ->. rewrite app_nil_r. unfold remove. case_bool_decide as Hin; [|done]. cbn [snd ch_with_items ch_items].
    split; [apply discard_first_sublist|]. unfold discard_first.
    destruct (remove_first x (ch_items s)) as [l'|] eqn:Hr.
    + apply remove_first_Some in Hr as (l1 & l2 & -> & _ & ->). simpl. by rewrite <- Permutation_middle.
    + by apply remove_first_None in Hr.
  - intros ->. rewrite app_nil_r. unfold clear. destruct (ch_items s) as [|x xs] eqn:Hi; simpl; [done|].
    unfold publish. simpl. case_match; simpl; rewrite ?app_nil_r; split; try done; apply sublist_nil_l.
  - intros ->. rewrite app_nil_r. unfold flush. cbn [snd].
    destruct (flush_fold (ch_waiters s) (ch_with_items [] s)) as (F1 & _).
    assert (Hi : ch_items (fire_on_discard (ch_items s) (ch_with_waiters [] (foldl (λ s c,
      match ch_consumers s !! c with
      | Some (mk_consumer _ (CAwaiting FPending sch mc)) => set_cstate c (CAwaiting FCancelled sch mc) s
      | _ => s end) (ch_with_items [] s) (ch_waiters s)))) = []).
    { unfold fire_on_discard, publish. repeat case_match; simpl; by rewrite F1. }
    rewrite Hi, app_nil_r. split; [apply sublist_nil_l|done].
  - intros ->. by rewrite app_nil_r.
Qed.

(** Whatever producers, consumers and cancellations do, the items
    delivered followed by the pending ones are a subsequence of the items put,
    in that order; and every item put was delivered, dropped by [clear] or
    [flush], withdrawn by its caller, or is still pending, exactly once. *)
Theorem channel_fifo_conservation s0 ops h :
  ch_items s0 = [] → steps hist_step (mk_history s0 [] [] [] []) ops h →
  h_got h ++ ch_items (h_chan h) `sublist_of` h_put h ∧
  h_put h ≡ₚ h_got h ++ h_dropped h ++ h_withdrawn h ++ ch_items (h_chan h).
Proof.
  intros H0 Hrun. eapply (steps_invariant hist_step (λ h,
    h_got h ++ ch_items (h_chan h) `sublist_of` h_put h ∧
    h_put h ≡ₚ h_got h ++ h_dropped h ++ h_withdrawn h ++ ch_items (h_chan h))); [| |exact Hrun].
  - intros h1 o h2 [Hs Hp] (Hnr & Hst & E1 & E2 & E3 & E4).
    destruct (step_items _ _ _ Hnr Hst) as [Ks Kp]. rewrite E1, E2, E3, E4. split.
    + etransitivity; [|by apply sublist_app; [exact Hs|reflexivity]].
      rewrite <- !app_assoc. by apply sublist_app.
    + rewrite Hp, <- !app_assoc, Kp. solve_Permutation.
  - simpl. by rewrite H0.
Qed.

(** ** Announcements *)

Definition consumed (l : list (note T)) : list T :=
  omap (λ n, match n with ItemConsumed x => Some x | _ => None end) l.

Definition discarded (l : list (note T)) : list T :=
  concat ((λ n, match n with ItemsDiscarded xs => xs | _ => [] end) <$> l).

(** The consumer of the operation, if any, is a [get], which fires the hooks. *)
Definition hooked (o : chan_op T) : Prop :=
  match o with OpGet h _ | OpResume h _ => h = true | _ => True end.

Lemma consumed_app l1 l2 : consumed (l1 ++ l2) = consumed l1 ++ consumed l2.
Proof. apply omap_app. Qed.

Lemma discarded_app l1 l2 : discarded (l1 ++ l2) = discarded l1 ++ discarded l2.
Proof. unfold discarded. by rewrite fmap_app, concat_app. Qed.

Lemma get_notes_announce s xs :
  ch_events s = true →
  let l := concat ((λ x, get_notes x s) <$> xs) in
  consumed l = xs ∧ discarded l = [] ∧ ItemsDiscarded [] ∉ l.
Proof.
  intros He. induction xs as [|x xs (IH1 & IH2 & IH3)]; [split_and!; [done|done|apply not_elem_of_nil]|].
  cbn [fmap list_fmap concat]. rewrite consumed_app, discarded_app. csimpl in IH1. csimpl in IH2.
  unfold get_notes at 1 3 5. rewrite He. split_and!.
  - rewrite IH1. by destruct (ch_on_get s).
  - rewrite IH2. by destruct (ch_on_get s).
  - intros [Hin|]%elem_of_app; [|done]. destruct (ch_on_get s); set_solver.
Qed.

(** What one operation adds to the log. *)
Definition announces (o : chan_op T) s s' : Prop :=
  ch_events s' = ch_events s ∧ ∃ l, ch_log s' = ch_log s ++ l ∧ consumed l = delivered o s ∧
    discarded l = dropped o s ∧ ItemsDiscarded [] ∉ l.

Lemma announces_nothing o s s' :
  ch_events s' = ch_events s → ch_log s' = ch_log s → delivered o s = [] → dropped o s = [] →
  announces o s s'.
Proof.
  intros He Hl Hd Hx. split; [done|]. exists []. rewrite app_nil_r, Hd, Hx.
  split_and!; try done. apply not_elem_of_nil.
Qed.

Lemma announces_items o s s' xs :
  ch_events s = true → ch_events s' = ch_events s →
  ch_log s' = ch_log s ++ concat ((λ x, get_notes x s) <$> xs) → delivered o s = xs → dropped o s = [] →
  announces o s s'.
Proof.
  intros He He' Hl Hd Hx. split; [done|]. eexists. split; [done|]. rewrite Hd, Hx.
  by apply get_notes_announce.
Qed.

Lemma discard_announces o s s' items :
  ch_events s = true → ch_events s' = true → ch_log s' = ch_log s → delivered o s = [] →
  dropped o s = items → announces o s (fire_on_discard items s').
Proof.
  intros He He' Hl Hd Hx. destruct items as [|x xs]; simpl.
  - apply announces_nothing; congruence.
  - unfold publish. rewrite He'. split; [simpl; congruence|]. exists [ItemsDiscarded (x :: xs)].
    simpl. rewrite Hl, Hd, Hx. unfold discarded. simpl. rewrite app_nil_r.
    split_and!; try done. intros Hin%list_elem_of_singleton. done.
Qed.

Lemma step_announces s o s' :
  (∀ r x, o ≠ OpRestore r x) → hooked o → ch_events s = true → chan_step s o s' → announces o s s'.
Proof.
  intros Hnr Hh He. destruct o as [r x|x|r|r x|h l|c|h c|c|c| | |x| | |l]; cbn [chan_step hooked] in *.
  - intros [_ Hp]. unfold put in Hp.
    assert (Hput : ∀ s0, ch_log s0 = ch_log s ∨ ch_log s0 = ch_log s ++ [OutputEvent x] →
      ch_events s0 = ch_events s → announces (OpPut r x) s (fire_on_put s0)).
    { intros s0 Hl He0. unfold fire_on_put.
      destruct (ch_on_put s0), Hl as [Hl|Hl]; (split; [simpl; congruence|]); simpl; rewrite Hl;
        [exists [OnPut]|exists [OutputEvent x; OnPut]|exists []|exists [OutputEvent x]];
        rewrite <- ?app_assoc, ?app_nil_r; split_and!; try done; set_solver. }
    destruct (ch_mode s).
    + injection Hp as <-. unfold wake_next_waiter.
      match goal with |- context [wake_waiters ?r0 ?ws ?s0] =>
        destruct (wake_waiters_frame r0 ws s0) as (_ & _ & Hl & He0) end.
      apply Hput; [by left|done].
    + rewrite He in Hp. injection Hp as <-. apply Hput; [by right|done].
  - intros [_ ->]. by apply announces_nothing.
  - intros (_ & _ & _ & ->). unfold put_wake, fire_on_put, wake_next_waiter.
    match goal with |- context [wake_waiters ?r0 ?ws ?s0] => destruct (wake_waiters_frame r0 ws s0) as (_ & _ & Hl & He0) end.
    case_match; [|by apply announces_nothing]. split; [done|]. exists [OnPut]. cbn [ch_notes ch_log]. rewrite Hl.
    split_and!; try done. set_solver.
  - by destruct (Hnr r x).
  - intros (_ & c & Hg). unfold get in Hg. destruct (ch_mode s); [|done]. injection Hg as _ <-. subst h.
    match goal with |- context [finish_turn true (drain_turn ?c0 ?s0)] =>
      destruct (finish_turn_frame true c0 s0) as (_ & He0 & Hl) end.
    by eapply announces_items.
  - intros Hr. unfold drain_await in Hr. destruct (ch_consumers s !! c) as [[l []]|]; try done. injection Hr as <-.
    by apply announces_nothing.
  - intros [_ Hr]. unfold resume in Hr. subst h.
    destruct (ch_consumers s !! c) as [[l [|[] sch []|?|]]|] eqn:Hc; try done; injection Hr as <-.
    + destruct (drain_cancelled_frame c l s) as (_ & ? & ?). apply announces_nothing; try done.
      simpl. by rewrite Hc.
    + destruct (finish_turn_frame true c s) as (_ & He0 & Hl). eapply announces_items; try done.
      simpl. by rewrite Hc.
    + destruct (drain_cancelled_frame c l s) as (_ & ? & ?). apply announces_nothing; try done.
      simpl. by rewrite Hc.
    + destruct (drain_cancelled_frame c l s) as (_ & ? & ?). apply announces_nothing; try done.
      simpl. by rewrite Hc.
  - intros ->. unfold cancel_consumer. repeat case_match; by apply announces_nothing.
  - intros [_ ->]. unfold safe_wake. repeat case_match; by apply announces_nothing.
  - intros ->. destruct (ch_mode s) eqn:Hq.
    + rewrite (drain_spec s Hq). eapply announces_items; try done. simpl. unfold drain. by rewrite Hq.
    + unfold drain. rewrite Hq. apply announces_nothing; try done. simpl. unfold drain. by rewrite Hq.
  - intros ->. unfold pop_last. case_match; by apply announces_nothing.
  - intros ->. unfold remove. case_match; by apply announces_nothing.
  - intros ->. by apply discard_announces.
  - intros ->. unfold flush. cbn [snd].
    destruct (flush_fold (ch_waiters s) (ch_with_items [] s)) as (_ & _ & _ & F4 & F5 & _).
    apply discard_announces; try done. by rewrite <- He.
  - intros ->. by apply announces_nothing.
Qed.

(** With an event manager and consumers that use [get], every delivered
    item is published once as [ChannelItemConsumed], in delivery order, and
    every dropped item once in a [ChannelItemsDiscarded], never with an empty
    list; withdrawn items are not announced. *)
Theorem channel_announces_items s0 ops h :
  ch_log s0 = [] → ch_events s0 = true → Forall hooked ops →
  steps hist_step (mk_history s0 [] [] [] []) ops h →
  consumed (ch_log (h_chan h)) = h_got h ∧ discarded (ch_log (h_chan h)) = h_dropped h ∧
  ItemsDiscarded [] ∉ ch_log (h_chan h).
Proof.
  intros H0 He Hops Hrun.
  set (Inv h := ch_events (h_chan h) = true ∧ consumed (ch_log (h_chan h)) = h_got h ∧
    discarded (ch_log (h_chan h)) = h_dropped h ∧ ItemsDiscarded [] ∉ ch_log (h_chan h)).
  assert (Hi0 : Inv (mk_history s0 [] [] [] [])).
  { unfold Inv. simpl. rewrite H0. split_and!; try done. apply not_elem_of_nil. }
  assert (Inv h) as (_ & ? & ? & ?); [|done]. revert Hi0 Hops.
  clear H0 He. induction Hrun as [h|h1 o h2 os h3 (Hnr & Hst & E1 & E2 & E3 & E4) _ IH]; [done|].
  intros (He & Hc & Hd & Hn) [Ho Hops]%Forall_cons. apply IH; [|done].
  destruct (step_announces _ _ _ Hnr Ho He Hst) as (He' & l & Hl & K1 & K2 & K3).
  unfold Inv. rewrite He', Hl, consumed_app, discarded_app, K1, K2, E2, E3, Hc, Hd.
  split_and!; try done. set_solver.
Qed.
End Runs.

(** ** Witnesses *)

(** Two consumers block, two items arrive, the first consumer is cancelled
    before it resumes, and a third item is flushed. *)
Definition demo_chan : channel nat := new_channel "user" QueueMode true true true.
Definition demo_chan_ops : list (chan_op nat) :=
  [OpGet true 0; OpAwait 0; OpGet true 1; OpAwait 1; OpPut (Some 0) 7; OpCancel 0; OpResume true 0; OpSafeWake 1;
   OpResume true 1; OpPut None 8; OpPutItem 9; OpPutWake None; OpPopLast; OpFlush].

Definition demo_chan_apply (o : chan_op nat) (s : channel nat) : channel nat :=
  match o with
  | OpPut r x => match put r x s with Ok s' => s' | _ => s end
  | OpPutItem x => put_item x s
  | OpPutWake r => put_wake r s
  | OpGet h l => match get h l s with Ok (_, s') => s' | _ => s end
  | OpAwait c => default s (drain_await c s)
  | OpResume h c => default s (resume h c s)
  | OpCancel c => cancel_consumer c s
  | OpSafeWake c => safe_wake c s
  | OpPopLast => (pop_last s).2
  | OpFlush => (flush s).2
  | _ => s
  end.

Definition demo_hist_apply (h : history) (o : chan_op nat) : history :=
  mk_history (demo_chan_apply o (h_chan h)) (h_put h ++ produced o (h_chan h))
    (h_got h ++ delivered o (h_chan h)) (h_dropped h ++ dropped o (h_chan h))
    (h_withdrawn h ++ withdrawn o (h_chan h)).

Definition demo_hist (ops : list (chan_op nat)) : history :=
  foldl demo_hist_apply (mk_history demo_chan [] [] [] []) ops.

Ltac channel_step :=
  cbn [chan_step]; split_and?;
  first [vm_compute; reflexivity | vm_compute; discriminate | eexists; vm_compute; reflexivity].

Lemma demo_hist_run : steps hist_step (mk_history demo_chan [] [] [] []) demo_chan_ops (demo_hist demo_chan_ops).
Proof.
  apply steps_foldl. unfold demo_chan_ops. cbn [computes].
  repeat (split; [split; [intros r x; discriminate|]; split; [channel_step|split_and!; vm_compute; reflexivity]|]).
  exact I.
Qed.

(** Two consumers block and a producer on a third thread puts an item. *)
Definition demo_blocked_ops : list (chan_op nat) :=
  [OpGet true 0; OpAwait 0; OpGet true 1; OpAwait 1; OpPutItem 7; OpPutWake None].
Definition demo_blocked : channel nat := foldl (λ s o, demo_chan_apply o s) demo_chan demo_blocked_ops.

Ltac no_consumer_between :=
  intros _ c [l Hc]; do 3 (destruct c as [|c]; [vm_compute in Hc; discriminate|]); vm_compute in Hc; discriminate.

Lemma demo_chan_run :
  steps (λ s o s', undisturbed s o ∧ chan_step s o s') demo_chan demo_blocked_ops demo_blocked.
Proof.
  apply steps_foldl. unfold demo_blocked_ops. cbn [computes].
  repeat (split; [split; [first [intros H; discriminate | no_consumer_between]|]|]);
    first [exact I | channel_step].
Qed.


(** Without that condition a wakeup is lost: the producer's whole [put] runs on
    another thread between the consumer's check and the append of its future,
    and the consumer sleeps although an item is pending. *)
Definition lost_wakeup_ops : list (chan_op nat) := [OpGet true 0; OpPutItem 7; OpPutWake None; OpAwait 0].

Example thread_put_loses_wakeup :
  let s := foldl (λ s o, demo_chan_apply o s) demo_chan lost_wakeup_ops in
  steps chan_step demo_chan lost_wakeup_ops s ∧ blocked 0 s ∧ ch_items s = [7] ∧ woken s = 0%Z ∧ ch_owed s = 0.
Proof.
  cbv zeta. split; [|split_and!; try reflexivity].
  - apply steps_foldl. unfold lost_wakeup_ops. cbn [computes].
    repeat (split; [channel_step|]). exact I.
  - exists 0, false. split; [reflexivity|]. intros H. inversion H.
Qed.

Lemma channel_fifo_conservation_witness :
  h_put (demo_hist demo_chan_ops) ≡ₚ h_got (demo_hist demo_chan_ops) ++
    h_dropped (demo_hist demo_chan_ops) ++ h_withdrawn (demo_hist demo_chan_ops) ++
    ch_items (h_chan (demo_hist demo_chan_ops)).
Proof. exact (proj2 (channel_fifo_conservation demo_chan demo_chan_ops _ eq_refl demo_hist_run)). Defined.

Lemma channel_announces_items_witness :
  consumed (ch_log (h_chan (demo_hist demo_chan_ops))) = [7] ∧
  discarded (ch_log (h_chan (demo_hist demo_chan_ops))) = [8].
Proof.
  destruct (channel_announces_items demo_chan demo_chan_ops _ eq_refl eq_refl
    ltac:(repeat constructor) demo_hist_run) as (H1 & H2 & _).
  exact (conj H1 H2).
Defined.
