(* ===== verification/Queues.v ===== *)
(** * Queues: the channel registry, races and background jobs

    [QueueManager] and [JobHandle] of [nooa/runtime/channels.py]. *)

From S2P Require Import Prelude PyDict Channels.

Open Scope nooa_scope.

(** ** Jobs *)

Inductive job_state := JobRunning | JobDone | JobCancelled | JobFailed.

#[global] Instance job_state_eq_dec : EqDecision job_state.
Proof. solve_decision. Defined.

Section Queues.
Context {T : Type} `{EqDecision T}.

(** The [buffer] argument of [spawn]. *)
Inductive buffer_arg := BufBool (b : bool) | BufInt (n : Z).

(** [_values]: nothing, a list, or a [deque] with a maximal length. *)
Inductive buffer := NoBuffer | Unbounded (vs : list T) | Ring (n : nat) (vs : list T).

(** [JobHandle]; [jh_finished] is [_task.done()], [jh_cancelling] whether
    [_task.cancel()] was called. *)
Record job_handle := mk_job {
  jh_name : string;
  jh_label : string;
  jh_state : job_state;
  jh_values : buffer;
  jh_finished : bool;
  jh_cancelling : bool;
}.

Definition with_jstate (v : job_state) (h : job_handle) : job_handle :=
  mk_job (jh_name h) (jh_label h) v (jh_values h) (jh_finished h) (jh_cancelling h).
Definition with_jvalues (v : buffer) (h : job_handle) : job_handle :=
  mk_job (jh_name h) (jh_label h) (jh_state h) v (jh_finished h) (jh_cancelling h).
Definition with_jtask (finished cancelling : bool) (h : job_handle) : job_handle :=
  mk_job (jh_name h) (jh_label h) (jh_state h) (jh_values h) finished cancelling.

(** [JobHandle.__init__]. *)
Definition new_buffer (b : buffer_arg) : buffer :=
  match b with
  | BufBool true => Unbounded []
  | BufBool false => NoBuffer
  | BufInt n => if (0 <? n)%Z then Ring (Z.to_nat n) [] else NoBuffer
  end.

Definition new_handle (name : string) (b : buffer_arg) (label : string) : job_handle :=
  mk_job name (if bool_decide (label = ""%string) then name else label) JobRunning (new_buffer b)
    false false.

(** [handle._values.append(value)] when there is a buffer. *)
Definition buffer_append (v : T) (b : buffer) : buffer :=
  match b with
  | NoBuffer => NoBuffer
  | Unbounded vs => Unbounded (vs ++ [v])
  | Ring n vs => Ring n (last_n n (vs ++ [v]))
  end.

(** [JobHandle.values]. *)
Definition handle_values (h : job_handle) : list T :=
  match jh_values h with NoBuffer => [] | Unbounded vs | Ring _ vs => vs end.

(** ** [spawn]'s [_run] *)

(** The events a job adds to the event manager. *)
Inductive job_note := JobErrorEvent (channel : string) | StreamEnd (channel : string).

(** A job, its data channel, and the events it added. *)
Record job_run := mk_run { jr_handle : job_handle; jr_channel : channel T; jr_notes : list job_note }.

(** A value is yielded, or a coroutine returns it. *)
Definition job_value (running : option nat) (v : T) (r : job_run) : result job_run :=
  let h := with_jvalues (buffer_append v (jh_values (jr_handle r))) (jr_handle r) in
  let! ch := put running v (jr_channel r) in
  Ok (mk_run h ch (jr_notes r)).

(** How the job body ends; a failure carries the [JobError] item. *)
Inductive job_end := EndDone | EndCancelled | EndFailed (error : T).

Definition job_finish (events : bool) (running : option nat) (e : job_end) (r : job_run) : result job_run :=
  let name := jh_name (jr_handle r) in
  let end_notes := if events then [StreamEnd name] else [] in
  let finish s h := with_jtask true (jh_cancelling h) (with_jstate s h) in
  match e with
  | EndDone => Ok (mk_run (finish JobDone (jr_handle r)) (jr_channel r) (jr_notes r ++ end_notes))
  | EndCancelled => Ok (mk_run (finish JobCancelled (jr_handle r)) (jr_channel r) (jr_notes r ++ end_notes))
  | EndFailed x =>
      let! ch := put running x (jr_channel r) in
      Ok (mk_run (finish JobFailed (jr_handle r)) ch
            (jr_notes r ++ (if events then [JobErrorEvent name] else []) ++ end_notes))
  end.

(** A whole job: its values, then its end. *)
Fixpoint run_job (events : bool) (running : option nat) (vs : list T) (e : job_end) (r : job_run)
    : result job_run :=
  match vs with
  | [] => job_finish events running e r
  | v :: vs' => let! r' := job_value running v r in run_job events running vs' e r'
  end.

(** [JobHandle.cancel]: the task is cancelled and awaited; its [_run] sets the
    state unless it never started. *)
Definition handle_cancel (h : job_handle) : job_handle :=
  if jh_finished h then h
  else
    let h1 := with_jtask true true h in
    if bool_decide (jh_state h1 = JobRunning) then with_jstate JobCancelled h1 else h1.

(** ** The registry *)

(** [QueueManager]: whether it has an [event_manager], its channels in
    registration order, its handles. *)
Record queue_manager := mk_qm {
  qm_events : bool;
  qm_channels : dict string (channel T);
  qm_handles : list job_handle;
}.

Definition new_queue_manager (events : bool) : queue_manager := mk_qm events [] [].

Definition qm_set (name : string) (ch : channel T) (q : queue_manager) : queue_manager :=
  mk_qm (qm_events q) (dict_set name ch (qm_channels q)) (qm_handles q).

(** [remove_channel]: the flushed channel and the manager. *)
Definition remove_channel (name : string) (q : queue_manager) : result (channel T * queue_manager) :=
  match dict_get name (qm_channels q) with
  | None => Raise KeyError
  | Some ch =>
      Ok ((flush ch).2,
          mk_qm (qm_events q) (dict_del name (qm_channels q))
            (filter (λ h, jh_name h ≠ name) (qm_handles q)))
  end.

(** What [remove_channel] does to the handles of the channel. *)
Definition cancel_request (h : job_handle) : job_handle :=
  let h1 := with_jtask (jh_finished h) true h in
  if bool_decide (jh_state h1 = JobRunning) then with_jstate JobCancelled h1 else h1.

Definition removed_handles (name : string) (q : queue_manager) : list job_handle :=
  cancel_request <$> filter (λ h, jh_name h = name) (qm_handles q).

Definition register (name : string) (mode : chan_mode) (on_get replace : bool) (q : queue_manager)
    : result queue_manager :=
  let fresh q := qm_set name (new_channel name mode (qm_events q) on_get true) q in
  if dict_mem name (qm_channels q) then
    if replace then let! r := remove_channel name q in Ok (fresh r.2) else Raise ValueError
  else Ok (fresh q).

(** [queue] and [event]. *)
Definition queue (name : string) (on_get replace : bool) (q : queue_manager) : result queue_manager :=
  register name QueueMode on_get replace q.

Definition event (name : string) (replace : bool) (q : queue_manager) : result queue_manager :=
  if qm_events q then register name EventMode false replace q else Raise RuntimeError.

(** [get_channel], [names], [running_handles]. *)
Definition get_channel (name : string) (q : queue_manager) : result (channel T) :=
  match dict_get name (qm_channels q) with Some ch => Ok ch | None => Raise KeyError end.

Definition names (q : queue_manager) : list string := dict_keys (qm_channels q).

Definition running_handles (q : queue_manager) : list job_handle :=
  filter (λ h, jh_state h = JobRunning) (qm_handles q).

(** [jobs] and [job]. *)
Definition jobs (q : queue_manager) : dict string job_state :=
  foldl (λ d h, dict_set (jh_name h) (jh_state h) d) [] (qm_handles q).

Definition job (name : string) (q : queue_manager) : option job_handle :=
  List.find (λ h, bool_decide (jh_name h = name)) (rev (qm_handles q)).

(** [spawn] up to the start of the task. *)
Definition spawn (name : string) (b : buffer_arg) (label : string) (q : queue_manager)
    : result queue_manager :=
  if dict_mem name (qm_channels q) then
    Ok (mk_qm (qm_events q) (qm_channels q) (qm_handles q ++ [new_handle name b label]))
  else Raise ValueError.

(** [shutdown]: the handles it cancelled. *)
Definition shutdown (q : queue_manager) : list job_handle * queue_manager :=
  (handle_cancel <$> qm_handles q, mk_qm (qm_events q) (qm_channels q) []).

(** [handles[i]] is replaced by its cancelled version. *)
Fixpoint cancel_last (name : string) (hs : list job_handle) : list job_handle :=
  match hs with
  | [] => []
  | h :: hs' =>
      if bool_decide (jh_name h = name) && negb (existsb (λ h, bool_decide (jh_name h = name)) hs')
      then handle_cancel h :: hs' else h :: cancel_last name hs'
  end.

(** [cancel]: the most recent job of the channel, and a flush. *)
Definition cancel (name : string) (q : queue_manager) : bool * queue_manager :=
  match job name q with
  | None => (false, q)
  | Some _ =>
      let q1 := mk_qm (qm_events q) (qm_channels q) (cancel_last name (qm_handles q)) in
      (true, match dict_get name (qm_channels q1) with
             | Some ch => qm_set name (flush ch).2 q1
             | None => q1
             end)
  end.

(** ** [race] *)

(** The queue-mode channels, in registration order. *)
Definition queue_channels (q : queue_manager) : list (string * channel T) :=
  List.filter (λ nc, bool_decide (ch_mode nc.2 = QueueMode)) (qm_channels q).

(** The outcome of the part of [race] before any task is created. *)
Inductive race_start := RaceNoChannels | RaceItem (name : string) (x : T) | RaceWait.

(** The checks and the fast path. *)
Definition race_fast (q : queue_manager) : race_start * queue_manager :=
  match qm_channels q with
  | [] => (RaceNoChannels, q)
  | _ =>
      match List.find (λ nc, negb (is_empty nc.2)) (queue_channels q) with
      | None => (RaceWait, q)
      | Some (name, ch) =>
          match ch_items ch with
          | [] => (RaceWait, q)
          | x :: xs => (RaceItem name x, qm_set name (fire_on_get x (ch_with_items xs ch)) q)
          end
      end
  end.

(** A channel gets an item back at its head. *)
Definition give_back (running : option nat) (q : queue_manager) (nx : string * T) : queue_manager :=
  match dict_get nx.1 (qm_channels q) with
  | Some ch => qm_set nx.1 (restore_front running nx.2 ch) q
  | None => q
  end.

(** After [asyncio.wait]: [results] are the items of the drain tasks that are
    done, in the order of the tasks, that is in registration order. *)
Definition race_finish (running : option nat) (results : list (string * T)) (q : queue_manager)
    : list (string * T) * queue_manager :=
  match results with
  | [] => ([], q)
  | (name, x) :: losers =>
      let q1 := foldl (give_back running) q losers in
      match dict_get name (qm_channels q1) with
      | Some ch => ([(name, x)], qm_set name (fire_on_get x ch) q1)
      | None => ([(name, x)], q1)
      end
  end.

(** The [except BaseException] clause: every finished drain is undone. *)
Definition race_abort (running : option nat) (results : list (string * T)) (q : queue_manager)
    : queue_manager := foldl (give_back running) q results.
End Queues.
Arguments queue_manager : clear implicits.
Arguments job_handle : clear implicits.
