(* ===== verification/QueueRuns.v ===== *)
(** * QueueRuns: properties of the queue manager

    The race returns one item and loses none, background jobs deliver their
    values in order and end once, and the registry and the handles agree. *)

From S2P Require Import Prelude PyDict Channels ChannelRuns Queues.

Open Scope nooa_scope.

Section QueueRuns.
Context {T : Type} `{EqDecision T}.
Implicit Types (q : queue_manager T).

(** ** Races *)

Definition items_of (name : string) q : option (list T) := ch_items <$> dict_get name (qm_channels q).

Lemma restore_front_items running x (s : channel T) : ch_items (restore_front running x s) = x :: ch_items s.
Proof.
  unfold restore_front, fire_on_put, wake_next_waiter.
  match goal with |- context [wake_waiters ?r ?ws ?s0] =>
    destruct (wake_waiters_frame r ws s0) as (Hi & _) end.
  by case_match; cbn [ch_notes ch_items]; rewrite Hi.
Qed.

Lemma items_of_set name ch q n :
  items_of n (qm_set name ch q) = if decide (n = name) then Some (ch_items ch) else items_of n q.
Proof.
  unfold items_of, qm_set. simpl. destruct (decide (n = name)) as [->|Hne].
  - by rewrite dict_get_set_eq.
  - by rewrite dict_get_set_ne.
Qed.

Lemma items_of_give_back running q n m x :
  items_of n (give_back running q (m, x)) =
    if decide (n = m) then (cons x) <$> items_of n q else items_of n q.
Proof.
  unfold give_back. simpl. destruct (dict_get m (qm_channels q)) as [ch|] eqn:Hm.
  - rewrite items_of_set. destruct (decide (n = m)) as [->|]; [|done].
    unfold items_of. rewrite Hm. simpl. by rewrite restore_front_items.
  - destruct (decide (n = m)) as [->|]; [|done]. unfold items_of. by rewrite Hm.
Qed.

Lemma items_of_give_back_all running results q n :
  NoDup results.*1 →
  items_of n (foldl (give_back running) q results) =
    match List.find (λ nx, bool_decide (nx.1 = n)) results with
    | Some (_, x) => cons x <$> items_of n q
    | None => items_of n q
    end.
Proof.
  revert q. induction results as [|[m x] results IH]; intros q Hnd; [done|].
  apply NoDup_cons in Hnd as [Hnin Hnd]. cbn [foldl List.find fst]. rewrite IH by done.
  rewrite items_of_give_back. destruct (decide (n = m)) as [->|Hne].
  - rewrite bool_decide_eq_true_2 by done.
    destruct (List.find _ results) as [[m' x']|] eqn:Hf; [|done].
    apply find_some in Hf as [Hin Heq%bool_decide_eq_true]. simpl in Heq. subst.
    destruct Hnin. apply list_elem_of_In in Hin. by apply (list_elem_of_fmap_2 fst) in Hin.
  - by rewrite bool_decide_eq_false_2 by done.
Qed.

Lemma find_result n (results : list (string * T)) :
  match List.find (λ nx, bool_decide (nx.1 = n)) results with
  | Some nx => nx.1 = n ∧ nx ∈ results
  | None => n ∉ results.*1
  end.
Proof.
  destruct (List.find _ results) as [nx|] eqn:Hf.
  - apply find_some in Hf as [Hin Heq%bool_decide_eq_true]. split; [done|]. by apply list_elem_of_In.
  - intros ([m x] & -> & Hin)%list_elem_of_fmap.
    pose proof (find_none _ _ Hf (m, x) (proj1 (list_elem_of_In _ _) Hin)) as Hn.
    by apply bool_decide_eq_false in Hn.
Qed.

(** The drain tasks took the heads [results] of their channels. *)
Definition drained_heads (results : list (string * T)) q0 q1 : Prop :=
  NoDup results.*1 ∧
  (∀ n x, (n, x) ∈ results → ∃ xs, items_of n q0 = Some (x :: xs) ∧ items_of n q1 = Some xs) ∧
  (∀ n, n ∉ results.*1 → items_of n q1 = items_of n q0).

Lemma abort_items running results q0 q1 n :
  drained_heads results q0 q1 → items_of n (race_abort running results q1) = items_of n q0.
Proof.
  intros (Hnd & Hin & Hout). unfold race_abort. rewrite items_of_give_back_all by done.
  pose proof (find_result n results) as Hf. destruct (List.find _ results) as [[m x]|].
  - simpl in Hf. destruct Hf as [<- Hx]. destruct (Hin _ _ Hx) as (xs & -> & ->). done.
  - by apply Hout.
Qed.

(** However many channels delivered before the race ended, exactly one
    item is returned, the one of the first such channel in registration order,
    and only that item is consumed: every other channel has its items back in
    order.  When the race is cancelled, all channels have theirs back. *)
Theorem race_restores_losers running results q0 q1 :
  drained_heads results q0 q1 →
  let '(won, q2) := race_finish running results q1 in
  won = take 1 results ∧
  (∀ n x, won = [(n, x)] → items_of n q0 = cons x <$> items_of n q2) ∧
  (∀ n, n ∉ won.*1 → items_of n q2 = items_of n q0) ∧
  (∀ n, items_of n (race_abort running results q1) = items_of n q0).
Proof.
  intros Hd. pose proof Hd as (Hnd & Hin & Hout). unfold race_finish.
  destruct results as [|[m x] losers].
  { split_and!; try done. intros n. by eapply abort_items. }
  apply NoDup_cons in Hnd as [Hm Hnd].
  set (q' := foldl (give_back running) q1 losers).
  assert (Hq' : ∀ n, items_of n q' = if decide (n = m) then items_of n q1 else items_of n q0).
  { intros n. unfold q'. rewrite items_of_give_back_all by done.
    pose proof (find_result n losers) as Hf. destruct (List.find _ losers) as [[k y]|].
    - simpl in Hf. destruct Hf as [<- Hy]. rewrite decide_False.
      + destruct (Hin k y) as (xs & -> & ->); [by right|done].
      + intros ->. apply Hm. by apply (list_elem_of_fmap_2 fst) in Hy.
    - destruct (decide (n = m)) as [->|Hne]; [done|]. apply Hout. simpl. set_solver. }
  destruct (Hin m x) as (xs & H0 & H1); [by left|].
  assert (Hwin : ∀ q2, items_of m q2 = Some xs → (∀ n, n ≠ m → items_of n q2 = items_of n q0) →
    [(m, x)] = take 1 ((m, x) :: losers) ∧
    (∀ n x', [(m, x)] = [(n, x')] → items_of n q0 = cons x' <$> items_of n q2) ∧
    (∀ n, n ∉ [(m, x)].*1 → items_of n q2 = items_of n q0) ∧
    (∀ n, items_of n (race_abort running ((m, x) :: losers) q1) = items_of n q0)).
  { intros q2 E1 E2. split_and!; [done| | |].
    - intros n x' [= <- <-]. by rewrite H0, E1.
    - intros n Hn. apply E2. simpl in Hn. set_solver.
    - intros n. by eapply abort_items. }
  specialize (Hq' m) as Hqm. rewrite decide_True in Hqm by done. rewrite H1 in Hqm.
  destruct (dict_get m (qm_channels q')) as [ch|] eqn:Hch.
  - apply Hwin.
    + rewrite items_of_set, decide_True by done. rewrite fire_on_get_notes. simpl.
      unfold items_of in Hqm. rewrite Hch in Hqm. exact Hqm.
    + intros n Hne. rewrite items_of_set, decide_False by done. rewrite Hq'. by rewrite decide_False.
  - unfold items_of in Hqm. by rewrite Hch in Hqm.
Qed.

(** The fast path takes the head of the first non-empty queue channel in
    registration order and leaves every other channel alone; it waits only
    when all queue channels are empty. *)
Theorem race_fast_takes_first q :
  dict_wf (qm_channels q) →
  match race_fast q with
  | (RaceNoChannels, q') => qm_channels q = [] ∧ q' = q
  | (RaceWait, q') => q' = q ∧ Forall (λ nc, ch_items nc.2 = []) (queue_channels q)
  | (RaceItem name x, q') =>
      ∃ before ch after xs, queue_channels q = before ++ (name, ch) :: after ∧
        Forall (λ nc, ch_items nc.2 = []) before ∧ ch_items ch = x :: xs ∧
        items_of name q' = Some xs ∧ ∀ n, n ≠ name → items_of n q' = items_of n q
  end.
Proof.
  intros Hwf. unfold race_fast. destruct (qm_channels q) as [|nc0 ncs] eqn:Hcs; [done|]. rewrite <- Hcs in *.
  assert (Hfind : ∀ l : list (string * channel T),
    match List.find (λ nc, negb (is_empty nc.2)) l with
    | Some nc => ∃ before after, l = before ++ nc :: after ∧
        Forall (λ nc, ch_items nc.2 = []) before ∧ ch_items nc.2 ≠ []
    | None => Forall (λ nc, ch_items nc.2 = []) l
    end).
  { induction l as [|nc l IH]; simpl; [constructor|]. unfold is_empty at 1.
    case_bool_decide as He; simpl.
    - destruct (List.find _ l) as [nc'|].
      + destruct IH as (b & a & -> & Hb & Hn). exists (nc :: b), a. split_and!; try done. by constructor.
      + by constructor.
    - by exists [], l. }
  specialize (Hfind (queue_channels q)).
  destruct (List.find _ (queue_channels q)) as [[name ch]|]; [|done].
  destruct Hfind as (b & a & Hl & Hb & Hne). simpl in Hne.
  destruct (ch_items ch) as [|x xs] eqn:Hi; [done|].
  exists b, ch, a, xs. split_and!; try done.
  - rewrite items_of_set, decide_True by done. by rewrite fire_on_get_notes.
  - intros n Hn. by rewrite items_of_set, decide_False.
Qed.

(** ** Jobs *)

Lemma put_queue running x (s : channel T) :
  ch_mode s = QueueMode → ∃ s', put running x s = Ok s' ∧ ch_items s' = ch_items s ++ [x] ∧ ch_mode s' = QueueMode.
Proof.
  intros Hq. unfold put. rewrite Hq. eexists. split; [done|]. unfold fire_on_put, wake_next_waiter.
  match goal with |- context [wake_waiters ?r ?ws ?s0] =>
    destruct (wake_waiters_frame r ws s0) as (Hi & Hm & _) end.
  case_match; cbn [ch_notes ch_items ch_mode]; by rewrite Hi, Hm.
Qed.

(** What a buffer holds after the values [vs]. *)
Definition buffered (b : buffer_arg) (vs : list T) : list T :=
  match new_buffer (T := T) b with NoBuffer => [] | Unbounded _ => vs | Ring n _ => last_n n vs end.

(** The buffer of a handle that has seen the values [vs]. *)
Definition buffer_holds (b : buffer_arg) (vs : list T) (bf : buffer) : Prop :=
  match new_buffer (T := T) b, bf with
  | NoBuffer, NoBuffer => True
  | Unbounded _, Unbounded ws => ws = vs
  | Ring n _, Ring m ws => m = n ∧ ws = last_n n vs
  | _, _ => False
  end.

Lemma buffer_holds_append b vs v bf :
  buffer_holds b vs bf → buffer_holds b (vs ++ [v]) (buffer_append v bf).
Proof.
  unfold buffer_holds. destruct (new_buffer b) as [|?|n ?], bf as [|ws|m ws]; try done; simpl; [by intros ->|].
  intros [-> ->]. split; [done|]. destruct n as [|n]; [by rewrite !last_n_0|].
  rewrite !last_n_app_ge by (simpl; lia). simpl. f_equal.
  apply last_n_last_n. lia.
Qed.

Lemma buffer_holds_new b : buffer_holds b [] (new_buffer b).
Proof.
  unfold buffer_holds. destruct (new_buffer b) as [|ws|n ws] eqn:Hb; try done;
    destruct b as [[]|z]; simpl in Hb; try done; try (by injection Hb as <-); revert Hb; case_match; try done.
  intros [= <- <-]. split; [done|]. by unfold last_n.
Qed.

(** The item the end of a job puts on its channel. *)
Definition end_items (e : job_end (T := T)) : list T := match e with EndFailed x => [x] | _ => [] end.
Definition end_state (e : job_end (T := T)) : job_state :=
  match e with EndDone => JobDone | EndCancelled => JobCancelled | EndFailed _ => JobFailed end.

(** A background job puts its values on the data channel in order, then
    its error item if it failed; it always reaches its final state, exactly one
    [StreamEnd] is emitted, after everything else; and its handle keeps all of
    the values, the last [n], or none, as [buffer] asked. *)
Theorem job_delivers events running name b label vs e ch notes :
  ch_mode ch = QueueMode →
  ∃ r, run_job events running vs e (mk_run (new_handle name b label) ch notes) = Ok r ∧
    ch_items (jr_channel r) = ch_items ch ++ vs ++ end_items e ∧
    jh_state (jr_handle r) = end_state e ∧ jh_finished (jr_handle r) = true ∧
    handle_values (jr_handle r) = buffered b vs ∧
    (events = true → ∃ errs, jr_notes r = notes ++ errs ++ [StreamEnd name] ∧ StreamEnd name ∉ errs).
Proof.
  intros Hq.
  assert (Hgen : ∀ seen h ch, ch_mode ch = QueueMode → jh_name h = name →
    buffer_holds b seen (jh_values h) →
    ∃ r, run_job events running vs e (mk_run h ch notes) = Ok r ∧
      ch_items (jr_channel r) = ch_items ch ++ vs ++ end_items e ∧
      jh_state (jr_handle r) = end_state e ∧ jh_finished (jr_handle r) = true ∧
      buffer_holds b (seen ++ vs) (jh_values (jr_handle r)) ∧
      (events = true → ∃ errs, jr_notes r = notes ++ errs ++ [StreamEnd name] ∧ StreamEnd name ∉ errs)).
  { clear Hq ch. induction vs as [|v vs IH]; intros seen h ch Hq Hn Hb; cbn [run_job].
    - unfold job_finish. cbn [jr_handle jr_channel jr_notes]. rewrite Hn, app_nil_r.
      destruct e as [| |x]; cbn [result_bind].
      + eexists. split; [done|]. simpl. rewrite app_nil_r. split_and!; try done.
        intros ->. exists []. split; [done|apply not_elem_of_nil].
      + eexists. split; [done|]. simpl. rewrite app_nil_r. split_and!; try done.
        intros ->. exists []. split; [done|apply not_elem_of_nil].
      + destruct (put_queue running x ch Hq) as (ch' & -> & Hi & _). cbn [result_bind].
        eexists. split; [done|]. simpl. split_and!; try done.
        intros ->. exists [JobErrorEvent name]. split; [done|]. by intros ?%list_elem_of_singleton.
    - unfold job_value. cbn [jr_handle jr_channel jr_notes].
      destruct (put_queue running v ch Hq) as (ch' & -> & Hi & Hq'). cbn [result_bind].
      destruct (IH (seen ++ [v]) (with_jvalues (buffer_append v (jh_values h)) h) ch' Hq' Hn)
        as (r & -> & E1 & E2 & E3 & E4 & E5); [by apply buffer_holds_append|].
      exists r. split; [done|]. rewrite E1, Hi, <- !app_assoc. split_and!; try done.
      by rewrite <- app_assoc in E4. }
  destruct (Hgen [] (new_handle name b label) ch Hq eq_refl (buffer_holds_new b)) as (r & ? & ? & ? & ? & Hb & ?).
  exists r. split_and!; try done. unfold handle_values, buffered. unfold buffer_holds in Hb. simpl in Hb.
  destruct (new_buffer b), (jh_values (jr_handle r)); try done. by destruct Hb.
Qed.

(** ** Handles *)

Lemma jobs_get hs d name :
  dict_get name (foldl (λ d h, dict_set (jh_name h) (jh_state (T := T) h) d) d hs) =
    match List.find (λ h, bool_decide (jh_name h = name)) (rev hs) with
    | Some h => Some (jh_state h)
    | None => dict_get name d
    end.
Proof.
  revert d. induction hs as [|h hs IH]; intros d; [done|]. cbn [foldl rev]. rewrite IH.
  assert (Happ : ∀ l, List.find (λ h, bool_decide (jh_name h = name)) (l ++ [h]) =
    match List.find (λ h, bool_decide (jh_name h = name)) l with
    | Some x => Some x | None => if bool_decide (jh_name h = name) then Some h else None end).
  { induction l as [|y l IHl]; simpl; [done|]. destruct (bool_decide (jh_name y = name)); [done|exact IHl]. }
  rewrite Happ. destruct (List.find _ (rev hs)); [done|]. case_bool_decide as Hn.
  - by rewrite <- Hn, dict_get_set_eq.
  - by rewrite dict_get_set_ne.
Qed.

(** [jobs()] reports for each channel the state of the handle [job()]
    returns, the most recent one. *)
Theorem jobs_agree_with_job q name :
  dict_get name (jobs q) = jh_state <$> job name q.
Proof. unfold jobs, job. rewrite jobs_get. by destruct (List.find _ _). Qed.

(** Removing a channel discards its items, forgets it and its handles,
    requests the cancellation of each of them, and touches no other channel;
    an unknown name raises [KeyError]. *)
Theorem remove_channel_spec q name :
  dict_wf (qm_channels q) →
  match remove_channel name q with
  | Raise e => e = KeyError ∧ dict_get name (qm_channels q) = None
  | Ok (ch, q') =>
      ch_items ch = [] ∧ dict_get name (qm_channels q') = None ∧
      job name q' = None ∧ dict_wf (qm_channels q') ∧
      (∀ n, n ≠ name → dict_get n (qm_channels q') = dict_get n (qm_channels q)) ∧
      Forall (λ h, jh_cancelling h = true ∧ jh_state h ≠ JobRunning) (removed_handles name q)
  end.
Proof.
  intros Hwf. unfold remove_channel. destruct (dict_get name (qm_channels q)) as [ch|] eqn:Hc; [|done].
  cbn [qm_channels]. split_and!.
  - unfold flush. cbn [snd]. destruct (flush_fold (ch_waiters ch) (ch_with_items [] ch)) as (Hi & _).
    unfold fire_on_discard, publish. repeat case_match; simpl; by rewrite Hi.
  - rewrite dict_get_del by done. by case_decide.
  - unfold job. cbn [qm_handles]. apply eq_None_not_Some. intros [h Hh].
    apply find_some in Hh as [Hin Hn%bool_decide_eq_true].
    apply (proj2 (in_rev _ _)), list_elem_of_In, list_elem_of_filter in Hin as [Hne _]. done.
  - by apply dict_wf_del.
  - intros n Hn. rewrite dict_get_del by done. by case_decide.
  - apply Forall_fmap, Forall_forall. intros h _. unfold cancel_request. simpl.
    destruct (jh_state h) eqn:Hs; simpl; rewrite ?bool_decide_eq_true_2, ?bool_decide_eq_false_2 by done;
      simpl; by rewrite ?Hs.
Qed.
End QueueRuns.

(** ** Witnesses *)

Definition demo_with (items : list nat) (name : string) : channel nat :=
  ch_with_items items (new_channel name QueueMode true true true).

Definition demo_before : queue_manager nat :=
  mk_qm true [("a", demo_with [1; 2] "a"); ("b", demo_with [3] "b"); ("c", demo_with [] "c")]%string [].
Definition demo_after : queue_manager nat :=
  mk_qm true [("a", demo_with [2] "a"); ("b", demo_with [] "b"); ("c", demo_with [] "c")]%string [].

Lemma demo_drained : drained_heads [("a", 1); ("b", 3)]%string demo_before demo_after.
Proof.
  split; [|split].
  - apply (bool_decide_unpack _). vm_compute. exact I.
  - intros n x Hin. rewrite !elem_of_cons in Hin. destruct Hin as [[= -> ->]|[[= -> ->]|Hin]];
      [by eexists|by eexists|by apply not_elem_of_nil in Hin].
  - intros n Hn. simpl in Hn. unfold items_of, demo_before, demo_after. simpl.
    destruct (decide ("a"%string = n)) as [<-|]; [set_solver|].
    destruct (decide ("b"%string = n)) as [<-|]; [set_solver|].
    repeat case_decide; congruence.
Qed.

Lemma race_restores_losers_witness :
  (race_finish None [("a", 1); ("b", 3)]%string demo_after).1 = [("a", 1)]%string ∧
  items_of "b" (race_abort None [("a", 1); ("b", 3)]%string demo_after) = Some [3].
Proof.
  pose proof (race_restores_losers None [("a", 1); ("b", 3)]%string demo_before demo_after demo_drained) as H.
  destruct (race_finish None [("a", 1); ("b", 3)]%string demo_after) as [won q2].
  destruct H as (H1 & _ & _ & H4). split; [exact H1|exact (H4 "b"%string)].
Defined.

Lemma demo_before_wf : dict_wf (qm_channels demo_before).
Proof. apply (bool_decide_unpack _). vm_compute. exact I. Qed.

Lemma race_fast_takes_first_witness :
  ∃ before ch after xs, queue_channels demo_before = before ++ ("a"%string, ch) :: after ∧
    ch_items ch = 1 :: xs ∧ items_of "a" (race_fast demo_before).2 = Some xs.
Proof.
  destruct (race_fast_takes_first demo_before demo_before_wf)
    as (b & ch & a & xs & H1 & _ & H3 & H4 & _).
  exists b, ch, a, xs. exact (conj H1 (conj H3 H4)).
Defined.

Lemma job_delivers_witness : ∃ r,
  run_job true None [1; 2; 3] (EndFailed 9)
    (mk_run (new_handle "c" (BufInt 2) "") (demo_with [] "c") []) = Ok r ∧
  ch_items (jr_channel r) = [1; 2; 3; 9] ∧ handle_values (jr_handle r) = [2; 3].
Proof.
  destruct (job_delivers true None "c" (BufInt 2) "" [1; 2; 3] (EndFailed 9) (demo_with [] "c") [] eq_refl)
    as (r & H1 & H2 & _ & _ & H5 & _).
  exists r. exact (conj H1 (conj H2 H5)).
Defined.

Lemma remove_channel_spec_witness : ∃ ch q',
  remove_channel "a" demo_before = Ok (ch, q') ∧ ch_items ch = [] ∧
  dict_get "a"%string (qm_channels q') = None.
Proof.
  pose proof (remove_channel_spec demo_before "a" demo_before_wf) as H.
  destruct (remove_channel "a" demo_before) as [[ch q']|e].
  - destruct H as (H1 & H2 & _). exists ch, q'. exact (conj eq_refl (conj H1 H2)).
  - exfalso. destruct H as [_ H]. vm_compute in H. discriminate.
Defined.
