(* ===== verification/Todo.v ===== *)
(** * Todo: the todo manager of the agents

    Models [tools/todo.py]: the [Todo] records, the workspace of a
    [TodoManager] ([_todos], [_order], [_active_id]), its operations and the
    snapshot it saves and restores.  The managed [Todo] objects are reachable
    only through the manager (every other one is a deep copy), so an object is
    the value stored under its key; a caller that assigns to a field of a
    managed todo is the operation [assign].

    The values of [vars] are of a type [V] whose Python [==] is equality;
    [serializable] is what [SnapshotVars] accepts, [as_text] and [as_status]
    are the validators pydantic runs on the fields [title]/[description] and
    [status], identifiers and dates are arguments. *)

From S2P Require Import Prelude PyDict PyText.

Record todo_comment := mk_comment {
  cm_id : string;
  cm_body : text;
  cm_created_at : string
}.
#[export] Instance todo_comment_eq_dec : EqDecision todo_comment.
Proof. solve_decision. Defined.

Inductive todo_status := StOpen | StDone.
#[export] Instance todo_status_eq_dec : EqDecision todo_status.
Proof. solve_decision. Defined.

(** What [_effective_status] returns. *)
Inductive effective := EffOpen | EffBlocked | EffDone.
#[export] Instance effective_eq_dec : EqDecision effective.
Proof. solve_decision. Defined.

(** An argument [Todo | str]; anything else raises [TypeError]. *)
Inductive todo_ref := RefTodo (id : string) | RefId (id : string) | RefOther.

Definition todo_id_of (r : todo_ref) : result string :=
  match r with
  | RefTodo id | RefId id => Ok id
  | RefOther => Raise TypeError
  end.

Section Todo.
Context {V : Type} `{EqDecision V}.
Context (serializable : V → bool) (as_text : V → option text) (as_status : V → option todo_status).

#[local] Open Scope nooa_scope.
#[local] Open Scope string_scope.

Record todo := mk_todo {
  td_id : string;
  td_title : text;
  td_status : todo_status;
  td_deps : list string;
  td_vars : @dict string V;
  td_created_at : string;
  td_description : text;
  td_comments : list todo_comment
}.

#[export] Instance todo_eq_dec : EqDecision todo.
Proof. solve_decision. Defined.

Definition td_with_title x t := mk_todo (td_id t) x (td_status t) (td_deps t) (td_vars t) (td_created_at t) (td_description t) (td_comments t).
Definition td_with_status x t := mk_todo (td_id t) (td_title t) x (td_deps t) (td_vars t) (td_created_at t) (td_description t) (td_comments t).
Definition td_with_deps x t := mk_todo (td_id t) (td_title t) (td_status t) x (td_vars t) (td_created_at t) (td_description t) (td_comments t).
Definition td_with_vars x t := mk_todo (td_id t) (td_title t) (td_status t) (td_deps t) x (td_created_at t) (td_description t) (td_comments t).
Definition td_with_description x t := mk_todo (td_id t) (td_title t) (td_status t) (td_deps t) (td_vars t) (td_created_at t) x (td_comments t).
Definition td_with_comments x t := mk_todo (td_id t) (td_title t) (td_status t) (td_deps t) (td_vars t) (td_created_at t) (td_description t) x.

Record todo_manager := mk_tm {
  tm_todos : @dict string todo;
  tm_order : list string;
  tm_active : option string
}.

(** [TodoManager()]. *)
Definition new_todo_manager : todo_manager := mk_tm [] [] None.

Implicit Types (t : todo) (m : todo_manager) (r : todo_ref).

(** ** [SnapshotVars] *)

(** [vars[key] = value]: a value that cannot be snapshot is not stored. *)
Definition vars_set (key : string) (v : V) (d : @dict string V) : @dict string V :=
  if serializable v then dict_set key v d else d.

(** [SnapshotVars(data)]. *)
Definition vars_init (data : @dict string V) : @dict string V :=
  foldl (λ d kv, vars_set kv.1 kv.2 d) [] data.

(** ** Reading *)

(** [get]. *)
Definition todo_get r m : result (option todo) :=
  let! id := todo_id_of r in Ok (dict_get id (tm_todos m)).

(** [Todo.is_blocked]. *)
Definition is_blocked (todos : @dict string todo) t : bool :=
  existsb (λ dep_id,
    match dict_get dep_id todos with
    | Some dep => bool_decide (td_status dep ≠ StDone)
    | None => false
    end) (td_deps t).

Definition effective_status m t : effective :=
  match td_status t with
  | StDone => EffDone
  | StOpen => if is_blocked (tm_todos m) t then EffBlocked else EffOpen
  end.

(** [[self._todos[i] for i in self._order if i in self._todos]]. *)
Definition in_order m : list todo := omap (λ i, dict_get i (tm_todos m)) (tm_order m).

Definition list_todos (status : option effective) m : list todo :=
  match status with
  | None => in_order m
  | Some s => filter (λ t, effective_status m t = s) (in_order m)
  end.

(** [active]: also forgets an active todo that is gone or done. *)
Definition active m : option todo * todo_manager :=
  match tm_active m with
  | None => (None, m)
  | Some id =>
      match dict_get id (tm_todos m) with
      | Some t =>
          if decide (td_status t = StDone)
          then (None, mk_tm (tm_todos m) (tm_order m) None) else (Some t, m)
      | None => (None, mk_tm (tm_todos m) (tm_order m) None)
      end
  end.

(** ** Creating and removing *)

(** [add]: [legacy_notes] is the popped [vars["notes"]] when it is not [None]. *)
Definition todo_add (id now : string) (title : text) (deps : list todo_ref) (description : text)
    (legacy_notes : option V) (vars : @dict string V) m : result (todo * todo_manager) :=
  let! description :=
    match legacy_notes with
    | None => Ok description
    | Some n =>
        if bool_decide (description = []) then
          match as_text n with Some s => Ok s | None => Raise ValueError end
        else Raise ValueError
    end in
  let! deps := foldr (λ r acc, let! id := todo_id_of r in let! l := acc in Ok (id :: l)) (Ok []) deps in
  let t := mk_todo id title StOpen deps (vars_init vars) now description [] in
  Ok (t, mk_tm (dict_set id t (tm_todos m)) (tm_order m ++ [id]) (tm_active m)).

Definition scrub_deps (gone : string → bool) t : todo :=
  td_with_deps (List.filter (λ d, negb (gone d)) (td_deps t)) t.

Definition todo_remove r m : result (bool * todo_manager) :=
  let! id := todo_id_of r in
  if negb (dict_mem id (tm_todos m)) then Ok (false, m)
  else
    let todos := dict_del id (tm_todos m) in
    Ok (true, mk_tm (prod_map Datatypes.id (scrub_deps (λ d, bool_decide (d = id))) <$> todos)
                (List.filter (λ i, bool_decide (i ≠ id)) (tm_order m))
                (if decide (tm_active m = Some id) then None else tm_active m)).

Definition todo_clear m : todo_manager := mk_tm [] [] None.

(** The keys of the done todos. *)
Definition done_ids m : list string :=
  (filter (λ kv, td_status kv.2 = StDone) (tm_todos m)).*1.

(** [clear_done]: returns how many todos it removed. *)
Definition clear_done m : nat * todo_manager :=
  let gone := done_ids m in
  let is_gone d := bool_decide (d ∈ gone) in
  let todos := foldr dict_del (tm_todos m) gone in
  (length gone,
   mk_tm (prod_map Datatypes.id (scrub_deps is_gone) <$> todos)
     (List.filter (λ i, negb (is_gone i)) (tm_order m))
     (match tm_active m with Some a => if is_gone a then None else Some a | None => None end)).

(** ** Changing one todo *)

(** Change the live object stored under [id]. *)
Definition on_todo (id : string) (f : todo → todo) m : todo_manager :=
  match dict_get id (tm_todos m) with
  | Some t => mk_tm (dict_set id (f t) (tm_todos m)) (tm_order m) (tm_active m)
  | None => m
  end.

(** [if t.status == "done" and t.id == self._active_id: self._active_id = None]. *)
Definition drop_active_if (t : todo) m : todo_manager :=
  if decide (td_status t = StDone ∧ Some (td_id t) = tm_active m)
  then mk_tm (tm_todos m) (tm_order m) None else m.

(** The common shape of the operations on one todo: look it up, change it,
    return it, [None] when it is missing. *)
Definition update_todo r (f : todo → todo) m : result (option todo * todo_manager) :=
  let! id := todo_id_of r in
  match dict_get id (tm_todos m) with
  | None => Ok (None, m)
  | Some t => Ok (Some (f t), on_todo id f m)
  end.

(** [done], and [complete], which calls it. *)
Definition todo_done r m : result (option todo * todo_manager) :=
  let! p := update_todo r (td_with_status StDone) m in
  Ok (p.1, match p.1 with Some t => drop_active_if t p.2 | None => p.2 end).

Definition todo_reopen r m : result (option todo * todo_manager) :=
  update_todo r (td_with_status StOpen) m.

Definition add_dep r (dep : todo_ref) m : result (option todo * todo_manager) :=
  let! _ := todo_id_of r in
  let! dep_id := todo_id_of dep in
  update_todo r (λ t, if decide (dep_id ∈ td_deps t) then t
                      else td_with_deps (td_deps t ++ [dep_id]) t) m.

Definition remove_dep r (dep : todo_ref) m : result (option todo * todo_manager) :=
  let! _ := todo_id_of r in
  let! dep_id := todo_id_of dep in
  update_todo r (λ t, td_with_deps (discard_first dep_id (td_deps t)) t) m.

Definition set_var r (key : string) (v : V) m : result (option todo * todo_manager) :=
  update_todo r (λ t, td_with_vars (vars_set key v (td_vars t)) t) m.

Definition del_var r (key : string) m : result (option todo * todo_manager) :=
  update_todo r (λ t, td_with_vars (dict_del key (td_vars t)) t) m.

Definition get_var r (key : string) m : result (option V) :=
  let! t := todo_get r m in Ok (match t with Some t => dict_get key (td_vars t) | None => None end).

(** [comment]: the new entry, [None] when the todo is missing. *)
Definition todo_comment_on r (id now : string) (body : text) m :
    result (option todo_comment * todo_manager) :=
  let c := mk_comment id body now in
  let! p := update_todo r (λ t, td_with_comments (td_comments t ++ [c]) t) m in
  Ok ((λ _, c) <$> p.1, p.2).

Definition todo_comments r m : result (list todo_comment) :=
  let! t := todo_get r m in Ok (match t with Some t => td_comments t | None => [] end).

(** One validated assignment of [update]; a value the validator refuses raises
    pydantic's [ValidationError], a [ValueError]. *)
Definition set_field (k : string) (v : V) t : result todo :=
  if decide (k = "title") then
    match as_text v with Some s => Ok (td_with_title s t) | None => Raise ValueError end
  else if decide (k = "status") then
    match as_status v with Some s => Ok (td_with_status s t) | None => Raise ValueError end
  else
    match as_text v with Some s => Ok (td_with_description s t) | None => Raise ValueError end.

(** [setattr(t, k, getattr(candidate, k))]. *)
Definition copy_field (candidate : todo) (k : string) t : todo :=
  if decide (k = "title") then td_with_title (td_title candidate) t
  else if decide (k = "status") then td_with_status (td_status candidate) t
  else if decide (k = "description") then td_with_description (td_description candidate) t
  else if decide (k = "deps") then td_with_deps (td_deps candidate) t
  else if decide (k = "vars") then td_with_vars (td_vars candidate) t
  else td_with_comments (td_comments candidate) t.

(** [changes]: the keywords [update] takes into account. *)
Definition update_changes (kwargs : @dict string V) : @dict string V :=
  let kwargs :=
    match dict_get "notes" kwargs with
    | Some v => if dict_mem "description" kwargs then kwargs else dict_set "description" v kwargs
    | None => kwargs
    end in
  List.filter (λ kv, bool_decide (kv.1 ∈ ["title"; "status"; "description"])) kwargs.

Definition todo_update r (kwargs : @dict string V) m : result (option todo * todo_manager) :=
  let! cur := todo_get r m in
  match cur with
  | None => Ok (None, m)
  | Some t =>
      let changes := update_changes kwargs in
      let! candidate := foldl (λ acc kv, let! c := acc in set_field kv.1 kv.2 c) (Ok t) changes in
      let commit t := foldl (λ t k, copy_field candidate k t) t (dict_keys changes) in
      let! p := update_todo r commit m in
      Ok (p.1, match p.1 with Some t => drop_active_if t p.2 | None => p.2 end)
  end.

(** An assignment of the caller to the fields of a managed todo, through the
    object the manager returned; the identifier is never assigned. *)
Definition assign (id : string) (title : text) (status : todo_status) (deps : list string)
    (description : text) m : todo_manager :=
  on_todo id (λ t, td_with_title title (td_with_status status
                     (td_with_deps deps (td_with_description description t)))) m.

(** ** The active todo *)

Definition activate r m : result (todo * todo_manager) :=
  let! id := todo_id_of r in
  match dict_get id (tm_todos m) with
  | None => Raise ValueError
  | Some t =>
      if decide (td_status t = StDone) then Raise ValueError
      else Ok (t, mk_tm (tm_todos m) (tm_order m) (Some id))
  end.

Definition deactivate m : option todo * todo_manager :=
  let '(t, m') := active m in (t, mk_tm (tm_todos m') (tm_order m') None).

(** ** Delegation *)

Definition copy_todo r m : result todo :=
  let! t := todo_get r m in match t with Some t => Ok t | None => Raise ValueError end.

Definition with_todo t : todo_manager :=
  mk_tm [(td_id t, t)] [td_id t] (if decide (td_status t = StDone) then None else Some (td_id t)).

(** One value of the three-way merge: [None] on a conflict. *)
Definition merge_field {A} `{EqDecision A} (before after existing : A) : result A :=
  if decide (after = before) then Ok existing
  else if decide (existing ≠ before ∧ existing ≠ after) then Raise ValueError
  else Ok after.

(** The variables, key by key; [keys] is the order in which the set of keys
    is walked, an absent key is [_MISSING]. *)
Definition merge_var (before after current : @dict string V) (key : string)
    (acc : result (@dict string V)) : result (@dict string V) :=
  let! cand := acc in
  let b := dict_get key before in let a := dict_get key after in let e := dict_get key current in
  if decide (a = b) then Ok cand
  else if decide (e ≠ b ∧ e ≠ a) then Raise ValueError
  else Ok (match a with None => dict_del key cand | Some v => vars_set key v cand end).

Definition merge_vars (keys : list string) (before after current : @dict string V) :
    result (@dict string V) :=
  foldl (λ acc k, merge_var before after current k acc) (Ok current) keys.

(** The comments the worker added, without those the parent has by id. *)
Definition append_comments (new : list todo_comment) (cs : list todo_comment) : list todo_comment :=
  foldl (λ (cs : list todo_comment) c,
    if decide (cm_id c ∈ (cm_id <$> cs)) then cs else (cs ++ [c])%list) cs new.

Definition merge_comments (before after current : list todo_comment) : result (list todo_comment) :=
  let n := length before in
  if decide (take n after ≠ before) then Raise ValueError
  else if decide (take n current ≠ before) then Raise ValueError
  else Ok (append_comments (drop n after) current).

(** The candidate of [merge_todo], before the commit. *)
Definition merge_candidate (keys : list string) (updated base current : todo) m : result todo :=
  if existsb (λ d, negb (bool_decide (d ∈ td_deps base)) && negb (dict_mem d (tm_todos m)))
       (td_deps updated) then Raise ValueError
  else
    let! title := merge_field (td_title base) (td_title updated) (td_title current) in
    let! status := merge_field (td_status base) (td_status updated) (td_status current) in
    let! deps := merge_field (td_deps base) (td_deps updated) (td_deps current) in
    let! description :=
      merge_field (td_description base) (td_description updated) (td_description current) in
    let! vars := merge_vars keys (td_vars base) (td_vars updated) (td_vars current) in
    let! comments := merge_comments (td_comments base) (td_comments updated) (td_comments current) in
    Ok (mk_todo (td_id current) title status deps vars (td_created_at current) description comments).

Definition merge_todo (keys : list string) (updated base : todo) m : result (todo * todo_manager) :=
  if negb (bool_decide (td_id updated = td_id base)) then Raise ValueError
  else
    match dict_get (td_id updated) (tm_todos m) with
    | None => Raise ValueError
    | Some current =>
        let! candidate := merge_candidate keys updated base current m in
        let commit t := foldl (λ t k, copy_field candidate k t) t
          ["title"; "status"; "deps"; "description"; "vars"; "comments"] in
        let m' := on_todo (td_id updated) commit m in
        Ok (commit current, drop_active_if (commit current) m')
    end.

(** ** Dependencies of the active todo *)

(** One frame of the stack of [_dependency_closure]: a todo and the index of
    the next dependency to look at.  The head of the list is the top. *)
Definition frame : Type := todo * nat.

Record closure := mk_closure {
  cl_ordered : list todo;
  cl_state : @dict string nat;   (* 1 = visiting, 2 = emitted *)
  cl_missing : list string;
  cl_stack : list frame
}.

(** One turn of the loop. *)
Definition closure_step (todos : @dict string todo) (root : todo) (c : closure) : closure :=
  match cl_stack c with
  | [] => c
  | (t, i) :: stack =>
      match td_deps t !! i with
      | None =>
          mk_closure
            (if decide (td_id t = td_id root) then cl_ordered c else cl_ordered c ++ [t])%list
            (dict_set (td_id t) 2 (cl_state c)) (cl_missing c) stack
      | Some dep_id =>
          let stack := (t, S i) :: stack in
          match dict_get dep_id todos with
          | None =>
              mk_closure (cl_ordered c) (cl_state c)
                (if decide (dep_id ∈ cl_missing c) then cl_missing c else cl_missing c ++ [dep_id])%list
                stack
          | Some dependency =>
              match default 0 (dict_get (td_id dependency) (cl_state c)) with
              | 0 => mk_closure (cl_ordered c) (dict_set (td_id dependency) 1 (cl_state c))
                       (cl_missing c) ((dependency, 0) :: stack)
              | S _ => mk_closure (cl_ordered c) (cl_state c) (cl_missing c) stack
              end
          end
      end
  end.

(** [while stack], with fuel: [None] when it does not suffice. *)
Fixpoint closure_loop (fuel : nat) (todos : @dict string todo) (root : todo) (c : closure) :
    option closure :=
  match cl_stack c, fuel with
  | [], _ => Some c
  | _, 0 => None
  | _, S fuel => closure_loop fuel todos root (closure_step todos root c)
  end.

Definition closure_init (root : todo) : closure :=
  mk_closure [] [(td_id root, 1)] [] [(root, 0)].

(** The turns a todo can cost: one per dependency and one to leave it. *)
Definition closure_fuel (todos : @dict string todo) (root : todo) : nat :=
  S (length (td_deps root)) + list_sum ((λ kv, S (length (td_deps kv.2))) <$> todos).

(** [_dependency_closure]. *)
Definition dependency_closure (root : todo) m : option (list todo * list string) :=
  (λ c, (cl_ordered c, cl_missing c)) <$>
    closure_loop (closure_fuel (tm_todos m) root) (tm_todos m) root (closure_init root).

(** ** Snapshots *)

(** An entry of a saved state: a mapping, or something else. *)
Inductive raw_todo := RawDict (d : @dict string V) | RawOther (v : V).

(** What [to_dict] returns and [from_dict] takes; [sn_active] is [None] when
    the saved [active_id] is not a string. *)
Record snapshot := mk_snapshot {
  sn_todos : list raw_todo;
  sn_active : option string
}.

Section Snapshot.
(** A Python string as a value, and pydantic's [model_validate] and
    [model_dump] on a [Todo]. *)
Context (v_str : string → V).
Context (validate_dict : @dict string V → result todo) (validate_obj : V → result todo).
Context (model_dump : todo → @dict string V).

(** [Todo.__restore_snapshot__]: the legacy [notes] and status strings. *)
Definition restore_snapshot (data : @dict string V) : result todo :=
  let migrated :=
    match dict_get "notes" data with
    | Some n =>
        if dict_mem "description" data then data
        else dict_set "description" n (dict_del "notes" data)
    | None => data
    end in
  let status := if decide (dict_get "status" migrated = Some (v_str "done"))
                then v_str "done" else v_str "open" in
  validate_dict (dict_set "status" status migrated).

Definition restore_todo (raw : raw_todo) : result todo :=
  match raw with
  | RawDict d => restore_snapshot d
  | RawOther v => validate_obj v
  end.

(** The loop of [from_dict] over the saved todos. *)
Definition load_todos (raws : list raw_todo) : result (@dict string todo * list string) :=
  foldl (λ acc raw,
    let! p := acc in
    let! t := restore_todo raw in
    if dict_mem (td_id t) p.1 then Raise ValueError
    else Ok (dict_set (td_id t) t p.1, (p.2 ++ [td_id t])%list)) (Ok ([], [])) raws.

(** [from_dict]: the manager it leaves, whatever the previous state was. *)
Definition from_dict (data : snapshot) : result todo_manager :=
  let! p := load_todos (sn_todos data) in
  let keep :=
    match sn_active data with
    | Some a =>
        match dict_get a p.1 with
        | Some t => if decide (td_status t = StDone) then None else Some a
        | None => None
        end
    | None => None
    end in
  Ok (mk_tm p.1 p.2 keep).

(** [to_dict]. *)
Definition to_dict m : snapshot * todo_manager :=
  let m' := (active m).2 in
  (mk_snapshot ((λ t, RawDict (model_dump t)) <$> in_order m') (tm_active m'), m').
End Snapshot.

(** ** Runs *)

(** The calls that change a manager. *)
Inductive todo_op :=
  | OpAdd (id now : string) (title : text) (deps : list todo_ref) (description : text)
      (legacy_notes : option V) (vars : @dict string V)
  | OpRemove r | OpClear | OpClearDone
  | OpDone r | OpReopen r
  | OpAddDep r (dep : todo_ref) | OpRemoveDep r (dep : todo_ref)
  | OpSetVar r (key : string) (v : V) | OpDelVar r (key : string)
  | OpComment r (id now : string) (body : text)
  | OpUpdate r (kwargs : @dict string V)
  | OpAssign (id : string) (title : text) (status : todo_status) (deps : list string)
      (description : text)
  | OpActivate r | OpDeactivate | OpActive
  | OpMerge (keys : list string) (updated base : todo).

(** The state a call that may raise leaves: every one of them raises before
    its first write. *)
Definition after_call {A} (res : result (A * todo_manager)) m : todo_manager :=
  match res with Ok (_, m') => m' | Raise _ => m end.

Definition todo_apply (op : todo_op) m : todo_manager :=
  match op with
  | OpAdd id now title deps desc notes vars => after_call (todo_add id now title deps desc notes vars m) m
  | OpRemove r => after_call (todo_remove r m) m
  | OpClear => todo_clear m
  | OpClearDone => (clear_done m).2
  | OpDone r => after_call (todo_done r m) m
  | OpReopen r => after_call (todo_reopen r m) m
  | OpAddDep r d => after_call (add_dep r d m) m
  | OpRemoveDep r d => after_call (remove_dep r d m) m
  | OpSetVar r k v => after_call (set_var r k v m) m
  | OpDelVar r k => after_call (del_var r k m) m
  | OpComment r id now body => after_call (todo_comment_on r id now body m) m
  | OpUpdate r kwargs => after_call (todo_update r kwargs m) m
  | OpAssign id title status deps desc => assign id title status deps desc m
  | OpActivate r => after_call (activate r m) m
  | OpDeactivate => (deactivate m).2
  | OpActive => (active m).2
  | OpMerge keys updated base => after_call (merge_todo keys updated base m) m
  end.

(** A step of a run.  The identifier of an added todo is [uuid4().hex[:8]]: it is
    assumed not to be one in use, which eight hexadecimal digits make likely and
    the code does not check. *)
Inductive todo_step : todo_manager → todo_op → todo_manager → Prop :=
  | todo_step_intro m op m' :
      (∀ id now title deps desc notes vars,
         op = OpAdd id now title deps desc notes vars → id ∉ dict_keys (tm_todos m)) →
      m' = todo_apply op m →
      todo_step m op m'.

Definition todo_reachable m : Prop := ∃ ops, steps todo_step new_todo_manager ops m.
End Todo.

Arguments todo V : clear implicits.
Arguments todo_manager V : clear implicits.
Arguments closure V : clear implicits.
Arguments snapshot V : clear implicits.
