(* ===== verification/TodoRuns.v ===== *)
(** * TodoRuns: what the todo manager guarantees

    The workspace invariant over every sequence of calls, what completing,
    removing and pruning do to the other todos, the dependency closure of the
    status card, the three-way merge of delegated work, and the snapshot round
    trip. *)

From S2P Require Import Prelude PyDict PyText Todo.

(** ** Dictionaries of todos *)
Section DictMap.
Context {K V : Type} `{EqDecision K}.

Lemma dict_keys_fmap (f : V → V) (d : @dict K V) :
  dict_keys (prod_map Datatypes.id f <$> d) = dict_keys d.
Proof. unfold dict_keys. rewrite <- list_fmap_compose. by apply list_fmap_ext. Qed.

Lemma dict_get_fmap (f : V → V) k (d : @dict K V) :
  dict_get k (prod_map Datatypes.id f <$> d) = f <$> dict_get k d.
Proof. induction d as [|[k' v] d IH]; simpl; [done|]. by case_decide. Qed.

Lemma dict_keys_foldr_del (ks : list K) (d : @dict K V) :
  dict_wf d →
  dict_wf (foldr dict_del d ks) ∧
  dict_keys (foldr dict_del d ks) = filter (λ k, k ∉ ks) (dict_keys d).
Proof.
  intros Hwf. induction ks as [|k ks [IHw IHk]]; simpl.
  - split; [done|]. induction (dict_keys d) as [|x l IH]; [done|].
    rewrite filter_cons_True by apply not_elem_of_nil. by f_equal.
  - split; [by apply dict_wf_del|]. rewrite dict_keys_del, IHk by done.
    rewrite list_filter_filter. apply list_filter_iff. intros x. rewrite not_elem_of_cons. tauto.
Qed.

Lemma dict_get_foldr_del (ks : list K) k (d : @dict K V) :
  dict_wf d → dict_get k (foldr dict_del d ks) = if decide (k ∈ ks) then None else dict_get k d.
Proof.
  intros Hwf. induction ks as [|k' ks IH]; simpl; [done|].
  rewrite dict_get_del by (by apply dict_keys_foldr_del). rewrite IH.
  repeat case_decide; set_solver.
Qed.

Lemma list_filter_negb_decide (P : K → Prop) `{∀ x, Decision (P x)} (l : list K) :
  List.filter (λ x, negb (bool_decide (P x))) l = filter (λ x, ¬ P x) l.
Proof.
  induction l as [|x l IH]; [done|]. simpl. case_bool_decide; simpl.
  - by rewrite filter_cons_False by tauto.
  - by rewrite filter_cons_True, IH.
Qed.

Lemma list_filter_decide (P : K → Prop) `{∀ x, Decision (P x)} (l : list K) :
  List.filter (λ x, bool_decide (P x)) l = filter P l.
Proof.
  induction l as [|x l IH]; [done|]. simpl. case_bool_decide.
  - by rewrite filter_cons_True, IH.
  - by rewrite filter_cons_False.
Qed.

Lemma omap_dict_values (d : @dict K V) :
  dict_wf d → omap (λ k, dict_get k d) (dict_keys d) = dict_values d.
Proof.
  unfold dict_wf, dict_keys, dict_values. induction d as [|[k v] d IH]; intros Hwf; [done|].
  cbn [fmap list_fmap fst snd] in *. apply NoDup_cons in Hwf as [Hk Hwf].
  simpl. rewrite decide_True by done. f_equal. rewrite <- IH by done.
  apply list_omap_ext, Forall2_same_length_lookup_2; [done|]. intros i x y Hx Hy.
  assert (x = y) as -> by congruence. rewrite decide_False; [done|].
  intros ->. apply Hk. by eapply list_elem_of_lookup_2.
Qed.
End DictMap.

Section TodoRuns.
Context {V : Type} `{EqDecision V}.
Context (serializable : V → bool) (as_text : V → option text) (as_status : V → option todo_status).
Implicit Types (t : todo V) (m : todo_manager V) (r : todo_ref).

#[local] Notation todo_apply := (todo_apply serializable as_text as_status).
#[local] Notation todo_reachable := (todo_reachable serializable as_text as_status).

(** ** The workspace invariant *)

(** Every todo is stored under its own identifier, the creation order lists
    exactly the stored identifiers, and the active one is stored. *)
Record todo_ok m : Prop := {
  tok_wf : dict_wf (tm_todos m);
  tok_id : ∀ k t, dict_get k (tm_todos m) = Some t → td_id t = k;
  tok_order : tm_order m = dict_keys (tm_todos m);
  tok_active : ∀ a, tm_active m = Some a → a ∈ dict_keys (tm_todos m)
}.

Lemma todo_ok_new : todo_ok new_todo_manager.
Proof. split; try done. apply dict_wf_nil. Qed.

Lemma dict_get_on_todo id f m k :
  dict_get k (tm_todos (on_todo id f m)) =
    if decide (k = id) then f <$> dict_get k (tm_todos m) else dict_get k (tm_todos m).
Proof.
  unfold on_todo. destruct (dict_get id (tm_todos m)) as [t|] eqn:Ht; simpl.
  - rewrite dict_get_set. case_decide as Hk; [by rewrite Hk, Ht|done].
  - case_decide as Hk; [by rewrite Hk, Ht|done].
Qed.

Lemma dict_keys_on_todo id f m : dict_keys (tm_todos (on_todo id f m)) = dict_keys (tm_todos m).
Proof.
  unfold on_todo. destruct (dict_get id (tm_todos m)) as [t|] eqn:Ht; simpl; [|done].
  apply dict_keys_set_present, dict_get_is_Some. by eexists.
Qed.

Lemma todo_ok_on_todo id f m :
  (∀ t, td_id (f t) = td_id t) → todo_ok m → todo_ok (on_todo id f m).
Proof.
  intros Hf [Hwf Hid Hord Hact].
  assert (tm_order (on_todo id f m) = tm_order m ∧ tm_active (on_todo id f m) = tm_active m)
    as [Ho Ha] by (unfold on_todo; by case_match).
  split.
  - unfold dict_wf. by rewrite dict_keys_on_todo.
  - intros k t. rewrite dict_get_on_todo. case_decide; [|apply Hid].
    intros [t' [Ht' ->]]%fmap_Some. rewrite Hf. eauto.
  - by rewrite dict_keys_on_todo, Ho.
  - intros a. rewrite Ha, dict_keys_on_todo. apply Hact.
Qed.

Lemma todo_ok_forget m : todo_ok m → todo_ok (mk_tm (tm_todos m) (tm_order m) None).
Proof. intros [????]. by split. Qed.

Lemma todo_ok_drop_active t m : todo_ok m → todo_ok (drop_active_if t m).
Proof. intros H. unfold drop_active_if. case_decide; [by apply todo_ok_forget|done]. Qed.

Lemma update_todo_inv r f m x m' :
  update_todo r f m = Ok (x, m') →
  ∃ id, todo_id_of r = Ok id ∧ x = f <$> dict_get id (tm_todos m) ∧ m' = on_todo id f m.
Proof.
  unfold update_todo. destruct (todo_id_of r) as [id|]; simpl; [|done].
  unfold on_todo. destruct (dict_get id (tm_todos m)) eqn:Hg; intros; simplify_eq;
    exists id; rewrite Hg; done.
Qed.

Lemma todo_ok_update_todo r f m x m' :
  (∀ t, td_id (f t) = td_id t) → update_todo r f m = Ok (x, m') → todo_ok m → todo_ok m'.
Proof. intros Hf (id & _ & _ & ->)%update_todo_inv. by apply todo_ok_on_todo. Qed.

(** Taking identifiers away from the workspace. *)
Lemma todo_ok_scrub (gone : list string) (g : string → bool) m act :
  todo_ok m → (∀ a, act = Some a → a ∈ dict_keys (tm_todos m) ∧ a ∉ gone) →
  todo_ok (mk_tm (prod_map Datatypes.id (scrub_deps g) <$> foldr dict_del (tm_todos m) gone)
             (filter (λ i, i ∉ gone) (tm_order m)) act).
Proof.
  intros [Hwf Hid Hord Hact] Ha.
  destruct (dict_keys_foldr_del gone (tm_todos m) Hwf) as [Hw Hk]. split; cbn [tm_todos tm_order tm_active].
  - unfold dict_wf. by rewrite dict_keys_fmap.
  - intros k t. rewrite dict_get_fmap, dict_get_foldr_del by done.
    intros [t' [Ht ->]]%fmap_Some. case_decide; [done|]. by apply Hid in Ht.
  - by rewrite dict_keys_fmap, Hk, Hord.
  - intros a Hact'. rewrite dict_keys_fmap, Hk, list_elem_of_filter. by destruct (Ha a Hact').
Qed.

Lemma todo_remove_inv r b m m' :
  todo_remove r m = Ok (b, m') →
  ∃ id, todo_id_of r = Ok id ∧
    ((b = false ∧ id ∉ dict_keys (tm_todos m) ∧ m' = m) ∨
     (b = true ∧ id ∈ dict_keys (tm_todos m) ∧
      m' = mk_tm (prod_map Datatypes.id (scrub_deps (λ d, bool_decide (d = id)))
                   <$> foldr dict_del (tm_todos m) [id])
             (filter (λ i, i ∉ [id]) (tm_order m))
             (if decide (tm_active m = Some id) then None else tm_active m))).
Proof.
  unfold todo_remove. destruct (todo_id_of r) as [id|]; simpl; [|done].
  destruct (dict_mem id (tm_todos m)) eqn:Hm; simpl; intros [= <- <-]; exists id; split; try done.
  - right. apply dict_mem_true in Hm. split_and!; try done. f_equal.
    rewrite list_filter_decide. apply list_filter_iff. intros x. set_solver.
  - left. by apply dict_mem_false in Hm.
Qed.

Lemma clear_done_eq m :
  clear_done m =
    (length (done_ids m),
     mk_tm (prod_map Datatypes.id (scrub_deps (λ d, bool_decide (d ∈ done_ids m)))
              <$> foldr dict_del (tm_todos m) (done_ids m))
       (filter (λ i, i ∉ done_ids m) (tm_order m))
       (match tm_active m with
        | Some a => if bool_decide (a ∈ done_ids m) then None else Some a
        | None => None
        end)).
Proof. unfold clear_done. by rewrite list_filter_negb_decide. Qed.

Lemma active_inv m :
  (active m).2 = m ∨ (active m).2 = mk_tm (tm_todos m) (tm_order m) None.
Proof. unfold active. repeat case_match; simpl; eauto. Qed.

Lemma copy_field_id c k t : td_id (copy_field c k t) = td_id t.
Proof. unfold copy_field. by repeat case_decide. Qed.

Lemma copy_fields_id c ks t : td_id (foldl (λ t k, copy_field c k t) t ks) = td_id t.
Proof. revert t. induction ks as [|k ks IH]; intros t; simpl; [done|]. by rewrite IH, copy_field_id. Qed.

Lemma todo_add_inv id now title deps desc notes vars m t m' :
  todo_add serializable as_text id now title deps desc notes vars m = Ok (t, m') →
  td_id t = id ∧ td_status t = StOpen ∧
  m' = mk_tm (dict_set id t (tm_todos m)) (tm_order m ++ [id]) (tm_active m).
Proof.
  unfold todo_add. destruct (match notes with Some _ => _ | None => _ end) as [d|]; simpl; [|done].
  destruct (foldr _ _ deps) as [ds|]; simpl; [|done]. by intros [= <- <-].
Qed.

Lemma todo_ok_apply op m :
  (∀ id now title deps desc notes vars,
     op = OpAdd id now title deps desc notes vars → id ∉ dict_keys (tm_todos m)) →
  todo_ok m → todo_ok (todo_apply op m).
Proof.
  intros Hfresh Hok. pose proof Hok as [Hwf Hid Hord Hact].
  assert (∀ r (f : todo V → todo V), (∀ t, td_id (f t) = td_id t) →
    todo_ok (after_call (update_todo r f m) m)) as Hupd.
  { intros r f Hf. destruct (update_todo r f m) as [[x m']|] eqn:He; simpl; [|done].
    by eapply todo_ok_update_todo. }
  destruct op; cbn [Todo.todo_apply].
  - destruct (todo_add _ _ _ _ _ _ _ _ _ _) as [[t m']|] eqn:He; simpl; [|done].
    apply todo_add_inv in He as (Ht & _ & ->).
    assert (id ∉ dict_keys (tm_todos m)) as Hn by (eapply Hfresh; done).
    split; cbn [tm_todos tm_order tm_active].
    + by apply dict_wf_set.
    + intros k u. rewrite dict_get_set. case_decide; [by intros [= <-]; subst|apply Hid].
    + by rewrite dict_keys_set_absent, Hord.
    + intros a Ha. rewrite dict_keys_set_absent by done. apply elem_of_app. auto.
  - destruct (todo_remove r m) as [[b m']|] eqn:He; simpl; [|done].
    apply todo_remove_inv in He as (id & _ & [(_ & _ & ->)|(_ & _ & ->)]); [done|].
    apply todo_ok_scrub; [done|]. intros a. case_decide; [done|]. intros Ha. split; [auto|].
    rewrite list_elem_of_singleton. congruence.
  - apply todo_ok_new.
  - rewrite clear_done_eq. apply todo_ok_scrub; [done|]. intros a.
    destruct (tm_active m) as [a'|] eqn:Ha; [|done]. case_bool_decide; [done|].
    intros [= ->]. auto.
  - unfold todo_done. destruct (update_todo r (td_with_status StDone) m) as [[x m']|] eqn:He; simpl; [|done].
    assert (todo_ok m') by (by eapply todo_ok_update_todo; [|done|]).
    case_match; [by apply todo_ok_drop_active|done].
  - by apply Hupd.
  - unfold add_dep. destruct (todo_id_of r); simpl; [|done]. destruct (todo_id_of dep); simpl; [|done].
    apply Hupd. intros. by case_decide.
  - unfold remove_dep. destruct (todo_id_of r); simpl; [|done]. destruct (todo_id_of dep); simpl; [|done].
    by apply Hupd.
  - by apply Hupd.
  - by apply Hupd.
  - unfold todo_comment_on.
    destruct (update_todo r _ m) as [[x m']|] eqn:He; simpl; [|done]. by eapply todo_ok_update_todo; [|done|].
  - unfold todo_update. destruct (todo_get r m) as [[t|]|]; simpl; try done.
    destruct (foldl _ (Ok t) _) as [c|]; simpl; [|done].
    destruct (update_todo r _ m) as [[x m']|] eqn:He; simpl; [|done].
    assert (todo_ok m') by (eapply todo_ok_update_todo; [|done|done]; intros; apply copy_fields_id).
    case_match; [by apply todo_ok_drop_active|done].
  - by apply todo_ok_on_todo.
  - unfold activate. destruct (todo_id_of r) as [id|]; simpl; [|done].
    destruct (dict_get id (tm_todos m)) as [t|] eqn:Ht; [|done]. case_decide; [done|]. simpl.
    split; try done. cbn [tm_active]. intros a [= <-]. apply dict_get_is_Some. by eexists.
  - unfold deactivate. destruct (active m) as [x m'] eqn:He.
    pose proof (active_inv m) as Hi. rewrite He in Hi. simpl in *.
    destruct Hi as [-> | ->]; by apply todo_ok_forget.
  - destruct (active_inv m) as [-> | ->]; [done|by apply todo_ok_forget].
  - unfold merge_todo. case_match; [done|]. destruct (dict_get _ _) as [cur|]; [|done].
    destruct (merge_candidate _ _ _ _ _ _) as [c|]; simpl; [|done].
    apply todo_ok_drop_active, todo_ok_on_todo; [|done]. intros t.
    by rewrite !copy_field_id.
Qed.

Lemma todo_reachable_ok m : todo_reachable m → todo_ok m.
Proof.
  intros [ops Hsteps]. eapply (steps_invariant _ todo_ok); [|apply todo_ok_new|exact Hsteps].
  intros m1 op m2 Hok Hstep. destruct Hstep as [m1 op m2 Hfresh ->]. by apply todo_ok_apply.
Qed.

Lemma in_order_values m : todo_ok m → in_order m = dict_values (tm_todos m).
Proof. intros [Hwf _ Hord _]. unfold in_order. rewrite Hord. by apply omap_dict_values. Qed.

Lemma elem_of_in_order m t :
  todo_ok m → t ∈ in_order m ↔ dict_get (td_id t) (tm_todos m) = Some t.
Proof.
  intros Hok. rewrite in_order_values by done. unfold dict_values.
  rewrite list_elem_of_fmap. split.
  - intros [[k u] [-> Hin]]. simpl. apply dict_get_elem in Hin; [|apply Hok].
    by rewrite (tok_id _ Hok _ _ Hin).
  - intros Hg%dict_get_Some_elem. by exists (td_id t, t).
Qed.

Lemma in_order_ids m : todo_ok m → td_id <$> in_order m = tm_order m.
Proof.
  intros Hok. rewrite in_order_values, (tok_order _ Hok) by done.
  unfold dict_values, dict_keys. rewrite <- list_fmap_compose. apply Forall_fmap_ext_1.
  apply Forall_forall. intros [k t] Hin. simpl. apply (tok_id _ Hok), dict_get_elem; [apply Hok|done].
Qed.

(** The identifiers of the todos an operation adds. *)
Definition added (op : @todo_op V) : list string :=
  match op with OpAdd id _ _ _ _ _ _ => [id] | _ => [] end.

Lemma on_todo_order id f m : tm_order (on_todo id f m) = tm_order m.
Proof. unfold on_todo. by case_match. Qed.

Lemma drop_active_order t m : tm_order (drop_active_if t m) = tm_order m.
Proof. unfold drop_active_if. by case_decide. Qed.

Lemma update_todo_order r f m x m' : update_todo r f m = Ok (x, m') → tm_order m' = tm_order m.
Proof. intros (id & _ & _ & ->)%update_todo_inv. apply on_todo_order. Qed.

Lemma active_order m : tm_order (active m).2 = tm_order m.
Proof. by destruct (active_inv m) as [-> | ->]. Qed.

(** An operation appends to the order or takes identifiers out of it. *)
Lemma todo_apply_order op m : tm_order (todo_apply op m) `sublist_of` tm_order m ++ added op.
Proof.
  assert (Hsame : ∀ m', tm_order m' = tm_order m → tm_order m' `sublist_of` tm_order m ++ []).
  { intros m' ->. by rewrite app_nil_r. }
  assert (Hupd : ∀ r f, tm_order (after_call (update_todo r f m) m) `sublist_of` tm_order m ++ []).
  { intros r f. apply Hsame. destruct (update_todo r f m) as [[x m']|] eqn:He; simpl; [|done]. by eapply update_todo_order. }
  destruct op; cbn [Todo.todo_apply added].
  - destruct (todo_add _ _ _ _ _ _ _ _ _ _) as [[t m']|] eqn:He; simpl; [|by apply sublist_inserts_r].
    by apply todo_add_inv in He as (_ & _ & ->).
  - destruct (todo_remove r m) as [[b m']|] eqn:He; simpl; [|by apply Hsame].
    apply todo_remove_inv in He as (id & _ & [(_ & _ & ->)|(_ & _ & ->)]); [by apply Hsame|].
    cbn [tm_order]. rewrite app_nil_r. apply sublist_filter.
  - apply sublist_nil_l.
  - rewrite clear_done_eq. cbn [snd tm_order]. rewrite app_nil_r. apply sublist_filter.
  - apply Hsame. unfold todo_done. destruct (update_todo r (td_with_status StDone) m) as [[x m']|] eqn:He; simpl; [|done].
    apply update_todo_order in He. case_match; [by rewrite drop_active_order|done].
  - by apply Hupd.
  - unfold add_dep. destruct (todo_id_of r); simpl; [|by apply Hsame]. destruct (todo_id_of dep); simpl; [|by apply Hsame].
    by apply Hupd.
  - unfold remove_dep. destruct (todo_id_of r); simpl; [|by apply Hsame]. destruct (todo_id_of dep); simpl; [|by apply Hsame].
    by apply Hupd.
  - by apply Hupd.
  - by apply Hupd.
  - apply Hsame. unfold todo_comment_on.
    destruct (update_todo r _ m) as [[x m']|] eqn:He; simpl; [|done]. by apply update_todo_order in He.
  - apply Hsame. unfold todo_update. destruct (todo_get r m) as [[t|]|]; simpl; try done.
    destruct (foldl _ (Ok t) _) as [c|]; simpl; [|done].
    destruct (update_todo r _ m) as [[x m']|] eqn:He; simpl; [|done]. apply update_todo_order in He.
    case_match; [by rewrite drop_active_order|done].
  - apply Hsame, on_todo_order.
  - apply Hsame. unfold activate. destruct (todo_id_of r) as [id|]; simpl; [|done].
    destruct (dict_get id (tm_todos m)) as [t|]; [|done]. by case_decide.
  - apply Hsame. unfold deactivate. pose proof (active_order m). by destruct (active m).
  - apply Hsame, active_order.
  - apply Hsame. unfold merge_todo. case_match; [done|]. destruct (dict_get _ _) as [cur|]; [|done].
    destruct (merge_candidate _ _ _ _ _ _) as [c|]; simpl; [|done]. rewrite drop_active_order. apply on_todo_order.
Qed.

Lemma steps_order m ops m' :
  steps (todo_step serializable as_text as_status) m ops m' →
  tm_order m' `sublist_of` tm_order m ++ concat (added <$> ops).
Proof.
  induction 1 as [m|m op m1 ops m2 [? ? ? _ ->] _ IH]; cbn; [by rewrite app_nil_r|].
  etransitivity; [exact IH|]. rewrite app_assoc. apply sublist_app; [apply todo_apply_order|done].
Qed.

(** C39.  After any sequence of calls and of assignments to managed todos, the
    order of the workspace is the order in which [add] was called, lists every
    managed todo exactly once and nothing else, and [active()] returns a managed
    todo that is open, or forgets the selection. *)
Theorem todo_workspace_invariant ops m :
  steps (todo_step serializable as_text as_status) new_todo_manager ops m →
  td_id <$> in_order m `sublist_of` concat (added <$> ops) ∧
  NoDup (td_id <$> in_order m) ∧
  (∀ id t, dict_get id (tm_todos m) = Some t ↔ (t ∈ in_order m ∧ td_id t = id)) ∧
  match active m with
  | (Some t, m') => m' = m ∧ t ∈ in_order m ∧ td_status t = StOpen ∧ tm_active m = Some (td_id t)
  | (None, m') => tm_active m' = None ∧ in_order m' = in_order m
  end.
Proof.
  intros Hrun. assert (Hok : todo_ok m) by (by apply todo_reachable_ok; exists ops). split_and!.
  - rewrite in_order_ids by done. by apply steps_order in Hrun.
  - rewrite in_order_ids, (tok_order _ Hok) by done. apply Hok.
  - intros id t. split.
    + intros Hg. pose proof (tok_id _ Hok _ _ Hg) as <-. split; [by apply elem_of_in_order|done].
    + intros [Hin <-]. by apply elem_of_in_order.
  - unfold active. destruct (tm_active m) as [a|] eqn:Ha; [|done].
    destruct (dict_get a (tm_todos m)) as [t|] eqn:Hg; [|done]. case_decide as Hs; [done|].
    pose proof (tok_id _ Hok _ _ Hg) as <-. split_and!; try done.
    + by apply elem_of_in_order.
    + by destruct (td_status t).
Qed.

Lemma effective_blocked m t :
  effective_status m t = EffBlocked ↔
  td_status t = StOpen ∧ ∃ d u, d ∈ td_deps t ∧ dict_get d (tm_todos m) = Some u ∧ td_status u = StOpen.
Proof.
  unfold effective_status, is_blocked. destruct (td_status t); [|naive_solver].
  destruct (existsb _ _) eqn:Hb.
  - split; [intros _; split; [done|]|done]. apply existsb_exists in Hb as (d & Hd & Hu).
    destruct (dict_get d (tm_todos m)) as [u|] eqn:Hg; [|done]. bool_prop.
    exists d, u. rewrite list_elem_of_In. split_and!; try done. by destruct (td_status u).
  - split; [done|]. intros (_ & d & u & Hd & Hg & Hs). rewrite <- not_true_iff_false in Hb.
    destruct Hb. apply existsb_exists. exists d. rewrite <- list_elem_of_In. split; [done|].
    rewrite Hg. apply bool_decide_eq_true. congruence.
Qed.

(** Completing a todo marks it done, deselects it exactly when it is the
    active one and changes no other todo; another open todo is afterwards
    blocked exactly when one of its other prerequisites is unfinished. *)
Theorem complete_unblocks m id t :
  todo_ok m → dict_get id (tm_todos m) = Some t →
  ∃ m', todo_done (RefId id) m = Ok (Some (td_with_status StDone t), m') ∧
    (∀ k, dict_get k (tm_todos m') =
      if decide (k = id) then Some (td_with_status StDone t) else dict_get k (tm_todos m)) ∧
    tm_active m' = (if decide (tm_active m = Some id) then None else tm_active m) ∧
    (∀ u, td_id u ≠ id → dict_get (td_id u) (tm_todos m') = Some u → td_status u = StOpen →
      effective_status m' u = EffBlocked ↔
      ∃ d v, d ∈ td_deps u ∧ d ≠ id ∧ dict_get d (tm_todos m) = Some v ∧ td_status v = StOpen).
Proof.
  intros Hok Ht. pose proof (tok_id _ Hok _ _ Ht) as Hid.
  unfold todo_done, update_todo. simpl. rewrite Ht. simpl.
  eexists. split; [done|].
  set (m1 := on_todo id (td_with_status StDone) m).
  assert (tm_todos (drop_active_if (td_with_status StDone t) m1) = tm_todos m1) as Htodos
    by (unfold drop_active_if; by case_decide).
  assert (∀ k, dict_get k (tm_todos m1) =
      if decide (k = id) then Some (td_with_status StDone t) else dict_get k (tm_todos m)) as Hget.
  { intros k. unfold m1. rewrite dict_get_on_todo. case_decide as Hk; [|done]. by rewrite Hk, Ht. }
  rewrite Htodos. split_and!; [done| |].
  - unfold drop_active_if. simpl. assert (tm_active m1 = tm_active m) as Ha
      by (unfold m1, on_todo; by rewrite Ht). rewrite Ha, Hid.
    repeat case_decide; naive_solver congruence.
  - intros u Hu Hgu Hs. rewrite effective_blocked, Htodos. split.
    + intros (_ & d & v & Hd & Hg & Hv). rewrite Hget in Hg. case_decide; [naive_solver|eauto 10].
    + intros (d & v & Hd & Hne & Hg & Hv). split; [done|]. exists d, v. rewrite Hget.
      by rewrite decide_False.
Qed.

Lemma elem_of_done_ids m id :
  todo_ok m → id ∈ done_ids m ↔ ∃ t, dict_get id (tm_todos m) = Some t ∧ td_status t = StDone.
Proof.
  intros Hok. unfold done_ids. rewrite list_elem_of_fmap. split.
  - intros [[k t] [-> [Hs Hin]%list_elem_of_filter]]. exists t. split; [|done].
    apply dict_get_elem; [apply Hok|done].
  - intros (t & Hg%dict_get_Some_elem & Hs). exists (id, t). by rewrite list_elem_of_filter.
Qed.

Lemma length_done_ids m :
  length (done_ids m) = length (filter (λ t, td_status t = StDone) (dict_values (tm_todos m))).
Proof.
  unfold done_ids, dict_values. rewrite length_fmap.
  induction (tm_todos m) as [|[k t] d IH]; [done|].
  cbn. unfold filter in IH. repeat case_decide; cbn; try done. by f_equal.
Qed.

Lemma dict_get_scrubbed (gone : list string) (g : string → bool) m k o a :
  todo_ok m →
  dict_get k (tm_todos (mk_tm (prod_map Datatypes.id (scrub_deps g)
                                <$> foldr dict_del (tm_todos m) gone) o a)) =
    if decide (k ∈ gone) then None else scrub_deps g <$> dict_get k (tm_todos m).
Proof.
  intros [Hwf _ _ _]. cbn [tm_todos]. rewrite dict_get_fmap, dict_get_foldr_del by done.
  by case_decide.
Qed.

(** [clear_done] removes exactly the done todos and reports how many,
    keeps the others in order, drops the removed identifiers from their
    dependencies, and leaves the open/blocked status of each of them and the
    selection of an open todo as they were. *)
Theorem clear_done_spec m :
  todo_ok m →
  let '(n, m') := clear_done m in
  n = length (filter (λ t, td_status t = StDone) (dict_values (tm_todos m))) ∧
  (∀ id t', dict_get id (tm_todos m') = Some t' ↔
     ∃ t, dict_get id (tm_todos m) = Some t ∧ td_status t = StOpen ∧
       t' = td_with_deps (filter (λ d, d ∉ done_ids m) (td_deps t)) t ∧
       effective_status m' t' = effective_status m t) ∧
  tm_order m' = filter (λ id, id ∉ done_ids m) (tm_order m) ∧
  (∀ a, tm_active m' = Some a ↔ tm_active m = Some a ∧ a ∉ done_ids m).
Proof.
  intros Hok. rewrite clear_done_eq. set (gone := done_ids m).
  match goal with |- context [mk_tm ?x ?y ?z] => set (m' := mk_tm x y z) end.
  assert (∀ k, dict_get k (tm_todos m') = if decide (k ∈ gone) then None
            else scrub_deps (λ d, bool_decide (d ∈ gone)) <$> dict_get k (tm_todos m)) as Hget
    by (intros k; by apply dict_get_scrubbed).
  assert (∀ t, td_status t = StOpen →
    effective_status m' (scrub_deps (λ d, bool_decide (d ∈ gone)) t) = effective_status m t) as Heff.
  { intros t Hs.
    assert (effective_status m' (scrub_deps (λ d, bool_decide (d ∈ gone)) t) = EffBlocked ↔
            effective_status m t = EffBlocked) as Hiff.
    { rewrite !effective_blocked. unfold scrub_deps. cbn [td_status td_deps td_with_deps].
      rewrite list_filter_negb_decide. split; intros (_ & d & u & Hd & Hg & Hu); (split; [done|]).
      - apply list_elem_of_filter in Hd as [Hn Hd]. rewrite Hget, decide_False in Hg by done.
        apply fmap_Some in Hg as (v & Hv & ->). exists d, v. done.
      - assert (d ∉ gone) as Hn.
        { intros (v & Hv & Hvs)%elem_of_done_ids; [|done]. congruence. }
        exists d, (scrub_deps (λ d, bool_decide (d ∈ gone)) u). rewrite list_elem_of_filter, Hget.
        rewrite decide_False, Hg by done. done. }
    revert Hiff. unfold effective_status. unfold scrub_deps at 1 3. cbn [td_status td_with_deps].
    rewrite Hs. repeat case_match; naive_solver. }
  split_and!.
  - apply length_done_ids.
  - intros id t'. rewrite Hget. case_decide as Hg.
    + split; [done|]. intros (t & Ht & Hs & _). apply elem_of_done_ids in Hg as (v & Hv & Hvs); [|done].
      congruence.
    + rewrite fmap_Some. split.
      * intros (t & Ht & ->). exists t.
        assert (td_status t = StOpen) as Hs.
        { destruct (td_status t) eqn:Hs; [done|]. destruct Hg. apply elem_of_done_ids; eauto. }
        split_and!; [done|done| |by apply Heff].
        unfold scrub_deps. by rewrite list_filter_negb_decide.
      * intros (t & Ht & Hs & -> & _). exists t. split; [done|].
        unfold scrub_deps. by rewrite list_filter_negb_decide.
  - done.
  - intros a. cbn [tm_active m']. destruct (tm_active m) as [b|]; [|naive_solver].
    case_bool_decide; naive_solver.
Qed.

(** [remove] takes one todo out of the workspace, the creation order, the
    selection and every dependency list, touching nothing else; removing an
    identifier that is not managed changes nothing. *)
Theorem remove_spec m id :
  todo_ok m →
  ∃ b m', todo_remove (RefId id) m = Ok (b, m') ∧
    (b = true ↔ id ∈ tm_order m) ∧ (b = false → m' = m) ∧
    (∀ k, k ≠ id → dict_get k (tm_todos m') =
       (λ t, td_with_deps (filter (λ d, b = true → d ≠ id) (td_deps t)) t) <$> dict_get k (tm_todos m)) ∧
    dict_get id (tm_todos m') = None ∧ tm_active m' ≠ Some id ∧
    (tm_active m ≠ Some id → tm_active m' = tm_active m).
Proof.
  intros Hok. destruct (todo_remove (RefId id) m) as [[b m']|e] eqn:He.
  2:{ unfold todo_remove in He. simpl in He. by case_match. }
  exists b, m'. split; [done|].
  apply todo_remove_inv in He as (id' & [= <-] & [(-> & Hn & ->)|(-> & Hin & ->)]).
  - rewrite (tok_order _ Hok). split_and!; try done.
    + intros k _. destruct (dict_get k (tm_todos m)) as [t|]; [|done]. simpl. f_equal.
      destruct t as [tid tt ts deps tv tc td tcm]. unfold td_with_deps. simpl. f_equal.
      induction deps as [|x deps IH]; [done|]. rewrite filter_cons_True by done. by f_equal.
    + by apply dict_get_None.
    + intros Ha. apply (tok_active _ Hok) in Ha. done.
  - rewrite (tok_order _ Hok). split_and!; try done.
    + intros k Hk. rewrite dict_get_scrubbed by done. rewrite decide_False by set_solver.
      destruct (dict_get k (tm_todos m)) as [t|]; [|done]. simpl. f_equal. unfold scrub_deps. f_equal.
      rewrite list_filter_negb_decide. apply list_filter_iff. naive_solver.
    + rewrite dict_get_scrubbed by done. by rewrite decide_True by set_solver.
    + cbn [tm_active]. by case_decide.
    + cbn [tm_active]. intros. by rewrite decide_False.
Qed.
End TodoRuns.
