(* ===== verification/TodoClosure.v ===== *)
(** * TodoClosure: the transitive dependencies of a todo

    The loop of [_dependency_closure] walks the dependency graph with an
    explicit stack.  The invariant below is the one of a depth-first search:
    the stack is a path of dependencies that starts at the root, every
    dependency already looked at is visited or recorded as missing, and a
    todo is emitted after each of its dependencies that does not itself
    depend on it. *)

From S2P Require Import Prelude PyDict PyText Todo TodoRuns.
From stdpp Require Import relations.

Section TodoClosure.
Context {V : Type} `{EqDecision V}.
Context (todos : @dict string (todo V)) (root : todo V).
Context (ids : ∀ k t, dict_get k todos = Some t → td_id t = k).
Context (root_managed : dict_get (td_id root) todos = Some root).
Implicit Types (t u : todo V) (c : closure V) (stack : list (todo V * nat)).

(** [u] is a managed dependency of [t]. *)
Definition dep_of t u : Prop := ∃ d, d ∈ td_deps t ∧ dict_get d todos = Some u.
Definition managed t : Prop := dict_get (td_id t) todos = Some t.
Definition visited c (k : string) : Prop := is_Some (dict_get k (cl_state c)).
Definition handled c (d : string) : Prop :=
  match dict_get d todos with
  | None => d ∈ cl_missing c
  | Some u => visited c (td_id u)
  end.

(** The stack, top first, is a path of dependencies from the root. *)
Fixpoint path (ts : list (todo V)) : Prop :=
  match ts with
  | [] => True
  | [t] => t = root
  | t :: ((t' :: _) as ts') => dep_of t' t ∧ path ts'
  end.

Definition on_stack c : list (todo V) := (cl_stack c).*1.

Record closure_ok c : Prop := {
  co_path : path (on_stack c);
  co_visited : ∀ k, visited c k ↔ k = td_id root ∨ k ∈ td_id <$> (on_stack c ++ cl_ordered c);
  co_values : ∀ k v, dict_get k (cl_state c) = Some v → v ≠ 0;
  co_nodup : NoDup (td_id <$> (on_stack c ++ cl_ordered c));
  co_root : td_id root ∉ td_id <$> cl_ordered c;
  co_managed : Forall managed (on_stack c ++ cl_ordered c);
  co_reach : Forall (rtc dep_of root) (on_stack c ++ cl_ordered c);
  co_looked : ∀ t i j d, (t, i) ∈ cl_stack c → j < i → td_deps t !! j = Some d → handled c d;
  co_closed : ∀ t d, t ∈ cl_ordered c ∨ (cl_stack c = [] ∧ t = root) → d ∈ td_deps t → handled c d;
  co_order : ∀ pre t post u, cl_ordered c = pre ++ t :: post → dep_of t u → u ∈ pre ∨ rtc dep_of u t;
  co_missing : NoDup (cl_missing c);
  co_unmanaged : ∀ d, d ∈ cl_missing c → dict_get d todos = None ∧ ∃ t, rtc dep_of root t ∧ d ∈ td_deps t
}.

Lemma path_tail t ts : path (t :: ts) → path ts.
Proof. destruct ts; [done|]. by intros [_ ?]. Qed.

(** Everything on the stack reaches its top. *)
Lemma path_reaches t ts u : path (t :: ts) → u ∈ t :: ts → rtc dep_of u t.
Proof.
  revert t. induction ts as [|t' ts IH]; intros t Hp Hu.
  - apply list_elem_of_singleton in Hu as ->. reflexivity.
  - destruct Hp as [Hd Hp]. apply elem_of_cons in Hu as [->|Hu]; [reflexivity|].
    eapply rtc_r; [by apply IH|done].
Qed.

Lemma path_last t ts : path (t :: ts) → root ∈ t :: ts.
Proof.
  revert t. induction ts as [|t' ts IH]; intros t Hp.
  - simpl in Hp. subst. apply list_elem_of_here.
  - right. apply IH, Hp.
Qed.

Lemma managed_inj t u : managed t → managed u → td_id t = td_id u → t = u.
Proof. unfold managed. intros Ht Hu He. rewrite He, Hu in Ht. by simplify_eq. Qed.

Lemma managed_mem t ts : managed t → Forall managed ts → td_id t ∈ td_id <$> ts → t ∈ ts.
Proof.
  intros Ht Hts [u [He Hu]]%list_elem_of_fmap. rewrite Forall_forall in Hts.
  by rewrite (managed_inj t u Ht (Hts u Hu) He).
Qed.

Lemma handled_mono c c' d :
  (∀ k, visited c k → visited c' k) → (∀ d, d ∈ cl_missing c → d ∈ cl_missing c') →
  handled c d → handled c' d.
Proof. intros Hv Hm. unfold handled. destruct (dict_get d todos); auto. Qed.

Lemma closure_ok_init : closure_ok (closure_init root).
Proof.
  split; unfold on_stack, visited; simpl; try done.
  - intros k. case_decide as Hk.
    + split; [intros _; by left|]. by eexists.
    + split; [by intros [? ?]|]. intros [->|Hin]; [done|]. set_solver.
  - intros k v. case_decide; [by intros [= <-]|done].
  - apply NoDup_singleton.
  - set_solver.
  - by repeat constructor.
  - by repeat constructor.
  - intros t i j d [= -> ->]%list_elem_of_singleton Hj. lia.
  - intros t d [Hin|[? _]]; [by apply not_elem_of_nil in Hin|done].
  - intros [|? ?]; done.
  - constructor.
  - intros d Hd. by apply not_elem_of_nil in Hd.
Qed.

(** Leaving the top of the stack, all of whose dependencies were looked at. *)
Lemma closure_ok_pop c t i stack :
  closure_ok c → cl_stack c = (t, i) :: stack → td_deps t !! i = None →
  closure_ok (closure_step todos root c).
Proof.
  intros Hok Hst Hi. unfold closure_step. rewrite Hst, Hi.
  assert (on_stack c = t :: stack.*1) as Hon by (unfold on_stack; by rewrite Hst).
  destruct Hok as [Hpath Hvis Hval Hnd Hroot Hman Hreach Hlook Hclos Hord Hmis Hunm].
  rewrite Hon in *. cbn [app] in *. rewrite fmap_cons in Hvis, Hnd.
  apply NoDup_cons in Hnd as [Htn Hnd]. apply Forall_cons in Hman as [Htm Hman].
  apply Forall_cons in Hreach as [Htr Hreach].
  set (c' := mk_closure _ _ _ _).
  assert (∀ k, visited c k → visited c' k) as Hvm.
  { intros k [v Hv]. unfold visited, c'. cbn [cl_state]. rewrite dict_get_set.
    destruct (decide (k = td_id t)); by eexists. }
  assert (∀ k, visited c' k → k = td_id t ∨ visited c k) as Hvm'.
  { intros k [v Hv]. unfold c' in Hv. cbn [cl_state] in Hv. rewrite dict_get_set in Hv.
    destruct (decide (k = td_id t)); [by left|right; by eexists]. }
  assert (∀ d, d ∈ td_deps t → handled c d) as Ht.
  { intros d [j Hj]%list_elem_of_lookup_1. eapply Hlook; [rewrite Hst; apply list_elem_of_here| |done].
    apply lookup_lt_Some in Hj as Hlt. apply lookup_ge_None in Hi. lia. }
  assert (cl_ordered c' = if decide (td_id t = td_id root) then cl_ordered c else cl_ordered c ++ [t])
    as Ho by done.
  assert (on_stack c' = stack.*1) as Hon' by done.
  assert (t = root → stack = []) as Hbot.
  { intros ->. destruct stack as [|[t' i'] stack]; [done|]. apply path_tail in Hpath.
    destruct Htn. apply list_elem_of_fmap. exists root. split; [done|]. apply elem_of_app. left.
    by apply path_last. }
  assert (∀ s : todo V, s ∈ cl_ordered c' → s = t ∨ s ∈ cl_ordered c) as Hin.
  { intros s. rewrite Ho. case_decide; [auto|]. rewrite elem_of_app, list_elem_of_singleton. tauto. }
  split; rewrite ?Hon'.
  - by eapply path_tail.
  - intros k. split.
    + intros [->|Hk]%Hvm'.
      * case_decide as He; [by left|]. right. rewrite Ho, !fmap_app. set_solver.
      * apply Hvis in Hk as [?|Hk]; [by left|]. rewrite Ho. case_decide as He; set_solver.
    + intros [->|Hk]; [apply Hvm, Hvis; by left|].
      rewrite Ho in Hk. apply Hvm, Hvis. right. case_decide; set_solver.
  - intros k v Hv. unfold c' in Hv. cbn [cl_state] in Hv. rewrite dict_get_set in Hv.
    destruct (decide (k = td_id t)); [injection Hv as <-; done|by eapply Hval].
  - rewrite Ho. case_decide; [done|]. rewrite app_assoc, fmap_app, NoDup_app. split_and!.
    + done.
    + intros x Hx ->%list_elem_of_singleton. done.
    + apply NoDup_singleton.
  - rewrite Ho. case_decide; [done|]. set_solver.
  - rewrite Ho. case_decide; [done|]. rewrite app_assoc. apply Forall_app_2; auto.
  - rewrite Ho. case_decide; [done|]. rewrite app_assoc. apply Forall_app_2; auto.
  - intros s j k d Hs Hk Hd. eapply handled_mono; [exact Hvm|done|].
    eapply Hlook; [rewrite Hst; by right|done|done].
  - intros s d Hs Hd. eapply handled_mono; [exact Hvm|done|].
    destruct Hs as [Hs|[Hs ->]].
    + apply Hin in Hs as [->|Hs]; [auto|]. eapply Hclos; [by left|done].
    + apply Ht. cbn [cl_stack c'] in Hs. subst stack. simpl in Hpath. by subst.
  - intros pre s post u. rewrite Ho. case_decide; [apply Hord|]. intros Hsplit Hu.
    destruct (decide (post = [])) as [->|Hpost].
    + apply app_inj_tail in Hsplit as [<- <-].
      destruct Hu as (d & Hd & Hg). specialize (Ht d Hd). unfold handled in Ht. rewrite Hg in Ht.
      assert (managed u) as Hmu by (unfold managed; by rewrite (ids _ _ Hg)).
      apply Hvis in Ht as [He|Ht].
      * right. by rewrite (managed_inj u root Hmu root_managed He).
      * rewrite <- fmap_cons in Ht. apply managed_mem in Ht; [|done|by constructor].
        apply elem_of_cons in Ht as [->|[Ht|Ht]%elem_of_app]; [by right| |by left].
        right. eapply path_reaches; [exact Hpath|by right].
    + destruct (exists_last Hpost) as (post' & x & ->).
      rewrite app_comm_cons, app_assoc in Hsplit. apply app_inj_tail in Hsplit as [Hs _].
      by eapply Hord.
  - done.
  - done.
Qed.

(** Moving on to the next dependency of the top of the stack: nothing but the
    index and the list of missing dependencies changes. *)
Lemma closure_ok_advance c c' t i stack dep_id :
  closure_ok c → cl_stack c = (t, i) :: stack → td_deps t !! i = Some dep_id →
  cl_ordered c' = cl_ordered c → cl_state c' = cl_state c → cl_stack c' = (t, S i) :: stack →
  (∀ d, d ∈ cl_missing c' ↔ d ∈ cl_missing c ∨ (d = dep_id ∧ dict_get dep_id todos = None)) →
  NoDup (cl_missing c') → handled c' dep_id →
  closure_ok c'.
Proof.
  intros Hok Hst Hi Ho Hs Hst' Hm Hnd' Hh.
  assert (on_stack c' = on_stack c) as Hon by (unfold on_stack; by rewrite Hst, Hst').
  assert (∀ k, visited c' k ↔ visited c k) as Hv by (intros k; unfold visited; by rewrite Hs).
  assert (∀ d, handled c d → handled c' d) as Hhm.
  { intros d. apply handled_mono; [intros k; apply Hv|]. intros d' Hd'. apply Hm. by left. }
  assert (t ∈ on_stack c) as Htin by (unfold on_stack; rewrite Hst; apply list_elem_of_here).
  pose proof (co_reach _ Hok) as Hr. rewrite Forall_forall in Hr.
  destruct Hok. split; rewrite ?Hon, ?Ho, ?Hs; try done.
  - intros k. by rewrite Hv.
  - intros s j k d. rewrite Hst'. intros [Heq|Hin]%elem_of_cons Hk Hd.
    + injection Heq as -> ->. destruct (decide (k = i)) as [->|].
      * by simplify_eq.
      * apply Hhm. eapply (co_looked0 t i k); [rewrite Hst; apply list_elem_of_here|lia|done].
    + apply Hhm. eapply co_looked0; [rewrite Hst; by right|done|done].
  - intros s d [Hs'|[Hs' _]] Hd; [|by rewrite Hst' in Hs']. apply Hhm. eapply co_closed0; [by left|done].
  - intros d [Hd|[-> Hd]]%Hm; [auto|]. split; [done|]. exists t. split.
    + apply Hr, elem_of_app. by left.
    + by eapply list_elem_of_lookup_2.
Qed.

(** Pushing a dependency seen for the first time. *)
Lemma closure_ok_push c t i stack dep_id u :
  closure_ok c → cl_stack c = (t, i) :: stack → td_deps t !! i = Some dep_id →
  dict_get dep_id todos = Some u → ¬ visited c (td_id u) →
  closure_ok (mk_closure (cl_ordered c) (dict_set (td_id u) 1 (cl_state c)) (cl_missing c)
                ((u, 0) :: (t, S i) :: stack)).
Proof.
  intros Hok Hst Hi Hu Hn. set (c' := mk_closure _ _ _ _).
  assert (on_stack c' = u :: on_stack c) as Hon by (unfold on_stack; by rewrite Hst).
  assert (∀ k, visited c' k ↔ k = td_id u ∨ visited c k) as Hv.
  { intros k. unfold visited, c'. cbn [cl_state]. rewrite dict_get_set.
    destruct (decide (k = td_id u)); [|naive_solver]. split; [auto|by eexists]. }
  assert (∀ d, handled c d → handled c' d) as Hhm.
  { intros d. apply handled_mono; [|done]. intros k ?. apply Hv. by right. }
  assert (t ∈ on_stack c) as Htin by (unfold on_stack; rewrite Hst; apply list_elem_of_here).
  assert (managed u) as Hmu by (unfold managed; by rewrite (ids _ _ Hu)).
  assert (dep_of t u) as Hdep by (exists dep_id; split; [by eapply list_elem_of_lookup_2|done]).
  pose proof (co_reach _ Hok) as Hr. rewrite Forall_forall in Hr.
  destruct Hok as [Hpath Hvis Hval Hnd Hroot Hman Hreach Hlook Hclos Hord Hmis Hunm].
  split; rewrite ?Hon; cbn [app cl_ordered cl_missing c'].
  - unfold on_stack in *. rewrite Hst in *. by split.
  - intros k. rewrite Hv, Hvis, fmap_cons. set_solver.
  - intros k v Hk. unfold c' in Hk. cbn [cl_state] in Hk. rewrite dict_get_set in Hk.
    destruct (decide (k = td_id u)); [injection Hk as <-; done|by eapply Hval].
  - rewrite fmap_cons, NoDup_cons. split; [|done]. intros Hin. apply Hn, Hvis. by right.
  - done.
  - by constructor.
  - constructor; [|done]. eapply rtc_r; [|exact Hdep]. apply Hr, elem_of_app. by left.
  - intros s j k d Hs Hk Hd. apply elem_of_cons in Hs as [Heq|Hs]; [injection Heq as -> ->; lia|].
    apply elem_of_cons in Hs as [Heq|Hs].
    + injection Heq as -> ->. destruct (decide (k = i)) as [->|].
      * assert (d = dep_id) as -> by congruence. unfold handled. rewrite Hu. apply Hv. by left.
      * apply Hhm. eapply (Hlook t i k); [rewrite Hst; apply list_elem_of_here|lia|done].
    + apply Hhm. eapply Hlook; [rewrite Hst; by right|done|done].
  - intros s d [Hs|[Hs _]] Hd; [|done]. apply Hhm. eapply Hclos; [by left|done].
  - done.
  - done.
  - done.
Qed.

Lemma closure_ok_step c : closure_ok c → closure_ok (closure_step todos root c).
Proof.
  intros Hok. destruct (cl_stack c) as [|[t i] stack] eqn:Hst; [unfold closure_step; by rewrite Hst|].
  destruct (td_deps t !! i) as [dep_id|] eqn:Hi; [|by eapply closure_ok_pop].
  unfold closure_step. rewrite Hst, Hi. destruct (dict_get dep_id todos) as [u|] eqn:Hu.
  - destruct (dict_get (td_id u) (cl_state c)) as [[|v]|] eqn:Hd; simpl.
    + by apply (co_values _ Hok) in Hd.
    + eapply (closure_ok_advance c); [done..| |apply Hok|].
      * intros d. rewrite Hu. naive_solver.
      * unfold handled. rewrite Hu. unfold visited. cbn [cl_state]. by eexists.
    + eapply closure_ok_push; [done..|]. unfold visited. rewrite Hd. by intros [? ?].
  - eapply (closure_ok_advance c); [done..| | |]; cbn [cl_missing].
    + intros d. case_decide; [set_solver|]. rewrite elem_of_app, list_elem_of_singleton. tauto.
    + case_decide; [apply Hok|]. apply NoDup_app. split_and!; [apply Hok| |apply NoDup_singleton].
      set_solver.
    + unfold handled. rewrite Hu. cbn [cl_missing]. case_decide; [done|]. set_solver.
Qed.

(** ** Termination *)

Definition frame_cost (f : todo V * nat) : nat := S (length (td_deps f.1) - f.2).

Fixpoint stack_cost stack : nat :=
  match stack with
  | [] => 0
  | f :: stack' => frame_cost f + stack_cost stack'
  end.

(** What the todos not visited yet may still cost. *)
Fixpoint rest_cost (d : @dict string (todo V)) c : nat :=
  match d with
  | [] => 0
  | (k, t) :: d' => (if decide (visited c k) then 0 else S (length (td_deps t))) + rest_cost d' c
  end.

Definition closure_measure c : nat :=
  stack_cost (cl_stack c) + rest_cost todos c.

Lemma rest_cost_mono d c c' :
  (∀ k, visited c k → visited c' k) → rest_cost d c' ≤ rest_cost d c.
Proof.
  intros Hv. induction d as [|[k t] d IH]; [done|]. simpl.
  destruct (decide (visited c k)), (decide (visited c' k)); try lia. naive_solver.
Qed.

Lemma rest_cost_ext d c c' : cl_state c' = cl_state c → rest_cost d c' = rest_cost d c.
Proof.
  intros Hs. apply Nat.le_antisymm; apply rest_cost_mono; intros k; unfold visited; by rewrite Hs.
Qed.

Lemma rest_cost_le d c : rest_cost d c ≤ list_sum ((λ kv, S (length (td_deps kv.2))) <$> d).
Proof.
  induction d as [|[k t] d IH]; [done|]. cbn [rest_cost]. rewrite fmap_cons.
  change (list_sum (?x :: ?l)) with (x + list_sum l). destruct (decide _); cbn [snd]; lia.
Qed.

Lemma rest_cost_visit d c c' k u :
  (∀ k, visited c k → visited c' k) → dict_get k d = Some u → ¬ visited c k → visited c' k →
  rest_cost d c' + S (length (td_deps u)) ≤ rest_cost d c.
Proof.
  intros Hv. induction d as [|[k' t] d IH]; [done|]. simpl. intros Hg Hn Hk.
  pose proof (rest_cost_mono d c c' Hv) as Hm.
  destruct (decide (k = k')) as [->|Hne].
  - injection Hg as ->. rewrite decide_True, decide_False by done. lia.
  - specialize (IH Hg Hn Hk).
    destruct (decide (visited c k')), (decide (visited c' k')); try lia. naive_solver.
Qed.

Lemma closure_measure_step c :
  closure_ok c → cl_stack c ≠ [] → closure_measure (closure_step todos root c) < closure_measure c.
Proof.
  intros Hok Hne. unfold closure_measure, closure_step.
  destruct (cl_stack c) as [|[t i] stack] eqn:Hst; [done|]. cbn [stack_cost].
  destruct (td_deps t !! i) as [dep_id|] eqn:Hi.
  - apply lookup_lt_Some in Hi as Hlt.
    assert (length (td_deps t) - S i < length (td_deps t) - i) as Hadv by lia.
    destruct (dict_get dep_id todos) as [u|] eqn:Hu.
    + destruct (dict_get (td_id u) (cl_state c)) as [[|v]|] eqn:Hd;
        cbn [default option_fmap from_option]; cbn [cl_stack stack_cost].
      * by apply (co_values _ Hok) in Hd.
      * simpl. rewrite (rest_cost_ext todos c (mk_closure _ _ _ _)) by done. lia.
      * simpl. match goal with |- context [rest_cost _ ?x] => set (c' := x) end.
        assert (rest_cost todos c' + S (length (td_deps u)) ≤ rest_cost todos c).
        { apply (rest_cost_visit _ _ _ (td_id u)).
          - intros k [w Hw]. unfold visited, c'. cbn [cl_state]. rewrite dict_get_set.
            destruct (decide (k = td_id u)); by eexists.
          - by rewrite (ids _ _ Hu).
          - unfold visited. rewrite Hd. by intros [? ?].
          - unfold visited, c'. cbn [cl_state]. rewrite dict_get_set_eq. by eexists. }
        lia.
    + simpl. rewrite (rest_cost_ext todos c (mk_closure _ _ _ _)) by done. lia.
  - cbn [cl_stack].
    match goal with |- context [rest_cost _ ?x] => set (c' := x) end.
    assert (rest_cost todos c' ≤ rest_cost todos c).
    { apply rest_cost_mono. intros k [w Hw]. unfold visited, c'. cbn [cl_state]. rewrite dict_get_set.
      destruct (decide (k = td_id t)); by eexists. }
    assert (0 < frame_cost (t, i)) by (unfold frame_cost; lia). lia.
Qed.

Lemma closure_loop_runs fuel c :
  closure_ok c → closure_measure c ≤ fuel →
  ∃ c', closure_loop fuel todos root c = Some c' ∧ closure_ok c' ∧ cl_stack c' = [].
Proof.
  revert c. induction fuel as [|fuel IH]; intros c Hok Hm.
  - exists c. assert (cl_stack c = []) as Hs.
    { destruct (cl_stack c) as [|f stack] eqn:Hs; [done|]. unfold closure_measure in Hm.
      rewrite Hs in Hm. cbn [stack_cost] in Hm. unfold frame_cost in Hm. lia. }
    simpl. by rewrite Hs.
  - simpl. destruct (cl_stack c) as [|f stack] eqn:Hs; [by exists c|].
    apply IH; [by apply closure_ok_step|].
    assert (cl_stack c ≠ []) as Hne by (by rewrite Hs).
    pose proof (closure_measure_step c Hok Hne). lia.
Qed.

Lemma closure_measure_init : closure_measure (closure_init root) ≤ closure_fuel todos root.
Proof.
  unfold closure_measure, closure_fuel. pose proof (rest_cost_le todos (closure_init root)).
  simpl. unfold frame_cost. simpl. lia.
Qed.
End TodoClosure.

(** C40.  The dependency walk of the status card terminates, and returns every
    managed todo the root transitively depends on, once and without the root,
    each after those of its dependencies that do not depend on it in turn, and
    exactly the unmanaged identifiers these todos name. *)
Theorem dependency_closure_spec {V} `{EqDecision V} (m : todo_manager V) (root : todo V) :
  todo_ok m → dict_get (td_id root) (tm_todos m) = Some root →
  ∃ ordered missing, dependency_closure root m = Some (ordered, missing) ∧
    NoDup ordered ∧ NoDup missing ∧
    (∀ t, t ∈ ordered ↔ rtc (dep_of (tm_todos m)) root t ∧ t ≠ root) ∧
    (∀ pre t post u, ordered = pre ++ t :: post → dep_of (tm_todos m) t u →
       u ∈ pre ∨ rtc (dep_of (tm_todos m)) u t) ∧
    (∀ d, d ∈ missing ↔ dict_get d (tm_todos m) = None ∧
       ∃ t, rtc (dep_of (tm_todos m)) root t ∧ d ∈ td_deps t).
Proof.
  intros Hok Hroot. pose proof (tok_id _ Hok) as Hids. unfold dependency_closure.
  destruct (closure_loop_runs (tm_todos m) root Hids Hroot (closure_fuel (tm_todos m) root)
              (closure_init root)) as (c & -> & Hc & Hst).
  { by apply closure_ok_init. }
  { apply closure_measure_init. }
  destruct Hc as [_ Hvis _ Hnd Hnroot Hman Hreach _ Hclos Hord Hmis Hunm].
  unfold on_stack in *. rewrite Hst in *. cbn [fmap list_fmap app] in *.
  rewrite Forall_forall in Hman, Hreach.
  assert (∀ t, rtc (dep_of (tm_todos m)) root t → t = root ∨ t ∈ cl_ordered c) as Hall.
  { apply (rtc_ind_r (λ t, t = root ∨ t ∈ cl_ordered c)); [by left|]. intros s u Hrs Hdep IH.
    destruct Hdep as (d & Hd & Hg).
    assert (handled (tm_todos m) c d) as Hh by (eapply (Hclos s); [naive_solver|done]).
    assert (managed (tm_todos m) u) as Hmu by (unfold managed; by rewrite (Hids _ _ Hg)).
    unfold handled in Hh. rewrite Hg in Hh. apply Hvis in Hh as [He|Hin].
    - left. by eapply managed_inj.
    - right. eapply managed_mem; [done| |done]. by apply Forall_forall. }
  exists (cl_ordered c), (cl_missing c). split_and!; try done.
  - by eapply NoDup_fmap_1.
  - intros t. split.
    + intros Ht. split; [auto|]. intros ->. apply Hnroot, list_elem_of_fmap. eauto.
    + intros [Ht Hne]. by destruct (Hall t Ht).
  - intros d. split; [apply Hunm|]. intros (Hn & t & Ht & Hd).
    assert (handled (tm_todos m) c d) as Hh.
    { eapply (Hclos t); [|done]. destruct (Hall t Ht); auto. }
    unfold handled in Hh. by rewrite Hn in Hh.
Qed.
