(* ===== verification/TodoMerge.v ===== *)
(** * TodoMerge: delegated work and snapshots

    The three-way merge of [merge_todo] against its specification (a field is
    taken from the side that changed it, a change on both sides to different
    values is a conflict), and the round trip of [to_dict] and [from_dict].
    Then the theorems of the todo files at a concrete workspace. *)

From S2P Require Import Prelude PyDict PyText Todo TodoRuns TodoClosure.
From stdpp Require Import relations.

#[local] Open Scope nooa_scope.

(** ** The specification of the merge *)

Definition no_conflict {A} (before after existing : A) : Prop :=
  after = before ∨ existing = before ∨ existing = after.

(** The merged value of a field. *)
Definition merged {A} `{EqDecision A} (before after existing : A) : A :=
  if decide (after = before) then existing else after.

Lemma merge_field_spec {A} `{EqDecision A} (before after existing : A) :
  match merge_field before after existing with
  | Ok v => no_conflict before after existing ∧ v = merged before after existing
  | Raise e => e = ValueError ∧ ¬ no_conflict before after existing
  end.
Proof.
  unfold merge_field, merged, no_conflict. destruct (decide (after = before)); [tauto|].
  destruct (decide (existing = before)), (decide (existing = after));
    (destruct (decide (existing ≠ before ∧ existing ≠ after)); tauto).
Qed.

Section TodoMerge.
Context {V : Type} `{EqDecision V}.
Context (serializable : V → bool).
Implicit Types (t : todo V) (m : todo_manager V).

Lemma merge_vars_raise keys before after current e :
  foldl (λ acc k, merge_var serializable before after current k acc) (Raise e) keys = Raise e.
Proof. induction keys; simpl; auto. Qed.

Lemma merge_vars_go keys before after current cand :
  (∀ k v, dict_get k after = Some v → serializable v = true) → NoDup keys → dict_wf cand →
  match foldl (λ acc k, merge_var serializable before after current k acc) (Ok cand) keys with
  | Ok d => (∀ k, k ∈ keys → no_conflict (dict_get k before) (dict_get k after) (dict_get k current)) ∧
      dict_wf d ∧ ∀ k, dict_get k d =
        if decide (k ∈ keys ∧ dict_get k after ≠ dict_get k before)
        then dict_get k after else dict_get k cand
  | Raise e => e = ValueError ∧
      ∃ k, k ∈ keys ∧ ¬ no_conflict (dict_get k before) (dict_get k after) (dict_get k current)
  end.
Proof.
  intros Hser. revert cand. induction keys as [|key keys IH]; intros cand Hnd Hwf; cbn [foldl].
  { split_and!; [by intros k ?%not_elem_of_nil|done|]. intros k. rewrite decide_False; [done|].
    intros [?%not_elem_of_nil _]. done. }
  apply NoDup_cons in Hnd as [Hkey Hnd]. unfold merge_var at 2. cbn [result_bind].
  assert (∀ cand', dict_wf cand' →
    no_conflict (dict_get key before) (dict_get key after) (dict_get key current) →
    (∀ k, dict_get k cand' = if decide (k = key ∧ dict_get k after ≠ dict_get k before)
       then dict_get k after else dict_get k cand) →
    match foldl (λ acc k, merge_var serializable before after current k acc) (Ok cand') keys with
    | Ok d => (∀ k, k ∈ key :: keys → no_conflict (dict_get k before) (dict_get k after) (dict_get k current)) ∧
        dict_wf d ∧ ∀ k, dict_get k d =
          if decide (k ∈ key :: keys ∧ dict_get k after ≠ dict_get k before)
          then dict_get k after else dict_get k cand
    | Raise e => e = ValueError ∧ ∃ k, k ∈ key :: keys ∧
        ¬ no_conflict (dict_get k before) (dict_get k after) (dict_get k current)
    end) as Hstep.
  { intros cand' Hwf' Hnc Hc. specialize (IH cand' Hnd Hwf').
    destruct (foldl _ (Ok cand') keys) as [d|e].
    - destruct IH as (H1 & H2 & H3). split_and!; [|done|].
      + intros k [->|Hk]%elem_of_cons; auto.
      + intros k. rewrite H3, Hc. repeat case_decide; set_solver.
    - destruct IH as (-> & k & Hk & Hn). split; [done|]. exists k. by split; [right|]. }
  case_decide as Heq.
  { apply Hstep; [done|by left|]. intros k. rewrite decide_False; [done|]. by intros [-> ?]. }
  case_decide as Hcf.
  { rewrite merge_vars_raise. split; [done|]. exists key. split; [apply list_elem_of_here|].
    unfold no_conflict. tauto. }
  assert (no_conflict (dict_get key before) (dict_get key after) (dict_get key current)) as Hnc.
  { unfold no_conflict. destruct (decide (dict_get key current = dict_get key before)); [tauto|].
    destruct (decide (dict_get key current = dict_get key after)); tauto. }
  destruct (dict_get key after) as [v|] eqn:Ha.
  - unfold vars_set. rewrite (Hser key v Ha). apply Hstep; [by apply dict_wf_set|done|].
    intros k. rewrite dict_get_set. destruct (decide (k = key)) as [->|Hk].
    + by rewrite decide_True by (rewrite Ha; done).
    + by rewrite decide_False by tauto.
  - apply Hstep; [by apply dict_wf_del|done|].
    intros k. rewrite dict_get_del by done. destruct (decide (k = key)) as [->|Hk].
    + by rewrite decide_True by (rewrite Ha; done).
    + by rewrite decide_False by tauto.
Qed.

(** When a merge has no conflict. *)
Record mergeable (updated base current : todo V) m : Prop := {
  mb_title : no_conflict (td_title base) (td_title updated) (td_title current);
  mb_status : no_conflict (td_status base) (td_status updated) (td_status current);
  mb_deps : no_conflict (td_deps base) (td_deps updated) (td_deps current);
  mb_description : no_conflict (td_description base) (td_description updated) (td_description current);
  mb_vars : ∀ k, no_conflict (dict_get k (td_vars base)) (dict_get k (td_vars updated))
                   (dict_get k (td_vars current));
  mb_comments : td_comments base `prefix_of` td_comments updated ∧
                td_comments base `prefix_of` td_comments current;
  mb_known : ∀ d, d ∈ td_deps updated → d ∈ td_deps base ∨ d ∈ dict_keys (tm_todos m)
}.

(** What the merged todo holds. *)
Record merge_result (updated base current t : todo V) : Prop := {
  mr_id : td_id t = td_id current;
  mr_title : td_title t = merged (td_title base) (td_title updated) (td_title current);
  mr_status : td_status t = merged (td_status base) (td_status updated) (td_status current);
  mr_deps : td_deps t = merged (td_deps base) (td_deps updated) (td_deps current);
  mr_description :
    td_description t = merged (td_description base) (td_description updated) (td_description current);
  mr_vars : ∀ k, dict_get k (td_vars t) =
    merged (dict_get k (td_vars base)) (dict_get k (td_vars updated)) (dict_get k (td_vars current));
  mr_comments : td_comments current `prefix_of` td_comments t;
  mr_new : ∀ c, c ∈ td_comments updated → cm_id c ∈ cm_id <$> td_comments t;
  mr_once : NoDup (cm_id <$> td_comments current) → NoDup (cm_id <$> td_comments t)
}.

Lemma take_prefix {A} (l k : list A) : take (length l) k = l ↔ l `prefix_of` k.
Proof.
  split.
  - intros Ht. exists (drop (length l) k). rewrite <- Ht at 1. symmetry. apply take_drop.
  - intros [r ->]. apply take_app_length.
Qed.

Lemma append_comments_spec new cs :
  cs `prefix_of` append_comments new cs ∧
  (∀ c, c ∈ new → cm_id c ∈ cm_id <$> append_comments new cs) ∧
  (NoDup (cm_id <$> cs) → NoDup (cm_id <$> append_comments new cs)).
Proof.
  revert cs. induction new as [|c new IH]; intros cs.
  { split_and!; [done|by intros c ?%not_elem_of_nil|done]. }
  change (append_comments (c :: new) cs) with
    (append_comments new (if decide (cm_id c ∈ (cm_id <$> cs)) then cs else cs ++ [c])).
  case_decide as Hc; [destruct (IH cs) as (H1 & H2 & H3)|destruct (IH (cs ++ [c])) as (H1 & H2 & H3)].
  - split_and!; [done| |done]. intros c' [->|Hc']%elem_of_cons; [|auto].
    destruct H1 as [r ->]. rewrite fmap_app. apply elem_of_app. by left.
  - split_and!.
    + etrans; [|exact H1]. by apply prefix_app_r.
    + intros c' [->|Hc']%elem_of_cons; [|auto]. destruct H1 as [r ->].
      rewrite !fmap_app. set_solver.
    + intros Hnd. apply H3. rewrite fmap_app, NoDup_app. split_and!; [done|set_solver|apply NoDup_singleton].
Qed.

Lemma existsb_unknown (deps known : list string) m :
  existsb (λ d, negb (bool_decide (d ∈ known)) && negb (dict_mem d (tm_todos m))) deps = false ↔
  ∀ d, d ∈ deps → d ∈ known ∨ d ∈ dict_keys (tm_todos m).
Proof.
  rewrite <- not_true_iff_false, existsb_exists. split.
  - intros Hn d Hd. destruct (decide (d ∈ known)) as [|Hk]; [by left|].
    destruct (decide (d ∈ dict_keys (tm_todos m))) as [|Hm]; [by right|]. destruct Hn.
    exists d. rewrite <- list_elem_of_In. split; [done|].
    apply dict_mem_false in Hm. rewrite Hm. by rewrite bool_decide_eq_false_2.
  - intros Hd (x & Hx & Hf). rewrite <- list_elem_of_In in Hx. apply andb_true_iff in Hf as [H1 H2].
    bool_prop. apply dict_mem_false in H2. by destruct (Hd x Hx).
Qed.

Lemma merge_candidate_spec keys updated base current m :
  NoDup keys →
  (∀ k, k ∈ keys ↔ k ∈ dict_keys (td_vars base) ∨ k ∈ dict_keys (td_vars updated)) →
  (∀ k v, dict_get k (td_vars updated) = Some v → serializable v = true) →
  dict_wf (td_vars current) →
  match merge_candidate serializable keys updated base current m with
  | Ok t => mergeable updated base current m ∧ merge_result updated base current t
  | Raise e => e = ValueError ∧ ¬ mergeable updated base current m
  end.
Proof.
  intros Hnd Hkeys Hser Hwf. unfold merge_candidate.
  destruct (existsb _ (td_deps updated)) eqn:Hx.
  { split; [done|]. intros [_ _ _ _ _ _ Hk]. rewrite <- existsb_unknown in Hk. congruence. }
  rewrite existsb_unknown in Hx.
  pose proof (merge_field_spec (td_title base) (td_title updated) (td_title current)) as Ht.
  pose proof (merge_field_spec (td_status base) (td_status updated) (td_status current)) as Hs.
  pose proof (merge_field_spec (td_deps base) (td_deps updated) (td_deps current)) as Hd.
  pose proof (merge_field_spec (td_description base) (td_description updated) (td_description current)) as Hde.
  destruct (merge_field (td_title base) _ _) as [title|]; simpl; [|split; [tauto|intros []; tauto]].
  destruct (merge_field (td_status base) _ _) as [status|]; simpl; [|split; [tauto|intros []; tauto]].
  destruct (merge_field (td_deps base) _ _) as [deps|]; simpl; [|split; [tauto|intros []; tauto]].
  destruct (merge_field (td_description base) _ _) as [desc|]; simpl; [|split; [tauto|intros []; tauto]].
  pose proof (merge_vars_go keys (td_vars base) (td_vars updated) (td_vars current) (td_vars current)
                Hser Hnd Hwf) as Hv. unfold merge_vars.
  destruct (foldl _ (Ok (td_vars current)) keys) as [vars|]; simpl.
  2:{ destruct Hv as (-> & k & _ & Hn). split; [done|]. intros []. auto. }
  destruct Hv as (Hv1 & _ & Hv2).
  assert (∀ k, k ∉ keys → dict_get k (td_vars updated) = dict_get k (td_vars base)) as Hout.
  { intros k Hk. rewrite Hkeys in Hk.
    assert (dict_get k (td_vars base) = None) as -> by (apply dict_get_None; tauto).
    apply dict_get_None; tauto. }
  unfold merge_comments. case_decide as Hc1; simpl.
  { split; [done|]. intros []. apply Hc1, take_prefix. tauto. }
  case_decide as Hc2; simpl.
  { split; [done|]. intros []. apply Hc2, take_prefix. tauto. }
  assert (td_comments base `prefix_of` td_comments updated) as Hp1 by by apply take_prefix.
  assert (td_comments base `prefix_of` td_comments current) as Hp2 by by apply take_prefix.
  destruct (append_comments_spec (drop (length (td_comments base)) (td_comments updated))
              (td_comments current)) as (A1 & A2 & A3).
  split.
  - split; try tauto. intros k. destruct (decide (k ∈ keys)); [auto|]. left. auto.
  - split; simpl; try tauto.
    + intros k. rewrite Hv2. unfold merged. destruct (decide (k ∈ keys)) as [Hk|Hk].
      * repeat case_decide; tauto.
      * rewrite (Hout k Hk). repeat case_decide; tauto.
    + intros c Hc. rewrite <- (take_drop (length (td_comments base)) (td_comments updated)) in Hc.
      apply elem_of_app in Hc as [Hc|Hc]; [|auto]. rewrite Hc1 in Hc.
      destruct A1 as [r1 ->]. destruct Hp2 as [r2 ->]. rewrite !fmap_app, !elem_of_app.
      left. left. apply list_elem_of_fmap. eauto.
Qed.

Lemma commit_candidate (c t : todo V) :
  td_id c = td_id t → td_created_at c = td_created_at t →
  foldl (λ t k, copy_field c k t) t
    ["title"; "status"; "deps"; "description"; "vars"; "comments"]%string = c.
Proof. destruct c, t. simpl. by intros -> ->. Qed.

Lemma merge_candidate_frame keys updated base current m t :
  merge_candidate serializable keys updated base current m = Ok t →
  td_id t = td_id current ∧ td_created_at t = td_created_at current.
Proof.
  unfold merge_candidate. case_match; [done|].
  repeat match goal with |- context [result_bind ?r _] => destruct r; simpl; try done end.
  by intros [= <-].
Qed.

(** Merging a delegated todo succeeds exactly when no field, variable or
    comment was changed on both sides in different ways and the new
    dependencies are known; then every field holds the value of the side that
    changed it, the parent's comments come first and the worker's are added
    once, no other todo changes, and the selection is dropped if it became
    done. *)
Theorem merge_todo_spec keys updated base current m :
  todo_ok m → dict_get (td_id updated) (tm_todos m) = Some current → td_id updated = td_id base →
  NoDup keys →
  (∀ k, k ∈ keys ↔ k ∈ dict_keys (td_vars base) ∨ k ∈ dict_keys (td_vars updated)) →
  (∀ k v, dict_get k (td_vars updated) = Some v → serializable v = true) →
  dict_wf (td_vars current) →
  match merge_todo serializable keys updated base m with
  | Ok (t, m') =>
      mergeable updated base current m ∧ merge_result updated base current t ∧
      (∀ k, dict_get k (tm_todos m') =
         if decide (k = td_id updated) then Some t else dict_get k (tm_todos m)) ∧
      tm_active m' = (if decide (td_status t = StDone ∧ tm_active m = Some (td_id updated))
                      then None else tm_active m)
  | Raise e => e = ValueError ∧ ¬ mergeable updated base current m
  end.
Proof.
  intros Hok Hcur Hid Hnd Hkeys Hser Hwf. unfold merge_todo.
  rewrite bool_decide_eq_true_2 by done. cbn [negb]. rewrite Hcur.
  pose proof (merge_candidate_spec keys updated base current m Hnd Hkeys Hser Hwf) as Hspec.
  destruct (merge_candidate serializable keys updated base current m) as [t|e] eqn:Hc;
    cbn [result_bind]; [|done].
  destruct (merge_candidate_frame _ _ _ _ _ _ Hc) as [Hti Htc].
  rewrite (commit_candidate t current) by done.
  pose proof (tok_id _ Hok _ _ Hcur) as Hci. destruct Hspec as [Hm Hr].
  set (m1 := on_todo (td_id updated) _ m).
  assert (tm_active m1 = tm_active m) as Hact by (unfold m1, on_todo; by rewrite Hcur).
  split_and!; [done|done| |].
  - intros k. assert (tm_todos (drop_active_if t m1) = tm_todos m1) as ->
      by (unfold drop_active_if; by case_decide).
    unfold m1. rewrite dict_get_on_todo. case_decide as Hk; [|done].
    rewrite Hk, Hcur. cbn [fmap option_fmap option_map]. by rewrite (commit_candidate t current).
  - unfold drop_active_if. rewrite Hact, Hti, Hci.
    destruct (decide (td_status t = StDone ∧ Some (td_id updated) = tm_active m)) as [[H1 H2]|Hn].
    + by rewrite decide_True by done.
    + rewrite decide_False; [done|]. intros [H1 H2]. by destruct Hn.
Qed.

(** ** Snapshots *)

Lemma dict_set_same k v (d : @dict string V) : dict_get k d = Some v → dict_set k v d = d.
Proof.
  induction d as [|[k' v'] d IH]; simpl; [done|]. case_decide; [by intros [= ->]|].
  intros Hg. by rewrite IH.
Qed.

Definition status_str (s : todo_status) : string :=
  match s with StOpen => "open" | StDone => "done" end.

Section Roundtrip.
Context (v_str : string → V).
Context (validate_dict : @dict string V → result (todo V)) (validate_obj : V → result (todo V)).
Context (model_dump : todo V → @dict string V).

(** What pydantic promises for a todo: the dump shows its status, has no
    legacy field, and validates to the todo it was made from. *)
Record dumps t : Prop := {
  dump_status : dict_get "status"%string (model_dump t) = Some (v_str (status_str (td_status t)));
  dump_notes : dict_get "notes"%string (model_dump t) = None;
  dump_valid : validate_dict (model_dump t) = Ok t
}.

Lemma restore_dump t :
  v_str "open" ≠ v_str "done" → dumps t → restore_snapshot v_str validate_dict (model_dump t) = Ok t.
Proof.
  intros Hne [Hs Hn Hv]. unfold restore_snapshot. rewrite Hn, Hs.
  destruct (td_status t); simpl in *.
  - rewrite decide_False by congruence. by rewrite dict_set_same.
  - rewrite decide_True by done. by rewrite dict_set_same.
Qed.

Lemma load_dumped (d acc : @dict string (todo V)) ord :
  v_str "open" ≠ v_str "done" →
  (∀ k t, (k, t) ∈ d → td_id t = k ∧ dumps t) → NoDup (dict_keys (acc ++ d)) →
  foldl (λ r raw,
    let! p := r in
    let! t := restore_todo v_str validate_dict validate_obj raw in
    if dict_mem (td_id t) p.1 then Raise ValueError
    else Ok (dict_set (td_id t) t p.1, (p.2 ++ [td_id t])%list)) (Ok (acc, ord))
    ((λ t, RawDict (model_dump t)) <$> dict_values d) = Ok (acc ++ d, ord ++ dict_keys d).
Proof.
  intros Hne. revert acc ord. induction d as [|[k t] d IH]; intros acc ord Hd Hnd.
  { simpl. by rewrite !app_nil_r. }
  destruct (Hd k t) as [Hk Hdump]; [apply list_elem_of_here|].
  cbn [dict_values fmap list_fmap foldl snd result_bind restore_todo].
  rewrite restore_dump by done. cbn [result_bind fst snd]. rewrite Hk.
  assert (k ∉ dict_keys acc) as Hn.
  { unfold dict_keys in *. rewrite fmap_app, NoDup_app in Hnd. destruct Hnd as (_ & Hnd & _).
    intros Hin. by destruct (Hnd k Hin); left. }
  assert (dict_mem k acc = false) as -> by by apply dict_mem_false.
  rewrite dict_set_absent by done. etrans; [apply IH|].
  - intros k' t' Hin. apply Hd. by right.
  - by rewrite <- app_assoc.
  - by rewrite <- !app_assoc.
Qed.

(** Loading what [to_dict] returns, into a fresh manager or any other,
    gives back the workspace it saved: the same todos in the same order, and
    the active todo unless it is gone or done. *)
Theorem snapshot_roundtrip m :
  todo_ok m → v_str "open" ≠ v_str "done" →
  (∀ t, t ∈ in_order m → dumps t) →
  from_dict v_str validate_dict validate_obj (to_dict model_dump m).1 = Ok (to_dict model_dump m).2 ∧
  in_order (to_dict model_dump m).2 = in_order m ∧
  tm_active (to_dict model_dump m).2 = td_id <$> (active m).1.
Proof.
  intros Hok Hne Hdumps. unfold to_dict. cbn [fst snd].
  assert (todo_ok (active m).2 ∧ tm_todos (active m).2 = tm_todos m) as [Hok' Htodos].
  { destruct (active_inv m) as [-> | ->]; [done|]. split; [by apply todo_ok_forget|done]. }
  assert (in_order (active m).2 = in_order m) as Hin
    by (rewrite !in_order_values by done; by rewrite Htodos).
  assert (∀ k t, (k, t) ∈ tm_todos m → td_id t = k ∧ dumps t) as Hd.
  { intros k t Hkt. apply dict_get_elem in Hkt; [|apply Hok].
    pose proof (tok_id _ Hok _ _ Hkt) as <-. split; [done|]. apply Hdumps. by apply elem_of_in_order. }
  split_and!; [|done|].
  - unfold from_dict, load_todos. cbn [sn_todos sn_active]. rewrite Hin, in_order_values by done.
    rewrite load_dumped by (done || apply Hok). cbn [result_bind fst snd app].
    rewrite <- Htodos, <- (tok_order _ Hok').
    destruct (active m) as [o m'] eqn:Ha. cbn [snd] in *.
    assert (match tm_active m' with
            | Some a => match dict_get a (tm_todos m') with
                        | Some t => if decide (td_status t = StDone) then None else Some a
                        | None => None end
            | None => None end = tm_active m') as ->; [|by destruct m'].
    unfold active in Ha. destruct (tm_active m) as [a|] eqn:Hma; [|by simplify_eq; rewrite Hma].
    destruct (dict_get a (tm_todos m)) as [t|] eqn:Hg; [|by simplify_eq].
    case_decide; simplify_eq; [done|]. by rewrite Hma, Hg, decide_False.
  - unfold active. destruct (tm_active m) as [a|] eqn:Hma; [|done].
    destruct (dict_get a (tm_todos m)) as [t|] eqn:Hg; [|done]. case_decide; [done|].
    cbn [fst snd fmap option_fmap option_map]. rewrite Hma. by rewrite (tok_id _ Hok _ _ Hg).
Qed.
End Roundtrip.
End TodoMerge.

(** ** The todo theorems at a concrete workspace

    Three todos, the second depending on the first, the third on the second
    and on an unknown identifier; the theorems of [TodoRuns], [TodoClosure]
    and [TodoMerge] applied to it. *)

#[local] Open Scope string_scope.

(** Values are strings; every value can be saved. *)
Definition demo_serializable (_ : string) : bool := true.
Definition demo_text (s : string) : option text := Some (lit s).
Definition demo_status (s : string) : option todo_status :=
  if decide (s = "done") then Some StDone else if decide (s = "open") then Some StOpen else None.

Definition demo_ops : list (@todo_op string) :=
  [OpAdd "a" "t0" (lit "explore") [] [] None [];
   OpAdd "b" "t1" (lit "fix") [RefTodo "a"] [] (Some "later") [("k", "1")];
   OpAdd "c" "t2" (lit "ship") [RefId "b"; RefId "x"] [] None [];
   OpActivate (RefId "c");
   OpDone (RefId "a")].

Definition demo_tm : todo_manager string :=
  Eval vm_compute in
    foldl (λ m op, todo_apply demo_serializable demo_text demo_status op m) new_todo_manager demo_ops.

Lemma demo_tm_run : steps (todo_step demo_serializable demo_text demo_status) new_todo_manager demo_ops demo_tm.
Proof.
  apply (steps_foldl _ (λ m op, todo_apply demo_serializable demo_text demo_status op m)).
  unfold demo_ops. cbn [computes]. split_and!; try done; (split; [|reflexivity]).
  all: intros ??????? Heq; inversion Heq; subst; clear Heq; apply (bool_decide_unpack _); vm_compute; exact I.
Qed.

Lemma demo_tm_ok : todo_ok demo_tm.
Proof. apply (todo_reachable_ok demo_serializable demo_text demo_status). exists demo_ops. exact demo_tm_run. Qed.

Lemma todo_workspace_invariant_witness :
  td_id <$> in_order demo_tm `sublist_of` ["a"; "b"; "c"] ∧
  NoDup (td_id <$> in_order demo_tm) ∧
  match active demo_tm with
  | (Some t, m') => m' = demo_tm ∧ t ∈ in_order demo_tm ∧ td_status t = StOpen ∧
                    tm_active demo_tm = Some (td_id t)
  | (None, m') => tm_active m' = None ∧ in_order m' = in_order demo_tm
  end.
Proof.
  destruct (todo_workspace_invariant demo_serializable demo_text demo_status demo_ops demo_tm demo_tm_run)
    as (H0 & H1 & _ & H3).
  exact (conj H0 (conj H1 H3)).
Defined.

Definition demo_at (id : string) : todo string :=
  default (mk_todo "" [] StOpen [] [] "" [] []) (dict_get id (tm_todos demo_tm)).

Lemma complete_unblocks_witness : ∃ m',
  todo_done (RefId "b") demo_tm = Ok (Some (td_with_status StDone (demo_at "b")), m') ∧
  tm_active m' = Some "c".
Proof.
  destruct (complete_unblocks demo_tm "b" (demo_at "b") demo_tm_ok eq_refl) as (m' & H1 & _ & H3 & _).
  exists m'. split; [exact H1|rewrite H3; vm_compute; reflexivity].
Defined.

Lemma clear_done_spec_witness :
  let '(n, m') := clear_done demo_tm in n = 1 ∧ tm_order m' = ["b"; "c"].
Proof.
  pose proof (clear_done_spec demo_tm demo_tm_ok) as H.
  destruct (clear_done demo_tm) as [n m'] eqn:Hc. destruct H as (H1 & _ & H3 & _).
  split; [rewrite H1; vm_compute; reflexivity|rewrite H3; vm_compute; reflexivity].
Defined.

Lemma remove_spec_witness : ∃ b m',
  todo_remove (RefId "b") demo_tm = Ok (b, m') ∧ dict_get "b" (tm_todos m') = None ∧
  (b = true ↔ "b" ∈ tm_order demo_tm).
Proof.
  destruct (remove_spec demo_tm "b" demo_tm_ok) as (b & m' & H1 & H2 & _ & _ & H5 & _).
  exists b, m'. exact (conj H1 (conj H5 H2)).
Defined.

Lemma dependency_closure_spec_witness : ∃ ordered missing,
  dependency_closure (demo_at "c") demo_tm = Some (ordered, missing) ∧ NoDup ordered ∧
  (∀ t, t ∈ ordered ↔ rtc (dep_of (tm_todos demo_tm)) (demo_at "c") t ∧ t ≠ demo_at "c").
Proof.
  destruct (dependency_closure_spec demo_tm (demo_at "c") demo_tm_ok eq_refl)
    as (o & ms & H1 & H2 & _ & H4 & _).
  exists o, ms. exact (conj H1 (conj H2 H4)).
Defined.

Example dependency_closure_demo :
  option_map (λ p : list (todo string) * list string, (td_id <$> p.1, p.2))
    (dependency_closure (demo_at "c") demo_tm) = Some (["a"; "b"], ["x"]).
Proof. vm_compute. reflexivity. Qed.

(** The worker finished the todo and set a variable; the parent commented. *)
Definition demo_updated : todo string :=
  td_with_vars [("k", "2")] (td_with_status StDone (demo_at "b")).
Definition demo_parent : todo_manager string :=
  on_todo "b" (td_with_comments [mk_comment "c1" (lit "started") "t3"]) demo_tm.
Definition demo_current : todo string :=
  td_with_comments [mk_comment "c1" (lit "started") "t3"] (demo_at "b").

Lemma merge_todo_spec_witness :
  match merge_todo demo_serializable ["k"] demo_updated (demo_at "b") demo_parent with
  | Ok (t, _) => merge_result demo_updated (demo_at "b") demo_current t
  | Raise _ => False
  end.
Proof.
  assert (todo_ok demo_parent) as Hok by (apply todo_ok_on_todo; [reflexivity|exact demo_tm_ok]).
  pose proof (merge_todo_spec demo_serializable ["k"] demo_updated (demo_at "b") demo_current demo_parent
    Hok eq_refl eq_refl) as H.
  destruct (merge_todo demo_serializable ["k"] demo_updated (demo_at "b") demo_parent) as [[t m']|e] eqn:Hm.
  - apply H.
    + apply (bool_decide_unpack _). vm_compute. exact I.
    + intros k. assert (dict_keys (td_vars (demo_at "b")) = ["k"]) as -> by reflexivity.
      assert (dict_keys (td_vars demo_updated) = ["k"]) as -> by reflexivity. tauto.
    + reflexivity.
    + apply (bool_decide_unpack _). vm_compute. exact I.
  - vm_compute in Hm. discriminate.
Defined.

(** A dump that keeps what the demo todos differ in. *)
Definition demo_dump (t : todo string) : @dict string string :=
  [("id", td_id t); ("status", status_str (td_status t)); ("title", "")].
Definition demo_validate (d : @dict string string) : result (todo string) :=
  match dict_get "id" d with
  | Some id => match dict_get id (tm_todos demo_tm) with Some t => Ok t | None => Raise ValueError end
  | None => Raise ValueError
  end.

Lemma snapshot_roundtrip_witness :
  from_dict id demo_validate (λ _, Raise ValueError) (to_dict demo_dump demo_tm).1 =
    Ok (to_dict demo_dump demo_tm).2 ∧
  tm_active (to_dict demo_dump demo_tm).2 = Some "c".
Proof.
  destruct (snapshot_roundtrip id demo_validate (λ _, Raise ValueError) demo_dump demo_tm demo_tm_ok)
    as (H1 & _ & H3).
  - discriminate.
  - intros t Ht. assert (in_order demo_tm = [demo_at "a"; demo_at "b"; demo_at "c"]) as He
      by (vm_compute; reflexivity).
    rewrite He in Ht. rewrite !elem_of_cons in Ht.
    destruct Ht as [-> |[-> |[-> |Ht]]]; [split; vm_compute; reflexivity..|].
    apply not_elem_of_nil in Ht. destruct Ht.
  - split; [exact H1|rewrite H3; vm_compute; reflexivity].
Defined.
