(* ===== verification/LoopGuard.v ===== *)
(** * LoopGuard: repeated tool calls are warned about, then stopped

    Models [strategies/loop_guard.py] ([LoopGuard.before] and [after]) and
    how the CodeAct strategy drives it for each tool call
    ([strategies/codeact.py]).  An action is the fingerprint of a call, an
    outcome the text it produced; both are compared only. *)

From S2P Require Import Prelude PyDict.

(** [LoopGuardConfig]: pydantic enforces the bounds [loop_config_ok]. *)
Record loop_config := mk_loop_config { repeat_threshold : nat; window : nat }.
Definition loop_config_ok (c : loop_config) : Prop := 2 ≤ repeat_threshold c ∧ 2 ≤ window c.

(** [_Entry]. *)
Record entry := mk_entry { en_action : string; en_outcome : string; en_failed : bool }.
#[export] Instance entry_eq_dec : EqDecision entry.
Proof. solve_decision. Defined.

Record loop_guard := mk_guard {
  lg_config : loop_config;
  lg_history : list entry;
  lg_calls : nat;
  lg_warned_failing : @dict string nat;
  lg_warned_repeats : @dict (string * string) nat
}.

Definition new_loop_guard (c : loop_config) : loop_guard := mk_guard c [] 0 [] [].

(** [deque(maxlen=window).append]. *)
Definition record_entry (e : entry) (g : loop_guard) : list entry :=
  last_n (window (lg_config g)) (lg_history g ++ [e]).

Definition recent (calls : nat) (g : loop_guard) (warned_at : option nat) : bool :=
  match warned_at with
  | Some w => bool_decide (calls - w ≤ window (lg_config g))
  | None => false
  end.

Inductive verdict := VBlock | VNudge | VStop.

(** The runs of an action in the window. *)
Definition matches (action : string) (g : loop_guard) : list entry :=
  List.filter (λ e, bool_decide (en_action e = action)) (lg_history g).

(** [len(tail) == needed and all failed and one outcome]. *)
Definition same_failures (needed : nat) (tail : list entry) : bool :=
  (length tail =? needed)
  && forallb en_failed tail
  && match tail with
     | [] => false
     | e :: _ => forallb (λ e', bool_decide (en_outcome e' = en_outcome e)) tail
     end.

Definition last_outcome (es : list entry) : string :=
  match last es with Some e => en_outcome e | None => "" end.

(** [before]. *)
Definition before (action : string) (g : loop_guard) : option (verdict * nat * string) * loop_guard :=
  let calls := S (lg_calls g) in
  let ms := matches action g in
  if recent calls g (dict_get action (lg_warned_failing g)) then
    (Some (VStop, S (length ms), last_outcome ms),
     mk_guard (lg_config g) (lg_history g) calls (lg_warned_failing g) (lg_warned_repeats g))
  else
    let warned := dict_del action (lg_warned_failing g) in
    let needed := repeat_threshold (lg_config g) - 1 in
    let tail := last_n needed ms in
    if same_failures needed tail then
      (Some (VBlock, S (length ms), last_outcome tail),
       mk_guard (lg_config g) (record_entry (mk_entry action (last_outcome tail) true) g) calls
         (dict_set action calls warned) (lg_warned_repeats g))
    else
      (None, mk_guard (lg_config g) (lg_history g) calls warned (lg_warned_repeats g)).

(** The identical successes in the window. *)
Definition repeats_of (action outcome : string) (history : list entry) : nat :=
  length (List.filter (λ e, bool_decide (e = mk_entry action outcome false)) history).

(** [after]. *)
Definition after (action outcome : string) (failed : bool) (g : loop_guard) :
    option (verdict * nat) * loop_guard :=
  let history := record_entry (mk_entry action outcome failed) g in
  let upd w := mk_guard (lg_config g) history (lg_calls g) (lg_warned_failing g) w in
  if failed then (None, upd (lg_warned_repeats g))
  else
    let key := (action, outcome) in
    let repeats := repeats_of action outcome history in
    if recent (lg_calls g) g (dict_get key (lg_warned_repeats g)) then
      (Some (VStop, repeats), upd (lg_warned_repeats g))
    else
      let warned := dict_del key (lg_warned_repeats g) in
      if repeat_threshold (lg_config g) <=? repeats then
        (Some (VNudge, repeats), upd (dict_set key (lg_calls g) warned))
      else (None, upd warned).

(** What the strategy does with one tool call: run it, run it and warn, not
    run it and warn, or raise [LoopDetectedError]. *)
Inductive decision := DRan | DNudged | DBlocked | DStopped.
#[export] Instance decision_eq_dec : EqDecision decision.
Proof. solve_decision. Defined.

(** One tool call, with what it would produce if it runs. *)
Definition guarded_call (g : loop_guard) (e : entry) : loop_guard * decision :=
  match before (en_action e) g with
  | (Some (VStop, _, _), g1) => (g1, DStopped)
  | (Some (_, _, _), g1) => (g1, DBlocked)
  | (None, g1) =>
      match after (en_action e) (en_outcome e) (en_failed e) g1 with
      | (Some (VStop, _), g2) => (g2, DStopped)
      | (Some (_, _), g2) => (g2, DNudged)
      | (None, g2) => (g2, DRan)
      end
  end.

(** The tool calls of a session, until one raises. *)
Fixpoint guarded_run (g : loop_guard) (es : list entry) : list decision :=
  match es with
  | [] => []
  | e :: es' =>
      let '(g', d) := guarded_call g e in
      if decide (d = DStopped) then [DStopped] else d :: guarded_run g' es'
  end.

(** ** Repeating one call *)

(** The last [j] entries of a history are [x]. *)
Definition ends_with (j : nat) (x : entry) (h : list entry) : Prop :=
  ∃ pre, h = pre ++ replicate j x.

Lemma ends_with_0 x h : ends_with 0 x h.
Proof. exists h. by rewrite app_nil_r. Qed.

Lemma ends_with_record j x g :
  j < window (lg_config g) → ends_with j x (lg_history g) → ends_with (S j) x (record_entry x g).
Proof.
  intros Hj [pre Hh]. unfold record_entry. rewrite Hh, <- app_assoc.
  replace (replicate j x ++ [x]) with (replicate (S j) x) by apply replicate_S_end.
  exists (last_n (window (lg_config g) - S j) pre). unfold last_n.
  rewrite length_app, length_replicate, drop_app_le by lia. do 2 f_equal. lia.
Qed.

Lemma matches_app_replicate a x pre j :
  en_action x = a →
  List.filter (λ e, bool_decide (en_action e = a)) (pre ++ replicate j x) =
    List.filter (λ e, bool_decide (en_action e = a)) pre ++ replicate j x.
Proof.
  intros Ha. rewrite List.filter_app. f_equal. induction j as [|j IH]; [done|].
  simpl. rewrite bool_decide_eq_true_2 by done. by f_equal.
Qed.

Lemma same_failures_replicate j x :
  0 < j → en_failed x = true → same_failures j (replicate j x) = true.
Proof.
  intros Hj Hx. unfold same_failures. rewrite length_replicate, Nat.eqb_refl. simpl.
  apply andb_true_iff. split.
  - apply forallb_forall. intros y Hy. apply list_elem_of_In, elem_of_replicate in Hy as [-> _]. done.
  - destruct j as [|j]; [lia|]. cbn [replicate].
    apply (forallb_forall _ (replicate (S j) x)). intros y Hy.
    apply list_elem_of_In, elem_of_replicate in Hy as [-> _]. by apply bool_decide_eq_true.
Qed.

Lemma same_failures_success needed tail x :
  x ∈ tail → en_failed x = false → same_failures needed tail = false.
Proof.
  intros Hx Hf. unfold same_failures. apply andb_false_iff. left. apply andb_false_iff. right.
  apply not_true_iff_false. intros Hall. rewrite forallb_forall in Hall.
  apply list_elem_of_In in Hx. apply Hall in Hx. congruence.
Qed.

Lemma repeats_of_ge j x h :
  en_failed x = false → ends_with j x h → j ≤ repeats_of (en_action x) (en_outcome x) h.
Proof.
  intros Hx [pre ->]. unfold repeats_of. rewrite List.filter_app, length_app.
  assert (List.filter (λ e, bool_decide (e = mk_entry (en_action x) (en_outcome x) false))
            (replicate j x) = replicate j x) as ->; [|rewrite length_replicate; lia].
  induction j as [|j IH]; [done|]. simpl. rewrite bool_decide_eq_true_2; [by f_equal|].
  destruct x; simpl in *; congruence.
Qed.

Section Repeating.
Context (x : entry).

(** The key of a success. *)
Definition key_of : string * string := (en_action x, en_outcome x).

(** What one call does, case by case. *)
Inductive call_spec g : loop_guard → decision → Prop :=
  | call_stop g' : lg_config g' = lg_config g →
      recent (S (lg_calls g)) g (dict_get (en_action x) (lg_warned_failing g)) = true →
      call_spec g g' DStopped
  | call_block g' :
      same_failures (repeat_threshold (lg_config g) - 1)
        (last_n (repeat_threshold (lg_config g) - 1) (matches (en_action x) g)) = true →
      lg_config g' = lg_config g →
      dict_get (en_action x) (lg_warned_failing g') = Some (lg_calls g') →
      call_spec g g' DBlocked
  | call_run g' d :
      same_failures (repeat_threshold (lg_config g) - 1)
        (last_n (repeat_threshold (lg_config g) - 1) (matches (en_action x) g)) = false →
      lg_config g' = lg_config g → lg_calls g' = S (lg_calls g) → lg_history g' = record_entry x g →
      (if en_failed x then d = DRan else
         if recent (S (lg_calls g)) g (dict_get key_of (lg_warned_repeats g)) then d = DStopped
         else if repeat_threshold (lg_config g) <=?
                 repeats_of (en_action x) (en_outcome x) (record_entry x g)
              then d = DNudged ∧ dict_get key_of (lg_warned_repeats g') = Some (lg_calls g')
              else d = DRan) →
      call_spec g g' d.

Lemma guarded_call_spec g : call_spec g (guarded_call g x).1 (guarded_call g x).2.
Proof.
  assert (mk_entry (en_action x) (en_outcome x) (en_failed x) = x) as Hx by by destruct x.
  unfold guarded_call, before.
  destruct (recent (S (lg_calls g)) g (dict_get (en_action x) (lg_warned_failing g))) eqn:Hr.
  { by apply call_stop. }
  destruct (same_failures _ _) eqn:Hsf.
  { apply call_block; [done|done|]. cbn [fst lg_warned_failing lg_calls]. by rewrite dict_get_set_eq. }
  unfold after, record_entry, recent. cbn [lg_config lg_history lg_calls lg_warned_failing lg_warned_repeats].
  rewrite Hx. fold (recent (S (lg_calls g)) g (dict_get (en_action x, en_outcome x) (lg_warned_repeats g))).
  destruct (en_failed x) eqn:Hf.
  { cbn [fst snd]. apply call_run; [exact Hsf|reflexivity..|]. by rewrite Hf. }
  destruct (recent (S (lg_calls g)) g (dict_get (en_action x, en_outcome x) (lg_warned_repeats g))) eqn:Hr2.
  { cbn [fst snd]. apply call_run; [exact Hsf|reflexivity..|]. unfold key_of. by rewrite Hf, Hr2. }
  fold (record_entry x g). destruct (_ <=? _) eqn:Hle.
  - cbn [fst snd]. apply call_run; [exact Hsf|reflexivity..|]. unfold key_of. rewrite Hf, Hr2, Hle.
    cbn [fst snd lg_warned_repeats lg_calls]. by rewrite dict_get_set_eq.
  - cbn [fst snd]. apply call_run; [exact Hsf|reflexivity..|]. unfold key_of. by rewrite Hf, Hr2, Hle.
Qed.

(** A warned action is stopped at once. *)
Lemma call_after_block g :
  dict_get (en_action x) (lg_warned_failing g) = Some (lg_calls g) →
  1 ≤ window (lg_config g) → (guarded_call g x).2 = DStopped.
Proof.
  intros Hw H1. unfold guarded_call, before. rewrite Hw. unfold recent.
  rewrite bool_decide_eq_true_2 by lia. done.
Qed.

Lemma call_blocked g :
  (guarded_call g x).2 = DBlocked →
  dict_get (en_action x) (lg_warned_failing (guarded_call g x).1) = Some (lg_calls (guarded_call g x).1) ∧
  lg_config (guarded_call g x).1 = lg_config g.
Proof.
  destruct (guarded_call_spec g) as [| |g' d _ _ _ _ Hd]; [done|done|]. intros ->.
  by repeat case_match; destruct_and?.
Qed.

(** A call that runs without a warning lengthens the repetition. *)
Lemma call_ran g j :
  j < window (lg_config g) → ends_with j x (lg_history g) → (guarded_call g x).2 = DRan →
  ends_with (S j) x (lg_history (guarded_call g x).1) ∧ lg_config (guarded_call g x).1 = lg_config g.
Proof.
  intros Hj He. destruct (guarded_call_spec g) as [| |g' d _ Hc _ Hh _]; [done|done|]. intros _.
  rewrite Hh. split; [by apply ends_with_record|done].
Qed.

(** A repetition that ends in a success is not blocked. *)
Lemma not_blocked g j :
  2 ≤ repeat_threshold (lg_config g) → en_failed x = false → 0 < j → ends_with j x (lg_history g) →
  same_failures (repeat_threshold (lg_config g) - 1)
    (last_n (repeat_threshold (lg_config g) - 1) (matches (en_action x) g)) = false.
Proof.
  intros Ht Hf Hj [pre Hpre]. apply (same_failures_success _ _ x); [|done].
  unfold matches. rewrite Hpre, matches_app_replicate by done.
  destruct j as [|j]; [lia|]. rewrite replicate_S_end, app_assoc.
  unfold last_n. rewrite length_app. cbn [length]. rewrite drop_app_le by lia. set_solver.
Qed.

(** After a warning about a success the next identical call is stopped. *)
Lemma call_nudged g :
  2 ≤ repeat_threshold (lg_config g) → 1 ≤ window (lg_config g) → (guarded_call g x).2 = DNudged →
  (guarded_call (guarded_call g x).1 x).2 = DStopped.
Proof.
  intros Ht Hwin. destruct (guarded_call_spec g) as [| |g' d _ Hc _ Hh Hd]; [done|done|]. intros ->.
  destruct (en_failed x) eqn:Hf; [done|]. destruct (recent _ _ _); [done|].
  destruct (_ <=? _); [|done]. destruct Hd as [_ Hw].
  assert (ends_with 1 x (lg_history g')) as He.
  { rewrite Hh. apply ends_with_record; [lia|apply ends_with_0]. }
  destruct (guarded_call_spec g') as [|g2 Hsf|g2 d _ _ _ _ Hd]; [done| |].
  - rewrite (not_blocked g' 1) in Hsf; [done|by rewrite Hc|done|lia|done].
  - rewrite Hf, Hw in Hd. unfold recent in Hd. rewrite bool_decide_eq_true_2 in Hd; [done|].
    rewrite Hc. lia.
Qed.

(** Once the call was repeated one time fewer than the threshold, it does not
    simply run again. *)
Lemma call_at_threshold g :
  2 ≤ repeat_threshold (lg_config g) → repeat_threshold (lg_config g) ≤ window (lg_config g) →
  ends_with (repeat_threshold (lg_config g) - 1) x (lg_history g) → (guarded_call g x).2 ≠ DRan.
Proof.
  intros Ht Hw He. destruct (guarded_call_spec g) as [| |g' d Hsf _ _ _ Hd]; [done|done|]. intros ->.
  destruct (en_failed x) eqn:Hf.
  - destruct He as [pre Hpre]. unfold matches in Hsf.
    rewrite Hpre, matches_app_replicate in Hsf by done.
    unfold last_n in Hsf. rewrite length_app, length_replicate in Hsf.
    rewrite drop_app_le, Nat.add_sub, drop_all, app_nil_l in Hsf by lia.
    rewrite same_failures_replicate in Hsf by (done || lia). done.
  - destruct (recent _ _ _); [done|]. destruct (_ <=? _) eqn:Hle; [by destruct Hd|].
    assert (ends_with (S (repeat_threshold (lg_config g) - 1)) x (record_entry x g)) as Hr
      by (apply ends_with_record; [lia|done]).
    apply repeats_of_ge in Hr; [|done]. bool_prop. lia.
Qed.

(** Whatever happened before, a session that keeps making the same call
    with the same outcome is stopped: within [repeat_threshold + 1] calls the
    guard raises, provided the window holds that many. *)
Theorem repetition_stops g n :
  loop_config_ok (lg_config g) → repeat_threshold (lg_config g) ≤ window (lg_config g) →
  repeat_threshold (lg_config g) < n →
  ∃ ds, guarded_run g (replicate n x) = ds ++ [DStopped] ∧
    length ds ≤ repeat_threshold (lg_config g) ∧ DStopped ∉ ds.
Proof.
  intros [Ht Hw] Htw Hn.
  assert (∀ k j g' n, lg_config g' = lg_config g → ends_with j x (lg_history g') →
    j + k = repeat_threshold (lg_config g) → 0 < k → k < n →
    ∃ ds, guarded_run g' (replicate n x) = ds ++ [DStopped] ∧ length ds ≤ k ∧ DStopped ∉ ds) as Hgo.
  { induction k as [|k IH]; [lia|]. intros j g' n' Hc He Hjk _ Hk.
    destruct n' as [|[|n']]; [lia|lia|]. cbn [replicate guarded_run].
    destruct (guarded_call g' x) as [g1 d] eqn:Hcall.
    destruct (decide (d = DStopped)) as [->|Hd].
    { exists []. split_and!; [done|simpl; lia|by apply not_elem_of_nil]. }
    assert (∀ g2 d2, guarded_call g1 x = (g2, d2) → d2 = DStopped →
      ∃ ds, d :: (let '(g', d) := guarded_call g1 x in
        if decide (d = DStopped) then [DStopped] else d :: guarded_run g' (replicate n' x)) =
        ds ++ [DStopped] ∧ length ds ≤ S k ∧ DStopped ∉ ds) as Hnext.
    { intros g2 d2 -> ->. exists [d]. rewrite decide_True by done. split_and!; [done|simpl; lia|set_solver]. }
    destruct d; [| | |done].
    - assert ((guarded_call g' x).2 = DRan) as Hran by by rewrite Hcall.
      assert (S j < repeat_threshold (lg_config g) ∨ j = repeat_threshold (lg_config g) - 1)
        as [Hlt| ->] by lia.
      + destruct (call_ran g' j ltac:(rewrite Hc; lia) He Hran) as [He1 Hc1]. rewrite Hcall in He1, Hc1.
        cbn [fst snd] in He1, Hc1.
        destruct (IH (S j) g1 (S n')) as (ds & Hds & Hl & Hnin); [by rewrite Hc1|done|lia|lia|lia|].
        cbn [replicate guarded_run] in Hds. rewrite Hds. exists (DRan :: ds).
        split_and!; [done|simpl; lia|set_solver].
      + exfalso. rewrite <- Hc in He. revert Hran. apply call_at_threshold; [by rewrite Hc|by rewrite Hc|done].
    - pose proof (call_nudged g') as Hnu. rewrite Hcall in Hnu. cbn [fst snd] in Hnu.
      destruct (guarded_call g1 x) as [g2 d2] eqn:H2. eapply (Hnext g2 d2); [done|].
      apply Hnu; [rewrite Hc; lia..|done].
    - destruct (call_blocked g') as [Hb Hc1]; [by rewrite Hcall|]. rewrite Hcall in Hb, Hc1. cbn [fst snd] in Hb, Hc1.
      pose proof (call_after_block g1 Hb) as Hs. destruct (guarded_call g1 x) as [g2 d2] eqn:H2.
      eapply (Hnext g2 d2); [done|]. apply Hs. cbn [fst] in Hc1. rewrite Hc1, Hc. lia. }
  apply (Hgo _ 0 g n); [done|apply ends_with_0|lia..].
Qed.
End Repeating.

(** ** Warnings come before stops *)

(** The calls of a session with what the guard decided, newest first. *)
Definition session := list (entry * decision).

(** [session_of g tr]: the guard after the calls [tr], none of which raised. *)
Inductive session_of (c : loop_config) : loop_guard → session → Prop :=
  | session_new : session_of c (new_loop_guard c) []
  | session_call g tr e :
      session_of c g tr → (guarded_call g e).2 ≠ DStopped →
      session_of c (guarded_call g e).1 ((e, (guarded_call g e).2) :: tr).

(** What the tables of warnings record about the session: position [n] of the
    trace is call [calls - n]. *)
Record warnings_ok (g : loop_guard) (tr : session) : Prop := {
  wo_calls : lg_calls g = length tr;
  wo_failing : ∀ a w, dict_get a (lg_warned_failing g) = Some w → w ≤ length tr ∧
    ∃ e, tr !! (length tr - w) = Some (e, DBlocked) ∧ en_action e = a;
  wo_repeats : ∀ k w, dict_get k (lg_warned_repeats g) = Some w → w ≤ length tr ∧
    ∃ e, tr !! (length tr - w) = Some (e, DNudged) ∧ key_of e = k;
  wo_wf : dict_wf (lg_warned_failing g) ∧ dict_wf (lg_warned_repeats g)
}.

(** How one call that does not raise changes the tables. *)
Lemma call_tables x g :
  let g' := (guarded_call g x).1 in
  let d := (guarded_call g x).2 in
  let forget := dict_del (en_action x) (lg_warned_failing g) in
  d ≠ DStopped → lg_calls g' = S (lg_calls g) ∧
  ((d = DBlocked ∧ lg_warned_failing g' = dict_set (en_action x) (S (lg_calls g)) forget ∧
      lg_warned_repeats g' = lg_warned_repeats g) ∨
   (d = DNudged ∧ lg_warned_failing g' = forget ∧
      lg_warned_repeats g' =
        dict_set (key_of x) (S (lg_calls g)) (dict_del (key_of x) (lg_warned_repeats g))) ∨
   (d = DRan ∧ lg_warned_failing g' = forget ∧
      (lg_warned_repeats g' = lg_warned_repeats g ∨
       lg_warned_repeats g' = dict_del (key_of x) (lg_warned_repeats g)))).
Proof.
  unfold guarded_call, before.
  destruct (recent (S (lg_calls g)) g (dict_get (en_action x) (lg_warned_failing g))); [done|].
  destruct (same_failures _ _); [by intros _; split; [|left]|].
  unfold after, recent. cbn [lg_config lg_history lg_calls lg_warned_failing lg_warned_repeats].
  destruct (en_failed x); [intros _; split; [done|right; right; auto]|].
  fold (recent (S (lg_calls g)) g (dict_get (en_action x, en_outcome x) (lg_warned_repeats g))).
  destruct (recent (S (lg_calls g)) g (dict_get (en_action x, en_outcome x) (lg_warned_repeats g)));
    [done|].
  destruct (_ <=? _); intros _; (split; [done|right]); [by left|right; auto].
Qed.

Lemma session_warnings c g tr : session_of c g tr → warnings_ok g tr.
Proof.
  induction 1 as [|g tr e Hs [Hc Hf Hr [Hwf Hwr]] Hd].
  { split; simpl; try done. split; apply dict_wf_nil. }
  destruct (call_tables e g Hd) as [Hc' Hcases].
  set (g' := (guarded_call g e).1) in *. set (d := (guarded_call g e).2) in *.
  assert (∀ w, w ≤ length tr → length ((e, d) :: tr) - w = S (length tr - w)) as Hidx
    by (intros w ?; simpl; lia).
  assert (∀ a w, dict_get a (dict_del (en_action e) (lg_warned_failing g)) = Some w →
    w ≤ length ((e, d) :: tr) ∧
    ∃ e', ((e, d) :: tr) !! (length ((e, d) :: tr) - w) = Some (e', DBlocked) ∧ en_action e' = a) as Hf'.
  { intros a w. rewrite dict_get_del by done. destruct (decide _); [done|]. intros Hg.
    destruct (Hf a w Hg) as (Hle & e' & He' & Ha). split; [simpl; lia|]. exists e'. by rewrite Hidx. }
  assert (∀ k w, dict_get k (lg_warned_repeats g) = Some w → w ≤ length ((e, d) :: tr) ∧
    ∃ e', ((e, d) :: tr) !! (length ((e, d) :: tr) - w) = Some (e', DNudged) ∧ key_of e' = k) as Hr'.
  { intros k w Hg. destruct (Hr k w Hg) as (Hle & e' & He' & Hk). split; [simpl; lia|]. exists e'.
    by rewrite Hidx. }
  assert (∀ k w, dict_get k (dict_del (key_of e) (lg_warned_repeats g)) = Some w →
    dict_get k (lg_warned_repeats g) = Some w) as Hsub.
  { intros k w. rewrite dict_get_del by done. by destruct (decide _). }
  split.
  - rewrite Hc', Hc. done.
  - destruct Hcases as [(Hd' & -> & _)|[(_ & -> & _)|(_ & -> & _)]]; [|exact Hf'..].
    intros a w. rewrite dict_get_set. destruct (decide (a = en_action e)) as [->|]; [|apply Hf'].
    intros [= <-]. rewrite Hc. split; [done|]. exists e. simpl. by rewrite Nat.sub_diag, Hd'.
  - destruct Hcases as [(_ & _ & ->)|[(Hd' & _ & ->)|(_ & _ & [-> | ->])]]; [exact Hr'| |exact Hr'|eauto].
    intros k w. rewrite dict_get_set. destruct (decide (k = key_of e)) as [->|]; [|eauto].
    intros [= <-]. rewrite Hc. split; [done|]. exists e. simpl. by rewrite Nat.sub_diag, Hd'.
  - split.
    + destruct Hcases as [(_ & -> & _)|[(_ & -> & _)|(_ & -> & _)]];
        auto using dict_wf_set, dict_wf_del.
    + destruct Hcases as [(_ & _ & ->)|[(_ & _ & ->)|(_ & _ & [-> | ->])]];
        auto using dict_wf_set, dict_wf_del.
Qed.

Lemma same_failures_inv needed tail :
  same_failures needed tail = true → ∃ o, length tail = needed ∧
    ∀ e, e ∈ tail → en_failed e = true ∧ en_outcome e = o.
Proof.
  unfold same_failures. intros [[Hl Hf]%andb_true_iff Ho]%andb_true_iff. bool_prop.
  destruct tail as [|e tail]; [done|]. exists (en_outcome e). split; [done|]. intros e' He'.
  apply list_elem_of_In in He'. rewrite forallb_forall in Hf. rewrite forallb_forall in Ho.
  split; [by apply Hf|]. specialize (Ho e' He'). by bool_prop.
Qed.

(** The guard only acts on repetitions: it blocks a call when the last
    [repeat_threshold - 1] runs of that action in the window all failed with
    one outcome, and raises only for an action it blocked, or an action and
    output it warned about, within the last [window] calls of the session. *)
Theorem stops_follow_warnings c g tr x :
  session_of c g tr →
  match (guarded_call g x).2 with
  | DBlocked => ∃ o,
      length (last_n (repeat_threshold (lg_config g) - 1) (matches (en_action x) g)) =
        repeat_threshold (lg_config g) - 1 ∧
      ∀ e, e ∈ last_n (repeat_threshold (lg_config g) - 1) (matches (en_action x) g) →
        en_failed e = true ∧ en_outcome e = o
  | DStopped => ∃ i e d, i < window (lg_config g) ∧ tr !! i = Some (e, d) ∧
      (d = DBlocked ∧ en_action e = en_action x ∨ d = DNudged ∧ key_of e = key_of x)
  | _ => True
  end.
Proof.
  intros [Hc Hf Hr _]%session_warnings.
  assert (∀ w, recent (S (lg_calls g)) g w = true →
    ∃ v, w = Some v ∧ S (length tr) - v ≤ window (lg_config g)) as Hrec.
  { intros [v|] Hv; [|done]. exists v. split; [done|]. simpl in Hv. bool_prop. by rewrite <- Hc. }
  destruct (guarded_call_spec x g) as [g' _ Hw|g' Hsf _ _|g' d _ _ _ _ Hd].
  - apply Hrec in Hw as (v & Hv & Hle). destruct (Hf _ _ Hv) as (Hvl & e & He & Ha).
    exists (length tr - v), e, DBlocked. split_and!; [lia|done|by left].
  - by apply same_failures_inv in Hsf.
  - destruct (en_failed x); [by subst|].
    destruct (recent _ _ _) eqn:Hw; [|by destruct (_ <=? _); [destruct Hd as [-> _]|subst]]. subst d.
    apply Hrec in Hw as (v & Hv & Hle). destruct (Hr _ _ Hv) as (Hvl & e & He & Ha).
    exists (length tr - v), e, DNudged. split_and!; [lia|done|by right].
Qed.

(** ** Witnesses *)

#[local] Open Scope string_scope.

Definition demo_config : loop_config := mk_loop_config 3 4.
Definition demo_call : entry := mk_entry "cell" "NameError" true.

Example guarded_run_demo :
  guarded_run (new_loop_guard demo_config) (replicate 6 demo_call) = [DRan; DRan; DBlocked; DStopped].
Proof. vm_compute. reflexivity. Qed.

(** A window too narrow for the threshold: the call is never stopped. *)
Example narrow_window_never_stops :
  guarded_run (new_loop_guard (mk_loop_config 4 2)) (replicate 30 demo_call) = replicate 30 DRan.
Proof. vm_compute. reflexivity. Qed.

Lemma repetition_stops_witness : ∃ ds,
  guarded_run (new_loop_guard demo_config) (replicate 6 demo_call) = (ds ++ [DStopped])%list ∧ (length ds ≤ 3)%nat.
Proof.
  destruct (repetition_stops demo_call (new_loop_guard demo_config) 6) as (ds & H1 & H2 & _).
  - split; simpl; lia.
  - simpl. lia.
  - simpl. lia.
  - exists ds. exact (conj H1 H2).
Defined.

(** The guard after two failures and the warning about them. *)
Definition demo_guard : loop_guard :=
  foldl (λ g e, (guarded_call g e).1) (new_loop_guard demo_config) [demo_call; demo_call; demo_call].

Lemma demo_session :
  session_of demo_config demo_guard [(demo_call, DBlocked); (demo_call, DRan); (demo_call, DRan)].
Proof.
  apply (session_call _ (foldl (λ g e, (guarded_call g e).1) (new_loop_guard demo_config)
    [demo_call; demo_call]) _ demo_call); [|discriminate].
  apply (session_call _ (foldl (λ g e, (guarded_call g e).1) (new_loop_guard demo_config)
    [demo_call]) _ demo_call); [|discriminate].
  apply (session_call _ (new_loop_guard demo_config) _ demo_call); [|discriminate].
  apply session_new.
Qed.

Lemma stops_follow_warnings_witness : ∃ i e d,
  (i < 4)%nat ∧ [(demo_call, DBlocked); (demo_call, DRan); (demo_call, DRan)] !! i = Some (e, d) ∧
  (d = DBlocked ∧ en_action e = "cell" ∨ d = DNudged ∧ key_of e = ("cell", "NameError")).
Proof. exact (stops_follow_warnings demo_config demo_guard _ demo_call demo_session). Defined.
