(* ===== verification/TruncStream.v ===== *)
(** * TruncStream: the bounded output buffers

    Models [agentdoc/_truncating_stream.py]: [TruncatingStringIO], which keeps
    the head and a rolling tail of what is written, and
    [FileBackedTruncatingStringIO], which also streams everything to a file.
    Lengths and limits are integers, as in the code; whether an operation on
    the file raises [OSError] is an argument of the call that makes it. *)

From S2P Require Import Prelude PyStr PyText.
From Stdlib Require Import Ascii.

#[local] Open Scope Z_scope.

Definition zlen {A} (l : list A) : Z := Z.of_nat (length l).

(** [f"{n:,}"] for a non-negative [n]: groups of three digits. *)
Fixpoint group3 (digits_rev : text) (k : nat) : text :=
  match digits_rev with
  | [] => []
  | d :: ds =>
      match k, ds with
      | 2%nat, _ :: _ => group3 ds 0 ++ [44%N; d]
      | _, _ => group3 ds (S k) ++ [d]
      end
  end.
Definition t_commas (n : Z) : text := group3 (reverse (lit (pretty n))) 0.

Record trunc := mk_trunc {
  tr_limit : Z;
  tr_tail_limit : Z;
  tr_head : text;                (* the [StringIO] content *)
  tr_head_full : bool;
  tr_tail_chunks : list text;
  tr_tail_chars : Z;
  tr_written : Z
}.

(** [TruncatingStringIO(limit, tail_chars)]. *)
Definition new_trunc (limit : Z) (tail_chars : option Z) : trunc :=
  mk_trunc limit (match tail_chars with Some t => t | None => limit / 2 end) [] false [] 0 0.

Definition head_limit (s : trunc) : Z := tr_limit s - tr_tail_limit s.

(** The eviction loop of [_add_to_tail]. *)
Fixpoint evict (limit chars : Z) (chunks : list text) : list text * Z :=
  match chunks with
  | [] => ([], chars)
  | oldest :: rest =>
      if limit <? chars then
        let excess := chars - limit in
        if zlen oldest <=? excess then evict limit (chars - zlen oldest) rest
        else (py_slice_from excess oldest :: rest, chars - excess)
      else (chunks, chars)
  end.

Definition add_to_tail (x : text) (s : trunc) : trunc :=
  let '(chunks, chars) :=
    evict (tr_tail_limit s) (tr_tail_chars s + zlen x) (tr_tail_chunks s ++ [x]) in
  mk_trunc (tr_limit s) (tr_tail_limit s) (tr_head s) (tr_head_full s) chunks chars (tr_written s).

(** [TruncatingStringIO.write]. *)
Definition trunc_write (x : text) (s : trunc) : trunc :=
  let n := zlen x in
  let s := mk_trunc (tr_limit s) (tr_tail_limit s) (tr_head s) (tr_head_full s) (tr_tail_chunks s)
             (tr_tail_chars s) (tr_written s + n) in
  if tr_head_full s then add_to_tail x s
  else
    let remaining_head := head_limit s - zlen (tr_head s) in
    if n <=? remaining_head then
      mk_trunc (tr_limit s) (tr_tail_limit s) (tr_head s ++ x) false (tr_tail_chunks s)
        (tr_tail_chars s) (tr_written s)
    else
      let head := if 0 <? remaining_head then tr_head s ++ py_slice_to remaining_head x
                  else tr_head s in
      let overflow := py_slice_from remaining_head x in
      let s := mk_trunc (tr_limit s) (tr_tail_limit s) head true (tr_tail_chunks s)
                 (tr_tail_chars s) (tr_written s) in
      if decide (overflow = []) then s else add_to_tail overflow s.

Definition was_truncated (s : trunc) : bool := tr_limit s <? tr_written s.

Definition nl : text := [10%N].

(** [_format_truncation_notice], around the line(s) that say where the rest is. *)
Definition truncation_notice (file_notice : text) (head tail : text)
    (total head_chars tail_chars dropped : Z) : text :=
  lit "<truncated-output>" ++ nl ++
  lit "Output too large (" ++ t_commas total ++ lit " chars). Showing first " ++ t_commas head_chars ++
  lit " and last " ++ t_commas tail_chars ++ lit " chars." ++ nl ++
  file_notice ++ nl ++
  head ++ nl ++ nl ++
  lit "... " ++ t_commas dropped ++ lit " chars not shown ..." ++ nl ++ nl ++
  tail ++ nl ++ lit "</truncated-output>".

Definition not_recoverable (dropped : Z) : text :=
  lit "The " ++ t_commas dropped ++ lit " chars in the middle are not recoverable." ++ nl.

(** [getvalue], with the notice of the class. *)
Definition getvalue_with (notice_line : Z → Z → text) (s : trunc) : text :=
  let head := tr_head s in let tail := concat (tr_tail_chunks s) in
  if was_truncated s then
    let total := tr_written s in
    let dropped := total - zlen head - zlen tail in
    truncation_notice (notice_line total dropped) head tail total (zlen head) (zlen tail) dropped
  else head ++ tail.

Definition trunc_getvalue : trunc → text := getvalue_with (λ _ dropped, not_recoverable dropped).

(** ** The file-backed variant *)

(** [fs_file] is what the temporary file holds, [None] when it could not be
    created; [fs_path] is its path. *)
Record file_stream := mk_fs {
  fs_base : trunc;
  fs_file : option text;
  fs_path : text;
  fs_failed : bool
}.

Definition new_file_stream (limit : Z) (tail_chars : option Z) (path : text) (created : bool) :
    file_stream :=
  mk_fs (new_trunc limit tail_chars) (if created then Some [] else None) path (negb created).

(** [write]; [io] is what reaches the file before an [OSError], [None] when
    the write succeeds. *)
Definition fs_write (x : text) (io : option text) (s : file_stream) : file_stream :=
  let base := trunc_write x (fs_base s) in
  match fs_file s with
  | Some content =>
      if fs_failed s then mk_fs base (Some content) (fs_path s) true
      else match io with
           | None => mk_fs base (Some (content ++ x)) (fs_path s) false
           | Some part => mk_fs base (Some (content ++ part)) (fs_path s) true
           end
  | None => mk_fs base None (fs_path s) (fs_failed s)
  end.

(** The line of the notice: the path when the file holds everything. *)
Definition fs_line (s : file_stream) (total dropped : Z) : text :=
  match fs_file s, fs_failed s with
  | Some _, false =>
      lit "The full untruncated output (" ++ t_commas total ++ lit " chars) is in: " ++ fs_path s ++ nl ++
      lit "Read that file to see the " ++ t_commas dropped ++ lit " chars not shown here." ++ nl
  | _, _ => not_recoverable dropped
  end.

Definition fs_getvalue (s : file_stream) : text := getvalue_with (fs_line s) (fs_base s).

(** ** What the buffers keep *)

(** The state after the text [full] was written, in whatever pieces. *)
Record holds (s : trunc) (full : text) : Prop := {
  ho_head : tr_head s = take (Z.to_nat (head_limit s)) full;
  ho_tail : concat (tr_tail_chunks s) =
    last_n (Z.to_nat (tr_tail_limit s)) (drop (Z.to_nat (head_limit s)) full);
  ho_chars : tr_tail_chars s = zlen (concat (tr_tail_chunks s));
  ho_full : (if tr_head_full s then (Z.to_nat (head_limit s) ≤ length full)%nat
             else (length full ≤ Z.to_nat (head_limit s))%nat ∧ tr_tail_chunks s = []);
  ho_written : tr_written s = zlen full
}.

Lemma zlen_app {A} (l k : list A) : zlen (l ++ k) = zlen l + zlen k.
Proof. unfold zlen. rewrite length_app. lia. Qed.

Lemma evict_spec limit chars chunks :
  0 <= limit → chars = zlen (concat chunks) →
  concat (evict limit chars chunks).1 = last_n (Z.to_nat limit) (concat chunks) ∧
  (evict limit chars chunks).2 = zlen (concat (evict limit chars chunks).1).
Proof.
  intros Hl. revert chars. induction chunks as [|c cs IH]; intros chars Hc; cbn [evict].
  { by subst. }
  destruct (limit <? chars) eqn:Hlt; bool_prop.
  2:{ cbn [fst snd]. split; [|done]. symmetry. apply last_n_all. unfold zlen in *. lia. }
  cbn [concat] in Hc. rewrite zlen_app in Hc.
  destruct (zlen c <=? chars - limit) eqn:Hle; bool_prop.
  - destruct (IH (chars - zlen c)) as [H1 H2]; [lia|]. split; [|done]. rewrite H1. cbn [concat].
    symmetry. apply last_n_app_le. unfold zlen in *. lia.
  - cbn [fst snd concat]. unfold py_slice_from. replace (chars - limit <? 0) with false by lia. split.
    + unfold last_n. rewrite length_app.
      rewrite drop_app_le by (unfold zlen in *; lia). f_equal. f_equal. unfold zlen in *. lia.
    + rewrite zlen_app. unfold zlen in *. rewrite length_drop. lia.
Qed.

Lemma last_n_snoc_last_n {A} n (l k : list A) : last_n n (last_n n l ++ k) = last_n n (l ++ k).
Proof.
  destruct (decide (length k ≤ n)%nat).
  - rewrite !last_n_app_ge by lia. f_equal. apply last_n_last_n. lia.
  - rewrite !last_n_app_le by lia. done.
Qed.

Lemma add_to_tail_holds x s full :
  0 <= tr_tail_limit s → (Z.to_nat (head_limit s) ≤ length full)%nat →
  tr_head_full s = true →
  tr_head s = take (Z.to_nat (head_limit s)) full →
  concat (tr_tail_chunks s) = last_n (Z.to_nat (tr_tail_limit s)) (drop (Z.to_nat (head_limit s)) full) →
  tr_tail_chars s = zlen (concat (tr_tail_chunks s)) → tr_written s = zlen (full ++ x) →
  holds (add_to_tail x s) (full ++ x).
Proof.
  intros Ht Hle Hf Hh Hc Hchars Hw. unfold add_to_tail.
  destruct (evict_spec (tr_tail_limit s) (tr_tail_chars s + zlen x) (tr_tail_chunks s ++ [x])) as [H1 H2];
    [done|rewrite concat_app; cbn [concat]; by rewrite app_nil_r, zlen_app, Hchars|].
  destruct (evict _ _ _) as [chunks chars]. cbn [fst snd] in *.
  split; cbn [tr_head tr_tail_chunks tr_tail_chars tr_head_full tr_written]; unfold head_limit in *;
    cbn [tr_limit tr_tail_limit] in *.
  - rewrite take_app_le by lia. done.
  - rewrite H1, concat_app. cbn [concat]. rewrite app_nil_r, Hc, drop_app_le by lia.
    apply last_n_snoc_last_n.
  - done.
  - rewrite Hf, length_app. lia.
  - done.
Qed.

Lemma trunc_write_holds x s full :
  0 <= tr_tail_limit s <= tr_limit s → holds s full →
  holds (trunc_write x s) (full ++ x) ∧
  tr_limit (trunc_write x s) = tr_limit s ∧ tr_tail_limit (trunc_write x s) = tr_tail_limit s.
Proof.
  intros Hlim [Hh Ht Hc Hf Hw]. unfold trunc_write. cbn [tr_head_full].
  assert (tr_written s + zlen x = zlen (full ++ x)) as Hw' by (rewrite zlen_app; lia).
  assert (∀ y s', tr_limit (add_to_tail y s') = tr_limit s' ∧
    tr_tail_limit (add_to_tail y s') = tr_tail_limit s') as Hlims
    by (intros; unfold add_to_tail; by destruct (evict _ _ _)).
  destruct (tr_head_full s) eqn:Hfull.
  { split; [|split; (etrans; [apply Hlims|done])]. apply add_to_tail_holds; try done. cbn. lia. }
  destruct Hf as [Hle Hnil]. unfold head_limit in *.
  cbn [tr_limit tr_tail_limit tr_head tr_tail_chunks tr_tail_chars tr_written].
  assert (tr_head s = full) as Hhf by (rewrite Hh; apply take_ge; lia).
  destruct (zlen x <=? _) eqn:Hfit; bool_prop.
  { split; [|done]. rewrite Hhf in *. unfold zlen in Hfit.
    split; unfold head_limit; cbn [tr_limit tr_tail_limit tr_head tr_tail_chunks tr_tail_chars
      tr_written tr_head_full].
    - rewrite take_ge; [done|]. rewrite length_app. unfold zlen in *. lia.
    - rewrite Hnil, drop_ge by (rewrite length_app; lia). done.
    - done.
    - rewrite length_app. split; [lia|done].
    - done. }
  rewrite Hhf in *. set (r := tr_limit s - tr_tail_limit s - zlen full) in *.
  assert (0 <= r) as Hr by (unfold r, zlen; lia).
  assert (py_slice_from r x = drop (Z.to_nat r) x) as ->
    by (unfold py_slice_from; by replace (r <? 0) with false by lia).
  assert ((if 0 <? r then full ++ py_slice_to r x else full) = full ++ take (Z.to_nat r) x) as ->.
  { unfold py_slice_to. destruct (0 <? r) eqn:H0; bool_prop.
    - by replace (r <? 0) with false by lia.
    - replace (Z.to_nat r) with 0%nat by lia. by rewrite take_0, app_nil_r. }
  assert (drop (Z.to_nat r) x ≠ []) as Hne.
  { intros Hd. apply (f_equal length) in Hd. rewrite length_drop in Hd. cbn in Hd.
    unfold zlen in *. lia. }
  rewrite decide_False by done. split; [|split; (etrans; [apply Hlims|done])].
  replace (full ++ x) with ((full ++ take (Z.to_nat r) x) ++ drop (Z.to_nat r) x) in *
    by (rewrite <- app_assoc; by rewrite take_drop).
  assert (length (full ++ take (Z.to_nat r) x) = Z.to_nat (tr_limit s - tr_tail_limit s)) as Hlen.
  { rewrite length_app, length_take. unfold r, zlen in *. lia. }
  apply add_to_tail_holds; unfold head_limit;
    cbn [tr_limit tr_tail_limit tr_head tr_tail_chunks tr_tail_chars tr_written tr_head_full].
  - lia.
  - lia.
  - done.
  - rewrite (take_ge (full ++ _)) by lia. done.
  - rewrite Hnil, (drop_ge (full ++ _)) by lia. done.
  - done.
  - done.
Qed.

Lemma writes_hold xs s full :
  0 <= tr_tail_limit s <= tr_limit s → holds s full →
  holds (foldl (λ s x, trunc_write x s) s xs) (full ++ concat xs) ∧
  tr_limit (foldl (λ s x, trunc_write x s) s xs) = tr_limit s ∧
  tr_tail_limit (foldl (λ s x, trunc_write x s) s xs) = tr_tail_limit s.
Proof.
  revert s full. induction xs as [|x xs IH]; intros s full Hlim Hh; cbn [foldl concat].
  { by rewrite app_nil_r. }
  destruct (trunc_write_holds x s full Hlim Hh) as (Hh' & Hl & Ht).
  rewrite app_assoc. destruct (IH (trunc_write x s) (full ++ x)) as (H1 & H2 & H3);
    [by rewrite Hl, Ht|done|]. by rewrite H2, H3.
Qed.

Lemma holds_new limit tail : holds (new_trunc limit tail) [].
Proof.
  split; unfold new_trunc, zlen; cbn [tr_head tr_tail_chunks tr_tail_chars tr_head_full tr_written].
  - by rewrite take_nil.
  - by rewrite drop_nil.
  - done.
  - split; [simpl; lia|done].
  - done.
Qed.

(** However a text is cut into writes, the buffer never stores more than
    [limit] characters, and [getvalue] is the whole text when it fits and
    otherwise a notice around its first [limit - tail] and its last [tail]
    characters, with the number of characters left out. *)
Theorem truncating_stream_keeps_ends limit tail xs :
  let t := match tail with Some t => t | None => limit / 2 end in
  0 <= t <= limit →
  let s := foldl (λ s x, trunc_write x s) (new_trunc limit tail) xs in
  let full := concat xs in
  zlen (tr_head s) + zlen (concat (tr_tail_chunks s)) <= limit ∧
  trunc_getvalue s =
    if zlen full <=? limit then full
    else truncation_notice (not_recoverable (zlen full - limit))
           (take (Z.to_nat (limit - t)) full) (last_n (Z.to_nat t) full)
           (zlen full) (limit - t) t (zlen full - limit).
Proof.
  cbn zeta. set (t := match tail with Some t => t | None => limit / 2 end). intros Ht.
  destruct (writes_hold xs (new_trunc limit tail) []) as ([Hh Hta Hc _ Hw] & Hl & Htl);
    [done|apply holds_new|]. rewrite app_nil_l in *.
  set (s := foldl _ _ xs) in *. cbn [new_trunc tr_limit tr_tail_limit] in Hl, Htl. fold t in Htl.
  set (full := concat xs) in *. unfold head_limit in *. rewrite Hl, Htl in *.
  assert (zlen (take (Z.to_nat (limit - t)) full) <= limit - t) as Hhl
    by (unfold zlen; rewrite length_take; lia).
  split.
  { rewrite Hh, Hta. unfold zlen in *. rewrite last_n_length. lia. }
  unfold trunc_getvalue, getvalue_with, was_truncated. rewrite Hl, Hw.
  destruct (zlen full <=? limit) eqn:Hfit; bool_prop.
  - replace (limit <? zlen full) with false by lia. rewrite Hh, Hta.
    rewrite last_n_all by (rewrite length_drop; unfold zlen in *; lia). apply take_drop.
  - replace (limit <? zlen full) with true by lia.
    assert (concat (tr_tail_chunks s) = last_n (Z.to_nat t) full) as ->.
    { rewrite Hta. unfold last_n. rewrite drop_drop, length_drop. f_equal. unfold zlen in *. lia. }
    rewrite Hh.
    assert (zlen (take (Z.to_nat (limit - t)) full) = limit - t) as ->
      by (unfold zlen in *; rewrite length_take; lia).
    assert (zlen (last_n (Z.to_nat t) full) = t) as -> by (unfold zlen in *; rewrite last_n_length; lia).
    by replace (zlen full - (limit - t) - t) with (zlen full - limit) by lia.
Qed.

(** The file-backed buffer behaves in memory like the plain one whatever
    happens to the file, and it only announces the file as holding the full
    output when the file was created, no write failed, and it holds exactly
    what was written. *)
Theorem file_backed_complete limit tail path created (ws : list (text * option text)) :
  let s := foldl (λ s w, fs_write w.1 w.2 s) (new_file_stream limit tail path created) ws in
  fs_base s = foldl (λ s x, trunc_write x s) (new_trunc limit tail) ws.*1 ∧
  (fs_failed s = false ↔ created = true ∧ Forall (λ w, w.2 = None) ws) ∧
  (fs_failed s = false → fs_file s = Some (concat ws.*1)) ∧
  (fs_failed s = true → ∀ total dropped, fs_line s total dropped = not_recoverable dropped).
Proof.
  cbn zeta. induction ws as [|[x io] ws IH] using rev_ind.
  { cbn [foldl fmap list_fmap]. unfold new_file_stream. destruct created; cbn; naive_solver. }
  rewrite foldl_app, fmap_app, foldl_app, concat_app.
  set (s := foldl _ (new_file_stream _ _ _ _) ws) in *. destruct IH as (Hb & Hf & Hc & _).
  cbn [foldl fmap list_fmap fst snd concat]. rewrite app_nil_r, Forall_app, Forall_singleton. cbn [snd].
  assert (fs_base (fs_write x io s) = trunc_write x (fs_base s)) as Hbase
    by (unfold fs_write; by repeat case_match).
  rewrite Hbase, Hb. split; [done|]. unfold fs_write.
  destruct (fs_file s) as [content|] eqn:Hfile.
  - destruct (fs_failed s) eqn:Hfailed; [|destruct io as [part|]]; cbn [fs_failed fs_file fs_line].
    + split_and!; [|done|done]. split; [done|]. intros (-> & Hall & _). by apply Hf.
    + split_and!; [|done|done]. split; [done|]. by intros (_ & _ & ?).
    + split_and!; [|intros _|done].
      * split; [intros _|done]. destruct (proj1 Hf eq_refl). done.
      * specialize (Hc eq_refl). by injection Hc as ->.
  - cbn [fs_failed fs_file fs_line]. destruct (fs_failed s) eqn:Hfailed.
    + split_and!; [|done|done]. split; [done|]. intros (-> & Hall & _). by apply Hf.
    + by specialize (Hc eq_refl).
Qed.

Lemma truncating_stream_keeps_ends_witness :
  trunc_getvalue (foldl (λ s x, trunc_write x s) (new_trunc 4 None) [lit "ab"; lit "cdefg"]) =
  truncation_notice (not_recoverable 3) (lit "ab") (lit "fg") 7 2 2 3.
Proof.
  pose proof (truncating_stream_keeps_ends 4 None [lit "ab"; lit "cdefg"]) as H. cbn zeta in H.
  destruct H as [_ H]; [vm_compute; split; discriminate|].
  etrans; [exact H|vm_compute; reflexivity].
Defined.

Example trunc_commas : t_commas 1234567 = lit "1,234,567".
Proof. vm_compute. reflexivity. Qed.
