(* ===== verification/BoundedIO.v ===== *)
(** * BoundedIO: reading files in bounded memory

    Models [tools/_bounded_io.py].  A file opened for text is the sequence of
    code points left after decoding and universal newlines, so without
    ["\r"]; [read(n)] returns the next [n] of them, fewer only at the end.
    A generator is the list of what it yields, followed by the exception that
    ends it, if one does: a consumer that stops early never sees it. *)

From S2P Require Import Prelude PyDict PyText.

#[local] Open Scope nooa_scope.

(** What [iter_lines_keepends] yields, and how it ends. *)
Definition lines_iter : Type := list text * option exc.

(** [parts.pop()] with the default of the code. *)
Definition pop_last (parts : list text) : list text * text :=
  (take (length parts - 1) parts, default [] (last parts)).

(** The reading loop; [content] is what is left of the file.  The fuel is the
    number of chunks at most left. *)
Fixpoint iter_lines_go (fuel max_line chunk : nat) (carry content : text) : lines_iter :=
  match fuel, take chunk content with
  | S fuel, (_ :: _) as piece =>
      let '(parts, carry') := pop_last (splitlines (carry ++ piece)) in
      if max_line <? length carry' then ([], Some FileTooLargeError)
      else
        let '(ys, err) := iter_lines_go fuel max_line chunk carry' (drop chunk content) in
        (parts ++ ys, err)
  | _, _ => (if decide (carry = []) then [] else [carry], None)
  end.

(** [iter_lines_keepends]. *)
Definition iter_lines_keepends (max_line chunk : nat) (content : text) : lines_iter :=
  iter_lines_go (length content) max_line chunk [] content.

(** The loop of [read_line_range] over the lines, [seen] of which were read. *)
Fixpoint read_range_go (start stop : Z) (ys : list text) (err : option exc) (seen : Z)
    (pieces : list text) : result (text * Z) :=
  match ys with
  | [] => match err with
          | Some e => Raise e
          | None => Ok (concat pieces, Z.min stop seen)
          end
  | l :: ys' =>
      let seen := (seen + 1)%Z in
      let pieces := if (start <=? seen)%Z then pieces ++ [l] else pieces in
      if (stop <=? seen)%Z then Ok (concat pieces, Z.min stop seen)
      else read_range_go start stop ys' err seen pieces
  end.

Definition read_line_range (max_line chunk : nat) (content : text) (start stop : Z) :
    result (text * Z) :=
  if (stop <? 1)%Z then Ok ([], stop)
  else let '(ys, err) := iter_lines_keepends max_line chunk content in
       read_range_go start stop ys err 0 [].

(** The loop of [read_specific_lines]. *)
Fixpoint read_lines_go (wanted : list Z) (highest : Z) (ys : list text) (err : option exc)
    (seen : Z) (found : @dict Z text) : result (@dict Z text) :=
  match ys with
  | [] => match err with Some e => Raise e | None => Ok found end
  | l :: ys' =>
      let seen := (seen + 1)%Z in
      let found := if bool_decide (seen ∈ wanted) then dict_set seen l found else found in
      if (highest <=? seen)%Z then Ok found
      else read_lines_go wanted highest ys' err seen found
  end.

(** [read_specific_lines]; the set of wanted lines is given by its elements. *)
Definition read_specific_lines (max_line chunk : nat) (content : text) (wanted : list Z) :
    result (@dict Z text) :=
  match wanted with
  | [] => Ok []
  | w :: ws =>
      let highest := max_default w ws in
      if (highest <? 1)%Z then Ok []
      else let '(ys, err) := iter_lines_keepends max_line chunk content in
           read_lines_go wanted highest ys err 0 []
  end.

(** [read_whole_file_checked]: [size] is what [fstat] reports, [bytes] what
    reading gives; [decode] is the text layer over the bytes read. *)
Definition read_whole_file_checked (decode : list Z → result text) (max_bytes size : nat)
    (bytes : list Z) : result text :=
  if max_bytes <? size then Raise FileTooLargeError
  else
    let data := take (max_bytes + 1) bytes in
    if max_bytes <? length data then Raise FileTooLargeError else decode data.

(** ** Cutting a text anywhere gives the same lines *)

Definition no_end (line : text) : Prop := Forall (λ c, line_end c = false) line.

Lemma splitlines_go_no_end line t : no_end line → splitlines_go line t = splitlines (line ++ t).
Proof.
  assert (∀ acc, no_end line → splitlines_go (acc ++ line) t = splitlines_go acc (line ++ t)) as Hgo;
    [|exact (Hgo [])].
  induction line as [|c line IH]; intros acc Hl; [by rewrite app_nil_r|].
  apply Forall_cons in Hl as [Hc Hl]. simpl. rewrite Hc, <- IH by done. by rewrite <- app_assoc.
Qed.

Lemma splitlines_go_cut s t line body c :
  no_end line → splitlines_go line s = body ++ [c] →
  splitlines_go line (s ++ t) = body ++ splitlines (c ++ t).
Proof.
  revert line body. induction s as [|ch s IH]; intros line body Hl Hs; simpl in *.
  - case_decide; [by destruct body|].
    destruct body as [|b [|]]; [|done..]. simpl in *. injection Hs as <-.
    by apply splitlines_go_no_end.
  - destruct (line_end ch) eqn:Hc.
    + destruct body as [|b body]; simpl in Hs; injection Hs as Hline Hs.
      * destruct s as [|ch' s'].
        -- subst c. simpl. rewrite <- app_assoc, <- splitlines_go_no_end by done. simpl. by rewrite Hc.
        -- exfalso. apply (f_equal (@concat N)) in Hs. rewrite concat_splitlines_go in Hs. done.
      * subst b. simpl. f_equal. apply IH; [constructor|done].
    + apply IH; [|done]. apply Forall_app_2; [done|]. by constructor.
Qed.

Lemma splitlines_cut s t body c :
  splitlines s = body ++ [c] → splitlines (s ++ t) = body ++ splitlines (c ++ t).
Proof. apply splitlines_go_cut. constructor. Qed.

Lemma pop_last_app parts : parts ≠ [] → parts = (pop_last parts).1 ++ [(pop_last parts).2].
Proof.
  intros Hp. destruct (exists_last Hp) as (l & x & ->). unfold pop_last. cbn [fst snd].
  rewrite length_app. cbn [length]. rewrite Nat.add_sub, take_app_length, last_snoc. done.
Qed.

Lemma splitlines_nil s : splitlines s = [] → s = [].
Proof. intros Hs. rewrite <- (concat_splitlines s). by rewrite Hs. Qed.

Lemma elem_of_splitlines_length l s : l ∈ splitlines s → length l ≤ length s.
Proof.
  intros Hl. transitivity (length (concat (splitlines s))); [|by rewrite concat_splitlines].
  apply list_elem_of_split in Hl as (l1 & l2 & ->).
  rewrite concat_app. cbn [concat]. rewrite !length_app. lia.
Qed.

Lemma head_Some_elem_of {A} (x : A) l : head l = Some x → x ∈ l.
Proof. destruct l; [done|]. intros [= ->]. apply list_elem_of_here. Qed.

(** A line of a text that starts with [c] starts with [c]. *)
Lemma splitlines_head_longer c t :
  c ≠ [] → (∃ s body, splitlines s = body ++ [c]) →
  ∃ l, head (splitlines (c ++ t)) = Some l ∧ length c ≤ length l.
Proof.
  intros Hc (s & body & Hs).
  assert (splitlines c = [c]) as Hcc.
  { pose proof (splitlines_cut s [] body c Hs) as H. rewrite !app_nil_r, Hs in H.
    by apply app_inv_head in H. }
  clear s body Hs.
  assert (∀ c line, splitlines_go line c = [line ++ c] → line ++ c ≠ [] →
    ∃ l, head (splitlines_go line (c ++ t)) = Some l ∧ length (line ++ c) ≤ length l) as Hgo.
  { clear. induction c as [|ch c IH]; intros line Hs Hne.
    - rewrite app_nil_r in *. clear Hs. simpl. revert line Hne.
      induction t as [|d t IH]; intros line Hne; simpl.
      + rewrite decide_False by done. by eexists.
      + case_match.
        * eexists. split; [done|]. rewrite length_app. simpl. lia.
        * destruct (IH (line ++ [d])) as (l & Hl & Hle); [by destruct line|].
          exists l. split; [done|]. rewrite length_app in Hle. simpl in Hle. lia.
    - simpl in *. destruct (line_end ch) eqn:He.
      + injection Hs as Hs1 Hs2. apply (f_equal length) in Hs1. rewrite !length_app in Hs1.
        simpl in Hs1. destruct c; [|simpl in Hs1; lia]. eexists. split; [done|].
        rewrite !length_app. simpl. lia.
      + destruct (IH (line ++ [ch])) as (l & Hl & Hle).
        * by rewrite <- app_assoc.
        * by destruct line.
        * exists l. split; [done|]. by rewrite <- app_assoc in Hle. }
  destruct (Hgo c [] Hcc Hc) as (l & Hl & Hle). by exists l.
Qed.

Lemma iter_lines_go_spec fuel max_line chunk carry content :
  0 < chunk → length content ≤ fuel →
  (carry = [] ∨ ∃ s body, splitlines s = body ++ [carry]) →
  let '(ys, err) := iter_lines_go fuel max_line chunk carry content in
  match err with
  | None => ys = splitlines (carry ++ content)
  | Some e => e = FileTooLargeError ∧ ys `prefix_of` splitlines (carry ++ content) ∧
      ∃ l, l ∈ splitlines (carry ++ content) ∧ max_line < length l
  end ∧ (length carry ≤ max_line → Forall (λ l, length l ≤ max_line + chunk) ys).
Proof.
  intros Hchunk. revert carry content. induction fuel as [|fuel IH]; intros carry content Hf Hcarry.
  { destruct content; [|simpl in Hf; lia]. cbn [iter_lines_go]. rewrite app_nil_r. split.
    - case_decide as Hc; [by subst|]. destruct Hcarry as [|(s & body & Hs)]; [done|].
      pose proof (splitlines_cut s [] body carry Hs) as H. rewrite !app_nil_r, Hs in H.
      by apply app_inv_head in H.
    - intros Hle. case_decide; repeat constructor. lia. }
  cbn [iter_lines_go]. destruct (take chunk content) as [|p0 ps] eqn:Htake.
  { assert (content = []) as -> by (destruct content; [done|destruct chunk; [lia|done]]).
    rewrite app_nil_r. split.
    - case_decide as Hc; [by subst|]. destruct Hcarry as [|(s & body & Hs)]; [done|].
      pose proof (splitlines_cut s [] body carry Hs) as H. rewrite !app_nil_r, Hs in H.
      by apply app_inv_head in H.
    - intros Hle. case_decide; repeat constructor. lia. }
  rewrite <- Htake. set (rest := drop chunk content).
  assert (carry ++ content = (carry ++ take chunk content) ++ rest) as ->
    by (unfold rest; by rewrite <- app_assoc, take_drop).
  assert (splitlines (carry ++ take chunk content) ≠ []) as Hne.
  { intros Hs%splitlines_nil. rewrite Htake in Hs. by destruct carry. }
  pose proof (pop_last_app _ Hne) as Hpop.
  destruct (pop_last (splitlines (carry ++ take chunk content))) as [body c]. cbn [fst snd] in Hpop.
  rewrite (splitlines_cut _ rest body c Hpop).
  assert (c ≠ []) as Hc.
  { pose proof (splitlines_go_nonempty [] (carry ++ take chunk content)) as Hall.
    change (splitlines_go [] ?x) with (splitlines x) in Hall. rewrite Hpop in Hall.
    rewrite Forall_forall in Hall. apply Hall, elem_of_app. right. apply list_elem_of_here. }
  destruct (max_line <? length c) eqn:Hlong; bool_prop.
  { split; [|by constructor]. split_and!; [done|apply prefix_nil|].
    destruct (splitlines_head_longer c rest Hc) as (l & Hl & Hle); [eauto|].
    exists l. split; [|lia]. apply elem_of_app. right. by apply head_Some_elem_of. }
  specialize (IH c rest). destruct (iter_lines_go fuel max_line chunk c rest) as [ys err].
  destruct IH as [IHerr IHlen]; [unfold rest; rewrite length_drop; lia|right; eauto|]. split.
  - destruct err as [e|]; [|by rewrite IHerr]. destruct IHerr as (-> & Hpre & l & Hl & Hmax).
    split_and!; [done|by apply prefix_app|]. exists l. split; [|done]. apply elem_of_app. by right.
  - intros Hle. apply Forall_app. split; [|by apply IHlen].
    apply Forall_forall. intros l Hl. transitivity (length (carry ++ take chunk content)).
    + apply elem_of_splitlines_length. rewrite Hpop. apply elem_of_app. by left.
    + rewrite length_app, length_take. lia.
Qed.

(** Reading a file in chunks yields exactly the lines
    [read_text().splitlines(keepends=True)] would, whatever the chunk size;
    it fails only on a file with a line over the budget, after yielding a
    prefix of its lines, and never yields a line longer than the budget and
    one chunk. *)
Theorem iter_lines_spec max_line chunk content :
  0 < chunk →
  let '(ys, err) := iter_lines_keepends max_line chunk content in
  match err with
  | None => ys = splitlines content
  | Some e => e = FileTooLargeError ∧ ys `prefix_of` splitlines content ∧
      ∃ l, l ∈ splitlines content ∧ max_line < length l
  end ∧ Forall (λ l, length l ≤ max_line + chunk) ys.
Proof.
  intros Hchunk. unfold iter_lines_keepends.
  pose proof (iter_lines_go_spec (length content) max_line chunk [] content Hchunk (le_n _) (or_introl eq_refl)) as H.
  destruct (iter_lines_go _ _ _ _ _) as [ys err]. destruct H as [H1 H2]. split; [done|].
  apply H2. simpl. lia.
Qed.

Lemma iter_lines_short max_line chunk content :
  0 < chunk → Forall (λ l, length l ≤ max_line) (splitlines content) →
  iter_lines_keepends max_line chunk content = (splitlines content, None).
Proof.
  intros Hchunk Hall. pose proof (iter_lines_spec max_line chunk content Hchunk) as H.
  destruct (iter_lines_keepends _ _ _) as [ys [e|]]; destruct H as [H _]; [|by rewrite H].
  destruct H as (_ & _ & l & Hl & Hlong). rewrite Forall_forall in Hall. specialize (Hall l Hl). lia.
Qed.

Lemma read_range_go_spec start stop ys err seen pieces :
  (1 ≤ start)%Z → (Z.of_nat seen < stop)%Z → (err = None ∨ stop ≤ Z.of_nat (seen + length ys))%Z →
  read_range_go start stop ys err (Z.of_nat seen) pieces =
    Ok (concat pieces ++ concat (drop (Z.to_nat start - 1 - seen) (take (Z.to_nat stop - seen) ys)),
        Z.min stop (Z.of_nat (seen + length ys))).
Proof.
  intros Hstart. revert seen pieces. induction ys as [|l ys IH]; intros seen pieces Hseen Herr;
    cbn [read_range_go].
  - destruct Herr as [-> | Herr]; [|simpl in Herr; lia].
    rewrite take_nil, drop_nil. simpl. by rewrite app_nil_r, Nat.add_0_r.
  - replace (Z.of_nat seen + 1)%Z with (Z.of_nat (S seen)) by lia.
    replace (Z.to_nat stop - seen) with (S (Z.to_nat stop - S seen)) by lia. cbn [take].
    assert (concat (if (start <=? Z.of_nat (S seen))%Z then pieces ++ [l] else pieces) ++
      concat (drop (Z.to_nat start - 1 - S seen) (take (Z.to_nat stop - S seen) ys)) =
      concat pieces ++ concat (drop (Z.to_nat start - 1 - seen) (l :: take (Z.to_nat stop - S seen) ys)))
      as Hp.
    { destruct (start <=? Z.of_nat (S seen))%Z eqn:Hs; bool_prop.
      - replace (Z.to_nat start - 1 - seen) with 0 by lia.
        replace (Z.to_nat start - 1 - S seen) with 0 by lia. rewrite !drop_0, concat_app. simpl.
        by rewrite app_nil_r, <- app_assoc.
      - replace (Z.to_nat start - 1 - seen) with (S (Z.to_nat start - 1 - S seen)) by lia. done. }
    destruct (stop <=? Z.of_nat (S seen))%Z eqn:Hst; bool_prop.
    + replace (Z.to_nat stop - S seen) with 0 in * by lia. rewrite take_0, drop_nil in Hp. cbn in Hp.
      rewrite take_0, <- Hp, app_nil_r. do 2 f_equal. simpl. lia.
    + rewrite IH; [|lia|destruct Herr as [?|Herr]; [by left|right; simpl in Herr; lia]].
      f_equal. f_equal; [exact Hp|]. simpl. lia.
Qed.

(** On a file whose lines fit the budget, [read_line_range] returns the
    slice [lines[start - 1 : stop]] of its lines and the number of the last
    line read, the end of the file clamping [stop]. *)
Theorem read_line_range_spec max_line chunk content start stop :
  0 < chunk → Forall (λ l, length l ≤ max_line) (splitlines content) → (1 ≤ start)%Z →
  read_line_range max_line chunk content start stop =
    if (stop <? 1)%Z then Ok ([], stop)
    else Ok (concat (drop (Z.to_nat start - 1) (take (Z.to_nat stop) (splitlines content))),
             Z.min stop (Z.of_nat (length (splitlines content)))).
Proof.
  intros Hchunk Hall Hstart. unfold read_line_range. destruct (stop <? 1)%Z eqn:Hs; [done|]. bool_prop.
  rewrite iter_lines_short by done.
  change 0%Z with (Z.of_nat 0).
  rewrite read_range_go_spec; [|done|lia|by left]. simpl. by rewrite !Nat.sub_0_r.
Qed.

Lemma read_lines_go_spec wanted highest ys err seen found k :
  (∀ w, w ∈ wanted → w ≤ highest)%Z → (Z.of_nat seen < highest)%Z →
  (err = None ∨ highest ≤ Z.of_nat (seen + length ys))%Z →
  ∃ d, read_lines_go wanted highest ys err (Z.of_nat seen) found = Ok d ∧
    dict_get k d = if decide (k ∈ wanted ∧ Z.of_nat seen < k ≤ Z.of_nat (seen + length ys))%Z
                   then ys !! (Z.to_nat k - 1 - seen) else dict_get k found.
Proof.
  intros Hw. revert seen found. induction ys as [|l ys IH]; intros seen found Hseen Herr;
    cbn [read_lines_go].
  - destruct Herr as [-> | Herr]; [|simpl in Herr; lia]. exists found. split; [done|].
    rewrite decide_False; [done|]. simpl. lia.
  - replace (Z.of_nat seen + 1)%Z with (Z.of_nat (S seen)) by lia.
    set (found' := if bool_decide (Z.of_nat (S seen) ∈ wanted) then dict_set (Z.of_nat (S seen)) l found
                   else found).
    assert (∀ k, dict_get k found' =
      if decide (k ∈ wanted ∧ k = Z.of_nat (S seen)) then Some l else dict_get k found) as Hf.
    { intros k'. unfold found'. case_bool_decide as Hb.
      - rewrite dict_get_set. destruct (decide (k' = Z.of_nat (S seen))) as [->|].
        + by rewrite decide_True.
        + rewrite decide_False; [done|tauto].
      - rewrite decide_False; [done|]. intros [H1 ->]. done. }
    destruct (highest <=? Z.of_nat (S seen))%Z eqn:Hh; bool_prop.
    + exists found'. split; [done|]. rewrite Hf. cbn [length].
      destruct (decide (k ∈ wanted ∧ k = Z.of_nat (S seen))) as [[H1 ->]|Hn].
      * rewrite decide_True by (split; [done|lia]).
        by replace (Z.to_nat (Z.of_nat (S seen)) - 1 - seen) with 0 by lia.
      * rewrite decide_False; [done|]. intros [H1 H2]. specialize (Hw k H1). apply Hn. split; [done|lia].
    + destruct (IH (S seen) found') as (d & -> & Hd);
        [lia|destruct Herr as [?|Herr]; [by left|right; simpl in Herr; lia]|].
      exists d. split; [done|]. rewrite Hd, Hf. cbn [length].
      destruct (decide (k ∈ wanted ∧ Z.of_nat seen < k ≤ Z.of_nat (seen + S (length ys)))%Z) as [[H1 H2]|Hn].
      * destruct (decide (k = Z.of_nat (S seen))) as [->|Hne].
        -- rewrite decide_False by lia. rewrite decide_True by done.
           by replace (Z.to_nat (Z.of_nat (S seen)) - 1 - seen) with 0 by lia.
        -- rewrite decide_True by (split; [done|lia]).
           by replace (Z.to_nat k - 1 - seen) with (S (Z.to_nat k - 1 - S seen)) by lia.
      * rewrite !decide_False; [done| |].
        -- intros [H1 ->]. apply Hn. split; [done|lia].
        -- intros [H1 H2]. apply Hn. split; [done|lia].
Qed.

(** On such a file [read_specific_lines] returns each wanted line under its
    number and nothing else: numbers outside the file are absent. *)
Theorem read_specific_lines_spec max_line chunk content wanted :
  0 < chunk → Forall (λ l, length l ≤ max_line) (splitlines content) →
  ∃ d, read_specific_lines max_line chunk content wanted = Ok d ∧
    ∀ k, dict_get k d =
      if decide (k ∈ wanted ∧ (1 ≤ k)%Z) then splitlines content !! (Z.to_nat k - 1) else None.
Proof.
  intros Hchunk Hall. unfold read_specific_lines. destruct wanted as [|w ws].
  { exists []. split; [done|]. intros k. rewrite decide_False; [done|].
    intros [?%not_elem_of_nil _]. done. }
  assert (∀ v, v ∈ w :: ws → (v ≤ max_default w ws)%Z) as Hmax.
  { intros v [->|Hv]%elem_of_cons; [apply max_default_ge|by apply max_default_elem]. }
  destruct (max_default w ws <? 1)%Z eqn:Hh; bool_prop.
  { exists []. split; [done|]. intros k. rewrite decide_False; [done|].
    intros [Hk H1]. specialize (Hmax k Hk). lia. }
  rewrite iter_lines_short by done. change 0%Z with (Z.of_nat 0).
  destruct (read_lines_go_spec (w :: ws) (max_default w ws) (splitlines content) None 0 [] 0 Hmax
              ltac:(lia) (or_introl eq_refl)) as (d & Hd & _).
  exists d. split; [done|]. intros k.
  destruct (read_lines_go_spec (w :: ws) (max_default w ws) (splitlines content) None 0 [] k Hmax
              ltac:(lia) (or_introl eq_refl)) as (d' & Hd' & Hk).
  rewrite Hd in Hd'. injection Hd' as <-. rewrite Hk. cbn [dict_get].
  destruct (decide (k ∈ w :: ws ∧ (1 ≤ k)%Z)) as [[H1 H2]|Hn].
  - destruct (decide (k ∈ w :: ws ∧ _)) as [_|Hn]; [f_equal; lia|]. symmetry.
    apply lookup_ge_None. apply not_and_l in Hn as [?|Hn]; [done|]. simpl in Hn. lia.
  - rewrite decide_False; [done|]. intros [H1 H2]. apply Hn. split; [done|]. simpl in H2. lia.
Qed.

(** [read_whole_file_checked] decodes the whole file or refuses it, and
    refuses every file over the budget, whatever size was reported for it. *)
Theorem read_whole_file_spec decode max_bytes size bytes :
  read_whole_file_checked decode max_bytes size bytes =
    if decide (size ≤ max_bytes ∧ length bytes ≤ max_bytes) then decode bytes
    else Raise FileTooLargeError.
Proof.
  unfold read_whole_file_checked. destruct (max_bytes <? size) eqn:Hs; bool_prop.
  { rewrite decide_False; [done|lia]. }
  rewrite length_take. destruct (max_bytes <? _ `min` length bytes) eqn:Hb; bool_prop.
  - rewrite decide_False; [done|lia].
  - rewrite decide_True by lia. rewrite take_ge by lia. done.
Qed.

(** ** Witnesses *)

Definition demo_file : text := lit "ab" ++ [10%N] ++ lit "cdef" ++ [8232%N] ++ lit "g".

Lemma iter_lines_spec_witness :
  (iter_lines_keepends 5 2 demo_file).1 = splitlines demo_file ∧
  Forall (λ l, length l ≤ 5 + 2) (iter_lines_keepends 5 2 demo_file).1.
Proof.
  pose proof (iter_lines_spec 5 2 demo_file ltac:(lia)) as H.
  destruct (iter_lines_keepends 5 2 demo_file) as [ys [e|]] eqn:He; [vm_compute in He; discriminate|].
  exact H.
Defined.

Lemma read_line_range_spec_witness :
  read_line_range 10 2 demo_file 2 9 = Ok (lit "cdef" ++ [8232%N] ++ lit "g", 3%Z).
Proof.
  etrans; [apply (read_line_range_spec 10 2 demo_file 2 9); [lia| |lia]|vm_compute; reflexivity].
  apply (bool_decide_unpack _). vm_compute. exact I.
Defined.

Lemma read_specific_lines_spec_witness : ∃ d,
  read_specific_lines 10 2 demo_file [3; 7]%Z = Ok d ∧ dict_get 3%Z d = Some (lit "g") ∧
  dict_get 7%Z d = None.
Proof.
  destruct (read_specific_lines_spec 10 2 demo_file [3; 7]%Z) as (d & H1 & H2); [lia| |].
  - apply (bool_decide_unpack _). vm_compute. exact I.
  - exists d. split; [exact H1|]. split; [rewrite H2; vm_compute; reflexivity|].
    rewrite H2. vm_compute. reflexivity.
Defined.
