(* ===== verification/Retry.v ===== *)
(** * Retry: retrying model calls

    Models [unifiedllm/retry.py]: the classification of an error
    ([_is_retryable_error]), the backoff delay, and the loop shared by
    [with_retry] and [sync_retry].  An error is what the code reads of it; a
    call is a function from the attempt to what that attempt does. *)

From S2P Require Import Prelude PyStr PyFloat.

#[local] Open Scope string_scope.

(** [RetryConfig].  [rc_exceptions] is decided with the error
    ([er_configured]); the callback is part of the wait after a failure. *)
Record retry_config := mk_retry_config {
  rc_max_retries : Z;
  rc_base_delay : pyfloat;
  rc_max_delay : pyfloat;
  rc_exponential_base : pyfloat;
  rc_jitter_factor : pyfloat;
  rc_extra_retries : Z;          (* rate_limit_extra_retries *)
  rc_rate_limit_base_delay : pyfloat;
  rc_rate_limit_backoff_base : pyfloat;
  rc_status_codes : list Z;
  rc_retry_on_empty_content : bool
}.

(** What the classification reads of an exception. *)
Record error := mk_error {
  er_admission : bool;           (* isinstance(error, AdmissionError) *)
  er_empty_content : bool;       (* isinstance(error, EmptyContentError) *)
  er_status : option Z;          (* error.status_code when it is an int *)
  er_response_status : option Z; (* error.response.status_code when it is an int *)
  er_str : string;               (* str(error) *)
  er_mro : list string;          (* the class names of type(error).__mro__ *)
  er_configured : bool           (* isinstance(error, config.retryable_exceptions) *)
}.

Definition retryable_status_phrases (code : Z) : list string :=
  if decide (code = 500%Z) then ["internal server error"; "internalservererror"]
  else if decide (code = 502%Z) then ["bad gateway"; "badgatewayerror"]
  else if decide (code = 503%Z) then
    ["service unavailable"; "serviceunavailableerror"; "server unavailable"]
  else if decide (code = 504%Z) then ["gateway timeout"; "gateway time-out"]
  else [].

Definition retryable_endpoint_class_names : list string :=
  ["apiconnectionerror"; "apitimeouterror"; "connecterror"; "connecttimeout"; "connectionerror";
   "connectiontimeouterror"; "networkerror"; "readtimeout"; "remoteprotocolerror";
   "serverdisconnectederror"; "timeout"; "timeouterror"; "transporterror"; "writeerror";
   "writetimeout"].

Definition retryable_endpoint_phrases : list string :=
  ["api connection error"; "cannot connect"; "can't connect"; "connection aborted";
   "connection closed"; "connection reset"; "connection refused"; "connection terminated";
   "connection timed out"; "endpoint not reachable"; "failed to connect"; "max retries exceeded";
   "name resolution"; "network is unreachable"; "not reachable"; "nodename nor servname";
   "remote disconnected"; "remote end closed"; "server disconnected";
   "temporary failure in name resolution"; "timed out"; "timeout"; "transport error"].

Definition is_retryable_endpoint_error (e : error) (error_str : string) : bool :=
  (existsb (λ c, bool_decide (lower c ∈ retryable_endpoint_class_names)) (er_mro e)
   || existsb (λ p, contains p error_str) retryable_endpoint_phrases
   || (contains "connection" error_str
       && existsb (λ p, contains p error_str)
            ["abort"; "closed"; "disconnect"; "failed"; "lost"; "reset"; "refused"; "terminated";
             "timed out"; "unreachable"]))%bool.

(** The status the classification sees: the error's own, else the response's. *)
Definition structured_status (e : error) : option Z :=
  match er_status e with Some s => Some s | None => er_response_status e end.

(** [_is_retryable_error]: whether to retry, and whether it is a rate limit. *)
Definition is_retryable_error (e : error) (c : retry_config) : bool * bool :=
  let codes := rc_status_codes c in
  let rate_limited := if bool_decide (429%Z ∈ codes) then (true, true) else (false, false) in
  if er_admission e then (false, false)
  else if (er_empty_content e && rc_retry_on_empty_content c)%bool then (true, false)
  else
    match structured_status e with
    | Some s =>
        if decide (s = 429%Z) then rate_limited
        else if bool_decide (s ∈ codes) then (true, false) else (false, false)
    | None =>
        let error_str := lower (er_str e) in
        if (contains "status 429" error_str || contains "rate limit" error_str)%bool then rate_limited
        else if existsb (λ code, contains ("status " +:+ str_int code) error_str
                                 || existsb (λ p, contains p error_str) (retryable_status_phrases code))%bool
                  codes then (true, false)
        else if er_configured e then (true, false)
        else (is_retryable_endpoint_error e error_str, false)
    end.

#[local] Close Scope string_scope.

(** ** The loop *)
Section RetryLoop.
Context {V : Type}.
(** [f_pow x n] is Python's [x ** n]; [random n] is what [random.random()]
    returns after failure [n]. *)
Context (f_pow : pyfloat → nat → pyfloat) (random : nat → pyfloat).
Context (config : retry_config).

(** [_calculate_delay]. *)
Definition calculate_delay (attempt : nat) (is_rate_limit : bool) : pyfloat :=
  let base := if is_rate_limit then rc_rate_limit_base_delay config else rc_base_delay config in
  let exp_base :=
    if is_rate_limit then rc_rate_limit_backoff_base config else rc_exponential_base config in
  let delay := f_mul base (f_pow exp_base attempt) in
  let delay := f_min delay (rc_max_delay config) in
  let jitter := f_mul (f_mul delay (rc_jitter_factor config)) (random attempt) in
  f_add delay jitter.

(** What an attempt does: return, be cancelled, or raise an [Exception]. *)
Inductive attempt_result := AReturn (v : V) | ACancelled | AFailed (e : error).

(** How the retrying call ends. *)
Inductive outcome :=
  | OReturn (v : V)
  | OCancelled
  | ORaise (e : error)
  | OInterrupted (x : exc)       (* the callback or the sleep raised *)
  | ORuntimeError.

(** The attempts made, the delays slept in order, and the end. *)
Record retry_run := mk_run { rr_outcome : outcome; rr_calls : nat; rr_delays : list pyfloat }.

(** [func n] is attempt [n]; [wait n] what the callback and the sleep after
    failure [n] raise, if anything. *)
Context (func : nat → attempt_result) (wait : nat → option exc).

Definition max_total_attempts : Z := rc_max_retries config + 1 + rc_extra_retries config.

(** The retries an error of this kind is allowed. *)
Definition allowed_retries (is_rate_limit : bool) : Z :=
  if is_rate_limit then rc_max_retries config + rc_extra_retries config else rc_max_retries config.

(** [while attempt < max_total_attempts]; [fuel] turns at most. *)
Fixpoint retry_loop (fuel attempt : nat) (last_error : option error) (delays : list pyfloat) : retry_run :=
  match fuel with
  | 0 => mk_run (match last_error with Some e => ORaise e | None => ORuntimeError end) attempt delays
  | S fuel =>
      if (Z.of_nat attempt <? max_total_attempts)%Z then
        match func attempt with
        | AReturn v => mk_run (OReturn v) (S attempt) delays
        | ACancelled => mk_run OCancelled (S attempt) delays
        | AFailed e =>
            let '(retryable, is_rate_limit) := is_retryable_error e config in
            if negb retryable then mk_run (ORaise e) (S attempt) delays
            else if (allowed_retries is_rate_limit <=? Z.of_nat attempt)%Z
            then mk_run (ORaise e) (S attempt) delays
            else match wait attempt with
                 | Some x => mk_run (OInterrupted x) (S attempt) delays
                 | None => retry_loop fuel (S attempt) (Some e)
                             (delays ++ [calculate_delay attempt is_rate_limit])%list
                 end
        end
      else mk_run (match last_error with Some e => ORaise e | None => ORuntimeError end) attempt delays
  end.

(** [with_retry] and [sync_retry]. *)
Definition with_retry : retry_run := retry_loop (Z.to_nat max_total_attempts) 0 None [].

(** Attempt [i] fails in a way that is retried. *)
Definition retried (i : nat) : option bool :=
  match func i with
  | AFailed e =>
      let '(retryable, is_rate_limit) := is_retryable_error e config in
      if (retryable && (Z.of_nat i <? allowed_retries is_rate_limit)%Z)%bool then Some is_rate_limit else None
  | _ => None
  end.

(** What the caller sees of an attempt that is not retried. *)
Definition final_outcome (r : attempt_result) : outcome :=
  match r with AReturn v => OReturn v | ACancelled => OCancelled | AFailed e => ORaise e end.

Lemma retry_loop_spec fuel attempt last_error delays :
  (0 ≤ rc_max_retries config)%Z → (0 ≤ rc_extra_retries config)%Z → (∀ i, wait i = None) →
  (Z.of_nat (attempt + fuel) = max_total_attempts)%Z → 0 < fuel →
  ∃ k, attempt ≤ k ∧ (Z.of_nat k ≤ rc_max_retries config + rc_extra_retries config)%Z ∧
    (∀ i, attempt ≤ i < k → is_Some (retried i)) ∧ retried k = None ∧
    retry_loop fuel attempt last_error delays =
      mk_run (final_outcome (func k)) (S k)
        (delays ++ ((λ i, calculate_delay i (default false (retried i))) <$> seq attempt (k - attempt))).
Proof.
  intros Hm He Hw. revert attempt last_error delays.
  induction fuel as [|fuel IH]; intros attempt last_error delays Hf Hpos; [lia|].
  unfold max_total_attempts in Hf. cbn [retry_loop]. unfold max_total_attempts at 1.
  replace (Z.of_nat attempt <? _)%Z with true by lia.
  assert (retried attempt = None → match func attempt with
    | AReturn v => mk_run (OReturn v) (S attempt) delays
    | ACancelled => mk_run OCancelled (S attempt) delays
    | AFailed e => mk_run (ORaise e) (S attempt) delays end =
    mk_run (final_outcome (func attempt)) (S attempt)
      (delays ++ ((λ i, calculate_delay i (default false (retried i))) <$> seq attempt (attempt - attempt))))
    as Hstop.
  { intros _. rewrite Nat.sub_diag. simpl. rewrite app_nil_r. by destruct (func attempt). }
  destruct (retried attempt) as [rl|] eqn:Hr.
  - pose proof Hr as Hra. unfold retried in Hr. destruct (func attempt) as [| |e] eqn:Hfn; [done..|].
    destruct (is_retryable_error e config) as [retryable rl'].
    destruct retryable; [|done]. simpl in Hr.
    destruct (Z.of_nat attempt <? allowed_retries rl')%Z eqn:Hlt; [|done]. injection Hr as ->.
    cbn [negb]. replace (allowed_retries rl <=? Z.of_nat attempt)%Z with false by (bool_prop; lia).
    rewrite Hw. assert (0 < fuel) as Hpos'.
    { bool_prop. unfold allowed_retries in Hlt. destruct rl; lia. }
    destruct (IH (S attempt) (Some e) (delays ++ [calculate_delay attempt rl])%list) as
      (k & H1 & H2 & H3 & H4 & H5); [unfold max_total_attempts; lia|done|].

    exists k. split_and!; [lia|done| |done|].
    + intros i Hi. destruct (decide (i = attempt)) as [->|]; [by rewrite Hra|]. apply H3. lia.
    + rewrite H5. f_equal. rewrite <- app_assoc. f_equal.
      replace (k - attempt) with (S (k - S attempt)) by lia. cbn [seq fmap list_fmap]. by rewrite Hra.
  - exists attempt. split_and!; [done|lia|lia|done|]. rewrite <- (Hstop eq_refl).
    unfold retried in Hr. destruct (func attempt) as [| |e]; [done..|].
    destruct (is_retryable_error e config) as [retryable rl]. destruct retryable; [|done]. simpl in Hr.
    destruct (Z.of_nat attempt <? allowed_retries rl)%Z eqn:Hlt; [done|].
    cbn [negb]. by replace (allowed_retries rl <=? Z.of_nat attempt)%Z with true by (bool_prop; lia).
Qed.

(** The retrying call makes attempts until one returns, is cancelled, or
    fails in a way that is not retried, and its outcome is that attempt's: a
    retryable error is retried exactly while attempts are left for its kind,
    never more than [max_retries + rate_limit_extra_retries] times, with one
    delay of the right backoff after each failure but the last. *)
Theorem with_retry_spec :
  (0 ≤ rc_max_retries config)%Z → (0 ≤ rc_extra_retries config)%Z → (∀ i, wait i = None) →
  ∃ k, (Z.of_nat k ≤ rc_max_retries config + rc_extra_retries config)%Z ∧
    (∀ i, i < k → is_Some (retried i)) ∧ retried k = None ∧
    with_retry = mk_run (final_outcome (func k)) (S k)
      ((λ i, calculate_delay i (default false (retried i))) <$> seq 0 k).
Proof.
  intros Hm He Hw.
  destruct (retry_loop_spec (Z.to_nat max_total_attempts) 0 None [] Hm He Hw) as (k & _ & H1 & H2 & H3 & H4);
    [unfold max_total_attempts; lia..|].
  exists k. split_and!; [done| |done|].
  - intros i Hi. apply H2. lia.
  - unfold with_retry. rewrite H4. cbn [app]. by rewrite Nat.sub_0_r.
Qed.
End RetryLoop.
Arguments AReturn {V} v.
Arguments ACancelled {V}.
Arguments AFailed {V} e.

(** A structured HTTP status decides alone: whatever the message, the
    class or the configured exceptions say, an error that carries one is
    retried exactly when the status is configured as retryable, and counts as a
    rate limit exactly when it is 429; an admission failure is never retried. *)
Theorem structured_status_decides e c :
  match is_retryable_error e c with
  | (retryable, is_rate_limit) =>
      (er_admission e = true → retryable = false ∧ is_rate_limit = false) ∧
      (∀ s, er_admission e = false → structured_status e = Some s →
        (er_empty_content e && rc_retry_on_empty_content c)%bool = false →
        (retryable = true ↔ s ∈ rc_status_codes c) ∧
        (is_rate_limit = true ↔ s = 429%Z ∧ s ∈ rc_status_codes c)) ∧
      (is_rate_limit = true → retryable = true ∧ 429%Z ∈ rc_status_codes c)
  end.
Proof.
  unfold is_retryable_error. destruct (er_admission e); [naive_solver|].
  destruct (er_empty_content e && rc_retry_on_empty_content c)%bool; [naive_solver|].
  destruct (structured_status e) as [s|].
  - case_decide as Hs; [subst; case_bool_decide; naive_solver|]. case_bool_decide; naive_solver.
  - repeat (case_match || case_bool_decide); simplify_eq; naive_solver.
Qed.

(** ** Witnesses *)

Definition demo_error (s : Z) : error := mk_error false false None (Some s) "boom"%string [] false.
Definition demo_retry_config : retry_config :=
  mk_retry_config 1 f_one f_one f_one f_zero 2 f_one f_one [429; 500]%Z false.

(** Rate limited twice, then an answer. *)
Definition demo_func (n : nat) : @attempt_result nat :=
  match n with
  | 0 | 1 => AFailed (demo_error 429)
  | _ => AReturn 7
  end.

Lemma with_retry_spec_witness : ∃ k,
  (Z.of_nat k ≤ 3)%Z ∧ retried demo_retry_config demo_func k = None ∧
  rr_calls (with_retry (λ x _, x) (λ _, f_zero) demo_retry_config demo_func (λ _, None)) = S k.
Proof.
  destruct (with_retry_spec (λ x _, x) (λ _, f_zero) demo_retry_config demo_func (λ _, None))
    as (k & H1 & _ & H3 & H4); [vm_compute; discriminate..|reflexivity|].
  exists k. split; [exact H1|]. split; [exact H3|]. rewrite H4. reflexivity.
Defined.

Example with_retry_demo :
  rr_calls (with_retry (λ x _, x) (λ _, f_zero) demo_retry_config demo_func (λ _, None)) = 3.
Proof. vm_compute. reflexivity. Qed.
