(* ===== verification/Sqlite.v ===== *)
(** * The SQLite event store

    Models [nooa/storage/sqlite.py]: [SQLiteEventBackend], the event store
    that survives a restart, and the snapshot table of
    [SQLiteStorageManager].  A table is the list of its rows in rowid order;
    [SELECT ... ORDER BY] is a stable sort; a [with self._conn:] block is a
    transaction that commits or leaves the tables alone.  A [fault] is what
    SQLite does to one statement: nothing, or an error that it reports, for a
    write with the transaction committed or not.  The JSON codec of the
    events is pydantic's and stays a parameter ([EventCodec]). *)

From stdpp Require Import sorting.
From Stdlib Require Import Ascii String.
From S2P Require Import Prelude PyStr PyDict Values Events.

(** ** Errors *)

(** [sqlite3.IntegrityError], [sqlite3.OperationalError] and any other
    [sqlite3.DatabaseError], with the attributes the code looks at. *)
Inductive sql_class := IntegrityError | OperationalError | DatabaseError.

#[export] Instance sql_class_eq_dec : EqDecision sql_class.
Proof. solve_decision. Defined.

Record sql_exc := mk_sqlexc { x_class : sql_class; x_code : option Z; x_msg : string }.

#[export] Instance sql_exc_eq_dec : EqDecision sql_exc.
Proof. solve_decision. Defined.

(** What a call raises. *)
Inductive storage_exc := XSql (x : sql_exc) | XCorruptDatabase (msg : string) | XPython (e : exc)
  | XSnapshotNotFound.

#[export] Instance storage_exc_eq_dec : EqDecision storage_exc.
Proof. solve_decision. Defined.

Definition unique_violation : sql_exc :=
  mk_sqlexc IntegrityError (Some 19%Z) "UNIQUE constraint failed".

(** [_is_corruption_error]. *)
Definition is_corruption_error (x : sql_exc) : bool :=
  bool_decide (x_code x = Some 11%Z ∨ x_code x = Some 26%Z) ||
  existsb (λ marker, contains marker (lower (x_msg x)))
    ["could not decode to utf-8"; "database disk image is malformed"; "file is not a database"]%string.

(** ["disk I/O error" in str(e)]. *)
Definition is_disk_io (x : sql_exc) : bool := contains "disk I/O error" (x_msg x).

(** ** Tables *)

Definition key_le {R} (key : R → Z) (x y : R) : Prop := (key x <= key y)%Z.

#[export] Instance key_le_dec {R} (key : R → Z) x y : Decision (key_le key x y).
Proof. unfold key_le. apply _. Defined.

(** [SELECT ... ORDER BY key]. *)
Definition order_by {R} (key : R → Z) (rows : list R) : list R := merge_sort (key_le key) rows.

(** [SELECT MAX(...)]: [NULL] of an empty table. *)
Definition sql_max (l : list Z) : option Z :=
  match l with [] => None | x :: l' => Some (foldl Z.max x l') end.

(** [CAST(text AS INTEGER)]: the longest prefix that reads as an integer after
    leading spaces, 0 without one, clamped to 64 bits. *)
Fixpoint digit_prefix (acc : Z) (s : string) : Z :=
  match s with
  | String c s' => if is_digit c then digit_prefix (acc * 10 + digit_val c)%Z s' else acc
  | EmptyString => acc
  end.

Definition clamp64 (z : Z) : Z := (Z.max (- 2 ^ 63) (Z.min z (2 ^ 63 - 1)))%Z.

Definition sql_cast_int (s : string) : Z :=
  clamp64 match lstrip s with
          | String "-"%char s' => (- digit_prefix 0 s')%Z
          | String "+"%char s' => digit_prefix 0 s'
          | s' => digit_prefix 0 s'
          end.

(** [substr(tag, instr(tag, '..') + 2)] when the tag has two dots, the tag
    itself otherwise. *)
Fixpoint after_dots (s : string) : option string :=
  match s with
  | String "."%char (String "."%char s') => Some s'
  | String _ s' => after_dots s'
  | EmptyString => None
  end.

Definition tag_number (tag : string) : Z := sql_cast_int (default tag (after_dots tag)).

(** ** The codec of the events *)

(** What [raw.get("event_type", "")] can be. *)
Inductive type_field := TypeStr (s : string) | TypeOther | TypeUnhashable.

(** [model_dump_json], [json.loads], the accesses to the decoded object and
    [cls.model_validate] for a class given by its name.  [None] stands for
    the errors that [_try_deserialize] catches.  Nothing is assumed of the
    codec: events may come back changed (excluded fields, [pformat] texts,
    lists for tuples) or not at all. *)
Class EventCodec (D J : Type) := {
  model_dump_json : event → D;
  json_loads : D → option J;
  raw_is_dict : J → bool;
  raw_event_type : J → type_field;
  raw_set_event_type : string → J → J;
  model_validate : string → J → option event
}.

(** [_CORE_TYPES]: the classes of the core events under their registry keys,
    which are their names. *)
Definition core_types : dict string string :=
  (λ n, (n, n)) <$> ["UserEvent"; "AssistantEvent"; "ToolCallEvent"; "Task"; "Message"; "Reasoning";
    "Error"; "Feedback"; "LLMResponse"; "PythonOutput"; "Summary"; "BeforeTurn"; "AfterTurn";
    "DecisionRecord"; "TuiSessionResumed"; "TuiSessionCleared"]%string.

(** ** The database *)

(** A row of [events]. *)
Record row (D : Type) := mk_row {
  r_tag : string;
  r_event_id : string;
  r_event_type : string;
  r_status : event_status;
  r_data : D;
  r_order : Z
}.
Arguments mk_row {D}. Arguments r_tag {D}. Arguments r_event_id {D}. Arguments r_event_type {D}.
Arguments r_status {D}. Arguments r_data {D}. Arguments r_order {D}.

Definition r_with_data {D} (data : D) (s : event_status) (r : row D) : row D :=
  mk_row (r_tag r) (r_event_id r) (r_event_type r) s data (r_order r).

(** [events] and [active_tags (position, tag)]. *)
Record db (D : Type) := mk_db { db_events : list (row D); db_active : list (Z * string) }.
Arguments mk_db {D}. Arguments db_events {D}. Arguments db_active {D}.

(** One [SQLiteEventBackend]. *)
Record sqlite (D : Type) := mk_sqlite {
  sq_db : db D;
  sq_insertion_counter : Z;
  sq_registry : dict string string;
  sq_next_tag_num : Z;
  sq_on_io_error : bool               (** the callback is set *)
}.
Arguments mk_sqlite {D}. Arguments sq_db {D}. Arguments sq_insertion_counter {D}.
Arguments sq_registry {D}. Arguments sq_next_tag_num {D}. Arguments sq_on_io_error {D}.

(** What happens to one write: nothing special, or SQLite raises, with the
    transaction committed ([true]) or rolled back. *)
Notation fault := (option (sql_exc * bool)) (only parsing).

(** The faults of one attempt at a call that reads and then writes. *)
Record attempt := mk_attempt { at_read : option sql_exc; at_write : fault }.
Definition no_fault : attempt := mk_attempt None None.

Section Sqlite.
Context {D J : Type} `{EventCodec D J}.
(** The global registry of event classes. *)
Context (global_registry : dict string string).

Implicit Types (s : sqlite D) (b : db D).

Definition sq_with_db b s : sqlite D :=
  mk_sqlite b (sq_insertion_counter s) (sq_registry s) (sq_next_tag_num s) (sq_on_io_error s).
Definition sq_with_next (n : Z) s : sqlite D :=
  mk_sqlite (sq_db s) (sq_insertion_counter s) (sq_registry s) n (sq_on_io_error s).
Definition sq_with_counter (n : Z) s : sqlite D :=
  mk_sqlite (sq_db s) n (sq_registry s) (sq_next_tag_num s) (sq_on_io_error s).

(** A write under a fault: the database afterwards and the error, if any. *)
Definition transact (f : fault) (tx : db D → sql_exc + db D) b : db D * option sql_exc :=
  match f with
  | None => match tx b with inr b' => (b', None) | inl x => (b, Some x) end
  | Some (x, landed) =>
      (match tx b with inr b' => if landed then b' else b | inl _ => b end, Some x)
  end.

(** ** Reading an event back *)

(** [_deserialize] under [_try_deserialize]. *)
Definition try_deserialize (registry : dict string string) (data : D) : option event :=
  raw ← json_loads data;
  if negb (raw_is_dict raw) then None
  else
    match raw_event_type raw with
    | TypeStr t =>
        if bool_decide (t = "LLMOutput"%string)
        then model_validate "LLMResponse" (raw_set_event_type "LLMResponse" raw)
        else
          match dict_get t registry with
          | Some cls => model_validate cls raw
          | None =>
              match dict_get t global_registry with
              | Some cls => model_validate cls raw
              | None => model_validate "Metadata" raw
              end
          end
    | TypeOther => model_validate "Metadata" raw
    | TypeUnhashable => None
    end.

(** [register_event_type] of the class [cls] with registry key [key]. *)
Definition register_event_type (key cls : string) s : sqlite D :=
  mk_sqlite (sq_db s) (sq_insertion_counter s) (dict_set key cls (sq_registry s))
    (sq_next_tag_num s) (sq_on_io_error s).

(** A read that degrades to [dflt] on a corrupt database. *)
Definition degrade {A} (f : option sql_exc) (dflt : A) (k : A) : storage_exc + A :=
  match f with
  | Some x => if is_corruption_error x then inr dflt else inl (XSql x)
  | None => inr k
  end.

(** A read that does not. *)
Definition strict {A} (f : option sql_exc) (k : A) : storage_exc + A :=
  match f with Some x => inl (XSql x) | None => inr k end.

(** [_max_insertion_order], [_max_position], [max_tag_num]. *)
Definition max_insertion_order b : Z := default (-1)%Z (sql_max (r_order <$> db_events b)).
Definition max_position b : Z := default (-1)%Z (sql_max (fst <$> db_active b)).
Definition max_tag_num b : Z := default 0%Z (sql_max ((λ r, tag_number (r_tag r)) <$> db_events b)).

(** [__init__] over the tables of [conn], with the faults of its two reads;
    the owner sets the callback afterwards. *)
Definition open_backend (f1 f2 : option sql_exc) (callback : bool) b : storage_exc + sqlite D :=
  match degrade f1 (-1)%Z (max_insertion_order b) with
  | inl x => inl x
  | inr order =>
      match degrade f2 0%Z (max_tag_num b) with
      | inl x => inl x
      | inr n => inr (mk_sqlite b (order + 1)%Z core_types (n + 1)%Z callback)
      end
  end.

(** ** Writing *)

(** [_do_store]. *)
Definition do_store (tag : string) (e : event) (order : Z) b : sql_exc + db D :=
  if bool_decide (tag ∈ (r_tag <$> db_events b)) then inl unique_violation
  else
    let events := db_events b ++
      [mk_row tag (ev_id e) (ev_type e) (ev_status e) (model_dump_json (J := J) e) order] in
    if bool_decide (tag ∈ (snd <$> db_active b)) then inl unique_violation
    else inr (mk_db events (db_active b ++ [((max_position b + 1)%Z, tag)])).

(** [_raise_for_db_error]. *)
Definition raise_for_db_error (x : sql_exc) : storage_exc :=
  if is_corruption_error x then XCorruptDatabase (x_msg x) else XSql x.

(** [store]; [reconnect] is what the callback raises, if it does, and [f1],
    [f2] are the faults of the first write and of the retry. *)
Definition store (f1 f2 : fault) (reconnect : option storage_exc) (tag : string) (e : event) s
    : sqlite D * (storage_exc + unit) :=
  let order := sq_insertion_counter s in
  let s0 := sq_with_counter (order + 1)%Z s in
  let stored b := (sq_with_next (Z.max (sq_next_tag_num s) (tag_max_num tag + 1))%Z (sq_with_db b s0),
                   inr tt) in
  match transact f1 (do_store tag e order) (sq_db s0) with
  | (b1, None) => stored b1
  | (b1, Some x) =>
      if bool_decide (x_class x = OperationalError) then
        if negb (is_disk_io x) || negb (sq_on_io_error s) then (sq_with_db b1 s0, inl (XSql x))
        else
          match reconnect with
          | Some y => (sq_with_db b1 s0, inl y)
          | None =>
              match transact f2 (do_store tag e order) b1 with
              | (b2, None) => stored b2
              | (b2, Some y) =>
                  if bool_decide (x_class y = IntegrityError) then stored b2
                  else (sq_with_db b2 s0, inl (raise_for_db_error y))
              end
          end
      else (sq_with_db b1 s0, inl (raise_for_db_error x))
  end.

(** [_retry_on_io_error]. *)
Definition retry_on_io_error {A} (fn : attempt → sqlite D → sqlite D * (storage_exc + A))
    (a1 a2 : attempt) (reconnect : option storage_exc) s : sqlite D * (storage_exc + A) :=
  match fn a1 s with
  | (s1, inl (XSql x)) =>
      if negb (bool_decide (x_class x = OperationalError)) || negb (is_disk_io x)
         || negb (sq_on_io_error s)
      then (s1, inl (XSql x))
      else match reconnect with Some y => (s1, inl y) | None => fn a2 s1 end
  | r => r
  end.

(** The row with the given tag, its primary key. *)
Definition find_row (tag : string) b : option (row D) :=
  snd <$> list_find (λ r, r_tag r = tag) (db_events b).

(** The rewriting of one event that [update] and [set_status] share. *)
Definition rewrite_event (f : event → event) (tag : string) (a : attempt) s
    : sqlite D * (storage_exc + bool) :=
  match at_read a with
  | Some x => (s, inl (XSql x))
  | None =>
      match find_row tag (sq_db s) with
      | None => (s, inr false)
      | Some r =>
          match try_deserialize (sq_registry s) (r_data r) with
          | None => (s, inr false)
          | Some e =>
              let e' := f e in
              let tx b := inr (mk_db ((λ r, if bool_decide (r_tag r = tag)
                                            then r_with_data (model_dump_json (J := J) e') (ev_status e') r
                                            else r) <$> db_events b) (db_active b)) in
              match transact (at_write a) tx (sq_db s) with
              | (b, None) => (sq_with_db b s, inr true)
              | (b, Some x) => (sq_with_db b s, inl (XSql x))
              end
          end
      end
  end.

(** [_do_update] and [update]. *)
Definition do_update (tag : string) (fields : list field_update) :=
  rewrite_event (apply_fields fields) tag.
Definition update (a1 a2 : attempt) (reconnect : option storage_exc) (tag : string)
    (fields : list field_update) s := retry_on_io_error (do_update tag fields) a1 a2 reconnect s.

(** [_do_set_status] and [set_status]. *)
Definition do_set_status (tag : string) (status : event_status) :=
  rewrite_event (with_status status) tag.
Definition set_status (a1 a2 : attempt) (reconnect : option storage_exc) (tag : string)
    (status : event_status) s := retry_on_io_error (do_set_status tag status) a1 a2 reconnect s.

(** [_do_remove] and [remove]. *)
Definition do_remove (tag : string) (a : attempt) s : sqlite D * (storage_exc + bool) :=
  match degrade (at_read a) None (find_row tag (sq_db s)) with
  | inl x => (s, inl x)
  | inr None => (s, inr false)
  | inr (Some _) =>
      let tx b := inr (mk_db (List.filter (λ r, negb (bool_decide (r_tag r = tag))) (db_events b))
                         (List.filter (λ p, negb (bool_decide (p.2 = tag))) (db_active b))) in
      match transact (at_write a) tx (sq_db s) with
      | (b, None) => (sq_with_db b s, inr true)
      | (b, Some x) => (sq_with_db b s, inl (XSql x))
      end
  end.
Definition remove (a1 a2 : attempt) (reconnect : option storage_exc) (tag : string) s :=
  retry_on_io_error (do_remove tag) a1 a2 reconnect s.

(** [insert_active_tag]: the shift and the insertion are one transaction. *)
Definition insert_active_tag (f : fault) (tag : string) (index : nat) s
    : sqlite D * (storage_exc + unit) :=
  let tx b :=
    let shifted := (λ p, if (Z.of_nat index <=? p.1)%Z then ((p.1 + 1)%Z, p.2) else p) <$> db_active b in
    if bool_decide (tag ∈ (snd <$> db_active b)) then inl unique_violation
    else inr (mk_db (db_events b) (shifted ++ [(Z.of_nat index, tag)])) in
  match transact f tx (sq_db s) with
  | (b, None) => (sq_with_db b s, inr tt)
  | (b, Some x) => (sq_with_db b s, inl (XSql x))
  end.

(** [remove_active_tag]. *)
Definition remove_active_tag (f : fault) (tag : string) s : sqlite D * (storage_exc + bool) :=
  let tx b := inr (mk_db (db_events b)
                     (List.filter (λ p, negb (bool_decide (p.2 = tag))) (db_active b))) in
  match transact f tx (sq_db s) with
  | (b, None) => (sq_with_db b s, inr (bool_decide (tag ∈ (snd <$> db_active (sq_db s)))))
  | (b, Some x) => (sq_with_db b s, inl (XSql x))
  end.

(** [clear]. *)
Definition clear (f : fault) s : sqlite D * (storage_exc + unit) :=
  match transact f (λ _, inr (mk_db [] [])) (sq_db s) with
  | (b, None) => (sq_with_next 1 (sq_with_counter 0 (sq_with_db b s)), inr tt)
  | (b, Some x) => (sq_with_db b s, inl (XSql x))
  end.

(** [allocate_next_tag]. *)
Definition allocate_next_tag s : string * sqlite D :=
  (str_int (sq_next_tag_num s), sq_with_next (sq_next_tag_num s + 1)%Z s).

(** ** Reading *)

(** [get]. *)
Definition get (f : option sql_exc) (tag : string) s : storage_exc + option event :=
  degrade f None (find_row tag (sq_db s) ≫= λ r, try_deserialize (sq_registry s) (r_data r)).

(** The first row with the given [event_id] in rowid order, which the index on
    the column keeps for equal ids. *)
Definition find_row_by_id (i : string) b : option (row D) :=
  snd <$> list_find (λ r, r_event_id r = i) (db_events b).

(** [get_by_id] and [find_tag]. *)
Definition get_by_id (f : option sql_exc) (i : string) s : storage_exc + option event :=
  degrade f None (find_row_by_id i (sq_db s) ≫= λ r, try_deserialize (sq_registry s) (r_data r)).
Definition find_tag (f : option sql_exc) (e : event) s : storage_exc + option string :=
  degrade f None (r_tag <$> find_row_by_id (ev_id e) (sq_db s)).

(** [active_tags]. *)
Definition active_tags (f : option sql_exc) s : storage_exc + list string :=
  degrade f [] (snd <$> order_by fst (db_active (sq_db s))).

(** [all_events]. *)
Definition all_events (f : option sql_exc) s : storage_exc + list event :=
  degrade f [] (omap (λ r, try_deserialize (sq_registry s) (r_data r))
                 (order_by r_order (db_events (sq_db s)))).

(** [__len__]. *)
Definition len (f : option sql_exc) s : storage_exc + nat :=
  strict f (length (db_events (sq_db s))).

End Sqlite.

(** ** The schema and the snapshots *)

(** A row of [snapshots]; [created_at] and the id are compared bytewise. *)
Record snap_row := mk_snap { sn_id : string; sn_created_at : string; sn_data : string }.

(** [SELECT snapshot_id ... ORDER BY created_at DESC, rowid DESC LIMIT 1], over
    the rows in rowid order. *)
Definition latest_row (rows : list snap_row) : option snap_row :=
  foldl (λ best r,
    match best with
    | Some x => if String.leb (sn_created_at x) (sn_created_at r) then Some r else best
    | None => Some r
    end) None rows.

(** [_ensure_schema]: the version row read back, or written on a new file. *)
Definition schema_version : Z := 1.

Definition ensure_schema (version : option Z) : result Z :=
  match version with
  | None => Ok schema_version
  | Some v => if bool_decide (v = schema_version) then Ok v else Raise RuntimeError
  end.

(** [x or y] on optional strings, where [""] is falsy. *)
Definition or_default (x : option string) (y : string) : string :=
  match x with Some "" | None => y | Some s => s end%string.

(** [_insert_snapshot], with the generated id and the current time. *)
Definition insert_snapshot (data : string) (snapshot_id created_at : option string) (uuid now : string)
    (f : option (sql_exc * bool)) (rows : list snap_row) : list snap_row * (storage_exc + string) :=
  let i := or_default snapshot_id uuid in
  let rows' :=
    if bool_decide (i ∈ (sn_id <$> rows)) then inl unique_violation
    else inr (rows ++ [mk_snap i (or_default created_at now) data]) in
  match f, rows' with
  | None, inr rows' => (rows', inr i)
  | None, inl x => (rows, inl (XSql x))
  | Some (x, landed), inr rows' => (if landed then rows' else rows, inl (XSql x))
  | Some (x, _), inl _ => (rows, inl (XSql x))
  end.

Section Snapshots.
(** [json.loads] as a validity check and as the decoder, and what restoring a
    decoded snapshot does to an agent. *)
Context {V A : Type} (json_loads : string → option V) (restore : V → A → storage_exc + A).

(** [save_snapshot_json]. *)
Definition save_snapshot_json (data : string) (snapshot_id created_at : option string)
    (uuid now : string) (f : option (sql_exc * bool)) (rows : list snap_row)
    : list snap_row * (storage_exc + string) :=
  match json_loads data with
  | None => (rows, inl (XPython ValueError))
  | Some _ => insert_snapshot data snapshot_id created_at uuid now f rows
  end.

(** [restore_snapshot]. *)
Definition restore_snapshot (snapshot_id : string) (rows : list snap_row) (agent : A)
    : storage_exc + A :=
  match list_find (λ r, sn_id r = snapshot_id) rows with
  | None => inl XSnapshotNotFound
  | Some (_, r) =>
      match json_loads (sn_data r) with
      | None => inl (XPython ValueError)
      | Some v => restore v agent
      end
  end.

(** [get_latest_snapshot_id]. *)
Definition get_latest_snapshot_id (rows : list snap_row) : option string := sn_id <$> latest_row rows.

(** [restore_latest_snapshot]. *)
Definition restore_latest_snapshot (rows : list snap_row) (agent : A) : storage_exc + (A * bool) :=
  match get_latest_snapshot_id rows with
  | None => inr (agent, false)
  | Some i => match restore_snapshot i rows agent with inl x => inl x | inr a => inr (a, true) end
  end.
End Snapshots.
