(* ===== verification/SqliteRuns.v ===== *)
(** * What the SQLite event store guarantees

    The invariant of the tables, the place where an active tag is inserted,
    the refinement of the protocol's contract by runs of calls, what a restart
    preserves, and the outcome of a store under input/output errors. *)

From stdpp Require Import sorting.
From S2P Require Import Prelude PyStr PyDict Values Events Sqlite.

(** ** [ORDER BY] on distinct keys *)

Section OrderBy.
Context {R : Type} (key : R → Z).
Implicit Types l : list R.

Definition strictly l : Prop := StronglySorted (λ x y, (key x < key y)%Z) l.

#[local] Instance key_le_trans : Transitive (key_le key).
Proof. intros x y z. unfold key_le. lia. Qed.
#[local] Instance key_le_total : Total (key_le key).
Proof. intros x y. unfold key_le. lia. Qed.

Lemma order_by_perm l : order_by key l ≡ₚ l.
Proof. apply merge_sort_Permutation. Qed.

Lemma strictly_inj l x y : strictly l → x ∈ l → y ∈ l → key x = key y → x = y.
Proof.
  induction 1 as [|z l Hl IH Hz]; intros Hx Hy Hk; [by apply elem_of_nil in Hx|].
  rewrite Forall_forall in Hz.
  apply elem_of_cons in Hx as [->|Hx]; apply elem_of_cons in Hy as [->|Hy]; auto.
  - apply Hz in Hy. lia.
  - apply Hz in Hx. lia.
Qed.

Lemma strictly_sorted l : strictly l → StronglySorted (key_le key) l.
Proof.
  induction 1 as [|x l Hl IH Hx]; constructor; [done|].
  eapply Forall_impl; [exact Hx|]. unfold key_le. simpl. lia.
Qed.

(** With distinct keys the order is determined. *)
Lemma order_by_unique l l' : strictly l' → l' ≡ₚ l → order_by key l = l'.
Proof.
  intros Hs Hp. apply (StronglySorted_unique_strong (key_le key)).
  - intros x y Hx Hy Hxy Hyx. unfold key_le in *.
    apply (strictly_inj l'); [done| |done|lia].
    by rewrite Hp, <- (order_by_perm l).
  - apply StronglySorted_merge_sort; apply _.
  - by apply strictly_sorted.
  - by rewrite order_by_perm, Hp.
Qed.

Lemma order_by_id l : strictly l → order_by key l = l.
Proof. intros. by apply order_by_unique. Qed.

Lemma strictly_order_by l : NoDup (key <$> l) → strictly (order_by key l).
Proof.
  intros Hnd. assert (StronglySorted (key_le key) (order_by key l)) as Hs
    by (apply StronglySorted_merge_sort; apply _).
  rewrite <- (order_by_perm l) in Hnd. unfold strictly.
  induction Hs as [|x k Hk IH Hx]; constructor.
  - apply IH. by apply NoDup_cons in Hnd as [_ ?].
  - apply NoDup_cons in Hnd as [Hnin _]. rewrite Forall_forall in Hx |- *.
    intros y Hy. specialize (Hx y Hy). unfold key_le in Hx.
    assert (key x ≠ key y); [|lia]. intros Heq. apply Hnin. rewrite Heq. by apply list_elem_of_fmap_2.
Qed.

Lemma strictly_nodup l : strictly l → NoDup (key <$> l).
Proof.
  induction 1 as [|x l Hl IH Hx]; simpl; constructor; [|done].
  rewrite list_elem_of_fmap. intros (y & Heq & Hy). rewrite Forall_forall in Hx. apply Hx in Hy. lia.
Qed.

Lemma strictly_snoc l x : strictly l → (∀ y, y ∈ l → (key y < key x)%Z) → strictly (l ++ [x]).
Proof.
  induction 1 as [|z l Hl IH Hz]; intros Hx; simpl; [repeat constructor|]. constructor.
  - apply IH. intros. apply Hx. by right.
  - apply Forall_app; split; [done|]. constructor; [|done]. apply Hx. by left.
Qed.

Lemma strictly_app l k : strictly l → strictly k →
  (∀ x y, x ∈ l → y ∈ k → (key x < key y)%Z) → strictly (l ++ k).
Proof.
  induction 1 as [|z l Hl IH Hz]; intros Hk Hlk; simpl; [done|]. constructor.
  - apply IH; [done|]. intros. apply Hlk; [by right|done].
  - apply Forall_app; split; [done|]. apply Forall_forall. intros y Hy. apply Hlk; [by left|done].
Qed.

Lemma strictly_filter (p : R → bool) l : strictly l → strictly (List.filter p l).
Proof.
  induction 1 as [|z l Hl IH Hz]; simpl; [constructor|]. destruct (p z); [|done].
  constructor; [done|]. rewrite Forall_forall in Hz |- *. intros x Hx.
  apply list_elem_of_In, filter_In in Hx as [Hx _]. by apply Hz, list_elem_of_In.
Qed.

(** A sorted list is what lies below a key and what does not. *)
Lemma strictly_split (i : Z) l : strictly l →
  l = List.filter (λ x, (key x <? i)%Z) l ++ List.filter (λ x, (i <=? key x)%Z) l.
Proof.
  induction 1 as [|z l Hl IH Hz]; [done|]. cbn [List.filter].
  destruct (key z <? i)%Z eqn:Hlt; bool_prop.
  - replace (i <=? key z)%Z with false by lia. simpl. by f_equal.
  - replace (i <=? key z)%Z with true by lia.
    assert (List.filter (λ x, (key x <? i)%Z) l = []) as Hnil.
    { clear IH. rewrite Forall_forall in Hz. clear Hl. induction l as [|y l IHl]; [done|]. cbn [List.filter].
      assert (key z < key y)%Z by (apply Hz; by left).
      replace (key y <? i)%Z with false by lia. apply IHl. intros. apply Hz. by right. }
    rewrite Hnil in IH |- *. simpl in *. by f_equal.
Qed.

Lemma order_by_filter (p : R → bool) l : NoDup (key <$> l) →
  order_by key (List.filter p l) = List.filter p (order_by key l).
Proof.
  intros Hnd. apply order_by_unique; [by apply strictly_filter, strictly_order_by|].
  assert (∀ l k : list R, l ≡ₚ k → List.filter p l ≡ₚ List.filter p k) as Hperm.
  { clear. induction 1 as [|x l k _ IH|x y l|l k m _ IH1 _ IH2]; simpl.
    - done.
    - destruct (p x); [by constructor|done].
    - destruct (p x), (p y); try done. constructor.
    - by etrans. }
  apply Hperm, order_by_perm.
Qed.

Lemma order_by_snoc l x : NoDup (key <$> l) → (∀ y, y ∈ l → (key y < key x)%Z) →
  order_by key (l ++ [x]) = order_by key l ++ [x].
Proof.
  intros Hnd Hx. apply order_by_unique.
  - apply strictly_snoc; [by apply strictly_order_by|]. intros y. rewrite (order_by_perm l). apply Hx.
  - by rewrite order_by_perm.
Qed.
End OrderBy.

(** ** Inserting an active tag *)

(** The shift of [insert_active_tag]. *)
Definition shift (i : Z) (p : Z * string) : Z * string :=
  if (i <=? p.1)%Z then ((p.1 + 1)%Z, p.2) else p.

(** How many active tags lie before position [i]. *)
Definition place (i : nat) (active : list (Z * string)) : nat :=
  length (List.filter (λ p, (p.1 <? Z.of_nat i)%Z) active).

Lemma shift_snd i (l : list (Z * string)) : snd <$> (shift i <$> l) = snd <$> l.
Proof. induction l as [|[p t] l IH]; [done|]. cbn. unfold shift at 1. simpl. by destruct (i <=? p)%Z; f_equal. Qed.

Lemma shift_below i (l : list (Z * string)) : shift i <$> List.filter (λ p, (p.1 <? i)%Z) l = List.filter (λ p, (p.1 <? i)%Z) l.
Proof.
  induction l as [|[p t] l IH]; [done|]. cbn. destruct (p <? i)%Z eqn:Hlt; [|done]. bool_prop. cbn.
  unfold shift at 1. simpl. replace (i <=? p)%Z with false by lia. by f_equal.
Qed.

Lemma strictly_shift i (l : list (Z * string)) : strictly fst l → strictly fst (shift i <$> l).
Proof.
  induction 1 as [|z l Hl IH Hz]; simpl; constructor; [done|].
  rewrite Forall_forall in Hz |- *. intros x (y & -> & Hy)%list_elem_of_fmap. specialize (Hz y Hy).
  simpl in Hz. unfold shift. destruct (i <=? z.1)%Z eqn:?, (i <=? y.1)%Z eqn:?; bool_prop; simpl; lia.
Qed.

(** The rows before the new position, the new row, the rows after it. *)
Lemma strictly_insert i t (L : list (Z * string)) : strictly fst L →
  strictly fst (List.filter (λ p, (p.1 <? i)%Z) L ++ (i, t) :: (shift i <$> List.filter (λ p, (i <=? p.1)%Z) L)).
Proof.
  intros Hs.
  assert (∀ x, x ∈ (shift i <$> List.filter (λ p, (i <=? p.1)%Z) L) → (i < x.1)%Z) as Hup.
  { intros x (y & -> & Hy)%list_elem_of_fmap. apply list_elem_of_In, filter_In in Hy as [_ Hy].
    bool_prop. unfold shift. replace (i <=? y.1)%Z with true by lia. simpl. lia. }
  assert (∀ x, x ∈ List.filter (λ p, (p.1 <? i)%Z) L → (x.1 < i)%Z) as Hlow.
  { intros x Hx. apply list_elem_of_In, filter_In in Hx as [_ Hx]. by bool_prop. }
  apply strictly_app; [by apply strictly_filter| |].
  - constructor; [by apply strictly_shift, strictly_filter|]. apply Forall_forall. exact Hup.
  - intros x y Hx [->|Hy]%elem_of_cons; [by apply Hlow|]. apply Hlow in Hx. apply Hup in Hy. lia.
Qed.

(** The table after the shift and the insertion, in order. *)
Lemma order_by_insert i t (l : list (Z * string)) : NoDup (fst <$> l) →
  let L := order_by fst l in
  order_by fst ((shift i <$> l) ++ [(i, t)]) =
    List.filter (λ p, (p.1 <? i)%Z) L ++ (i, t) :: (shift i <$> List.filter (λ p, (i <=? p.1)%Z) L).
Proof.
  intros Hnd L. pose proof (strictly_order_by fst l Hnd) as Hs. fold L in Hs.
  pose proof (strictly_split fst i L Hs) as Hsplit.
  apply order_by_unique; [by apply strictly_insert|].
  rewrite <- (order_by_perm fst l). fold L. rewrite Hsplit at 3. rewrite fmap_app, shift_below.
  rewrite <- (app_assoc _ _ [(i, t)]). apply Permutation_app_head. by rewrite Permutation_app_comm.
Qed.

Lemma length_filter_perm {A} (p : A → bool) (l k : list A) :
  l ≡ₚ k → length (List.filter p l) = length (List.filter p k).
Proof.
  induction 1; simpl; auto; [destruct (p x); simpl; congruence|destruct (p x), (p y); done|congruence].
Qed.

(** The tag lands after the tags that lie before its position. *)
Lemma insert_lands i t (l : list (Z * string)) : NoDup (fst <$> l) →
  snd <$> order_by fst ((shift (Z.of_nat i) <$> l) ++ [(Z.of_nat i, t)]) =
  list_insert_at (place i l) t (snd <$> order_by fst l).
Proof.
  intros Hnd. rewrite order_by_insert by done.
  pose proof (strictly_split fst (Z.of_nat i) _ (strictly_order_by fst l Hnd)) as Hsplit.
  set (lo := List.filter (λ p, (p.1 <? Z.of_nat i)%Z) (order_by fst l)) in *.
  set (hi := List.filter (λ p, (Z.of_nat i <=? p.1)%Z) (order_by fst l)) in *.
  assert (place i l = length (snd <$> lo)) as ->.
  { rewrite length_fmap. unfold lo, place. apply length_filter_perm. by rewrite order_by_perm. }
  rewrite Hsplit, !fmap_app. unfold list_insert_at. rewrite take_app_length, drop_app_length.
  cbn [fmap list_fmap snd]. f_equal. f_equal. apply shift_snd.
Qed.

Lemma insert_nodup i t (l : list (Z * string)) : NoDup (fst <$> l) →
  NoDup (fst <$> ((shift i <$> l) ++ [(i, t)])).
Proof.
  intros Hnd. rewrite <- (order_by_perm fst (_ ++ _)), order_by_insert by done.
  apply strictly_nodup, strictly_insert. by apply strictly_order_by.
Qed.

Lemma sql_max_ge (l : list Z) d x : x ∈ l → (x ≤ default d (sql_max l))%Z.
Proof.
  assert (∀ (l : list Z) a, (a ≤ foldl Z.max a l)%Z ∧ ∀ x, x ∈ l → (x ≤ foldl Z.max a l)%Z) as Hgo.
  { clear. induction l as [|y l IH]; intros a; simpl; [split; [lia|by intros x ?%elem_of_nil]|].
    destruct (IH (Z.max a y)) as [H1 H2]. split; [lia|]. intros x [->|Hx]%elem_of_cons; [lia|auto]. }
  destruct l as [|y l]; [by intros ?%elem_of_nil|]. simpl. destruct (Hgo l y) as [H1 H2].
  intros [->|Hx]%elem_of_cons; auto.
Qed.

(** ** The contract at the level of values

    A persistent store gives back copies of the events, so its contract speaks
    of values: under every tag, in insertion order, what is read back of its
    event ([None] when no class validates it), the active tags and the next
    tag. *)
Record elog := mk_elog { el_log : list (string * option event); el_active : list string; el_next : Z }.

Definition elog_empty : elog := mk_elog [] [] 1.

Definition elog_set (t : string) (v : option event) (l : list (string * option event)) :=
  (λ te, if bool_decide (te.1 = t) then (te.1, v) else te) <$> l.

(** A call, and what it returns. *)
Inductive sq_op :=
  | QStore (t : string) (e : event)
  | QUpdate (t : string) (us : list field_update)
  | QSetStatus (t : string) (st : event_status)
  | QRemove (t : string)
  | QInsertActive (t : string) (i : nat)
  | QRemoveActive (t : string)
  | QClear
  | QAllocate.

Inductive reply := RNone | RBool (b : bool) | RTag (t : string).

(** [read_back e] is what reading the stored text of [e] gives. *)
Definition elog_apply (read_back : event → option event) (op : sq_op) (w : elog) : elog * (storage_exc + reply) :=
  let log := el_log w in let active := el_active w in
  let rewrite f t :=
    match dict_get t log with
    | Some (Some e) => (mk_elog (elog_set t (read_back (f e)) log) active (el_next w), inr (RBool true))
    | _ => (w, inr (RBool false))
    end in
  match op with
  | QStore t e =>
      if bool_decide (t ∈ log.*1 ∨ t ∈ active) then (w, inl (XSql unique_violation))
      else (mk_elog (log ++ [(t, read_back e)]) (active ++ [t]) (Z.max (el_next w) (tag_max_num t + 1)), inr RNone)
  | QUpdate t us => rewrite (apply_fields us) t
  | QSetStatus t st => rewrite (with_status st) t
  | QRemove t =>
      if bool_decide (t ∈ log.*1) then
        (mk_elog (List.filter (λ te, negb (bool_decide (te.1 = t))) log)
           (List.filter (λ u, negb (bool_decide (u = t))) active) (el_next w), inr (RBool true))
      else (w, inr (RBool false))
  | QInsertActive t i =>
      if bool_decide (t ∈ active) then (w, inl (XSql unique_violation))
      else (mk_elog log (list_insert_at i t active) (el_next w), inr RNone)
  | QRemoveActive t =>
      (mk_elog log (List.filter (λ u, negb (bool_decide (u = t))) active) (el_next w),
       inr (RBool (bool_decide (t ∈ active))))
  | QClear => (elog_empty, inr RNone)
  | QAllocate => (mk_elog log active (el_next w + 1), inr (RTag (str_int (el_next w))))
  end.

Definition map_reply {A} (f : A → reply) (r : storage_exc + A) : storage_exc + reply :=
  match r with inl x => inl x | inr a => inr (f a) end.

Section Runs.
Context {D J : Type} `{Hcodec : EventCodec D J}.
Context (global_registry : dict string string).

Local Abbreviation try_deserialize := (Sqlite.try_deserialize (D := D) (J := J) global_registry).
Implicit Types s : sqlite D.

(** The same call on the store, when SQLite reports no error. *)
Definition sq_apply (op : sq_op) s : sqlite D * (storage_exc + reply) :=
  match op with
  | QStore t e => prod_map id (map_reply (λ _, RNone)) (store (J := J) None None None t e s)
  | QUpdate t us =>
      prod_map id (map_reply RBool) (update (J := J) global_registry no_fault no_fault None t us s)
  | QSetStatus t st =>
      prod_map id (map_reply RBool) (set_status (J := J) global_registry no_fault no_fault None t st s)
  | QRemove t => prod_map id (map_reply RBool) (remove no_fault no_fault None t s)
  | QInsertActive t i => prod_map id (map_reply (λ _, RNone)) (insert_active_tag None t i s)
  | QRemoveActive t => prod_map id (map_reply RBool) (remove_active_tag None t s)
  | QClear => prod_map id (map_reply (λ _, RNone)) (clear None s)
  | QAllocate => let '(t, s') := allocate_next_tag s in (s', inr (RTag t))
  end.

(** What the store reads back of an event. *)
Definition stored_as (registry : dict string string) (e : event) : option event :=
  try_deserialize registry (model_dump_json (J := J) e).

(** ** The tables and the contract *)

Definition row_shows (registry : dict string string) (r : row D) (te : string * option event) : Prop :=
  r_tag r = te.1 ∧ try_deserialize registry (r_data r) = te.2.

(** The tables, the counters and the state of the contract that they stand
    for. *)
Record shows s (w : elog) : Prop := mk_shows {
  sh_rows : Forall2 (row_shows (sq_registry s)) (db_events (sq_db s)) (el_log w);
  sh_tags : NoDup (el_log w).*1;
  sh_order : strictly r_order (db_events (sq_db s));
  sh_counter : ∀ r, r ∈ db_events (sq_db s) → (r_order r < sq_insertion_counter s)%Z;
  sh_positions : NoDup (fst <$> db_active (sq_db s));
  sh_unique : NoDup (snd <$> db_active (sq_db s));
  sh_active : snd <$> order_by fst (db_active (sq_db s)) = el_active w;
  sh_next : sq_next_tag_num s = el_next w;
  sh_nonneg : Forall (λ p, (0 <= p.1)%Z) (db_active (sq_db s))
}.

Lemma shows_tags s w : shows s w → r_tag <$> db_events (sq_db s) = (el_log w).*1.
Proof.
  intros [Hrows _ _ _ _ _ _ _ _]. induction Hrows as [|r te rs log [Ht _] _ IH]; [done|].
  cbn. by rewrite Ht, IH.
Qed.

Lemma shows_active_elem s w t : shows s w → t ∈ (snd <$> db_active (sq_db s)) ↔ t ∈ el_active w.
Proof. intros Hs. rewrite <- (sh_active _ _ Hs). by rewrite (order_by_perm fst). Qed.

(** ** Every call keeps the tables in step with the contract *)

Lemma find_row_shows registry t (b : db D) log : Forall2 (row_shows registry) (db_events b) log →
  dict_get t log = (λ r, try_deserialize registry (r_data r)) <$> find_row t b.
Proof.
  unfold find_row. generalize (db_events b) as rows. clear b.
  induction 1 as [|r [u v] rows log [Ht Hd] Hrows IH]; [done|]. simpl in *. subst u v.
  destruct (decide (r_tag r = t)) as [Heq|Hne].
  - by rewrite decide_True by done.
  - rewrite decide_False by done. rewrite IH. by destruct (list_find _ rows) as [[]|].
Qed.

Lemma shows_set registry t d st (rows : list (row D)) log :
  Forall2 (row_shows registry) rows log →
  Forall2 (row_shows registry)
    ((λ r, if bool_decide (r_tag r = t) then r_with_data d st r else r) <$> rows)
    (elog_set t (try_deserialize registry d) log).
Proof.
  induction 1 as [|r te rows log [Ht Hd] Hrows IH]; constructor; [|done].
  rewrite Ht. by case_bool_decide.
Qed.

Lemma forall_filter {A} (P : A → Prop) (p : A → bool) l : Forall P l → Forall P (List.filter p l).
Proof. induction 1; simpl; [constructor|]. destruct (p x); [by constructor|done]. Qed.

Lemma strictly_map {R} (key : R → Z) (g : R → R) l : (∀ r, key (g r) = key r) →
  strictly key l → strictly key (g <$> l).
Proof.
  intros Hg. induction 1 as [|x l Hl IH Hx]; simpl; constructor; [done|].
  rewrite Forall_forall in Hx |- *. intros y (z & -> & Hz)%list_elem_of_fmap.
  rewrite !Hg. by apply Hx.
Qed.

Lemma elog_set_tags t v log : (elog_set t v log).*1 = log.*1.
Proof.
  unfold elog_set. induction log as [|[u e] log IH]; [done|]. cbn.
  rewrite IH. by destruct (bool_decide _).
Qed.

Lemma rewrite_shows f t s w : shows s w →
  let r := rewrite_event (J := J) global_registry f t no_fault s in
  match dict_get t (el_log w) with
  | Some (Some e) =>
      shows r.1 (mk_elog (elog_set t (stored_as (sq_registry s) (f e)) (el_log w)) (el_active w) (el_next w)) ∧
      r.2 = inr true
  | _ => r = (s, inr false)
  end.
Proof.
  intros Hs. unfold rewrite_event. simpl. rewrite (find_row_shows _ t _ _ (sh_rows _ _ Hs)).
  destruct (find_row t (sq_db s)) as [r|]; [|done]. simpl.
  destruct (try_deserialize (sq_registry s) (r_data r)) as [e|]; [|done].
  split; [|done]. destruct Hs as [H1 H2 H3 H4 H5 H6 H7 H8 H9]. constructor; simpl; try done.
  - by apply shows_set.
  - by rewrite elog_set_tags.
  - apply strictly_map; [|done]. intros x. by destruct (bool_decide _).
  - intros x (y & -> & Hy)%list_elem_of_fmap. apply H4 in Hy. by destruct (bool_decide _).
Qed.

Lemma filter_snd_order t (l : list (Z * string)) : NoDup (fst <$> l) →
  snd <$> order_by fst (List.filter (λ p, negb (bool_decide (p.2 = t))) l) =
  List.filter (λ u, negb (bool_decide (u = t))) (snd <$> order_by fst l).
Proof.
  intros Hnd. rewrite order_by_filter by done. generalize (order_by fst l) as L. clear.
  induction L as [|[p u] L IH]; [done|]. cbn. destruct (bool_decide (u = t)); cbn; [exact IH|].
  f_equal. exact IH.
Qed.

Lemma nodup_filter_fmap {A B} (g : A → B) (p : A → bool) l : NoDup (g <$> l) → NoDup (g <$> List.filter p l).
Proof.
  induction l as [|x l IH]; [done|]. cbn. intros [Hx Hl]%NoDup_cons. destruct (p x); [|by apply IH].
  cbn. constructor; [|by apply IH]. intros Hin. apply Hx.
  apply list_elem_of_fmap in Hin as (y & -> & Hy). apply list_elem_of_fmap_2.
  apply list_elem_of_In, filter_In in Hy as [Hy _]. by apply list_elem_of_In.
Qed.

Lemma remove_active_shows t s w : shows s w →
  shows (remove_active_tag None t s).1
    (mk_elog (el_log w) (List.filter (λ u, negb (bool_decide (u = t))) (el_active w)) (el_next w)) ∧
  (remove_active_tag None t s).2 = inr (bool_decide (t ∈ el_active w)).
Proof.
  intros Hs. pose proof (shows_active_elem s w t Hs) as Hiff. destruct Hs as [H1 H2 H3 H4 H5 H6 H7 H8 H9]. split.
  - constructor; simpl; try done; [by apply nodup_filter_fmap..| |by apply forall_filter].
    rewrite filter_snd_order by done. by rewrite H7.
  - cbn. by rewrite (bool_decide_ext _ _ Hiff).
Qed.

Lemma remove_shows t s w : shows s w →
  let b := bool_decide (t ∈ (el_log w).*1) in
  shows (do_remove t no_fault s).1
    (if b then mk_elog (List.filter (λ te, negb (bool_decide (te.1 = t))) (el_log w))
                 (List.filter (λ u, negb (bool_decide (u = t))) (el_active w)) (el_next w) else w) ∧
  (do_remove t no_fault s).2 = inr b.
Proof.
  intros Hs. pose proof (find_row_shows _ t _ _ (sh_rows _ _ Hs)) as Hfind. unfold do_remove. cbn.
  destruct (find_row t (sq_db s)) as [r|]; simpl in Hfind.
  2:{ rewrite bool_decide_eq_false_2 by (by apply dict_get_None). done. }
  rewrite bool_decide_eq_true_2 by (apply dict_get_Some_elem in Hfind; by apply (list_elem_of_fmap_2 fst) in Hfind).
  split; [|done]. destruct Hs as [H1 H2 H3 H4 H5 H6 H7 H8 H9]. constructor; simpl; try done.
  - clear -H1. induction H1 as [|r te rows log Hr Hrows IH]; [constructor|]. cbn [List.filter].
    pose proof Hr as (Ht & _). rewrite Ht. destruct (bool_decide (te.1 = t)); simpl; [done|]. by constructor.
  - by apply nodup_filter_fmap.
  - by apply strictly_filter.
  - intros x Hx. apply list_elem_of_In, filter_In in Hx as [Hx _]. by apply H4, list_elem_of_In.
  - by apply nodup_filter_fmap.
  - by apply nodup_filter_fmap.
  - rewrite filter_snd_order by done. by rewrite H7.
  - by apply forall_filter.
Qed.

(** The position decides where the tag goes. *)
Lemma insert_shows t i s w : shows s w →
  shows (insert_active_tag None t i s).1
    (if bool_decide (t ∈ el_active w) then w
     else mk_elog (el_log w) (list_insert_at (place i (db_active (sq_db s))) t (el_active w)) (el_next w)) ∧
  (insert_active_tag None t i s).2 =
    if bool_decide (t ∈ el_active w) then inl (XSql unique_violation) else inr tt.
Proof.
  intros Hs. pose proof (shows_active_elem s w t Hs) as Hiff. unfold insert_active_tag.
  cbn [transact]. rewrite (bool_decide_ext _ _ Hiff). destruct (decide (t ∈ el_active w)) as [Hin|Hnin].
  { rewrite bool_decide_eq_true_2 by done. split; [|done]. by destruct s. }
  rewrite bool_decide_eq_false_2 by done. split; [|done].
  destruct Hs as [H1 H2 H3 H4 H5 H6 H7 H8 H9].
  change (λ p : Z * string, if (Z.of_nat i <=? p.1)%Z then ((p.1 + 1)%Z, p.2) else p) with (shift (Z.of_nat i)).
  constructor; simpl; try done.
  - by apply insert_nodup.
  - rewrite fmap_app, shift_snd. apply NoDup_app. split_and!; [done| |by apply NoDup_singleton].
    intros u Hu ->%list_elem_of_singleton. by apply Hnin, Hiff.
  - by rewrite insert_lands, H7.
  - apply Forall_app; split; [|constructor; simpl; [lia|done]]. apply Forall_fmap.
    eapply Forall_impl; [exact H9|]. intros [p u]. unfold shift. simpl. destruct (_ <=? _)%Z; simpl; lia.
Qed.

Lemma insert_at_min {A} i (x : A) l : list_insert_at (i `min` length l) x l = list_insert_at i x l.
Proof.
  unfold list_insert_at. destruct (decide (i ≤ length l)) as [Hle|Hgt]; [by rewrite Nat.min_l|].
  rewrite Nat.min_r by lia. by rewrite !(take_ge l), !(drop_ge l) by lia.
Qed.

Lemma store_shows t e s w : shows s w →
  let dup := bool_decide (t ∈ (el_log w).*1 ∨ t ∈ el_active w) in
  let r := store (J := J) None None None t e s in
  shows r.1 (if dup then w else mk_elog (el_log w ++ [(t, stored_as (sq_registry s) e)]) (el_active w ++ [t])
                                 (Z.max (el_next w) (tag_max_num t + 1))) ∧
  r.2 = if dup then inl (XSql unique_violation) else inr tt.
Proof.
  intros Hs dup r. pose proof (shows_active_elem s w t Hs) as Hiff. subst dup r.
  unfold store, transact, do_store. cbn [sq_db sq_with_counter].
  rewrite (shows_tags s w Hs). rewrite (bool_decide_ext _ _ Hiff).
  assert (shows (sq_with_counter (sq_insertion_counter s + 1) s) w) as Hs'.
  { destruct Hs as [H1 H2 H3 H4 H5 H6 H7 H8 H9]. constructor; simpl; try done.
    intros r Hr. apply H4 in Hr. lia. }
  assert (raise_for_db_error unique_violation = XSql unique_violation) as Hraise
    by (vm_compute; reflexivity).
  destruct (decide (t ∈ (el_log w).*1)) as [Hin|Hnin].
  { rewrite bool_decide_eq_true_2, (bool_decide_eq_true_2 (_ ∨ _)) by tauto.
    simpl. rewrite Hraise. split; [by destruct s|done]. }
  rewrite bool_decide_eq_false_2 by done. destruct (decide (t ∈ el_active w)) as [Hin|Hnin'].
  { rewrite bool_decide_eq_true_2, (bool_decide_eq_true_2 (_ ∨ _)) by tauto.
    simpl. rewrite Hraise. split; [by destruct s|done]. }
  rewrite bool_decide_eq_false_2, (bool_decide_eq_false_2 (_ ∨ _)) by tauto.
  split; [|done]. destruct Hs as [H1 H2 H3 H4 H5 H6 H7 H8 H9].
  assert (∀ p, p ∈ db_active (sq_db s) → (p.1 < max_position (sq_db s) + 1)%Z) as Hmax.
  { intros p Hp. unfold max_position.
    pose proof (sql_max_ge (fst <$> db_active (sq_db s)) (-1) p.1 (list_elem_of_fmap_2 fst _ _ Hp)). lia. }
  constructor; simpl; try done.
  - apply Forall2_app; [done|]. by constructor.
  - rewrite fmap_app. apply NoDup_app. split_and!; [done| |by apply NoDup_singleton].
    intros u Hu ->%list_elem_of_singleton. done.
  - apply strictly_snoc; [done|]. intros r Hr. by apply H4.
  - intros r [Hr| ->%list_elem_of_singleton]%elem_of_app; simpl; [apply H4 in Hr; lia|lia].
  - rewrite fmap_app. apply NoDup_app. split_and!; [done| |by apply NoDup_singleton].
    intros u (p & -> & Hp)%list_elem_of_fmap Heq%list_elem_of_singleton. apply Hmax in Hp. simpl in Heq. lia.
  - rewrite fmap_app. apply NoDup_app. split_and!; [done| |by apply NoDup_singleton].
    intros u Hu ->%list_elem_of_singleton. by apply Hnin', Hiff.
  - rewrite order_by_snoc by done. rewrite fmap_app, H7. done.
  - by rewrite H8.
  - apply Forall_app; split; [done|]. constructor; [|done]. simpl. unfold max_position.
    rewrite Forall_forall in H9. destruct (db_active (sq_db s)) as [|p l]; [done|].
    pose proof (sql_max_ge (fst <$> p :: l) (-1) p.1 (list_elem_of_fmap_2 fst _ _ (list_elem_of_here _ _))).
    specialize (H9 p (list_elem_of_here _ _)). simpl in *. lia.
Qed.

(** ** Runs of calls *)

(** An insertion is aligned when the positions below its index are as many as
    the active tags below it, as in a table without gaps. *)
Definition op_aligned (op : sq_op) s : Prop :=
  match op with
  | QInsertActive _ i =>
      place i (db_active (sq_db s)) = i `min` length (order_by fst (db_active (sq_db s)))
  | _ => True
  end.

Fixpoint aligned (ops : list sq_op) s : Prop :=
  match ops with
  | [] => True
  | op :: ops' => op_aligned op s ∧ aligned ops' (sq_apply op s).1
  end.

Fixpoint sq_run (ops : list sq_op) s : sqlite D * list (storage_exc + reply) :=
  match ops with
  | [] => (s, [])
  | op :: ops' => let '(s', r) := sq_apply op s in let '(s'', rs) := sq_run ops' s' in (s'', r :: rs)
  end.

Fixpoint elog_run (read_back : event → option event) (ops : list sq_op) (w : elog)
    : elog * list (storage_exc + reply) :=
  match ops with
  | [] => (w, [])
  | op :: ops' =>
      let '(w', r) := elog_apply read_back op w in
      let '(w'', rs) := elog_run read_back ops' w' in (w'', r :: rs)
  end.

Lemma retry_no_fault {A} (fn : attempt → sqlite D → sqlite D * (storage_exc + A)) a s x :
  (fn a s).2 = inr x → retry_on_io_error fn a no_fault None s = fn a s.
Proof. unfold retry_on_io_error. destruct (fn a s) as [s' r]. simpl. by intros ->. Qed.

Lemma sq_apply_shows op s w : shows s w → op_aligned op s →
  let w' := elog_apply (stored_as (sq_registry s)) op w in
  shows (sq_apply op s).1 w'.1 ∧ (sq_apply op s).2 = w'.2.
Proof.
  intros Hs Ha. destruct op as [t e|t us|t st|t|t i|t| |]; simpl in *.
  - destruct (store_shows t e s w Hs) as [H1 H2]. rewrite H2. by destruct (bool_decide _).
  - pose proof (rewrite_shows (apply_fields us) t s w Hs) as H. simpl in H. unfold update, do_update.
    destruct (dict_get t (el_log w)) as [[e|]|];
      [destruct H as [H1 H2]; by rewrite (retry_no_fault _ _ _ _ H2), H2|..];
      by rewrite (retry_no_fault _ _ _ false), H by (by rewrite H).
  - pose proof (rewrite_shows (with_status st) t s w Hs) as H. simpl in H. unfold set_status, do_set_status.
    destruct (dict_get t (el_log w)) as [[e|]|];
      [destruct H as [H1 H2]; by rewrite (retry_no_fault _ _ _ _ H2), H2|..];
      by rewrite (retry_no_fault _ _ _ false), H by (by rewrite H).
  - destruct (remove_shows t s w Hs) as [H1 H2].
    unfold remove. rewrite (retry_no_fault _ _ _ _ H2), H2. by destruct (bool_decide _).
  - destruct (insert_shows t i s w Hs) as [H1 H2].
    rewrite Ha, <- (length_fmap snd), (sh_active _ _ Hs), insert_at_min in H1.
    rewrite H2. by destruct (bool_decide _).
  - destruct (remove_active_shows t s w Hs) as [H1 H2].
    split; [exact H1|exact (f_equal (map_reply RBool) H2)].
  - split; [|done]. constructor; simpl; try done; try constructor. by intros ? ?%elem_of_nil.
  - rewrite (sh_next _ _ Hs). split; [|done]. destruct Hs as [H1 H2 H3 H4 H5 H6 H7 H8 H9].
    by constructor.
Qed.

Lemma transact_none_registry op s : sq_registry (sq_apply op s).1 = sq_registry s.
Proof.
  destruct op; simpl; try done;
    unfold store, update, set_status, remove, retry_on_io_error, do_update, do_set_status, rewrite_event,
      do_remove, insert_active_tag, remove_active_tag, transact, degrade; repeat case_match; by simplify_eq/=.
Qed.

Lemma sq_run_shows ops s w : shows s w → aligned ops s →
  let w' := elog_run (stored_as (sq_registry s)) ops w in
  shows (sq_run ops s).1 w'.1 ∧ (sq_run ops s).2 = w'.2.
Proof.
  revert s w. induction ops as [|op ops IH]; intros s w Hs Ha; [done|]. destruct Ha as [Ha Has].
  destruct (sq_apply_shows op s w Hs Ha) as [Hs' Hr]. pose proof (transact_none_registry op s) as Hreg.
  pose proof (IH _ _ Hs' Has) as [Hs'' Hrs]. rewrite Hreg in Hs'', Hrs. simpl.
  destruct (sq_apply op s) as [s1 r1], (elog_apply _ op w) as [w1 q1]. simpl in *. subst q1.
  destruct (sq_run ops s1) as [s2 rs], (elog_run _ ops w1) as [w2 qs]. simpl in *. by subst.
Qed.

(** What the queries answer. *)
Lemma shows_queries s w : shows s w →
  active_tags None s = inr (el_active w) ∧
  all_events (J := J) global_registry None s = inr (omap snd (el_log w)) ∧
  (∀ t, get (J := J) global_registry None t s = inr (dict_get t (el_log w) ≫= id)) ∧
  len None s = inr (length (el_log w)).
Proof.
  intros Hs. pose proof Hs as [H1 H2 H3 H4 H5 H6 H7 H8 H9]. split_and!.
  - unfold active_tags, degrade. by rewrite H7.
  - unfold all_events, degrade. rewrite order_by_id by done. f_equal. clear -H1.
    induction H1 as [|r te rows log (_ & Hd) _ IH]; [done|]. cbn in *. rewrite Hd. by rewrite IH.
  - intros t. unfold get, degrade. f_equal. rewrite (find_row_shows _ t _ _ H1). by destruct (find_row t (sq_db s)).
  - unfold len, strict. by rewrite (Forall2_length _ _ _ H1).
Qed.

(** A new database. *)
Definition sq_new : sqlite D := mk_sqlite (mk_db [] []) 0 core_types 1 true.

Lemma open_empty : open_backend None None true (mk_db [] []) = inr sq_new.
Proof. reflexivity. Qed.

Lemma shows_new : shows sq_new elog_empty.
Proof. constructor; simpl; try done; try constructor. by intros ? ?%elem_of_nil. Qed.

(** C8.  The SQLite store keeps its contract: after any sequence of calls on
    a new database in which the insertions of active tags are aligned, every
    call answered and every query answers as the abstract event log does,
    errors included.  An event is in that log as its stored text reads back,
    whatever the codec of its class loses of it. *)
Theorem sqlite_refines_contract ops :
  aligned ops sq_new →
  let s := (sq_run ops sq_new).1 in
  let w := elog_run (stored_as core_types) ops elog_empty in
  (sq_run ops sq_new).2 = w.2 ∧
  active_tags None s = inr (el_active w.1) ∧
  all_events (J := J) global_registry None s = inr (omap snd (el_log w.1)) ∧
  (∀ t, get (J := J) global_registry None t s = inr (dict_get t (el_log w.1) ≫= id)) ∧
  len None s = inr (length (el_log w.1)).
Proof.
  intros Ha s w. destruct (sq_run_shows ops sq_new elog_empty shows_new Ha) as [Hs Hr].
  split; [exact Hr|]. by apply shows_queries.
Qed.

(** ** Any run, aligned or not *)

Lemma sq_apply_sound op s w : shows s w → ∃ w', shows (sq_apply op s).1 w'.
Proof.
  intros Hs. destruct op as [t e|t us|t st|t|t i|t| |].
  5: { exact (ex_intro _ _ (proj1 (insert_shows t i s w Hs))). }
  all: match goal with |- ∃ w', shows (sq_apply ?op _).1 w' =>
         exact (ex_intro _ _ (proj1 (sq_apply_shows op _ _ Hs I))) end.
Qed.

Lemma sq_run_sound ops s w : shows s w →
  (∃ w', shows (sq_run ops s).1 w') ∧ sq_registry (sq_run ops s).1 = sq_registry s.
Proof.
  revert s w. induction ops as [|op ops IH]; intros s w Hs; [split; [by eexists|done]|].
  destruct (sq_apply_sound op s w Hs) as [w' Hs']. pose proof (transact_none_registry op s) as Hreg.
  pose proof (IH _ _ Hs') as [Hs'' Hreg']. simpl.
  destruct (sq_apply op s) as [s1 r1]. simpl in *.
  destruct (sq_run ops s1) as [s2 rs]. simpl in *. by rewrite Hreg', Hreg.
Qed.

(** Distinct non-negative positions below [i] are at most [i]. *)
Lemma place_le i (l : list (Z * string)) : NoDup (fst <$> l) → Forall (λ p, (0 <= p.1)%Z) l → place i l ≤ i.
Proof.
  intros Hnd Hnn. unfold place. set (k := List.filter _ l).
  assert (NoDup (fst <$> k)) as Hk by by apply nodup_filter_fmap.
  assert ((fst <$> k) ⊆+ seqZ 0 (Z.of_nat i)) as Hsub.
  { apply NoDup_submseteq; [done|]. intros z (p & -> & Hp)%list_elem_of_fmap.
    apply list_elem_of_In, filter_In in Hp as [Hp Hlt]. apply list_elem_of_In in Hp.
    rewrite Forall_forall in Hnn. specialize (Hnn p Hp). bool_prop. apply elem_of_seqZ. lia. }
  apply submseteq_length in Hsub. rewrite length_fmap, length_seqZ in Hsub. lia.
Qed.

Lemma place_le_length i (l : list (Z * string)) : place i l ≤ length l.
Proof. unfold place. induction l as [|p l IH]; [done|]. cbn. destruct (p.1 <? Z.of_nat i)%Z; cbn; lia. Qed.

(** Where an active tag is inserted: after any calls the order of the
    active tags is determined by distinct positions, and a new tag lands
    behind exactly the tags whose position is below the index, which is never
    later than the index asks for, and is that index when the positions have
    no gap below it. *)
Theorem insert_active_lands ops t i :
  let s := (sq_run ops sq_new).1 in
  let k := place i (db_active (sq_db s)) in
  NoDup (fst <$> db_active (sq_db s)) ∧ k ≤ i `min` length (db_active (sq_db s)) ∧
  ((∀ p, (0 <= p < Z.of_nat i)%Z → p ∈ (fst <$> db_active (sq_db s))) → k = i) ∧
  ∃ tags, active_tags None s = inr tags ∧
    (t ∈ tags → insert_active_tag None t i s = (s, inl (XSql unique_violation))) ∧
    (t ∉ tags → (insert_active_tag None t i s).2 = inr tt ∧
                active_tags None (insert_active_tag None t i s).1 = inr (list_insert_at k t tags)).
Proof.
  intros s k. destruct (sq_run_sound ops sq_new elog_empty shows_new) as [[w Hs] _]. fold s in Hs.
  pose proof Hs as [H1 H2 H3 H4 H5 H6 H7 H8 H9].
  split_and!; [done| | |].
  - pose proof (place_le i _ H5 H9). pose proof (place_le_length i (db_active (sq_db s))). lia.
  - intros Hdense. pose proof (place_le i _ H5 H9) as Hle.
    assert (seqZ 0 (Z.of_nat i) ⊆+ fst <$> List.filter (λ p, (p.1 <? Z.of_nat i)%Z) (db_active (sq_db s))) as Hsub.
    { apply NoDup_submseteq; [apply NoDup_seqZ|]. intros z Hz%elem_of_seqZ.
      destruct (proj1 (list_elem_of_fmap _ _ _) (Hdense z ltac:(lia))) as (p & -> & Hp).
      apply list_elem_of_fmap_2, list_elem_of_In, filter_In. split; [by apply list_elem_of_In|lia]. }
    apply submseteq_length in Hsub. rewrite length_fmap, length_seqZ in Hsub. fold (place i (db_active (sq_db s))) in Hsub.
    unfold k. lia.
  - exists (el_active w). destruct (shows_queries s w Hs) as (Hact & _). split; [done|].
    destruct (insert_shows t i s w Hs) as [Hi Hr]. split.
    + intros Hin. revert Hr. unfold insert_active_tag, transact.
      rewrite bool_decide_eq_true_2 by (by apply (shows_active_elem s w)). by destruct s.
    + intros Hnin. rewrite bool_decide_eq_false_2 in Hi, Hr by done. split; [done|].
      apply shows_queries in Hi as (Hact' & _). exact Hact'.
Qed.
End Runs.

(** ** A concrete codec

    A text keeps the event but for a field that is excluded from it, as
    [parsed] is for an [LLMResponse]. *)
Definition without_parsed (e : event) : event := with_fields (dict_del "parsed"%string (ev_fields e)) e.

#[export] Instance plain_codec : EventCodec event event := {|
  model_dump_json e := without_parsed e;
  json_loads d := Some d;
  raw_is_dict _ := true;
  raw_event_type e := TypeStr (ev_type e);
  raw_set_event_type t e :=
    mk_event (ev_id e) t (ev_class e) (ev_role e) (ev_tag e) (ev_status e) (ev_metadata e) (ev_fields e)
      (ev_summary e);
  model_validate cls e := if bool_decide (cls = ev_class e) then Some e else None
|}.

Definition demo_event (i : string) : event :=
  mk_event i "Message" "Message" USER None ACTIVE [] [] None.

(** Six messages, and the calls [collapse] makes for a block of tags. *)
Definition demo_messages : list sq_op :=
  (λ t, QStore t (demo_event t)) <$> ["1"; "2"; "3"; "4"; "5"; "6"]%string.

Definition collapse_calls (tags : list string) (tag : string) (idx : nat) : list sq_op :=
  (tags ≫= λ t, [QSetStatus t ARCHIVED; QRemoveActive t]) ++
  [QStore tag (demo_event tag); QRemoveActive tag; QInsertActive tag idx].

Definition demo_first : list sq_op := demo_messages ++ collapse_calls ["1"; "2"; "3"]%string "1..3" 0.
Definition demo_second : list sq_op := demo_first ++ collapse_calls ["5"; "6"]%string "5..6" 2.

Local Abbreviation run := (sq_run (D := event) (J := event) []).

(** The first collapse finds a table without gaps. *)
Lemma sqlite_refines_contract_witness :
  active_tags None (run demo_first sq_new).1 = inr ["1..3"; "4"; "5"; "6"]%string ∧
  get (J := event) [] None "2" (run demo_first sq_new).1 =
    inr (Some (with_status ARCHIVED (demo_event "2"))).
Proof.
  assert (aligned (D := event) (J := event) [] demo_first sq_new) as Ha by (vm_compute; tauto).
  destruct (sqlite_refines_contract (D := event) (J := event) [] demo_first Ha)
    as (_ & H1 & _ & H2 & _).
  split; [etrans; [exact H1|]|etrans; [exact (H2 "2"%string)|]]; vm_compute; reflexivity.
Defined.

(** A response comes back without the field that its text excludes. *)
Example parsed_not_stored :
  let e := mk_event "r" "LLMResponse" "LLMResponse" ASSISTANT None ACTIVE [] [("parsed", VInt 1); ("model", VStr "m")] None in
  get (J := event) [] None "1" (run [QStore "1" e] sq_new).1 = inr (Some (with_fields [("model", VStr "m")] e)).
Proof. vm_compute. reflexivity. Qed.

Lemma insert_active_lands_witness :
  active_tags None (insert_active_tag None "9" 2 (run demo_first sq_new).1).1 =
    inr ["1..3"; "9"; "4"; "5"; "6"]%string.
Proof.
  destruct (insert_active_lands (D := event) (J := event) [] demo_first "9" 2)
    as (_ & _ & _ & tags & Htags & _ & Hnew).
  assert (tags = ["1..3"; "4"; "5"; "6"]%string) as ->.
  { assert (active_tags None (run demo_first sq_new).1 = inr ["1..3"; "4"; "5"; "6"]%string) as Hc
      by (vm_compute; reflexivity). congruence. }
  etrans; [apply Hnew; apply (bool_decide_unpack _); vm_compute; exact I|vm_compute; reflexivity].
Defined.
