(* ===== verification/SqliteSafety.v ===== *)
(** * Restart, errors and snapshots of the SQLite store

    What reopening a database preserves, the outcome of [store] when SQLite
    reports errors, the latest snapshot, and the two event stores side by side
    on two collapses. *)

From Stdlib Require Import Ascii.
From S2P Require Import Prelude PyStr PyDict Values Events EventBackend EventManager EventLog Sqlite SqliteRuns.

(** ** Two collapses *)

(** The tables after two collapses of separate blocks: the index that
    [find_insert_idx] computes is a place in the list of active tags, but the
    SQLite store takes it for a position, and the positions still have the gap
    that the first collapse left.  The second summary lands in front of event
    4, although the in-memory store, with the same index, puts it behind. *)
Theorem second_collapse_misordered :
  let s := (sq_run (D := event) (J := event) [] (demo_first ++
              (["5"; "6"]%string ≫= λ t, [QSetStatus t ARCHIVED; QRemoveActive t])) sq_new).1 in
  active_tags None s = inr ["1..3"; "4"]%string ∧
  find_insert_idx 5 ["1..3"; "4"]%string 0 = Ok 2 ∧
  active_tags None (sq_run (D := event) (J := event) [] demo_second sq_new).1 =
    inr ["1..3"; "5..6"; "4"]%string ∧
  el_active (elog_run Some demo_second elog_empty).1 = ["1..3"; "4"; "5..6"]%string.
Proof. vm_compute. done. Qed.

(** ** The number of a tag in SQL *)

Lemma digits_go_prefix acc s : all_digits s → digits_go acc s = Some (digit_prefix acc s).
Proof.
  revert acc. induction s as [|c s IH]; intros acc Hs; [done|]. apply Forall_cons in Hs as [Hc Hs].
  simpl. rewrite Hc. by apply IH.
Qed.

Lemma digit_prefix_pretty (n : N) : digit_prefix 0 (pretty n) = Z.of_N n.
Proof.
  pose proof (digits_pretty_N n) as Hd. pose proof (all_digits_pretty_N n) as Ha.
  unfold digits in Hd. destruct (pretty n) as [|c s]; [done|]. pose proof Ha as Ha'.
  apply Forall_cons in Ha as [Hc Hs]. rewrite Hc in Hd. rewrite digits_go_prefix in Hd by done.
  injection Hd as <-. simpl. by rewrite Hc.
Qed.

Lemma sql_cast_digits s : all_digits s → s ≠ ""%string → sql_cast_int s = clamp64 (digit_prefix 0 s).
Proof.
  intros Hs Hne. unfold sql_cast_int. destruct s as [|c s]; [done|]. inversion Hs as [|? ? Hc _]; subst.
  rewrite lstrip_digit by done. destruct c as [b0 b1 b2 b3 b4 b5 b6 b7].
  by destruct b0, b1, b2, b3, b4, b5, b6, b7.
Qed.

Lemma sql_cast_str_int n : (0 <= n < 2 ^ 63)%Z → sql_cast_int (str_int n) = n.
Proof.
  intros Hn. assert (str_int n = pretty (Z.to_N n)) as ->.
  { unfold str_int. destruct n as [|p|p]; [reflexivity|reflexivity|lia]. }
  rewrite sql_cast_digits by auto using all_digits_pretty_N, pretty_N_nonempty.
  rewrite digit_prefix_pretty. unfold clamp64. lia.
Qed.

Lemma after_dots_cons c s : c ≠ "."%char → after_dots (String c s) = after_dots s.
Proof.
  intros Hc. destruct c as [b0 b1 b2 b3 b4 b5 b6 b7]. by destruct b0, b1, b2, b3, b4, b5, b6, b7.
Qed.

Lemma after_dots_no_dot s : no_dot s → after_dots s = None.
Proof.
  induction s as [|c s IH]; intros Hs; [done|]. apply Forall_cons in Hs as [Hc Hs].
  rewrite after_dots_cons by done. by apply IH.
Qed.

Lemma after_dots_range s t : no_dot s → after_dots (s +:+ ".." +:+ t)%string = Some t.
Proof.
  induction s as [|c s IH]; intros Hs; [done|]. apply Forall_cons in Hs as [Hc Hs].
  change (String c s +:+ ".." +:+ t)%string with (String c (s +:+ ".." +:+ t)%string).
  rewrite after_dots_cons by done. by apply IH.
Qed.

(** A tag of the forms the event log writes, whose number fits the 64 bits of
    SQLite. *)
Definition numbered (t : string) : Prop := canonical t ∧ (0 <= tag_max_num t < 2 ^ 63)%Z.

(** The SQL expression computes the same number as [_tag_max_num]. *)
Lemma tag_number_max t : numbered t → tag_number t = tag_max_num t.
Proof.
  intros [[[n ->]|(a & e & ->)] Hn]; unfold tag_number.
  - rewrite tag_max_num_str_int in *. rewrite after_dots_no_dot by auto with nooa. by apply sql_cast_str_int.
  - rewrite tag_max_num_range_tag in *. unfold range_tag. rewrite after_dots_range by auto with nooa.
    by apply sql_cast_str_int.
Qed.

(** ** Reopening a database *)

Section Safety.
Context {D J : Type} `{Hcodec : EventCodec D J}.
Context (global_registry : dict string string).
Implicit Types s : sqlite D.

Local Abbreviation run ops := ((sq_run (D := D) (J := J) global_registry ops sq_new).1).

(** The tables of [s] under fresh counters stand for the same log. *)
Lemma reopen_shows s w : shows (J := J) global_registry s w → sq_registry s = core_types →
  ∃ s' n, open_backend None None true (sq_db s) = inr s' ∧ sq_registry s' = core_types ∧
    n = (max_tag_num (sq_db s) + 1)%Z ∧
    shows (J := J) global_registry s' (mk_elog (el_log w) (el_active w) n).
Proof.
  intros [H1 H2 H3 H4 H5 H6 H7 H8 H9] Hreg. eexists _, _. split; [reflexivity|].
  split; [done|]. split; [reflexivity|]. rewrite Hreg in H1.
  constructor; simpl; try done.
  intros r Hr. unfold max_insertion_order.
  pose proof (sql_max_ge (r_order <$> db_events (sq_db s)) (-1) (r_order r) (list_elem_of_fmap_2 _ _ _ Hr)). lia.
Qed.

(** C9.  A restart resumes where the session stopped: after any calls that
    leave tags of the forms the event manager writes, with numbers below 2^63,
    a backend opened on the same tables answers every query as before, its next
    tag is above the number of every recorded tag and names no recorded event,
    and, unless it is an active tag without an event, an event stored under it
    comes last, as its text reads back. *)
Theorem restart_resumes ops e :
  let s := run ops in
  Forall numbered (r_tag <$> db_events (sq_db s)) →
  ∃ s' events, open_backend None None true (sq_db s) = inr s' ∧
    active_tags None s' = active_tags None s ∧
    (∀ t, get (J := J) global_registry None t s' = get (J := J) global_registry None t s) ∧
    all_events (J := J) global_registry None s = inr events ∧
    all_events (J := J) global_registry None s' = inr events ∧
    let t := (allocate_next_tag s').1 in
    (∀ u, u ∈ (r_tag <$> db_events (sq_db s)) → (tag_max_num u < sq_next_tag_num s')%Z ∧ u ≠ t) ∧
    (t ∉ (snd <$> db_active (sq_db s)) →
       (store (J := J) None None None t e s').2 = inr tt ∧
       all_events (J := J) global_registry None (store (J := J) None None None t e s').1 =
         inr (events ++ option_list (stored_as (J := J) global_registry core_types e))%list).
Proof.
  intros s Hnum.
  destruct (sq_run_sound global_registry ops sq_new elog_empty (shows_new global_registry)) as [[w Hs] Hreg].
  fold s in Hs, Hreg. destruct (reopen_shows s w Hs Hreg) as (s' & n & Hopen & Hreg' & Hn & Hs').
  pose proof (shows_queries _ _ _ Hs) as (Hq1 & Hq2 & Hq3 & _).
  pose proof (shows_queries _ _ _ Hs') as (Hq1' & Hq2' & Hq3' & _).
  exists s', (omap snd (el_log w)). split; [done|]. split; [by rewrite Hq1, Hq1'|].
  split; [intros t; by rewrite Hq3, Hq3'|]. split; [done|]. split; [done|]. cbn [fst allocate_next_tag].
  pose proof (sh_next _ _ _ Hs') as Hnext. simpl in Hnext. rewrite Hnext.
  assert (∀ u, u ∈ (r_tag <$> db_events (sq_db s)) → (tag_max_num u < n)%Z ∧ u ≠ str_int n) as Hfresh.
  { intros u Hu. pose proof (proj1 (Forall_forall _ _) Hnum u Hu) as Hnu.
    assert (tag_max_num u < n)%Z as Hlt.
    { rewrite <- (tag_number_max u Hnu), Hn. unfold max_tag_num.
      apply list_elem_of_fmap in Hu as (r & -> & Hr).
      pose proof (sql_max_ge ((λ r, tag_number (r_tag r)) <$> db_events (sq_db s)) 0 (tag_number (r_tag r))
        (list_elem_of_fmap_2 (λ r, tag_number (r_tag r)) _ _ Hr)). lia. }
    split; [done|]. intros ->. rewrite tag_max_num_str_int in Hlt. lia. }
  split; [exact Hfresh|]. intros Hna.
  destruct (store_shows global_registry (str_int n) e s' _ Hs') as [Hst Hr]. rewrite Hreg' in Hst.
  assert (¬ (str_int n ∈ (el_log w).*1 ∨ str_int n ∈ el_active w)) as Hnew.
  { intros [Hin|Hin].
    - rewrite <- (shows_tags global_registry s w Hs) in Hin. by apply Hfresh in Hin as [_ []].
    - apply Hna. by apply (shows_active_elem global_registry s w). }
  simpl in Hst, Hr. rewrite bool_decide_eq_false_2 in Hst, Hr by done.
  split; [exact Hr|]. pose proof (shows_queries _ _ _ Hst) as (_ & Hq & _).
  rewrite Hq. cbn [el_log]. rewrite omap_app. simpl.
  by destruct (stored_as global_registry core_types e).
Qed.

(** ** [store] when SQLite reports errors *)

(** SQLite reports violated constraints only for what is in the tables, so
    the errors that come from outside are of the other classes. *)
Definition outside (f : option (sql_exc * bool)) : Prop :=
  match f with Some (x, _) => x_class x ≠ IntegrityError | None => True end.

Lemma do_store_twice t e o o' (b b' : db D) :
  do_store (J := J) t e o b = inr b' → do_store (J := J) t e o' b' = inl unique_violation.
Proof.
  unfold do_store. intros Hd. repeat case_bool_decide; simplify_eq/=; [done..|].
  exfalso. match goal with H : t ∉ _ <$> (db_events b ++ _) |- _ => apply H end.
  rewrite fmap_app. apply elem_of_app. right. by apply list_elem_of_singleton.
Qed.

Lemma do_store_error t e o (b : db D) x : do_store (J := J) t e o b = inl x → x = unique_violation.
Proof. unfold do_store. repeat case_bool_decide; intros; by simplify_eq/=. Qed.

(** The tag is in one of the tables. *)
Definition taken (t : string) s : Prop :=
  t ∈ (r_tag <$> db_events (sq_db s)) ∨ t ∈ (snd <$> db_active (sq_db s)).

Lemma do_store_taken t e o s : taken t s → do_store (J := J) t e o (sq_db s) = inl unique_violation.
Proof. unfold taken, do_store. intros Ht. repeat case_bool_decide; tauto. Qed.

Lemma do_store_free t e o s : ¬ taken t s → ∃ b, do_store (J := J) t e o (sq_db s) = inr b.
Proof. unfold taken, do_store. intros Ht. rewrite !bool_decide_eq_false_2 by tauto. by eexists. Qed.

(** The result of a store of a free tag, whose transaction leads to [b]. *)
Lemma store_free f1 f2 reconnect t e s b :
  do_store (J := J) t e (sq_insertion_counter s) (sq_db s) = inr b → outside f1 → outside f2 →
  let out := store (J := J) f1 f2 reconnect t e s in
  match out.2 with
  | inr _ => out.1 = (store (J := J) None None None t e s).1
  | inl _ => sq_db out.1 = sq_db s ∨ sq_db out.1 = b
  end.
Proof.
  intros Hb H1 H2. pose proof (do_store_twice _ _ _ (sq_insertion_counter s) _ _ Hb) as Hb'.
  unfold store, transact. cbn [sq_db sq_with_counter]. rewrite Hb.
  destruct f1 as [[x l]|]; [|done]. simpl in H1.
  destruct (bool_decide (x_class x = OperationalError)); [|destruct l; simpl; auto].
  destruct (negb (is_disk_io x) || negb (sq_on_io_error s)); [destruct l; simpl; auto|].
  destruct reconnect as [y|]; [destruct l; simpl; auto|].
  destruct f2 as [[y l']|]; simpl in H2; destruct l; rewrite ?Hb, ?Hb'; simpl;
    rewrite ?(bool_decide_eq_false_2 (x_class y = _)) by done; simpl; auto.
  destruct l'; auto.
Qed.

(** C10.  Storing under errors is all or nothing: whatever errors the write
    and its retry meet, and whether or not the failing transaction was
    committed, a store of a new tag that returns has the event in the tables
    exactly once, as without errors, and one that raises has left the tables
    as they were or with the event stored.  One disk error never makes it
    fail.  But a store of a tag that is taken, which raises without errors,
    returns after one disk error although the event is not stored. *)
Theorem store_under_errors f1 f2 reconnect t e s :
  outside f1 → outside f2 →
  let calm := (store (J := J) None None None t e s).1 in
  let out := store (J := J) f1 f2 reconnect t e s in
  (¬ taken t s → out.2 = inr tt → out.1 = calm) ∧
  (¬ taken t s → ∀ x, out.2 = inl x → sq_db out.1 = sq_db s ∨ sq_db out.1 = sq_db calm) ∧
  (∀ x landed, f1 = Some (x, landed) → x_class x = OperationalError → is_disk_io x = true →
     sq_on_io_error s = true → reconnect = None → f2 = None → out.2 = inr tt) ∧
  (taken t s → (store (J := J) None None None t e s).2 = inl (XSql unique_violation) ∧ sq_db out.1 = sq_db s).
Proof.
  intros Hf1 Hf2 calm out.
  assert (¬ taken t s → ∃ b, do_store (J := J) t e (sq_insertion_counter s) (sq_db s) = inr b ∧ sq_db calm = b) as Hfree.
  { intros Hn. destruct (do_store_free t e (sq_insertion_counter s) s Hn) as [b Hb]. exists b. split; [done|].
    unfold calm, store, transact. cbn [sq_db sq_with_counter]. by rewrite Hb. }
  split_and!.
  - intros Hn Hr. destruct (Hfree Hn) as (b & Hb & _).
    pose proof (store_free f1 f2 reconnect t e s b Hb Hf1 Hf2) as Hst. cbv zeta in Hst. fold out in Hst. by rewrite Hr in Hst.
  - intros Hn x Hr. destruct (Hfree Hn) as (b & Hb & ->).
    pose proof (store_free f1 f2 reconnect t e s b Hb Hf1 Hf2) as Hst. cbv zeta in Hst. fold out in Hst. by rewrite Hr in Hst.
  - intros x l -> Hx Hio Hcb -> ->. unfold out, store, transact. cbn [sq_db sq_with_counter].
    rewrite bool_decide_eq_true_2 by done. rewrite Hio, Hcb. simpl.
    destruct (do_store t e _ (sq_db s)) as [y|b] eqn:Hd.
    + rewrite Hd. by rewrite (do_store_error _ _ _ _ _ Hd).
    + destruct l; [|by rewrite Hd]. by rewrite (do_store_twice _ _ _ _ _ _ Hd).
  - intros Ht. pose proof (λ o, do_store_taken t e o s Ht) as Hd. split.
    + unfold store, transact. cbn [sq_db sq_with_counter]. by rewrite Hd.
    + unfold out, store, transact. cbn [sq_db sq_with_counter]. rewrite Hd.
      destruct f1 as [[x l]|]; simpl; [|done]. 
      destruct (bool_decide _); [|done]. destruct (negb _ || negb _)%bool; [done|].
      destruct reconnect; [done|].
      rewrite Hd. destruct f2 as [[y l']|]; [by destruct (bool_decide _)|done].
Qed.
End Safety.

(** ** The latest snapshot *)

Lemma ascii_compare_N a b : Ascii.compare a b = N.compare (N_of_ascii a) (N_of_ascii b).
Proof. reflexivity. Qed.

Lemma string_leb_cons a b s t :
  String.leb (String a s) (String b t) = true ↔
  (N_of_ascii a < N_of_ascii b)%N ∨ a = b ∧ String.leb s t = true.
Proof.
  unfold String.leb. simpl. rewrite ascii_compare_N.
  destruct (N.compare_spec (N_of_ascii a) (N_of_ascii b)) as [Heq|Hlt|Hgt].
  - assert (a = b) as -> by (rewrite <- (ascii_N_embedding a), <- (ascii_N_embedding b); by rewrite Heq).
    split; [auto|intros [?|[_ ?]]; [lia|done]].
  - tauto.
  - split; [done|]. intros [?|[-> _]]; lia.
Qed.

Lemma string_leb_trans s t u : String.leb s t = true → String.leb t u = true → String.leb s u = true.
Proof.
  revert t u. induction s as [|a s IH]; intros t u; [by destruct u|].
  destruct t as [|b t]; [done|]. destruct u as [|c u]; [done|]. rewrite !string_leb_cons.
  intros [Hab|[-> Hst]] [Hbc|[-> Htu]]; [left; lia|by left|by left|right; eauto].
Qed.

Lemma string_leb_false s t : String.leb s t = false → String.leb t s = true.
Proof. intros H. destruct (String.leb_total s t); congruence. Qed.

(** The row [latest_row] finds: none is later, and of the equally late ones it
    is the last. *)
Lemma latest_row_spec rows :
  match latest_row rows with
  | None => rows = []
  | Some x => ∃ pre post, rows = pre ++ x :: post ∧
      Forall (λ r, String.leb (sn_created_at r) (sn_created_at x) = true) pre ∧
      Forall (λ r, String.leb (sn_created_at x) (sn_created_at r) = false) post
  end.
Proof.
  unfold latest_row. induction rows as [|r rows IH] using rev_ind; [done|].
  rewrite foldl_app. simpl. destruct (foldl _ None rows) as [x|]; [|by subst; exists [], []].
  destruct IH as (pre & post & -> & Hpre & Hpost).
  destruct (String.leb (sn_created_at x) (sn_created_at r)) eqn:Hle.
  - exists (pre ++ x :: post), []. split_and!; [done| |done]. apply Forall_app; split.
    + eapply Forall_impl; [exact Hpre|]. simpl. intros y Hy. by eapply string_leb_trans.
    + constructor; [done|]. eapply Forall_impl; [exact Hpost|]. simpl. intros y Hy.
      eapply string_leb_trans; [by apply string_leb_false|done].
  - exists pre, (post ++ [r]). split_and!; [by rewrite <- app_assoc|done|].
    apply Forall_app; split; [done|by repeat constructor].
Qed.

Lemma find_snap_app i rows r :
  i ∉ (sn_id <$> rows) → sn_id r = i →
  snd <$> list_find (λ x, sn_id x = i) (rows ++ [r]) = Some r.
Proof.
  intros Hni Hi. rewrite list_find_app_r.
  - simpl. by rewrite decide_True.
  - apply list_find_None. apply Forall_forall. intros x Hx Heq. apply Hni. rewrite <- Heq.
    by apply list_elem_of_fmap_2.
Qed.

Section Snapshots.
Context {V A : Type} (json_loads : string → option V) (restore : V → A → storage_exc + A).

(** Snapshots: a saved one restores from its own text under the id that
    was returned, all earlier ones still restore as before, and when it was
    created no earlier than the others it is the one the latest restore picks;
    in any case the latest one has the greatest creation time, and among equal
    ones was saved last. *)
Theorem snapshot_save_restore data snapshot_id created_at uuid now rows rows' i :
  save_snapshot_json json_loads data snapshot_id created_at uuid now None rows = (rows', inr i) →
  (∃ v, json_loads data = Some v ∧
    ∀ agent, restore_snapshot json_loads restore i rows' agent = restore v agent) ∧
  i ∉ (sn_id <$> rows) ∧
  (∀ j agent, j ∈ (sn_id <$> rows) →
    restore_snapshot json_loads restore j rows' agent = restore_snapshot json_loads restore j rows agent) ∧
  (Forall (λ r, String.leb (sn_created_at r) (or_default created_at now) = true) rows →
    get_latest_snapshot_id rows' = Some i ∧
    ∀ agent, restore_latest_snapshot json_loads restore rows' agent =
      match restore_snapshot json_loads restore i rows' agent with
      | inl x => inl x | inr a => inr (a, true) end) ∧
  (∃ x pre post, get_latest_snapshot_id rows' = Some (sn_id x) ∧ rows' = pre ++ x :: post ∧
    Forall (λ r, String.leb (sn_created_at r) (sn_created_at x) = true) pre ∧
    Forall (λ r, String.leb (sn_created_at x) (sn_created_at r) = false) post).
Proof.
  unfold save_snapshot_json, insert_snapshot. intros Hsave.
  destruct (json_loads data) as [v|] eqn:Hv; [|done].
  set (id := or_default snapshot_id uuid) in *.
  destruct (bool_decide (id ∈ (sn_id <$> rows))) eqn:Hid; [done|]. injection Hsave as <- <-. bool_prop.
  set (r := mk_snap id (or_default created_at now) data). split_and!.
  - exists v. split; [done|]. intros agent. unfold restore_snapshot.
    pose proof (find_snap_app id rows r Hid eq_refl) as Hf.
    destruct (list_find _ (rows ++ [r])) as [[n x]|]; [|done]. simpl in Hf. injection Hf as ->.
    simpl. by rewrite Hv.
  - done.
  - intros j agent Hj. unfold restore_snapshot. apply list_elem_of_fmap in Hj as (x & -> & Hx).
    destruct (list_find_elem_of (λ r, sn_id r = sn_id x) rows x Hx eq_refl) as [[n y] Hy].
    by rewrite (list_find_app_l _ _ _ _ _ Hy), Hy.
  - intros Hlate. assert (get_latest_snapshot_id (rows ++ [r]) = Some id) as Hg.
    { unfold get_latest_snapshot_id, latest_row. rewrite foldl_app. simpl. fold (latest_row rows).
      pose proof (latest_row_spec rows) as Hl. destruct (latest_row rows) as [x|]; [|done].
      destruct Hl as (pre & post & -> & _). apply Forall_app in Hlate as [_ Hlate].
      apply Forall_cons in Hlate as [Hx _]. simpl in Hx. by rewrite Hx. }
    split; [done|]. intros agent. unfold restore_latest_snapshot. by rewrite Hg.
  - unfold get_latest_snapshot_id. pose proof (latest_row_spec (rows ++ [r])) as Hl.
    destruct (latest_row (rows ++ [r])) as [x|]; [|by destruct rows].
    destruct Hl as (pre & post & Heq & H1 & H2). by exists x, pre, post.
Qed.
End Snapshots.

(** ** Witnesses *)

Lemma restart_resumes_witness :
  ∃ s', open_backend None None true (sq_db (sq_run (D := event) (J := event) [] demo_first sq_new).1) = inr s' ∧
    active_tags None s' = inr ["1..3"; "4"; "5"; "6"]%string.
Proof.
  destruct (restart_resumes (D := event) (J := event) [] demo_first (demo_event "7"))
    as (s' & events & Hopen & Hact & _).
  - vm_compute r_tag. assert (∀ n, (0 <= n < 100)%Z → numbered (str_int n)) as Hs.
    { intros n Hn. split; [left; eauto|]. rewrite tag_max_num_str_int. lia. }
    assert (numbered (range_tag 1 3)) as Hr.
    { split; [right; eauto|]. rewrite tag_max_num_range_tag. lia. }
    repeat (constructor; [exact Hr || (apply (Hs 1%Z); lia) || (apply (Hs 2%Z); lia) || (apply (Hs 3%Z); lia)
      || (apply (Hs 4%Z); lia) || (apply (Hs 5%Z); lia) || (apply (Hs 6%Z); lia)|]). constructor.
  - exists s'. split; [exact Hopen|]. etrans; [exact Hact|vm_compute; reflexivity].
Defined.

(** A disk error whose transaction was committed, then a clean retry. *)
Definition demo_disk_error : sql_exc := mk_sqlexc OperationalError (Some 10%Z) "disk I/O error".

Lemma store_under_errors_witness :
  (store (J := event) (Some (demo_disk_error, true)) None None "1" (demo_event "1") sq_new).1 =
  (store (D := event) (J := event) None None None "1" (demo_event "1") sq_new).1.
Proof.
  assert (outside (Some (demo_disk_error, true))) as Ho by discriminate.
  refine (proj1 (store_under_errors (J := event) (Some (demo_disk_error, true)) None None "1"
    (demo_event "1") sq_new Ho I) _ _).
  - apply (bool_decide_unpack _). vm_compute. exact I.
  - vm_compute. reflexivity.
Defined.

Definition demo_snaps : list snap_row := [mk_snap "a" "2026-01-02" "{}"; mk_snap "b" "2026-01-01" "[]"].

Lemma snapshot_save_restore_witness :
  get_latest_snapshot_id (demo_snaps ++ [mk_snap "c" "2026-01-02" "1"]) = Some "c"%string.
Proof.
  refine (proj1 (proj1 (proj2 (proj2 (proj2 (snapshot_save_restore (V := string) (A := string) Some
    (λ v _, inr v) "1" None (Some "2026-01-02"%string) "c" "2026-01-03" demo_snaps _ "c" _)))) _)).
  - reflexivity.
  - repeat constructor.
Defined.
