(* ===== verification/SessionLock.v ===== *)
(** * The session lock of a database file

    Models the lock of [nooa/storage/sqlite.py]: [_acquire_session_lock],
    [_release_session_lock], [_blank_lock_if_ours], [read_lock_owner], and the
    part of [SQLiteStorageManager] and [delete_sqlite_database] that holds the
    lock ([__init__], [_reconnect], [close]).

    A handle is one attempt to open the database, in any process of one
    machine; every system call is one step, so handles interleave between them.
    [flock] is that machine's kernel's: one holder at a time, released when the
    holder's process dies.  Other machines may share the directory; this kernel
    does not see their locks, and they may rewrite the file at any time.  The
    lock file is never unlinked and its text is ASCII. *)

From Stdlib Require Import Ascii.
From S2P Require Import Prelude PyStr.

Local Open Scope string_scope.

(** ** The owner record *)

(** A process: its pid and its host. *)
Definition proc : Type := Z * string.

(** [s.partition(" ")] without the separator. *)
Fixpoint partition_space (s : string) : string * string :=
  match s with
  | EmptyString => ("", "")
  | String c s' =>
      if Ascii.eqb c " "%char then ("", s')
      else let '(a, b) := partition_space s' in (String c a, b)
  end.

(** [read_lock_owner] of the file's content, [None] when it cannot be opened. *)
Definition read_lock_owner (file : option string) : option Z * option string :=
  match file with
  | None => (None, None)
  | Some content =>
      match strip (String.substring 0 512 content) with
      | EmptyString => (None, None)
      | raw =>
          let '(pid_text, host) := partition_space raw in
          match py_int pid_text with
          | Some pid => (Some pid, match strip host with EmptyString => None | h => Some h end)
          | None => (None, None)
          end
      end
  end.

(** [_lock_owner_record]. *)
Definition lock_owner_record (p : proc) : string := str_int p.1 +:+ " " +:+ p.2.

(** The test of [_blank_lock_if_ours]. *)
Definition names_us (p : proc) (file : option string) : bool :=
  let '(pid, host) := read_lock_owner file in
  bool_decide (pid = Some p.1) && (bool_decide (host = None) || bool_decide (host = Some p.2)).

(** Writing at offset 0. *)
Definition overwrite (new old : string) : string :=
  new +:+ String.substring (String.length new) (String.length old - String.length new) old.

(** ** The handles *)

(** Where a handle is: not begun, the file opened, [flock] refused, [flock]
    held, the file truncated, the manager in use, its reconnect failed (closed,
    the descriptor still held), closing, the record blanked, finished. *)
Inductive phase := Fresh | Opened | Refused | Locked | Cleared | InUse | Broken | Closing | Blanked | Gone.

#[export] Instance phase_eq_dec : EqDecision phase.
Proof. solve_decision. Defined.

Record world := mk_world {
  w_file : option string;
  w_holder : option nat;
  w_phases : gmap nat phase
}.

Definition new_world (file : option string) : world := mk_world file None ∅.

Definition phase_of (i : nat) (w : world) : phase := default Fresh (w_phases w !! i).

Definition go (i : nat) (p : phase) (w : world) : world := mk_world (w_file w) (w_holder w) (<[i := p]> (w_phases w)).
Definition with_file (f : option string) (w : world) : world := mk_world f (w_holder w) (w_phases w).
Definition with_holder (h : option nat) (w : world) : world := mk_world (w_file w) h (w_phases w).

Inductive lock_op :=
  | LOpen (i : nat)            (** [os.open(lock_path, O_CREAT | O_RDWR)] *)
  | LFlock (i : nat)           (** [flock(fd, LOCK_EX | LOCK_NB)] *)
  | LReport (i : nat)          (** the refusal is raised with the recorded owner *)
  | LTruncate (i : nat)        (** [os.ftruncate(fd, 0)] *)
  | LWrite (i : nat)           (** [os.write(fd, record)]; the manager is in use *)
  | LReconnectFail (i : nat)   (** [_reconnect] cannot open a new connection *)
  | LClose (i : nat)           (** [close], up to the connection *)
  | LBlank (i : nat)           (** [_blank_lock_if_ours] *)
  | LBlankFail (i : nat)       (** ... when an [OSError] stops it, which is swallowed *)
  | LUnlock (i : nat)          (** [_release_session_lock] *)
  | LCrash (pid : Z)           (** a process of this machine dies *)
  | LElsewhere (f : string).   (** another machine opens, truncates, writes or blanks the file *)

(** *** The record reads back *)

(** A pid, and a host name without outer white space that fits the read. *)
Definition proc_wf (p : proc) : Prop :=
  (0 ≤ p.1)%Z ∧ p.2 ≠ "" ∧ strip p.2 = p.2 ∧ (String.length (lock_owner_record p) ≤ 512)%nat.

Lemma str_int_nonneg (n : Z) : (0 ≤ n)%Z → all_digits (str_int n) ∧ str_int n ≠ "".
Proof.
  intros Hn. unfold str_int. destruct n as [|q|q]; [|..|lia].
  - split; [repeat constructor|done].
  - change (pretty (Z.pos q)) with (pretty (N.pos q)). split; [apply all_digits_pretty_N|apply pretty_N_nonempty].
Qed.

Lemma partition_digits d h : all_digits d → partition_space (d +:+ " " +:+ h) = (d, h).
Proof.
  induction d as [|c d IH]; intros Hd; [done|]. inversion Hd as [|? ? Hc Hd']; subst.
  change (partition_space (String c d +:+ " " +:+ h)) with
    (if Ascii.eqb c " "%char then ("", d +:+ " " +:+ h)
     else let '(a, b) := partition_space (d +:+ " " +:+ h) in (String c a, b)).
  destruct (Ascii.eqb c " "%char) eqn:Heq; [apply Ascii.eqb_eq in Heq; by subst|]. by rewrite IH.
Qed.

Lemma rstrip_cons c s : rstrip s ≠ "" → rstrip (String c s) = String c (rstrip s).
Proof. intros H. cbn. by destruct (rstrip s). Qed.

Lemma rstrip_app s t : rstrip t = t → t ≠ "" → rstrip (s +:+ t) = s +:+ t.
Proof.
  intros Ht Hne. induction s as [|c s IH]; [done|]. change (String c s +:+ t) with (String c (s +:+ t)).
  assert (s +:+ t ≠ "") by (by destruct s). rewrite rstrip_cons; by rewrite IH.
Qed.

Lemma lstrip_id_rstrip h : strip h = h → h ≠ "" → rstrip h = h.
Proof.
  unfold strip. intros H Hne. destruct h as [|c h]; [done|]. cbn [lstrip] in H. destruct (is_space c) eqn:Hc; [|exact H].
  exfalso. assert (∀ s, (String.length (rstrip s) ≤ String.length s)%nat) as Hr.
  { induction s as [|c' s IH]; [done|]. cbn. destruct (rstrip s) eqn:He; cbn in *; [destruct (is_space c'); cbn; lia|lia]. }
  assert (∀ s, (String.length (lstrip s) ≤ String.length s)%nat) as Hl.
  { induction s as [|c' s IH]; [done|]. cbn. destruct (is_space c'); cbn; lia. }
  apply (f_equal String.length) in H. specialize (Hr (lstrip h)). specialize (Hl h). cbn in H. lia.
Qed.

Lemma substring_all n s : (String.length s ≤ n)%nat → String.substring 0 n s = s.
Proof. revert n. induction s as [|c s IH]; intros [|n] H; cbn in *; [done|done|lia|]. rewrite IH; [done|lia]. Qed.

Lemma read_lock_record p : proc_wf p → read_lock_owner (Some (lock_owner_record p)) = (Some p.1, Some p.2).
Proof.
  intros (Hpid & Hne & Hstrip & Hlen). unfold read_lock_owner. rewrite substring_all by done.
  destruct (str_int_nonneg p.1 Hpid) as [Hd Hdne].
  assert (strip (lock_owner_record p) = lock_owner_record p) as ->.
  { unfold strip, lock_owner_record. destruct (str_int p.1) as [|c d] eqn:Hs; [done|].
    inversion Hd as [|? ? Hc _]; subst. change (String c d +:+ " " +:+ p.2) with (String c (d +:+ " " +:+ p.2)).
    rewrite lstrip_digit by done. change (String c (d +:+ " " +:+ p.2)) with (String c d +:+ " " +:+ p.2).
    apply rstrip_app; [|done]. change (" " +:+ p.2) with (String " "%char p.2).
    rewrite rstrip_cons; by rewrite (lstrip_id_rstrip p.2). }
  assert (lock_owner_record p ≠ "") as Hrec by (unfold lock_owner_record; by destruct (str_int p.1)).
  destruct (lock_owner_record p) as [|c r] eqn:Heq; [done|]. rewrite <-Heq. unfold lock_owner_record.
  rewrite partition_digits, py_int_str_int, Hstrip by done. by destruct p.2.
Qed.

Section Lock.
(** The process of each handle, and the machine. *)
Context (pid_of : nat → Z) (host : string).

Definition owner (i : nat) : proc := (pid_of i, host).

(** One step; [None] when the handle is elsewhere. *)
Definition lock_apply (op : lock_op) (w : world) : option world :=
  let at_phase i p w' := if decide (phase_of i w = p) then Some w' else None in
  match op with
  | LOpen i => at_phase i Fresh (go i Opened (with_file (Some (default "" (w_file w))) w))
  | LFlock i =>
      at_phase i Opened
        (match w_holder w with
         | None => go i Locked (with_holder (Some i) w)
         | Some _ => go i Refused w
         end)
  | LReport i => at_phase i Refused (go i Gone w)
  | LTruncate i => at_phase i Locked (go i Cleared (with_file (Some "") w))
  | LWrite i =>
      at_phase i Cleared
        (go i InUse (with_file (Some (overwrite (lock_owner_record (owner i)) (default "" (w_file w)))) w))
  | LReconnectFail i => at_phase i InUse (go i Broken w)
  | LClose i =>
      if decide (phase_of i w = Broken) then Some w      (* [if self._closed: return] *)
      else at_phase i InUse (go i Closing w)
  | LBlank i =>
      at_phase i Closing
        (go i Blanked (if names_us (owner i) (w_file w) then with_file (Some "") w else w))
  | LBlankFail i => at_phase i Closing (go i Blanked w)
  | LUnlock i => at_phase i Blanked (go i Gone (with_holder None w))
  | LCrash p =>
      Some (mk_world (w_file w)
        (match w_holder w with
         | Some i => if decide (pid_of i = p) then None else Some i
         | None => None
         end)
        (map_imap (λ i ph, Some (if decide (pid_of i = p) then Gone else ph)) (w_phases w)))
  | LElsewhere f => Some (with_file (Some f) w)
  end.

Definition lock_step (w : world) (op : lock_op) (w' : world) : Prop := lock_apply op w = Some w'.

(** What the refusal reports as the owner. *)
Definition refusal_owner (w : world) : option Z := (read_lock_owner (w_file w)).1.

(** ** What the lock guarantees *)

(** The phases between [flock] and its release. *)
Definition holds (p : phase) : bool :=
  match p with Locked | Cleared | InUse | Broken | Closing | Blanked => true | _ => false end.

(** The phases in which the file names the handle's process. *)
Definition recorded (p : phase) : bool := match p with InUse | Broken | Closing => true | _ => false end.

(** The kernel's view. *)
Definition lock_holder (w : world) : Prop := ∀ i, holds (phase_of i w) = true ↔ w_holder w = Some i.

(** What the file says while no other machine rewrites it. *)
Record lock_ok (w : world) : Prop := mk_lock_ok {
  lo_holder : lock_holder w;
  lo_recorded : ∀ i, recorded (phase_of i w) = true → w_file w = Some (lock_owner_record (owner i));
  lo_cleared : ∀ i, phase_of i w = Cleared → w_file w = Some ""
}.

Lemma phase_of_go i j p w : phase_of j (go i p w) = if decide (j = i) then p else phase_of j w.
Proof.
  unfold phase_of, go. cbn. destruct (decide (j = i)) as [->|Hne]; [by rewrite lookup_insert_eq|].
  by rewrite lookup_insert_ne.
Qed.

Lemma phase_of_crash p w w' i : lock_step w (LCrash p) w' →
  phase_of i w' = if decide (pid_of i = p) then match w_phases w !! i with Some _ => Gone | None => Fresh end else phase_of i w.
Proof.
  intros [= <-]. unfold phase_of. cbn. rewrite map_lookup_imap. destruct (w_phases w !! i); cbn; by destruct (decide _).
Qed.

(** *** Exclusion, whatever happens to the file *)

Lemma lock_holder_go i p f w : lock_holder w → holds p = holds (phase_of i w) → lock_holder (go i p (with_file f w)).
Proof.
  intros Hw Hp j. rewrite phase_of_go. cbn [go with_file w_holder]. destruct (decide (j = i)) as [->|]; [rewrite Hp|]; apply Hw.
Qed.

Lemma lock_holder_move i p w : lock_holder w → holds p = holds (phase_of i w) → lock_holder (go i p w).
Proof. intros Hw Hp. pose proof (lock_holder_go i p (w_file w) w Hw Hp) as H. by destruct w. Qed.

(** While one handle holds the lock, no other does. *)
Lemma lock_holder_other i j w : lock_holder w → w_holder w = Some i → j ≠ i → holds (phase_of j w) = false.
Proof. intros Hw Hi Hne. destruct (holds (phase_of j w)) eqn:Hj; [|done]. apply Hw in Hj. congruence. Qed.

Lemma lock_holder_step w op w' : lock_holder w → lock_step w op w' → lock_holder w'.
Proof.
  intros Hw. unfold lock_step. destruct op as [i|i|i|i|i|i|i|i|i|i|p|f]; cbn [lock_apply].
  1-6, 8-10: (destruct (decide (phase_of i w = _)) as [Hi|]; [|done]); intros [= <-].
  1, 4, 5: (apply lock_holder_go; [done|by rewrite Hi]).
  2, 3: (apply lock_holder_move; [done|by rewrite Hi]).
  - (* flock *)
    destruct (w_holder w) as [k|] eqn:Hk; [apply lock_holder_move; [done|by rewrite Hi]|].
    intros j. rewrite phase_of_go. cbn [go with_holder w_holder].
    destruct (decide (j = i)) as [->|Hne]; [done|]. split; [|congruence].
    change (phase_of j (with_holder (Some i) w)) with (phase_of j w). intros Hj%Hw. congruence.
  - (* blank *) destruct (names_us _ _); [apply lock_holder_go|apply lock_holder_move]; by rewrite ?Hi.
  - (* blanking fails *) by apply lock_holder_move; rewrite ?Hi.
  - (* unlock *)
    assert (w_holder w = Some i) as Hk by (apply Hw; by rewrite Hi).
    intros j. rewrite phase_of_go. cbn [go with_holder w_holder]. destruct (decide (j = i)) as [->|Hne]; [done|].
    change (phase_of j (with_holder None w)) with (phase_of j w). by rewrite (lock_holder_other i j).
  - (* close *)
    destruct (decide (phase_of i w = Broken)) as [Hb|]; [by intros [= <-]|].
    destruct (decide (phase_of i w = InUse)) as [Hi|]; [|done]. intros [= <-]. by apply lock_holder_move; rewrite ?Hi.
  - (* crash *)
    intros Hstep. pose proof (λ i, phase_of_crash p w w' i Hstep) as Hph. injection Hstep as <-.
    intros i. rewrite Hph. cbn [w_holder]. destruct (decide (pid_of i = p)) as [Ho|Ho].
    + assert (holds match w_phases w !! i with Some _ => Gone | None => Fresh end = false) as ->
        by (by destruct (w_phases w !! i)).
      destruct (w_holder w) as [k|]; [|done]. destruct (decide (pid_of k = p)); [done|]. split; [done|congruence].
    + rewrite (Hw i). destruct (w_holder w) as [k|]; [|done]. destruct (decide (pid_of k = p)); [|done]. split; congruence.
  - (* another machine *) by intros [= <-].
Qed.

Lemma overwrite_blank s : overwrite s "" = s.
Proof.
  unfold overwrite. assert (∀ n m, String.substring n m "" = "") as -> by (by intros [] []).
  induction s as [|c s IH]; [done|]. exact (f_equal (String c) IH).
Qed.

(** A handle that moves without touching file and holder, inside or outside. *)
Lemma lock_ok_go i p w : lock_ok w → holds p = holds (phase_of i w) → (recorded p = true → recorded (phase_of i w) = true) →
  p ≠ Cleared → lock_ok (go i p w).
Proof.
  intros [H1 H2 H3] Hh Hr Hc. constructor; intros j; rewrite phase_of_go; cbn [go w_file w_holder];
    destruct (decide (j = i)) as [->|Hne]; eauto.
  - rewrite Hh. apply H1.
  - intros Hp. by rewrite Hp in Hc.
Qed.

(** The holder writes the file while moving. *)
Lemma lock_ok_write i p f w : lock_ok w → holds (phase_of i w) = true → holds p = true →
  (recorded p = true → f = Some (lock_owner_record (owner i))) → (p = Cleared → f = Some "") →
  lock_ok (go i p (with_file f w)).
Proof.
  intros [H1 H2 H3] Hi Hp Hr Hc. pose proof (proj1 (H1 i) Hi) as Hhold.
  assert (∀ j, j ≠ i → holds (phase_of j w) = false) as Hother.
  { intros j Hne. destruct (holds (phase_of j w)) eqn:Hj; [|done]. apply H1 in Hj. congruence. }
  constructor; intros j; rewrite phase_of_go; cbn [go with_file w_file w_holder];
    change (phase_of j (with_file f w)) with (phase_of j w);
    (destruct (decide (j = i)) as [->|Hne]; [|specialize (Hother j Hne)]).
  - by rewrite Hp.
  - rewrite Hother, Hhold. split; congruence.
  - exact Hr.
  - intros Hj. by destruct (phase_of j w).
  - exact Hc.
  - intros Hj. by rewrite Hj in Hother.
Qed.

Lemma lock_ok_new file : lock_ok (new_world file).
Proof. constructor; intros i; unfold phase_of; cbn; rewrite lookup_empty; done. Qed.

Lemma holder_phase w i : lock_ok w → w_holder w = Some i → holds (phase_of i w) = true.
Proof. intros Hw. by apply (lo_holder w Hw). Qed.

(** A step of this machine. *)
Definition here (op : lock_op) : Prop := match op with LElsewhere _ => False | _ => True end.

Lemma lock_ok_step w op w' : here op → lock_ok w → lock_step w op w' → lock_ok w'.
Proof.
  intros Hop Hw Hstep. pose proof (lock_holder_step w op w' (lo_holder w Hw) Hstep) as H1'.
  pose proof Hw as [H1 H2 H3]. revert Hstep. unfold lock_step.
  destruct op as [i|i|i|i|i|i|i|i|i|i|p|f]; cbn [lock_apply]; [..|done].
  1-6, 8-10: (destruct (decide (phase_of i w = _)) as [Hi|]; [|done]); intros [= <-].
  - (* open *)
    assert (lock_ok (with_file (Some (default "" (w_file w))) w)) as Hw'.
    { constructor; cbn [with_file w_file w_holder]; [done|..]; intros j Hj.
      - by rewrite (H2 j Hj).
      - by rewrite (H3 j Hj). }
    apply lock_ok_go; [done| | |done]; change (phase_of i (with_file _ w)) with (phase_of i w); by rewrite Hi.
  - (* flock *)
    destruct (w_holder w) as [k|] eqn:Hk.
    { apply lock_ok_go; [done| | |done]; by rewrite Hi. }
    assert (∀ j, holds (phase_of j w) = false) as Hnone.
    { intros j. destruct (holds (phase_of j w)) eqn:Hj; [|done]. apply H1 in Hj. congruence. }
    constructor; [done|..]; intros j; rewrite phase_of_go; cbn [go with_holder w_file w_holder];
      change (phase_of j (with_holder (Some i) w)) with (phase_of j w); specialize (Hnone j).
    + destruct (decide (j = i)); [done|]. by destruct (phase_of j w).
    + destruct (decide (j = i)); [done|]. intros Hj. by rewrite Hj in Hnone.
  - (* report *) apply lock_ok_go; [done| | |done]; by rewrite Hi.
  - (* truncate *) by apply lock_ok_write; rewrite ?Hi.
  - (* write *) apply lock_ok_write; rewrite ?Hi; try done. intros _. rewrite (H3 i Hi). cbn. by rewrite overwrite_blank.
  - (* reconnect fails *) apply lock_ok_go; [done| | |done]; by rewrite Hi.
  - (* blank *)
    destruct (names_us _ _); [by apply lock_ok_write; rewrite ?Hi|]. apply lock_ok_go; [done| | |done]; by rewrite Hi.
  - (* blanking fails *) apply lock_ok_go; [done| | |done]; by rewrite Hi.
  - (* unlock *)
    assert (w_holder w = Some i) as Hk by (apply H1; by rewrite Hi).
    constructor; [done|..]; intros j; rewrite phase_of_go; cbn [go with_holder w_file w_holder];
      change (phase_of j (with_holder None w)) with (phase_of j w); destruct (decide (j = i)) as [->|Hne]; eauto; done.
  - (* close *)
    destruct (decide (phase_of i w = Broken)) as [Hb|]; [intros [= <-]; done|].
    destruct (decide (phase_of i w = InUse)) as [Hi|]; [|done]. intros [= <-].
    apply lock_ok_go; [done| | |done]; by rewrite Hi.
  - (* crash *)
    intros Hstep. pose proof (λ i, phase_of_crash p w w' i Hstep) as Hph. injection Hstep as <-.
    constructor; [done|..]; intros i; rewrite Hph; cbn [w_file w_holder].
    + destruct (decide (pid_of i = p)); [by destruct (w_phases w !! i)|apply H2].
    + destruct (decide (pid_of i = p)); [by destruct (w_phases w !! i)|apply H3].
Qed.

(** *** A clean history *)

Definition blank (file : option string) : Prop := read_lock_owner file = (None, None).

(** No process dies, every record is blanked, and no other machine interferes. *)
Definition orderly (op : lock_op) : Prop :=
  match op with LCrash _ | LBlankFail _ | LElsewhere _ => False | _ => True end.

Lemma orderly_here op : orderly op → here op.
Proof. by destruct op. Qed.

(** Between sessions, and just before the release, the file names nobody. *)
Definition lock_clean (w : world) : Prop :=
  (w_holder w = None → blank (w_file w)) ∧ ∀ i, phase_of i w = Blanked → blank (w_file w).

Lemma names_us_record p : proc_wf p → names_us p (Some (lock_owner_record p)) = true.
Proof.
  intros Hp. unfold names_us. rewrite read_lock_record by done.
  rewrite (bool_decide_eq_true_2 (Some p.1 = _)), (bool_decide_eq_true_2 (Some p.2 = Some _)) by done.
  by rewrite orb_true_r.
Qed.

(** Moving to a phase that is not [Blanked]. *)
Lemma lock_clean_go i p w : lock_clean w → p ≠ Blanked → lock_clean (go i p w).
Proof.
  intros [H1 H2] Hp. split; [exact H1|]. intros j. rewrite phase_of_go. destruct (decide (j = i)); [done|apply H2].
Qed.

(** While [i] holds the lock, no handle is blanked but perhaps [i]. *)
Lemma lock_clean_held i p f w : lock_ok w → holds (phase_of i w) = true → (p = Blanked → blank f) →
  lock_clean (go i p (with_file f w)).
Proof.
  intros Hw Hi Hp. pose proof (proj1 (lo_holder w Hw i) Hi) as Hh. split; [cbn; congruence|].
  intros j. rewrite phase_of_go. destruct (decide (j = i)) as [|Hne]; [exact Hp|].
  change (phase_of j (with_file f w)) with (phase_of j w). intros Hj.
  assert (w_holder w = Some j) by (apply (lo_holder w Hw); by rewrite Hj). congruence.
Qed.

Lemma lock_clean_step w op w' : (∀ i, proc_wf (owner i)) → orderly op → lock_ok w → lock_clean w →
  lock_step w op w' → lock_clean w'.
Proof.
  intros Hwf Hop Hw Hc. unfold lock_step. destruct op as [i|i|i|i|i|i|i|i|i|i|p|f]; cbn [lock_apply]; try done.
  1-6, 8-9: (destruct (decide (phase_of i w = _)) as [Hi|]; [|done]); intros [= <-].
  - apply lock_clean_go; [|done]. destruct Hc as [H1 H2]. unfold blank in *. destruct (w_file w) as [c|] eqn:Hf.
    + cbn. split; unfold blank; cbn [with_file w_file w_holder]; [exact H1|exact H2].
    + split; done.
  - destruct (w_holder w) as [k|] eqn:Hk; [by apply lock_clean_go|]. apply lock_clean_go; [|done].
    split; [done|]. apply Hc.
  - by apply lock_clean_go.
  - apply lock_clean_held; [done|by rewrite Hi|done].
  - apply lock_clean_held; [done|by rewrite Hi|done].
  - by apply lock_clean_go.
  - rewrite (lo_recorded w Hw i) by (by rewrite Hi). rewrite names_us_record by done.
    apply lock_clean_held; [done|by rewrite Hi|done].
  - destruct Hc as [_ H2]. specialize (H2 i Hi). split; [done|]. intros j _. exact H2.
  - destruct (decide (phase_of i w = Broken)) as [Hb|]; [by intros [= <-]|].
    destruct (decide (phase_of i w = InUse)) as [Hi|]; [|done]. intros [= <-]. by apply lock_clean_go.
Qed.

Lemma lock_reachable_holder file ops w : steps lock_step (new_world file) ops w → lock_holder w.
Proof. apply (steps_invariant lock_step lock_holder lock_holder_step), lock_ok_new. Qed.

Lemma lock_reachable_ok file ops w : Forall here ops → steps lock_step (new_world file) ops w → lock_ok w.
Proof.
  intros Hops Hrun. pose proof (lock_ok_new file) as Hinit. revert Hops Hinit.
  induction Hrun as [|w1 op w2 ops w3 Hstep _ IH]; intros Hops Hok; [done|].
  apply Forall_cons in Hops as [Hop Hops]. apply IH; [done|]. by eapply lock_ok_step.
Qed.

Lemma lock_reachable_clean file ops w : (∀ i, proc_wf (owner i)) → blank file → Forall orderly ops →
  steps lock_step (new_world file) ops w → lock_clean w.
Proof.
  intros Hwf Hfile Hops Hrun.
  assert (lock_ok (new_world file) ∧ lock_clean (new_world file)) as Hinit.
  { split; [apply lock_ok_new|]. split; [done|]. intros i. unfold phase_of. cbn. by rewrite lookup_empty. }
  revert Hops Hinit. induction Hrun as [|w1 op w2 ops w3 Hstep _ IH]; intros Hops [Hok Hc]; [done|].
  apply Forall_cons in Hops as [Hop Hops]. apply IH; [done|].
  split; [eapply lock_ok_step; eauto using orderly_here|]. by apply (lock_clean_step w1 op).
Qed.


(** *** A failed reconnect *)

(** A failed reconnect keeps the session locked: it marks the manager as
    closed but keeps the descriptor, so [close] does nothing any more, the lock
    is held until the process dies, and every other handle, of this process
    too, is refused. *)
Theorem failed_reconnect_keeps_lock file ops w i ops' w' :
  steps lock_step (new_world file) ops w → phase_of i w = Broken →
  steps lock_step w ops' w' → LCrash (pid_of i) ∉ ops' →
  phase_of i w' = Broken ∧ lock_apply (LClose i) w' = Some w' ∧ w_holder w' = Some i ∧
  ∀ j, phase_of j w' = Opened → lock_apply (LFlock j) w' = Some (go j Refused w').
Proof.
  intros Hrun Hi Hrun' Hcrash. pose proof (lock_reachable_holder _ _ _ Hrun) as Hw. clear Hrun.
  assert (lock_holder w' ∧ phase_of i w' = Broken) as [Hw' Hi'].
  { revert Hw Hi Hcrash. induction Hrun' as [|w1 op w2 ops' w3 Hstep _ IH]; intros Hw Hi Hcrash; [done|].
    apply not_elem_of_cons in Hcrash as [Hop Hcrash]. apply IH; [by eapply lock_holder_step| |done].
    clear IH Hcrash. destruct op as [j|j|j|j|j|j|j|j|j|j|p|f]; unfold lock_step in Hstep; cbn [lock_apply] in Hstep.
    12: { by injection Hstep as <-. }
    11: { rewrite (phase_of_crash p w1 w2 i Hstep), decide_False; [done|congruence]. }
    7: { destruct (decide (phase_of j w1 = Broken)) as [|Hj]; [by injection Hstep as <-|].
         destruct (decide (phase_of j w1 = InUse)) as [Hj'|]; [|done]. injection Hstep as <-.
         rewrite phase_of_go. destruct (decide (i = j)) as [->|]; [congruence|done]. }
    all: destruct (decide (phase_of j w1 = _)) as [Hj|]; [|done]; injection Hstep as <-.
    all: repeat case_match; rewrite ?phase_of_go; try (rewrite decide_False by congruence); exact Hi. }
  assert (w_holder w' = Some i) as Hh by (apply Hw'; by rewrite Hi').
  split; [done|]. split; [cbn [lock_apply]; by rewrite decide_True|]. split; [done|].
  intros j Hj. cbn [lock_apply]. rewrite decide_True by done. by rewrite Hh.
Qed.
End Lock.

(** ** Witnesses

    Two processes; the first opens the database, the second tries. *)
Definition demo_pid (i : nat) : Z := match i with 0%nat => 100 | _ => 200 end.

Definition demo_next (w : world) (op : lock_op) : world := default w (lock_apply demo_pid "alpha" op w).

Definition demo_open : list lock_op := [LOpen 0; LOpen 1; LFlock 0; LTruncate 0; LWrite 0].

Definition demo_world : world := foldl demo_next (new_world None) demo_open.

Lemma demo_owner_wf i : proc_wf (owner demo_pid "alpha" i).
Proof. destruct i as [|i]; unfold proc_wf; cbn; (split; [lia|]); (split; [done|]); (split; [done|]); vm_compute; lia. Qed.

Lemma demo_lock_run : steps (lock_step demo_pid "alpha") (new_world None) demo_open demo_world.
Proof. apply steps_foldl. vm_compute. tauto. Qed.


(** A machine whose lock this kernel does not see takes the session over: the
    file then names its process, although the session is in use here. *)
Example record_taken_over :
  let w := demo_next demo_world (LElsewhere "300 beta") in
  phase_of 0 w = InUse ∧ refusal_owner w = Some 300%Z.
Proof. vm_compute. done. Qed.

(** A record that could not be blanked names a process that has left. *)
Example record_left_behind :
  let w := foldl demo_next demo_world [LClose 0; LBlankFail 0; LUnlock 0] in
  w_holder w = None ∧ refusal_owner w = Some 100%Z.
Proof. vm_compute. done. Qed.

Definition demo_broken : world := foldl demo_next (new_world None) (demo_open ++ [LReconnectFail 0]).

Lemma failed_reconnect_keeps_lock_witness :
  w_holder (foldl demo_next demo_broken [LClose 0; LCrash 200]) = Some 0%nat.
Proof.
  apply (failed_reconnect_keeps_lock demo_pid "alpha" None (demo_open ++ [LReconnectFail 0]) demo_broken 0
    [LClose 0; LCrash 200]).
  - apply steps_foldl. vm_compute. tauto.
  - vm_compute. reflexivity.
  - apply steps_foldl. vm_compute. tauto.
  - rewrite !not_elem_of_cons. split; [done|]. split; [|apply not_elem_of_nil]. intros [=].
Defined.
