(* ===== verification/SnapCodec.v ===== *)
(** * The snapshot codec

    Models [nooa/storage/serialization.py]: [serialize], which turns a live
    Python value into JSON data and the set of classes it met, and
    [deserialize], which rebuilds a value from them.  Live values are
    references into a heap of objects, so that sharing and cycles exist;
    restored values are trees.  A depth [d] of the code is represented by the
    levels [MAX_SNAPSHOT_DEPTH - d] that are left, on which the recursion is
    structural.  The messages of the errors are not modelled, their reasons and
    paths are. *)

From S2P Require Import Prelude PyStr PyDict Values.
From Stdlib Require Import SpecFloat Ascii.

Local Open Scope string_scope.

(** ** Live values *)

Inductive prim := PNone | PBool (b : bool) | PInt (z : Z) | PFloat (f : spec_float) | PStr (s : string).

(** A primitive, an enum member with its value, or a reference to an object. *)
Inductive pv := Prim (p : prim) | Enum (v : pv) | Ref (o : nat).

Inductive dkey := KStr (s : string) | KOther (n : nat).

(** The objects that the dispatch of [_serialize] tells apart.  A model has
    its declared fields, its extra fields and what [__snapshot_data__] returns
    if the class has it; a [@snapshotable] object has its [vars()] and the name
    of its lenient dict, if any.  Classes are given by their qualified name. *)
Inductive body :=
  | BDict (items : list (dkey * pv))
  | BList (items : list pv)
  | BTuple (items : list pv)
  | BModel (fqn : string) (fields extra : list (string * pv)) (hook : option pyval)
  | BDataclass (fqn : string) (fields : list (string * pv))
  | BSnapshotable (fqn : string) (attrs : list (string * pv)) (lenient : option string)
  | BUnknown.

Record pobj := mk_pobj { o_nosnapshot : bool; o_body : body }.

Definition prim_val (p : prim) : pyval :=
  match p with
  | PNone => VNone | PBool b => VBool b | PInt z => VInt z | PFloat f => VFloat f | PStr s => VStr s
  end.

(** Step 1 of the dispatch: an enum is serialized as its value. *)
Fixpoint strip_enum (v : pv) : pv := match v with Enum v' => strip_enum v' | _ => v end.

(** ** Errors *)

(** [['k']], [[0]] and [.attr]. *)
Inductive seg := SegKey (k : dkey) | SegIdx (i : nat) | SegAttr (name : string).

Inductive reason := RDepth | RCycle | RType | RKey.

(** [_PathError]: its path from the outermost segment inwards.  A malformed
    [__snapshot_data__] can also make the check raise [TypeError]. *)
Inductive perr := PathError (r : reason) (path : list seg) | PyTypeError.

(** While the error unwinds every container adds the segment of its child. *)
Definition add_seg (g : seg) (e : perr) : perr :=
  match e with PathError r p => PathError r (g :: p) | PyTypeError => PyTypeError end.

(** ** Envelopes *)

Definition t_pydantic : string := "pydantic".
Definition t_dataclass : string := "dataclass".
Definition t_dict_class : string := "dict_class".
Definition t_tuple : string := "tuple".
Definition envelope_types : list string := [t_pydantic; t_dataclass; t_dict_class; t_tuple].

Definition MAX_SNAPSHOT_DEPTH : nat := 200.

Definition class_envelope (kind fqn : string) (data : pyval) : pyval :=
  VDict [("__type__", VStr kind); ("__class__", VStr fqn); ("data", data)].
Definition tuple_envelope (items : list pyval) : pyval :=
  VDict [("__type__", VStr t_tuple); ("data", VList items)].

(** [hash(v)] is defined. *)
Fixpoint hashable (v : pyval) : bool :=
  match v with VList _ | VDict _ => false | VTuple l => forallb hashable l | _ => true end.

(** How a dictionary is read back: the tests on [blob.get("__type__")]. *)
Inductive shape := ShTuple (data : pyval) | ShClass (kind : string) (cls data : pyval) | ShPlain | ShTypeError.

Definition dict_shape (d : list (string * pyval)) : shape :=
  match dict_get "__type__" d with
  | None => ShPlain
  | Some t =>
      match t, dict_get "data" d with
      | VStr kind, Some data =>
          if bool_decide (kind = t_tuple) then ShTuple data
          else if bool_decide (kind ∈ envelope_types) then
            match dict_get "__class__" d with Some cls => ShClass kind cls data | None => ShPlain end
          else ShPlain
      | _, _ => if hashable t then ShPlain else ShTypeError
      end
  end.

(** The values of [for item in v]. *)
Definition iter_values (v : pyval) : option (list pyval) :=
  match v with
  | VList l | VTuple l => Some l
  | VStr s => Some ((λ c, VStr (String c "")) <$> String.list_ascii_of_string s)
  | VDict d => Some (VStr <$> d.*1)
  | _ => None
  end.

(** ** The depth of [__snapshot_data__] output *)

Section CheckItems.
Context (check : pyval → option perr).

Fixpoint check_items (i : nat) (l : list pyval) : option perr :=
  match l with
  | [] => None
  | x :: l' => match check x with Some e => Some (add_seg (SegIdx i) e) | None => check_items (S i) l' end
  end.

Fixpoint check_entries (mk : string → seg) (d : list (string * pyval)) : option perr :=
  match d with
  | [] => None
  | (k, x) :: d' => match check x with Some e => Some (add_seg (mk k) e) | None => check_entries mk d' end
  end.
End CheckItems.

(** [_check_blob_depth] with [left] levels left; [_check_snapshot_data_depth]
    is the part on [data], whose values sit at the same depth. *)
Definition check_data (check : pyval → option perr) (data : pyval) : option perr :=
  match data with
  | VDict d => check_entries check SegAttr d
  | _ => check data
  end.

Fixpoint check_blob_depth (left : nat) (blob : pyval) : option perr :=
  match blob with
  | VList l | VTuple l =>
      match left with
      | 0 => Some (PathError RDepth [])
      | S left' => check_items (check_blob_depth left') 0 l
      end
  | VDict d =>
      match left with
      | 0 => Some (PathError RDepth [])
      | S left' =>
          match dict_shape d with
          | ShTuple data =>
              match iter_values data with
              | Some l => check_items (check_blob_depth left') 0 l
              | None => Some PyTypeError
              end
          | ShClass _ _ data => check_data (check_blob_depth left') data
          | ShPlain => check_entries (check_blob_depth left') (λ k, SegKey (KStr k)) d
          | ShTypeError => Some PyTypeError
          end
      end
  | _ => None
  end.

(** ** [serialize] *)

(** What [_serialize] returns: data, the sentinel [SKIP], or an error. *)
Inductive sres := SBlob (b : pyval) | SSkip | SFail (e : perr).

(** The allowlist so far is threaded through the calls, also past a caught
    error. *)
Notation alst := (list string) (only parsing).

Definition allow (fqn : string) (al : alst) : alst := if decide (fqn ∈ al) then al else al ++ [fqn].

Section SerItems.
Context (ser : pv → alst → sres * alst).

(** The loop over list and tuple items, from index [i]. *)
Fixpoint ser_items (i : nat) (l : list pv) (al : alst) : (perr + list pyval) * alst :=
  match l with
  | [] => (inr [], al)
  | v :: l' =>
      match ser v al with
      | (SFail e, al1) => (inl (add_seg (SegIdx i) e), al1)
      | (SSkip, al1) => ser_items (S i) l' al1
      | (SBlob b, al1) =>
          match ser_items (S i) l' al1 with
          | (inl e, al2) => (inl e, al2)
          | (inr bs, al2) => (inr (b :: bs), al2)
          end
      end
  end.

(** The loop over dict items. *)
Fixpoint ser_dict (items : list (dkey * pv)) (acc : list (string * pyval)) (al : alst)
    : (perr + list (string * pyval)) * alst :=
  match items with
  | [] => (inr acc, al)
  | (KOther n, _) :: _ => (inl (PathError RKey []), al)
  | (KStr k, v) :: items' =>
      match ser v al with
      | (SFail e, al1) => (inl (add_seg (SegKey (KStr k)) e), al1)
      | (SSkip, al1) => ser_dict items' acc al1
      | (SBlob b, al1) => ser_dict items' (dict_set k b acc) al1
      end
  end.

(** [_serialize_fields] into [data]. *)
Fixpoint ser_fields (fields : list (string * pv)) (data : list (string * pyval)) (al : alst)
    : (perr + list (string * pyval)) * alst :=
  match fields with
  | [] => (inr data, al)
  | (name, v) :: fields' =>
      match ser v al with
      | (SFail e, al1) => (inl (add_seg (SegAttr name) e), al1)
      | (SSkip, al1) => ser_fields fields' data al1
      | (SBlob b, al1) => ser_fields fields' (dict_set name b data) al1
      end
  end.

(** The entries of [_serialize_lenient_dict]: one that fails with a path error
    is left out. *)
Fixpoint ser_lenient (items : list (dkey * pv)) (acc : list (string * pyval)) (al : alst)
    : (perr + list (string * pyval)) * alst :=
  match items with
  | [] => (inr acc, al)
  | (KOther n, _) :: items' => ser_lenient items' acc al
  | (KStr k, v) :: items' =>
      match ser v al with
      | (SBlob b, al1) => ser_lenient items' (dict_set k b acc) al1
      | (SFail PyTypeError, al1) => (inl PyTypeError, al1)
      | (_, al1) => ser_lenient items' acc al1
      end
  end.
End SerItems.

Section Serialize.
Context (heap : list pobj).

(** [isinstance(fields.get(lenient), dict)]: the dict object and its items. *)
Definition lenient_dict (lenient : option string) (attrs : list (string * pv))
    : option (string * nat * list (dkey * pv)) :=
  name ← lenient;
  v ← dict_get name attrs;
  match v with
  | Ref o => match heap !! o with
             | Some (mk_pobj _ (BDict items)) => Some (name, o, items)
             | _ => None
             end
  | _ => None
  end.

Definition wrap (f : pyval → pyval) (r : (perr + list (string * pyval)) * alst) : sres * alst :=
  match r with
  | (inl e, al) => (SFail e, al)
  | (inr data, al) => (SBlob (f (VDict data)), al)
  end.

(** [_serialize] with [left] levels left and the containers [active] on the
    current path. *)
Fixpoint ser (left : nat) (active : list nat) (v : pv) (al : alst) : sres * alst :=
  match strip_enum v with
  | Prim p => (SBlob (prim_val p), al)
  | Enum _ => (SFail (PathError RType []), al)   (* not reached: enums are stripped *)
  | Ref o =>
      match heap !! o with
      | None => (SFail (PathError RType []), al)   (* not reached: references are valid *)
      | Some ob =>
          if o_nosnapshot ob then (SSkip, al)
          else if bool_decide (o ∈ active) then (SFail (PathError RCycle []), al)
          else
            match left with
            | 0 => (SFail (PathError RDepth []), al)
            | S left' =>
                let rec := ser left' (o :: active) in
                match o_body ob with
                | BDict items => wrap id (ser_dict rec items [] al)
                | BList items =>
                    match ser_items rec 0 items al with
                    | (inl e, al1) => (SFail e, al1)
                    | (inr bs, al1) => (SBlob (VList bs), al1)
                    end
                | BTuple items =>
                    match ser_items rec 0 items al with
                    | (inl e, al1) => (SFail e, al1)
                    | (inr bs, al1) => (SBlob (tuple_envelope bs), al1)
                    end
                | BModel fqn fields extra hook =>
                    let al0 := allow fqn al in
                    match hook with
                    | Some data =>
                        match check_data (check_blob_depth left') data with
                        | Some e => (SFail e, al0)
                        | None => (SBlob (class_envelope t_pydantic fqn data), al0)
                        end
                    | None =>
                        match ser_fields rec fields [] al0 with
                        | (inl e, al1) => (SFail e, al1)
                        | (inr data, al1) =>
                            wrap (class_envelope t_pydantic fqn) (ser_fields rec extra data al1)
                        end
                    end
                | BDataclass fqn fields =>
                    wrap (class_envelope t_dataclass fqn) (ser_fields rec fields [] (allow fqn al))
                | BSnapshotable fqn attrs lenient =>
                    let al0 := allow fqn al in
                    match lenient_dict lenient attrs with
                    | None => wrap (class_envelope t_dict_class fqn) (ser_fields rec attrs [] al0)
                    | Some (name, d, items) =>
                        match ser_fields rec (dict_del name attrs) [] al0 with
                        | (inl e, al1) => (SFail e, al1)
                        | (inr data, al1) =>
                            if bool_decide (d ∈ o :: active)
                            then (SFail (PathError RCycle [SegAttr name]), al1)
                            else
                              match left' with
                              | 0 => (SFail (PathError RDepth [SegAttr name]), al1)
                              | S left'' =>
                                  wrap (λ entries, class_envelope t_dict_class fqn
                                                     (VDict (dict_set name entries data)))
                                    (ser_lenient (ser left'' (d :: o :: active)) items [] al1)
                              end
                        end
                    end
                | BUnknown => (SFail (PathError RType []), al)
                end
            end
      end
  end.

(** [serialize(value, base_depth=...)]: the data and the allowlist, or the
    error; [SKIP] is a value of its own. *)
Definition serialize (v : pv) (base_depth : nat) : sres * alst :=
  ser (MAX_SNAPSHOT_DEPTH - base_depth) [] v [].
End Serialize.

(** ** [deserialize] *)

(** A restored value: a primitive, a fresh container, or an instance of a
    class with its attributes. *)
Inductive tree (Cls : Type) :=
  | TVal (v : pyval)
  | TList (l : list (tree Cls))
  | TTuple (l : list (tree Cls))
  | TDict (d : list (string * tree Cls))
  | TObj (c : Cls) (attrs : list (string * tree Cls)).
Arguments TVal {Cls}. Arguments TList {Cls}. Arguments TTuple {Cls}. Arguments TDict {Cls}.
Arguments TObj {Cls}.

(** [DeserializationError] for the depth, a class outside the allowlist and a
    class that cannot be imported, and any other exception. *)
Inductive derr := DDepth (path : list seg) | DNotAllowed (fqn : string) | DNoClass (fqn : string) | DOther.

Definition add_dseg (g : seg) (e : derr) : derr := match e with DDepth p => DDepth (g :: p) | _ => e end.

Section DesItems.
Context {Cls : Type} (des : pyval → derr + tree Cls).

(** [_deserialize_items], and the values of a dictionary, whose path segments
    are [mk]. *)
Fixpoint des_items (i : nat) (l : list pyval) : derr + list (tree Cls) :=
  match l with
  | [] => inr []
  | x :: l' =>
      match des x with
      | inl e => inl (add_dseg (SegIdx i) e)
      | inr t => match des_items (S i) l' with inl e => inl e | inr ts => inr (t :: ts) end
      end
  end.

Fixpoint des_entries (mk : string → seg) (d : list (string * pyval)) (acc : list (string * tree Cls))
    : derr + list (string * tree Cls) :=
  match d with
  | [] => inr acc
  | (k, x) :: d' =>
      match des x with
      | inl e => inl (add_dseg (mk k) e)
      | inr t => des_entries mk d' (dict_set k t acc)
      end
  end.
End DesItems.

(** The classes of the running program and their constructors. *)
Record classes (Cls : Type) := mk_classes {
  resolve : string → list string → option Cls;     (** import a module, then walk the attributes *)
  restore_hook : Cls → option (list (string * tree Cls) → option (tree Cls));
  extra_allow : Cls → bool;                          (** [model_config["extra"] == "allow"] *)
  model_fields : Cls → list string;
  validate : Cls → list (string * tree Cls) → option (tree Cls);    (** [model_validate] *)
  init_params : Cls → list string;                   (** the parameters of the constructor *)
  construct : Cls → list (string * tree Cls) → option (list (string * tree Cls))  (** [vars(cls(...))] *)
}.
Arguments resolve {Cls}. Arguments restore_hook {Cls}. Arguments extra_allow {Cls}.
Arguments model_fields {Cls}. Arguments validate {Cls}. Arguments init_params {Cls}. Arguments construct {Cls}.

Section Deserialize.
Context {Cls : Type} (env : classes Cls).

(** The loop of [_import_class] over the module prefixes of one candidate,
    the longest first. *)
Fixpoint import_from (i : nat) (parts : list string) : option Cls :=
  match i with
  | 0 => None
  | S i' =>
      match resolve env (join_dot (take i parts)) (drop i parts) with
      | Some c => Some c
      | None => import_from i' parts
      end
  end.

(** The candidates of [_import_class] in order. *)
Definition class_candidates (fqn : string) : list string :=
  fqn :: (if String.prefix "nemo_oo_agents." fqn
          then ["nooa." +:+ String.substring 15 (String.length fqn - 15) fqn] else []).

(** [_import_class]: a name without a dot is an error at once. *)
Fixpoint import_candidates (l : list string) : option Cls :=
  match l with
  | [] => None
  | c :: l' =>
      let parts := split_dot c in
      if (length parts <? 2)%nat then None
      else match import_from (length parts - 1)%nat parts with
           | Some cls => Some cls
           | None => import_candidates l'
           end
  end.
Definition import_class (fqn : string) : option Cls := import_candidates (class_candidates fqn).

(** [{k: v for k, v in data.items() if k in names}]. *)
Definition keep_keys {A} (names : list string) (d : list (string * A)) : list (string * A) :=
  List.filter (λ kv, bool_decide (kv.1 ∈ names)) d.
Definition drop_keys {A} (names : list string) (d : list (string * A)) : list (string * A) :=
  List.filter (λ kv, negb (bool_decide (kv.1 ∈ names))) d.

Definition built (o : option (tree Cls)) : derr + tree Cls := match o with Some t => inr t | None => inl DOther end.

(** The fields an envelope's class lets through before they are restored. *)
Definition retained {A} (kind : string) (c : Cls) (data : list (string * A)) : list (string * A) :=
  if bool_decide (kind = t_pydantic) then
    match restore_hook env c with
    | Some _ => data
    | None => if extra_allow env c then data else keep_keys (model_fields env c) data
    end
  else data.

(** [_deserialize_envelope] after its fields are restored. *)
Definition rebuild (kind : string) (c : Cls) (data : list (string * tree Cls)) : derr + tree Cls :=
  if bool_decide (kind = t_pydantic) then
    match restore_hook env c with
    | Some restore => built (restore data)
    | None => built (validate env c data)
    end
  else if bool_decide (kind = t_dataclass) then
    built (TObj c <$> construct env c (keep_keys (init_params env c) data))
  else if bool_decide (kind = t_dict_class) then
    let accepted := list_difference (init_params env c) ["self"] in
    built ((λ attrs, TObj c (dict_update attrs (drop_keys accepted data)))
             <$> construct env c (keep_keys accepted data))
  else inl DOther.

(** [_deserialize_envelope]. *)
Definition des_envelope (des : pyval → derr + tree Cls) (allowlist : list string) (kind : string)
    (cls data : pyval) : derr + tree Cls :=
  match cls with
  | VStr fqn =>
      if bool_decide (fqn ∈ allowlist) then
        match import_class fqn with
        | None => inl (DNoClass fqn)
        | Some c =>
            match data with
            | VDict d =>
                match des_entries des SegAttr (retained kind c d) [] with
                | inl e => inl e
                | inr fields => rebuild kind c fields
                end
            | _ => inl DOther
            end
        end
      else inl (DNotAllowed fqn)
  | _ => inl DOther
  end.

(** [_deserialize] with [left] levels left. *)
Fixpoint des (allowlist : list string) (left : nat) (blob : pyval) : derr + tree Cls :=
  match blob with
  | VList l =>
      match left with
      | 0 => inl (DDepth [])
      | S left' =>
          match des_items (des allowlist left') 0 l with inl e => inl e | inr ts => inr (TList ts) end
      end
  | VDict d =>
      match left with
      | 0 => inl (DDepth [])
      | S left' =>
          match dict_shape d with
          | ShTuple data =>
              match iter_values data with
              | Some l =>
                  match des_items (des allowlist left') 0 l with inl e => inl e | inr ts => inr (TTuple ts) end
              | None => inl DOther
              end
          | ShClass kind cls data => des_envelope (des allowlist left') allowlist kind cls data
          | ShPlain =>
              match des_entries (des allowlist left') (λ k, SegKey (KStr k)) d [] with
              | inl e => inl e
              | inr ts => inr (TDict ts)
              end
          | ShTypeError => inl DOther
          end
      end
  | v => inr (TVal v)
  end.

(** [deserialize]. *)
Definition deserialize (blob : pyval) (allowlist : list string) : derr + tree Cls :=
  des allowlist MAX_SNAPSHOT_DEPTH blob.
End Deserialize.
