(* ===== verification/SnapCodecRuns.v ===== *)
(** * The snapshot codec restores what it saves

    [copy] says what a restored value should be, directly on the heap; the
    round trip is that [deserialize] of what [serialize] returns is that copy,
    for every value that serializes. *)

From S2P Require Import Prelude PyStr PyDict Values SnapCodec.

(** ** The allowlist *)

Lemma allow_mono fqn (al : list string) : al ⊆ allow fqn al.
Proof. unfold allow. destruct (decide _); [done|]. set_solver. Qed.

Lemma allow_in fqn (al : list string) : fqn ∈ allow fqn al.
Proof. unfold allow. destruct (decide _); [done|]. set_solver. Qed.

(** A call whose outcome does not depend on the allowlist so far, which it only
    extends. *)
Definition uniform {A} (f : list string → A * list string) : Prop :=
  ∀ al, al ⊆ (f al).2 ∧ (f al).1 = (f []).1.

Lemma uniform_ret {A} (a : A) : uniform (λ al, (a, al)).
Proof. by intros al. Qed.

Lemma uniform_allow fqn : uniform (λ al, (tt, allow fqn al)).
Proof. intros al. split; [apply allow_mono|done]. Qed.

Lemma uniform_bind {A B} (f : list string → A * list string) (g : A → list string → B * list string) :
  uniform f → (∀ a, uniform (g a)) → uniform (λ al, let '(a, al1) := f al in g a al1).
Proof.
  intros Hf Hg al. destruct (Hf al) as [Hf1 Hf2]. destruct (f al) as [a al1], (f []) as [a' al2]. simpl in *.
  subst a'. destruct (Hg a al1) as [Hg1 Hg2], (Hg a al2) as [_ Hg3]. split; [set_solver|congruence].
Qed.

Lemma uniform_ext {A} (f g : list string → A * list string) : (∀ al, f al = g al) → uniform g → uniform f.
Proof. intros Hfg Hg al. rewrite !Hfg. apply Hg. Qed.

Section Uniform.
Context (rec : pv → list string → sres * list string) (Hrec : ∀ v, uniform (rec v)).

(** The first element, then what follows for its outcome. *)
Lemma uniform_head {A} v (f : list string → A * list string) (g : sres → list string → A * list string) :
  (∀ al, f al = let '(r, al1) := rec v al in g r al1) → (∀ r, uniform (g r)) → uniform f.
Proof. intros Hf Hg. apply (uniform_ext _ _ Hf). by apply uniform_bind. Qed.

Lemma uniform_items i l : uniform (ser_items rec i l).
Proof.
  revert i. induction l as [|v l IH]; intros i; [apply uniform_ret|].
  apply (uniform_head v _ (λ r, match r with
    | SFail e => λ al, (inl (add_seg (SegIdx i) e), al)
    | SSkip => ser_items rec (S i) l
    | SBlob b => λ al, let '(r, al2) := ser_items rec (S i) l al in
        (match r with inl e => inl e | inr bs => inr (b :: bs) end, al2) end)).
  - intros al. simpl. destruct (rec v al) as [[b| |e] al1]; try done. by destruct (ser_items rec (S i) l al1) as [[]].
  - intros [b| |e]; [|apply IH|apply uniform_ret]. apply (uniform_bind _ _ (IH _)). intros [e|bs]; apply uniform_ret.
Qed.

Lemma uniform_dict items acc : uniform (ser_dict rec items acc).
Proof.
  revert acc. induction items as [|[[k|n] v] items IH]; intros acc; [apply uniform_ret| |apply uniform_ret].
  apply (uniform_head v _ (λ r, match r with
    | SFail e => λ al, (inl (add_seg (SegKey (KStr k)) e), al)
    | SSkip => ser_dict rec items acc
    | SBlob b => ser_dict rec items (dict_set k b acc) end)).
  - intros al. simpl. by destruct (rec v al) as [[]].
  - intros []; [apply IH|apply IH|apply uniform_ret].
Qed.

Lemma uniform_fields fields acc : uniform (ser_fields rec fields acc).
Proof.
  revert acc. induction fields as [|[k v] fields IH]; intros acc; [apply uniform_ret|].
  apply (uniform_head v _ (λ r, match r with
    | SFail e => λ al, (inl (add_seg (SegAttr k) e), al)
    | SSkip => ser_fields rec fields acc
    | SBlob b => ser_fields rec fields (dict_set k b acc) end)).
  - intros al. simpl. by destruct (rec v al) as [[]].
  - intros []; [apply IH|apply IH|apply uniform_ret].
Qed.

Lemma uniform_lenient items acc : uniform (ser_lenient rec items acc).
Proof.
  revert acc. induction items as [|[[k|n] v] items IH]; intros acc; [apply uniform_ret| |apply IH].
  apply (uniform_head v _ (λ r, match r with
    | SFail PyTypeError => λ al, (inl PyTypeError, al)
    | SBlob b => ser_lenient rec items (dict_set k b acc)
    | _ => ser_lenient rec items acc end)).
  - intros al. simpl. by destruct (rec v al) as [[| |[]]].
  - intros [| |[]]; try apply IH; apply uniform_ret.
Qed.
End Uniform.

Lemma uniform_wrap f g : uniform g → uniform (λ al, wrap f (g al)).
Proof.
  intros Hg. apply (uniform_ext _ (λ al, let '(r, al1) := g al in
    (match r with inl e => SFail e | inr data => SBlob (f (VDict data)) end, al1))).
  - intros al. by destruct (g al) as [[]].
  - apply (uniform_bind _ _ Hg). intros []; apply uniform_ret.
Qed.

(** After a loop: its error, or the rest. *)
Lemma uniform_then {A} (f : list string → (perr + A) * list string) (g : A → list string → sres * list string) :
  uniform f → (∀ a, uniform (g a)) →
  uniform (λ al, match f al with (inl e, al1) => (SFail e, al1) | (inr a, al1) => g a al1 end).
Proof.
  intros Hf Hg. apply (uniform_ext _ (λ al, let '(r, al1) := f al in
    match r with inl e => (λ al, (SFail e, al)) | inr a => g a end al1)).
  - intros al. by destruct (f al) as [[]].
  - apply (uniform_bind _ _ Hf). intros []; [apply uniform_ret|apply Hg].
Qed.

Lemma uniform_allowed {A} fqn (f : list string → A * list string) : uniform f → uniform (λ al, f (allow fqn al)).
Proof. intros Hf. apply (uniform_bind _ (λ _, f) (uniform_allow fqn)). done. Qed.

#[local] Hint Resolve uniform_ret uniform_items uniform_dict uniform_fields uniform_lenient uniform_wrap : core.

Lemma uniform_ser heap left active v : uniform (ser heap left active v).
Proof.
  revert active v. induction left as [left IH] using lt_wf_ind. intros active v.
  destruct left as [|left]; cbn [ser].
  all: destruct (strip_enum v) as [p|w|o]; [apply uniform_ret..|];
    destruct (heap !! o) as [[[] ob]|]; cbn [o_nosnapshot o_body]; [apply uniform_ret| |apply uniform_ret];
    destruct (bool_decide _); [apply uniform_ret|].
  { apply uniform_ret. }
  assert (∀ v, uniform (ser heap left (o :: active) v)) as Hrec by (intros; apply IH; lia).
  destruct ob as [items|items|items|fqn fields extra hook|fqn fields|fqn attrs lenient|].
  - auto.
  - apply (uniform_then _ (λ bs al, (SBlob (VList bs), al))); auto.
  - apply (uniform_then _ (λ bs al, (SBlob (tuple_envelope bs), al))); auto.
  - destruct hook as [data|].
    + apply (uniform_allowed fqn (λ al, match check_data (check_blob_depth left) data with
        Some e => (SFail e, al) | None => (SBlob (class_envelope t_pydantic fqn data), al) end)).
      destruct (check_data _ _); auto.
    + apply (uniform_allowed fqn (λ al, match ser_fields (ser heap left (o :: active)) fields [] al with
        | (inl e, al1) => (SFail e, al1)
        | (inr data, al1) => wrap (class_envelope t_pydantic fqn) (ser_fields (ser heap left (o :: active)) extra data al1) end)).
      apply (uniform_then _ (λ data al, wrap _ (ser_fields _ extra data al))); auto.
  - apply (uniform_allowed fqn (λ al, wrap _ (ser_fields _ fields [] al))). auto.
  - destruct (lenient_dict heap lenient attrs) as [[[name d] items]|].
    2: { apply (uniform_allowed fqn (λ al, wrap _ (ser_fields _ attrs [] al))). auto. }
    apply (uniform_allowed fqn (λ al, match ser_fields (ser heap left (o :: active)) (dict_del name attrs) [] al with
      | (inl e, al1) => (SFail e, al1)
      | (inr data, al1) =>
          if bool_decide (d ∈ o :: active) then (SFail (PathError RCycle [SegAttr name]), al1)
          else match left with
               | 0 => (SFail (PathError RDepth [SegAttr name]), al1)
               | S left'' =>
                   wrap (λ entries, class_envelope t_dict_class fqn (VDict (dict_set name entries data)))
                     (ser_lenient (ser heap left'' (d :: o :: active)) items [] al1)
               end end)).
    apply (uniform_then _ (λ data al1, if bool_decide (d ∈ o :: active) then (SFail (PathError RCycle [SegAttr name]), al1)
          else match left with
               | 0 => (SFail (PathError RDepth [SegAttr name]), al1)
               | S left'' =>
                   wrap (λ entries, class_envelope t_dict_class fqn (VDict (dict_set name entries data)))
                     (ser_lenient (ser heap left'' (d :: o :: active)) items [] al1)
               end)); [auto|].
    intros data. destruct (bool_decide _); [auto|]. destruct left as [|left]; [auto|].
    apply uniform_wrap, uniform_lenient. intros w. apply IH. lia.
  - auto.
Qed.

(** ** The copy of a live value *)

Section Copy.
Context {Cls : Type} (env : classes Cls) (heap : list pobj) (AL : list string).

Section CopyItems.
(** The copy of one value, [None] when it is left out. *)
Context (rec : pv → option (derr + tree Cls)).

Fixpoint copy_items (l : list pv) : derr + list (tree Cls) :=
  match l with
  | [] => inr []
  | v :: l' =>
      match rec v with
      | None => copy_items l'
      | Some (inl e) => inl e
      | Some (inr t) => match copy_items l' with inl e => inl e | inr ts => inr (t :: ts) end
      end
  end.

Fixpoint copy_fields (fields : list (string * pv)) (acc : list (string * tree Cls))
    : derr + list (string * tree Cls) :=
  match fields with
  | [] => inr acc
  | (k, v) :: fields' =>
      match rec v with
      | None => copy_fields fields' acc
      | Some (inl e) => inl e
      | Some (inr t) => copy_fields fields' (dict_set k t acc)
      end
  end.
End CopyItems.

(** The string keys of a dict and their values. *)
Definition str_items (items : list (dkey * pv)) : list (string * pv) :=
  omap (λ kv, match kv.1 with KStr k => Some (k, kv.2) | KOther _ => None end) items.

Definition res_map {A B} (f : A → B) (r : derr + A) : derr + B :=
  match r with inl e => inl e | inr a => inr (f a) end.
Definition res_bind {A B} (r : derr + A) (f : A → derr + B) : derr + B :=
  match r with inl e => inl e | inr a => f a end.

(** An instance: its class is looked up by name, the retained fields are
    copied, the class builds the copy from them. *)
Definition copy_object (kind fqn : string) (fields : Cls → derr + list (string * tree Cls)) : derr + tree Cls :=
  match import_class env fqn with
  | None => inl (DNoClass fqn)
  | Some c => res_bind (fields c) (rebuild env kind c)
  end.

(** The copy of a value: enums are replaced by their values, containers are
    copied, what is marked [nosnapshot] is left out, instances are rebuilt, and
    of a lenient dict the entries that serialize are copied.  What a
    [__snapshot_data__] hook returned is read as it stands. *)
Fixpoint copy (left : nat) (active : list nat) (v : pv) : option (derr + tree Cls) :=
  match strip_enum v with
  | Prim p => Some (inr (TVal (prim_val p)))
  | Enum _ => None
  | Ref o =>
      match heap !! o, left with
      | None, _ | _, 0 => None
      | Some ob, S left' =>
          if o_nosnapshot ob then None
          else
            let rec := copy left' (o :: active) in
            match o_body ob with
            | BDict items => Some (res_map TDict (copy_fields rec (str_items items) []))
            | BList items => Some (res_map TList (copy_items rec items))
            | BTuple items => Some (res_map TTuple (copy_items rec items))
            | BModel fqn fields extra (Some data) =>
                Some (des_envelope env (des env AL left') (AL) t_pydantic (VStr fqn) data)
            | BModel fqn fields extra None =>
                Some (copy_object t_pydantic fqn
                        (λ c, copy_fields rec (retained env t_pydantic c (fields ++ extra)) []))
            | BDataclass fqn fields =>
                Some (copy_object t_dataclass fqn (λ _, copy_fields rec fields []))
            | BSnapshotable fqn attrs lenient =>
                match lenient_dict heap lenient attrs, left' with
                | None, _ | _, 0 => Some (copy_object t_dict_class fqn (λ _, copy_fields rec attrs []))
                | Some (name, d, items), S left'' =>
                    let serializes v := match (ser heap left'' (d :: o :: active) v []).1 with
                                        | SBlob _ => copy left'' (d :: o :: active) v
                                        | _ => None
                                        end in
                    Some (copy_object t_dict_class fqn (λ _,
                      res_bind (copy_fields rec (dict_del name attrs) []) (λ fs,
                      res_map (λ es, dict_set name (TDict es) fs)
                        (copy_fields serializes (str_items items) []))))
                end
            | BUnknown => None
            end
      end
  end.

(** ** What the round trip needs *)

(** The names of a container are distinct, as those of a Python dict are, and
    no plain dict has the key that marks an envelope. *)
Definition body_ok (b : body) : Prop :=
  match b with
  | BDict items => NoDup (str_items items).*1 ∧ "__type__"%string ∉ (str_items items).*1
  | BModel _ fields extra _ => NoDup (fields ++ extra).*1
  | BDataclass _ fields => NoDup fields.*1
  | BSnapshotable _ attrs _ => NoDup attrs.*1
  | _ => True
  end.

Definition heap_ok : Prop := Forall (λ ob, body_ok (o_body ob)) heap.

Definition no_depth {A} (r : derr + A) : Prop := ∀ p, r ≠ inl (DDepth p).

Lemma add_dseg_no_depth g e : no_depth (A := tree Cls) (inl e) → add_dseg g e = e.
Proof. intros H. destruct e; [|done..]. by destruct (H path). Qed.

Lemma no_depth_seg {A B} g e : no_depth (A := A) (inl e) → no_depth (A := B) (inl (add_dseg g e)).
Proof. intros H p. destruct e; simpl; try done. by destruct (H path). Qed.

(** The data of a value reads back as its copy. *)
Definition encodes (rd : pyval → derr + tree Cls) (cp : pv → option (derr + tree Cls)) (v : pv) (b : pyval) : Prop :=
  cp v = Some (rd b) ∧ no_depth (rd b).

(** The data of a list of fields, those left out being skipped. *)
Inductive enc_fields rd cp : list (string * pv) → list (string * pyval) → Prop :=
  | enc_nil : enc_fields rd cp [] []
  | enc_skip k v fs ds : cp v = None → enc_fields rd cp fs ds → enc_fields rd cp ((k, v) :: fs) ds
  | enc_cons k v b fs ds : encodes rd cp v b → enc_fields rd cp fs ds →
      enc_fields rd cp ((k, v) :: fs) ((k, b) :: ds).

Lemma enc_fields_app rd cp fs ds fs' ds' :
  enc_fields rd cp fs ds → enc_fields rd cp fs' ds' → enc_fields rd cp (fs ++ fs') (ds ++ ds').
Proof. induction 1; simpl; auto using enc_fields. Qed.

Lemma enc_fields_keys rd cp fs ds k : enc_fields rd cp fs ds → k ∈ ds.*1 → k ∈ fs.*1.
Proof. induction 1; cbn; rewrite ?elem_of_cons; tauto. Qed.

Lemma enc_fields_keep rd cp fs ds names : enc_fields rd cp fs ds →
  enc_fields rd cp (keep_keys names fs) (keep_keys names ds).
Proof.
  unfold keep_keys. induction 1; cbn [List.filter fst]; [constructor|..];
    destruct (bool_decide (k ∈ names)); auto using enc_fields.
Qed.

Lemma enc_fields_retained rd cp fs ds kind c : enc_fields rd cp fs ds →
  enc_fields rd cp (retained env kind c fs) (retained env kind c ds).
Proof.
  intros H. unfold retained. destruct (bool_decide _); [|done]. destruct (restore_hook env c); [done|].
  destruct (extra_allow env c); [done|]. by apply enc_fields_keep.
Qed.

Lemma enc_fields_read rd cp fs ds mk acc : enc_fields rd cp fs ds →
  copy_fields cp fs acc = des_entries rd mk ds acc ∧ no_depth (des_entries rd mk ds acc).
Proof.
  intros H. revert acc. induction H as [|k v fs ds Hv H IH|k v b fs ds [Hv Hnd] H IH]; intros acc; simpl.
  - done.
  - rewrite Hv. apply IH.
  - rewrite Hv. destruct (rd b) as [e|t] eqn:Hrd; [|apply IH].
    rewrite add_dseg_no_depth by done. split; [done|]. intros p Hp. apply (Hnd p). congruence.
Qed.

Lemma enc_object rd cp fs ds kind fqn : enc_fields rd cp fs ds → fqn ∈ AL →
  copy_object kind fqn (λ c, copy_fields cp (retained env kind c fs) []) =
    des_envelope env rd AL kind (VStr fqn) (VDict ds) ∧
  no_depth (des_envelope env rd AL kind (VStr fqn) (VDict ds)).
Proof.
  intros H Hin. unfold copy_object, des_envelope. rewrite bool_decide_eq_true_2 by done.
  destruct (import_class env fqn) as [c|]; [|done].
  destruct (enc_fields_read rd cp _ _ SegAttr [] (enc_fields_retained _ _ _ _ kind c H)) as [-> Hnd].
  destruct (des_entries rd SegAttr _ []) as [e|fields]; simpl; [split; [done|]; intros p Hp; apply (Hnd p); congruence|].
  split; [done|]. intros p. unfold rebuild, built. repeat case_match; done.
Qed.

(** ** Hooks: what passes the depth check restores within the limit *)

Lemma check_items_no_depth left i j l :
  (∀ b, check_blob_depth left b = None → no_depth (des env AL left b)) →
  check_items (check_blob_depth left) i l = None → no_depth (des_items (des env AL left) j l).
Proof.
  intros Hb. revert i j. induction l as [|b l IH]; intros i j; simpl; [done|].
  destruct (check_blob_depth left b) as [e|] eqn:Hc; [done|]. intros Hl. pose proof (Hb b Hc) as Hnd.
  destruct (des env AL left b) as [e|t]; [by apply (no_depth_seg _ _ Hnd)|]. specialize (IH _ (S j) Hl).
  destruct (des_items _ (S j) l); [|done]. intros p Hp. apply (IH p). congruence.
Qed.

Lemma check_entries_no_depth left mk mk' d acc :
  (∀ b, check_blob_depth left b = None → no_depth (des env AL left b)) →
  check_entries (check_blob_depth left) mk d = None → no_depth (des_entries (des env AL left) mk' d acc).
Proof.
  intros Hb. revert acc. induction d as [|[k b] d IH]; intros acc; simpl; [done|].
  destruct (check_blob_depth left b) as [e|] eqn:Hc; [done|]. intros Hl. pose proof (Hb b Hc) as Hnd.
  destruct (des env AL left b) as [e|t]; [|by apply IH]. by apply (no_depth_seg _ _ Hnd).
Qed.

Lemma check_entries_keep left mk names d :
  check_entries (check_blob_depth left) mk d = None →
  check_entries (check_blob_depth left) mk (keep_keys names d) = None.
Proof.
  unfold keep_keys. induction d as [|[k b] d IH]; [done|]. cbn [check_entries List.filter fst].
  destruct (check_blob_depth left b) eqn:Hc; [done|]. intros Hd.
  destruct (bool_decide _); cbn [check_entries]; rewrite ?Hc; auto.
Qed.

Lemma check_data_no_depth left kind cls data :
  (∀ b, check_blob_depth left b = None → no_depth (des env AL left b)) →
  check_data (check_blob_depth left) data = None →
  no_depth (des_envelope env (des env AL left) AL kind cls data).
Proof.
  intros Hb Hc. unfold des_envelope. destruct cls; try done. destruct (bool_decide _); [|done].
  destruct (import_class env s) as [c|]; [|done]. destruct data as [| | | | | | |d]; try done. simpl in Hc.
  assert (check_entries (check_blob_depth left) SegAttr (retained env kind c d) = None) as Hr.
  { unfold retained. destruct (bool_decide _); [|done]. destruct (restore_hook env c); [done|].
    destruct (extra_allow env c); [done|]. by apply check_entries_keep. }
  pose proof (check_entries_no_depth left SegAttr SegAttr _ [] Hb Hr) as Hnd.
  destruct (des_entries _ SegAttr _ []) as [e|fields]; [intros p Hp; apply (Hnd p); congruence|].
  intros p. unfold rebuild, built. repeat case_match; done.
Qed.

Lemma check_no_depth left b : check_blob_depth left b = None → no_depth (des env AL left b).
Proof.
  revert b. induction left as [|left IH]; intros b Hc; destruct b as [| | | | |l|l|d]; try done; cbn [check_blob_depth] in Hc; cbn [des].
  - pose proof (check_items_no_depth left 0 0 l IH Hc) as Hnd. destruct (des_items _ 0 l); [|done].
    intros p Hp. apply (Hnd p). congruence.
  - destruct (dict_shape d) as [data|kind cls data| |]; [| | |done].
    + destruct (iter_values data) as [l|]; [|done]. pose proof (check_items_no_depth left 0 0 l IH Hc) as Hnd.
      destruct (des_items _ 0 l); [|done]. intros p Hp. apply (Hnd p). congruence.
    + by apply check_data_no_depth.
    + pose proof (check_entries_no_depth left _ (λ k, SegKey (KStr k)) d [] IH Hc) as Hnd.
      destruct (des_entries _ _ d []); [|done]. intros p Hp. apply (Hnd p). congruence.
Qed.

(** ** The loops *)

Section Loops.
Context (rec : pv → list string → sres * list string) (rd : pyval → derr + tree Cls)
  (cp : pv → option (derr + tree Cls)).
Context (Hmono : ∀ v, uniform (rec v)).
Context (Hrec : ∀ v al, match rec v al with
  | (SBlob b, al') => al' ⊆ AL → encodes rd cp v b
  | (SSkip, _) => cp v = None
  | _ => True end).

Lemma enc_items i j l al bs al' : ser_items rec i l al = (inr bs, al') → al' ⊆ AL →
  copy_items cp l = des_items rd j bs ∧ no_depth (des_items rd j bs).
Proof.
  revert i j al bs. induction l as [|v l IH]; intros i j al bs; simpl.
  { intros [= <- <-]. done. }
  pose proof (Hrec v al) as Hv. destruct (rec v al) as [[b| |e] al1]; [| |done].
  - pose proof (uniform_items rec Hmono (S i) l al1) as [Hsub _].
    destruct (ser_items rec (S i) l al1) as [[e|bs1] al2] eqn:Hl; [done|]. intros [= <- <-] HAL. simpl in Hsub.
    destruct Hv as [-> Hnd]; [set_solver|]. simpl. destruct (IH _ (S j) _ _ Hl HAL) as [-> Hnd'].
    destruct (rd b) as [e|t]; [rewrite add_dseg_no_depth by done; split; [done|]; intros p Hp; apply (Hnd p); congruence|].
    split; [done|].
    destruct (des_items rd (S j) bs1); [|done]. intros p Hp. apply (Hnd' p). congruence.
  - intros Hl HAL. rewrite Hv. by apply (IH _ j _ _ Hl).
Qed.

Lemma enc_ser_fields fields acc al data al' : ser_fields rec fields acc al = (inr data, al') → al' ⊆ AL →
  NoDup fields.*1 → (∀ k, k ∈ fields.*1 → k ∉ acc.*1) →
  ∃ new, data = (acc ++ new)%list ∧ enc_fields rd cp fields new.
Proof.
  revert acc al. induction fields as [|[k v] fields IH]; intros acc al; simpl.
  { intros [= <- <-] _ _ _. exists []. split; [by rewrite app_nil_r|constructor]. }
  pose proof (Hrec v al) as Hv. destruct (rec v al) as [[b| |e] al1]; [| |done].
  - pose proof (uniform_fields rec Hmono fields (dict_set k b acc) al1) as [Hsub _]. intros Hf HAL Hnd Hacc.
    rewrite Hf in Hsub. simpl in Hsub. apply NoDup_cons in Hnd as [Hk Hnd].
    rewrite dict_set_absent in Hf by (apply Hacc; by left).
    destruct (IH _ _ Hf HAL Hnd) as (new & -> & Hnew).
    { intros k' Hk'. rewrite fmap_app, elem_of_app. intros [Hin|Hin].
      - apply (Hacc k'); [by right|done].
      - apply list_elem_of_singleton in Hin. simpl in Hin. by subst. }
    exists ((k, b) :: new). split; [by rewrite <- app_assoc|]. constructor; [|done]. apply Hv. set_solver.
  - intros Hf HAL Hnd Hacc. apply NoDup_cons in Hnd as [Hk Hnd].
    destruct (IH _ _ Hf HAL Hnd) as (new & -> & Hnew); [intros k' Hk'; apply Hacc; by right|].
    exists new. split; [done|]. by constructor.
Qed.

Lemma enc_ser_dict items acc al data al' : ser_dict rec items acc al = (inr data, al') → al' ⊆ AL →
  NoDup (str_items items).*1 → (∀ k, k ∈ (str_items items).*1 → k ∉ acc.*1) →
  ∃ new, data = (acc ++ new)%list ∧ enc_fields rd cp (str_items items) new.
Proof.
  revert acc al. induction items as [|[[k|n] v] items IH]; intros acc al; simpl; [| |done].
  { intros [= <- <-] _ _ _. exists []. split; [by rewrite app_nil_r|constructor]. }
  pose proof (Hrec v al) as Hv. destruct (rec v al) as [[b| |e] al1]; [| |done].
  - pose proof (uniform_dict rec Hmono items (dict_set k b acc) al1) as [Hsub _]. intros Hf HAL Hnd Hacc.
    rewrite Hf in Hsub. simpl in Hsub. apply NoDup_cons in Hnd as [Hk Hnd].
    rewrite dict_set_absent in Hf by (apply Hacc; by left).
    destruct (IH _ _ Hf HAL Hnd) as (new & -> & Hnew).
    { intros k' Hk'. rewrite fmap_app, elem_of_app. intros [Hin|Hin].
      - apply (Hacc k'); [by right|done].
      - apply list_elem_of_singleton in Hin. simpl in Hin. by subst. }
    exists ((k, b) :: new). split; [by rewrite <- app_assoc|]. constructor; [|done]. apply Hv. set_solver.
  - intros Hf HAL Hnd Hacc. apply NoDup_cons in Hnd as [Hk Hnd].
    destruct (IH _ _ Hf HAL Hnd) as (new & -> & Hnew); [intros k' Hk'; apply Hacc; by right|].
    exists new. split; [done|]. by constructor.
Qed.

(** The entries of a lenient dict that serialize. *)
Definition lenient_copy (v : pv) : option (derr + tree Cls) :=
  match (rec v []).1 with SBlob _ => cp v | _ => None end.

Lemma lenient_copy_rec v al : match rec v al with
  | (SBlob b, al') => al' ⊆ AL → encodes rd lenient_copy v b
  | _ => lenient_copy v = None end.
Proof.
  unfold lenient_copy, encodes. pose proof (Hrec v al) as Hv. destruct (Hmono v al) as [_ Huni].
  destruct (rec v al) as [r al1]. simpl in Huni. rewrite <- Huni. by destruct r.
Qed.

Lemma enc_ser_lenient items acc al data al' : ser_lenient rec items acc al = (inr data, al') → al' ⊆ AL →
  NoDup (str_items items).*1 → (∀ k, k ∈ (str_items items).*1 → k ∉ acc.*1) →
  ∃ new, data = (acc ++ new)%list ∧ enc_fields rd lenient_copy (str_items items) new.
Proof.
  revert acc al. induction items as [|[[k|n] v] items IH]; intros acc al; simpl; [| |apply IH].
  { intros [= <- <-] _ _ _. exists []. split; [by rewrite app_nil_r|constructor]. }
  pose proof (lenient_copy_rec v al) as Hv.
  assert (∀ al1 r, ser_lenient rec items acc al1 = r → lenient_copy v = None → r = (inr data, al') →
    al' ⊆ AL → NoDup (k :: (str_items items).*1) → (∀ k', k' ∈ k :: (str_items items).*1 → k' ∉ acc.*1) →
    ∃ new, data = (acc ++ new)%list ∧ enc_fields rd lenient_copy ((k, v) :: str_items items) new) as Hskip.
  { intros al1 r <- Hn Hf HAL Hnd Hacc. apply NoDup_cons in Hnd as [Hk Hnd].
    destruct (IH _ _ Hf HAL Hnd) as (new & -> & Hnew); [intros k' Hk'; apply Hacc; by right|].
    exists new. split; [done|]. by constructor. }
  destruct (rec v al) as [[b| |[rs path|]] al1]; [|by apply (Hskip al1 _ eq_refl)|by apply (Hskip al1 _ eq_refl)|done].
  pose proof (uniform_lenient rec Hmono items (dict_set k b acc) al1) as [Hsub _]. intros Hf HAL Hnd Hacc.
  rewrite Hf in Hsub. simpl in Hsub. apply NoDup_cons in Hnd as [Hk Hnd].
  rewrite dict_set_absent in Hf by (apply Hacc; by left).
  destruct (IH _ _ Hf HAL Hnd) as (new & -> & Hnew).
  { intros k' Hk'. rewrite fmap_app, elem_of_app. intros [Hin|Hin].
    - apply (Hacc k'); [by right|done].
    - apply list_elem_of_singleton in Hin. simpl in Hin. by subst. }
  exists ((k, b) :: new). split; [by rewrite <- app_assoc|]. constructor; [|done]. apply Hv. set_solver.
Qed.
End Loops.

(** ** The round trip *)

Lemma wrap_blob f r b al' : wrap f r = (SBlob b, al') → ∃ data, r = (inr data, al') ∧ b = f (VDict data).
Proof. destruct r as [[e|data] al]; simpl; [done|]. intros [= <- <-]. eauto. Qed.

Lemma dict_shape_plain d : "__type__"%string ∉ d.*1 → dict_shape d = ShPlain.
Proof. intros H. unfold dict_shape. by apply dict_get_None in H as ->. Qed.

Lemma lenient_dict_some lenient attrs name d items :
  lenient_dict heap lenient attrs = Some (name, d, items) → heap_ok →
  body_ok (BDict items) ∧ name ∈ attrs.*1.
Proof.
  unfold lenient_dict. intros H Hok. destruct lenient as [n|]; [|done]. simpl in H.
  destruct (dict_get n attrs) as [[p|w|o]|] eqn:Hg; simpl in H; try done.
  destruct (heap !! o) as [[ns [its| | | | | |]]|] eqn:Ho; simplify_eq.
  split; [exact (proj1 (Forall_lookup _ _) Hok _ _ Ho)|]. apply dict_get_is_Some. eauto.
Qed.

(** Every field of the snapshot of an object is copied from it. *)
Definition enc_ok left active : Prop := ∀ v al,
  match ser heap left active v al with
  | (SBlob b, al') => al' ⊆ AL → encodes (des env AL left) (copy left active) v b
  | (SSkip, _) => copy left active v = None
  | _ => True end.

Lemma in_allowed {A} fqn (f : list string → A * list string) al :
  uniform f → (f (allow fqn al)).2 ⊆ AL → fqn ∈ AL.
Proof. intros Hf HAL. destruct (Hf (allow fqn al)) as [H _]. pose proof (allow_in fqn al). set_solver. Qed.

(** One object at a time, given its parts. *)
Section Step.
Context (left : nat) (active : list nat) (IH : enc_ok left active).
Local Abbreviation rec := (ser heap left active).
Local Abbreviation rd := (des env AL left).
Local Abbreviation cp := (copy left active).

Lemma mono_rec v : uniform (rec v).
Proof. apply uniform_ser. Qed.

Lemma enc_dict_object items al data al' : body_ok (BDict items) →
  ser_dict rec items [] al = (inr data, al') → al' ⊆ AL →
  Some (res_map TDict (copy_fields cp (str_items items) [])) = Some (des env AL (S left) (VDict data)) ∧
  no_depth (des env AL (S left) (VDict data)).
Proof.
  intros [Hnd Hty] Hser HAL.
  destruct (enc_ser_dict rec rd cp mono_rec IH items [] al data al' Hser HAL Hnd) as (new & -> & Hnew);
    [intros k _; apply not_elem_of_nil|].
  cbn [des app]. rewrite dict_shape_plain by (intros Hin; by apply Hty, (enc_fields_keys _ _ _ _ _ Hnew)).
  destruct (enc_fields_read _ _ _ _ (λ k, SegKey (KStr k)) [] Hnew) as [-> Hnd'].
  destruct (des_entries _ _ new []) as [e|ts]; [|done]. split; [done|]. intros p Hp. apply (Hnd' p). congruence.
Qed.

Lemma enc_items_object (f : list (tree Cls) → tree Cls) items al bs al' r :
  ser_items rec 0 items al = (inr bs, al') → al' ⊆ AL →
  r = match des_items rd 0 bs with inl e => inl e | inr ts => inr (f ts) end →
  Some (res_map f (copy_items cp items)) = Some r ∧ no_depth r.
Proof.
  intros Hser HAL ->. destruct (enc_items rec rd cp mono_rec IH 0 0 items al bs al' Hser HAL) as [-> Hnd].
  destruct (des_items rd 0 bs) as [e|ts]; [|done]. split; [done|]. intros p Hp. apply (Hnd p). congruence.
Qed.

(** The fields of an instance, in its envelope. *)
Lemma enc_fields_object kind fqn fields new : enc_fields rd cp fields new → fqn ∈ AL →
  (kind = t_pydantic ∨ kind = t_dataclass ∨ kind = t_dict_class) →
  Some (copy_object kind fqn (λ c, copy_fields cp (retained env kind c fields) [])) =
    Some (des env AL (S left) (class_envelope kind fqn (VDict new))) ∧
  no_depth (des env AL (S left) (class_envelope kind fqn (VDict new))).
Proof.
  intros Hnew Hin Hkind. assert (des env AL (S left) (class_envelope kind fqn (VDict new)) =
    des_envelope env rd AL kind (VStr fqn) (VDict new)) as -> by by destruct Hkind as [-> |[-> | ->]].
  destruct (enc_object rd cp fields new kind fqn Hnew Hin) as [-> Hnd]. done.
Qed.

(** A model: the declared fields, then the extra ones. *)
Lemma enc_model_fields fields extra al data al1 data' al' : NoDup (fields ++ extra).*1 →
  ser_fields rec fields [] al = (inr data, al1) → ser_fields rec extra data al1 = (inr data', al') → al' ⊆ AL →
  enc_fields rd cp (fields ++ extra) data'.
Proof.
  rewrite fmap_app. intros (Hnd1 & Hdisj & Hnd2)%NoDup_app Hf He HAL.
  assert (al1 ⊆ AL) as HAL1.
  { pose proof (uniform_fields rec mono_rec extra data al1) as [H _]. rewrite He in H. set_solver. }
  destruct (enc_ser_fields rec rd cp mono_rec IH fields [] al data al1 Hf HAL1 Hnd1) as (new & -> & Hnew);
    [intros k _; apply not_elem_of_nil|].
  destruct (enc_ser_fields rec rd cp mono_rec IH extra _ al1 data' al' He HAL Hnd2) as (new' & -> & Hnew').
  { intros k Hk Hin. apply (enc_fields_keys _ _ _ _ _ Hnew) in Hin. by apply (Hdisj k). }
  by apply enc_fields_app.
Qed.
End Step.

Lemma retained_other {A} kind (c : Cls) (d : list (string * A)) : kind ≠ t_pydantic → retained env kind c d = d.
Proof. intros Hk. unfold retained. by rewrite bool_decide_eq_false_2. Qed.

(** An object with a lenient dict. *)
Lemma enc_lenient_object left active fqn attrs lenient name d items o al b al' :
  heap_ok → (∀ a, enc_ok left a) → (∀ a, enc_ok (S left) a) →
  body_ok (BSnapshotable fqn attrs lenient) → lenient_dict heap lenient attrs = Some (name, d, items) →
  fqn ∈ AL → al' ⊆ AL →
  ∀ al1 data, ser_fields (ser heap (S left) (o :: active)) (dict_del name attrs) [] al = (inr data, al1) →
  wrap (λ entries, class_envelope t_dict_class fqn (VDict (dict_set name entries data)))
    (ser_lenient (ser heap left (d :: o :: active)) items [] al1) = (SBlob b, al') →
  let serializes v := match (ser heap left (d :: o :: active) v []).1 with
                      | SBlob _ => copy left (d :: o :: active) v
                      | _ => None
                      end in
  Some (copy_object t_dict_class fqn (λ _,
    res_bind (copy_fields (copy (S left) (o :: active)) (dict_del name attrs) []) (λ fs,
    res_map (λ es, dict_set name (TDict es) fs) (copy_fields serializes (str_items items) [])))) =
  Some (des env AL (S (S left)) b) ∧ no_depth (des env AL (S (S left)) b).
Proof.
  intros Hok IHl IHSl Hbody Hlen Hfqn HAL al1 data Hf Hw serializes.
  destruct (lenient_dict_some _ _ _ _ _ Hlen Hok) as [[Hnd Hty] Hname].
  apply wrap_blob in Hw as (entries & Hl & ->). cbn [body_ok] in Hbody.
  destruct (enc_ser_lenient _ (des env AL left) (copy left (d :: o :: active)) (mono_rec left _) (IHl _)
    items [] al1 entries al' Hl HAL Hnd) as (new & -> & Hnew); [intros k _; apply not_elem_of_nil|].
  assert (al1 ⊆ AL) as HAL1.
  { pose proof (uniform_lenient _ (mono_rec left (d :: o :: active)) items [] al1) as [H _]. rewrite Hl in H. set_solver. }
  assert (NoDup (dict_del name attrs).*1) as Hnd' by by apply dict_wf_del.
  destruct (enc_ser_fields _ (des env AL (S left)) (copy (S left) (o :: active)) (mono_rec (S left) _) (IHSl _)
    (dict_del name attrs) [] al data al1 Hf HAL1 Hnd') as (new' & -> & Hnew'); [intros k _; apply not_elem_of_nil|].
  assert (name ∉ new'.*1) as Hn.
  { intros Hin. apply (enc_fields_keys _ _ _ _ _ Hnew') in Hin. revert Hin.
    change ((dict_del name attrs).*1) with (dict_keys (dict_del name attrs)). rewrite dict_keys_del by done.
    intros [H _]%list_elem_of_filter. done. }
  cbn [app]. rewrite (dict_set_absent name (VDict new) new') by done.
  assert (des env AL (S left) (VDict new) = res_map TDict (copy_fields serializes (str_items items) []) ∧
          no_depth (des env AL (S left) (VDict new))) as [Hent Hentnd].
  { cbn [des]. rewrite dict_shape_plain by (intros Hin; by apply Hty, (enc_fields_keys _ _ _ _ _ Hnew)).
    destruct (enc_fields_read _ _ _ _ (λ k, SegKey (KStr k)) [] Hnew) as [Hc Hnd2].
    change serializes with (lenient_copy (ser heap left (d :: o :: active)) (copy left (d :: o :: active))).
    rewrite Hc. destruct (des_entries _ _ new []) as [e|ts]; [|done]. split; [done|].
    intros p Hp. apply (Hnd2 p). congruence. }
  change (des env AL (S (S left)) (class_envelope t_dict_class fqn (VDict (new' ++ [(name, VDict new)])))) with
    (des_envelope env (des env AL (S left)) AL t_dict_class (VStr fqn) (VDict (new' ++ [(name, VDict new)]))).
  unfold copy_object, des_envelope. rewrite bool_decide_eq_true_2 by done.
  destruct (import_class env fqn) as [c|]; [|done]. rewrite retained_other by done.
  destruct (enc_fields_read _ _ _ _ SegAttr [] Hnew') as [-> Hnd3].
  assert (∀ (l k : list (string * pyval)) acc, des_entries (des env AL (S left)) SegAttr (l ++ k) acc =
    res_bind (des_entries (des env AL (S left)) SegAttr l acc) (des_entries (des env AL (S left)) SegAttr k)) as Happ.
  { clear. induction l as [|[k' x] l IHl]; intros k acc; [done|]. cbn [des_entries app].
    destruct (des env AL (S left) x); [done|]. apply IHl. }
  rewrite Happ. destruct (des_entries _ SegAttr new' []) as [e|fs].
  { split; [done|]. intros p Hp. apply (Hnd3 p). simpl in Hp. congruence. }
  cbn [res_bind des_entries]. rewrite Hent in Hentnd |- *.
  destruct (copy_fields serializes _ []) as [e|es]; cbn [res_map res_bind] in *.
  - rewrite (add_dseg_no_depth _ _ Hentnd). split; [done|].
    intros p Hp. apply (Hentnd p). congruence.
  - split; [done|]. intros p. unfold rebuild, built. repeat case_match; done.
Qed.

Lemma ser_encodes left active : heap_ok → enc_ok left active.
Proof.
  intros Hok. revert active. induction left as [left IH] using lt_wf_ind. intros active v al.
  unfold encodes. destruct left as [|left]; cbn [ser copy]; (destruct (strip_enum v) as [p|w|o]; [|done|]).
  1, 3: intros _; by destruct p.
  all: destruct (heap !! o) as [[[] ob]|] eqn:Ho; cbn [o_nosnapshot o_body]; try done;
    destruct (bool_decide (o ∈ active)); try done.
  pose proof (proj1 (Forall_lookup _ _) Hok _ _ Ho) as Hb. cbn [o_body] in Hb.
  assert (∀ a, enc_ok left a) as IHl by (intros; apply IH; lia).
  destruct ob as [items|items|items|fqn fields extra hook|fqn fields|fqn attrs lenient|]; [..|done].
  - destruct (wrap _ _) as [[b| |e] al'] eqn:Hw; [|by destruct (ser_dict _ _ _ _) as [[]]|done].
    apply wrap_blob in Hw as (data & Hd & ->). intros HAL.
    exact (enc_dict_object left _ (IHl _) items al data al' Hb Hd HAL).
  - destruct (ser_items _ _ _ _) as [[e|bs] al'] eqn:Hi; [done|]. intros HAL.
    by apply (enc_items_object left _ (IHl _) TList items al bs al').
  - destruct (ser_items _ _ _ _) as [[e|bs] al'] eqn:Hi; [done|]. intros HAL.
    by apply (enc_items_object left _ (IHl _) TTuple items al bs al').
  - destruct hook as [data|].
    + destruct (check_data _ data) eqn:Hc; [done|]. intros HAL. split; [done|].
      apply (check_data_no_depth left t_pydantic (VStr fqn) data); [apply check_no_depth|done].
    + destruct (ser_fields _ fields [] _) as [[e|data] al1] eqn:Hf; [done|].
      destruct (wrap _ _) as [[b| |e] al'] eqn:Hw; [|by destruct (ser_fields _ extra _ _) as [[]]|done].
      apply wrap_blob in Hw as (data' & He & ->). intros HAL.
      apply (enc_fields_object left _ t_pydantic fqn (fields ++ extra) data'); [|..|by left].
      * by apply (enc_model_fields left _ (IHl _) fields extra (allow fqn al) data al1 data' al').
      * apply (in_allowed fqn (ser_fields (ser heap left (o :: active)) fields []) al); [apply uniform_fields, mono_rec|].
        rewrite Hf. simpl. pose proof (uniform_fields _ (mono_rec left (o :: active)) extra data al1) as [H _].
        rewrite He in H. simpl in H. set_solver.
  - destruct (wrap _ _) as [[b| |e] al'] eqn:Hw; [|by destruct (ser_fields _ fields _ _) as [[]]|done].
    apply wrap_blob in Hw as (data & Hf & ->). intros HAL.
    destruct (enc_ser_fields _ _ _ (mono_rec left _) (IHl _) fields [] _ data al' Hf HAL Hb) as (new & -> & Hnew);
      [intros k _; apply not_elem_of_nil|].
    apply (enc_fields_object left _ t_dataclass fqn fields new Hnew); [|tauto].
    apply (in_allowed fqn (ser_fields (ser heap left (o :: active)) fields []) al); [apply uniform_fields, mono_rec|].
    by rewrite Hf.
  - destruct (lenient_dict heap lenient attrs) as [[[name d] items]|] eqn:Hlen.
    + destruct (ser_fields _ (dict_del name attrs) [] _) as [[e|data] al1] eqn:Hf; [done|].
      destruct (bool_decide (d ∈ _)); [done|]. destruct left as [|left]; [done|].
      destruct (wrap _ _) as [[b| |e] al'] eqn:Hw; [|by destruct (ser_lenient _ _ _ _) as [[]]|done].
      intros HAL. eapply enc_lenient_object; try done; [intros; apply IH; lia|].
      apply (in_allowed fqn (ser_fields (ser heap (S left) (o :: active)) (dict_del name attrs) []) al);
        [apply uniform_fields, mono_rec|].
      rewrite Hf. simpl. apply wrap_blob in Hw as (entries & He & _).
      pose proof (uniform_lenient _ (mono_rec left (d :: o :: active)) items [] al1) as [H _].
      rewrite He in H. simpl in H. set_solver.
    + destruct (wrap _ _) as [[b| |e] al'] eqn:Hw; [|by destruct (ser_fields _ attrs _ _) as [[]]|done].
      apply wrap_blob in Hw as (data & Hf & ->). intros HAL.
      destruct (enc_ser_fields _ _ _ (mono_rec left _) (IHl _) attrs [] _ data al' Hf HAL Hb) as (new & -> & Hnew);
        [intros k _; apply not_elem_of_nil|].
      apply (enc_fields_object left _ t_dict_class fqn attrs new Hnew); [|tauto].
      apply (in_allowed fqn (ser_fields (ser heap left (o :: active)) attrs []) al); [apply uniform_fields, mono_rec|].
      by rewrite Hf.
Qed.
End Copy.
