(* ===== verification/SnapCodecSafety.v ===== *)
(** * Failures, totality and trust of the snapshot codec

    Every error of [serialize] names a real obstacle at its path; a value
    without obstacles serializes; [deserialize] looks at no class outside the
    allowlist; and the plain dicts that do not come back. *)

From S2P Require Import Prelude PyStr PyDict Values SnapCodec SnapCodecRuns.

(** ** Paths into a live value *)

Section Paths.
Context (heap : list pobj).

(** The object a value refers to, through enum members. *)
Definition target (v : pv) : option nat := match strip_enum v with Ref o => Some o | _ => None end.

Definition body_at (o : nat) : option body := o_body <$> heap !! o.

(** The child of an object that a segment names. *)
Definition child (g : seg) (v : pv) : option pv :=
  o ← target v;
  b ← body_at o;
  match b, g with
  | BDict items, SegKey (KStr k) => dict_get k (str_items items)
  | (BList items | BTuple items), SegIdx i => items !! i
  | BModel _ fields extra _, SegAttr n => dict_get n (fields ++ extra)%list
  | BDataclass _ fields, SegAttr n => dict_get n fields
  | BSnapshotable _ attrs _, SegAttr n => dict_get n attrs
  | _, _ => None
  end.

Fixpoint follow (path : list seg) (v : pv) : option pv :=
  match path with
  | [] => Some v
  | g :: path' => w ← child g v; follow path' w
  end.

(** No model class defines [__snapshot_data__]. *)
Definition hook_free : Prop := ∀ o fqn fields extra data, body_at o ≠ Some (BModel fqn fields extra (Some data)).

(** What an error claims of the value it was raised for: an unsupported object,
    a key that is not a string, a container that the path already went through
    (or one of [active]), or a container below as many others as there are
    levels; only in the output of a hook can the path be shorter and the check
    raise [TypeError]. *)
Definition located (left : nat) (active : list nat) (v : pv) (e : perr) : Prop :=
  match e with
  | PyTypeError => ¬ hook_free
  | PathError RType p =>
      ∃ w o, follow p v = Some w ∧ target w = Some o ∧ (body_at o = Some BUnknown ∨ body_at o = None)
  | PathError RKey p =>
      ∃ w o items n x, follow p v = Some w ∧ target w = Some o ∧ body_at o = Some (BDict items) ∧
        (KOther n, x) ∈ items
  | PathError RCycle p =>
      ∃ w o, follow p v = Some w ∧ target w = Some o ∧
        (o ∈ active ∨ ∃ q g q' u, p = q ++ g :: q' ∧ follow q v = Some u ∧ target u = Some o)
  | PathError RDepth p => length p ≤ left ∧
      (hook_free → length p = left ∧ ∃ w, follow p v = Some w ∧ is_Some (target w))
  end.

(** An error of a child, seen from its container. *)
Lemma located_child left active v o g w e :
  target v = Some o → child g v = Some w → located left (o :: active) w e →
  located (S left) active v (add_seg g e).
Proof.
  intros Ho Hg. destruct e as [[] p|]; simpl; rewrite ?Hg; simpl; [| | | |done].
  - intros [Hl Hf]. split; [lia|]. intros Hh. destruct (Hf Hh) as [-> Hw]. done.
  - intros (w' & o' & Hf & Ht & Hin). exists w', o'. split; [done|]. split; [done|].
    destruct Hin as [[-> |Hin]%elem_of_cons|(q & g' & q' & u & -> & Hq & Hu)].
    + right. by exists [], g, p, v.
    + by left.
    + right. exists (g :: q), g', q', u. split; [done|]. split; [|done]. simpl. by rewrite Hg.
  - intros (w' & o' & Hf & Ht & Hb). by exists w', o'.
  - intros (w' & o' & items & n & x & Hf & Ht & Hb & Hin). by exists w', o', items, n, x.
Qed.

(** ** Where the loops fail *)

Section LoopFailures.
Context (rec : pv → list string → sres * list string).

Lemma items_fail i l al e al' : ser_items rec i l al = (inl e, al') →
  ∃ j v al1 e' al2, l !! j = Some v ∧ rec v al1 = (SFail e', al2) ∧ e = add_seg (SegIdx (i + j)) e'.
Proof.
  revert i al. induction l as [|v l IH]; intros i al; simpl; [done|].
  destruct (rec v al) as [[b| |e0] al1] eqn:Hv.
  - destruct (ser_items rec (S i) l al1) as [[e1|bs] al2] eqn:Hl; [|done]. intros [= <- <-].
    destruct (IH _ _ Hl) as (j & w & a & e' & a' & Hj & Hw & ->). exists (S j), w, a, e', a'.
    split; [done|]. split; [done|]. do 2 f_equal. lia.
  - intros Hl. destruct (IH _ _ Hl) as (j & w & a & e' & a' & Hj & Hw & ->). exists (S j), w, a, e', a'.
    split; [done|]. split; [done|]. do 2 f_equal. lia.
  - intros [= <- <-]. exists 0, v, al, e0, al1. rewrite Nat.add_0_r. done.
Qed.

Lemma fields_fail fields acc al e al' : ser_fields rec fields acc al = (inl e, al') →
  ∃ n v al1 e' al2, (n, v) ∈ fields ∧ rec v al1 = (SFail e', al2) ∧ e = add_seg (SegAttr n) e'.
Proof.
  revert acc al. induction fields as [|[k v] fields IH]; intros acc al; simpl; [done|].
  destruct (rec v al) as [[b| |e0] al1] eqn:Hv.
  1, 2: intros Hl; destruct (IH _ _ Hl) as (n & w & a & e' & a' & Hin & Hw & ->);
    exists n, w, a, e', a'; split; [by right|done].
  intros [= <- <-]. exists k, v, al, e0, al1. split; [by left|done].
Qed.

Lemma dict_fail items acc al e al' : ser_dict rec items acc al = (inl e, al') →
  (∃ n v, (KOther n, v) ∈ items ∧ e = PathError RKey []) ∨
  ∃ k v al1 e' al2, (k, v) ∈ str_items items ∧ rec v al1 = (SFail e', al2) ∧ e = add_seg (SegKey (KStr k)) e'.
Proof.
  revert acc al. induction items as [|[[k|n] v] items IH]; intros acc al; simpl; [done| |].
  - destruct (rec v al) as [[b| |e0] al1] eqn:Hv.
    1, 2: intros Hl; destruct (IH _ _ Hl) as [(n & w & Hin & ->)|(k' & w & a & e' & a' & Hin & Hw & ->)];
      [left; exists n, w; split; [by right|done]|right; exists k', w, a, e', a'; split; [by right|done]].
    intros [= <- <-]. right. exists k, v, al, e0, al1. split; [by left|done].
  - intros [= <- <-]. left. exists n, v. split; [by left|done].
Qed.

Lemma lenient_fail items acc al e al' : ser_lenient rec items acc al = (inl e, al') →
  e = PyTypeError ∧ ∃ v al1 al2, rec v al1 = (SFail PyTypeError, al2).
Proof.
  revert acc al. induction items as [|[[k|n] v] items IH]; intros acc al; simpl; [done| |apply IH].
  destruct (rec v al) as [[b| |[]] al1] eqn:Hv; try apply IH. intros [= <- _]. eauto.
Qed.
End LoopFailures.

(** A depth error in the output of a hook is at most as deep as the levels. *)
Definition depth_only (left : nat) (e : perr) : Prop :=
  match e with PathError RDepth p => length p ≤ left | PathError _ _ => False | PyTypeError => True end.

Lemma check_items_depth left i l e :
  (∀ b e, check_blob_depth left b = Some e → depth_only left e) →
  check_items (check_blob_depth left) i l = Some e → depth_only (S left) e.
Proof.
  intros Hb. revert i. induction l as [|b l IH]; intros i; simpl; [done|].
  destruct (check_blob_depth left b) as [e0|] eqn:Hc; [|apply IH]. intros [= <-]. apply Hb in Hc.
  destruct e0 as [[] p|]; simpl in *; (done || lia).
Qed.

Lemma check_entries_depth left mk d e :
  (∀ b e, check_blob_depth left b = Some e → depth_only left e) →
  check_entries (check_blob_depth left) mk d = Some e → depth_only (S left) e.
Proof.
  intros Hb. induction d as [|[k b] d IH]; simpl; [done|].
  destruct (check_blob_depth left b) as [e0|] eqn:Hc; [|apply IH]. intros [= <-]. apply Hb in Hc.
  destruct e0 as [[] p|]; simpl in *; (done || lia).
Qed.

Lemma depth_only_S left e : depth_only left e → depth_only (S left) e.
Proof. destruct e as [[] p|]; simpl; try done. lia. Qed.

Lemma check_data_depth left data e :
  (∀ b e, check_blob_depth left b = Some e → depth_only left e) →
  check_data (check_blob_depth left) data = Some e → depth_only (S left) e.
Proof.
  intros Hb Hc. destruct data as [| | | | | | |d]; simpl in Hc; try by apply depth_only_S, (Hb _ _ Hc).
  by eapply check_entries_depth.
Qed.

Lemma check_blob_depth_only left b e : check_blob_depth left b = Some e → depth_only left e.
Proof.
  revert b e. induction left as [|left IH]; intros b e; destruct b as [| | | | |l|l|d]; cbn [check_blob_depth];
    try done; try (intros [= <-]; simpl; lia); try (by apply check_items_depth).
  destruct (dict_shape d) as [data|kind cls data| |]; [|by apply check_data_depth|by apply check_entries_depth|by intros [= <-]].
  destruct (iter_values data) as [l|]; [by apply check_items_depth|by intros [= <-]].
Qed.

Lemma depth_only_located left active v e : ¬ hook_free → depth_only left e → located left active v e.
Proof. by destruct e as [[] p|]. Qed.

Lemma dict_get_in {V} (d : list (string * V)) k v : NoDup d.*1 → (k, v) ∈ d → dict_get k d = Some v.
Proof. intros Hnd. by apply (dict_get_elem k v d Hnd). Qed.

Lemma target_ref v o : strip_enum v = Ref o → target v = Some o.
Proof. unfold target. by intros ->. Qed.

(** ** Every error is located *)

Lemma lenient_target lenient attrs name d items : lenient_dict heap lenient attrs = Some (name, d, items) →
  dict_get name attrs = Some (Ref d).
Proof.
  unfold lenient_dict. destruct lenient as [n|]; [|done]. simpl.
  destruct (dict_get n attrs) as [[p|w|o]|] eqn:Hg; simpl; try done.
  destruct (heap !! o) as [[ns []]|]; intros; by simplify_eq.
Qed.

Lemma ser_located left active v al e al' : heap_ok heap →
  ser heap left active v al = (SFail e, al') → located left active v e.
Proof.
  intros Hok. revert active v al e al'. induction left as [left IHstrong] using lt_wf_ind. intros active v al e al'.
  destruct left as [|left]; cbn [ser].
  all: destruct (strip_enum v) as [p|w|o] eqn:Hv; [done|..].
  1, 3: exfalso; clear -Hv; induction v; simpl in *; simplify_eq; auto.
  all: destruct (heap !! o) as [[[] ob]|] eqn:Ho; cbn [o_nosnapshot o_body];
    [done| |intros [= <- _]; exists v, o; unfold body_at; rewrite Ho; split; [done|split; [by apply target_ref|by right]]].
  all: destruct (bool_decide (o ∈ active)) eqn:Ha;
    [intros [= <- _]; bool_prop; exists v, o; split; [done|split; [by apply target_ref|by left]]|].
  { intros [= <- _]. split; [done|]. intros _. split; [done|]. exists v. split; [done|]. by rewrite (target_ref v o Hv). }
  assert (∀ active v al e al', ser heap left active v al = (SFail e, al') → located left active v e) as IH
    by (intros until 1; eapply IHstrong; [lia|done]).
  pose proof (proj1 (Forall_lookup _ _) Hok _ _ Ho) as Hb. cbn [o_body] in Hb.
  pose proof (target_ref v o Hv) as Ht.
  assert (body_at o = Some ob) as Hat by (unfold body_at; by rewrite Ho).
  (** An error of the child that [g] names. *)
  assert (∀ g w e0 al1 al2, child g v = Some w → ser heap left (o :: active) w al1 = (SFail e0, al2) →
    located (S left) active v (add_seg g e0)) as Hchild.
  { intros g w e0 al1 al2 Hg He. eapply located_child; [done|done|]. by eapply IH. }
  assert (∀ fields, (∀ n w, (n, w) ∈ fields → child (SegAttr n) v = Some w) →
    ∀ acc al e al', ser_fields (ser heap left (o :: active)) fields acc al = (inl e, al') →
    located (S left) active v e) as Hfields.
  { intros fields Hf acc a e0 a' He. apply fields_fail in He as (n & w & a1 & e' & a2 & Hin & Hw & ->).
    eapply Hchild; [by apply Hf|exact Hw]. }
  assert (∀ n, child (SegAttr n) v = match ob with
    | BModel _ fields extra _ => dict_get n (fields ++ extra)%list
    | BDataclass _ fields => dict_get n fields
    | BSnapshotable _ attrs _ => dict_get n attrs | _ => None end) as Hattr.
  { intros n. unfold child. rewrite Ht. simpl. rewrite Hat. simpl. by destruct ob. }
  destruct ob as [items|items|items|fqn fields extra hook|fqn fields|fqn attrs lenient|].
  - destruct (ser_dict _ items [] al) as [[e0|data] a] eqn:Hd; simpl; [|done]. intros [= -> ->].
    apply dict_fail in Hd as [(n & w & Hin & ->)|(k & w & a1 & e' & a2 & Hin & Hw & ->)].
    + by exists v, o, items, n, w.
    + eapply Hchild; [|exact Hw]. unfold child. rewrite Ht. simpl. rewrite Hat. simpl.
      apply dict_get_in; [by destruct Hb|done].
  - destruct (ser_items _ 0 items al) as [[e0|bs] a] eqn:Hd; [|done]. intros [= -> ->].
    apply items_fail in Hd as (j & w & a1 & e' & a2 & Hj & Hw & ->).
    eapply Hchild; [|exact Hw]. unfold child. rewrite Ht. simpl. by rewrite Hat.
  - destruct (ser_items _ 0 items al) as [[e0|bs] a] eqn:Hd; [|done]. intros [= -> ->].
    apply items_fail in Hd as (j & w & a1 & e' & a2 & Hj & Hw & ->).
    eapply Hchild; [|exact Hw]. unfold child. rewrite Ht. simpl. by rewrite Hat.
  - simpl in Hb. destruct hook as [data|].
    + destruct (check_data _ data) as [e0|] eqn:Hc; [|done]. intros [= <- _].
      apply depth_only_located; [|apply (check_data_depth left data); [apply check_blob_depth_only|done]].
      intros Hh. by eapply (Hh o fqn fields extra data).
    + assert (∀ n w, (n, w) ∈ (fields ++ extra)%list → child (SegAttr n) v = Some w) as Hg.
      { intros n w Hin. rewrite Hattr. by apply dict_get_in. }
      destruct (ser_fields _ fields [] _) as [[e0|data] a] eqn:Hf; [intros [= <- <-]; eapply (Hfields fields)|]; try done.
      * intros n w Hin. apply Hg. by apply elem_of_app; left.
      * destruct (ser_fields _ extra data a) as [[e0|data'] a'] eqn:He; simpl; [intros [= <- <-]; eapply (Hfields extra)|]; try done.
        intros n w Hin. apply Hg. by apply elem_of_app; right.
  - destruct (ser_fields _ fields [] _) as [[e0|data] a] eqn:Hf; simpl; [intros [= <- <-]; eapply (Hfields fields)|]; try done.
    intros n w Hin. rewrite Hattr. by apply dict_get_in.
  - destruct (lenient_dict heap lenient attrs) as [[[name d] items]|] eqn:Hl.
    + pose proof (lenient_target _ _ _ _ _ Hl) as Hd.
      destruct (ser_fields _ (dict_del name attrs) [] _) as [[e0|data] a] eqn:Hf; [intros [= <- <-]; eapply (Hfields (dict_del name attrs))|]; try done.
      { intros n w Hin. rewrite Hattr. assert (dict_get n (dict_del name attrs) = Some w) as Hget
          by (apply dict_get_in; [by apply dict_wf_del|done]).
        rewrite dict_get_del in Hget by done. by destruct (decide _) in Hget. }
      destruct (bool_decide (d ∈ o :: active)) eqn:Hda.
      { intros [= <- _]. bool_prop. exists (Ref d), d. simpl. rewrite Hattr, Hd. simpl.
        split; [done|]. split; [done|]. apply elem_of_cons in Hda as [->|Hda]; [|by left].
        right. exists [], (SegAttr name), [], v. done. }
      destruct left as [|left].
      { intros [= <- _]. simpl. rewrite Hattr, Hd. split; [done|]. intros _. split; [done|]. by exists (Ref d). }
      destruct (ser_lenient _ items [] a) as [[e0|entries] a'] eqn:He; simpl; [|done].
      apply lenient_fail in He as (-> & u & a1 & a2 & Hu). intros [= <- _].
      assert (located left (d :: o :: active) u PyTypeError) as Hloc by (eapply IHstrong; [lia|exact Hu]). exact Hloc.
    + destruct (ser_fields _ attrs [] _) as [[e0|data] a] eqn:Hf; simpl; [intros [= <- <-]; eapply (Hfields attrs)|]; try done.
      intros n w Hin. rewrite Hattr. by apply dict_get_in.
  - intros [= <- _]. exists v, o. split; [done|]. split; [done|]. by left.
Qed.

(** ** Values without obstacles *)

Definition children (b : body) : list pv :=
  match b with
  | BDict items => items.*2
  | BList items | BTuple items => items
  | BModel _ fields extra _ => (fields ++ extra).*2
  | BDataclass _ fields => fields.*2
  | BSnapshotable _ attrs _ => attrs.*2
  | BUnknown => []
  end.

(** Supported objects with string keys only, and a rank that decreases from
    every container to the objects in it: there is no cycle, and the rank
    bounds the depth. *)
Definition obstacle_free (rank : nat → nat) : Prop :=
  ∀ o ob, heap !! o = Some ob →
    o_body ob ≠ BUnknown ∧
    (∀ items n x, o_body ob = BDict items → (KOther n, x) ∉ items) ∧
    ∀ w o', w ∈ children (o_body ob) → target w = Some o' → is_Some (heap !! o') ∧ rank o' < rank o.

Lemma str_items_in (items : list (dkey * pv)) k w : (k, w) ∈ str_items items → w ∈ items.*2.
Proof.
  intros (x & Hx & Heq)%list_elem_of_omap. destruct x as [[k'|n] w']; simpl in Heq; [|done]. injection Heq as -> ->.
  change w with (KStr k, w).2. by apply list_elem_of_fmap_2.
Qed.

Lemma child_children g v o w : target v = Some o → child g v = Some w → ∃ b, body_at o = Some b ∧ w ∈ children b.
Proof.
  intros Ho. unfold child. rewrite Ho. simpl. destruct (body_at o) as [b|]; [|done]. simpl. intros Hw.
  exists b. split; [done|].
  assert (∀ n (d : list (string * pv)), dict_get n d = Some w → w ∈ d.*2) as Hget.
  { intros n d H. apply dict_get_Some_elem in H. change w with (n, w).2. by apply list_elem_of_fmap_2. }
  destruct b as [items|items|items| | | |], g as [[k|]|i|n]; simpl in *; try done; try by eapply Hget.
  - apply dict_get_Some_elem in Hw. by eapply str_items_in.
  - by eapply list_elem_of_lookup_2.
  - by eapply list_elem_of_lookup_2.
Qed.

(** Following a path goes down in rank, to objects that exist. *)
Lemma follow_rank rank p v o w : obstacle_free rank → target v = Some o → is_Some (heap !! o) →
  follow p v = Some w → ∀ o', target w = Some o' → is_Some (heap !! o') ∧ rank o' + length p ≤ rank o.
Proof.
  intros Hfree. revert v o. induction p as [|g p IH]; intros v o Ho Hv; simpl.
  { intros [= ->] o' Ho'. assert (o' = o) as -> by congruence. split; [done|lia]. }
  destruct (child g v) as [u|] eqn:Hc; [|done]. simpl. intros Hf o' Ho'.
  destruct (child_children g v o u Ho Hc) as (b & Hb & Hin). unfold body_at in Hb.
  destruct (heap !! o) as [ob|] eqn:Hob; [|done]. simpl in Hb. injection Hb as <-.
  destruct (Hfree o ob Hob) as (_ & _ & Hch).
  destruct (target u) as [ou|] eqn:Hu.
  - destruct (Hch u ou Hin Hu) as [Hex Hlt]. destruct (IH u ou Hu Hex Hf o' Ho'). split; [done|lia].
  - destruct p as [|g' p]; simpl in Hf; [congruence|]. unfold child in Hf. by rewrite Hu in Hf.
Qed.

Lemma follow_app p q v w : follow (p ++ q) v = Some w → ∃ u, follow p v = Some u ∧ follow q u = Some w.
Proof.
  revert v. induction p as [|g p IH]; intros v; simpl; [by exists v|]. destruct (child g v); [|done]. simpl. apply IH.
Qed.
End Paths.

(** ** The theorems *)

(** Without hooks no call of [serialize] raises [TypeError]. *)
Lemma serialize_no_type_error heap v al : heap_ok heap → hook_free heap → serialize heap v 0 ≠ (SFail PyTypeError, al).
Proof.
  unfold serialize. generalize (MAX_SNAPSHOT_DEPTH - 0). intros left Hok Hfree Hs.
  exact (ser_located heap left [] v [] PyTypeError al Hok Hs Hfree).
Qed.

(** Every error of [serialize] is real and located: the path of the error
    leads from the value to an unsupported object, to a dict with a key that is
    not a string, to a container that the path has already gone through, or to
    a container below as many others as the depth limit allows. *)
Theorem serialize_error_located heap v base r p al :
  heap_ok heap → serialize heap v base = (SFail (PathError r p), al) →
  located heap (MAX_SNAPSHOT_DEPTH - base) [] v (PathError r p).
Proof. intros Hok Hs. by eapply ser_located. Qed.

(** A value without obstacles serializes: if every object is supported,
    keys are strings, no class has its own snapshot format, and the objects
    have ranks that decrease from containers to their contents (no cycle) and
    stay below the depth limit, then [serialize] returns data and not an
    error. *)
Theorem serialize_total heap rank v o base :
  heap_ok heap → obstacle_free heap rank → hook_free heap →
  target v = Some o → is_Some (heap !! o) → rank o < MAX_SNAPSHOT_DEPTH - base →
  ∀ e al, serialize heap v base ≠ (SFail e, al).
Proof.
  intros Hok Hfree Hh Ho Hex Hrank e al Hs. apply ser_located in Hs; [|done].
  destruct e as [[] p|]; simpl in Hs; [..|by destruct (Hs Hh)].
  - destruct Hs as [_ Hs]. destruct (Hs Hh) as (Hl & w & Hf & [ow Hw]).
    destruct (follow_rank heap rank p v o w Hfree Ho Hex Hf ow Hw). lia.
  - destruct Hs as (w & ow & Hf & Hw & [[]%elem_of_nil|(q & g & q' & u & -> & Hq & Hu)]).
    apply follow_app in Hf as (u' & Hq' & Hf). assert (u' = u) as -> by congruence.
    destruct (follow_rank heap rank q v o u Hfree Ho Hex Hq ow Hu) as [Hexu _].
    destruct (follow_rank heap rank (g :: q') u ow w Hfree Hu Hexu Hf ow Hw) as [_ Hlt]. simpl in Hlt. lia.
  - destruct Hs as (w & ow & Hf & Hw & Hb). destruct (follow_rank heap rank p v o w Hfree Ho Hex Hf ow Hw) as [[ob Hob] _].
    unfold body_at in Hb. rewrite Hob in Hb. simpl in Hb. destruct (Hfree ow ob Hob) as (Hun & _).
    destruct Hb as [[= Hb]|Hb]; done.
  - destruct Hs as (w & ow & items & n & x & Hf & Hw & Hb & Hin). unfold body_at in Hb.
    destruct (heap !! ow) as [ob|] eqn:Hob; [|done]. simpl in Hb. injection Hb as Hb.
    destruct (Hfree ow ob Hob) as (_ & Hkeys & _). by apply (Hkeys items n x Hb).
Qed.

(** What [serialize] returns encodes the value. *)
Lemma serialize_encodes {Cls} (env : classes Cls) heap v b al AL :
  heap_ok heap → serialize heap v 0 = (SBlob b, al) → al ⊆ AL →
  encodes (λ x, deserialize env x AL) (copy env heap AL MAX_SNAPSHOT_DEPTH []) v b.
Proof.
  unfold serialize, deserialize. rewrite Nat.sub_0_r. generalize MAX_SNAPSHOT_DEPTH as left.
  intros left Hok Hs HAL. pose proof (ser_encodes env heap AL left [] Hok v []) as H.
  rewrite Hs in H. exact (H HAL).
Qed.

(** C12.  The round trip, on a heap where no plain dict has a key [__type__] (see
    [envelope_dicts_not_restored]) and the names within an object are distinct:
    what [serialize] returns reads back, with its own or a larger allowlist, as
    the copy of the value (every container copied, enums
    as their values, marked values left out, instances rebuilt by their
    classes from their fields), errors of those classes included; and the
    depth limit never stops the restore. *)
Theorem snapshot_restores {Cls} (env : classes Cls) heap v b al AL :
  heap_ok heap → serialize heap v 0 = (SBlob b, al) → al ⊆ AL →
  copy env heap AL MAX_SNAPSHOT_DEPTH [] v = Some (deserialize env b AL) ∧
  ∀ p, deserialize env b AL ≠ inl (DDepth p).
Proof. apply serialize_encodes. Qed.

(** ** The allowlist *)

Section Trust.
Context {Cls : Type} (env : classes Cls) (resolve' : string → list string → option Cls) (AL : list string).

(** The same program with other importable classes. *)
Definition env' : classes Cls :=
  mk_classes Cls resolve' (restore_hook env) (extra_allow env) (model_fields env) (validate env)
    (init_params env) (construct env).

Context (Hsame : ∀ fqn, fqn ∈ AL → import_class env fqn = import_class env' fqn).

Lemma des_items_ext (f g : pyval → derr + tree Cls) i l : (∀ b, f b = g b) → des_items f i l = des_items g i l.
Proof. intros Hfg. revert i. induction l as [|b l IH]; intros i; [done|]. simpl. by rewrite Hfg, IH. Qed.

Lemma des_entries_ext (f g : pyval → derr + tree Cls) mk d acc : (∀ b, f b = g b) →
  des_entries f mk d acc = des_entries g mk d acc.
Proof.
  intros Hfg. revert acc. induction d as [|[k b] d IH]; intros acc; [done|]. simpl. rewrite Hfg.
  destruct (g b); [done|]. apply IH.
Qed.

Lemma des_env_ext left b : des env AL left b = des env' AL left b.
Proof.
  revert b. induction left as [|left IH]; intros b; destruct b as [| | | | |l|l|d]; try done; cbn [des].
  - by rewrite (des_items_ext _ _ 0 l IH).
  - destruct (dict_shape d) as [data|kind cls data| |]; [| | |done].
    + destruct (iter_values data) as [l|]; [|done]. by rewrite (des_items_ext _ _ 0 l IH).
    + unfold des_envelope. destruct cls; try done. destruct (bool_decide (s ∈ AL)) eqn:Hin; [|done].
      bool_prop. rewrite <- (Hsame s Hin). destruct (import_class env s) as [c|]; [|done].
      destruct data as [| | | | | | |d']; try done.
      by rewrite (des_entries_ext _ _ SegAttr (retained env kind c d') [] IH).
    + by rewrite (des_entries_ext _ _ _ d [] IH).
Qed.
End Trust.

(** C13.  A blob reaches only the classes of the allowlist: whatever it holds,
    the outcome of [deserialize] is the same in a program whose other classes
    are missing, replaced or hostile. *)
Theorem deserialize_only_allowed {Cls} (env : classes Cls) resolve' AL b :
  (∀ fqn, fqn ∈ AL → import_class env fqn = import_class (env' env resolve') fqn) →
  deserialize env b AL = deserialize (env' env resolve') b AL.
Proof. intros Hsame. by apply des_env_ext. Qed.

(** Plain dicts that look like envelopes do not come back: a dict with
    the entries [__type__: "tuple"] and [data] is restored as a tuple, and a
    dict whose [__type__] is a list makes the restore raise [TypeError]; both
    serialize without an error. *)
Theorem envelope_dicts_not_restored {Cls} (env : classes Cls) :
  let heap k := [mk_pobj false (BDict [(KStr "__type__", k); (KStr "data", Ref 1)]);
                 mk_pobj false (BList [Prim (PInt 1)])] in
  (∃ b, serialize (heap (Prim (PStr "tuple"))) (Ref 0) 0 = (SBlob b, []) ∧
        deserialize env b [] = inr (TTuple [TVal (VInt 1)])) ∧
  (∃ b, serialize (heap (Ref 1)) (Ref 0) 0 = (SBlob b, []) ∧ deserialize env b [] = inl DOther).
Proof. split; (eexists; split; [vm_compute; reflexivity|vm_compute; reflexivity]). Qed.

(** ** Witnesses *)

(** A list of a tuple with a dataclass instance, twice the same, and a dict;
    the class [C] of module [m] takes what it is given. *)
Definition demo_heap : list pobj :=
  [mk_pobj false (BList [Ref 1; Enum (Prim (PInt 3)); Ref 3]);
   mk_pobj false (BTuple [Ref 2; Ref 2]);
   mk_pobj false (BDataclass "m.C" [("a", Prim (PStr "x")); ("b", Ref 4)]);
   mk_pobj false (BDict [(KStr "k", Ref 2)]);
   mk_pobj true BUnknown]%string.

Definition demo_classes : classes string :=
  mk_classes string (λ m attrs, Some (join_dot (m :: attrs))) (λ _, None) (λ _, false) (λ _, [])
    (λ c d, Some (TObj c d)) (λ _, ["a"; "b"]%string) (λ _ d, Some d).

Lemma demo_heap_ok : heap_ok demo_heap.
Proof. repeat constructor; apply (bool_decide_unpack _); vm_compute; exact I. Qed.

Lemma snapshot_restores_witness :
  deserialize demo_classes (match serialize demo_heap (Ref 0) 0 with (SBlob b, _) => b | _ => VNone end)
    ["m.C"]%string =
  inr (TList [TTuple [TObj "m.C" [("a", TVal (VStr "x"))]; TObj "m.C" [("a", TVal (VStr "x"))]];
              TVal (VInt 3); TDict [("k", TObj "m.C" [("a", TVal (VStr "x"))])]])%string.
Proof.
  destruct (serialize demo_heap (Ref 0) 0) as [[b| |e] al] eqn:Hs; [|vm_compute in Hs; discriminate..].
  assert (al ⊆ ["m.C"]%string) as Hal by (vm_compute in Hs; injection Hs as _ <-; done).
  pose proof (proj1 (snapshot_restores demo_classes demo_heap (Ref 0) b al ["m.C"]%string demo_heap_ok Hs Hal)) as H.
  assert (copy demo_classes demo_heap ["m.C"]%string MAX_SNAPSHOT_DEPTH [] (Ref 0) =
    Some (inr (TList [TTuple [TObj "m.C" [("a", TVal (VStr "x"))]; TObj "m.C" [("a", TVal (VStr "x"))]];
      TVal (VInt 3); TDict [("k", TObj "m.C" [("a", TVal (VStr "x"))])]]))%string) as Hc
    by (vm_compute; reflexivity).
  rewrite Hc in H. by injection H as <-.
Defined.

(** A list that contains itself below a dict. *)
Definition demo_cycle : list pobj :=
  [mk_pobj false (BList [Prim PNone; Ref 1]); mk_pobj false (BDict [(KStr "k", Ref 0)])].

Lemma serialize_error_located_witness :
  located demo_cycle MAX_SNAPSHOT_DEPTH [] (Ref 0) (PathError RCycle [SegIdx 1; SegKey (KStr "k")]).
Proof.
  apply (serialize_error_located demo_cycle (Ref 0) 0 RCycle [SegIdx 1; SegKey (KStr "k")] []).
  - repeat constructor; apply (bool_decide_unpack _); vm_compute; exact I.
  - vm_compute. reflexivity.
Defined.

Lemma deserialize_only_allowed_witness :
  deserialize demo_classes (class_envelope t_dataclass "os.Popen" (VDict [])) ["m.C"]%string =
  deserialize (env' demo_classes (λ m attrs, if bool_decide (m = "m"%string) then Some (join_dot (m :: attrs)) else None))
    (class_envelope t_dataclass "os.Popen" (VDict [])) ["m.C"]%string.
Proof.
  apply deserialize_only_allowed. intros fqn Hin. apply list_elem_of_singleton in Hin. subst fqn. reflexivity.
Defined.

Definition demo_shared : list pobj :=
  [mk_pobj false (BList [Ref 1; Ref 2]); mk_pobj false (BTuple [Ref 2; Ref 2]);
   mk_pobj false (BDict [(KStr "k", Prim PNone)])].

Lemma serialize_total_witness : ¬ ∃ e al, serialize demo_shared (Ref 0) 5 = (SFail e, al).
Proof.
  intros (e & al & Hs). revert Hs.
  refine (serialize_total demo_shared (λ o, 3 - o) (Ref 0) 0 5 _ _ _ eq_refl _ _ e al).
  - repeat constructor; apply (bool_decide_unpack _); vm_compute; exact I.
  - intros o ob Ho. destruct o as [|[|[|o]]]; simplify_eq/=; (split; [done|]); split.
    1, 3, 5: intros items n x Hb Hin; simplify_eq; apply list_elem_of_singleton in Hin; discriminate.
    all: intros w o' Hin Hw; repeat (apply elem_of_cons in Hin as [->|Hin]; [vm_compute in Hw; injection Hw as <-; split; [by eexists|vm_compute; lia]|]);
      try (apply elem_of_nil in Hin; done); apply list_elem_of_singleton in Hin; by subst w.
  - intros o fqn fields extra data. destruct o as [|[|[|o]]]; done.
  - by eexists.
  - vm_compute. lia.
Defined.
