(* ===== verification/ContextManager.v ===== *)
(** * The context blocks of an agent

    Models [nooa/runtime/context_manager.py]: [ContextManager], the dict-like
    store behind [self.context], with its partition into static and dynamic
    blocks, the cache of evaluated expressions, the protected keys and the
    disabled keys.  Values are of any type [V]; how Python's [isinstance] tests
    see a value is [classify]. *)

From S2P Require Import Prelude PyStr PyDict.

(** What [__setitem__] finds a value to be: [None], a [Context] with text or an
    expression, a [DynamicContext], or anything else. *)
Inductive content := Text (s : string) | Expr (e : string).
Inductive kind := KNone | KContext (c : content) (prefix : bool) | KDynamic (e : string) | KPlain.

(** A stored block: a value, or the marker [DynamicContext(expr)]. *)
Inductive block (V : Type) := BValue (v : V) | BDynamic (expr : string).
Arguments BValue {V} v. Arguments BDynamic {V} expr.

(** [ProtectedBlockError], [BlockSyntaxError], [TypeError], [KeyError],
    [DynamicNotResolvedError]. *)
Inductive cexc := EProtected | ESyntax | EType | EKey | ENotResolved.

#[export] Instance cexc_eq_dec : EqDecision cexc.
Proof. solve_decision. Defined.

Record cm (V : Type) := mk_cm {
  cm_blocks : dict string (block V);
  cm_protected : gset string;
  cm_cache : dict string V;
  cm_static : dict string bool;
  cm_disabled : gset string
}.
Arguments mk_cm {V}. Arguments cm_blocks {V}. Arguments cm_protected {V}. Arguments cm_cache {V}.
Arguments cm_static {V}. Arguments cm_disabled {V}.

(** [__init__]. *)
Definition cm_init {V} : cm V := mk_cm [] ∅ [] [] ∅.

Section ContextManager.
Context {V : Type} (of_text : string → V) (classify : V → kind).
(** [compile(expr, ..., "eval")] succeeds. *)
Context (compiles : string → bool).

Implicit Types m : cm V.

(** [_invalidate]. *)
Definition invalidate (key : string) m : cm V :=
  mk_cm (cm_blocks m) (cm_protected m) (dict_del key (cm_cache m)) (cm_static m) (cm_disabled m).

(** The common end of the setters: the block, its partition, enabled again,
    its cached value dropped. *)
Definition put_block (key : string) (b : block V) (static : bool) m : cm V :=
  invalidate key (mk_cm (dict_set key b (cm_blocks m)) (cm_protected m) (cm_cache m)
    (dict_set key static (cm_static m)) (cm_disabled m ∖ {[key]})).

(** The same for the protected setters. *)
Definition put_protected (key : string) (b : block V) (static : bool) m : cm V :=
  let m' := put_block key b static m in
  mk_cm (cm_blocks m') ({[key]} ∪ cm_protected m') (cm_cache m') (cm_static m') (cm_disabled m').

(** [DynamicContext(expr)]. *)
Definition dynamic_context (expr : string) : cexc + block V :=
  if compiles expr then inr (BDynamic expr) else inl ESyntax.

(** An argument that is given or not. *)
Notation arg A := (option A) (only parsing).

(** [set_static]; its value may itself be a [DynamicContext]. *)
Definition set_static (key : string) (value : arg V) (expr : arg string) m : cexc + cm V :=
  if bool_decide (key ∈ cm_protected m) then inl EProtected
  else
    match expr, value with
    | Some _, Some _ => inl EType
    | Some e, None => match dynamic_context e with inl x => inl x | inr b => inr (put_block key b true m) end
    | None, Some v =>
        match classify v with
        | KDynamic _ => inl EType
        | _ => inr (put_block key (BValue v) true m)
        end
    | None, None => inl EType
    end.

(** A value as a stored block: a [DynamicContext] is its own marker. *)
Definition as_block (v : V) : block V := match classify v with KDynamic e => BDynamic e | _ => BValue v end.

(** [set_dynamic]. *)
Definition set_dynamic (key : string) (expr : arg string) (value : arg V) m : cexc + cm V :=
  if bool_decide (key ∈ cm_protected m) then inl EProtected
  else
    match expr, value with
    | Some _, Some _ => inl EType
    | Some e, None => match dynamic_context e with inl x => inl x | inr b => inr (put_block key b false m) end
    | None, Some v => inr (put_block key (as_block v) false m)
    | None, None => inl EType
    end.

(** [set_static_protected]: without [expr] the value is stored. *)
Definition set_static_protected (key : string) (value : V) (expr : arg string) m : cexc + cm V :=
  match expr with
  | Some e => match dynamic_context e with inl x => inl x | inr b => inr (put_protected key b true m) end
  | None => inr (put_protected key (as_block value) true m)
  end.

(** [set_dynamic_protected]. *)
Definition set_dynamic_protected (key : string) (expr : arg string) (value : arg V) m : cexc + cm V :=
  match expr, value with
  | Some e, _ => match dynamic_context e with inl x => inl x | inr b => inr (put_protected key b false m) end
  | None, Some v => inr (put_protected key (as_block v) false m)
  | None, None => inl EType
  end.

(** [disable] and [enable]. *)
Definition disable (keys : list string) m : cm V :=
  foldl (λ m k, invalidate k m)
    (mk_cm (cm_blocks m) (cm_protected m) (cm_cache m) (cm_static m) (list_to_set keys ∪ cm_disabled m)) keys.
Definition enable (keys : list string) m : cm V :=
  mk_cm (cm_blocks m) (cm_protected m) (cm_cache m) (cm_static m) (cm_disabled m ∖ list_to_set keys).

(** [del self._blocks[key]; self._static.pop(key, None)]. *)
Definition drop_block (key : string) m : cm V :=
  mk_cm (dict_del key (cm_blocks m)) (cm_protected m) (cm_cache m) (dict_del key (cm_static m)) (cm_disabled m).

(** Assigning [None]. *)
Definition suppress (key : string) m : cm V :=
  let m' := disable [key] m in
  if dict_mem key (cm_blocks m') && bool_decide (key ∉ cm_protected m') then drop_block key m' else m'.

(** [__setitem__] of the value [v], which [isinstance] sees as [k]. *)
Definition assign (key : string) (k : kind) (v : V) m : cexc + cm V :=
  let prot := bool_decide (key ∈ cm_protected m) in
  match k with
  | KNone => inr (suppress key m)
  | KContext (Expr e) true =>
      if prot then set_static_protected key v (Some e) m else set_static key None (Some e) m
  | KContext (Expr e) false =>
      if prot then set_dynamic_protected key (Some e) None m else set_dynamic key (Some e) None m
  | KContext (Text s) true =>
      if prot then set_static_protected key (of_text s) None m else set_static key (Some (of_text s)) None m
  | KContext (Text s) false =>
      if prot then set_dynamic_protected key None (Some (of_text s)) m
      else set_dynamic key None (Some (of_text s)) m
  | KDynamic e =>
      if prot then set_dynamic_protected key (Some e) None m else set_dynamic key (Some e) None m
  | KPlain => set_dynamic key None (Some v) m
  end.

Definition setitem (key : string) (v : V) m : cexc + cm V := assign key (classify v) v m.

(** [set]: the keyword form; [Context(expr=...)] checks the syntax first. *)
Definition cm_set (key : string) (value expr : arg string) (prefix : bool) m : cexc + cm V :=
  match value, expr with
  | Some _, Some _ => inl EType
  | None, None => inr (suppress key m)
  | _, Some e => if compiles e then assign key (KContext (Expr e) prefix) (of_text "") m else inl ESyntax
  | Some s, None => if prefix then assign key (KContext (Text s) true) (of_text s) m else setitem key (of_text s) m
  end.

(** [is_static], [is_enabled], [__contains__], [__len__], [keys]. *)
Definition is_static (key : string) m : bool := default false (dict_get key (cm_static m)).
Definition is_enabled (key : string) m : bool := bool_decide (key ∉ cm_disabled m).
Definition cm_contains (key : string) m : bool := dict_mem key (cm_blocks m).
Definition cm_len m : nat := length (cm_blocks m).
Definition cm_keys m : list string := dict_keys (cm_blocks m).

(** [__getitem__]. *)
Definition cm_getitem (key : string) m : cexc + V :=
  match dict_get key (cm_blocks m) with
  | None => inl EKey
  | Some (BValue v) => inr v
  | Some (BDynamic _) => match dict_get key (cm_cache m) with Some v => inr v | None => inl ENotResolved end
  end.

(** The end of [__delitem__], [pop] and [remove_protected]. *)
Definition forget (key : string) m : cm V :=
  invalidate key (mk_cm (dict_del key (cm_blocks m)) (cm_protected m) (cm_cache m)
    (dict_del key (cm_static m)) (cm_disabled m ∖ {[key]})).

(** [__delitem__]. *)
Definition delitem (key : string) m : cexc + cm V :=
  if negb (dict_mem key (cm_blocks m)) then inl EKey
  else if bool_decide (key ∈ cm_protected m) then inl EProtected
  else inr (forget key m).

(** [pop]: the value, or the marker of a block that was never evaluated; the
    default when the key is absent. *)
Definition cm_pop (key : string) (dflt : arg V) m : cexc + (block V * cm V) :=
  match dict_get key (cm_blocks m) with
  | None => match dflt with Some d => inr (BValue d, m) | None => inl EKey end
  | Some raw =>
      if bool_decide (key ∈ cm_protected m) then inl EProtected
      else
        let value := match raw with
                     | BDynamic _ => match dict_get key (cm_cache m) with Some v => BValue v | None => raw end
                     | _ => raw
                     end in
        inr (value, forget key m)
  end.

(** [_update_resolved]. *)
Definition update_resolved (resolved : dict string V) m : cm V :=
  mk_cm (cm_blocks m) (cm_protected m) (dict_update (cm_cache m) resolved) (cm_static m) (cm_disabled m).

(** [remove_protected]. *)
Definition remove_protected (key : string) m : cexc + cm V :=
  if negb (dict_mem key (cm_blocks m)) then inl EKey
  else
    let m' := forget key m in
    inr (mk_cm (cm_blocks m') (cm_protected m' ∖ {[key]}) (cm_cache m') (cm_static m') (cm_disabled m')).

(** [apply_override]. *)
Definition apply_override (key : string) (v : V) m : cexc + cm V :=
  let prot := bool_decide (key ∈ cm_protected m) in
  let static := is_static key m in
  match classify v with
  | KNone => inr (suppress key m)
  | KContext _ _ => setitem key v m
  | KDynamic e =>
      if prot then
        if static then set_static_protected key v (Some e) m else set_dynamic_protected key (Some e) None m
      else set_dynamic key (Some e) None m
  | KPlain =>
      if prot then
        if static then set_static_protected key v None m else set_dynamic_protected key None (Some v) m
      else setitem key v m
  end.

End ContextManager.
