(* ===== verification/ContextRuns.v ===== *)
(** * What the context manager guarantees

    The invariant of its tables, reads that are never stale, and the calls
    that can change a protected block. *)

From Stdlib Require Import Ascii.
From S2P Require Import Prelude PyStr PyDict ContextManager.

(** The calls that change a context manager. *)
Inductive cm_op (V : Type) :=
  | CSetItem (key : string) (v : V)
  | CSet (key : string) (value expr : option string) (prefix : bool)
  | CSetStatic (key : string) (value : option V) (expr : option string)
  | CSetDynamic (key : string) (expr : option string) (value : option V)
  | CSetStaticProtected (key : string) (value : V) (expr : option string)
  | CSetDynamicProtected (key : string) (expr : option string) (value : option V)
  | CDel (key : string)
  | CPop (key : string) (dflt : option V)
  | CDisable (keys : list string)
  | CEnable (keys : list string)
  | CResolve (resolved : dict string V)
  | CRemoveProtected (key : string)
  | COverride (key : string) (v : V).
Arguments CSetItem {V}. Arguments CSet {V}. Arguments CSetStatic {V}. Arguments CSetDynamic {V}.
Arguments CSetStaticProtected {V}. Arguments CSetDynamicProtected {V}. Arguments CDel {V}. Arguments CPop {V}.
Arguments CDisable {V}. Arguments CEnable {V}. Arguments CResolve {V}. Arguments CRemoveProtected {V}.
Arguments COverride {V}.

Section ContextRuns.
Context {V : Type} (of_text : string → V) (classify : V → kind) (compiles : string → bool).
Implicit Types m : cm V.

Definition cm_apply (op : cm_op V) m : cexc + cm V :=
  match op with
  | CSetItem key v => setitem of_text classify compiles key v m
  | CSet key value expr prefix => cm_set of_text classify compiles key value expr prefix m
  | CSetStatic key value expr => set_static classify compiles key value expr m
  | CSetDynamic key expr value => set_dynamic classify compiles key expr value m
  | CSetStaticProtected key value expr => set_static_protected classify compiles key value expr m
  | CSetDynamicProtected key expr value => set_dynamic_protected classify compiles key expr value m
  | CDel key => delitem key m
  | CPop key dflt => match cm_pop key dflt m with inl x => inl x | inr (_, m') => inr m' end
  | CDisable keys => inr (disable keys m)
  | CEnable keys => inr (enable keys m)
  | CResolve resolved => inr (update_resolved resolved m)
  | CRemoveProtected key => remove_protected key m
  | COverride key v => apply_override of_text classify compiles key v m
  end.

Definition cm_step m (op : cm_op V) m' : Prop := cm_apply op m = inr m'.

(** ** The effects

    Every call that succeeds has one of a few effects; the theorems are proved
    for the effects. *)
Inductive effect :=
  | EffPut (key : string) (b : block V) (static : bool)
  | EffPutProtected (key : string) (b : block V) (static : bool)
  | EffSuppress (key : string)
  | EffForget (key : string)
  | EffRemoveProtected (key : string)
  | EffDisable (keys : list string)
  | EffEnable (keys : list string)
  | EffResolve (resolved : dict string V)
  | EffNone.

Definition apply_effect (f : effect) m : cm V :=
  match f with
  | EffPut key b st => put_block key b st m
  | EffPutProtected key b st => put_protected key b st m
  | EffSuppress key => suppress key m
  | EffForget key => forget key m
  | EffRemoveProtected key =>
      let m' := forget key m in
      mk_cm (cm_blocks m') (cm_protected m' ∖ {[key]}) (cm_cache m') (cm_static m') (cm_disabled m')
  | EffDisable keys => disable keys m
  | EffEnable keys => enable keys m
  | EffResolve d => update_resolved d m
  | EffNone => m
  end.

(** When an effect is possible: the plain setters and removals need an
    unprotected key. *)
Definition effect_ok (f : effect) m : Prop :=
  match f with
  | EffPut key _ _ | EffForget key => key ∉ cm_protected m
  | _ => True
  end.

(** The calls by which a protected block can change. *)
Definition reaches_protected (op : cm_op V) (key : string) : Prop :=
  match op with
  | CSetStaticProtected k _ _ | CSetDynamicProtected k _ _ | CRemoveProtected k => k = key
  | COverride k v => k = key ∧ classify v ≠ KNone
  | CSetItem k v => k = key ∧ match classify v with KContext _ _ | KDynamic _ => True | _ => False end
  | CSet k value expr prefix => k = key ∧ (is_Some expr ∨ prefix = true ∧ is_Some value ∨
      match value with Some s => match classify (of_text s) with KContext _ _ | KDynamic _ => True | _ => False end
      | None => False end)
  | _ => False
  end.

(** The key a call is about. *)
Definition op_key (op : cm_op V) : option string :=
  match op with
  | CSetItem k _ | CSet k _ _ _ | CSetStatic k _ _ | CSetDynamic k _ _ | CSetStaticProtected k _ _
  | CSetDynamicProtected k _ _ | CDel k | CPop k _ | CRemoveProtected k | COverride k _ => Some k
  | _ => None
  end.

(** Which effect a call can have. *)
Definition effect_of (f : effect) (op : cm_op V) m : Prop :=
  match f with
  | EffPut key _ _ | EffSuppress key | EffForget key => op_key op = Some key
  | EffPutProtected key _ _ | EffRemoveProtected key => op_key op = Some key ∧ reaches_protected op key
  | EffDisable keys => op = CDisable keys
  | EffEnable keys => op = CEnable keys
  | EffResolve d => op = CResolve d
  | EffNone => ∃ key d, op = CPop key d ∧ dict_get key (cm_blocks m) = None
  end.

(** The effect of a call that succeeds. *)
Lemma set_static_effect key value expr m m' : set_static classify compiles key value expr m = inr m' →
  ∃ b st, m' = put_block key b st m ∧ key ∉ cm_protected m.
Proof. unfold set_static, dynamic_context. intros H. repeat case_match; simplify_eq; bool_prop; eauto. Qed.

Lemma set_dynamic_effect key expr value m m' : set_dynamic classify compiles key expr value m = inr m' →
  ∃ b st, m' = put_block key b st m ∧ key ∉ cm_protected m.
Proof. unfold set_dynamic, dynamic_context. intros H. repeat case_match; simplify_eq; bool_prop; eauto. Qed.

Lemma set_static_protected_effect key value expr m m' :
  set_static_protected classify compiles key value expr m = inr m' → ∃ b st, m' = put_protected key b st m.
Proof. unfold set_static_protected, dynamic_context. intros H. repeat case_match; simplify_eq; eauto. Qed.

Lemma set_dynamic_protected_effect key expr value m m' :
  set_dynamic_protected classify compiles key expr value m = inr m' → ∃ b st, m' = put_protected key b st m.
Proof. unfold set_dynamic_protected, dynamic_context. intros H. repeat case_match; simplify_eq; eauto. Qed.

(** Name the effect of a setter from the equation of its result. *)
Ltac named_effect H :=
  first
    [ apply set_static_effect in H as (? & ? & -> & ?); eexists (EffPut _ _ _)
    | apply set_dynamic_effect in H as (? & ? & -> & ?); eexists (EffPut _ _ _)
    | apply set_static_protected_effect in H as (? & ? & ->); eexists (EffPutProtected _ _ _)
    | apply set_dynamic_protected_effect in H as (? & ? & ->); eexists (EffPutProtected _ _ _)
    | injection H as <-; eexists (EffSuppress _) ];
  (split; [reflexivity|]); (split; [done|]).

Lemma assign_effect key k v m m' : assign of_text classify compiles key k v m = inr m' →
  ∃ f, m' = apply_effect f m ∧ effect_ok f m ∧
    match f with
    | EffPutProtected key' _ _ => key' = key ∧ match k with KContext _ _ | KDynamic _ => True | _ => False end
    | EffPut key' _ _ | EffSuppress key' => key' = key
    | _ => False end.
Proof.
  unfold assign. intros H. destruct k as [|[s|e] []|e|]; try destruct (bool_decide _); named_effect H; done.
Qed.

(** A call that is an assignment under the hood. *)
Lemma assign_op key k v op m m' : assign of_text classify compiles key k v m = inr m' → op_key op = Some key →
  (match k with KContext _ _ | KDynamic _ => True | _ => False end → reaches_protected op key) →
  ∃ f, m' = apply_effect f m ∧ effect_ok f m ∧ effect_of f op m.
Proof.
  intros H Hop Hr. apply assign_effect in H as (f & -> & Hok & Hp). exists f. split; [done|]. split; [done|].
  destruct f; simpl; try done; try (by subst). destruct Hp as [-> Hp]. auto.
Qed.

Lemma cm_apply_effect op m m' : cm_apply op m = inr m' →
  ∃ f, m' = apply_effect f m ∧ effect_ok f m ∧ effect_of f op m.
Proof.
  destruct op as [key v|key value expr prefix|key value expr|key expr value|key value expr|key expr value
    |key|key dflt|keys|keys|resolved|key|key v]; simpl; intros H.
  - by eapply (assign_op key (classify v) v).
  - unfold cm_set in H. destruct value as [s|], expr as [e|]; try done.
    + destruct prefix; [eapply (assign_op key _ _); [exact H|done|]|eapply (assign_op key _ _); [exact H|done|]].
      * intros _. split; [done|]. right. left. eauto.
      * intros Hp. split; [done|]. right. by right.
    + destruct (compiles e); [|done]. eapply (assign_op key _ _); [exact H|done|]. intros _. split; [done|]. left. eauto.
    + injection H as <-. by exists (EffSuppress key).
  - named_effect H. done.
  - named_effect H. done.
  - named_effect H. done.
  - named_effect H. done.
  - unfold delitem in H. destruct (negb _); [done|]. destruct (bool_decide _) eqn:Hk; [done|]. injection H as <-.
    bool_prop. by exists (EffForget key).
  - unfold cm_pop in H. destruct (dict_get key (cm_blocks m)) as [raw|] eqn:Hg.
    + destruct (bool_decide _) eqn:Hk; [done|]. injection H as <-. bool_prop. by exists (EffForget key).
    + destruct dflt; [|done]. injection H as <-. exists EffNone. split; [done|]. split; [done|]. simpl. eauto.
  - injection H as <-. by exists (EffDisable keys).
  - injection H as <-. by exists (EffEnable keys).
  - injection H as <-. by exists (EffResolve resolved).
  - unfold remove_protected in H. destruct (negb _); [done|]. injection H as <-. by exists (EffRemoveProtected key).
  - unfold apply_override in H. destruct (classify v) as [|c pre|e|] eqn:Hc.
    + injection H as <-. by exists (EffSuppress key).
    + eapply (assign_op key _ _); [exact H|done|]. intros _. simpl. by rewrite Hc.
    + destruct (bool_decide _); [destruct (is_static key m)|]; named_effect H; simpl; try done; by rewrite Hc.
    + destruct (bool_decide _); [destruct (is_static key m)|].
      * named_effect H. simpl. by rewrite Hc.
      * named_effect H. simpl. by rewrite Hc.
      * eapply (assign_op key _ _); [exact H|done|]. intros _. simpl. by rewrite Hc.
Qed.

(** ** The invariant of the tables *)

Record cm_ok m : Prop := mk_cm_ok {
  ok_blocks : dict_wf (cm_blocks m);
  ok_static_wf : dict_wf (cm_static m);
  ok_cache : dict_wf (cm_cache m);
  ok_static : ∀ k, k ∈ dict_keys (cm_static m) ↔ k ∈ dict_keys (cm_blocks m);
  ok_protected : ∀ k, k ∈ cm_protected m → k ∈ dict_keys (cm_blocks m)
}.

Lemma elem_of_dict_keys_del {A} k k' (d : dict string A) : dict_wf d →
  k' ∈ dict_keys (dict_del k d) ↔ k' ≠ k ∧ k' ∈ dict_keys d.
Proof. intros Hd. rewrite dict_keys_del by done. rewrite list_elem_of_filter. done. Qed.

Lemma disable_fields keys m :
  cm_blocks (disable keys m) = cm_blocks m ∧ cm_protected (disable keys m) = cm_protected m ∧
  cm_static (disable keys m) = cm_static m ∧ cm_cache (disable keys m) = foldl (λ c k, dict_del k c) (cm_cache m) keys.
Proof.
  unfold disable. generalize (list_to_set keys ∪ cm_disabled m) as dis. intros dis.
  assert (∀ m', let m'' := foldl (λ m k, invalidate k m) m' keys in
    cm_blocks m'' = cm_blocks m' ∧ cm_protected m'' = cm_protected m' ∧ cm_static m'' = cm_static m' ∧
    cm_cache m'' = foldl (λ c k, dict_del k c) (cm_cache m') keys) as H.
  { induction keys as [|k keys IH]; intros m'; [done|]. apply (IH (invalidate k m')). }
  apply (H (mk_cm (cm_blocks m) (cm_protected m) (cm_cache m) (cm_static m) dis)).
Qed.

Lemma foldl_del_wf {A} keys (c : dict string A) : dict_wf c → dict_wf (foldl (λ c k, dict_del k c) c keys).
Proof. revert c. induction keys as [|k keys IH]; intros c Hc; [done|]. apply IH. by apply dict_wf_del. Qed.

Lemma cm_ok_init : cm_ok cm_init.
Proof. constructor; simpl; (apply dict_wf_nil || done || set_solver). Qed.

Lemma cm_ok_disable keys m : cm_ok m → cm_ok (disable keys m).
Proof.
  intros [H1 H2 H3 H4 H5]. destruct (disable_fields keys m) as (Hb & Hp & Hs & Hc).
  constructor; rewrite ?Hb, ?Hp, ?Hs, ?Hc; try done. by apply foldl_del_wf.
Qed.

Lemma cm_ok_drop key m : key ∉ cm_protected m → cm_ok m → cm_ok (drop_block key m).
Proof.
  intros Hk [H1 H2 H3 H4 H5]. constructor; simpl; try by apply dict_wf_del.
  - done.
  - intros k. rewrite !elem_of_dict_keys_del by done. by rewrite H4.
  - intros k Hp. rewrite elem_of_dict_keys_del by done. split; [by intros ->|by apply H5].
Qed.

Lemma cm_ok_forget key m (P : gset string) : (∀ k, k ∈ P → k ≠ key ∧ k ∈ cm_protected m) → cm_ok m →
  let m' := forget key m in cm_ok (mk_cm (cm_blocks m') P (cm_cache m') (cm_static m') (cm_disabled m')).
Proof.
  intros HP [H1 H2 H3 H4 H5]. constructor; simpl; try by apply dict_wf_del.
  - intros k. rewrite !elem_of_dict_keys_del by done. by rewrite H4.
  - intros k [Hne Hp]%HP. rewrite elem_of_dict_keys_del by done. split; [done|by apply H5].
Qed.

Lemma cm_ok_put key b st m (P : gset string) : (∀ k, k ∈ P → k = key ∨ k ∈ cm_protected m) → cm_ok m →
  let m' := put_block key b st m in cm_ok (mk_cm (cm_blocks m') P (cm_cache m') (cm_static m') (cm_disabled m')).
Proof.
  intros HP [H1 H2 H3 H4 H5]. constructor; simpl; try (by apply dict_wf_set); try by apply dict_wf_del.
  - intros k. rewrite !elem_of_dict_keys_set. by rewrite H4.
  - intros k [->|Hp]%HP; rewrite elem_of_dict_keys_set; [by left|right; by apply H5].
Qed.

Lemma cm_ok_effect f m : cm_ok m → effect_ok f m → cm_ok (apply_effect f m).
Proof.
  intros Hm Hok. destruct f as [key b st|key b st|key|key|key|keys|keys|d|]; simpl in *.
  - apply (cm_ok_put key b st m (cm_protected m)); [by right|done].
  - unfold put_protected. apply cm_ok_put; [|done]. simpl. intros k [->%elem_of_singleton|?]%elem_of_union; auto.
  - unfold suppress. pose proof (cm_ok_disable [key] m Hm) as Hd. destruct (dict_mem _ _); simpl; [|done].
    destruct (bool_decide _) eqn:Hk; [|done]. bool_prop. by apply cm_ok_drop.
  - apply (cm_ok_forget key m (cm_protected m)); [|done]. intros k Hk. split; [by intros ->|done].
  - apply cm_ok_forget; [|done]. simpl. intros k [? ?%not_elem_of_singleton]%elem_of_difference. done.
  - by apply cm_ok_disable.
  - by destruct Hm.
  - destruct Hm. constructor; simpl; try done. by apply dict_wf_update.
  - done.
Qed.

Lemma cm_reachable_ok ops m : steps cm_step cm_init ops m → cm_ok m.
Proof.
  intros Hrun. refine (steps_invariant cm_step cm_ok _ _ _ _ cm_ok_init Hrun).
  intros m1 op m2 Hm Hs. destruct (cm_apply_effect op m1 m2 Hs) as (f & -> & Hok & _). by apply cm_ok_effect.
Qed.

(** The tables of the context manager agree after any calls: every block
    has exactly one partition entry, keys are unique, and every protected key
    has a block. *)
Theorem context_tables_agree ops m : steps cm_step cm_init ops m → cm_ok m.
Proof. apply cm_reachable_ok. Qed.

(** ** Protected blocks *)

Lemma effect_protected f m key : cm_ok m → effect_ok f m → key ∈ cm_protected m →
  (∀ k b st, f = EffPutProtected k b st → k ≠ key) → f ≠ EffRemoveProtected key →
  dict_get key (cm_blocks (apply_effect f m)) = dict_get key (cm_blocks m) ∧
  is_static key (apply_effect f m) = is_static key m ∧ key ∈ cm_protected (apply_effect f m).
Proof.
  intros [H1 H2 H3 H4 H5] Hok Hkey Hput Hrem. unfold is_static.
  destruct f as [k b st|k b st|k|k|k|keys|keys|d|]; simpl in *.
  - assert (key ≠ k) by (by intros ->). by rewrite !dict_get_set_ne.
  - assert (key ≠ k) by (intros ->; by eapply Hput). rewrite !dict_get_set_ne by done. set_solver.
  - unfold suppress. destruct (disable_fields [k] m) as (Hb & Hp & Hs & _).
    destruct (dict_mem _ _); cbn [andb]; [|by rewrite Hb, Hp, Hs].
    destruct (bool_decide _) eqn:Hk; unfold drop_block; cbn [cm_blocks cm_static cm_protected];
      rewrite ?Hb, ?Hp, ?Hs; [|done]. bool_prop. rewrite Hp in Hk.
    assert (key ≠ k) by (by intros ->). rewrite !dict_get_del by done. by rewrite !decide_False.
  - assert (key ≠ k) by (by intros ->). rewrite !dict_get_del by done. by rewrite !decide_False.
  - assert (key ≠ k) by (intros ->; done). rewrite !dict_get_del by done. rewrite !decide_False by done. set_solver.
  - destruct (disable_fields keys m) as (Hb & Hp & Hs & _). by rewrite Hb, Hp, Hs.
  - done.
  - done.
  - done.
Qed.

(** C15.  A protected block changes only through the framework's setters,
    [remove_protected] and [apply_override], and through the assignment of a
    [Context] or a [DynamicContext], or [set] with an expression or a prefix:
    every other call leaves the block, its partition and its protection alone.
    Such an assignment does replace it: a text [Context] becomes the block's
    value. *)
Theorem protected_blocks_guarded ops m op m' key :
  steps cm_step cm_init ops m → cm_step m op m' → key ∈ cm_protected m →
  (¬ reaches_protected op key →
     dict_get key (cm_blocks m') = dict_get key (cm_blocks m) ∧ is_static key m' = is_static key m ∧
     key ∈ cm_protected m') ∧
  (∀ v s prefix, classify v = KContext (Text s) prefix →
     ∃ m2, setitem of_text classify compiles key v m = inr m2 ∧
       dict_get key (cm_blocks m2) = Some (as_block classify (of_text s)) ∧ key ∈ cm_protected m2).
Proof.
  intros Hrun Hs Hkey. pose proof (cm_reachable_ok _ _ Hrun) as Hm.
  split.
  - intros Hno. destruct (cm_apply_effect op m m' Hs) as (f & -> & Hok & Hp). apply effect_protected; try done.
    + intros k b st -> ->. by destruct Hp.
    + intros ->. by destruct Hp.
  - intros v s prefix Hc. unfold setitem, assign. rewrite Hc, bool_decide_eq_true_2 by done.
    destruct prefix; (eexists; split; [reflexivity|]); simpl; (split; [apply dict_get_set_eq|set_solver]).
Qed.

(** ** Reads are never stale *)

(** What the history of successful calls leaves as the evaluated value of a
    block: the last resolution that has the key, unless the key was set,
    removed or disabled since. *)
Definition fresh_step (key : string) (acc : option V) (op : cm_op V) : option V :=
  match op with
  | CResolve d => match dict_get key d with Some v => Some v | None => acc end
  | CDisable keys => if decide (key ∈ keys) then None else acc
  | _ => if decide (op_key op = Some key) then None else acc
  end.

Definition fresh (key : string) (ops : list (cm_op V)) : option V := foldl (fresh_step key) None ops.

(** Python dicts have unique keys. *)
Definition op_wf (op : cm_op V) : Prop := match op with CResolve d => dict_wf d | _ => True end.

Lemma foldl_del_get {A} keys key (c : dict string A) : dict_wf c →
  dict_get key (foldl (λ c k, dict_del k c) c keys) = if decide (key ∈ keys) then None else dict_get key c.
Proof.
  revert c. induction keys as [|k keys IH]; intros c Hc; cbn [foldl].
  { rewrite decide_False; [done|]. apply not_elem_of_nil. }
  rewrite IH by by apply dict_wf_del. rewrite dict_get_del by done.
  destruct (decide (key ∈ keys)) as [Hin|Hnin]; repeat case_decide; try done; set_solver.
Qed.

(** One effect, for a key that has a block afterwards. *)
Lemma fresh_effect f op m key acc : cm_ok m → effect_of f op m → op_wf op →
  (key ∈ dict_keys (cm_blocks m) → dict_get key (cm_cache m) = acc) →
  key ∈ dict_keys (cm_blocks (apply_effect f m)) →
  dict_get key (cm_cache (apply_effect f m)) = fresh_step key acc op.
Proof.
  intros [H1 H2 H3 H4 H5] Hf Hwf Hacc.
  assert (∀ k, op_key op = Some k → fresh_step key acc op = if decide (k = key) then None else acc) as Hstep.
  { intros k Hk. destruct op; simpl in *; simplify_eq; repeat case_decide; by simplify_eq. }
  destruct f as [k b st|k b st|k|k|k|keys|keys|d|]; simpl in Hf |- *.
  - rewrite (Hstep k Hf), dict_get_del, elem_of_dict_keys_set by done. intros Hin.
    repeat case_decide; simplify_eq; try done. apply Hacc. tauto.
  - destruct Hf as [Hf _]. rewrite (Hstep k Hf), dict_get_del, elem_of_dict_keys_set by done. intros Hin.
    repeat case_decide; simplify_eq; try done. apply Hacc. tauto.
  - rewrite (Hstep k Hf). unfold suppress. destruct (disable_fields [k] m) as (Hb & Hp & Hs & Hc).
    assert (dict_get key (cm_cache (disable [k] m)) = if decide (key = k) then None else dict_get key (cm_cache m)) as Hg.
    { rewrite Hc. simpl. by rewrite dict_get_del. }
    destruct (dict_mem _ _ && _)%bool; unfold drop_block; cbn [cm_blocks cm_cache]; rewrite Hg, Hb;
      [rewrite elem_of_dict_keys_del by done|]; intros Hin; repeat case_decide; simplify_eq; try done; apply Hacc; tauto.
  - rewrite (Hstep k Hf), dict_get_del, elem_of_dict_keys_del by done. intros Hin.
    repeat case_decide; simplify_eq; try done. apply Hacc. tauto.
  - destruct Hf as [Hf _]. rewrite (Hstep k Hf), dict_get_del, elem_of_dict_keys_del by done. intros Hin.
    repeat case_decide; simplify_eq; try done. apply Hacc. tauto.
  - subst op. destruct (disable_fields keys m) as (Hb & Hp & Hs & Hc). rewrite Hb, Hc, foldl_del_get by done.
    intros Hin. simpl. case_decide; [done|]. by apply Hacc.
  - subst op. intros Hin. by apply Hacc.
  - subst op. intros Hin. simpl in Hwf. rewrite dict_get_update by done. simpl.
    destruct (dict_get key d); [done|]. by apply Hacc.
  - destruct Hf as (k & d & -> & Hk). intros Hin. simpl. case_decide as Hkey; [|by apply Hacc].
    injection Hkey as ->. apply dict_get_None in Hk. done.
Qed.

Lemma fresh_run ops m : steps cm_step cm_init ops m → Forall op_wf ops →
  ∀ key, key ∈ dict_keys (cm_blocks m) → dict_get key (cm_cache m) = fresh key ops.
Proof.
  intros Hrun Hwf key. unfold fresh.
  assert (∀ m0 acc, cm_ok m0 → (key ∈ dict_keys (cm_blocks m0) → dict_get key (cm_cache m0) = acc) →
    steps cm_step m0 ops m → key ∈ dict_keys (cm_blocks m) →
    dict_get key (cm_cache m) = foldl (fresh_step key) acc ops) as Hgen.
  { clear Hrun. induction Hwf as [|op ops Hop Hwf IH]; intros m0 acc Hok Hacc Hrun.
    - inversion Hrun; subst. done.
    - inversion Hrun as [|? ? m1 ? ? Hs Hrest]; subst. simpl.
      destruct (cm_apply_effect op m0 m1 Hs) as (f & -> & Hfok & Hf).
      apply (IH (apply_effect f m0)); [by apply cm_ok_effect| |done].
      by apply fresh_effect. }
  apply (Hgen cm_init); [apply cm_ok_init|by intros ?%elem_of_nil|done].
Qed.

(** Reads are never stale: after any calls a plain block reads as its
    value, an expression block reads as the value of its last evaluation if
    there was one since the block was last set or disabled, and otherwise the
    read raises [DynamicNotResolvedError]; a missing block raises
    [KeyError]. *)
Theorem reads_never_stale ops m key :
  steps cm_step cm_init ops m → Forall op_wf ops →
  cm_getitem key m =
    match dict_get key (cm_blocks m) with
    | None => inl EKey
    | Some (BValue v) => inr v
    | Some (BDynamic _) => match fresh key ops with Some v => inr v | None => inl ENotResolved end
    end.
Proof.
  intros Hrun Hwf. unfold cm_getitem. destruct (dict_get key (cm_blocks m)) as [[v|e]|] eqn:Hg; [done| |done].
  rewrite (fresh_run ops m Hrun Hwf key); [done|]. apply dict_get_is_Some. eauto.
Qed.
End ContextRuns.

(** ** Witnesses

    Strings as values; a value that starts with [=] is an expression. *)
Definition demo_classify (v : string) : kind :=
  match v with EmptyString => KNone | String "="%char e => KContext (Text e) true | _ => KPlain end.

Definition demo_ops : list (cm_op string) :=
  [CSetDynamicProtected "self" (Some "doc(self)") None; CSetDynamic "status" (Some "f()") None;
   CResolve [("self", "docs"); ("status", "ok")]; CSetItem "plan" "text"; CDisable ["status"];
   CSetItem "self" "=mine"]%string.

Definition demo_next (m : cm string) (op : cm_op string) : cm string :=
  match cm_apply id demo_classify (λ _, true) op m with inr m' => m' | inl _ => m end.

Lemma demo_context_steps : steps (cm_step id demo_classify (λ _, true)) cm_init demo_ops (foldl demo_next cm_init demo_ops).
Proof. apply steps_foldl. vm_compute. tauto. Qed.

Lemma context_tables_agree_witness : cm_ok (foldl demo_next cm_init demo_ops).
Proof. exact (context_tables_agree id demo_classify (λ _, true) _ _ demo_context_steps). Defined.

Lemma protected_blocks_guarded_witness :
  ∃ m2, setitem id demo_classify (λ _, true) "self" "=mine" (foldl demo_next cm_init demo_ops) = inr m2 ∧
    dict_get "self" (cm_blocks m2) = Some (BValue "mine")%string.
Proof.
  assert ("self"%string ∈ cm_protected (foldl demo_next cm_init demo_ops)) as Hin
    by (apply (bool_decide_unpack _); vm_compute; exact I).
  destruct (proj2 (protected_blocks_guarded id demo_classify (λ _, true) demo_ops _ (CEnable []) _ "self"%string
    demo_context_steps eq_refl Hin) "=mine"%string "mine"%string true eq_refl) as (m2 & H1 & H2 & _).
  exists m2. split; [exact H1|exact H2].
Defined.

Lemma reads_never_stale_witness :
  cm_getitem "status" (foldl demo_next cm_init demo_ops) = inl ENotResolved.
Proof.
  etrans; [apply (reads_never_stale id demo_classify (λ _, true) demo_ops _ "status" demo_context_steps)|].
  - repeat (constructor; [try exact I; apply (bool_decide_unpack _); vm_compute; exact I|]). constructor.
  - vm_compute. reflexivity.
Defined.
