(* ===== verification/AgentSnapshot.v ===== *)
(** * Snapshots of a whole agent

    Models [nooa/storage/snapshot.py]: [AgentSnapshot.from_agent] and
    [restore], on top of the codec of [SnapCodec] and the context manager of
    [ContextManager].  A live agent has values on a heap, a restored one has
    trees.  Of the JSON text between the two the model keeps what the text does
    to the data: a tuple is written as a list, and the [SKIP] sentinel cannot
    be written. *)

From stdpp Require Import sorting.
From S2P Require Import Prelude PyStr PyDict Values SnapCodec SnapCodecRuns ContextManager.

Local Open Scope string_scope.

(** ** Saving *)

(** An attribute of an agent: its value, whether its class field is annotated
    [nosnapshot], and whether it is callable. *)
Record attr := mk_attr { a_value : pv; a_nosnapshot_field : bool; a_callable : bool }.

Record live_agent := mk_live { la_context : cm pv; la_attrs : list (string * attr) }.

(** A saved block; a static one without data holds the [SKIP] sentinel. *)
Inductive sblock := SStatic (key : string) (value : option pyval) | SDynamic (key expr : string).

Record snapshot := mk_snapshot {
  ss_version : Z;
  ss_context : list sblock;
  ss_disabled : list string;
  ss_attributes : list (string * pyval);
  ss_allowlist : list string
}.

Definition SNAPSHOT_VERSION : Z := 2.

(** [SerializationError], [DeserializationError], an error of the context
    manager, and any other exception. *)
Inductive snap_exc := XSerialization | XDeserialization | XContext (e : cexc) | XOther.

Definition string_le (s t : string) : Prop := String.leb s t = true.
#[export] Instance string_le_dec s t : Decision (string_le s t).
Proof. unfold string_le. apply _. Defined.

(** [sorted(...)] of a set of strings. *)
Definition sorted_set (X : gset string) : list string := merge_sort string_le (elements X).

Section Save.
Context (heap : list pobj).

(** [is_nosnapshot_value]. *)
Definition nosnapshot_value (v : pv) : bool :=
  match v with Ref o => match heap !! o with Some ob => o_nosnapshot ob | None => false end | _ => false end.

(** The loop over the context blocks, with the allowlist so far. *)
Fixpoint save_blocks (protected : gset string) (blocks : list (string * block pv)) (al : list string)
    : snap_exc + (list sblock * list string) :=
  match blocks with
  | [] => inr ([], al)
  | (key, b) :: blocks' =>
      if bool_decide (key ∈ protected) then save_blocks protected blocks' al
      else
        let rest sb al' := match save_blocks protected blocks' al' with
                           | inl x => inl x
                           | inr (sbs, al'') => inr (sb :: sbs, al'')
                           end in
        match b with
        | BDynamic e => rest (SDynamic key e) al
        | BValue v =>
            match serialize heap v 0 with
            | (SBlob d, al') => rest (SStatic key (Some d)) (al ++ al')%list
            | (SSkip, al') => rest (SStatic key None) (al ++ al')%list
            | (SFail (PathError _ _), _) => inl XSerialization
            | (SFail PyTypeError, _) => inl XOther
            end
        end
  end.

(** The attributes that [from_agent] does not look at. *)
Definition excluded (name : string) (a : attr) : bool :=
  String.prefix "_agentdoc_" name || a_nosnapshot_field a || nosnapshot_value (a_value a) || a_callable a.

(** The loop over the attributes: one that does not serialize is left out. *)
Fixpoint save_attrs (attrs : list (string * attr)) (acc : list (string * pyval)) (al : list string)
    : snap_exc + (list (string * pyval) * list string) :=
  match attrs with
  | [] => inr (acc, al)
  | (name, a) :: attrs' =>
      if excluded name a then save_attrs attrs' acc al
      else
        match serialize heap (a_value a) 0 with
        | (SBlob d, al') => save_attrs attrs' (dict_set name d acc) (al ++ al')%list
        | (SSkip, al') => save_attrs attrs' acc (al ++ al')%list
        | (SFail (PathError _ _), _) => save_attrs attrs' acc al
        | (SFail PyTypeError, _) => inl XOther
        end
  end.

(** [AgentSnapshot.from_agent]. *)
Definition from_agent (a : live_agent) : snap_exc + snapshot :=
  let m := la_context a in
  match save_blocks (cm_protected m) (cm_blocks m) [] with
  | inl x => inl x
  | inr (blocks, al) =>
      match save_attrs (la_attrs a) [] al with
      | inl x => inl x
      | inr (attrs, al') =>
          inr (mk_snapshot SNAPSHOT_VERSION blocks (sorted_set (cm_disabled m)) attrs al')
      end
  end.

(** A value as [json.loads] gives back what [json.dumps] wrote. *)
Fixpoint jsonify (v : pyval) : pyval :=
  match v with
  | VList l | VTuple l => VList (map jsonify l)
  | VDict d => VDict (map (λ kv, (kv.1, jsonify kv.2)) d)
  | _ => v
  end.

Definition json_block (b : sblock) : sblock :=
  match b with SStatic key value => SStatic key (jsonify <$> value) | SDynamic _ _ => b end.

(** [json.dumps(snapshot_to_dict(snapshot))] of [save_snapshot]: it refuses the
    sentinel; the snapshot that is read back from the text. *)
Definition dumpable (bs : list sblock) : bool :=
  forallb (λ b, match b with SStatic _ None => false | _ => true end) bs.
Definition dumps (s : snapshot) : snap_exc + snapshot :=
  if dumpable (ss_context s) then
    inr (mk_snapshot (ss_version s) (json_block <$> ss_context s) (ss_disabled s)
           (map (λ kv, (kv.1, jsonify kv.2)) (ss_attributes s)) (ss_allowlist s))
  else inl XOther.

(** What [save_snapshot] hands to [_insert_snapshot], as it will be read. *)
Definition save (a : live_agent) : snap_exc + snapshot :=
  match from_agent a with inl x => inl x | inr s => dumps s end.
End Save.

(** ** Restoring *)

Section Restore.
Context {Cls : Type} (env : classes Cls).
Context (classify : tree Cls → kind) (compiles : string → bool).

Record restored_agent := mk_restored { ra_context : cm (tree Cls); ra_attrs : dict string (tree Cls) }.

Definition of_text (s : string) : tree Cls := TVal (VStr s).

(** [DeserializationError] or something else. *)
Definition deser_exc (e : derr) : snap_exc := match e with DOther => XOther | _ => XDeserialization end.

Definition in_context {A} (r : cexc + A) : snap_exc + A := match r with inl e => inl (XContext e) | inr a => inr a end.

(** One block. *)
Definition restore_block (al : list string) (b : sblock) (m : cm (tree Cls)) : snap_exc + cm (tree Cls) :=
  match b with
  | SDynamic key e =>
      in_context (if bool_decide (key ∈ cm_protected m)
                  then set_dynamic_protected classify compiles key (Some e) None m
                  else set_dynamic classify compiles key (Some e) None m)
  | SStatic key d =>
      match deserialize env (default VNone d) al with
      | inl e => inl (deser_exc e)
      | inr t =>
          in_context (if bool_decide (key ∈ cm_protected m)
                      then set_static_protected classify compiles key t None m
                      else setitem of_text classify compiles key t m)
      end
  end.

Fixpoint restore_blocks (al : list string) (bs : list sblock) (m : cm (tree Cls)) : snap_exc + cm (tree Cls) :=
  match bs with
  | [] => inr m
  | b :: bs' => match restore_block al b m with inl x => inl x | inr m' => restore_blocks al bs' m' end
  end.

(** The attributes: one that does not deserialize is skipped. *)
Fixpoint restore_attrs (al : list string) (attrs : list (string * pyval)) (acc : dict string (tree Cls))
    : snap_exc + dict string (tree Cls) :=
  match attrs with
  | [] => inr acc
  | (name, d) :: attrs' =>
      match deserialize env d al with
      | inl DOther => inl XOther
      | inl _ => restore_attrs al attrs' acc
      | inr t => restore_attrs al attrs' (dict_set name t acc)
      end
  end.

(** [AgentSnapshot.restore]. *)
Definition restore (s : snapshot) (a : restored_agent) : snap_exc + restored_agent :=
  if negb (bool_decide (ss_version s = SNAPSHOT_VERSION)) then inl XSerialization
  else
    match restore_blocks (ss_allowlist s) (ss_context s) (ra_context a) with
    | inl x => inl x
    | inr m =>
        let m' := match ss_disabled s with [] => m | keys => disable keys m end in
        match restore_attrs (ss_allowlist s) (ss_attributes s) (ra_attrs a) with
        | inl x => inl x
        | inr attrs => inr (mk_restored m' attrs)
        end
    end.
End Restore.
