(* ===== verification/AgentRuns.v ===== *)
(** * What a saved agent restores to

    Saving leaves out what cannot be saved without losing the rest; restoring
    into a fresh agent brings back the attributes and the unprotected context
    blocks. *)

From stdpp Require Import sorting.
From S2P Require Import Prelude PyStr PyDict Values SnapCodec SnapCodecRuns SnapCodecSafety.
From S2P Require Import ContextManager ContextRuns AgentSnapshot.

Lemma disable_disabled {V} keys (m : cm V) : cm_disabled (disable keys m) = list_to_set keys ∪ cm_disabled m.
Proof.
  unfold disable. assert (∀ m' : cm V, cm_disabled (foldl (λ m k, invalidate k m) m' keys) = cm_disabled m') as H.
  { induction keys as [|k keys IH]; intros m'; [done|]. apply (IH (invalidate k m')). }
  apply H.
Qed.

(** The entries of a dict that a test on keys lets through. *)
Lemma elem_of_filter_keys {A} (f : string → bool) (kvs : list (string * A)) k v :
  (k, v) ∈ List.filter (λ kv, f kv.1) kvs ↔ (k, v) ∈ kvs ∧ f k = true.
Proof. by rewrite !list_elem_of_In, List.filter_In. Qed.

Lemma NoDup_filter_keys {A} (f : string → bool) (kvs : list (string * A)) :
  NoDup kvs.*1 → NoDup (List.filter (λ kv, f kv.1) kvs).*1.
Proof.
  induction kvs as [|[k v] kvs IH]; [done|]. cbn. intros [Hk Hnd]%NoDup_cons. destruct (f k); [|by apply IH].
  cbn. constructor; [|by apply IH]. intros ([k' v'] & -> & Hin%elem_of_filter_keys)%list_elem_of_fmap.
  apply Hk. apply list_elem_of_fmap. exists (k', v'). tauto.
Qed.

(** ** The JSON text

    What [serialize] returns has no tuple outside the data that a
    [__snapshot_data__] hook returned, so the text gives it back as it is. *)
Definition json_data (v : pyval) : Prop := jsonify v = v.

(** What the hooks return has no tuple in it. *)
Definition json_hooks (heap : list pobj) : Prop :=
  Forall (λ ob, match o_body ob with BModel _ _ _ (Some data) => json_data data | _ => True end) heap.

Lemma json_items l : Forall json_data l → map jsonify l = l.
Proof. induction 1 as [|v l Hv _ IH]; [done|]. cbn [map]. by rewrite Hv, IH. Qed.

Lemma json_entries (d : list (string * pyval)) :
  Forall (λ kv, json_data kv.2) d → map (λ kv, (kv.1, jsonify kv.2)) d = d.
Proof. induction 1 as [|[k v] d Hv _ IH]; [done|]. cbn [map fst snd] in *. by rewrite Hv, IH. Qed.

Lemma json_dict d : Forall (λ kv, json_data kv.2) d → json_data (VDict d).
Proof. intros H. unfold json_data. cbn [jsonify]. by rewrite json_entries. Qed.

Lemma json_class kind fqn v : json_data v → json_data (class_envelope kind fqn v).
Proof. intros H. unfold json_data, class_envelope. cbn [jsonify map fst snd]. by rewrite H. Qed.

Section JsonSer.
Context (rec : pv → list string → sres * list string).
Context (Hrec : ∀ v al b al', rec v al = (SBlob b, al') → json_data b).

Lemma json_ser_items i l al bs al' : ser_items rec i l al = (inr bs, al') → Forall json_data bs.
Proof.
  revert i al bs. induction l as [|v l IH]; intros i al bs; cbn [ser_items]; [by intros [= <- _]|].
  destruct (rec v al) as [[b| |e] al1] eqn:Hv; [|eauto|done].
  destruct (ser_items rec (S i) l al1) as [[e|bs1] al2] eqn:Hl; [done|]. intros [= <- <-].
  constructor; [by eapply Hrec|by eapply IH].
Qed.

Lemma json_ser_fields fields acc al d al' : Forall (λ kv, json_data kv.2) acc →
  ser_fields rec fields acc al = (inr d, al') → Forall (λ kv, json_data kv.2) d.
Proof.
  revert acc al. induction fields as [|[k v] fields IH]; intros acc al Hacc; cbn [ser_fields]; [by intros [= <- _]|].
  destruct (rec v al) as [[b| |e] al1] eqn:Hv; [|eauto|done].
  apply IH. by apply Forall_dict_set; [eapply Hrec|].
Qed.

Lemma json_ser_dict items acc al d al' : Forall (λ kv, json_data kv.2) acc →
  ser_dict rec items acc al = (inr d, al') → Forall (λ kv, json_data kv.2) d.
Proof.
  revert acc al. induction items as [|[[k|n] v] items IH]; intros acc al Hacc; cbn [ser_dict]; [by intros [= <- _]| |done].
  destruct (rec v al) as [[b| |e] al1] eqn:Hv; [|eauto|done].
  apply IH. by apply Forall_dict_set; [eapply Hrec|].
Qed.

Lemma json_ser_lenient items acc al d al' : Forall (λ kv, json_data kv.2) acc →
  ser_lenient rec items acc al = (inr d, al') → Forall (λ kv, json_data kv.2) d.
Proof.
  revert acc al. induction items as [|[[k|n] v] items IH]; intros acc al Hacc; cbn [ser_lenient]; [by intros [= <- _]| |eauto].
  destruct (rec v al) as [[b| |[r p|]] al1] eqn:Hv; [|eauto|eauto|done].
  apply IH. by apply Forall_dict_set; [eapply Hrec|].
Qed.
End JsonSer.

(** The data of an object whose entries have no tuples. *)
Lemma json_wrap f r b al : (∀ d, Forall (λ kv, json_data kv.2) d → r = (inr d, al) → json_data (f (VDict d))) →
  (∀ d, r = (inr d, al) → Forall (λ kv, json_data kv.2) d) → wrap f r = (SBlob b, al) → json_data b.
Proof. intros Hf Hd Hw. apply wrap_blob in Hw as (d & -> & ->). by apply Hf; [apply Hd|]. Qed.

Lemma json_ser heap left active v al b al' : json_hooks heap →
  ser heap left active v al = (SBlob b, al') → json_data b.
Proof.
  intros Hh. revert active v al b al'. induction left as [left IH] using lt_wf_ind. intros active v al b al'.
  destruct left as [|left]; cbn [ser]; (destruct (strip_enum v) as [p|w|o]; [intros [= <- _]; by destruct p|done|]);
    destruct (heap !! o) as [[[] ob]|] eqn:Ho; cbn [o_nosnapshot o_body]; try done;
    destruct (bool_decide (o ∈ active)); try done.
  assert (∀ a v al b al', ser heap left a v al = (SBlob b, al') → json_data b) as Hrec by (intros; eapply (IH left); [lia|done]).
  assert (∀ f r, (∀ d, json_data (VDict d) → json_data (f (VDict d))) →
    (∀ d al1, r = (inr d, al1) → Forall (λ kv, json_data kv.2) d) → wrap f r = (SBlob b, al') → json_data b) as Hwrap
    by (intros f r Hf Hd; apply json_wrap; [intros d Hj _; by apply Hf, json_dict|eauto]).
  pose proof (proj1 (Forall_lookup _ _) Hh _ _ Ho) as Hob. cbn [o_body] in Hob.
  destruct ob as [items|items|items|fqn fields extra [data|]|fqn fields|fqn attrs lenient|]; [..|done].
  - apply Hwrap; [done|]. intros d al1. by apply (json_ser_dict _ (Hrec _)).
  - destruct (ser_items _ _ _ _) as [[e|bs] al1] eqn:Hi; [done|]. intros [= <- _].
    unfold json_data. cbn [jsonify]. by rewrite (json_items bs (json_ser_items _ (Hrec _) _ _ _ _ _ Hi)).
  - destruct (ser_items _ _ _ _) as [[e|bs] al1] eqn:Hi; [done|]. intros [= <- _].
    unfold json_data, tuple_envelope. cbn [jsonify map fst snd].
    by rewrite (json_items bs (json_ser_items _ (Hrec _) _ _ _ _ _ Hi)).
  - destruct (check_data _ _); [done|]. intros [= <- _]. by apply json_class.
  - destruct (ser_fields _ fields _ _) as [[e|d1] al1] eqn:Hf; [done|].
    apply Hwrap; [intros d; apply json_class|]. intros d al2. apply (json_ser_fields _ (Hrec _)).
    by apply (json_ser_fields _ (Hrec _) _ _ _ _ _ (Forall_nil_2 _) Hf).
  - apply Hwrap; [intros d; apply json_class|]. intros d al2. by apply (json_ser_fields _ (Hrec _)).
  - destruct (lenient_dict _ _ _) as [[[name d0] items]|].
    + destruct (ser_fields _ _ _ _) as [[e|d1] al1] eqn:Hf; [done|].
      destruct (bool_decide _); [done|]. destruct left as [|left']; [done|].
      apply Hwrap.
      * intros d Hd. apply json_class, json_dict, Forall_dict_set; [done|].
        by apply (json_ser_fields _ (Hrec _) _ _ _ _ _ (Forall_nil_2 _) Hf).
      * intros d al2. apply json_ser_lenient; [|done]. intros; eapply (IH left'); [lia|done].
    + apply Hwrap; [intros d; apply json_class|]. intros d al2. by apply (json_ser_fields _ (Hrec _)).
Qed.

Lemma json_serialize heap v base b al : json_hooks heap → serialize heap v base = (SBlob b, al) → json_data b.
Proof. apply json_ser. Qed.

#[local] Opaque serialize deserialize copy.

Section Saved.
Context (heap : list pobj).

(** The data of an attribute, [None] when it stays out of the snapshot. *)
Definition saved (name : string) (a : attr) : option pyval :=
  if excluded heap name a then None
  else match (serialize heap (a_value a) 0).1 with SBlob d => Some d | _ => None end.

Lemma save_attrs_spec attrs acc al d al' : dict_wf attrs → dict_wf acc →
  save_attrs heap attrs acc al = inr (d, al') →
  al ⊆ al' ∧ dict_wf d ∧
  (∀ name a b, dict_get name attrs = Some a → saved name a = Some b → (serialize heap (a_value a) 0).2 ⊆ al') ∧
  ∀ name, dict_get name d =
    match dict_get name attrs ≫= saved name with Some b => Some b | None => dict_get name acc end.
Proof.
  unfold dict_wf. revert acc al. induction attrs as [|[n a] attrs IH]; intros acc al Hwf Hacc; cbn [save_attrs].
  - intros [= <- <-]. done.
  - cbn in Hwf. apply NoDup_cons in Hwf as [Hn Hwf]. intros H.
    assert (∀ acc1 al1, al ⊆ al1 → NoDup (dict_keys acc1) → save_attrs heap attrs acc1 al1 = inr (d, al') →
      (∀ b, saved n a = Some b → (serialize heap (a_value a) 0).2 ⊆ al1) →
      (∀ name, dict_get name acc1 = if decide (name = n) then
         match saved n a with Some b => Some b | None => dict_get name acc end else dict_get name acc) →
      al ⊆ al' ∧ NoDup (dict_keys d) ∧
      (∀ name a' b, dict_get name ((n, a) :: attrs) = Some a' → saved name a' = Some b →
         (serialize heap (a_value a') 0).2 ⊆ al') ∧
      ∀ name, dict_get name d =
        match dict_get name ((n, a) :: attrs) ≫= saved name with Some b => Some b | None => dict_get name acc end)
      as Hstep.
    { intros acc1 al1 Hal Hacc1 Hrun Hs Hget. destruct (IH acc1 al1 Hwf Hacc1 Hrun) as (H1 & H2 & H3 & H4).
      split; [set_solver|]. split; [done|]. split; intros name; cbn [dict_get].
      - intros a' b. destruct (decide (name = n)) as [->|Hne].
        + intros [= <-] Hb. specialize (Hs b Hb). set_solver.
        + apply H3.
      - rewrite H4, Hget. destruct (decide (name = n)) as [->|Hne]; [|done].
        assert (dict_get n attrs = None) as -> by (by apply dict_get_None). done. }
    unfold saved in Hstep. destruct (excluded heap n a) eqn:He.
    + apply (Hstep acc al); try done. intros name. by destruct (decide _).
    + destruct (serialize heap (a_value a) 0) as [[b| |[r p|]] al1]; cbn in Hstep; [| | |done].
      * apply (Hstep (dict_set n b acc) (al ++ al1)%list); try done; [set_solver|by apply dict_wf_set| |].
        -- intros ? _. set_solver.
        -- intros name. rewrite dict_get_set. done.
      * apply (Hstep acc (al ++ al1)%list); try done; [set_solver|]. intros name. by destruct (decide _).
      * apply (Hstep acc al); try done. intros name. by destruct (decide _).
Qed.
End Saved.

Section Restored.
Context (heap : list pobj) {Cls : Type} (env : classes Cls) (classify : tree Cls → kind) (compiles : string → bool).

Lemma restore_attrs_spec AL attrs acc d : dict_wf attrs → restore_attrs env AL attrs acc = inr d →
  ∀ name, dict_get name d =
    match dict_get name attrs with
    | Some b => match deserialize env b AL with inr t => Some t | inl _ => dict_get name acc end
    | None => dict_get name acc
    end.
Proof.
  unfold dict_wf. revert acc. induction attrs as [|[n b] attrs IH]; intros acc Hwf; cbn [restore_attrs].
  - intros [= <-] name. done.
  - cbn in Hwf. apply NoDup_cons in Hwf as [Hn Hwf]. intros H name. cbn [dict_get].
    assert (dict_get n attrs = None) as Hnone by (by apply dict_get_None).
    destruct (deserialize env b AL) as [e|t] eqn:Hd.
    + assert (restore_attrs env AL attrs acc = inr d) as H' by (by destruct e).
      rewrite (IH acc Hwf H'). destruct (decide (name = n)) as [->|Hne]; [|done]. rewrite Hd, Hnone. done.
    + rewrite (IH _ Hwf H). destruct (decide (name = n)) as [->|Hne].
      * rewrite Hd, Hnone. by rewrite dict_get_set_eq.
      * rewrite dict_get_set_ne by done. done.
Qed.

(** ** Context blocks *)

Definition sblock_key (b : sblock) : string := match b with SStatic k _ | SDynamic k _ => k end.

(** Assigning to an unprotected key stores a block or suppresses it. *)
Lemma setitem_unprotected key v m m' : key ∉ cm_protected m →
  setitem of_text classify compiles key v m = inr m' →
  m' = suppress key m ∨ ∃ b st, m' = put_block key b st m.
Proof.
  intros Hk. unfold setitem, assign. rewrite (bool_decide_eq_false_2 _ Hk).
  destruct (classify v) as [|[] []| |]; intros H; [left; by injection H as <-|right..];
    first [apply (set_static_effect classify compiles) in H as (?&?&->&_)
          |apply (set_dynamic_effect classify compiles) in H as (?&?&->&_)]; eauto.
Qed.

(** Restoring one block is a call about its key, which touches no other key and
    no protection. *)
Lemma restore_block_frame AL b m m' : cm_ok m → restore_block env classify compiles AL b m = inr m' →
  cm_ok m' ∧ cm_protected m' = cm_protected m ∧
  ∀ k, k ≠ sblock_key b →
    dict_get k (cm_blocks m') = dict_get k (cm_blocks m) ∧ is_static k m' = is_static k m ∧
    (k ∈ cm_disabled m' ↔ k ∈ cm_disabled m).
Proof.
  intros Hm H.
  assert (∃ f, m' = apply_effect f m ∧ effect_ok f m ∧
    match f with
    | EffPut k _ _ | EffSuppress k => k = sblock_key b
    | EffPutProtected k _ _ => k = sblock_key b ∧ k ∈ cm_protected m
    | _ => False end) as (f & -> & Hok & Hf).
  { destruct b as [k d|k e]; unfold restore_block, in_context in H; cbn [sblock_key].
    - destruct (deserialize _ _ _) as [|t]; [done|]. destruct (bool_decide _) eqn:Hk; bool_prop.
      + destruct (set_static_protected _ _ _ _ _ _) as [|m1] eqn:He; [done|]. injection H as <-.
        apply (set_static_protected_effect classify compiles) in He as (bb & st & ->).
        by exists (EffPutProtected k bb st).
      + destruct (setitem _ _ _ _ _ _) as [|m1] eqn:He; [done|]. injection H as <-.
        apply setitem_unprotected in He as [->|(bb & st & ->)]; [by exists (EffSuppress k)| |done].
        by exists (EffPut k bb st).
    - destruct (bool_decide _) eqn:Hk; bool_prop.
      + destruct (set_dynamic_protected _ _ _ _ _ _) as [|m1] eqn:He; [done|]. injection H as <-.
        apply (set_dynamic_protected_effect classify compiles) in He as (bb & st & ->).
        by exists (EffPutProtected k bb st).
      + destruct (set_dynamic _ _ _ _ _ _) as [|m1] eqn:He; [done|]. injection H as <-.
        apply (set_dynamic_effect classify compiles) in He as (bb & st & -> & _). by exists (EffPut k bb st). }
  split; [by apply cm_ok_effect|]. destruct Hm as [H1 H2 _ _ _].
  unfold is_static. destruct f as [key bb st|key bb st|key| | | | | |]; try done; simpl.
  - subst. split; [done|]. intros k Hk. rewrite !dict_get_set_ne by done.
    split; [done|]. split; [done|]. set_solver.
  - destruct Hf as [-> Hin]. split; [set_solver|]. intros k Hk. rewrite !dict_get_set_ne by done.
    split; [done|]. split; [done|]. set_solver.
  - subst. unfold suppress. destruct (disable_fields [sblock_key b] m) as (Hb & Hp & Hs & _).
    assert (cm_disabled (disable [sblock_key b] m) = {[sblock_key b]} ∪ cm_disabled m) as Hd
      by (rewrite disable_disabled; set_solver).
    destruct (dict_mem _ _ && _); unfold drop_block; cbn [cm_protected cm_blocks cm_static cm_disabled];
      rewrite ?Hb, ?Hp, ?Hs, ?Hd; (split; [done|]); intros k Hk;
      rewrite ?dict_get_del, ?decide_False by done.
    all: (split; [done|]); (split; [done|]); set_solver.
Qed.

(** A key the restore does not touch. *)
Definition untouched (m m' : cm (tree Cls)) (k : string) : Prop :=
  dict_get k (cm_blocks m') = dict_get k (cm_blocks m) ∧ is_static k m' = is_static k m ∧
  (k ∈ cm_disabled m' ↔ k ∈ cm_disabled m).

(** What an unprotected block of the saved agent has become: an expression is
    kept, a value is its copy when the copy is an ordinary value; either way it
    is in the dynamic partition, and disabled when [D] has it.  A block whose
    value is [None] is lost: assigning [None] suppresses the key. *)
Definition restored_as (AL : list string) (D : gset string) (key : string) (b : block pv) (m' : cm (tree Cls)) : Prop :=
  match b with
  | BDynamic e => dict_get key (cm_blocks m') = Some (BDynamic e) ∧ is_static key m' = false ∧ (key ∈ cm_disabled m' ↔ key ∈ D)
  | BValue v => ∃ t, copy env heap AL MAX_SNAPSHOT_DEPTH [] v = Some (inr t) ∧
      (classify t = KPlain →
         dict_get key (cm_blocks m') = Some (BValue t) ∧ is_static key m' = false ∧ (key ∈ cm_disabled m' ↔ key ∈ D)) ∧
      (classify t = KNone → dict_get key (cm_blocks m') = None ∧ key ∈ cm_disabled m')
  end.

Lemma restored_as_untouched AL D key b m m' :
  untouched m m' key → restored_as AL D key b m → restored_as AL D key b m'.
Proof.
  intros (Hb & Hs & Hd). unfold restored_as. rewrite Hb, Hs. destruct b as [v|e].
  - intros (t & Hc & Ht & Hn). exists t. rewrite Hd. by split; [|split].
  - rewrite Hd. exact id.
Qed.

Lemma put_block_as key b (m : cm (tree Cls)) :
  dict_get key (cm_blocks (put_block key b false m)) = Some b ∧
  is_static key (put_block key b false m) = false ∧ (key ∈ cm_disabled (put_block key b false m) ↔ key ∈ (∅ : gset string)).
Proof. unfold is_static. simpl. rewrite !dict_get_set_eq. set_solver. Qed.

Lemma suppress_gone key (m : cm (tree Cls)) : cm_ok m → key ∉ cm_protected m →
  dict_get key (cm_blocks (suppress key m)) = None ∧ key ∈ cm_disabled (suppress key m).
Proof.
  intros Hm Hk. unfold suppress. destruct (disable_fields [key] m) as (Hb & Hp & _).
  rewrite Hb, Hp, (bool_decide_eq_true_2 _ Hk), andb_true_r.
  assert (key ∈ cm_disabled (disable [key] m)) as Hd by (rewrite disable_disabled; set_solver).
  destruct (dict_mem key (cm_blocks m)) eqn:Hmem; [|rewrite Hb; split; [|done]].
  - cbn [drop_block cm_blocks cm_disabled]. rewrite Hb, dict_get_del, decide_True; [done|done|apply Hm].
  - unfold dict_mem in Hmem. by destruct (dict_get key (cm_blocks m)).
Qed.

Lemma restore_value AL key v b al m m' : heap_ok heap → cm_ok m → serialize heap v 0 = (SBlob b, al) → al ⊆ AL →
  key ∉ cm_protected m → restore_block env classify compiles AL (SStatic key (Some b)) m = inr m' →
  restored_as AL ∅ key (BValue v) m'.
Proof.
  intros Hok Hm Hs HAL Hk. unfold restore_block. cbn [default].
  destruct (serialize_encodes env heap v b al AL Hok Hs HAL) as [Hc _]. simpl. rewrite Hc.
  destruct (deserialize env b AL) as [e|t]; [done|]. rewrite (bool_decide_eq_false_2 _ Hk). cbn [id].
  intros H. exists t. split; [done|]. unfold setitem in H.
  split; intros Ht; rewrite Ht in H; cbn [assign] in H.
  - unfold set_dynamic, as_block in H. rewrite (bool_decide_eq_false_2 _ Hk), Ht in H. injection H as <-.
    apply put_block_as.
  - injection H as <-. by apply suppress_gone.
Qed.

Lemma restore_expr AL key e m m' : key ∉ cm_protected m →
  restore_block env classify compiles AL (SDynamic key e) m = inr m' → restored_as AL ∅ key (BDynamic e) m'.
Proof.
  intros Hk. unfold restore_block, set_dynamic, dynamic_context. rewrite (bool_decide_eq_false_2 _ Hk).
  destruct (compiles e); [|done]. intros [= <-]. apply put_block_as.
Qed.

Lemma untouched_refl m k : untouched m m k.
Proof. done. Qed.

Lemma untouched_trans m1 m2 m3 k : untouched m1 m2 k → untouched m2 m3 k → untouched m1 m3 k.
Proof. intros (H1 & H2 & H3) (H4 & H5 & H6). unfold untouched. rewrite H4, H5, H6. done. Qed.

(** The data of one saved block. *)
Definition block_saved (AL : list string) (key : string) (b : block pv) (sb : sblock) : Prop :=
  match b, sb with
  | BDynamic e, SDynamic k e' => k = key ∧ e' = e
  | BValue v, SStatic k (Some d) => k = key ∧ ∃ al, serialize heap v 0 = (SBlob d, al) ∧ al ⊆ AL
  | _, _ => False
  end.

Lemma restore_saved AL key b sb m m' : heap_ok heap → cm_ok m → block_saved AL key b sb → key ∉ cm_protected m →
  restore_block env classify compiles AL sb m = inr m' → restored_as AL ∅ key b m'.
Proof.
  intros Hok Hm Hs Hk. destruct b as [v|e], sb as [k [d|]|k e']; try (by destruct Hs); destruct Hs as [-> Hs].
  - destruct Hs as (al & Hs & Hal). by eapply restore_value.
  - subst e'. by apply restore_expr.
Qed.

(** The saved blocks are the unprotected blocks in order. *)
Lemma save_blocks_saved prot blocks al bs al' AL :
  save_blocks heap prot blocks al = inr (bs, al') → dumpable bs = true → al' ⊆ AL →
  al ⊆ AL ∧ Forall2 (λ kb sb, block_saved AL kb.1 kb.2 sb)
    (List.filter (λ kb, negb (bool_decide (kb.1 ∈ prot))) blocks) bs.
Proof.
  revert al bs. induction blocks as [|[key b] blocks IH]; intros al bs; cbn [save_blocks List.filter fst].
  - intros [= <- <-] _ HAL. split; [done|constructor].
  - destruct (bool_decide (key ∈ prot)); cbn [negb]; [apply IH|].
    assert (∀ sb al1 r, match save_blocks heap prot blocks al1 with
        | inl x => inl x | inr (sbs, al'') => inr (sb :: sbs, al'') end = inr (bs, al') →
      dumpable bs = true → al' ⊆ AL → al ⊆ al1 →
      (al1 ⊆ AL → r = true → block_saved AL key b sb) → (dumpable (sb :: []) = true → r = true) →
      al ⊆ AL ∧ Forall2 (λ kb sb, block_saved AL kb.1 kb.2 sb)
        ((key, b) :: List.filter (λ kb, negb (bool_decide (kb.1 ∈ prot))) blocks) bs) as Hstep.
    { intros sb al1 r Hrun Hd HAL Hal Hsb Hr. destruct (save_blocks heap prot blocks al1) as [|[sbs al2]] eqn:Hb; [done|].
      injection Hrun as <- ->. unfold dumpable in *. cbn [forallb] in *. apply andb_true_iff in Hd as [Hd1 Hd2].
      destruct (IH al1 sbs Hb Hd2 HAL) as [H1 H2]. split; [set_solver|]. constructor; [|exact H2].
      apply Hsb; [exact H1|]. apply Hr. by rewrite Hd1. }
    destruct b as [v|e].
    + destruct (serialize heap v 0) as [[d| |[rr p|]] al1] eqn:Hs; try discriminate; intros Hrun Hd HAL.
      * eapply (Hstep _ _ true Hrun Hd HAL); [set_solver| |done].
        intros Hal1 _. split; [done|]. exists al1. split; [done|set_solver].
      * eapply (Hstep _ _ false Hrun Hd HAL); [set_solver|intros _ [=]|intros [=]].
    + intros Hrun Hd HAL. eapply (Hstep _ _ true Hrun Hd HAL); done.
Qed.

(** The JSON text gives the saved blocks back. *)
Lemma block_saved_json AL kbs bs : json_hooks heap → Forall2 (λ kb sb, block_saved AL kb.1 kb.2 sb) kbs bs →
  json_block <$> bs = bs.
Proof.
  intros Hh. induction 1 as [|[key b] sb kbs bs Hsb _ IH]; [done|]. cbn [fmap list_fmap fst snd] in *. f_equal; [|done].
  destruct b as [v|e], sb as [k [d|]|k e']; try done. destruct Hsb as (_ & al & Hs & _).
  cbn [json_block fmap option_fmap option_map]. by rewrite (json_serialize heap v 0 d al Hh Hs).
Qed.

Lemma restore_blocks_saved AL kbs bs m m' : heap_ok heap → cm_ok m →
  Forall2 (λ kb sb, block_saved AL kb.1 kb.2 sb) kbs bs → NoDup kbs.*1 →
  restore_blocks env classify compiles AL bs m = inr m' →
  cm_ok m' ∧ cm_protected m' = cm_protected m ∧ (∀ k, k ∉ kbs.*1 → untouched m m' k) ∧
  ∀ key b, (key, b) ∈ kbs → key ∉ cm_protected m → restored_as AL ∅ key b m'.
Proof.
  intros Hok Hm Hall. revert m Hm. induction Hall as [|[key b] sb kbs bs Hsb Hall IH]; intros m Hm Hnd; cbn [restore_blocks].
  - intros [= <-]. split; [done|]. split; [done|]. split; [intros; apply untouched_refl|]. by intros ?? ?%elem_of_nil.
  - destruct (restore_block env classify compiles AL sb m) as [|m1] eqn:Hb; [done|]. intros Hrun.
    cbn in Hnd. apply NoDup_cons in Hnd as [Hkey Hnd].
    destruct (restore_block_frame AL sb m m1 Hm Hb) as (Hm1 & Hp1 & Hfr).
    assert (sblock_key sb = key) as Hk by (destruct b, sb as [? []|]; simpl in Hsb; naive_solver).
    destruct (IH m1 Hm1 Hnd Hrun) as (Hm' & Hp' & Hun & Hres).
    split; [done|]. split; [congruence|]. split.
    + intros k Hk'. cbn in Hk'. apply not_elem_of_cons in Hk' as [Hne Hk'].
      apply (untouched_trans m m1 m'); [apply Hfr; congruence|by apply Hun].
    + intros key' b' [Heq|Hin]%elem_of_cons Hp.
      * injection Heq as -> ->. apply (restored_as_untouched AL ∅ key b m1 m'); [by apply Hun|].
        by apply (restore_saved AL key b sb m m1).
      * apply Hres; [done|congruence].
Qed.

Lemma elem_of_sorted_set x (X : gset string) : x ∈ sorted_set X ↔ x ∈ X.
Proof. unfold sorted_set. rewrite merge_sort_Permutation. apply elem_of_elements. Qed.

(** Disabling the saved keys of a restored context. *)
Lemma restored_as_disable AL D key b m : restored_as AL ∅ key b m →
  restored_as AL D key b (match sorted_set D with [] => m | keys => disable keys m end).
Proof.
  set (m' := match sorted_set D with [] => m | keys => disable keys m end). intros H.
  assert (cm_blocks m' = cm_blocks m ∧ cm_static m' = cm_static m ∧
    (key ∈ cm_disabled m' ↔ key ∈ D ∨ key ∈ cm_disabled m)) as (Hb & Hs & Hd).
  { pose proof (elem_of_sorted_set key D) as HD. unfold m'. destruct (sorted_set D) as [|k ks].
    - set_solver.
    - destruct (disable_fields (k :: ks) m) as (-> & _ & -> & _). split; [done|]. split; [done|].
      rewrite disable_disabled, elem_of_union, elem_of_list_to_set. by rewrite HD. }
  unfold restored_as, is_static in *. rewrite Hb, Hs. destruct b as [v|e].
  - destruct H as (t & Hc & Ht & Hn). exists t. split; [exact Hc|]. split.
    + intros Hp. destruct (Ht Hp) as (H1 & H2 & H3). split; [done|]. split; [done|]. rewrite Hd, H3. set_solver.
    + intros Hp. destruct (Hn Hp) as [H1 H2]. split; [done|]. apply Hd. by right.
  - destruct H as (H1 & H2 & H3). split; [done|]. split; [done|]. rewrite Hd, H3. set_solver.
Qed.

(** The value an attribute is restored to, if any: its copy. *)
Definition attr_copy (AL : list string) (name : string) (a : attr) : option (tree Cls) :=
  if excluded heap name a then None
  else match (serialize heap (a_value a) 0).1, copy env heap AL MAX_SNAPSHOT_DEPTH [] (a_value a) with
       | SBlob _, Some (inr t) => Some t
       | _, _ => None
       end.

(** The JSON text gives the saved attributes back. *)
Lemma save_attrs_json attrs d al al' : json_hooks heap → dict_wf attrs → save_attrs heap attrs [] al = inr (d, al') →
  map (λ kv, (kv.1, jsonify kv.2)) d = d.
Proof.
  intros Hh Hwf Hs. destruct (save_attrs_spec heap _ _ _ _ _ Hwf (dict_wf_nil (V := pyval)) Hs) as (_ & Hd & _ & Hget).
  apply json_entries, Forall_forall. intros [name b] Hin. cbn [snd].
  apply (dict_get_in _ _ _ Hd) in Hin. rewrite Hget in Hin. cbn [dict_get] in Hin.
  destruct (dict_get name attrs) as [a|]; [|done]. cbn in Hin. unfold saved in Hin.
  destruct (excluded heap name a); [done|].
  destruct (serialize heap (a_value a) 0) as [[b'| |e] al1] eqn:Hb; [|done..]. injection Hin as ->.
  by apply (json_serialize heap (a_value a) 0 b al1).
Qed.

(** C14.  Saving an agent and restoring it into a fresh one, for an agent no
    plain dict of which has a key [__type__] and whose [__snapshot_data__] hooks
    return no tuples: every attribute that serializes gets the copy of its
    value (an attribute that is excluded, that does not serialize, or that its
    class refuses to rebuild keeps the fresh agent's value, and no other
    attribute is lost with it), every other attribute keeps its value; and every
    unprotected context block is back, an expression as the expression, an
    ordinary value as its copy, disabled if it was disabled, but always in the
    dynamic partition; only a block whose value is [None] is gone, and its key
    is disabled. *)
Theorem agent_snapshot_restores a s t t' :
  heap_ok heap → json_hooks heap →
  dict_wf (la_attrs a) → dict_wf (cm_blocks (la_context a)) → cm_ok (ra_context t) →
  save heap a = inr s → restore env classify compiles s t = inr t' →
  (∀ name, dict_get name (ra_attrs t') =
     match dict_get name (la_attrs a) ≫= attr_copy (ss_allowlist s) name with
     | Some v => Some v
     | None => dict_get name (ra_attrs t)
     end) ∧
  (∀ key b, dict_get key (cm_blocks (la_context a)) = Some b →
     key ∉ cm_protected (la_context a) → key ∉ cm_protected (ra_context t) →
     restored_as (ss_allowlist s) (cm_disabled (la_context a)) key b (ra_context t')) ∧
  cm_protected (ra_context t') = cm_protected (ra_context t).
Proof.
  intros Hok Hjson Hattrs Hblocks Ht. unfold save, from_agent, dumps.
  destruct (save_blocks heap _ _ []) as [|[bs al]] eqn:Hsb; [done|].
  destruct (save_attrs heap _ [] al) as [|[d al']] eqn:Hsa; [done|].
  cbn [ss_context ss_version ss_disabled ss_attributes ss_allowlist].
  destruct (dumpable bs) eqn:Hd; [|done]. intros [= <-]. unfold restore.
  cbn [ss_version ss_allowlist ss_context ss_attributes ss_disabled].
  rewrite bool_decide_eq_true_2 by done. cbn [negb].
  destruct (save_attrs_spec heap _ _ _ _ _ Hattrs (dict_wf_nil (V := pyval)) Hsa) as (Hal & Hd_wf & Hals & Hget).
  pose (unprotected k := negb (bool_decide (k ∈ cm_protected (la_context a)))).
  destruct (save_blocks_saved _ _ _ _ _ al' Hsb Hd Hal) as [_ Hsaved].
  rewrite (save_attrs_json _ _ _ _ Hjson Hattrs Hsa), (block_saved_json _ _ _ Hjson Hsaved).
  destruct (restore_blocks _ _ _ al' bs _) as [|m] eqn:Hrb; [done|].
  destruct (restore_attrs env al' d _) as [|attrs] eqn:Hra; [done|]. intros [= <-]. cbn [ra_attrs ra_context].
  pose proof (NoDup_filter_keys unprotected _ Hblocks) as Hnd.
  destruct (restore_blocks_saved al' _ bs _ m Hok Ht Hsaved Hnd Hrb) as (_ & Hp & _ & Hres).
  split; [|split].
  - intros name. rewrite (restore_attrs_spec _ _ _ _ Hd_wf Hra name), Hget. cbn [dict_get].
    destruct (dict_get name (la_attrs a)) as [x|] eqn:Hx; cbn [mbind option_bind]; [|done].
    specialize (Hals name x). unfold saved, attr_copy in *. destruct (excluded heap name x); [done|].
    destruct (serialize heap (a_value x) 0) as [[b| |e] al1] eqn:Hs; cbn [fst snd] in *; [|done..].
    destruct (serialize_encodes env heap _ _ _ al' Hok Hs (Hals b Hx eq_refl)) as [-> _].
    by destruct (deserialize env b al').
  - intros key b Hkey Hp1 Hp2. apply (restored_as_disable al' _ key b m). apply Hres; [|done].
    apply (elem_of_filter_keys unprotected). split; [by apply dict_get_Some_elem|]. unfold unprotected. by rewrite bool_decide_eq_false_2.
  - rewrite <-Hp. destruct (sorted_set _); [done|]. by destruct (disable_fields (s :: l) m) as (_ & -> & _).
Qed.
End Restored.

(** ** Saving succeeds *)

Section SaveTotal.
Context (heap : list pobj) (Hok : heap_ok heap) (Hhooks : hook_free heap).

Lemma save_attrs_total attrs acc al : ∃ r, save_attrs heap attrs acc al = inr r.
Proof.
  revert acc al. induction attrs as [|[n a] attrs IH]; intros acc al; cbn [save_attrs]; [eauto|].
  destruct (excluded heap n a); [apply IH|].
  destruct (serialize heap (a_value a) 0) as [[b| |[r p|]] al1] eqn:Hs; try apply IH.
  by destruct (serialize_no_type_error heap (a_value a) al1).
Qed.

(** One attribute that does not serialize, whatever its error, never
    costs the rest: when no class defines a snapshot hook and the unprotected
    static context blocks serialize, saving succeeds. *)
Theorem agent_save_total a :
  (∀ key v, (key, BValue v) ∈ cm_blocks (la_context a) → key ∉ cm_protected (la_context a) →
     ∃ d al, serialize heap v 0 = (SBlob d, al)) →
  ∃ s, save heap a = inr s ∧ ss_version s = SNAPSHOT_VERSION.
Proof.
  intros Hblocks. unfold save, from_agent, dumps.
  assert (∀ al, ∃ bs al', save_blocks heap (cm_protected (la_context a)) (cm_blocks (la_context a)) al = inr (bs, al') ∧
    dumpable bs = true) as Hsave.
  { revert Hblocks. induction (cm_blocks (la_context a)) as [|[key b] blocks IH]; intros Hblocks al; cbn [save_blocks].
    { by exists [], al. }
    assert (∀ al, ∃ bs al', save_blocks heap (cm_protected (la_context a)) blocks al = inr (bs, al') ∧
      dumpable bs = true) as IH' by (apply IH; intros k v Hin; apply (Hblocks k v); by right).
    destruct (bool_decide _) eqn:Hp; [apply IH'|]. bool_prop. destruct b as [v|e].
    - destruct (Hblocks key v) as (d & al1 & ->); [by left|done|].
      destruct (IH' (al ++ al1)%list) as (bs & al' & -> & Hd). by exists (SStatic key (Some d) :: bs), al'.
    - destruct (IH' al) as (bs & al' & -> & Hd). by exists (SDynamic key e :: bs), al'. }
  destruct (Hsave []) as (bs & al & -> & Hd).
  destruct (save_attrs_total (la_attrs a) [] al) as [[attrs al'] ->]. cbn [ss_context]. rewrite Hd. by eexists.
Qed.
End SaveTotal.

(** A block whose value is [None] is suppressed by the restore. *)
Example none_block_lost :
  let saved := save [] (mk_live (mk_cm [("result", BValue (Prim PNone))] ∅ [] [("result", true)] ∅) []) in
  ∃ s, saved = inr s ∧ ss_disabled s = [] ∧
    restore (Cls := string) demo_classes (λ t, match t with TVal VNone => KNone | _ => KPlain end) (λ _, true) s
      (mk_restored (mk_cm [] ∅ [] [] ∅) []) = inr (mk_restored (mk_cm [] ∅ [] [] {["result"]}) []).
Proof. eexists. split; [vm_compute; reflexivity|]. split; vm_compute; reflexivity. Qed.

(** ** Witnesses

    An agent whose attribute [items] serializes and whose attribute [socket]
    does not; the fresh agent has a protected block of its own. *)
Definition agent_heap : list pobj := (demo_heap ++ [mk_pobj false BUnknown])%list.

Definition demo_agent : live_agent :=
  mk_live
    (mk_cm [("doc", BDynamic "doc(self)"); ("plan", BValue (Prim (PStr "p"))); ("now", BDynamic "now()")]
       {["doc"]} [] [("doc", true); ("plan", true); ("now", false)] {["now"]})
    [("items", mk_attr (Ref 0) false false); ("socket", mk_attr (Ref 5) false false);
     ("_lock", mk_attr (Ref 5) true false)]%string.

Definition fresh_agent : restored_agent (Cls := string) :=
  mk_restored (mk_cm [("doc", BDynamic "doc(self)")] {["doc"]} [] [("doc", true)] ∅)
    [("socket", TVal VNone)]%string.

Definition plain (t : tree string) : kind := match t with TVal VNone => KNone | _ => KPlain end.

Definition demo_saved : snapshot :=
  match save agent_heap demo_agent with inr s => s | inl _ => mk_snapshot 0 [] [] [] [] end.
Definition demo_restored : restored_agent :=
  match restore demo_classes plain (λ _, true) demo_saved fresh_agent with inr t => t | inl _ => fresh_agent end.

Lemma agent_heap_ok : heap_ok agent_heap.
Proof. repeat constructor; apply (bool_decide_unpack _); vm_compute; exact I. Qed.

Lemma agent_heap_json : json_hooks agent_heap.
Proof. repeat constructor. Qed.

Lemma fresh_agent_ok : cm_ok (ra_context fresh_agent).
Proof.
  constructor; [apply (bool_decide_unpack _); vm_compute; exact I..|done|].
  intros k Hk. change (k ∈ ({["doc"%string]} : gset string)) in Hk. apply elem_of_singleton in Hk as ->. by left.
Qed.

Lemma agent_snapshot_restores_witness :
  is_Some (dict_get "items" (ra_attrs demo_restored)) ∧
  dict_get "socket" (ra_attrs demo_restored) = Some (TVal VNone) ∧
  dict_get "plan" (cm_blocks (ra_context demo_restored)) = Some (BValue (TVal (VStr "p"))) ∧
  is_static "plan" (la_context demo_agent) = true ∧ is_static "plan" (ra_context demo_restored) = false ∧
  "now" ∈ cm_disabled (ra_context demo_restored).
Proof.
  destruct (agent_snapshot_restores agent_heap demo_classes plain (λ _, true) demo_agent demo_saved fresh_agent
    demo_restored agent_heap_ok agent_heap_json) as (Ha & Hc & _);
    [apply (bool_decide_unpack _); vm_compute; exact I..|exact fresh_agent_ok|vm_compute; reflexivity
    |vm_compute; reflexivity|].
  pose proof (Ha "items") as Hitems. pose proof (Ha "socket") as Hsocket.
  assert (∀ k, k ≠ "doc"%string → k ∉ ({["doc"%string]} : gset string)) as Hdoc by set_solver.
  assert ("plan" ≠ "doc" ∧ "now" ≠ "doc")%string as [H1 H2] by done.
  pose proof (Hc "plan"%string (BValue (Prim (PStr "p"))) eq_refl (Hdoc _ H1) (Hdoc _ H1)) as Hplan.
  pose proof (Hc "now"%string (BDynamic "now()") eq_refl (Hdoc _ H2) (Hdoc _ H2)) as Hnow.
  split; [|split; [|split; [|split; [|split]]]].
  - rewrite Hitems. vm_compute. eauto.
  - rewrite Hsocket. vm_compute. reflexivity.
  - destruct Hplan as (t & Ht & Hp).
    vm_compute in Ht. injection Ht as <-. apply Hp. reflexivity.
  - vm_compute. reflexivity.
  - destruct Hplan as (t & Ht & Hp).
    vm_compute in Ht. injection Ht as <-. apply Hp. reflexivity.
  - destruct Hnow as (_ & _ & Hd).
    apply Hd. apply (bool_decide_unpack _). vm_compute. exact I.
Defined.

Lemma agent_save_total_witness :
  ∃ s, save agent_heap demo_agent = inr s ∧ ss_version s = SNAPSHOT_VERSION.
Proof.
  apply (agent_save_total agent_heap agent_heap_ok).
  - intros o fqn fields extra data. unfold body_at. do 6 (destruct o as [|o]; [done|]). by destruct o.
  - intros key v. cbn [la_context demo_agent cm_blocks].
    rewrite !elem_of_cons, elem_of_nil. intros [H|[H|[H|[]]]] _; try discriminate H. injection H as _ ->.
    by exists (VStr "p"), [].
Defined.
