(* ===== verification/PromptContext.v ===== *)
(** * Building the prompt: from context blocks and events to resolved blocks

    Models [nooa/runtime/context_builder.py]: the pipeline [build_context] that
    gathers the blocks of the context manager, applies the overrides of the
    strategy, of the decorator and of the current scope, orders the blocks and
    appends the selected events.

    Evaluating an expression runs code of the agent: [resolve_fn] may raise and
    changes a world [W] that is threaded through the phases.  It is taken not to
    touch the context manager while the pipeline reads it. *)

From stdpp Require Import sorting.
From Stdlib Require Import Ascii.
From S2P Require Import Prelude PyStr PyDict PyText Values Events EventBackend EventManager EventQuery.
From S2P Require Import ContextManager.

(** ** Resolved blocks *)

(** [BlockMetadata]. *)
Record metadata := mk_meta {
  md_expr : option string;
  md_tag : option string;
  md_truncated : bool;
  md_user_block : bool;
  md_static : bool;
  md_source_dynamic : bool
}.

(** [ResolvedBlock]; [rb_event] is the event a block stands for. *)
Record rblock := mk_rblock {
  rb_key : string;
  rb_content : text;
  rb_role : role;
  rb_meta : metadata;
  rb_event : option event
}.

(** A block of the system prompt. *)
Definition system_block (key : string) (content : text) (meta : metadata) : rblock :=
  mk_rblock key content SYSTEM meta None.

(** ** Programs that may raise and change the world *)
Definition prog (W A : Type) : Type := W → result (A * W).
Definition p_ret {W A} (a : A) : prog W A := λ w, Ok (a, w).
Definition p_bind {W A B} (p : prog W A) (k : A → prog W B) : prog W B :=
  λ w, result_bind (p w) (λ r, k r.1 r.2).

Notation "'do!' x := p 'in' k" :=
  (p_bind p (λ x, k)) (at level 10, x name, p at level 100, k at level 200) : nooa_scope.
Notation "'do!' ' x := p 'in' k" :=
  (p_bind p (λ y, let x := y in k)) (at level 10, x pattern, p at level 100, k at level 200) : nooa_scope.

Local Open Scope nooa_scope.

(** How a block, an override or an event is accessed. *)
Definition dquote : string := String "034"%char EmptyString.
Definition subscript (object key : string) : string := (object +:+ "[" +:+ dquote +:+ key +:+ dquote +:+ "]")%string.
Definition strategy_expr (key : string) : string := ("strategy." +:+ key)%string.
Definition decorator_expr (key : string) : string := subscript "@strategy.context" key.
Definition scoped_expr (key : string) : string := subscript "self.context" key.

Section PromptContext.
Context {V W : Type} (of_text : string → V) (classify : V → kind).
(** [resolve_fn] on a plain value or on a [DynamicContext]. *)
Context (resolve_fn : string → block V → prog W (option text)).
(** [pformat] with the bounds of [context_block_format]. *)
Context (pformat : V → text).

(** ** Overrides *)

Definition none_text : text := lit "None".

(** The index of the first block with each key. *)
Fixpoint build_index (i : nat) (blocks : list rblock) (index : gmap string nat) : gmap string nat :=
  match blocks with
  | [] => index
  | b :: blocks' =>
      build_index (S i) blocks' (if decide (is_Some (index !! rb_key b)) then index else <[rb_key b := i]> index)
  end.

(** An override of one key, normalised: [None], or where it asks to be placed
    and what is to be resolved. *)
Definition normalised (v : V) : option (option bool * block V) :=
  match classify v with
  | KNone => None
  | KContext (Expr e) prefix => Some (Some prefix, BDynamic e)
  | KContext (Text s) prefix => Some (Some prefix, BValue (of_text s))
  | KDynamic e => Some (None, BDynamic e)
  | KPlain => Some (None, BValue v)
  end.

Section Overrides.
Context (static_expr : string → string) (static_keys : option (gset string)) (disabled : gset string).

(** The partition of the new block. *)
Definition block_static (key : string) (context_prefix existing_static : option bool) (b : block V) : bool :=
  match context_prefix, existing_static with
  | Some p, _ => p
  | None, Some s => s
  | None, None =>
      if match static_keys with Some ks => bool_decide (key ∈ ks) | None => false end then true
      else match b with BDynamic _ => false | BValue _ => true end
  end.

Definition override_block (key : string) (context_prefix existing_static : option bool) (b : block V)
    : prog W rblock :=
  do! resolved := resolve_fn key b in
  let static := block_static key context_prefix existing_static b in
  let expr := match b with BDynamic e => e | BValue _ => static_expr key end in
  p_ret (system_block key (default none_text resolved) (mk_meta (Some expr) None false false static false)).

(** The loop over the overrides: a replacement ([None] removes) for positions of
    [blocks], and the blocks to append. *)
Fixpoint collect (blocks : list rblock) (index : gmap string nat) (overrides : list (string * V))
    (replacements : gmap nat (option rblock)) (appends : list rblock)
    : prog W (gmap nat (option rblock) * list rblock) :=
  match overrides with
  | [] => p_ret (replacements, appends)
  | (key, v) :: overrides' =>
      let removed := match index !! key with Some i => <[i := None]> replacements | None => replacements end in
      if bool_decide (key ∈ disabled) then collect blocks index overrides' removed appends
      else
        match normalised v with
        | None => collect blocks index overrides' removed appends
        | Some (context_prefix, b) =>
            let existing_static := i ← index !! key; md_static ∘ rb_meta <$> blocks !! i in
            do! new_block := override_block key context_prefix existing_static b in
            match index !! key with
            | Some i => collect blocks index overrides' (<[i := Some new_block]> replacements) appends
            | None => collect blocks index overrides' replacements (appends ++ [new_block])
            end
        end
  end.

(** The single pass over the blocks. *)
Fixpoint rebuild (i : nat) (blocks : list rblock) (replacements : gmap nat (option rblock)) : list rblock :=
  match blocks with
  | [] => []
  | b :: blocks' =>
      match replacements !! i with
      | Some (Some b') => b' :: rebuild (S i) blocks' replacements
      | Some None => rebuild (S i) blocks' replacements
      | None => b :: rebuild (S i) blocks' replacements
      end
  end.

(** [_apply_overrides]. *)
Definition apply_overrides (blocks : list rblock) (overrides : dict string V) : prog W (list rblock) :=
  match overrides with
  | [] => p_ret blocks
  | _ =>
      do! r := collect blocks (build_index 0 blocks ∅) overrides ∅ [] in
      p_ret (rebuild 0 blocks r.1 ++ r.2)
  end.
End Overrides.

(** ** The phases *)

(** [_phase_persistent_blocks], from the blocks and the cache so far. *)
Fixpoint persistent_go (m : cm V) (raw : list (string * block V)) (blocks : list rblock)
    (cache : dict string (option text)) : prog W (list rblock * dict string (option text)) :=
  match raw with
  | [] => p_ret (blocks, cache)
  | (key, b) :: raw' =>
      if negb (is_enabled key m) then persistent_go m raw' blocks cache
      else
        let user := bool_decide (key ∉ cm_protected m) in
        let static := is_static key m in
        match b with
        | BDynamic e =>
            do! resolved := resolve_fn key b in
            let meta := mk_meta (Some e) None false user static true in
            persistent_go m raw' (blocks ++ [system_block key (default none_text resolved) meta])
              (dict_set key resolved cache)
        | BValue v =>
            let content := match classify v with KNone => none_text | _ => pformat v end in
            let meta := mk_meta (Some (scoped_expr key)) None false user static false in
            persistent_go m raw' (blocks ++ [system_block key content meta]) cache
        end
  end.
Definition phase_persistent (m : cm V) : prog W (list rblock * dict string (option text)) :=
  persistent_go m (cm_blocks m) [] [].

(** What a strategy contributes; [None] where it has no such method. *)
Record strategy := mk_strategy {
  get_block_overrides : option (dict string V);
  get_static_block_keys : option (gset string);
  get_block_order : option (list string)
}.

(** [_phase_strategy_overrides]. *)
Definition phase_strategy (blocks : list rblock) (st : option strategy) (disabled : gset string)
    : prog W (list rblock) :=
  match st with
  | Some s =>
      match get_block_overrides s with
      | Some overrides => apply_overrides strategy_expr (get_static_block_keys s) disabled blocks overrides
      | None => p_ret blocks
      end
  | None => p_ret blocks
  end.

(** [_phase_decorator_context] and [_phase_scoped_blocks]; no dictionary is an
    empty one. *)
Definition phase_decorator (blocks : list rblock) (ctx : dict string V) (disabled : gset string)
    : prog W (list rblock) := apply_overrides decorator_expr None disabled blocks ctx.
Definition phase_scoped (blocks : list rblock) (ctx : dict string V) (disabled : gset string)
    : prog W (list rblock) := apply_overrides scoped_expr None disabled blocks ctx.

(** ** Order *)

(** [{key: i for i, key in enumerate(order)}]: the last index of a key. *)
Definition key_rank (order : list string) : gmap string nat :=
  list_to_map (reverse (imap (λ i k, (k, i)) order)).

Definition rank_le (x y : nat * rblock) : Prop := x.1 ≤ y.1.
#[export] Instance rank_le_dec x y : Decision (rank_le x y).
Proof. unfold rank_le. apply _. Defined.

(** The blocks with a rank, with it, and the others. *)
Fixpoint partition_ranked (rank : gmap string nat) (blocks : list rblock)
    : list (nat * rblock) * list rblock :=
  match blocks with
  | [] => ([], [])
  | b :: blocks' =>
      let '(ordered, remainder) := partition_ranked rank blocks' in
      match rank !! rb_key b with
      | Some r => ((r, b) :: ordered, remainder)
      | None => (ordered, b :: remainder)
      end
  end.

(** [_reorder_blocks]; [list.sort] is a stable sort. *)
Definition reorder_blocks (blocks : list rblock) (st : option strategy) : list rblock :=
  match st ≫= get_block_order with
  | None => blocks
  | Some order =>
      let '(ordered, remainder) := partition_ranked (key_rank order) blocks in
      (merge_sort rank_le ordered).*2 ++ remainder
  end.
End PromptContext.

(** ** Events *)

Section Events.
Context (event_str class_name : event → string) (re_compile : bool → string → option (string → bool)).
(** [event.is_empty], which a subclass defines. *)
Context (is_empty : event → bool).

(** [runtime or scoped or decorator or agent]. *)
Definition active_query (runtime scoped decorator agent : option event_query) : option event_query :=
  match runtime, scoped, decorator with
  | Some q, _, _ => Some q
  | None, Some q, _ => Some q
  | None, None, Some q => Some q
  | None, None, None => agent
  end.

Definition event_block (e : event) : rblock :=
  let tag := default (ev_id e) (ev_tag e) in
  mk_rblock ("event_" +:+ tag)%string [] (ev_role e)
    (mk_meta (Some (subscript "self.events" tag)) (Some tag) false false false false) (Some e).

(** The event objects that [event_manager.values()] refers to. *)
Definition manager_events `{EventBackend B} (em : manager B) : list event :=
  omap (be_deref (em_backend em)) (values em).

(** [_phase_events]. *)
Definition phase_events `{EventBackend B} (blocks : list rblock) (em : manager B)
    (query : option event_query) (current_call_id : option string) : result (list rblock) :=
  let! es := match query with
             | Some q => apply event_str class_name re_compile q current_call_id (manager_events em)
             | None => Ok (manager_events em)
             end in
  Ok (blocks ++ map event_block (List.filter (λ e, negb (is_empty e)) es)).
End Events.

(** ** The pipeline *)

(** The four event queries, from the strongest. *)
Record queries := mk_queries {
  runtime_query : option event_query;
  scoped_query : option event_query;
  decorator_query : option event_query;
  agent_query : option event_query
}.

Section Pipeline.
Context {V W : Type} (of_text : string → V) (classify : V → kind).
Context (resolve_fn : string → block V → prog W (option text)) (pformat : V → text).
Context (event_str class_name : event → string) (re_compile : bool → string → option (string → bool)).
Context (is_empty : event → bool).

Definition p_lift {A} (r : result A) : prog W A := λ w, result_bind r (λ a, Ok (a, w)).

(** The content phases of [build_context], before the events. *)
Definition content_blocks (m : cm V) (st : option strategy) (decorator_context scoped_context : dict string V)
    : prog W (list rblock * dict string (option text)) :=
  do! r := phase_persistent classify resolve_fn pformat m in
  do! blocks := phase_strategy of_text classify resolve_fn r.1 st (cm_disabled m) in
  do! blocks := phase_decorator of_text classify resolve_fn blocks decorator_context (cm_disabled m) in
  do! blocks := phase_scoped of_text classify resolve_fn blocks scoped_context (cm_disabled m) in
  p_ret (reorder_blocks blocks st, r.2).

(** [build_context]: the blocks and the resolved cache. *)
Definition build_context `{EventBackend B} (m : cm V) (em : manager B) (st : option strategy)
    (decorator_context scoped_context : dict string V) (qs : queries) (current_call_id : option string)
    : prog W (list rblock * dict string (option text)) :=
  do! r := content_blocks m st decorator_context scoped_context in
  let query := active_query (runtime_query qs) (scoped_query qs) (decorator_query qs) (agent_query qs) in
  do! blocks := p_lift (phase_events event_str class_name re_compile is_empty r.1 em query current_call_id) in
  p_ret (blocks, r.2).
End Pipeline.
