(* ===== verification/PromptRuns.v ===== *)
(** * What the prompt pipeline guarantees

    The single pass over the overrides is the application of one override
    after the other; the blocks of the result and where each comes from; and
    what the context manager reads after the resolved values are stored. *)

From stdpp Require Import sorting.
From S2P Require Import Prelude PyStr PyDict PyText Values Events EventBackend EventManager EventQuery.
From S2P Require Import ContextManager ContextRuns PromptContext.

Local Open Scope nooa_scope.

Lemma p_bind_ok {W A B} (p : prog W A) (k : A → prog W B) w r :
  p_bind p k w = Ok r → ∃ a w1, p w = Ok (a, w1) ∧ k a w1 = Ok r.
Proof. unfold p_bind. destruct (p w) as [[a w1]|]; [eauto|done]. Qed.

Lemma p_bind_ret {W A B} (a : A) (k : A → prog W B) w : p_bind (p_ret a) k w = k a w.
Proof. done. Qed.

(** Equality of two programs under the same continuation. *)
Lemma p_bind_ext {W A B} (p : prog W A) (k k' : A → prog W B) w :
  (∀ a w', k a w' = k' a w') → p_bind p k w = p_bind p k' w.
Proof. intros H. unfold p_bind. destruct (p w) as [[a w1]|]; simpl; auto. Qed.

Lemma p_bind_assoc {W A B C} (p : prog W A) (k : A → prog W B) (h : B → prog W C) w :
  p_bind (p_bind p k) h w = p_bind p (λ a, p_bind (k a) h) w.
Proof. unfold p_bind. destruct (p w) as [[a w1]|]; done. Qed.

(** ** One override at a time *)

Definition keys_of (blocks : list rblock) : list string := rb_key <$> blocks.

Definition block_of (key : string) (blocks : list rblock) : option rblock :=
  List.find (λ b, bool_decide (rb_key b = key)) blocks.

Definition without (key : string) (blocks : list rblock) : list rblock :=
  List.filter (λ b, negb (bool_decide (rb_key b = key))) blocks.

Definition replace (key : string) (new : rblock) (blocks : list rblock) : list rblock :=
  (λ b, if decide (rb_key b = key) then new else b) <$> blocks.

(** ** Replacements by key *)

(** The blocks after the replacements of [R]. *)
Definition replaced (R : gmap string (option rblock)) (blocks : list rblock) : list rblock :=
  omap (λ b, default (Some b) (R !! rb_key b)) blocks.

(** A replacement keeps the key. *)
Definition keyed (R : gmap string (option rblock)) : Prop := ∀ k b, R !! k = Some (Some b) → rb_key b = k.

Lemma rebuild_replaced i blocks reps R :
  (∀ j b, blocks !! j = Some b → reps !! (i + j) = R !! rb_key b) → rebuild i blocks reps = replaced R blocks.
Proof.
  revert i. induction blocks as [|b blocks IH]; intros i H; [done|]. cbn [rebuild replaced omap list_omap].
  pose proof (H 0 b eq_refl) as H0. rewrite Nat.add_0_r in H0. rewrite H0.
  assert (rebuild (S i) blocks reps = replaced R blocks) as ->.
  { apply IH. intros j b' Hj. rewrite <-(H (S j) b' Hj). f_equal. lia. }
  destruct (R !! rb_key b) as [[b'|]|]; done.
Qed.

Lemma keys_replaced_sub R blocks k : keyed R → k ∈ keys_of (replaced R blocks) → k ∈ keys_of blocks.
Proof.
  intros HR. unfold keys_of, replaced. rewrite !list_elem_of_fmap. intros (b & -> & Hb).
  apply list_elem_of_omap in Hb as (b0 & Hin & Hb). exists b0. split; [|done].
  destruct (R !! rb_key b0) as [[b'|]|] eqn:HRb; simplify_eq/=; [by apply HR|done].
Qed.

Lemma replaced_without R blocks k : keyed R → R !! k = None →
  without k (replaced R blocks) = replaced (<[k := None]> R) blocks.
Proof.
  intros HR Hk. induction blocks as [|b blocks IH]; [done|]. unfold replaced in *. cbn [omap list_omap].
  destruct (decide (rb_key b = k)) as [Heq|Hne].
  - rewrite Heq, Hk, lookup_insert_eq. cbn. rewrite bool_decide_eq_true_2 by done. cbn. exact IH.
  - rewrite lookup_insert_ne by done. destruct (R !! rb_key b) as [[b'|]|] eqn:HRb; cbn; [| done|].
    + rewrite (HR _ _ HRb). rewrite bool_decide_eq_false_2 by done. cbn. by f_equal.
    + rewrite bool_decide_eq_false_2 by done. cbn. by f_equal.
Qed.

Lemma replaced_replace R blocks k new : keyed R → R !! k = None → rb_key new = k →
  replace k new (replaced R blocks) = replaced (<[k := Some new]> R) blocks.
Proof.
  intros HR Hk Hn. induction blocks as [|b blocks IH]; [done|]. unfold replaced in *. cbn [omap list_omap].
  destruct (decide (rb_key b = k)) as [Heq|Hne].
  - rewrite Heq, Hk, lookup_insert_eq. cbn. rewrite decide_True by done. by f_equal.
  - rewrite lookup_insert_ne by done. destruct (R !! rb_key b) as [[b'|]|] eqn:HRb; cbn; [|done|].
    + rewrite (HR _ _ HRb), decide_False by done. by f_equal.
    + rewrite decide_False by done. by f_equal.
Qed.

Lemma block_of_replaced R blocks k : keyed R → R !! k = None → block_of k (replaced R blocks) = block_of k blocks.
Proof.
  intros HR Hk. induction blocks as [|b blocks IH]; [done|]. unfold replaced, block_of in *. cbn [omap list_omap List.find].
  destruct (decide (rb_key b = k)) as [Heq|Hne].
  - rewrite Heq, Hk. cbn. by rewrite Heq, bool_decide_eq_true_2.
  - rewrite (bool_decide_eq_false_2 (rb_key b = k)) by done.
    destruct (R !! rb_key b) as [[b'|]|] eqn:HRb; cbn; [|done|].
    + rewrite (HR _ _ HRb). by rewrite (bool_decide_eq_false_2 (rb_key b = k)).
    + by rewrite (bool_decide_eq_false_2 (rb_key b = k)).
Qed.

Lemma block_of_app k l1 l2 :
  block_of k (l1 ++ l2) = match block_of k l1 with Some b => Some b | None => block_of k l2 end.
Proof. unfold block_of. induction l1 as [|b l1 IH]; cbn; [done|]. by destruct (bool_decide _). Qed.

Lemma block_of_None k l : block_of k l = None ↔ k ∉ keys_of l.
Proof.
  unfold block_of, keys_of. induction l as [|b l IH]; cbn; [split; [intros _; apply not_elem_of_nil|done]|].
  rewrite not_elem_of_cons, <-IH. destruct (bool_decide _) eqn:Hb; bool_prop; [|naive_solver].
  split; [done|]. by intros [[] _].
Qed.

Lemma block_of_Some k l b : block_of k l = Some b → b ∈ l ∧ rb_key b = k.
Proof. intros [Hin Hb]%List.find_some. bool_prop. by rewrite list_elem_of_In. Qed.

Lemma without_app k l1 l2 : without k (l1 ++ l2) = without k l1 ++ without k l2.
Proof. apply List.filter_app. Qed.

Lemma without_absent k l : k ∉ keys_of l → without k l = l.
Proof.
  unfold without, keys_of. induction l as [|b l IH]; [done|]. cbn. intros [Hne Hin]%not_elem_of_cons.
  rewrite bool_decide_eq_false_2 by done. cbn. by rewrite IH.
Qed.

Lemma replace_app k new l1 l2 : replace k new (l1 ++ l2) = replace k new l1 ++ replace k new l2.
Proof. apply fmap_app. Qed.

Lemma replace_absent k new l : k ∉ keys_of l → replace k new l = l.
Proof.
  unfold replace, keys_of. induction l as [|b l IH]; [done|]. cbn. intros [Hne Hin]%not_elem_of_cons.
  rewrite decide_False by done. by rewrite IH.
Qed.

(** ** The index *)

Lemma build_index_lookup i blocks index k :
  build_index i blocks index !! k =
  match index !! k with
  | Some j => Some j
  | None => Nat.add i ∘ fst <$> list_find (λ b, rb_key b = k) blocks
  end.
Proof.
  revert i index. induction blocks as [|b blocks IH]; intros i index; cbn [build_index list_find].
  { by destruct (index !! k). }
  rewrite IH. destruct (decide (rb_key b = k)) as [Heq|Hne].
  - subst k. cbn. destruct (index !! rb_key b) as [j|] eqn:Hj.
    + rewrite decide_True by eauto. by rewrite Hj.
    + rewrite decide_False by (intros [? ?]; congruence). rewrite lookup_insert_eq. by rewrite Nat.add_0_r.
  - assert ((if decide (is_Some (index !! rb_key b)) then index else <[rb_key b := i]> index) !! k = index !! k) as ->
      by (destruct (decide _); [done|by rewrite lookup_insert_ne]).
    destruct (index !! k); [done|]. destruct (list_find _ blocks) as [[n x]|]; cbn; [|done]. f_equal. lia.
Qed.

Lemma index_Some blocks k i : build_index 0 blocks ∅ !! k = Some i → ∃ b, blocks !! i = Some b ∧ rb_key b = k.
Proof.
  rewrite build_index_lookup, lookup_empty. destruct (list_find _ _) as [[n b]|] eqn:Hf; [|done].
  intros [= <-]. apply list_find_Some in Hf as (Hn & Hb & _). by exists b.
Qed.

Lemma index_None blocks k : build_index 0 blocks ∅ !! k = None → k ∉ keys_of blocks.
Proof.
  rewrite build_index_lookup, lookup_empty. destruct (list_find _ _) as [[n b]|] eqn:Hf; [done|]. intros _.
  apply list_find_None in Hf. unfold keys_of. intros (b & -> & Hin)%list_elem_of_fmap.
  rewrite Forall_forall in Hf. by apply (Hf b Hin).
Qed.

Lemma index_block_of blocks k : NoDup (keys_of blocks) →
  build_index 0 blocks ∅ !! k ≫= (λ i, blocks !! i) = block_of k blocks.
Proof.
  intros Hnd. destruct (build_index 0 blocks ∅ !! k) as [i|] eqn:Hi; cbn.
  - apply index_Some in Hi as (b & Hb & Hk). rewrite Hb. symmetry.
    destruct (block_of k blocks) as [b'|] eqn:Hb'.
    + apply block_of_Some in Hb' as [(j & Hj)%list_elem_of_lookup_1 Hk'].
      assert (keys_of blocks !! i = Some k) as H1 by (unfold keys_of; rewrite list_lookup_fmap, Hb; cbn; congruence).
      assert (keys_of blocks !! j = Some k) as H2 by (unfold keys_of; rewrite list_lookup_fmap, Hj; cbn; congruence).
      pose proof (NoDup_lookup _ _ _ _ Hnd H1 H2). congruence.
    + apply block_of_None in Hb'. destruct Hb'. unfold keys_of. rewrite <-Hk. apply list_elem_of_fmap_2.
      by eapply list_elem_of_lookup_2.
  - symmetry. apply block_of_None. by apply index_None.
Qed.

(** ** Removing and replacing *)

Lemma keys_without k l : keys_of (without k l) = base.filter (λ x, x ≠ k) (keys_of l).
Proof.
  unfold keys_of, without. induction l as [|b l IH]; [done|]. cbn [List.filter]. rewrite fmap_cons.
  destruct (decide (rb_key b = k)) as [Heq|Hne].
  - rewrite bool_decide_eq_true_2 by done. rewrite filter_cons_False by naive_solver. exact IH.
  - rewrite bool_decide_eq_false_2 by done. rewrite filter_cons_True by done. cbn [negb]. rewrite fmap_cons. by f_equal.
Qed.

Lemma block_of_without k k' l : block_of k' (without k l) = if decide (k' = k) then None else block_of k' l.
Proof.
  unfold block_of, without. induction l as [|b l IH]; cbn; [by destruct (decide _)|].
  destruct (decide (rb_key b = k)) as [Heq|Hne].
  - rewrite (bool_decide_eq_true_2 (rb_key b = k)) by done. cbn. rewrite IH. destruct (decide (k' = k)) as [|Hk]; [done|].
    rewrite bool_decide_eq_false_2 by congruence. done.
  - rewrite (bool_decide_eq_false_2 (rb_key b = k)) by done. cbn. rewrite IH.
    destruct (decide (rb_key b = k')) as [Heq'|Hne'].
    + rewrite bool_decide_eq_true_2 by done. by rewrite decide_False by congruence.
    + rewrite bool_decide_eq_false_2 by done. done.
Qed.

Lemma keys_replace k new l : rb_key new = k → keys_of (replace k new l) = keys_of l.
Proof.
  intros Hn. unfold keys_of, replace. rewrite <-list_fmap_compose. apply list_fmap_ext. intros _ b _. cbn.
  destruct (decide _); congruence.
Qed.

Lemma block_of_replace k k' new l : rb_key new = k →
  block_of k' (replace k new l) =
  if decide (k' = k) then match block_of k l with Some _ => Some new | None => None end else block_of k' l.
Proof.
  intros Hn. unfold block_of, replace. induction l as [|b l IH]; cbn; [by destruct (decide _)|].
  destruct (decide (rb_key b = k)) as [Heq|Hne].
  - rewrite (bool_decide_eq_true_2 (rb_key b = k)) by done. rewrite IH. destruct (decide (k' = k)) as [->|Hk].
    + by rewrite bool_decide_eq_true_2.
    + by rewrite !bool_decide_eq_false_2 by congruence.
  - rewrite (bool_decide_eq_false_2 (rb_key b = k)) by done. rewrite IH. destruct (decide (k' = k)) as [->|Hk]; [|done].
    by rewrite bool_decide_eq_false_2.
Qed.

Section Overrides.
Context {V W : Type} (of_text : string → V) (classify : V → kind).
Context (resolve_fn : string → block V → prog W (option text)).
Context (static_expr : string → string) (static_keys : option (gset string)) (disabled : gset string).

Local Abbreviation collect := (collect of_text classify resolve_fn static_expr static_keys disabled).
Local Abbreviation apply_overrides := (apply_overrides of_text classify resolve_fn static_expr static_keys disabled).
Local Abbreviation override_block := (override_block resolve_fn static_expr static_keys).

(** The reference: look the key up, then remove, replace or append. *)
Definition override_one (blocks : list rblock) (key : string) (v : V) : prog W (list rblock) :=
  if bool_decide (key ∈ disabled) then p_ret (without key blocks)
  else
    match normalised of_text classify v with
    | None => p_ret (without key blocks)
    | Some (context_prefix, b) =>
        do! new := override_block key context_prefix (md_static ∘ rb_meta <$> block_of key blocks) b in
        p_ret (match block_of key blocks with
               | Some _ => replace key new blocks
               | None => blocks ++ [new]
               end)
    end.

Fixpoint override_all (blocks : list rblock) (overrides : list (string * V)) : prog W (list rblock) :=
  match overrides with
  | [] => p_ret blocks
  | (key, v) :: overrides' => do! blocks' := override_one blocks key v in override_all blocks' overrides'
  end.

(** ** The single pass *)

Lemma override_block_key key p ex b w new w' : override_block key p ex b w = Ok (new, w') → rb_key new = key.
Proof.
  unfold PromptContext.override_block. intros (r & w1 & _ & H)%p_bind_ok. cbv zeta in H. by injection H as <- _.
Qed.

Section Pass.
Context (blocks : list rblock) (Hnd : NoDup (keys_of blocks)).
Local Abbreviation index := (build_index 0 blocks ∅).

Definition follows (reps : gmap nat (option rblock)) (R : gmap string (option rblock)) : Prop :=
  ∀ j b, blocks !! j = Some b → reps !! j = R !! rb_key b.

Lemma follows_insert reps R key i x : follows reps R → index !! key = Some i →
  follows (<[i := x]> reps) (<[key := x]> R).
Proof.
  intros H Hi j b Hj. apply index_Some in Hi as (b0 & Hb0 & Hk).
  destruct (decide (j = i)) as [->|Hne].
  - assert (b = b0) as -> by congruence. by rewrite Hk, !lookup_insert_eq.
  - rewrite lookup_insert_ne by done. rewrite lookup_insert_ne; [by apply H|]. intros Heq. apply Hne.
    apply (NoDup_lookup (keys_of blocks) j i key Hnd); unfold keys_of; rewrite list_lookup_fmap.
    + rewrite Hj. cbn. congruence.
    + rewrite Hb0. cbn. congruence.
Qed.

Lemma follows_absent reps R key x : follows reps R → index !! key = None → follows reps (<[key := x]> R).
Proof.
  intros H Hi j b Hj. rewrite lookup_insert_ne; [by apply H|]. intros ->. apply index_None in Hi. apply Hi.
  apply list_elem_of_fmap_2. by eapply list_elem_of_lookup_2.
Qed.

Lemma keyed_insert R key x : keyed R → match x with Some b => rb_key b = key | None => True end →
  keyed (<[key := x]> R).
Proof. intros HR Hx k b. rewrite lookup_insert_Some. intros [[-> ->]|[_ ?]]; [done|by apply HR]. Qed.

Lemma collect_pass overrides reps R apps w :
  follows reps R → keyed R → NoDup overrides.*1 →
  (∀ k, k ∈ overrides.*1 → R !! k = None ∧ k ∉ keys_of apps) →
  p_bind (collect blocks index overrides reps apps) (λ r, p_ret (rebuild 0 blocks r.1 ++ r.2)) w =
  override_all (replaced R blocks ++ apps) overrides w.
Proof.
  revert reps R apps w. induction overrides as [|[key v] overrides IH]; intros reps R apps w Hf HR Hov Hfresh.
  { cbn. unfold p_bind, p_ret. cbn. by rewrite (rebuild_replaced 0 blocks reps R). }
  cbn in Hov. apply NoDup_cons in Hov as [Hkey Hov]. destruct (Hfresh key) as [HRk Happs]; [by left|].
  assert (∀ x, ∀ k, k ∈ overrides.*1 → <[key := x]> R !! k = None ∧ k ∉ keys_of apps) as Hfresh'.
  { intros x k Hk. rewrite lookup_insert_ne by (by intros ->). apply Hfresh. by right. }
  assert (∀ w, p_bind (collect blocks index overrides
      match index !! key with Some i => <[i:=None]> reps | None => reps end apps)
      (λ r, p_ret (rebuild 0 blocks r.1 ++ r.2)) w =
    override_all (without key (replaced R blocks ++ apps)) overrides w) as Hrem.
  { intros w0. rewrite without_app, replaced_without, (without_absent key apps) by done.
    apply IH; [|by apply keyed_insert|done|apply Hfresh'].
    destruct (index !! key) eqn:Hi; [by apply follows_insert|by apply follows_absent]. }
  cbn [PromptContext.collect override_all]. unfold override_one. cbv zeta.
  destruct (bool_decide (key ∈ disabled)); [apply Hrem|].
  destruct (normalised of_text classify v) as [[p b]|]; [|apply Hrem].
  rewrite !p_bind_assoc.
  assert ((i ← index !! key; md_static ∘ rb_meta <$> blocks !! i) =
    md_static ∘ rb_meta <$> block_of key (replaced R blocks ++ apps)) as ->.
  { rewrite block_of_app, block_of_replaced, (proj2 (block_of_None key apps)), <-index_block_of by done.
    destruct (index !! key) as [i|]; cbn; [|done]. by destruct (blocks !! i). }
  unfold p_bind at 1 3. destruct (override_block _ _ _ _ w) as [[new w1]|] eqn:Hnew; [|done].
  cbn [result_bind fst snd]. apply override_block_key in Hnew. rewrite p_bind_ret.
  rewrite block_of_app, block_of_replaced, (proj2 (block_of_None key apps)), <-index_block_of by done.
  destruct (index !! key) as [i|] eqn:Hi.
  - pose proof Hi as (b0 & Hb0 & _)%index_Some. cbn. rewrite Hb0.
    rewrite replace_app, replaced_replace, (replace_absent key new apps) by done.
    apply IH; [by apply follows_insert|by apply keyed_insert|done|apply Hfresh'].
  - cbn. rewrite <-app_assoc. apply IH; [done|done|done|].
    intros k Hk. destruct (Hfresh k) as [H1 H2]; [by right|]. split; [done|].
    unfold keys_of. rewrite fmap_app, elem_of_app. cbn. rewrite elem_of_cons, elem_of_nil, Hnew.
    intros [?|[->|[]]]; done.
Qed.
End Pass.

Lemma override_all_eq blocks overrides w : NoDup (keys_of blocks) → dict_wf overrides →
  apply_overrides blocks overrides w = override_all blocks overrides w.
Proof.
  intros Hnd Hov. pose proof (collect_pass blocks Hnd overrides ∅ ∅ [] w) as H.
  assert (replaced ∅ blocks = blocks) as Hr.
  { unfold replaced. clear. induction blocks as [|b l IH]; [done|]. cbn. by f_equal. }
  rewrite Hr, app_nil_r in H. destruct overrides as [|o overrides]; [done|]. apply H.
  - intros j b _. by rewrite !lookup_empty.
  - intros k b. by rewrite lookup_empty.
  - exact Hov.
  - intros k _. rewrite lookup_empty. split; [done|apply not_elem_of_nil].
Qed.

(** The block that an override of [key] with [v] leaves there. *)
Definition overridden (key : string) (v : V) (ob : option rblock) : Prop :=
  if decide (key ∈ disabled) then ob = None
  else
    match normalised of_text classify v with
    | None => ob = None
    | Some (p, b) => ∃ new existing w1 w2, ob = Some new ∧ override_block key p existing b w1 = Ok (new, w2)
    end.

Lemma override_one_spec blocks key v w blocks' w' : NoDup (keys_of blocks) →
  override_one blocks key v w = Ok (blocks', w') →
  NoDup (keys_of blocks') ∧ overridden key v (block_of key blocks') ∧
  ∀ k, k ≠ key → block_of k blocks' = block_of k blocks.
Proof.
  intros Hnd. unfold override_one, overridden.
  assert (NoDup (keys_of (without key blocks)) ∧ block_of key (without key blocks) = None ∧
    ∀ k, k ≠ key → block_of k (without key blocks) = block_of k blocks) as (Hw1 & Hw2 & Hw3).
  { rewrite keys_without. split; [by apply NoDup_filter|]. split; [by rewrite block_of_without, decide_True|].
    intros k Hk. by rewrite block_of_without, decide_False. }
  destruct (decide (key ∈ disabled)) as [Hd|Hd].
  { rewrite bool_decide_eq_true_2 by done. intros [= <- _]. done. }
  rewrite bool_decide_eq_false_2 by done.
  destruct (normalised of_text classify v) as [[p b]|]; [|intros [= <- _]; done].
  intros (new & w1 & Hnew & H)%p_bind_ok. pose proof (override_block_key _ _ _ _ _ _ _ Hnew) as Hk.
  injection H as <- _. destruct (block_of key blocks) as [b0|] eqn:Hb0.
  - rewrite keys_replace by done. split; [done|]. split.
    + rewrite block_of_replace, decide_True, Hb0 by done. by exists new, (Some (md_static (rb_meta b0))), w, w1.
    + intros k Hne. by rewrite block_of_replace, decide_False.
  - pose proof (proj1 (block_of_None key blocks) Hb0) as Hin. split; [|split].
    + unfold keys_of. rewrite fmap_app. apply NoDup_app. split; [done|]. split; [|apply NoDup_singleton].
      cbn. intros x Hx. rewrite list_elem_of_singleton. intros ->. apply Hin. rewrite <-Hk. exact Hx.
    + rewrite block_of_app, Hb0. cbn. rewrite bool_decide_eq_true_2 by done. by exists new, None, w, w1.
    + intros k Hne. rewrite block_of_app. destruct (block_of k blocks); [done|]. cbn.
      by rewrite bool_decide_eq_false_2 by congruence.
Qed.

Lemma override_all_spec blocks overrides w blocks' w' : NoDup (keys_of blocks) → dict_wf overrides →
  override_all blocks overrides w = Ok (blocks', w') →
  NoDup (keys_of blocks') ∧ ∀ key,
    match dict_get key overrides with
    | Some v => overridden key v (block_of key blocks')
    | None => block_of key blocks' = block_of key blocks
    end.
Proof.
  unfold dict_wf. revert blocks w. induction overrides as [|[key v] overrides IH]; intros blocks w Hnd Hov.
  { intros [= <- _]. done. }
  cbn in Hov. apply NoDup_cons in Hov as [Hkey Hov]. intros (b1 & w1 & H1 & H2)%p_bind_ok.
  destruct (override_one_spec _ _ _ _ _ _ Hnd H1) as (Hnd1 & Hsh & Hfr). destruct (IH _ _ Hnd1 Hov H2) as [Hnd' Hspec].
  split; [done|]. intros k. specialize (Hspec k). cbn [dict_get]. destruct (decide (k = key)) as [->|Hne].
  - assert (dict_get key overrides = None) as Hn by (by apply dict_get_None). rewrite Hn in Hspec. by rewrite Hspec.
  - destruct (dict_get k overrides); [done|]. rewrite Hspec. by apply Hfr.
Qed.

(** The indexed single pass over the overrides, O(n + k), is the
    application of one override after the other, each removing, replacing in
    place or appending its block: same blocks, same evaluations in the same
    order, same exception. *)
Theorem overrides_one_by_one blocks overrides w : NoDup (keys_of blocks) → dict_wf overrides →
  apply_overrides blocks overrides w = override_all blocks overrides w.
Proof. apply override_all_eq. Qed.
End Overrides.

(** ** The blocks of the prompt *)

Lemma block_of_perm k l l' : NoDup (keys_of l) → l ≡ₚ l' → block_of k l = block_of k l'.
Proof.
  intros Hnd Hp. assert (∀ b, block_of k l = Some b → block_of k l' = Some b) as H1.
  { intros b Hb. apply block_of_Some in Hb as [Hin Hk]. destruct (block_of k l') as [b'|] eqn:Hb'.
    - apply block_of_Some in Hb' as [Hin' Hk']. rewrite <-Hp in Hin'.
      apply list_elem_of_lookup in Hin as [i Hi], Hin' as [j Hj].
      assert (i = j) as ->; [|congruence].
      apply (NoDup_lookup (keys_of l) i j k Hnd); unfold keys_of; rewrite list_lookup_fmap;
        [rewrite Hi|rewrite Hj]; cbn; congruence.
    - apply block_of_None in Hb'. destruct Hb'. unfold keys_of. rewrite <-Hp, <-Hk. by apply list_elem_of_fmap_2. }
  destruct (block_of k l) as [b|] eqn:Hb; [symmetry; by apply H1|].
  apply block_of_None in Hb. symmetry. apply block_of_None. unfold keys_of in *. by rewrite <-Hp.
Qed.

Lemma partition_ranked_perm rank blocks o r : partition_ranked rank blocks = (o, r) →
  o.*2 ++ r ≡ₚ blocks ∧ r = List.filter (λ b, bool_decide (rank !! rb_key b = None)) blocks ∧
  ∀ i b, (i, b) ∈ o → rank !! rb_key b = Some i.
Proof.
  revert o r. induction blocks as [|b blocks IH]; intros o r; cbn [partition_ranked].
  { intros [= <- <-]. split; [done|]. split; [done|]. by intros ?? ?%elem_of_nil. }
  destruct (partition_ranked rank blocks) as [o' r'] eqn:Hp. destruct (IH o' r' eq_refl) as (H1 & H2 & H3).
  destruct (rank !! rb_key b) as [i|] eqn:Hr; intros [= <- <-]; cbn [List.filter]; rewrite Hr.
  - rewrite bool_decide_eq_false_2 by done. split; [by rewrite fmap_cons; cbn; rewrite H1|]. split; [done|].
    intros j x [[= -> ->]|Hin]%elem_of_cons; [done|by apply H3].
  - rewrite bool_decide_eq_true_2 by done. split; [by rewrite <-Permutation_middle, H1|]. split; [by f_equal|done].
Qed.

(** What [_reorder_blocks] does: the listed blocks by rank, then the others as
    they were. *)
Lemma reorder_blocks_spec {V} (blocks : list rblock) (st : option (strategy (V := V))) order :
  st ≫= get_block_order = Some order →
  ∃ listed, reorder_blocks blocks st =
      listed.*2 ++ List.filter (λ b, bool_decide (key_rank order !! rb_key b = None)) blocks ∧
    reorder_blocks blocks st ≡ₚ blocks ∧ Sorted (λ x y, x.1 ≤ y.1) listed ∧
    ∀ i b, (i, b) ∈ listed → key_rank order !! rb_key b = Some i.
Proof.
  intros Ho. unfold reorder_blocks. rewrite Ho. destruct (partition_ranked (key_rank order) blocks) as [o r] eqn:Hp.
  destruct (partition_ranked_perm _ _ _ _ Hp) as (H1 & -> & H3). exists (merge_sort rank_le o).
  split; [done|]. split; [by rewrite merge_sort_Permutation|]. split.
  - apply Sorted_merge_sort. intros [i x] [j y]. unfold rank_le. simpl. lia.
  - intros i b Hin. apply H3. by rewrite merge_sort_Permutation in Hin.
Qed.

Lemma reorder_perm {V} (blocks : list rblock) (st : option (strategy (V := V))) : reorder_blocks blocks st ≡ₚ blocks.
Proof.
  destruct (st ≫= get_block_order) as [order|] eqn:Ho.
  - by destruct (reorder_blocks_spec blocks st order Ho) as (l & _ & Hp & _).
  - unfold reorder_blocks. by rewrite Ho.
Qed.

Section Content.
Context {V W : Type} (of_text : string → V) (classify : V → kind).
Context (resolve_fn : string → block V → prog W (option text)) (pformat : V → text).

(** The block of a key of the context manager, and what the cache gets. *)
Definition persistent (m : cm V) (cache : dict string (option text)) (key : string) (b : block V)
    (ob : option rblock) : Prop :=
  let user := bool_decide (key ∉ cm_protected m) in
  match b with
  | BDynamic e => ∃ r w1 w2, resolve_fn key b w1 = Ok (r, w2) ∧ dict_get key cache = Some r ∧
      ob = Some (system_block key (default none_text r) (mk_meta (Some e) None false user (is_static key m) true))
  | BValue v => ob = Some (system_block key (match classify v with KNone => none_text | _ => pformat v end)
      (mk_meta (Some (scoped_expr key)) None false user (is_static key m) false))
  end.

Lemma persistent_go_spec m raw blocks cache w blocks' cache' w' : NoDup raw.*1 →
  persistent_go classify resolve_fn pformat m raw blocks cache w = Ok ((blocks', cache'), w') →
  (∀ k, k ∉ raw.*1 → dict_get k cache' = dict_get k cache) ∧
  ∃ new, blocks' = blocks ++ new ∧ NoDup (keys_of new) ∧
    (∀ k, k ∈ keys_of new → k ∈ raw.*1 ∧ k ∉ cm_disabled m) ∧
    (∀ key b, (key, b) ∈ raw → key ∉ cm_disabled m → persistent m cache' key b (block_of key new)).
Proof.
  revert blocks cache w. induction raw as [|[key b] raw IH]; intros blocks cache w Hnd; cbn [persistent_go].
  { intros [= <- <- _]. split; [done|]. exists []. rewrite app_nil_r. split; [done|]. split; [constructor|].
    split; [intros k Hk; by apply elem_of_nil in Hk|]. by intros ?? ?%elem_of_nil. }
  cbn in Hnd. apply NoDup_cons in Hnd as [Hkey Hnd].
  assert (∀ nb cache1 w1, rb_key nb = key → (∀ k, k ≠ key → dict_get k cache1 = dict_get k cache) →
    (∀ c, dict_get key c = dict_get key cache1 → persistent m c key b (Some nb)) → key ∉ cm_disabled m →
    persistent_go classify resolve_fn pformat m raw (blocks ++ [nb]) cache1 w1 = Ok ((blocks', cache'), w') →
    (∀ k, k ∉ key :: raw.*1 → dict_get k cache' = dict_get k cache) ∧
    ∃ new, blocks' = blocks ++ new ∧ NoDup (keys_of new) ∧
      (∀ k, k ∈ keys_of new → k ∈ key :: raw.*1 ∧ k ∉ cm_disabled m) ∧
      (∀ key' b', (key', b') ∈ (key, b) :: raw → key' ∉ cm_disabled m →
         persistent m cache' key' b' (block_of key' new))) as Hstep.
  { intros nb cache1 w1 Hnb Hc Hper Hen Hrun. destruct (IH _ _ _ Hnd Hrun) as (Hfr & new & -> & Hnew & Hin & Hall).
    split. { intros k [Hne Hk]%not_elem_of_cons. rewrite Hfr by done. by apply Hc. }
    exists (nb :: new). split; [by rewrite <-app_assoc|]. split; [|split].
    - cbn. constructor; [|done]. rewrite Hnb. by intros [? _]%Hin.
    - intros k [->|Hk]%elem_of_cons; [rewrite Hnb; split; [by left|done]|].
      destruct (Hin k Hk) as [H1 H2]. split; [by right|done].
    - intros key' b' [[= -> ->]|Hin']%elem_of_cons Hd; unfold block_of; cbn [List.find]; rewrite Hnb.
      + rewrite bool_decide_eq_true_2 by done. apply Hper. by apply Hfr.
      + rewrite bool_decide_eq_false_2; [by apply Hall|]. intros ->. apply Hkey. by apply (list_elem_of_fmap_2 fst _ (key', b')). }
  unfold is_enabled. destruct (bool_decide (key ∉ cm_disabled m)) eqn:Hen; bool_prop; cbn [negb].
  - destruct b as [v|e].
    + intros Hrun. refine (Hstep _ _ _ _ _ _ _ Hrun); [done|done| |done]. by intros c _.
    + intros (r & w1 & Hr & Hrun)%p_bind_ok. cbv zeta in Hrun.
      refine (Hstep _ _ _ _ _ _ _ Hrun); [done| | |done].
      * intros k Hk. by apply dict_get_set_ne.
      * intros c Hc. exists r, w, w1. split; [done|]. split; [by rewrite Hc, dict_get_set_eq|done].
  - intros Hrun. destruct (IH _ _ _ Hnd Hrun) as (Hfr & new & -> & Hnew & Hin & Hall).
    split. { intros k [_ Hk]%not_elem_of_cons. by apply Hfr. }
    exists new. split; [done|]. split; [done|]. split.
    + intros k Hk. destruct (Hin k Hk) as [H1 H2]. split; [by right|done].
    + intros key' b' [[= -> ->]|Hin']%elem_of_cons Hd; [done|by apply Hall].
Qed.

(** The block that an override shows for its key: what its value resolves to,
    where the value asks to be placed; none for [None]. *)
Definition shown (expr_of : string → string) (key : string) (v : V) (ob : option rblock) : Prop :=
  match normalised of_text classify v with
  | None => ob = None
  | Some (placed, b) => ∃ new r w1 w2, ob = Some new ∧ resolve_fn key b w1 = Ok (r, w2) ∧
      rb_content new = default none_text r ∧ rb_role new = SYSTEM ∧
      md_expr (rb_meta new) = Some (match b with BDynamic e => e | BValue _ => expr_of key end) ∧
      ∀ prefix, placed = Some prefix → md_static (rb_meta new) = prefix
  end.

Lemma overridden_shown expr_of static_keys disabled key v ob :
  overridden of_text classify resolve_fn expr_of static_keys disabled key v ob →
  if decide (key ∈ disabled) then ob = None else shown expr_of key v ob.
Proof.
  unfold overridden, shown. destruct (decide _); [done|]. destruct (normalised of_text classify v) as [[p b]|]; [|done].
  intros (new & ex & w1 & w2 & -> & Hnew). unfold override_block in Hnew.
  apply p_bind_ok in Hnew as (r & w3 & Hr & H). injection H as <- <-.
  eexists _, r, w1, w3. split; [done|]. split; [exact Hr|]. split; [done|]. split; [done|]. split; [done|].
  by intros prefix ->.
Qed.

(** One phase of overrides over a block list. *)
Lemma phase_spec expr_of static_keys disabled blocks ctx w blocks' w' :
  NoDup (keys_of blocks) → dict_wf ctx → (∀ k, k ∈ disabled → block_of k blocks = None) →
  apply_overrides of_text classify resolve_fn expr_of static_keys disabled blocks ctx w = Ok (blocks', w') →
  NoDup (keys_of blocks') ∧ (∀ k, k ∈ disabled → block_of k blocks' = None) ∧
  ∀ key, key ∉ disabled →
    match dict_get key ctx with
    | Some v => shown expr_of key v (block_of key blocks')
    | None => block_of key blocks' = block_of key blocks
    end.
Proof.
  intros Hnd Hctx Hdis. rewrite override_all_eq by done. intros Hrun.
  destruct (override_all_spec _ _ _ _ _ _ _ _ _ _ _ Hnd Hctx Hrun) as [Hnd' Hspec].
  split; [done|]. split; intros key Hk; specialize (Hspec key);
    destruct (dict_get key ctx) as [v|]; try (by rewrite Hspec; auto);
    apply overridden_shown in Hspec; by destruct (decide _).
Qed.

Definition strategy_overrides (st : option (strategy (V := V))) : dict string V :=
  default [] (st ≫= get_block_overrides).

Lemma phase_strategy_eq blocks st disabled w : ∃ static_keys,
  phase_strategy of_text classify resolve_fn blocks st disabled w =
  apply_overrides of_text classify resolve_fn strategy_expr static_keys disabled blocks (strategy_overrides st) w.
Proof.
  unfold phase_strategy, strategy_overrides. destruct st as [[[o|] ks ord]|]; cbn.
  - by exists ks.
  - by exists None.
  - by exists None.
Qed.

Lemma content_blocks_spec m st dec scp w blocks cache w' : cm_ok m →
  dict_wf (strategy_overrides st) → dict_wf dec → dict_wf scp →
  content_blocks of_text classify resolve_fn pformat m st dec scp w = Ok ((blocks, cache), w') →
  NoDup (keys_of blocks) ∧
  (∀ k, k ∉ dict_keys (cm_blocks m) → dict_get k cache = None) ∧
  ∀ key, if decide (key ∈ cm_disabled m) then block_of key blocks = None
    else match dict_get key scp, dict_get key dec, dict_get key (strategy_overrides st) with
      | Some v, _, _ => shown scoped_expr key v (block_of key blocks)
      | None, Some v, _ => shown decorator_expr key v (block_of key blocks)
      | None, None, Some v => shown strategy_expr key v (block_of key blocks)
      | None, None, None =>
          match dict_get key (cm_blocks m) with
          | Some b => persistent m cache key b (block_of key blocks)
          | None => block_of key blocks = None
          end
      end.
Proof.
  intros [Hcm _ _ _ _] Hst Hdec Hscp. unfold content_blocks, phase_persistent, phase_decorator, phase_scoped.
  intros ([b0 c0] & w0 & H0 & H)%p_bind_ok. cbn [fst snd] in H.
  apply p_bind_ok in H as (b1 & w1 & H1 & H). apply p_bind_ok in H as (b2 & w2 & H2 & H).
  apply p_bind_ok in H as (b3 & w3 & H3 & H). injection H as <- <- <-.
  apply persistent_go_spec in H0 as (Hcache & new & -> & Hnd0 & Hin & Hper); [|exact Hcm]. cbn [app] in *.
  assert (∀ k, k ∈ cm_disabled m → block_of k new = None) as Hd0.
  { intros k Hk. apply block_of_None. by intros [_ ?]%Hin. }
  destruct (phase_strategy_eq new st (cm_disabled m) w0) as [ks Hks]. rewrite Hks in H1.
  destruct (phase_spec _ _ _ _ _ _ _ _ Hnd0 Hst Hd0 H1) as (Hnd1 & Hd1 & Hs1).
  destruct (phase_spec _ _ _ _ _ _ _ _ Hnd1 Hdec Hd1 H2) as (Hnd2 & Hd2 & Hs2).
  destruct (phase_spec _ _ _ _ _ _ _ _ Hnd2 Hscp Hd2 H3) as (Hnd3 & Hd3 & Hs3).
  assert (∀ k, block_of k (reorder_blocks b3 st) = block_of k b3) as Hre.
  { intros k. symmetry. apply block_of_perm; [done|]. by rewrite reorder_perm. }
  split; [unfold keys_of; by rewrite reorder_perm|]. split; [intros k Hk; by rewrite Hcache|].
  intros key. rewrite Hre. destruct (decide (key ∈ cm_disabled m)) as [Hd|Hd]; [by apply Hd3|].
  specialize (Hs1 key Hd). specialize (Hs2 key Hd). specialize (Hs3 key Hd).
  destruct (dict_get key scp); [done|]. rewrite Hs3. destruct (dict_get key dec); [done|]. rewrite Hs2.
  destruct (dict_get key (strategy_overrides st)); [done|]. rewrite Hs1.
  destruct (dict_get key (cm_blocks m)) as [b|] eqn:Hb.
  - apply Hper; [by apply dict_get_Some_elem|done].
  - apply dict_get_None in Hb. apply block_of_None. by intros [? _]%Hin.
Qed.

Lemma persistent_go_wf m raw blocks cache w r w' : dict_wf cache →
  persistent_go classify resolve_fn pformat m raw blocks cache w = Ok (r, w') → dict_wf r.2.
Proof.
  revert blocks cache w. induction raw as [|[key b] raw IH]; intros blocks cache w Hwf; cbn [persistent_go].
  { by intros [= <- _]. }
  destruct (negb _); [by apply IH|]. destruct b as [v|e]; [by apply IH|].
  intros (x & w1 & _ & Hrun)%p_bind_ok. cbv zeta in Hrun. apply IH in Hrun; [done|]. by apply dict_wf_set.
Qed.

Lemma content_cache_wf m st dec scp w blocks cache w' :
  content_blocks of_text classify resolve_fn pformat m st dec scp w = Ok ((blocks, cache), w') → dict_wf cache.
Proof.
  unfold content_blocks. intros (r & w0 & H0 & H)%p_bind_ok.
  apply p_bind_ok in H as (b1 & w1 & H1 & H). apply p_bind_ok in H as (b2 & w2 & H2 & H).
  apply p_bind_ok in H as (b3 & w3 & H3 & H). injection H as _ <- _.
  by apply (persistent_go_wf m (cm_blocks m) [] [] w r w0 (dict_wf_nil (V := option text))).
Qed.
End Content.

(** ** The whole prompt *)

Section Prompt.
Context {V W : Type} (of_text : string → V) (classify : V → kind).
Context (resolve_fn : string → block V → prog W (option text)) (pformat : V → text).
Context (event_str class_name : event → string) (re_compile : bool → string → option (string → bool)).
Context (is_empty : event → bool) `{EventBackend B}.
Context (m : cm V) (em : manager B) (st : option (strategy (V := V))) (dec scp : dict string V)
  (qs : queries) (current : option string) (w : W).
Context (Hm : cm_ok m) (Hst : dict_wf (strategy_overrides st)) (Hdec : dict_wf dec) (Hscp : dict_wf scp).

Local Abbreviation build := (build_context of_text classify resolve_fn pformat event_str class_name re_compile
  is_empty m em st dec scp qs current w).

Lemma build_context_ok blocks cache w' : build = Ok ((blocks, cache), w') →
  ∃ content es, blocks = content ++ map event_block (List.filter (λ e, negb (is_empty e)) es) ∧
    content_blocks of_text classify resolve_fn pformat m st dec scp w = Ok ((content, cache), w') ∧
    match active_query (runtime_query qs) (scoped_query qs) (decorator_query qs) (agent_query qs) with
    | Some q => apply event_str class_name re_compile q current (manager_events em) = Ok es
    | None => es = manager_events em
    end.
Proof.
  unfold build_context. intros ([content c] & w1 & H1 & H2)%p_bind_ok. cbv zeta in H2. cbn [fst snd] in H2.
  apply p_bind_ok in H2 as (bs & w2 & Hev & Hret). injection Hret as <- <- <-.
  unfold p_lift, phase_events in Hev.
  destruct (active_query _ _ _ _) as [q|].
  - destruct (apply _ _ _ _ _ _) as [es|] eqn:Hq; [|done]. cbn in Hev. injection Hev as <- <-. by exists content, es.
  - cbn in Hev. injection Hev as <- <-. by exists content, (manager_events em).
Qed.

(** C6.  The prompt has one system block per key, none for a disabled key, and
    the last phase that mentions a key decides its block: the scope before the
    decorator, the decorator before the strategy, the strategy before the
    context manager, [None] removing it; behind them come the events that the
    strongest query selects, without the empty ones, in order. *)
Theorem prompt_blocks_from_last_phase blocks cache w' : build = Ok ((blocks, cache), w') →
  ∃ content es, blocks = content ++ map event_block es ∧ NoDup (keys_of content) ∧
    (∀ key, if decide (key ∈ cm_disabled m) then key ∉ keys_of content
      else match dict_get key scp, dict_get key dec, dict_get key (strategy_overrides st) with
        | Some v, _, _ => shown of_text classify resolve_fn scoped_expr key v (block_of key content)
        | None, Some v, _ => shown of_text classify resolve_fn decorator_expr key v (block_of key content)
        | None, None, Some v => shown of_text classify resolve_fn strategy_expr key v (block_of key content)
        | None, None, None =>
            match dict_get key (cm_blocks m) with
            | Some b => persistent classify resolve_fn pformat m cache key b (block_of key content)
            | None => key ∉ keys_of content
            end
        end) ∧
    es = List.filter (λ e, negb (is_empty e))
      match active_query (runtime_query qs) (scoped_query qs) (decorator_query qs) (agent_query qs) with
      | Some q => match apply event_str class_name re_compile q current (manager_events em) with
                  | Ok l => l | Raise _ => [] end
      | None => manager_events em
      end.
Proof.
  intros (content & es & -> & Hc & Hq)%build_context_ok.
  destruct (content_blocks_spec _ _ _ _ _ _ _ _ _ _ _ _ Hm Hst Hdec Hscp Hc) as (Hnd & _ & Hspec).
  exists content, (List.filter (λ e, negb (is_empty e)) es). split; [done|]. split; [done|]. split.
  - intros key. specialize (Hspec key). destruct (decide _); [by apply block_of_None|].
    repeat (destruct (dict_get key _); try done). by apply block_of_None.
  - destruct (active_query _ _ _ _); [by rewrite Hq|by rewrite Hq].
Qed.

Lemma dict_get_map {A A'} (f : A → A') k (d : dict string A) :
  dict_get k ((λ kv, (kv.1, f kv.2)) <$> d) = f <$> dict_get k d.
Proof. induction d as [|[k' v] d IH]; cbn; [done|]. by case_decide. Qed.

(** What the agent reads is what the prompt showed: once the caller has
    stored the resolved values, an enabled expression block that no phase
    overrides reads as the value in the prompt, and a block the prompt did not
    evaluate reads as before. *)
Theorem reads_match_prompt blocks cache w' (of_resolved : option text → V) m' :
  build = Ok ((blocks, cache), w') →
  m' = update_resolved ((λ kv, (kv.1, of_resolved kv.2)) <$> cache) m →
  ∀ key,
    match dict_get key (cm_blocks m) with
    | Some (BDynamic e) =>
        key ∉ cm_disabled m → dict_get key scp = None → dict_get key dec = None →
        dict_get key (strategy_overrides st) = None →
        ∃ r b, b ∈ blocks ∧ rb_key b = key ∧ rb_content b = default none_text r ∧
          cm_getitem key m' = inr (of_resolved r)
    | _ => cm_getitem key m' = cm_getitem key m
    end.
Proof.
  intros (content & es & -> & Hc & _)%build_context_ok -> key.
  destruct (content_blocks_spec _ _ _ _ _ _ _ _ _ _ _ _ Hm Hst Hdec Hscp Hc) as (Hnd & _ & Hspec).
  pose proof (content_cache_wf _ _ _ _ _ _ _ _ _ _ _ _ Hc) as Hwf.
  unfold cm_getitem, update_resolved. cbn [cm_blocks cm_cache].
  destruct (dict_get key (cm_blocks m)) as [[v|e]|] eqn:Hb; [done| |done].
  intros Hen H1 H2 H3. specialize (Hspec key). rewrite decide_False, H1, H2, H3, Hb in Hspec by done.
  destruct Hspec as (r & w1 & w2 & _ & Hr & Hbl). apply block_of_Some in Hbl as [Hin _].
  eexists r, _. split; [apply elem_of_app; left; exact Hin|]. split; [done|]. split; [done|].
  rewrite dict_get_update, dict_get_map, Hr; [done|].
  unfold dict_wf, dict_keys in *. by rewrite <-list_fmap_compose.
Qed.
End Prompt.

(** ** Witnesses

    The context manager of [ContextRuns]; a world that counts evaluations; a
    scope that replaces one block and removes another. *)
Definition demo_resolve (key : string) (b : block string) : prog nat (option text) :=
  λ n, Ok (Some (lit (match b with BDynamic e => e | BValue v => v end)), S n).

Definition demo_manager : cm string := foldl demo_next cm_init demo_ops.

Definition demo_strategy : strategy :=
  mk_strategy (Some [("plan", "strategy's plan"); ("hint", "be brief")]%string) None (Some ["hint"; "self"]%string).

Definition demo_scope : dict string string := [("plan", ""); ("note", "=now")]%string.

Definition demo_content :=
  content_blocks id demo_classify demo_resolve lit demo_manager (Some demo_strategy) [] demo_scope 0.

Definition demo_build :=
  build_context id demo_classify demo_resolve lit ev_id ev_type no_re (λ _, false)
    demo_manager demo_query_manager (Some demo_strategy) [] demo_scope
    (mk_queries None None None (Some (mk_query None None None false (Some 1%Z)))) None 0.

Definition demo_blocks : list rblock := match demo_build with Ok ((bs, _), _) => bs | Raise _ => [] end.
Definition demo_cache : dict string (option text) := match demo_build with Ok ((_, c), _) => c | Raise _ => [] end.

Example demo_prompt_keys : keys_of demo_blocks = ["hint"; "self"; "note"; "event_d"]%string.
Proof. vm_compute. reflexivity. Qed.

Lemma demo_manager_ok : cm_ok demo_manager.
Proof. exact (cm_reachable_ok id demo_classify (λ _, true) _ _ demo_context_steps). Qed.

Lemma overrides_one_by_one_witness :
  apply_overrides id demo_classify demo_resolve scoped_expr None ∅ demo_blocks demo_scope 0 =
  override_all id demo_classify demo_resolve scoped_expr None ∅ demo_blocks demo_scope 0.
Proof.
  apply (overrides_one_by_one id demo_classify demo_resolve scoped_expr None ∅ demo_blocks demo_scope 0);
    apply (bool_decide_unpack _); vm_compute; exact I.
Defined.

Lemma demo_build_ok : demo_build = Ok ((demo_blocks, demo_cache), 3).
Proof. vm_compute. reflexivity. Qed.

Lemma prompt_blocks_from_last_phase_witness : ∃ content es,
  demo_blocks = content ++ map event_block es ∧ "plan"%string ∉ keys_of content ∧
  "status"%string ∉ keys_of content ∧ length es = 1.
Proof.
  destruct (prompt_blocks_from_last_phase id demo_classify demo_resolve lit ev_id ev_type no_re (λ _, false)
    demo_manager demo_query_manager (Some demo_strategy) [] demo_scope
    (mk_queries None None None (Some (mk_query None None None false (Some 1%Z)))) None 0 demo_manager_ok
    ltac:(apply (bool_decide_unpack _); vm_compute; exact I)
    ltac:(apply (bool_decide_unpack _); vm_compute; exact I)
    ltac:(apply (bool_decide_unpack _); vm_compute; exact I)
    _ _ _ demo_build_ok) as (content & es & H1 & H2 & H3 & H4).
  exists content, es. split; [exact H1|]. split; [|split].
  - pose proof (H3 "plan"%string) as Hp. vm_compute in Hp. exact (proj1 (block_of_None _ _) Hp).
  - pose proof (H3 "status"%string) as Hp. vm_compute in Hp. exact Hp.
  - rewrite H4. vm_compute. reflexivity.
Defined.

Definition expr_manager : cm string := put_block "clock" (BDynamic "now()") false demo_manager.

Definition demo_build2 :=
  build_context id demo_classify demo_resolve lit ev_id ev_type no_re (λ _, false)
    expr_manager demo_query_manager None [] [] (mk_queries None None None None) None 0.
Definition demo_blocks2 : list rblock := match demo_build2 with Ok ((bs, _), _) => bs | Raise _ => [] end.
Definition demo_cache2 : dict string (option text) := match demo_build2 with Ok ((_, c), _) => c | Raise _ => [] end.

Lemma expr_manager_ok : cm_ok expr_manager.
Proof. exact (cm_ok_effect (EffPut "clock" (BDynamic "now()") false) demo_manager demo_manager_ok
  ltac:(apply (bool_decide_unpack _); vm_compute; exact I)). Qed.

Lemma demo_build2_ok : demo_build2 = Ok ((demo_blocks2, demo_cache2), 1).
Proof. vm_compute. reflexivity. Qed.

Lemma reads_match_prompt_witness :
  ∃ r b, b ∈ demo_blocks2 ∧ rb_key b = "clock"%string ∧ rb_content b = default none_text r ∧
    cm_getitem "clock"
      (update_resolved ((λ kv, (kv.1, match kv.2 with Some _ => "text" | None => "None" end)) <$> demo_cache2)
         expr_manager) = inr (match r with Some _ => "text" | None => "None" end)%string.
Proof.
  exact (reads_match_prompt id demo_classify demo_resolve lit ev_id ev_type no_re (λ _, false)
    expr_manager demo_query_manager None [] [] (mk_queries None None None None) None 0 expr_manager_ok
    ltac:(apply (bool_decide_unpack _); vm_compute; exact I)
    ltac:(apply (bool_decide_unpack _); vm_compute; exact I)
    ltac:(apply (bool_decide_unpack _); vm_compute; exact I)
    _ _ _ (λ r, match r with Some _ => "text" | None => "None" end)%string _ demo_build2_ok eq_refl "clock"%string
    ltac:(apply (bool_decide_unpack _); vm_compute; exact I) eq_refl eq_refl eq_refl).
Defined.
