(* ===== verification/Render.v ===== *)
(** * Rendering the prompt: from resolved blocks to provider messages

    Models [nooa/context_blocks/renderer.py] and [formatter.py] (the XML block
    formatter and the OpenAI provider formatter), with the assistant turns of
    [nooa/llm_types.py].  The subclass fields of an event are read by
    [payload_of]; [pformat], token counting and [json] are arguments.  The
    Markdown formatter differs from the XML one in the two wrappers only. *)

From stdpp Require Import sets gmap.
From S2P Require Import Prelude PyStr PyDict PyText Values Events TruncStream.
From S2P Require Import PromptContext.

(** ** Text that UTF-8 can encode *)

Definition surrogate (c : N) : bool := (N.leb 55296 c && N.leb c 57343)%bool.

Definition hex_digit (n : N) : N := if N.ltb n 10 then 48 + n else 87 + n.

(** The escape [\udXXX] of a lone surrogate. *)
Definition escape_surrogate (c : N) : text :=
  [92; 117; hex_digit (N.land (N.shiftr c 12) 15); hex_digit (N.land (N.shiftr c 8) 15);
   hex_digit (N.land (N.shiftr c 4) 15); hex_digit (N.land c 15)]%N.

(** [_utf8_safe_text]. *)
Definition utf8_safe_text (t : text) : text := t ≫= (λ c, if surrogate c then escape_surrogate c else [c]).

(** ** Assistant turns *)

(** [ToolCall]: the arguments are the JSON text of the model. *)
Record tool_call := mk_call { tc_id : text; tc_name : text; tc_args : text }.

(** [AssistantPart]; the flag says that it carries native provider state. *)
Inductive assistant_part :=
  | AssistantText (t : text) (native : bool)
  | AssistantReasoning (t : text) (native : bool)
  | AssistantCall (c : tool_call) (native : bool).

Inductive finish_reason := FStop | FToolCalls | FLength | FError.

#[export] Instance finish_reason_eq_dec : EqDecision finish_reason.
Proof. solve_decision. Defined.

#[export] Instance tool_call_eq_dec : EqDecision tool_call.
Proof. solve_decision. Defined.

(** [LLMResponse]. *)
Record response := mk_response { rs_parts : list assistant_part; rs_finish : finish_reason }.

(** The properties [content], [reasoning], [tool_calls]. *)
Definition rs_content (r : response) : text :=
  concat (omap (λ p, match p with AssistantText t _ => Some t | _ => None end) (rs_parts r)).
Definition rs_reasoning (r : response) : option text :=
  let texts := omap (λ p, match p with AssistantReasoning (c :: t) _ => Some (c :: t) | _ => None end) (rs_parts r) in
  match t_join [10%N] texts with [] => None | t => Some t end.
Definition rs_tool_calls (r : response) : list tool_call :=
  omap (λ p, match p with AssistantCall c _ => Some c | _ => None end) (rs_parts r).
Definition part_native (p : assistant_part) : bool :=
  match p with AssistantText _ n | AssistantReasoning _ n | AssistantCall _ n => n end.

(** [ToolCallEvent]: [te_result] is the content of its result;
    [te_inline_return] says that its [synthetic_type] is
    [CODEACT_INLINE_RETURN]. *)
Record tool_event := mk_tool_event {
  te_call_id : text;
  te_name : text;
  te_arguments : pyval;
  te_response_id : option string;
  te_result : option text;
  te_inline_return : bool
}.

(** What an event is to the renderer: a tool call, an assistant turn, or
    another event with its [content] when that is a string, and its images. *)
Inductive payload :=
  | PToolCall (t : tool_event)
  | PResponse (r : response)
  | POther (content : option text) (images : option (list pyval)).

(** ** Messages *)

(** [TextPart] and [BlockPart]. *)
Inductive message_part := TextPart (t : text) | BlockPart (key : string) (content : text).

(** [ToolCallInfo]: its arguments are a JSON text or the dictionary of an
    event. *)
Inductive arguments := ArgText (t : text) | ArgDict (d : pyval).
Record call_info := mk_info { ci_id : text; ci_name : text; ci_args : arguments }.
Definition info_of (c : tool_call) : call_info := mk_info (tc_id c) (tc_name c) (ArgText (tc_args c)).

(** [RenderedMessage]; [ms_replay] is the turn to be replayed. *)
Record message := mk_message {
  ms_role : role;
  ms_content : option text;
  ms_parts : option (list message_part);
  ms_tool_calls : list call_info;
  ms_reasoning : option text;
  ms_tool_call_id : option text;
  ms_images : option (list pyval);
  ms_replay : option response
}.

Definition role_value (r : role) : string :=
  match r with
  | SYSTEM => "system" | USER => "user" | ASSISTANT => "assistant" | TOOL => "tool"
  | RUNTIME_EVENT => "runtime_event" | METADATA => "metadata"
  end.

(** A string attribute that is there and not empty. *)
Definition nonempty (s : option string) : option string := match s with Some "" | None => None | _ => s end.

(** [_xml_system_block]. *)
Definition xml_system_block (b : rblock) : text :=
  let attrs := match md_source_dynamic (rb_meta b), nonempty (md_expr (rb_meta b)) with
               | true, Some e => lit " expr=" ++ lit dquote ++ lit e ++ lit dquote
               | _, _ => []
               end in
  lit "<" ++ lit (rb_key b) ++ attrs ++ lit ">" ++ nl ++ rb_content b ++ nl ++ lit "</" ++ lit (rb_key b) ++ lit ">".

(** [_xml_message_content]. *)
Definition xml_message_content (b : rblock) : text :=
  if decide (rb_role b = ASSISTANT) then rb_content b
  else
    let label := if decide (rb_role b = USER) then lit "sys" else lit (role_value (rb_role b)) ++ lit "_message" in
    let attr name v := lit " " ++ lit name ++ lit "=" ++ lit dquote ++ lit v ++ lit dquote in
    let expr := match md_source_dynamic (rb_meta b), nonempty (md_expr (rb_meta b)) with
                | true, Some e => attr "expr" e | _, _ => [] end in
    let tag := match nonempty (md_tag (rb_meta b)) with Some t => attr "tag" t | None => [] end in
    lit "<" ++ label ++ expr ++ tag ++ lit ">" ++ nl ++ rb_content b ++ nl ++ lit "</" ++ label ++ lit ">".

(** [_tool_result_message]. *)
Definition tool_result_message (t : tool_event) : message :=
  mk_message TOOL (Some (default (lit "(no result recorded)") (te_result t))) None [] None (Some (te_call_id t)) None None.

Section Render.
Context (payload_of : event → payload).
(** [json.loads(arguments)] gives a dictionary; [json.dumps]. *)
Context (json_object : text → bool) (json_dumps : pyval → text).
(** [pformat(event, ...)] with the bounds chosen for the event. *)
Context (pformat_event : event → text).

(** [replay_tool_calls]: all calls or none. *)
Definition replay_tool_calls (r : response) : list tool_call :=
  if decide (rs_finish r = FToolCalls) then
    if forallb (λ c, json_object (tc_args c)) (rs_tool_calls r)
    then rs_tool_calls r else []
  else [].

(** [LLMResponse.is_empty]; other events are never empty. *)
Definition response_empty (r : response) : bool :=
  negb (negb (bool_decide (t_strip (rs_content r) = [])) || negb (bool_decide (replay_tool_calls r = [])) ||
        bool_decide (is_Some (rs_reasoning r)) || existsb part_native (rs_parts r)).
Definition event_empty (e : event) : bool :=
  match payload_of e with PResponse r => response_empty r | _ => false end.

(** [BlockFormatter.format_event]. *)
Definition format_event (e : event) : text :=
  match payload_of e with
  | PResponse r => rs_content r
  | POther (Some c) _ => if decide (ev_role e = ASSISTANT) then c else pformat_event e
  | _ => pformat_event e
  end.

Definition payload_of_block (b : rblock) : option payload := payload_of <$> rb_event b.

(** *** One event block *)

(** [_event_block_to_messages]. *)
Definition event_block_to_messages (wrap_content : option (rblock → text)) (b : rblock) : list message :=
  match payload_of_block b with
  | Some (PResponse r) =>
      if response_empty r then []
      else [mk_message ASSISTANT (Some (rb_content b)) None [] (rs_reasoning r) None None (Some r)]
  | Some (PToolCall t) =>
      if te_inline_return t then []
      else [mk_message ASSISTANT None None [mk_info (te_call_id t) (te_name t) (ArgDict (te_arguments t))]
              None None None None;
            tool_result_message t]
  | other =>
      let content :=
        match wrap_content, nonempty (md_expr (rb_meta b)), nonempty (md_tag (rb_meta b)) with
        | Some wrap, Some _, _ | Some wrap, None, Some _ => wrap b
        | _, _, _ => rb_content b
        end in
      let images := match other with Some (POther _ images) => images | _ => None end in
      [mk_message (rb_role b) (Some content) (Some [BlockPart (rb_key b) content]) [] None None images None]
  end.

(** *** The conversation *)

(** [replayable_turn_ids]. *)
Definition replayable_turn_ids (blocks : list rblock) : gset string :=
  list_to_set (omap (λ b,
    match rb_event b with
    | Some e =>
        match payload_of e with
        | PResponse r => if decide (replay_tool_calls r = []) then None else Some (ev_id e)
        | _ => None
        end
    | None => None
    end) blocks).

(** [executions]: by turn and call id, the last execution event. *)
Fixpoint executions (turns : gset string) (blocks : list rblock) (acc : gmap (string * text) tool_event)
    : gmap (string * text) tool_event :=
  match blocks with
  | [] => acc
  | b :: blocks' =>
      executions turns blocks'
        match payload_of_block b with
        | Some (PToolCall t) =>
            match te_response_id t with
            | Some rid => if decide (rid ∈ turns) then <[(rid, te_call_id t) := t]> acc else acc
            | None => acc
            end
        | _ => acc
        end
  end.

(** The executions of a batch, in the order of the calls, if all of them have a
    result. *)
Definition batch_results (ex : gmap (string * text) tool_event) (turn : string) (calls : list tool_call)
    : option (list tool_event) :=
  mapM (λ c, t ← ex !! (turn, tc_id c); _ ← te_result t; Some t) calls.

(** The messages of one block: [_event_blocks_to_messages]'s loop body. *)
Definition block_messages (ex : gmap (string * text) tool_event) (wrap_content : option (rblock → text))
    (b : rblock) : list message :=
  let single := event_block_to_messages wrap_content b in
  match rb_event b with
  | None => single
  | Some e =>
      match payload_of e with
      | PResponse r =>
          let calls := replay_tool_calls r in
          if decide (calls = []) then single
          else if negb (bool_decide (NoDup (tc_id <$> calls))) then []
          else
            match batch_results ex (ev_id e) calls with
            | None => []
            | Some results =>
                mk_message ASSISTANT (Some (rb_content b)) None (info_of <$> calls) (rs_reasoning r) None None (Some r)
                  :: (tool_result_message <$> results)
            end
      | PToolCall t => match te_response_id t with Some _ => [] | None => single end
      | POther _ _ => single
      end
  end.

(** [_event_blocks_to_messages]. *)
Definition event_blocks_to_messages (wrap_content : option (rblock → text)) (blocks : list rblock) : list message :=
  let ex := executions (replayable_turn_ids blocks) blocks ∅ in
  blocks ≫= block_messages ex wrap_content.

(** The parts of the system message. *)
Fixpoint system_parts (separator : text) (first : bool) (blocks : list rblock) (wrap : rblock → text)
    : list message_part :=
  match blocks with
  | [] => []
  | b :: blocks' =>
      (if first then [] else [TextPart separator]) ++
      BlockPart (rb_key b) (wrap b) :: system_parts separator false blocks' wrap
  end.

(** [_build_messages]. *)
Definition build_messages (wrap_system : rblock → text) (wrap_message : option (rblock → text))
    (separator : text) (blocks : list rblock) : list message :=
  match blocks with
  | [] => []
  | _ =>
      let system := List.filter (λ b, bool_decide (rb_role b = SYSTEM)) blocks in
      let events := List.filter (λ b, negb (bool_decide (rb_role b = SYSTEM))) blocks in
      let parts := system_parts separator true system wrap_system in
      mk_message SYSTEM (Some (t_join separator (wrap_system <$> system)))
        (match parts with [] => None | _ => Some parts end) [] None None None None
        :: event_blocks_to_messages wrap_message events
  end.

(** [XMLBlockFormatter.format]. *)
Definition xml_format (blocks : list rblock) : list message :=
  build_messages xml_system_block (Some xml_message_content) (nl ++ nl) blocks.

(** *** The context budget *)

Definition with_content (content : text) (b : rblock) : rblock :=
  mk_rblock (rb_key b) content (rb_role b) (rb_meta b) (rb_event b).

(** The label of an evicted block. *)
Definition evicted_label (size : Z) : text :=
  lit "EVICTED: over context budget (block_tokens=" ++ t_commas size ++ lit ")".

Definition evicted_block (size : Z) (b : rblock) : rblock :=
  let m := rb_meta b in
  mk_rblock (rb_key b) (evicted_label size) (rb_role b)
    (mk_meta (md_expr m) (md_tag m) true (md_user_block m) (md_static m) (md_source_dynamic m)) (rb_event b).

Section Budget.
Context (count : text → Z) (limit : Z).

Definition size_of (b : rblock) : Z := count (rb_content b).
Definition total_of (blocks : list rblock) : Z := foldr (λ b n, (size_of b + n)%Z) 0%Z blocks.

(** One pass from the last block to the first over the blocks that [select]s,
    until the total fits: the total that is left and the indices to evict. *)
Fixpoint evict_pass (select : nat → rblock → bool) (rev_blocks : list (nat * rblock)) (total : Z)
    (evicted : gset nat) : Z * gset nat :=
  match rev_blocks with
  | [] => (total, evicted)
  | (i, b) :: rest =>
      if (total <=? limit)%Z then (total, evicted)
      else if select i b then evict_pass select rest (total - size_of b) ({[i]} ∪ evicted)
      else evict_pass select rest total evicted
  end.

(** [_apply_context_total_limit]: first the user's blocks, then the others;
    never a static block. *)
Definition apply_context_total_limit (blocks : list rblock) : list rblock * nat :=
  let total := total_of blocks in
  if (total <=? limit)%Z then (blocks, 0)
  else
    let rev_blocks := reverse (imap pair blocks) in
    let '(total1, evicted1) :=
      evict_pass (λ _ b, md_user_block (rb_meta b) && negb (md_static (rb_meta b)))%bool rev_blocks total ∅ in
    let '(_, evicted2) :=
      evict_pass (λ i b, bool_decide (i ∉ evicted1) && negb (md_static (rb_meta b)))%bool rev_blocks total1 evicted1 in
    (imap (λ i b, if decide (i ∈ evicted2) then evicted_block (size_of b) b else b) blocks, size evicted2).
End Budget.

(** *** Provider messages *)

(** The messages of the OpenAI chat format; a replayed turn is the response
    object itself. *)
Inductive wire :=
  | WNative (r : response)
  | WAssistant (content : text) (reasoning : option text) (calls : list (text * text * text))
  | WTool (call_id content : text)
  | WImages (r : role) (content : text) (images : list pyval)
  | WPlain (r : role) (content : text) (reasoning : option text).

Definition nonempty_text (t : option text) : option text := match t with Some [] | None => None | _ => t end.

Definition call_json (c : call_info) : text * text * text :=
  (ci_id c, ci_name c, match ci_args c with ArgText t => t | ArgDict d => json_dumps d end).

(** [assistant_message]. *)
Definition assistant_message (content : option text) (calls : list call_info) (reasoning : option text) : wire :=
  WAssistant (default [] content) (nonempty_text reasoning) (call_json <$> calls).

(** [LLMResponse.render_message]: the turn itself unless rendering changed it. *)
Definition same_call (c : call_info) (t : tool_call) : bool :=
  match ci_args c with
  | ArgText a => bool_decide ((ci_id c, ci_name c, a) = (tc_id t, tc_name t, tc_args t))
  | ArgDict _ => false
  end.
Fixpoint same_calls (cs : list call_info) (ts : list tool_call) : bool :=
  match cs, ts with
  | [], [] => true
  | c :: cs', t :: ts' => (same_call c t && same_calls cs' ts')%bool
  | _, _ => false
  end.
Definition render_message (r : response) (content : option text) (calls : list call_info) (reasoning : option text)
    : wire :=
  if (bool_decide (reasoning = rs_reasoning r) && bool_decide (content = Some (rs_content r)) &&
      same_calls calls (rs_tool_calls r))%bool
  then WNative r else assistant_message content calls reasoning.

(** The loop body of [OpenAIProviderFormatter.format]. *)
Definition provider_message (m : message) : option wire :=
  match ms_replay m, ms_tool_calls m, ms_tool_call_id m, ms_images m with
  | Some r, calls, _, _ => Some (render_message r (ms_content m) calls (ms_reasoning m))
  | None, (_ :: _) as calls, _, _ => Some (assistant_message (ms_content m) calls (ms_reasoning m))
  | None, [], Some id, _ => Some (WTool id (default [] (ms_content m)))
  | None, [], None, Some (i :: l) => Some (WImages (ms_role m) (default [] (ms_content m)) (i :: l))
  | None, [], None, _ =>
      match ms_role m with
      | ASSISTANT => Some (assistant_message (ms_content m) [] (ms_reasoning m))
      | RUNTIME_EVENT | METADATA => None
      | r => Some (WPlain r (default [] (ms_content m)) (nonempty_text (ms_reasoning m)))
      end
  end.
Definition openai_format (messages : list message) : list wire := omap provider_message messages.

(** [_utf8_safe] on a message: every text field but the replayed turn.  A lone
    surrogate exists only in a [text]; the keys of block parts and the strings
    inside image parts are byte strings here, on which it is the identity. *)
Definition safe_call (c : call_info) : call_info :=
  mk_info (utf8_safe_text (ci_id c)) (utf8_safe_text (ci_name c))
    (match ci_args c with ArgText t => ArgText (utf8_safe_text t) | a => a end).
Definition safe_part (p : message_part) : message_part :=
  match p with TextPart t => TextPart (utf8_safe_text t) | BlockPart k t => BlockPart k (utf8_safe_text t) end.
Definition utf8_safe (m : message) : message :=
  mk_message (ms_role m) (option_map utf8_safe_text (ms_content m)) (option_map (map safe_part) (ms_parts m))
    (map safe_call (ms_tool_calls m)) (option_map utf8_safe_text (ms_reasoning m))
    (option_map utf8_safe_text (ms_tool_call_id m))
    (ms_images m) (ms_replay m).

(** [render_context]; the statistics keep the counts and sizes. *)
Record stats := mk_stats {
  st_blocks : nat; st_events : nat; st_block_chars : nat; st_event_chars : nat; st_dropped : nat
}.

Definition with_safe_content (b : rblock) : rblock := with_content (utf8_safe_text (rb_content b)) b.

(** The content of an event block before the budget. *)
Definition serialized_block (b : rblock) : rblock :=
  match rb_event b with
  | Some e => match payload_of e with PToolCall _ => b | _ => with_content (format_event e) b end
  | None => b
  end.

Definition chars (blocks : list rblock) : nat := foldr (λ b n, length (rb_content b) + n) 0 blocks.

Definition render_context (format : list rblock → list message) (blocks : list rblock) (context_limit : option Z)
    (count_tokens : option (text → Z)) : result (list wire * stats * list message) :=
  match context_limit, count_tokens with
  | Some _, None => Raise ValueError
  | _, _ =>
      let count := default (λ t, Z.of_nat (length t)) count_tokens in
      let system := with_safe_content <$> List.filter (λ b, bool_decide (rb_role b = SYSTEM)) blocks in
      let events := (with_safe_content ∘ serialized_block) <$>
        List.filter (λ b, negb (bool_decide (rb_role b = SYSTEM))) blocks in
      let '(system', dropped) :=
        match context_limit with
        | Some limit => apply_context_total_limit count limit system
        | None => (system, 0)
        end in
      let messages := utf8_safe <$> format (system' ++ events) in
      Ok (openai_format messages, mk_stats (length system') (length events) (chars system') (chars events) dropped,
          messages)
  end.
End Render.
