(* ===== verification/RenderRuns.v ===== *)
(** * What the renderer guarantees

    Every tool call of the conversation is followed by exactly its results, the
    system prompt comes first, completed turns are replayed, and the context
    budget evicts as little as it can. *)

From stdpp Require Import sets gmap.
From S2P Require Import Prelude PyStr PyDict PyText Values Events TruncStream.
From S2P Require Import PromptContext Render.

(** ** Tool calls and their results *)

Definition is_result (c : call_info) (m : message) : Prop :=
  ms_tool_call_id m = Some (ci_id c) ∧ ms_tool_calls m = [] ∧ ms_replay m = None.

(** A conversation in which a message with tool calls is followed by one result
    per call, in order, and results are nowhere else. *)
Inductive paired : list message → Prop :=
  | paired_nil : paired []
  | paired_single m ms :
      ms_role m ≠ SYSTEM → ms_tool_calls m = [] → ms_tool_call_id m = None → paired ms → paired (m :: ms)
  | paired_batch m rs ms :
      ms_role m = ASSISTANT → ms_tool_calls m ≠ [] → ms_tool_call_id m = None →
      Forall2 is_result (ms_tool_calls m) rs → paired ms → paired (m :: rs ++ ms).

Lemma paired_app l1 l2 : paired l1 → paired l2 → paired (l1 ++ l2).
Proof.
  intros Hl1 Hl2. induction Hl1; cbn; [done|constructor; auto|]. rewrite <-app_assoc. apply paired_batch; auto.
Qed.

Section Conversation.
Context (payload_of : event → payload) (json_object : text → bool) (json_dumps : pyval → text).

Local Abbreviation block_messages := (block_messages payload_of json_object).
Local Abbreviation replay_tool_calls := (replay_tool_calls json_object).

Definition keyed_executions (ex : gmap (string * text) tool_event) : Prop :=
  ∀ rid cid t, ex !! (rid, cid) = Some t → te_call_id t = cid.

Lemma executions_keyed turns blocks ex : keyed_executions ex → keyed_executions (executions payload_of turns blocks ex).
Proof.
  revert ex. induction blocks as [|b blocks IH]; intros ex Hex; cbn [executions]; [done|]. apply IH.
  destruct (payload_of_block _ b) as [[t| |]|]; try done. destruct (te_response_id t) as [rid|]; [|done].
  destruct (decide _); [|done]. intros r c t'. rewrite lookup_insert_Some. intros [[[= _ <-] <-]|[_ H]]; [done|by eapply Hex].
Qed.

Lemma batch_results_spec ex turn calls results : batch_results ex turn calls = Some results →
  Forall2 (λ c t, ex !! (turn, tc_id c) = Some t ∧ is_Some (te_result t)) calls results.
Proof.
  unfold batch_results. intros H%mapM_Some. eapply Forall2_impl; [exact H|]. intros c t. cbn.
  destruct (ex !! _) as [t'|]; cbn; [|done]. destruct (te_result t') eqn:Hr; cbn; [|done]. intros [= ->]. eauto.
Qed.

Lemma event_message_paired wrap b : rb_role b ≠ SYSTEM →
  paired (event_block_to_messages payload_of json_object wrap b).
Proof.
  intros Hrole. unfold event_block_to_messages. destruct (payload_of_block payload_of b) as [[t|r|c im]|].
  - destruct (te_inline_return t); [constructor|].
    apply (paired_batch (mk_message ASSISTANT None None [mk_info _ _ _] None None None None)
             [tool_result_message t] []); try done; [|constructor].
    constructor; [|constructor]. done.
  - destruct (response_empty _ r); [constructor|]. by repeat constructor.
  - by repeat constructor.
  - by repeat constructor.
Qed.

Lemma block_messages_paired ex wrap b : keyed_executions ex → rb_role b ≠ SYSTEM → paired (block_messages ex wrap b).
Proof.
  intros Hex Hrole. unfold Render.block_messages. pose proof (event_message_paired wrap b Hrole) as Hsingle.
  destruct (rb_event b) as [e|]; [|done]. destruct (payload_of e) as [t|r|c im]; [|cbv zeta|done].
  { by destruct (te_response_id t); [constructor|]. }
  destruct (decide _) as [|Hne]; [done|]. destruct (negb _); [constructor|].
  destruct (batch_results ex (ev_id e) (replay_tool_calls r)) as [results|] eqn:Hb; [|constructor].
  rewrite <-(app_nil_r (tool_result_message <$> results)). apply paired_batch; try done; [|..|constructor].
  - cbn. intros H%fmap_nil_inv. done.
  - cbn. apply Forall2_fmap. eapply Forall2_impl; [by apply batch_results_spec|]. intros c t [Ht _].
    unfold is_result. cbn. by rewrite (Hex _ _ _ Ht).
Qed.

Lemma event_blocks_paired wrap blocks : Forall (λ b, rb_role b ≠ SYSTEM) blocks →
  paired (event_blocks_to_messages payload_of json_object wrap blocks).
Proof.
  intros Hall. unfold event_blocks_to_messages. set (ex := executions _ _ _ _).
  assert (keyed_executions ex) as Hex by (apply executions_keyed; intros ???; by rewrite lookup_empty).
  clearbody ex. induction Hall as [|b blocks Hb Hall IH]; cbn; [constructor|].
  apply paired_app; [by apply block_messages_paired|exact IH].
Qed.

(** ** On the wire *)

Definition calls_of (w : wire) : list text :=
  match w with
  | WNative r => tc_id <$> rs_tool_calls r
  | WAssistant _ _ calls => (λ c, c.1.1) <$> calls
  | _ => []
  end.

Definition wire_result (id : text) (w : wire) : Prop := ∃ content, w = WTool id content.

Inductive wire_paired : list wire → Prop :=
  | wire_nil : wire_paired []
  | wire_single w ws :
      calls_of w = [] → (∀ id, ¬ wire_result id w) → (∀ c r, w ≠ WPlain SYSTEM c r) →
      wire_paired ws → wire_paired (w :: ws)
  | wire_batch w rs ws :
      calls_of w ≠ [] → Forall2 wire_result (calls_of w) rs → wire_paired ws → wire_paired (w :: rs ++ ws).

Lemma same_calls_ids cs ts : same_calls cs ts = true → tc_id <$> ts = ci_id <$> cs.
Proof.
  revert ts. induction cs as [|c cs IH]; intros [|t ts]; cbn; try done.
  intros [H1 H2]%andb_true_iff. rewrite (IH _ H2). f_equal. unfold same_call in H1.
  destruct (ci_args c); [|done]. bool_prop. naive_solver.
Qed.

Lemma render_message_calls r content calls reasoning :
  calls_of (render_message json_dumps r content calls reasoning) = ci_id <$> calls.
Proof.
  unfold render_message. destruct (_ && _)%bool eqn:H; cbn.
  - apply andb_true_iff in H as [_ H]. by apply same_calls_ids.
  - rewrite <-list_fmap_compose. done.
Qed.

Lemma render_message_other r content calls reasoning id :
  ¬ wire_result id (render_message json_dumps r content calls reasoning) ∧
  ∀ c x, render_message json_dumps r content calls reasoning ≠ WPlain SYSTEM c x.
Proof. unfold render_message, wire_result. destruct (_ && _)%bool; (split; [by intros [? [=]]|done]). Qed.

Lemma provider_result c m : is_result c m →
  ∃ w, provider_message json_dumps m = Some w ∧ wire_result (ci_id c) w.
Proof. intros (Hid & Hc & Hr). unfold provider_message. rewrite Hr, Hc, Hid. eexists. split; [done|by eexists]. Qed.

Lemma provider_results cs ms : Forall2 is_result cs ms →
  Forall2 wire_result (ci_id <$> cs) (openai_format json_dumps ms).
Proof.
  unfold openai_format. induction 1 as [|c m cs ms Hm Hms IH]; [constructor|].
  destruct (provider_result c m Hm) as (w & Hw & Hres). cbn [omap list_omap]. rewrite Hw. cbn. by constructor.
Qed.

Lemma provider_calls m : ms_tool_calls m ≠ [] →
  ∃ w, provider_message json_dumps m = Some w ∧ calls_of w = ci_id <$> ms_tool_calls m.
Proof.
  intros Hne. unfold provider_message. destruct (ms_replay m) as [r|].
  - eexists. split; [done|]. apply render_message_calls.
  - destruct (ms_tool_calls m) as [|c cs]; [done|]. eexists. split; [done|]. cbn [assistant_message calls_of].
    rewrite <-list_fmap_compose. done.
Qed.

Lemma provider_single m w : ms_role m ≠ SYSTEM → ms_tool_calls m = [] → ms_tool_call_id m = None →
  provider_message json_dumps m = Some w →
  calls_of w = [] ∧ (∀ id, ¬ wire_result id w) ∧ ∀ c r, w ≠ WPlain SYSTEM c r.
Proof.
  intros Hrole Hc Hid. unfold provider_message. rewrite Hc, Hid. destruct (ms_replay m) as [r|].
  - intros [= <-]. rewrite render_message_calls. split; [done|]. split; [|apply (render_message_other _ _ _ _ [])].
    intros id. apply render_message_other.
  - unfold wire_result. destruct (ms_images m) as [[|i l]|]; destruct (ms_role m); intros [= <-]; try done;
      (split; [done|]); (split; [by intros id [? [=]]|done]).
Qed.

Lemma openai_app ms ms' : openai_format json_dumps (ms ++ ms') = openai_format json_dumps ms ++ openai_format json_dumps ms'.
Proof. apply omap_app. Qed.

Lemma openai_paired ms : paired ms → wire_paired (openai_format json_dumps ms).
Proof.
  induction 1 as [|m ms Hr Hc Hid _ IH|m rs ms Hr Hc Hid Hrs _ IH]; [constructor|..].
  - change (openai_format json_dumps (m :: ms)) with
      (match provider_message json_dumps m with Some w => w :: openai_format json_dumps ms
       | None => openai_format json_dumps ms end).
    destruct (provider_message json_dumps m) as [w|] eqn:Hw; [|done].
    destruct (provider_single m w Hr Hc Hid Hw) as (H1 & H2 & H3). by constructor.
  - destruct (provider_calls m Hc) as (w & Hw & Hcalls).
    change (m :: rs ++ ms) with ([m] ++ (rs ++ ms)). rewrite !openai_app.
    unfold openai_format at 1. cbn [omap list_omap]. rewrite Hw. cbn [app]. apply wire_batch; [|..|exact IH].
    + rewrite Hcalls. by intros ?%fmap_nil_inv.
    + rewrite Hcalls. by apply provider_results.
Qed.

Lemma safe_paired ms : paired ms → paired (utf8_safe <$> ms).
Proof.
  induction 1 as [|m ms Hr Hc Hid _ IH|m rs ms Hr Hc Hid Hrs _ IH]; [constructor|..].
  - cbn. apply paired_single; cbn; [done|by rewrite Hc|by rewrite Hid|exact IH].
  - cbn. rewrite fmap_app. apply paired_batch; cbn; [done|by destruct (ms_tool_calls m)|by rewrite Hid| |exact IH].
    change (map safe_call (ms_tool_calls m)) with (safe_call <$> ms_tool_calls m). apply Forall2_fmap. eapply Forall2_impl; [exact Hrs|].
    intros c r (H1 & H2 & H3). unfold is_result. cbn. by rewrite H1, H2, H3.
Qed.

(** ** The rendered conversation *)

Lemma length_budget count limit blocks : length (apply_context_total_limit count limit blocks).1 = length blocks.
Proof.
  unfold apply_context_total_limit. destruct (_ <=? _)%Z; [done|]. destruct (evict_pass _ _ _ _ _ _) as [t1 e1].
  destruct (evict_pass _ _ _ _ _ _) as [t2 e2]. cbn. by rewrite length_imap.
Qed.

Lemma filter_split_nil {A} (p : A → bool) l :
  List.filter p l = [] → List.filter (λ x, negb (p x)) l = [] → l = [].
Proof. destruct l as [|x l]; [done|]. cbn. by destruct (p x). Qed.

Lemma build_messages_spec wrap_system wrap_message sep blocks : blocks ≠ [] → ∃ m rest,
  build_messages payload_of json_object wrap_system wrap_message sep blocks = m :: rest ∧ paired rest ∧
  ms_role m = SYSTEM ∧ is_Some (ms_content m) ∧ ms_tool_calls m = [] ∧ ms_tool_call_id m = None ∧
  ms_images m = None ∧ ms_replay m = None ∧ ms_reasoning m = None.
Proof.
  intros Hne. unfold build_messages. destruct blocks as [|b blocks]; [done|]. eexists _, _. split; [done|].
  split; [|cbn; eauto 10]. apply event_blocks_paired. apply Forall_forall.
  intros x Hx. apply list_elem_of_In, List.filter_In in Hx as [_ Hx]. by bool_prop.
Qed.

(** C5.  The rendered conversation is one the provider accepts: the system
    prompt is the first message and the only one of its role, every assistant
    message with tool calls is followed at once by exactly one result per call,
    in the order of the calls, and no result stands anywhere else; whatever the
    blocks are, however the events were filtered, also when a stored turn is
    replayed in the provider's own form. *)
Theorem conversation_pairs_tool_calls pformat_event blocks limit count ws st ms :
  render_context payload_of json_dumps pformat_event (xml_format payload_of json_object) blocks limit count =
    Ok (ws, st, ms) →
  match blocks with
  | [] => ws = []
  | _ => ∃ content rest, ws = WPlain SYSTEM content None :: rest ∧ wire_paired rest
  end.
Proof.
  unfold render_context. set (system := with_safe_content <$> _). set (events := _ <$> _).
  assert (∀ system' dropped, length system' = length system →
    let messages := utf8_safe <$> xml_format payload_of json_object (system' ++ events) in
    Ok (openai_format json_dumps messages, mk_stats (length system') (length events) (chars system') (chars events)
      dropped, messages) = Ok (ws, st, ms) →
    match blocks with [] => ws = [] | _ => ∃ content rest, ws = WPlain SYSTEM content None :: rest ∧ wire_paired rest end)
    as Hmain.
  { intros system' dropped Hlen. cbv zeta. intros [= <- _ _]. destruct blocks as [|b blocks].
    { by rewrite (nil_length_inv system') by done. }
    assert (system' ++ events ≠ []) as Hne.
    { intros [Hs He]%app_nil. subst system'. symmetry in Hlen. apply nil_length_inv in Hlen.
      unfold system, events in *. apply fmap_nil_inv in Hlen, He.
      by pose proof (filter_split_nil _ _ Hlen He). }
    destruct (build_messages_spec xml_system_block (Some xml_message_content) (nl ++ nl) _ Hne)
      as (m & rest & Hm & Hp & Hr & [c Hc] & H1 & H2 & H3 & H4 & H5).
    unfold xml_format. rewrite Hm. cbn [fmap list_fmap].
    exists (utf8_safe_text c), (openai_format json_dumps (utf8_safe <$> rest)). split.
    - unfold openai_format. cbn [omap list_omap]. unfold provider_message at 1. cbn.
      rewrite Hr, Hc, H1, H2, H3, H4, H5. cbn. done.
    - by apply openai_paired, safe_paired. }
  destruct limit as [l|], count as [c|]; try done; cbn [default from_option]; try (by apply Hmain).
  pose proof (length_budget (default (λ t, Z.of_nat (length t)) (Some c)) l system) as Hl. cbn [default] in *.
  destruct (apply_context_total_limit _ l system) as [system' dropped]. apply Hmain. exact Hl.
Qed.

(** ** Completed turns *)

(** The executions of turn [rid] among the blocks. *)
Definition execution_in (blocks : list rblock) (rid : string) (t : tool_event) : Prop :=
  ∃ b, b ∈ blocks ∧ payload_of_block payload_of b = Some (PToolCall t) ∧ te_response_id t = Some rid.

Lemma executions_found turns blocks ex rid cid : rid ∈ turns →
  (∀ t, ex !! (rid, cid) = Some t → is_Some (te_result t)) →
  (∀ t, execution_in blocks rid t → is_Some (te_result t)) →
  (is_Some (ex !! (rid, cid)) ∨ ∃ t, execution_in blocks rid t ∧ te_call_id t = cid) →
  ∃ t, executions payload_of turns blocks ex !! (rid, cid) = Some t ∧ is_Some (te_result t).
Proof.
  intros Hrid. revert ex. induction blocks as [|b blocks IH]; intros ex Hex Hall Hhas; cbn [executions].
  { destruct Hhas as [[t Ht]|(t & (b & []%elem_of_nil & _) & _)]. exists t. split; [done|by apply Hex]. }
  assert (∀ t, execution_in blocks rid t → is_Some (te_result t)) as Hall'.
  { intros t (b' & Hb & H). apply Hall. exists b'. split; [by right|exact H]. }
  destruct (payload_of_block payload_of b) as [p|] eqn:Hp.
  2:{ apply IH; [done|done|]. destruct Hhas as [?|(t & (b' & [->|Hb]%elem_of_cons & H1 & H2) & Ht)]; [by left|congruence|].
      right. exists t. split; [|done]. by exists b'. }
  destruct p as [t0|r|c im].
  2, 3: apply IH; [done|done|]; destruct Hhas as [?|(t & (b' & [->|Hb]%elem_of_cons & H1 & H2) & Ht)]; [by left|congruence|];
    right; exists t; split; [|done]; by exists b'.
  destruct (te_response_id t0) as [rid0|] eqn:Hr0.
  2:{ apply IH; [done|done|]. destruct Hhas as [?|(t & (b' & [->|Hb]%elem_of_cons & H1 & H2) & Ht)]; [by left|congruence|].
      right. exists t. split; [|done]. by exists b'. }
  destruct (decide (rid0 ∈ turns)) as [Hin|Hin].
  - apply IH; [|done|].
    + intros t. rewrite lookup_insert_Some. intros [[[= -> _] <-]|[_ H]]; [|by apply Hex].
      apply Hall. exists b. split; [by left|done].
    + destruct (decide ((rid0, te_call_id t0) = (rid, cid))) as [Heq|Hne].
      * left. rewrite Heq, lookup_insert_eq. eauto.
      * rewrite lookup_insert_ne by done. destruct Hhas as [?|(t & (b' & [->|Hb]%elem_of_cons & H1 & H2) & Ht)]; [by left| |].
        -- exfalso. apply Hne. congruence.
        -- right. exists t. split; [|done]. by exists b'.
  - apply IH; [done|done|]. destruct Hhas as [?|(t & (b' & [->|Hb]%elem_of_cons & H1 & H2) & Ht)]; [by left| |].
    + exfalso. congruence.
    + right. exists t. split; [|done]. by exists b'.
Qed.

Lemma batch_results_total ex turn calls :
  (∀ c, c ∈ calls → ∃ t, ex !! (turn, tc_id c) = Some t ∧ is_Some (te_result t)) →
  ∃ results, batch_results ex turn calls = Some results ∧ te_result <$> results = (λ c, ex !! (turn, tc_id c) ≫= te_result) <$> calls.
Proof.
  unfold batch_results. induction calls as [|c calls IH]; intros H; [by exists []|].
  destruct (H c) as (t & Ht & [x Hx]); [by left|]. destruct IH as (rs & Hrs & Heq); [intros c' Hc'; apply H; by right|].
  exists (t :: rs). cbn. rewrite Ht. cbn. rewrite Hx. cbn. rewrite Hrs. cbn. split; [done|]. by f_equal.
Qed.

(** A completed turn is replayed: when an assistant turn whose calls have
    distinct ids finished with tool calls, and every call was executed with a
    result, then the conversation holds the turn with all its calls, followed
    by one result per call. *)
Theorem completed_turns_replayed wrap blocks b e r :
  b ∈ blocks → rb_event b = Some e → payload_of e = PResponse r →
  replay_tool_calls r ≠ [] → NoDup (tc_id <$> replay_tool_calls r) →
  (∀ c, c ∈ replay_tool_calls r → ∃ t, execution_in blocks (ev_id e) t ∧ te_call_id t = tc_id c) →
  (∀ t, execution_in blocks (ev_id e) t → is_Some (te_result t)) →
  ∃ pre results post,
    event_blocks_to_messages payload_of json_object wrap blocks = pre ++
      (mk_message ASSISTANT (Some (rb_content b)) None (info_of <$> replay_tool_calls r) (rs_reasoning r) None None (Some r)
       :: (tool_result_message <$> results)) ++ post ∧
    length results = length (replay_tool_calls r).
Proof.
  intros Hb He Hr Hne Hnd Hexec Hres. unfold event_blocks_to_messages. set (ex := executions _ _ _ _).
  apply list_elem_of_split in Hb as (l1 & l2 & Hsplit).
  assert (ev_id e ∈ replayable_turn_ids payload_of json_object blocks) as Hturn.
  { unfold replayable_turn_ids. apply elem_of_list_to_set, list_elem_of_omap. exists b.
    rewrite Hsplit, elem_of_app, elem_of_cons, He, Hr. split; [by right; left|]. by rewrite decide_False. }
  destruct (batch_results_total ex (ev_id e) (replay_tool_calls r)) as (results & Hbatch & Heq).
  { intros c Hc. apply executions_found; [done| |done|by right; apply Hexec].
    intros t. by rewrite lookup_empty. }
  exists (l1 ≫= block_messages ex wrap), results, (l2 ≫= block_messages ex wrap). split.
  - rewrite Hsplit at 1. rewrite bind_app. f_equal. rewrite bind_cons. f_equal. unfold Render.block_messages.
    rewrite He, Hr. cbv zeta. rewrite decide_False by done. rewrite bool_decide_eq_true_2 by done. cbn [negb].
    by rewrite Hbatch.
  - apply (f_equal length) in Heq. by rewrite !length_fmap in Heq.
Qed.
End Conversation.

(** ** The context budget *)

Section BudgetSpec.
Context (count : text → Z) (limit : Z).
Local Abbreviation size_of := (size_of count).
Implicit Types (ibs : list (nat * rblock)) (E : gset nat).

(** The size of the blocks that are not in [E]. *)
Definition kept E ibs : Z := foldr (λ ib n, ((if decide (ib.1 ∈ E) then 0 else size_of ib.2) + n)%Z) 0%Z ibs.

Lemma kept_app E l1 l2 : (kept E (l1 ++ l2) = kept E l1 + kept E l2)%Z.
Proof. induction l1 as [|ib l1 IH]; cbn; [done|]. fold (kept E (l1 ++ l2)) (kept E l1). lia. Qed.

Lemma kept_perm E l1 l2 : l1 ≡ₚ l2 → kept E l1 = kept E l2.
Proof. unfold kept. induction 1; cbn; lia. Qed.

Lemma kept_absent i E ibs : i ∉ ibs.*1 → kept ({[i]} ∪ E) ibs = kept E ibs.
Proof.
  induction ibs as [|[j b] ibs IH]; [done|]. cbn. intros [Hne Hi]%not_elem_of_cons.
  fold (kept ({[i]} ∪ E) ibs) (kept E ibs). rewrite IH by done. f_equal.
  destruct (decide (j ∈ E)) as [Hj|Hj]; [rewrite decide_True by set_solver; done|].
  by rewrite decide_False by set_solver.
Qed.

Lemma kept_evict i b E ibs : NoDup ibs.*1 → (i, b) ∈ ibs → i ∉ E →
  (kept ({[i]} ∪ E) ibs = kept E ibs - size_of b)%Z.
Proof.
  intros Hnd Hin Hi. apply list_elem_of_split in Hin as (l1 & l2 & ->).
  rewrite fmap_app in Hnd. cbn in Hnd. apply NoDup_app in Hnd as (_ & H1 & H2). apply NoDup_cons in H2 as [H2 _].
  assert (i ∉ l1.*1) as Hl1 by (intros H; apply (H1 i H); by left).
  rewrite !kept_app, !(kept_absent i E l1) by done. cbn. fold (kept ({[i]} ∪ E) l2) (kept E l2).
  rewrite (kept_absent i E l2) by done. rewrite decide_True by set_solver. rewrite decide_False by done. lia.
Qed.

(** What a pass does to the indices: the selected blocks of a prefix of the
    (reversed) list, each evicted while the total was too large, until the total
    fits or the list ends. *)
Lemma evict_pass_spec ibs select rev E total' E' : NoDup ibs.*1 → rev ⊆ ibs →
  (∀ i b, (i, b) ∈ rev → select i b = true → i ∉ E) → NoDup rev.*1 →
  evict_pass count limit select rev (kept E ibs) E = (total', E') →
  total' = kept E' ibs ∧ E ⊆ E' ∧
  (∀ i b, (i, b) ∈ rev → i ∈ E' → i ∈ E ∨ select i b = true) ∧
  (∀ i, i ∈ E' → i ∈ E ∨ i ∈ rev.*1) ∧
  ((total' ≤ limit)%Z ∨ ∀ i b, (i, b) ∈ rev → select i b = true → i ∈ E') ∧
  (∀ l1 i b l2 j b', rev = l1 ++ (i, b) :: l2 → i ∈ E' → i ∉ E → (j, b') ∈ l1 → select j b' = true → j ∈ E') ∧
  (E' ≠ E → ∃ i, i ∈ E' ∧ i ∉ E ∧ (limit < kept (E' ∖ {[i]}) ibs)%Z) ∧
  ((kept E ibs ≤ limit)%Z → E' = E).
Proof.
  intros Hnd. revert E. induction rev as [|[i b] rev IH]; intros E Hsub Hsel Hrev; cbn [evict_pass].
  { intros [= <- <-]. split; [done|]. split; [done|]. split; [by intros ?? ?%elem_of_nil|]. split; [by left|].
    split; [right; by intros ?? ?%elem_of_nil|]. split; [by intros []|]. done. }
  cbn in Hrev. apply NoDup_cons in Hrev as [Hi Hrev].
  assert (rev ⊆ ibs) as Hsub' by set_solver.
  destruct (_ <=? _)%Z eqn:Hfit.
  { intros [= <- <-]. apply Z.leb_le in Hfit. split; [done|]. split; [done|]. split; [by left|]. split; [by left|].
    split; [by left|]. split; [naive_solver|]. done. }
  apply Z.leb_gt in Hfit.
  destruct (select i b) eqn:Hs.
  - assert (i ∉ E) as HiE by (apply (Hsel i b); [by left|done]).
    rewrite <-(kept_evict i b E ibs Hnd) by (done || apply Hsub; by left).
    intros Hrun. apply IH in Hrun as (H1 & H2 & H3 & H4 & H5 & H6 & H7 & H8); [|done| |done].
    2:{ intros j b' Hj Hsj. apply not_elem_of_union. split; [|apply (Hsel j b'); [by right|done]].
        apply not_elem_of_singleton. intros ->. apply Hi. by apply (list_elem_of_fmap_2 fst _ (i, b')). }
    assert (i ∈ E') as HiE' by set_solver.
    split; [done|]. split; [set_solver|]. split.
    { intros j b' [[= -> ->]|Hj]%elem_of_cons HjE; [by right|]. destruct (H3 j b' Hj HjE) as [Hu|]; [|by right].
      apply elem_of_union in Hu as [->%elem_of_singleton|]; [|by left].
      exfalso. apply Hi. by apply (list_elem_of_fmap_2 fst _ (i, b')). }
    split. { intros j Hj. destruct (H4 j Hj) as [Hu|]; [|right; by right].
      apply elem_of_union in Hu as [->%elem_of_singleton|]; [right; by left|by left]. }
    split. { destruct H5 as [?|H5]; [by left|right]. intros j b' [[= -> ->]|Hj]%elem_of_cons Hsj; [done|by eapply H5]. }
    split. { intros [|x l1] k bk l2 j b' Heq Hk HkE Hj Hsj; [by apply elem_of_nil in Hj|].
      injection Heq as <- Heq. apply elem_of_cons in Hj as [[= -> ->]|Hj]; [done|].
      apply (H6 l1 k bk l2 j b' Heq Hk); [|done|done]. apply not_elem_of_union. split; [|done].
      apply not_elem_of_singleton. intros ->. apply Hi. rewrite Heq, fmap_app. apply elem_of_app. right. by left. }
    split. { intros _. destruct (decide (E' = {[i]} ∪ E)) as [->|Hne].
      - exists i. split; [done|]. split; [done|]. by replace (({[i]} ∪ E) ∖ {[i]}) with E by set_solver.
      - destruct (H7 Hne) as (k & Hk & HkE & Hlt). exists k. split; [done|]. split; [set_solver|done]. }
    lia.
  - intros Hrun. apply IH in Hrun as (H1 & H2 & H3 & H4 & H5 & H6 & H7 & H8); [|done| |done].
    2:{ intros j b' Hj. apply Hsel. by right. }
    split; [done|]. split; [done|]. split.
    { intros j b' [[= -> ->]|Hj]%elem_of_cons HjE; [|by apply (H3 j b')]. left.
      destruct (H4 i HjE) as [|Hin]; [done|]. done. }
    split. { intros j Hj. destruct (H4 j Hj); [by left|right; by right]. }
    split. { destruct H5 as [?|H5]; [by left|right]. intros j b' [[= -> ->]|Hj]%elem_of_cons Hsj; [congruence|by eapply H5]. }
    split. { intros [|x l1] k bk l2 j b' Heq Hk HkE Hj Hsj; [by apply elem_of_nil in Hj|].
      injection Heq as <- Heq. apply elem_of_cons in Hj as [[= -> ->]|Hj]; [congruence|].
      by apply (H6 l1 k bk l2 j b' Heq Hk). }
    done.
Qed.

Lemma elem_of_indexed {A} i (x : A) l : (i, x) ∈ imap pair l ↔ l !! i = Some x.
Proof.
  rewrite list_elem_of_lookup. split.
  - intros [j Hj]. rewrite list_lookup_imap in Hj. destruct (l !! j) eqn:Hl; by simplify_eq/=.
  - intros Hi. exists i. by rewrite list_lookup_imap, Hi.
Qed.

Lemma indexed_keys {A} (l : list A) : NoDup (imap pair l).*1.
Proof.
  apply NoDup_alt. intros i j k. rewrite !list_lookup_fmap, !list_lookup_imap.
  destruct (l !! i), (l !! j); naive_solver.
Qed.

Lemma kept_all blocks : kept ∅ (imap pair blocks) = total_of count blocks.
Proof.
  assert (∀ f : nat → nat, kept ∅ (imap (λ i b, (f i, b)) blocks) = total_of count blocks) as H.
  { induction blocks as [|b blocks IH]; intros f; [done|]. rewrite imap_cons. unfold kept, total_of in *. cbn.
    rewrite decide_False by set_solver. f_equal. apply (IH (f ∘ S)). }
  apply (H id).
Qed.

(** Later blocks come first in the reversed list. *)
Lemma reverse_later {A} (l : list A) i j x y : i < j → l !! i = Some x → l !! j = Some y →
  ∃ l1 l2, reverse (imap pair l) = l1 ++ (i, x) :: l2 ∧ (j, y) ∈ l1.
Proof.
  intros Hij Hx Hy. assert (imap pair l !! i = Some (i, x)) as Hi by (by rewrite list_lookup_imap, Hx).
  exists (reverse (drop (S i) (imap pair l))), (reverse (take i (imap pair l))). split.
  - rewrite <-(take_drop_middle _ _ _ Hi) at 1. rewrite reverse_app, reverse_cons, <-app_assoc. done.
  - rewrite elem_of_reverse. apply list_elem_of_lookup. exists (j - S i). rewrite lookup_drop, list_lookup_imap.
    replace (S i + (j - S i)) with j by lia. by rewrite Hy.
Qed.

Definition first_class (b : rblock) : bool := (md_user_block (rb_meta b) && negb (md_static (rb_meta b)))%bool.

(** The two passes over a prompt that does not fit, in terms of its blocks. *)
Lemma budget_passes blocks : (limit < total_of count blocks)%Z → ∃ E1 E2 : gset nat,
  apply_context_total_limit count limit blocks =
    (imap (λ i b, if decide (i ∈ E2) then evicted_block (size_of b) b else b) blocks, size E2) ∧
  (∀ i, i ∈ E1 → ∃ b, blocks !! i = Some b ∧ first_class b = true) ∧
  ((kept E1 (imap pair blocks) ≤ limit)%Z ∨ ∀ i b, blocks !! i = Some b → first_class b = true → i ∈ E1) ∧
  (∀ i j b b', i ∈ E1 → i < j → blocks !! i = Some b → blocks !! j = Some b' → first_class b' = true → j ∈ E1) ∧
  (E1 ≠ ∅ → ∃ i, i ∈ E1 ∧ (limit < kept (E1 ∖ {[i]}) (imap pair blocks))%Z) ∧
  E1 ⊆ E2 ∧ (∀ i, i ∈ E2 → ∃ b, blocks !! i = Some b ∧ md_static (rb_meta b) = false) ∧
  ((kept E2 (imap pair blocks) ≤ limit)%Z ∨ ∀ i b, blocks !! i = Some b → md_static (rb_meta b) = false → i ∈ E2) ∧
  (∀ i j b b', i ∈ E2 → i ∉ E1 → i < j → blocks !! i = Some b → blocks !! j = Some b' →
     md_static (rb_meta b') = false → j ∈ E2) ∧
  (E2 ≠ E1 → ∃ i, i ∈ E2 ∧ (limit < kept (E2 ∖ {[i]}) (imap pair blocks))%Z) ∧
  ((kept E1 (imap pair blocks) ≤ limit)%Z → E2 = E1).
Proof.
  intros Hfit. unfold apply_context_total_limit. rewrite (proj2 (Z.leb_gt _ _) Hfit), <-kept_all.
  set (ibs := imap pair blocks). set (rev := reverse ibs).
  assert (NoDup ibs.*1) as Hnd by apply indexed_keys.
  assert (rev ⊆ ibs) as Hsub by (intros x; unfold rev; by rewrite elem_of_reverse).
  assert (NoDup rev.*1) as Hrev by (unfold rev; by rewrite fmap_reverse, reverse_Permutation).
  assert (∀ i b, (i, b) ∈ rev ↔ blocks !! i = Some b) as Helem.
  { intros i b. unfold rev, ibs. by rewrite elem_of_reverse, elem_of_indexed. }
  assert (∀ i, i ∈ rev.*1 → ∃ b, blocks !! i = Some b) as Hkey.
  { intros i ([k b] & -> & Hr)%list_elem_of_fmap. exists b. by apply Helem. }
  destruct (evict_pass _ _ _ rev (kept ∅ ibs) ∅) as [t1 E1] eqn:H1.
  apply (evict_pass_spec ibs) in H1 as (-> & _ & A3 & A4 & A5 & A6 & A7 & _); [|done|done|set_solver|done].
  destruct (evict_pass _ _ _ rev (kept E1 ibs) E1) as [t2 E2] eqn:H2.
  apply (evict_pass_spec ibs) in H2 as (-> & B2 & B3 & B4 & B5 & B6 & B7 & B8);
    [|done|done|by intros i b _ [? _]%andb_true_iff; bool_prop|done].
  assert (∀ i, i ∈ E1 → ∃ b, blocks !! i = Some b ∧ first_class b = true) as HE1.
  { intros i Hi. destruct (A4 i Hi) as [[]%not_elem_of_empty|Hr]. destruct (Hkey i Hr) as [b Hb].
    exists b. split; [done|]. destruct (A3 i b (proj2 (Helem i b) Hb) Hi) as [[]%not_elem_of_empty|Hs]; done. }
  assert (∀ i b, md_static (rb_meta b) = false → i ∉ E1 →
    bool_decide (i ∉ E1) && negb (md_static (rb_meta b)) = true)%bool as Hsel.
  { intros i b Hs Hi. by rewrite bool_decide_eq_true_2, Hs. }
  exists E1, E2. split; [done|]. split; [done|]. split.
  { destruct A5 as [?|A5]; [by left|right]. intros i b Hb Hs. apply (A5 i b); [by apply Helem|done]. }
  split. { intros i j b b' Hi Hij Hb Hb' Hs. destruct (reverse_later blocks i j b b' Hij Hb Hb') as (l1 & l2 & Heq & Hin).
    apply (A6 l1 i b l2 j b' Heq Hi); [set_solver|done|done]. }
  split. { intros Hne. destruct (A7 Hne) as (i & Hi & _ & Hlt). by exists i. }
  split; [done|]. split.
  { intros i Hi. destruct (B4 i Hi) as [Hi1|Hr].
    - destruct (HE1 i Hi1) as (b & Hb & [_ Hs]%andb_true_iff). exists b. by bool_prop.
    - destruct (Hkey i Hr) as [b Hb]. exists b. split; [done|].
      destruct (B3 i b (proj2 (Helem i b) Hb) Hi) as [Hi1|[_ Hs]%andb_true_iff]; [|by bool_prop].
      destruct (HE1 i Hi1) as (b0 & Hb0 & [_ Hs]%andb_true_iff). assert (b0 = b) as -> by congruence. by bool_prop. }
  split. { destruct B5 as [?|B5]; [by left|right]. intros i b Hb Hs. destruct (decide (i ∈ E1)) as [|Hi]; [set_solver|].
    apply (B5 i b); [by apply Helem|by apply (Hsel i b)]. }
  split. { intros i j b b' Hi Hi1 Hij Hb Hb' Hs. destruct (reverse_later blocks i j b b' Hij Hb Hb') as (l1 & l2 & Heq & Hin).
    destruct (decide (j ∈ E1)) as [|Hj]; [set_solver|]. apply (B6 l1 i b l2 j b' Heq Hi Hi1 Hin). by apply (Hsel j b'). }
  split; [|done]. intros Hne. destruct (B7 Hne) as (i & Hi & _ & Hlt). by exists i.
Qed.

(** C7.  The context budget evicts in place, from the end, the user's blocks
    before the framework's and never a static one: the blocks that are left fit
    the limit unless everything that may go is gone, a framework block, protected
    or not, goes
    only when no user block is left, among equals the later ones go first, and
    without its last eviction the total would still be too large; a prompt that
    fits is untouched. *)
Theorem budget_evicts_in_order blocks out n : apply_context_total_limit count limit blocks = (out, n) →
  ∃ E : gset nat, n = size E ∧
    out = imap (λ i b, if decide (i ∈ E) then evicted_block (size_of b) b else b) blocks ∧
    (∀ i, i ∈ E → ∃ b, blocks !! i = Some b ∧ md_static (rb_meta b) = false) ∧
    ((kept E (imap pair blocks) ≤ limit)%Z ∨
       ∀ i b, blocks !! i = Some b → md_static (rb_meta b) = false → i ∈ E) ∧
    (∀ i b, i ∈ E → blocks !! i = Some b → md_user_block (rb_meta b) = false →
       ∀ j b', blocks !! j = Some b' → md_user_block (rb_meta b') = true → md_static (rb_meta b') = false → j ∈ E) ∧
    (∀ i j b b', i ∈ E → i < j → blocks !! i = Some b → blocks !! j = Some b' →
       md_user_block (rb_meta b) = md_user_block (rb_meta b') → md_static (rb_meta b') = false → j ∈ E) ∧
    (E ≠ ∅ → ∃ i, i ∈ E ∧ (limit < kept (E ∖ {[i]}) (imap pair blocks))%Z) ∧
    ((total_of count blocks ≤ limit)%Z → E = ∅).
Proof.
  intros Hrun. destruct (Z.leb_spec (total_of count blocks) limit) as [Hfit|Hfit].
  { unfold apply_context_total_limit in Hrun. rewrite (proj2 (Z.leb_le _ _) Hfit) in Hrun. injection Hrun as <- <-.
    exists ∅. split; [by rewrite size_empty|]. split.
    { apply list_eq. intros i. rewrite list_lookup_imap. destruct (blocks !! i); cbn; [|done].
      by rewrite decide_False by set_solver. }
    split; [set_solver|]. split; [left; by rewrite kept_all|]. split; [set_solver|]. split; [set_solver|]. done. }
  destruct (budget_passes blocks Hfit) as (E1 & E2 & Heq & A1 & A2 & A3 & A4 & B1 & B2 & B3 & B4 & B5 & B6).
  rewrite Heq in Hrun. injection Hrun as <- <-. exists E2. split; [done|]. split; [done|]. split; [done|].
  split; [done|]. split.
  { intros i b Hi Hb Hu j b' Hb' Hu' Hs'. apply B1. destruct A2 as [A2|A2].
    - rewrite (B6 A2) in Hi. destruct (A1 i Hi) as (b0 & Hb0 & [? _]%andb_true_iff). congruence.
    - apply (A2 j b' Hb'). unfold first_class. by rewrite Hu', Hs'. }
  split.
  { intros i j b b' Hi Hij Hb Hb' Hu Hs. destruct (decide (i ∈ E1)) as [Hi1|Hi1].
    - apply B1, (A3 i j b b' Hi1 Hij Hb Hb'). destruct (A1 i Hi1) as (b0 & Hb0 & [Hu0 _]%andb_true_iff).
      assert (b0 = b) as -> by congruence. unfold first_class. by rewrite <-Hu, Hu0, Hs.
    - by apply (B4 i j b b'). }
  split; [|intros; exfalso; lia]. intros Hne. destruct (decide (E2 = E1)) as [->|HE]; [by apply A4|by apply B5].
Qed.
End BudgetSpec.

(** The budget counts the blocks that stay, not the labels of those that go:
    evicting short blocks can make the prompt larger than it was and leave it
    over the limit. *)
Theorem evicted_labels_uncounted : ∃ blocks : list rblock,
  let count t := Z.of_nat (length t) in
  let out := (apply_context_total_limit count 10 blocks).1 in
  (total_of count blocks = 15 ∧ 10 < total_of count out ∧ total_of count blocks < total_of count out)%Z.
Proof.
  exists (replicate 3 (system_block "k" (lit "five.") (mk_meta None None false true false false))).
  vm_compute. done.
Qed.

(** ** Encodable text *)

(** The escapes hold no surrogate, so the rendered text can be encoded, and text
    that can be encoded is left alone. *)
Lemma utf8_safe_text_spec t :
  Forall (λ c, surrogate c = false) (utf8_safe_text t) ∧
  (Forall (λ c, surrogate c = false) t → utf8_safe_text t = t).
Proof.
  unfold utf8_safe_text. induction t as [|c t [IH1 IH2]]; [by split|]. rewrite bind_cons. split.
  - apply Forall_app. split; [|done]. destruct (surrogate c) eqn:Hc; [|by constructor].
    assert (∀ n, (n < 16)%N → surrogate (hex_digit n) = false) as Hhex.
    { intros n Hn. unfold surrogate, hex_digit. destruct (N.ltb_spec n 10); rewrite (proj2 (N.leb_gt _ _)) by lia; done. }
    assert (∀ n, (N.land n 15 < 16)%N) as Hland.
    { intros n. change 15%N with (N.ones 4). rewrite N.land_ones. by apply N.mod_lt. }
    unfold escape_surrogate. repeat (apply Forall_cons; split; [try done; apply Hhex, Hland|]). constructor.
  - intros [Hc Ht]%Forall_cons. rewrite Hc, IH2 by done. done.
Qed.

(** ** Witnesses

    A turn with two calls and its executions, a user message, and a tool call
    of an old session. *)
Definition demo_call (id : string) : tool_call := mk_call (lit id) (lit "python") (lit "{}").

Definition demo_turn : response :=
  mk_response [AssistantReasoning (lit "think") false; AssistantText (lit "running") false;
    AssistantCall (demo_call "a") false; AssistantCall (demo_call "b") true] FToolCalls.

Definition demo_exec (id : string) : tool_event :=
  mk_tool_event (lit id) (lit "python") (VDict []) (Some "turn"%string) (Some (lit "done")) false.

Definition demo_payload (e : event) : payload :=
  match ev_id e with
  | "turn" => PResponse demo_turn
  | "a" => PToolCall (demo_exec "a")
  | "b" => PToolCall (demo_exec "b")
  | "old" => PToolCall (mk_tool_event (lit "o") (lit "search") (VDict []) None None false)
  | _ => POther (Some (lit "hello")) None
  end%string.

Definition demo_block (id : string) (r : role) : rblock :=
  event_block (mk_event id id id r (Some id) ACTIVE [] [] None).

Definition demo_prompt : list rblock :=
  [system_block "self" (lit "docs") (mk_meta None None false false true false);
   system_block "note" (lit "a rather long note") (mk_meta None None false true false false);
   demo_block "user" USER; demo_block "turn" ASSISTANT; demo_block "a" ASSISTANT; demo_block "old" ASSISTANT;
   demo_block "b" ASSISTANT].

Definition demo_render (limit : option Z) :=
  render_context demo_payload (λ _, lit "{}") (λ _, lit "event") (xml_format demo_payload (λ _, true))
    demo_prompt limit (Some (λ t, Z.of_nat (length t))).

Lemma conversation_pairs_tool_calls_witness :
  ∃ content rest, (match demo_render (Some 10%Z) with Ok (ws, _, _) => ws | Raise _ => [] end) =
    WPlain SYSTEM content None :: rest ∧ wire_paired rest ∧ length rest = 6.
Proof.
  destruct (demo_render (Some 10%Z)) as [[[ws st] ms]|] eqn:Hr; [|vm_compute in Hr; discriminate].
  destruct (conversation_pairs_tool_calls demo_payload (λ _, true) (λ _, lit "{}") (λ _, lit "event")
    demo_prompt (Some 10%Z) (Some (λ t, Z.of_nat (length t))) ws st ms Hr) as (content & rest & Hws & Hp).
  exists content, rest. split; [exact Hws|]. split; [exact Hp|]. subst ws. vm_compute in Hr. by injection Hr as _ <- _ _.
Defined.

Lemma completed_turns_replayed_witness : ∃ pre results post,
  event_blocks_to_messages demo_payload (λ _, true) None (drop 2 demo_prompt) = pre ++
    (mk_message ASSISTANT (Some []) None (info_of <$> [demo_call "a"; demo_call "b"]) (Some (lit "think"))
       None None (Some demo_turn) :: (tool_result_message <$> results)) ++ post ∧ length results = 2.
Proof.
  apply (completed_turns_replayed demo_payload (λ _, true) None (drop 2 demo_prompt) (demo_block "turn" ASSISTANT)
    (mk_event "turn" "turn" "turn" ASSISTANT (Some "turn"%string) ACTIVE [] [] None) demo_turn).
  - by right; left.
  - reflexivity.
  - reflexivity.
  - vm_compute. discriminate.
  - apply (bool_decide_unpack _). vm_compute. exact I.
  - intros c Hc. assert (c = demo_call "a" ∨ c = demo_call "b") as [-> | ->].
    { change (c ∈ [demo_call "a"; demo_call "b"]) in Hc. rewrite !elem_of_cons, elem_of_nil in Hc. naive_solver. }
    + exists (demo_exec "a"). split; [|reflexivity]. exists (demo_block "a" ASSISTANT). split; [by right; right; left|by split].
    + exists (demo_exec "b"). split; [|reflexivity]. exists (demo_block "b" ASSISTANT).
      split; [by right; right; right; right; left|by split].
  - intros t (b & Hb & Hp & Ht). cbn [demo_prompt drop] in Hb. rewrite !elem_of_cons, elem_of_nil in Hb.
    destruct Hb as [->|[->|[->|[->|[->|[]]]]]]; cbn in Hp; try discriminate; injection Hp as <-; try discriminate; by eexists.
Defined.

Definition budget_blocks : list rblock :=
  [system_block "self" (lit "documentation") (mk_meta None None false false false false);
   system_block "note" (lit "a long note") (mk_meta None None false true false false);
   system_block "pin" (lit "pinned") (mk_meta None None false true true false)].

Lemma budget_evicts_in_order_witness :
  ∃ E : gset nat, size E = 1 ∧ 2 ∉ E ∧
    (apply_context_total_limit (λ t, Z.of_nat (length t)) 20 budget_blocks).1 =
      imap (λ i b, if decide (i ∈ E) then evicted_block (Z.of_nat (length (rb_content b))) b else b) budget_blocks.
Proof.
  destruct (budget_evicts_in_order (λ t, Z.of_nat (length t)) 20 budget_blocks _ _
    (surjective_pairing (apply_context_total_limit (λ t, Z.of_nat (length t)) 20 budget_blocks)))
    as (E & Hn & Hout & Hstatic & _).
  exists E. split; [rewrite <-Hn; vm_compute; reflexivity|]. split; [|exact Hout].
  intros H2. destruct (Hstatic 2 H2) as (b & Hb & Hs). injection Hb as <-. discriminate Hs.
Defined.
