(* ===== verification/PyAst.v ===== *)
(** * The syntax tree of Python and its traversal

    The nodes of Python's [ast] module that the code validators inspect, with
    their fields in the order of [_fields]; every other node class is [Other],
    with its child nodes in order.  Context and operator nodes, which no
    validator looks at, are left out.  [visit] is [ast.NodeVisitor.visit] for
    the visitors of [nooa/runtime/code_validator.py]: each of their methods
    inspects the node and then calls [generic_visit]. *)

From S2P Require Import Prelude PyStr.

(** ** Nodes *)

(** Where a node stands: lines from 1, columns from 0 in UTF-8 bytes. *)
Record pos := mk_pos { lineno : nat; col_offset : nat; end_lineno : nat; end_col_offset : nat }.

#[export] Instance pos_eq_dec : EqDecision pos.
Proof. solve_decision. Defined.

(** [ast.alias]: [name as asname]. *)
Record alias := mk_alias { al_name : string; al_asname : option string }.

(** [alias.asname or alias.name]; a parsed [asname] is never empty. *)
Definition local_name (a : alias) : string := default (al_name a) (al_asname a).

(** The value of [ast.Constant]; the flag of [COther] says that it is equal
    to 1 (the floats and complex numbers [1.0], [1+0j]). *)
Inductive constant :=
  | CNone
  | CBool (b : bool)
  | CInt (n : Z)
  | CStr (s : string)
  | COther (equals_one : bool).

Inductive unary_op := Not | OtherUnary.

Inductive node :=
  | Module (body : list node)
  | Import (p : pos) (names : list alias)
  | ImportFrom (p : pos) (module : option string) (names : list alias)
  | Call (p : pos) (func : node) (args keywords : list node)
  | Attribute (p : pos) (value : node) (attr : string)
  | Name (p : pos) (id : string)
  | Constant (p : pos) (value : constant)
  | UnaryOp (p : pos) (op : unary_op) (operand : node)
  | Starred (p : pos) (value : node)
  | TupleExpr (p : pos) (elts : list node)
  | ListExpr (p : pos) (elts : list node)
  | ListComp (p : pos) (elt : node) (generators : list node)
  | GeneratorExp (p : pos) (elt : node) (generators : list node)
  | Await (p : pos) (value : node)
  | Assign (p : pos) (targets : list node) (value : node)
  | AugAssign (p : pos) (target value : node)
  | AnnAssign (p : pos) (target annotation : node) (value : option node)
  | Return (p : pos) (value : option node)
  | RaiseStmt (p : pos) (exc cause : option node)
  | Break (p : pos)
  | Continue (p : pos)
  | While (p : pos) (test : node) (body orelse : list node)
  | For (p : pos) (is_async : bool) (target iter : node) (body orelse : list node)
  | FunctionDef (p : pos) (is_async : bool) (name : string) (arguments : node) (body rest : list node)
  | ClassDef (p : pos) (name : string) (bases : list node) (body rest : list node)
  | Other (p : pos) (kind : string) (child_nodes : list node).

(** [ast.iter_child_nodes]. *)
Definition children (n : node) : list node :=
  match n with
  | Module body => body
  | Import _ _ | ImportFrom _ _ _ | Name _ _ | Constant _ _ | Break _ | Continue _ => []
  | Call _ f args kws => f :: args ++ kws
  | Attribute _ v _ | UnaryOp _ _ v | Starred _ v | Await _ v => [v]
  | TupleExpr _ l | ListExpr _ l | Other _ _ l => l
  | ListComp _ e gens | GeneratorExp _ e gens => e :: gens
  | Assign _ targets v => targets ++ [v]
  | AugAssign _ t v => [t; v]
  | AnnAssign _ t a v => t :: a :: option_list v
  | Return _ v => option_list v
  | RaiseStmt _ e c => option_list e ++ option_list c
  | While _ test body orelse => test :: body ++ orelse
  | For _ _ t it body orelse => t :: it :: body ++ orelse
  | FunctionDef _ _ _ args body rest => args :: body ++ rest
  | ClassDef _ _ bases body rest => bases ++ body ++ rest
  end.

(** The position of a node; a [Module] has none. *)
Definition pos_of (n : node) : pos :=
  match n with
  | Module _ => mk_pos 0 0 0 0
  | Import p _ | ImportFrom p _ _ | Call p _ _ _ | Attribute p _ _ | Name p _ | Constant p _
  | UnaryOp p _ _ | Starred p _ | TupleExpr p _ | ListExpr p _ | ListComp p _ _ | GeneratorExp p _ _
  | Await p _ | Assign p _ _ | AugAssign p _ _ | AnnAssign p _ _ _ | Return p _ | RaiseStmt p _ _
  | Break p | Continue p | While p _ _ _ | For p _ _ _ _ _ | FunctionDef p _ _ _ _ _ | ClassDef p _ _ _ _
  | Other p _ _ => p
  end.

(** *** Induction *)

Ltac forall_children IH :=
  repeat first
    [ apply Forall_nil_2
    | apply Forall_cons_2; [apply IH|]
    | apply Forall_app_2
    | match goal with
      | |- Forall _ (option_list ?o) => is_var o; destruct o; cbn
      | |- Forall _ ?l => is_var l; induction l; [apply Forall_nil_2|apply Forall_cons_2; [apply IH|assumption]]
      end ].

(** Induction on a node, with the property of every child. *)
Lemma node_children_ind (P : node → Prop) :
  (∀ n, Forall P (children n) → P n) → ∀ n, P n.
Proof. intros H. fix IH 1. intros n. apply H. destruct n; cbn; forall_children IH. Qed.

(** ** Traversal *)

Section Visitor.
Context {S : Type} (enter : list node → node → S → S).

(** [visit]: the method of the visitor, which sees the ancestors of the node
    (nearest first) and its own state, then [generic_visit]. *)
Fixpoint visit (ancestors : list node) (n : node) (s : S) : S :=
  let visit_list :=
    fix visit_list (l : list node) (s : S) : S :=
      match l with [] => s | c :: l' => visit_list l' (visit (n :: ancestors) c s) end in
  let visit_option (o : option node) (s : S) : S :=
    match o with None => s | Some c => visit (n :: ancestors) c s end in
  let s := enter ancestors n s in
  match n with
  | Module body => visit_list body s
  | Import _ _ | ImportFrom _ _ _ | Name _ _ | Constant _ _ | Break _ | Continue _ => s
  | Call _ f args kws => visit_list kws (visit_list args (visit (n :: ancestors) f s))
  | Attribute _ v _ | UnaryOp _ _ v | Starred _ v | Await _ v => visit (n :: ancestors) v s
  | TupleExpr _ l | ListExpr _ l | Other _ _ l => visit_list l s
  | ListComp _ e gens | GeneratorExp _ e gens => visit_list gens (visit (n :: ancestors) e s)
  | Assign _ targets v => visit (n :: ancestors) v (visit_list targets s)
  | AugAssign _ t v => visit (n :: ancestors) v (visit (n :: ancestors) t s)
  | AnnAssign _ t a v => visit_option v (visit (n :: ancestors) a (visit (n :: ancestors) t s))
  | Return _ v => visit_option v s
  | RaiseStmt _ e c => visit_option c (visit_option e s)
  | While _ test body orelse => visit_list orelse (visit_list body (visit (n :: ancestors) test s))
  | For _ _ t it body orelse =>
      visit_list orelse (visit_list body (visit (n :: ancestors) it (visit (n :: ancestors) t s)))
  | FunctionDef _ _ _ args body rest => visit_list rest (visit_list body (visit (n :: ancestors) args s))
  | ClassDef _ _ bases body rest => visit_list rest (visit_list body (visit_list bases s))
  end.

(** [generic_visit] over a list of nodes. *)
Definition visit_all (ancestors : list node) (l : list node) (s : S) : S :=
  foldl (λ s c, visit ancestors c s) s l.

Lemma visit_list_all ancestors l s :
  (fix visit_list (l : list node) (s : S) : S :=
      match l with [] => s | c :: l' => visit_list l' (visit ancestors c s) end) l s
  = visit_all ancestors l s.
Proof. revert s. induction l as [|c l IH]; intros s; cbn; [done|apply IH]. Qed.

Lemma visit_all_app ancestors l1 l2 s :
  visit_all ancestors (l1 ++ l2) s = visit_all ancestors l2 (visit_all ancestors l1 s).
Proof. apply foldl_app. Qed.

Lemma visit_all_cons ancestors c l s :
  visit_all ancestors (c :: l) s = visit_all ancestors l (visit ancestors c s).
Proof. reflexivity. Qed.

(** A visit enters the node and visits its children in order. *)
Lemma visit_unfold ancestors n s :
  visit ancestors n s = visit_all (n :: ancestors) (children n) (enter ancestors n s).
Proof.
  destruct n; cbn [visit children];
    repeat match goal with |- context [option_list ?o] => is_var o; destruct o end; unfold option_list; cbn [app];
    rewrite ?visit_list_all, ?visit_all_cons, ?visit_all_app, ?visit_all_cons; reflexivity.
Qed.
End Visitor.

(** *** The visited nodes, in order, with their ancestors *)

Definition collect_node (a : list node) (m : node) (acc : list (list node * node)) : list (list node * node) :=
  acc ++ [(a, m)].

Definition walk (ancestors : list node) (n : node) : list (list node * node) :=
  visit collect_node ancestors n [].

Lemma visit_all_collect_Forall ancestors l acc :
  Forall (λ c, ∀ acc, visit collect_node ancestors c acc = acc ++ walk ancestors c) l →
  visit_all collect_node ancestors l acc = acc ++ (l ≫= walk ancestors).
Proof.
  intros Hl. revert acc. induction Hl as [|c l Hc _ IH]; intros acc; [by rewrite app_nil_r|].
  rewrite visit_all_cons, Hc, IH. cbn. by rewrite <- app_assoc.
Qed.

Lemma visit_collect_app ancestors n acc : visit collect_node ancestors n acc = acc ++ walk ancestors n.
Proof.
  unfold walk. revert ancestors acc. induction n as [n IH] using node_children_ind. intros ancestors acc.
  assert (Forall (λ c, ∀ acc, visit collect_node (n :: ancestors) c acc = acc ++ walk (n :: ancestors) c) (children n)) as Hl
    by (eapply Forall_impl; [exact IH|]; intros c Hc acc'; apply Hc).
  rewrite !(visit_unfold _ ancestors n), !visit_all_collect_Forall by done. unfold collect_node.
  by rewrite <- app_assoc.
Qed.

Lemma visit_all_collect ancestors l acc :
  visit_all collect_node ancestors l acc = acc ++ (l ≫= walk ancestors).
Proof. apply visit_all_collect_Forall, Forall_true. intros. apply visit_collect_app. Qed.

(** The node, then the walks of its children. *)
Lemma walk_unfold ancestors n :
  walk ancestors n = (ancestors, n) :: (children n ≫= walk (n :: ancestors)).
Proof. unfold walk at 1. rewrite visit_unfold, visit_all_collect. done. Qed.

(** Every visitor is a fold over the walk. *)
Lemma visit_walk {S} (enter : list node → node → S → S) ancestors n s :
  visit enter ancestors n s = foldl (λ s am, enter am.1 am.2 s) s (walk ancestors n).
Proof.
  revert ancestors s. induction n as [n IH] using node_children_ind. intros ancestors s.
  rewrite visit_unfold, walk_unfold. cbn [foldl fst snd]. generalize (enter ancestors n s) as s0.
  generalize (n :: ancestors) as anc. clear s. induction IH as [|c l Hc _ IHl]; intros anc s0; [done|].
  rewrite visit_all_cons, bind_cons, foldl_app, Hc. apply IHl.
Qed.

Lemma visit_ext {S} (e1 e2 : list node → node → S → S) a n s :
  (∀ a n s, e1 a n s = e2 a n s) → visit e1 a n s = visit e2 a n s.
Proof.
  intros He. rewrite !visit_walk. revert s. induction (walk a n) as [|[b m] l IH]; intros s; [done|].
  cbn. by rewrite He, IH.
Qed.

(** What every visited node keeps, the visit keeps. *)
Lemma visit_invariant {S} (enter : list node → node → S → S) (P : S → Prop) a n s :
  (∀ b m s, (b, m) ∈ walk a n → P s → P (enter b m s)) → P s → P (visit enter a n s).
Proof.
  rewrite visit_walk. revert s. induction (walk a n) as [|[b m] l IH]; intros s Hl Hs; [done|].
  cbn. apply IH; [intros; apply Hl; [by right|done]|]. apply Hl; [by left|done].
Qed.

(** *** Nodes of a tree *)

(** [m] stands below [n], under [ancestors]. *)
Inductive within : list node → node → list node → node → Prop :=
  | within_here a n : within a n a n
  | within_child a n c a' m :
      c ∈ children n → within (n :: a) c a' m → within a n a' m.

Lemma elem_of_walk a n a' m : (a', m) ∈ walk a n ↔ within a n a' m.
Proof.
  revert a a' m. induction n as [n IH] using node_children_ind. intros a a' m.
  rewrite walk_unfold, elem_of_cons, list_elem_of_bind. rewrite Forall_forall in IH. split.
  - intros [[= -> ->]|(c & Hm & Hc)]; [constructor|]. econstructor; [done|]. by apply IH.
  - inversion 1 as [|? ? c ? ? Hc Hm]; subst; [by left|]. right. exists c. split; [|done]. by apply IH.
Qed.

Lemma within_trans a n b m c k : within a n b m → within b m c k → within a n c k.
Proof. induction 1; intros; [done|]. econstructor; eauto. Qed.

Lemma within_child_of a n b m c : within a n b m → c ∈ children m → within a n (m :: b) c.
Proof. intros H Hc. eapply within_trans; [done|]. econstructor; [done|constructor]. Qed.

Lemma within_func a n b p f args kws :
  within a n b (Call p f args kws) → within a n (Call p f args kws :: b) f.
Proof. intros H. eapply within_child_of; [done|]. by left. Qed.

Lemma within_value a n b p v attr :
  within a n b (Attribute p v attr) → within a n (Attribute p v attr :: b) v.
Proof. intros H. eapply within_child_of; [done|]. by left. Qed.

Lemma within_assigned a n b p targets v :
  within a n b (Assign p targets v) → within a n (Assign p targets v :: b) v.
Proof. intros H. eapply within_child_of; [done|]. cbn. set_solver. Qed.

(** *** Visitors that collect_node issues

    A visitor whose state holds the issues found so far and what it remembers
    of the nodes it has seen.  It reports nothing exactly when every node is
    permitted after the nodes before it. *)
Section Accepts.
Context {S I : Type} (enter : list node → node → S → S) (issues : S → list I).
Context (remembers : list node → S → Prop) (permitted : list node → node → Prop) (s0 : S).
Context (Hstart : issues s0 = []) (Hstart_remembers : remembers [] s0).
Context (Hancestors : ∀ a n s, enter a n s = enter [] n s).
Context (Hgrows : ∀ n s, issues (enter [] n s) = [] → issues s = []).
Context (Henter : ∀ before n s, remembers before s →
  issues (enter [] n s) = [] ↔ issues s = [] ∧ permitted before n).
Context (Hremembers : ∀ before n s, remembers before s → permitted before n →
  remembers (before ++ [n]) (enter [] n s)).

Definition all_permitted (l : list node) : Prop :=
  ∀ before n after, l = before ++ n :: after → permitted before n.

Lemma all_permitted_snoc l n : all_permitted (l ++ [n]) ↔ all_permitted l ∧ permitted l n.
Proof.
  split.
  - intros H. split; [|by apply (H l n [])]. intros b m a ->. apply (H b m (a ++ [n])). by rewrite <- app_assoc.
  - intros [Hl Hn] b m a Heq. destruct a as [|x a _] using rev_ind.
    + by apply app_inj_tail in Heq as [-> ->].
    + rewrite app_comm_cons, app_assoc in Heq. apply app_inj_tail in Heq as [-> ->]. by apply (Hl b m a).
Qed.

Lemma sequence_accepts l :
  let s := foldl (λ s n, enter [] n s) s0 l in
  (issues s = [] ↔ all_permitted l) ∧ (issues s = [] → remembers l s).
Proof using All.
  induction l as [|n l [IH1 IH2]] using rev_ind; intros s.
  - split; [|done]. split; [by intros _ [] ? ? ?|done].
  - subst s. rewrite foldl_app. cbn [foldl]. set (s := foldl _ _ l) in *.
    rewrite all_permitted_snoc, <- IH1. split.
    + split; [intros H; apply (Henter l n s (IH2 (Hgrows _ _ H))); done|].
      intros [Hs Hn]. by apply (Henter l n s (IH2 Hs)).
    + intros H. pose proof (Hgrows _ _ H) as Hs. apply Hremembers; [by apply IH2|].
      by apply (Henter l n s (IH2 Hs)).
Qed.

Lemma visitor_accepts tree :
  issues (visit enter [] tree s0) = [] ↔ all_permitted (walk [] tree).*2.
Proof using All.
  rewrite visit_walk. destruct (sequence_accepts (walk [] tree).*2) as [<- _].
  assert (∀ l s, foldl (λ s am, enter am.1 am.2 s) s l = foldl (λ s n, enter [] n s) s l.*2) as ->; [|done].
  induction l as [|[a n] l IH]; intros s; [done|]. cbn. by rewrite Hancestors, IH.
Qed.
End Accepts.
