(* ===== verification/Restrictions.v ===== *)
(** * Module restrictions of generated code

    Models [nooa/runtime/restrictions.py] and [_strip_blocked_modules] of
    [nooa/runtime/actor.py].  A lookup is given by its membership test, so that
    one definition serves the sets and the dictionaries of module names. *)

From stdpp Require Import gmap sets.
From Stdlib Require Import Ascii.
From S2P Require Import Prelude PyStr.

Local Open Scope string_scope.

(** ** Dotted names *)

(** The dotted names above [m], the longest first:
    [".".join(parts[:i])] for [i] from [len(parts) - 1] down to 1. *)
Definition parents (m : string) : list string :=
  let parts := split_dot m in
  (λ i, join_dot (take i parts)) <$> reverse (seq 1 (length parts - 1)).

(** [match_blocked_module]. *)
Definition match_blocked_module (member : string → bool) (module_name : string) : option string :=
  if member module_name then Some module_name
  else snd <$> list_find (λ p, member p = true) (parents module_name).

(** ** The configuration *)

Definition string_set (l : list string) : gset string := list_to_set l.

Definition DEFAULT_BLOCKED_MODULES : gset string := string_set
  ["subprocess"; "socket"; "http.client"; "urllib.request"; "ftplib"; "smtplib"; "imaplib"; "poplib";
   "telnetlib"; "xmlrpc.client"; "select"; "signal"].

Definition DEFAULT_BLOCKED_CALLS : gmap string (gset string) := list_to_map
  [("time", string_set ["sleep"]);
   ("os", string_set ["system"; "popen"; "wait"; "waitpid"; "waitid"]);
   ("threading", string_set ["Thread.join"; "Lock.acquire"; "Event.wait"; "Condition.wait"]);
   ("multiprocessing", string_set ["Process.join"; "Queue.get"; "Queue.put"]);
   ("asyncio", string_set ["run"; "run_coroutine_threadsafe"; "run_until_complete"; "run_forever"]);
   ("importlib", string_set ["import_module"])].

Definition DEFAULT_RESTRICTED_IMPORTS : gset string := ∅.

Definition RESTRICTED_MODULES : gset string := DEFAULT_BLOCKED_MODULES ∪ string_set
  ["os"; "shutil"; "pathlib"; "tempfile"; "glob"; "requests"; "httpx"; "aiohttp"; "urllib"; "http";
   "sqlite3"; "psycopg2"; "pymongo"; "openai"; "anthropic"; "litellm"; "sys"; "ctypes";
   "multiprocessing"; "threading"].

(** [RestrictionsConfig]. *)
Record RestrictionsConfig := mk_restrictions {
  blocked_modules : gset string;
  blocked_calls : gmap string (gset string);
  restricted_imports : gset string
}.

(** The input of the validator: keyword arguments, [None] for an omitted one,
    or an instance of the class. *)
Inductive restrictions_input :=
  | FromFields (modules : option (gset string)) (calls : option (gmap string (gset string)))
      (imports : option (gset string))
  | FromInstance (config : RestrictionsConfig).

(** [_apply_global_restricted_imports]: the process-wide override is used
    where the field is not given, or is the default on an instance. *)
Definition restrictions_config (override : option (gset string)) (i : restrictions_input) : RestrictionsConfig :=
  match i with
  | FromFields modules calls imports =>
      mk_restrictions (default DEFAULT_BLOCKED_MODULES modules) (default DEFAULT_BLOCKED_CALLS calls)
        match imports, override with
        | Some s, _ => s
        | None, Some s => s
        | None, None => ∅
        end
  | FromInstance c =>
      if bool_decide (restricted_imports c = ∅) then
        match override with
        | Some s => mk_restrictions (blocked_modules c) (blocked_calls c) s
        | None => c
        end
      else c
  end.

(** ** Objects of the execution name space *)

(** An object read as a type annotation: nothing, a forward reference (a
    string or a [ForwardRef]), [Annotated[...]], a generic alias with the class
    that is its origin, a class with its [__module__] and [__name__]. *)
Inductive annotation :=
  | AnnNone
  | AnnForward (name : string)
  | AnnAnnotated (args : list annotation)
  | AnnGeneric (origin : option (option string * string)) (args : list annotation)
  | AnnClass (module : option string) (name : string)
  | AnnOther.

(** What the validators read of a Python object: a module has a [__name__],
    any other object may have a [__module__] and a [__name__], and can stand
    in an annotation. *)
Inductive pyobj :=
  | PyModule (name : string)
  | PyObject (module name : option string) (as_annotation : annotation).

(** A name that is [None] or empty is false in a Python condition. *)
Definition truthy (s : option string) : option string :=
  match s with Some EmptyString => None | _ => s end.

Definition in_set (s : gset string) (k : string) : bool := bool_decide (k ∈ s).
Definition in_dict {A} (d : gmap string A) (k : string) : bool := bool_decide (is_Some (d !! k)).

(** [obj.__name__] of a module, else [getattr(obj, "__module__", None)]. *)
Definition origin_module (o : pyobj) : option string :=
  match o with PyModule name => Some name | PyObject module _ _ => module end.

(** [is_from_blocked_module]. *)
Definition is_from_blocked_module (o : pyobj) (blocked : gset string) : bool :=
  match truthy (origin_module o) with
  | None => false
  | Some m => bool_decide (is_Some (match_blocked_module (in_set blocked) m))
  end.

(** [_strip_blocked_modules]. *)
Definition strip_blocked_modules (exec_globals : gmap string pyobj) (blocked : gset string) : gmap string pyobj :=
  if bool_decide (blocked = ∅) then exec_globals
  else filter (λ kv, is_from_blocked_module kv.2 blocked = false) exec_globals.

(** ** Lemmas *)

(** [k] is [m] or a package above it. *)
Definition covers (k m : string) : Prop := k = m ∨ ∃ t, m = k +:+ "." +:+ t.

Lemma parents_lookup m j p :
  parents m !! j = Some p ↔
  (S j < length (split_dot m))%nat ∧ p = join_dot (take (length (split_dot m) - 1 - j) (split_dot m)).
Proof.
  unfold parents. set (n := length (split_dot m)). rewrite list_lookup_fmap, fmap_Some. split.
  - intros (i & Hi & ->). apply reverse_lookup_Some in Hi as [Hi Hlt].
    rewrite length_seq in Hi, Hlt. apply lookup_seq in Hi as [-> Hj]. split; [lia|]. do 2 f_equal. lia.
  - intros [Hj ->]. exists (n - 1 - j)%nat. split; [|done]. apply reverse_lookup_Some.
    rewrite length_seq. split; [|lia]. apply lookup_seq. lia.
Qed.

(** A proper package of [m] is the join of a proper prefix of its parts. *)
Lemma parent_parts k t : take (length (split_dot k)) (split_dot (k +:+ "." +:+ t)) = split_dot k.
Proof. rewrite split_dot_app. apply take_app_length. Qed.

Lemma elem_of_parents m p : p ∈ parents m ↔ ∃ t, m = p +:+ "." +:+ t.
Proof.
  rewrite list_elem_of_lookup. setoid_rewrite parents_lookup. split.
  - intros (j & Hj & ->). set (i := (length (split_dot m) - 1 - j)%nat).
    exists (join_dot (drop i (split_dot m))). rewrite <- join_dot_app.
    + by rewrite take_drop, join_split_dot.
    + intros H%(f_equal length). rewrite length_take in H. cbn in H. lia.
    + intros H%(f_equal length). rewrite length_drop in H. cbn in H. lia.
  - intros [t ->]. rewrite split_dot_app, length_app.
    assert (1 ≤ length (split_dot p) ∧ 1 ≤ length (split_dot t))%nat as [Hp Ht].
    { split; [pose proof (split_dot_not_nil p)|pose proof (split_dot_not_nil t)];
        destruct (split_dot _); cbn; done || lia. }
    exists (length (split_dot t) - 1)%nat. split; [lia|].
    replace (length (split_dot p) + length (split_dot t) - 1 - (length (split_dot t) - 1))%nat
      with (length (split_dot p)) by lia.
    by rewrite take_app_length, join_split_dot.
Qed.

(** Parents are listed from the longest to the shortest. *)
Lemma parents_decreasing m i j p q :
  parents m !! i = Some p → parents m !! j = Some q → (i < j)%nat → (String.length q < String.length p)%nat.
Proof.
  intros [Hi ->]%parents_lookup [Hj ->]%parents_lookup Hij.
  set (n := length (split_dot m)) in *. set (a := (n - 1 - j)%nat). set (b := (n - 1 - i)%nat).
  rewrite <- (take_drop a (take b (split_dot m))), take_take, Nat.min_l by lia.
  rewrite join_dot_app, !str_length_app; [cbn; lia|..].
  - intros H%(f_equal length). rewrite length_take in H. cbn in H. lia.
  - intros H%(f_equal length). rewrite length_drop, length_take in H. cbn in H. lia.
Qed.

(** [match_blocked_module] finds the most specific entry that covers the
    module, and nothing when there is none. *)
Lemma match_blocked_module_Some member m k :
  match_blocked_module member m = Some k →
  member k = true ∧ covers k m ∧
  ∀ k', member k' = true → covers k' m → (String.length k' ≤ String.length k)%nat.
Proof.
  unfold match_blocked_module. destruct (member m) eqn:Hm.
  - intros [= <-]. split_and!; [done|by left|]. intros k' _ [->|[t ->]]; [done|]. rewrite str_length_app. lia.
  - rewrite fmap_Some. intros ([i k0] & (Hi & Hk & Hmin)%list_find_Some & ->). cbn in *.
    split_and!; [done|right; apply elem_of_parents, list_elem_of_lookup; eauto|].
    intros k' Hk' [->|[t Ht]]; [congruence|].
    assert (k' ∈ parents m) as [j Hj]%list_elem_of_lookup by (apply elem_of_parents; eauto).
    destruct (Nat.lt_trichotomy i j) as [Hij|[->|Hji]].
    + pose proof (parents_decreasing _ _ _ _ _ Hi Hj Hij). lia.
    + by simplify_eq.
    + by destruct (Hmin _ _ Hj Hji).
Qed.

Lemma match_blocked_module_None member m :
  match_blocked_module member m = None ↔ ∀ k, covers k m → member k = false.
Proof.
  unfold match_blocked_module. destruct (member m) eqn:Hm.
  - split; [done|]. intros H. specialize (H m (or_introl eq_refl)). congruence.
  - rewrite fmap_None, list_find_None, Forall_forall. setoid_rewrite elem_of_parents.
    setoid_rewrite not_true_iff_false. split.
    + intros H k [->|Hk]; [done|by apply H].
    + intros H k Hk. apply H. by right.
Qed.

(** Nothing that is left after the stripping comes from a blocked module. *)
Lemma strip_blocked_modules_lookup g blocked x o :
  strip_blocked_modules g blocked !! x = Some o ↔
  g !! x = Some o ∧ is_from_blocked_module o blocked = false.
Proof.
  unfold strip_blocked_modules. case_bool_decide as Hb.
  - split; [|by intros [? _]]. intros Hx. split; [done|]. unfold is_from_blocked_module.
    destruct (truthy _) as [m|]; [|done]. rewrite (proj2 (match_blocked_module_None _ m)); [done|].
    intros k _. unfold in_set. rewrite bool_decide_eq_false. set_solver.
  - apply map_lookup_filter_Some.
Qed.
