(* ===== verification/CodeContext.v ===== *)
(** * What the code validators share

    The issues, the context and the string tests of
    [nooa/runtime/code_validator.py].  An issue keeps its place, code and
    severity; messages, hints and metrics are not modelled.  The agent, a live
    Python object, is what the validators read of it: the names of the classes
    of its MRO, the attributes of its class and its own attributes. *)

From stdpp Require Import gmap sets.
From S2P Require Import Prelude PyStr PyAst Restrictions.

Local Open Scope string_scope.

Inductive severity := SError | SWarning.

#[export] Instance severity_eq_dec : EqDecision severity.
Proof. solve_decision. Defined.

(** [ValidationIssue]. *)
Record ValidationIssue := mk_issue { i_line : nat; i_col : nat; i_severity : severity; i_code : string }.

#[export] Instance issue_eq_dec : EqDecision ValidationIssue.
Proof. solve_decision. Defined.

(** An issue at a node, with the default severity. *)
Definition issue_at (n : node) (code : string) : ValidationIssue :=
  mk_issue (lineno (pos_of n)) (col_offset (pos_of n)) SError code.

Definition issue_if (b : bool) (n : node) (code : string) : list ValidationIssue :=
  if b then [issue_at n code] else [].

(** One name of [dir(...)]: whether reading it raises, whether the value is a
    class, an async function, and hidden. *)
Record attribute := mk_attribute {
  at_name : string; at_raises : bool; at_is_class : bool; at_is_async : bool; at_hidden : bool }.

Record agent_info := mk_agent {
  ag_mro : list (bool * string);        (** the class names, flagged when the class is [object] *)
  ag_class_attrs : list attribute;      (** [dir(type(agent))] *)
  ag_attrs : list attribute             (** [dir(agent)] *)
}.

(** [ValidationContext]: the fields the validators read. *)
Record ValidationContext := mk_context {
  cx_agent : option agent_info;
  cx_forbidden_self_calls : gset string;
  cx_exec_globals : gmap string pyobj;
  cx_restricted_imports : gset string;
  cx_blocked_modules : gset string;
  cx_return_type : annotation
}.

(** [s.startswith("__")], [s.endswith("__")]. *)
Definition starts_dunder (s : string) : bool := String.prefix "__" s.
Definition ends_dunder (s : string) : bool :=
  (2 <=? String.length s)%nat && String.eqb (String.substring (String.length s - 2) 2 s) "__".
Definition is_dunder (s : string) : bool := starts_dunder s && ends_dunder s.

Definition is_in (x : string) (l : list string) : bool := bool_decide (x ∈ l).

(** [node.id] when the node is a [Name]. *)
Definition name_id (n : node) : option string := match n with Name _ id => Some id | _ => None end.

Lemma issue_if_none b n code : issue_if b n code = [] ↔ b = false.
Proof. by destruct b. Qed.
