(* ===== verification/CodeSecurity.v ===== *)
(** * The security guardrails of generated code

    Models [SecurityValidator] of [nooa/runtime/code_validator.py]: a visitor
    that collects issues and, as it meets the imports, the local names of
    forbidden functions and of the modules [sys] and [os]. *)

From stdpp Require Import gmap sets.
From Stdlib Require Import Ascii.
From S2P Require Import Prelude PyStr PyAst Restrictions CodeContext.

Local Open Scope string_scope.

Definition FORBIDDEN_BUILTINS : list string :=
  ["exec"; "eval"; "compile"; "__import__"; "input"; "breakpoint"; "globals"; "locals"; "vars"; "exit"; "quit";
   "set_restricted_imports"; "get_restricted_imports"].

Definition FORBIDDEN_ATTR_CALLS : list string := ["set_restricted_imports"; "get_restricted_imports"].

Definition DANGEROUS_DUNDER_ATTRS : list string :=
  ["__class__"; "__bases__"; "__subclasses__"; "__mro__"; "__globals__"; "__code__"; "__builtins__"; "__dict__"].

(** The calls that end the process, by module and name. *)
Definition TERMINATION_CALLS : list (string * string) := [("sys", "exit"); ("os", "_exit"); ("os", "abort")].

(** [_SecurityVisitor]. *)
Record security_state := mk_security {
  sc_issues : list ValidationIssue;
  forbidden_aliases : gmap string string;
  module_aliases : gmap string string
}.

Definition add_issues (l : list ValidationIssue) (s : security_state) : security_state :=
  mk_security (sc_issues s ++ l) (forbidden_aliases s) (module_aliases s).
Definition set_forbidden_alias (x original : string) (s : security_state) : security_state :=
  mk_security (sc_issues s) (<[x := original]> (forbidden_aliases s)) (module_aliases s).
Definition set_module_alias (x m : string) (s : security_state) : security_state :=
  mk_security (sc_issues s) (forbidden_aliases s) (<[x := m]> (module_aliases s)).

Inductive deny_tier := Blocked | Restricted.

(** [module_name.split(".", 1)[0]]. *)
Definition root_module (m : string) : string := hd "" (split_dot m).

Section Security.
Context (ctx : ValidationContext).

(** [_is_module_available]: the tier that denies the module. *)
Definition denied (m : string) : option deny_tier :=
  match match_blocked_module (in_set (cx_blocked_modules ctx)) m with
  | Some _ => Some Blocked
  | None =>
      match match_blocked_module (in_set (cx_restricted_imports ctx)) m with
      | Some _ => Some Restricted
      | None => None
      end
  end.

Definition is_module_available (m : string) : bool := match denied m with None => true | Some _ => false end.

(** [visit_Import]. *)
Definition import_alias (n : node) (s : security_state) (a : alias) : security_state :=
  let s := add_issues (issue_if (negb (is_module_available (al_name a))) n "E002") s in
  let root := root_module (al_name a) in
  if is_in root ["sys"; "os"] then set_module_alias (default root (al_asname a)) root s else s.

Definition visit_Import (n : node) (names : list alias) (s : security_state) : security_state :=
  foldl (import_alias n) s names.

(** [visit_ImportFrom]. *)
Definition import_from_alias (m : string) (s : security_state) (a : alias) : security_state :=
  let s := if is_in (al_name a) FORBIDDEN_BUILTINS then set_forbidden_alias (local_name a) (al_name a) s else s in
  if bool_decide ((m, al_name a) ∈ TERMINATION_CALLS)
  then set_forbidden_alias (local_name a) (m +:+ "." +:+ al_name a) s else s.

Definition visit_ImportFrom (n : node) (module : option string) (names : list alias) (s : security_state) :
    security_state :=
  if existsb (λ a, String.eqb (al_name a) "*") names then add_issues [issue_at n "E003"] s
  else
    let m := default "" module in
    if is_module_available m then foldl (import_from_alias m) s names
    else add_issues [issue_at n "E002"] s.

(** [_check_attr_modification_with_dunder]. *)
Definition check_attr_modification_with_dunder (n : node) (args : list node) : list ValidationIssue :=
  match args with
  | _ :: Constant _ (CStr attr) :: _ => issue_if (is_in attr DANGEROUS_DUNDER_ATTRS || is_dunder attr) n "E104"
  | _ => []
  end.

(** [_check_getattr_forbidden_attr_call]. *)
Definition check_getattr_forbidden_attr_call (n : node) (func_name : string) (args : list node) :
    list ValidationIssue :=
  match args with
  | _ :: Constant _ (CStr attr) :: _ =>
      issue_if (String.eqb func_name "getattr" && is_in attr FORBIDDEN_ATTR_CALLS) n "E001"
  | _ => []
  end.

(** The checks of a call of a name. *)
Definition call_name_issues (n : node) (f : string) (args : list node) (s : security_state) : list ValidationIssue :=
  if is_in f FORBIDDEN_BUILTINS then [issue_at n "E001"]
  else match forbidden_aliases s !! f with
       | Some original =>
           if is_in original ["sys.exit"; "os._exit"; "os.abort"] then [issue_at n "E005"] else [issue_at n "E001"]
       | None =>
           if is_in f ["setattr"; "delattr"; "getattr"] then
             check_attr_modification_with_dunder n args ++ check_getattr_forbidden_attr_call n f args
           else []
       end.

(** The checks of a call of an attribute. *)
Definition call_attr_issues (n : node) (value : node) (attr : string) (s : security_state) : list ValidationIssue :=
  issue_if (bool_decide (name_id value = Some "self") && in_set (cx_forbidden_self_calls ctx) attr) n "E004" ++
  if is_in attr FORBIDDEN_ATTR_CALLS then [issue_at n "E001"]
  else match name_id value with
       | Some m =>
           issue_if (bool_decide ((default m (module_aliases s !! m), attr) ∈ TERMINATION_CALLS)) n "E005"
       | None => []
       end.

(** [visit_Call]. *)
Definition visit_Call (n : node) (f : node) (args : list node) (s : security_state) : security_state :=
  match f with
  | Name _ id => add_issues (call_name_issues n id args s) s
  | Attribute _ v attr => add_issues (call_attr_issues n v attr s) s
  | _ => s
  end.

(** [visit_Attribute]. *)
Definition visit_Attribute (n : node) (value : node) (attr : string) (s : security_state) : security_state :=
  if is_in attr DANGEROUS_DUNDER_ATTRS then add_issues [issue_at n "E101"] s
  else match value with
       | Name _ id => add_issues (issue_if (is_in id ["object"; "type"] && is_dunder attr) n "E102") s
       | Call _ (Name _ id) _ _ => add_issues (issue_if (String.eqb id "super" && is_dunder attr) n "E102") s
       | _ => s
       end.

(** [visit_Name]. *)
Definition visit_Name (n : node) (id : string) (s : security_state) : security_state :=
  add_issues (issue_if (String.eqb id "__builtins__") n "E101") s.

(** [visit_Raise]. *)
Definition raised_name (exc : option node) : option string :=
  match exc with
  | Some (Name _ id) => Some id
  | Some (Call _ (Name _ id) _ _) => Some id
  | _ => None
  end.

Definition visit_Raise (n : node) (exc : option node) (s : security_state) : security_state :=
  add_issues
    match raised_name exc with
    | Some name => issue_if (is_in name ["SystemExit"; "KeyboardInterrupt"]) n "E005"
    | None => []
    end s.

(** The method of the visitor for a node. *)
Definition security_enter (_ : list node) (n : node) (s : security_state) : security_state :=
  match n with
  | Import _ names => visit_Import n names s
  | ImportFrom _ module names => visit_ImportFrom n module names s
  | Call _ f args _ => visit_Call n f args s
  | Attribute _ v attr => visit_Attribute n v attr s
  | Name _ id => visit_Name n id s
  | RaiseStmt _ exc _ => visit_Raise n exc s
  | _ => s
  end.

(** [SecurityValidator.validate]. *)
Definition security_validate (tree : node) : list ValidationIssue :=
  sc_issues (visit security_enter [] tree (mk_security [] ∅ ∅)).
End Security.
