(* ===== verification/CodeSecurityRuns.v ===== *)
(** * What the security guardrails accept

    The visitor of [CodeSecurity] against a specification that names, for each
    node, what it may not be, with the imports that stand before it in the
    program text. *)

From stdpp Require Import gmap sets.
From Stdlib Require Import Ascii.
From S2P Require Import Prelude PyStr PyAst Restrictions CodeContext CodeSecurity.

Local Open Scope string_scope.

Lemma is_in_true x l : is_in x l = true ↔ x ∈ l.
Proof. apply bool_decide_eq_true. Qed.
Lemma is_in_false x l : is_in x l = false ↔ x ∉ l.
Proof. apply bool_decide_eq_false. Qed.

Lemma issue_if_nil b n code : issue_if b n code = [] ↔ b = false.
Proof. by destruct b. Qed.

Lemma elem_of_cons_ex {A} (x : A) (l : list A) (P : A → Prop) :
  (∃ y, y ∈ x :: l ∧ P y) ↔ P x ∨ ∃ y, y ∈ l ∧ P y.
Proof.
  setoid_rewrite elem_of_cons. split.
  - intros (y & [->|Hy] & HP); eauto.
  - intros [HP|(y & Hy & HP)]; eauto.
Qed.

Section Spec.
Context (ctx : ValidationContext).

(** A module is denied when a listed module is the module or a package of it. *)
Definition denied_module (m : string) : Prop :=
  ∃ k, k ∈ cx_blocked_modules ctx ∪ cx_restricted_imports ctx ∧ covers k m.

(** [n] imports a forbidden function as [x]. *)
Definition binds_forbidden (n : node) (x : string) : Prop :=
  match n with
  | ImportFrom _ m names =>
      ∃ a, a ∈ names ∧ local_name a = x ∧
        (al_name a ∈ FORBIDDEN_BUILTINS ∨ (default "" m, al_name a) ∈ TERMINATION_CALLS)
  | _ => False
  end.

(** The names that [n] binds to [sys] and [os]. *)
Definition binds_module (a : alias) : option (string * string) :=
  let root := root_module (al_name a) in
  if is_in root ["sys"; "os"] then Some (default root (al_asname a), root) else None.
Definition module_bindings (n : node) : list (string * string) :=
  match n with Import _ names => omap binds_module names | _ => [] end.

(** What the name [x] stands for after the imports of [before]: the last one counts. *)
Definition bound_module (before : list node) (x : string) : string :=
  default x ((list_to_map (reverse (before ≫= module_bindings)) : gmap string string) !! x).

(** What is permitted at [n], after the nodes [before]. *)
Definition permitted (before : list node) (n : node) : Prop :=
  match n with
  | Import _ names => ∀ a, a ∈ names → ¬ denied_module (al_name a)
  | ImportFrom _ m names => (∀ a, a ∈ names → al_name a ≠ "*") ∧ ¬ denied_module (default "" m)
  | Call _ (Name _ f) args _ =>
      f ∉ FORBIDDEN_BUILTINS ∧ (∀ i, i ∈ before → ¬ binds_forbidden i f) ∧
      ∀ x p attr rest, f ∈ ["setattr"; "delattr"; "getattr"] → args = x :: Constant p (CStr attr) :: rest →
        attr ∉ DANGEROUS_DUNDER_ATTRS ∧ is_dunder attr = false ∧ (f = "getattr" → attr ∉ FORBIDDEN_ATTR_CALLS)
  | Call _ (Attribute _ v attr) _ _ =>
      attr ∉ FORBIDDEN_ATTR_CALLS ∧ (name_id v = Some "self" → attr ∉ cx_forbidden_self_calls ctx) ∧
      ∀ m, name_id v = Some m → (bound_module before m, attr) ∉ TERMINATION_CALLS
  | Attribute _ v attr =>
      attr ∉ DANGEROUS_DUNDER_ATTRS ∧
      match v with
      | Name _ id => id ∈ ["object"; "type"] → is_dunder attr = false
      | Call _ (Name _ id) _ _ => id = "super" → is_dunder attr = false
      | _ => True
      end
  | Name _ id => id ≠ "__builtins__"
  | RaiseStmt _ exc _ => ∀ x, raised_name exc = Some x → x ∉ ["SystemExit"; "KeyboardInterrupt"]
  | _ => True
  end.

(** *** Imports *)

Lemma is_module_available_spec m : is_module_available ctx m = true ↔ ¬ denied_module m.
Proof.
  unfold is_module_available, denied, denied_module. split.
  - destruct (match_blocked_module (in_set (cx_blocked_modules ctx)) m) eqn:H1; [done|].
    destruct (match_blocked_module (in_set (cx_restricted_imports ctx)) m) eqn:H2; [done|].
    rewrite match_blocked_module_None in H1, H2. intros _ (k & Hk & Hc).
    specialize (H1 k Hc). specialize (H2 k Hc). unfold in_set in *. bool_prop. set_solver.
  - intros Hn.
    destruct (match_blocked_module (in_set (cx_blocked_modules ctx)) m) as [k|] eqn:H1.
    { apply match_blocked_module_Some in H1 as (Hk & Hc & _). unfold in_set in Hk. bool_prop.
      destruct Hn. exists k. set_solver. }
    destruct (match_blocked_module (in_set (cx_restricted_imports ctx)) m) as [k|] eqn:H2; [|done].
    apply match_blocked_module_Some in H2 as (Hk & Hc & _). unfold in_set in Hk. bool_prop.
    destruct Hn. exists k. set_solver.
Qed.

Lemma visit_Import_spec n names s :
  sc_issues (visit_Import ctx n names s) = [] ↔
  sc_issues s = [] ∧ ∀ a, a ∈ names → ¬ denied_module (al_name a).
Proof.
  unfold visit_Import. revert s. induction names as [|a names IH]; intros s; cbn.
  { split; [intros; split; [done|set_solver]|by intros [? _]]. }
  rewrite IH. setoid_rewrite elem_of_cons.
  assert (sc_issues (import_alias ctx n s a) = [] ↔ sc_issues s = [] ∧ ¬ denied_module (al_name a)) as ->.
  { unfold import_alias. rewrite <- is_module_available_spec.
    case_match; cbn; destruct (is_module_available ctx (al_name a)); cbn; rewrite ?app_nil_r; intuition (try done);
      by destruct (sc_issues s). }
  naive_solver.
Qed.

Lemma visit_Import_frame n names s :
  forbidden_aliases (visit_Import ctx n names s) = forbidden_aliases s ∧
  module_aliases (visit_Import ctx n names s) =
    list_to_map (reverse (omap binds_module names)) ∪ module_aliases s.
Proof.
  unfold visit_Import. revert s. induction names as [|a names IH]; intros s.
  { split; [done|]. change (list_to_map _) with (∅ : gmap string string). by rewrite (left_id_L ∅ (∪)). }
  change (omap binds_module (a :: names)) with
    (match binds_module a with Some b => b :: omap binds_module names | None => omap binds_module names end).
  cbn [foldl]. destruct (IH (import_alias ctx n s a)) as [-> ->]. unfold import_alias.
  destruct (binds_module a) as [[x r]|] eqn:Hb; unfold binds_module in Hb; destruct (is_in _ _); simplify_eq; [|done].
  split; [done|]. rewrite reverse_cons, list_to_map_app, <- (assoc_L (∪)). f_equal.
  exact (insert_union_singleton_l (module_aliases s) _ _).
Qed.

Lemma import_from_frame m names s :
  sc_issues (foldl (import_from_alias m) s names) = sc_issues s ∧
  module_aliases (foldl (import_from_alias m) s names) = module_aliases s ∧
  ∀ x, is_Some (forbidden_aliases (foldl (import_from_alias m) s names) !! x) ↔
    is_Some (forbidden_aliases s !! x) ∨
    ∃ a, a ∈ names ∧ local_name a = x ∧ (al_name a ∈ FORBIDDEN_BUILTINS ∨ (m, al_name a) ∈ TERMINATION_CALLS).
Proof.
  revert s. induction names as [|a names IH]; intros s; cbn.
  { split_and!; [done..|]. intros x. set_solver. }
  destruct (IH (import_from_alias m s a)) as (-> & -> & Hx).
  assert (sc_issues (import_from_alias m s a) = sc_issues s ∧
    module_aliases (import_from_alias m s a) = module_aliases s) as [-> ->].
  { unfold import_from_alias. by repeat case_match. }
  split_and!; [done..|]. intros x. rewrite Hx.
  assert (is_Some (forbidden_aliases (import_from_alias m s a) !! x) ↔
    is_Some (forbidden_aliases s !! x) ∨
    local_name a = x ∧ (al_name a ∈ FORBIDDEN_BUILTINS ∨ (m, al_name a) ∈ TERMINATION_CALLS)) as ->.
  { unfold import_from_alias. destruct (is_in (al_name a) FORBIDDEN_BUILTINS) eqn:H1;
      [apply is_in_true in H1|apply is_in_false in H1]; case_bool_decide as H2; cbn;
      rewrite ?lookup_insert_is_Some'; tauto. }
  rewrite elem_of_cons_ex. tauto.
Qed.

(** *** One node *)

(** The state after the nodes [before], when none of them was reported. *)
Definition tracks (before : list node) (s : security_state) : Prop :=
  (∀ x, is_Some (forbidden_aliases s !! x) ↔ ∃ i, i ∈ before ∧ binds_forbidden i x) ∧
  module_aliases s = list_to_map (reverse (before ≫= module_bindings)).

Definition enter (n : node) (s : security_state) : security_state := security_enter ctx [] n s.

Lemma add_issues_nil l s : sc_issues (add_issues l s) = [] ↔ sc_issues s = [] ∧ l = [].
Proof. cbn. rewrite app_nil. done. Qed.

Lemma no_star names :
  existsb (λ a, String.eqb (al_name a) "*") names = false ↔ ∀ a, a ∈ names → al_name a ≠ "*".
Proof.
  rewrite <- not_true_iff_false, existsb_exists. setoid_rewrite String.eqb_eq. split.
  - intros H a Ha Heq. apply H. exists a. by rewrite <- list_elem_of_In.
  - intros H (a & Ha & Heq). apply (H a); [by apply list_elem_of_In|done].
Qed.

Lemma visit_ImportFrom_spec n m names s :
  sc_issues (visit_ImportFrom ctx n m names s) = [] ↔
  sc_issues s = [] ∧ (∀ a, a ∈ names → al_name a ≠ "*") ∧ ¬ denied_module (default "" m).
Proof.
  unfold visit_ImportFrom. rewrite <- no_star, <- is_module_available_spec.
  destruct (existsb _ names); [rewrite add_issues_nil; naive_solver|].
  destruct (is_module_available ctx (default "" m)); [|rewrite add_issues_nil; naive_solver].
  destruct (import_from_frame (default "" m) names s) as (-> & _). naive_solver.
Qed.

Lemma call_name_spec before n f args s :
  tracks before s →
  call_name_issues n f args s = [] ↔
  f ∉ FORBIDDEN_BUILTINS ∧ (∀ i, i ∈ before → ¬ binds_forbidden i f) ∧
  ∀ x p attr rest, f ∈ ["setattr"; "delattr"; "getattr"] → args = x :: Constant p (CStr attr) :: rest →
    attr ∉ DANGEROUS_DUNDER_ATTRS ∧ is_dunder attr = false ∧ (f = "getattr" → attr ∉ FORBIDDEN_ATTR_CALLS).
Proof.
  intros [Hf _]. specialize (Hf f). unfold call_name_issues.
  destruct (is_in f FORBIDDEN_BUILTINS) eqn:H1; [apply is_in_true in H1|apply is_in_false in H1].
  { split; [done|]. by intros [? _]. }
  destruct (forbidden_aliases s !! f) eqn:Hs.
  { split; [by case_match|]. intros (_ & Hn & _). destruct (proj1 Hf (mk_is_Some _ _ eq_refl)) as (i & Hi & Hb).
    by destruct (Hn i Hi). }
  assert (∀ i, i ∈ before → ¬ binds_forbidden i f) as Hn.
  { intros i Hi Hb. apply (is_Some_None (A:=string)), Hf. eauto. }
  destruct (is_in f _) eqn:H2; [apply is_in_true in H2|apply is_in_false in H2]; [|naive_solver].
  unfold check_attr_modification_with_dunder, check_getattr_forbidden_attr_call.
  destruct args as [|x [|[] rest]]; try naive_solver. destruct value; try naive_solver.
  rewrite app_nil, !issue_if_nil, orb_false_iff, andb_false_iff, !is_in_false, String.eqb_neq. split.
  - intros [[Hd Hu] Hg]. split_and!; [done..|]. intros ? ? ? ? _ [= <- <- <- <-]. split_and!; [done..|]. tauto.
  - intros (_ & _ & H). edestruct H as (? & ? & Hg); [done..|]. split; [done|].
    destruct (decide (f = "getattr")); [right; auto|by left].
Qed.

Lemma call_attr_spec before n v attr s :
  tracks before s →
  call_attr_issues ctx n v attr s = [] ↔
  attr ∉ FORBIDDEN_ATTR_CALLS ∧ (name_id v = Some "self" → attr ∉ cx_forbidden_self_calls ctx) ∧
  ∀ m, name_id v = Some m → (bound_module before m, attr) ∉ TERMINATION_CALLS.
Proof.
  intros [_ Hm]. unfold call_attr_issues, bound_module. rewrite <- Hm, app_nil, issue_if_nil, andb_false_iff.
  unfold in_set. rewrite !bool_decide_eq_false.
  destruct (is_in attr FORBIDDEN_ATTR_CALLS) eqn:H1; [apply is_in_true in H1|apply is_in_false in H1].
  { split; [by intros [_ ?]|]. by intros [? _]. }
  destruct (name_id v) as [m|].
  - rewrite issue_if_nil, bool_decide_eq_false. split.
    + intros [Hs Ht]. split_and!; [done| |by intros ? [= <-]]. intros [= ->]. by destruct Hs.
    + intros (_ & Hs & Ht). split; [|by apply Ht].
      destruct (decide (m = "self")) as [->|]; [right; auto|left; congruence].
  - split; [done|]. intros _. split; [|done]. by left.
Qed.
Lemma visit_Attribute_spec n v attr s :
  sc_issues (visit_Attribute n v attr s) = [] ↔
  sc_issues s = [] ∧ attr ∉ DANGEROUS_DUNDER_ATTRS ∧
  match v with
  | Name _ id => id ∈ ["object"; "type"] → is_dunder attr = false
  | Call _ (Name _ id) _ _ => id = "super" → is_dunder attr = false
  | _ => True
  end.
Proof.
  unfold visit_Attribute.
  destruct (is_in attr DANGEROUS_DUNDER_ATTRS) eqn:H1; [apply is_in_true in H1|apply is_in_false in H1].
  { rewrite add_issues_nil. naive_solver. }
  destruct v; try tauto.
  - destruct v; try tauto. rewrite add_issues_nil, issue_if_nil, andb_false_iff, String.eqb_neq.
    destruct (decide (id = "super")); tauto.
  - rewrite add_issues_nil, issue_if_nil, andb_false_iff, is_in_false.
    destruct (decide (id ∈ ["object"; "type"])); tauto.
Qed.

(** A node adds an issue exactly when it is not permitted. *)
Lemma enter_spec before n s :
  tracks before s → sc_issues (enter n s) = [] ↔ sc_issues s = [] ∧ permitted before n.
Proof.
  intros Ht. unfold enter. destruct n; cbn [security_enter permitted]; try tauto.
  - apply visit_Import_spec.
  - apply visit_ImportFrom_spec.
  - destruct n; try (unfold visit_Call; tauto); unfold visit_Call; rewrite add_issues_nil.
    + by rewrite call_attr_spec.
    + by rewrite call_name_spec.
  - apply visit_Attribute_spec.
  - unfold visit_Name. by rewrite add_issues_nil, issue_if_nil, String.eqb_neq.
  - unfold visit_Raise. rewrite add_issues_nil. destruct (raised_name exc) as [x|].
    + rewrite issue_if_nil, is_in_false. naive_solver.
    + naive_solver.
Qed.

(** Issues are never taken back. *)
Lemma enter_grows n s : sc_issues (enter n s) = [] → sc_issues s = [].
Proof.
  unfold enter. destruct n; cbn [security_enter]; try done.
  - by intros [? _]%visit_Import_spec.
  - by intros [? _]%visit_ImportFrom_spec.
  - unfold visit_Call. destruct n; try done; by intros [? _]%add_issues_nil.
  - by intros [? _]%visit_Attribute_spec.
  - by intros [? _]%add_issues_nil.
  - by intros [? _]%add_issues_nil.
Qed.

Lemma tracks_quiet before n s :
  tracks before s → module_bindings n = [] → (∀ x, ¬ binds_forbidden n x) → tracks (before ++ [n]) s.
Proof.
  intros [Hf Hm] Hb Hx. split.
  - intros x. rewrite Hf. setoid_rewrite elem_of_app. setoid_rewrite list_elem_of_singleton. naive_solver.
  - rewrite bind_app. cbn. by rewrite Hb, !app_nil_r.
Qed.

Lemma enter_tracks before n s :
  tracks before s → permitted before n → tracks (before ++ [n]) (enter n s).
Proof.
  intros Ht Hp. pose proof Ht as [Hf Hm]. unfold enter.
  destruct n; cbn [security_enter]; try (by apply (tracks_quiet _ _ _ Ht); [|intros ? []]).
  - destruct (visit_Import_frame (Import p names) names s) as [Hf' Hm']. split.
    + intros x. rewrite Hf', Hf. setoid_rewrite elem_of_app. setoid_rewrite list_elem_of_singleton. naive_solver.
    + rewrite Hm', Hm, bind_app, reverse_app, list_to_map_app. cbn. by rewrite app_nil_r.
  - destruct Hp as [Hs Hd]. unfold visit_ImportFrom.
    apply no_star in Hs. rewrite Hs, (proj2 (is_module_available_spec _) Hd).
    destruct (import_from_frame (default "" module) names s) as (_ & Hm' & Hf'). split.
    + intros x. rewrite Hf', Hf. setoid_rewrite elem_of_app. setoid_rewrite list_elem_of_singleton. split.
      * intros [(i & Hi & Hb)|Hb]; [eauto|]. exists (ImportFrom p module names). split; [by right|]. exact Hb.
      * intros (i & [Hi| ->] & Hb); [left; eauto|right; exact Hb].
    + rewrite Hm', Hm, bind_app. cbn. by rewrite app_nil_r.
  - unfold visit_Call. destruct n; by apply (tracks_quiet _ _ _ Ht); [|intros ? []].
  - unfold visit_Attribute. repeat case_match; by apply (tracks_quiet _ _ _ Ht); [|intros ? []].
Qed.

End Spec.

Lemma security_accepts_all (ctx : ValidationContext) (tree : node) :
  security_validate ctx tree = [] ↔ all_permitted (permitted ctx) (walk [] tree).*2.
Proof.
  apply (visitor_accepts (security_enter ctx) sc_issues tracks (permitted ctx)); [done| |done|..].
  - split; [|done]. intros x. cbn. rewrite lookup_empty. split; [by intros ?%is_Some_None|set_solver].
  - apply enter_grows.
  - apply enter_spec.
  - apply enter_tracks.
Qed.

(** C27.  The security guardrails accept a program exactly when every node of
    it, in program order, is permitted after the nodes that precede it: no
    import of a denied module or of [*], no call of a forbidden function by its
    name or by a name that an earlier import gave it, no call that ends the
    process, no dangerous attribute. *)
Theorem security_accepts (ctx : ValidationContext) (tree : node) :
  security_validate ctx tree = [] ↔
  ∀ before n after, (walk [] tree).*2 = (before ++ n :: after)%list → permitted ctx before n.
Proof. apply security_accepts_all. Qed.

Lemma import_from_accepted ctx p m names :
  security_validate ctx (Module [ImportFrom p (Some m) names]) = [] ↔
  (∀ a, a ∈ names → al_name a ≠ "*") ∧ ¬ denied_module ctx m.
Proof. change (security_validate _ _) with (sc_issues (visit_ImportFrom ctx (ImportFrom p (Some m) names) (Some m) names (mk_security [] ∅ ∅))). rewrite visit_ImportFrom_spec. naive_solver. Qed.

Lemma import_accepted ctx p names :
  security_validate ctx (Module [Import p names]) = [] ↔ ∀ a, a ∈ names → ¬ denied_module ctx (al_name a).
Proof. change (security_validate _ _) with (sc_issues (visit_Import ctx (Import p names) names (mk_security [] ∅ ∅))). rewrite visit_Import_spec. naive_solver. Qed.

(** A blocked submodule is refused by [import package.member] and by
    [from package.member import ...], and accepted by
    [from package import member], which binds the same module. *)
Theorem blocked_submodule_importable (ctx : ValidationContext) (p : pos) (package member x : string) :
  package +:+ "." +:+ member ∈ cx_blocked_modules ctx →
  is_module_available ctx package = true → member ≠ "*" →
  security_validate ctx (Module [Import p [mk_alias (package +:+ "." +:+ member) None]]) ≠ [] ∧
  security_validate ctx (Module [ImportFrom p (Some (package +:+ "." +:+ member)) [mk_alias x None]]) ≠ [] ∧
  security_validate ctx (Module [ImportFrom p (Some package) [mk_alias member None]]) = [].
Proof.
  intros Hb Hp%is_module_available_spec Hm.
  assert (denied_module ctx (package +:+ "." +:+ member)) as Hd
    by (exists (package +:+ "." +:+ member); split; [set_solver|by left]).
  rewrite import_accepted, !import_from_accepted. setoid_rewrite list_elem_of_singleton. split_and!.
  - intros H. by apply (H _ eq_refl).
  - by intros [_ ?].
  - by intros ? ->.
  - done.
Qed.

(** The context of a cell under the default restrictions. *)
Definition default_context : ValidationContext :=
  mk_context None ∅ ∅ DEFAULT_RESTRICTED_IMPORTS DEFAULT_BLOCKED_MODULES AnnNone.

Lemma blocked_submodule_importable_witness :
  security_validate default_context (Module [Import (mk_pos 1 0 1 21) [mk_alias "urllib.request" None]]) ≠ [] ∧
  security_validate default_context
    (Module [ImportFrom (mk_pos 1 0 1 21) (Some "urllib.request") [mk_alias "urlopen" None]]) ≠ [] ∧
  security_validate default_context
    (Module [ImportFrom (mk_pos 1 0 1 21) (Some "urllib") [mk_alias "request" None]]) = [].
Proof.
  apply (blocked_submodule_importable default_context (mk_pos 1 0 1 21) "urllib" "request" "urlopen").
  - apply (bool_decide_unpack _); vm_compute; exact I.
  - vm_compute; reflexivity.
  - discriminate.
Defined.
