(* ===== verification/CodePolicy.v ===== *)
(** * The REPL policy of generated code

    Models [REPLPolicyValidator] of [nooa/runtime/code_validator.py]: loops
    without an exit and calls of async methods without [await].  The parent map
    of the visitor, restricted to the node at hand, is its list of ancestors. *)

From stdpp Require Import gmap sets.
From S2P Require Import Prelude PyStr PyAst Restrictions CodeContext.

Local Open Scope string_scope.

(** ** Infinite loops *)

(** [value == 1]. *)
Definition equals_one (c : constant) : bool :=
  match c with CBool b => b | CInt n => Z.eqb n 1 | COther b => b | CNone | CStr _ => false end.

(** [_is_infinite_loop] of the test. *)
Definition is_infinite_loop (test : node) : bool :=
  match test with
  | Constant _ (CBool true) => true
  | Constant _ c => equals_one c
  | UnaryOp _ Not (Constant _ (CBool false)) => true
  | _ => false
  end.

(** [_has_exit_in_subtree]. *)
Fixpoint has_exit_in_subtree (check_break : bool) (n : node) {struct n} : bool :=
  let any := existsb (has_exit_in_subtree check_break) in
  let opt (o : option node) := match o with Some c => has_exit_in_subtree check_break c | None => false end in
  match n with
  | Return _ _ | RaiseStmt _ _ _ => true
  | Break _ => check_break
  | FunctionDef _ _ _ _ _ _ | ClassDef _ _ _ _ _ => false
  | For _ _ _ _ body orelse | While _ _ body orelse =>
      existsb (has_exit_in_subtree false) body || existsb (has_exit_in_subtree false) orelse
  | Import _ _ | ImportFrom _ _ _ | Name _ _ | Constant _ _ | Continue _ => false
  | Module l | TupleExpr _ l | ListExpr _ l | Other _ _ l => any l
  | Call _ f args kws => has_exit_in_subtree check_break f || any args || any kws
  | Attribute _ v _ | UnaryOp _ _ v | Starred _ v | Await _ v => has_exit_in_subtree check_break v
  | ListComp _ e gens | GeneratorExp _ e gens => has_exit_in_subtree check_break e || any gens
  | Assign _ targets v => any targets || has_exit_in_subtree check_break v
  | AugAssign _ t v => has_exit_in_subtree check_break t || has_exit_in_subtree check_break v
  | AnnAssign _ t a v => has_exit_in_subtree check_break t || has_exit_in_subtree check_break a || opt v
  end.

(** [_has_exit_statement] of the body of the loop. *)
Definition has_exit_statement (body : list node) : bool := existsb (has_exit_in_subtree true) body.

Definition flagged_loop (n : node) : bool :=
  match n with
  | While _ test body _ => is_infinite_loop test && negb (has_exit_statement body)
  | _ => false
  end.

(** ** Missing [await] *)

(** [_collect_async_methods]. *)
Definition async_attribute (a : attribute) : bool :=
  negb (starts_dunder (at_name a)) && negb (at_raises a) && at_is_async a && negb (at_hidden a).

Definition collect_async_methods (agent : option agent_info) : gset string :=
  match agent with
  | None => ∅
  | Some g =>
      list_to_set (at_name <$> base.filter (λ a, async_attribute a = true) (ag_class_attrs g)) ∪
      list_to_set (at_name <$> base.filter (λ a, async_attribute a = true) (ag_attrs g))
  end.

(** [_is_awaited_or_gathered]: an [await] has one child, so it awaits the node
    below it. *)
Fixpoint is_awaited_or_gathered (ancestors : list node) : bool :=
  match ancestors with
  | [] => false
  | Await _ _ :: _ | ListComp _ _ _ :: _ | GeneratorExp _ _ _ :: _ => true
  | _ :: rest => is_awaited_or_gathered rest
  end.

(** A call [self.m(...)] of an async method [m]. *)
Definition async_self_call (async_methods : gset string) (n : node) : bool :=
  match n with
  | Call _ (Attribute _ (Name _ id) m) _ _ => String.eqb id "self" && in_set async_methods m
  | _ => false
  end.

(** ** The visitor *)

(** [visit_While] and [visit_Call]. *)
Definition policy_enter (async_methods : gset string) (ancestors : list node) (n : node)
    (issues : list ValidationIssue) : list ValidationIssue :=
  match n with
  | While _ _ _ _ => issues ++ issue_if (flagged_loop n) n "E303"
  | Call _ _ _ _ =>
      issues ++ issue_if (async_self_call async_methods n && negb (is_awaited_or_gathered ancestors)) n "E301"
  | _ => issues
  end.

(** [REPLPolicyValidator.validate]. *)
Definition policy_validate (ctx : ValidationContext) (tree : node) : list ValidationIssue :=
  visit (policy_enter (collect_async_methods (cx_agent ctx))) [] tree [].

(** ** Executions

    Which ways out of a statement there are: every branch may be taken, every
    iterable may end after any number of items, and the expressions, imports and
    assertions in any statement may raise ([OThrow], as apart from a [raise]
    statement), so there are at least the outcomes of Python. *)
Inductive outcome := ONormal | OBreak | OContinue | OReturn | ORaise | OThrow.

(** Nodes without control flow of their own. *)
Definition is_simple (n : node) : bool :=
  match n with
  | Return _ _ | RaiseStmt _ _ _ | Break _ | Continue _ | While _ _ _ _ | For _ _ _ _ _ _ | ClassDef _ _ _ _ _
  | Module _ => false
  | _ => true
  end.

Inductive exec : node → outcome → Prop :=
  | exec_simple n : is_simple n = true → exec n ONormal
  | exec_throws n : exec n OThrow
  | exec_return p v : exec (Return p v) OReturn
  | exec_raise p e c : exec (RaiseStmt p e c) ORaise
  | exec_break p : exec (Break p) OBreak
  | exec_continue p : exec (Continue p) OContinue
  | exec_compound p kind l c o : c ∈ l → exec c o → exec (Other p kind l) o
  | exec_class p name bases body rest o : exec_block body o → exec (ClassDef p name bases body rest) o
  | exec_for_done p a t it body orelse o : exec_block orelse o → exec (For p a t it body orelse) o
  | exec_for_step p a t it body orelse o o' :
      exec_block body o → o = ONormal ∨ o = OContinue → exec (For p a t it body orelse) o' →
      exec (For p a t it body orelse) o'
  | exec_for_break p a t it body orelse : exec_block body OBreak → exec (For p a t it body orelse) ONormal
  | exec_for_exit p a t it body orelse o :
      exec_block body o → o = OReturn ∨ o = ORaise → exec (For p a t it body orelse) o
  | exec_while_done p test body orelse o :
      is_infinite_loop test = false → exec_block orelse o → exec (While p test body orelse) o
  | exec_while_step p test body orelse o o' :
      exec_block body o → o = ONormal ∨ o = OContinue → exec (While p test body orelse) o' →
      exec (While p test body orelse) o'
  | exec_while_break p test body orelse : exec_block body OBreak → exec (While p test body orelse) ONormal
  | exec_while_exit p test body orelse o :
      exec_block body o → o = OReturn ∨ o = ORaise → exec (While p test body orelse) o
with exec_block : list node → outcome → Prop :=
  | exec_nil : exec_block [] ONormal
  | exec_cons n l o : exec n ONormal → exec_block l o → exec_block (n :: l) o
  | exec_leave n l o : exec n o → o ≠ ONormal → exec_block (n :: l) o.

Scheme exec_mut_ind := Minimality for exec Sort Prop
  with exec_block_mut_ind := Minimality for exec_block Sort Prop.
