(* ===== verification/CodePolicyRuns.v ===== *)
(** * What the REPL policy reports

    A reported loop runs for ever, up to two shapes that the check gets wrong;
    a reported call is not awaited. *)

From stdpp Require Import gmap sets.
From S2P Require Import Prelude PyStr PyAst Restrictions CodeContext CodePolicy.

Local Open Scope string_scope.

(** ** Loops *)

(** No [else] clause of an inner loop and no class body, which the check does
    not look at closely, stands in the node. *)
Definition plain_node (n : node) : Prop :=
  match n with
  | For _ _ _ _ _ orelse | While _ _ _ orelse => orelse = []
  | ClassDef _ _ _ _ _ => False
  | _ => True
  end.

Definition plain (n : node) : Prop := ∀ a' m, within [] n a' m → plain_node m.

Lemma within_ancestors a n a' m : within a n a' m → ∀ b, ∃ b', within b n b' m.
Proof.
  induction 1 as [|a n c a' m Hc _ IH]; intros b; [eexists; constructor|].
  destruct (IH (n :: b)) as [b' ?]. exists b'. econstructor; eauto.
Qed.

Lemma plain_child n c : plain n → c ∈ children n → plain c.
Proof.
  intros Hn Hc a' m Hm. destruct (within_ancestors _ _ _ _ Hm [n]) as [b' Hb].
  apply (Hn b'). econstructor; eauto.
Qed.

Lemma plain_here n : plain n → plain_node n.
Proof. intros H. apply (H []). constructor. Qed.

(** What a node without a reported exit can do. *)
Definition stays (check_break : bool) (o : outcome) : Prop :=
  o = ONormal ∨ o = OContinue ∨ o = OThrow ∨ (check_break = false ∧ o = OBreak).

Definition stays_block (l : list node) (o : outcome) : Prop :=
  ∀ cb, Forall plain l → existsb (has_exit_in_subtree cb) l = false → stays cb o.

Lemma has_exit_other cb p kind l :
  has_exit_in_subtree cb (Other p kind l) = existsb (has_exit_in_subtree cb) l.
Proof. done. Qed.

Lemma existsb_elem {A} (f : A → bool) x l : x ∈ l → existsb f l = false → f x = false.
Proof.
  intros Hx Hl. apply not_true_iff_false. intros Hf. apply not_true_iff_false in Hl. apply Hl.
  apply existsb_exists. exists x. by rewrite <- list_elem_of_In.
Qed.

Lemma plain_inner n l : plain n → l ⊆ children n → Forall plain l.
Proof. intros Hn Hl. apply Forall_forall. intros c Hc. apply (plain_child n); [done|by apply Hl]. Qed.

(** Leaving the body of an inner loop goes on after the loop. *)
Lemma loop_stays body o : stays_block body o → Forall plain body →
  existsb (has_exit_in_subtree false) body = false → o ≠ OReturn ∧ o ≠ ORaise.
Proof. intros H Hp He. destruct (H false Hp He) as [->|[->|[->|[_ ->]]]]; done. Qed.

Lemma no_exit_stays n o :
  exec n o → ∀ cb, plain n → has_exit_in_subtree cb n = false → stays cb o.
Proof.
  revert n o.
  apply (exec_mut_ind (λ n o, ∀ cb, plain n → has_exit_in_subtree cb n = false → stays cb o) stays_block).
  - intros n _ cb _ _. by left.
  - intros n cb _ _. right. right. by left.
  - done.
  - done.
  - intros p [] _ He; [done|]. do 3 right. done.
  - intros. right. by left.
  - intros p kind l c o Hc _ IH cb Hn He. apply IH; [by eapply plain_child|by eapply existsb_elem].
  - intros p name bases body rest o _ _ cb Hn. by apply plain_here in Hn.
  - intros p a t it body orelse o Ho IH cb Hn He. apply plain_here in Hn. cbn in Hn. subst.
    inversion Ho. by left.
  - eauto.
  - intros. by left.
  - intros p a t it body orelse o _ IH Ho cb Hn He. cbn in He. apply orb_false_iff in He as [He _].
    destruct (loop_stays body o IH) as [? ?]; [|done|].
    + apply (plain_inner _ _ Hn). cbn. set_solver.
    + by destruct Ho.
  - intros p test body orelse o _ Ho IH cb Hn He. apply plain_here in Hn. cbn in Hn. subst.
    inversion Ho. by left.
  - eauto.
  - intros. by left.
  - intros p test body orelse o _ IH Ho cb Hn He. cbn in He. apply orb_false_iff in He as [He _].
    destruct (loop_stays body o IH) as [? ?]; [|done|].
    + apply (plain_inner _ _ Hn). cbn. set_solver.
    + by destruct Ho.
  - intros cb _ _. by left.
  - intros n l o _ _ _ IH cb Hp He. cbn in He. apply orb_false_iff in He as [_ He].
    inversion Hp; subst. by apply IH.
  - intros n l o _ IH _ cb Hp He. cbn in He. apply orb_false_iff in He as [He _].
    inversion Hp; subst. by apply IH.
Qed.

Lemma no_exit_block_stays l o cb :
  exec_block l o → Forall plain l → existsb (has_exit_in_subtree cb) l = false → stays cb o.
Proof.
  intros H. induction H as [|n l o Hn Hl IH|n l o Hn Ho]; intros Hp He; [by left|..];
    cbn in He; apply orb_false_iff in He as [He1 He2]; inversion Hp; subst; [by apply IH|].
  by eapply no_exit_stays.
Qed.

(** C28.  A loop reported as infinite never ends but by an exception that an
    expression, import or assertion in it raises, whatever branches are taken,
    if its body holds no [else] clause of an inner loop and no class
    definition. *)
Theorem flagged_loop_never_ends (p : pos) (test : node) (body orelse : list node) (o : outcome) :
  flagged_loop (While p test body orelse) = true → Forall plain body →
  exec (While p test body orelse) o → o = OThrow.
Proof.
  cbn. unfold has_exit_statement. rewrite andb_true_iff, negb_true_iff. intros [Ht He] Hp Hx.
  remember (While p test body orelse) as n eqn:Hn. revert Hn.
  induction Hx; intros Heq; try discriminate Heq; try done; try (injection Heq as -> -> -> ->; try congruence).
  - by subst n.
  - by apply IHHx.
  - destruct (no_exit_block_stays _ _ _ H Hp He) as [?|[?|[?|[? _]]]]; done.
  - destruct (no_exit_block_stays _ _ _ H Hp He) as [->|[->|[->|[? _]]]]; naive_solver.
Qed.

Definition nowhere : pos := mk_pos 1 0 1 0.

(** [while 1: pass] ends in no other way. *)
Lemma flagged_loop_never_ends_witness :
  let loop := While nowhere (Constant nowhere (CInt 1)) [Other nowhere "Pass" []] [] in
  flagged_loop loop = true ∧ exec loop OThrow ∧ ∀ o, exec loop o → o = OThrow.
Proof.
  split; [reflexivity|]. split; [constructor|]. intros o. apply flagged_loop_never_ends; [reflexivity|].
  apply Forall_singleton. intros a m Hm. apply elem_of_walk in Hm. inversion Hm as [|? ? ? Hn]; [exact I|].
  inversion Hn.
Defined.

(** ** The reports *)

Definition policy_issues (async_methods : gset string) (ancestors : list node) (n : node) : list ValidationIssue :=
  policy_enter async_methods ancestors n [].

Lemma policy_enter_app ms a n issues : policy_enter ms a n issues = (issues ++ policy_issues ms a n)%list.
Proof. unfold policy_issues. destruct n; cbn [policy_enter]; by rewrite ?app_nil_r. Qed.

Lemma policy_validate_walk ctx tree :
  policy_validate ctx tree =
  walk [] tree ≫= (λ am, policy_issues (collect_async_methods (cx_agent ctx)) am.1 am.2).
Proof.
  unfold policy_validate. rewrite visit_walk. set (ms := collect_async_methods _).
  assert (∀ l issues, foldl (λ s am, policy_enter ms am.1 am.2 s) issues l =
    (issues ++ (l ≫= (λ am, policy_issues ms am.1 am.2)))%list) as ->; [|done].
  induction l as [|[a n] l IH]; intros issues; cbn [foldl]; [by rewrite app_nil_r|].
  by rewrite IH, policy_enter_app, bind_cons, <- app_assoc.
Qed.

Lemma is_awaited_or_gathered_spec a :
  is_awaited_or_gathered a = true ↔
  ∃ m, m ∈ a ∧ match m with Await _ _ | ListComp _ _ _ | GeneratorExp _ _ _ => True | _ => False end.
Proof.
  induction a as [|n a IH]; cbn; [split; [done|set_solver]|]. setoid_rewrite elem_of_cons.
  destruct n; try (rewrite IH; naive_solver); (split; [intros _; eexists; split; [by left|done]|done]).
Qed.

(** The policy accepts a program exactly when none of its loops is
    reported and every call [self.m(...)] of an async method stands below an
    [await], a list comprehension or a generator. *)
Theorem policy_accepts (ctx : ValidationContext) (tree : node) :
  policy_validate ctx tree = [] ↔
  ∀ a n, within [] tree a n →
    flagged_loop n = false ∧
    (async_self_call (collect_async_methods (cx_agent ctx)) n = true →
     ∃ m, m ∈ a ∧ match m with Await _ _ | ListComp _ _ _ | GeneratorExp _ _ _ => True | _ => False end).
Proof.
  rewrite policy_validate_walk. setoid_rewrite <- elem_of_walk. setoid_rewrite <- is_awaited_or_gathered_spec.
  set (ms := collect_async_methods _).
  assert (∀ a n, policy_issues ms a n = [] ↔
    flagged_loop n = false ∧ (async_self_call ms n = true → is_awaited_or_gathered a = true)) as Hone.
  { intros a n. unfold policy_issues. destruct n; cbn [policy_enter app]; try (by split; intros; cbn in * ).
    - unfold issue_if. cbn [flagged_loop]. destruct (async_self_call ms _), (is_awaited_or_gathered a); naive_solver.
    - unfold issue_if. cbn [async_self_call]. destruct (flagged_loop _); naive_solver. }
  setoid_rewrite <- Hone. induction (walk [] tree) as [|[a n] l IH]; [split; [set_solver|done]|].
  rewrite bind_cons, app_nil, IH. setoid_rewrite elem_of_cons. cbn. naive_solver.
Qed.

(** ** A report that is wrong *)

(** A [break] in the [else] clause of an inner loop leaves the outer loop,
    but the check does not count it: the loop is reported as infinite although
    it ends after one round. *)
Theorem else_break_reported (p q : pos) (t it : node) :
  let loop := While p (Constant p (CBool true)) [For q false t it [Other q "Pass" []] [Break q]] [] in
  flagged_loop loop = true ∧ exec loop ONormal.
Proof.
  split; [done|]. apply exec_while_break, exec_leave; [|done].
  apply exec_for_done, exec_leave; [constructor|done].
Qed.
