(* ===== verification/CodeClass.v ===== *)
(** * Assignments that generated code may not make

    Models [ClassAssignmentValidator] (writes to attributes of classes) and
    [ReturnTypeShadowValidator] (rebinding the return type) of
    [nooa/runtime/code_validator.py]. What they accept, and what they do
    not see, follows. *)

From stdpp Require Import gmap sets.
From S2P Require Import Prelude PyStr PyAst Restrictions CodeContext.

Local Open Scope string_scope.

(** ** Class attributes *)

(** [_collect_class_names]. *)
Definition class_attribute (a : attribute) : bool :=
  negb (starts_dunder (at_name a)) && negb (at_raises a) && at_is_class a && negb (at_hidden a).

Definition collect_class_names (agent : option agent_info) : gset string :=
  match agent with
  | None => ∅
  | Some g =>
      list_to_set (snd <$> base.filter (λ c, c.1 = false) (ag_mro g)) ∪
      list_to_set (at_name <$> base.filter (λ a, class_attribute a = true) (ag_class_attrs g))
  end.

(** [_ClassAssignmentVisitor]. *)
Record class_state := mk_class_state {
  cs_issues : list ValidationIssue;
  class_ref_vars : gset string;
  self_ref_vars : gset string
}.

Definition report (l : list ValidationIssue) (s : class_state) : class_state :=
  mk_class_state (cs_issues s ++ l) (class_ref_vars s) (self_ref_vars s).

(** [_is_type_self_call]: [type(self)] or [type(x)] for an alias of [self]. *)
Definition is_type_self_call (s : class_state) (n : node) : bool :=
  match n with
  | Call _ (Name _ f) [Name _ x] _ => String.eqb f "type" && (String.eqb x "self" || in_set (self_ref_vars s) x)
  | _ => false
  end.

Definition is_self (n : node) : bool := bool_decide (name_id n = Some "self").

(** The names among the targets. *)
Definition target_names (targets : list node) : gset string := list_to_set (omap name_id targets).

(** Recording the targets that hold [self] or [type(self)]. *)
Definition track_targets (targets : list node) (value : node) (s : class_state) : class_state :=
  let s := if is_self value
           then mk_class_state (cs_issues s) (class_ref_vars s) (self_ref_vars s ∪ target_names targets) else s in
  if is_type_self_call s value
  then mk_class_state (cs_issues s) (class_ref_vars s ∪ target_names targets) (self_ref_vars s) else s.

Section ClassAssignment.
Context (known_class_names : gset string).

(** A name that stands for a class. *)
Definition class_name (s : class_state) (x : string) : bool :=
  in_set known_class_names x || in_set (class_ref_vars s) x.

(** [_check_class_attribute_target]. *)
Definition check_class_attribute_target (n : node) (s : class_state) (target : node) : class_state :=
  match target with
  | Attribute _ v _ =>
      if is_type_self_call s v then report [issue_at n "E401"] s
      else match v with
           | Name _ x => report (issue_if (negb (String.eqb x "self") && class_name s x) n "E401") s
           | _ => s
           end
  | _ => s
  end.

(** [visit_Assign], [visit_AugAssign], [visit_AnnAssign], [visit_Call]. *)
Definition class_visit_Assign (n : node) (targets : list node) (value : node) (s : class_state) : class_state :=
  foldl (check_class_attribute_target n) (track_targets targets value s) targets.

Definition class_visit_AnnAssign (n : node) (target : node) (value : option node) (s : class_state) : class_state :=
  match value with
  | None => s
  | Some v => check_class_attribute_target n (track_targets [target] v s) target
  end.

Definition class_visit_Call (n : node) (f : node) (args : list node) (s : class_state) : class_state :=
  match f, args with
  | Name _ id, obj :: _ :: _ =>
      if String.eqb id "setattr" then
        match obj with
        | Name _ x => report (issue_if (class_name s x) n "E402") s
        | _ => report (issue_if (is_type_self_call s obj) n "E402") s
        end
      else s
  | _, _ => s
  end.

Definition class_enter (_ : list node) (n : node) (s : class_state) : class_state :=
  match n with
  | Assign _ targets v => class_visit_Assign n targets v s
  | AugAssign _ t _ => check_class_attribute_target n s t
  | AnnAssign _ t _ v => class_visit_AnnAssign n t v s
  | Call _ f args _ => class_visit_Call n f args s
  | _ => s
  end.
End ClassAssignment.

(** [ClassAssignmentValidator.validate]. *)
Definition class_validate (ctx : ValidationContext) (tree : node) : list ValidationIssue :=
  cs_issues (visit (class_enter (collect_class_names (cx_agent ctx))) [] tree (mk_class_state [] ∅ ∅)).

(** ** The return type *)

(** [is_user_class]. *)
Definition is_user_class (module : option string) : bool :=
  match module with
  | Some m => negb (is_in m ["builtins"; "types"; "typing"; "collections.abc"])
  | None => true
  end.

Definition user_class_name (c : option string * string) : gset string :=
  if is_user_class c.1 then {[ c.2 ]} else ∅.

Definition as_annotation (o : pyobj) : annotation :=
  match o with PyModule _ => AnnOther | PyObject _ _ a => a end.

(** [_collect_type_names]; [fuel] is the number of frames Python allows. *)
Fixpoint collect_type_names (fuel : nat) (namespace : gmap string pyobj) (a : annotation) : result (gset string) :=
  match fuel with
  | O => Raise RecursionError
  | S fuel =>
      match a with
      | AnnNone | AnnOther => Ok ∅
      | AnnForward name =>
          match namespace !! name with
          | Some o => collect_type_names fuel namespace (as_annotation o)
          | None => Ok ∅
          end
      | AnnAnnotated args =>
          match args with base :: _ => collect_type_names fuel namespace base | [] => Ok ∅ end
      | AnnGeneric origin args =>
          foldl (λ names arg,
            result_bind names (λ names,
            result_bind (collect_type_names fuel namespace arg) (λ more, Ok (names ∪ more))))
            (Ok match origin with Some c => user_class_name c | None => ∅ end) args
      | AnnClass module name => Ok (user_class_name (module, name))
      end
  end.

(** [_assignment_target_names]. *)
Definition element_names (n : node) : list string :=
  match n with
  | Name _ id => [id]
  | Starred _ (Name _ id) => [id]
  | _ => []
  end.

Definition assignment_target_names (target : node) : list string :=
  match target with
  | TupleExpr _ elts | ListExpr _ elts => elts ≫= element_names
  | _ => element_names target
  end.

(** The names a statement of the cell binds, as the validator sees it. *)
Definition bound_names (n : node) : list string :=
  match n with
  | ClassDef _ name _ _ _ | FunctionDef _ _ name _ _ _ => [name]
  | Assign _ targets _ => targets ≫= assignment_target_names
  | AnnAssign _ (Name _ id) _ _ => [id]
  | _ => []
  end.

(** [ReturnTypeShadowValidator.validate]. *)
Definition shadow_validate (fuel : nat) (ctx : ValidationContext) (tree : node) : result (list ValidationIssue) :=
  result_bind (collect_type_names fuel (cx_exec_globals ctx) (cx_return_type ctx)) (λ protected,
    if bool_decide (protected = ∅) then Ok []
    else match tree with
         | Module body =>
             Ok (body ≫= (λ n, issue_if (existsb (in_set protected) (bound_names n)) n "E501"))
         | _ => Ok []
         end).

(** ** What the assignment checks accept

    The class assignment visitor and the return type check against what they
    forbid, and the assignments that they do not see. *)

Local Open Scope string_scope.

(** ** Class attributes *)

(** The targets of an assignment and the value they are given. *)
Definition binding (n : node) : option (list node * node) :=
  match n with
  | Assign _ targets v => Some (targets, v)
  | AnnAssign _ t _ (Some v) => Some ([t], v)
  | _ => None
  end.

(** The targets that [n] writes. *)
Definition written (n : node) : list node :=
  match n with
  | AugAssign _ t _ => [t]
  | _ => match binding n with Some (targets, _) => targets | None => [] end
  end.

(** After [before], the variable [x] was assigned [self]. *)
Definition holds_self (before : list node) (x : string) : Prop :=
  ∃ n targets v, n ∈ before ∧ binding n = Some (targets, v) ∧ is_self v = true ∧ x ∈ target_names targets.

(** [v] is [type(self)], or [type(x)] for an alias [x] of [self]. *)
Definition type_of_self (before : list node) (v : node) : Prop :=
  ∃ p q r x kws, v = Call p (Name q "type") [Name r x] kws ∧ (x = "self" ∨ holds_self before x).

(** After [before], the variable [x] was assigned the class of [self]. *)
Definition holds_class (before : list node) (x : string) : Prop :=
  ∃ earlier n later targets v, before = (earlier ++ n :: later)%list ∧ binding n = Some (targets, v) ∧
    type_of_self (earlier ++ [n]) v ∧ x ∈ target_names targets.

(** What is permitted at [n]: no write to an attribute of a class, and no
    [setattr] on one. *)
Definition target_permitted (known : gset string) (before : list node) (t : node) : Prop :=
  ∀ p v attr, t = Attribute p v attr →
    ¬ type_of_self before v ∧
    ∀ q x, v = Name q x → x ≠ "self" → x ∉ known ∧ ¬ holds_class before x.

Definition write_permitted (known : gset string) (before : list node) (n : node) : Prop :=
  Forall (target_permitted known (before ++ [n])) (written n) ∧
  (∀ p q obj name rest kws, n = Call p (Name q "setattr") (obj :: name :: rest) kws →
     ¬ type_of_self before obj ∧ ∀ r x, obj = Name r x → x ∉ known ∧ ¬ holds_class before x).

Definition knows (before : list node) (s : class_state) : Prop :=
  (∀ x, x ∈ self_ref_vars s ↔ holds_self before x) ∧ (∀ x, x ∈ class_ref_vars s ↔ holds_class before x).

Lemma in_set_true s x : in_set s x = true ↔ x ∈ s.
Proof. apply bool_decide_eq_true. Qed.

Lemma is_type_self_call_spec before s v :
  (∀ x, x ∈ self_ref_vars s ↔ holds_self before x) →
  is_type_self_call s v = true ↔ type_of_self before v.
Proof.
  intros Hs. unfold is_type_self_call, type_of_self. split.
  - destruct v; try done. destruct v; try done. destruct args as [|[] []]; try done.
    rewrite andb_true_iff, orb_true_iff, !String.eqb_eq, in_set_true, Hs. intros [-> Hx]. eauto 10.
  - intros (p & q & r & x & kws & -> & Hx). cbn. rewrite orb_true_iff, String.eqb_eq, in_set_true, Hs. done.
Qed.

Lemma holds_self_snoc before n x :
  holds_self (before ++ [n]) x ↔
  holds_self before x ∨ ∃ targets v, binding n = Some (targets, v) ∧ is_self v = true ∧ x ∈ target_names targets.
Proof.
  unfold holds_self. setoid_rewrite elem_of_app. setoid_rewrite list_elem_of_singleton. split.
  - intros (m & ts & v & [Hm| ->] & H); [left; eauto 10|right; eauto].
  - intros [(m & ts & v & Hm & H)|(ts & v & H)]; [exists m, ts, v; auto|exists n, ts, v; auto].
Qed.

Lemma holds_class_snoc before n x :
  holds_class (before ++ [n]) x ↔
  holds_class before x ∨
  ∃ targets v, binding n = Some (targets, v) ∧ type_of_self (before ++ [n]) v ∧ x ∈ target_names targets.
Proof.
  unfold holds_class. split.
  - intros (e & m & l & ts & v & Heq & H). destruct l as [|y l _] using rev_ind.
    + apply app_inj_tail in Heq as [-> ->]. right. eauto.
    + rewrite app_comm_cons, app_assoc in Heq. apply app_inj_tail in Heq as [-> ->]. left. eauto 10.
  - intros [(e & m & l & ts & v & -> & H)|(ts & v & H)].
    + exists e, m, (l ++ [n])%list, ts, v. by rewrite <- app_assoc.
    + exists before, n, [], ts, v. done.
Qed.

Lemma is_self_type v s : is_self v = true → is_type_self_call s v = false.
Proof. unfold is_self. rewrite bool_decide_eq_true. by destruct v. Qed.

Lemma knows_idle before n s : knows before s → binding n = None → knows (before ++ [n]) s.
Proof.
  intros [Hs Hc] Hn. split; intros x.
  - rewrite Hs, holds_self_snoc, Hn. naive_solver.
  - rewrite Hc, holds_class_snoc, Hn. naive_solver.
Qed.

Lemma knows_track before n targets v s :
  knows before s → binding n = Some (targets, v) → knows (before ++ [n]) (track_targets targets v s).
Proof.
  intros [Hs Hc] Hn.
  assert (∀ s', (∀ x, x ∈ self_ref_vars s' ↔ holds_self (before ++ [n]) x) →
    class_ref_vars s' = class_ref_vars s →
    knows (before ++ [n]) (if is_type_self_call s' v
      then mk_class_state (cs_issues s') (class_ref_vars s' ∪ target_names targets) (self_ref_vars s') else s')) as Hk.
  { intros s' Hs' Heq. pose proof (is_type_self_call_spec _ s' v Hs') as Ht.
    destruct (is_type_self_call s' v); split; cbn; try done; intros x; rewrite holds_class_snoc, <- Hc, ?elem_of_union, Heq.
    - split; [intros [?|?]; [by left|right]|intros [?|(ts & w & Hw & _ & Hx)]; [by left|right; congruence]].
      exists targets, v. split_and!; [done|by apply Ht|done].
    - split; [by left|]. intros [?|(ts & w & Hw & Ht' & _)]; [done|]. rewrite Hn in Hw. injection Hw as <- <-.
      by apply Ht in Ht'. }
  unfold track_targets. apply Hk; [|by case_match].
  intros x. rewrite holds_self_snoc, <- Hs. destruct (is_self v) eqn:Hv; cbn.
  - rewrite elem_of_union. split; [intros [?|?]; [by left|right; eauto]|].
    intros [?|(ts & w & Hw & _ & Hx)]; [by left|right; congruence].
  - split; [by left|]. intros [?|(ts & w & Hw & Hx & _)]; [done|congruence].
Qed.

Section Writes.
Context (known : gset string).

Lemma report_nil l s : cs_issues (report l s) = [] ↔ cs_issues s = [] ∧ l = [].
Proof. cbn. by rewrite app_nil. Qed.

Lemma class_name_spec before s x : knows before s → class_name known s x = false ↔ x ∉ known ∧ ¬ holds_class before x.
Proof. intros [_ <-]. unfold class_name, in_set. by rewrite orb_false_iff, !bool_decide_eq_false. Qed.

Lemma check_target_spec before n s t :
  knows before s →
  cs_issues (check_class_attribute_target known n s t) = [] ↔ cs_issues s = [] ∧ target_permitted known before t.
Proof.
  intros Hk. unfold check_class_attribute_target, target_permitted.
  destruct t; try (split; [intros ?; split; [done|by intros]|by intros [? _]]).
  pose proof (is_type_self_call_spec before s t (proj1 Hk)) as Ht. destruct (is_type_self_call s t).
  - rewrite report_nil. split; [by intros [_ ?]|]. intros [_ H]. destruct (H _ _ _ eq_refl) as [Hn _].
    destruct Hn. by apply Ht.
  - assert (¬ type_of_self before t) as Hn by (rewrite <- Ht; done).
    destruct t; try (split; [intros ?; split; [done|intros ? ? ? [= <- <- <-]; by split]|by intros [? _]]).
    rewrite report_nil, issue_if_none, andb_false_iff, negb_false_iff, String.eqb_eq, (class_name_spec before) by done.
    split.
    + intros [Hs Hx]. split; [done|]. intros ? ? ? [= <- <- <-]. split; [done|]. intros ? ? [= <- <-] ?. tauto.
    + intros [Hs H]. destruct (H _ _ _ eq_refl) as [_ Hx]. split; [done|].
      destruct (decide (id = "self")); [by left|right]. by apply (Hx p0).
Qed.

Lemma check_target_frame n s t before :
  knows before s → knows before (check_class_attribute_target known n s t).
Proof. intros Hk. unfold check_class_attribute_target. repeat case_match; done. Qed.

Lemma check_targets_spec before n targets s :
  knows before s →
  (cs_issues (foldl (check_class_attribute_target known n) s targets) = [] ↔
   cs_issues s = [] ∧ Forall (target_permitted known before) targets) ∧
  knows before (foldl (check_class_attribute_target known n) s targets).
Proof.
  revert s. induction targets as [|t targets IH]; intros s Hk; cbn [foldl].
  { split; [|done]. split; [done|by intros [? _]]. }
  destruct (IH _ (check_target_frame n s t before Hk)) as [-> Hk']. split; [|done].
  rewrite check_target_spec, Forall_cons by done. tauto.
Qed.

Lemma track_issues targets v s : cs_issues (track_targets targets v s) = cs_issues s.
Proof. unfold track_targets. by repeat case_match. Qed.

Lemma check_targets_grow n targets s :
  cs_issues (foldl (check_class_attribute_target known n) s targets) = [] → cs_issues s = [].
Proof.
  revert s. induction targets as [|t targets IH]; intros s H; [done|]. cbn in H. apply IH in H.
  unfold check_class_attribute_target in H. repeat case_match; try done; by apply report_nil in H as [? _].
Qed.

Lemma visit_Call_spec before n p f args kws s :
  knows before s →
  cs_issues (class_visit_Call known n f args s) = [] ↔
  cs_issues s = [] ∧
  ∀ p' q obj name rest kws', Call p f args kws = Call p' (Name q "setattr") (obj :: name :: rest) kws' →
    ¬ type_of_self before obj ∧ ∀ r x, obj = Name r x → x ∉ known ∧ ¬ holds_class before x.
Proof.
  intros Hk. unfold class_visit_Call.
  destruct f; try (split; [intros ?; split; [done|by intros]|by intros [? _]]).
  destruct args as [|obj [|name rest]]; try (split; [intros ?; split; [done|by intros]|by intros [? _]]).
  destruct (String.eqb_spec id "setattr") as [->|Hid]; [|split; [intros ?; split; [done|intros; exfalso; congruence]|by intros [? _]]].
  transitivity (cs_issues s = [] ∧ ¬ type_of_self before obj ∧ ∀ r x, obj = Name r x → x ∉ known ∧ ¬ holds_class before x).
  - pose proof (is_type_self_call_spec before s obj (proj1 Hk)) as Ht.
    destruct obj; rewrite report_nil, issue_if_none;
      try (rewrite <- Ht, not_true_iff_false; split; [intros [? ?]; split_and!; [done..|by intros]|by intros (? & ? & _)]).
    rewrite (class_name_spec before) by done. split.
    + intros [? Hx]. split_and!; [done| |by intros ? ? [= <- <-]]. intros (? & ? & ? & ? & ? & ? & _). done.
    + intros (? & _ & Hx). split; [done|]. by eapply Hx.
  - split; (intros [? H]; split; [done|]); [by intros ? ? ? ? ? ? [= <- <- <- <- <- <-]|by eapply H].
Qed.

(** A node adds an issue exactly when its writes are not permitted. *)
Lemma class_enter_spec before n s :
  knows before s →
  cs_issues (class_enter known [] n s) = [] ↔ cs_issues s = [] ∧ write_permitted known before n.
Proof.
  intros Hk. unfold write_permitted.
  assert (∀ targets v, binding n = Some (targets, v) →
    cs_issues (foldl (check_class_attribute_target known n) (track_targets targets v s) targets) = [] ↔
    cs_issues s = [] ∧ Forall (target_permitted known (before ++ [n])) targets) as Hbind.
  { intros targets v Hn. destruct (check_targets_spec (before ++ [n]) n targets (track_targets targets v s)) as [-> _];
      [by apply knows_track|by rewrite track_issues]. }
  destruct n; cbn [class_enter written binding] in *;
    try (split; [intros ?; split_and!; [done|apply Forall_nil_2|by intros]|by intros (? & _ & _)]).
  - rewrite (visit_Call_spec before _ p n args keywords) by done. split.
    + intros [? H]. split_and!; [done|apply Forall_nil_2|done].
    + by intros (? & _ & ?).
  - unfold class_visit_Assign. rewrite (Hbind _ _ eq_refl). split.
    + intros [? ?]. by split_and!.
    + by intros (? & ? & _).
  - rewrite (check_target_spec (before ++ [AugAssign p n1 n2])) by by apply knows_idle.
    rewrite Forall_singleton. split; [intros [? ?]; by split_and!|by intros (? & ? & _)].
  - unfold class_visit_AnnAssign. destruct value as [v|]; cbn in *.
    + rewrite (Hbind _ _ eq_refl). split; [intros [? ?]; by split_and!|by intros (? & ? & _)].
    + split; [intros ?; split_and!; [done|apply Forall_nil_2|by intros]|by intros (? & _ & _)].
Qed.

Lemma class_enter_grows n s : cs_issues (class_enter known [] n s) = [] → cs_issues s = [].
Proof.
  destruct n; cbn [class_enter]; try done.
  - unfold class_visit_Call. repeat case_match; try done; by intros [? _]%report_nil.
  - unfold class_visit_Assign. intros H%check_targets_grow. by rewrite track_issues in H.
  - apply (check_targets_grow _ [n1]).
  - unfold class_visit_AnnAssign. destruct value as [v|]; [|done].
    intros H%(check_targets_grow _ [_]). by rewrite track_issues in H.
Qed.

Lemma class_enter_knows before n s : knows before s → knows (before ++ [n]) (class_enter known [] n s).
Proof.
  intros Hk. destruct n; cbn [class_enter]; try by apply knows_idle.
  - unfold class_visit_Call. repeat case_match; by apply knows_idle.
  - apply check_targets_spec. by apply knows_track.
  - apply check_target_frame. by apply knows_idle.
  - unfold class_visit_AnnAssign. destruct value as [v|]; [|by apply knows_idle].
    apply check_target_frame. by apply knows_track.
Qed.
End Writes.

Lemma class_check_accepts_all (ctx : ValidationContext) (tree : node) :
  class_validate ctx tree = [] ↔
  all_permitted (write_permitted (collect_class_names (cx_agent ctx))) (walk [] tree).*2.
Proof.
  apply (visitor_accepts (class_enter (collect_class_names (cx_agent ctx))) cs_issues knows); try done.
  - split; intros x; cbn.
    + split; [set_solver|]. by intros (n & ? & ? & ?%elem_of_nil & _).
    + split; [set_solver|]. by intros ([] & ? & ? & ? & ? & ? & _).
  - apply class_enter_grows.
  - apply class_enter_spec.
  - intros. by apply class_enter_knows.
Qed.

(** The class assignment check accepts a program exactly when no node of
    it, in program order, assigns to an attribute of a class or calls
    [setattr] on one: a class the agent knows by name, [type(self)], or a
    variable that an earlier assignment made hold one of these. *)
Theorem class_check_accepts (ctx : ValidationContext) (tree : node) :
  class_validate ctx tree = [] ↔
  ∀ before n after, (walk [] tree).*2 = (before ++ n :: after)%list →
    write_permitted (collect_class_names (cx_agent ctx)) before n.
Proof. apply class_check_accepts_all. Qed.

(** Writing to a class attribute is refused in a plain assignment and
    accepted when the target is unpacked from a tuple. *)
Theorem unpacked_class_attribute_accepted (ctx : ValidationContext) (p : pos) (cls attr y : string) (v : constant) :
  cls ∈ collect_class_names (cx_agent ctx) → cls ≠ "self" →
  let target := Attribute p (Name p cls) attr in
  class_validate ctx (Module [Assign p [target] (Constant p v)]) ≠ [] ∧
  class_validate ctx (Module [Assign p [TupleExpr p [target; Name p y]] (Constant p v)]) = [].
Proof.
  intros Hc Hs target. split; [|done]. unfold class_validate. cbn. unfold class_name, in_set.
  rewrite (bool_decide_eq_true_2 _ Hc). by destruct (String.eqb_spec cls "self").
Qed.

Definition worker_agent : agent_info := mk_agent [(false, "Worker"); (true, "object")] [] [].

Lemma unpacked_class_attribute_accepted_witness :
  let ctx := mk_context (Some worker_agent) ∅ ∅ ∅ ∅ AnnNone in
  let p := mk_pos 1 0 1 17 in
  let target := Attribute p (Name p "Worker") "run" in
  class_validate ctx (Module [Assign p [target] (Constant p CNone)]) ≠ [] ∧
  class_validate ctx (Module [Assign p [TupleExpr p [target; Name p "y"]] (Constant p CNone)]) = [].
Proof.
  apply (unpacked_class_attribute_accepted (mk_context (Some worker_agent) ∅ ∅ ∅ ∅ AnnNone)).
  - apply (bool_decide_unpack _); vm_compute; exact I.
  - discriminate.
Defined.

(** ** The return type *)

(** The class [x] occurs in the annotation, through forward references. *)
Inductive mentions (ns : gmap string pyobj) : annotation → string → Prop :=
  | mentions_forward name o x : ns !! name = Some o → mentions ns (as_annotation o) x → mentions ns (AnnForward name) x
  | mentions_annotated base rest x : mentions ns base x → mentions ns (AnnAnnotated (base :: rest)) x
  | mentions_origin module x args : is_user_class module = true → mentions ns (AnnGeneric (Some (module, x)) args) x
  | mentions_arg origin args a x : a ∈ args → mentions ns a x → mentions ns (AnnGeneric origin args) x
  | mentions_class module x : is_user_class module = true → mentions ns (AnnClass module x) x.

Lemma elem_of_user_class_name c x : x ∈ user_class_name c ↔ is_user_class c.1 = true ∧ x = c.2.
Proof. unfold user_class_name. destruct (is_user_class c.1); set_solver. Qed.

Section TypeNames.
Context (ns : gmap string pyobj).

(** The loop over the arguments of a generic alias. *)
Lemma collect_args_Ok fuel args start names :
  foldl (λ names arg,
    result_bind names (λ names,
    result_bind (collect_type_names fuel ns arg) (λ more, Ok (names ∪ more)))) start args = Ok names →
  ∃ first, start = Ok first ∧
    (∀ a, a ∈ args → ∃ more, collect_type_names fuel ns a = Ok more) ∧
    ∀ x, x ∈ names ↔ x ∈ first ∨ ∃ a more, a ∈ args ∧ collect_type_names fuel ns a = Ok more ∧ x ∈ more.
Proof.
  revert start. induction args as [|a args IH]; intros start Hf; cbn in Hf.
  { exists names. split_and!; [done|set_solver|]. intros x. split; [by left|]. by intros [?|(? & ? & ?%elem_of_nil & _)]. }
  apply IH in Hf as (f1 & Hs & Hall & Hx). destruct start as [f0|]; [|done]. cbn in Hs.
  destruct (collect_type_names fuel ns a) as [m0|] eqn:Ha; [|done]. injection Hs as <-. exists f0. split_and!; [done| |].
  - intros b [->|Hb]%elem_of_cons; eauto.
  - intros x. rewrite Hx, elem_of_union. split.
    + intros [[?|?]|(b & m & Hb & H)]; [by left|right; exists a, m0|right; exists b, m]; set_solver.
    + intros [?|(b & m & [->|Hb]%elem_of_cons & Hm & Hxm)]; [by left; left|left; right; congruence|right; eauto].
Qed.

Lemma collect_type_names_spec fuel a names :
  collect_type_names fuel ns a = Ok names → ∀ x, x ∈ names ↔ mentions ns a x.
Proof.
  revert a names. induction fuel as [|fuel IH]; intros a names; [done|]. cbn [collect_type_names]. destruct a.
  - intros [= <-] x. split; [set_solver|by inversion 1].
  - destruct (ns !! name) as [o|] eqn:Ho.
    + intros Hc x. rewrite (IH _ _ Hc). split; [by econstructor|]. inversion 1; by simplify_eq.
    + intros [= <-] x. split; [set_solver|]. inversion 1; simplify_eq.
  - destruct args as [|base rest].
    + intros [= <-] x. split; [set_solver|by inversion 1].
    + intros Hc x. rewrite (IH _ _ Hc). split; [by constructor|]. by inversion 1.
  - intros (first & [= <-] & Hall & Hx)%collect_args_Ok x. rewrite Hx. split.
    + intros [Ho|(a & more & Ha & Hm & Hxm)].
      * destruct origin as [c|]; [|set_solver]. apply elem_of_user_class_name in Ho as [Hu ->].
        destruct c. by constructor.
      * econstructor; [done|]. by apply (IH _ _ Hm).
    + inversion 1 as [| | |? ? a ? Ha Hm|]; subst.
      * left. by apply elem_of_user_class_name.
      * right. destruct (Hall a Ha) as [more Hmore]. exists a, more. split_and!; [done..|]. by apply (IH _ _ Hmore).
  - intros [= <-] x. rewrite elem_of_user_class_name. cbn. split.
    + intros [? ->]. by constructor.
    + by inversion 1.
  - intros [= <-] x. split; [set_solver|by inversion 1].
Qed.
End TypeNames.

Lemma return_type_accepts (fuel : nat) (ctx : ValidationContext) (body : list node) (issues : list ValidationIssue) :
  shadow_validate fuel ctx (Module body) = Ok issues →
  issues = [] ↔
  ∀ n x, n ∈ body → x ∈ bound_names n → ¬ mentions (cx_exec_globals ctx) (cx_return_type ctx) x.
Proof.
  unfold shadow_validate.
  destruct (collect_type_names fuel _ _) as [protected|] eqn:Hc; [|done]. cbn.
  setoid_rewrite <- (collect_type_names_spec _ _ _ _ Hc). case_bool_decide as He.
  { intros [= <-]. subst. split; [set_solver|done]. }
  intros [= <-]. induction body as [|n body IH]; [split; [set_solver|done]|].
  rewrite bind_cons, app_nil, issue_if_none, IH. setoid_rewrite elem_of_cons.
  rewrite <- not_true_iff_false, existsb_exists. setoid_rewrite <- list_elem_of_In. setoid_rewrite in_set_true.
  naive_solver.
Qed.

(** The return type check accepts a cell exactly when no top-level
    statement of it, among those it looks at, binds a name that the return
    annotation mentions. *)
Theorem return_type_protected (fuel : nat) (ctx : ValidationContext) (body : list node) (issues : list ValidationIssue) :
  shadow_validate fuel ctx (Module body) = Ok issues →
  issues = [] ↔
  ∀ n x, n ∈ body → x ∈ bound_names n → ¬ mentions (cx_exec_globals ctx) (cx_return_type ctx) x.
Proof. apply return_type_accepts. Qed.

Lemma return_type_protected_witness :
  let answer := PyObject (Some "agent") (Some "Answer") (AnnClass (Some "agent") "Answer") in
  let ctx := mk_context None ∅ {["Answer" := answer]} ∅ ∅ (AnnGeneric None [AnnForward "Answer"; AnnNone]) in
  let cell := [Assign (mk_pos 1 0 1 13) [Name (mk_pos 1 0 1 6) "Answer"] (Constant (mk_pos 1 9 1 13) CNone)] in
  shadow_validate 1000 ctx (Module cell) = Ok [mk_issue 1 0 SError "E501"] ∧
  ¬ (∀ n x, n ∈ cell → x ∈ bound_names n → ¬ mentions (cx_exec_globals ctx) (cx_return_type ctx) x).
Proof.
  intros answer ctx cell. split; [vm_compute; reflexivity|].
  rewrite <- (return_type_protected 1000 ctx cell [mk_issue 1 0 SError "E501"]); [discriminate|].
  vm_compute; reflexivity.
Defined.

(** The forward references that stand in an annotation itself. *)
Fixpoint forward_names (a : annotation) : list string :=
  match a with
  | AnnForward name => [name]
  | AnnAnnotated args | AnnGeneric _ args => flat_map forward_names args
  | AnnNone | AnnClass _ _ | AnnOther => []
  end.

Lemma annotation_args_ind (P : annotation → Prop) :
  P AnnNone → (∀ name, P (AnnForward name)) →
  (∀ args, Forall P args → P (AnnAnnotated args)) →
  (∀ origin args, Forall P args → P (AnnGeneric origin args)) →
  (∀ module name, P (AnnClass module name)) → P AnnOther → ∀ a, P a.
Proof.
  intros HN HF HA HG HC HO. fix IH 1. intros [|name|args|origin args|module name|].
  - apply HN.
  - apply HF.
  - apply HA. induction args; constructor; [apply IH|assumption].
  - apply HG. induction args; constructor; [apply IH|assumption].
  - apply HC.
  - apply HO.
Qed.

Definition resolves (ns : gmap string pyobj) (a : annotation) : Prop :=
  ∃ enough, ∀ fuel, (enough ≤ fuel)%nat → is_ok (collect_type_names fuel ns a) = true.

Lemma resolves_args ns args :
  Forall (resolves ns) args →
  ∃ enough, ∀ fuel, (enough ≤ fuel)%nat → Forall (λ a, is_ok (collect_type_names fuel ns a) = true) args.
Proof.
  induction 1 as [|a args [n Hn] _ [m Hm]]; [by exists 0%nat|]. exists (n `max` m)%nat. intros fuel Hf.
  constructor; [apply Hn; lia|apply Hm; lia].
Qed.

Lemma collect_args_ok ns fuel args start :
  is_ok start = true → Forall (λ a, is_ok (collect_type_names fuel ns a) = true) args →
  is_ok (foldl (λ names arg,
    result_bind names (λ names,
    result_bind (collect_type_names fuel ns arg) (λ more, Ok (names ∪ more)))) start args) = true.
Proof.
  intros Hs Ha. revert start Hs. induction Ha as [|a args Ha _ IH]; intros start Hs; cbn; [done|].
  apply IH. destruct start; [|done]. cbn. by destruct (collect_type_names fuel ns a).
Qed.

(** Reading the return annotation terminates when the forward references
    of the name space do not form a cycle. *)
Theorem type_names_terminate (ns : gmap string pyobj) (rank : string → nat) (a : annotation) :
  (∀ s o s', ns !! s = Some o → s' ∈ forward_names (as_annotation o) → (rank s' < rank s)%nat) →
  ∃ enough, ∀ fuel, (enough ≤ fuel)%nat → is_ok (collect_type_names fuel ns a) = true.
Proof.
  intros Hrank.
  assert (∀ k a, (∀ s, s ∈ forward_names a → (rank s < k)%nat) → resolves ns a) as H.
  { clear a. induction k as [k IHk] using lt_wf_ind. intros a.
    assert (∀ s o, ns !! s = Some o → (rank s < k)%nat → resolves ns (as_annotation o)) as Hstep
      by (intros s o Ho Hk; apply (IHk (rank s)); [done|]; intros s' Hs'; by eapply Hrank).
    induction a as [|name|args IH|origin args IH| |] using annotation_args_ind; intros Hk.
    - exists 1%nat. intros [|fuel]; [lia|done].
    - destruct (ns !! name) as [o|] eqn:Ho.
      + destruct (Hstep name o Ho) as [n Hn]; [apply Hk; set_solver|]. exists (S n). intros [|fuel] Hf; [lia|].
        cbn. rewrite Ho. apply Hn. lia.
      + exists 1%nat. intros [|fuel] Hf; [lia|]. cbn. by rewrite Ho.
    - destruct args as [|base rest]; [exists 1%nat; intros [|fuel]; [lia|done]|].
      apply Forall_cons in IH as [IH _]. destruct IH as [n Hn].
      { intros s Hs. apply Hk. cbn. set_solver. }
      exists (S n). intros [|fuel] Hf; [lia|]. cbn. apply Hn. lia.
    - destruct (resolves_args ns args) as [n Hn].
      { rewrite Forall_forall in IH |- *. intros b Hb. apply IH; [done|]. intros s Hs. apply Hk. cbn.
        apply list_elem_of_In, in_flat_map. exists b. by rewrite <- !list_elem_of_In. }
      exists (S n). intros [|fuel] Hf; [lia|]. cbn. apply collect_args_ok; [done|]. apply Hn. lia.
    - exists 1%nat. intros [|fuel]; [lia|done].
    - exists 1%nat. intros [|fuel]; [lia|done]. }
  apply (H (S (max_list (rank <$> forward_names a)))). intros s Hs.
  apply le_n_S, max_list_elem_of_le, list_elem_of_fmap_2, Hs.
Qed.

(** A name bound to a string of itself makes the check raise, whatever the
    number of frames. *)
Lemma self_reference_raises ns name module fuel :
  ns !! name = Some (PyObject module None (AnnForward name)) →
  collect_type_names fuel ns (AnnForward name) = Raise RecursionError.
Proof. intros H. induction fuel as [|fuel IH]; [done|]. cbn. by rewrite H. Qed.

Lemma type_names_terminate_witness :
  let ns := {["Answer" := PyObject (Some "agent") (Some "Answer") (AnnClass (Some "agent") "Answer")]} in
  ∃ enough, ∀ fuel, (enough ≤ fuel)%nat →
    is_ok (collect_type_names fuel ns (AnnGeneric None [AnnForward "Answer"; AnnNone])) = true.
Proof.
  intros ns. apply (type_names_terminate ns (λ _, 0%nat)).
  intros s o s' [<- <-]%lookup_singleton_Some Hs'. inversion Hs'.
Defined.
