(* ===== verification/CodeBlocking.v ===== *)
(** * Calls that would block the event loop

    Models [BlockingCallValidator] of [nooa/runtime/code_validator.py]: names
    are resolved in the name space of the cell, and local variables assigned
    from a constructor of a listed module are followed. What the check sees follows. *)

From stdpp Require Import gmap sets.
From S2P Require Import Prelude PyStr PyAst Restrictions CodeContext.

Local Open Scope string_scope.

(** [_BlockingCallVisitor]. *)
Record blocking_state := mk_blocking {
  bl_issues : list ValidationIssue;
  tracked_locals : gmap string (string * string)
}.

Definition block_issues (l : list ValidationIssue) (s : blocking_state) : blocking_state :=
  mk_blocking (bl_issues s ++ l) (tracked_locals s).

Section Blocking.
Context (exec_globals : gmap string pyobj) (restrictions : RestrictionsConfig).

Definition in_blocked_modules (m : string) : option string :=
  truthy (match_blocked_module (in_set (blocked_modules restrictions)) m).
Definition in_blocked_calls (m : string) : option string :=
  truthy (match_blocked_module (in_dict (blocked_calls restrictions)) m).

(** [name in self.blocked_calls[matched]]. *)
Definition call_blocked (matched name : string) : bool :=
  match blocked_calls restrictions !! matched with Some names => in_set names name | None => false end.

(** [_resolve_module]. *)
Fixpoint resolve_module (n : node) : option string :=
  match n with
  | Name _ id => match exec_globals !! id with Some o => origin_module o | None => None end
  | Attribute _ v _ => resolve_module v
  | _ => None
  end.

(** [_resolve_module_from_call]. *)
Definition resolve_module_from_call (n : node) : option string :=
  match n with Call _ (Attribute _ v _) _ _ => resolve_module v | _ => None end.

(** [visit_Assign]. *)
Definition tracked_constructor (value : node) : option (string * string) :=
  match value with
  | Call _ (Attribute _ v attr) _ _ =>
      match truthy (resolve_module v) with
      | Some m => match in_blocked_calls m with Some matched => Some (matched, attr) | None => None end
      | None => None
      end
  | _ => None
  end.

Definition blocking_visit_Assign (targets : list node) (value : node) (s : blocking_state) : blocking_state :=
  match tracked_constructor value with
  | Some t => mk_blocking (bl_issues s) (foldl (λ d x, <[x := t]> d) (tracked_locals s) (omap name_id targets))
  | None => s
  end.

(** The call is on a module, or an object of a module, that the name space
    knows as blocked. *)
Definition direct_block (value : node) (call_name : string) : bool :=
  match truthy (resolve_module value) with
  | None => false
  | Some m =>
      match in_blocked_modules m with
      | Some _ => true
      | None => match in_blocked_calls m with Some matched => call_blocked matched call_name | None => false end
      end
  end.

(** The call is on a local variable that holds such an object. *)
Definition local_block (s : blocking_state) (value : node) (call_name : string) : bool :=
  match value with
  | Name _ x =>
      match tracked_locals s !! x with
      | Some (m, class_name) => call_blocked m (class_name +:+ "." +:+ call_name) || call_blocked m call_name
      | None => false
      end
  | _ => false
  end.

(** The call is on the result of a call on a listed module. *)
Definition chained_block (value : node) (call_name : string) : bool :=
  match truthy (resolve_module_from_call value) with
  | Some m => match in_blocked_calls m with Some matched => call_blocked matched call_name | None => false end
  | None => false
  end.

(** A call of a name bound to a function of a blocked or listed module. *)
Definition name_block (id : string) : bool :=
  match exec_globals !! id with
  | Some (PyObject module name _) =>
      match truthy module with
      | Some m =>
          match in_blocked_modules m with
          | Some _ => true
          | None => match in_blocked_calls m with Some matched => call_blocked matched (default id name) | None => false end
          end
      | None => false
      end
  | _ => false
  end.

(** [visit_Call]. *)
Definition blocking_visit_Call (n : node) (f : node) (s : blocking_state) : blocking_state :=
  match f with
  | Attribute _ v call_name =>
      if direct_block v call_name then block_issues [issue_at n "E310"] s
      else block_issues
             (issue_if (local_block s v call_name) n "E310" ++ issue_if (chained_block v call_name) n "E310") s
  | Name _ id => block_issues (issue_if (name_block id) n "E310") s
  | _ => s
  end.

Definition blocking_enter (_ : list node) (n : node) (s : blocking_state) : blocking_state :=
  match n with
  | Assign _ targets v => blocking_visit_Assign targets v s
  | Call _ f _ _ => blocking_visit_Call n f s
  | _ => s
  end.

(** [BlockingCallValidator.validate]. *)
Definition blocking_validate (tree : node) : list ValidationIssue :=
  bl_issues (visit blocking_enter [] tree (mk_blocking [] ∅)).
End Blocking.

(** ** What the blocking call check sees *)

Local Open Scope string_scope.

Lemma truthy_Some o m : truthy o = Some m ↔ o = Some m ∧ m ≠ "".
Proof.
  unfold truthy. destruct o as [[|c s]|]; split; try done.
  - by intros [[= <-] ?].
  - intros [= <-]. done.
  - by intros [? _].
  - by intros [? _].
Qed.

Lemma no_blocked_modules r m :
  in_blocked_modules (mk_restrictions ∅ (blocked_calls r) (restricted_imports r)) m = None.
Proof.
  unfold in_blocked_modules. cbn. rewrite (proj2 (match_blocked_module_None _ m)); [done|].
  intros k _. unfold in_set. by rewrite bool_decide_eq_false.
Qed.

(** A module that is not blocked matches nothing. *)
Lemma stripped_not_blocked r o m :
  is_from_blocked_module o (blocked_modules r) = false → truthy (origin_module o) = Some m →
  in_blocked_modules r m = None.
Proof.
  unfold is_from_blocked_module, in_blocked_modules. intros H Hm. rewrite Hm in H.
  by destruct (match_blocked_module _ m).
Qed.

Lemma stripped_resolve g r v m :
  truthy (resolve_module (strip_blocked_modules g (blocked_modules r)) v) = Some m → in_blocked_modules r m = None.
Proof.
  induction v; try done. cbn.
  destruct (strip_blocked_modules g (blocked_modules r) !! id) as [o|] eqn:Ho; [|done].
  apply strip_blocked_modules_lookup in Ho as [_ Ho]. by apply stripped_not_blocked.
Qed.

(** Once the blocked modules are stripped from the name space, the check
    for calls on blocked modules never fires: the report is that of the listed
    calls alone. *)
Theorem blocked_module_check_dead (g : gmap string pyobj) (r : RestrictionsConfig) (tree : node) :
  let stripped := strip_blocked_modules g (blocked_modules r) in
  blocking_validate stripped r tree =
  blocking_validate stripped (mk_restrictions ∅ (blocked_calls r) (restricted_imports r)) tree.
Proof.
  intros stripped. unfold blocking_validate. f_equal. apply visit_ext. intros a n s.
  destruct n; try done. cbn. unfold blocking_visit_Call. destruct n; try done.
  - unfold direct_block, local_block, chained_block.
    destruct (truthy (resolve_module stripped n)) as [m|] eqn:Hm; [|done].
    by rewrite (stripped_resolve g r n m Hm), no_blocked_modules.
  - unfold name_block. destruct (stripped !! id) as [[|module name ann]|] eqn:Ho; [done| |done].
    destruct (truthy module) as [m|] eqn:Hm; [|done].
    apply strip_blocked_modules_lookup in Ho as [_ Ho].
    by rewrite (stripped_not_blocked r _ m Ho Hm), no_blocked_modules.
Qed.

Section Calls.
Context (g : gmap string pyobj) (r : RestrictionsConfig).

Lemma blocking_grows n s : bl_issues (blocking_enter g r [] n s) = [] → bl_issues s = [].
Proof.
  destruct n; try done; cbn.
  - unfold blocking_visit_Call. destruct n; try done; cbn; repeat case_match; cbn; rewrite ?app_nil; tauto.
  - unfold blocking_visit_Assign. by case_match.
Qed.

(** An accepted program holds no call that is blocked by its module. *)
Lemma accepted_direct tree a p q v c args kws :
  blocking_validate g r tree = [] → within [] tree a (Call p (Attribute q v c) args kws) →
  direct_block g r v c = false.
Proof.
  unfold blocking_validate. rewrite <- elem_of_walk, visit_walk. intros Hv (l1 & l2 & Hl)%list_elem_of_split.
  rewrite Hl, foldl_app in Hv. cbn in Hv. set (s := foldl _ _ l1) in Hv.
  assert (∀ l s, bl_issues (foldl (λ s am, blocking_enter g r am.1 am.2 s) s l) = [] → bl_issues s = []) as Hback.
  { clear. induction l as [|[b m] l IH]; intros s H; [done|]. cbn in H. apply IH in H. by apply (blocking_grows m). }
  apply Hback in Hv. cbn in Hv. destruct (direct_block g r v c); [|done]. by apply app_nil in Hv as [_ ?].
Qed.
End Calls.

(** ** Which calls are refused

    The specification of the check, without its state: what each name of a
    module or object of the name space means, and what the assignments before a
    call left in a variable. *)

(** [m] is, or lies in, a blocked module. *)
Definition blocked_module (r : RestrictionsConfig) (m : string) : Prop :=
  ∃ k, k ∈ blocked_modules r ∧ k ≠ "" ∧ covers k m.

(** [names] are the listed calls of [k], the most specific listed module that
    [m] is or lies in. *)
Definition listed (r : RestrictionsConfig) (m k : string) (names : gset string) : Prop :=
  k ≠ "" ∧ blocked_calls r !! k = Some names ∧ covers k m ∧
  ∀ k', is_Some (blocked_calls r !! k') → covers k' m → (String.length k' ≤ String.length k)%nat.

(** A call of [c] in the module [m] blocks. *)
Definition blocks_in (r : RestrictionsConfig) (m c : string) : Prop :=
  blocked_module r m ∨ ∃ k names, listed r m k names ∧ c ∈ names.

(** [x], [x.a], [x.a.b] and so on. *)
Inductive rooted (x : string) : node → Prop :=
  | rooted_name p : rooted x (Name p x)
  | rooted_attribute p v a : rooted x v → rooted x (Attribute p v a).

(** The object [v] starts from comes from the module [m]. *)
Definition of_module (g : gmap string pyobj) (v : node) (m : string) : Prop :=
  ∃ x o, rooted x v ∧ g !! x = Some o ∧ origin_module o = Some m ∧ m ≠ "".

(** [v] calls [cls] of a module listed under [k]. *)
Definition constructs (g : gmap string pyobj) (r : RestrictionsConfig) (v : node) (k cls : string) : Prop :=
  ∃ p q w args kws m names, v = Call p (Attribute q w cls) args kws ∧ of_module g w m ∧ listed r m k names.

(** [n] assigns such a value to the variable [x]; and [x] was last assigned one. *)
Definition binds_instance g r (n : node) (x k cls : string) : Prop :=
  ∃ p targets v, n = Assign p targets v ∧ x ∈ omap name_id targets ∧ constructs g r v k cls.
Definition holds_instance g r (before : list node) (x k cls : string) : Prop :=
  ∃ b1 n b2, before = (b1 ++ n :: b2)%list ∧ binds_instance g r n x k cls ∧
    ∀ n' k' cls', n' ∈ b2 → ¬ binds_instance g r n' x k' cls'.

(** The call [n] is refused after the nodes [before]: on an object of a module
    in which it blocks, on a variable that holds an instance of a class whose
    call is listed, on the result of a call in a module where it is listed, or
    by a name for a function of such a module. *)
Definition refused_call g r (before : list node) (n : node) : Prop :=
  ∃ p f args kws, n = Call p f args kws ∧
    ((∃ q v c, f = Attribute q v c ∧
       ((∃ m, of_module g v m ∧ blocks_in r m c) ∨
        (∃ s x k cls names, v = Name s x ∧ holds_instance g r before x k cls ∧ blocked_calls r !! k = Some names ∧
           (cls +:+ "." +:+ c ∈ names ∨ c ∈ names)) ∨
        (∃ p' q' w c' args' kws' m k names, v = Call p' (Attribute q' w c') args' kws' ∧ of_module g w m ∧
           listed r m k names ∧ c ∈ names))) ∨
     (∃ q x m name ann, f = Name q x ∧ g !! x = Some (PyObject (Some m) name ann) ∧ m ≠ "" ∧
        blocks_in r m (default x name))).

Lemma str_nil_r s : s +:+ "" = s.
Proof. induction s as [|c s IH]; [done|]. change (String c (s +:+ "") = String c s). by rewrite IH. Qed.

Lemma covers_same_length k k' m : covers k m → covers k' m → String.length k = String.length k' → k = k'.
Proof.
  assert (∀ a b s t, String.length a = String.length b → a +:+ s = b +:+ t → a = b) as Happ.
  { induction a as [|c a IH]; intros [|d b] s t; try done. cbn. intros [= Hl] [= -> Hs]. f_equal. by eapply IH. }
  assert (∀ k m, covers k m → ∃ s, m = k +:+ s) as Hpre.
  { intros a b [->|[t ->]]; [exists ""; by rewrite str_nil_r|by eexists]. }
  intros [s ->]%Hpre [t H]%Hpre Hl. by eapply Happ.
Qed.

Section Accepts.
Context (g : gmap string pyobj) (r : RestrictionsConfig).

Lemma in_blocked_modules_spec m : is_Some (in_blocked_modules r m) ↔ blocked_module r m.
Proof.
  unfold in_blocked_modules, blocked_module. destruct (match_blocked_module _ m) as [k|] eqn:Hm.
  - destruct (match_blocked_module_Some _ _ _ Hm) as (Hk & Hc & Hl). unfold in_set in Hk. bool_prop. split.
    + intros [k' [[= <-] Hne]%truthy_Some]. eauto.
    + intros (k' & Hin & Hne & Hc'). exists k. apply truthy_Some. split; [done|]. intros ->.
      specialize (Hl k' (bool_decide_eq_true_2 _ Hin) Hc'). destruct k'; [done|cbn in Hl; lia].
  - split; [by intros []|]. intros (k' & Hin & _ & Hc').
    pose proof (proj1 (match_blocked_module_None _ _) Hm k' Hc') as H. unfold in_set in H. by bool_prop.
Qed.

Lemma in_blocked_calls_spec m k :
  in_blocked_calls r m = Some k ↔ ∃ names, listed r m k names.
Proof.
  unfold in_blocked_calls, listed. rewrite truthy_Some. split.
  - intros [Hm Hne]. destruct (match_blocked_module_Some _ _ _ Hm) as (Hk & Hc & Hl). unfold in_dict in *. bool_prop.
    destruct Hk as [names Hn]. exists names. split; [done|]. split; [done|]. split; [done|].
    intros k' Hk'. apply Hl. by apply bool_decide_eq_true_2.
  - intros (names & Hne & Hn & Hc & Hl). split; [|done].
    destruct (match_blocked_module _ m) as [k'|] eqn:Hm.
    + destruct (match_blocked_module_Some _ _ _ Hm) as (Hk' & Hc' & Hl'). unfold in_dict in *. bool_prop.
      f_equal. apply (covers_same_length _ _ m Hc' Hc). apply Nat.le_antisymm; [by apply Hl|].
      apply Hl'; [apply bool_decide_eq_true_2; eauto|done].
    + pose proof (proj1 (match_blocked_module_None _ _) Hm k Hc) as H. unfold in_dict in H. bool_prop. destruct H. eauto.
Qed.

Lemma call_blocked_spec m c :
  match in_blocked_calls r m with Some k => call_blocked r k c | None => false end = true ↔
  ∃ k names, listed r m k names ∧ c ∈ names.
Proof.
  destruct (in_blocked_calls r m) as [k|] eqn:Hm.
  - apply in_blocked_calls_spec in Hm as [names Hn]. unfold call_blocked.
    destruct Hn as (H1 & H2 & H3 & H4). rewrite H2. unfold in_set. rewrite bool_decide_eq_true. split.
    + intros Hc. by exists k, names.
    + intros (k' & names' & (H1' & H2' & H3' & H4') & Hc).
      assert (k' = k) as ->; [|by simplify_eq].
      apply (covers_same_length _ _ m H3' H3). apply Nat.le_antisymm; [apply H4; eauto|apply H4'; eauto].
  - split; [done|]. intros (k & names & Hl & _).
    assert (in_blocked_calls r m = Some k) as H by (apply in_blocked_calls_spec; eauto). congruence.
Qed.

Lemma blocks_in_spec m c :
  match in_blocked_modules r m with
  | Some _ => true
  | None => match in_blocked_calls r m with Some matched => call_blocked r matched c | None => false end
  end = true ↔ blocks_in r m c.
Proof.
  unfold blocks_in. rewrite <- call_blocked_spec, <- in_blocked_modules_spec.
  destruct (in_blocked_modules r m); [|by split; [right|intros [[]|]]]. split; [eauto|done].
Qed.

Lemma resolve_module_spec v m : truthy (resolve_module g v) = Some m ↔ of_module g v m.
Proof.
  rewrite truthy_Some. unfold of_module. induction v; cbn; try (split; [by intros [? _]|intros (?&?&Hr&_); inversion Hr]).
  - rewrite IHv. split; intros (x & o & Hr & H); exists x, o; (split; [|done]); [by constructor|by inversion Hr].
  - split.
    + destruct (g !! id) as [o|] eqn:Ho; [|by intros [? _]]. intros [H1 H2]. exists id, o. split; [constructor|done].
    + intros (x & o & Hr & Ho & H1 & H2). inversion Hr; subst. by rewrite Ho.
Qed.

Lemma constructs_spec v k cls : tracked_constructor g r v = Some (k, cls) ↔ constructs g r v k cls.
Proof.
  unfold constructs, tracked_constructor. split.
  - destruct v; try done. destruct v; try done. destruct (truthy (resolve_module g v)) as [m|] eqn:Hm; [|done].
    destruct (in_blocked_calls r m) as [k'|] eqn:Hk; [|done]. intros [= <- <-].
    apply resolve_module_spec in Hm. apply in_blocked_calls_spec in Hk as [names Hn]. eauto 15.
  - intros (p & q & w & args & kws & m & names & -> & Hm%resolve_module_spec & Hl).
    rewrite Hm. by rewrite (proj2 (in_blocked_calls_spec m k) (ex_intro _ names Hl)).
Qed.

Definition remembers (before : list node) (s : blocking_state) : Prop :=
  ∀ x k cls, tracked_locals s !! x = Some (k, cls) ↔ holds_instance g r before x k cls.

Lemma holds_instance_snoc before n x k cls :
  holds_instance g r (before ++ [n]) x k cls ↔
  binds_instance g r n x k cls ∨ (∀ k' cls', ¬ binds_instance g r n x k' cls') ∧ holds_instance g r before x k cls.
Proof.
  unfold holds_instance. split.
  - intros (b1 & m & b2 & Heq & Hm & Hno). destruct b2 as [|n' b2' _] using rev_ind.
    + apply app_inj_tail in Heq as [<- <-]. by left.
    + rewrite app_comm_cons, app_assoc in Heq. apply app_inj_tail in Heq as [-> <-]. right. split.
      * intros k' cls'. apply Hno. set_solver.
      * exists b1, m, b2'. split; [done|]. split; [done|]. intros n' k' cls' Hin. apply Hno. set_solver.
  - intros [Hn|[Hn (b1 & m & b2 & -> & Hm & Hno)]].
    + exists before, n, []. split; [done|]. split; [done|]. set_solver.
    + exists b1, m, (b2 ++ [n])%list. split; [by rewrite <- app_assoc|]. split; [done|].
      intros n' k' cls' [Hin|Hin%list_elem_of_singleton]%elem_of_app; [by apply Hno|]. subst. apply Hn.
Qed.

Lemma lookup_foldl_insert {A} (t : A) l (m : gmap string A) x :
  foldl (λ d x, <[x := t]> d) m l !! x = if decide (x ∈ l) then Some t else m !! x.
Proof.
  revert m. induction l as [|y l IH]; intros m; cbn [foldl]; [done|]. rewrite IH.
  destruct (decide (x ∈ l)) as [Hx|Hx], (decide (x ∈ y :: l)) as [Hy|Hy]; try done.
  - set_solver.
  - apply elem_of_cons in Hy as [->|?]; [by rewrite lookup_insert_eq|done].
  - rewrite lookup_insert_ne; [done|]. set_solver.
Qed.

Lemma remembers_enter before n s : remembers before s → remembers (before ++ [n]) (blocking_enter g r [] n s).
Proof.
  intros Hs.
  assert (∀ s', tracked_locals s' = tracked_locals s → (∀ x k cls, ¬ binds_instance g r n x k cls) →
    remembers (before ++ [n]) s') as Hidle.
  { intros s' Heq Hno x k cls. rewrite Heq, (Hs x k cls), holds_instance_snoc. split; [by right|].
    intros [H|[_ H]]; [by apply Hno in H|done]. }
  destruct n; try (apply Hidle; [done|by intros x k cls (?&?&?&?&_)]); cbn [blocking_enter].
  - apply Hidle; [|by intros x k cls (?&?&?&?&_)]. unfold blocking_visit_Call.
    destruct n; try done. by destruct (direct_block g r n attr).
  - unfold blocking_visit_Assign. destruct (tracked_constructor g r n) as [[k' cls']|] eqn:Ht.
    + intros x k cls. cbn [tracked_locals]. rewrite holds_instance_snoc, lookup_foldl_insert.
      assert (∀ k0 cls0, binds_instance g r (Assign p targets n) x k0 cls0 ↔
        x ∈ omap name_id targets ∧ (k0, cls0) = (k', cls')) as Hb.
      { intros k0 cls0. split.
        - intros (? & ? & ? & [= <- <- <-] & Hx & Hc%constructs_spec). split; [done|]. congruence.
        - intros [Hx [= -> ->]]. exists p, targets, n. split; [done|]. split; [done|]. by apply constructs_spec. }
      rewrite Hb. destruct (decide (x ∈ omap name_id targets)) as [Hx|Hx].
      * split; [intros [= <- <-]; by left|]. intros [[_ [= -> ->]]|[Hno _]]; [done|]. destruct (Hno k' cls'). by apply Hb.
      * rewrite (Hs x k cls). setoid_rewrite Hb. naive_solver.
    + apply Hidle; [done|]. intros x k cls (? & ? & ? & [= <- <- <-] & _ & Hc%constructs_spec). congruence.
Qed.

Lemma local_block_spec before s v c : remembers before s →
  local_block r s v c = true ↔
  ∃ q x k cls names, v = Name q x ∧ holds_instance g r before x k cls ∧ blocked_calls r !! k = Some names ∧
    (cls +:+ "." +:+ c ∈ names ∨ c ∈ names).
Proof.
  intros Hs. unfold local_block. split.
  - destruct v; try done. destruct (tracked_locals s !! id) as [[k cls]|] eqn:Hx; [|done]. apply Hs in Hx.
    unfold call_blocked, in_set. destruct (blocked_calls r !! k) as [names|] eqn:Hk; [|done].
    rewrite orb_true_iff, !bool_decide_eq_true. eauto 10.
  - intros (q & x & k & cls & names & -> & Hx%Hs & Hk & Hc). rewrite Hx. unfold call_blocked, in_set. rewrite Hk.
    by rewrite orb_true_iff, !bool_decide_eq_true.
Qed.

Lemma chained_block_spec v c :
  chained_block g r v c = true ↔
  ∃ p q w c' args kws m k names, v = Call p (Attribute q w c') args kws ∧ of_module g w m ∧ listed r m k names ∧ c ∈ names.
Proof.
  unfold chained_block. split.
  - destruct v; try done. destruct v; try done. cbn. destruct (truthy (resolve_module g v)) as [m|] eqn:Hm; [|done].
    apply resolve_module_spec in Hm. intros (k & names & Hl & Hc)%call_blocked_spec. eauto 15.
  - intros (p & q & w & c' & args & kws & m & k & names & -> & Hm%resolve_module_spec & Hl & Hc). cbn. rewrite Hm.
    apply call_blocked_spec. eauto.
Qed.

Lemma direct_block_spec v c : direct_block g r v c = true ↔ ∃ m, of_module g v m ∧ blocks_in r m c.
Proof.
  unfold direct_block. destruct (truthy (resolve_module g v)) as [m|] eqn:Hm.
  - rewrite blocks_in_spec. apply resolve_module_spec in Hm as Hm'. split; [eauto|].
    intros (m' & Hm2%resolve_module_spec & H). congruence.
  - split; [done|]. intros (m' & Hm2%resolve_module_spec & _). congruence.
Qed.

Lemma name_block_spec x :
  name_block g r x = true ↔
  ∃ m name ann, g !! x = Some (PyObject (Some m) name ann) ∧ m ≠ "" ∧ blocks_in r m (default x name).
Proof.
  unfold name_block. destruct (g !! x) as [[|module name ann]|]; try (by split; [|intros (?&?&?&?&_)]).
  destruct (truthy module) as [m|] eqn:Hm.
  - rewrite blocks_in_spec. apply truthy_Some in Hm as [-> Hm]. split; [eauto 10|].
    by intros (m' & name' & ann' & [= <- <- <-] & _ & H).
  - split; [done|]. intros (m' & name' & ann' & [= -> -> ->] & Hne & _).
    by rewrite (proj2 (truthy_Some _ _) (conj eq_refl Hne)) in Hm.
Qed.

Lemma blocking_enter_spec before n s : remembers before s →
  bl_issues (blocking_enter g r [] n s) = [] ↔ bl_issues s = [] ∧ ¬ refused_call g r before n.
Proof.
  intros Hs.
  assert ((∀ p f args kws, n ≠ Call p f args kws) → ¬ refused_call g r before n) as Hother.
  { intros Hn (p & f & args & kws & -> & _). by eapply Hn. }
  destruct n; try (cbn; split; [intros ?; split; [done|by apply Hother]|by intros [? _]]); cbn [blocking_enter].
  2:{ split; [intros H; split; [|by apply Hother]|intros [H _]]; revert H; unfold blocking_visit_Assign; by case_match. }
  clear Hother. unfold refused_call, blocking_visit_Call. destruct n;
    try (split; [intros H; split; [done|]|by intros [? _]];
         intros (? & ? & ? & ? & [= <- <- <- <-] & [(? & ? & ? & [=] & _)|(? & ? & ? & ? & ? & [=] & _)])).
  - destruct (direct_block g r n attr) eqn:Hd.
    + apply direct_block_spec in Hd. cbn. rewrite app_nil. split; [by intros [_ ?]|]. intros [_ []]. eauto 20.
    + cbn. rewrite !app_nil, !issue_if_none.
      apply not_true_iff_false in Hd. rewrite direct_block_spec in Hd.
      rewrite <- !not_true_iff_false, (local_block_spec before s) by done. rewrite chained_block_spec.
      split; intros [H1 H2]; (split; [done|]).
      * intros (? & ? & ? & ? & [= <- <- <- <-] & [(? & ? & ? & [= <- <- <-] & H)|(? & ? & ? & ? & ? & [=] & _)]). tauto.
      * split; intros H; apply H2; eauto 20.
  - cbn. rewrite app_nil, issue_if_none, <- not_true_iff_false, name_block_spec.
    split; intros [H1 H2]; (split; [done|]).
    + intros (? & ? & ? & ? & [= <- <- <- <-] & [(? & ? & ? & [=] & _)|(? & ? & ? & ? & ? & [= <- <-] & H)]). eauto 10.
    + intros (m & name & ann & H). apply H2. eauto 20.
Qed.
End Accepts.

Lemma blocking_accepts_all (g : gmap string pyobj) (r : RestrictionsConfig) (tree : node) :
  blocking_validate g r tree = [] ↔ all_permitted (λ before n, ¬ refused_call g r before n) (walk [] tree).*2.
Proof.
  apply (visitor_accepts (blocking_enter g r) bl_issues (remembers g r)); try done.
  - intros x k cls. cbn. rewrite lookup_empty. split; [done|]. by intros ([] & ? & ? & ? & _).
  - apply blocking_grows.
  - apply blocking_enter_spec.
  - intros. by apply remembers_enter.
Qed.

(** The check accepts a program exactly when it refuses none of its calls,
    in program order. *)
Theorem blocking_accepts (g : gmap string pyobj) (r : RestrictionsConfig) (tree : node) :
  blocking_validate g r tree = [] ↔
  ∀ before n after, (walk [] tree).*2 = (before ++ n :: after)%list → ¬ refused_call g r before n.
Proof. apply blocking_accepts_all. Qed.

(** An accepted program calls, through the names of its name space, no
    function of a blocked module and no listed function of its module. *)
Theorem blocking_calls_refused (g : gmap string pyobj) (r : RestrictionsConfig) (tree : node) a p q v c args kws m :
  blocking_validate g r tree = [] →
  within [] tree a (Call p (Attribute q v c) args kws) →
  resolve_module g v = Some m → m ≠ "" →
  (∀ k, k ∈ blocked_modules r → k ≠ "" → ¬ covers k m) ∧
  (∀ names, blocked_calls r !! m = Some names → c ∉ names).
Proof.
  intros Ht Hw Hm Hne. pose proof (accepted_direct _ _ _ _ _ _ _ _ _ _ Ht Hw) as Hd.
  unfold direct_block in Hd. rewrite (proj2 (truthy_Some _ _) (conj Hm Hne)) in Hd.
  destruct (in_blocked_modules r m) eqn:Hb; [done|]. split.
  - intros k Hk Hk0 Hc. unfold in_blocked_modules in Hb.
    destruct (match_blocked_module (in_set (blocked_modules r)) m) as [k'|] eqn:Hmatch.
    + destruct (match_blocked_module_Some _ _ _ Hmatch) as (_ & _ & Hlong).
      destruct k' as [|? ?]; [|done]. specialize (Hlong k (bool_decide_eq_true_2 _ Hk) Hc).
      destruct k; [done|cbn in Hlong; lia].
    + apply (proj1 (match_blocked_module_None _ _) Hmatch) in Hc. unfold in_set in Hc. by bool_prop.
  - intros names Hn Hin. unfold in_blocked_calls, match_blocked_module, in_dict in Hd.
    rewrite bool_decide_eq_true_2 in Hd by (by rewrite Hn). cbn in Hd.
    destruct m; [done|]. cbn in Hd. unfold call_blocked in Hd. rewrite Hn in Hd.
    unfold in_set in Hd. by bool_prop.
Qed.

(** A name space in which [time] is loaded. *)
Definition time_globals : gmap string pyobj := {["time" := PyModule "time"]}.
Definition default_restrictions : RestrictionsConfig := restrictions_config None (FromFields None None None).

Lemma blocking_calls_refused_witness :
  let p := mk_pos 1 0 1 6 in
  let tree := Module [Other p "Expr" [Call p (Attribute p (Name p "time") "time") [] []]] in
  blocking_validate time_globals default_restrictions tree = [] ∧
  (∀ k, k ∈ blocked_modules default_restrictions → k ≠ "" → ¬ covers k "time") ∧
  (∀ names, blocked_calls default_restrictions !! "time" = Some names → "time" ∉ names).
Proof.
  intros p tree. split; [vm_compute; reflexivity|].
  apply (blocking_calls_refused time_globals default_restrictions tree
    [Other p "Expr" [Call p (Attribute p (Name p "time") "time") [] []]; tree] p p (Name p "time") "time" [] []).
  - vm_compute; reflexivity.
  - eapply within_child; [apply list_elem_of_singleton; reflexivity|].
    eapply within_child; [apply list_elem_of_singleton; reflexivity|]. apply within_here.
  - vm_compute; reflexivity.
  - discriminate.
Defined.

(** ** Names that the cell imports itself *)

Section Unseen.
Context (g : gmap string pyobj) (r : RestrictionsConfig).

Definition unknown (tree : node) : Prop := ∀ a p id, within [] tree a (Name p id) → g !! id = None.

Lemma unknown_resolve tree a v : unknown tree → within [] tree a v → resolve_module g v = None.
Proof.
  intros Hu. revert a. induction v; intros a Hw; try done; cbn.
  - eapply IHv, within_child_of; [done|cbn; set_solver].
  - by rewrite (Hu _ _ _ Hw).
Qed.
End Unseen.

(** The check sees the names of the name space only: a cell all of whose
    names are its own, imported in it for instance, is accepted, whatever it
    calls. *)
Theorem cell_imports_unseen (g : gmap string pyobj) (r : RestrictionsConfig) (tree : node) :
  (∀ a p id, within [] tree a (Name p id) → g !! id = None) → blocking_validate g r tree = [].
Proof.
  intros Hu. unfold blocking_validate.
  enough (bl_issues (visit (blocking_enter g r) [] tree (mk_blocking [] ∅)) = [] ∧
    tracked_locals (visit (blocking_enter g r) [] tree (mk_blocking [] ∅)) = ∅) by tauto.
  apply (visit_invariant _ (λ s, bl_issues s = [] ∧ tracked_locals s = ∅)); [|done].
  intros b m s Hm%elem_of_walk [Hs Ht]. destruct m; try done; cbn.
  - unfold blocking_visit_Call. apply within_func in Hm. destruct m; try done.
    + apply within_value in Hm.
      assert (resolve_module_from_call g m = None) as Hc.
      { destruct m; try done. destruct m; try done. cbn.
        by eapply unknown_resolve, within_value, within_func. }
      unfold direct_block, local_block, chained_block. rewrite (unknown_resolve g tree _ _ Hu Hm), Hc, Ht. cbn.
      destruct m; cbn; by rewrite Hs, ?lookup_empty.
    + unfold name_block. rewrite (Hu _ _ _ Hm). cbn. by rewrite Hs.
  - unfold blocking_visit_Assign. assert (tracked_constructor g r m = None) as ->; [|done].
    apply within_assigned in Hm. destruct m; try done. destruct m; try done. unfold tracked_constructor.
    by rewrite (unknown_resolve g tree _ _ Hu (within_value _ _ _ _ _ _ (within_func _ _ _ _ _ _ _ Hm))).
Qed.

Lemma cell_imports_unseen_witness :
  let p := mk_pos 2 0 2 13 in
  let sleep := Call p (Attribute p (Name p "time") "sleep") [Constant p (CInt 3600)] [] in
  let cell := Module [Import (mk_pos 1 0 1 11) [mk_alias "time" None]; Other p "Expr" [sleep]] in
  blocking_validate time_globals default_restrictions cell = [issue_at sleep "E310"] ∧
  blocking_validate ∅ default_restrictions cell = [].
Proof.
  intros p sleep cell. split; [vm_compute; reflexivity|].
  apply cell_imports_unseen. intros a q id _. apply lookup_empty.
Defined.
