(* ===== verification/StripImports.v ===== *)
(** * Stripping redundant imports from a cell

    Models [strip_redundant_imports] of [nooa/runtime/code_validator.py].  The
    cell is its text and the statements that [ast.parse] makes of it, [None] on
    a syntax error; the text has no carriage return, and every line that a
    statement starts on is a line of [splitlines]. What it keeps follows. *)

From stdpp Require Import gmap sets.
From S2P Require Import Prelude PyStr PyText PyAst Restrictions CodeContext.

(** ** Which statements go *)

(** The import binds no name that is not in scope. *)
Definition redundant (available : gset string) (n : node) : bool :=
  match n with
  | Import _ names => forallb (λ a, in_set available (local_name a)) names
  | ImportFrom _ _ names =>
      negb (existsb (λ a, String.eqb (al_name a) "*") names)
      && forallb (λ a, in_set available (local_name a)) names
  | _ => false
  end.

Definition first_line (n : node) : nat := lineno (pos_of n).
Definition last_line (n : node) : nat := end_lineno (pos_of n).

(** [range(node.lineno, node.end_lineno + 1)]. *)
Definition node_lines (n : node) : list nat := seq (first_line n) (S (last_line n) - first_line n).

(** [line.rstrip("\n\r")]. *)
Fixpoint drop_newlines (r : text) : text :=
  match r with
  | c :: r' => if (N.eqb c 10 || N.eqb c 13)%bool then drop_newlines r' else r
  | [] => []
  end.
Definition without_newline (line : text) : text := reverse (drop_newlines (reverse line)).

Section Strip.
Context (available : gset string) (body : list node).

Definition removed_statements : list node := base.filter (λ n, redundant available n = true) body.
Definition lines_to_remove : list nat := removed_statements ≫= node_lines.

(** The kept statements that start on a line, leftmost first. *)
Fixpoint insert_by_col (n : node) (l : list node) : list node :=
  match l with
  | [] => [n]
  | m :: l' => if (col_offset (pos_of n) <? col_offset (pos_of m))%nat then n :: l else m :: insert_by_col n l'
  end.
Definition sort_by_col (l : list node) : list node := foldl (λ s n, insert_by_col n s) [] l.

Definition kept_on (line_num : nat) : list node :=
  sort_by_col (base.filter (λ n, redundant available n = false ∧ first_line n = line_num) body).

(** The text of one mixed line: the kept statements that start on it. *)
Definition spans_lines (n : node) : bool := (first_line n <? last_line n)%nat.
Definition eff_end (raw : text) (n : node) : nat :=
  if spans_lines n then length raw else end_col_offset (pos_of n).
Definition max_end (line_num : nat) (raw : text) : nat :=
  max_list (eff_end raw <$> base.filter (λ n, first_line n = line_num) body).

Definition statement_part (line_num : nat) (raw : text) (is_last : bool) (n : node) : text :=
  if (is_last && bool_decide (eff_end raw n = max_end line_num raw)) || spans_lines n
  then drop (col_offset (pos_of n)) raw
  else take (end_col_offset (pos_of n) - col_offset (pos_of n)) (drop (col_offset (pos_of n)) raw).

Fixpoint statement_parts (line_num : nat) (raw : text) (nodes : list node) : list text :=
  match nodes with
  | [] => []
  | n :: nodes' => statement_part line_num raw (match nodes' with [] => true | _ => false end) n :: statement_parts line_num raw nodes'
  end.

(** What becomes of a line of the cell. *)
Definition line_output (line_num : nat) (line : text) : text :=
  if bool_decide (line_num ∈ lines_to_remove) then
    concat ((λ part, part ++ [10%N]) <$> statement_parts line_num (without_newline line) (kept_on line_num))
  else line.

(** The lines from [line_num] on. *)
Fixpoint lines_output (line_num : nat) (lines : list text) : list text :=
  match lines with
  | [] => []
  | line :: lines' => line_output line_num line :: lines_output (S line_num) lines'
  end.

(** The source lines of a removed statement, without their line ends. *)
Definition line_body (line : text) : text :=
  match reverse line with
  | c :: r => if line_end c then reverse r else line
  | [] => []
  end.

Definition stripped_statement (code : text) (n : node) : text :=
  t_strip (t_join [10%N] (take (S (last_line n) - first_line n)
    (drop (first_line n - 1) (line_body <$> splitlines code)))).
End Strip.

(** [strip_redundant_imports]. *)
Definition strip_redundant_imports (tree : option (list node)) (code : text) (available : gset string) :
    text * list text :=
  match tree with
  | None => (code, [])
  | Some body =>
      match removed_statements available body with
      | [] => (code, [])
      | removed => (concat (lines_output available body 1 (splitlines code)), stripped_statement code <$> removed)
      end
  end.

(** ** What stripping imports keeps *)

(** ** The text of a statement *)

(** What a statement occupies of its first line. *)
Definition own_text (n : node) (raw : text) : text :=
  let rest := from_column (col_offset (pos_of n)) raw in
  if spans_lines n then rest else to_column (end_col_offset (pos_of n) - col_offset (pos_of n)) rest.

(** ** Lines *)

Lemma lines_output_concat_lookup available body i k line lines :
  lines !! k = Some line →
  lines_output available body i lines !! k = Some (line_output available body (i + k) line).
Proof.
  revert i k. induction lines as [|l lines IH]; intros i [|k] H; try done; cbn in *.
  - injection H as ->. by rewrite Nat.add_0_r.
  - etrans; [exact (IH (S i) k H)|]. by replace (S i + k) with (i + S k) by lia.
Qed.

Lemma lines_output_length available body i lines : length (lines_output available body i lines) = length lines.
Proof. revert i. induction lines as [|line lines IH]; intros i; [done|]. cbn. f_equal. apply IH. Qed.

Lemma elem_of_insert_by_col n m l : n ∈ insert_by_col m l ↔ n = m ∨ n ∈ l.
Proof.
  induction l as [|x l IH]; cbn; [set_solver|]. case_match; [set_solver|]. rewrite elem_of_cons, IH. set_solver.
Qed.

Lemma elem_of_sort_by_col n l : n ∈ sort_by_col l ↔ n ∈ l.
Proof.
  unfold sort_by_col. assert (∀ s, n ∈ foldl (λ s n, insert_by_col n s) s l ↔ n ∈ s ∨ n ∈ l) as H.
  { induction l as [|x l IH]; intros s; cbn; [set_solver|]. rewrite IH, elem_of_insert_by_col. set_solver. }
  rewrite H. set_solver.
Qed.

Lemma elem_of_statement_parts body i raw n nodes :
  n ∈ nodes → ∃ is_last, statement_part body i raw is_last n ∈ statement_parts body i raw nodes.
Proof.
  induction nodes as [|m nodes IH]; [by intros ?%elem_of_nil|]. intros [->|Hn]%elem_of_cons; cbn.
  - eexists. by left.
  - destruct (IH Hn) as [b Hb]. exists b. by right.
Qed.

(** A statement part starts with the text of its statement. *)
Lemma statement_part_own body i raw is_last n :
  ascii_line raw → own_text n raw `prefix_of` statement_part body i raw is_last n.
Proof.
  intros Ha. unfold own_text, statement_part. rewrite from_column_ascii by done.
  destruct (spans_lines n); [by rewrite orb_true_r|].
  rewrite to_column_ascii by by apply ascii_drop. rewrite orb_false_r. case_match; [|done].
  apply prefix_take.
Qed.

(** The lines a statement occupies, as the cell has them, survive: as they
    are, or, where a removed import shares the first of them, as the text of
    the statement at the start of a line of its own. *)
Definition survives_at (available : gset string) (body : list node) (n : node) (i : nat) (line : text) : Prop :=
  line_output available body i line = line ∨
  i = first_line n ∧
  ∃ before part after,
    line_output available body i line = before ++ part ++ [10%N] ++ after ∧
    (before = [] ∨ ∃ b, before = b ++ [10%N]) ∧
    own_text n (without_newline line) `prefix_of` part.

Lemma concat_lines_split (l : list text) part :
  part ∈ l → ∃ before after,
    concat ((λ p, p ++ [10%N]) <$> l) = before ++ part ++ [10%N] ++ after ∧
    (before = [] ∨ ∃ b, before = b ++ [10%N]).
Proof.
  intros (l1 & l2 & ->)%list_elem_of_split. rewrite fmap_app, concat_app. cbn.
  exists (concat ((λ p, p ++ [10%N]) <$> l1)), (concat ((λ p, p ++ [10%N]) <$> l2)). split.
  - by rewrite <- (app_assoc part).
  - destruct l1 as [|x l1 _] using rev_ind; [by left|right]. rewrite fmap_app, concat_app. cbn.
    rewrite app_nil_r. eexists. by rewrite app_assoc.
Qed.

(** Every line of a kept statement survives the stripping, provided that
    only its first line can be shared with a removed import and that this line
    is ASCII. *)
Theorem kept_statement_survives (available : gset string) (body : list node) (code : text) (n : node) (i : nat) (line : text) :
  n ∈ body → redundant available n = false → removed_statements available body ≠ [] →
  (∀ j, (first_line n < j ≤ last_line n)%nat → j ∉ lines_to_remove available body) →
  (first_line n ≤ i ≤ last_line n)%nat → (1 ≤ i)%nat → splitlines code !! (i - 1)%nat = Some line →
  ascii_line (without_newline line) →
  ∃ before out after,
    (strip_redundant_imports (Some body) code available).1 = before ++ out ++ after ∧
    out = line_output available body i line ∧
    survives_at available body n i line.
Proof.
  intros Hn Hk Hr Hj Hi H1 Hl Ha. unfold strip_redundant_imports.
  destruct (removed_statements available body) as [|r rs] eqn:Hrm; [done|]. cbn.
  pose proof (lines_output_concat_lookup available body 1 _ _ _ Hl) as Ho.
  replace (1 + (i - 1))%nat with i in Ho by lia.
  apply list_elem_of_split_length in Ho as (o1 & o2 & -> & _).
  exists (concat o1), (line_output available body i line), (concat o2). split_and!; [by rewrite concat_app|done|].
  unfold survives_at, line_output. case_bool_decide as Hin; [|by left]. right.
  assert (i = first_line n) as -> by (destruct (decide (i = first_line n)); [done|]; destruct (Hj i); [lia|done]).
  split; [done|].
  assert (n ∈ kept_on available body (first_line n)) as Hkept
    by (apply elem_of_sort_by_col, list_elem_of_filter; done).
  destruct (elem_of_statement_parts body (first_line n) (without_newline line) n _ Hkept) as [b Hb].
  destruct (concat_lines_split _ _ Hb) as (before & after & Heq & Hbefore).
  exists before, (statement_part body (first_line n) (without_newline line) b n), after.
  split_and!; [exact Heq|exact Hbefore|by apply statement_part_own].
Qed.

(** The last line of a kept statement is lost when a removed import shares
    it and no kept statement starts on it: the statement that is left is cut. *)
Theorem strip_cuts_statement (available : gset string) (body : list node) (code : text) (n : node) :
  n ∈ body → redundant available n = false → (first_line n < last_line n)%nat →
  last_line n ∈ lines_to_remove available body →
  (∀ m, m ∈ body → redundant available m = false → first_line m ≠ last_line n) →
  (last_line n ≤ length (splitlines code))%nat →
  ∃ outs, (strip_redundant_imports (Some body) code available).1 = concat outs ∧
    length outs = length (splitlines code) ∧ outs !! (last_line n - 1)%nat = Some [].
Proof.
  intros Hn Hk Hs Hin Hm Hl. exists (lines_output available body 1 (splitlines code)).
  unfold strip_redundant_imports. destruct (removed_statements available body) as [|r rs] eqn:Hrm.
  { unfold lines_to_remove in Hin. by rewrite Hrm in Hin; apply elem_of_nil in Hin. }
  destruct (lookup_lt_is_Some_2 (splitlines code) (last_line n - 1)) as [line Hline]; [lia|].
  split_and!; [done| |].
  - apply lines_output_length.
  - rewrite (lines_output_concat_lookup _ _ _ _ _ _ Hline). unfold line_output.
    replace (1 + (last_line n - 1)) with (last_line n) by lia. rewrite bool_decide_eq_true_2 by done.
    assert (kept_on available body (last_line n) = []) as ->; [|done].
    apply elem_of_nil_inv. intros m Hmk. apply elem_of_sort_by_col, list_elem_of_filter in Hmk as [[Hr Hf] Hb].
    by apply (Hm m).
Qed.

(** The cell
<<
x = (1,
 2); import os
y = 3
>>
    with [os] in scope. *)
Definition cut_code : text := lit "x = (1," ++ [10%N] ++ lit " 2); import os" ++ [10%N] ++ lit "y = 3".
Definition statement_at (l c e f : nat) : node :=
  Assign (mk_pos l c e f) [] (Constant (mk_pos l c e f) CNone).
Definition import_at (l c e f : nat) : node := Import (mk_pos l c e f) [mk_alias "os" None].
Definition cut_body : list node := [statement_at 1 0 2 3; import_at 2 5 2 14; statement_at 3 0 3 5].

Lemma strip_cuts_statement_witness :
  (strip_redundant_imports (Some cut_body) cut_code {["os"]}).1 = lit "x = (1," ++ [10%N] ++ lit "y = 3" ∧
  ∃ outs, (strip_redundant_imports (Some cut_body) cut_code {["os"]}).1 = concat outs ∧
    length outs = length (splitlines cut_code) ∧ outs !! 1%nat = Some [].
Proof.
  split; [vm_compute; reflexivity|].
  apply (strip_cuts_statement {["os"]} cut_body cut_code (statement_at 1 0 2 3)).
  - left.
  - vm_compute; reflexivity.
  - vm_compute; lia.
  - apply (bool_decide_unpack _); vm_compute; exact I.
  - intros m [->|[->|[->|[]%elem_of_nil]%elem_of_cons]%elem_of_cons]%elem_of_cons; vm_compute; discriminate.
  - vm_compute; lia.
Defined.

(** The cell
<<
import os; x = (1,
 2)
>>
    keeps its statement. *)
Definition shared_code : text := lit "import os; x = (1," ++ [10%N] ++ lit " 2)".
Definition shared_body : list node := [import_at 1 0 1 9; statement_at 1 11 2 3].

Lemma kept_statement_survives_witness :
  (strip_redundant_imports (Some shared_body) shared_code {["os"]}).1 = lit "x = (1," ++ [10%N] ++ lit " 2)" ∧
  ∃ before out after,
    (strip_redundant_imports (Some shared_body) shared_code {["os"]}).1 = before ++ out ++ after ∧
    out = line_output {["os"]} shared_body 1 (lit "import os; x = (1," ++ [10%N]) ∧
    survives_at {["os"]} shared_body (statement_at 1 11 2 3) 1 (lit "import os; x = (1," ++ [10%N]).
Proof.
  split; [vm_compute; reflexivity|].
  apply (kept_statement_survives {["os"]} shared_body shared_code (statement_at 1 11 2 3) 1).
  - right; left.
  - vm_compute; reflexivity.
  - vm_compute; discriminate.
  - intros j Hj. assert (j = 2) as -> by (cbn in Hj; lia). apply (bool_decide_unpack _); vm_compute; exact I.
  - vm_compute; lia.
  - lia.
  - vm_compute; reflexivity.
  - apply (bool_decide_unpack _); vm_compute; exact I.
Defined.

(** Columns are bytes, but the stripping takes them for characters: in
    [s = 'é'; import os; y = 2] the [y] is lost. *)
Example byte_columns_misread :
  (strip_redundant_imports (Some [statement_at 1 0 1 8; import_at 1 10 1 19; statement_at 1 21 1 26])
     (lit "s = '" ++ [233%N] ++ lit "'; import os; y = 2") {["os"]}).1
  = lit "s = '" ++ [233%N] ++ lit "';" ++ [10%N] ++ lit " = 2" ++ [10%N].
Proof. vm_compute; reflexivity. Qed.
