(* ===== verification/ResponseCleanup.v ===== *)
(** * Cleaning up the output of a model

    Models [nooa/runtime/response_cleanup.py]: Markdown code fences and an
    outer XML tag are stripped.  The regular expressions are written out as the
    one way they can match a text without outer white space; the word
    characters ([\w], from the Unicode database) are an argument.  They are not
    white space, hyphen, angle bracket or backtick. *)

From S2P Require Import Prelude PyStr PyText.

(** The longest prefix of [f]-characters, and the rest. *)
Fixpoint span (f : N → bool) (s : text) : text * text :=
  match s with
  | c :: s' => if f c then let '(a, b) := span f s' in (c :: a, b) else ([], s)
  | [] => ([], [])
  end.

(** The rest of [s] after a prefix. *)
Fixpoint after_prefix (p s : text) : option text :=
  match p, s with
  | [], _ => Some s
  | c :: p', d :: s' => if N.eqb c d then after_prefix p' s' else None
  | _, [] => None
  end.

(** The start of [s] before a suffix. *)
Definition before_suffix (p s : text) : option text :=
  if t_ends_with p s then Some (take (length s - length p) s) else None.

Definition backticks : text := [96; 96; 96]%N.

Section Cleanup.
Context (word : N → bool).

(** The multiline form [```lang\nCODE\n```]: the text after the tag. *)
Definition multiline_body (after_tag : text) : option text :=
  match (span (λ c, (N.eqb c 32 || N.eqb c 9)%bool) after_tag).2 with
  | c :: rest =>
      if N.eqb c 10 then
        match before_suffix (10%N :: backticks) rest with
        | Some body => Some body
        | None => before_suffix backticks rest
        end
      else None
  | [] => None
  end.

(** The inline form [```lang CODE```]. *)
Definition inline_body (after_tag : text) : option text := before_suffix backticks (t_lstrip after_tag).

(** [strip_code_fences]. *)
Definition strip_code_fences (code : text) : text * option text :=
  match after_prefix backticks (t_strip code) with
  | None => (code, None)
  | Some rest =>
      let '(lang, after_tag) := span word rest in
      match multiline_body after_tag with
      | Some body => (t_strip body, Some (backticks ++ lang))
      | None =>
          match inline_body after_tag with
          | Some body => (t_strip body, Some (backticks ++ lang))
          | None => (code, None)
          end
      end
  end.

Definition tag_start (c : N) : bool :=
  ((N.leb 97 c && N.leb c 122) || (N.leb 65 c && N.leb c 90) || N.eqb c 95)%bool.
Definition tag_char (c : N) : bool := (word c || N.eqb c 45)%bool.

(** The text after the opening tag: at once, or after attributes. *)
Definition after_attributes (s : text) : option text :=
  match s with
  | c :: s' =>
      if N.eqb c 62 then Some s'
      else if t_space c then
        match (span (λ d, negb (N.eqb d 62)) s').2 with _ :: rest => Some rest | [] => None end
      else None
  | [] => None
  end.

Definition closing_tag (name : text) : text := [60; 47]%N ++ name ++ [62%N].

(** [strip_xml_wrapper]. *)
Definition strip_xml_wrapper (content : text) : text * option text :=
  let content := t_strip content in
  match content with
  | 60%N :: c :: s =>
      if tag_start c then
        let '(more, rest) := span tag_char s in
        match after_attributes rest with
        | Some inner =>
            match before_suffix (closing_tag (c :: more)) inner with
            | Some body => (t_strip body, Some (c :: more))
            | None => (content, None)
            end
        | None => (content, None)
        end
      else (content, None)
  | _ => (content, None)
  end.

End Cleanup.

(** ** Round trips *)

Lemma span_app f a b : Forall (λ c, f c = true) a → (match b with c :: _ => f c = false | [] => True end) →
  span f (a ++ b) = (a, b).
Proof.
  intros Ha Hb. induction Ha as [|c a Hc _ IH]; cbn.
  - destruct b; cbn; [done|]. by rewrite Hb.
  - by rewrite Hc, IH.
Qed.

Lemma before_suffix_app a p : before_suffix p (a ++ p) = Some a.
Proof.
  unfold before_suffix, t_ends_with. rewrite length_app, bool_decide_eq_true_2.
  - f_equal. by replace (length a + length p - length p) with (length a) by lia; apply take_app_length.
  - split; [lia|]. by replace (length a + length p - length p) with (length a) by lia; apply drop_app_length.
Qed.

(** A text that starts and ends with other characters than white space. *)
Lemma t_strip_framed c s d : t_space c = false → t_space d = false → t_strip (c :: s ++ [d]) = c :: s ++ [d].
Proof.
  intros Hc Hd. unfold t_strip, t_rstrip. cbn [t_lstrip]. rewrite Hc.
  rewrite app_comm_cons, reverse_snoc. cbn [t_lstrip]. rewrite Hd.
  rewrite <- reverse_snoc. apply reverse_involutive.
Qed.

Definition fenced (lang code : text) : text := backticks ++ lang ++ [10%N] ++ code ++ [10%N] ++ backticks.

Lemma fenced_strip lang code : t_strip (fenced lang code) = fenced lang code.
Proof.
  unfold fenced, backticks.
  replace (([96; 96; 96] ++ lang ++ [10] ++ code ++ [10] ++ [96; 96; 96])%N : text)
    with (96 :: (([96; 96] ++ lang ++ [10] ++ code ++ [10] ++ [96; 96]) ++ [96]))%N.
  - by apply t_strip_framed.
  - by rewrite <- !app_assoc.
Qed.

Definition word_text (word : N → bool) (s : text) : Prop := Forall (λ c, word c = true) s.

Lemma strip_fenced word lang code :
  word 10%N = false → word_text word lang →
  strip_code_fences word (fenced lang code) = (t_strip code, Some (backticks ++ lang)).
Proof.
  intros Hn Hl. unfold strip_code_fences. rewrite fenced_strip. unfold fenced. cbn [after_prefix backticks app].
  rewrite !N.eqb_refl. rewrite (span_app word lang) by done. unfold multiline_body. cbn.
  by rewrite before_suffix_app.
Qed.

(** Stripping the fences of a fenced code gives the code, without outer
    white space, and the opening fence. *)
Theorem fences_round_trip (word : N → bool) (lang code : text) :
  word 10%N = false → word_text word lang →
  strip_code_fences word (backticks ++ lang ++ [10%N] ++ code ++ [10%N] ++ backticks)
  = (t_strip code, Some (backticks ++ lang)).
Proof. apply strip_fenced. Qed.

(** Word characters of ASCII. *)
Definition ascii_word (c : N) : bool :=
  ((N.leb 48 c && N.leb c 57) || (N.leb 65 c && N.leb c 90) || N.eqb c 95 || (N.leb 97 c && N.leb c 122))%bool.

Lemma fences_round_trip_witness :
  strip_code_fences ascii_word (backticks ++ lit "python" ++ [10%N] ++ lit "x = 1" ++ [10%N] ++ backticks)
  = (lit "x = 1", Some (lit "```python")).
Proof.
  apply (fences_round_trip ascii_word (lit "python") (lit "x = 1")); [vm_compute; reflexivity|].
  repeat constructor.
Defined.

(** Stripping fences twice is not stripping them once: code that is itself
    fenced loses one fence each time. *)
Theorem fences_not_idempotent (word : N → bool) (lang code : text) :
  word 10%N = false → word_text word lang →
  let once := (strip_code_fences word (fenced lang (fenced lang code))).1 in
  once = fenced lang code ∧ (strip_code_fences word once).1 = t_strip code.
Proof.
  intros Hn Hl once. assert (once = fenced lang code) as Honce.
  { unfold once. rewrite strip_fenced by done. apply fenced_strip. }
  split; [done|]. by rewrite Honce, strip_fenced.
Qed.

Lemma fences_not_idempotent_witness :
  let once := (strip_code_fences ascii_word (fenced [] (fenced [] (lit "x = 1")))).1 in
  once = fenced [] (lit "x = 1") ∧ (strip_code_fences ascii_word once).1 = lit "x = 1".
Proof. apply (fences_not_idempotent ascii_word [] (lit "x = 1")); [vm_compute; reflexivity|constructor]. Defined.

(** ** XML wrappers *)

Definition wrapped (c : N) (more body : text) : text := [60%N; c] ++ more ++ [62%N] ++ body ++ closing_tag (c :: more).

Lemma strip_wrapped word c more body :
  tag_start c = true → Forall (λ d, tag_char word d = true) more → word 62%N = false →
  strip_xml_wrapper word (wrapped c more body) = (t_strip body, Some (c :: more)).
Proof.
  intros Hc Hm Hw. unfold strip_xml_wrapper.
  assert (t_strip (wrapped c more body) = wrapped c more body) as ->.
  { unfold wrapped, closing_tag.
    replace ([60; c] ++ more ++ [62] ++ body ++ [60; 47] ++ (c :: more) ++ [62])%N
      with (60 :: (c :: more ++ [62] ++ body ++ [60; 47] ++ c :: more) ++ [62])%N
      by (cbn; do 2 f_equal; rewrite <- !app_assoc; cbn; do 2 f_equal; by rewrite <- !app_assoc).
    by apply t_strip_framed. }
  unfold wrapped. cbn [app]. rewrite Hc.
  rewrite (span_app (tag_char word) more) by (done || by cbn; unfold tag_char; rewrite Hw).
  cbn [after_attributes]. rewrite N.eqb_refl. by rewrite before_suffix_app.
Qed.

(** Two sibling elements of one name count as one wrapper: the first
    opening and the last closing tag are stripped. *)
Theorem sibling_wrappers_stripped (word : N → bool) (c : N) (more a b : text) :
  tag_start c = true → Forall (λ d, tag_char word d = true) more → word 62%N = false →
  strip_xml_wrapper word (wrapped c more a ++ wrapped c more b)
  = (t_strip (a ++ closing_tag (c :: more) ++ [60%N; c] ++ more ++ [62%N] ++ b), Some (c :: more)).
Proof.
  intros Hc Hm Hw. rewrite <- strip_wrapped with (word := word) by done. f_equal. unfold wrapped.
  by rewrite <- !app_assoc.
Qed.

Lemma sibling_wrappers_stripped_witness :
  strip_xml_wrapper ascii_word (lit "<a>1</a><a>2</a>") = (lit "1</a><a>2", Some (lit "a")).
Proof.
  apply (sibling_wrappers_stripped ascii_word 97%N [] (lit "1") (lit "2")); [vm_compute; reflexivity|constructor|vm_compute; reflexivity].
Defined.
