(* ===== verification/CodeValidator.v ===== *)
(** * Validating a cell before it runs

    Models [UnifiedCodeValidator] of [nooa/runtime/code_validator.py] and the
    preparation of a cell in [execute_code] of [nooa/runtime/actor.py]: fences
    stripped, blocked modules taken out of the name space, redundant imports
    stripped, then the validators.  [parse] is [ast.parse]: [None] is a syntax
    error. *)

From stdpp Require Import gmap sets.
From S2P Require Import Prelude PyStr PyText PyAst Restrictions CodeContext.
From S2P Require Import CodeSecurity CodePolicy CodeClass CodeBlocking StripImports ResponseCleanup.

Local Open Scope list_scope.

Definition validator : Type := node → result (list ValidationIssue).

(** The validators of [UnifiedCodeValidator.__init__]; [fuel] is the number of
    frames Python allows. *)
Definition default_validators (fuel : nat) (restrictions : RestrictionsConfig) (include_repl_policy : bool)
    (ctx : ValidationContext) : list validator :=
  [λ t, Ok (security_validate ctx t);
   λ t, Ok (blocking_validate (cx_exec_globals ctx) restrictions t);
   λ t, Ok (class_validate ctx t);
   shadow_validate fuel ctx] ++
  if include_repl_policy then [λ t, Ok (policy_validate ctx t)] else [].

Definition is_error (i : ValidationIssue) : bool := bool_decide (i_severity i = SError).

(** The loop over the validators. *)
Fixpoint run_validators (stop_on_first_error : bool) (validators : list validator) (tree : node) :
    result (list ValidationIssue) :=
  match validators with
  | [] => Ok []
  | v :: validators' =>
      result_bind (v tree) (λ issues,
        if stop_on_first_error && existsb is_error issues then Ok issues
        else result_bind (run_validators stop_on_first_error validators' tree) (λ more, Ok (issues ++ more)))
  end.

(** What [validate] does: return, raise for the syntax, raise for an issue. *)
Inductive validation_verdict := Accepted | SyntaxRefused | Refused (issue : ValidationIssue).

#[export] Instance verdict_eq_dec : EqDecision validation_verdict.
Proof. solve_decision. Defined.

Section Validate.
Context (parse : text → option (list node)).

(** [UnifiedCodeValidator.validate]. *)
Definition validate (stop_on_first_error : bool) (validators : list validator) (code : text) : result validation_verdict :=
  if bool_decide (t_strip code = []) then Ok Accepted
  else match parse code with
       | None => Ok SyntaxRefused
       | Some body =>
           result_bind (run_validators stop_on_first_error validators (Module body)) (λ issues,
             Ok match base.filter (λ i, is_error i = true) issues with
                | [] => Accepted
                | i :: _ => Refused i
                end)
       end.

(** The call that is being executed: its method and return annotation. *)
Record executing_call := mk_call_info { cc_method : string; cc_return_type : annotation }.

(** The context that [execute_code] makes. *)
Definition cell_context (restrictions : RestrictionsConfig) (agent : agent_info) (call : option executing_call)
    (exec_globals : gmap string pyobj) : ValidationContext :=
  mk_context (Some agent) match call with Some c => {[ cc_method c ]} | None => ∅ end exec_globals
    (restricted_imports restrictions) (blocked_modules restrictions)
    match call with Some c => cc_return_type c | None => AnnNone end.

(** The preparation of a cell in [execute_code], up to its execution. *)
Definition prepare_cell (word : N → bool) (fuel : nat) (restrictions : RestrictionsConfig) (agent : agent_info)
    (call : option executing_call) (exec_globals : gmap string pyobj) (code : text) :
    gmap string pyobj * text * result validation_verdict :=
  let '(code, _) := strip_code_fences word code in
  let exec_globals := strip_blocked_modules exec_globals (blocked_modules restrictions) in
  let '(code, _) := strip_redundant_imports (parse code) code (dom exec_globals) in
  let ctx := cell_context restrictions agent call exec_globals in
  (exec_globals, code, validate true (default_validators fuel restrictions false ctx) code).
End Validate.
