(* ===== verification/CodeValidatorRuns.v ===== *)
(** * What a cell that runs has passed *)

From stdpp Require Import gmap sets.
From S2P Require Import Prelude PyStr PyText PyAst Restrictions CodeContext.
From S2P Require Import CodeSecurity CodePolicy CodeClass CodeBlocking StripImports ResponseCleanup.
From S2P Require Import CodeSecurityRuns CodePolicyRuns CodeValidator.

Local Open Scope list_scope.

(** ** Every issue is an error *)

Definition all_errors (l : list ValidationIssue) : Prop := Forall (λ i, is_error i = true) l.

Lemma all_errors_app l1 l2 : all_errors l1 → all_errors l2 → all_errors (l1 ++ l2).
Proof. apply Forall_app_2. Qed.
Lemma all_errors_one n code : all_errors [issue_at n code].
Proof. by repeat constructor. Qed.
Lemma all_errors_if b n code : all_errors (issue_if b n code).
Proof. destruct b; [apply all_errors_one|constructor]. Qed.

Create HintDb issues.
#[local] Hint Resolve all_errors_app all_errors_one all_errors_if : issues.
#[local] Hint Extern 0 (all_errors []) => constructor : issues.

Lemma security_all_errors ctx tree : all_errors (security_validate ctx tree).
Proof.
  unfold security_validate. apply (visit_invariant _ (λ s, all_errors (sc_issues s))); [|constructor].
  intros a n s _ Hs. destruct n; cbn; try done.
  - unfold visit_Import. revert s Hs. induction names as [|x names IH]; intros s Hs; [done|]. cbn. apply IH.
    unfold import_alias. case_match; cbn; eauto with issues.
  - unfold visit_ImportFrom. case_match; [cbn; eauto with issues|]. case_match; [|cbn; eauto with issues].
    by rewrite (proj1 (import_from_frame _ _ _)).
  - unfold visit_Call. destruct n; try done; cbn; apply all_errors_app; try done.
    + unfold call_attr_issues. repeat case_match; eauto with issues.
    + unfold call_name_issues, check_attr_modification_with_dunder, check_getattr_forbidden_attr_call.
      repeat case_match; eauto with issues.
  - unfold visit_Attribute. repeat case_match; cbn; eauto with issues.
  - eauto with issues.
  - apply all_errors_app; [done|]. case_match; eauto with issues.
Qed.

Lemma blocking_all_errors g r tree : all_errors (blocking_validate g r tree).
Proof.
  unfold blocking_validate. apply (visit_invariant _ (λ s, all_errors (bl_issues s))); [|constructor].
  intros a n s _ Hs. destruct n; cbn; try done.
  - unfold blocking_visit_Call. repeat case_match; cbn; eauto with issues.
  - unfold blocking_visit_Assign. by case_match.
Qed.

Lemma check_targets_errors known n targets s :
  all_errors (cs_issues s) → all_errors (cs_issues (foldl (check_class_attribute_target known n) s targets)).
Proof.
  revert s. induction targets as [|t targets IH]; intros s Hs; [done|]. cbn. apply IH.
  unfold check_class_attribute_target. repeat case_match; cbn; eauto with issues.
Qed.

Lemma class_all_errors ctx tree : all_errors (class_validate ctx tree).
Proof.
  unfold class_validate. apply (visit_invariant _ (λ s, all_errors (cs_issues s))); [|constructor].
  intros a n s _ Hs. destruct n; cbn; try done.
  - unfold class_visit_Call. repeat case_match; cbn; eauto with issues.
  - apply check_targets_errors. by rewrite track_issues.
  - by apply (check_targets_errors _ _ [n1]).
  - unfold class_visit_AnnAssign. destruct value; [|done].
    apply (check_targets_errors _ _ [n1]). by rewrite track_issues.
Qed.

Lemma shadow_all_errors fuel ctx tree issues : shadow_validate fuel ctx tree = Ok issues → all_errors issues.
Proof.
  unfold shadow_validate. destruct (collect_type_names _ _ _); [|done]. cbn.
  case_bool_decide; [intros [= <-]; constructor|]. destruct tree; intros [= <-]; try constructor.
  induction body as [|n body IH]; [constructor|]. rewrite bind_cons. eauto with issues.
Qed.

Lemma policy_all_errors ctx tree : all_errors (policy_validate ctx tree).
Proof.
  rewrite policy_validate_walk. induction (walk [] tree) as [|[a n] l IH]; [constructor|].
  rewrite bind_cons. apply all_errors_app; [|done]. unfold policy_issues. destruct n; cbn; eauto with issues.
Qed.

(** ** The first error is the one raised *)

Definition well_behaved (tree : node) (v : validator) : Prop := ∃ l, v tree = Ok l ∧ all_errors l.

Lemma existsb_errors l : all_errors l → existsb is_error l = negb (bool_decide (l = [])).
Proof. intros H. destruct H as [|i l Hi _]; [done|]. cbn. by rewrite Hi. Qed.

Lemma run_validators_Ok stop tree vs :
  Forall (well_behaved tree) vs → ∃ l, run_validators stop vs tree = Ok l ∧ all_errors l.
Proof.
  induction 1 as [|v vs (l & Hl & He) _ (m & Hm & Hme)]; cbn.
  { exists []. split; [done|constructor]. }
  rewrite Hl. cbn.
  case_match; [by exists l|]. rewrite Hm. cbn. eexists. split; [done|]. by apply all_errors_app.
Qed.

Lemma run_validators_head tree vs l1 l2 :
  Forall (well_behaved tree) vs →
  run_validators true vs tree = Ok l1 → run_validators false vs tree = Ok l2 → head l1 = head l2.
Proof.
  intros Hw. revert l1 l2. induction Hw as [|v vs (l & Hl & He) Hvs IH]; intros l1 l2; cbn; [by intros [= <-] [= <-]|].
  rewrite Hl. cbn. rewrite existsb_errors by done.
  destruct (run_validators_Ok true tree vs Hvs) as (m1 & Hm1 & _). rewrite Hm1. cbn.
  destruct (run_validators_Ok false tree vs Hvs) as (m2 & Hm2 & _). rewrite Hm2. cbn.
  destruct l as [|i l]; cbn; [|by intros [= <-] [= <-]]. intros [= <-] [= <-]. by apply IH.
Qed.

Lemma filter_all_errors l : all_errors l → base.filter (λ i, is_error i = true) l = l.
Proof. induction 1 as [|i l Hi _ IH]; [done|]. rewrite filter_cons_True by done. by rewrite IH. Qed.

Lemma default_well_behaved fuel r policy ctx body :
  is_ok (collect_type_names fuel (cx_exec_globals ctx) (cx_return_type ctx)) = true →
  Forall (well_behaved (Module body)) (default_validators fuel r policy ctx).
Proof.
  intros Hc. unfold default_validators. apply Forall_app_2.
  - repeat apply Forall_cons_2; try apply Forall_nil_2.
    + eexists. split; [done|]. apply security_all_errors.
    + eexists. split; [done|]. apply blocking_all_errors.
    + eexists. split; [done|]. apply class_all_errors.
    + destruct (shadow_validate fuel ctx (Module body)) as [l|] eqn:Hs.
      * exists l. split; [done|]. by eapply shadow_all_errors.
      * unfold shadow_validate in Hs. destruct (collect_type_names _ _ _); [|done]. cbn in Hs. by case_bool_decide.
  - destruct policy; [|done]. apply Forall_singleton. eexists. split; [done|]. apply policy_all_errors.
Qed.

(** Stopping at the first validator that finds an error changes nothing:
    the validation returns or raises for the same issue either way. *)
Theorem stop_on_first_error_same (parse : text → option (list node)) (fuel : nat) (r : RestrictionsConfig)
    (policy : bool) (ctx : ValidationContext) (code : text) :
  is_ok (collect_type_names fuel (cx_exec_globals ctx) (cx_return_type ctx)) = true →
  validate parse true (default_validators fuel r policy ctx) code =
  validate parse false (default_validators fuel r policy ctx) code.
Proof.
  intros Hc. unfold validate. case_bool_decide; [done|]. destruct (parse code) as [body|]; [|done].
  pose proof (default_well_behaved fuel r policy ctx body Hc) as Hw.
  destruct (run_validators_Ok true _ _ Hw) as (l1 & H1 & E1).
  destruct (run_validators_Ok false _ _ Hw) as (l2 & H2 & E2).
  pose proof (run_validators_head _ _ _ _ Hw H1 H2) as Hh.
  rewrite H1, H2. cbn. rewrite !filter_all_errors by done. by destruct l1, l2; simplify_eq/=.
Qed.

(** A cell that calls [sys.exit] and assigns to a class attribute. *)
Definition bad_cell : list node :=
  let p := mk_pos 1 0 1 10 in let q := mk_pos 2 0 2 14 in
  [Assign q [Attribute q (Name q "Worker") "x"] (Constant q CNone);
   Other p "Expr" [Call p (Attribute p (Name p "sys") "exit") [] []]].

Lemma stop_on_first_error_same_witness :
  let ctx := cell_context default_restrictions worker_agent None ∅ in
  let validators := default_validators 1000 default_restrictions false ctx in
  let code := lit "Worker.x = None" in
  validate (λ _, Some bad_cell) true validators code = Ok (Refused (mk_issue 1 0 SError "E005")) ∧
  validate (λ _, Some bad_cell) true validators code = validate (λ _, Some bad_cell) false validators code.
Proof.
  intros ctx validators code. split; [vm_compute; reflexivity|].
  apply (stop_on_first_error_same (λ _, Some bad_cell) 1000 default_restrictions false ctx code).
  vm_compute; reflexivity.
Defined.

Lemma run_validators_clean stop tree vs l :
  run_validators stop vs tree = Ok l → base.filter (λ i, is_error i = true) l = [] →
  Forall (λ v : validator, ∃ m, v tree = Ok m ∧ base.filter (λ i, is_error i = true) m = []) vs.
Proof.
  revert l. induction vs as [|v vs IH]; intros l; cbn; [constructor|].
  destruct (v tree) as [m|] eqn:Hv; [|done]. cbn. case_match eqn:Hb.
  - intros [= <-] Hf. apply andb_true_iff in Hb as [_ (i & Hi & He)%existsb_exists]. exfalso.
    apply list_elem_of_In in Hi. by eapply (elem_of_nil i); rewrite <- Hf; apply list_elem_of_filter.
  - destruct (run_validators stop vs tree) as [more|]; [|done]. cbn. intros [= <-].
    rewrite filter_app, app_nil. intros [Hm Hmore]. constructor; [by exists m|by eapply IH].
Qed.

Lemma clean_errors l : all_errors l → base.filter (λ i, is_error i = true) l = [] → l = [].
Proof. intros H. by rewrite filter_all_errors. Qed.

(** ** Cells *)

(** What is known of a cell, as it runs in the actor: its name space holds
    nothing of a blocked module, its nodes are permitted and its writes too, no
    call in it is refused as blocking, and none of its statements binds a class
    of the return annotation. *)
Definition guaranteed (r : RestrictionsConfig) (agent : agent_info) (call : option executing_call)
    (g : gmap string pyobj) (body : list node) : Prop :=
  let ctx := cell_context r agent call g in
  (∀ x o, g !! x = Some o → is_from_blocked_module o (blocked_modules r) = false) ∧
  (∀ before n after, (walk [] (Module body)).*2 = (before ++ n :: after)%list →
     permitted ctx before n ∧ write_permitted (collect_class_names (Some agent)) before n ∧ ¬ refused_call g r before n) ∧
  (∀ n x, n ∈ body → x ∈ bound_names n → ¬ mentions g (cx_return_type ctx) x).

(** C26.  A cell that is accepted, and is not blank once its fence and redundant
    imports are gone, parses, and its program and the name space of the actor
    in which it is to run satisfy the specifications of the four default
    validators. *)
Theorem accepted_cell (parse : text → option (list node)) (word : N → bool) (fuel : nat) (r : RestrictionsConfig)
    (agent : agent_info) (call : option executing_call) (globals g : gmap string pyobj) (code code' : text) :
  prepare_cell parse word fuel r agent call globals code = (g, code', Ok Accepted) → t_strip code' ≠ [] →
  ∃ body, parse code' = Some body ∧ guaranteed r agent call g body.
Proof.
  unfold prepare_cell. destruct (strip_code_fences word code) as [code1 fence].
  destruct (strip_redundant_imports _ code1 _) as [code2 stripped].
  set (g' := strip_blocked_modules globals (blocked_modules r)). intros Heq Hc.
  injection Heq as <- <- Hv.
  unfold validate in Hv. rewrite bool_decide_eq_false_2 in Hv by done.
  destruct (parse code2) as [body|]; [|done]. exists body. split; [done|].
  destruct (run_validators _ _ _) as [issues|] eqn:Hr; [|done]. cbn in Hv.
  assert (base.filter (λ i, is_error i = true) issues = []) as Hf by (by destruct (base.filter _ issues)).
  pose proof (run_validators_clean _ _ _ _ Hr Hf) as Hall. cbn in Hall.
  apply Forall_cons in Hall as [(m1 & [= <-] & H1) Hall]. apply Forall_cons in Hall as [(m2 & [= <-] & H2) Hall].
  apply Forall_cons in Hall as [(m3 & [= <-] & H3) Hall]. apply Forall_cons in Hall as [(m4 & Hm4 & H4) _].
  apply clean_errors in H1; [|apply security_all_errors]. apply clean_errors in H2; [|apply blocking_all_errors].
  apply clean_errors in H3; [|apply class_all_errors]. apply clean_errors in H4; [|by eapply shadow_all_errors].
  split_and!; [| |exact (proj1 (return_type_accepts _ _ _ _ Hm4) H4)].
  { intros x o Hx. by apply strip_blocked_modules_lookup in Hx as [_ ?]. }
  intros before n after Hw. split; [|split].
  - by apply (proj1 (security_accepts_all _ _) H1 before n after).
  - by apply (proj1 (class_check_accepts_all _ _) H3 before n after).
  - by apply (proj1 (blocking_accepts_all _ _ _) H2 before n after).
Qed.

(** A cell with a fence and a redundant import, in a name space with a blocked
    module. *)
Definition cell_globals : gmap string pyobj := list_to_map [("os", PyModule "os"); ("sp", PyModule "subprocess")].
Definition cell_parse (code : text) : option (list node) :=
  if bool_decide (code = lit "import os" ++ [10%N] ++ lit "x = 1")
  then Some [Import (mk_pos 1 0 1 9) [mk_alias "os" None];
             Assign (mk_pos 2 0 2 5) [Name (mk_pos 2 0 2 1) "x"] (Constant (mk_pos 2 4 2 5) (CInt 1))]
  else if bool_decide (code = lit "x = 1")
  then Some [Assign (mk_pos 1 0 1 5) [Name (mk_pos 1 0 1 1) "x"] (Constant (mk_pos 1 4 1 5) (CInt 1))]
  else None.

Lemma accepted_cell_witness :
  let code := lit "```python" ++ [10%N] ++ lit "import os" ++ [10%N] ++ lit "x = 1" ++ [10%N] ++ lit "```" in
  ∃ body, cell_parse (lit "x = 1") = Some body ∧
    guaranteed default_restrictions worker_agent None {["os" := PyModule "os"]} body.
Proof.
  intros code.
  apply (accepted_cell cell_parse ascii_word 1000 default_restrictions worker_agent None cell_globals
    {["os" := PyModule "os"]} code (lit "x = 1")).
  - vm_compute; reflexivity.
  - vm_compute; discriminate.
Defined.
