(* ===== verification/CellWrap.v ===== *)
(** * Wrapping a cell for execution

    Models how [execute_code] of [nooa/runtime/actor.py] and
    [run_cell_source] of [nooa/runtime/sandbox/cell_core.py] turn a cell into
    the body of [async def __repl_wrapper__()]: the search for an explicit
    return, the implicit return of the last expression, the indentation, the
    global declaration and the wrapper's text, and which value is reported.
    The tokens of [tokenize], [None] when it fails, and the statements of
    [ast.parse] are arguments. That the wrapped
    cell runs the cell follows. *)

From S2P Require Import Prelude PyStr PyText PyAst.

(** ** Lines *)

(** [s.split("\n")]. *)
Fixpoint split_lines (s : text) : list text :=
  match s with
  | [] => [[]]
  | c :: s' =>
      if N.eqb c 10 then [] :: split_lines s'
      else match split_lines s' with
           | line :: lines => (c :: line) :: lines
           | [] => [[c]]
           end
  end.

(** ["\n".join(lines)]. *)
Definition join_lines (lines : list text) : text := t_join [10%N] lines.

(** ** The return value *)

(** [_has_top_level_return]: the visitor stops at definitions and, in the
    actor, at the first return. *)
Fixpoint finds_return (n : node) : bool :=
  let opt (o : option node) := match o with Some c => finds_return c | None => false end in
  match n with
  | Return _ _ => true
  | FunctionDef _ _ _ _ _ _ | ClassDef _ _ _ _ _ => false
  | Import _ _ | ImportFrom _ _ _ | Name _ _ | Constant _ _ | Break _ | Continue _ => false
  | Module l | TupleExpr _ l | ListExpr _ l | Other _ _ l => existsb finds_return l
  | Call _ f args kws => finds_return f || existsb finds_return args || existsb finds_return kws
  | Attribute _ v _ | UnaryOp _ _ v | Starred _ v | Await _ v => finds_return v
  | ListComp _ e gens | GeneratorExp _ e gens => finds_return e || existsb finds_return gens
  | Assign _ targets v => existsb finds_return targets || finds_return v
  | AugAssign _ t v => finds_return t || finds_return v
  | AnnAssign _ t a v => finds_return t || finds_return a || opt v
  | RaiseStmt _ e c => opt e || opt c
  | While _ test body orelse => finds_return test || existsb finds_return body || existsb finds_return orelse
  | For _ _ t it body orelse =>
      finds_return t || finds_return it || existsb finds_return body || existsb finds_return orelse
  end.

Definition has_top_level_return (body : list node) : bool := existsb finds_return body.

(** An [ast.Expr] statement. *)
Definition is_expr_statement (n : node) : bool :=
  match n with Other _ kind _ => String.eqb kind "Expr" | _ => false end.

(** The line with [return] put in at a column. *)
Definition insert_return (col : nat) (line : text) : text := take col line ++ lit "return " ++ drop col line.

(** The implicit return of the last expression: the code, and whether a
    return was added. *)
Definition implicit_return (body : list node) (code : text) : text * bool :=
  match last body with
  | Some stmt =>
      if negb (has_top_level_return body) && is_expr_statement stmt then
        let line_no := lineno (pos_of stmt) in
        let lines := split_lines code in
        if (1 <=? line_no)%nat && (line_no <=? length lines)%nat then
          (join_lines (alter (insert_return (col_offset (pos_of stmt))) (line_no - 1) lines), true)
        else (code, false)
      else (code, false)
  | None => (code, false)
  end.

(** What is reported of the wrapper's value: [None] is [_NO_RETURN]; the flag
    of the value says that it is Python's [None]. *)
Definition reported_value {V} (is_none : V → bool) (explicit implicit : bool) (value : V) : option V :=
  if explicit then Some value
  else if implicit && negb (is_none value) then Some value
  else None.

(** ** Indentation *)

(** A token: whether it is a [STRING] or [FSTRING_MIDDLE], its first and last
    line, from 1. *)
Record token := mk_token { tk_string : bool; tk_start : nat; tk_end : nat }.

(** The continuation lines of the strings, from 0. *)
Definition string_ranges (tokens : list token) : list nat :=
  tokens ≫= (λ t, if tk_string t then seq (tk_start t) (tk_end t - tk_start t) else []).

Definition indent8 : text := lit "        ".

Fixpoint indent_lines (tokens : list token) (idx : nat) (lines : list text) : list text :=
  match lines with
  | [] => []
  | line :: lines' =>
      (if bool_decide (idx ∈ string_ranges tokens) then line else indent8 ++ line) :: indent_lines tokens (S idx) lines'
  end.

(** [ActorRuntime._indent_code]. *)
Definition indent_code (tokens : option (list token)) (code : text) : text :=
  match tokens with
  | Some tokens => join_lines (indent_lines tokens 0 (split_lines code))
  | None => join_lines ((indent8 ++.) <$> split_lines code)
  end.

(** [_indent] of the worker. *)
Definition worker_indent (code : text) : text :=
  join_lines ((λ line, match line with [] => line | _ => indent8 ++ line end) <$> split_lines code).

(** ** The wrapper *)

(** A name of the name space: whether its value is callable, and a module. *)
Record binding_info := mk_binding { bi_name : string; bi_callable : bool; bi_module : bool }.

Definition global_vars (names : list binding_info) : list string :=
  bi_name <$> base.filter (λ b,
    String.prefix "_" (bi_name b) = false ∧
    bi_name b ∉ ["self"; "asyncio"; "__builtins__"]%string ∧ bi_callable b = false ∧ bi_module b = false) names.

Definition global_decl (vars : list string) : text :=
  match vars with
  | [] => []
  | _ => lit "    global " ++ t_join (lit ", ") (lit <$> vars) ++ [10%N]
  end.

Definition wrapper_header (vars : list string) : text :=
  lit "async def __repl_wrapper__():" ++ [10%N] ++ global_decl vars ++ lit "    try:" ++ [10%N].

(** [s.count("\n")]. *)
Fixpoint newlines (s : text) : nat :=
  match s with
  | [] => 0
  | c :: s' => if N.eqb c 10 then S (newlines s') else newlines s'
  end.

Definition wrapper_line_offset (vars : list string) : nat := newlines (wrapper_header vars).

(** The wrapper around indented code; [footer] is its [finally] clause. *)
Definition wrapper (vars : list string) (footer indented : text) : text :=
  wrapper_header vars ++ indented ++ [10%N] ++ footer.

(** The wrapper of [execute_code], and that of the worker. *)
Definition actor_wrapper (body : list node) (tokens : text → option (list token)) (names : list binding_info)
    (footer code : text) : text :=
  let '(code, _) := implicit_return body code in
  wrapper (global_vars names) footer (indent_code (tokens code) code).

Definition worker_wrapper (body : list node) (names : list binding_info) (footer code : text) : text :=
  let '(code, _) := implicit_return body code in
  wrapper (global_vars names) footer (worker_indent code).

(** ** The wrapped cell runs the cell *)

(** ** Lines *)

Definition one_line (line : text) : Prop := 10%N ∉ line.

Lemma split_lines_not_nil s : split_lines s ≠ [].
Proof. destruct s as [|c s]; [done|]. cbn. repeat case_match; done. Qed.

Lemma split_lines_one s : one_line s → split_lines s = [s].
Proof.
  induction s as [|c s IH]; intros Hs; [done|]. cbn. apply not_elem_of_cons in Hs as [Hc Hs].
  rewrite (proj2 (N.eqb_neq _ _)) by congruence. by rewrite IH.
Qed.

Lemma split_lines_app s t : one_line s → split_lines (s ++ 10%N :: t) = s :: split_lines t.
Proof.
  induction s as [|c s IH]; intros Hs; [done|]. cbn. apply not_elem_of_cons in Hs as [Hc Hs].
  rewrite (proj2 (N.eqb_neq _ _)) by congruence. by rewrite IH.
Qed.

Lemma split_lines_each s : Forall one_line (split_lines s).
Proof.
  induction s as [|c s IH]; cbn; [by repeat constructor; apply not_elem_of_nil|].
  destruct (N.eqb_spec c 10) as [->|Hc]; [constructor; [by apply not_elem_of_nil|done]|].
  destruct (split_lines s) as [|line lines]; [by apply Forall_singleton, not_elem_of_cons; split; [|apply not_elem_of_nil]|].
  inversion IH; subst. constructor; [by apply not_elem_of_cons|done].
Qed.

Lemma join_lines_cons line lines : lines ≠ [] → join_lines (line :: lines) = line ++ 10%N :: join_lines lines.
Proof. by destruct lines. Qed.

Lemma split_join lines : lines ≠ [] → Forall one_line lines → split_lines (join_lines lines) = lines.
Proof.
  intros Hne Hl. induction Hl as [|line lines Hline Hl IH]; [done|]. destruct (decide (lines = [])) as [->|Hn].
  - by apply split_lines_one.
  - rewrite join_lines_cons, split_lines_app, IH by done. done.
Qed.

Lemma join_split s : join_lines (split_lines s) = s.
Proof.
  induction s as [|c s IH]; [done|]. cbn. destruct (N.eqb_spec c 10) as [->|Hc].
  - rewrite join_lines_cons by apply split_lines_not_nil. by rewrite IH.
  - destruct (split_lines s) as [|line [|l2 lines]] eqn:Hs; [by apply split_lines_not_nil in Hs|..];
      cbn in IH |- *; by rewrite <- IH.
Qed.

Lemma split_lines_suffix s t : split_lines (s ++ 10%N :: t) = split_lines s ++ split_lines t.
Proof.
  induction s as [|c s IH]; [done|]. cbn. rewrite IH. destruct (N.eqb_spec c 10); [done|].
  destruct (split_lines s) eqn:Hs; [by apply split_lines_not_nil in Hs|done].
Qed.

(** ** Explicit returns *)

Lemma finds_return_children n :
  finds_return n =
  match n with
  | Return _ _ => true
  | FunctionDef _ _ _ _ _ _ | ClassDef _ _ _ _ _ => false
  | _ => existsb finds_return (children n)
  end.
Proof.
  destruct n; try done; cbn [finds_return children existsb option_list];
    rewrite ?existsb_app; cbn [existsb]; rewrite ?orb_false_r, ?orb_assoc; try done.
  - by destruct value; cbn; rewrite ?orb_false_r.
  - by destruct exc, cause; cbn; rewrite ?orb_false_r.
Qed.

Definition is_definition (n : node) : bool :=
  match n with FunctionDef _ _ _ _ _ _ | ClassDef _ _ _ _ _ => true | _ => false end.

(** A return that stands in [n] outside nested definitions. *)
Inductive returns : node → Prop :=
  | returns_here p v : returns (Return p v)
  | returns_below n c : is_definition n = false → c ∈ children n → returns c → returns n.

Lemma finds_return_spec n : finds_return n = true ↔ returns n.
Proof.
  induction n as [n IH] using node_children_ind. rewrite finds_return_children. rewrite Forall_forall in IH. split.
  - intros H. destruct n; try done; try constructor;
      (apply existsb_exists in H as (c & Hc%list_elem_of_In & Hr); apply IH in Hr; [|done]; by eapply returns_below).
  - inversion 1 as [|? c Hd Hc Hr]; subst; [done|]. apply IH in Hr; [|done].
    assert (existsb finds_return (children n) = true) by (apply existsb_exists; exists c; by rewrite <- list_elem_of_In).
    by destruct n.
Qed.

(** ** Indentation *)

Lemma indent_lines_lookup tokens i lines k line :
  lines !! k = Some line →
  indent_lines tokens i lines !! k =
  Some (if bool_decide ((i + k)%nat ∈ string_ranges tokens) then line else indent8 ++ line).
Proof.
  revert i k. induction lines as [|l lines IH]; intros i [|k] H; try done.
  - injection H as ->. cbn. by rewrite Nat.add_0_r.
  - etrans; [exact (IH (S i) k H)|]. by replace (S i + k) with (i + S k) by lia.
Qed.

Lemma one_line_app a b : one_line a → one_line b → one_line (a ++ b).
Proof. unfold one_line. intros Ha Hb [?|?]%elem_of_app; done. Qed.

Lemma one_line_indent : one_line indent8.
Proof. apply (bool_decide_unpack _). vm_compute. exact I. Qed.

Lemma indent_lines_each tokens i lines : Forall one_line lines → Forall one_line (indent_lines tokens i lines).
Proof.
  intros H. revert i. induction H as [|line lines Hl _ IH]; intros i; [constructor|]. cbn [indent_lines]. constructor; [|apply IH].
  case_bool_decide; [done|]. apply one_line_app; [apply one_line_indent|done].
Qed.

Lemma indent_lines_not_nil tokens i lines : lines ≠ [] → indent_lines tokens i lines ≠ [].
Proof. by destruct lines. Qed.

(** Line [k] of the code, as the actor indents it. *)
Definition actor_line (tokens : option (list token)) (k : nat) (line : text) : text :=
  match tokens with
  | Some tokens => if bool_decide (k ∈ string_ranges tokens) then line else indent8 ++ line
  | None => indent8 ++ line
  end.
Definition worker_line (line : text) : text := match line with [] => line | _ => indent8 ++ line end.

Lemma indent_code_line tokens code k line :
  split_lines code !! k = Some line → split_lines (indent_code tokens code) !! k = Some (actor_line tokens k line).
Proof.
  intros H. unfold indent_code, actor_line. destruct tokens as [tokens|]; rewrite split_join.
  - by apply indent_lines_lookup.
  - apply indent_lines_not_nil, split_lines_not_nil.
  - apply indent_lines_each, split_lines_each.
  - apply list_lookup_fmap_Some. eexists. by split; [|exact H].
  - by intros ?%fmap_nil_inv%split_lines_not_nil.
  - apply Forall_fmap. eapply Forall_impl; [apply split_lines_each|]. intros l Hl.
    apply one_line_app; [apply one_line_indent|done].
Qed.

Lemma worker_indent_line code k line :
  split_lines code !! k = Some line → split_lines (worker_indent code) !! k = Some (worker_line line).
Proof.
  intros H. unfold worker_indent. rewrite split_join.
  - apply list_lookup_fmap_Some. eexists. by split; [|exact H].
  - by intros ?%fmap_nil_inv%split_lines_not_nil.
  - apply Forall_fmap. eapply Forall_impl; [apply split_lines_each|]. intros [|c l] Hl; [done|].
    apply one_line_app; [apply one_line_indent|done].
Qed.

(** ** Line numbers *)

Lemma newlines_app s t : newlines (s ++ t) = newlines s + newlines t.
Proof. induction s as [|c s IH]; [done|]. cbn. rewrite IH. by destruct (N.eqb c 10). Qed.

Lemma split_lines_count s : length (split_lines s) = S (newlines s).
Proof.
  induction s as [|c s IH]; [done|]. cbn. destruct (N.eqb c 10); [cbn; by rewrite IH|]. rewrite <- IH.
  destruct (split_lines s) eqn:Hs; [by apply split_lines_not_nil in Hs|done].
Qed.

Lemma wrapper_header_ends vars : ∃ h, wrapper_header vars = h ++ [10%N].
Proof.
  exists (lit "async def __repl_wrapper__():" ++ [10%N] ++ global_decl vars ++ lit "    try:").
  unfold wrapper_header. by rewrite <- !app_assoc.
Qed.

Lemma wrapper_line vars footer indented k line :
  split_lines indented !! k = Some line →
  split_lines (wrapper vars footer indented) !! (wrapper_line_offset vars + k)%nat = Some line.
Proof.
  intros H. unfold wrapper, wrapper_line_offset. destruct (wrapper_header_ends vars) as [h ->].
  rewrite newlines_app, <- app_assoc.
  change (split_lines (h ++ 10%N :: (indented ++ 10%N :: footer)) !! (newlines h + 1 + k)%nat = Some line).
  rewrite !split_lines_suffix, lookup_app_r by (rewrite split_lines_count; lia).
  replace (newlines h + 1 + k - length (split_lines h)) with k by (rewrite split_lines_count; lia).
  by apply lookup_app_l_Some.
Qed.

(** ** The implicit return *)

Lemma take_drop_around (pre rest : text) d :
  take (length pre + d) (pre ++ rest) = pre ++ take d rest ∧ drop (length pre + d) (pre ++ rest) = drop d rest.
Proof. split; [apply take_app_add|apply drop_app_add]. Qed.

(** A return put in at the byte column of a statement stands in front of it
    only where the text before it is ASCII. *)
Lemma insert_return_places pre c rest :
  c ≠ 114%N →
  insert_return (utf8_length pre) (pre ++ c :: rest) = pre ++ lit "return " ++ c :: rest ↔ ascii_line pre.
Proof.
  intros Hc. rewrite utf8_length_ascii. unfold insert_return. split.
  - intros H. pose proof (utf8_length_ge pre) as Hge. destruct (decide (utf8_length pre = length pre)) as [|Hne]; [done|].
    replace (utf8_length pre) with (length pre + S (utf8_length pre - length pre - 1)) in H by lia.
    rewrite !(proj1 (take_drop_around _ _ _)), <- app_assoc in H. apply app_inv_head in H.
    cbn in H. injection H as Heq _. by subst.
  - intros ->. rewrite take_app_length, drop_app_length. done.
Qed.

Lemma split_lines_alter f k code :
  (∀ line, one_line line → one_line (f line)) →
  split_lines (join_lines (alter f k (split_lines code))) = alter f k (split_lines code).
Proof.
  intros Hf. apply split_join.
  - intros H%(f_equal length). rewrite length_alter in H. by apply length_zero_iff_nil, split_lines_not_nil in H.
  - apply Forall_alter; [apply split_lines_each|]. intros line _ Hl. by apply Hf.
Qed.

Lemma alter_at (f : text → text) (k : nat) (lines : list text) line : lines !! k = Some line → alter f k lines !! k = Some (f line).
Proof. intros H. by rewrite list_lookup_alter_eq, H. Qed.

Lemma one_line_insert col line : one_line line → one_line (insert_return col line).
Proof.
  intros Hl. unfold insert_return. apply one_line_app; [|apply one_line_app].
  - intros Hin. apply Hl. rewrite <- (take_drop col line). apply elem_of_app. by left.
  - apply (bool_decide_unpack _). vm_compute. exact I.
  - intros Hin. apply Hl. rewrite <- (take_drop col line). apply elem_of_app. by right.
Qed.

Definition one_stmt (line col : nat) : node := Other (mk_pos line col line col) "Expr" [].

(** A cell without a return outside definitions, whose last statement is
    an expression, returns that expression: [return] goes in front of the
    statement, after the statements that share its line, and no other line
    changes. This is so exactly when the text before the statement is ASCII:
    its column counts bytes and slices characters, so that after [s = 'é';]
    the [return] lands inside the expression. *)
Theorem implicit_return_placed body stmt code pre c rest :
  last body = Some stmt → has_top_level_return body = false → is_expr_statement stmt = true →
  1 ≤ lineno (pos_of stmt) → split_lines code !! (lineno (pos_of stmt) - 1)%nat = Some (pre ++ c :: rest) →
  col_offset (pos_of stmt) = utf8_length pre → c ≠ 114%N →
  (implicit_return body code).2 = true ∧
  (split_lines (implicit_return body code).1 =
     <[(lineno (pos_of stmt) - 1)%nat := pre ++ lit "return " ++ c :: rest]> (split_lines code) ↔ ascii_line pre).
Proof.
  intros Hlast Hret Hexpr Hge Hline Hcol Hc. unfold implicit_return. rewrite Hlast, Hret, Hexpr. cbn [negb andb].
  pose proof (lookup_lt_Some _ _ _ Hline) as Hlt.
  assert (Hle : lineno (pos_of stmt) ≤ length (split_lines code)) by (unfold text in *; lia).
  rewrite (proj2 (Nat.leb_le _ _) Hge), (proj2 (Nat.leb_le _ _) Hle). cbn [andb fst snd]. split; [done|].
  rewrite split_lines_alter by (intros; by apply one_line_insert). rewrite Hcol, <- (insert_return_places pre c rest Hc).
  assert (Ha : alter (insert_return (utf8_length pre)) (lineno (pos_of stmt) - 1) (split_lines code) !! (lineno (pos_of stmt) - 1)%nat
    = Some (insert_return (utf8_length pre) (pre ++ c :: rest))) by by apply alter_at.
  split.
  - intros H. rewrite H, list_lookup_insert_eq in Ha by done. by injection Ha.
  - intros <-. apply list_eq. intros i. destruct (decide (i = lineno (pos_of stmt) - 1)) as [->|Hi].
    + rewrite list_lookup_insert_eq by done. exact Ha.
    + rewrite list_lookup_insert_ne by congruence. apply list_lookup_alter_ne. congruence.
Qed.

Example return_in_place :
  implicit_return [one_stmt 1 0; one_stmt 2 7] (lit "f()" ++ [10%N] ++ lit "x = 1; x") =
  (lit "f()" ++ [10%N] ++ lit "x = 1; return x", true).
Proof. vm_compute. reflexivity. Qed.

Example return_in_expression :
  implicit_return [one_stmt 1 0; one_stmt 1 10] (lit "s = '" ++ [233%N] ++ lit "'; s+s") =
  (lit "s = '" ++ [233%N] ++ lit "'; sreturn +s", true).
Proof. vm_compute. reflexivity. Qed.

Lemma implicit_return_placed_witness :
  has_top_level_return [one_stmt 1 10] = false ∧
  (implicit_return [one_stmt 1 10] (lit "s = '" ++ [233%N] ++ lit "'; s+s")).2 = true ∧
  (split_lines (implicit_return [one_stmt 1 10] (lit "s = '" ++ [233%N] ++ lit "'; s+s")).1 =
     <[0 := (lit "s = '" ++ [233%N] ++ lit "'; ") ++ lit "return " ++ 115%N :: lit "+s"]>
       (split_lines (lit "s = '" ++ [233%N] ++ lit "'; s+s")) ↔
   ascii_line (lit "s = '" ++ [233%N] ++ lit "'; ")).
Proof.
  split; [reflexivity|].
  apply (implicit_return_placed [one_stmt 1 10] (one_stmt 1 10) _ (lit "s = '" ++ [233%N] ++ lit "'; ") 115 (lit "+s"));
    first [reflexivity | discriminate | cbn; lia].
Defined.

(** The value of a cell is reported, [None] included, when a return stands
    outside the definitions of the cell; otherwise it is reported when it is
    not [None] and the last statement is an expression. *)
Theorem cell_value_reported {V} (is_none : V → bool) body code value :
  let outcome := reported_value is_none (has_top_level_return body) (implicit_return body code).2 value in
  (outcome = Some value ↔
     (∃ stmt, stmt ∈ body ∧ returns stmt) ∨
     (is_none value = false ∧ ∃ stmt, last body = Some stmt ∧ is_expr_statement stmt = true ∧
        1 ≤ lineno (pos_of stmt) ≤ length (split_lines code))) ∧
  (outcome = Some value ∨ outcome = None).
Proof.
  assert (Hret : has_top_level_return body = true ↔ ∃ stmt, stmt ∈ body ∧ returns stmt).
  { unfold has_top_level_return. rewrite existsb_exists. f_equiv. intros stmt.
    by rewrite finds_return_spec, list_elem_of_In. }
  intros outcome. subst outcome. rewrite <- Hret. clear Hret. unfold reported_value, implicit_return. destruct (has_top_level_return body); [by split; [|left]; tauto|].
  destruct (last body) as [stmt|] eqn:Hl; cbn [negb andb snd].
  2: { split; [|by right]. split; [done|]. intros [?|(_ & ? & ? & _)]; done. }
  destruct (is_expr_statement stmt) eqn:He; cbn [andb snd].
  2: { split; [|by right]. split; [done|]. intros [?|(_ & s & [= <-] & ? & _)]; congruence. }
  destruct ((1 <=? lineno (pos_of stmt)) && (lineno (pos_of stmt) <=? length (split_lines code))) eqn:Hb; cbn [andb snd].
  - apply andb_true_iff in Hb as [H1%Nat.leb_le H2%Nat.leb_le]. destruct (is_none value); cbn [negb].
    + split; [|by right]. split; [done|]. intros [?|[? _]]; done.
    + split; [|by left]. split; [|done]. intros _. right. split; [done|]. by exists stmt.
  - split; [|by right]. split; [done|]. intros [?|(_ & s & [= <-] & _ & H1 & H2)]; [done|].
    apply Nat.leb_le in H1, H2. by rewrite H1, H2 in Hb.
Qed.

(** ** The two wrappers *)

(** What [implicit_return] leaves of a line. *)
Lemma implicit_return_line body code k line :
  split_lines code !! k = Some line →
  ∃ line', split_lines (implicit_return body code).1 !! k = Some line' ∧
    (line' = line ∨ ∃ stmt, last body = Some stmt ∧ lineno (pos_of stmt) = S k ∧ line' = insert_return (col_offset (pos_of stmt)) line).
Proof.
  intros Hk. unfold implicit_return. destruct (last body) as [stmt|]; [|by exists line; auto].
  case_match; [|by exists line; auto]. case_match; [|by exists line; auto]. cbn [fst].
  apply andb_true_iff in H0 as [H1%Nat.leb_le _].
  rewrite split_lines_alter by (intros; by apply one_line_insert).
  destruct (decide (k = lineno (pos_of stmt) - 1)) as [->|Hi].
  - exists (insert_return (col_offset (pos_of stmt)) line). split; [by apply alter_at|].
    right. exists stmt. split_and!; [done|lia|done].
  - exists line. split; [|by left]. etrans; [apply list_lookup_alter_ne; congruence|done].
Qed.

(** C29.  Line [k] of a cell is line [wrapper_line_offset + k] of the text that
    is compiled, in the actor and in the sandbox worker alike, so that
    subtracting the offset from a line of a traceback gives the line of the
    cell; it is the line of the cell, with [return] put in on the line of the
    last statement, indented unless a string goes on in it. *)
Theorem wrapped_lines_align body tokens names footer code k line :
  split_lines code !! k = Some line →
  ∃ line', (line' = line ∨ ∃ stmt, last body = Some stmt ∧ lineno (pos_of stmt) = S k ∧
              line' = insert_return (col_offset (pos_of stmt)) line) ∧
    let at_line := (wrapper_line_offset (global_vars names) + k)%nat in
    split_lines (actor_wrapper body tokens names footer code) !! at_line =
      Some (actor_line (tokens (implicit_return body code).1) k line') ∧
    split_lines (worker_wrapper body names footer code) !! at_line = Some (worker_line line').
Proof.
  intros Hk. destruct (implicit_return_line body code k line Hk) as (line' & Hl & Hcase).
  exists line'. split; [done|]. unfold actor_wrapper, worker_wrapper.
  destruct (implicit_return body code) as [code' added]. cbn [fst] in *.
  split; apply wrapper_line; [by apply indent_code_line|by apply worker_indent_line].
Qed.

Lemma wrapped_lines_align_witness :
  wrapper_line_offset (global_vars [mk_binding "x" false false; mk_binding "f" true false]) = 3 ∧
  ∃ line', (line' = lit "x" ∨ ∃ stmt, last [one_stmt 2 0] = Some stmt ∧ lineno (pos_of stmt) = 2 ∧
              line' = insert_return (col_offset (pos_of stmt)) (lit "x")) ∧
    let at_line := (wrapper_line_offset (global_vars [mk_binding "x" false false; mk_binding "f" true false]) + 1)%nat in
    split_lines (actor_wrapper [one_stmt 2 0] (λ _, Some []) [mk_binding "x" false false; mk_binding "f" true false] [] (lit "y = 1" ++ [10%N] ++ lit "x")) !! at_line =
      Some (actor_line (Some []) 1 line') ∧
    split_lines (worker_wrapper [one_stmt 2 0] [mk_binding "x" false false; mk_binding "f" true false] [] (lit "y = 1" ++ [10%N] ++ lit "x")) !! at_line =
      Some (worker_line line').
Proof.
  split; [reflexivity|].
  apply (wrapped_lines_align [one_stmt 2 0] (λ _, Some []) [mk_binding "x" false false; mk_binding "f" true false] []
    (lit "y = 1" ++ [10%N] ++ lit "x") 1 (lit "x")). reflexivity.
Defined.

(** The lines on which a string goes on keep their text in the actor; the
    sandbox worker indents them, which puts eight blanks into the value of the
    string. *)
Theorem worker_changes_strings body tokens toks names footer code k line :
  split_lines code !! k = Some line → line ≠ [] →
  tokens (implicit_return body code).1 = Some toks → k ∈ string_ranges toks →
  (∀ stmt, last body = Some stmt → lineno (pos_of stmt) ≠ S k) →
  let at_line := (wrapper_line_offset (global_vars names) + k)%nat in
  split_lines (actor_wrapper body tokens names footer code) !! at_line = Some line ∧
  split_lines (worker_wrapper body names footer code) !! at_line = Some (indent8 ++ line).
Proof.
  intros Hk Hne Htok Hin Hother. destruct (implicit_return_line body code k line Hk) as (line' & Hl & Hcase).
  assert (line' = line) as -> by (destruct Hcase as [->|(stmt & H1 & H2 & _)]; [done|by apply Hother in H1]).
  unfold actor_wrapper, worker_wrapper. destruct (implicit_return body code) as [code' added]. cbn [fst] in *.
  split; apply wrapper_line.
  - rewrite Htok. erewrite indent_code_line by exact Hl. unfold actor_line. by rewrite bool_decide_true.
  - erewrite worker_indent_line by exact Hl. by destruct line.
Qed.

Definition string_cell : text := lit "s = " ++ [34; 34; 34; 97; 10; 98; 34; 34; 34]%N.

Lemma worker_changes_strings_witness :
  split_lines (actor_wrapper [] (λ _, Some [mk_token true 1 2]) [] [] string_cell) !! 3 = Some [98; 34; 34; 34]%N ∧
  split_lines (worker_wrapper [] [] [] string_cell) !! 3 = Some (indent8 ++ [98; 34; 34; 34]%N).
Proof.
  apply (worker_changes_strings [] (λ _, Some [mk_token true 1 2]) [mk_token true 1 2] [] [] string_cell 1 [98; 34; 34; 34]%N);
    try reflexivity; try discriminate. apply (bool_decide_unpack _). vm_compute. exact I.
Defined.
