(* ===== verification/Replay.v ===== *)
(** * Replay of Responses turns

    Models [nooa/unifiedllm/response_parts.py], [nooa/_immutable_json.py] and
    what they use of [nooa/unifiedllm/replay_state.py] and
    [nooa/llm_types.py]: how the output of a Responses call is captured as the
    ordered parts of an assistant turn, public text apart from frozen native
    state, and how the turn is projected back into wire items.

    Items are JSON values; a live SDK object stands for its
    [model_dump(exclude_none=True)], which has the same fields.  The check of
    replayed media is that of [nooa/unifiedllm/media_inputs.py], with
    [nooa/media_inputs.py] and [nooa/media_policy.py]. *)

From Stdlib Require Import Ascii.
From S2P Require Import Prelude PyDict PyStr Values.
Local Open Scope string_scope.
Local Open Scope nooa_scope.

(** ** Immutable JSON

    A frozen object is a dict, a frozen list a tuple. *)

(** [freeze]; a value that is frozen already is returned as it is, which
    freezing it again also does. *)
Fixpoint freeze (v : pyval) : result pyval :=
  match v with
  | VDict d => let! d' := map_result (λ kv, let! x := freeze kv.2 in Ok (kv.1, x)) d in Ok (VDict d')
  | VList l | VTuple l => let! l' := map_result freeze l in Ok (VTuple l')
  | VFloat f => if is_finite f then Ok v else Raise ValueError
  | _ => Ok v
  end.

(** [json_containers]. *)
Fixpoint json_containers (v : pyval) : pyval :=
  match v with
  | VDict d => VDict ((λ kv, (kv.1, json_containers kv.2)) <$> d)
  | VTuple l => VList (json_containers <$> l)
  | _ => v
  end.

(** [_native_object]. *)
Definition native_object (v : pyval) : result pyval :=
  match v with VDict _ => freeze v | _ => Raise ValueError end.

(** ** Fields of provider items *)

Notation obj := (dict string pyval).

(** [_field(value, key)]: other JSON values have no such attribute. *)
Definition field (v : pyval) (key : string) : option pyval :=
  match v with VDict d => dict_get key d | _ => None end.

(** [d.get(key)], [None] where it is absent. *)
Definition field_get (key : string) (d : obj) : pyval := default VNone (dict_get key d).

Definition is_str (s : string) (v : pyval) : bool := match v with VStr t => String.eqb s t | _ => false end.
Definition is_null (v : pyval) : bool := match v with VNone => true | _ => false end.

Definition response_item_type (item : pyval) : option string :=
  match field item "type" with Some (VStr s) => Some s | _ => None end.

(** [opaque_item]: tuples become lists. *)
Fixpoint opaque_item (v : pyval) : pyval :=
  match v with
  | VDict d => VDict ((λ kv, (kv.1, opaque_item kv.2)) <$> d)
  | VList l | VTuple l => VList (opaque_item <$> l)
  | _ => v
  end.

(** The blocks of a message that cannot be projected. *)
Definition unsupported_block (block : pyval) : result (list string) :=
  match block with
  | VDict _ =>
      let kind := default "None" (response_item_type block) in
      Ok (if bool_decide (kind = "output_text") then [] else ["message." +:+ kind])
  | _ => Raise ReasoningReplayError
  end.

Definition unsupported_item (item : pyval) : result (list string) :=
  match response_item_type item with
  | Some kind =>
      if String.eqb kind "message" then
        match field item "content" with
        | Some (VList content) => let! kinds := map_result unsupported_block content in Ok (concat kinds)
        | _ => Raise ReasoningReplayError
        end
      else if String.eqb kind "reasoning" || String.eqb kind "function_call" then Ok []
      else Ok [kind]
  | None => Ok ["None"]
  end.

(** [unsupported_responses_parts]. *)
Definition unsupported_responses_parts (output : list pyval) : result (list string) :=
  let! kinds := map_result unsupported_item output in Ok (concat kinds).

(** [scope.split(":", 1)]: the text before the first colon and after it. *)
Fixpoint split_colon (s : string) : option (string * string) :=
  match s with
  | "" => None
  | String c s' =>
      if Ascii.eqb c ":" then Some ("", s')
      else match split_colon s' with Some (a, b) => Some (String c a, b) | None => None end
  end.

(** [_scope_provider]: the second of the three parts of [api:provider:identity],
    none of which is empty. *)
Definition scope_provider (scope : option string) : result (option string) :=
  match scope with
  | None => Ok None
  | Some s =>
      match split_colon s with
      | Some (api, rest) =>
          match split_colon rest with
          | Some (provider, identity) =>
              if String.eqb api "" || String.eqb provider "" || String.eqb identity "" then Raise ReasoningReplayError
              else Ok (Some provider)
          | None => Raise ReasoningReplayError
          end
      | None => Raise ReasoningReplayError
      end
  end.

Definition native_provider (provider : option string) : bool :=
  bool_decide (provider = Some "openai" ∨ provider = Some "azure").

(** [responses_message_text], [responses_output_text]. *)
Definition output_text_of (block : pyval) : list string :=
  match response_item_type block, field block "text" with
  | Some "output_text", Some (VStr text) => [text]
  | _, _ => []
  end.

Definition responses_message_text (item : pyval) : string :=
  match field item "content" with
  | Some (VList content) => String.concat "" (concat (output_text_of <$> content))
  | _ => ""
  end.

Definition is_message (item : pyval) : bool := bool_decide (response_item_type item = Some "message").

Definition responses_output_text (output : list pyval) : string :=
  String.concat "" (responses_message_text <$> base.filter is_message output).

(** ** The parts of a turn *)

(** [ToolCall], [AssistantText] and [AssistantReasoning]; [native] is frozen. *)
Inductive replay_part :=
  | ToolCall (native : option obj) (id name arguments : string)
  | AssistantText (native : option obj) (text : string)
  | AssistantReasoning (native : option obj) (text : string).

Definition native_of (p : replay_part) : option obj :=
  match p with ToolCall n _ _ _ | AssistantText n _ | AssistantReasoning n _ => n end.

(** [part.model_copy(update={"native": native})]. *)
Definition with_native (native : option obj) (p : replay_part) : replay_part :=
  match p with
  | ToolCall _ id name arguments => ToolCall native id name arguments
  | AssistantText _ text => AssistantText native text
  | AssistantReasoning _ text => AssistantReasoning native text
  end.

(** The fields of [LLMResponse] that replay reads. *)
Record turn := mk_turn { parts : list replay_part; replay_scope : option string }.

(** [LLMResponse.content], [tool_calls] and [reasoning]. *)
Definition text_of (p : replay_part) : list string :=
  match p with AssistantText _ text => [text] | _ => [] end.
Definition turn_content (t : turn) : string := String.concat "" (concat (text_of <$> parts t)).

Definition is_tool_call (p : replay_part) : bool := match p with ToolCall _ _ _ _ => true | _ => false end.
Definition tool_calls (t : turn) : list replay_part := base.filter is_tool_call (parts t).

Definition reasoning_of (p : replay_part) : list string :=
  match p with AssistantReasoning _ text => if String.eqb text "" then [] else [text] | _ => [] end.
Definition newline : string := String (ascii_of_nat 10) "".
Definition reasoning (t : turn) : option string :=
  let text := String.concat newline (concat (reasoning_of <$> parts t)) in
  if String.eqb text "" then None else Some text.

(** ** Capture *)

(** [_validate_native_reasoning] on a dict. *)
Definition validate_native_reasoning (require_encrypted has_text : bool) (item : obj) : result () :=
  if negb (is_str "reasoning" (field_get "type" item)) then Raise ReasoningReplayError
  else
    match field_get "encrypted_content" item with
    | VNone => if require_encrypted || negb has_text then Raise ReasoningReplayError else Ok ()
    | VStr s => if String.eqb s "" then Raise ReasoningReplayError else Ok ()
    | _ => Raise ReasoningReplayError
    end.

(** One block of [_capture_text]: its text, and the block without it. *)
Definition capture_block (block : pyval) : result (string * pyval) :=
  match block with
  | VDict d =>
      match field_get "text" d with
      | VStr text =>
          Ok (text, VDict (dict_set "_text_length" (VInt (Z.of_nat (String.length text))) (dict_del "text" d)))
      | _ => Raise ReasoningReplayError
      end
  | _ => Raise ReasoningReplayError
  end.

(** [_capture_text], with the blocks as it leaves them. *)
Definition capture_text (separator : string) (blocks : list pyval) : result (string * list pyval) :=
  let! captured := map_result capture_block blocks in
  Ok (String.concat separator (captured.*1), captured.*2).

(** [_capture_summary], with the item as it leaves it. *)
Definition capture_summary (native : obj) : result (string * obj) :=
  match dict_get "summary" native with
  | Some (VStr s) => Ok (s, dict_set "summary" (VStr "") native)
  | Some (VList blocks) =>
      let! captured := capture_text newline blocks in
      Ok (captured.1, dict_set "summary" (VList captured.2) native)
  | None => Ok ("", native)
  | _ => Raise ReasoningReplayError
  end.

(** What stays readable of a message with unsupported blocks. *)
Definition readable_block (block : pyval) : result (list pyval) :=
  match block with
  | VDict d =>
      match field_get "type" d with
      | VStr "refusal" => Ok [VDict [("text", field_get "refusal" d)]]
      | VStr "output_text" => Ok [block]
      | VList _ | VDict _ => Raise TypeError
      | _ => Ok []
      end
  | _ => Raise OtherError
  end.
Definition readable_content (content : list pyval) : result (list pyval) :=
  let! blocks := map_result readable_block content in Ok (concat blocks).

(** [freeze] of a dict. *)
Definition freeze_obj (d : obj) : result obj := map_result (λ kv, let! x := freeze kv.2 in Ok (kv.1, x)) d.

(** The locals of the loop of [capture_parts]. *)
Record capture := mk_capture { c_parts : list replay_part; c_ids : gset string; c_portable_only : bool }.

Section Capture.
Context (native_encrypted_reasoning supported unsupported : bool).

(** The end of the loop's body. *)
Definition keep_part (st : capture) (native : obj) (part : replay_part) : result capture :=
  let! part :=
    if supported && negb (c_portable_only st)
    then let! frozen := freeze_obj native in Ok (with_native (Some frozen) part)
    else Ok part in
  Ok (mk_capture (c_parts st ++ [part])%list (c_ids st) (c_portable_only st)).

(** An unsupported turn keeps no native state, so what becomes of it is not
    looked at. *)
Definition capture_message (st : capture) (native : obj) : result capture :=
  match field_get "content" native with
  | VList content =>
      let! content := if unsupported then readable_content content else Ok content in
      let! captured := capture_text "" content in
      keep_part st (dict_set "content" (VList captured.2) native) (AssistantText None captured.1)
  | _ => Raise ReasoningReplayError
  end.

Definition capture_call (st : capture) (native : obj) : result capture :=
  match field_get "call_id" native with
  | VStr call_id =>
      if negb (String.eqb call_id "") && bool_decide (call_id ∈ c_ids st) then Raise ReasoningReplayError
      else
        match field_get "name" native, field_get "arguments" native with
        | VStr name, VStr arguments =>
            keep_part (mk_capture (c_parts st) ({[ call_id ]} ∪ c_ids st) (c_portable_only st))
              (dict_del "arguments" (dict_del "name" (dict_del "call_id" native)))
              (ToolCall None call_id name arguments)
        | _, _ => Raise ReasoningReplayError
        end
  | _ => Raise ReasoningReplayError
  end.

Definition capture_reasoning (st : capture) (native : obj) : result capture :=
  let encrypted := negb (is_null (field_get "encrypted_content" native)) in
  let! _ := if encrypted then validate_native_reasoning true true native else Ok () in
  let! captured := capture_summary native in
  let part := AssistantReasoning None captured.1 in
  if negb encrypted && (native_encrypted_reasoning || String.eqb captured.1 "") then
    Ok (mk_capture (c_parts st ++ [part])%list (c_ids st) true)
  else keep_part st captured.2 part.

(** The body of the loop of [capture_parts]. *)
Definition capture_item (st : capture) (item : pyval) : result capture :=
  match opaque_item item with
  | VDict native =>
      match field_get "type" native with
      | VStr kind =>
          if String.eqb kind "message" then capture_message st native
          else if String.eqb kind "function_call" then capture_call st native
          else if String.eqb kind "reasoning" then capture_reasoning st native
          else Ok st
      | _ => Raise ReasoningReplayError
      end
  | _ => Raise ReasoningReplayError
  end.

Fixpoint capture_items (st : capture) (output : list pyval) : result capture :=
  match output with
  | [] => Ok st
  | item :: output' => let! st := capture_item st item in capture_items st output'
  end.
End Capture.

Definition part_text (p : replay_part) : string :=
  match p with ToolCall _ _ _ _ => "" | AssistantText _ text | AssistantReasoning _ text => text end.

Definition readable_outcome (p : replay_part) : bool := is_tool_call p || negb (String.eqb (part_text p) "").
Definition call_without_id (p : replay_part) : bool :=
  match p with ToolCall _ id _ _ => String.eqb id "" | _ => false end.
Definition native_reasoning (p : replay_part) : bool :=
  match p with AssistantReasoning (Some (_ :: _)) _ => true | _ => false end.

(** [capture_parts]. *)
Definition capture_parts (native_encrypted_reasoning : bool) (scope : option string) (output : list pyval) :
    result (list replay_part) :=
  let! unsupported := unsupported_responses_parts output in
  let! provider := scope_provider scope in
  let refused := negb (bool_decide (unsupported = [])) in
  let! st := capture_items native_encrypted_reasoning (native_provider provider) refused
               (mk_capture [] ∅ refused) output in
  if c_portable_only st then
    if refused && negb (existsb readable_outcome (c_parts st)) then Raise ReasoningReplayError
    else Ok (with_native None <$> c_parts st)
  else if existsb call_without_id (c_parts st) && existsb native_reasoning (c_parts st)
  then Raise ReasoningReplayError
  else Ok (c_parts st).

(** The turn that [_response_from_output] makes of them. *)
Definition has_native (p : replay_part) : bool :=
  match native_of p with Some (_ :: _) => true | _ => false end.

Definition response_from_output (native_encrypted_reasoning : bool) (scope : option string) (output : list pyval) :
    result turn :=
  let! parts := capture_parts native_encrypted_reasoning scope output in
  Ok (mk_turn parts (if existsb has_native parts then scope else None)).

(** ** Projection *)

(** [text[lo:hi]]. *)
Definition clamp_index (n : nat) (i : Z) : nat :=
  if (i <? 0)%Z then Z.to_nat (Z.max 0 (Z.of_nat n + i)) else Nat.min n (Z.to_nat i).
Definition str_slice (lo hi : Z) (s : string) : string :=
  let n := String.length s in
  let lo := clamp_index n lo in
  String.substring lo (clamp_index n hi - lo) s.

(** The elements a [for] loop takes from a JSON value. *)
Definition iter_value (v : pyval) : result (list pyval) :=
  match v with
  | VList l | VTuple l => Ok l
  | VDict d => Ok ((λ kv, VStr kv.1) <$> d)
  | VStr s => Ok ((λ c, VStr (String c "")) <$> String.list_ascii_of_string s)
  | _ => Raise TypeError
  end.

(** The loop of [_restore_text], from an offset on: the blocks and the final
    offset. *)
Fixpoint restore_text_blocks (text separator : string) (offset : Z) (blocks : list pyval) : result (list pyval * Z) :=
  match blocks with
  | [] => Ok ([], offset)
  | VDict d :: blocks' =>
      match dict_get "_text_length" d with
      | None => Raise KeyError
      | Some v =>
          let! length :=
            match v with VInt z => Ok z | VBool b => Ok (Z.b2z b) | _ => Raise TypeError end in
          let block := VDict (dict_set "text" (VStr (str_slice offset (offset + length) text)) (dict_del "_text_length" d)) in
          let! rest := restore_text_blocks text separator (offset + length + Z.of_nat (String.length separator)) blocks' in
          Ok (block :: rest.1, rest.2)
      end
  | _ :: _ => Raise OtherError
  end.

(** [_restore_text], with the blocks as it leaves them; a value that is not a
    list is only accepted empty. *)
Definition restore_text (text separator : string) (value : pyval) : result pyval :=
  let! blocks := iter_value value in
  let! restored := restore_text_blocks text separator 0 blocks in
  match blocks with
  | [] => Ok value
  | _ =>
      if (restored.2 - Z.of_nat (String.length separator) =? Z.of_nat (String.length text))%Z
      then Ok (VList restored.1) else Raise ReasoningReplayError
  end.

(** [_restore_summary], with the item as it leaves it. *)
Definition restore_summary (native : obj) (text : string) : result obj :=
  match dict_get "summary" native with
  | Some (VStr _) => Ok (dict_set "summary" (VStr text) native)
  | Some blocks => let! blocks := restore_text text newline blocks in Ok (dict_set "summary" blocks native)
  | None => let! _ := restore_text text newline (VList []) in Ok native
  end.

Definition json_obj (d : obj) : obj := (λ kv, (kv.1, json_containers kv.2)) <$> d.

Definition portable_text (text : string) : list obj :=
  if String.eqb text "" then [] else [[("role", VStr "assistant"); ("content", VStr text)]].

(** ** Replayed media

    The kinds of media that a model may be sent, and the check of the native
    content of a turn against them. *)

(** [_KINDS]. *)
Definition attachment_kinds : list (string * string) :=
  [("image_url", "image"); ("input_image", "image"); ("image", "image");
   ("input_audio", "audio"); ("audio_url", "audio"); ("audio", "audio"); ("output_audio", "audio");
   ("video_url", "video"); ("input_video", "video"); ("video", "video");
   ("file", "file"); ("input_file", "file"); ("document", "file")].

(** The fields of a block, by its type, that hold hints too. *)
Definition hint_fields : list (string * string) :=
  [("image_url", "image_url"); ("image", "source"); ("video_url", "video_url"); ("video", "source");
   ("input_audio", "input_audio"); ("audio_url", "audio_url"); ("audio", "source"); ("file", "file");
   ("document", "source")].

(** [s.split(c, 1)[0]]. *)
Fixpoint before_char (c : ascii) (s : string) : string :=
  match s with
  | "" => ""
  | String d s' => if Ascii.eqb c d then "" else String d (before_char c s')
  end.
Fixpoint has_char (c : ascii) (s : string) : bool :=
  match s with "" => false | String d s' => Ascii.eqb c d || has_char c s' end.

(** [_mime_hints], in some order. *)
Definition label_hint (v : pyval) : list string :=
  match v with VStr s => if has_char "/" s then [lower s] else [] | _ => [] end.
Definition data_hint (v : pyval) : list string :=
  match v with
  | VStr s => if String.prefix "data:" s
              then [lower (before_char "," (before_char ";" (String.substring 5 (String.length s - 5) s)))] else []
  | _ => []
  end.
Definition node_hints (node : obj) : list string :=
  concat ((λ key, label_hint (field_get key node)) <$> ["mime_type"; "media_type"; "format"]) ++
  concat ((λ key, data_hint (field_get key node)) <$> ["url"; "file_data"; "image_url"; "file_url"; "video_url"]).
Definition mime_hints (kind : string) (block : obj) : list string :=
  let inner := match dict_get kind hint_fields with
               | Some key => match field_get key block with VDict d => [d] | _ => [] end
               | None => []
               end in
  concat (node_hints <$> (block :: inner)).

(** [attachment_kind]; a [type] that is a list or a dict cannot be looked up. *)
Definition attachment_kind (block : obj) : result (option string) :=
  match field_get "type" block with
  | VStr kind =>
      match dict_get kind attachment_kinds with
      | None => Ok None
      | Some attached =>
          let hints := mime_hints kind block in
          if String.eqb attached "file" then
            Ok (Some (if negb (bool_decide (hints = [])) && forallb (String.eqb "application/pdf") hints then "pdf" else "file"))
          else if existsb (λ hint, negb (String.prefix (attached +:+ "/") hint)) hints then Ok (Some "file")
          else Ok (Some attached)
      end
  | VList _ | VDict _ => Raise TypeError
  | _ => Ok None
  end.

(** The kinds of the blocks of a field that holds a list. *)
Definition block_kinds (v : pyval) : result (list string) :=
  match v with
  | VList l | VTuple l =>
      let! kinds := map_result (λ b, match b with VDict d => attachment_kind d | _ => Ok None end) l in
      Ok (omap id kinds)
  | _ => Ok []
  end.
Definition audio_kinds (native : obj) : list string := if is_null (field_get "audio" native) then [] else ["audio"].

Definition ALL_INPUT_KINDS : list string := ["image"; "audio"; "video"; "pdf"].

(** [implemented_input_kinds], [interface_for_provider]. *)
Definition implemented_input_kinds (interface : string) : list string :=
  if String.eqb interface "decision" then ["image"]
  else if String.eqb interface "responses" || String.eqb interface "anthropic" then ["image"; "pdf"]
  else ALL_INPUT_KINDS.
Definition interface_for_provider (provider : option string) : string :=
  if bool_decide (provider = Some "anthropic") then "anthropic" else "chat".

(** [reject_unsupported_media] of one message. *)
Definition reject_unsupported_media (native : obj) (interface : string) : result () :=
  let allowed := implemented_input_kinds interface in
  if bool_decide (allowed = ALL_INPUT_KINDS) then Ok ()
  else
    let! own := attachment_kind native in
    let! content := block_kinds (field_get "content" native) in
    let! output := block_kinds (field_get "output" native) in
    let kinds := (audio_kinds native ++ option_list own ++ content ++ output)%list in
    if existsb (λ kind, bool_decide (kind ∈ kinds) && negb (bool_decide (kind ∈ allowed))) ALL_INPUT_KINDS
    then Raise ValueError else Ok ().

(** [check_replayed_native_media]; [media_inputs] is [None] outside a client
    call. *)
Definition check_replayed_native_media (media_inputs : option (list string)) (interface : string) (native : obj) : result () :=
  match media_inputs with
  | None => Ok ()
  | Some enabled =>
      let! content := block_kinds (field_get "content" native) in
      if existsb (λ kind, negb (bool_decide (kind ∈ enabled))) (audio_kinds native ++ content)%list
      then Raise ReasoningReplayError
      else reject_unsupported_media native interface
  end.

Section Project.
(** The check of replayed media of the call. *)
Context (check_media : obj → result ()).
Context (native_encrypted_reasoning compatible : bool).

(** The body of the loop of [project_turn]. *)
Definition project_part (p : replay_part) : result (list obj) :=
  let native := if compatible then option_map json_obj (native_of p) else None in
  match p with
  | ToolCall _ id name arguments =>
      let item := match native with Some ((_ :: _) as d) => d | _ => [("type", VStr "function_call")] end in
      Ok [dict_set "arguments" (VStr arguments) (dict_set "name" (VStr name) (dict_set "call_id" (VStr id) item))]
  | AssistantText _ text =>
      match native with
      | Some ((_ :: _) as native) =>
          let! _ := check_media native in
          match dict_get "content" native with
          | Some blocks =>
              let! blocks := restore_text text "" blocks in Ok [dict_set "content" blocks native]
          | None => Raise KeyError
          end
      | _ => Ok (portable_text text)
      end
  | AssistantReasoning _ text =>
      match native with
      | Some native =>
          let! _ := validate_native_reasoning native_encrypted_reasoning (negb (String.eqb text "")) native in
          let! native := restore_summary native text in Ok [native]
      | None => Ok (portable_text text)
      end
  end.
End Project.

Definition lacks_envelope (p : replay_part) : bool :=
  match p with
  | AssistantReasoning (Some native) _ => is_null (field_get "encrypted_content" native)
  | _ => false
  end.

(** [project_turn]. *)
Definition project_turn (media_inputs : option (list string)) (native_encrypted_reasoning : bool) (scope : option string)
    (t : turn) : result (list obj) :=
  let compatible := negb (bool_decide (scope = None)) && bool_decide (replay_scope t = scope) in
  let! _ :=
    if compatible then
      let! provider := scope_provider scope in
      if native_provider provider then Ok () else Raise ReasoningReplayError
    else Ok () in
  let compatible := compatible && negb (native_encrypted_reasoning && existsb lacks_envelope (parts t)) in
  let! items :=
    map_result (project_part (check_replayed_native_media media_inputs "responses") native_encrypted_reasoning compatible)
      (parts t) in
  Ok (concat items).

(** [LLMResponse.replace_parts], through [model_copy]. *)
Definition replace_parts (new_parts : list replay_part) (t : turn) : turn :=
  mk_turn (with_native None <$> new_parts) None.

Definition is_text (p : replay_part) : bool := match p with AssistantText _ _ => true | _ => false end.

(** [LLMResponse.replace_text]. *)
Definition replace_text (text : string) (t : turn) : turn :=
  replace_parts (AssistantText None text :: base.filter (λ p, is_text p = false) (parts t)) t.
