(* ===== verification/ReplayRuns.v ===== *)
(** * What is captured of a turn is what is replayed *)

From Stdlib Require Import Ascii SpecFloat.
From S2P Require Import Prelude PyDict PyStr Values Replay.
Local Open Scope string_scope.
Local Open Scope nooa_scope.

(** ** Freezing and thawing *)

(** JSON that holds no tuple: what [opaque_item] returns. *)
Lemma opaque_item_idem v : opaque_item (opaque_item v) = opaque_item v.
Proof.
  induction v using pyval_ind'; cbn; try done; f_equal; rewrite <- list_fmap_compose;
    apply list_fmap_ext; intros i x Hx; cbn; apply (Forall_lookup_1 _ _ _ _ H) in Hx; by rewrite ?Hx.
Qed.

(** Thawing undoes freezing. *)
Lemma json_containers_freeze v f : freeze (opaque_item v) = Ok f → json_containers f = opaque_item v.
Proof.
  revert f. induction v using pyval_ind'; intros f'; cbn.
  1-3: by intros [= <-].
  - destruct (is_finite f); by intros [= <-].
  - by intros [= <-].
  - destruct (map_result _ _) as [l'|] eqn:Hl; cbn; [|done]. intros [= <-]. cbn. f_equal.
    apply map_result_ok in Hl. revert l' Hl. induction H as [|x l Hx _ IH]; intros l' Hl; inversion Hl; subst; [done|].
    cbn. f_equal; eauto.
  - destruct (map_result _ _) as [l'|] eqn:Hl; cbn; [|done]. intros [= <-]. cbn. f_equal.
    apply map_result_ok in Hl. revert l' Hl. induction H as [|x l Hx _ IH]; intros l' Hl; inversion Hl; subst; [done|].
    cbn. f_equal; eauto.
  - destruct (map_result _ _) as [l'|] eqn:Hl; cbn; [|done]. intros [= <-]. cbn. f_equal.
    apply map_result_ok in Hl. revert l' Hl. induction H as [|[k x] l Hx _ IH]; intros l' Hl; inversion Hl as [|? y ? ? Hy ?]; subst; [done|].
    cbn in Hx, Hy |- *. destruct (freeze (opaque_item x)) eqn:Hf; cbn in Hy; [|done]. injection Hy as <-. cbn. f_equal; [|eauto].
    f_equal. by apply Hx.
Qed.

(** ** Objects without tuples *)
Definition opaque_obj (d : obj) : Prop := opaque_item (VDict d) = VDict d.

Lemma freeze_obj_thaw d f : opaque_obj d → freeze_obj d = Ok f → json_obj f = d.
Proof.
  intros Hd Hf. assert (Hz : freeze (opaque_item (VDict d)) = Ok (VDict f)).
  { rewrite Hd. cbn. unfold freeze_obj in Hf. by rewrite Hf. }
  apply json_containers_freeze in Hz. rewrite Hd in Hz. cbn in Hz. by injection Hz.
Qed.

Lemma opaque_obj_elem d : opaque_obj d ↔ Forall (λ kv, opaque_item kv.2 = kv.2) d.
Proof.
  unfold opaque_obj. cbn. induction d as [|[k v] d IH]; [by split|]. rewrite Forall_cons. cbn. split.
  - intros [= H1 H2]. split; [done|]. apply IH. by f_equal.
  - intros [-> Hd]. apply IH in Hd as [= Heq]. by rewrite Heq.
Qed.

Lemma opaque_obj_set k v d : opaque_item v = v → opaque_obj d → opaque_obj (dict_set k v d).
Proof. rewrite !opaque_obj_elem. exact (Forall_dict_set (λ v, opaque_item v = v) k v d). Qed.

Lemma opaque_obj_del k d : opaque_obj d → opaque_obj (dict_del k d).
Proof. rewrite !opaque_obj_elem. exact (Forall_dict_del (λ v, opaque_item v = v) k d). Qed.

Lemma opaque_get k d v : opaque_obj d → dict_get k d = Some v → opaque_item v = v.
Proof.
  rewrite opaque_obj_elem, Forall_forall. intros H Hk%dict_get_Some_elem. exact (H _ Hk).
Qed.

Lemma opaque_list l : opaque_item (VList l) = VList l ↔ Forall (λ v, opaque_item v = v) l.
Proof.
  cbn. induction l as [|v l IH]; [by split|]. rewrite Forall_cons. cbn. split.
  - intros [= H1 H2]. split; [done|]. apply IH. by f_equal.
  - intros [-> Hl]. apply IH in Hl as [= Heq]. by rewrite Heq.
Qed.

(** ** Python's equality of JSON values: the order of keys is immaterial *)
Inductive veq : pyval → pyval → Prop :=
  | veq_refl v : veq v v
  | veq_list l l' : Forall2 veq l l' → veq (VList l) (VList l')
  | veq_dict (d d' : obj) :
      (∀ k, option_Forall2 veq (dict_get k d) (dict_get k d')) → veq (VDict d) (VDict d').

Lemma veq_option (o : option pyval) : option_Forall2 veq o o.
Proof. destruct o; constructor. apply veq_refl. Qed.

(** ** Pieces of a text *)

Lemma substring_app a b c : String.substring (String.length a) (String.length b) (a +:+ b +:+ c) = b.
Proof.
  induction a as [|x a IH]; cbn; [|exact IH].
  induction b as [|y b IH]; [by destruct c|].
  change (String y (String.substring 0 (String.length b) (b +:+ c)) = String y b). f_equal. exact IH.
Qed.

Lemma str_slice_piece a b c :
  str_slice (Z.of_nat (String.length a)) (Z.of_nat (String.length a) + Z.of_nat (String.length b)) (a +:+ b +:+ c) = b.
Proof.
  unfold str_slice, clamp_index. rewrite !str_length_app.
  rewrite (proj2 (Z.ltb_ge _ 0)), (proj2 (Z.ltb_ge _ 0)) by lia.
  rewrite <- Nat2Z.inj_add, !Nat2Z.id, !Nat.min_r by lia.
  replace (_ - _) with (String.length b) by lia. apply substring_app.
Qed.

Lemma concat_cons sep t (ts : list string) :
  ts ≠ [] → String.concat sep (t :: ts) = t +:+ sep +:+ String.concat sep ts.
Proof. by destruct ts. Qed.

(** ** Blocks *)

(** The blocks of an item with their texts. A block of a provider has no field
    of the archive's own. *)
Definition text_block (td : string * obj) : Prop :=
  dict_wf td.2 ∧ dict_get "text" td.2 = Some (VStr td.1) ∧ dict_get "_text_length" td.2 = None.

Definition marked_block (text : string) (d : obj) : obj :=
  dict_set "_text_length" (VInt (Z.of_nat (String.length text))) (dict_del "text" d).

Definition restored_block (text : string) (d : obj) : obj :=
  dict_set "text" (VStr text) (dict_del "_text_length" (marked_block text d)).

Lemma restored_block_same td : text_block td → veq (VDict td.2) (VDict (restored_block td.1 td.2)).
Proof.
  destruct td as [text d]. intros (Hwf & Ht & Hl). constructor. intros k. cbn in *. unfold restored_block, marked_block.
  rewrite dict_get_set. case_decide; [subst; rewrite Ht; by apply veq_option|].
  rewrite dict_get_del by auto with nooa. case_decide; [subst; rewrite Hl; constructor|].
  rewrite dict_get_set_ne, dict_get_del, decide_False by done. apply veq_option.
Qed.

Lemma str_app_nil s : s +:+ "" = s.
Proof. induction s as [|c s IH]; [done|]. change (String c (s +:+ "") = String c s). by rewrite IH. Qed.

Notation marked tds := ((λ td, VDict (marked_block td.1 td.2)) <$> tds).
Notation restored tds := ((λ td, VDict (restored_block td.1 td.2)) <$> tds).

Lemma restore_blocks_captured sep pre (tds : list (string * obj)) :
  tds ≠ [] →
  restore_text_blocks (pre +:+ String.concat sep (tds.*1)) sep (Z.of_nat (String.length pre)) (marked tds) =
  Ok (restored tds, (Z.of_nat (String.length (pre +:+ String.concat sep (tds.*1))) + Z.of_nat (String.length sep))%Z).
Proof.
  revert pre. induction tds as [|[t d] tds IH]; intros pre Hne; [done|]. cbn [fmap list_fmap fst snd restore_text_blocks].
  unfold marked_block at 1. rewrite dict_get_set_eq. cbn [result_bind].
  assert (Hb : ∀ rest, VDict (dict_set "text" (VStr (str_slice (Z.of_nat (String.length pre))
      (Z.of_nat (String.length pre) + Z.of_nat (String.length t)) (pre +:+ t +:+ rest)))
      (dict_del "_text_length" (marked_block t d))) = VDict (restored_block t d)).
  { intros rest. by rewrite str_slice_piece. }
  destruct (decide (tds = [])) as [->|Hn].
  - cbn [fmap list_fmap String.concat restore_text_blocks result_bind fst snd]. specialize (Hb "").
    rewrite str_app_nil in Hb. rewrite Hb. do 2 f_equal. rewrite str_length_app. lia.
  - rewrite concat_cons by (by intros ?%fmap_nil_inv). rewrite Hb.
    specialize (IH (pre +:+ t +:+ sep) Hn). rewrite !str_app_assoc in IH.
    replace (Z.of_nat (String.length pre) + Z.of_nat (String.length t) + Z.of_nat (String.length sep))%Z
      with (Z.of_nat (String.length (pre +:+ t +:+ sep))) by (rewrite !str_length_app; lia).
    rewrite IH. done.
Qed.

Lemma restore_text_captured sep (tds : list (string * obj)) :
  restore_text (String.concat sep (tds.*1)) sep (VList (marked tds)) = Ok (VList (restored tds)).
Proof.
  unfold restore_text. cbn [iter_value result_bind]. destruct tds as [|td tds]; [done|].
  pose proof (restore_blocks_captured sep "" (td :: tds) ltac:(done)) as Hr.
  change ("" +:+ String.concat sep (td :: tds).*1) with (String.concat sep (td :: tds).*1) in Hr.
  change (Z.of_nat (String.length "")) with 0%Z in Hr. rewrite Hr. cbn [result_bind fmap list_fmap fst snd].
  rewrite (proj2 (Z.eqb_eq _ _)) by lia. done.
Qed.

Definition captured_blocks (blocks : list pyval) (tds : list (string * obj)) : Prop :=
  blocks = (λ td, VDict td.2) <$> tds ∧ Forall (λ td, dict_get "text" td.2 = Some (VStr td.1)) tds.

Lemma capture_text_spec sep blocks text blocks' :
  capture_text sep blocks = Ok (text, blocks') →
  ∃ tds, captured_blocks blocks tds ∧ text = String.concat sep (tds.*1) ∧ blocks' = marked tds.
Proof.
  unfold capture_text. destruct (map_result capture_block blocks) as [captured|] eqn:Hc; cbn; [|done]. intros [= <- <-].
  apply map_result_ok in Hc.
  assert (Hz : ∃ tds, captured_blocks blocks tds ∧ captured = (λ td, (td.1, VDict (marked_block td.1 td.2))) <$> tds).
  { induction Hc as [|x y blocks captured Hx _ (tds & [-> Htds] & ->)]; [by exists []|].
    destruct x as [| | | | | | |d]; try done. cbn in Hx. unfold field_get in Hx.
    destruct (dict_get "text" d) as [[| | | |t| | |]|] eqn:Ht; try done. injection Hx as <-.
    exists ((t, d) :: tds). split; [|done]. split; [done|]. by constructor. }
  destruct Hz as (tds & Htds & ->). exists tds. split; [done|]. by rewrite <- !list_fmap_compose.
Qed.

(** ** Items *)

(** An item as a provider sends it: no key twice, no block with the field
    that the archive uses for the length of its text, and no message with a
    field [audio] or [output]. *)
Definition provider_obj (d : obj) : Prop :=
  dict_wf d ∧ (dict_get "type" d = Some (VStr "message") → dict_get "audio" d = None ∧ dict_get "output" d = None) ∧
  ∀ key blocks block, key = "content" ∨ key = "summary" → dict_get key d = Some (VList blocks) → VDict block ∈ blocks →
    dict_wf block ∧ dict_get "_text_length" block = None.
Definition provider_item (item : pyval) : Prop := ∀ d, opaque_item item = VDict d → provider_obj d.

Lemma opaque_item_obj item d : opaque_item item = VDict d → opaque_obj d.
Proof. intros H. unfold opaque_obj. by rewrite <- H, opaque_item_idem. Qed.

Lemma text_blocks key d blocks tds :
  provider_obj d → key = "content" ∨ key = "summary" → dict_get key d = Some (VList blocks) → captured_blocks blocks tds →
  Forall text_block tds.
Proof.
  intros (_ & _ & Hp) Hk Hg [-> Htds]. rewrite Forall_forall in Htds |- *. intros td Hin.
  destruct (Hp key _ td.2 Hk Hg) as [Hwf Hl]; [|by split_and!; [|apply Htds|]].
  apply list_elem_of_fmap. by exists td.
Qed.

Lemma restored_same tds : Forall text_block tds → veq (VList ((λ td, VDict td.2) <$> tds)) (VList (restored tds)).
Proof.
  intros H. apply veq_list. induction H as [|td tds Htd _ IH]; cbn; constructor; [by apply restored_block_same|done].
Qed.

Lemma marked_opaque tds : opaque_item (VList ((λ td, VDict td.2) <$> tds)) = VList ((λ td, VDict td.2) <$> tds) →
  opaque_item (VList (marked tds)) = VList (marked tds).
Proof.
  rewrite !opaque_list, !Forall_fmap. intros H. eapply Forall_impl; [exact H|]. intros td Htd.
  apply (opaque_obj_set "_text_length"); [done|]. by apply opaque_obj_del.
Qed.

(** Putting back what was taken out gives the same object. *)
Lemma veq_put_back key v v' w (d : obj) :
  dict_get key d = Some v → veq v v' → veq (VDict d) (VDict (dict_set key v' (dict_set key w d))).
Proof.
  intros Hd Hv. constructor. intros k. rewrite !dict_get_set. case_decide; [subst; rewrite Hd; by constructor|apply veq_option].
Qed.

Lemma keep_part_native st native part st' :
  opaque_obj native → keep_part true st native part = Ok st' → c_portable_only st' = false →
  c_portable_only st = false ∧
  ∃ f, c_parts st' = (c_parts st ++ [with_native (Some f) part])%list ∧ json_obj f = native.
Proof.
  unfold keep_part. cbn [andb]. destruct (c_portable_only st) eqn:Hp; cbn; [by intros _ [= <-]|].
  intros Ho. destruct (freeze_obj native) as [f|] eqn:Hf; cbn; [|done]. intros [= <-] _. split; [done|].
  exists f. split; [done|]. by apply freeze_obj_thaw.
Qed.

(** A part from which the item is projected again. *)
Definition restores (ne : bool) (d : obj) (p : replay_part) : Prop :=
  has_native p = true ∧ ne && lacks_envelope p = false ∧
  (provider_obj d → ∀ media,
     ∃ d', project_part (check_replayed_native_media media "responses") ne true p = Ok [d'] ∧ veq (VDict d) (VDict d')).

(** A message of text blocks passes the check of replayed media, whatever may
    be sent. *)
Definition output_texts (blocks : list pyval) : Prop :=
  Forall (λ b, ∀ d, b = VDict d → dict_get "type" d = Some (VStr "output_text")) blocks.

Lemma text_kinds tds :
  output_texts ((λ td, VDict td.2) <$> tds) → block_kinds (VList (marked tds)) = Ok [].
Proof.
  intros H. cbn [block_kinds].
  assert (map_result (λ b, match b with VDict d => attachment_kind d | _ => Ok None end) (marked tds) = Ok (replicate (length tds) None)) as ->.
  { induction tds as [|[t d] tds IH]; [done|]. apply Forall_cons in H as [Hd H]. cbn [fmap list_fmap map_result fst snd length replicate].
    assert (attachment_kind (marked_block t d) = Ok None) as ->.
    { unfold attachment_kind, marked_block, field_get. rewrite dict_get_set_ne, dict_get_del_ne by done. by rewrite (Hd d eq_refl). }
    cbn [result_bind]. by rewrite IH. }
  cbn [result_bind]. f_equal. clear H. by induction (length tds).
Qed.

Lemma text_message_passes media d tds :
  dict_get "type" d = Some (VStr "message") → dict_get "audio" d = None → dict_get "output" d = None →
  output_texts ((λ td, VDict td.2) <$> tds) →
  check_replayed_native_media media "responses" (dict_set "content" (VList (marked tds)) d) = Ok ().
Proof.
  intros Ht Ha Ho Hb. unfold check_replayed_native_media, reject_unsupported_media, audio_kinds, attachment_kind, field_get.
  rewrite dict_get_set_eq, !dict_get_set_ne by done. rewrite Ht, Ha, Ho. cbn [from_option id default].
  rewrite (text_kinds tds Hb). by destruct media.
Qed.

Lemma project_text_native check ne f text :
  f ≠ [] →
  project_part check ne true (AssistantText (Some f) text) =
  let! _ := check (json_obj f) in
  match dict_get "content" (json_obj f) with
  | Some blocks => let! blocks := restore_text text "" blocks in Ok [dict_set "content" blocks (json_obj f)]
  | None => Raise KeyError
  end.
Proof. by destruct f. Qed.

Lemma project_call_native check ne f id name arguments :
  f ≠ [] →
  project_part check ne true (ToolCall (Some f) id name arguments) =
  Ok [dict_set "arguments" (VStr arguments) (dict_set "name" (VStr name) (dict_set "call_id" (VStr id) (json_obj f)))].
Proof. by destruct f. Qed.

Lemma json_obj_get key (f : obj) : dict_get key (json_obj f) = json_containers <$> dict_get key f.
Proof. induction f as [|[k v] f IH]; cbn; [done|]. by case_decide. Qed.

Lemma native_some (f d : obj) key v : json_obj f = d → dict_get key d = Some v → f ≠ [].
Proof. by intros <- H ->. Qed.

Lemma capture_message_restores ne st d st' :
  dict_get "type" d = Some (VStr "message") →
  (∀ blocks, dict_get "content" d = Some (VList blocks) → output_texts blocks) →
  opaque_obj d → capture_message true false st d = Ok st' → c_portable_only st' = false →
  c_portable_only st = false ∧ ∃ p, c_parts st' = (c_parts st ++ [p])%list ∧ restores ne d p.
Proof.
  intros Htype Hsup Ho. unfold capture_message, field_get. destruct (dict_get "content" d) as [[| | | | |blocks| |]|] eqn:Hc; try done. cbn.
  destruct (capture_text "" blocks) as [[text blocks']|] eqn:Ht; cbn; [|done].
  apply capture_text_spec in Ht as (tds & Htds & -> & ->). pose proof Htds as [-> _]. pose proof (opaque_get _ _ _ Ho Hc) as Hob.
  intros Hk Hp. apply keep_part_native in Hk as (Hst & f & -> & Hf); [|by apply opaque_obj_set; [apply marked_opaque|]|done].
  split; [done|]. eexists. split; [done|]. cbn.
  assert (Hne : f ≠ []) by (eapply native_some; [exact Hf|apply dict_get_set_eq]). split_and!.
  - by destruct f.
  - by destruct ne.
  - intros Hd media. rewrite project_text_native, Hf by done.
    destruct Hd as (Hwf & Hmsg & Hblk). destruct (Hmsg Htype) as [Ha Hout].
    rewrite text_message_passes by (done || by apply Hsup). pose proof (conj Hwf (conj Hmsg Hblk) : provider_obj d) as Hd. cbn.
    rewrite dict_get_set_eq, restore_text_captured. eexists. split; [done|]. apply (veq_put_back _ _ _ _ _ Hc), restored_same, (text_blocks "content" d _ _ Hd (or_introl eq_refl) Hc Htds).
Qed.

Lemma capture_call_restores ne st d st' kind :
  opaque_obj d → dict_get "type" d = Some (VStr kind) → capture_call true st d = Ok st' → c_portable_only st' = false →
  c_portable_only st = false ∧ ∃ p, c_parts st' = (c_parts st ++ [p])%list ∧ restores ne d p.
Proof.
  intros Ho Htype. unfold capture_call, field_get.
  destruct (dict_get "call_id" d) as [[| | | |call_id| | |]|] eqn:Hid; try done. cbn.
  destruct (_ && _); [done|].
  destruct (dict_get "name" d) as [[| | | |name| | |]|] eqn:Hname; try done.
  destruct (dict_get "arguments" d) as [[| | | |arguments| | |]|] eqn:Hargs; try done. cbn.
  intros Hk Hp. apply keep_part_native in Hk as (Hst & f & -> & Hf); [|by repeat apply opaque_obj_del|done].
  split; [done|]. eexists. split; [done|]. cbn.
  assert (Hne : f ≠ []).
  { apply (native_some _ _ "type" (VStr kind) Hf). rewrite !dict_get_del_ne by done. exact Htype. }
  split_and!; [by destruct f|by destruct ne|].
  intros [Hwf _] media. rewrite project_call_native, Hf by done. eexists. split; [done|].
  constructor. intros k. rewrite !dict_get_set.
  case_decide; [subst; rewrite Hargs; apply veq_option|].
  case_decide; [subst; rewrite Hname; apply veq_option|].
  case_decide; [subst; rewrite Hid; apply veq_option|].
  rewrite !dict_get_del_ne by done. apply veq_option.
Qed.

(** ** Reasoning *)

Lemma capture_summary_restores d text d' :
  opaque_obj d → capture_summary d = Ok (text, d') →
  opaque_obj d' ∧ (∀ key, key ≠ "summary" → dict_get key d' = dict_get key d) ∧
  (provider_obj d → ∃ d'', restore_summary d' text = Ok d'' ∧ veq (VDict d) (VDict d'')).
Proof.
  intros Ho. unfold capture_summary.
  destruct (dict_get "summary" d) as [[| | | |s|blocks| |]|] eqn:Hs; try done.
  - intros [= <- <-]. split_and!.
    + by apply opaque_obj_set.
    + intros key Hk. by apply dict_get_set_ne.
    + intros _. unfold restore_summary. rewrite dict_get_set_eq. eexists. split; [done|].
      by apply (veq_put_back _ _ _ _ _ Hs), veq_refl.
  - destruct (capture_text newline blocks) as [[t blocks']|] eqn:Ht; cbn; [|done]. intros [= <- <-].
    apply capture_text_spec in Ht as (tds & Htds & -> & ->). pose proof Htds as [-> _].
    pose proof (opaque_get _ _ _ Ho Hs) as Hob. split_and!.
    + by apply opaque_obj_set; [apply marked_opaque|].
    + intros key Hk. by apply dict_get_set_ne.
    + intros Hd. unfold restore_summary. rewrite dict_get_set_eq, restore_text_captured. cbn. eexists. split; [done|].
      apply (veq_put_back _ _ _ _ _ Hs), restored_same, (text_blocks "summary" d _ _ Hd (or_intror eq_refl) Hs Htds).
  - intros [= <- <-]. split_and!; [done..|]. intros _. unfold restore_summary. rewrite Hs. cbn.
    exists d. split; [done|apply veq_refl].
Qed.

Lemma validate_get ne has_text d d' :
  (∀ key, key ≠ "summary" → dict_get key d' = dict_get key d) →
  validate_native_reasoning ne has_text d' = validate_native_reasoning ne has_text d.
Proof. intros H. unfold validate_native_reasoning, field_get. by rewrite !H. Qed.

(** A frozen reasoning item that the projection accepts. *)
Lemma reasoning_restores ne d d' text f :
  dict_get "type" d = Some (VStr "reasoning") → json_obj f = d' →
  (∀ key, key ≠ "summary" → dict_get key d' = dict_get key d) →
  (provider_obj d → ∃ d'', restore_summary d' text = Ok d'' ∧ veq (VDict d) (VDict d'')) →
  validate_native_reasoning ne (negb (String.eqb text "")) d = Ok () → ne && is_null (field_get "encrypted_content" d) = false →
  restores ne d (AssistantReasoning (Some f) text).
Proof.
  intros Htype Hf Hg Hr Hv Hne. rewrite <- Hg in Htype by done. split_and!.
  - pose proof (native_some f d' _ _ Hf Htype). by destruct f.
  - cbn. etrans; [|exact Hne]. f_equal. unfold field_get. rewrite <- Hg by done. rewrite <- Hf, json_obj_get.
    destruct (dict_get "encrypted_content" f) as [v|]; [|done]. by destruct v.
  - intros Hd media. cbn. rewrite Hf, (validate_get _ _ d d'), Hv by done. cbn.
    destruct (Hr Hd) as (d'' & -> & Heq). by exists d''.
Qed.

Lemma validate_envelope b1 b2 ne d :
  negb (is_null (field_get "encrypted_content" d)) = true →
  validate_native_reasoning b1 b2 d = Ok () → ∀ has_text, validate_native_reasoning ne has_text d = Ok ().
Proof.
  unfold validate_native_reasoning. intros Hn. destruct (negb (is_str _ _)); [done|].
  by destruct (field_get "encrypted_content" d).
Qed.

Lemma capture_reasoning_restores ne st d st' :
  opaque_obj d → dict_get "type" d = Some (VStr "reasoning") → capture_reasoning ne true st d = Ok st' → c_portable_only st' = false →
  c_portable_only st = false ∧ ∃ p, c_parts st' = (c_parts st ++ [p])%list ∧ restores ne d p.
Proof.
  intros Ho Htype. unfold capture_reasoning. destruct (negb (is_null (field_get "encrypted_content" d))) eqn:Henc.
  - destruct (validate_native_reasoning true true d) as [[]|] eqn:Hv; cbn; [|done].
    destruct (capture_summary d) as [[text d']|] eqn:Hs; cbn; [|done].
    apply capture_summary_restores in Hs as (Ho' & Hg & Hr); [|done].
    intros Hk Hp. apply keep_part_native in Hk as (Hst & f & -> & Hf); [|done..]. split; [done|]. eexists. split; [done|].
    apply (reasoning_restores ne d d'); try done; [by eapply validate_envelope|].
    apply negb_true_iff in Henc. rewrite Henc. by destruct ne.
  - cbn. destruct (capture_summary d) as [[text d']|] eqn:Hs; cbn; [|done].
    apply capture_summary_restores in Hs as (Ho' & Hg & Hr); [|done].
    destruct (ne || String.eqb text "") eqn:Hb; [by intros [= <-]|].
    intros Hk Hp. apply keep_part_native in Hk as (Hst & f & -> & Hf); [|done..]. split; [done|]. eexists. split; [done|].
    apply orb_false_iff in Hb as [-> Ht]. apply (reasoning_restores false d d'); try done.
    unfold validate_native_reasoning, field_get in *. rewrite Htype. cbn. rewrite Ht.
    by destruct (dict_get "encrypted_content" d) as [[]|].
Qed.

(** ** Turns *)

(** The content of a supported message is text blocks. *)
Lemma opaque_type item s : response_item_type item = Some s → ∀ d, opaque_item item = VDict d → dict_get "type" d = Some (VStr s).
Proof.
  destruct item as [| | | | | | |d0]; try done. intros Ht d [= <-]. revert Ht. unfold response_item_type, field.
  induction d0 as [|[k v] d0 IH]; cbn; [done|]. case_decide; [|done]. by destruct v; intros [= ->].
Qed.

Lemma supported_blocks item d blocks :
  opaque_item item = VDict d → response_item_type item = Some "message" → unsupported_item item = Ok [] →
  dict_get "content" d = Some (VList blocks) → output_texts blocks.
Proof.
  intros Hd Ht Hu Hc. unfold unsupported_item in Hu. rewrite Ht in Hu. cbn in Hu.
  destruct item as [| | | | | | |d0]; try done. cbn [field] in Hu. injection Hd as <-.
  assert (dict_get "content" ((λ kv, (kv.1, opaque_item kv.2)) <$> d0) = opaque_item <$> dict_get "content" d0) as Hg.
  { clear. induction d0 as [|[k v] d0 IH]; cbn; [done|]. by case_decide. }
  rewrite Hg in Hc. destruct (dict_get "content" d0) as [[| | | | |content| |]|]; try done. cbn in Hc. injection Hc as <-.
  destruct (map_result unsupported_block content) as [kinds|] eqn:Hk; cbn in Hu; [|done]. injection Hu as Hu.
  apply map_result_ok in Hk. clear -Hk Hu. unfold output_texts.
  induction Hk as [|b k content kinds Hb _ IH]; cbn; [constructor|]. cbn in Hu. apply app_eq_nil in Hu as [-> Hu].
  constructor; [|by apply IH]. intros d Hd. apply (opaque_type b); [|done]. destruct b; try done. cbn in Hb.
  destruct (response_item_type (VDict d0)) as [s|]; cbn in Hb; case_bool_decide; naive_solver.
Qed.

Lemma capture_item_restores ne st item st' :
  unsupported_item item = Ok [] → capture_item ne true false st item = Ok st' → c_portable_only st' = false →
  c_portable_only st = false ∧
  ∃ d p, opaque_item item = VDict d ∧ c_parts st' = (c_parts st ++ [p])%list ∧ restores ne d p.
Proof.
  intros Hu. unfold capture_item. destruct (opaque_item item) as [| | | | | | |d] eqn:Hd; try done.
  pose proof (opaque_item_obj _ _ Hd) as Ho. unfold field_get at 1.
  destruct (dict_get "type" d) as [[| | | |kind| | |]|] eqn:Htype; try done. cbn [from_option id].
  assert (Hkind : response_item_type item = Some kind).
  { destruct item as [| | | | | | |d0]; try done. injection Hd as <-. revert Htype. clear. unfold response_item_type, field.
    induction d0 as [|[k v] d0 IH]; cbn; [done|]. case_decide; [|done]. by destruct v; intros [= ->]. }
  intros Hc Hp. cut (c_portable_only st = false ∧ ∃ p, c_parts st' = (c_parts st ++ [p])%list ∧ restores ne d p).
  { intros (Hst & p & Hparts & Hr). split; [done|]. by exists d, p. }
  unfold unsupported_item in Hu. rewrite Hkind in Hu. destruct (String.eqb_spec kind "message") as [Hm|_].
  { subst kind. eapply capture_message_restores; [exact Htype| |exact Ho|exact Hc|exact Hp].
    intros blocks. apply (supported_blocks item d blocks Hd Hkind). unfold unsupported_item. by rewrite Hkind. }
  destruct (String.eqb_spec kind "function_call") as [Hm|_]; [by eapply capture_call_restores|].
  destruct (String.eqb_spec kind "reasoning") as [Hm|_]; [subst kind; by eapply capture_reasoning_restores|]. done.
Qed.

Lemma capture_items_restore ne output st st' :
  Forall (λ item, unsupported_item item = Ok []) output →
  capture_items ne true false st output = Ok st' → c_portable_only st' = false →
  c_portable_only st = false ∧
  ∃ ps, c_parts st' = (c_parts st ++ ps)%list ∧
    Forall2 (λ item p, ∃ d, opaque_item item = VDict d ∧ restores ne d p) output ps.
Proof.
  intros Hu. revert st. induction Hu as [|item output Hi _ IH]; intros st; cbn.
  - intros [= <-] Hp. split; [done|]. exists []. by rewrite app_nil_r.
  - destruct (capture_item _ _ _ _ _) as [st1|] eqn:Hc; cbn; [|done]. intros Hs Hp.
    destruct (IH st1 Hs Hp) as (Hp1 & ps & Hps & Hf).
    apply capture_item_restores in Hc as (Hst & d & p & Hd & H1 & Hr); [|done..].
    split; [done|]. exists (p :: ps). rewrite Hps, H1, <- app_assoc. split; [done|]. constructor; eauto.
Qed.

(** An unknown provider leaves no native state. *)
Definition bare (p : replay_part) : Prop := native_of p = None.

Lemma capture_item_bare ne refused st item st' :
  capture_item ne false refused st item = Ok st' → Forall bare (c_parts st) → Forall bare (c_parts st').
Proof.
  unfold capture_item, capture_message, capture_call, capture_reasoning, keep_part, result_bind. intros H Hst.
  repeat (break_match; cbn in *; simplify_eq; try done); cbn; apply Forall_app; by repeat constructor.
Qed.

Lemma capture_items_bare ne refused output st st' :
  capture_items ne false refused st output = Ok st' → Forall bare (c_parts st) → Forall bare (c_parts st').
Proof.
  revert st. induction output as [|item output IH]; intros st; cbn; [by intros [= <-]|].
  destruct (capture_item _ _ _ _ _) as [st1|] eqn:Hc; cbn; [|done]. intros Hs Hst.
  eapply IH; [exact Hs|]. by eapply capture_item_bare.
Qed.

Lemma bare_no_native ps : Forall bare ps → existsb has_native ps = false.
Proof. unfold bare. induction 1 as [|p ps Hp _ IH]; [done|]. cbn. unfold has_native at 1. by rewrite Hp. Qed.

Lemma supported_each output : unsupported_responses_parts output = Ok [] → Forall (λ item, unsupported_item item = Ok []) output.
Proof.
  unfold unsupported_responses_parts. destruct (map_result unsupported_item output) as [kinds|] eqn:Hk; cbn; [|done].
  intros [= Hc]. apply map_result_ok in Hk. induction Hk as [|item k output kinds Hi _ IH]; [by constructor|].
  cbn in Hc. apply app_eq_nil in Hc as [-> Hc]. constructor; [done|by apply IH].
Qed.

Lemma capture_items_portable ne supported refused output st st' :
  capture_items ne supported refused st output = Ok st' → c_portable_only st = true → c_portable_only st' = true.
Proof.
  revert st. induction output as [|item output IH]; intros st; cbn; [by intros [= <-]|].
  destruct (capture_item _ _ _ _ _) as [st1|] eqn:Hc; cbn; [|done]. intros Hs Hst. apply (IH st1 Hs). revert Hc.
  unfold capture_item, capture_message, capture_call, capture_reasoning, keep_part, result_bind. rewrite Hst, andb_false_r.
  intros H. by repeat (break_match; cbn in *; simplify_eq; try done).
Qed.

(** A turn with native state: the provider is a native one, and every item of
    the output is restored from its part. *)
Lemma native_turn ne scope output t :
  response_from_output ne scope output = Ok t → replay_scope t ≠ None →
  replay_scope t = scope ∧ (∃ provider, scope_provider scope = Ok provider ∧ native_provider provider = true) ∧
  Forall2 (λ item p, ∃ d, opaque_item item = VDict d ∧ restores ne d p) output (parts t).
Proof.
  unfold response_from_output, capture_parts.
  destruct (unsupported_responses_parts output) as [unsupported|] eqn:Hu; cbn; [|done].
  destruct (scope_provider scope) as [provider|] eqn:Hp; cbn; [|done].
  destruct (capture_items _ _ _ _ _) as [st|] eqn:Hc; cbn; [|done]. destruct (c_portable_only st) eqn:Hport.
  - destruct (_ && _); cbn; [done|]. intros [= <-]. cbn. rewrite bare_no_native; [done|].
    apply Forall_fmap, Forall_true. by intros [].
  - destruct (_ && _); cbn; [done|]. intros [= <-]. cbn. destruct (existsb has_native (c_parts st)) eqn:Hn; [|done]. intros Hs.
    split; [done|]. destruct (native_provider provider) eqn:Hprov.
    2: { apply capture_items_bare in Hc; [|constructor]. by rewrite bare_no_native in Hn. }
    split; [by exists provider|]. case_bool_decide as Hun; cbn in Hc.
    + apply capture_items_restore in Hc as (_ & ps & -> & Hps); [done|subst; by apply supported_each|done].
    + apply capture_items_portable in Hc; [congruence|done].
Qed.

Lemma projected_parts media ne output ps :
  Forall2 (λ item p, ∃ d, opaque_item item = VDict d ∧ restores ne d p) output ps → Forall provider_item output →
  ∃ items, map_result (project_part (check_replayed_native_media media "responses") ne true) ps = Ok ((λ d, [d]) <$> items) ∧
    Forall2 (λ item d, veq (opaque_item item) (VDict d)) output items.
Proof.
  intros H Hitems. induction H as [|item p output ps (d & Hd & _ & _ & Hr) _ IH]; [by exists []|].
  apply Forall_cons in Hitems as [Hitem Hitems]. destruct (Hr (Hitem d Hd) media) as (d' & Hp & Heq).
  destruct (IH Hitems) as (items & Hps & Hall). exists (d' :: items). cbn. rewrite Hp, Hps. split; [done|].
  constructor; [by rewrite Hd|done].
Qed.

Lemma concat_singletons {A} (l : list A) : concat ((λ x, [x]) <$> l) = l.
Proof. induction l as [|x l IH]; [done|]. cbn. by f_equal. Qed.

Lemma captured_replays ne scope output t media :
  response_from_output ne scope output = Ok t → replay_scope t ≠ None → Forall provider_item output →
  ∃ items, project_turn media ne scope t = Ok items ∧ Forall2 (λ item d, veq (opaque_item item) (VDict d)) output items.
Proof.
  intros Ht Hs Hitems. destruct (native_turn _ _ _ _ Ht Hs) as (Hscope & (provider & Hp & Hn) & Hps).
  destruct (projected_parts media ne output (parts t) Hps Hitems) as (items & Hm & Hall). exists items. split; [|done].
  unfold project_turn. rewrite Hscope in Hs |- *. rewrite !bool_decide_false, bool_decide_true by done. cbn [negb andb].
  rewrite Hp. cbn [result_bind]. rewrite Hn. cbn [result_bind].
  assert (Hl : ne && existsb lacks_envelope (parts t) = false).
  { clear -Hps. destruct ne; [|done]. induction Hps as [|item p output ps (d & _ & _ & Hr & _) _ IH]; [done|].
    cbn in *. by rewrite Hr. }
  rewrite Hl. cbn [negb]. rewrite Hm. cbn. by rewrite concat_singletons.
Qed.

(** ** Which outputs are captured *)

(** Every float is finite. *)
Fixpoint finite_json (v : pyval) : bool :=
  match v with
  | VFloat f => is_finite f
  | VList l | VTuple l => forallb finite_json l
  | VDict d => forallb (λ kv, finite_json kv.2) d
  | _ => true
  end.

Lemma map_result_is_ok {A B} (f : A → result B) p l :
  Forall (λ x, p x = true → is_ok (f x) = true) l → forallb p l = true → is_ok (map_result f l) = true.
Proof.
  induction 1 as [|x l Hx _ IH]; [done|]. cbn. intros [Hp Hl]%andb_true_iff. specialize (Hx Hp). specialize (IH Hl).
  destruct (f x); [|done]. cbn. by destruct (map_result f l).
Qed.

Lemma finite_freeze v : finite_json v = true → is_ok (freeze v) = true.
Proof.
  induction v using pyval_ind'; cbn; try done.
  - by intros ->.
  - intros Hf%(map_result_is_ok freeze _ _ H). by destruct (map_result freeze l).
  - intros Hf%(map_result_is_ok freeze _ _ H). by destruct (map_result freeze l).
  - intros Hf. assert (Hm : is_ok (map_result (λ kv, let! x := freeze kv.2 in Ok (kv.1, x)) d) = true);
      [|by destruct (map_result _ d)].
    eapply map_result_is_ok; [|exact Hf]. eapply Forall_impl; [exact H|]. intros [k v] Hv Hfin. cbn in *.
    specialize (Hv Hfin). by destruct (freeze v).
Qed.

Definition finite_obj (d : obj) : Prop := Forall (λ kv, finite_json kv.2 = true) d.

Lemma finite_obj_json d : finite_obj d ↔ finite_json (VDict d) = true.
Proof.
  unfold finite_obj. cbn. induction d as [|[k v] d IH]; [by split; [|constructor]|].
  rewrite Forall_cons, IH. cbn [forallb]. by rewrite andb_true_iff.
Qed.

Lemma finite_freeze_obj d : finite_obj d → ∃ f, freeze_obj d = Ok f ∧ length f = length d.
Proof.
  intros Hd. assert (Hm : is_ok (freeze_obj d) = true).
  { apply (map_result_is_ok _ (λ kv, finite_json kv.2)).
    - apply Forall_true. intros [k v] Hv. cbn in *. apply finite_freeze in Hv. by destruct (freeze v).
    - by apply finite_obj_json in Hd. }
  destruct (freeze_obj d) as [f|] eqn:Hf; [|done]. exists f. split; [done|].
  apply map_result_ok, Forall2_length in Hf. done.
Qed.

Lemma finite_obj_set k v d : finite_json v = true → finite_obj d → finite_obj (dict_set k v d).
Proof. exact (Forall_dict_set (λ v, finite_json v = true) k v d). Qed.

Lemma finite_obj_del k d : finite_obj d → finite_obj (dict_del k d).
Proof. exact (Forall_dict_del (λ v, finite_json v = true) k d). Qed.

Lemma finite_get k d v : finite_obj d → dict_get k d = Some v → finite_json v = true.
Proof. unfold finite_obj. rewrite Forall_forall. intros H Hk%dict_get_Some_elem. exact (H _ Hk). Qed.

(** ** The outputs that are captured with native state

    An item, with the ids of its call: a message of text blocks, a function
    call, reasoning with its encrypted envelope, or, on a route that returns
    no envelopes, reasoning with a summary. *)
Definition text_blocks_only (blocks : list pyval) : Prop :=
  Forall (λ b, ∃ d text, b = VDict d ∧ dict_get "text" d = Some (VStr text)) blocks.

Definition summary_ok (d : obj) : Prop :=
  match dict_get "summary" d with
  | None | Some (VStr _) => True
  | Some (VList blocks) => text_blocks_only blocks
  | Some _ => False
  end.

Inductive replayable (ne : bool) : obj → list string → Prop :=
  | replayable_message d blocks :
      dict_get "type" d = Some (VStr "message") → dict_get "content" d = Some (VList blocks) → text_blocks_only blocks →
      Forall (λ b, response_item_type b = Some "output_text") blocks → replayable ne d []
  | replayable_call d id name arguments :
      dict_get "type" d = Some (VStr "function_call") → dict_get "call_id" d = Some (VStr id) → id ≠ "" →
      dict_get "name" d = Some (VStr name) → dict_get "arguments" d = Some (VStr arguments) → replayable ne d [id]
  | replayable_envelope d s :
      dict_get "type" d = Some (VStr "reasoning") → dict_get "encrypted_content" d = Some (VStr s) → s ≠ "" → summary_ok d →
      replayable ne d []
  | replayable_summary d text d' :
      ne = false → dict_get "type" d = Some (VStr "reasoning") → field_get "encrypted_content" d = VNone →
      capture_summary d = Ok (text, d') → text ≠ "" → replayable ne d [].

Lemma keep_part_ok st native p :
  finite_obj native → native ≠ [] → c_portable_only st = false →
  ∃ f, keep_part true st native p = Ok (mk_capture (c_parts st ++ [with_native (Some f) p])%list (c_ids st) false) ∧ f ≠ [].
Proof.
  intros Hf Hne Hst. unfold keep_part. rewrite Hst. cbn [negb andb]. destruct (finite_freeze_obj native Hf) as (f & -> & Hlen).
  exists f. split; [done|]. intros ->. destruct native; done.
Qed.

Lemma capture_blocks_ok sep blocks :
  text_blocks_only blocks → forallb finite_json blocks = true →
  ∃ text blocks', capture_text sep blocks = Ok (text, blocks') ∧ forallb finite_json blocks' = true.
Proof.
  intros Hb Hfin. unfold capture_text.
  assert (Hm : ∃ captured, map_result capture_block blocks = Ok captured ∧ forallb finite_json (captured.*2) = true).
  { induction Hb as [|b blocks (d & text & -> & Ht) _ IH]; [by exists []|]. cbn in Hfin.
    apply andb_true_iff in Hfin as [Hd Hfin]. destruct (IH Hfin) as (captured & Hc & Hfin'). cbn. unfold field_get. rewrite Ht. cbn.
    rewrite Hc. cbn. eexists. split; [done|]. cbn. rewrite Hfin', andb_true_r.
    apply finite_obj_json, finite_obj_set; [done|]. by apply finite_obj_del, finite_obj_json. }
  destruct Hm as (captured & -> & Hc). by exists (String.concat sep (captured.*1)), (captured.*2).
Qed.

Lemma capture_summary_ok d : summary_ok d → finite_obj d → ∃ text d', capture_summary d = Ok (text, d') ∧ finite_obj d'.
Proof.
  unfold summary_ok, capture_summary. intros Hs Hf. destruct (dict_get "summary" d) as [[| | | |s|blocks| |]|] eqn:Hd; try done.
  - eexists _, _. split; [done|]. by apply finite_obj_set.
  - destruct (capture_blocks_ok newline blocks Hs) as (text & blocks' & -> & Hb); [exact (finite_get _ _ _ Hf Hd)|].
    eexists _, _. split; [done|]. by apply finite_obj_set.
  - by eexists _, _.
Qed.

Lemma capture_summary_finite d text d' : capture_summary d = Ok (text, d') → finite_obj d → finite_obj d'.
Proof.
  intros Hc Hf. assert (Hs : summary_ok d).
  { unfold capture_summary, summary_ok in *. destruct (dict_get "summary" d) as [[| | | |s|blocks| |]|] eqn:Hd; try done.
    destruct (capture_text newline blocks) as [[t blocks']|] eqn:Ht; [|done]. apply capture_text_spec in Ht as (tds & [-> Htds] & _).
    apply Forall_fmap. eapply Forall_impl; [exact Htds|]. intros [t' d0] H. cbn in *. by exists d0, t'. }
  destruct (capture_summary_ok d Hs Hf) as (text2 & d2 & Hc2 & Hd2). rewrite Hc in Hc2. by injection Hc2 as <- <-.
Qed.

(** A part captured with its native state. *)
Definition captured_natively (p : replay_part) : Prop := has_native p = true ∧ call_without_id p = false.

Lemma dict_get_not_nil (d : obj) k v : dict_get k d = Some v → d ≠ [].
Proof. by intros H ->. Qed.

Lemma replayable_captured ne st d ids :
  replayable ne d ids → opaque_obj d → finite_obj d → c_portable_only st = false → Forall (λ id, id ∉ c_ids st) ids →
  ∃ p, capture_item ne true false st (VDict d) = Ok (mk_capture (c_parts st ++ [p])%list (list_to_set ids ∪ c_ids st) false) ∧
    captured_natively p.
Proof.
  intros Hr Ho Hf Hst Hids. unfold capture_item. rewrite Ho.
  assert (Hempty : list_to_set [] ∪ c_ids st = c_ids st) by set_solver.
  inversion Hr as [d' blocks Htype Hc Hb Hk|d' cid name arguments Htype Hid Hne Hname Hargs|d' s Htype Henc Hne Hs|d' text d2 -> Htype Henc Hs Hne]; subst;
    unfold field_get at 1; rewrite Htype; cbn [from_option id String.eqb Ascii.eqb Bool.eqb].
  - unfold capture_message, field_get. rewrite Hc. cbn [from_option id result_bind].
    destruct (capture_blocks_ok "" blocks Hb (finite_get _ _ _ Hf Hc)) as (text & blocks' & -> & Hb'). cbn [result_bind fst snd].
    destruct (keep_part_ok st (dict_set "content" (VList blocks') d) (AssistantText None text)) as (f & -> & Hnf);
      [by apply finite_obj_set|eapply dict_get_not_nil, dict_get_set_eq|done|].
    rewrite Hempty. eexists. split; [done|]. by destruct f.
  - unfold capture_call, field_get. rewrite Hid. cbn [from_option id]. inversion_clear Hids.
    rewrite (bool_decide_false (cid ∈ c_ids st)), andb_false_r by done. rewrite Hname, Hargs. cbn [from_option id].
    destruct (keep_part_ok (mk_capture (c_parts st) ({[cid]} ∪ c_ids st) (c_portable_only st))
      (dict_del "arguments" (dict_del "name" (dict_del "call_id" d))) (ToolCall None cid name arguments)) as (f & -> & Hnf);
      [by repeat apply finite_obj_del| |done|].
    { apply (dict_get_not_nil _ "type" (VStr "function_call")). by rewrite !dict_get_del_ne. }
    cbn [c_parts c_ids]. eexists. split; [do 2 f_equal; set_solver|]. split; [by destruct f|]. cbn. by apply String.eqb_neq.
  - unfold capture_reasoning, field_get. rewrite Henc. cbn [from_option id is_null negb].
    unfold validate_native_reasoning, field_get. rewrite Htype, Henc. cbn [from_option id is_str String.eqb Ascii.eqb Bool.eqb negb].
    rewrite (proj2 (String.eqb_neq s "")) by done. cbn [result_bind].
    destruct (capture_summary_ok d Hs Hf) as (text & d2 & Hc & Hf2). rewrite Hc. cbn [result_bind fst snd andb].
    destruct (keep_part_ok st d2 (AssistantReasoning None text)) as (f & -> & Hnf); [done| |done|].
    { apply capture_summary_restores in Hc as (_ & Hg & _); [|done].
      apply (dict_get_not_nil _ "type" (VStr "reasoning")). by rewrite Hg. }
    rewrite Hempty. eexists. split; [done|]. by destruct f.
  - unfold capture_reasoning. rewrite Henc, Hs. cbn [is_null negb result_bind fst snd andb orb].
    rewrite (proj2 (String.eqb_neq text "")) by done.
    destruct (keep_part_ok st d2 (AssistantReasoning None text)) as (f & -> & Hnf); [by eapply capture_summary_finite| |done|].
    { apply capture_summary_restores in Hs as (_ & Hg & _); [|done].
      apply (dict_get_not_nil _ "type" (VStr "reasoning")). by rewrite Hg. }
    rewrite Hempty. eexists. split; [done|]. by destruct f.
Qed.

(** The ids of the calls of an output. *)
Inductive replayable_output (ne : bool) : list pyval → list string → Prop :=
  | replayable_nil : replayable_output ne [] []
  | replayable_cons d ids output ids' :
      replayable ne d ids → opaque_obj d → finite_obj d → replayable_output ne output ids' →
      replayable_output ne (VDict d :: output) (ids ++ ids')%list.

Lemma replayable_items ne output ids st :
  replayable_output ne output ids → NoDup ids → Forall (λ id, id ∉ c_ids st) ids → c_portable_only st = false →
  Forall captured_natively (c_parts st) →
  ∃ st', capture_items ne true false st output = Ok st' ∧ c_portable_only st' = false ∧
    Forall captured_natively (c_parts st') ∧ length (c_parts st') = length (c_parts st) + length output.
Proof.
  intros Hr. revert st. induction Hr as [|d ids output ids' Hd Ho Hf _ IH]; intros st Hnd Hids Hst Hps; [by exists st|].
  apply NoDup_app in Hnd as (_ & Hdis & Hnd'). apply Forall_app in Hids as [Hids Hids'].
  destruct (replayable_captured ne st d ids Hd Ho Hf Hst Hids) as (p & Hc & Hp). cbn [capture_items]. rewrite Hc. cbn [result_bind].
  destruct (IH (mk_capture (c_parts st ++ [p])%list (list_to_set ids ∪ c_ids st) false)) as (st' & Hs & Hp' & Hall & Hlen); [done| |done| |].
  - rewrite Forall_forall in Hids' |- *. cbn. intros x Hx. specialize (Hids' x Hx). specialize (Hdis x). set_solver.
  - apply Forall_app. split; [done|by constructor].
  - exists st'. split_and!; [done..|]. rewrite Hlen. cbn. rewrite length_app. cbn. lia.
Qed.

Lemma replayable_supported ne output ids : replayable_output ne output ids → unsupported_responses_parts output = Ok [].
Proof.
  assert (Hm : ∀ output ids, replayable_output ne output ids → ∃ n, map_result unsupported_item output = Ok (replicate n [])).
  { induction 1 as [|d ids' output' ids'' Hd _ _ _ [n Hn]]; [by exists 0|]. exists (S n). cbn [map_result].
    assert (unsupported_item (VDict d) = Ok []) as ->; [|cbn; by rewrite Hn].
    unfold unsupported_item, response_item_type, field. inversion Hd as [? blocks Htype Hc Hb Hk|? ? ? ? Htype|? ? Htype|? ? ? ? Htype]; subst; rewrite Htype; try done.
    cbn. rewrite Hc. assert (Hu : ∃ m, map_result unsupported_block blocks = Ok (replicate m [])).
    { clear -Hb Hk. induction Hb as [|b blocks (d & t & -> & Ht) _ IH]; [by exists 0|]. inversion Hk; subst.
      destruct IH as [m Hm]; [done|]. exists (S m). cbn. rewrite H1. cbn. by rewrite Hm. }
    destruct Hu as [m ->]. cbn. f_equal. clear. by induction m. }
  intros (n & Hn)%Hm. unfold unsupported_responses_parts. rewrite Hn. cbn. f_equal. clear. by induction n.
Qed.

(** Such an output becomes a turn with native state. *)
Lemma replayable_turn ne scope provider output ids :
  scope_provider scope = Ok provider → native_provider provider = true → replayable_output ne output ids → NoDup ids → output ≠ [] →
  ∃ t, response_from_output ne scope output = Ok t ∧ replay_scope t = scope ∧ length (parts t) = length output.
Proof.
  intros Hscope Hprov Hr Hnd Hne. unfold response_from_output, capture_parts.
  rewrite (replayable_supported _ _ _ Hr), Hscope. cbn [result_bind]. rewrite Hprov. cbn [bool_decide].
  rewrite bool_decide_true by done. cbn [negb].
  destruct (replayable_items ne output ids (mk_capture [] ∅ false) Hr Hnd) as (st & -> & Hp & Hall & Hlen); [|done|by constructor|].
  { apply Forall_true. intros x. cbn. set_solver. }
  cbn [result_bind]. rewrite Hp.
  assert (Hid : existsb call_without_id (c_parts st) = false).
  { clear -Hall. induction Hall as [|p ps [_ Hp] _ IH]; [done|]. cbn. by rewrite Hp. }
  rewrite Hid. cbn [andb result_bind]. eexists. split; [done|]. cbn [parts replay_scope]. split; [|done].
  destruct (c_parts st) as [|p ps]; [by destruct output|]. inversion Hall as [|? ? [Hn _] _]; subst. cbn. by rewrite Hn.
Qed.

(** C30.  Every output of a native provider that is made of messages of text
    blocks, function calls and reasoning with its envelope (or, on a route
    without envelopes, with a summary) is captured, and projecting the turn
    into the same replay scope succeeds and gives back the output item by item
    and in order: the same JSON up to the order of keys, whatever further
    fields it has, and whatever media the call may send.  The calls have
    distinct ids that are not empty, no item has a key twice or a block with
    the field [_text_length] of the archive, and no message has a field [audio]
    or [output]. *)
Theorem replay_roundtrip ne scope provider output ids media_inputs :
  scope_provider scope = Ok provider → native_provider provider = true →
  replayable_output ne output ids → NoDup ids → output ≠ [] → Forall provider_item output →
  ∃ t items, response_from_output ne scope output = Ok t ∧ project_turn media_inputs ne scope t = Ok items ∧
    Forall2 (λ item d, veq (opaque_item item) (VDict d)) output items.
Proof.
  intros Hscope Hprov Hr Hnd Hne Hitems.
  destruct (replayable_turn ne scope provider output ids Hscope Hprov Hr Hnd Hne) as (t & Ht & Hs & _).
  assert (Hsome : replay_scope t ≠ None).
  { rewrite Hs. intros ->. injection Hscope as <-. by vm_compute in Hprov. }
  destruct (captured_replays ne scope output t media_inputs Ht Hsome Hitems) as (items & Hi & Hall). by exists t, items.
Qed.

(** ** Another route, or an edited turn *)

(** What a part is on the wire without its native state. *)
Definition public_items (p : replay_part) : list obj :=
  match p with
  | ToolCall _ id name arguments =>
      [[("type", VStr "function_call"); ("call_id", VStr id); ("name", VStr name); ("arguments", VStr arguments)]]
  | AssistantText _ text | AssistantReasoning _ text =>
      if String.eqb text "" then [] else [[("role", VStr "assistant"); ("content", VStr text)]]
  end.

Lemma project_public check ne ps : map_result (project_part check ne false) ps = Ok (public_items <$> ps).
Proof.
  apply map_result_ok. induction ps as [|p ps IH]; constructor; [|done]. by destruct p.
Qed.

(** C31.  The native state of a provider reaches no other route: in a scope that
    is not the turn's own, and after any edit of its parts, the projection of
    a turn succeeds and is made of its public texts and calls alone. *)
Theorem native_state_stays media_inputs ne scope t new_parts :
  (replay_scope t ≠ scope ∨ scope = None → project_turn media_inputs ne scope t = Ok (concat (public_items <$> parts t))) ∧
  project_turn media_inputs ne scope (replace_parts new_parts t) = Ok (concat (public_items <$> new_parts)).
Proof.
  assert (Hpub : ∀ t, replay_scope t ≠ scope ∨ scope = None →
    project_turn media_inputs ne scope t = Ok (concat (public_items <$> parts t))).
  { intros t' Ht. unfold project_turn.
    assert (Hc : negb (bool_decide (scope = None)) && bool_decide (replay_scope t' = scope) = false).
    { destruct Ht as [Ht| ->]; [|done]. rewrite (bool_decide_false (replay_scope t' = scope)) by done. apply andb_false_r. }
    rewrite Hc. cbn [andb result_bind]. by rewrite project_public. }
  split; [apply Hpub|]. rewrite Hpub.
  - do 2 f_equal. cbn. rewrite <- list_fmap_compose. apply list_fmap_ext. by intros i [].
  - cbn. destruct scope; [by left|by right].
Qed.

(** ** The public text *)

Lemma opaque_dict_get key (d : obj) :
  dict_get key ((λ kv, (kv.1, opaque_item kv.2)) <$> d) = opaque_item <$> dict_get key d.
Proof. induction d as [|[k v] d IH]; cbn; [done|]. by case_decide. Qed.

Lemma message_text blocks kinds text blocks' :
  map_result unsupported_block blocks = Ok kinds → concat kinds = [] →
  capture_text "" (opaque_item <$> blocks) = Ok (text, blocks') →
  text = String.concat "" (concat (output_text_of <$> blocks)).
Proof.
  intros Hk Hc (tds & [Hb Htds] & -> & _)%capture_text_spec. f_equal. apply map_result_ok in Hk.
  revert tds Hb Htds. induction Hk as [|b k blocks kinds Hbk _ IH]; intros [|[t d] tds] Hb Htds; try done.
  cbn in Hc, Hb. apply app_eq_nil in Hc as [-> Hc]. injection Hb as Hb Hbs. apply Forall_cons in Htds as [Ht Htds]. cbn in Ht.
  destruct b as [| | | | | | |d0]; try done. cbn [opaque_item] in Hb. injection Hb as <-. rewrite opaque_dict_get in Ht.
  cbn in Hbk. case_bool_decide as Hkind; [|done]. cbn. rewrite (IH Hc tds Hbs Htds).
  unfold output_text_of, field. unfold response_item_type, field in *.
  destruct (dict_get "text" d0) as [v|]; [|done]. destruct v; try done. injection Ht as ->.
  destruct (dict_get "type" d0) as [[| | | |kind| | |]|]; try done. cbn in Hkind. by subst.
Qed.

Lemma keep_part_text supported st native p st' :
  keep_part supported st native p = Ok st' → ∃ p', c_parts st' = (c_parts st ++ [p'])%list ∧ text_of p' = text_of p.
Proof.
  unfold keep_part. destruct (_ && _); cbn.
  - destruct (freeze_obj native) as [f|]; cbn; [|done]. intros [= <-]. eexists. split; [done|]. by destruct p.
  - intros [= <-]. by exists p.
Qed.

Lemma item_type item d : opaque_item item = VDict d → response_item_type item = match dict_get "type" d with Some (VStr s) => Some s | _ => None end.
Proof.
  destruct item as [| | | | | | |d0]; try done. cbn [opaque_item]. intros [= <-]. unfold response_item_type, field.
  rewrite opaque_dict_get. by destruct (dict_get "type" d0) as [[]|].
Qed.

Lemma capture_item_text ne supported st item st' :
  unsupported_item item = Ok [] → capture_item ne supported false st item = Ok st' →
  ∃ p, c_parts st' = (c_parts st ++ [p])%list ∧ text_of p = (if is_message item then [responses_message_text item] else []).
Proof.
  intros Hu. unfold capture_item. destruct (opaque_item item) as [| | | | | | |d] eqn:Hd; try done.
  pose proof (item_type item d Hd) as Hkind. unfold field_get at 1.
  destruct (dict_get "type" d) as [[| | | |kind| | |]|] eqn:Htype; try done. cbn [from_option id].
  unfold unsupported_item in Hu. unfold is_message. rewrite Hkind in Hu |- *.
  destruct (String.eqb_spec kind "message") as [Hm|Hnm].
  - subst kind. destruct item as [| | | | | | |d0]; try done. cbn [opaque_item] in Hd. injection Hd as <-.
    unfold capture_message, field_get. rewrite opaque_dict_get. cbn [field] in Hu.
    destruct (dict_get "content" d0) as [[| | | | |blocks| |]|] eqn:Hc; try done.
    destruct (map_result unsupported_block blocks) as [kinds|] eqn:Hk; cbn in Hu; [|done]. injection Hu as Hu.
    cbn [fmap option_fmap option_map opaque_item from_option id result_bind].
    destruct (capture_text "" _) as [[text blocks']|] eqn:Ht; cbn [result_bind fst snd]; [|done].
    intros (p & -> & Hp)%keep_part_text. exists p. split; [done|]. rewrite Hp, bool_decide_true by done.
    unfold responses_message_text, field. rewrite Hc. cbn. f_equal. by eapply message_text.
  - rewrite bool_decide_false by congruence. destruct (String.eqb kind "function_call").
    + unfold capture_call. destruct (field_get "call_id" d); try done. destruct (_ && _); [done|].
      destruct (field_get "name" d); try done. destruct (field_get "arguments" d); try done. intros H%keep_part_text; exact H.
    + destruct (String.eqb kind "reasoning"); [|done]. unfold capture_reasoning, result_bind. intros H.
      repeat (break_match; simplify_eq/=; try done); first [by eexists | by eapply keep_part_text in H].
Qed.

(** The content of a captured turn is the text that the SDK aggregates
    from the messages of the output: what is taken apart into parts and
    native state shows the same text. *)
Theorem content_is_output_text ne scope output t :
  unsupported_responses_parts output = Ok [] → response_from_output ne scope output = Ok t →
  turn_content t = responses_output_text output.
Proof.
  intros Hu. unfold response_from_output, capture_parts. rewrite Hu. cbn [result_bind].
  destruct (scope_provider scope) as [provider|]; cbn [result_bind]; [|done]. rewrite bool_decide_true by done. cbn [negb andb].
  destruct (capture_items _ _ _ _ _) as [st|] eqn:Hc; cbn [result_bind]; [|done].
  assert (Htext : concat (text_of <$> c_parts st) = responses_message_text <$> base.filter is_message output).
  { apply supported_each in Hu. clear -Hu Hc.
    enough (Hg : ∀ st0, capture_items ne (native_provider provider) false st0 output = Ok st →
      concat (text_of <$> c_parts st) = (concat (text_of <$> c_parts st0) ++ (responses_message_text <$> base.filter is_message output))%list)
      by (by apply Hg in Hc).
    clear Hc. induction Hu as [|item output Hi _ IH]; intros st0; cbn [capture_items].
    - intros [= ->]. by rewrite app_nil_r.
    - destruct (capture_item _ _ _ _ _) as [st1|] eqn:Hs; cbn [result_bind]; [|done]. intros Hrest. rewrite (IH st1 Hrest).
      apply capture_item_text in Hs as (p & -> & Hp); [|done]. rewrite fmap_app, concat_app, <- app_assoc. f_equal. cbn. rewrite Hp, app_nil_r.
      by destruct (is_message item). }
  unfold responses_output_text. rewrite <- Htext. destruct (c_portable_only st).
  - intros [= <-]. unfold turn_content. cbn. do 2 f_equal. rewrite <- list_fmap_compose. apply list_fmap_ext. by intros i [].
  - destruct (_ && _); cbn; [done|]. by intros [= <-].
Qed.

(** ** An output with all kinds of items *)

Definition demo_scope : option string := Some "responses:openai:sha256:00".
Definition demo_reasoning : obj :=
  [("id", VStr "rs_1"); ("type", VStr "reasoning");
   ("summary", VList [VDict [("type", VStr "summary_text"); ("text", VStr "First")]; VDict [("text", VStr "then"); ("type", VStr "summary_text")]]);
   ("encrypted_content", VStr "gAAAA")].
Definition demo_message : obj :=
  [("type", VStr "message"); ("phase", VStr "commentary"); ("role", VStr "assistant");
   ("content", VList [VDict [("type", VStr "output_text"); ("text", VStr "I will "); ("annotations", VList [])];
                      VDict [("type", VStr "output_text"); ("text", VStr "look.")]])].
Definition demo_call : obj :=
  [("type", VStr "function_call"); ("status", VStr "completed"); ("name", VStr "look"); ("call_id", VStr "c1"); ("arguments", VStr "{}")].
Definition demo_output : list pyval := [VDict demo_reasoning; VDict demo_message; VDict demo_call].

(** A client that may send images. *)
Definition demo_media : option (list string) := Some ["image"].

Example demo_public :
  (let! t := response_from_output true demo_scope demo_output in Ok (turn_content t, reasoning t, length (tool_calls t))) =
  Ok ("I will look.", Some ("First" +:+ newline +:+ "then"), 1).
Proof. vm_compute. reflexivity. Qed.

Lemma demo_replayable : replayable_output true demo_output ["c1"].
Proof.
  apply (replayable_cons true demo_reasoning [] _ ["c1"]).
  { by apply (replayable_envelope true _ "gAAAA"); [..|repeat first [apply Forall_nil_2|apply Forall_cons_2; [by eexists _, _|]]]. }
  1: reflexivity.
  { apply finite_obj_json. reflexivity. }
  apply (replayable_cons true demo_message [] _ ["c1"]).
  { eapply replayable_message; [reflexivity..|repeat first [apply Forall_nil_2|apply Forall_cons_2; [by eexists _, _|]]|].
    by repeat constructor. }
  1: reflexivity.
  { apply finite_obj_json. reflexivity. }
  apply (replayable_cons true demo_call ["c1"] [] []); [by eapply replayable_call|reflexivity|by apply finite_obj_json|constructor].
Qed.

Definition wf_provider_obj (d : obj) : bool :=
  bool_decide (dict_wf d) && negb (dict_mem "audio" d) && negb (dict_mem "output" d) &&
  forallb (λ key, match dict_get key d with
    | Some (VList blocks) =>
        forallb (λ b, match b with VDict b => bool_decide (dict_wf b) && negb (dict_mem "_text_length" b) | _ => true end) blocks
    | _ => true
    end) ["content"; "summary"].

Lemma wf_provider_obj_spec d : wf_provider_obj d = true → provider_obj d.
Proof.
  unfold wf_provider_obj. intros [[[Hwf%bool_decide_eq_true Ha]%andb_true_iff Ho]%andb_true_iff Hk]%andb_true_iff.
  apply negb_true_iff, dict_mem_false in Ha, Ho. split; [done|]. split; [intros _; split; by apply dict_get_None|]. intros key blocks block Hkey Hg Hin.
  assert (Hb := proj1 (forallb_forall _ _) Hk key). specialize (Hb ltac:(by destruct Hkey as [->| ->]; cbn; auto)). cbn in Hb.
  rewrite Hg in Hb. apply list_elem_of_In in Hin. apply (proj1 (forallb_forall _ _) Hb) in Hin. cbn in Hin.
  apply andb_true_iff in Hin as [Hw%bool_decide_eq_true Hm]. split; [done|]. apply negb_true_iff, dict_mem_false in Hm.
  by apply dict_get_None.
Qed.

Lemma demo_provider : Forall provider_item demo_output.
Proof.
  assert (Hitem : ∀ d, opaque_item (VDict d) = VDict d → wf_provider_obj d = true → provider_item (VDict d)).
  { intros d Ho Hd d'. rewrite Ho. intros [= <-]. by apply wf_provider_obj_spec. }
  apply Forall_cons_2; [by apply Hitem|]. apply Forall_cons_2; [by apply Hitem|]. apply Forall_cons_2; [by apply Hitem|].
  apply Forall_nil_2.
Qed.

Lemma replay_roundtrip_witness :
  scope_provider demo_scope = Ok (Some "openai") ∧
  ∃ t items, response_from_output true demo_scope demo_output = Ok t ∧ project_turn demo_media true demo_scope t = Ok items ∧
    Forall2 (λ item d, veq (opaque_item item) (VDict d)) demo_output items.
Proof.
  split; [reflexivity|].
  apply (replay_roundtrip true demo_scope (Some "openai") demo_output ["c1"] demo_media); try reflexivity.
  - exact demo_replayable.
  - apply (bool_decide_unpack _). vm_compute. exact I.
  - discriminate.
  - exact demo_provider.
Defined.

Lemma native_state_stays_witness :
  let t := mk_turn [AssistantReasoning (Some [("type", VStr "reasoning"); ("encrypted_content", VStr "gAAAA")]) "Think"] demo_scope in
  (replay_scope t ≠ Some "responses:azure:sha256:00" ∨ Some "responses:azure:sha256:00" = None →
     project_turn demo_media true (Some "responses:azure:sha256:00") t = Ok (concat (public_items <$> parts t))) ∧
  project_turn demo_media true (Some "responses:azure:sha256:00") (replace_parts (parts t) t) = Ok (concat (public_items <$> parts t)).
Proof. intros t. apply (native_state_stays demo_media true (Some "responses:azure:sha256:00") t (parts t)). Defined.

Lemma content_is_output_text_witness :
  unsupported_responses_parts [VDict demo_message] = Ok [] ∧
  turn_content (mk_turn [AssistantText None "I will look."] None) = responses_output_text [VDict demo_message].
Proof.
  split; [reflexivity|]. apply (content_is_output_text true None [VDict demo_message]); [reflexivity|vm_compute; reflexivity].
Defined.
