(* ===== verification/CachePolicy.v ===== *)
(** * Prompt cache boundaries

    Models [nooa/unifiedllm/cache_policy.py]: where a request is marked for
    the prompt cache of the provider. The [type] and [role] of a message or a
    block are taken to be hashable. *)

From S2P Require Import Prelude PyDict PyStr Values Replay.
Local Open Scope string_scope.
Local Open Scope nooa_scope.

(** A message list: boundaries and messages. *)
Inductive cache_entry := CacheBoundary | Message (d : obj).

Inductive mapping := MAuto | MAnthropic | MOpenAI.
#[export] Instance mapping_eq_dec : EqDecision mapping.
Proof. solve_decision. Defined.

Definition one_of (names : list string) (v : pyval) : bool :=
  match v with VStr s => bool_decide (s ∈ names) | _ => false end.

(** [reject_legacy_cache_config]. *)
Definition reject_legacy_cache_config (config : obj) : result () :=
  let inside :=
    match dict_get "extra_body" config with
    | Some (VDict extra) => dict_mem "cache_control_injection_points" extra
    | _ => false
    end in
  if dict_mem "cache_control_injection_points" config || inside then Raise ValueError else Ok ().

Definition wrap_responses_text (kind text : string) : obj := [("type", VStr kind); ("text", VStr text)].
Definition wrap_anthropic_text (text : string) : obj := [("type", VStr "text"); ("text", VStr text)].

(** The loop over the blocks of a content list from its end: the last block
    that is eligible is marked. *)
Section MarkBlock.
Context (kinds : list string) (key : string) (marker : pyval).

Fixpoint mark_last_block (index : nat) (blocks : list pyval) : option (list pyval) :=
  match index with
  | O => None
  | S index' =>
      match blocks !! index' with
      | Some (VDict block) =>
          if one_of kinds (field_get "type" block) then Some (<[index' := VDict (dict_set key marker block)]> blocks)
          else mark_last_block index' blocks
      | _ => mark_last_block index' blocks
      end
  end.
End MarkBlock.

Definition explicit_marker : pyval := VDict [("mode", VStr "explicit")].
Definition ephemeral_marker : pyval := VDict [("type", VStr "ephemeral")].
Definition responses_kinds : list string := ["input_text"; "input_image"; "input_file"].
Definition anthropic_kinds : list string := ["text"; "tool_result"; "image"; "image_url"; "document"; "file"].

(** [_mark_responses_content]: [None] where nothing is marked. *)
Definition mark_responses_content (content : pyval) : option pyval :=
  match content with
  | VStr s => Some (VList [VDict (dict_set "prompt_cache_breakpoint" explicit_marker (wrap_responses_text "input_text" s))])
  | VList blocks =>
      VList <$> mark_last_block responses_kinds "prompt_cache_breakpoint" explicit_marker (length blocks) blocks
  | _ => None
  end.

(** The body of the loop of [_mark_responses_cache_breakpoint]. *)
Definition mark_item (item : obj) : option obj :=
  if is_str "function_call_output" (field_get "type" item) then
    (λ output, dict_set "output" output item) <$> mark_responses_content (field_get "output" item)
  else if one_of ["system"; "developer"; "user"] (field_get "role" item) then
    (λ content, dict_set "content" content item) <$> mark_responses_content (field_get "content" item)
  else None.

Fixpoint mark_loop (index count : nat) (messages : list obj) : list obj * nat :=
  match index with
  | O => (messages, count)
  | S index' =>
      let '(messages, count) :=
        match item ← messages !! index'; mark_item item with
        | Some item => (<[index' := item]> messages, S count)
        | None => (messages, count)
        end in
      if (count =? 80)%nat then (messages, count) else mark_loop index' count messages
  end.

(** [_mark_responses_cache_breakpoint]. *)
Definition mark_responses_cache_breakpoint (messages : list obj) (boundary : nat) : list obj * bool :=
  let '(messages, count) := mark_loop boundary 0 messages in (messages, (0 <? count)%nat).

(** [add_session_affinity_header]. *)
Definition session_affinity_header : string := "x-session-affinity".

Definition add_session_affinity_header (api_params : obj) : result obj :=
  match field_get "prompt_cache_key" api_params with
  | VStr "" => Ok api_params
  | VStr key =>
      let! headers :=
        match field_get "extra_headers" api_params with
        | VNone => Ok []
        | VDict headers => Ok headers
        | _ => Raise ValueError
        end in
      let headers :=
        if existsb (λ name, String.eqb (lower name) session_affinity_header) (dict_keys headers) then headers
        else dict_set session_affinity_header (VStr key) headers in
      Ok (dict_set "extra_headers" (VDict headers) api_params)
  | _ => Ok api_params
  end.

(** [enable_openai_explicit_cache]. *)
Definition mapping_or_empty (v : pyval) : result obj :=
  match v with VNone => Ok [] | VDict d => Ok d | _ => Raise ValueError end.

Definition enable_openai_explicit_cache (api_params : obj) : result obj :=
  let! extra := mapping_or_empty (field_get "extra_body" api_params) in
  let! options := mapping_or_empty (field_get "prompt_cache_options" extra) in
  let extra := dict_set "prompt_cache_options" (VDict (dict_set "mode" (VStr "explicit") options)) extra in
  Ok (dict_set "extra_body" (VDict extra) api_params).

(** [_mark_anthropic]. *)
Definition mark_anthropic (message : obj) : option obj :=
  match field_get "content" message with
  | VStr "" => None
  | VStr s =>
      Some (dict_set "content" (VList [VDict (dict_set "cache_control" ephemeral_marker (wrap_anthropic_text s))]) message)
  | VList blocks =>
      (λ blocks, dict_set "content" (VList blocks) message) <$>
        mark_last_block anthropic_kinds "cache_control" ephemeral_marker (length blocks) blocks
  | _ => None
  end.

(** [reject_boundary_dict]. *)
Definition reject_boundary_dict (message : obj) : result () :=
  if dict_mem "nooa_cache_boundary" message then Raise ValueError else Ok ().

(** The first loop of [apply_cache_policy]: the messages, and the place of the
    boundary among them. *)
Fixpoint split_boundary (clean : list obj) (boundary : option nat) (messages : list cache_entry) :
    result (list obj * option nat) :=
  match messages with
  | [] => Ok (clean, boundary)
  | CacheBoundary :: messages' =>
      match boundary with
      | Some _ => Raise ValueError
      | None => split_boundary clean (Some (length clean)) messages'
      end
  | Message d :: messages' =>
      let! _ := reject_boundary_dict d in split_boundary (clean ++ [d])%list boundary messages'
  end.

(** The default boundary: after the leading instructions. *)
Fixpoint leading_instructions (clean : list obj) : nat :=
  match clean with
  | [] => 0
  | d :: clean' => if one_of ["system"; "developer"] (field_get "role" d) then S (leading_instructions clean') else 0
  end.

(** The loop that marks the last message before the boundary that can be
    marked for Anthropic. *)
Fixpoint anthropic_loop (index : nat) (clean : list obj) : list obj :=
  match index with
  | O => clean
  | S index' =>
      match message ← clean !! index'; mark_anthropic message with
      | Some marked => <[index' := marked]> clean
      | None => anthropic_loop index' clean
      end
  end.

(** [apply_cache_policy]: the messages, the instructions, and whether explicit
    caching is switched on. *)
Definition apply_cache_policy (messages : list cache_entry) (map : option mapping) (responses : bool)
    (instructions : option string) : result (list obj * option string * bool) :=
  let! split := split_boundary [] None messages in
  let '(clean, boundary) := split in
  match map with
  | None => Ok (clean, instructions, false)
  | Some map =>
      let automatic := bool_decide (map = MAuto) in
      if automatic && bool_decide (boundary = None) then Ok (clean, instructions, false)
      else
        let boundary := default (leading_instructions clean) boundary in
        if bool_decide (map = MAnthropic) then
          if responses then Raise ValueError else Ok (anthropic_loop boundary clean, instructions, false)
        else if negb responses then Raise ValueError
        else
          let '(clean, marked) := mark_responses_cache_breakpoint clean boundary in
          match instructions with
          | Some (String _ _ as text) =>
              if marked then Ok (clean, instructions, true)
              else
                let content := default (VStr text) (mark_responses_content (VStr text)) in
                Ok ([("role", VStr "system"); ("content", content)] :: clean, None, true)
          | _ => Ok (clean, instructions, marked || negb automatic)
          end
  end.
