(* ===== verification/CachePolicyRuns.v ===== *)
(** * What the cache policy marks *)

From S2P Require Import Prelude PyDict PyStr Values Replay CachePolicy.
Local Open Scope nat_scope.
Local Open Scope nooa_scope.

(** ** Blocks *)

Definition block_eligible (kinds : list string) (b : pyval) : bool :=
  match b with VDict d => one_of kinds (field_get "type" d) | _ => false end.
Definition mark_block (key : string) (marker b : pyval) : pyval :=
  match b with VDict d => VDict (dict_set key marker d) | _ => b end.

(** The last eligible block is marked, and only it. *)
Lemma mark_last_block_spec kinds key marker blocks pre post :
  blocks = (pre ++ post)%list →
  match mark_last_block kinds key marker (length pre) blocks with
  | Some blocks' => ∃ l1 b l2, pre = (l1 ++ b :: l2)%list ∧ block_eligible kinds b = true ∧
      Forall (λ b, block_eligible kinds b = false) l2 ∧ blocks' = (l1 ++ mark_block key marker b :: l2 ++ post)%list
  | None => Forall (λ b, block_eligible kinds b = false) pre
  end.
Proof.
  revert post. induction pre as [|b pre IH] using rev_ind; intros post ->; [by constructor|].
  rewrite length_app, Nat.add_1_r. cbn [mark_last_block]. specialize (IH (b :: post)). rewrite <- app_assoc in IH |- *.
  cbn [app] in IH |- *. specialize (IH eq_refl). rewrite list_lookup_middle by done.
  assert (Hskip : block_eligible kinds b = false →
    match mark_last_block kinds key marker (length pre) (pre ++ b :: post) with
    | Some blocks' => ∃ l1 b' l2, (pre ++ [b] = l1 ++ b' :: l2)%list ∧ block_eligible kinds b' = true ∧
        Forall (λ b, block_eligible kinds b = false) l2 ∧ blocks' = (l1 ++ mark_block key marker b' :: l2 ++ post)%list
    | None => Forall (λ b, block_eligible kinds b = false) (pre ++ [b])
    end).
  { intros Hb. destruct (mark_last_block _ _ _ _ _) as [blocks'|].
    - destruct IH as (l1 & b' & l2 & -> & Hb' & Hl2 & ->). exists l1, b', (l2 ++ [b])%list.
      rewrite <- app_assoc. split_and!; [done..| |by rewrite <- app_assoc]. apply Forall_app. split; [done|by constructor].
    - apply Forall_app. split; [done|by constructor]. }
  destruct b as [| | | | | | |d]; try by apply Hskip. destruct (one_of kinds (field_get "type" d)) eqn:Hd; [|by apply Hskip].
  exists pre, (VDict d), []. split_and!; [done..|constructor|]. rewrite <- (Nat.add_0_r (length pre)). by rewrite insert_app_r.
Qed.

(** ** The loop over the messages *)

Section Latest.
Context (mark : obj → option obj).

Definition eligible (d : obj) : bool := bool_decide (is_Some (mark d)).

(** The eligible messages from place [lo] to place [hi]. *)
Definition eligible_between (messages : list obj) (lo hi : nat) : nat :=
  length (base.filter (λ d, eligible d = true) (take (hi - lo) (drop lo messages))).

(** Marking the latest [limit] eligible messages before [boundary]. *)
Definition mark_latest (limit boundary : nat) (messages : list obj) : list obj :=
  imap (λ i d, if (i <? boundary)%nat && (eligible_between messages (S i) boundary <? limit)%nat
               then default d (mark d) else d) messages.

Lemma eligible_between_empty messages lo hi : hi ≤ lo → eligible_between messages lo hi = 0.
Proof. intros H. unfold eligible_between. by replace (hi - lo) with 0 by lia. Qed.

Lemma eligible_between_step messages lo hi d :
  lo < hi → messages !! lo = Some d →
  eligible_between messages lo hi = (if eligible d then 1 else 0) + eligible_between messages (S lo) hi.
Proof.
  intros Hlt Hd. unfold eligible_between. replace (hi - lo) with (S (hi - S lo)) by lia.
  rewrite (drop_S _ _ _ Hd). cbn [firstn]. destruct (eligible d) eqn:He.
  - by rewrite filter_cons_True.
  - by rewrite filter_cons_False by congruence.
Qed.

Lemma eligible_between_split messages lo mid hi :
  lo ≤ mid ≤ hi → hi ≤ length messages →
  eligible_between messages lo hi = eligible_between messages lo mid + eligible_between messages mid hi.
Proof.
  intros [Hlo Hhi] Hlen. unfold eligible_between. rewrite <- length_app, <- filter_app. do 2 f_equal.
  rewrite <- (take_drop (mid - lo) (take (hi - lo) (drop lo messages))). rewrite take_take, Nat.min_l by lia. f_equal.
  rewrite skipn_firstn_comm, drop_drop. f_equal; [lia|]. f_equal. lia.
Qed.

Lemma eligible_between_ext m1 m2 lo hi :
  (∀ i, lo ≤ i < hi → m1 !! i = m2 !! i) → eligible_between m1 lo hi = eligible_between m2 lo hi.
Proof.
  intros H. unfold eligible_between. do 2 f_equal. apply list_eq. intros i.
  destruct (decide (i < hi - lo)).
  - rewrite !lookup_take_lt, !lookup_drop by lia. apply H. lia.
  - rewrite !lookup_take_ge by lia. done.
Qed.

Lemma eligible_between_mono messages lo lo' hi :
  lo ≤ lo' → hi ≤ length messages → eligible_between messages lo' hi ≤ eligible_between messages lo hi.
Proof.
  intros H Hlen. destruct (decide (lo' ≤ hi)).
  - rewrite (eligible_between_split messages lo lo' hi) by lia. lia.
  - rewrite (eligible_between_empty _ lo') by lia. lia.
Qed.

Definition marks (d : obj) : obj := default d (mark d).

Lemma mark_eligible d : eligible d = true ↔ mark d = Some (marks d).
Proof.
  unfold eligible, marks. rewrite bool_decide_eq_true. destruct (mark d); cbn; [by split|]. split; [by intros []|done].
Qed.

Lemma mark_ineligible d : eligible d = false → mark d = None.
Proof. unfold eligible. rewrite bool_decide_eq_false, eq_None_not_Some. done. Qed.
End Latest.

(** ** The loops *)

Lemma mark_loop_spec index count messages :
  index ≤ length messages → count < 80 →
  (mark_loop index count messages).2 = Nat.min 80 (count + eligible_between mark_item messages 0 index) ∧
  ∀ j d, messages !! j = Some d →
    (mark_loop index count messages).1 !! j =
    Some (if (j <? index)%nat && (count + eligible_between mark_item messages (S j) index <? 80)%nat then marks mark_item d else d).
Proof.
  revert count messages. induction index as [|i IH]; intros count messages Hi Hc.
  - cbn [mark_loop fst snd]. rewrite eligible_between_empty by lia. split; [lia|]. intros j d Hj. rewrite Hj.
    by rewrite (proj2 (Nat.ltb_ge j 0)) by lia.
  - cbn [mark_loop]. destruct (lookup_lt_is_Some_2 messages i) as [d0 Hd0]; [lia|]. rewrite Hd0. cbn [mbind option_bind].
    assert (Hcount : ∀ lo, lo ≤ i → eligible_between mark_item messages lo (S i) = eligible_between mark_item messages lo i + (if eligible mark_item d0 then 1 else 0)).
    { intros lo Hlo. rewrite (eligible_between_split mark_item messages lo i (S i)) by lia. f_equal.
      rewrite (eligible_between_step mark_item messages i (S i) d0) by (done || lia). rewrite eligible_between_empty by lia. lia. }
    rewrite (Hcount 0) by lia. destruct (eligible mark_item d0) eqn:He.
    + rewrite (proj1 (mark_eligible mark_item d0) He). destruct (S count =? 80)%nat eqn:H80.
      * apply Nat.eqb_eq in H80. cbn [fst snd]. split; [lia|]. intros j d Hj.
        destruct (decide (j = i)) as [->|Hne].
        -- rewrite list_lookup_insert_eq by lia. rewrite Hd0 in Hj. injection Hj as <-.
           rewrite eligible_between_empty by lia. rewrite !(proj2 (Nat.ltb_lt _ _)) by lia. done.
        -- rewrite list_lookup_insert_ne by done. rewrite Hj. f_equal. destruct (j <? S i)%nat eqn:Hlt; [|done].
           apply Nat.ltb_lt in Hlt. rewrite (Hcount (S j)) by lia. rewrite (proj2 (Nat.ltb_ge _ 80)) by lia. done.
      * apply Nat.eqb_neq in H80. destruct (IH (S count) (<[i := marks mark_item d0]> messages)) as [IH1 IH2]; [rewrite length_insert; lia|lia|].
        assert (Hsame : ∀ lo, eligible_between mark_item (<[i := marks mark_item d0]> messages) lo i = eligible_between mark_item messages lo i).
        { intros lo. apply eligible_between_ext. intros k Hk. apply list_lookup_insert_ne. lia. }
        rewrite Hsame in IH1. split; [rewrite IH1; lia|]. intros j d Hj. destruct (decide (j = i)) as [->|Hne].
        -- rewrite (IH2 i (marks mark_item d0)) by (apply list_lookup_insert_eq; lia). rewrite Hd0 in Hj. injection Hj as <-.
           rewrite (proj2 (Nat.ltb_ge i i)), (proj2 (Nat.ltb_lt i (S i))) by lia. cbn [andb].
           rewrite eligible_between_empty by lia. rewrite (proj2 (Nat.ltb_lt _ 80)) by lia. done.
        -- rewrite (IH2 j d) by (by rewrite list_lookup_insert_ne). rewrite Hsame. f_equal.
           destruct (decide (j < i)).
           ++ rewrite !(proj2 (Nat.ltb_lt j _)) by lia. cbn [andb]. rewrite (Hcount (S j)) by lia.
              by replace (S count + eligible_between mark_item messages (S j) i) with (count + (eligible_between mark_item messages (S j) i + 1)) by lia.
           ++ rewrite !(proj2 (Nat.ltb_ge j _)) by lia. done.
    + rewrite (mark_ineligible mark_item d0 He). rewrite (proj2 (Nat.eqb_neq count 80)) by lia.
      destruct (IH count messages) as [IH1 IH2]; [lia..|]. split; [rewrite IH1; lia|]. intros j d Hj. rewrite (IH2 j d Hj). f_equal.
      destruct (decide (j = i)) as [->|Hne].
      * rewrite Hd0 in Hj. injection Hj as <-. rewrite (proj2 (Nat.ltb_ge i i)) by lia. cbn.
        unfold marks. rewrite (mark_ineligible mark_item d0 He). by destruct (_ && _).
      * destruct (decide (j < i)).
        -- rewrite !(proj2 (Nat.ltb_lt j _)) by lia. cbn [andb]. by rewrite (Hcount (S j)), Nat.add_0_r by lia.
        -- rewrite !(proj2 (Nat.ltb_ge j _)) by lia. done.
Qed.

Lemma mark_loop_length index count messages : length (mark_loop index count messages).1 = length messages.
Proof.
  revert count messages. induction index as [|i IH]; intros count messages; cbn [mark_loop]; [done|].
  destruct (messages !! i ≫= mark_item); (destruct (_ =? 80); cbn [fst]; rewrite ?IH, ?length_insert; done).
Qed.

Lemma mark_latest_lookup mark limit b messages j :
  mark_latest mark limit b messages !! j =
  (λ d, if (j <? b) && (eligible_between mark messages (S j) b <? limit) then marks mark d else d) <$> messages !! j.
Proof. unfold mark_latest. by rewrite list_lookup_imap. Qed.

(** The loop marks the latest eighty messages that can be marked. *)
Lemma responses_marks_latest messages b :
  b ≤ length messages →
  mark_responses_cache_breakpoint messages b =
  (mark_latest mark_item 80 b messages, 0 <? eligible_between mark_item messages 0 b).
Proof.
  intros Hb. unfold mark_responses_cache_breakpoint. destruct (mark_loop_spec b 0 messages Hb ltac:(lia)) as [H1 H2].
  destruct (mark_loop b 0 messages) as [out count] eqn:Hl. cbn [fst snd] in *. f_equal.
  - apply list_eq. intros j. rewrite mark_latest_lookup. destruct (messages !! j) as [d|] eqn:Hj; cbn [fmap option_fmap option_map].
    + by rewrite (H2 j d Hj).
    + apply lookup_ge_None. pose proof (mark_loop_length b 0 messages) as Hlen. rewrite Hl in Hlen. cbn in Hlen.
      apply lookup_ge_None in Hj. lia.
  - rewrite H1. destruct (eligible_between mark_item messages 0 b) as [|n]; [done|]. by destruct n.
Qed.

(** For Anthropic the nearest message that can be marked is. *)
Lemma anthropic_marks_latest messages b :
  b ≤ length messages → anthropic_loop b messages = mark_latest mark_anthropic 1 b messages.
Proof.
  induction b as [|i IH]; intros Hb; apply list_eq; intros j; rewrite mark_latest_lookup.
  - cbn. by destruct (messages !! j).
  - cbn [anthropic_loop]. destruct (lookup_lt_is_Some_2 messages i) as [d0 Hd0]; [lia|]. rewrite Hd0. cbn [mbind option_bind].
    destruct (eligible mark_anthropic d0) eqn:He.
    + rewrite (proj1 (mark_eligible _ d0) He). destruct (decide (j = i)) as [->|Hne].
      * rewrite list_lookup_insert_eq, Hd0 by lia. cbn [fmap option_fmap option_map].
        rewrite eligible_between_empty, (proj2 (Nat.ltb_lt i (S i))) by lia. done.
      * rewrite list_lookup_insert_ne by done. destruct (messages !! j) as [d|] eqn:Hj; [|done]. cbn [fmap option_fmap option_map].
        destruct (j <? S i) eqn:Hlt; [|done]. apply Nat.ltb_lt in Hlt.
        rewrite (eligible_between_split _ messages (S j) i (S i)), (eligible_between_step _ messages i (S i) d0), He by (done || lia).
        rewrite (proj2 (Nat.ltb_ge _ 1)) by lia. done.
    + rewrite (mark_ineligible _ d0 He), IH, mark_latest_lookup by lia. destruct (messages !! j) as [d|] eqn:Hj; [|done].
      cbn [fmap option_fmap option_map]. f_equal. destruct (decide (j = i)) as [->|Hne].
      * rewrite Hd0 in Hj. injection Hj as <-. unfold marks. rewrite (mark_ineligible _ d0 He). by destruct (_ && _), (_ && _).
      * destruct (decide (j < i)).
        -- rewrite !(proj2 (Nat.ltb_lt j _)) by lia.
           rewrite (eligible_between_split _ messages (S j) i (S i)), (eligible_between_step _ messages i (S i) d0), He by (done || lia).
           by rewrite (eligible_between_empty _ messages (S i)), !Nat.add_0_r by lia.
        -- rewrite !(proj2 (Nat.ltb_ge j _)) by lia. done.
Qed.

(** ** The boundary *)

Definition messages_of (entries : list cache_entry) : list obj :=
  omap (λ e, match e with Message d => Some d | CacheBoundary => None end) entries.

(** The place of the first boundary among the messages. *)
Fixpoint boundary_place (entries : list cache_entry) : option nat :=
  match entries with
  | [] => None
  | CacheBoundary :: _ => Some 0
  | Message _ :: entries' => S <$> boundary_place entries'
  end.

Definition is_boundary (e : cache_entry) : bool := match e with CacheBoundary => true | Message _ => false end.
Definition boundaries (entries : list cache_entry) : nat := length (base.filter (λ e, is_boundary e = true) entries).

Definition legacy (d : obj) : bool := dict_mem "nooa_cache_boundary" d.

Definition bad_history (entries : list cache_entry) : bool :=
  (1 <? boundaries entries) || existsb legacy (messages_of entries).

Lemma split_boundary_spec clean bd entries :
  split_boundary clean bd entries =
  if (1 <? boundaries entries + match bd with Some _ => 1 | None => 0 end) || existsb legacy (messages_of entries)
  then Raise ValueError
  else Ok ((clean ++ messages_of entries)%list, match bd with Some b => Some b | None => Nat.add (length clean) <$> boundary_place entries end).
Proof.
  revert clean bd. induction entries as [|e entries IH]; intros clean bd; cbn [split_boundary].
  - cbn. rewrite app_nil_r. by destruct bd.
  - destruct e as [|d].
    + change (boundaries (CacheBoundary :: entries)) with (S (boundaries entries)).
      change (messages_of (CacheBoundary :: entries)) with (messages_of entries). destruct bd as [b|].
      * by assert (1 <? S (boundaries entries) + 1 = true) as -> by (apply Nat.ltb_lt; lia).
      * rewrite IH. cbn [boundary_place fmap option_fmap option_map]. rewrite !Nat.add_0_r, Nat.add_1_r. done.
    + change (boundaries (Message d :: entries)) with (boundaries entries).
      change (messages_of (Message d :: entries)) with (d :: messages_of entries). unfold reject_boundary_dict. cbn [existsb].
      unfold legacy at 1. destruct (dict_mem _ d); cbn [result_bind orb]; [by rewrite orb_true_r|]. rewrite IH.
      rewrite length_app, <- app_assoc. cbn [app length boundary_place]. destruct (_ || _); [done|]. destruct bd; [done|].
      do 2 f_equal. destruct (boundary_place entries); cbn; [|done]. f_equal. lia.
Qed.

Lemma boundary_place_le entries b : boundary_place entries = Some b → b ≤ length (messages_of entries).
Proof.
  revert b. induction entries as [|[|d] entries IH]; intros b; cbn [boundary_place]; [done|intros [= <-]; lia|].
  change (messages_of (Message d :: entries)) with (d :: messages_of entries).
  destruct (boundary_place entries) as [b'|]; cbn; [|done]. intros [= <-]. specialize (IH b' eq_refl). lia.
Qed.

Lemma leading_le clean : leading_instructions clean ≤ length clean.
Proof. induction clean as [|d clean IH]; cbn; [lia|]. destruct (one_of _ _); lia. Qed.

(** ** The outcome *)

(** The messages as the policy marks them. *)
Definition marked_messages (entries : list cache_entry) (map : option mapping) : list obj :=
  let clean := messages_of entries in
  let boundary := default (leading_instructions clean) (boundary_place entries) in
  match map with
  | None => clean
  | Some MAuto => match boundary_place entries with None => clean | Some b => mark_latest mark_item 80 b clean end
  | Some MOpenAI => mark_latest mark_item 80 boundary clean
  | Some MAnthropic => mark_latest mark_anthropic 1 boundary clean
  end.

(** The mapping does not fit the client. *)
Definition misplaced (entries : list cache_entry) (map : option mapping) (responses : bool) : bool :=
  match map with
  | None => false
  | Some MAuto => match boundary_place entries with None => false | Some _ => negb responses end
  | Some MOpenAI => negb responses
  | Some MAnthropic => responses
  end.

(** C34.  The cache policy raises [ValueError] exactly for a history with two
    boundaries or with a boundary in dictionary form, and for a mapping that
    the client does not support. Otherwise the request is the history without
    its boundary, in order, with the latest eighty messages before the
    boundary that can be marked marked for OpenAI, the latest one for
    Anthropic, none for an automatic mapping without a boundary and none from
    the boundary on; only when no message can be marked do the instructions
    move, into a marked message in front. *)
Theorem cache_policy_outcome entries map responses instructions :
  apply_cache_policy entries map responses instructions =
  if bad_history entries || misplaced entries map responses then Raise ValueError
  else
    let marked := marked_messages entries map in
    match map, instructions with
    | Some (MOpenAI | MAuto), Some (String _ _ as text) =>
        if bool_decide (map = Some MAuto ∧ boundary_place entries = None) then Ok (marked, instructions, false)
        else if 0 <? eligible_between mark_item (messages_of entries) 0 (default (leading_instructions (messages_of entries)) (boundary_place entries))
        then Ok (marked, instructions, true)
        else
          let content := VList [VDict (wrap_responses_text "input_text" text ++ [("prompt_cache_breakpoint"%string, explicit_marker)])] in
          Ok ([("role"%string, VStr "system"); ("content"%string, content)] :: marked, None, true)
    | Some MOpenAI, _ => Ok (marked, instructions, true)
    | Some MAuto, _ =>
        Ok (marked, instructions,
          match boundary_place entries with Some b => 0 <? eligible_between mark_item (messages_of entries) 0 b | None => false end)
    | _, _ => Ok (marked, instructions, false)
    end.
Proof.
  unfold apply_cache_policy, marked_messages, misplaced. rewrite split_boundary_spec, Nat.add_0_r. fold (bad_history entries).
  destruct (bad_history entries); [done|]. cbn [orb result_bind app length].
  pose proof (boundary_place_le entries) as Hle. pose proof (leading_le (messages_of entries)) as Hlead.
  assert (Hid : Nat.add 0 <$> boundary_place entries = boundary_place entries) by (by destruct (boundary_place entries)). rewrite Hid.
  destruct map as [[]|]; cbn [bool_decide decide_rel mapping_eq_dec mapping_rect mapping_rec]; [..|done].
  - destruct (boundary_place entries) as [b|]; [specialize (Hle b eq_refl)|].
    + destruct responses; cbn [negb andb default]; [|done]. rewrite responses_marks_latest by done.
      destruct instructions as [[|c text]|]; destruct (0 <? _); done.
    + by destruct instructions as [[]|].
  - destruct responses; [done|]. cbn [andb]. rewrite anthropic_marks_latest; [by destruct instructions as [[]|]|].
    destruct (boundary_place entries); [by apply Hle|done].
  - destruct responses; [|done]. cbn [negb andb]. rewrite responses_marks_latest by (destruct (boundary_place entries); [by apply Hle|done]).
    destruct instructions as [[|c text]|]; destruct (0 <? _); done.
Qed.

(** ** The prefix of a growing history *)

Lemma eligible_between_prefix mark m1 m2 b lo hi :
  take b m1 = take b m2 → hi ≤ b → eligible_between mark m1 lo hi = eligible_between mark m2 lo hi.
Proof.
  intros H Hhi. apply eligible_between_ext. intros i Hi.
  rewrite <- (lookup_take_lt m1 b i), <- (lookup_take_lt m2 b i) by lia. by rewrite H.
Qed.

(** A later request of a growing history, with a boundary further on,
    repeats a message that was marked exactly as it was sent before when it
    is still among the latest eighty that can be marked, and only then: as
    long as no more than eighty can be marked, the whole marked prefix is
    repeated literally. *)
Theorem marked_prefix_repeats messages later b b' :
  take b messages = take b later → b ≤ length messages → b ≤ b' → b' ≤ length later →
  (∀ i d, i < b → messages !! i = Some d → eligible mark_item d = true → marks mark_item d ≠ d →
     eligible_between mark_item messages (S i) b < 80 →
     ((mark_responses_cache_breakpoint later b').1 !! i = (mark_responses_cache_breakpoint messages b).1 !! i ↔
      eligible_between mark_item later (S i) b' < 80)) ∧
  (eligible_between mark_item later 0 b' ≤ 80 →
     take b (mark_responses_cache_breakpoint later b').1 = take b (mark_responses_cache_breakpoint messages b).1).
Proof.
  intros Hsame Hb Hbb' Hb'. rewrite !responses_marks_latest by done. cbn [fst].
  assert (Hlook : ∀ i, i < b → messages !! i = later !! i).
  { intros i Hi. rewrite <- (lookup_take_lt messages b i), <- (lookup_take_lt later b i) by done. by rewrite Hsame. }
  split.
  - intros i d Hi Hd He Hne Hlt. rewrite !mark_latest_lookup, <- Hlook, Hd by done. cbn [fmap option_fmap option_map].
    rewrite !(proj2 (Nat.ltb_lt i _)) by lia. rewrite (proj2 (Nat.ltb_lt _ 80) Hlt). cbn [andb].
    destruct (eligible_between mark_item later (S i) b' <? 80) eqn:Hl.
    + apply Nat.ltb_lt in Hl. done.
    + apply Nat.ltb_ge in Hl. split; [|lia]. intros [= H]. by destruct Hne.
  - intros Hall. apply list_eq. intros i. destruct (decide (i < b)) as [Hi|Hi]; [|by rewrite !lookup_take_ge by lia].
    rewrite !lookup_take_lt, !mark_latest_lookup, <- Hlook by done. destruct (messages !! i) as [d|] eqn:Hd; [|done].
    cbn [fmap option_fmap option_map]. rewrite !(proj2 (Nat.ltb_lt i _)) by lia. cbn [andb].
    destruct (eligible mark_item d) eqn:He; [|unfold marks; rewrite (mark_ineligible _ d He); by destruct (_ <? 80), (_ <? 80)].
    assert (Hl : eligible_between mark_item later (S i) b' < 80).
    { rewrite (eligible_between_split _ later 0 i b'), (eligible_between_step _ later i b' d) in Hall by (rewrite <- ?Hlook by done; done || lia).
      rewrite He in Hall. lia. }
    rewrite (proj2 (Nat.ltb_lt _ 80) Hl). rewrite (eligible_between_prefix _ messages later b) by (done || lia).
    rewrite (eligible_between_split _ later (S i) b b') in Hl by lia. rewrite (proj2 (Nat.ltb_lt _ 80)) by lia. done.
Qed.

Definition user_message (s : string) : obj := [("role"%string, VStr "user"); ("content"%string, VStr s)].

Example auto_marks_before_boundary :
  apply_cache_policy [Message (user_message "stable"); CacheBoundary; Message (user_message "now")] (Some MAuto) true None =
  Ok ([[("role"%string, VStr "user");
        ("content"%string, VList [VDict [("type"%string, VStr "input_text"); ("text"%string, VStr "stable"); ("prompt_cache_breakpoint"%string, explicit_marker)]])];
       user_message "now"], None, true).
Proof. vm_compute. reflexivity. Qed.

Lemma marked_prefix_repeats_witness :
  take 1 [user_message "a"] = take 1 [user_message "a"; user_message "b"] ∧
  (∀ i d, i < 1 → [user_message "a"] !! i = Some d → eligible mark_item d = true → marks mark_item d ≠ d →
     eligible_between mark_item [user_message "a"] (S i) 1 < 80 →
     ((mark_responses_cache_breakpoint [user_message "a"; user_message "b"] 2).1 !! i = (mark_responses_cache_breakpoint [user_message "a"] 1).1 !! i ↔
      eligible_between mark_item [user_message "a"; user_message "b"] (S i) 2 < 80)) ∧
  (eligible_between mark_item [user_message "a"; user_message "b"] 0 2 ≤ 80 →
     take 1 ((mark_responses_cache_breakpoint [user_message "a"; user_message "b"] 2).1) = take 1 ((mark_responses_cache_breakpoint [user_message "a"] 1).1)).
Proof.
  split; [reflexivity|].
  apply (marked_prefix_repeats [user_message "a"] [user_message "a"; user_message "b"] 1 2); [reflexivity|cbn; lia..].
Defined.
