(* ===== verification/LayeredConfig.v ===== *)
(** * Layered configuration

    Models [nooa/layered_config.py]: the order in which the files of a
    configuration are found, and how their contents are merged. Which paths
    exist and where they lead, the directories, and what a file parses to are
    arguments. A parsed mapping is a tree: the merge copies every mapping it
    takes from an overlay. That the last layer wins follows. *)

From S2P Require Import Prelude PyDict.

(** ** Paths *)
Section Paths.
Context {P : Type} `{EqDecision P}.

(** [_push], on the chain and the places of its paths. *)
Definition push (resolved : P) (s : list P * dict P nat) : list P * dict P nat :=
  let '(chain, seen) := s in
  let '(chain, seen) :=
    match dict_get resolved seen with
    | Some place =>
        (delete place chain,
         dict_del resolved ((λ kv, if (place <? kv.2)%nat then (kv.1, kv.2 - 1) else kv) <$> seen))
    | None => (chain, seen)
    end in
  (chain ++ [resolved], dict_set resolved (length chain) seen).

Definition push_some (path : option P) (s : list P * dict P nat) : list P * dict P nat :=
  match path with Some resolved => push resolved s | None => s end.

(** [layered_paths]: [prepend], the user's path, the project's path and the
    paths of the environment variable are given resolved, [None] where there
    is no file. *)
Definition layered_paths (prepend : list (option P)) (user project : option P) (env : list (option P)) : list P :=
  let s := foldl (λ s p, push_some p s) ([], []) prepend in
  let s := push_some user s in
  let s := push_some project s in
  (foldl (λ s p, push_some p s) s env).1.
End Paths.

(** ** Contents *)
Section Merge.
Context {K V : Type} `{EqDecision K}.

(** A YAML value: [null], a mapping, or another value. *)
Inductive cval :=
  | Null
  | Value (v : V)
  | Mapping (d : list (K * cval)).

(** The loop of [_deep_merge]; [merge_value] says what becomes of a key from
    its value in the overlay and its value in the base. *)
Section Loop.
Context (merge_value : cval → option cval → option cval).

Fixpoint deep_merge_loop (base overlay : list (K * cval)) : list (K * cval) :=
  match overlay with
  | [] => base
  | (key, value) :: overlay' =>
      deep_merge_loop
        match merge_value value (dict_get key base) with
        | Some merged => dict_set key merged base
        | None => dict_del key base
        end overlay'
  end.
End Loop.

Fixpoint merge_value (value : cval) (old : option cval) : option cval :=
  match value with
  | Null => None
  | Value v => Some (Value v)
  | Mapping overlay =>
      Some (Mapping (deep_merge_loop merge_value (match old with Some (Mapping base) => base | _ => [] end) overlay))
  end.

(** [_deep_merge]. *)
Definition deep_merge (base overlay : dict K cval) : dict K cval := deep_merge_loop merge_value base overlay.

(** What reading and parsing a file gives. *)
Inductive document := Unreadable | Document (v : cval).

(** [load_layered_yaml], over the paths of [layered_paths]. *)
Definition load_document (merged : dict K cval) (doc : document) : dict K cval :=
  match doc with
  | Document (Mapping data) => deep_merge merged data
  | _ => merged
  end.

Definition load_layered_yaml {P} `{EqDecision P} (read : P → document) (prepend : list (option P))
    (user project : option P) (env : list (option P)) : dict K cval :=
  foldl (λ merged path, load_document merged (read path)) [] (layered_paths prepend user project env).
End Merge.

(** ** The last layer wins *)

(** ** Paths *)
Section Paths.
Context {P : Type} `{EqDecision P}.
Implicit Types (p : P) (chain : list P).

(** [seen] holds the place of every path of the chain. *)
Definition places (chain : list P) (seen : dict P nat) : Prop :=
  NoDup chain ∧ dict_wf seen ∧ ∀ p i, dict_get p seen = Some i ↔ chain !! i = Some p.

Lemma dict_get_fmap_values (f : P * nat → P * nat) (g : nat → nat) (seen : dict P nat) p :
  (∀ kv, f kv = (kv.1, g kv.2)) → dict_get p (f <$> seen) = g <$> dict_get p seen.
Proof.
  intros Hf. induction seen as [|[k v] seen IH]; [done|]. cbn. rewrite Hf. cbn. by case_decide.
Qed.

Lemma filter_absent p chain : p ∉ chain → base.filter (λ q, q ≠ p) chain = chain.
Proof. intros Hp. induction chain as [|q l IH]; [done|]. rewrite filter_cons_True by set_solver. f_equal. apply IH. set_solver. Qed.

Lemma delete_filter p i chain : NoDup chain → chain !! i = Some p → delete i chain = base.filter (λ q, q ≠ p) chain.
Proof.
  intros Hnd Hi. apply list_elem_of_split_length in Hi as (l1 & l2 & -> & ->). rewrite delete_middle.
  apply NoDup_app in Hnd as (_ & Hdis & [Hp _]%NoDup_cons). rewrite filter_app, filter_cons_False by tauto.
  rewrite !filter_absent; [done|done|]. intros Hin. destruct (Hdis p Hin). by left.
Qed.

Lemma places_snoc p chain seen :
  places chain seen → p ∉ chain → places (chain ++ [p]) (dict_set p (length chain) seen).
Proof.
  intros (Hnd & Hwf & Hat) Hp. split_and!.
  - apply NoDup_app. split_and!; [done| |apply NoDup_singleton]. set_solver.
  - by apply dict_wf_set.
  - intros q j. rewrite dict_get_set. case_decide as Hq; [subst q|].
    + split; [intros [= <-]; by apply list_lookup_middle|]. intros Hj. f_equal.
      destruct (decide (j < length chain)) as [Hlt|Hge].
      * rewrite lookup_app_l in Hj by done. destruct Hp. by eapply list_elem_of_lookup_2.
      * apply lookup_lt_Some in Hj. rewrite length_app in Hj. cbn in Hj. lia.
    + rewrite Hat. split; [apply lookup_app_l_Some|]. intros Hj. destruct (decide (j < length chain)) as [Hlt|Hge].
      * by rewrite lookup_app_l in Hj.
      * rewrite lookup_app_r in Hj by lia. apply list_lookup_singleton_Some in Hj as [_ ?]. congruence.
Qed.

(** Pushing a path moves it to the end. *)
Lemma push_spec p chain seen :
  places chain seen → (push p (chain, seen)).1 = base.filter (λ q, q ≠ p) chain ++ [p] ∧ places (push p (chain, seen)).1 (push p (chain, seen)).2.
Proof.
  intros Hpl. pose proof Hpl as (Hnd & Hwf & Hat). unfold push. destruct (dict_get p seen) as [i|] eqn:Hp.
  - pose proof (proj1 (Hat p i) Hp) as Hi. cbn [fst snd].
    split; [by rewrite (delete_filter p i chain Hnd Hi)|].
    apply places_snoc; [|rewrite (delete_filter p i chain Hnd Hi), list_elem_of_filter; tauto].
    set (g v := if i <? v then v - 1 else v).
    assert (Hshift : ∀ q, dict_get q ((λ kv, if i <? kv.2 then (kv.1, kv.2 - 1) else kv) <$> seen) = g <$> dict_get q seen).
    { intros q. apply dict_get_fmap_values. intros [k v]. unfold g. cbn [fst snd]. by destruct (i <? v). }
    assert (Hwf' : dict_wf ((λ kv, if i <? kv.2 then (kv.1, kv.2 - 1) else kv) <$> seen)).
    { unfold dict_wf, dict_keys in *. rewrite <- list_fmap_compose. erewrite list_fmap_ext; [exact Hwf|].
      intros j [k v] _. cbn [fst snd compose]. by destruct (i <? v). }
    split_and!.
    + rewrite (delete_filter p i chain Hnd Hi). by apply NoDup_filter.
    + by apply dict_wf_del.
    + intros q j. rewrite dict_get_del by done. case_decide as Hq; [subst q|].
      { split; [done|]. rewrite (delete_filter p i chain Hnd Hi). intros Hj%list_elem_of_lookup_2%list_elem_of_filter. tauto. }
      rewrite Hshift. split.
      * destruct (dict_get q seen) as [v|] eqn:Hv; [|done]. cbn. intros [= <-]. apply Hat in Hv. unfold g.
        assert (v ≠ i) by congruence. destruct (i <? v) eqn:Hlt.
        -- apply Nat.ltb_lt in Hlt. rewrite list_lookup_delete_ge by lia. by replace (S (v - 1)) with v by lia.
        -- apply Nat.ltb_ge in Hlt. by rewrite list_lookup_delete_lt by lia.
      * intros Hj. destruct (decide (j < i)) as [Hlt|Hge].
        -- rewrite list_lookup_delete_lt in Hj by lia. apply Hat in Hj. rewrite Hj. cbn. unfold g.
           by rewrite (proj2 (Nat.ltb_ge i j)) by lia.
        -- rewrite list_lookup_delete_ge in Hj by lia. apply Hat in Hj. rewrite Hj. cbn. unfold g.
           rewrite (proj2 (Nat.ltb_lt i (S j))) by lia. f_equal. lia.
  - cbn [fst snd]. assert (Hnin : p ∉ chain).
    { intros [i Hi]%list_elem_of_lookup_1. apply Hat in Hi. congruence. }
    rewrite filter_absent by done. split; [done|]. by apply places_snoc.
Qed.

Lemma remove_dups_snoc p l : remove_dups (l ++ [p]) = base.filter (λ q, q ≠ p) (remove_dups l) ++ [p].
Proof.
  induction l as [|q l IH]; [done|]. cbn. destruct (decide (q = p)) as [->|Hne].
  - rewrite IH. case_decide as H1; [|set_solver]. case_decide; [done|]. by rewrite filter_cons_False by tauto.
  - rewrite IH. case_decide as H1; case_decide as H2; [done|set_solver|set_solver|]. by rewrite filter_cons_True by done.
Qed.

Lemma push_all (paths : list (option P)) chain seen :
  places chain seen →
  let s := foldl (λ s path, push_some path s) (chain, seen) paths in
  places s.1 s.2 ∧ ∀ l, chain = remove_dups l → s.1 = remove_dups (l ++ omap id paths).
Proof.
  revert chain seen. induction paths as [|[p|] paths IH]; intros chain seen Hpl; cbn [foldl push_some].
  - split; [done|]. intros l ->. cbn. by rewrite app_nil_r.
  - destruct (push_spec p chain seen Hpl) as [Hc Hpl']. destruct (push p (chain, seen)) as [chain' seen'] eqn:Hpush. cbn [fst snd] in *.
    destruct (IH chain' seen' Hpl') as [H1 H2]. split; [done|]. intros l ->.
    rewrite (H2 (l ++ [p])); [by rewrite <- app_assoc|]. by rewrite remove_dups_snoc.
  - by apply IH.
Qed.

(** The chain of configuration files is the files of the layers in order,
    bundled defaults, user, project, environment, each once and at its last
    place: a file that is found again moves to the higher priority. *)
Theorem layered_paths_order prepend (user project : option P) env :
  layered_paths prepend user project env = remove_dups (omap id (prepend ++ [user; project] ++ env)).
Proof.
  assert (Hnil : places [] []) by (split_and!; [apply NoDup_nil_2|apply dict_wf_nil|done]).
  destruct (push_all (prepend ++ [user; project] ++ env) [] [] Hnil) as [_ Hall].
  etrans; [|exact (Hall [] eq_refl)]. unfold layered_paths. by rewrite !foldl_app.
Qed.
End Paths.

(** ** Contents *)
Section Merge.
Context {K V : Type} `{EqDecision K}.
Notation cval := (@cval K V).
Implicit Types (v : cval) (d : list (K * cval)).

Section Induction.
Context (Q : cval → Prop) (Hnull : Q Null) (Hvalue : ∀ x : V, Q (Value x)).
Context (Hmapping : ∀ d, Forall (λ kv, Q kv.2) d → Q (Mapping d)).

Fixpoint cval_tree_ind (v : cval) : Q v :=
  match v with
  | Null => Hnull
  | Value v => Hvalue v
  | Mapping d =>
      Hmapping d ((fix go d : Forall (λ kv, Q kv.2) d :=
        match d with
        | [] => Forall_nil_2 _
        | kv :: d' => Forall_cons_2 _ kv d' (cval_tree_ind kv.2) (go d')
        end) d)
  end.
End Induction.

(** No mapping has a key twice. *)
Fixpoint tree_wf (v : cval) : Prop :=
  match v with
  | Mapping d => dict_wf d ∧ foldr (λ kv P, tree_wf kv.2 ∧ P) True d
  | _ => True
  end.

Lemma tree_wf_mapping d : tree_wf (Mapping d) ↔ dict_wf d ∧ Forall (λ kv, tree_wf kv.2) d.
Proof.
  cbn. f_equiv. induction d as [|kv d IH]; [by split; [constructor|]|]. rewrite Forall_cons, <- IH. done.
Qed.

(** What stands at a path of a configuration: a mapping ([Some None]), a value
    or nothing. *)
Fixpoint look (path : list K) (v : cval) : option (option V) :=
  match path, v with
  | [], Value v => Some (Some v)
  | [], Mapping _ => Some None
  | key :: path, Mapping d => v ← dict_get key d; look path v
  | _, _ => None
  end.

(** What a layer says of a path: nothing, or what stands there. A [null] and
    a value end the mapping of a lower layer. *)
Fixpoint settles (path : list K) (v : cval) : option (option (option V)) :=
  match path, v with
  | [], Null => Some None
  | [], Value v => Some (Some (Some v))
  | [], Mapping _ => Some (Some None)
  | key :: path, Mapping d => v ← dict_get key d; settles path v
  | _ :: _, _ => Some None
  end.

Definition override (path : list K) (v : cval) (old : option (option V)) : option (option V) :=
  match settles path v with Some r => r | None => old end.

(** Merging a value: well-formed, and read as the overlay over the base. *)
Definition merges (v : cval) : Prop :=
  ∀ old, tree_wf v → (∀ b, old = Some b → tree_wf b) →
    (∀ m, merge_value v old = Some m → tree_wf m) ∧
    ∀ path, (merge_value v old ≫= look path) = override path v (old ≫= look path).

Lemma loop_merges base overlay :
  Forall (λ kv, merges kv.2) overlay → tree_wf (Mapping base) → tree_wf (Mapping overlay) →
  tree_wf (Mapping (deep_merge_loop merge_value base overlay)) ∧
  ∀ key path, look (key :: path) (Mapping (deep_merge_loop merge_value base overlay)) =
    override (key :: path) (Mapping overlay) (look (key :: path) (Mapping base)).
Proof.
  intros Hall. revert base. induction Hall as [|[key value] overlay Hv _ IH]; intros base Hbase Hover; [done|].
  apply tree_wf_mapping in Hbase as Hb, Hover as Ho. destruct Hb as [Hbwf Hbf]. destruct Ho as [Howf Hof].
  apply NoDup_cons in Howf as [Hkey Howf]. apply Forall_cons in Hof as [Hvwf Hof].
  destruct (Hv (dict_get key base)) as [Hm1 Hm2]; [done| |].
  { intros b Hb%dict_get_Some_elem. rewrite Forall_forall in Hbf. exact (Hbf _ Hb). }
  cbn [deep_merge_loop].
  set (base' := match merge_value value (dict_get key base) with Some merged => dict_set key merged base | None => dict_del key base end).
  assert (Hget : ∀ k, dict_get k base' = if decide (k = key) then merge_value value (dict_get key base) else dict_get k base).
  { intros k. unfold base'. destruct (merge_value value (dict_get key base)) as [m|].
    - apply dict_get_set.
    - by apply dict_get_del. }
  assert (Hbase' : tree_wf (Mapping base')).
  { apply tree_wf_mapping. unfold base'. destruct (merge_value value (dict_get key base)) as [m|] eqn:Hm.
    - split; [by apply dict_wf_set|]. apply (Forall_dict_set tree_wf); [by apply Hm1|exact Hbf].
    - split; [by apply dict_wf_del|]. by apply (Forall_dict_del tree_wf). }
  destruct (IH base' Hbase') as [IH1 IH2]; [by apply tree_wf_mapping|]. split; [done|]. intros k path. rewrite IH2.
  unfold override. cbn [settles look dict_get]. rewrite Hget. destruct (decide (k = key)) as [->|Hne]; [|done].
  rewrite (proj2 (dict_get_None key overlay)) by done. cbn [mbind option_bind]. exact (Hm2 path).
Qed.

Lemma value_merges v : merges v.
Proof.
  induction v as [| |d IH] using cval_tree_ind; intros old Hv Hold; cbn [merge_value mbind option_bind].
  - split; [done|]. by intros [].
  - split; [by intros m [= <-]|]. by intros [].
  - set (base := match old with Some (Mapping base) => base | _ => [] end).
    assert (Hbase : tree_wf (Mapping base)).
    { unfold base. destruct old as [[]|]; [..|by apply Hold|]; apply tree_wf_mapping; (split; [apply dict_wf_nil|constructor]). }
    destruct (loop_merges base d IH Hbase Hv) as [H1 H2]. split; [by intros m [= <-]|].
    intros [|key path]; [done|]. rewrite H2. unfold override. destruct (settles (key :: path) (Mapping d)); [done|].
    unfold base. by destruct old as [[]|].
Qed.

(** ** Layers *)

(** The mappings of the files that have one, from the lowest layer to the
    highest. *)
Definition mappings (docs : list document) : list (list (K * cval)) :=
  omap (λ doc, match doc with Document (Mapping d) => Some d | _ => None end) docs.

Lemma load_documents docs base :
  tree_wf (Mapping base) → Forall (λ d, tree_wf (Mapping d)) (mappings docs) →
  ∀ key path, look (key :: path) (Mapping (foldl load_document base docs)) =
    default (look (key :: path) (Mapping base)) (last (omap (settles (key :: path)) (Mapping <$> mappings docs))).
Proof.
  revert base. induction docs as [|doc docs IH]; intros base Hbase Hdocs key path; [done|]. cbn [foldl].
  destruct doc as [|[| |d]]; try exact (IH base Hbase Hdocs key path).
  change (mappings (Document (Mapping d) :: docs)) with (d :: mappings docs) in Hdocs |- *.
  apply Forall_cons in Hdocs as [Hd Hdocs]. cbn [load_document]. unfold deep_merge.
  destruct (loop_merges base d) as [Hwf Hlook]; [|done..|].
  { apply Forall_true. intros [k v]. apply value_merges. }
  rewrite (IH _ Hwf Hdocs), Hlook. unfold override.
  change (omap (settles (key :: path)) (Mapping <$> d :: mappings docs)) with
    (match settles (key :: path) (Mapping d) with
     | Some r => r :: omap (settles (key :: path)) (Mapping <$> mappings docs)
     | None => omap (settles (key :: path)) (Mapping <$> mappings docs)
     end).
  destruct (settles (key :: path) (Mapping d)) as [r|]; [|done].
  destruct (omap (settles (key :: path)) (Mapping <$> mappings docs)) as [|r' l] eqn:Hl; [done|].
  change (last (r :: r' :: l)) with (last (r' :: l)).
  destruct (last (r' :: l)) eqn:Hlast; [done|]. by apply last_None in Hlast.
Qed.

(** What the merged configuration has at a path is what the last layer
    that says anything of the path says: a value, a mapping, or nothing where
    it has [null] there or [null] or a value above; files that cannot be read,
    are empty or hold no mapping count for nothing. *)
Theorem last_layer_wins {P} `{EqDecision P} (read : P → document) prepend user project env key path :
  Forall (λ d, tree_wf (Mapping d)) (mappings (read <$> layered_paths prepend user project env)) →
  look (key :: path) (Mapping (load_layered_yaml read prepend user project env)) =
  mjoin (last (omap (settles (key :: path)) (Mapping <$> mappings (read <$> layered_paths prepend user project env)))).
Proof.
  intros Hdocs. unfold load_layered_yaml.
  assert (Hf : ∀ paths base, foldl (λ merged p, load_document merged (read p)) base paths = foldl load_document base (read <$> paths)).
  { induction paths as [|p paths IH]; intros base; [done|]. apply IH. }
  rewrite Hf, load_documents; [|by apply tree_wf_mapping; split; [apply dict_wf_nil|constructor]|done].
  by destruct (last _).
Qed.
End Merge.

Lemma layered_paths_example : layered_paths [Some 1; Some 2] None (Some 1) [Some 3; Some 2; None] = [1; 3; 2].
Proof. vm_compute. reflexivity. Qed.

Definition demo_read (p : nat) : @document string nat :=
  match p with
  | 0 => Document (Mapping [("a"%string, Mapping [("b"%string, Value 1); ("c"%string, Value 2)])])
  | 1 => Document (Mapping [("a"%string, Mapping [("b"%string, Null)])])
  | _ => Unreadable
  end.

Lemma last_layer_wins_witness :
  look ["a"; "c"]%string (Mapping (load_layered_yaml demo_read [Some 0] (Some 1) None [])) = Some (Some 2) ∧
  look ["a"; "b"]%string (Mapping (load_layered_yaml demo_read [Some 0] (Some 1) None [])) =
  mjoin (last (omap (settles ["a"; "b"]%string) (Mapping <$> mappings (demo_read <$> layered_paths [Some 0] (Some 1) None [])))).
Proof.
  split; [reflexivity|]. apply (last_layer_wins demo_read [Some 0] (Some 1) None [] "a"%string ["b"%string]).
  repeat first [apply Forall_nil_2 | apply Forall_cons_2]; cbn; split_and!; try done; apply (bool_decide_unpack _); vm_compute; exact I.
Defined.
