(* ===== verification/ChatReplay.v ===== *)
(** * Replay of Chat turns

    Models [nooa/unifiedllm/chat_parts.py] and, of
    [nooa/unifiedllm/replay_state.py], the state of tool calls and the
    preparation of a message list: how a normalized Chat response is captured
    as the ordered parts of a turn, with each signature on the part it belongs
    to, and how a history of turns and plain messages becomes a request.

    Messages are JSON values, as in [Replay], which also has the check of
    replayed media.  The [type] of a block is taken to be hashable. *)

From Stdlib Require Import Ascii.
From S2P Require Import Prelude PyDict PyStr Values Replay CachePolicy.
Local Open Scope string_scope.
Local Open Scope nooa_scope.

(** ** Text and truth *)

Fixpoint strip_prefix (prefix s : string) : option string :=
  match prefix, s with
  | "", _ => Some s
  | String a prefix', String b s' => if Ascii.eqb a b then strip_prefix prefix' s' else None
  | _, _ => None
  end.

(** [s.split(sep, 1)]: the text before the first [sep] and after it. *)
Fixpoint split_first (sep s : string) : option (string * string) :=
  match strip_prefix sep s with
  | Some rest => Some ("", rest)
  | None =>
      match s with
      | "" => None
      | String c s' => match split_first sep s' with Some (a, b) => Some (String c a, b) | None => None end
      end
  end.

(** Python's truth value. *)
Definition truthy (v : pyval) : bool :=
  match v with
  | VNone | VBool false | VStr "" | VList [] | VTuple [] | VDict [] => false
  | VInt z => negb (Z.eqb z 0)
  | VFloat (SpecFloat.S754_zero _) => false
  | _ => true
  end.

(** [_field(value, key)], [None] where there is none. *)
Definition field_or_none (v : pyval) (key : string) : pyval := default VNone (field v key).

(** ** Signatures of tool calls *)

Definition thought_separator : string := "__thought__".

(** [_tool_call_state]. *)
Definition tool_call_state (call : pyval) : result (option obj) :=
  match opaque_item call with
  | VDict dumped =>
      let! fields :=
        match field_get "provider_specific_fields" dumped with
        | VNone => Ok []
        | VDict d => Ok d
        | _ => Raise ReasoningReplayError
        end in
      let! signature :=
        match dict_get "thought_signature" fields with
        | None => Ok None
        | Some (VStr "") => Raise ReasoningReplayError
        | Some (VStr s) => Ok (Some s)
        | Some _ => Raise ReasoningReplayError
        end in
      let! inline :=
        match field_get "id" dumped with
        | VStr call_id =>
            match split_first thought_separator call_id with
            | Some (_, "") => Raise ReasoningReplayError
            | Some (_, candidate) => Ok (Some candidate)
            | None => Ok None
            end
        | _ => Ok None
        end in
      match signature, inline with
      | Some s, Some i =>
          if String.eqb s i
          then Ok (Some [("provider_specific_fields", VDict [("thought_signature", VStr s)]); ("inline_thought_signature", VStr i)])
          else Raise ReasoningReplayError
      | Some s, None => Ok (Some [("provider_specific_fields", VDict [("thought_signature", VStr s)])])
      | None, Some i => Ok (Some [("inline_thought_signature", VStr i)])
      | None, None => Ok None
      end
  | _ => Raise ReasoningReplayError
  end.

(** ** Capture *)

(** Validation of a part's [native] field freezes it. *)
Definition frozen_native (native : option obj) : result (option obj) :=
  match native with
  | None => Ok None
  | Some d => match freeze_obj d with Ok f => Ok (Some f) | Raise _ => Raise ValueError end
  end.

Definition reasoning_part (text : string) (native : option obj) : result replay_part :=
  let! native := frozen_native native in Ok (AssistantReasoning native text).

(** The body of the loop over [thinking_blocks]. *)
Definition capture_thinking (block : pyval) : result replay_part :=
  match opaque_item block with
  | VDict native =>
      if is_str "thinking" (field_get "type" native) then
        match default (VStr "") (dict_get "thinking" native) with
        | VStr text =>
            let native := dict_del "thinking" native in
            match field_get "signature" native with
            | VNone => reasoning_part text None
            | VStr "" => Raise ReasoningReplayError
            | VStr _ => reasoning_part text (Some [("thinking_blocks", VDict native)])
            | _ => Raise ReasoningReplayError
            end
        | _ => Raise ReasoningReplayError
        end
      else if is_str "redacted_thinking" (field_get "type" native) then
        match field_get "data" native with
        | VStr (String _ _) => reasoning_part "" (Some [("thinking_blocks", VDict native)])
        | _ => Raise ReasoningReplayError
        end
      else Raise ReasoningReplayError
  | _ => Raise ReasoningReplayError
  end.

(** The body of the loop over [reasoning_items]: the part, and whether the
    turn becomes portable. *)
Definition capture_reasoning_item (block : pyval) : result (replay_part * bool) :=
  match opaque_item block with
  | VDict native =>
      if is_str "reasoning" (field_get "type" native) then
        let portable := is_null (field_get "encrypted_content" native) in
        let! _ := if portable then Ok () else validate_native_reasoning true true native in
        let! captured := capture_summary native in
        let! part := reasoning_part captured.1 (if portable then None else Some [("reasoning_items", VDict captured.2)]) in
        Ok (part, portable)
      else Raise ReasoningReplayError
  | _ => Raise ReasoningReplayError
  end.

(** A field of the message that is a list or absent. *)
Definition list_field (message : pyval) (key : string) : result (list pyval) :=
  match field_or_none message key with
  | VNone => Ok []
  | VList l => Ok l
  | _ => Raise ReasoningReplayError
  end.

(** The first loop of [capture_chat_parts]: the reasoning parts, and whether
    the turn is portable. *)
Definition capture_blocks (provider : option string) (message : pyval) : result (list replay_part * bool) :=
  let! thinking := list_field message "thinking_blocks" in
  let! thinking_parts := map_result capture_thinking thinking in
  let! items := list_field message "reasoning_items" in
  if negb (bool_decide (items = [])) && negb (bool_decide (provider = None)) && negb (native_provider provider)
  then Raise ReasoningReplayError
  else
    let! captured := map_result capture_reasoning_item items in
    Ok ((thinking_parts ++ captured.*1)%list, existsb snd captured).

Definition part_texts (ps : list replay_part) : list string := part_text <$> ps.
Definition nonempty_texts (ps : list replay_part) : list string :=
  base.filter (λ t, String.eqb t "" = false) (part_texts ps).

(** The readable reasoning of the message, where the parts do not have it
    already. *)
Definition capture_reasoning_text (scope : option string) (message : pyval) (ps : list replay_part) :
    result (list replay_part) :=
  let value :=
    if truthy (field_or_none message "reasoning") then field_or_none message "reasoning"
    else field_or_none message "reasoning_content" in
  match value with
  | VNone | VStr "" => Ok []
  | VStr text =>
      if String.eqb text (String.concat "" (part_texts ps)) || String.eqb text (String.concat newline (nonempty_texts ps))
      then Ok []
      else
        let! part :=
          reasoning_part text
            (if is_str text (field_or_none message "reasoning_content") && negb (bool_decide (scope = None))
             then Some [("reasoning_content", VBool true)] else None) in
        Ok [part]
  | _ => Raise ReasoningReplayError
  end.

Definition nonempty_str (v : pyval) : bool := match v with VStr (String _ _) => true | _ => false end.

Definition signature_provider (provider : option string) : bool :=
  bool_decide (provider = None ∨ provider = Some "openai" ∨ provider = Some "azure" ∨ provider = Some "gemini").

(** The text part with the signatures of the message. *)
Definition capture_chat_text (provider : option string) (message : pyval) : result replay_part :=
  let! native :=
    match field_or_none message "provider_specific_fields" with
    | VNone => Ok None
    | VDict fields =>
        match dict_get "thought_signatures" fields with
        | None => Ok None
        | Some (VList ((_ :: _) as signatures)) =>
            if signature_provider provider && forallb nonempty_str signatures then
              Ok (Some [("provider_specific_fields", VDict [("thought_signatures", VList signatures)])])
            else Raise ReasoningReplayError
        | Some _ => Raise ReasoningReplayError
        end
    | _ => Raise ReasoningReplayError
    end in
  let! native := frozen_native native in
  match field_or_none message "content" with
  | VNone => Ok (AssistantText native "")
  | VStr s => Ok (AssistantText native s)
  | _ => Raise ReasoningReplayError
  end.

(** [value or ""] for a field of [ToolCall], which must be a string. *)
Definition str_field (v : pyval) : result string :=
  if truthy v then match v with VStr s => Ok s | _ => Raise ValueError end else Ok "".

(** The public id of a call: without the signature that a gateway put in. *)
Definition public_id (native : option obj) (call_id : pyval) : pyval :=
  match native, call_id with
  | Some d, VStr s =>
      if dict_mem "inline_thought_signature" d then
        VStr (match split_first thought_separator s with Some (a, _) => a | None => s end)
      else call_id
  | _, _ => call_id
  end.

(** The loop over the tool calls. *)
Fixpoint capture_calls (provider : option string) (ids : gset string) (calls : list pyval) : result (list replay_part) :=
  match calls with
  | [] => Ok []
  | call :: calls' =>
      let! native := tool_call_state call in
      if negb (bool_decide (native = None ∨ provider = None)) && negb (signature_provider provider)
      then Raise ReasoningReplayError
      else
        match public_id native (field_or_none call "id") with
        | VStr call_id =>
            if negb (String.eqb call_id "") && bool_decide (call_id ∈ ids) then Raise ReasoningReplayError
            else
              let function := field_or_none call "function" in
              let! name := str_field (field_or_none function "name") in
              let! arguments := str_field (field_or_none function "arguments") in
              let! native := frozen_native native in
              let! rest := capture_calls provider ({[ call_id ]} ∪ ids) calls' in
              Ok (ToolCall native call_id name arguments :: rest)
        | _ => Raise ReasoningReplayError
        end
  end.

(** Native state besides the wire field of plain reasoning. *)
Definition signed_part (p : replay_part) : bool :=
  match p with
  | AssistantText _ _ => false
  | _ => has_native p && negb (dict_mem "reasoning_content" (default [] (native_of p)))
  end.

(** [capture_chat_parts]. *)
Definition capture_chat_parts (message : pyval) (scope : option string) : result (list replay_part) :=
  let! provider := scope_provider scope in
  let! captured := capture_blocks provider message in
  let '(blocks, portable_only) := captured in
  let! reasoning := capture_reasoning_text scope message blocks in
  let! text := capture_chat_text provider message in
  let! calls := list_field message "tool_calls" in
  let! calls := capture_calls provider ∅ calls in
  let ps := (blocks ++ reasoning ++ text :: calls)%list in
  if portable_only then Ok (with_native None <$> ps)
  else if bool_decide (scope = None) && existsb has_native ps then Ok (with_native None <$> ps)
  else if existsb call_without_id ps && existsb signed_part ps then Raise ReasoningReplayError
  else Ok ps.

(** The turn that [_response_from_chat] makes of them. *)
Definition response_from_chat (message : pyval) (scope : option string) : result turn :=
  let! ps := capture_chat_parts message scope in Ok (mk_turn ps scope).

(** ** Projection *)

(** [message.setdefault(key, []).append(item)]. *)
Definition append_to (key : string) (item : pyval) (message : obj) : result obj :=
  match dict_get key message with
  | None => Ok (dict_set key (VList [item]) message)
  | Some (VList l) => Ok (dict_set key (VList (l ++ [item])) message)
  | Some _ => Raise OtherError
  end.

(** The locals of the loop of [project_chat_turn]. *)
Record chat_projection := mk_projection { cp_message : obj; cp_text : list string; cp_call_ids : dict string string }.

Section Project.
(** The check of replayed media of the call. *)
Context (check_media : obj → result ()).
Context (compatible : bool) (provider : option string).

Definition with_text (text : string) (st : chat_projection) : chat_projection :=
  if String.eqb text "" then st else mk_projection (cp_message st) (cp_text st ++ [text])%list (cp_call_ids st).

(** A tool call: the wire entry, and the private id where it has one; a
    signature that is not a string, which is never captured, counts as an
    error. *)
Definition project_call (native : obj) (id name arguments : string) (st : chat_projection) : result chat_projection :=
  let signature := field_get "inline_thought_signature" native in
  let native := dict_del "inline_thought_signature" native in
  let! private :=
    match signature with
    | VNone | VStr "" => Ok None
    | VStr s => Ok (Some (id +:+ thought_separator +:+ s))
    | _ => Raise OtherError
    end in
  let entry :=
    dict_update
      [("id", VStr (default id private)); ("type", VStr "function");
       ("function", VDict [("name", VStr name); ("arguments", VStr arguments)])] native in
  let! message := append_to "tool_calls" (VDict entry) (cp_message st) in
  Ok (mk_projection message (cp_text st)
        (match private with Some p => dict_set id p (cp_call_ids st) | None => cp_call_ids st end)).

(** A reasoning part with native state: its first field says which. *)
Definition project_native_reasoning (key : string) (block : pyval) (text : string) (st : chat_projection) : result chat_projection :=
  let go block :=
    let! message := append_to key block (cp_message st) in Ok (mk_projection message (cp_text st) (cp_call_ids st)) in
  if String.eqb key "reasoning_content" then
    Ok (mk_projection (dict_set key (VStr text) (cp_message st)) (cp_text st) (cp_call_ids st))
  else if String.eqb key "thinking_blocks" then
    match block with
    | VDict d =>
        match dict_get "type" d with
        | None => Raise KeyError
        | Some kind => go (VDict (if is_str "thinking" kind then dict_set "thinking" (VStr text) d else d))
        end
    | _ => Raise TypeError
    end
  else if String.eqb key "reasoning_items" then
    if native_provider provider then
      match block with
      | VDict d =>
          let! _ := validate_native_reasoning true true d in
          let! d := restore_summary d text in
          go (VDict d)
      | _ => Raise ReasoningReplayError
      end
    else Raise ReasoningReplayError
  else Raise ReasoningReplayError.

(** The body of the loop of [project_chat_turn]. *)
Definition project_chat_part (st : chat_projection) (p : replay_part) : result chat_projection :=
  let native := if compatible then match native_of p with Some d => json_obj d | None => [] end else [] in
  match p with
  | ToolCall _ id name arguments => project_call native id name arguments st
  | AssistantText _ text =>
      let! _ := match native with [] => Ok () | _ => check_media native end in
      Ok (with_text text (mk_projection (dict_update (cp_message st) native) (cp_text st) (cp_call_ids st)))
  | AssistantReasoning _ text =>
      match native with
      | (key, block) :: _ => project_native_reasoning key block text st
      | [] => Ok (with_text text st)
      end
  end.

Fixpoint project_chat_parts (st : chat_projection) (ps : list replay_part) : result chat_projection :=
  match ps with
  | [] => Ok st
  | p :: ps' => let! st := project_chat_part st p in project_chat_parts st ps'
  end.
End Project.

Definition blank_line : string := newline +:+ newline.

(** [project_chat_turn]: the message, and the private ids of its calls. *)
Definition project_chat_turn (media_inputs : option (list string)) (anthropic_cache_marking : bool) (scope : option string) (t : turn) :
    result (obj * dict string string) :=
  let compatible := negb (bool_decide (scope = None)) && bool_decide (replay_scope t = scope) in
  let! provider := scope_provider scope in
  let! st :=
    project_chat_parts (check_replayed_native_media media_inputs (interface_for_provider provider)) compatible provider
      (mk_projection [("role", VStr "assistant"); ("content", VStr "")] [] []) (parts t) in
  let message :=
    match cp_text st with
    | [] =>
        if truthy (field_get "tool_calls" (cp_message st)) then dict_set "content" VNone (cp_message st) else cp_message st
    | texts =>
        let joined := String.concat blank_line texts in
        dict_set "content" (if anthropic_cache_marking then VList [VDict (wrap_anthropic_text joined)] else VStr joined)
          (cp_message st)
    end in
  Ok (message, cp_call_ids st).

(** ** A whole history *)

Inductive history_entry := HTurn (t : turn) | HBoundary | HMessage (d : obj).

(** [reject_native_message]: the dicts it looks at, then the checks. *)
Definition message_nodes (message : obj) : result (list obj * list pyval) :=
  let blocks :=
    match field_get "content" message with
    | VList content => omap (λ b, match b with VDict d => Some d | _ => None end) content
    | _ => []
    end in
  let! calls :=
    match field_get "tool_calls" message with
    | VNone => Ok []
    | VList calls => Ok calls
    | _ => Raise ReasoningReplayError
    end in
  let! nodes :=
    map_result (λ call,
      match call with
      | VDict d => match field_get "function" d with VDict f => Ok [d; f] | _ => Raise ReasoningReplayError end
      | _ => Raise ReasoningReplayError
      end) calls in
  Ok ((message :: blocks ++ concat nodes)%list, calls).

Definition private_keys : list string := ["_nooa_llm_state"; "reasoning_items"; "thinking_blocks"; "provider_specific_fields"].

Definition native_node (d : obj) : bool :=
  existsb (λ key, truthy (field_get key d)) private_keys
  || one_of ["reasoning"; "thinking"; "redacted_thinking"] (field_get "type" d).

Definition inline_id (v : pyval) : bool :=
  match v with VStr s => match split_first thought_separator s with Some _ => true | None => false end | _ => false end.

Definition reject_native_message (message : obj) : result () :=
  let! found := message_nodes message in
  let '(nodes, calls) := found in
  if existsb native_node nodes then Raise ReasoningReplayError
  else if existsb inline_id (field_get "tool_call_id" message :: ((λ c, field_or_none c "id") <$> calls))
  then Raise ReasoningReplayError
  else Ok ().

(** A projected turn that says something. *)
Definition says_something (message : obj) : bool :=
  truthy (field_get "content" message) || truthy (field_get "reasoning_content" message)
  || truthy (field_get "tool_calls" message)
  || existsb (λ key, dict_mem key message) ["thinking_blocks"; "reasoning_items"; "provider_specific_fields"].

(** A plain message as it is sent: its content wrapped where Anthropic marks
    are used, its result reconnected to the private id of its call. *)
Definition prepare_message (anthropic_cache_marking : bool) (private_call_ids : dict string string) (message : obj) : obj :=
  let message :=
    match field_get "content" message with
    | VStr (String _ _ as content) =>
        if anthropic_cache_marking then dict_set "content" (VList [VDict (wrap_anthropic_text content)]) message else message
    | _ => message
    end in
  match field_get "tool_call_id" message with
  | VStr call_id => dict_set "tool_call_id" (VStr (default call_id (dict_get call_id private_call_ids))) message
  | _ => message
  end.

Section Prepare.
Context (media_inputs : option (list string)) (anthropic_cache_marking : bool) (scope : option string).

(** The body of the loop of [prepare_chat_messages]: what is appended, and the
    private ids from then on. *)
Definition prepare_entry (private_call_ids : dict string string) (e : history_entry) :
    result (list cache_entry * dict string string) :=
  match e with
  | HTurn t =>
      let! projected := project_chat_turn media_inputs anthropic_cache_marking scope t in
      let '(message, ids) := projected in
      Ok (if says_something message then [Message message] else [], dict_update private_call_ids ids)
  | HBoundary => Ok ([CacheBoundary], private_call_ids)
  | HMessage d =>
      let! _ := reject_boundary_dict d in
      let! _ := reject_native_message d in
      Ok ([Message (prepare_message anthropic_cache_marking private_call_ids d)], private_call_ids)
  end.

Fixpoint prepare_entries (private_call_ids : dict string string) (messages : list history_entry) : result (list cache_entry) :=
  match messages with
  | [] => Ok []
  | e :: messages' =>
      let! step := prepare_entry private_call_ids e in
      let! rest := prepare_entries step.2 messages' in
      Ok (step.1 ++ rest)%list
  end.
End Prepare.

(** [prepare_chat_messages]. *)
Definition prepare_chat_messages (media_inputs : option (list string)) (anthropic_cache_marking : bool) (scope : option string)
    (messages : list history_entry) : result (list cache_entry) :=
  prepare_entries media_inputs anthropic_cache_marking scope [] messages.
