(* ===== verification/ChatReplayRuns.v ===== *)
(** * Chat turns keep their calls and their signed reasoning *)

From Stdlib Require Import Ascii.
From S2P Require Import Prelude PyDict PyStr Values Replay CachePolicy ReplayRuns ChatReplay.
Local Open Scope string_scope.
Local Open Scope nooa_scope.

(** ** Splitting at a separator *)

Lemma strip_prefix_spec prefix s rest : strip_prefix prefix s = Some rest → s = prefix +:+ rest.
Proof.
  revert s. induction prefix as [|a prefix IH]; intros s; [by intros [= ->]|]. destruct s as [|b s]; [done|]. cbn.
  destruct (Ascii.eqb_spec a b) as [->|]; [|done]. intros H%IH.
  change (String b s = String b (prefix +:+ rest)). by rewrite H.
Qed.

Lemma split_first_spec sep s a b : split_first sep s = Some (a, b) → s = a +:+ sep +:+ b.
Proof.
  revert a. induction s as [|c s IH]; intros a; cbn [split_first].
  - destruct (strip_prefix sep "") as [rest|] eqn:Hp; [|done]. intros [= <- <-]. exact (strip_prefix_spec _ _ _ Hp).
  - destruct (strip_prefix sep (String c s)) as [rest|] eqn:Hp.
    + intros [= <- <-]. exact (strip_prefix_spec _ _ _ Hp).
    + destruct (split_first sep s) as [[a' b']|] eqn:Hs; [|done]. intros [= <- <-].
      change (String c s = String c (a' +:+ sep +:+ b')). f_equal. exact (IH a' eq_refl).
Qed.

(** ** The parts that capture makes *)

Definition list_at (key : string) (d : obj) : list pyval :=
  match dict_get key d with Some (VList l) => l | _ => [] end.

(** The native state of a captured part. *)
Definition captured_part (p : replay_part) : Prop :=
  match p with
  | ToolCall (Some d) _ _ _ =>
      (∃ sig, d = [("provider_specific_fields", VDict [("thought_signature", VStr sig)])]) ∨
      (∃ sig, sig ≠ "" ∧ d = [("inline_thought_signature", VStr sig)]) ∨
      (∃ sig, sig ≠ "" ∧ d = [("provider_specific_fields", VDict [("thought_signature", VStr sig)]); ("inline_thought_signature", VStr sig)])
  | AssistantText (Some d) _ => ∃ sigs, d = [("provider_specific_fields", VDict [("thought_signatures", sigs)])]
  | AssistantReasoning (Some d) _ => ∃ key block, d = [(key, block)]
  | _ => True
  end.

Lemma tool_call_state_spec call native :
  tool_call_state call = Ok native →
  frozen_native native = Ok native ∧ ∀ id name arguments, captured_part (ToolCall native id name arguments).
Proof.
  unfold tool_call_state. destruct (opaque_item call) as [| | | | | | |dumped]; try done.
  match goal with |- context [result_bind ?x] => destruct x as [fields|]; cbn [result_bind]; [|done] end.
  match goal with |- context [result_bind ?x] => destruct x as [signature|]; cbn [result_bind]; [|done] end.
  match goal with |- context [result_bind ?x] => destruct x as [inline|] eqn:Hi; cbn [result_bind]; [|done] end.
  assert (Hin : ∀ i, inline = Some i → i ≠ "").
  { intros i Hie. rewrite Hie in Hi. clear Hie. destruct (field_get "id" dumped); try done. destruct (split_first _ _) as [[x [|c y]]|]; try done. by injection Hi as <-. }
  clear Hi. destruct signature as [s|], inline as [i|].
  - destruct (String.eqb_spec s i) as [->|]; [|done]. intros [= <-]. split; [done|]. intros id name arguments. right. right. exists i. auto.
  - intros [= <-]. split; [done|]. intros id name arguments. left. by exists s.
  - intros [= <-]. split; [done|]. intros id name arguments. right. left. exists i. auto.
  - by intros [= <-].
Qed.

(** A reasoning part with one native field. *)
Lemma reasoning_part_one text key block p :
  reasoning_part text (Some [(key, block)]) = Ok p → ∃ f, freeze block = Ok f ∧ p = AssistantReasoning (Some [(key, f)]) text.
Proof.
  unfold reasoning_part, frozen_native, freeze_obj. cbn. destruct (freeze block) as [f|]; cbn; [|done]. intros [= <-]. by exists f.
Qed.

Lemma capture_thinking_captured block p : capture_thinking block = Ok p → captured_part p.
Proof.
  unfold capture_thinking. intros H.
  repeat (break_match; simplify_eq/=; try done);
    first [by injection H as <- | apply reasoning_part_one in H as (f & _ & ->); by eexists _, _].
Qed.

Lemma capture_reasoning_item_captured block p b : capture_reasoning_item block = Ok (p, b) → captured_part p.
Proof.
  unfold capture_reasoning_item. destruct (opaque_item block) as [| | | | | | |native]; try done.
  destruct (is_str _ _); [|done]. destruct (is_null _); cbn [result_bind].
  - destruct (capture_summary native) as [[text d]|]; cbn; [|done]. by intros [= <- <-].
  - destruct (validate_native_reasoning _ _ _); cbn [result_bind]; [|done].
    destruct (capture_summary native) as [[text d]|]; cbn [result_bind]; [|done].
    match goal with |- context [result_bind ?x] => destruct x as [q|] eqn:Hq; cbn [result_bind]; [|done] end.
    intros [= <- <-]. cbn [snd] in Hq. apply reasoning_part_one in Hq as (f & _ & ->). by eexists _, _.
Qed.

Lemma capture_reasoning_text_captured scope message ps qs :
  capture_reasoning_text scope message ps = Ok qs → Forall captured_part qs.
Proof.
  unfold capture_reasoning_text. destruct (if truthy _ then _ else _) as [| | | |s| | |]; try done; [by intros [= <-]|].
  destruct s as [|c s]; [by intros [= <-]|]. destruct (_ || _); [by intros [= <-]|].
  destruct (_ && _).
  - match goal with |- context [result_bind ?x] => destruct x as [q|] eqn:Hq; cbn [result_bind]; [|done] end. intros [= <-].
    apply reasoning_part_one in Hq as (f & _ & ->). constructor; [by eexists _, _|constructor].
  - cbn. intros [= <-]. by repeat constructor.
Qed.

Lemma capture_chat_text_captured provider message p : capture_chat_text provider message = Ok p → captured_part p ∧ ∃ native text, p = AssistantText native text.
Proof.
  unfold capture_chat_text. match goal with |- context [result_bind ?x] => destruct x as [native|] eqn:Hn; cbn [result_bind]; [|done] end.
  assert (Hcap : ∀ f, frozen_native native = Ok f → ∀ text, captured_part (AssistantText f text)).
  { intros f Hf text. destruct native as [d|]; [|by injection Hf as <-].
    assert (∃ sigs, d = [("provider_specific_fields", VDict [("thought_signatures", sigs)])]) as [sigs ->].
    { repeat (break_match; simplify_eq/=; try done). by eexists. }
    unfold frozen_native, freeze_obj in Hf. cbn in Hf. destruct (freeze sigs) as [fs|]; cbn in Hf; [|done]. injection Hf as <-.
    cbn. by eexists. }
  destruct (frozen_native native) as [f|] eqn:Hf; cbn [result_bind]; [|done]. specialize (Hcap f eq_refl).
  destruct (field_or_none message "content"); try done; intros [= <-]; (split; [apply Hcap|by eexists _, _]).
Qed.

(** ** The fields of the projected message *)

(** What a part adds to the tool calls of the message. *)
Definition call_native (compatible : bool) (native : option obj) : obj :=
  if compatible then match native with Some d => json_obj d | None => [] end else [].

Definition private_call_id (compatible : bool) (native : option obj) (id : string) : option string :=
  match field_get "inline_thought_signature" (call_native compatible native) with
  | VStr (String _ _ as s) => Some (id +:+ thought_separator +:+ s)
  | _ => None
  end.

Definition wire_call (compatible : bool) (native : option obj) (id name arguments : string) : obj :=
  dict_update
    [("id", VStr (default id (private_call_id compatible native id))); ("type", VStr "function");
     ("function", VDict [("name", VStr name); ("arguments", VStr arguments)])]
    (dict_del "inline_thought_signature" (call_native compatible native)).

Definition wire_calls (compatible : bool) (p : replay_part) : list pyval :=
  match p with ToolCall native id name arguments => [VDict (wire_call compatible native id name arguments)] | _ => [] end.

Definition privates (compatible : bool) (p : replay_part) : list (string * string) :=
  match p with
  | ToolCall native id _ _ => match private_call_id compatible native id with Some s => [(id, s)] | None => [] end
  | _ => []
  end.

Lemma captured_call_signature compatible native id name arguments :
  captured_part (ToolCall native id name arguments) →
  field_get "inline_thought_signature" (call_native compatible native) = VNone ∨
  ∃ c s, field_get "inline_thought_signature" (call_native compatible native) = VStr (String c s).
Proof.
  unfold call_native. destruct compatible; [|by left]. destruct native as [d|]; [|by left].
  intros [(sig & ->)|[(sig & Hs & ->)|(sig & Hs & ->)]]; [by left|right..]; destruct sig as [|c s]; try done; by exists c, s.
Qed.

Lemma append_to_list key item message message' :
  append_to key item message = Ok message' →
  list_at key message' = (list_at key message ++ [item])%list ∧ ∀ k, k ≠ key → dict_get k message' = dict_get k message.
Proof.
  unfold append_to, list_at. destruct (dict_get key message) as [[| | | | |l| |]|]; try done; intros [= <-];
    (split; [by rewrite dict_get_set_eq|intros k Hk; by apply dict_get_set_ne]).
Qed.

Section Projection.
Context (check : obj → result ()) (compatible : bool) (provider : option string).

Lemma project_call_spec native id name arguments st st' :
  captured_part (ToolCall native id name arguments) →
  project_chat_part check compatible provider st (ToolCall native id name arguments) = Ok st' →
  list_at "tool_calls" (cp_message st') = (list_at "tool_calls" (cp_message st) ++ wire_calls compatible (ToolCall native id name arguments))%list ∧
  (∀ k, k ≠ "tool_calls" → dict_get k (cp_message st') = dict_get k (cp_message st)) ∧
  cp_text st' = cp_text st ∧
  cp_call_ids st' = foldl (λ d kv, dict_set kv.1 kv.2 d) (cp_call_ids st) (privates compatible (ToolCall native id name arguments)).
Proof.
  intros Hcap. pose proof (captured_call_signature compatible native id name arguments Hcap) as Hs.
  cbn [project_chat_part native_of]. fold (call_native compatible native). unfold project_call.
  cbn [wire_calls privates]. unfold wire_call, private_call_id.
  destruct Hs as [Hs|(c & s & Hs)]; rewrite Hs; cbn [result_bind default];
    (match goal with |- context [result_bind ?x] => destruct x as [message|] eqn:Ha; cbn [result_bind]; [|done] end);
    intros [= <-]; cbn [cp_message cp_text cp_call_ids]; apply append_to_list in Ha as [Ha Hk]; split_and!; try done.
Qed.

(** What a part adds to the thinking blocks. *)
Definition wire_thinking (p : replay_part) : list pyval :=
  match p with
  | AssistantReasoning (Some ((key, block) :: _)) text =>
      if compatible && String.eqb key "thinking_blocks" then
        match json_containers block with
        | VDict d =>
            [VDict (if is_str "thinking" (field_get "type" d) then dict_set "thinking" (VStr text) d else d)]
        | _ => []
        end
      else []
  | _ => []
  end.

(** The three fields of the message that are lists. *)
Definition list_keys : list string := ["tool_calls"; "thinking_blocks"; "reasoning_items"].

Lemma project_other_spec p st st' :
  captured_part p → is_tool_call p = false → project_chat_part check compatible provider st p = Ok st' →
  dict_get "tool_calls" (cp_message st') = dict_get "tool_calls" (cp_message st) ∧
  list_at "thinking_blocks" (cp_message st') = (list_at "thinking_blocks" (cp_message st) ++ wire_thinking p)%list ∧
  cp_call_ids st' = cp_call_ids st.
Proof.
  destruct p as [|native text|native text]; [done|..]; intros Hcap _; cbn [project_chat_part native_of]; fold (call_native compatible native).
  - match goal with |- context [result_bind ?x] => destruct x; cbn [result_bind]; [|done] end. intros [= <-].
    assert (Hk : ∀ k, k ≠ "provider_specific_fields" → dict_get k (dict_update (cp_message st) (call_native compatible native)) = dict_get k (cp_message st)).
    { intros k Hk. unfold call_native. destruct compatible; [|done]. destruct native as [d|]; [|done]. destruct Hcap as [sigs ->].
      cbn. by apply dict_get_set_ne. }
    cbn [wire_thinking]. rewrite app_nil_r. unfold with_text, list_at.
    destruct (String.eqb text ""); cbn [cp_message cp_call_ids]; rewrite !Hk; done.
  - unfold call_native. destruct native as [d|]; [destruct Hcap as (key & block & ->)|].
    2: { cbn [wire_thinking]. rewrite app_nil_r. destruct compatible; intros [= <-]; unfold with_text; by destruct (String.eqb text ""). }
    cbn [wire_thinking]. destruct compatible; cbn [andb].
    2: { rewrite app_nil_r. intros [= <-]. unfold with_text. by destruct (String.eqb text ""). }
    cbn [json_obj fmap list_fmap fst snd]. unfold project_native_reasoning.
    destruct (String.eqb_spec key "reasoning_content") as [->|Hne1].
    { intros [= <-]. cbn [cp_message cp_call_ids String.eqb Ascii.eqb Bool.eqb]. rewrite app_nil_r. unfold list_at. by rewrite !dict_get_set_ne. }
    destruct (String.eqb_spec key "thinking_blocks") as [->|Hne2].
    { destruct (json_containers block) as [| | | | | | |d]; try done. unfold field_get. destruct (dict_get "type" d) as [kind|]; [|done]. cbn [from_option id].
      match goal with |- context [result_bind ?x] => destruct x as [m|] eqn:Ha; cbn [result_bind]; [|done] end. intros [= <-].
      cbn [cp_message cp_call_ids]. apply append_to_list in Ha as [Ha Hk]. rewrite Hk by done. by rewrite Ha. }
    destruct (String.eqb_spec key "reasoning_items") as [->|]; [|done]. rewrite app_nil_r.
    destruct (native_provider provider); [|done]. destruct (json_containers block) as [| | | | | | |d]; try done.
    destruct (validate_native_reasoning true true d); cbn [result_bind]; [|done].
    destruct (restore_summary d text) as [d'|]; cbn [result_bind]; [|done].
    match goal with |- context [result_bind ?x] => destruct x as [m|] eqn:Ha; cbn [result_bind]; [|done] end. intros [= <-].
    cbn [cp_message cp_call_ids]. apply append_to_list in Ha as [_ Hk]. unfold list_at. by rewrite !Hk.
Qed.

(** The whole loop: calls, thinking blocks and private ids are those of the
    parts, in order. *)
Lemma project_parts_spec ps st st' :
  Forall captured_part ps → project_chat_parts check compatible provider st ps = Ok st' →
  list_at "tool_calls" (cp_message st') = (list_at "tool_calls" (cp_message st) ++ concat (wire_calls compatible <$> ps))%list ∧
  list_at "thinking_blocks" (cp_message st') = (list_at "thinking_blocks" (cp_message st) ++ concat (wire_thinking <$> ps))%list ∧
  cp_call_ids st' = foldl (λ d kv, dict_set kv.1 kv.2 d) (cp_call_ids st) (concat (privates compatible <$> ps)).
Proof.
  intros Hps. revert st. induction Hps as [|p ps Hp _ IH]; intros st; cbn [project_chat_parts].
  - intros [= <-]. cbn. by rewrite !app_nil_r.
  - destruct (project_chat_part check compatible provider st p) as [st1|] eqn:H1; cbn [result_bind]; [|done]. intros H2.
    destruct (IH st1 H2) as (-> & -> & ->). cbn [fmap list_fmap concat]. rewrite foldl_app, !app_assoc.
    destruct (is_tool_call p) eqn:Hc.
    + destruct p as [native id name arguments| |]; try done.
      destruct (project_call_spec native id name arguments st st1 Hp H1) as (-> & Hk & _ & ->).
      cbn [wire_thinking]. rewrite app_nil_r. split_and!; try done. unfold list_at. by rewrite Hk.
    + destruct (project_other_spec p st st1 Hp Hc H1) as (Hk & -> & ->).
      assert (wire_calls compatible p = []) as -> by (by destruct p). assert (privates compatible p = []) as -> by (by destruct p).
      cbn [foldl]. rewrite app_nil_r. split_and!; try done. unfold list_at. by rewrite Hk.
Qed.
End Projection.

(** ** Turns and histories *)

Definition same_scope (scope : option string) (t : turn) : bool :=
  negb (bool_decide (scope = None)) && bool_decide (replay_scope t = scope).

Definition captured_turn (t : turn) : Prop := Forall captured_part (parts t).

Definition turn_privates (scope : option string) (t : turn) : list (string * string) :=
  concat (privates (same_scope scope t) <$> parts t).

Lemma project_turn_spec media marking scope t m ids :
  captured_turn t → project_chat_turn media marking scope t = Ok (m, ids) →
  list_at "tool_calls" m = concat (wire_calls (same_scope scope t) <$> parts t) ∧
  list_at "thinking_blocks" m = concat (wire_thinking (same_scope scope t) <$> parts t) ∧
  ids = foldl (λ d kv, dict_set kv.1 kv.2 d) [] (turn_privates scope t).
Proof.
  intros Ht. unfold project_chat_turn. fold (same_scope scope t).
  destruct (scope_provider scope) as [provider|]; cbn [result_bind]; [|done].
  destruct (project_chat_parts _ _ _ _ _) as [st|] eqn:Hp; cbn [result_bind]; [|done].
  apply project_parts_spec in Hp as (H1 & H2 & H3); [|done]. intros [= <- <-]. cbn [cp_message cp_call_ids] in *.
  assert (Hk : ∀ v, list_at "tool_calls" (dict_set "content" v (cp_message st)) = list_at "tool_calls" (cp_message st) ∧
    list_at "thinking_blocks" (dict_set "content" v (cp_message st)) = list_at "thinking_blocks" (cp_message st)).
  { intros v. unfold list_at. by rewrite !dict_get_set_ne. }
  split_and!; [| |done]; destruct (cp_text st); try (destruct (truthy _)); rewrite ?(proj1 (Hk _)), ?(proj2 (Hk _)); done.
Qed.

(** The private id that was given last to a public one. *)
Definition latest (cid : string) (l : list (string * string)) : option string :=
  last (omap (λ kv, if decide (kv.1 = cid) then Some kv.2 else None) l).

Lemma latest_app cid l1 l2 : latest cid (l1 ++ l2) = match latest cid l2 with Some p => Some p | None => latest cid l1 end.
Proof.
  unfold latest. rewrite omap_app. destruct (omap _ l2) as [|x l _] using rev_ind; cbn; [by rewrite app_nil_r|].
  by rewrite app_assoc, !last_snoc.
Qed.

Lemma foldl_set_get cid l (d : dict string string) :
  dict_get cid (foldl (λ d kv, dict_set kv.1 kv.2 d) d l) = match latest cid l with Some p => Some p | None => dict_get cid d end.
Proof.
  induction l as [|[k v] l IH] using rev_ind; [done|]. rewrite foldl_app, latest_app. cbn [foldl fst snd].
  rewrite dict_get_set, IH. unfold latest at 2. cbn. by case_decide as H1; case_decide; subst.
Qed.

Lemma foldl_set_wf l (d : dict string string) : dict_wf d → dict_wf (foldl (λ d kv, dict_set kv.1 kv.2 d) d l).
Proof. revert d. induction l as [|[k v] l IH]; intros d Hd; [done|]. by apply IH, dict_wf_set. Qed.

Definition entry_privates (scope : option string) (e : history_entry) : list (string * string) :=
  match e with HTurn t => turn_privates scope t | _ => [] end.
Definition history_privates (scope : option string) (entries : list history_entry) : list (string * string) :=
  concat (entry_privates scope <$> entries).

Definition captured_entry (e : history_entry) : Prop := match e with HTurn t => captured_turn t | _ => True end.

Section Histories.
Context (media : option (list string)) (marking : bool) (scope : option string).

Lemma prepare_entry_ids ids e out ids' cid :
  captured_entry e → prepare_entry media marking scope ids e = Ok (out, ids') →
  dict_get cid ids' = match latest cid (entry_privates scope e) with Some p => Some p | None => dict_get cid ids end.
Proof.
  destruct e as [t| |d]; cbn [prepare_entry captured_entry entry_privates].
  - intros Ht. destruct (project_chat_turn _ _ _ _) as [[m new]|] eqn:Hp; cbn [result_bind]; [|done]. intros [= _ <-].
    apply project_turn_spec in Hp as (_ & _ & ->); [|done]. rewrite dict_get_update by apply foldl_set_wf, dict_wf_nil.
    rewrite foldl_set_get. by destruct (latest cid _).
  - intros _ [= _ <-]. done.
  - intros _. destruct (reject_boundary_dict d); cbn [result_bind]; [|done].
    destruct (reject_native_message d); cbn [result_bind]; [|done]. by intros [= _ <-].
Qed.

Lemma prepare_app a b ids out :
  Forall captured_entry a → prepare_entries media marking scope ids (a ++ b) = Ok out →
  ∃ o1 o2 ids', out = (o1 ++ o2)%list ∧ prepare_entries media marking scope ids' b = Ok o2 ∧
    ∀ cid, dict_get cid ids' = match latest cid (history_privates scope a) with Some p => Some p | None => dict_get cid ids end.
Proof.
  intros Ha. revert ids out. induction Ha as [|e a He _ IH]; intros ids out; [by intros H; exists [], out, ids|].
  cbn [app prepare_entries].
  destruct (prepare_entry _ _ _ _ _) as [[o ids1]|] eqn:H1; cbn [result_bind fst snd]; [|done].
  destruct (prepare_entries _ _ _ ids1 _) as [rest|] eqn:H2; cbn [result_bind]; [|done]. intros [= <-].
  destruct (IH ids1 rest H2) as (o1 & o2 & ids' & -> & Hb & Hids). exists (o ++ o1)%list, o2, ids'.
  rewrite app_assoc. split_and!; [done..|]. intros cid. rewrite Hids.
  unfold history_privates. cbn [fmap list_fmap concat]. fold (history_privates scope a). rewrite latest_app.
  destruct (latest cid (history_privates scope a)); [done|]. by apply (prepare_entry_ids ids e o).
Qed.
End Histories.

(** ** A result and its call *)

Lemma elem_of_concat {A} (x : A) ls : x ∈ concat ls ↔ ∃ l, x ∈ l ∧ l ∈ ls.
Proof.
  induction ls as [|l ls IH]; cbn; [split; [by intros ?%elem_of_nil|by intros (l & _ & ?%elem_of_nil)]|].
  rewrite elem_of_app, IH. set_solver.
Qed.

Definition call_id_of (p : replay_part) : list string := match p with ToolCall _ id _ _ => [id] | _ => [] end.
Definition call_ids (t : turn) : list string := concat (call_id_of <$> parts t).

Lemma latest_absent cid l : cid ∉ l.*1 → latest cid l = None.
Proof.
  unfold latest. intros Hl. induction l as [|[k v] l IH]; [done|]. cbn in *. apply not_elem_of_cons in Hl as [Hk Hl].
  rewrite decide_False by done. by apply IH.
Qed.

Lemma latest_elem cid l p : latest cid l = Some p → (cid, p) ∈ l.
Proof.
  unfold latest. intros [x Hx]%last_Some. assert (Hin : p ∈ omap (λ kv, if decide (kv.1 = cid) then Some kv.2 else None) l) by (rewrite Hx; set_solver).
  apply list_elem_of_omap in Hin as ([k v] & Hin & Hd). cbn in Hd. case_decide; [|done]. by simplify_eq.
Qed.

Lemma privates_form compatible p cid v : (cid, v) ∈ privates compatible p → cid ∈ call_id_of p ∧ ∃ s, v = cid +:+ thought_separator +:+ s.
Proof.
  destruct p as [native id name arguments| |]; cbn; try (by intros ?%elem_of_nil). unfold private_call_id.
  destruct (field_get _ _) as [| | | |[|c s]| | |]; try (by intros ?%elem_of_nil).
  intros [= -> ->]%list_elem_of_singleton. split; [by apply list_elem_of_singleton|]. by eexists.
Qed.

Lemma privates_ids scope t cid v : (cid, v) ∈ turn_privates scope t → cid ∈ call_ids t ∧ ∃ s, v = cid +:+ thought_separator +:+ s.
Proof.
  unfold turn_privates, call_ids. intros (l & Hin & Hl)%elem_of_concat. apply list_elem_of_fmap in Hl as (p & -> & Hp).
  apply privates_form in Hin as [Hid Hs]. split; [|done]. apply elem_of_concat. exists (call_id_of p). split; [done|].
  apply list_elem_of_fmap. by exists p.
Qed.

Lemma private_differs cid s : cid +:+ thought_separator +:+ s ≠ cid.
Proof. intros H%(f_equal String.length). rewrite !str_length_app in H. cbn in H. lia. Qed.

(** The private id of a call among those of its turn. *)
Lemma latest_in_turn compatible ps native cid name arguments :
  ToolCall native cid name arguments ∈ ps → NoDup (concat (call_id_of <$> ps)) →
  latest cid (concat (privates compatible <$> ps)) = private_call_id compatible native cid.
Proof.
  intros (ps1 & ps2 & ->)%list_elem_of_split. rewrite !fmap_app, !concat_app. cbn [fmap list_fmap concat call_id_of privates].
  intros Hnd. apply NoDup_app in Hnd as (_ & Hdis & Hnd). apply NoDup_cons in Hnd as [Hnin _].
  assert (Habs : ∀ ps, cid ∉ concat (call_id_of <$> ps) → latest cid (concat (privates compatible <$> ps)) = None).
  { intros ps Hps. apply latest_absent. intros ([k v] & Hk & Hin)%list_elem_of_fmap. cbn in Hk. subst k.
    apply elem_of_concat in Hin as (l & Hin & Hl). apply list_elem_of_fmap in Hl as (p & -> & Hp).
    apply privates_form in Hin as [Hid _]. apply Hps, elem_of_concat. exists (call_id_of p). split; [done|].
    apply list_elem_of_fmap. by exists p. }
  rewrite !latest_app, (Habs ps2) by done. rewrite (Habs ps1).
  - destruct (private_call_id compatible native cid) as [s|]; [|done]. unfold latest. cbn. by rewrite decide_True.
  - intros Hin. apply (Hdis cid Hin). by left.
Qed.

Lemma wire_call_id compatible native cid name arguments :
  captured_part (ToolCall native cid name arguments) →
  dict_get "id" (wire_call compatible native cid name arguments) = Some (VStr (default cid (private_call_id compatible native cid))).
Proof.
  unfold wire_call, private_call_id, call_native. destruct compatible; [|done]. destruct native as [d|]; [|done].
  intros [(sig & ->)|[(sig & Hs & ->)|(sig & Hs & ->)]]; reflexivity.
Qed.

Lemma calls_say_something m call : call ∈ list_at "tool_calls" m → says_something m = true.
Proof.
  unfold list_at, says_something, field_get at 3. destruct (dict_get "tool_calls" m) as [[| | | | |l| |]|]; try (by intros ?%elem_of_nil).
  destruct l; [by intros ?%elem_of_nil|]. intros _. cbn. by rewrite orb_true_r.
Qed.

Lemma prepare_message_id marking ids d cid :
  field_get "tool_call_id" d = VStr cid →
  dict_get "tool_call_id" (prepare_message marking ids d) = Some (VStr (default cid (dict_get cid ids))).
Proof.
  intros Hd. unfold prepare_message.
  match goal with |- context [match field_get "tool_call_id" ?x with _ => _ end] => assert (Hx : field_get "tool_call_id" x = VStr cid) end.
  { destruct (field_get "content" d) as [| | | |[|c s]| | |]; try done. destruct marking; [|done].
    unfold field_get. by rewrite dict_get_set_ne. }
  rewrite Hx. apply dict_get_set_eq.
Qed.

Lemma history_elem scope entries cid v :
  (cid, v) ∈ history_privates scope entries → ∃ t, HTurn t ∈ entries ∧ (cid, v) ∈ turn_privates scope t.
Proof.
  unfold history_privates. intros (l & Hin & Hl)%elem_of_concat. apply list_elem_of_fmap in Hl as (e & -> & He).
  destruct e as [t| |]; cbn in Hin; [by exists t|by apply elem_of_nil in Hin..].
Qed.

Lemma history_absent scope entries cid :
  (∀ t, HTurn t ∈ entries → cid ∉ call_ids t) → cid ∉ (history_privates scope entries).*1.
Proof.
  intros Hno ([k v] & Hk & Hin)%list_elem_of_fmap. cbn in Hk. subst k. apply history_elem in Hin as (t & Ht & Hin).
  apply privates_ids in Hin as [Hid _]. by apply (Hno t).
Qed.

Lemma history_form scope entries cid v :
  (cid, v) ∈ history_privates scope entries → ∃ s, v = cid +:+ thought_separator +:+ s.
Proof. intros (t & _ & Hin)%history_elem. by apply privates_ids in Hin as [_ Hs]. Qed.

(** C33.  A tool result, sent after the latest turn that has the call it names,
    carries the id under which that call is sent exactly when the call has a
    signature of its own in its id, or no earlier turn had one for the same
    public id. Otherwise, where a provider uses the id again, the result is
    sent under the id of a call of an earlier turn. *)
Theorem tool_result_id media marking scope pre t mid d cid native name arguments out :
  Forall captured_entry (pre ++ HTurn t :: mid) →
  prepare_chat_messages media marking scope (pre ++ HTurn t :: mid ++ [HMessage d]) = Ok out →
  ToolCall native cid name arguments ∈ parts t → NoDup (call_ids t) →
  (∀ t', HTurn t' ∈ mid → cid ∉ call_ids t') → field_get "tool_call_id" d = VStr cid →
  ∃ m call r, Message m ∈ out ∧ VDict call ∈ list_at "tool_calls" m ∧
    dict_get "id" call = Some (VStr (default cid (private_call_id (same_scope scope t) native cid))) ∧
    last out = Some (Message r) ∧
    (dict_get "tool_call_id" r = dict_get "id" call ↔
     private_call_id (same_scope scope t) native cid ≠ None ∨ latest cid (history_privates scope pre) = None).
Proof.
  intros Hcap Hout Hcall Hnd Hmid Hd. apply Forall_app in Hcap as [Hpre Hcap]. apply Forall_cons in Hcap as [Ht Hmidc].
  unfold prepare_chat_messages in Hout. apply prepare_app in Hout as (o1 & o2 & ids1 & -> & Hout & Hids1); [|done].
  change (HTurn t :: mid ++ [HMessage d]) with ([HTurn t] ++ mid ++ [HMessage d])%list in Hout.
  cbn [app prepare_entries] in Hout. destruct (prepare_entry _ _ _ _ _) as [[o ids2]|] eqn:Hturn; cbn [result_bind fst snd] in Hout; [|done].
  pose proof (λ cid, prepare_entry_ids media marking scope ids1 (HTurn t) o ids2 cid Ht Hturn) as Hids2.
  destruct (prepare_entries _ _ _ ids2 _) as [rest|] eqn:Hrest; cbn [result_bind] in Hout; [|done]. injection Hout as <-.
  apply prepare_app in Hrest as (o3 & o4 & ids3 & -> & Hlast & Hids3); [|done].
  cbn [prepare_entries prepare_entry] in Hlast.
  destruct (reject_boundary_dict d); cbn [result_bind] in Hlast; [|done].
  destruct (reject_native_message d); cbn [result_bind fst snd] in Hlast; [|done]. injection Hlast as <-.
  cbn [prepare_entry] in Hturn. destruct (project_chat_turn media marking scope t) as [[m new]|] eqn:Hp; cbn [result_bind] in Hturn; [|done].
  injection Hturn as <- <-. apply project_turn_spec in Hp as (Hcalls & _ & _); [|done].
  set (call := wire_call (same_scope scope t) native cid name arguments).
  assert (Hin : VDict call ∈ list_at "tool_calls" m).
  { rewrite Hcalls. apply elem_of_concat. exists [VDict call]. split; [by apply list_elem_of_singleton|].
    apply list_elem_of_fmap. by exists (ToolCall native cid name arguments). }
  assert (Hid : dict_get "id" call = Some (VStr (default cid (private_call_id (same_scope scope t) native cid)))).
  { apply wire_call_id. unfold captured_entry, captured_turn in Ht. rewrite Forall_forall in Ht. by apply Ht. }
  exists m, call, (prepare_message marking ids3 d). split_and!; [|done|done| |].
  - rewrite (calls_say_something m _ Hin). set_solver.
  - rewrite ?app_nil_r, !app_assoc. apply last_snoc.
  - rewrite (prepare_message_id _ _ _ cid Hd), Hid, Hids3, Hids2, Hids1. cbn [entry_privates].
    rewrite (latest_absent cid (history_privates scope mid)) by (by apply history_absent).
    unfold turn_privates. rewrite (latest_in_turn _ _ native cid name arguments Hcall Hnd).
    destruct (private_call_id _ native cid) as [p|]; [by split; [left|]|]. cbn [default].
    destruct (latest cid (history_privates scope pre)) as [p|] eqn:Hl; [|by split; [right|]].
    apply latest_elem, history_form in Hl as [s ->]. split; [|by intros [?|?]].
    intros [= H]. by apply private_differs in H.
Qed.

(** ** A captured message is sent again *)

(** The signature field of a call. *)
Definition thought_signature (call : pyval) : option string :=
  match field_get "provider_specific_fields" (match call with VDict d => d | _ => [] end) with
  | VDict fields => match dict_get "thought_signature" fields with Some (VStr s) => Some s | _ => None end
  | _ => None
  end.

Definition call_state (signature inline : option string) : option obj :=
  match signature, inline with
  | None, None => None
  | _, _ =>
      Some (match signature with Some s => [("provider_specific_fields", VDict [("thought_signature", VStr s)])] | None => [] end ++
            match inline with Some i => [("inline_thought_signature", VStr i)] | None => [] end)%list
  end.

Lemma opaque_str_inv v s : opaque_item v = VStr s → v = VStr s.
Proof. by destruct v. Qed.

Lemma opaque_default_str (o : option pyval) s : default VNone (opaque_item <$> o) = VStr s → default VNone o = VStr s.
Proof. destruct o as [v|]; [|done]. cbn. apply opaque_str_inv. Qed.

Lemma tool_call_state_detail call native :
  tool_call_state call = Ok native →
  ∃ inline, native = call_state (thought_signature call) inline ∧
    match inline with
    | Some i => i ≠ "" ∧ ∃ s a, field_or_none call "id" = VStr s ∧ split_first thought_separator s = Some (a, i)
    | None => True
    end.
Proof.
  unfold tool_call_state. destruct (opaque_item call) as [| | | | | | |dumped] eqn:Hd; try done.
  destruct call as [| | | | | | |d]; try done. cbn [opaque_item] in Hd. injection Hd as <-. unfold thought_signature, field_or_none, field, field_get.
  rewrite !opaque_dict_get.
  match goal with |- context [result_bind ?x] => destruct x as [fields|] eqn:Hf; cbn [result_bind]; [|done] end.
  match goal with |- context [result_bind ?x] => destruct x as [signature|] eqn:Hs; cbn [result_bind]; [|done] end.
  match goal with |- context [result_bind ?x] => destruct x as [inline|] eqn:Hi; cbn [result_bind]; [|done] end.
  assert (Hin : match inline with
    | Some i => i ≠ "" ∧ ∃ s a, default VNone (dict_get "id" d) = VStr s ∧ split_first thought_separator s = Some (a, i)
    | None => True end).
  { destruct inline as [i|]; [|done]. destruct (default VNone (opaque_item <$> dict_get "id" d)) as [| | | |s| | |] eqn:Hid; try done.
    apply opaque_default_str in Hid. destruct (split_first thought_separator s) as [[a [|c b]]|] eqn:Hsp; try done. injection Hi as <-.
    split; [done|]. by exists s, a. }
  assert (Hsig : signature = match default VNone (dict_get "provider_specific_fields" d) with
    | VDict fields => match dict_get "thought_signature" fields with Some (VStr s) => Some s | _ => None end | _ => None end).
  { clear Hi Hin. destruct (dict_get "provider_specific_fields" d) as [v|]; cbn in Hf |- *; [|injection Hf as <-; cbn in Hs; by injection Hs as <-].
    destruct v; cbn in Hf; try done; injection Hf as <-; [by injection Hs as <-|]. rewrite opaque_dict_get in Hs.
    destruct (dict_get "thought_signature" d0) as [w|]; cbn in Hs; [|by injection Hs as <-].
    destruct w as [| | | |[|c x]| | |]; try done. by injection Hs as <-. }
  rewrite <- Hsig. intros H. exists inline. split; [|done]. unfold call_state.
  destruct signature as [s|], inline as [i|]; cbn in *; try (by injection H as <-).
  destruct (String.eqb_spec s i) as [->|]; [|done]. by injection H as <-.
Qed.

(** The wire entry of a call has the id, the function and the signature that
    the provider sent. *)
Definition same_call_entry (call entry : pyval) : Prop :=
  ∃ e name arguments, entry = VDict e ∧ dict_get "id" e = Some (field_or_none call "id") ∧
    str_field (field_or_none (field_or_none call "function") "name") = Ok name ∧
    str_field (field_or_none (field_or_none call "function") "arguments") = Ok arguments ∧
    dict_get "function" e = Some (VDict [("name", VStr name); ("arguments", VStr arguments)]) ∧
    dict_get "provider_specific_fields" e = (λ s, VDict [("thought_signature", VStr s)]) <$> thought_signature call.

Lemma wire_call_same call native id name arguments :
  tool_call_state call = Ok native → public_id native (field_or_none call "id") = VStr id →
  str_field (field_or_none (field_or_none call "function") "name") = Ok name →
  str_field (field_or_none (field_or_none call "function") "arguments") = Ok arguments →
  same_call_entry call (VDict (wire_call true native id name arguments)).
Proof.
  intros (inline & -> & Hin)%tool_call_state_detail Hid Hname Hargs.
  exists (wire_call true (call_state (thought_signature call) inline) id name arguments), name, arguments.
  split_and!; [done| |done..| |].
  - destruct inline as [i|].
    + destruct Hin as (Hne & s & a & Hs & Hsp). rewrite Hs in Hid |- *. unfold public_id in Hid. destruct i as [|c i]; [done|].
      destruct (thought_signature call) as [sig|]; cbn in Hid; rewrite Hsp in Hid; injection Hid as <-; cbn;
        by rewrite (split_first_spec _ _ _ _ Hsp).
    + destruct (thought_signature call) as [sig|]; cbn in Hid |- *; [|by rewrite Hid].
      destruct (field_or_none call "id") as [| | | |s| | |]; try done. assert (Hs : VStr s = VStr id) by exact Hid. by rewrite Hs.
  - unfold wire_call. destruct (thought_signature call), inline; reflexivity.
  - unfold wire_call. destruct (thought_signature call), inline; reflexivity.
Qed.

(** A part that a compatible projection accepts. *)
Definition projectable (p : replay_part) : Prop :=
  captured_part p ∧
  match p with
  | AssistantReasoning (Some ((key, block) :: _)) _ =>
      key = "reasoning_content" ∨
      (key = "thinking_blocks" ∧ ∃ d kind, json_containers block = VDict d ∧ dict_get "type" d = Some kind)
  | _ => True
  end.

Definition lists_ok (m : obj) : Prop :=
  Forall (λ key, match dict_get key m with None | Some (VList _) => True | _ => False end) list_keys.

Lemma lists_ok_get m key : lists_ok m → key ∈ list_keys → match dict_get key m with None | Some (VList _) => True | _ => False end.
Proof. unfold lists_ok. rewrite Forall_forall. intros H Hk. exact (H key Hk). Qed.

Lemma lists_ok_set m key v : lists_ok m → (key ∈ list_keys → ∃ l, v = VList l) → lists_ok (dict_set key v m).
Proof.
  unfold lists_ok. rewrite !Forall_forall. intros Hm Hv k Hk. rewrite dict_get_set. case_decide; [|by apply Hm].
  subst k. by destruct (Hv Hk) as [l ->].
Qed.

Lemma append_to_ok key item m : lists_ok m → key ∈ list_keys → ∃ m', append_to key item m = Ok m' ∧ lists_ok m'.
Proof.
  intros Hm Hk. pose proof (lists_ok_get m key Hm Hk) as Hg. unfold append_to.
  destruct (dict_get key m) as [[| | | | |l| |]|]; try done; eexists; (split; [done|]); apply lists_ok_set; eauto.
Qed.

Section Success.
Context (check : obj → result ()) (provider : option string).
Context (Hcheck : ∀ v, check [("provider_specific_fields", v)] = Ok ()).

Lemma project_part_ok st p : projectable p → lists_ok (cp_message st) →
  ∃ st', project_chat_part check true provider st p = Ok st' ∧ lists_ok (cp_message st').
Proof.
  intros [Hcap Hp] Hst. destruct p as [native id name arguments|native text|native text]; cbn [project_chat_part native_of].
  - fold (call_native true native). unfold project_call.
    destruct (captured_call_signature true native id name arguments Hcap) as [Hs|(c & s & Hs)]; rewrite Hs; cbn [result_bind default].
    + destruct (append_to_ok "tool_calls" (VDict (wire_call true native id name arguments)) (cp_message st) Hst) as (m & Hm & Hok); [set_solver|].
      unfold wire_call, private_call_id in Hm. rewrite Hs in Hm. cbn [default] in Hm. rewrite Hm. by eexists.
    + destruct (append_to_ok "tool_calls" (VDict (wire_call true native id name arguments)) (cp_message st) Hst) as (m & Hm & Hok); [set_solver|].
      unfold wire_call, private_call_id in Hm. rewrite Hs in Hm. cbn [default] in Hm. cbn. cbn in Hm. rewrite Hm. by eexists.
  - assert (Hm : lists_ok (dict_update (cp_message st) (call_native true native))).
    { unfold call_native. destruct native as [d|]; [|done]. destruct Hcap as [sigs ->]. cbn. apply lists_ok_set; [done|]. set_solver. }
    fold (call_native true native).
    assert (Hc : match call_native true native with [] => Ok () | _ :: _ => check (call_native true native) end = Ok ()).
    { unfold call_native. destruct native as [d|]; [|done]. destruct Hcap as [sigs ->]. apply Hcheck. }
    rewrite Hc. cbn [result_bind]. eexists. split; [done|]. unfold with_text. by destruct (String.eqb text "").
  - destruct native as [d|]; [destruct Hcap as (key & block & ->)|].
    2: { eexists. split; [done|]. unfold with_text. by destruct (String.eqb text ""). }
    cbn [json_obj fmap list_fmap fst snd]. unfold project_native_reasoning. destruct Hp as [->|[-> (d & kind & Hd & Hk)]].
    + eexists. split; [done|]. apply lists_ok_set; [done|]. set_solver.
    + cbn [String.eqb Ascii.eqb Bool.eqb]. rewrite Hd, Hk.
      destruct (append_to_ok "thinking_blocks" (VDict (if is_str "thinking" kind then dict_set "thinking" (VStr text) d else d)) (cp_message st) Hst)
        as (m & -> & Hm); [set_solver|]. by eexists.
Qed.

Lemma project_parts_ok ps st : Forall projectable ps → lists_ok (cp_message st) →
  ∃ st', project_chat_parts check true provider st ps = Ok st'.
Proof.
  intros Hps. revert st. induction Hps as [|p ps Hp _ IH]; intros st Hst; [by eexists|]. cbn [project_chat_parts].
  destruct (project_part_ok st p Hp Hst) as (st1 & -> & Hst1). cbn [result_bind]. by apply IH.
Qed.
End Success.

(** The signatures of a message attach nothing. *)
Lemma signatures_pass media provider v :
  check_replayed_native_media media (interface_for_provider provider) [("provider_specific_fields", v)] = Ok ().
Proof. destruct media; [|done]. unfold interface_for_provider. by case_bool_decide. Qed.

(** ** Thinking blocks *)

(** A thinking block that keeps its place: signed, or redacted. *)
Definition signed_block (block : pyval) : bool :=
  match opaque_item block with
  | VDict d => negb (is_str "thinking" (field_get "type" d) && is_null (field_get "signature" d))
  | _ => false
  end.

(** A block as a provider sends it. *)
Definition chat_block (block : pyval) : Prop :=
  ∀ d, opaque_item block = VDict d →
    dict_wf d ∧ (is_str "thinking" (field_get "type" d) = true → dict_get "thinking" d ≠ None).

Definition sent_again (block : pyval) : list pyval := if signed_block block then [block] else [].

Lemma capture_thinking_wire block p :
  chat_block block → capture_thinking block = Ok p →
  projectable p ∧ Forall2 (λ b v, veq (opaque_item b) v) (sent_again block) (wire_thinking true p).
Proof.
  intros Hb Hc. pose proof (capture_thinking_captured _ _ Hc) as Hcap. unfold sent_again, signed_block. revert Hc. unfold capture_thinking.
  destruct (opaque_item block) as [| | | | | | |d] eqn:Hd; try done. destruct (Hb d Hd) as [Hwf Hth].
  pose proof (opaque_item_obj _ _ Hd) as Ho. destruct (is_str "thinking" (field_get "type" d)) eqn:Htype.
  - destruct (dict_get "thinking" d) as [[| | | |text| | |]|] eqn:Ht; try done; [|by destruct (Hth eq_refl)]. cbn [from_option id default].
    assert (Hsig : field_get "signature" (dict_del "thinking" d) = field_get "signature" d).
    { unfold field_get. by rewrite dict_get_del_ne. }
    rewrite Hsig. destruct (field_get "signature" d) as [| | | |sig| | |]; try done; cbn [is_null andb negb].
    { intros [= <-]. by split. }
    destruct sig as [|c sig]; [done|]. intros (f & Hf & ->)%reasoning_part_one.
    assert (Hthaw : json_containers f = VDict (dict_del "thinking" d)).
    { apply opaque_obj_del with (k := "thinking") in Ho. unfold opaque_obj in Ho. rewrite <- Ho in Hf |- *. by apply json_containers_freeze. }
    unfold is_str, field_get in Htype. destruct (dict_get "type" d) as [kind|] eqn:Hkind; [|done].
    assert (Hkind' : dict_get "type" (dict_del "thinking" d) = Some kind) by (by rewrite dict_get_del_ne).
    split; [split; [done|]; right; split; [done|]; by exists (dict_del "thinking" d), kind|].
    cbn [wire_thinking andb String.eqb Ascii.eqb Bool.eqb]. rewrite Hthaw. unfold field_get. rewrite Hkind'. cbn [from_option id]. cbn in Htype.
    assert (is_str "thinking" kind = true) as -> by done. constructor; [|constructor]. rewrite Hd. constructor. intros k. rewrite dict_get_set.
    case_decide; [subst; rewrite Ht; apply veq_option|]. rewrite dict_get_del_ne by done. apply veq_option.
  - destruct (is_str "redacted_thinking" (field_get "type" d)) eqn:Hred; [|done]. cbn [andb negb].
    destruct (field_get "data" d) as [| | | |[|c data]| | |]; try done. intros (f & Hf & ->)%reasoning_part_one.
    assert (Hthaw : json_containers f = VDict d).
    { unfold opaque_obj in Ho. rewrite <- Ho in Hf |- *. by apply json_containers_freeze. }
    unfold is_str, field_get in Hred. destruct (dict_get "type" d) as [kind|] eqn:Hkind; [|done].
    split; [split; [done|]; right; split; [done|]; by exists d, kind|].
    cbn [wire_thinking andb String.eqb Ascii.eqb Bool.eqb]. rewrite Hthaw, Htype. constructor; [|constructor]. rewrite Hd. apply veq_refl.
Qed.

Lemma capture_calls_wire provider ids calls ps :
  capture_calls provider ids calls = Ok ps →
  Forall projectable ps ∧ Forall (λ p, is_tool_call p = true) ps ∧ Forall2 same_call_entry calls (concat (wire_calls true <$> ps)).
Proof.
  revert ids ps. induction calls as [|call calls IH]; intros ids ps; cbn [capture_calls]; [by intros [= <-]|].
  destruct (tool_call_state call) as [native|] eqn:Hstate; cbn [result_bind]; [|done]. destruct (_ && _); [done|].
  destruct (public_id native _) as [| | | |id| | |] eqn:Hid; try done. destruct (_ && _); [done|].
  destruct (str_field _) as [name|] eqn:Hname; cbn [result_bind]; [|done].
  destruct (str_field _) as [arguments|] eqn:Hargs in |- *; cbn [result_bind]; [|done].
  destruct (tool_call_state_spec call native Hstate) as [Hfr Hcap]. rewrite Hfr. cbn [result_bind].
  destruct (capture_calls _ _ calls) as [rest|] eqn:Hrest; cbn [result_bind]; [|done]. intros [= <-].
  destruct (IH _ _ Hrest) as (H1 & H2 & H3). split_and!; [constructor; [by split; [apply Hcap|]|done]|by constructor|].
  cbn. constructor; [|done]. by apply wire_call_same.
Qed.

Lemma no_wire_calls ps : Forall (λ p, is_tool_call p = false) ps → concat (wire_calls true <$> ps) = [].
Proof. induction 1 as [|p ps Hp _ IH]; [done|]. cbn. rewrite IH. by destruct p. Qed.

Lemma no_wire_thinking ps : Forall (λ p, is_tool_call p = true) ps → concat (wire_thinking true <$> ps) = [].
Proof. induction 1 as [|p ps Hp _ IH]; [done|]. cbn. rewrite IH. by destruct p. Qed.

Lemma thinking_wire blocks ps :
  Forall chat_block blocks → map_result capture_thinking blocks = Ok ps →
  Forall projectable ps ∧ Forall2 (λ b v, veq (opaque_item b) v) (concat (sent_again <$> blocks)) (concat (wire_thinking true <$> ps)).
Proof.
  intros Hb Hm%map_result_ok. induction Hm as [|b p blocks ps Hp _ IH]; [by split; constructor|].
  apply Forall_cons in Hb as [Hb Hbs]. destruct (IH Hbs) as [H1 H2]. destruct (capture_thinking_wire b p Hb Hp) as [H3 H4].
  split; [by constructor|]. cbn. by apply Forall2_app.
Qed.

Lemma reasoning_text_wire scope message ps qs :
  capture_reasoning_text scope message ps = Ok qs →
  Forall projectable qs ∧ Forall (λ p, is_tool_call p = false) qs ∧ concat (wire_thinking true <$> qs) = [].
Proof.
  unfold capture_reasoning_text. destruct (if truthy _ then _ else _) as [| | | |s| | |]; try done; [by intros [= <-]; repeat constructor|].
  destruct s as [|c s]; [by intros [= <-]; repeat constructor|]. destruct (_ || _); [by intros [= <-]; repeat constructor|]. destruct (_ && _).
  - match goal with |- context [result_bind ?x] => destruct x as [q|] eqn:Hq; cbn [result_bind]; [|done] end. intros [= <-].
    apply reasoning_part_one in Hq as (f & _ & ->). split_and!; [|by repeat constructor|done].
    constructor; [|constructor]. split; [by eexists _, _|by left].
  - cbn. intros [= <-]. by repeat constructor.
Qed.

(** C32.  A Chat message captured under a replay scope and projected into it
    again has the same signed and redacted thinking blocks, in order and with
    their signatures, and the same tool calls with their ids, also those that
    hold a signature, functions and signature fields; the projection
    succeeds, whatever media the call may send.  The message has no
    [reasoning_items] (one without an envelope makes the turn portable), and its
    thinking blocks have no key twice and have a text. *)
Theorem chat_turn_restored media_inputs marking scope message t blocks calls :
  scope ≠ None → response_from_chat message scope = Ok t →
  list_field message "thinking_blocks" = Ok blocks → list_field message "reasoning_items" = Ok [] →
  list_field message "tool_calls" = Ok calls → Forall chat_block blocks →
  ∃ m ids, project_chat_turn media_inputs marking scope t = Ok (m, ids) ∧
    Forall2 (λ b v, veq (opaque_item b) v) (concat (sent_again <$> blocks)) (list_at "thinking_blocks" m) ∧
    Forall2 same_call_entry calls (list_at "tool_calls" m).
Proof.
  intros Hscope. unfold response_from_chat, capture_chat_parts.
  destruct (scope_provider scope) as [provider|] eqn:Hprov; cbn [result_bind]; [|done].
  destruct (capture_blocks provider message) as [[bs portable]|] eqn:Hblocks; cbn [result_bind]; [|done].
  destruct (capture_reasoning_text scope message bs) as [rs|] eqn:Hreason; cbn [result_bind]; [|done].
  destruct (capture_chat_text provider message) as [text|] eqn:Htext; cbn [result_bind]; [|done].
  destruct (list_field message "tool_calls") as [cs|] eqn:Hcs; cbn [result_bind]; [|done].
  destruct (capture_calls provider ∅ cs) as [qs|] eqn:Hcalls; cbn [result_bind]; [|done].
  intros Ht Hthink Hitems [= <-] Hchat. unfold capture_blocks in Hblocks. rewrite Hthink, Hitems in Hblocks. cbn [result_bind] in Hblocks.
  destruct (map_result capture_thinking blocks) as [thinking|] eqn:Hm; cbn [result_bind] in Hblocks; [|done].
  rewrite bool_decide_true in Hblocks by done. cbn in Hblocks. rewrite app_nil_r in Hblocks. injection Hblocks as <- <-.
  rewrite bool_decide_false in Ht by done. cbn [andb] in Ht. destruct (_ && _) in Ht; [done|]. cbn [result_bind] in Ht. injection Ht as <-.
  destruct (thinking_wire blocks thinking Hchat Hm) as [Hpt Hwt].
  destruct (reasoning_text_wire scope message thinking rs Hreason) as (Hpr & Hcr & Hwr).
  destruct (capture_chat_text_captured provider message text Htext) as [Hct (nt & tt & ->)].
  destruct (capture_calls_wire provider ∅ cs qs Hcalls) as (Hpq & Hcq & Hwq).
  assert (Hall : Forall projectable (thinking ++ rs ++ AssistantText nt tt :: qs)).
  { apply Forall_app. split; [done|]. apply Forall_app. split; [done|]. by constructor. }
  assert (Hcap : Forall captured_part (thinking ++ rs ++ AssistantText nt tt :: qs)) by (eapply Forall_impl; [exact Hall|by intros ? []]).
  destruct (project_parts_ok (check_replayed_native_media media_inputs (interface_for_provider provider)) provider (signatures_pass _ _) _
    (mk_projection [("role", VStr "assistant"); ("content", VStr "")] [] []) Hall) as [st Hst]; [by repeat constructor|].
  assert (Hsame : same_scope scope (mk_turn (thinking ++ rs ++ AssistantText nt tt :: qs) scope) = true).
  { unfold same_scope. cbn [replay_scope]. by rewrite bool_decide_false, bool_decide_true. }
  assert (Hproj : ∃ m ids, project_chat_turn media_inputs marking scope (mk_turn (thinking ++ rs ++ AssistantText nt tt :: qs) scope) = Ok (m, ids)).
  { unfold project_chat_turn. fold (same_scope scope (mk_turn (thinking ++ rs ++ AssistantText nt tt :: qs) scope)).
    rewrite Hsame, Hprov. cbn [result_bind parts]. rewrite Hst. by eexists _, _. }
  destruct Hproj as (m & ids & Hproj). exists m, ids. split; [done|].
  apply project_turn_spec in Hproj as (Hc & Hth & _); [|done]. rewrite Hsame in Hc, Hth. cbn [parts] in Hc, Hth. rewrite Hc, Hth.
  rewrite !fmap_app, !concat_app, !fmap_cons. cbn [concat wire_calls wire_thinking app]. rewrite Hwr, (no_wire_calls rs Hcr), (no_wire_thinking qs Hcq).
  assert (Hct2 : Forall (λ p, is_tool_call p = false) thinking).
  { apply map_result_ok in Hm. clear -Hm. induction Hm as [|b p bs ps Hp _ IH]; [constructor|]. constructor; [|done].
    unfold capture_thinking in Hp.
    repeat (break_match; simplify_eq/=; try done); first [by injection Hp as <- | apply reasoning_part_one in Hp as (f & _ & ->)]; done. }
  rewrite (no_wire_calls thinking Hct2). cbn [app]. by rewrite !app_nil_r.
Qed.

(** ** An id that a provider uses twice *)

Definition gemini : option string := Some "chat:gemini:sha256:00".
Definition signed_turn : turn :=
  mk_turn [AssistantText None "Looking."; ToolCall (Some [("inline_thought_signature", VStr "sig")]) "c0" "look" "{}"] gemini.
Definition unsigned_turn : turn := mk_turn [AssistantText None "Again."; ToolCall None "c0" "look" "{}"] gemini.
Definition result_of (cid : string) : obj := [("role", VStr "tool"); ("tool_call_id", VStr cid); ("content", VStr "ok")].
Definition no_media : option (list string) := Some [].

Definition sent_ids (out : list cache_entry) : list (list pyval * option pyval) :=
  (λ e, match e with
    | Message d => (concat ((λ c, option_list (field c "id")) <$> list_at "tool_calls" d), dict_get "tool_call_id" d)
    | CacheBoundary => ([], None)
    end) <$> out.

(** The second result names the call of the first turn. *)
Example reused_id_mismatch :
  (let! out := prepare_chat_messages no_media false gemini
     [HTurn signed_turn; HMessage (result_of "c0"); HTurn unsigned_turn; HMessage (result_of "c0")] in Ok (sent_ids out)) =
  Ok [([VStr "c0__thought__sig"], None); ([], Some (VStr "c0__thought__sig"));
      ([VStr "c0"], None); ([], Some (VStr "c0__thought__sig"))].
Proof. vm_compute. reflexivity. Qed.

Definition reused_history : list history_entry :=
  [HTurn signed_turn; HMessage (result_of "c0"); HTurn unsigned_turn; HMessage (result_of "c0")].

Lemma tool_result_id_witness :
  ∃ out, prepare_chat_messages no_media false gemini reused_history = Ok out ∧
  ∃ m call r, Message m ∈ out ∧ VDict call ∈ list_at "tool_calls" m ∧
    dict_get "id" call = Some (VStr (default "c0" (private_call_id (same_scope gemini unsigned_turn) None "c0"))) ∧
    last out = Some (Message r) ∧
    (dict_get "tool_call_id" r = dict_get "id" call ↔
     private_call_id (same_scope gemini unsigned_turn) None "c0" ≠ None ∨
     latest "c0" (history_privates gemini [HTurn signed_turn; HMessage (result_of "c0")]) = None).
Proof.
  eexists. split; [vm_compute; reflexivity|].
  apply (tool_result_id no_media false gemini [HTurn signed_turn; HMessage (result_of "c0")] unsigned_turn [] (result_of "c0")
    "c0" None "look" "{}").
  - repeat first [apply Forall_nil_2 | apply Forall_cons_2]; try exact I. right. left. exists "sig". split; [discriminate|reflexivity].
  - vm_compute. reflexivity.
  - right. left.
  - apply NoDup_singleton.
  - intros t' Hin. by apply elem_of_nil in Hin.
  - reflexivity.
Defined.

Definition demo_thinking : pyval := VDict [("type", VStr "thinking"); ("thinking", VStr "Hm"); ("signature", VStr "s1")].
Definition demo_chat_call : pyval :=
  VDict [("id", VStr "c0__thought__sig"); ("type", VStr "function");
         ("function", VDict [("name", VStr "look"); ("arguments", VStr "{}")])].
Definition demo_chat_message : pyval :=
  VDict [("content", VStr "Looking."); ("thinking_blocks", VList [demo_thinking]); ("tool_calls", VList [demo_chat_call])].

Lemma chat_turn_restored_witness :
  ∃ t, response_from_chat demo_chat_message gemini = Ok t ∧
  ∃ m ids, project_chat_turn no_media false gemini t = Ok (m, ids) ∧
    Forall2 (λ b v, veq (opaque_item b) v) (concat (sent_again <$> [demo_thinking])) (list_at "thinking_blocks" m) ∧
    Forall2 same_call_entry [demo_chat_call] (list_at "tool_calls" m).
Proof.
  eexists. split; [vm_compute; reflexivity|].
  apply (chat_turn_restored no_media false gemini demo_chat_message); try reflexivity; [discriminate|].
  constructor; [|constructor]. intros d Hd. injection Hd as <-.
  split; [apply (bool_decide_unpack _); vm_compute; exact I|discriminate].
Defined.
