(* ===== verification/StateM.v ===== *)
(** * StateM: stateful code that may raise

    The state-and-exception monad of the components that thread a state
    through many calls: an exception keeps the state it was raised in, as in
    Python.  [wp m Q s] says that [Q] holds of the outcome and the state when
    [m] runs from [s]; [keeps R m] that running [m] relates the states before
    and after by [R], for a preorder [R] whatever the outcome. *)

From S2P Require Import Prelude.
From stdpp Require Import base.

Definition M (S A : Type) : Type := S → result A * S.

Section Monad.
Context {S : Type}.

Definition m_ret {A} (a : A) : M S A := λ s, (Ok a, s).

Definition m_bind {A B} (m : M S A) (k : A → M S B) : M S B :=
  λ s, match m s with
       | (Ok a, s') => k a s'
       | (Raise e, s') => (Raise e, s')
       end.

Definition raise {A} (e : exc) : M S A := λ s, (Raise e, s).

(** An expression that may raise and reads nothing of the state. *)
Definition lift {A} (r : result A) : M S A := λ s, (r, s).

Definition gets {A} (f : S → A) : M S A := λ s, (Ok (f s), s).
Definition modify (f : S → S) : M S unit := λ s, (Ok tt, f s).

(** [try: m except ...: h]. *)
Definition catch {A} (m : M S A) (h : exc → M S A) : M S A :=
  λ s, match m s with
       | (Ok a, s') => (Ok a, s')
       | (Raise e, s') => h e s'
       end.

(** [try: m finally: f]: an exception of [f] replaces the outcome. *)
Definition finally {A} (m : M S A) (f : M S unit) : M S A :=
  λ s, let '(r, s1) := m s in
       match f s1 with
       | (Ok _, s2) => (r, s2)
       | (Raise e, s2) => (Raise e, s2)
       end.
End Monad.

Declare Scope m_scope.
Delimit Scope m_scope with m.
Notation "'do' x <- m ; k" := (m_bind m (λ x, k)) (at level 200, x name, m at level 100, k at level 200) : m_scope.
Notation "'do' ' p <- m ; k" := (m_bind m (λ x, match x with p => k end)) (at level 200, p pattern, m at level 100, k at level 200) : m_scope.
Notation "'then!' m ; k" := (m_bind m (λ _, k)) (at level 200, m at level 100, k at level 200) : m_scope.

(** ** Postconditions *)
Section Wp.
Context {S : Type}.

Definition wp {A} (m : M S A) (Q : result A → S → Prop) (s : S) : Prop := Q (m s).1 (m s).2.

Lemma wp_mono {A} (m : M S A) (Q Q' : result A → S → Prop) s :
  wp m Q s → (∀ r s', Q r s' → Q' r s') → wp m Q' s.
Proof. unfold wp. auto. Qed.

Lemma wp_ret {A} (a : A) Q (s : S) : Q (Ok a) s → wp (m_ret a) Q s.
Proof. done. Qed.

Lemma wp_raise {A} e (Q : result A → S → Prop) s : Q (Raise e) s → wp (raise e) Q s.
Proof. done. Qed.

Lemma wp_bind {A B} (m : M S A) (k : A → M S B) Q s :
  wp m (λ r s', match r with Ok a => wp (k a) Q s' | Raise e => Q (Raise e) s' end) s →
  wp (m_bind m k) Q s.
Proof. unfold wp, m_bind. by destruct (m s) as [[a|e] s']. Qed.

Lemma wp_catch {A} (m : M S A) (h : exc → M S A) Q s :
  wp m (λ r s', match r with Ok a => Q (Ok a) s' | Raise e => wp (h e) Q s' end) s →
  wp (catch m h) Q s.
Proof. unfold wp, catch. by destruct (m s) as [[a|e] s']. Qed.

Lemma wp_finally {A} (m : M S A) (f : M S unit) Q s :
  wp m (λ r s', wp f (λ r' s'', match r' with Ok _ => Q r s'' | Raise e => Q (Raise e) s'' end) s') s →
  wp (finally m f) Q s.
Proof. unfold wp, finally. destruct (m s) as [r s1]. cbn. by destruct (f s1) as [[]?]. Qed.

Lemma wp_lift {A} (r : result A) Q (s : S) : Q r s → wp (lift r) Q s.
Proof. done. Qed.

Lemma wp_gets {A} (f : S → A) Q s : Q (Ok (f s)) s → wp (gets f) Q s.
Proof. done. Qed.

Lemma wp_modify (f : S → S) Q s : Q (Ok tt) (f s) → wp (modify f) Q s.
Proof. done. Qed.
End Wp.

(** ** What every run preserves *)
Section Keeps.
Context {S : Type} (R : relation S) `{!PreOrder R}.

Definition keeps {A} (m : M S A) : Prop := ∀ s, R s (m s).2.

Lemma keeps_ret {A} (a : A) : keeps (m_ret a).
Proof. by intros s. Qed.
Lemma keeps_raise {A} e : keeps (raise (A := A) e).
Proof. by intros s. Qed.
Lemma keeps_lift {A} (r : result A) : keeps (lift r).
Proof. by intros s. Qed.
Lemma keeps_gets {A} (f : S → A) : keeps (gets f).
Proof. by intros s. Qed.
Lemma keeps_modify (f : S → S) : (∀ s, R s (f s)) → keeps (modify f).
Proof. intros Hf s. apply Hf. Qed.

Lemma keeps_bind {A B} (m : M S A) (k : A → M S B) : keeps m → (∀ a, keeps (k a)) → keeps (m_bind m k).
Proof.
  intros Hm Hk s. specialize (Hm s). unfold m_bind. destruct (m s) as [[a|e] s']; [|done].
  etrans; [exact Hm|apply Hk].
Qed.

Lemma keeps_catch {A} (m : M S A) (h : exc → M S A) : keeps m → (∀ e, keeps (h e)) → keeps (catch m h).
Proof.
  intros Hm Hh s. specialize (Hm s). unfold catch. destruct (m s) as [[a|e] s']; [done|].
  etrans; [exact Hm|apply Hh].
Qed.

Lemma keeps_finally {A} (m : M S A) (f : M S unit) : keeps m → keeps f → keeps (finally m f).
Proof.
  intros Hm Hf s. specialize (Hm s). unfold finally. destruct (m s) as [r s1]. specialize (Hf s1).
  destruct (f s1) as [[]?]; (etrans; [exact Hm|exact Hf]).
Qed.

Lemma keeps_if {A} (b : bool) (m m' : M S A) : keeps m → keeps m' → keeps (if b then m else m').
Proof. by destruct b. Qed.
End Keeps.

(** ** What every value satisfies *)
Section Yields.
Context {S : Type}.

(** Every value that [m] returns satisfies [P]. *)
Definition yields {A} (P : A → Prop) (m : M S A) : Prop := ∀ s a, (m s).1 = Ok a → P a.

Lemma yields_ret {A} (P : A → Prop) a : P a → yields P (m_ret a).
Proof. by intros HP s a' [= <-]. Qed.
Lemma yields_raise {A} (P : A → Prop) e : yields P (raise e).
Proof. by intros s a. Qed.
Lemma yields_lift {A} (P : A → Prop) r : (∀ a, r = Ok a → P a) → yields P (lift r).
Proof. intros HP s a. apply HP. Qed.
Lemma yields_bind {A B} (P : A → Prop) (Q : B → Prop) (m : M S A) (k : A → M S B) :
  yields P m → (∀ a, P a → yields Q (k a)) → yields Q (m_bind m k).
Proof.
  intros Hm Hk s b. specialize (Hm s). unfold m_bind. destruct (m s) as [[a|e] s1]; [|done].
  apply Hk, Hm. done.
Qed.
Lemma yields_bind_any {A B} (Q : B → Prop) (m : M S A) (k : A → M S B) :
  (∀ a, yields Q (k a)) → yields Q (m_bind m k).
Proof. intros Hk. apply (yields_bind (λ _, True)); [by intros s a _|auto]. Qed.
Lemma yields_catch {A} (P : A → Prop) (m : M S A) (h : exc → M S A) :
  yields P m → (∀ e, yields P (h e)) → yields P (catch m h).
Proof.
  intros Hm Hh s b. specialize (Hm s). unfold catch. destruct (m s) as [[a|e] s1]; [apply Hm|apply Hh].
Qed.
Lemma yields_finally {A} (P : A → Prop) (m : M S A) (f : M S unit) : yields P m → yields P (finally m f).
Proof.
  intros Hm s b. specialize (Hm s). unfold finally. destruct (m s) as [r s1]. destruct (f s1) as [[]?]; [apply Hm|done].
Qed.
End Yields.

(** [keeps R m] for an [m] put together from operations that keep [R]: what is
    left are the operations that are not in the database [keeps]. *)
Create HintDb keeps.
#[export] Hint Resolve keeps_ret keeps_raise keeps_lift keeps_gets : keeps.
Ltac keeps_step :=
  match goal with
  | |- ∀ _, _ => intros
  | |- keeps _ (m_bind _ _) => apply keeps_bind; [apply _|..]
  | |- keeps _ (catch _ _) => apply keeps_catch; [apply _|..]
  | |- keeps _ (finally _ _) => apply keeps_finally; [apply _|..]
  | |- keeps _ (match ?x with _ => _ end) => destruct x
  | |- keeps _ (let '(_, _) := ?x in _) => destruct x
  | |- keeps _ _ => solve [eauto with keeps]
  end.
Ltac keeps_solve := repeat keeps_step.
