(* ===== verification/CodeAct.v ===== *)
(** * CodeAct: cells, results and tool calls of a generation

    Models the parts of [nooa/strategies/codeact.py] that one tool call of the
    model goes through: the validation of [return_result], the execution of a
    Python cell with its receipt and its output, the translation of unknown
    tools, and the bookkeeping of the session ([CodeActSession]).  The variant
    with a single tool ([codeact_v2.py]) is the [tools] argument.

    What the strategy calls is the record [services]: the provider, the
    runtime that executes a cell, the JSON parser, pydantic, the conditions of
    the method, the texts that are shown to the model.  A service that runs
    other code may change the world and the event log in any way; the theorems
    say what they assume of it. *)

From Stdlib Require Import Ascii.
From S2P Require Import Prelude PyDict PyStr PyText Values ResponseCleanup LoopGuard StateM.
Local Open Scope string_scope.
Local Open Scope m_scope.

(** ** Data *)

(** Python objects: plain data, a dict of keyword arguments, or any other
    object. *)
Inductive value :=
  | Data (v : pyval)
  | Kwargs (d : list (string * value))
  | Obj (o : nat).

Definition locals := dict string value.

Inductive status := RUNNING | COMPLETE | ERROR | CANCELLED.

(** [ToolResult]. *)
Record tool_result := mk_tool_result { tr_content : string; tr_status : status }.

(** The metadata of an event: none, [prefill], or [CODEACT_INLINE_RETURN]. *)
Inductive mark := Plain | Prefill (prefill_type : string) | InlineReturn.

(** [ToolCallEvent]. *)
Record call_event := mk_call_event {
  te_call_id : string;
  te_name : string;
  te_arguments : locals;
  te_response : option string;      (* llm_response_id *)
  te_result : option tool_result;
  te_mark : mark
}.

(** [PythonOutput]. *)
Record cell_output := mk_cell_output {
  co_call_id : string;
  co_count : nat;
  co_stdout : string;
  co_stderr : string;
  co_error : string;
  co_value : value;
  co_explicit : bool;
  co_status : status;
  co_mark : mark
}.

(** [ToolCall] and what the strategy reads of an [LLMResponse]. *)
Record llm_call := mk_call { lc_id : string; lc_name : string; lc_arguments : string }.
Record llm_response := mk_response { lr_finish : string; lr_content : string; lr_calls : list llm_call }.

(** The events of a session that are recorded. *)
Inductive journal_event :=
  | EToolCall (t : call_event)
  | EOutput (o : cell_output)
  | EError (content : string)
  | EResponse (r : llm_response)
  | ELoopGuard (action tool_name tool_call_id : string) (repeats : nat) (content : string)
  | ETextOnly (content finish : string) (action : string) (consecutive : nat)
  | EDebug
  | ETask
  | EOther.

(** The recorded events under their tags, in order; tags are not used again. *)
Record log := mk_log { lg_next : nat; lg_entries : list (nat * journal_event) }.

Definition log_add (e : journal_event) (l : log) : log := mk_log (S (lg_next l)) (lg_entries l ++ [(lg_next l, e)])%list.

(** [update(tag, ...)]: nothing happens when the tag is gone. *)
Definition log_update (tag : nat) (f : journal_event → journal_event) (l : log) : log :=
  mk_log (lg_next l) ((λ te, if Nat.eqb te.1 tag then (te.1, f te.2) else te) <$> lg_entries l).

Definition log_tags (l : log) : list nat := (lg_entries l).*1.

(** [ExecutionResult]; [er_value] is [None] for [_NO_RETURN], an error is the
    exception with its text. *)
Record exec_result := mk_exec {
  er_stdout : string;
  er_stderr : string;
  er_error : option (exc * string);
  er_signal : option locals;        (* the arguments of an inline return_result *)
  er_value : option value;
  er_explicit : bool;
  er_locals : locals
}.

Definition failed_result (e : exc) (text : string) : exec_result := mk_exec "" "" (Some (e, text)) None None false [].
Definition has_error (r : exec_result) : bool := match er_error r with Some _ => true | None => false end.

(** How [runtime.execute_code] ends: a result, a cancellation with the output
    so far, or another exception. *)
Inductive run_outcome :=
  | Ran (r : exec_result)
  | CellCancelled (partial : option (string * string))
  | RunRaised (e : exc).

(** [TextOnlyResponseAction], and what else a handler may return. *)
Inductive text_action :=
  | ActReturn (v : value)
  | ActRetry (events : list journal_event)
  | ActToolCalls (calls : list llm_call)
  | ActUnknown (kind : string)
  | NotAnAction.

(** ** Configuration and session *)

(** [CodeActConfig], as far as the loop reads it. *)
Record config := mk_config {
  cf_max_iterations : option Z;
  cf_max_retries : Z;
  cf_max_text_only : Z;
  cf_loop_guard : option loop_config;
  cf_translate : bool;
  cf_sandbox : bool
}.

(** [CodeActSession]. *)
Record session := mk_codeact_session {
  iteration : nat;
  error_count : nat;
  api_errors : nat;         (* consecutive_api_errors *)
  text_only : nat;          (* consecutive_text_only *)
  execution_count : nat;
  session_locals : locals;
  guard : option LoopGuard.loop_guard;
  sandbox_open : bool       (* sandbox_executor is not None *)
}.

Definition with_iteration n s := mk_codeact_session n (error_count s) (api_errors s) (text_only s) (execution_count s) (session_locals s) (guard s) (sandbox_open s).
Definition with_errors n s := mk_codeact_session (iteration s) n (api_errors s) (text_only s) (execution_count s) (session_locals s) (guard s) (sandbox_open s).
Definition with_api_errors n s := mk_codeact_session (iteration s) (error_count s) n (text_only s) (execution_count s) (session_locals s) (guard s) (sandbox_open s).
Definition with_text_only n s := mk_codeact_session (iteration s) (error_count s) (api_errors s) n (execution_count s) (session_locals s) (guard s) (sandbox_open s).
Definition with_executions n s := mk_codeact_session (iteration s) (error_count s) (api_errors s) (text_only s) n (session_locals s) (guard s) (sandbox_open s).
Definition with_locals l s := mk_codeact_session (iteration s) (error_count s) (api_errors s) (text_only s) (execution_count s) l (guard s) (sandbox_open s).
Definition with_guard g s := mk_codeact_session (iteration s) (error_count s) (api_errors s) (text_only s) (execution_count s) (session_locals s) g (sandbox_open s).
Definition with_sandbox b s := mk_codeact_session (iteration s) (error_count s) (api_errors s) (text_only s) (execution_count s) (session_locals s) (guard s) b.

Definition is_exhausted (c : config) (s : session) : bool :=
  match cf_max_iterations c with Some n => (n <=? Z.of_nat (iteration s))%Z | None => false end
  || (cf_max_retries c <=? Z.of_nat (error_count s))%Z.

Definition api_errors_exhausted (c : config) (s : session) : bool := (cf_max_retries c <=? Z.of_nat (api_errors s))%Z.

(** The events of [turn]; an exception by its class. *)
Inductive turn_event :=
  | BeforeTurn (turn_number : nat)
  | AfterTurn (turn_number : nat) (is_final success : bool) (exception : option exc).

(** [_TurnState]. *)
Record turn_state := mk_turn_state { ts_success : bool; ts_final : bool; ts_exception : option exc }.

(** The return type: [-> None], [-> str], or one that pydantic does not
    validate. *)
Record return_type := mk_return_type { rt_none : bool; rt_str : bool; rt_pydantic : bool }.

(** The tools of the two variants: [execute_python] and [return_result], or
    [python_cell] alone. *)
Inductive tools := TwoTools | OneTool.
Definition python_tool_name (t : tools) : string := match t with TwoTools => "execute_python" | OneTool => "python_cell" end.
Definition supports_return_result (t : tools) : bool := match t with TwoTools => true | OneTool => false end.

(** [_python_output_value]: the variant with one tool drops a trailing
    string. *)
Definition python_output_value (t : tools) (r : exec_result) : value :=
  match er_value r, has_error r with
  | Some v, false =>
      match t, v with
      | OneTool, Data (VStr _) => if er_explicit r then v else Data VNone
      | _, _ => v
      end
  | _, _ => Data VNone
  end.

Definition receipt : string := "status: accepted".
Definition exhausted_content : string := "return_result validation failed (session exhausted).".

(** Python's classes: what [except Exception] and the validation handler of
    [_handle_return_result] catch. *)
Definition is_exception (e : exc) : bool := negb (bool_decide (e = CancelledError)).
Definition model_correctable (e : exc) : bool := bool_decide (e = ValueError ∨ e = TypeError).

(** [MAX_ITERATIONS_MESSAGE] and the other texts shown to the model: they are
    compared by the loop guard and otherwise only recorded. *)
Record texts := mk_texts {
  tx_invalid_arguments : string → string → string;      (* tool, arguments *)
  tx_validation_error : exc → string;                   (* format_validation_error *)
  tx_none_expected : value → string;
  tx_unknown_tool : string → dict string pyval → string;       (* _unknown_tool_feedback *)
  tx_empty_code : dict string pyval → string;           (* _empty_code_error *)
  tx_execution_error : bool → exec_result → string;     (* _format_execution_error of a failure *)
  tx_text_only : option string → string;                (* _text_only_correction *)
  tx_guard : verdict → string → nat → string → bool → string;   (* LoopGuard.message *)
  tx_api_error : nat → exc → string;
  tx_block_error : string;
  tx_empty_response : string;
  tx_prefill_error : exc → string
}.

Section Services.
Context {W : Type}.

(** A call that runs other code: it sees the namespace of the session and may
    change the world and the log. *)
Definition ext (A : Type) : Type := locals → W → log → (W * log) * A.

Record services := mk_services {
  sv_generate : ext (result (llm_response * option string));   (* the response and the id of its event *)
  sv_on_text_only : llm_response → ext (result text_action);
  sv_execute : string → string → nat → ext run_outcome;        (* runtime.execute_code: code, call id, count *)
  sv_helpers : string → ext (result (locals * list string));   (* HelperFunctionManager.apply *)
  sv_preconditions : ext (result ());
  sv_postconditions : value → ext (result ());
  sv_drop_block : ext ();                                      (* context.remove of a bad block *)
  sv_turn_event : turn_event → ext ();                         (* the handlers of BeforeTurn and AfterTurn *)
  sv_create_sandbox : result ();                               (* fails where a guard cannot be enforced *)
  sv_close_sandbox : ext (result ());
  sv_prefill_code : ext (result (option string));              (* prefill.get_code *)
  sv_generation_id : option string;
  sv_loads : string → result pyval;                            (* json.loads *)
  sv_literal_eval : string → result pyval;
  sv_unescape : string → result string;                        (* decode of unicode_escape *)
  sv_is_identifier : string → bool;
  sv_construct : string → locals → value;                      (* _maybe_eval_constructor_string *)
  sv_validate : locals → result value;                         (* the pydantic model of the result *)
  sv_isinstance : value → bool;                                (* of the return type *)
  sv_json_form : value → option value;                         (* the JSON form of a model or of JSON data *)
  sv_jsonable : nat → value;                                   (* model_dump, or str() of another object *)
  sv_repr : value → string;
  sv_word : N → bool;
  sv_binding_errors : string → result (list string);           (* completion_binding_errors *)
  sv_policy_errors : string → W → result (list string);        (* GeneratedCodeValidator.validate *)
  sv_agent_callable : string → W → option bool;                (* a callable attribute, and whether it is async *)
  sv_callable : value → option bool;
  sv_fingerprint : string → string + pyval → string;           (* action_fingerprint *)
  sv_uuid : nat → string;
  sv_texts : texts
}.

(** The state of a generation: the session, the log, the turn, the turn events
    so far, [call.session_locals], and the world. *)
Record st := mk_st {
  s_session : session;
  s_log : log;
  s_turn : turn_state;
  s_turns : list turn_event;
  s_caller : option locals;
  s_world : W
}.

Definition set_session (x : session) (s : st) : st := mk_st x (s_log s) (s_turn s) (s_turns s) (s_caller s) (s_world s).
Definition set_log (l : log) (s : st) : st := mk_st (s_session s) l (s_turn s) (s_turns s) (s_caller s) (s_world s).
Definition set_turn (t : turn_state) (s : st) : st := mk_st (s_session s) (s_log s) t (s_turns s) (s_caller s) (s_world s).
Definition set_turns (l : list turn_event) (s : st) : st := mk_st (s_session s) (s_log s) (s_turn s) l (s_caller s) (s_world s).
Definition set_caller (c : option locals) (s : st) : st := mk_st (s_session s) (s_log s) (s_turn s) (s_turns s) c (s_world s).
Definition set_outside (w : W) (l : log) (s : st) : st := mk_st (s_session s) l (s_turn s) (s_turns s) (s_caller s) w.

Definition outside {A} (f : ext A) : M st A :=
  λ s, let '((w, l), a) := f (session_locals (s_session s)) (s_world s) (s_log s) in (Ok a, set_outside w l s).

Definition outside_result {A} (f : ext (result A)) : M st A := do r <- outside f; lift r.

Definition on_session (f : session → session) : M st () := modify (λ s, set_session (f (s_session s)) s).

(** [event_manager.add] and [event_manager.update]. *)
Definition add_event (e : journal_event) : M st nat :=
  λ s, (Ok (lg_next (s_log s)), set_log (log_add e (s_log s)) s).
Definition update_event (tag : nat) (f : journal_event → journal_event) : M st () :=
  modify (λ s, set_log (log_update tag f (s_log s)) s).

Definition record_iteration : M st () := on_session (λ x, with_iteration (S (iteration x)) x).
Definition record_error : M st () := on_session (λ x, with_errors (S (error_count x)) x).
Definition record_api_error : M st () := on_session (λ x, with_api_errors (S (api_errors x)) x).
Definition reset_api_errors : M st () := on_session (with_api_errors 0).
Definition record_text_only : M st () := on_session (λ x, with_text_only (S (text_only x)) x).
Definition reset_text_only : M st () := on_session (with_text_only 0).
Definition record_execution : M st nat :=
  then! on_session (λ x, with_executions (S (execution_count x)) x); gets (λ s, execution_count (s_session s)).

Definition get_locals : M st locals := gets (λ s, session_locals (s_session s)).
Definition set_locals (l : locals) : M st () := on_session (with_locals l).

(** [update(tag, result=ToolResult(...))]. *)
Definition put_result (r : tool_result) (e : journal_event) : journal_event :=
  match e with
  | EToolCall t => EToolCall (mk_call_event (te_call_id t) (te_name t) (te_arguments t) (te_response t) (Some r) (te_mark t))
  | _ => e
  end.
Definition set_result (tag : nat) (content : string) (s : status) : M st () :=
  update_event tag (put_result (mk_tool_result content s)).

(** [update(tag, name=..., arguments=...)]. *)
Definition put_call (name : option string) (arguments : locals) (e : journal_event) : journal_event :=
  match e with
  | EToolCall t => EToolCall (mk_call_event (te_call_id t) (default (te_name t) name) arguments (te_response t) (te_result t) (te_mark t))
  | _ => e
  end.
End Services.
Arguments services : clear implicits.
Arguments st : clear implicits.
Arguments ext : clear implicits.

(** ** Results *)

Section Operations.
Context {W : Type} (sv : services W) (cf : config) (tl : tools) (rt : return_type).
(** What cells see besides the session ([_build_builtins]), and the names of
    the return type ([_collect_type_names]). *)
Context (builtins : locals) (protected : list string).

Definition as_str (v : value) : option string := match v with Data (VStr s) => Some s | _ => None end.
Definition is_none (v : value) : bool := match v with Data VNone => true | _ => false end.

Definition dquote : ascii := ascii_of_nat 34.
Definition backslash_n : string := String (ascii_of_nat 92) "n".

Definition starts_with (c : ascii) (s : string) : bool := match s with String c' _ => Ascii.eqb c c' | "" => false end.
Fixpoint ends_with_char (c : ascii) (s : string) : bool :=
  match s with
  | "" => false
  | String c' "" => Ascii.eqb c c'
  | String _ s' => ends_with_char c s'
  end.

(** [s[1:-1]]. *)
Definition without_ends (s : string) : string := String.substring 1 (String.length s - 2) s.

(** [_maybe_parse_json_string]: [None] when the string is kept. *)
Definition maybe_parse_json_string (s : string) : result (option pyval) :=
  let stripped := strip s in
  if starts_with "{" stripped || starts_with "[" stripped then
    match sv_loads sv s with
    | Ok v => Ok (Some v)
    | Raise ValueError =>
        match sv_literal_eval sv s with
        | Ok v => Ok (Some v)
        | Raise (ValueError | SyntaxError) => Ok None
        | Raise e => Raise e
        end
    | Raise e => Raise e
    end
  else Ok None.

(** Direct fields become the value of [result]. *)
Definition normalize_args (args : locals) : locals :=
  if dict_mem "result" args then args else match args with [] => args | _ => [("result", Kwargs args)] end.

Definition double_quoted (s : string) : bool :=
  (starts_with dquote s && ends_with_char dquote s && contains backslash_n s)%bool.

Definition fix_double_quotes (args : locals) : result locals :=
  match dict_get "result" args ≫= as_str with
  | Some s =>
      if double_quoted s then
        match sv_unescape sv (without_ends s) with
        | Ok s' => Ok (dict_set "result" (Data (VStr s')) args)
        | Raise e => Raise e
        end
      else Ok args
  | None => Ok args
  end.

(** A string for a type that is not [str]: a name of the session, JSON or a
    literal, or a constructor call. *)
Definition resolve_string (names : locals) (args : locals) : result locals :=
  match dict_get "result" args ≫= as_str with
  | Some s =>
      if rt_str rt then Ok args
      else
        match (if sv_is_identifier sv s then dict_get s names else None) with
        | Some v => Ok (dict_set "result" v args)
        | None =>
            match maybe_parse_json_string s with
            | Ok (Some v) => Ok (dict_set "result" (Data v) args)
            | Ok None => Ok (dict_set "result" (sv_construct sv s names) args)
            | Raise e => Raise e
            end
        end
  | None => Ok args
  end.

(** The model, then [isinstance] where pydantic accepts anything. *)
Definition validate_args (args : locals) : result value :=
  match sv_validate sv args with
  | Ok v => if rt_pydantic rt || is_none v || sv_isinstance sv v then Ok v else Raise TypeError
  | Raise e => Raise e
  end.

(** The body of the [try] of [_handle_return_result]: the arguments as they
    were changed in place, and the value or a message. *)
Definition return_result_body (args : locals) : M (st W) (locals * (value + string)) :=
  if rt_none rt then
    match default (Data VNone) (dict_get "result" args) with
    | Data VNone =>
        then! outside_result (sv_postconditions sv (Data VNone));
        m_ret (args, inl (Data VNone))
    | v => m_ret (args, inr (tx_none_expected (sv_texts sv) v))
    end
  else
    do normalized <- lift (fix_double_quotes (normalize_args args));
    do names <- get_locals;
    do normalized <- lift (resolve_string names normalized);
    do v <- lift (validate_args normalized);
    then! outside_result (sv_postconditions sv v);
    m_ret (if dict_mem "result" args then normalized else args, inl v).

(** [_handle_return_result]. *)
Definition handle_return_result (args : locals) : M (st W) (locals * (value + string)) :=
  catch (return_result_body args) (λ e,
    if model_correctable e then
      then! record_error;
      do exhausted <- gets (λ s, is_exhausted cf (s_session s));
      if exhausted then raise GenerationError else m_ret (args, inr (tx_validation_error (sv_texts sv) e))
    else raise e).

(** [_try_validate_return_value]: [None] when the value does not fit. *)
Definition try_validate_return_value (v : value) : result (option value) :=
  if rt_none rt then Ok (if is_none v then Some (Data VNone) else None)
  else
    let validated :=
      match as_str v with
      | Some s =>
          if rt_str rt then sv_validate sv [("result", v)]
          else match maybe_parse_json_string s with
               | Ok (Some p) => sv_validate sv [("result", Data p)]
               | Ok None => sv_validate sv [("result", v)]
               | Raise e => Raise e
               end
      | None => sv_validate sv [("result", v)]
      end in
    match validated with
    | Ok v => Ok (if rt_pydantic rt || is_none v || sv_isinstance sv v then Some v else None)
    | Raise e => if model_correctable e then Ok None else Raise e
    end.

(** [_corrected_return_args]. *)
Definition corrected_return_args (validated : value) (original : locals) : locals :=
  if is_none validated then original
  else match sv_json_form sv validated with Some d => [("result", d)] | None => original end.

(** [_jsonable]. *)
Fixpoint json_data (v : pyval) : pyval :=
  match v with
  | VList l | VTuple l => VList (json_data <$> l)
  | VDict d => VDict ((λ kv, (kv.1, json_data kv.2)) <$> d)
  | _ => v
  end.
Fixpoint jsonable (v : value) : value :=
  match v with
  | Data v => Data (json_data v)
  | Kwargs d => Kwargs ((λ kv, (kv.1, jsonable kv.2)) <$> d)
  | Obj o => sv_jsonable sv o
  end.

(** [return_result] of a cell ([_build_builtins]): the arguments that its
    signal carries; [has_kind] when the return type has a field [kind]. *)
Definition return_result_signal (has_kind : bool) (args : list value) (kwargs : locals) : result locals :=
  match args, kwargs with
  | [], _ => Ok kwargs
  | [v], [] => Ok [("result", v)]
  | [v], _ => if negb has_kind || dict_mem "kind" kwargs then Raise ValueError else Ok (dict_set "kind" v kwargs)
  | _, _ => Raise ValueError
  end.

(** [_emit_synthetic_inline_return]. *)
Definition emit_synthetic_inline_return (v : value) : M (st W) () :=
  do n <- gets (λ s, lg_next (s_log s));
  let id := "codeact_inline_" +:+ sv_uuid sv n in
  then! add_event (EToolCall (mk_call_event id "return_result" [("result", jsonable v)] None
                                (Some (mk_tool_result "Result accepted (inline)." COMPLETE)) InlineReturn));
  m_ret tt.

(** ** Cells *)

(** How a cell leaves the turn: over, complete with a value, or going on. *)
Inductive cell_end := CellFailed | CellComplete (v : value) | CellDone.

Definition run_code (code call_id : string) (m : mark) : M (st W) exec_result :=
  do count <- gets (λ s, execution_count (s_session s));
  do o <- outside (sv_execute sv code call_id count);
  match o with
  | Ran r => m_ret r
  | CellCancelled partial =>
      let '(out, err) := default ("", "") partial in
      then! add_event (EOutput (mk_cell_output call_id count out err "" (Data VNone) false CANCELLED m));
      raise CancelledError
  | RunRaised e => raise e
  end.

Definition too_deep : string :=
  "Cell nests too deeply for REPL-policy validation; split the deeply nested code into smaller statements, then retry.".

(** One line per item. *)
Definition bulleted (bullet : string) (items : list string) : string :=
  String.concat "" ((λ i, String (ascii_of_nat 10) (bullet +:+ i)) <$> items).

(** [_execute_code]: the checks, the helpers of the cell, then the runtime. *)
Definition execute_code (code call_id : string) (m : mark) : M (st W) exec_result :=
  match sv_binding_errors sv code with
  | Raise SyntaxError => m_ret (failed_result SyntaxError "")
  | Raise e => raise e
  | Ok errors =>
      do w <- gets s_world;
      do more <- match sv_policy_errors sv code w with
                 | Ok more => m_ret more
                 | Raise RecursionError => m_ret [too_deep]
                 | Raise e => raise e
                 end;
      match (errors ++ more)%list with
      | (_ :: _) as es => m_ret (failed_result OtherError ("Code validation failed:" +:+ bulleted "• " es))
      | [] =>
          do sandboxed <- gets (λ s, sandbox_open (s_session s));
          if sandboxed then run_code code call_id m
          else
            do helpers <- outside_result (sv_helpers sv code);
            then! set_locals helpers.1;
            match helpers.2 with
            | (_ :: _) as es => m_ret (failed_result OtherError ("Failed to define helper function(s):" +:+ bulleted "- " es))
            | [] => run_code code call_id m
            end
      end
  end.

(** A string as code points below 256 and back. *)
Definition unlit (t : text) : string := String.string_of_list_ascii (ascii_of_N <$> t).
Definition strip_fences (code : string) : string := unlit (strip_code_fences (sv_word sv) (lit code)).1.

(** The names of the return type are put back into the namespace. *)
Definition restore_names (names : locals) : locals :=
  foldl (λ acc name, match dict_get name builtins with
                     | Some v => if is_none v then acc else dict_set name v acc
                     | None => acc
                     end) names protected.

Definition execution_error (with_type : bool) (r : exec_result) : string :=
  if has_error r then tx_execution_error (sv_texts sv) with_type r else "".

Definition final_status (r : exec_result) : status := if has_error r then ERROR else COMPLETE.

(** A cell that called [return_result]. *)
Definition inline_return (args : locals) (r : exec_result) (call_id : string) (count tag : nat) : M (st W) cell_end :=
  do validated <- catch (do x <- handle_return_result args; m_ret x.2) (λ e,
    if bool_decide (e = GenerationError ∨ e = LoopDetectedError)
    then then! set_result tag exhausted_content ERROR; raise e else raise e);
  match validated with
  | inl v =>
      then! add_event (EOutput (mk_cell_output call_id count (er_stdout r) (er_stderr r) (execution_error false r)
                                  v (er_explicit r) (final_status r) Plain));
      then! emit_synthetic_inline_return v;
      m_ret (CellComplete v)
  | inr message =>
      then! set_result tag "status: error" ERROR;
      let note := "return_result validation error: " +:+ message in
      let stderr := if String.eqb (er_stderr r) "" then note else er_stderr r +:+ String (ascii_of_nat 10) note in
      then! add_event (EOutput (mk_cell_output call_id count (er_stdout r) stderr (execution_error false r)
                                  (Data VNone) (er_explicit r) ERROR Plain));
      m_ret CellFailed
  end.

(** The output of a cell that goes on. *)
Definition plain_output (r : exec_result) (call_id : string) (count : nat) : M (st W) cell_end :=
  then! add_event (EOutput (mk_cell_output call_id count (er_stdout r) (er_stderr r) (execution_error true r)
                              (python_output_value tl r)
                              (match er_value r with Some _ => er_explicit r | None => false end) (final_status r) Plain));
  m_ret (if has_error r then CellFailed else CellDone).

(** What a finished cell does to the generation. *)
Definition cell_outcome (r : exec_result) (call_id : string) (count tag : nat) : M (st W) cell_end :=
  match er_signal r with
  | Some args => inline_return args r call_id count tag
  | None =>
      match er_value r with
      | Some v =>
          if er_explicit r && negb (has_error r) then
            match try_validate_return_value v with
            | Ok (Some validated) =>
                then! add_event (EOutput (mk_cell_output call_id count (er_stdout r) (er_stderr r) "" v true COMPLETE Plain));
                then! emit_synthetic_inline_return validated;
                m_ret (CellComplete validated)
            | Ok None => plain_output r call_id count
            | Raise e => if is_exception e then plain_output r call_id count else raise e
            end
          else plain_output r call_id count
      | None => plain_output r call_id count
      end
  end.

(** [_handle_execute_python]. *)
Definition handle_execute_python (call_id : string) (args : dict string pyval) (tag : nat) : M (st W) cell_end :=
  do count <- record_execution;
  match default (VStr "") (dict_get "code" args) with
  | VStr source =>
      let code := strip_fences source in
      if String.eqb (strip code) "" then
        then! record_error;
        then! set_result tag "status: error" ERROR;
        then! add_event (EOutput (mk_cell_output call_id count "" "" (tx_empty_code (sv_texts sv) args) (Data VNone) false ERROR Plain));
        m_ret CellFailed
      else
        then! set_result tag receipt RUNNING;
        do r <- execute_code code call_id Plain;
        then! set_result tag receipt (final_status r);
        do names <- get_locals;
        then! set_locals (restore_names (dict_update names (er_locals r)));
        cell_outcome r call_id count tag
  | _ => raise AttributeError
  end.

(** ** One tool call *)

(** [_translate_tool_call_to_code]: the callable that the name of the tool
    means, and whether it is awaited. *)
Definition call_target (name : string) (names : locals) (w : W) : option (string * bool) :=
  let callable d := dict_get name d ≫= sv_callable sv in
  match (if starts_with "_" name then None else sv_agent_callable sv name w) with
  | Some is_async => Some ("self." +:+ name, is_async)
  | None =>
      match callable builtins with
      | Some is_async => Some (name, is_async)
      | None => match callable names with Some is_async => Some (name, is_async) | None => None end
      end
  end.

Definition translated_code (target : string * bool) (args : dict string pyval) : string :=
  let parts := (λ kv, kv.1 +:+ "=" +:+ sv_repr sv (Data kv.2)) <$> args in
  let expr := target.1 +:+ "(" +:+ String.concat ", " parts +:+ ")" in
  "result = " +:+ (if target.2 then "await " +:+ expr else expr) +:+ String (ascii_of_nat 10) "print(result)".

Definition translate_tool_call (name : string) (args : dict string pyval) (names : locals) (w : W) : option string :=
  match call_target name names w with
  | Some target => Some (translated_code target args)
  | None => None
  end.

(** [_ToolCallsResult]: the turn is over, or the task is complete. *)
Inductive calls_result := TurnOver | Completed (v : value).

Definition end_of_cell (e : cell_end) : option calls_result :=
  match e with CellFailed => Some TurnOver | CellComplete v => Some (Completed v) | CellDone => None end.

Definition parse_arguments (arguments : string) : result (dict string pyval) :=
  match sv_loads sv arguments with
  | Ok (VDict d) => Ok d
  | Ok _ => Raise ValueError
  | Raise e => Raise e
  end.

Definition data_args (d : dict string pyval) : locals := (λ kv, (kv.1, Data kv.2)) <$> d.

Definition retry_hint : string :=
  "Please call return_result again with valid arguments. Tip: if you computed the result in " +:+ python_tool_name tl
  +:+ "(), you can call return_result(variable) from within the code instead.".

(** The branch of [return_result]. *)
Definition return_result_call (args : dict string pyval) (tag : nat) : M (st W) calls_result :=
  do x <- catch (handle_return_result (data_args args)) (λ e,
    if bool_decide (e = GenerationError ∨ e = LoopDetectedError)
    then then! set_result tag exhausted_content ERROR; raise e else raise e);
  match x.2 with
  | inl v =>
      then! update_event tag (λ e,
        put_result (mk_tool_result "Result accepted." COMPLETE) (put_call None (corrected_return_args v x.1) e));
      m_ret (Completed v)
  | inr message =>
      then! set_result tag ("Invalid result: " +:+ message +:+ String (ascii_of_nat 10) retry_hint) ERROR;
      m_ret TurnOver
  end.

(** The branch of a name that is no tool. *)
Definition unknown_tool_call (c : llm_call) (args : dict string pyval) (tag : nat) : M (st W) (option calls_result) :=
  do names <- get_locals;
  do w <- gets s_world;
  match (if cf_translate cf then translate_tool_call (lc_name c) args names w else None) with
  | Some code =>
      then! update_event tag (put_call (Some (python_tool_name tl)) [("code", Data (VStr code))]);
      do e <- handle_execute_python (lc_id c) [("code", VStr code)] tag;
      m_ret (end_of_cell e)
  | None =>
      then! record_error;
      then! set_result tag (tx_unknown_tool (sv_texts sv) (lc_name c) args) ERROR;
      m_ret (Some TurnOver)
  end.

(** [_process_one_tool_call]. *)
Definition process_one_tool_call (c : llm_call) (response : option string) : M (st W) (option calls_result) :=
  match parse_arguments (lc_arguments c) with
  | Raise ValueError =>
      then! record_error;
      then! add_event (EError (tx_invalid_arguments (sv_texts sv) (lc_name c) (lc_arguments c)));
      m_ret (Some TurnOver)
  | Raise e => raise e
  | Ok args =>
      do tag <- add_event (EToolCall (mk_call_event (lc_id c) (lc_name c) (data_args args) response None Plain));
      if String.eqb (lc_name c) (python_tool_name tl) then
        do e <- handle_execute_python (lc_id c) args tag; m_ret (end_of_cell e)
      else if String.eqb (lc_name c) "return_result" && supports_return_result tl then
        do r <- return_result_call args tag; m_ret (Some r)
      else unknown_tool_call c args tag
  end.
End Operations.
