(* ===== verification/CodeActLoop.v ===== *)
(** * CodeActLoop: the turns of a generation

    Models [_process_tool_calls], the loop guard around each call,
    [CodeActSession.turn], [_run_prefill], [_run_generation] and [execute] of
    [nooa/strategies/codeact.py], on the operations of [CodeAct].

    The loop [while not session.is_exhausted()] runs on fuel;
    [CodeActRuns.generation_ends] says how much is enough. *)

From Stdlib Require Import Ascii.
From S2P Require Import Prelude PyDict PyStr PyText Values LoopGuard StateM CodeAct.
Local Open Scope string_scope.
Local Open Scope m_scope.

Section Loop.
Context {W : Type} (sv : services W) (cf : config) (tl : tools) (rt : return_type).
Context (builtins : locals) (protected : list string).

(** ** The loop guard around a call *)

(** The arguments as JSON, or as they came. *)
Definition loop_guard_arguments (c : llm_call) : result (string + pyval) :=
  match sv_loads sv (lc_arguments c) with
  | Ok v => Ok (inr v)
  | Raise ValueError => Ok (inl (lc_arguments c))
  | Raise e => Raise e
  end.

Definition mentions_return_result (parsed : string + pyval) : bool :=
  match parsed with
  | inr (VDict d) => match dict_get "code" d with Some (VStr code) => contains "return_result" code | _ => false end
  | _ => false
  end.

Definition dict_arguments (parsed : string + pyval) : locals :=
  match parsed with inr (VDict d) => data_args d | _ => [] end.

Definition guard_message (v : verdict) (c : llm_call) (repeats : nat) (outcome : string) (parsed : string + pyval) : string :=
  tx_guard (sv_texts sv) v (lc_name c) repeats outcome (mentions_return_result parsed).

Definition set_guard (g : LoopGuard.loop_guard) : M (st W) () := on_session (with_guard (Some g)).

(** [_loop_guard_before]: whether the call is blocked. *)
Definition loop_guard_before (g : LoopGuard.loop_guard) (action : string) (parsed : string + pyval) (c : llm_call)
    (response : option string) : M (st W) bool :=
  let '(v, g') := before action g in
  then! set_guard g';
  match v with
  | None => m_ret false
  | Some (kind, repeats, outcome) =>
      let message := guard_message kind c repeats outcome parsed in
      then! add_event (EToolCall (mk_call_event (lc_id c) (lc_name c) (dict_arguments parsed) response
                                    (Some (mk_tool_result "Not executed: blocked by the loop guard." ERROR)) Plain));
      then! add_event (ELoopGuard (match kind with VBlock => "blocked" | _ => "stopped" end) (lc_name c) (lc_id c) repeats message);
      match kind with VStop => raise LoopDetectedError | _ => m_ret true end
  end.

(** The last line of an error that is not blank. *)
Definition final_line (error : string) : string :=
  unlit (default [] (last (base.filter (λ l, t_strip l ≠ []) (splitlines (lit error))))).

(** The events of a call in the log, from its last [ToolCallEvent] on; whether
    there is one. *)
Fixpoint own_events (call_id : string) (newest_first acc : list journal_event) : list journal_event * bool :=
  match newest_first with
  | [] => (acc, false)
  | e :: rest =>
      match e with
      | EToolCall t => if String.eqb (te_call_id t) call_id then (e :: acc, true) else own_events call_id rest acc
      | EOutput o => own_events call_id rest (if String.eqb (co_call_id o) call_id then e :: acc else acc)
      | _ => own_events call_id rest acc
      end
  end.

Definition event_failed (e : journal_event) : bool :=
  match e with
  | EToolCall t => match te_result t with Some r => match tr_status r with ERROR => true | _ => false end | None => false end
  | EOutput o => negb (String.eqb (co_error o) "")
  | _ => false
  end.

Definition event_parts (e : journal_event) : list string :=
  match e with
  | EToolCall t =>
      match te_result t with Some (mk_tool_result content ERROR) => [content] | _ => [] end
  | EOutput o =>
      if String.eqb (co_error o) "" then [co_stdout o; co_stderr o; sv_repr sv (co_value o)]
      else [final_line (co_error o)]
  | _ => []
  end.

Definition error_content (e : journal_event) : option string := match e with EError content => Some content | _ => None end.

(** [_tool_call_outcome]: of the events that were added since. *)
Definition tool_call_outcome (call_id : string) (first_new : nat) (l : log) : bool * string :=
  let new := drop first_new (lg_entries l).*2 in
  let '(own, recorded) := own_events call_id (reverse new) [] in
  let errors := if recorded then [] else omap error_content new in
  let failed := if recorded then existsb event_failed own else match errors with [] => false | _ => true end in
  let parts := base.filter (λ p, p ≠ "") (concat (event_parts <$> own) ++ errors)%list in
  let text := String.concat (String (ascii_of_nat 10) "") parts in
  (failed, if String.eqb text "" then "<no outcome for " +:+ call_id +:+ ">" else text).

(** [_loop_guard_after]. *)
Definition loop_guard_after (g : LoopGuard.loop_guard) (action : string) (parsed : string + pyval) (c : llm_call)
    (first_new : nat) : M (st W) () :=
  do l <- gets s_log;
  let '(failed, outcome) := tool_call_outcome (lc_id c) first_new l in
  let '(v, g') := after action outcome failed g in
  then! set_guard g';
  match v with
  | None => m_ret tt
  | Some (kind, repeats) =>
      let message := guard_message kind c repeats outcome parsed in
      then! add_event (ELoopGuard (match kind with VNudge => "nudged" | _ => "stopped" end) (lc_name c) (lc_id c) repeats message);
      match kind with VStop => raise LoopDetectedError | _ => m_ret tt end
  end.

Definition process_call (c : llm_call) (response : option string) : M (st W) (option calls_result) :=
  process_one_tool_call sv cf tl rt builtins protected c response.

(** The guard of the session after the call ran: nothing else writes it. *)
Definition guarded_process (g : LoopGuard.loop_guard) (c : llm_call) (response : option string) : M (st W) (option calls_result) :=
  do parsed <- lift (loop_guard_arguments c);
  let action := sv_fingerprint sv (lc_name c) parsed in
  do blocked <- loop_guard_before g action parsed c response;
  if blocked then m_ret (Some TurnOver)
  else
    do first_new <- gets (λ s, length (lg_entries (s_log s)));
    do r <- process_call c response;
    match r with
    | Some (Completed v) => m_ret (Some (Completed v))
    | _ =>
        do g' <- gets (λ s, default g (guard (s_session s)));
        then! loop_guard_after g' action parsed c first_new;
        m_ret r
    end.

(** The loop of [_process_tool_calls]: it ends at the first call that does not
    go well. *)
Fixpoint process_calls (cs : list llm_call) (response : option string) : M (st W) calls_result :=
  match cs with
  | [] => m_ret TurnOver
  | c :: cs' =>
      do g <- gets (λ s, guard (s_session s));
      do r <- match g with Some g => guarded_process g c response | None => process_call c response end;
      match r with
      | Some r => m_ret r
      | None => process_calls cs' response
      end
  end.

(** [_process_tool_calls]. *)
Definition process_tool_calls (cs : list llm_call) (response : option string) : M (st W) calls_result :=
  then! record_iteration; process_calls cs response.

(** ** Turns *)

Definition emit_turn (e : turn_event) : M (st W) () :=
  then! modify (λ s, set_turns (s_turns s ++ [e])%list s); outside (sv_turn_event sv e).

Definition on_turn (f : turn_state → turn_state) : M (st W) () := modify (λ s, set_turn (f (s_turn s)) s).
Definition final_turn : M (st W) () := on_turn (λ t, mk_turn_state (ts_success t) true (ts_exception t)).
Definition successful_turn : M (st W) () := on_turn (λ t, mk_turn_state true true (ts_exception t)).
Definition turn_exception (e : exc) : M (st W) () := on_turn (λ t, mk_turn_state (ts_success t) (ts_final t) (Some e)).

(** [CodeActSession.turn]. *)
Definition turn {A} (turn_number : nat) (body : M (st W) A) : M (st W) A :=
  then! emit_turn (BeforeTurn turn_number);
  then! on_turn (λ _, mk_turn_state false false None);
  finally
    (catch body (λ e,
       then! (if is_exception e then on_turn (λ t, mk_turn_state (ts_success t) (ts_final t) (Some (default e (ts_exception t))))
              else m_ret tt);
       raise e))
    (do t <- gets s_turn; emit_turn (AfterTurn turn_number (ts_final t) (ts_success t) (ts_exception t))).

Inductive turn_end := Continue | Finish (v : value).

(** [_sync_session_locals]. *)
Definition internal_keys : list string := ["Out"; "__repl_captured_locals__"].
Definition caller_locals (names : locals) : locals := base.filter (λ kv, kv.1 ∉ internal_keys) names.
Definition sync_session_locals : M (st W) () :=
  do names <- get_locals;
  modify (λ s, set_caller (match s_caller s with Some _ => Some (caller_locals names) | None => None end) s).

Definition finish (v : value) : M (st W) turn_end :=
  then! successful_turn; then! sync_session_locals; m_ret (Finish v).

(** [return_text_as_result] and [retry_text_only_response], the handlers the
    module offers. *)
Definition return_text_as_result (content : string) : text_action :=
  ActReturn (if String.eqb (strip content) "" then Data VNone else Data (VStr content)).
Definition retry_text_only_response : text_action := ActRetry [EError (tx_text_only (sv_texts sv) None)].

Definition action_kind (a : text_action) : string :=
  match a with
  | ActReturn _ => "return_result" | ActRetry _ => "retry" | ActToolCalls _ => "tool_calls"
  | ActUnknown kind => kind | NotAnAction => ""
  end.

Fixpoint add_events (es : list journal_event) : M (st W) () :=
  match es with [] => m_ret tt | e :: es' => then! add_event e; add_events es' end.

(** What the handler of plain text decided: a value, or another turn. *)
Definition text_only_action (a : text_action) : M (st W) (option value) :=
  match a with
  | ActReturn v =>
      then! record_iteration;
      do x <- handle_return_result sv cf rt [("result", v)];
      match x.2 with
      | inl validated => m_ret (Some validated)
      | inr message => then! add_event (EError (tx_text_only (sv_texts sv) (Some message))); m_ret None
      end
  | ActRetry events => then! record_iteration; then! add_events events; m_ret None
  | ActToolCalls calls =>
      do r <- process_tool_calls calls None;
      m_ret (match r with Completed v => Some v | TurnOver => None end)
  | ActUnknown _ => raise ValueError
  | NotAnAction => raise TypeError
  end.

(** A response without a tool call. *)
Definition text_only_turn (r : llm_response) : M (st W) turn_end :=
  do a <- outside_result (sv_on_text_only sv r);
  match a with
  | NotAnAction => raise TypeError
  | _ =>
      do n <- gets (λ s, text_only (s_session s));
      then! add_event (ETextOnly (lr_content r) (lr_finish r) (action_kind a) (S n));
      do v <- text_only_action a;
      match v with
      | Some v => finish v
      | None =>
          then! record_text_only;
          do n <- gets (λ s, text_only (s_session s));
          if ((0 <? cf_max_text_only cf)%Z && (cf_max_text_only cf <=? Z.of_nat n)%Z)%bool
          then then! final_turn; raise GenerationError
          else m_ret Continue
      end
  end.

(** An incomplete response ends the generation. *)
Definition incomplete_response : M (st W) turn_end :=
  then! record_error; then! add_event EDebug; then! final_turn; raise GenerationError.

Definition empty_response : M (st W) turn_end :=
  then! record_error; then! add_event EDebug;
  then! add_event (EError (tx_empty_response (sv_texts sv))); m_ret Continue.

(** A response, after [reset_api_errors]. *)
Definition on_response (r : llm_response) (event_id : option string) : M (st W) turn_end :=
  if String.eqb (lr_finish r) "length" || String.eqb (lr_finish r) "error" then incomplete_response
  else
    match String.eqb (lr_finish r) "tool_calls", lr_calls r with
    | true, ((_ :: _) as calls) =>
        then! reset_text_only;
        do x <- process_tool_calls calls event_id;
        match x with Completed v => finish v | TurnOver => m_ret Continue end
    | _, _ =>
        if negb (String.eqb (strip (lr_content r)) "") || String.eqb (lr_finish r) "stop"
        then text_only_turn r else empty_response
    end.

(** A failure of the model call. *)
Definition on_api_error (e : exc) : M (st W) turn_end :=
  then! record_api_error;
  do n <- gets (λ s, api_errors (s_session s));
  then! add_event (EError (tx_api_error (sv_texts sv) n e));
  then! turn_exception e;
  do out <- gets (λ s, api_errors_exhausted cf (s_session s));
  if out then then! final_turn; raise GenerationError else m_ret Continue.

(** [_handle_block_syntax_error]. *)
Definition handle_block_syntax_error : M (st W) () :=
  then! outside (sv_drop_block sv);
  then! add_event (EError (tx_block_error (sv_texts sv)));
  record_iteration.

(** The body of a turn. *)
Definition turn_body : M (st W) turn_end :=
  do o <- outside (sv_generate sv);
  match o with
  | Ok (r, event_id) => then! reset_api_errors; on_response r event_id
  | Raise ReasoningReplayError => then! final_turn; raise ReasoningReplayError
  | Raise BlockSyntaxError => then! handle_block_syntax_error; m_ret Continue
  | Raise e => if is_exception e then on_api_error e else raise e
  end.

(** [while not session.is_exhausted()]. *)
Inductive loop_end := OutOfFuel | Exhausted (turn_number : nat) | Returned (v : value).

Fixpoint run_turns (fuel turn_number : nat) : M (st W) loop_end :=
  match fuel with
  | 0%nat => m_ret OutOfFuel
  | S fuel =>
      do out <- gets (λ s, is_exhausted cf (s_session s));
      if out then m_ret (Exhausted turn_number)
      else
        do e <- turn (S turn_number) turn_body;
        match e with
        | Finish v => m_ret (Returned v)
        | Continue => run_turns fuel (S turn_number)
        end
  end.

(** ** Prefill *)

(** [_execute_prefill_step]. *)
Definition execute_prefill_step (code kind : string) : M (st W) () :=
  do count <- record_execution;
  do n <- gets (λ s, lg_next (s_log s));
  let id := "prefill_" +:+ sv_uuid sv n in
  do tag <- add_event (EToolCall (mk_call_event id (python_tool_name tl) [("code", Data (VStr code))] None None (Prefill kind)));
  then! set_result tag receipt RUNNING;
  do r <- execute_code sv code id (Prefill kind);
  do names <- get_locals;
  then! set_locals (dict_update names (er_locals r));
  then! set_result tag receipt (final_status r);
  then! add_event (EOutput (mk_cell_output id count (er_stdout r) (er_stderr r) (execution_error sv false r)
                              (default (Data VNone) (er_value r))
                              (match er_value r with Some _ => er_explicit r | None => false end) (final_status r) (Prefill kind)));
  m_ret tt.

(** [_run_prefill]; [pre_ellipsis_code] is code of the method. *)
Definition run_prefill (pre_ellipsis_code : option string) : M (st W) () :=
  do code <- outside_result (sv_prefill_code sv);
  then! match code with
        | Some ((String _ _) as code) => execute_prefill_step code "inspect_inputs"
        | _ => m_ret tt
        end;
  match pre_ellipsis_code with
  | Some ((String _ _) as code) => execute_prefill_step code "pre_ellipsis"
  | _ => m_ret tt
  end.

(** ** The whole generation *)

Definition out_accessor : value := Obj 0.

(** The new session, with the names of the caller. *)
Definition start_session : M (st W) () :=
  modify (λ s,
    set_session
      (mk_codeact_session 0 0 0 0 0 (dict_update [("Out", out_accessor)] (default [] (s_caller s)))
         (new_loop_guard <$> cf_loop_guard cf) false) s).

(** [_create_sandbox_executor], for the sandbox backend. *)
Definition open_sandbox : M (st W) () :=
  if cf_sandbox cf then then! lift (sv_create_sandbox sv); on_session (with_sandbox true) else m_ret tt.

(** [_run_generation] before its loop. *)
Definition prepare_generation (has_return_type : bool) (pre_ellipsis_code : option string) : M (st W) () :=
  if has_return_type then
    then! start_session;
    then! open_sandbox;
    then! add_event ETask;
    then! outside_result (sv_preconditions sv);
    then! catch (run_prefill pre_ellipsis_code) (λ e,
      match e with
      | ReasoningReplayError => raise e
      | _ => if is_exception e
             then then! add_event (EError (tx_prefill_error (sv_texts sv) e)); m_ret tt
             else raise e
      end);
    match sv_generation_id sv with None => raise RuntimeError | Some _ => m_ret tt end
  else raise GenerationError.

(** The loop and what follows it; [None] when the fuel of the loop ran out. *)
Definition generation_loop (fuel : nat) : M (st W) (option value) :=
  do e <- run_turns fuel 0;
  match e with
  | OutOfFuel => m_ret None
  | Returned v => m_ret (Some v)
  | Exhausted turn_number =>
      then! emit_turn (AfterTurn turn_number true false (Some GenerationError));
      then! sync_session_locals;
      raise GenerationError
  end.

(** [_run_generation]. *)
Definition run_generation (fuel : nat) (has_return_type : bool) (pre_ellipsis_code : option string) : M (st W) (option value) :=
  then! prepare_generation has_return_type pre_ellipsis_code; generation_loop fuel.

(** [_close_sandbox]: an [Exception] of the teardown is dropped. *)
Definition close_sandbox : M (st W) () :=
  do is_open <- gets (λ s, sandbox_open (s_session s));
  if is_open then
    then! on_session (with_sandbox false);
    catch (outside_result (sv_close_sandbox sv)) (λ e, if is_exception e then m_ret tt else raise e)
  else m_ret tt.

(** The [session_holder] of [execute] is empty at first. *)
Definition no_session (s : st W) : st W := set_session (with_sandbox false (s_session s)) s.

(** [execute]. *)
Definition execute (fuel : nat) (has_return_type : bool) (pre_ellipsis_code : option string) : M (st W) (option value) :=
  then! modify no_session;
  finally (run_generation fuel has_return_type pre_ellipsis_code) close_sandbox.
End Loop.
