(* ===== verification/CodeActRuns.v ===== *)
(** * CodeActRuns: what a CodeAct generation guarantees

    Theorems about [CodeAct] and [CodeActLoop]: the budgets of a session and
    the number of its turns, the events around the turns, the results of tool
    calls in the log, the value a generation returns, and the loop guard. *)

From Stdlib Require Import Ascii.
From S2P Require Import Prelude PyDict PyStr PyText Values LoopGuard StateM CodeAct CodeActLoop.
Local Open Scope string_scope.
Local Open Scope m_scope.
Local Open Scope nat_scope.

(** ** What the operations of one call leave alone *)

Section Frame.
Context {W : Type}.
Implicit Types s : st W.

(** The counters, the turn and the caller's names. *)
Definition session_frame s : nat * nat * nat * nat * bool * turn_state * list turn_event * option locals :=
  (iteration (s_session s), error_count (s_session s), api_errors (s_session s), text_only (s_session s),
   sandbox_open (s_session s), s_turn s, s_turns s, s_caller s).

(** The same, up to [n] more errors. *)
Definition more_errors (n : nat) s s' : Prop :=
  ∃ d, d ≤ n ∧ session_frame s' = session_frame (set_session (with_errors (d + error_count (s_session s)) (s_session s)) s).

Definition same_frame : relation (st W) := λ s s', session_frame s = session_frame s'.

#[export] Instance same_frame_preorder : PreOrder same_frame.
Proof. split; [done|]. intros a b c. unfold same_frame. congruence. Qed.

Lemma same_frame_errors n s s' : same_frame s s' → more_errors n s s'.
Proof. intros H. exists 0. split; [lia|]. unfold same_frame in H. rewrite <- H. reflexivity. Qed.

Lemma more_errors_same n s s1 s2 : more_errors n s s1 → same_frame s1 s2 → more_errors n s s2.
Proof. unfold same_frame. intros (d & Hd & H) H'. exists d. split; [done|congruence]. Qed.

Lemma same_more_errors n s s1 s2 : same_frame s s1 → more_errors n s1 s2 → more_errors n s s2.
Proof.
  unfold same_frame, more_errors, session_frame. intros H (d & Hd & H'). exists d. split; [done|]. rewrite H'.
  simplify_eq/=. congruence.
Qed.

Lemma keeps_outside {A} (f : ext W A) : keeps same_frame (outside f).
Proof. intros s. unfold outside. by destruct (f _ _ _) as [[w l] a]. Qed.
Lemma keeps_outside_result {A} (f : ext W (result A)) : keeps same_frame (outside_result f).
Proof. apply keeps_bind; [apply _|apply keeps_outside|intros; by apply keeps_lift, _]. Qed.
Lemma keeps_add_event e : keeps (S := st W) same_frame (add_event e).
Proof. by intros s. Qed.
Lemma keeps_update_event tag f : keeps (S := st W) same_frame (update_event tag f).
Proof. by intros s. Qed.
Lemma keeps_set_result tag content x : keeps (S := st W) same_frame (set_result tag content x).
Proof. by intros s. Qed.
Lemma keeps_set_locals l : keeps (S := st W) same_frame (set_locals l).
Proof. by intros s. Qed.
Lemma keeps_record_execution : keeps (S := st W) same_frame record_execution.
Proof. by intros s. Qed.
Lemma keeps_get_locals : keeps (S := st W) same_frame get_locals.
Proof. by intros s. Qed.
Lemma keeps_set_guard g : keeps (S := st W) same_frame (set_guard g).
Proof. by intros s. Qed.
End Frame.

#[export] Hint Resolve keeps_outside keeps_outside_result keeps_add_event keeps_update_event keeps_set_result
  keeps_set_locals keeps_record_execution keeps_get_locals keeps_set_guard : keeps.

(** A step that keeps the frame, in a proof about the frame at [s0]. *)
Lemma wp_same {W A B} (s0 s : st W) (m : M (st W) A) (k : A → M (st W) B) Q :
  same_frame s0 s → keeps same_frame m → (∀ a s1, same_frame s0 s1 → wp (k a) Q s1) →
  (∀ e s1, same_frame s0 s1 → Q (Raise e) s1) → wp (m_bind m k) Q s.
Proof.
  intros Hs Hm Hk He. apply wp_bind. unfold wp. specialize (Hm s).
  assert (same_frame s0 (m s).2) by (etrans; eassumption).
  destruct (m s) as [[a|e] s1]; cbn in *; [by apply Hk|by apply He].
Qed.

Lemma wp_same_last {W A} (s0 s : st W) (m : M (st W) A) Q :
  same_frame s0 s → keeps same_frame m → (∀ r s1, same_frame s0 s1 → Q r s1) → wp m Q s.
Proof. intros Hs Hm HQ. apply HQ. etrans; [exact Hs|apply Hm]. Qed.

(** [record_error] where nothing else changed. *)
Lemma wp_record_error {W B} (s0 s : st W) (k : unit → M (st W) B) Q :
  same_frame s0 s → (∀ s1, more_errors 1 s0 s1 → wp (k tt) Q s1) → wp (m_bind record_error k) Q s.
Proof.
  intros Hs Hk. apply wp_bind, wp_modify, Hk. eapply same_more_errors; [exact Hs|]. exists 1. split; [lia|].
  reflexivity.
Qed.

(** Once an error is counted. *)
Lemma wp_more {W A B} n (s0 s : st W) (m : M (st W) A) (k : A → M (st W) B) Q :
  more_errors n s0 s → keeps same_frame m → (∀ a s1, more_errors n s0 s1 → wp (k a) Q s1) →
  (∀ e s1, more_errors n s0 s1 → Q (Raise e) s1) → wp (m_bind m k) Q s.
Proof.
  intros Hs Hm Hk He. apply wp_bind. unfold wp. specialize (Hm s).
  assert (more_errors n s0 (m s).2) by (eapply more_errors_same; eassumption).
  destruct (m s) as [[a|e] s1]; cbn in *; [by apply Hk|by apply He].
Qed.

(** Runs a body whose steps keep the frame or count one error. *)
Ltac frame_step :=
  match goal with
  | |- wp (m_bind record_error _) _ _ => eapply wp_record_error; [eassumption|intros]
  | |- wp (m_bind _ _) _ _ =>
      first [eapply wp_same; [eassumption|..]|eapply wp_more; [eassumption|..]]; [solve [eauto with keeps]|intros|intros]
  | |- wp (m_ret _) _ _ => apply wp_ret
  | |- wp (raise _) _ _ => apply wp_raise
  | |- wp (match ?x with _ => _ end) _ _ => destruct x eqn:?
  end.
Ltac frame_solve := repeat frame_step; cbn; eauto using same_frame_errors.

Section Operations.
Context {W : Type} (sv : services W) (cf : config) (tl : tools) (rt : return_type).
Context (builtins : locals) (protected : list string).
Implicit Types s : st W.

Lemma keeps_return_result_body args : keeps same_frame (return_result_body sv rt args).
Proof. unfold return_result_body. keeps_solve. Qed.
Lemma keeps_emit_synthetic v : keeps same_frame (emit_synthetic_inline_return sv v).
Proof. unfold emit_synthetic_inline_return. keeps_solve. Qed.
Lemma keeps_run_code code id m : keeps same_frame (run_code sv code id m).
Proof. unfold run_code. keeps_solve. Qed.
Hint Resolve keeps_return_result_body keeps_emit_synthetic keeps_run_code : keeps.
Lemma keeps_execute_code code id m : keeps same_frame (execute_code sv code id m).
Proof. unfold execute_code. keeps_solve. Qed.
Lemma keeps_plain_output r id n : keeps same_frame (plain_output sv tl r id n).
Proof. unfold plain_output. keeps_solve. Qed.
Hint Resolve keeps_execute_code keeps_plain_output : keeps.

(** An error message counts one error; a value none. *)
Definition value_post s0 (r : result (locals * (value + string))) s' : Prop :=
  match r with Ok (_, inl _) => same_frame s0 s' | _ => more_errors 1 s0 s' end.

Lemma handle_return_result_frame args s0 s :
  same_frame s0 s → wp (handle_return_result sv cf rt args) (value_post s0) s.
Proof.
  intros Hs. apply wp_catch. eapply wp_same_last; [exact Hs|apply keeps_return_result_body|].
  intros [[args' [v|m]]|e] s1 H1; cbn; [done|by apply same_frame_errors|].
  frame_solve.
Qed.

(** A call that goes on counts no error. *)
Definition cell_post s0 (r : result cell_end) s' : Prop :=
  match r with Ok CellDone => same_frame s0 s' | _ => more_errors 1 s0 s' end.

Lemma inline_return_frame args r id n tag s0 s :
  same_frame s0 s → wp (inline_return sv cf rt args r id n tag) (cell_post s0) s.
Proof.
  intros Hs. unfold inline_return. apply wp_bind, wp_catch, wp_bind.
  eapply wp_mono; [apply handle_return_result_frame; exact Hs|].
  intros [[args' [v|m]]|e] s1 H1; cbn in H1 |- *; frame_solve.
Qed.

Lemma cell_outcome_frame r id n tag s0 s :
  same_frame s0 s → wp (cell_outcome sv cf tl rt r id n tag) (cell_post s0) s.
Proof.
  intros Hs. unfold cell_outcome. assert (wp (plain_output sv tl r id n) (cell_post s0) s) as Hp.
  { unfold plain_output. frame_solve. destruct (has_error r); [by apply same_frame_errors|done]. }
  destruct (er_signal r); [by apply inline_return_frame|]. frame_solve.
Qed.

Lemma handle_execute_python_frame id args tag s0 s :
  same_frame s0 s → wp (handle_execute_python sv cf tl rt builtins protected id args tag) (cell_post s0) s.
Proof.
  intros Hs. unfold handle_execute_python. frame_solve. by apply cell_outcome_frame.
Qed.

Definition call_post s0 (r : result (option calls_result)) s' : Prop :=
  match r with Ok None => same_frame s0 s' | _ => more_errors 1 s0 s' end.

Lemma process_one_tool_call_frame c rid s0 s :
  same_frame s0 s → wp (process_one_tool_call sv cf tl rt builtins protected c rid) (call_post s0) s.
Proof.
  assert (∀ id args tag s, same_frame s0 s →
    wp (do e <- handle_execute_python sv cf tl rt builtins protected id args tag; m_ret (end_of_cell e)) (call_post s0) s) as Hc.
  { intros id args tag s1 H1. apply wp_bind. eapply wp_mono; [by apply handle_execute_python_frame|].
    by intros [[]|] s2 H2. }
  intros Hs. unfold process_one_tool_call, return_result_call, unknown_tool_call.
  frame_solve; try by apply Hc.
  apply wp_bind, wp_bind, wp_catch. eapply wp_mono; [by apply handle_return_result_frame|].
  intros [[args' [v|m]]|e'] s2 H2; cbn in H2 |- *; frame_solve.
Qed.
End Operations.

Section Turns.
Context {W : Type} (sv : services W) (cf : config) (tl : tools) (rt : return_type).
Context (builtins : locals) (protected : list string).
Implicit Types s : st W.

Notation process_calls := (process_calls sv cf tl rt builtins protected).
Notation turn_body := (turn_body sv cf tl rt builtins protected).
Notation run_turns := (run_turns sv cf tl rt builtins protected).
Notation execute := (execute sv cf tl rt builtins protected).

Lemma keeps_loop_guard_before g a p c rid : keeps same_frame (loop_guard_before sv g a p c rid).
Proof. unfold loop_guard_before. keeps_solve. Qed.
Lemma keeps_loop_guard_after g a p c n : keeps same_frame (loop_guard_after sv g a p c n).
Proof. unfold loop_guard_after. keeps_solve. Qed.
Lemma keeps_add_events es : keeps (S := st W) same_frame (add_events es).
Proof. induction es; cbn [add_events]; keeps_solve. Qed.
Hint Resolve keeps_loop_guard_before keeps_loop_guard_after keeps_add_events : keeps.

Lemma guarded_process_frame g c rid s0 s :
  same_frame s0 s → wp (guarded_process sv cf tl rt builtins protected g c rid) (call_post s0) s.
Proof.
  intros Hs. unfold guarded_process. frame_solve.
  apply wp_bind. eapply wp_mono; [apply process_one_tool_call_frame; eassumption|].
  intros [[[|v]|]|e] ? H2; cbn in H2 |- *; frame_solve.
Qed.

Lemma process_calls_frame cs rid s0 s :
  same_frame s0 s → wp (process_calls cs rid) (λ r, more_errors 1 s0) s.
Proof.
  revert s. induction cs as [|c cs IH]; intros s Hs; cbn [CodeActLoop.process_calls]; [frame_solve|].
  apply (wp_same s0); [done|eauto with keeps| |eauto using same_frame_errors].
  intros g s1 H1. apply wp_bind. eapply (wp_mono _ (call_post s0)).
  - destruct g; [by apply guarded_process_frame|by apply process_one_tool_call_frame].
  - intros [[r|]|e] s2 H2; cbn in H2 |- *; [exact H2|by apply IH|exact H2].
Qed.

(** What one turn changes of the counters, the events and the caller. *)
Record turn_post s0 (r : result turn_end) s' : Prop := {
  tp_iteration : iteration (s_session s0) ≤ iteration (s_session s') ≤ S (iteration (s_session s0));
  tp_errors : error_count (s_session s0) ≤ error_count (s_session s') ≤ S (error_count (s_session s0));
  tp_api : api_errors (s_session s') ≤ S (api_errors (s_session s0));
  tp_progress : r = Ok Continue →
    iteration (s_session s0) + error_count (s_session s0) < iteration (s_session s') + error_count (s_session s')
      ∧ api_errors (s_session s') ≤ api_errors (s_session s0)
    ∨ iteration (s_session s') = iteration (s_session s0) ∧ error_count (s_session s') = error_count (s_session s0)
      ∧ api_errors (s_session s') = S (api_errors (s_session s0)) ∧ api_errors_exhausted cf (s_session s') = false;
  tp_turns : s_turns s' = s_turns s0;
  tp_sandbox : sandbox_open (s_session s') = sandbox_open (s_session s0);
  tp_flags : match r with
    | Ok Continue => ts_final (s_turn s') = ts_final (s_turn s0) ∧ ts_success (s_turn s') = ts_success (s_turn s0)
    | Ok (Finish _) => ts_final (s_turn s') = true ∧ ts_success (s_turn s') = true
                       ∧ ts_exception (s_turn s') = ts_exception (s_turn s0)
    | Raise _ => ts_success (s_turn s') = ts_success (s_turn s0)
    end;
  tp_caller : match r with
    | Ok (Finish _) => s_caller s' = (λ _, caller_locals (session_locals (s_session s'))) <$> s_caller s0
    | _ => s_caller s' = s_caller s0
    end
}.

(** The equations between the frames of the states of a run. *)
Ltac frames :=
  unfold same_frame, more_errors, session_frame in *; destruct_and?; simplify_eq/=;
  repeat match goal with H : ∃ _, _ |- _ => destruct H as (? & ? & ?) end; simplify_eq/=.
Ltac turn_done :=
  frames; repeat match goal with H : _ = s_turn _ |- _ => rewrite <- H end;
  split; cbn; try done; try lia; try congruence; try (intros; lia); try (split; congruence).

(** Runs a body step by step, keeping the equation of each step. *)
Lemma wp_then {A B} s (m : M (st W) A) (k : A → M (st W) B) Q :
  keeps same_frame m → (∀ a s1, same_frame s s1 → wp (k a) Q s1) →
  (∀ e s1, same_frame s s1 → Q (Raise e) s1) → wp (m_bind m k) Q s.
Proof. intros. by apply (wp_same s). Qed.
Lemma wp_modify_then {B} s (f : st W → st W) (k : unit → M (st W) B) Q :
  wp (k tt) Q (f s) → wp (m_bind (modify f) k) Q s.
Proof. done. Qed.

Lemma process_tool_calls_counts cs rid s :
  wp (process_tool_calls sv cf tl rt builtins protected cs rid)
    (λ _ s', more_errors 1 (set_session (with_iteration (S (iteration (s_session s))) (s_session s)) s) s') s.
Proof. apply wp_modify_then. by apply process_calls_frame. Qed.

(** [i] iterations and [e] errors later. *)
Definition spent (i e : nat) s s' : Prop :=
  iteration (s_session s') = i + iteration (s_session s) ∧ error_count (s_session s') = e + error_count (s_session s)
  ∧ api_errors (s_session s') = api_errors (s_session s) ∧ sandbox_open (s_session s') = sandbox_open (s_session s)
  ∧ s_turn s' = s_turn s ∧ s_turns s' = s_turns s ∧ s_caller s' = s_caller s.

Lemma same_frame_spent s s' : same_frame s s' → spent 0 0 s s'.
Proof. intros H. frames. unfold spent. cbn. repeat split; congruence. Qed.

Lemma more_errors_spent n s s' : more_errors n s s' → ∃ e, e ≤ n ∧ spent 0 e s s'.
Proof.
  intros (d & Hd & H). exists d. split; [done|]. unfold session_frame, spent in *. simplify_eq/=. repeat split; congruence.
Qed.

Lemma spent_trans i e i' e' s s1 s2 : spent i e s s1 → spent i' e' s1 s2 → spent (i' + i) (e' + e) s s2.
Proof. unfold spent. intros. destruct_and?. repeat split; try congruence; lia. Qed.

Lemma process_tool_calls_spent cs rid s :
  wp (process_tool_calls sv cf tl rt builtins protected cs rid) (λ _ s', ∃ e, e ≤ 1 ∧ spent 1 e s s') s.
Proof.
  apply wp_modify_then. eapply wp_mono; [by apply process_calls_frame|].
  intros _ s' (e & He & H)%more_errors_spent. exists e. split; [done|].
  eapply (spent_trans 1 0 0 e s _ s') in H; [by rewrite Nat.add_0_r in H|]. by repeat split.
Qed.

(** An action that is not a mistake of the handler takes an iteration. *)
Lemma text_only_action_spent a s :
  wp (text_only_action sv cf tl rt builtins protected a)
    (λ r s', ∃ i e, i ≤ 1 ∧ e ≤ 1 ∧ (is_ok r = true → i = 1) ∧ spent i e s s') s.
Proof.
  assert (∀ e s1 s2 (r : result (option value)), e ≤ 1 → spent 1 0 s s1 → spent 0 e s1 s2 →
    ∃ i e, i ≤ 1 ∧ e ≤ 1 ∧ (is_ok r = true → i = 1) ∧ spent i e s s2) as Hgo.
  { intros e s1 s2 r He H1 H2. exists 1, e. repeat (split; [done|]).
    pose proof (spent_trans _ _ _ _ _ _ _ H1 H2) as H. by rewrite Nat.add_0_r in H. }
  assert (spent 1 0 s (set_session (with_iteration (S (iteration (s_session s))) (s_session s)) s)) as H1
    by by repeat split.
  destruct a as [v|es|cs|k|]; cbn [text_only_action].
  - apply wp_modify_then, wp_bind. eapply wp_mono; [by apply handle_return_result_frame|].
    intros [[args [w|m]]|e] s' H'; cbn in H';
      first [apply same_frame_spent in H'|apply more_errors_spent in H' as (e' & ? & H')].
    + apply wp_ret. by apply (Hgo 0 _ _ _ ltac:(lia) H1).
    + apply wp_then; [eauto with keeps|..].
      * intros t s2 H2%same_frame_spent. apply wp_ret. pose proof (spent_trans _ _ _ _ _ _ _ H' H2). by apply (Hgo e' _ _ _ ltac:(lia) H1).
      * intros e s2 H2%same_frame_spent. pose proof (spent_trans _ _ _ _ _ _ _ H' H2). by apply (Hgo e' _ _ _ ltac:(lia) H1).
    + by apply (Hgo e' _ _ _ ltac:(lia) H1).
  - apply wp_modify_then, wp_then; [eauto with keeps|..]; intros ? s2 H2%same_frame_spent; by apply (Hgo 0 _ _ _ ltac:(lia) H1).
  - apply wp_bind. eapply wp_mono; [apply process_tool_calls_spent|].
    intros [r|e'] s' (e & He & H); [apply wp_ret|]; by exists 1, e.
  - apply wp_raise. by exists 0, 0; repeat split; try lia.
  - apply wp_raise. by exists 0, 0; repeat split; try lia.
Qed.

Definition flags_post s0 (r : result turn_end) s' : Prop :=
  match r with
  | Ok Continue => ts_final (s_turn s') = ts_final (s_turn s0) ∧ ts_success (s_turn s') = ts_success (s_turn s0)
  | Ok (Finish _) => ts_final (s_turn s') = true ∧ ts_success (s_turn s') = true
                     ∧ ts_exception (s_turn s') = ts_exception (s_turn s0)
  | Raise _ => ts_success (s_turn s') = ts_success (s_turn s0)
  end.

Definition caller_post s0 (r : result turn_end) s' : Prop :=
  match r with
  | Ok (Finish _) => s_caller s' = (λ _, caller_locals (session_locals (s_session s'))) <$> s_caller s0
  | _ => s_caller s' = s_caller s0
  end.

(** A turn with a response: [i] iterations and [e] errors. *)
Definition response_post s0 (r : result turn_end) s' : Prop :=
  ∃ i e, i ≤ 1 ∧ e ≤ 1 ∧ (r = Ok Continue → 1 ≤ i + e)
    ∧ iteration (s_session s') = i + iteration (s_session s0) ∧ error_count (s_session s') = e + error_count (s_session s0)
    ∧ api_errors (s_session s') = api_errors (s_session s0) ∧ sandbox_open (s_session s') = sandbox_open (s_session s0)
    ∧ s_turns s' = s_turns s0 ∧ flags_post s0 r s' ∧ caller_post s0 r s'.

Lemma spent_response i e s s1 (r : result turn_end) :
  spent i e s s1 → i ≤ 1 → e ≤ 1 → (r = Ok Continue → 1 ≤ i + e) → (∀ v, r ≠ Ok (Finish v)) → response_post s r s1.
Proof.
  intros (?&?&?&?&Ht&?&?) ? ? ? Hr. exists i, e. unfold flags_post, caller_post. rewrite Ht.
  destruct r as [[|v]|]; [by repeat split..|by destruct (Hr v)|by repeat split].
Qed.

Lemma finish_response i e v s s1 :
  spent i e s s1 → i ≤ 1 → e ≤ 1 → wp (finish v) (response_post s) s1.
Proof.
  intros (?&?&?&?&Ht&?&Hc) ? ?. exists i, e. cbn. rewrite Ht, Hc.
  repeat split; try done; try congruence.
Qed.

(** The exception that closes the generation, with its turn marked. *)
Lemma final_response i e x s s1 :
  spent i e s s1 → i ≤ 1 → e ≤ 1 → wp (then! final_turn; raise x) (response_post s) s1.
Proof.
  intros (?&?&?&?&Ht&?&?) ? ?. exists i, e. cbn. rewrite Ht. by repeat split.
Qed.

(** A step that keeps the frame. *)
Lemma spent_then {A} i e s s1 (m : M (st W) A) (k : A → M (st W) turn_end) :
  spent i e s s1 → i ≤ 1 → e ≤ 1 → keeps same_frame m →
  (∀ a s2, spent i e s s2 → wp (k a) (response_post s) s2) → wp (m_bind m k) (response_post s) s1.
Proof.
  intros H1 ? ? Hm Hk. apply wp_then; [done|..]; intros x s2 H2%same_frame_spent;
    pose proof (spent_trans _ _ _ _ _ _ _ H1 H2) as H12; [by apply Hk|by apply (spent_response i e); auto].
Qed.

Lemma spent_refl s : spent 0 0 s s.
Proof. by repeat split. Qed.

Lemma spent_error s : spent 0 1 s (set_session (with_errors (S (error_count (s_session s))) (s_session s)) s).
Proof. by repeat split. Qed.

Lemma text_only_turn_response r s :
  wp (text_only_turn sv cf tl rt builtins protected r) (response_post s) s.
Proof.
  unfold text_only_turn.
  apply (spent_then 0 0); [apply spent_refl|lia|lia|eauto with keeps|]. intros a s1 H1.
  assert (∀ m, wp (do n <- gets (λ s, text_only (s_session s)); m n) (response_post s) s1 →
    wp (match a with NotAnAction => raise TypeError | _ => do n <- gets (λ s, text_only (s_session s)); m n end)
      (response_post s) s1) as Hgo.
  { intros m Hm. destruct a; try exact Hm. apply wp_raise. by apply (spent_response 0 0); auto. }
  apply Hgo. clear Hgo.
  apply (spent_then 0 0); [done|lia|lia|eauto with keeps|]. intros n s2 H2.
  apply (spent_then 0 0); [done|lia|lia|eauto with keeps|]. intros t s3 H3.
  apply wp_bind. eapply wp_mono; [apply text_only_action_spent|].
  intros [v|e] s4 (i & e' & Hi & He & Hok & H4); pose proof (spent_trans _ _ _ _ _ _ _ H3 H4) as H14;
    rewrite !Nat.add_0_r in H14; [|by apply (spent_response i e'); auto].
  specialize (Hok eq_refl) as ->. destruct v as [v|]; [by eapply finish_response|].
  apply wp_modify_then, wp_bind, wp_gets.
  assert (spent 1 e' s (set_session (with_text_only (S (text_only (s_session s4))) (s_session s4)) s4)) as H5.
  { destruct H14 as (?&?&?&?&?&?&?). by repeat split. }
  destruct (_ && _)%bool; [by eapply final_response|]. apply wp_ret. apply (spent_response 1 e'); auto; lia.
Qed.

Lemma incomplete_response_response s : wp incomplete_response (response_post s) s.
Proof.
  apply wp_modify_then. apply (spent_then 0 1); [apply spent_error|lia|lia|eauto with keeps|].
  intros t s2 H2. by apply (final_response 0 1); [|lia..].
Qed.

Lemma empty_response_response s : wp (empty_response sv) (response_post s) s.
Proof.
  apply wp_modify_then. apply (spent_then 0 1); [apply spent_error|lia|lia|eauto with keeps|]. intros t s2 H2.
  apply (spent_then 0 1); [done|lia|lia|eauto with keeps|]. intros t' s3 H3.
  apply wp_ret. apply (spent_response 0 1); auto.
Qed.

Lemma on_response_response r id s :
  wp (on_response sv cf tl rt builtins protected r id) (response_post s) s.
Proof.
  unfold on_response. destruct (_ || _); [apply incomplete_response_response|].
  assert (wp (if negb (String.eqb (strip (lr_content r)) "") || String.eqb (lr_finish r) "stop"
    then text_only_turn sv cf tl rt builtins protected r else empty_response sv) (response_post s) s) as Ht
    by (destruct (_ || _); [apply text_only_turn_response|apply empty_response_response]).
  destruct (String.eqb (lr_finish r) "tool_calls"); [|exact Ht]. destruct (lr_calls r) as [|c cs]; [exact Ht|].
  apply wp_modify_then, wp_bind. eapply wp_mono; [apply process_tool_calls_spent|].
  intros x s1 (e & He & H1). assert (spent 1 e s s1) as H by exact H1.
  destruct x as [[|v]|x]; [apply wp_ret|by eapply finish_response|]; by apply (spent_response 1 e); auto; lia.
Qed.

Lemma turn_body_post s : wp turn_body (turn_post s) s.
Proof.
  assert (∀ s1 x, same_frame s s1 → turn_post s (Raise x) s1) as Hraise.
  { intros s1 x H. turn_done. }
  unfold CodeActLoop.turn_body. apply wp_then; [eauto with keeps| |]; [|by eauto].
  intros o s1 H1.
  assert (∀ e, wp (on_api_error sv cf e) (turn_post s) s1) as Hapi.
  { intros e. unfold on_api_error. apply wp_modify_then, wp_bind, wp_gets.
    apply wp_then; [eauto with keeps| |]; intros t s2 H2; [|turn_done].
    apply wp_modify_then, wp_bind, wp_gets. destruct (api_errors_exhausted _ _) eqn:Hex.
    - apply wp_modify_then, wp_raise. turn_done.
    - apply wp_ret. turn_done. intros _. right. cbn in *. repeat split; congruence. }
  destruct o as [[r id]|[]];
    try exact (Hapi _); try by apply wp_raise, Hraise.
  - apply wp_modify_then. eapply wp_mono; [apply on_response_response|].
    intros x s2 (i & e & ? & ? & Hp & ? & ? & ? & ? & ? & Hf & Hc). frames.
    split; cbn in *; try done; try lia; try congruence.
    + intros ->. left. specialize (Hp eq_refl). lia.
    + unfold flags_post in Hf. cbn in Hf. destruct x as [[]|]; intuition congruence.
    + unfold caller_post in Hc. cbn in Hc. destruct x as [[]|]; congruence.
  - apply wp_modify_then, wp_raise. turn_done.
  - apply wp_bind. unfold handle_block_syntax_error.
    apply wp_then; [eauto with keeps| |]; intros t s2 H2; [|turn_done].
    apply wp_then; [eauto with keeps| |]; intros t' s3 H3; [|turn_done].
    apply wp_modify, wp_ret. turn_done.
Qed.

(** ** Turns and their events *)

Lemma wp_emit e Q s :
  (∀ w l, Q (Ok tt) (set_outside w l (set_turns (s_turns s ++ [e])%list s))) → wp (emit_turn sv e) Q s.
Proof.
  intros HQ. apply wp_modify_then. unfold wp, outside.
  destruct (sv_turn_event _ _ _ _ _) as [[w l] []]. apply HQ.
Qed.

(** One turn: its body, from [s0] to [s1], between [BeforeTurn] and
    [AfterTurn]. *)
Definition turned n s (r : result turn_end) s' : Prop :=
  ∃ s0 s1 ex, turn_post s0 r s1
    ∧ s_session s0 = s_session s ∧ s_caller s0 = s_caller s ∧ s_turn s0 = mk_turn_state false false None
    ∧ s_session s' = s_session s1 ∧ s_caller s' = s_caller s1
    ∧ s_turns s' = (s_turns s ++ [BeforeTurn n; AfterTurn n (ts_final (s_turn s1)) (ts_success (s_turn s1)) ex])%list
    ∧ (is_ok r = true → ex = ts_exception (s_turn s1))
    ∧ (∀ e, r = Raise e → is_exception e = true → is_Some ex).

Lemma turn_spec n s : wp (turn sv n turn_body) (turned n s) s.
Proof.
  unfold turn. apply wp_bind, wp_emit. intros w l. apply wp_modify_then. cbn [set_outside set_turns set_turn s_session s_log s_turn s_turns s_caller s_world].
  match goal with |- wp _ _ ?x => set (s0 := x) end. apply wp_finally, wp_catch.
  eapply wp_mono; [apply turn_body_post|]. intros r s1 Hpost.
  assert (∀ s2 ex, s_session s2 = s_session s1 → s_caller s2 = s_caller s1 → s_turns s2 = s_turns s1 →
    ts_final (s_turn s2) = ts_final (s_turn s1) → ts_success (s_turn s2) = ts_success (s_turn s1) →
    ts_exception (s_turn s2) = ex → (is_ok r = true → ex = ts_exception (s_turn s1)) →
    (∀ e, r = Raise e → is_exception e = true → is_Some ex) →
    wp (do t <- gets s_turn; emit_turn sv (AfterTurn n (ts_final t) (ts_success t) (ts_exception t)))
      (λ r' s'', match r' with Ok _ => turned n s r s'' | Raise e => turned n s (Raise e) s'' end) s2) as Hgo.
  { intros s2 ex H1 H2 H3 H4 H5 H6 Hex Hsome. apply wp_bind, wp_gets, wp_emit. intros w' l'.
    exists s0, s1, ex. repeat split; try done; try apply Hpost. cbn.
    rewrite H3, (tp_turns _ _ _ Hpost), H4, H5, H6. cbn. by rewrite <- app_assoc. }
  destruct r as [a|e]; [by eapply Hgo|].
  apply wp_bind. destruct (is_exception e) eqn:He; [apply wp_modify|apply wp_ret]; apply wp_raise; eapply Hgo;
    try done; intros e' [= ->] He'; first [by eexists|congruence].
Qed.

(** What the counters may still reach. *)
Definition limit : nat := Z.to_nat (cf_max_retries cf).
Definition within (n : nat) s : Prop :=
  iteration (s_session s) ≤ n ∧ error_count (s_session s) ≤ limit ∧ api_errors (s_session s) ≤ limit.
Definition turns_left (n : nat) s : nat :=
  ((n - iteration (s_session s)) + (limit - error_count (s_session s))) * S limit + (limit - api_errors (s_session s)).

(** A session that is not exhausted is below its limits. *)
Lemma not_exhausted n k s :
  cf_max_iterations cf = Some k → n = Z.to_nat k → is_exhausted cf (s_session s) = false →
  iteration (s_session s) < n ∧ error_count (s_session s) < limit.
Proof.
  unfold is_exhausted, limit. intros -> -> H. apply orb_false_iff in H as [H1 H2].
  apply Z.leb_gt in H1, H2. lia.
Qed.

Lemma turn_within n k m s r s' :
  cf_max_iterations cf = Some k → n = Z.to_nat k → is_exhausted cf (s_session s) = false →
  api_errors (s_session s) < limit → turned m s r s' →
  within n s' ∧ (r = Ok Continue → turns_left n s' < turns_left n s ∧ api_errors (s_session s') < limit).
Proof.
  intros Hk Hn Hex Ha (s0 & s1 & ex & [Hi He Hapi Hp _ _ _ _] & Hs0 & _ & _ & Hs1 & _).
  destruct (not_exhausted n k s Hk Hn Hex) as [Hin Her]. unfold within, turns_left.
  rewrite Hs1. rewrite Hs0 in *. split; [lia|]. intros ->.
  destruct (Hp eq_refl) as [[Hlt Hle]|(Hi' & He' & Ha' & Hout)].
  - split; [|lia].
    assert (S (n - iteration (s_session s1) + (limit - error_count (s_session s1))) ≤
      n - iteration (s_session s) + (limit - error_count (s_session s))) as H by lia.
    apply (Nat.mul_le_mono_r _ _ (S limit)) in H. lia.
  - unfold api_errors_exhausted in Hout. apply Z.leb_gt in Hout. unfold limit in *. rewrite Hi', He'. lia.
Qed.

(** The events of turns that went on, from turn [S n]. *)
Fixpoint going (n : nat) (exceptions : list (option exc)) : list turn_event :=
  match exceptions with
  | [] => []
  | ex :: rest => BeforeTurn (S n) :: AfterTurn (S n) false false ex :: going (S n) rest
  end.

Lemma going_app n exs exs' : going n (exs ++ exs') = (going n exs ++ going (n + length exs) exs')%list.
Proof.
  revert n. induction exs as [|ex exs IH]; intros n; cbn; [by rewrite Nat.add_0_r|].
  rewrite IH. by replace (n + S (length exs)) with (S n + length exs) by lia.
Qed.

(** How a loop ends: what it leaves in the events, the counters and the
    caller's names. *)
Definition loop_post n (s : st W) (r : result loop_end) s' : Prop :=
  ∃ exs closing, s_turns s' = (s_turns s ++ going n exs ++ closing)%list
    ∧ sandbox_open (s_session s') = sandbox_open (s_session s)
    ∧ match r with
      | Ok OutOfFuel => closing = [] ∧ s_caller s' = s_caller s
      | Ok (Exhausted m) => closing = [] ∧ m = n + length exs ∧ s_caller s' = s_caller s ∧ is_exhausted cf (s_session s') = true
      | Ok (Returned v) =>
          let m := S (n + length exs) in
          closing = [BeforeTurn m; AfterTurn m true true None]
          ∧ s_caller s' = (λ _, caller_locals (session_locals (s_session s'))) <$> s_caller s
      | Raise e =>
          let m := S (n + length exs) in
          (∃ final ex, closing = [BeforeTurn m; AfterTurn m final false ex] ∧ (is_exception e = true → is_Some ex))
          ∧ s_caller s' = s_caller s
          ∧ ∃ s0, s_turns s0 = (s_turns s ++ going n exs)%list ∧ is_exhausted cf (s_session s0) = false
              ∧ turn sv m turn_body s0 = (Raise e, s')
      end.

Lemma run_turns_post fuel n s : wp (run_turns fuel n) (loop_post n s) s.
Proof.
  revert n s. induction fuel as [|fuel IH]; intros n s; cbn [CodeActLoop.run_turns].
  { apply wp_ret. exists [], []. by rewrite app_nil_r. }
  apply wp_bind, wp_gets. destruct (is_exhausted cf (s_session s)) eqn:Hex.
  { apply wp_ret. exists [], []. cbn. rewrite app_nil_r, Nat.add_0_r. by repeat split. }
  apply wp_bind. pose proof (turn_spec (S n) s) as Ht. unfold wp at 1. unfold wp in Ht.
  destruct (turn sv (S n) turn_body s) as [r s'] eqn:Hrun. cbn [fst snd] in *.
  destruct Ht as (s0 & s1 & ex & [_ _ _ _ _ Hsb Hf Hc] & Hs0 & Hc0 & Ht0 & Hs1 & Hc1 & Hev & Hex' & Hsome).
  rewrite Ht0 in Hf. cbn in Hf. rewrite Hs0 in Hsb. rewrite Hc0 in Hc.
  destruct r as [[|v]|e].
  - destruct Hf as [Hf1 Hf2]. rewrite Hf1, Hf2 in Hev.
    eapply wp_mono; [apply (IH (S n) s')|]. intros r s2 (exs & closing & Hev2 & Hsb2 & Hr).
    exists (ex :: exs), closing. cbn [going length].
    rewrite Hev2, Hev, <- !app_assoc. cbn.
    repeat split; [congruence|]. rewrite Nat.add_succ_r. cbn [Nat.add] in Hr.
    assert (s_caller s' = s_caller s) as Hcs by congruence. rewrite Hcs in Hr.
    destruct r as [[|m|w]|e]; destruct_and?; repeat split; try done.
    match goal with H : ∃ s0, s_turns s0 = _ ∧ _ |- _ => destruct H as (s3 & Ht3 & H3) end.
    exists s3. split; [|done]. by rewrite Ht3, Hev, <- app_assoc.
  - apply wp_ret. destruct Hf as (Hf1 & Hf2 & Hf3). rewrite Hf1, Hf2, Hex', Hf3 in Hev by done.
    exists [], [BeforeTurn (S n); AfterTurn (S n) true true None]. cbn. rewrite Nat.add_0_r, Hev, Hc1, Hc, Hs1.
    by repeat split.
  - rewrite Hf in Hev. exists [], [BeforeTurn (S n); AfterTurn (S n) (ts_final (s_turn s1)) false ex]. cbn.
    rewrite Nat.add_0_r, Hev, Hc1, Hc, Hs1. repeat split; [done|by eexists _, _; split; [|apply Hsome]|].
    exists s. by rewrite app_nil_r.
Qed.

(** Enough fuel: the loop ends, within the limits. *)
Lemma run_turns_ends n k fuel m s :
  cf_max_iterations cf = Some k → n = Z.to_nat k → api_errors (s_session s) < limit ∨ is_exhausted cf (s_session s) = true →
  within n s → turns_left n s < fuel →
  wp (run_turns fuel m) (λ r s', r ≠ Ok OutOfFuel ∧ within n s'
    ∧ length (s_turns s') ≤ length (s_turns s) + 2 * turns_left n s) s.
Proof.
  intros Hk Hn. revert m s. induction fuel as [|fuel IH]; intros m s Ha Hw Hf; [lia|]. cbn [CodeActLoop.run_turns].
  apply wp_bind, wp_gets. destruct (is_exhausted cf (s_session s)) eqn:Hex.
  { apply wp_ret. repeat split; [done|apply Hw..|lia]. }
  destruct Ha as [Ha|]; [|done].
  assert (0 < turns_left n s) as Hpos by (unfold turns_left; generalize (S limit); intros ?; nia).
  apply wp_bind. eapply wp_mono; [apply turn_spec|]. intros r s' Ht.
  destruct (turn_within n k (S m) s r s' Hk Hn Hex Ha Ht) as [Hw' Hp].
  destruct Ht as (? & ? & ex & ? & ? & ? & ? & ? & ? & Hev & ?).
  assert (length (s_turns s') = length (s_turns s) + 2) as Hlen by (rewrite Hev, length_app; done).
  destruct r as [[|v]|e].
  - destruct (Hp eq_refl) as [Hlt Ha']. eapply wp_mono; [apply IH; [by left|done|lia]|].
    cbn beta. intros r s2 (Hr1 & Hr2 & Hr3). repeat split; [done|apply Hr2..|lia].
  - apply wp_ret. repeat split; [done|apply Hw'..|lia].
  - repeat split; [done|apply Hw'..|lia].
Qed.

(** ** The generation *)

Lemma keeps_prefill_step code kind : keeps same_frame (execute_prefill_step sv tl code kind).
Proof.
  unfold execute_prefill_step. pose proof (keeps_execute_code sv). keeps_solve.
Qed.
Lemma keeps_run_prefill code : keeps same_frame (run_prefill sv tl code).
Proof. pose proof keeps_prefill_step. unfold run_prefill. keeps_solve. Qed.

(** A new session, before its first turn. *)
Definition started s s' : Prop :=
  iteration (s_session s') = 0 ∧ error_count (s_session s') = 0 ∧ api_errors (s_session s') = 0
  ∧ s_turns s' = s_turns s ∧ s_caller s' = s_caller s.

Lemma started_same s s1 s2 : started s s1 → same_frame s1 s2 → started s s2.
Proof. unfold started. intros. frames. intuition congruence. Qed.

(** The setup starts a session, opens the sandbox if there is to be one, and
    touches neither the turn events nor the dict of the caller. *)
Definition opened (has_type : bool) : bool := has_type && cf_sandbox cf && is_ok (sv_create_sandbox sv).

Lemma prepare_started pre s :
  wp (prepare_generation sv cf tl true pre)
    (λ r s', started s s' ∧ sandbox_open (s_session s') = opened true) s.
Proof.
  set (Q := λ (r : result ()) s', started s s' ∧ sandbox_open (s_session s') = opened true).
  assert (∀ s1 s2, started s s1 ∧ sandbox_open (s_session s1) = opened true → same_frame s1 s2 →
    started s s2 ∧ sandbox_open (s_session s2) = opened true) as Hsame.
  { intros s1 s2 [H1 Ho] H2. split; [by eapply started_same|]. rewrite <- Ho. frames. congruence. }
  assert (∀ s1, started s s1 ∧ sandbox_open (s_session s1) = opened true →
    wp (then! add_event ETask;
        then! outside_result (sv_preconditions sv);
        then! catch (run_prefill sv tl pre) (λ e,
          match e with
          | ReasoningReplayError => raise e
          | _ => if is_exception e then then! add_event (EError (tx_prefill_error (sv_texts sv) e)); m_ret tt else raise e
          end);
        match sv_generation_id sv with None => raise RuntimeError | Some _ => m_ret tt end) Q s1) as H.
  { intros s1 H1. apply wp_then; [eauto with keeps| |]; intros t s2 H2; [|by eapply Hsame].
    assert (started s s2 ∧ sandbox_open (s_session s2) = opened true) as Hs2 by by eapply Hsame.
    apply wp_then; [eauto with keeps| |]; intros t' s3 H3; [|by eapply Hsame].
    assert (started s s3 ∧ sandbox_open (s_session s3) = opened true) as Hs3 by by eapply Hsame.
    apply wp_then.
    { pose proof keeps_run_prefill. keeps_solve. }
    - intros u s4 H4. destruct (sv_generation_id sv); [apply wp_ret|apply wp_raise]; by eapply Hsame.
    - intros e s4 H4. by eapply Hsame. }
  unfold prepare_generation, Q, opened in *. apply wp_modify_then. unfold open_sandbox.
  destruct (cf_sandbox cf); [|by apply wp_bind, wp_ret, H].
  apply wp_bind, wp_bind, wp_lift. destruct (sv_create_sandbox sv) as [[]|e]; [|done].
  by apply wp_modify, H.
Qed.

Lemma run_generation_start fuel pre s Q :
  (∀ s', started s s' → sandbox_open (s_session s') = opened true → wp (generation_loop sv cf tl rt builtins protected fuel) Q s') →
  (∀ e s', started s s' → sandbox_open (s_session s') = opened true →
     prepare_generation sv cf tl true pre s = (Raise e, s') → Q (Raise e) s') →
  wp (run_generation sv cf tl rt builtins protected fuel true pre) Q s.
Proof.
  intros Hgo He. unfold run_generation. apply wp_bind. pose proof (prepare_started pre s) as H. unfold wp in H |- *.
  destruct (prepare_generation sv cf tl true pre s) as [[[]|e] s']; cbn [fst snd] in *; destruct H; [by apply Hgo|by apply He].
Qed.

(** How [_run_generation] ends: in its setup, or in its loop, with the turns
    that went on and how the last one closed.  An exception that is not the end
    of the budget was raised by the last turn, which began below the budget. *)
Inductive generation_post (has_type : bool) (pre : option string) s : result (option value) → st W → Prop :=
  | gp_setup e s' :
      prepare_generation sv cf tl has_type pre s = (Raise e, s') →
      s_turns s' = s_turns s → s_caller s' = s_caller s → generation_post has_type pre s (Raise e) s'
  | gp_fuel exs s' : s_turns s' = (s_turns s ++ going 0 exs)%list → generation_post has_type pre s (Ok None) s'
  | gp_value v exs s' :
      s_turns s' = (s_turns s ++ going 0 exs ++ [BeforeTurn (S (length exs)); AfterTurn (S (length exs)) true true None])%list →
      s_caller s' = (λ _, caller_locals (session_locals (s_session s'))) <$> s_caller s →
      generation_post has_type pre s (Ok (Some v)) s'
  | gp_exhausted exs s' :
      is_exhausted cf (s_session s') = true →
      s_turns s' = (s_turns s ++ going 0 exs ++ [AfterTurn (length exs) true false (Some GenerationError)])%list →
      s_caller s' = (λ _, caller_locals (session_locals (s_session s'))) <$> s_caller s →
      generation_post has_type pre s (Raise GenerationError) s'
  | gp_raise e exs final ex s0 s' :
      s_turns s0 = (s_turns s ++ going 0 exs)%list → is_exhausted cf (s_session s0) = false →
      turn sv (S (length exs)) turn_body s0 = (Raise e, s') →
      s_turns s' = (s_turns s ++ going 0 exs ++ [BeforeTurn (S (length exs)); AfterTurn (S (length exs)) final false ex])%list →
      (is_exception e = true → is_Some ex) →
      s_caller s' = s_caller s → generation_post has_type pre s (Raise e) s'.

Lemma generation_loop_post fuel pre s s1 : started s s1 →
  wp (generation_loop sv cf tl rt builtins protected fuel)
    (λ r s', generation_post true pre s r s' ∧ sandbox_open (s_session s') = sandbox_open (s_session s1)) s1.
Proof.
  intros (_ & _ & _ & Ht & Hc). unfold generation_loop. apply wp_bind.
  eapply wp_mono; [apply run_turns_post|]. intros r s2 (exs & closing & Hev & Hsb & Hr). rewrite Ht in Hev. rewrite Hc in Hr.
  destruct r as [[|m|v]|e].
  - destruct Hr as [-> _]. rewrite app_nil_r in Hev. apply wp_ret. split; [by econstructor|done].
  - destruct Hr as (-> & -> & Hc2 & Hex). rewrite app_nil_r in Hev. apply wp_bind, wp_emit. intros w l.
    apply wp_modify_then, wp_raise. split; [|exact Hsb].
    apply (gp_exhausted true pre s exs); [exact Hex|cbn; rewrite Hev, <- app_assoc; done|].
    cbn. rewrite Hc2. by destruct (s_caller s).
  - destruct Hr as [-> Hc2]. apply wp_ret. split; [by econstructor|done].
  - destruct Hr as ((final & ex & -> & Hsome) & Hc2 & s0 & Ht0 & Hex & Hrun). rewrite Ht in Ht0.
    split; [by econstructor|done].
Qed.

Lemma run_generation_post fuel has_type pre s : sandbox_open (s_session s) = false →
  wp (run_generation sv cf tl rt builtins protected fuel has_type pre)
    (λ r s', generation_post has_type pre s r s' ∧ sandbox_open (s_session s') = opened has_type) s.
Proof.
  intros Hs. destruct has_type.
  - apply run_generation_start.
    + intros s' Hst <-. by apply generation_loop_post.
    + intros e s' (_ & _ & _ & ? & ?) Ho Hp. by split; [apply gp_setup|].
  - unfold run_generation. apply wp_bind, wp_raise. by split; [apply gp_setup|].
Qed.

Lemma close_sandbox_post s :
  wp (close_sandbox sv) (λ r s', sandbox_open (s_session s') = false ∧ s_turns s' = s_turns s ∧ s_caller s' = s_caller s
    ∧ iteration (s_session s') = iteration (s_session s) ∧ error_count (s_session s') = error_count (s_session s)
    ∧ api_errors (s_session s') = api_errors (s_session s)
    ∧ session_locals (s_session s') = session_locals (s_session s)
    ∧ match r with Ok _ => True | Raise e => is_exception e = false end) s.
Proof.
  unfold close_sandbox. apply wp_bind, wp_gets. destruct (sandbox_open _) eqn:Ho; [|by apply wp_ret].
  apply wp_modify_then, wp_catch. unfold outside_result. apply wp_bind. unfold wp at 1, outside.
  destruct (sv_close_sandbox sv _ _ _) as [[w l] [[]|e]]; cbn; [done|].
  destruct (is_exception e) eqn:He; by repeat split.
Qed.

(** The teardown: if the sandbox was opened, the call that closes it, on the
    world and the log as the generation left them; only an exception of that
    call that is no [Exception] replaces the outcome. *)
Definition torn_down (was_open : bool) (r0 : result (option value)) s1 (r : result (option value)) s' : Prop :=
  sandbox_open (s_session s') = false ∧ s_turns s' = s_turns s1 ∧ s_caller s' = s_caller s1 ∧
  if was_open then
    ∃ x, sv_close_sandbox sv (session_locals (s_session s1)) (s_world s1) (s_log s1) = ((s_world s', s_log s'), x) ∧
      r = match x with Raise e => if is_exception e then r0 else Raise e | Ok _ => r0 end
  else s_world s' = s_world s1 ∧ s_log s' = s_log s1 ∧ r = r0.

Lemma finally_torn_down (m : M (st W) (option value)) s : let '(r0, s1) := m s in let '(r, s') := finally m (close_sandbox sv) s in
  torn_down (sandbox_open (s_session s1)) r0 s1 r s'.
Proof.
  unfold finally, close_sandbox, torn_down, m_bind, gets. destruct (m s) as [r0 s1].
  destruct (sandbox_open (s_session s1)) eqn:Ho; [|done].
  unfold on_session, modify, catch, outside_result, outside, m_bind, lift, m_ret, raise. cbn.
  destruct (sv_close_sandbox sv _ _ _) as [[w l] [[]|e]]; cbn; [by repeat split; eexists|].
  destruct (is_exception e) eqn:He; cbn; repeat split; try done; exists (Raise e); by rewrite ?He.
Qed.

(** C19.  Every generation brackets its turns with [BeforeTurn] and [AfterTurn]
    in order: all turns but the last report that they go on; a returned value
    comes with a last turn that is final and successful and with the names of
    the session, less its internal ones, in the dict of the caller; running
    out of iterations or errors adds one more final, failed [AfterTurn] and also
    gives the caller the names; any other exception was raised by the setup,
    before any turn event, or by the last turn, begun below the budget, whose
    [AfterTurn] reports the failure, and leaves the caller's dict as it was.  A sandbox
    that was opened is closed by one call after all of this, whatever the
    outcome, and only a teardown that is cancelled replaces the outcome. *)
Theorem generation_turn_events fuel has_type pre s :
  let '(r0, s1) := run_generation sv cf tl rt builtins protected fuel has_type pre (no_session s) in
  let '(r, s') := execute fuel has_type pre s in
  generation_post has_type pre (no_session s) r0 s1 ∧ torn_down (opened has_type) r0 s1 r s'.
Proof.
  pose proof (run_generation_post fuel has_type pre (no_session s) eq_refl) as Hg. unfold wp in Hg.
  pose proof (finally_torn_down (run_generation sv cf tl rt builtins protected fuel has_type pre) (no_session s)) as Hc.
  unfold execute, m_bind, modify. destruct (run_generation _ _ _ _ _ _ _ _ _ _) as [r0 s1]. cbn [fst snd] in Hg.
  destruct (finally _ _ _) as [r s']. by destruct Hg as [Hg <-].
Qed.

(** The most turns that a session can take: between two turns that use up an
    iteration or an error there are fewer than [max_retries] failed model
    calls. *)
Definition most_turns (k : Z) : nat := (Z.to_nat k + limit) * S limit + limit.

(** C16.  With a bound on the iterations every generation ends: the loop never
    takes more than [most_turns] turns (and one more look at its condition), so
    the turn events are at most two per turn and the one that reports
    exhaustion, and the iterations and errors never pass their bounds. *)
Theorem generation_ends k fuel pre s :
  cf_max_iterations cf = Some k → most_turns k < fuel →
  let '(r, s') := execute fuel true pre s in
  r ≠ Ok None ∧ within (Z.to_nat k) s' ∧ length (s_turns s') ≤ length (s_turns s) + 2 * most_turns k + 1.
Proof.
  intros Hk Hf.
  assert (wp (execute fuel true pre) (λ r s', r ≠ Ok None ∧ within (Z.to_nat k) s'
    ∧ length (s_turns s') ≤ length (s_turns s) + 2 * most_turns k + 1) s) as H.
  { apply wp_finally. eapply (wp_mono _ (λ r s', r ≠ Ok None ∧ within (Z.to_nat k) s'
      ∧ length (s_turns s') ≤ length (s_turns s) + 2 * most_turns k + 1)).
    - apply run_generation_start.
      + intros s' (Hi & He & Ha & Ht & Hc) _.
        assert (turns_left (Z.to_nat k) s' ≤ most_turns k) as Hl.
        { unfold turns_left, most_turns. rewrite Hi, He, Ha, !Nat.sub_0_r. lia. }
        apply wp_bind. eapply wp_mono; [apply (run_turns_ends (Z.to_nat k) k); try done|].
        * destruct (decide (limit = 0)) as [H0|]; [right|left; lia].
          unfold is_exhausted. rewrite He. apply orb_true_iff. right. apply Z.leb_le. unfold limit in H0. lia.
        * unfold within. rewrite Hi, He, Ha. lia.
        * lia.
        * cbn beta. intros r s2 (Hr1 & Hr2 & Hr3). rewrite Ht in Hr3. destruct r as [[|m|v]|e]; [done|..].
          -- apply wp_bind, wp_emit. intros w l. apply wp_modify_then, wp_raise.
             split; [done|]. split; [exact Hr2|]. cbn. rewrite length_app. cbn. lia.
          -- apply wp_ret. repeat split; [done|apply Hr2..|lia].
          -- repeat split; [done|apply Hr2..|lia].
      + intros e s' (Hi & He & Ha & Ht & Hc) _ _. unfold within. rewrite Hi, He, Ha, Ht. repeat split; try done; lia.
    - intros r s1 (Hr & Hw & Hlen). eapply wp_mono; [apply close_sandbox_post|].
      intros x s2 (_ & Ht & _ & Hi & He & Ha & _). unfold within in *. rewrite Hi, He, Ha, Ht.
      by destruct x as [[]|e]. }
  unfold wp in H. by destruct (execute fuel true pre s).
Qed.
End Turns.
