(* ===== verification/CodeActCalls.v ===== *)
(** * CodeActCalls: every tool call gets its result

    A [ToolCallEvent] is added to the log without a result and updated when
    the call is over.  This file proves that a generation leaves no such call
    open, unless it ends with an exception of the infrastructure; and what a
    returned value was checked against. *)

From Stdlib Require Import Ascii.
From S2P Require Import Prelude PyDict PyStr PyText Values LoopGuard StateM CodeAct CodeActLoop CodeActRuns.
Local Open Scope string_scope.
Local Open Scope m_scope.
Local Open Scope nat_scope.

(** ** Open calls *)

(** A recorded call without a result. *)
Definition unanswered (e : journal_event) : bool :=
  match e with EToolCall t => match te_result t with None => true | Some _ => false end | _ => false end.
Definition open_call (l : log) (tag : nat) : Prop := ∃ e, (tag, e) ∈ lg_entries l ∧ unanswered e = true.
Definition log_wf (l : log) : Prop := ∀ tag e, (tag, e) ∈ lg_entries l → tag < lg_next l.

(** No call is open that was not open before. *)
Definition settles : relation log := λ l l',
  log_wf l → log_wf l' ∧ ∀ tag, open_call l' tag → open_call l tag.

#[export] Instance settles_preorder : PreOrder settles.
Proof.
  split; [by intros l|]. intros l1 l2 l3 H12 H23 Hwf. destruct (H12 Hwf) as [Hwf2 Ho2].
  destruct (H23 Hwf2) as [? ?]. split; auto.
Qed.

Lemma settles_add e l : unanswered e = false → settles l (log_add e l).
Proof.
  intros He Hwf. split.
  - intros tag e'. cbn. rewrite elem_of_app, list_elem_of_singleton. intros [H|[= -> ->]]; [|lia]. apply Hwf in H. lia.
  - intros tag (e' & H & Hu). cbn in H. rewrite elem_of_app, list_elem_of_singleton in H.
    destruct H as [H|[= -> ->]]; [by exists e'|congruence].
Qed.

Lemma elem_of_log_update tag f l t e :
  (t, e) ∈ lg_entries (log_update tag f l) ↔ ∃ e', (t, e') ∈ lg_entries l ∧ e = if Nat.eqb t tag then f e' else e'.
Proof.
  cbn. rewrite list_elem_of_fmap. split.
  - intros ([t' e'] & H & Hin). cbn in H. exists e'. destruct (Nat.eqb t' tag) eqn:Ht; simplify_eq; by rewrite Ht.
  - intros (e' & Hin & ->). exists (t, e'). cbn. by destruct (Nat.eqb t tag).
Qed.

Lemma settles_update tag f l :
  (∀ e, unanswered (f e) = true → unanswered e = true) → settles l (log_update tag f l).
Proof.
  intros Hf Hwf. split.
  - intros t e (e' & H & _)%elem_of_log_update. by eapply Hwf.
  - intros t (e & (e' & H & ->)%elem_of_log_update & Hu). exists e'. split; [done|]. destruct (Nat.eqb t tag); auto.
Qed.

Lemma put_result_answers r e : unanswered (put_result r e) = false.
Proof. by destruct e. Qed.

Lemma put_call_open n a e : unanswered (put_call n a e) = unanswered e.
Proof. by destruct e. Qed.

Lemma update_answers tag f l : (∀ e, unanswered (f e) = false) → ¬ open_call (log_update tag f l) tag.
Proof.
  intros Hf (e & (e' & _ & ->)%elem_of_log_update & Hu). rewrite Nat.eqb_refl, Hf in Hu. done.
Qed.

(** ** Operations that leave no new call open *)

Section Settles.
Context {W : Type}.
Implicit Types s : st W.

Definition log_settles : relation (st W) := λ s s', settles (s_log s) (s_log s').
#[export] Instance log_settles_preorder : PreOrder log_settles.
Proof. split; [by intros s|]. intros a b c H1 H2. unfold log_settles. by etrans. Qed.

(** A service that answers the calls it records. *)
Definition ext_settles {A} (f : ext W A) : Prop := ∀ names w l, settles l (f names w l).1.2.

Lemma settles_outside {A} (f : ext W A) : ext_settles f → keeps log_settles (outside f).
Proof.
  intros Hf s. unfold outside, log_settles. specialize (Hf (session_locals (s_session s)) (s_world s) (s_log s)).
  by destruct (f _ _ _) as [[w l] a].
Qed.
Lemma settles_outside_result {A} (f : ext W (result A)) : ext_settles f → keeps log_settles (outside_result f).
Proof. intros Hf. apply keeps_bind; [apply _|by apply settles_outside|intros; by apply keeps_lift, _]. Qed.
Lemma settles_add_event e : unanswered e = false → keeps (S := st W) log_settles (add_event e).
Proof. intros He s. by apply settles_add. Qed.
Lemma settles_add_event_b e : Is_true (negb (unanswered e)) → keeps (S := st W) log_settles (add_event e).
Proof. intros He%Is_true_true%negb_true_iff. by apply settles_add_event. Qed.
Lemma settles_set_result tag c x : keeps (S := st W) log_settles (set_result tag c x).
Proof. intros s. apply settles_update. intros e. by rewrite put_result_answers. Qed.
Lemma settles_put_call tag n a : keeps (S := st W) log_settles (update_event tag (put_call n a)).
Proof. intros s. apply settles_update. intros e. by rewrite put_call_open. Qed.
Lemma settles_accept tag r n a : keeps (S := st W) log_settles (update_event tag (λ e, put_result r (put_call n a e))).
Proof. intros s. apply settles_update. intros e. by rewrite put_result_answers. Qed.
Lemma settles_on_session f : keeps (S := st W) log_settles (on_session f).
Proof. by intros s. Qed.
Lemma settles_set_locals l : keeps (S := st W) log_settles (set_locals l).
Proof. by intros s. Qed.
Lemma settles_record_execution : keeps (S := st W) log_settles record_execution.
Proof. by intros s. Qed.
Lemma settles_record_error : keeps (S := st W) log_settles record_error.
Proof. by intros s. Qed.
Lemma settles_get_locals : keeps (S := st W) log_settles get_locals.
Proof. by intros s. Qed.
Lemma settles_set_guard g : keeps (S := st W) log_settles (set_guard g).
Proof. by intros s. Qed.
Lemma settles_on_turn f : keeps (S := st W) log_settles (on_turn f).
Proof. by intros s. Qed.
Lemma settles_sync : keeps (S := st W) log_settles sync_session_locals.
Proof. by intros s. Qed.
End Settles.

Create HintDb settles.
#[export] Hint Resolve settles_set_result settles_put_call settles_accept settles_on_session settles_set_locals
  settles_record_execution settles_record_error settles_get_locals settles_set_guard settles_on_turn settles_sync : keeps.
#[export] Hint Extern 1 (keeps log_settles (add_event _)) => apply settles_add_event; reflexivity : keeps.

(** What is assumed of the services: whatever they add to the log is answered
    when they return. *)
Record services_settle {W} (sv : services W) : Prop := {
  ss_generate : ext_settles (sv_generate sv);
  ss_text : ∀ r, ext_settles (sv_on_text_only sv r);
  ss_text_events : ∀ r names w l es, (sv_on_text_only sv r names w l).2 = Ok (ActRetry es) →
    Forall (λ e, unanswered e = false) es;
  ss_execute : ∀ code id n, ext_settles (sv_execute sv code id n);
  ss_helpers : ∀ code, ext_settles (sv_helpers sv code);
  ss_pre : ext_settles (sv_preconditions sv);
  ss_post : ∀ v, ext_settles (sv_postconditions sv v);
  ss_drop : ext_settles (sv_drop_block sv);
  ss_turn : ∀ e, ext_settles (sv_turn_event sv e);
  ss_close : ext_settles (sv_close_sandbox sv);
  ss_prefill : ext_settles (sv_prefill_code sv)
}.

(** Outcomes that are not failures of the infrastructure. *)
Definition orderly {A} (r : result A) : Prop :=
  match r with Ok _ => True | Raise e => e = GenerationError ∨ e = LoopDetectedError end.

Section Calls.
Context {W : Type} (sv : services W) (cf : config) (tl : tools) (rt : return_type).
Context (builtins : locals) (protected : list string).
Context (Hsv : services_settle sv).
Implicit Types s : st W.

Hint Resolve settles_outside settles_outside_result ss_generate ss_text ss_execute ss_helpers ss_pre ss_post
  ss_drop ss_turn ss_close ss_prefill : keeps.

(** [m] leaves no new call open, or ends with another exception. *)
Definition answers {A} (m : M (st W) A) : Prop := ∀ s, orderly (m s).1 → log_settles s (m s).2.

Lemma answers_keeps {A} (m : M (st W) A) : keeps log_settles m → answers m.
Proof. intros Hm s _. apply Hm. Qed.

Lemma answers_bind {A B} (m : M (st W) A) (k : A → M (st W) B) : answers m → (∀ a, answers (k a)) → answers (m_bind m k).
Proof.
  intros Hm Hk s. specialize (Hm s). unfold m_bind. destruct (m s) as [[a|e] s1]; [|done].
  intros H. etrans; [by apply Hm|by apply Hk].
Qed.

(** [m] answers the call at [tag]. *)
Definition answers_call {A} (tag : nat) (m : M (st W) A) : Prop :=
  ∀ s, log_wf (s_log s) → orderly (m s).1 → ¬ open_call (s_log (m s).2) tag.

Lemma answers_then {A B} tag (m : M (st W) A) (k : A → M (st W) B) :
  keeps log_settles m → (∀ a, answers_call tag (k a)) → (∀ s, is_ok (m s).1 = true) →
  answers_call tag (m_bind m k).
Proof.
  intros Hm Hk He s Hwf. specialize (Hm s Hwf). specialize (He s). unfold m_bind.
  destruct (m s) as [[a|e] s1]; [by apply Hk, Hm|done].
Qed.

Lemma answered_then {A B} tag (m : M (st W) A) (k : A → M (st W) B) :
  answers_call tag m → keeps log_settles m → (∀ a, keeps log_settles (k a)) → answers_call tag (m_bind m k).
Proof.
  intros Hm Hkm Hk s Hwf. specialize (Hm s Hwf). specialize (Hkm s Hwf). unfold m_bind.
  destruct (m s) as [[a|e] s1]; [|done]. destruct Hkm as [Hwf1 _].
  intros _ Ho. destruct (Hk a s1 Hwf1) as [_ H]. by apply Hm, H.
Qed.

(** An answer stays, whatever happens afterwards. *)
Lemma set_result_stays {B} tag c x (k : unit → M (st W) B) s :
  keeps log_settles (k tt) → log_wf (s_log s) → ¬ open_call (s_log (m_bind (set_result tag c x) k s).2) tag.
Proof.
  intros Hk Hwf Ho. destruct (settles_set_result tag c x s Hwf) as [Hwf1 _].
  destruct (Hk _ Hwf1) as [_ H]. apply H in Ho. revert Ho. apply update_answers. intros e. apply put_result_answers.
Qed.

Lemma answered_set_result {B} tag c x (k : unit → M (st W) B) :
  keeps log_settles (k tt) → answers_call tag (m_bind (set_result tag c x) k).
Proof. intros Hk s Hwf _. by apply set_result_stays. Qed.

(** A recorded call that is answered in the end. *)
Lemma recorded_settles {A} t (m : nat → M (st W) A) s :
  (∀ tag, keeps log_settles (m tag)) →
  (∀ s1, log_wf (s_log s1) → (m (lg_next (s_log s)) s1).1 = (m_bind (add_event (EToolCall t)) m s).1 →
    ¬ open_call (s_log (m (lg_next (s_log s)) s1).2) (lg_next (s_log s))) →
  log_settles s (m_bind (add_event (EToolCall t)) m s).2.
Proof.
  intros Hk Ha Hwf. unfold m_bind, add_event in *. cbn in Ha |- *.
  set (tag := lg_next (s_log s)) in *. set (s1 := set_log _ s) in *.
  assert (log_wf (s_log s1)) as Hwf1.
  { intros t' e. cbn. rewrite elem_of_app, list_elem_of_singleton. intros [H|[= -> ->]]; [apply Hwf in H|]; lia. }
  destruct (Hk tag s1 Hwf1) as [Hwf2 H2]. split; [exact Hwf2|]. intros t' Hopen.
  destruct (decide (t' = tag)) as [->|Hne]; [by destruct (Ha s1 Hwf1 eq_refl)|].
  destruct (H2 t' Hopen) as (e & He & Hu). exists e. split; [|done].
  cbn in He. rewrite elem_of_app, list_elem_of_singleton in He. destruct He as [He|[= ]]; done.
Qed.

Lemma answers_recorded {A} t (m : nat → M (st W) A) :
  (∀ tag, keeps log_settles (m tag)) → (∀ tag, answers_call tag (m tag)) →
  answers (do tag <- add_event (EToolCall t); m tag).
Proof.
  intros Hk Ha s Ho. apply recorded_settles; [done|]. intros s1 Hwf Heq. apply Ha; [done|]. by rewrite Heq.
Qed.

Lemma settles_return_result_body args : keeps log_settles (return_result_body sv rt args).
Proof. unfold return_result_body. keeps_solve. Qed.
Hint Resolve settles_return_result_body : keeps.
Lemma settles_handle_return_result args : keeps log_settles (handle_return_result sv cf rt args).
Proof. unfold handle_return_result. keeps_solve. Qed.
Lemma settles_emit_synthetic v : keeps log_settles (emit_synthetic_inline_return sv v).
Proof. unfold emit_synthetic_inline_return. keeps_solve. Qed.
Lemma settles_run_code code id m : keeps log_settles (run_code sv code id m).
Proof. unfold run_code. keeps_solve. Qed.
Hint Resolve settles_handle_return_result settles_emit_synthetic settles_run_code : keeps.
Lemma settles_execute_code code id m : keeps log_settles (execute_code sv code id m).
Proof. unfold execute_code. keeps_solve. Qed.
Hint Resolve settles_execute_code : keeps.
Lemma settles_cell_outcome r id n tag : keeps log_settles (cell_outcome sv cf tl rt r id n tag).
Proof. unfold cell_outcome, inline_return, plain_output. keeps_solve. Qed.
Hint Resolve settles_cell_outcome : keeps.
Lemma settles_handle_execute_python id args tag :
  keeps log_settles (handle_execute_python sv cf tl rt builtins protected id args tag).
Proof. unfold handle_execute_python. keeps_solve. Qed.
Hint Resolve settles_handle_execute_python : keeps.

Lemma python_answers id args tag :
  answers_call tag (handle_execute_python sv cf tl rt builtins protected id args tag).
Proof.
  unfold handle_execute_python. apply answers_then; [eauto with keeps| |done]. intros n.
  destruct (default _ _); try by intros s _ [].
  destruct (String.eqb _ _); [apply answers_then; [eauto with keeps| |done]; intros _|];
    apply answered_set_result; keeps_solve.
Qed.

Lemma settles_return_result_call args tag : keeps log_settles (return_result_call sv cf tl rt args tag).
Proof. unfold return_result_call. keeps_solve. Qed.

Lemma return_result_answers args tag : answers_call tag (return_result_call sv cf tl rt args tag).
Proof.
  intros s Hwf Ho. unfold return_result_call, m_bind, catch in *.
  destruct (handle_return_result sv cf rt (data_args args) s) as [[[args' [v|m]]|e] s1] eqn:Hr; cbn in *.
  - apply update_answers. intros e. apply put_result_answers.
  - apply update_answers. intros e. apply put_result_answers.
  - destruct (bool_decide _) eqn:Hb; [|bool_prop; by destruct Hb].
    apply update_answers. intros e'. apply put_result_answers.
Qed.

Lemma settles_unknown_tool_call c args tag :
  keeps log_settles (unknown_tool_call sv cf tl rt builtins protected c args tag).
Proof. unfold unknown_tool_call. keeps_solve. Qed.

Lemma unknown_tool_answers c args tag :
  answers_call tag (unknown_tool_call sv cf tl rt builtins protected c args tag).
Proof.
  unfold unknown_tool_call. do 2 (apply answers_then; [eauto with keeps| |done]; intros ?).
  destruct (if cf_translate cf then _ else _).
  - apply answers_then; [eauto with keeps| |done]. intros _.
    apply answered_then; [apply python_answers|eauto with keeps|keeps_solve].
  - apply answers_then; [eauto with keeps| |done]. intros _. apply answered_set_result. keeps_solve.
Qed.
Hint Resolve settles_return_result_call settles_unknown_tool_call : keeps.

Lemma process_one_answers c rid : answers (process_one_tool_call sv cf tl rt builtins protected c rid).
Proof.
  unfold process_one_tool_call. destruct (parse_arguments _ _) as [args|e].
  - apply answers_recorded; intros tag; [keeps_solve|].
    destruct (String.eqb _ _); [|destruct (_ && _)%bool].
    + apply answered_then; [apply python_answers|eauto with keeps|keeps_solve].
    + apply answered_then; [apply return_result_answers|eauto with keeps|keeps_solve].
    + apply unknown_tool_answers.
  - apply answers_keeps. keeps_solve.
Qed.

(** ** Turns and the generation *)

Lemma answers_bind_post {A B} (P : A → Prop) (m : M (st W) A) (k : A → M (st W) B) :
  answers m → (∀ s a, (m s).1 = Ok a → P a) → (∀ a, P a → answers (k a)) → answers (m_bind m k).
Proof.
  intros Hm HP Hk s. specialize (Hm s). specialize (HP s). unfold m_bind. destruct (m s) as [[a|e] s1]; [|done].
  intros H. etrans; [by apply Hm|by apply Hk; [apply HP|]].
Qed.

Lemma answers_reraise {A} (m : M (st W) A) (h : exc → M (st W) A) :
  answers m → (∀ e, keeps log_settles (h e)) → (∀ e s, (h e s).1 = Raise e) → answers (catch m h).
Proof.
  intros Hm Hk Hr s Ho. specialize (Hm s). unfold catch in *. destruct (m s) as [[a|e] s1]; [by apply Hm|].
  rewrite Hr in Ho. etrans; [by apply Hm|apply Hk].
Qed.

Lemma answers_finally {A} (m : M (st W) A) (f : M (st W) ()) :
  answers m → keeps log_settles f → (∀ s e, (f s).1 = Raise e → ¬ orderly (A := A) (Raise e)) → answers (finally m f).
Proof.
  intros Hm Hf He s Ho. specialize (Hm s). unfold finally in *. destruct (m s) as [r s1].
  specialize (Hf s1). specialize (He s1). destruct (f s1) as [[[]|e] s2]; cbn in *.
  - etrans; [by apply Hm|exact Hf].
  - by destruct (He e eq_refl).
Qed.

Ltac answers_step :=
  match goal with
  | |- ∀ _, _ => intros
  | |- answers (m_bind _ _) => apply answers_bind
  | |- answers (match ?x with _ => _ end) => destruct x
  | |- answers _ => solve [eauto with keeps]
  | |- answers _ => apply answers_keeps; solve [keeps_solve]
  end.
Ltac answers_solve := repeat answers_step.
Hint Resolve process_one_answers : keeps.

Lemma settles_loop_guard_before g a p c rid : keeps log_settles (loop_guard_before sv g a p c rid).
Proof. unfold loop_guard_before. keeps_solve. Qed.
Lemma settles_loop_guard_after g a p c n : keeps log_settles (loop_guard_after sv g a p c n).
Proof. unfold loop_guard_after. keeps_solve. Qed.
Hint Resolve settles_loop_guard_before settles_loop_guard_after : keeps.

Lemma process_calls_answers cs rid : answers (process_calls sv cf tl rt builtins protected cs rid).
Proof.
  induction cs as [|c cs IH]; cbn [process_calls]; [answers_solve|]. unfold guarded_process, process_call. answers_solve.
Qed.
Hint Resolve process_calls_answers : keeps.

Lemma process_tool_calls_answers cs rid : answers (process_tool_calls sv cf tl rt builtins protected cs rid).
Proof. unfold process_tool_calls. answers_solve. Qed.
Hint Resolve process_tool_calls_answers : keeps.

Lemma settles_add_events es : Forall (λ e, unanswered e = false) es → keeps (S := st W) log_settles (add_events es).
Proof.
  induction 1 as [|e es He Hes IH]; cbn [add_events]; [keeps_solve|].
  apply keeps_bind; [apply _|by apply settles_add_event|done].
Qed.

Lemma text_only_answers r : answers (text_only_turn sv cf tl rt builtins protected r).
Proof.
  unfold text_only_turn, outside_result.
  apply (answers_bind_post (λ a, ∀ es, a = ActRetry es → Forall (λ e, unanswered e = false) es)).
  - apply answers_keeps. apply settles_outside_result; eauto using ss_text.
  - intros s a. unfold m_bind, outside, lift. destruct (sv_on_text_only _ _ _ _ _) as [[w l] x] eqn:Hx. cbn.
    intros -> es ->. eapply (ss_text_events sv Hsv). by rewrite Hx.
  - intros a Ha.
    assert (answers (text_only_action sv cf tl rt builtins protected a)) as Hact.
    { unfold text_only_action. destruct a as [v|es|cs|kind|]; answers_solve.
      apply answers_keeps. by apply settles_add_events, Ha. }
    destruct a; answers_solve; by apply Hact.
Qed.
Hint Resolve text_only_answers : keeps.

Lemma turn_body_answers : answers (turn_body sv cf tl rt builtins protected).
Proof.
  unfold turn_body, on_response, incomplete_response, empty_response, on_api_error, handle_block_syntax_error, finish,
    reset_api_errors, reset_text_only, record_api_error, record_iteration, final_turn, successful_turn, turn_exception.
  answers_solve.
Qed.

Lemma settles_emit e : keeps log_settles (emit_turn sv e).
Proof.
  unfold emit_turn. apply keeps_bind; [apply _|by apply keeps_modify|]. intros. apply settles_outside, ss_turn, Hsv.
Qed.
Hint Resolve settles_emit : keeps.

Lemma turn_answers n : answers (turn sv n (turn_body sv cf tl rt builtins protected)).
Proof.
  unfold turn. apply answers_bind; [apply answers_keeps; eauto with keeps|]. intros _.
  apply answers_bind; [apply answers_keeps; eauto with keeps|]. intros _.
  apply answers_finally; [apply answers_reraise| |].
  - apply turn_body_answers.
  - intros e. keeps_solve.
  - intros e s. unfold m_bind. by destruct (is_exception e).
  - keeps_solve.
  - intros s e. unfold m_bind, gets, emit_turn, modify, outside. cbn. by destruct (sv_turn_event _ _ _ _ _) as [[??]?].
Qed.

Lemma run_turns_answers fuel n : answers (run_turns sv cf tl rt builtins protected fuel n).
Proof.
  revert n. induction fuel as [|fuel IH]; intros n; cbn [run_turns]; [answers_solve|].
  apply answers_bind; [answers_solve|]. intros []; [answers_solve|].
  apply answers_bind; [apply turn_answers|]. intros []; [apply IH|answers_solve].
Qed.

(** A prefill step answers its call before anything can raise. *)
Lemma settles_prefill_step code kind : keeps log_settles (execute_prefill_step sv tl code kind).
Proof.
  unfold execute_prefill_step. apply keeps_bind; [apply _|eauto with keeps|]. intros n.
  apply keeps_bind; [apply _|eauto with keeps|]. intros id s. cbn zeta.
  apply recorded_settles; [intros tag; keeps_solve|]. intros s1 Hwf _.
  apply set_result_stays; [keeps_solve|exact Hwf].
Qed.
Hint Resolve settles_prefill_step : keeps.

Lemma settles_run_prefill code : keeps log_settles (run_prefill sv tl code).
Proof. unfold run_prefill. keeps_solve. Qed.
Hint Resolve settles_run_prefill : keeps.

Lemma run_generation_answers fuel has_type pre :
  answers (run_generation sv cf tl rt builtins protected fuel has_type pre).
Proof.
  unfold run_generation. apply answers_bind.
  - unfold prepare_generation, start_session, open_sandbox. destruct has_type; [|answers_solve].
    apply answers_bind; [apply answers_keeps; by apply keeps_modify|]. intros _.
    do 4 (apply answers_bind; [apply answers_keeps; keeps_solve|]; intros ?).
    destruct (sv_generation_id sv); answers_solve.
  - intros _. unfold generation_loop. apply answers_bind; [apply run_turns_answers|]. intros []; answers_solve.
Qed.

(** C17.  If the code it calls leaves no tool call open in the log, neither does
    a generation that returns, runs out of its budget or is stopped by the loop
    guard: every call that the model made, that a handler
    made up or that prefill ran got its result, on the error paths too. *)
Theorem calls_answered fuel has_type pre s :
  log_wf (s_log s) →
  let '(r, s') := execute sv cf tl rt builtins protected fuel has_type pre s in
  orderly r → ∀ tag, open_call (s_log s') tag → open_call (s_log s) tag.
Proof.
  intros Hwf.
  assert (answers (execute sv cf tl rt builtins protected fuel has_type pre)) as Ha.
  { unfold execute. apply answers_bind; [apply answers_keeps; by apply keeps_modify|]. intros _.
    apply answers_finally; [apply run_generation_answers| |].
    - unfold close_sandbox. keeps_solve.
    - intros s1 e. pose proof (close_sandbox_post sv s1) as H. unfold wp in H.
      destruct (close_sandbox sv s1) as [[[]|e'] s2]; cbn in *; [done|]. intros [= ->] Ho.
      destruct H as (_&_&_&_&_&_&_&Hx). by destruct Ho as [-> | ->]. }
  specialize (Ha s). destruct (execute sv cf tl rt builtins protected fuel has_type pre s) as [r s'].
  intros Ho. by apply (Ha Ho Hwf).
Qed.
End Calls.
