(* ===== verification/CodeActSafety.v ===== *)
(** * CodeActSafety: what a returned value was checked against, and the guard

    The checks behind a value that a CodeAct generation returns; the session
    under the loop guard as the machine of [LoopGuard]; and runs of concrete
    sessions, with those where the code departs from its documentation. *)

From Stdlib Require Import Ascii.
From S2P Require Import Prelude PyDict PyStr PyText Values LoopGuard StateM CodeAct CodeActLoop CodeActRuns CodeActCalls.
Local Open Scope string_scope.
Local Open Scope m_scope.
Local Open Scope nat_scope.

(** ** Runs under observation

    Services that keep a record of what the cells came to and of the checks of
    the postconditions, and behave as the given ones otherwise. *)
Inductive observation := SawCell (o : run_outcome) | SawCheck (v : value) (r : result ()).

Section Observed.
Context {W : Type} (sv : services W).

Definition unseen {A} (f : ext W A) : ext (W * list observation) A :=
  λ names w l, let '((w', l'), a) := f names w.1 l in (((w', w.2), l'), a).
Definition seen {A} (see : A → observation) (f : ext W A) : ext (W * list observation) A :=
  λ names w l, let '((w', l'), a) := f names w.1 l in (((w', w.2 ++ [see a])%list, l'), a).

Definition observed : services (W * list observation) :=
  {| sv_generate := unseen (sv_generate sv);
     sv_on_text_only := λ r, unseen (sv_on_text_only sv r);
     sv_execute := λ code id n, seen SawCell (sv_execute sv code id n);
     sv_helpers := λ code, unseen (sv_helpers sv code);
     sv_preconditions := unseen (sv_preconditions sv);
     sv_postconditions := λ v, seen (SawCheck v) (sv_postconditions sv v);
     sv_drop_block := unseen (sv_drop_block sv);
     sv_turn_event := λ e, unseen (sv_turn_event sv e);
     sv_create_sandbox := sv_create_sandbox sv;
     sv_close_sandbox := unseen (sv_close_sandbox sv);
     sv_prefill_code := unseen (sv_prefill_code sv);
     sv_generation_id := sv_generation_id sv;
     sv_loads := sv_loads sv;
     sv_literal_eval := sv_literal_eval sv;
     sv_unescape := sv_unescape sv;
     sv_is_identifier := sv_is_identifier sv;
     sv_construct := sv_construct sv;
     sv_validate := sv_validate sv;
     sv_isinstance := sv_isinstance sv;
     sv_json_form := sv_json_form sv;
     sv_jsonable := sv_jsonable sv;
     sv_repr := sv_repr sv;
     sv_word := sv_word sv;
     sv_binding_errors := sv_binding_errors sv;
     sv_policy_errors := λ code w, sv_policy_errors sv code w.1;
     sv_agent_callable := λ name w, sv_agent_callable sv name w.1;
     sv_callable := sv_callable sv;
     sv_fingerprint := sv_fingerprint sv;
     sv_uuid := sv_uuid sv;
     sv_texts := sv_texts sv |}.

(** The state without the record. *)
Definition erase (s : st (W * list observation)) : st W :=
  mk_st (s_session s) (s_log s) (s_turn s) (s_turns s) (s_caller s) (s_world s).1.
Definition observations (s : st (W * list observation)) : list observation := (s_world s).2.

(** [m'] does without the record what [m] does. *)
Definition erases {A} (m : M (st (W * list observation)) A) (m' : M (st W) A) : Prop :=
  ∀ s, m' (erase s) = ((m s).1, erase (m s).2).

Lemma erases_pure {A} (r : result A) : erases (λ s, (r, s)) (λ s, (r, s)).
Proof. by intros s. Qed.
Lemma erases_gets {A} (f : st (W * list observation) → A) g : (∀ s, g (erase s) = f s) → erases (gets f) (gets g).
Proof. intros H s. unfold gets. by rewrite H. Qed.
Lemma erases_modify f g : (∀ s, g (erase s) = erase (f s)) → erases (modify f) (modify g).
Proof. intros H s. unfold modify. by rewrite H. Qed.
Lemma erases_bind {A B} (m : M _ A) m' (k : A → M _ B) k' :
  erases m m' → (∀ a, erases (k a) (k' a)) → erases (m_bind m k) (m_bind m' k').
Proof. intros Hm Hk s. unfold m_bind. rewrite Hm. destruct (m s) as [[a|e] s1]; [apply Hk|done]. Qed.
Lemma erases_catch {A} (m : M _ A) m' (h : exc → M _ A) h' :
  erases m m' → (∀ e, erases (h e) (h' e)) → erases (catch m h) (catch m' h').
Proof. intros Hm Hh s. unfold catch. rewrite Hm. destruct (m s) as [[a|e] s1]; [done|apply Hh]. Qed.
Lemma erases_finally {A} (m : M _ A) m' f f' :
  erases m m' → erases f f' → erases (finally m f) (finally m' f').
Proof.
  intros Hm Hf s. unfold finally. rewrite Hm. destruct (m s) as [r s1]. cbn [fst snd]. rewrite Hf.
  by destruct (f s1) as [[]?].
Qed.
Lemma erases_world {A} (k : W * list observation → M _ A) k' :
  (∀ w, erases (k w) (k' w.1)) → erases (m_bind (gets s_world) k) (m_bind (gets s_world) k').
Proof. intros Hk s. unfold m_bind, gets. apply Hk. Qed.
Lemma erases_unseen {A} (f : ext W A) : erases (outside (unseen f)) (outside f).
Proof. intros s. unfold outside, unseen. cbn. by destruct (f _ _ _) as [[w l] a]. Qed.
Lemma erases_seen {A} see (f : ext W A) : erases (outside (seen see f)) (outside f).
Proof. intros s. unfold outside, seen. cbn. by destruct (f _ _ _) as [[w l] a]. Qed.
Lemma erases_unseen_result {A} (f : ext W (result A)) : erases (outside_result (unseen f)) (outside_result f).
Proof. apply erases_bind; [apply erases_unseen|]. intros r. apply erases_pure. Qed.
Lemma erases_seen_result {A} see (f : ext W (result A)) : erases (outside_result (seen see f)) (outside_result f).
Proof. apply erases_bind; [apply erases_seen|]. intros r. apply erases_pure. Qed.
Lemma erases_update tag f : erases (update_event tag f) (update_event tag f).
Proof. by intros s. Qed.
Lemma erases_add e : erases (add_event e) (add_event e).
Proof. by intros s. Qed.
Lemma erases_on_session f : erases (on_session f) (on_session f).
Proof. by intros s. Qed.
Lemma erases_get_locals : erases get_locals get_locals.
Proof. by intros s. Qed.
Lemma erases_set_locals l : erases (set_locals l) (set_locals l).
Proof. by intros s. Qed.
Lemma erases_record_execution : erases record_execution record_execution.
Proof. by intros s. Qed.
Lemma erases_on_turn f : erases (on_turn f) (on_turn f).
Proof. by intros s. Qed.
Lemma erases_set_guard g : erases (set_guard g) (set_guard g).
Proof. by intros s. Qed.
Lemma erases_sync : erases sync_session_locals sync_session_locals.
Proof. by intros s. Qed.
End Observed.

#[local] Hint Resolve erases_pure erases_unseen erases_seen erases_unseen_result erases_seen_result erases_update
  erases_add erases_on_session erases_get_locals erases_set_locals erases_record_execution erases_on_turn
  erases_set_guard erases_sync : erases.
#[local] Hint Extern 5 (erases _ _) => (intros ?; reflexivity) : erases.
#[local] Hint Extern 1 (erases (gets _) (gets _)) => (apply erases_gets; by intros ?) : erases.
#[local] Hint Extern 1 (erases (modify _) (modify _)) => (apply erases_modify; by intros ?) : erases.
#[local] Hint Extern 2 (erases (m_ret _) (m_ret _)) => apply erases_pure : erases.
#[local] Hint Extern 2 (erases (raise _) (raise _)) => apply erases_pure : erases.
#[local] Hint Extern 2 (erases (lift _) (lift _)) => apply erases_pure : erases.
Ltac erases_step :=
  match goal with
  | |- ∀ _, _ => intros
  | |- erases (m_bind (gets s_world) _) _ => apply erases_world
  | |- erases (m_bind _ _) (m_bind _ _) => apply erases_bind
  | |- erases (catch _ _) _ => apply erases_catch
  | |- erases (finally _ _) _ => apply erases_finally
  | |- erases (match ?x with _ => _ end) (match ?x with _ => _ end) => destruct x
  | |- erases _ _ => solve [eauto with erases]
  end.
Ltac erases_solve := repeat erases_step.

Section Erased.
Context {W : Type} (sv : services W) (cf : config) (tl : tools) (rt : return_type).
Context (builtins : locals) (protected : list string).
Notation osv := (observed sv).


Lemma erases_return_result args : erases (handle_return_result osv cf rt args) (handle_return_result sv cf rt args).
Proof. unfold handle_return_result, return_result_body. cbn [observed sv_postconditions]. erases_solve. Qed.
Hint Resolve erases_return_result : erases.

Lemma erases_run_code code id m : erases (run_code osv code id m) (run_code sv code id m).
Proof. unfold run_code. cbn [observed sv_execute]. erases_solve. Qed.
Hint Resolve erases_run_code : erases.

Lemma erases_execute_code code id m : erases (execute_code osv code id m) (execute_code sv code id m).
Proof.
  unfold execute_code. cbn [observed sv_helpers sv_binding_errors sv_policy_errors].
  destruct (sv_binding_errors sv code) as [errors|[]]; erases_solve.
Qed.
Hint Resolve erases_execute_code : erases.

Lemma erases_synthetic v : erases (emit_synthetic_inline_return osv v) (emit_synthetic_inline_return sv v).
Proof.
  unfold emit_synthetic_inline_return. apply erases_bind; [by apply erases_gets|]. intros n.
  replace (jsonable osv v) with (jsonable sv v) by done. erases_solve.
Qed.
Hint Resolve erases_synthetic : erases.

Lemma erases_cell_outcome r id n tag : erases (cell_outcome osv cf tl rt r id n tag) (cell_outcome sv cf tl rt r id n tag).
Proof.
  assert (erases (plain_output osv tl r id n) (plain_output sv tl r id n)) as Hp by (unfold plain_output; erases_solve).
  unfold cell_outcome. destruct (er_signal r) as [args|].
  - unfold inline_return. erases_solve.
  - change (try_validate_return_value osv rt) with (try_validate_return_value sv rt). erases_solve.
Qed.
Hint Resolve erases_cell_outcome : erases.

Lemma erases_python id args tag : erases (handle_execute_python osv cf tl rt builtins protected id args tag)
  (handle_execute_python sv cf tl rt builtins protected id args tag).
Proof.
  unfold handle_execute_python. change (strip_fences osv) with (strip_fences sv). erases_solve.
Qed.
Hint Resolve erases_python : erases.

Lemma erases_process_one c rid : erases (process_one_tool_call osv cf tl rt builtins protected c rid)
  (process_one_tool_call sv cf tl rt builtins protected c rid).
Proof.
  unfold process_one_tool_call. change (parse_arguments osv) with (parse_arguments sv).
  destruct (parse_arguments _ _) as [args|e]; [|destruct e; erases_solve].
  apply erases_bind; [apply erases_add|]. intros tag. case_match; [erases_solve|]. case_match.
  - unfold return_result_call. change (corrected_return_args osv) with (corrected_return_args sv). erases_solve.
  - unfold unknown_tool_call. apply erases_bind; [apply erases_get_locals|]. intros names. apply erases_world. intros w.
    change (translate_tool_call osv builtins (lc_name c) args names w) with (translate_tool_call sv builtins (lc_name c) args names w.1).
    destruct (if cf_translate cf then _ else _); erases_solve.
Qed.
Hint Resolve erases_process_one : erases.

Lemma erases_process_calls cs rid : erases (process_tool_calls osv cf tl rt builtins protected cs rid)
  (process_tool_calls sv cf tl rt builtins protected cs rid).
Proof.
  unfold process_tool_calls. apply erases_bind; [apply erases_on_session|]. intros _.
  induction cs as [|c cs IH]; cbn [process_calls]; [apply erases_pure|].
  apply erases_bind; [by apply erases_gets|]. intros [g|]; [|erases_solve; exact IH].
  apply erases_bind; [|intros []; [apply erases_pure|exact IH]].
  unfold guarded_process. change (loop_guard_arguments osv c) with (loop_guard_arguments sv c).
  apply erases_bind; [apply erases_pure|]. intros parsed. apply erases_bind.
  - unfold loop_guard_before. cbn [observed sv_fingerprint]. change (guard_message osv) with (guard_message sv).
    erases_solve.
  - intros []; [apply erases_pure|]. apply erases_bind; [by apply erases_gets|]. intros first.
    apply erases_bind; [apply erases_process_one|]. intros r.
    assert (∀ g', erases (loop_guard_after osv g' (sv_fingerprint osv (lc_name c) parsed) parsed c first)
      (loop_guard_after sv g' (sv_fingerprint sv (lc_name c) parsed) parsed c first)) as Ha.
    { intros g'. unfold loop_guard_after. apply erases_bind; [by apply erases_gets|]. intros l.
      cbn [observed sv_fingerprint]. change (tool_call_outcome osv) with (tool_call_outcome sv).
      change (guard_message osv) with (guard_message sv). erases_solve. }
    erases_solve.
Qed.
Hint Resolve erases_process_calls : erases.

Lemma erases_emit_turn e : erases (emit_turn osv e) (emit_turn sv e).
Proof. unfold emit_turn. cbn [observed sv_turn_event]. erases_solve. Qed.
Hint Resolve erases_emit_turn : erases.

Lemma erases_add_events es : erases (W := W) (add_events es) (add_events es).
Proof. induction es as [|e es IH]; cbn [add_events]; [apply erases_pure|]. apply erases_bind; [apply erases_add|done]. Qed.
Hint Resolve erases_add_events : erases.

Lemma erases_text_only r : erases (text_only_turn osv cf tl rt builtins protected r)
  (text_only_turn sv cf tl rt builtins protected r).
Proof.
  unfold text_only_turn. cbn [observed sv_on_text_only]. apply erases_bind; [apply erases_unseen_result|].
  assert (∀ a, erases (text_only_action osv cf tl rt builtins protected a) (text_only_action sv cf tl rt builtins protected a)) as Ha.
  { intros []; cbn [text_only_action]; erases_solve. }
  assert (∀ v, erases (W := W) (finish v) (finish v)) as Hf by (intros v; unfold finish; erases_solve).
  intros []; erases_solve.
Qed.
Hint Resolve erases_text_only : erases.

Lemma erases_turn n : erases (turn osv n (turn_body osv cf tl rt builtins protected))
  (turn sv n (turn_body sv cf tl rt builtins protected)).
Proof.
  assert (∀ v, erases (W := W) (finish v) (finish v)) as Hf by (intros v; unfold finish; erases_solve).
  assert (erases (turn_body osv cf tl rt builtins protected) (turn_body sv cf tl rt builtins protected)) as Hb.
  { unfold turn_body. cbn [observed sv_generate]. apply erases_bind; [apply erases_unseen|].
    assert (∀ e, erases (on_api_error osv cf e) (on_api_error sv cf e)) as He by (intros e; unfold on_api_error; erases_solve).
    intros [[r id]|e]; [|destruct e; unfold handle_block_syntax_error; cbn [observed sv_drop_block]; erases_solve].
    apply erases_bind; [erases_solve|]. intros _. unfold on_response, incomplete_response, empty_response.
    erases_solve. }
  unfold turn. erases_solve.
Qed.
Hint Resolve erases_turn : erases.

Lemma erases_run_turns fuel n : erases (run_turns osv cf tl rt builtins protected fuel n)
  (run_turns sv cf tl rt builtins protected fuel n).
Proof. revert n. induction fuel as [|fuel IH]; intros n; cbn [run_turns]; erases_solve. Qed.
Hint Resolve erases_run_turns : erases.

Lemma erases_prefill pre : erases (run_prefill osv tl pre) (run_prefill sv tl pre).
Proof.
  assert (∀ code kind, erases (execute_prefill_step osv tl code kind) (execute_prefill_step sv tl code kind)) as Hs.
  { intros code kind. unfold execute_prefill_step. erases_solve. }
  unfold run_prefill. cbn [observed sv_prefill_code]. erases_solve.
Qed.
Hint Resolve erases_prefill : erases.

(** The record changes nothing: a run under observation, without its record,
    is the run. *)
Lemma erases_execute fuel has_type pre : erases (execute osv cf tl rt builtins protected fuel has_type pre)
  (execute sv cf tl rt builtins protected fuel has_type pre).
Proof.
  unfold execute. apply erases_bind; [by apply erases_modify|]. intros _. apply erases_finally.
  - unfold run_generation, prepare_generation, start_session, open_sandbox, generation_loop.
    cbn [observed sv_preconditions sv_create_sandbox sv_generation_id]. erases_solve.
  - unfold close_sandbox. cbn [observed sv_close_sandbox]. erases_solve.
Qed.
End Erased.

(** ** Returned values *)

(** What holds of the record: [m], started where [P] holds of it, returns
    values [a] where [Q a] holds of it. *)
Section Triples.
Context {W : Type}.
Notation state := (st (W * list observation)).

Definition triple {A} (P : list observation → Prop) (m : M state A) (Q : A → list observation → Prop) : Prop :=
  ∀ s, P (observations s) → match m s with (Ok a, s') => Q a (observations s') | _ => True end.
Definition anything (os : list observation) : Prop := True.

Lemma triple_ret {A} P (a : A) (Q : A → list observation → Prop) : (∀ os, P os → Q a os) → triple P (m_ret a) Q.
Proof. intros H s. apply H. Qed.
Lemma triple_raise {A} P e (Q : A → list observation → Prop) : triple P (raise e) Q.
Proof. done. Qed.
Lemma triple_lift {A} P (r : result A) (Q : A → list observation → Prop) :
  (∀ a os, r = Ok a → P os → Q a os) → triple P (lift r) Q.
Proof. intros H s Hs. unfold lift. destruct r; [by apply H|done]. Qed.
Lemma triple_bind {A B} P (Q : A → list observation → Prop) (Q' : B → list observation → Prop) (m : M state A) k :
  triple P m Q → (∀ a, triple (Q a) (k a) Q') → triple P (m_bind m k) Q'.
Proof. intros Hm Hk s Hs. specialize (Hm s Hs). unfold m_bind. destruct (m s) as [[a|e] s1]; [by apply Hk|done]. Qed.
Lemma triple_skip {A B} P (Q : B → list observation → Prop) (m : M state A) k :
  (∀ a, triple anything (k a) Q) → triple P (m_bind m k) Q.
Proof. apply triple_bind. intros s _. by destruct (m s) as [[]?]. Qed.
Lemma triple_catch {A} P (Q : A → list observation → Prop) (m : M state A) h :
  triple P m Q → (∀ e, triple anything (h e) Q) → triple P (catch m h) Q.
Proof. intros Hm Hh s Hs. specialize (Hm s Hs). unfold catch. destruct (m s) as [[a|e] s1]; [done|by apply Hh]. Qed.

(** Operations that add nothing to the record. *)
Definition same_record : relation state := λ s s', observations s = observations s'.
#[export] Instance same_record_preorder : PreOrder same_record.
Proof. split; [done|]. intros a b c. unfold same_record. congruence. Qed.

Lemma triple_then {A B} P (Q : B → list observation → Prop) (m : M state A) k :
  keeps same_record m → (∀ a, triple P (k a) Q) → triple P (m_bind m k) Q.
Proof.
  intros Hm Hk s Hs. specialize (Hm s). unfold same_record in Hm. unfold m_bind.
  destruct (m s) as [[a|e] s1]; [|done]. cbn in Hm. apply Hk. by rewrite <- Hm.
Qed.
Lemma triple_finally {A} P (Q : A → list observation → Prop) (m : M state A) f :
  triple P m Q → keeps same_record f → triple P (finally m f) Q.
Proof.
  intros Hm Hf s Hs. specialize (Hm s Hs). unfold finally. destruct (m s) as [r s1]. specialize (Hf s1).
  unfold same_record in Hf. destruct (f s1) as [[]?]; [|done]. cbn in Hf. destruct r; [by rewrite <- Hf|done].
Qed.

Lemma record_unseen {A} (f : ext W A) : keeps same_record (outside (unseen f)).
Proof. intros s. unfold outside, unseen, same_record. cbn. by destruct (f _ _ _) as [[w l] a]. Qed.
Lemma record_unseen_result {A} (f : ext W (result A)) : keeps same_record (outside_result (unseen f)).
Proof. apply keeps_bind; [apply _|apply record_unseen|intros; by apply keeps_lift, _]. Qed.
Lemma record_add e : keeps same_record (add_event e).
Proof. by intros s. Qed.
Lemma record_update tag f : keeps same_record (update_event tag f).
Proof. by intros s. Qed.
Lemma record_set_result tag c x : keeps same_record (set_result tag c x).
Proof. by intros s. Qed.
Lemma record_set_locals l : keeps same_record (set_locals l).
Proof. by intros s. Qed.
Lemma record_sync : keeps same_record sync_session_locals.
Proof. by intros s. Qed.
Lemma record_on_turn f : keeps same_record (on_turn f).
Proof. by intros s. Qed.
End Triples.

Section Values.
Context {W : Type} (sv : services W) (cf : config) (tl : tools) (rt : return_type).
Context (builtins : locals) (protected : list string).
Notation osv := (observed sv).
Hint Resolve record_unseen record_unseen_result record_add record_update record_set_result record_set_locals
  record_sync record_on_turn : keeps.

(** The value is [None] for [-> None]; else the model accepted it, and
    [isinstance] where pydantic does not check the type. *)
Definition fits_type (v : value) : Prop :=
  if rt_none rt then v = Data VNone
  else ∃ args, sv_validate sv args = Ok v ∧ (rt_pydantic rt = true ∨ is_none v = true ∨ sv_isinstance sv v = true).

(** What a value is returned for: its postconditions just held, or a cell
    ended without an error with an explicit [return] of a value that
    [_try_validate_return_value] turned into it. *)
Definition accepted_by (o : observation) (v : value) : Prop :=
  match o with
  | SawCheck v' r => v' = v ∧ r = Ok tt
  | SawCell (Ran r) =>
      er_signal r = None ∧ er_explicit r = true ∧ er_error r = None ∧
      ∃ x, er_value r = Some x ∧ try_validate_return_value sv rt x = Ok (Some v)
  | SawCell _ => False
  end.

Definition checked (v : value) (os : list observation) : Prop :=
  fits_type v ∧ ∃ o, last os = Some o ∧ accepted_by o v.

Lemma validate_args_fits args v : rt_none rt = false → validate_args sv rt args = Ok v → fits_type v.
Proof.
  unfold validate_args, fits_type. intros ->. destruct (sv_validate sv args) as [w|e] eqn:Hw; [|done].
  destruct (_ || _ || _) eqn:Hb; [|done]. intros [= ->]. exists args. split; [done|].
  apply orb_true_iff in Hb as [Hb|]; [|auto]. apply orb_true_iff in Hb. tauto.
Qed.

Lemma try_validate_fits x v : try_validate_return_value sv rt x = Ok (Some v) → fits_type v.
Proof.
  unfold try_validate_return_value, fits_type. destruct (rt_none rt).
  { destruct (is_none x); [by intros [= <-]|done]. }
  set (validated := match as_str x with Some _ => _ | None => _ end).
  assert (∀ w, validated = Ok w → ∃ args, sv_validate sv args = Ok w) as Hval.
  { intros w. unfold validated. destruct (as_str x); [|eauto]. destruct (rt_str rt); [eauto|].
    destruct (maybe_parse_json_string _ _) as [[]|]; [eauto..|done]. }
  destruct validated as [w|e]; [|by destruct (model_correctable e)].
  destruct (Hval w eq_refl) as [args Hargs]. destruct (_ || _ || _) eqn:Hb; [|done]. intros [= ->].
  exists args. split; [done|]. apply orb_true_iff in Hb as [Hb|]; [|auto]. apply orb_true_iff in Hb. tauto.
Qed.

Lemma postconditions_seen v P :
  triple P (outside_result (sv_postconditions osv v)) (λ _ os, last os = Some (SawCheck v (Ok tt))).
Proof.
  intros s _. unfold outside_result, outside, m_bind, lift. cbn [observed sv_postconditions]. unfold seen.
  destruct (sv_postconditions sv v _ _ _) as [[w l] [[]|e]]; [|done]. cbn. by rewrite last_snoc.
Qed.

Definition checked_result (x : locals * (value + string)) (os : list observation) : Prop :=
  match x.2 with inl v => checked v os | inr _ => True end.

Lemma return_result_checked P args : triple P (handle_return_result osv cf rt args) checked_result.
Proof.
  apply triple_catch.
  - unfold return_result_body. destruct (rt_none rt) eqn:Hn.
    + destruct (default _ _) as [[]| |]; try by apply triple_ret.
      eapply triple_bind; [apply postconditions_seen|]. intros []. apply triple_ret. intros os Hl.
      split; [unfold fits_type; by rewrite Hn|by eexists].
    + do 3 (apply triple_skip; intros ?). change (validate_args osv) with (validate_args sv).
      eapply triple_bind; [apply triple_lift; intros v os Hv _; exact Hv|]. intros v s Hv.
      pose proof (postconditions_seen v (λ _, True) s I) as Hp. unfold m_bind.
      destruct (outside_result _ s) as [[[]|e] s1]; [|done]. cbn.
      split; [exact (validate_args_fits _ v Hn Hv)|by eexists].
  - intros e. destruct (model_correctable e); [|apply triple_raise].
    do 2 (apply triple_skip; intros ?). case_match; [apply triple_raise|by apply triple_ret].
Qed.

Definition checked_cell (e : cell_end) (os : list observation) : Prop :=
  match e with CellComplete v => checked v os | _ => True end.

(** The result of a cell that did not run is a failure. *)
Definition result_of_run (r : exec_result) (os : list observation) : Prop :=
  er_signal r = None ∧ has_error r = true ∨ last os = Some (SawCell (Ran r)).

Lemma run_code_seen P code id m : triple P (run_code osv code id m) result_of_run.
Proof.
  unfold run_code. apply triple_skip. intros n.
  eapply (triple_bind _ (λ o os, last os = Some (SawCell o))).
  - intros s _. unfold outside. cbn [observed sv_execute]. unfold seen.
    destruct (sv_execute sv _ _ _ _ _ _) as [[w l] o]. cbn. by rewrite last_snoc.
  - intros [r|p|e]; [apply triple_ret; by right| |apply triple_raise].
    destruct (default _ _). apply triple_skip. intros _. apply triple_raise.
Qed.

Lemma execute_code_seen P code id m : triple P (execute_code osv code id m) result_of_run.
Proof.
  assert (∀ P e t, triple (W := W) P (m_ret (failed_result e t)) result_of_run) as Hf by (intros; apply triple_ret; by left).
  unfold execute_code. destruct (sv_binding_errors _ _) as [errors|e]; [|destruct e; by first [apply Hf|apply triple_raise]].
  do 2 (apply triple_skip; intros ?). case_match; [|apply Hf]. apply triple_skip. intros [].
  - apply run_code_seen.
  - do 2 (apply triple_skip; intros ?). case_match; [apply run_code_seen|apply Hf].
Qed.

Lemma cell_outcome_checked r id n tag :
  triple (result_of_run r) (cell_outcome osv cf tl rt r id n tag) checked_cell.
Proof.
  assert (∀ P, triple P (plain_output osv tl r id n) checked_cell) as Hp.
  { intros P. unfold plain_output. apply triple_skip. intros _. apply triple_ret. by destruct (has_error r). }
  unfold cell_outcome. destruct (er_signal r) as [args|] eqn:Hsig.
  - unfold inline_return. eapply (triple_bind _ (λ x, checked_result ([], x))).
    + apply triple_catch.
      * eapply triple_bind; [apply return_result_checked|]. intros x. by apply triple_ret.
      * intros e. destruct (bool_decide _); [apply triple_skip; intros _|]; apply triple_raise.
    + intros [v|m].
      * apply triple_then; [eauto with keeps|]. intros _. apply triple_then; [|intros _; by apply triple_ret].
        unfold emit_synthetic_inline_return. keeps_solve.
      * do 2 (apply triple_skip; intros _). by apply triple_ret.
  - destruct (er_value r) as [x|] eqn:Hx; [|apply Hp]. destruct (er_explicit r) eqn:He, (has_error r) eqn:Herr; cbn [andb negb];
      try apply Hp.
    change (try_validate_return_value osv) with (try_validate_return_value sv).
    destruct (try_validate_return_value sv rt x) as [[v|]|e] eqn:Hv; [|apply Hp|].
    + apply triple_then; [eauto with keeps|]. intros _. apply triple_then; [unfold emit_synthetic_inline_return; keeps_solve|].
      intros _. apply triple_ret. intros os [[_ H]|Hl]; [congruence|]. split; [by eapply try_validate_fits|].
      eexists. split; [exact Hl|]. unfold has_error in Herr. cbn. destruct (er_error r); [done|]. do 3 (split; [done|]). by exists x.
    + destruct (is_exception e); [apply Hp|apply triple_raise].
Qed.

Lemma python_checked P id args tag :
  triple P (handle_execute_python osv cf tl rt builtins protected id args tag) checked_cell.
Proof.
  unfold handle_execute_python. apply triple_skip. intros n.
  destruct (default _ _); try apply triple_raise. destruct (String.eqb _ _).
  - do 3 (apply triple_skip; intros _). by apply triple_ret.
  - apply triple_skip. intros _. eapply triple_bind; [apply execute_code_seen|]. intros r.
    do 3 (apply triple_then; [eauto with keeps|]; intros ?). apply cell_outcome_checked.
Qed.

Definition checked_call (r : option calls_result) (os : list observation) : Prop :=
  match r with Some (Completed v) => checked v os | _ => True end.

Lemma process_one_checked P c rid : triple P (process_one_tool_call osv cf tl rt builtins protected c rid) checked_call.
Proof.
  assert (∀ P id args tag, triple P
    (do e <- handle_execute_python osv cf tl rt builtins protected id args tag; m_ret (end_of_cell e)) checked_call) as Hc.
  { intros. eapply triple_bind; [apply python_checked|]. intros e. apply triple_ret. by destruct e. }
  unfold process_one_tool_call. destruct (parse_arguments _ _) as [args|e].
  - apply triple_skip. intros tag. destruct (String.eqb _ _); [apply Hc|]. destruct (_ && _)%bool.
    + eapply (triple_bind _ (λ r, checked_call (Some r))); [|by intros r; apply triple_ret].
      unfold return_result_call. eapply triple_bind.
      * apply triple_catch; [apply return_result_checked|]. intros e.
        destruct (bool_decide _); [apply triple_skip; intros _|]; apply triple_raise.
      * intros [args' [v|m]]; (apply triple_then; [eauto with keeps|]); intros _; by apply triple_ret.
    + unfold unknown_tool_call. do 2 (apply triple_skip; intros ?).
      destruct (if cf_translate cf then _ else _); [apply triple_skip; intros _; apply Hc|].
      do 2 (apply triple_skip; intros _). by apply triple_ret.
  - destruct e; try apply triple_raise. do 2 (apply triple_skip; intros _). by apply triple_ret.
Qed.

Lemma process_calls_checked P cs rid :
  triple P (process_calls osv cf tl rt builtins protected cs rid) (λ r, checked_call (Some r)).
Proof.
  revert P. induction cs as [|c cs IH]; intros P; cbn [process_calls]; [by apply triple_ret|].
  apply triple_skip. intros g. eapply (triple_bind _ checked_call).
  - destruct g as [g|]; [|apply process_one_checked]. unfold guarded_process.
    do 2 (apply triple_skip; intros ?). case_match; [by apply triple_ret|].
    apply triple_skip. intros first. eapply triple_bind; [apply process_one_checked|].
    intros [[|v]|]; [|by apply triple_ret|]; do 2 (apply triple_skip; intros ?); by apply triple_ret.
  - intros [r|]; [by apply triple_ret|apply IH].
Qed.

Definition checked_end (e : turn_end) (os : list observation) : Prop := match e with Finish v => checked v os | Continue => True end.

Lemma finish_checked v : triple (checked v) (finish (W := W * list observation) v) checked_end.
Proof. unfold finish, successful_turn. do 2 (apply triple_then; [eauto with keeps|]; intros _). by apply triple_ret. Qed.

Lemma text_only_checked P r : triple P (text_only_turn osv cf tl rt builtins protected r) checked_end.
Proof.
  unfold text_only_turn. apply triple_skip. intros a.
  assert (∀ P, triple P (text_only_action osv cf tl rt builtins protected a)
    (λ o os, ∀ v, o = Some v → checked v os)) as Ha.
  { intros P'. destruct a as [v|es|cs|k|]; cbn [text_only_action]; try apply triple_raise.
    - apply triple_skip. intros _. eapply triple_bind; [apply return_result_checked|].
      intros [args [w|m]]; [|apply triple_skip; intros _]; apply triple_ret; [|done].
      by intros os Hx v' [= <-].
    - do 2 (apply triple_skip; intros _). by apply triple_ret.
    - unfold process_tool_calls. eapply triple_bind; [apply triple_skip; intros _; apply process_calls_checked|].
      intros [|v]; apply triple_ret; [done|]. by intros os Hv v' [= <-]. }
  destruct a; try apply triple_raise; do 2 (apply triple_skip; intros ?);
    (eapply triple_bind; [apply Ha|]); intros [w|].
  all: try (intros s Hs; by apply finish_checked, Hs).
  all: do 2 (apply triple_skip; intros ?); case_match; (apply triple_skip; intros _; apply triple_raise) || by apply triple_ret.
Qed.

Lemma turn_body_checked P : triple P (turn_body osv cf tl rt builtins protected) checked_end.
Proof.
  unfold turn_body. apply triple_skip. intros o.
  assert (∀ P e, triple P (on_api_error osv cf e) checked_end) as Hapi.
  { intros P' e. unfold on_api_error. do 5 (apply triple_skip; intros ?).
    case_match; [apply triple_skip; intros _; apply triple_raise|by apply triple_ret]. }
  destruct o as [[r id]|[]]; try apply Hapi; try apply triple_raise; apply triple_skip; intros _;
    try apply triple_raise; try (by apply triple_ret).
  unfold on_response. destruct (_ || _).
  { unfold incomplete_response. do 3 (apply triple_skip; intros _). apply triple_raise. }
  assert (∀ P, triple P (if negb (String.eqb (strip (lr_content r)) "") || String.eqb (lr_finish r) "stop"
    then text_only_turn osv cf tl rt builtins protected r else empty_response osv) checked_end) as Ht.
  { intros P'. destruct (_ || _); [apply text_only_checked|]. unfold empty_response.
    do 3 (apply triple_skip; intros _). by apply triple_ret. }
  destruct (String.eqb (lr_finish r) "tool_calls"); [|apply Ht]. destruct (lr_calls r); [apply Ht|].
  apply triple_skip. intros _. unfold process_tool_calls.
  eapply triple_bind; [apply triple_skip; intros _; apply process_calls_checked|].
  intros [|v]; [by apply triple_ret|apply finish_checked].
Qed.

Lemma record_emit_turn e : keeps same_record (emit_turn osv e).
Proof. apply keeps_bind; [apply _|by intros s|]. intros _. apply record_unseen. Qed.

Lemma run_turns_checked P fuel n :
  triple P (run_turns osv cf tl rt builtins protected fuel n)
    (λ e os, match e with Returned v => checked v os | _ => True end).
Proof.
  revert P n. induction fuel as [|fuel IH]; intros P n; cbn [run_turns]; [by apply triple_ret|].
  apply triple_skip. intros []; [by apply triple_ret|]. eapply triple_bind.
  - unfold turn. do 2 (apply triple_skip; intros _). apply triple_finally.
    + apply triple_catch; [apply turn_body_checked|]. intros e. apply triple_skip. intros _. apply triple_raise.
    + apply keeps_bind; [apply _|eauto with keeps|]. intros t. apply record_emit_turn.
  - intros [|v]; [apply IH|by apply triple_ret].
Qed.

End Values.

(** ** Under the loop guard *)

Section GuardKept.
Context {W : Type}.

(** Nothing but the loop itself writes the guard. *)
Definition same_guard : relation (st W) := λ s s', guard (s_session s) = guard (s_session s').
#[export] Instance same_guard_preorder : PreOrder same_guard.
Proof. split; [done|]. intros a b c. unfold same_guard. congruence. Qed.

Lemma guard_outside {A} (f : ext W A) : keeps same_guard (outside f).
Proof. intros s. unfold outside. by destruct (f _ _ _) as [[w l] a]. Qed.
Lemma guard_outside_result {A} (f : ext W (result A)) : keeps same_guard (outside_result f).
Proof. apply keeps_bind; [apply _|apply guard_outside|intros; by apply keeps_lift, _]. Qed.
Lemma guard_add_event e : keeps (S := st W) same_guard (add_event e).
Proof. by intros s. Qed.
Lemma guard_update_event tag f : keeps (S := st W) same_guard (update_event tag f).
Proof. by intros s. Qed.
Lemma guard_set_result tag c x : keeps (S := st W) same_guard (set_result tag c x).
Proof. by intros s. Qed.
Lemma guard_set_locals l : keeps (S := st W) same_guard (set_locals l).
Proof. by intros s. Qed.
Lemma guard_record_execution : keeps (S := st W) same_guard record_execution.
Proof. by intros s. Qed.
Lemma guard_record_error : keeps (S := st W) same_guard record_error.
Proof. by intros s. Qed.
Lemma guard_get_locals : keeps (S := st W) same_guard get_locals.
Proof. by intros s. Qed.
End GuardKept.

#[export] Hint Resolve guard_outside guard_outside_result guard_add_event guard_update_event guard_set_result
  guard_set_locals guard_record_execution guard_record_error guard_get_locals : keeps.

Section Guard.
Context {W : Type} (sv : services W) (cf : config) (tl : tools) (rt : return_type).
Context (builtins : locals) (protected : list string).
Implicit Types s : st W.

Notation process_call := (process_call sv cf tl rt builtins protected).
Notation guarded_process := (guarded_process sv cf tl rt builtins protected).

Lemma guard_process_call c rid : keeps same_guard (process_call c rid).
Proof.
  unfold CodeActLoop.process_call, process_one_tool_call, return_result_call, unknown_tool_call, handle_execute_python,
    cell_outcome, inline_return, plain_output, handle_return_result, return_result_body, execute_code, run_code,
    emit_synthetic_inline_return.
  keeps_solve.
Qed.

(** What the guard compares of a call that ran from [s1] to [s2]. *)
Definition call_entry (c : llm_call) (p : string + pyval) (s1 s2 : st W) : entry :=
  let '(failed, outcome) := tool_call_outcome sv (lc_id c) (length (lg_entries (s_log s1))) (s_log s2) in
  mk_entry (sv_fingerprint sv (lc_name c) p) outcome failed.

Definition with_new_guard (g : LoopGuard.loop_guard) s : st W := set_session (with_guard (Some g) (s_session s)) s.

(** The session under the guard is the machine of [LoopGuard]: a call the
    guard blocks or stops does not run and leaves the world as it was; a call
    that runs without ending the generation continues, is warned about or
    stops exactly as [guarded_call] decides on its action and outcome, and
    the guard moves to its next state. *)
Lemma guard_refines g c rid p s :
  guard (s_session s) = Some g → loop_guard_arguments sv c = Ok p →
  let action := sv_fingerprint sv (lc_name c) p in
  let '(r, s') := guarded_process g c rid s in
  match before action g with
  | (Some (kind, _, _), g1) =>
      r = (match kind with VStop => Raise LoopDetectedError | _ => Ok (Some TurnOver) end)
      ∧ guard (s_session s') = Some g1 ∧ s_world s' = s_world s
  | (None, g1) =>
      let s1 := with_new_guard g1 s in
      let '(r1, s2) := process_call c rid s1 in
      match r1 with
      | Raise _ | Ok (Some (Completed _)) => r = r1 ∧ s' = s2
      | Ok _ =>
          let '(g2, d) := guarded_call g (call_entry c p s1 s2) in
          guard (s_session s') = Some g2 ∧ r = (if decide (d = DStopped) then Raise LoopDetectedError else r1)
      end
  end.
Proof.
  intros Hg Hp. cbv zeta.
  assert (∀ s1 s2, before (en_action (call_entry c p s1 s2)) g = before (sv_fingerprint sv (lc_name c) p) g) as Hact.
  { intros s1 s2. unfold call_entry. by destruct (tool_call_outcome _ _ _ _). }
  unfold CodeActLoop.guarded_process. rewrite Hp. unfold m_bind at 1, lift.
  unfold loop_guard_before. destruct (before _ g) as [[[[kind n] outcome]|] g1] eqn:Hb.
  - unfold m_bind. cbn. by destruct kind.
  - unfold m_bind at 1 2 3 4 5. cbn [set_guard on_session modify m_ret gets].
    fold (with_new_guard g1 s). pose proof (guard_process_call c rid (with_new_guard g1 s)) as Hk.
    destruct (process_call c rid (with_new_guard g1 s)) as [[x|e] s2] eqn:Hr; [|done].
    unfold same_guard in Hk. cbn in Hk.
    destruct x as [[|v]|]; [| done|].
    all: unfold guarded_call; rewrite Hact; unfold m_bind, gets; cbn; rewrite <- Hk; cbn;
      unfold loop_guard_after, call_entry, m_bind, gets; cbn;
      destruct (tool_call_outcome _ _ _ _) as [failed outcome]; cbn;
      destruct (after _ _ _ g1) as [[[kind n]|] g2]; cbn; [destruct kind|]; done.
Qed.

(** The model proposes the same call again and again, in one turn or many. *)
Fixpoint attempts (n : nat) (c : llm_call) (rid : option string) : M (st W) () :=
  match n with
  | 0 => m_ret tt
  | S n =>
      do g <- gets (λ s, guard (s_session s));
      match g with
      | Some g => then! guarded_process g c rid; attempts n c rid
      | None => m_ret tt
      end
  end.

Section Repeated.
Context (c : llm_call) (rid : option string) (p : string + pyval) (e : entry).
Context (Hp : loop_guard_arguments sv c = Ok p).

(** Whenever it runs it does not complete the task, and what it does is [e]. *)
Context (Hrun : ∀ g1 s, ∃ r s2, process_call c rid (with_new_guard g1 s) = (Ok r, s2)
  ∧ (∀ v, r ≠ Some (Completed v)) ∧ call_entry c p (with_new_guard g1 s) s2 = e).

Lemma attempt_decides g s :
  guard (s_session s) = Some g →
  let '(r, s') := guarded_process g c rid s in
  if decide ((guarded_call g e).2 = DStopped) then r = Raise LoopDetectedError
  else is_ok r = true ∧ guard (s_session s') = Some (guarded_call g e).1.
Proof.
  intros Hg. pose proof (guard_refines g c rid p s Hg Hp) as H. cbv zeta in H.
  assert (en_action e = sv_fingerprint sv (lc_name c) p) as Ha.
  { destruct (Hrun g s) as (r & s2 & _ & _ & <-). unfold call_entry. by destruct (tool_call_outcome _ _ _ _). }
  destruct (guarded_process g c rid s) as [r s'].
  destruct (before (sv_fingerprint sv (lc_name c) p) g) as [[[[kind n] outcome]|] g1] eqn:Hb.
  - destruct H as (-> & Hg' & _). unfold guarded_call. rewrite Ha, Hb. by destruct kind.
  - destruct (Hrun g1 s) as (x & s2 & Hx & Hc & He). rewrite Hx, He in H.
    assert (let '(g2, d) := guarded_call g e in
      guard (s_session s') = Some g2 ∧ r = (if decide (d = DStopped) then Raise LoopDetectedError else Ok x)) as H2
      by (destruct x as [[|v]|]; [exact H|by destruct (Hc v)|exact H]).
    destruct (guarded_call g e) as [g2 d]. cbn. destruct H2 as [Hg2 ->]. by destruct (decide (d = DStopped)).
Qed.

Lemma attempts_run n g s :
  guard (s_session s) = Some g → DStopped ∈ guarded_run g (replicate n e) →
  (attempts n c rid s).1 = Raise LoopDetectedError.
Proof.
  revert g s. induction n as [|n IH]; intros g s Hg; cbn [replicate guarded_run attempts]; [set_solver|].
  pose proof (attempt_decides g s Hg) as Ha. unfold m_bind, gets. cbn beta iota. rewrite Hg.
  destruct (guarded_call g e) as [g2 d]. cbn [fst snd] in Ha.
  destruct (guarded_process g c rid s) as [r s']. destruct (decide (d = DStopped)) as [->|Hd]; [by rewrite Ha|].
  destruct Ha as [Hok Hg2]. destruct r; [|done]. intros [?|Hin]%elem_of_cons; [congruence|]. by eapply IH.
Qed.

(** C20.  A session that keeps proposing one call which keeps ending the same
    way is stopped: whatever happened before and however much the rest of
    the state changes in between, [LoopDetectedError] is raised within
    [repeat_threshold + 1] proposals. *)
Theorem repeated_call_stops g n s :
  guard (s_session s) = Some g → loop_config_ok (lg_config g) → repeat_threshold (lg_config g) ≤ window (lg_config g) →
  repeat_threshold (lg_config g) < n →
  (attempts n c rid s).1 = Raise LoopDetectedError.
Proof.
  intros Hg Hok Hw Hn. apply (attempts_run n g); [done|].
  destruct (repetition_stops e g n Hok Hw Hn) as (ds & -> & _). set_solver.
Qed.
End Repeated.
End Guard.

(** ** Concrete generations

    A scripted provider and runtime, on which the theorems of the CodeAct
    files are applied and the cases run where the code departs from what its
    comments say. *)

Local Open Scope string_scope.
Local Open Scope nat_scope.

(** The world is the list of responses still to come. *)
Definition script := list llm_response.

Definition quiet {A} (a : A) : ext script A := λ _ w l, ((w, l), a).

Definition next_response : ext script (result (llm_response * option string)) :=
  λ _ w l, match w with
           | [] => ((w, l), Raise TimeoutError)
           | r :: w' => ((w', log_add (EResponse r) l), Ok (r, Some "response"))
           end.

Definition demo_texts : texts :=
  mk_texts (λ _ _, "invalid arguments") (λ _, "invalid result") (λ _, "expected None") (λ _ _, "unknown tool")
    (λ _, "empty code") (λ _ r, default "" (snd <$> er_error r)) (λ _, "call a tool") (λ _ _ _ _ _, "loop guard")
    (λ _ _, "api error") "bad block" "empty response" (λ _, "prefill error").

(** The arguments of the demo calls. *)
Definition demo_loads (s : string) : result pyval :=
  if String.eqb s "cell" then Ok (VDict [("code", VStr "x")])
  else if String.eqb s "number" then Ok (VDict [("code", VInt 5)])
  else if String.eqb s "result" then Ok (VDict [("result", VInt 5)])
  else Raise ValueError.

Definition demo_services (run : exec_result) (post : result ()) : services script :=
  mk_services next_response (λ _, quiet (Ok NotAnAction)) (λ _ _ _, quiet (Ran run))
    (λ _ names w l, ((w, l), Ok (names, []))) (quiet (Ok tt)) (λ _, quiet post) (quiet tt) (λ _, quiet tt)
    (Ok tt) (quiet (Ok tt)) (quiet (Ok None)) (Some "generation") demo_loads (λ _, Raise ValueError) (λ s, Ok s) (λ _, false)
    (λ s _, Data (VStr s)) (λ args, match dict_get "result" args with Some v => Ok v | None => Raise ValueError end)
    (λ _, true) (λ v, Some v) Obj (λ _, "repr") (λ _, false) (λ _, Ok []) (λ _ _, Ok []) (λ _ _, None)
    (λ _, None) (λ name p, name +:+ match p with inl s => s | inr _ => "json" end) (λ _, "uuid") demo_texts.

Definition plain_run : exec_result := mk_exec "" "" None None None false [].
Definition demo_config (guarded : option loop_config) : config := mk_config (Some 5%Z) 3%Z 3%Z guarded false false.
Definition int_type : return_type := mk_return_type false false true.
Definition calling (name arguments : string) : llm_response := mk_response "tool_calls" "" [mk_call "c1" name arguments].

Definition demo_start (w : script) : st script :=
  mk_st (mk_codeact_session 0 0 0 0 0 [] None false) (mk_log 0 []) (mk_turn_state false false None) [] None w.

Definition demo_run (run : exec_result) (post : result ()) (guarded : option loop_config) (w : script) :
    result (option value) * st script :=
  execute (demo_services run post) (demo_config guarded) TwoTools int_type [] [] 50 true None (demo_start w).

Lemma quiet_settles {A} (a : A) : ext_settles (quiet a).
Proof. by intros names w l. Qed.

Lemma demo_settles run post : services_settle (demo_services run post).
Proof.
  split; cbn; intros; try apply quiet_settles; try by intros names w l.
  - intros names [|r w] l; [done|by apply settles_add].
  - done.
Qed.

(** Two bad calls, then a result. *)
Definition good_script : script :=
  [calling "execute_python" "?"; calling "frobnicate" "cell"; calling "execute_python" "cell"; calling "return_result" "result"].

Example good_run : (demo_run plain_run (Ok tt) None good_script).1 = Ok (Some (Data (VInt 5))).
Proof. vm_compute. reflexivity. Qed.

(** ** Applications of the theorems *)

Lemma generation_ends_witness :
  let '(r, s') := demo_run plain_run (Ok tt) None good_script in
  r ≠ Ok None ∧ within (demo_config None) 5 s' ∧ length (s_turns s') ≤ 0 + 2 * most_turns (demo_config None) 5 + 1.
Proof.
  refine (generation_ends (demo_services plain_run (Ok tt)) (demo_config None) TwoTools int_type [] [] 5%Z 50 None
    (demo_start good_script) _ _); [reflexivity|].
  vm_compute. repeat constructor.
Defined.

Lemma calls_answered_witness :
  let '(r, s') := demo_run plain_run (Ok tt) None good_script in
  orderly r → ∀ tag, open_call (s_log s') tag → open_call (mk_log 0 []) tag.
Proof.
  refine (calls_answered (demo_services plain_run (Ok tt)) (demo_config None) TwoTools int_type [] []
    (demo_settles plain_run (Ok tt)) 50 true None (demo_start good_script) _).
  intros tag e He. exfalso. revert He. apply not_elem_of_nil.
Defined.

Definition observed_start (w : script) : st (script * list observation) :=
  mk_st (mk_codeact_session 0 0 0 0 0 [] None false) (mk_log 0 []) (mk_turn_state false false None) [] None (w, []).


(** A call with bad arguments always ends the same way. *)
Definition bad_call : llm_call := mk_call "c1" "execute_python" "?".
Definition bad_entry : entry := mk_entry "execute_python?" "invalid arguments" true.

Lemma bad_call_repeats g1 (s : st script) :
  ∃ r s2, process_call (demo_services plain_run (Ok tt)) (demo_config None) TwoTools int_type [] [] bad_call None
            (with_new_guard g1 s) = (Ok r, s2)
    ∧ (∀ v, r ≠ Some (Completed v))
    ∧ call_entry (demo_services plain_run (Ok tt)) bad_call (inl "?") (with_new_guard g1 s) s2 = bad_entry.
Proof.
  eexists _, _. split; [reflexivity|]. split; [done|].
  unfold call_entry, tool_call_outcome. cbn [s_log set_log set_session with_new_guard log_add lg_entries].
  rewrite fmap_app, drop_app_length' by (by rewrite length_fmap). reflexivity.
Qed.

Definition guarded_start : st script :=
  with_new_guard (new_loop_guard (mk_loop_config 3 8)) (demo_start []).

Lemma repeated_call_stops_witness :
  (attempts (demo_services plain_run (Ok tt)) (demo_config None) TwoTools int_type [] [] 4 bad_call None guarded_start).1
  = Raise LoopDetectedError.
Proof.
  apply (repeated_call_stops (demo_services plain_run (Ok tt)) (demo_config None) TwoTools int_type [] []
           bad_call None (inl "?") bad_entry eq_refl bad_call_repeats (new_loop_guard (mk_loop_config 3 8)) 4 guarded_start).
  - reflexivity.
  - split; cbn; lia.
  - cbn. lia.
  - cbn. lia.
Defined.

(** ** Where the code departs from its comments *)

Definition explicit_run : exec_result := mk_exec "" "" None None (Some (Data (VInt 5))) true [].

(** Postconditions are run on the result of [return_result] but not on the
    operand of an explicit [return]. *)
Example explicit_return_skips_postconditions :
  (demo_run explicit_run (Raise ValueError) None [calling "execute_python" "cell"]).1 = Ok (Some (Data (VInt 5)))
  ∧ (demo_run plain_run (Raise ValueError) None (replicate 5 (calling "return_result" "result"))).1 = Raise GenerationError.
Proof. vm_compute. auto. Qed.

(** [code] that is not a string: the call stays without a result and the
    exception ends the generation. *)
Example code_not_a_string :
  let '(r, s') := demo_run plain_run (Ok tt) None [calling "execute_python" "number"; calling "return_result" "result"] in
  r = Raise AttributeError ∧ open_call (s_log s') 2.
Proof.
  vm_compute. split; [reflexivity|]. eexists. split.
  - apply list_elem_of_further, list_elem_of_further, list_elem_of_here.
  - reflexivity.
Qed.

(** Stopped by the loop guard: no [AfterTurn] of the session is final. *)
Definition is_final_event (e : turn_event) : bool := match e with AfterTurn _ final _ _ => final | _ => false end.
Example loop_stop_not_final :
  let '(r, s') := demo_run plain_run (Ok tt) (Some (mk_loop_config 2 4)) (replicate 5 (calling "execute_python" "?")) in
  r = Raise LoopDetectedError ∧ existsb is_final_event (s_turns s') = false ∧ s_turns s' ≠ [].
Proof. vm_compute. done. Qed.

(** The receipt of a cell is rewritten when its inline result is invalid. *)
Definition inline_run : exec_result := mk_exec "" "" None (Some []) None false [].
Definition results_of (l : log) : list string :=
  omap (λ e, match e with EToolCall t => tr_content <$> te_result t | _ => None end) (lg_entries l).*2.
Example receipt_rewritten :
  results_of (s_log (demo_run inline_run (Ok tt) None [calling "execute_python" "cell"; calling "return_result" "result"]).2)
  = ["status: error"; "Result accepted."].
Proof. vm_compute. reflexivity. Qed.
