(* ===== verification/CallBinding.v ===== *)
(** * CallBinding: the inputs of a generated method's call

    Models [nooa/strategies/current_call.py]: how the arguments of a call are
    bound to the parameters of a method ([bind_call_arguments],
    [merge_call_arguments]) and how a [CurrentCall] gives them back to the
    strategies ([bound_parameters], [format_parameters_as_code]), with the
    arity check of [generated_code.py].

    The [inspect] module of the standard library is modelled as in CPython
    3.13: [Signature.bind], [bind_partial] and [apply_defaults].  The values
    are any type with the tuple of [*args] and the dict of [**kwargs]. *)

From S2P Require Import Prelude PyDict PyStr.

(** [inspect.Parameter]: its name, kind and default. *)
Inductive param_kind := POSITIONAL_ONLY | POSITIONAL_OR_KEYWORD | VAR_POSITIONAL | KEYWORD_ONLY | VAR_KEYWORD.

#[export] Instance param_kind_eq_dec : EqDecision param_kind.
Proof. solve_decision. Defined.

Record param (V : Type) := mk_param { p_name : string; p_kind : param_kind; p_default : option V }.
Arguments mk_param {V}.
Arguments p_name {V}.
Arguments p_kind {V}.
Arguments p_default {V}.

(** [SignatureParameterNames]. *)
Record signature_names := mk_names {
  param_names : option (list string);
  positional_param_names : option (list string);
  var_positional_param_name : option string;
  var_keyword_param_name : option string
}.

(** The values of a call: any type with the tuples that collect [*args] and
    the dicts that collect [**kwargs]. *)
Class CallValues (V : Type) := {
  tuple : list V → V;
  mapping : dict string V → V;
  mapping_keys : V → list string;
  mapping_keys_mapping d : mapping_keys (mapping d) = dict_keys d
}.

Section Binding.
Context {V : Type} `{!CallValues V}.
Notation param := (param V).
Notation vdict := (list (string * V)).

(** ** The standard library *)

(** The first loop of [Signature._bind]: the positional arguments, and the
    parameters that are left for the keywords. *)
Fixpoint bind_positional (partial : bool) (ps : list param) (args : list V) (kwargs : vdict) :
    result (vdict * list param) :=
  match args, ps with
  | [], [] => Ok ([], [])
  | [], p :: ps' =>
      if decide (p_kind p = VAR_POSITIONAL) then Ok ([], ps')
      else if dict_mem (p_name p) kwargs then
        if decide (p_kind p = POSITIONAL_ONLY) then bind_positional partial ps' [] kwargs
        else Ok ([], ps)
      else if (bool_decide (p_kind p = VAR_KEYWORD) || bool_decide (is_Some (p_default p)) || partial)%bool
      then Ok ([], ps)
      else Raise TypeError
  | _ :: _, [] => Raise TypeError
  | a :: args', p :: ps' =>
      match p_kind p with
      | VAR_KEYWORD | KEYWORD_ONLY => Raise TypeError
      | VAR_POSITIONAL => Ok ([(p_name p, tuple args)], ps')
      | _ =>
          if (dict_mem (p_name p) kwargs && negb (bool_decide (p_kind p = POSITIONAL_ONLY)))%bool
          then Raise TypeError
          else result_bind (bind_positional partial ps' args' kwargs)
                 (λ '(d, rest), Ok ((p_name p, a) :: d, rest))
      end
  end.

(** The second loop: the parameters that take keywords, each popped. *)
Fixpoint bind_keywords (partial : bool) (ps : list param) (kwargs : vdict) : result (vdict * vdict) :=
  match ps with
  | [] => Ok ([], kwargs)
  | p :: ps' =>
      if (bool_decide (p_kind p = VAR_KEYWORD) || bool_decide (p_kind p = VAR_POSITIONAL))%bool
      then bind_keywords partial ps' kwargs
      else
        match dict_get (p_name p) kwargs with
        | None =>
            if (negb partial && bool_decide (p_default p = None))%bool then Raise TypeError
            else bind_keywords partial ps' kwargs
        | Some v =>
            if decide (p_kind p = POSITIONAL_ONLY) then Raise TypeError
            else result_bind (bind_keywords partial ps' (dict_del (p_name p) kwargs))
                   (λ '(d, remaining), Ok ((p_name p, v) :: d, remaining))
        end
  end.

(** [next((p.name for p in parameters if p.kind is k), None)]. *)
Definition name_of_kind (k : param_kind) (ps : list param) : option string :=
  head (p_name <$> filter (λ p, p_kind p = k) ps).

(** [Signature.bind] and [bind_partial]; the parameter that collects the
    keywords is among those the positional loop leaves. *)
Definition signature_bind (partial : bool) (ps : list param) (args : list V) (kwargs : vdict) : result vdict :=
  result_bind (bind_positional partial ps args kwargs) (λ '(pos, rest),
  result_bind (bind_keywords partial rest kwargs) (λ '(kw, remaining),
  match remaining with
  | [] => Ok (pos ++ kw)
  | _ :: _ => match name_of_kind VAR_KEYWORD rest with
              | Some k => Ok (pos ++ kw ++ [(k, mapping remaining)])
              | None => Raise TypeError
              end
  end)).

Definition default_of (p : param) : option V :=
  match p_default p, p_kind p with
  | Some v, _ => Some v
  | None, VAR_POSITIONAL => Some (tuple [])
  | None, VAR_KEYWORD => Some (mapping [])
  | None, _ => None
  end.

(** [BoundArguments.apply_defaults]. *)
Definition apply_defaults (ps : list param) (d : vdict) : vdict :=
  omap (λ p, (p_name p,.) <$> from_option Some (default_of p) (dict_get (p_name p) d)) ps.

(** ** [bind_call_arguments] *)

Definition is_positional (p : param) : bool :=
  match p_kind p with POSITIONAL_ONLY | POSITIONAL_OR_KEYWORD => true | _ => false end.

(** The keywords set aside when the method has [**kwargs]: those that are
    named as positional-only parameters. *)
Definition positional_keywords (ps : list param) (kwargs : vdict) : vdict :=
  match name_of_kind VAR_KEYWORD ps with
  | None => []
  | Some _ => filter (λ kv, kv.1 ∈ (p_name <$> filter (λ p, p_kind p = POSITIONAL_ONLY) ps)) kwargs
  end.

Definition bind_call_arguments (ps : list param) (args : list V) (kwargs : vdict) (partial : bool) : result vdict :=
  let pk := positional_keywords ps kwargs in
  let binding_kwargs := filter (λ kv, kv.1 ∉ dict_keys pk) kwargs in
  result_bind (signature_bind partial ps args binding_kwargs) (λ d,
  let bound := apply_defaults ps d in
  match pk, name_of_kind VAR_KEYWORD ps with
  | _ :: _, Some k =>
      match dict_get k bound with
      | Some captured =>
          Ok (dict_set k (mapping (filter (λ kv, kv.1 ∈ dict_keys pk ∨ kv.1 ∈ mapping_keys captured) kwargs)) bound)
      | None => Raise KeyError
      end
  | _, _ => Ok bound
  end).

(** ** [merge_call_arguments] and the names of the signature *)

(** [sig]: [None] when the method has no signature. *)
Definition without_self (ps : list param) : list param := filter (λ p, p_name p ≠ "self"%string) ps.

Definition merge_call_arguments (sig : option (list param)) (args : list V) (kwargs : option vdict) : vdict :=
  let supplied := default [] kwargs in
  match sig with
  | None => supplied
  | Some ps =>
      match bind_call_arguments (without_self ps) args supplied true with
      | Ok bound => dict_update supplied bound
      | Raise _ => supplied
      end
  end.

Definition signature_parameter_names (sig : option (list param)) : signature_names :=
  match sig with
  | None => mk_names None None None None
  | Some ps =>
      let ps := without_self ps in
      mk_names (Some (p_name <$> ps)) (Some (p_name <$> filter (λ p, is_positional p = true) ps))
        (name_of_kind VAR_POSITIONAL ps) (name_of_kind VAR_KEYWORD ps)
  end.

(** ** [CurrentCall] *)

Record CurrentCall := mk_call {
  cc_method_name : string;
  cc_signature : option string;
  cc_is_async : bool;
  cc_args : list V;
  cc_kwargs : vdict;
  cc_names : signature_names
}.

(** What [from_method] and the runtime set of a call. *)
Definition call_of (method_name : string) (sig_str : option string) (is_async : bool) (sig : option (list param))
    (args : list V) (kwargs : option vdict) : CurrentCall :=
  mk_call method_name sig_str is_async args (merge_call_arguments sig args kwargs) (signature_parameter_names sig).

Definition arg_name (i : nat) : string := ("arg_" ++ pretty i)%string.

(** [for i, value in enumerate(values, start=i): result[f"arg_{i}"] = value]. *)
Fixpoint set_synthetic (i : nat) (values : list V) (d : vdict) : vdict :=
  match values with
  | [] => d
  | v :: values' => set_synthetic (S i) values' (dict_set (arg_name i) v d)
  end.

Fixpoint set_by_name (i : nat) (names : list string) (values : list V) (d : vdict) : vdict :=
  match values with
  | [] => d
  | v :: values' =>
      set_by_name (S i) (tail names) values' (dict_set (default (arg_name i) (head names)) v d)
  end.

Definition set_zip (names : list string) (values : list V) (d : vdict) : vdict :=
  foldl (λ acc kv, dict_set kv.1 kv.2 acc) d (zip names values).

Definition bound_parameters (c : CurrentCall) : vdict :=
  let n := cc_names c in
  let result :=
    match positional_param_names n with
    | Some names =>
        let d := set_zip names (cc_args c) [] in
        let extra := drop (length names) (cc_args c) in
        match var_positional_param_name n with
        | Some k => dict_set k (tuple extra) d
        | None => set_synthetic (length names) extra d
        end
    | None => set_by_name 0 (default [] (param_names n)) (cc_args c) []
    end in
  match var_keyword_param_name n, param_names n with
  | Some _, Some names =>
      foldl (λ acc name, match dict_get name (cc_kwargs c) with Some v => dict_set name v acc | None => acc end) result names
  | _, _ => dict_update result (cc_kwargs c)
  end.

(** ** [format_parameters_as_code] and [format_signature]

    [fmt name value]: the text of a value by the formatter of its parameter,
    or the exception of its [repr]. *)
Definition newline_string : string := String (Ascii.ascii_of_nat 10) "".

Fixpoint format_lines (fmt : string → V → result string) (d : vdict) : result (list string) :=
  match d with
  | [] => Ok []
  | (name, v) :: d' =>
      result_bind (fmt name v) (λ t, result_bind (format_lines fmt d') (λ ls, Ok ((name ++ " = " ++ t)%string :: ls)))
  end.

Definition format_parameters_as_code (fmt : string → V → result string) (c : CurrentCall) : result string :=
  let param_dict := bound_parameters c in
  match param_dict with
  | [] => Ok ""%string
  | _ =>
      match format_lines fmt param_dict with
      | Ok lines => Ok (String.concat newline_string lines)
      | Raise e =>
          if bool_decide (e = ValueError ∨ e = AttributeError) then
            match cc_kwargs c with
            | [] => Ok ""%string
            | kwargs => result_bind (format_lines fmt kwargs) (λ lines, Ok (String.concat newline_string lines))
            end
          else Raise e
      end
  end.

Definition format_signature (c : CurrentCall) : string :=
  let prefix := if cc_is_async c then "async def"%string else "def"%string in
  match cc_signature c with
  | Some (String _ _ as s) => (prefix ++ " " ++ cc_method_name c ++ s)%string
  | _ => (prefix ++ " " ++ cc_method_name c ++ "(self, ...) -> ...")%string
  end.

(** ** The arity and type check of generated calls

    [sig] is [None] when the function cannot be inspected, [hints] when its
    type hints cannot be resolved; [check] is the check of one value. *)
Definition drop_self (ps : list param) : list param :=
  match ps with
  | p :: ps' => if decide (p_name p = "self"%string) then ps' else ps
  | [] => []
  end.

Definition is_variadic (p : param) : bool :=
  match p_kind p with VAR_POSITIONAL | VAR_KEYWORD => true | _ => false end.

Fixpoint check_bound (ps : list param) (hints : list string) (check : string → V → result ()) (d : vdict) : result () :=
  match d with
  | [] => Ok ()
  | (name, v) :: d' =>
      if decide (name ∈ hints) then
        if existsb (λ p, (bool_decide (p_name p = name) && is_variadic p)%bool) ps
        then check_bound ps hints check d'
        else result_bind (check name v) (λ _, check_bound ps hints check d')
      else check_bound ps hints check d'
  end.

Definition validate_call (sig : option (list param)) (hints : option (list string))
    (check : string → V → result ()) (args : list V) (kwargs : vdict) : result () :=
  match sig with
  | None => Ok ()
  | Some ps =>
      let ps := drop_self ps in
      result_bind (bind_call_arguments ps args kwargs false) (λ bound,
      match hints with
      | None => Ok ()
      | Some hints => check_bound ps hints check bound
      end)
  end.
End Binding.
