(* ===== verification/CallRules.v ===== *)
(** * CallRules: the inputs are those Python binds

    The rules of a Python call, as a reference: which calls a method accepts
    ([accepts]) and the value of each parameter inside the method
    ([python_locals]).  [bind_call_arguments] implements them, and the inputs
    that the strategies read from a [CurrentCall] are the method's locals. *)

From S2P Require Import Prelude PyDict PyStr CallBinding.

(** ** The reference *)

Section Rules.
Context {V : Type} `{!CallValues V}.
Notation param := (param V).
Notation vdict := (list (string * V)).
Implicit Types (ps : list param) (args : list V) (kwargs d : vdict).

Definition takes_keyword (p : param) : bool :=
  match p_kind p with POSITIONAL_OR_KEYWORD | KEYWORD_ONLY => true | _ => false end.

Definition keyword_names ps : list string := p_name <$> filter (λ p, takes_keyword p = true) ps.

(** A parameter without an argument of its own: its keyword, or its default. *)
Definition keyword_value kwargs (p : param) : option V :=
  match (if takes_keyword p then dict_get (p_name p) kwargs else None) with
  | Some v => Some v
  | None => p_default p
  end.

(** Every argument has a parameter, no parameter has two values, and none that
    is required has no value, from left to right. *)
Fixpoint each_has_a_value (partial : bool) ps args kwargs : bool :=
  match ps with
  | [] => bool_decide (length args = 0)
  | p :: ps' =>
      match p_kind p, args with
      | VAR_POSITIONAL, _ => each_has_a_value partial ps' [] kwargs
      | VAR_KEYWORD, [] => each_has_a_value partial ps' [] kwargs
      | POSITIONAL_ONLY, _ :: args' => each_has_a_value partial ps' args' kwargs
      | POSITIONAL_OR_KEYWORD, _ :: args' => negb (dict_mem (p_name p) kwargs) && each_has_a_value partial ps' args' kwargs
      | (VAR_KEYWORD | KEYWORD_ONLY), _ :: _ => false
      | (POSITIONAL_ONLY | POSITIONAL_OR_KEYWORD | KEYWORD_ONLY), [] =>
          (partial || bool_decide (is_Some (keyword_value kwargs p))) && each_has_a_value partial ps' [] kwargs
      end%bool
  end.

(** And every keyword has a parameter, or [**kwargs] collects it. *)
Definition accepts (partial : bool) ps args kwargs : bool :=
  (each_has_a_value partial ps args kwargs &&
   (bool_decide (is_Some (name_of_kind VAR_KEYWORD ps)) ||
    forallb (λ k, bool_decide (k ∈ keyword_names ps)) (dict_keys kwargs)))%bool.

(** The keywords that [**kwargs] collects. *)
Definition other_keywords ps kwargs : vdict := filter (λ kv, kv.1 ∉ keyword_names ps) kwargs.

(** The parameters of the method with their values; [others] is what
    [**kwargs] collects. *)
Fixpoint locals_from (others : vdict) ps args kwargs : vdict :=
  match ps with
  | [] => []
  | p :: ps' =>
      match p_kind p with
      | VAR_POSITIONAL => (p_name p, tuple args) :: locals_from others ps' [] kwargs
      | VAR_KEYWORD => (p_name p, mapping others) :: locals_from others ps' [] kwargs
      | _ =>
          match (if is_positional p then args else []) with
          | a :: args' => (p_name p, a) :: locals_from others ps' args' kwargs
          | [] =>
              match keyword_value kwargs p with
              | Some v => (p_name p, v) :: locals_from others ps' [] kwargs
              | None => locals_from others ps' [] kwargs
              end
          end
      end
  end.

Definition python_locals ps args kwargs : vdict := locals_from (other_keywords ps kwargs) ps args kwargs.

(** What [inspect.Signature] accepts of parameters: different names, no
    default for [*args] and [**kwargs], one [**kwargs]. *)
Record signature_wf ps : Prop := {
  wf_names : NoDup (p_name <$> ps);
  wf_defaults : Forall (λ p, is_variadic p = true → p_default p = None) ps;
  wf_one_kwargs : length (filter (λ p, p_kind p = VAR_KEYWORD) ps) ≤ 1
}.
End Rules.
