(* ===== verification/CallRuns.v ===== *)
(** * CallRuns: the binding of a call against Python's rules

    The binding of [CallBinding] agrees with [CallRules], parameter by
    parameter and for the keywords that are left; then the theorems on the
    binding, on the inputs of a [CurrentCall] and on the check of a generated
    call, with their witnesses. *)

From S2P Require Import Prelude PyDict PyStr Values CallBinding CallRules.

Section Runs.
Context {V : Type} `{!CallValues V}.
Notation param := (param V).
Notation vdict := (list (string * V)).
Implicit Types (ps : list param) (args : list V) (kwargs kw d : vdict).

(** ** What the loops of [Signature.bind] collect *)

(** The arguments of [signature_bind] without the keywords of [**kwargs]. *)
Fixpoint given ps args kw : vdict :=
  match ps with
  | [] => []
  | p :: ps' =>
      match p_kind p, args with
      | VAR_POSITIONAL, [] => given ps' [] kw
      | VAR_POSITIONAL, _ => (p_name p, tuple args) :: given ps' [] kw
      | VAR_KEYWORD, _ => given ps' [] kw
      | _, _ =>
          match (if is_positional p then args else []) with
          | a :: args' => (p_name p, a) :: given ps' args' kw
          | [] =>
              match (if takes_keyword p then dict_get (p_name p) kw else None) with
              | Some v => (p_name p, v) :: given ps' [] kw
              | None => given ps' [] kw
              end
          end
      end
  end.

Definition keyword_of kw (p : param) : option V := if takes_keyword p then dict_get (p_name p) kw else None.
Definition agree ps kw kw' : Prop := Forall (λ p, keyword_of kw p = keyword_of kw' p) ps.

Lemma each_agree partial ps kw kw' args :
  agree ps kw kw' → each_has_a_value partial ps args kw = each_has_a_value partial ps args kw'.
Proof.
  intros Ha. revert args. induction Ha as [|p ps Hp _ IH]; intros args; [done|]. cbn. revert Hp.
  unfold keyword_value, keyword_of, dict_mem, takes_keyword.
  by destruct (p_kind p), args; cbn; intros Hp; rewrite ?Hp, ?IH.
Qed.

Lemma given_agree ps kw kw' args : agree ps kw kw' → given ps args kw = given ps args kw'.
Proof.
  intros Ha. revert args. induction Ha as [|p ps Hp _ IH]; intros args; [done|]. cbn. revert Hp.
  unfold is_positional, keyword_of, takes_keyword. by destruct (p_kind p), args; cbn; intros Hp; rewrite ?Hp, ?IH.
Qed.

Lemma filter_elem_ext {A} (P Q : A → Prop) `{!∀ x, Decision (P x), !∀ x, Decision (Q x)} (l : list A) :
  (∀ x, x ∈ l → P x ↔ Q x) → filter P l = filter Q l.
Proof.
  induction l as [|x l IH]; intros HPQ; [done|]. rewrite !filter_cons, IH by set_solver.
  destruct (HPQ x) as [H1 H2]; [set_solver|]. destruct (decide (P x)), (decide (Q x)); tauto.
Qed.

Lemma filter_elem_all {A} (P : A → Prop) `{!∀ x, Decision (P x)} (l : list A) : (∀ x, x ∈ l → P x) → filter P l = l.
Proof.
  induction l as [|x l IH]; intros HP; [done|]. rewrite filter_cons_True by set_solver. f_equal. apply IH. set_solver.
Qed.

Lemma dict_keys_elem (kv : string * V) d : kv ∈ d → kv.1 ∈ dict_keys d.
Proof. apply list_elem_of_fmap_2. Qed.

Lemma dict_del_filter k d : dict_wf d → dict_del k d = filter (λ kv, kv.1 ≠ k) d.
Proof.
  unfold dict_wf, dict_keys. induction d as [|[k' v] d IH]; csimpl; [done|]. intros [Hk Hd]%NoDup_cons.
  case_decide; subst.
  - rewrite filter_cons_False by (cbn; tauto). symmetry. apply filter_elem_all. intros kv Hkv Heq.
    apply Hk. rewrite <- Heq. by apply dict_keys_elem.
  - rewrite filter_cons_True by (cbn; congruence). f_equal. by apply IH.
Qed.

Lemma keyword_names_cons (p : param) ps :
  keyword_names (p :: ps) = if takes_keyword p then p_name p :: keyword_names ps else keyword_names ps.
Proof. unfold keyword_names. rewrite filter_cons. by destruct (takes_keyword p). Qed.

Lemma keyword_names_names ps k : k ∈ keyword_names ps → k ∈ p_name <$> ps.
Proof. unfold keyword_names. intros (p & -> & [_ Hp]%list_elem_of_filter)%list_elem_of_fmap. by apply list_elem_of_fmap_2. Qed.

(** No positional-only parameter is named by a keyword. *)
Definition separate ps kw : Prop := Forall (λ p, p_kind p = POSITIONAL_ONLY → dict_get (p_name p) kw = None) ps.

Lemma takes_keyword_kind (p : param) :
  takes_keyword p = true → is_variadic p = false ∧ p_kind p ≠ POSITIONAL_ONLY.
Proof. unfold takes_keyword, is_variadic. by destruct (p_kind p). Qed.

(** A keyword of [p] leaves the other parameters as they are. *)
Lemma agree_del (p : param) ps kw : NoDup (p_name <$> p :: ps) → agree ps (dict_del (p_name p) kw) kw.
Proof.
  intros [Hp _]%NoDup_cons. apply Forall_forall. intros q Hq. unfold keyword_of. rewrite dict_get_del_ne; [done|]. intros Heq.
  apply Hp. rewrite <- Heq. by apply list_elem_of_fmap_2.
Qed.

Lemma separate_del ps k kw : dict_wf kw → separate ps kw → separate ps (dict_del k kw).
Proof.
  intros Hwf Hs. eapply Forall_impl; [exact Hs|]. intros p Hp Hk. rewrite dict_get_del by done.
  case_decide; [done|auto].
Qed.

Lemma others_plain (p : param) ps kw : takes_keyword p = false → other_keywords (p :: ps) kw = other_keywords ps kw.
Proof. intros Ht. apply filter_elem_ext. intros kv _. rewrite keyword_names_cons, Ht. done. Qed.

Lemma others_del (p : param) ps kw : dict_wf kw → takes_keyword p = true →
  other_keywords ps (dict_del (p_name p) kw) = other_keywords (p :: ps) kw.
Proof.
  intros Hwf Ht. unfold other_keywords. rewrite dict_del_filter by done. etrans; [apply list_filter_filter|].
  apply filter_elem_ext. intros kv _. rewrite keyword_names_cons, Ht. set_solver.
Qed.

Lemma others_absent (p : param) ps kw : dict_get (p_name p) kw = None →
  other_keywords (p :: ps) kw = other_keywords ps kw.
Proof.
  intros Hn%dict_get_None. destruct (takes_keyword p) eqn:Ht; [|by apply others_plain].
  apply filter_elem_ext. intros kv Hkv%dict_keys_elem. rewrite keyword_names_cons, Ht, not_elem_of_cons.
  split; [tauto|]. intros Hin. split; [|done]. intros Heq. apply Hn. by rewrite <- Heq.
Qed.

Lemma keywords_bound partial ps kw :
  NoDup (p_name <$> ps) → dict_wf kw → separate ps kw →
  bind_keywords partial ps kw =
    if each_has_a_value partial ps [] kw
    then Ok (given ps [] kw, other_keywords ps kw) else Raise TypeError.
Proof.
  revert kw. induction ps as [|p ps IH]; intros kw Hnd Hwf Hs; cbn.
  { do 2 f_equal. symmetry. apply filter_elem_all. intros kv _. unfold keyword_names. cbn. set_solver. }
  pose proof (agree_del p ps kw Hnd) as Hdel. apply Forall_cons in Hs as [Hp Hs].
  assert (NoDup (p_name <$> ps)) as Hnd' by (by apply NoDup_cons in Hnd as [_ ?]).
  specialize (IH kw Hnd' Hwf Hs) as IHkw.
  specialize (IH (dict_del (p_name p) kw) Hnd' (dict_wf_del _ _ Hwf) (separate_del _ _ _ Hwf Hs)) as IHdel.
  rewrite (each_agree _ _ _ _ _ Hdel), (given_agree _ _ _ _ Hdel) in IHdel.
  unfold keyword_value. destruct (takes_keyword p) eqn:Ht.
  - apply takes_keyword_kind in Ht as Hv. destruct (dict_get (p_name p) kw) as [v|] eqn:Hg; cbn.
    + rewrite others_del in IHdel by done. rewrite IHdel.
      unfold is_variadic, is_positional in *. destruct (p_kind p); cbn; try naive_solver; rewrite orb_true_r; cbn; by destruct (each_has_a_value _ _ _ _).
    + rewrite others_absent by done. unfold is_variadic, is_positional in *.
      destruct (p_kind p), (p_default p), partial; cbn; naive_solver.
  - rewrite others_plain by done. unfold takes_keyword, is_positional in *. destruct (p_kind p) eqn:Hk; cbn; try done.
    rewrite (Hp eq_refl). by destruct (p_default p), partial; cbn.
Qed.

(** ** The two loops together *)

Definition collected (partial : bool) ps args kw : result (vdict * vdict * option string) :=
  result_bind (bind_positional partial ps args kw) (λ '(pos, rest),
  result_bind (bind_keywords partial rest kw) (λ '(d, remaining), Ok (pos ++ d, remaining, name_of_kind VAR_KEYWORD rest))).

Definition collects (partial : bool) ps args kw : result (vdict * vdict * option string) :=
  if each_has_a_value partial ps args kw
  then Ok (given ps args kw, other_keywords ps kw, name_of_kind VAR_KEYWORD ps) else Raise TypeError.

Lemma name_of_kind_cons k (p : param) ps :
  name_of_kind k (p :: ps) = if decide (p_kind p = k) then Some (p_name p) else name_of_kind k ps.
Proof. unfold name_of_kind. rewrite filter_cons. by case_decide. Qed.

(** No more positional arguments: the rest is for the keywords. *)
Lemma collected_none partial ps kw :
  NoDup (p_name <$> ps) → dict_wf kw → separate ps kw → collected partial ps [] kw = collects partial ps [] kw.
Proof.
  intros Hnd Hwf Hs. pose proof (keywords_bound partial ps kw Hnd Hwf Hs) as Hall. unfold collected, collects.
  destruct ps as [|p ps]; cbn [bind_positional]; [cbn [result_bind]; by rewrite Hall|].
  destruct (decide (p_kind p = VAR_POSITIONAL)) as [Hk|Hk].
  - apply Forall_cons in Hs as [_ Hs]. apply NoDup_cons in Hnd as [_ Hnd]. cbn.
    rewrite name_of_kind_cons, decide_False, keywords_bound, others_plain, Hk by (done || by unfold takes_keyword; rewrite Hk).
    destruct (each_has_a_value partial ps [] kw); reflexivity.
  - destruct (dict_mem (p_name p) kw) eqn:Hm.
    + apply Forall_cons in Hs as [Hp _]. rewrite dict_mem_true, <- dict_get_is_Some in Hm. destruct Hm as [v Hv].
      destruct (decide _) as [Hpo|_]; [by rewrite Hp in Hv|]. cbn [result_bind]. rewrite Hall.
      destruct (each_has_a_value partial (p :: ps) [] kw); reflexivity.
    + destruct (_ || _ || _)%bool eqn:Hd; cbn [result_bind].
      * rewrite Hall. destruct (each_has_a_value partial (p :: ps) [] kw); reflexivity.
      * apply dict_mem_false, dict_get_None in Hm. cbn. unfold keyword_value. rewrite Hm.
        destruct (p_default p); [by rewrite orb_true_r in Hd|]. destruct partial; [by rewrite orb_true_r in Hd|].
        by destruct (p_kind p), (takes_keyword p).
Qed.

Lemma collected_cons partial (p : param) a ps args kw :
  dict_get (p_name p) kw = None → is_positional p = true →
  collected partial ps args kw = collects partial ps args kw →
  collected partial (p :: ps) (a :: args) kw = collects partial (p :: ps) (a :: args) kw.
Proof.
  intros Hn Hp IH. unfold collected, collects in *. cbn. unfold dict_mem. rewrite Hn, name_of_kind_cons, others_absent by done.
  destruct (decide (p_kind p = VAR_KEYWORD)) as [Hk|_]; [by unfold is_positional in Hp; rewrite Hk in Hp|].
  rewrite Hp. unfold is_positional in Hp.
  destruct (p_kind p); try done; cbn;
    (destruct (bind_positional partial ps args kw) as [[pos rest]|e]; cbn in IH |- *;
      [destruct (bind_keywords partial rest kw) as [[d r]|e]; cbn in IH |- *|]);
    destruct (each_has_a_value _ _ _ _); cbn; congruence.
Qed.

Lemma collected_all partial ps args kw :
  NoDup (p_name <$> ps) → dict_wf kw → separate ps kw → collected partial ps args kw = collects partial ps args kw.
Proof.
  revert args. induction ps as [|p ps IH]; intros args Hnd Hwf Hs.
  { by destruct args; [apply collected_none|]. }
  destruct args as [|a args]; [by apply collected_none|].
  apply NoDup_cons in Hnd as [_ Hnd]. apply Forall_cons in Hs as [Hp Hs].
  destruct (p_kind p) eqn:Hk.
  - apply collected_cons; [by apply Hp|by unfold is_positional; rewrite Hk|by apply IH].
  - destruct (dict_get (p_name p) kw) eqn:Hg.
    + unfold collected, collects. cbn. rewrite Hk. cbn. unfold dict_mem. by rewrite Hg.
    + apply collected_cons; [done|by unfold is_positional; rewrite Hk|by apply IH].
  - unfold collected, collects. cbn. rewrite Hk. cbn [result_bind].
    rewrite keywords_bound, name_of_kind_cons, decide_False, others_plain by (done || by unfold takes_keyword; rewrite Hk).
    destruct (each_has_a_value partial _ _ kw); reflexivity.
  - unfold collected, collects. cbn. by rewrite Hk.
  - unfold collected, collects. cbn. by rewrite Hk.
Qed.
(** ** The defaults *)

Definition kwargs_entry (k : string) (others : vdict) : vdict :=
  match others with [] => [] | _ => [(k, mapping others)] end.

Lemma given_names ps args kw k : k ∈ dict_keys (given ps args kw) → k ∈ p_name <$> ps.
Proof.
  revert args. induction ps as [|p ps IH]; intros args; [done|]. cbn [given fmap list_fmap]. intros Hk. apply elem_of_cons.
  specialize (IH []) as IH0.
  destruct (p_kind p), args as [|a args], (is_positional p), (takes_keyword p), (dict_get (p_name p) kw); cbn in *;
    rewrite ?elem_of_cons in Hk; naive_solver.
Qed.

Lemma apply_defaults_agree ps d d' :
  (∀ p, p ∈ ps → dict_get (p_name p) d = dict_get (p_name p) d') → apply_defaults ps d = apply_defaults ps d'.
Proof.
  intros Hd. unfold apply_defaults. induction ps as [|p ps IH]; [done|]. cbn. rewrite (Hd p), IH; [done|..]; set_solver.
Qed.

Lemma dict_get_app k d d' : dict_get k (d ++ d') = match dict_get k d with Some v => Some v | None => dict_get k d' end.
Proof. induction d as [|[k' v] d IH]; csimpl; [done|]. by case_decide. Qed.

Lemma apply_defaults_cons (p : param) ps d :
  apply_defaults (p :: ps) d =
  match from_option Some (default_of p) (dict_get (p_name p) d) with
  | Some v => (p_name p, v) :: apply_defaults ps d
  | None => apply_defaults ps d
  end.
Proof. unfold apply_defaults. cbn. by destruct (from_option _ _ _). Qed.

Lemma defaults_complete partial k others ps args kw :
  NoDup (p_name <$> ps) → Forall (λ p, is_variadic p = true → p_default p = None) ps →
  (∀ p, p ∈ ps → p_kind p = VAR_KEYWORD → p_name p = k) →
  (∀ p, p ∈ ps → others ≠ [] → p_name p = k → p_kind p = VAR_KEYWORD) →
  each_has_a_value partial ps args kw = true →
  apply_defaults ps (given ps args kw ++ kwargs_entry k others) = locals_from others ps args kw.
Proof.
  revert args. induction ps as [|p ps IH]; intros args Hnd Hdef Hk1 Hk2 He; [done|].
  apply NoDup_cons in Hnd as [Hp Hnd]. apply Forall_cons in Hdef as [Hdp Hdef].
  assert (∀ args, dict_get (p_name p) (given ps args kw) = None) as Habs.
  { intros args'. apply dict_get_None. by intros ?%given_names. }
  assert (∀ args, each_has_a_value partial ps args kw = true →
    apply_defaults ps (given ps args kw ++ kwargs_entry k others) = locals_from others ps args kw) as IH'.
  { intros args' He'. apply IH; auto; intros q Hq; [apply Hk1|apply Hk2]; set_solver. }
  assert (∀ v l, apply_defaults ps ((p_name p, v) :: l) = apply_defaults ps l) as Hcons.
  { intros v l. apply apply_defaults_agree. intros q Hq. cbn. rewrite decide_False; [done|]. intros Heq.
    apply Hp. rewrite <- Heq. by apply list_elem_of_fmap_2. }
  assert (p_kind p ≠ VAR_KEYWORD → dict_get (p_name p) (kwargs_entry k others) = None) as Hentry.
  { intros Hkind. destruct others as [|o others]; [done|]. cbn. rewrite decide_False; [done|].
    intros Heq. by apply Hkind, Hk2; [set_solver| |]. }
  rewrite apply_defaults_cons. cbn [given locals_from each_has_a_value] in *. unfold keyword_value in *.
  unfold default_of, is_variadic, is_positional, takes_keyword in *.
  destruct (p_kind p) eqn:Hk; [destruct args as [|a args]|destruct args as [|a args]|destruct args as [|a args]| |];
    repeat match goal with
    | H : (_ && _)%bool = true |- _ => apply andb_prop in H as [? ?]
    | H : false = true |- _ => discriminate H
    end.
  - rewrite dict_get_app, Habs, Hentry by done. cbn. destruct (p_default p); by rewrite IH'.
  - cbn. rewrite decide_True by done. cbn. by rewrite Hcons, IH'.
  - destruct (dict_get (p_name p) kw) as [v|]; cbn.
    + rewrite decide_True by done. cbn. by rewrite Hcons, IH'.
    + rewrite dict_get_app, Habs, Hentry by done. cbn. destruct (p_default p); by rewrite IH'.
  - cbn. rewrite decide_True by done. cbn. by rewrite Hcons, IH'.
  - rewrite dict_get_app, Habs, Hentry, Hdp by done. cbn. by rewrite IH'.
  - cbn. rewrite decide_True by done. cbn. by rewrite Hcons, IH'.
  - destruct args; [|done]. apply andb_prop in He as [_ He]. destruct (dict_get (p_name p) kw) as [v|]; cbn.
    + rewrite decide_True by done. cbn. by rewrite Hcons, IH'.
    + rewrite dict_get_app, Habs, Hentry by done. cbn. destruct (p_default p); by rewrite IH'.
  - destruct args; [|done]. rewrite dict_get_app, Habs, Hdp by done.
    rewrite (Hk1 p) by (done || set_solver). destruct others as [|o others]; cbn; [by rewrite IH'|].
    rewrite decide_True by done. cbn. by rewrite IH'.
Qed.

(** ** [signature_bind] *)

Lemma signature_bind_collected partial ps args kw :
  NoDup (p_name <$> ps) → dict_wf kw → separate ps kw →
  signature_bind partial ps args kw =
    if each_has_a_value partial ps args kw then
      match other_keywords ps kw, name_of_kind VAR_KEYWORD ps with
      | [], _ => Ok (given ps args kw)
      | _, Some k => Ok (given ps args kw ++ [(k, mapping (other_keywords ps kw))])
      | _, None => Raise TypeError
      end
    else Raise TypeError.
Proof.
  intros Hnd Hwf Hs. pose proof (collected_all partial ps args kw Hnd Hwf Hs) as Hc.
  unfold signature_bind. unfold collected, collects in Hc.
  destruct (bind_positional partial ps args kw) as [[pos rest]|e]; cbn in *; [|by destruct (each_has_a_value _ _ _ _); simplify_eq].
  destruct (bind_keywords partial rest kw) as [[d r]|e]; cbn in *; [|by destruct (each_has_a_value _ _ _ _); simplify_eq].
  destruct (each_has_a_value _ _ _ _); [|done]. injection Hc as <- -> ->. destruct (other_keywords ps kw); [done|].
  destruct (name_of_kind _ _); [|done]. by rewrite app_assoc.
Qed.

(** A keyword with the name of a positional-only parameter has no place. *)
Lemma keywords_keep partial ps kw d r k : bind_keywords partial ps kw = Ok (d, r) → dict_wf kw →
  k ∈ dict_keys kw → (∀ p, p ∈ ps → p_name p = k → p_kind p = POSITIONAL_ONLY) → k ∈ dict_keys r.
Proof.
  revert kw d r. induction ps as [|p ps IH]; intros kw d r Hb Hwf Hk Hpo; cbn in Hb; [by simplify_eq|].
  assert (∀ q, q ∈ ps → p_name q = k → p_kind q = POSITIONAL_ONLY) as Hpo' by (intros q Hq; apply Hpo; set_solver).
  destruct (_ || _)%bool; [by eapply IH|].
  destruct (dict_get (p_name p) kw) as [v|] eqn:Hg; [|destruct (_ && _)%bool; [done|by eapply IH]].
  destruct (decide (p_kind p = POSITIONAL_ONLY)) as [|Hne]; [done|].
  destruct (bind_keywords partial ps (dict_del (p_name p) kw)) as [[d' r']|e] eqn:Hb'; [|done]. cbn in Hb. simplify_eq.
  eapply IH; [exact Hb'|by apply dict_wf_del| |done]. rewrite dict_keys_del by done. apply list_elem_of_filter.
  split; [|done]. intros ->. apply Hne, Hpo; [set_solver|done].
Qed.

Lemma positional_rest partial ps args kw pos (rest : list param) : bind_positional partial ps args kw = Ok (pos, rest) → rest ⊆ ps.
Proof.
  revert args pos. induction ps as [|p ps IH]; intros [|a args] pos Hb; cbn in Hb; simplify_eq; [done|..].
  - destruct (decide _); simplify_eq; [set_solver|]. destruct (dict_mem _ _).
    + destruct (decide _); simplify_eq; [|done]. apply IH in Hb. set_solver.
    + destruct (_ || _ || _)%bool; by simplify_eq.
  - destruct (p_kind p); try done; try (simplify_eq; set_solver); (destruct (_ && _)%bool; [done|]);
      destruct (bind_positional partial ps args kw) as [[pos' rest']|e] eqn:Hb'; cbn in Hb; simplify_eq; apply IH in Hb'; set_solver.
Qed.

Lemma name_of_kind_None k ps : name_of_kind k ps = None ↔ ∀ p, p ∈ ps → p_kind p ≠ k.
Proof.
  induction ps as [|p ps IH]; [unfold name_of_kind; cbn; set_solver|]. rewrite name_of_kind_cons. case_decide.
  - split; [done|]. intros Hall. exfalso. apply (Hall p); [set_solver|done].
  - rewrite IH. set_solver.
Qed.

Lemma bind_positional_error partial ps args kw e : bind_positional partial ps args kw = Raise e → e = TypeError.
Proof.
  revert args. induction ps as [|p ps IH]; intros [|a args] Hb; cbn in Hb; simplify_eq; [done|..].
  - destruct (decide _); [done|]. destruct (dict_mem _ _); [destruct (decide _); [by eapply IH|done]|].
    destruct (_ || _ || _)%bool; by simplify_eq.
  - destruct (p_kind p); simplify_eq; try done; (destruct (_ && _)%bool; [by simplify_eq|]);
      destruct (bind_positional partial ps args kw) as [[pos' rest']|e'] eqn:Hb'; cbn in Hb; simplify_eq; by eapply IH.
Qed.

Lemma bind_keywords_error partial ps kw e : bind_keywords partial ps kw = Raise e → e = TypeError.
Proof.
  revert kw. induction ps as [|p ps IH]; intros kw Hb; cbn in Hb; [done|].
  destruct (_ || _)%bool; [by eapply IH|].
  destruct (dict_get (p_name p) kw) as [v|]; [|destruct (_ && _)%bool; [by simplify_eq|by eapply IH]].
  destruct (decide _); [by simplify_eq|].
  destruct (bind_keywords partial ps (dict_del (p_name p) kw)) as [[d' r']|e'] eqn:Hb'; cbn in Hb; simplify_eq. by eapply IH.
Qed.

Lemma signature_bind_misplaced partial ps args kw k :
  dict_wf kw → name_of_kind VAR_KEYWORD ps = None → k ∈ dict_keys kw →
  (∀ p, p ∈ ps → p_name p = k → p_kind p = POSITIONAL_ONLY) → signature_bind partial ps args kw = Raise TypeError.
Proof.
  intros Hwf Hno Hk Hpo. unfold signature_bind.
  destruct (bind_positional partial ps args kw) as [[pos rest]|e] eqn:Hb; cbn;
    [|by rewrite (bind_positional_error _ _ _ _ _ Hb)].
  apply positional_rest in Hb. destruct (bind_keywords partial rest kw) as [[d r]|e] eqn:Hb'; cbn;
    [|by rewrite (bind_keywords_error _ _ _ _ Hb')].
  eapply keywords_keep in Hb'; [|done|exact Hk|intros; apply Hpo; auto].
  assert (name_of_kind VAR_KEYWORD rest = None) as -> by (apply name_of_kind_None; rewrite name_of_kind_None in Hno; auto).
  destruct r; [by apply not_elem_of_nil in Hb'|done].
Qed.

(** ** [bind_call_arguments] *)

Lemma same_name (p q : param) ps : NoDup (p_name <$> ps) → p ∈ ps → q ∈ ps → p_name p = p_name q → p = q.
Proof.
  intros Hnd [i Hi]%list_elem_of_lookup [j Hj]%list_elem_of_lookup Heq.
  assert (i = j) as <-; [|congruence].
  eapply NoDup_lookup; [exact Hnd|by rewrite list_lookup_fmap, Hi|by rewrite list_lookup_fmap, Hj, Heq].
Qed.

Definition positional_only_names ps : list string := p_name <$> filter (λ p, p_kind p = POSITIONAL_ONLY) ps.

Lemma positional_only_elem ps k : k ∈ positional_only_names ps ↔ ∃ p, p ∈ ps ∧ p_kind p = POSITIONAL_ONLY ∧ p_name p = k.
Proof.
  unfold positional_only_names. rewrite list_elem_of_fmap. setoid_rewrite list_elem_of_filter. naive_solver.
Qed.

Lemma keyword_names_elem ps k : k ∈ keyword_names ps ↔ ∃ p, p ∈ ps ∧ takes_keyword p = true ∧ p_name p = k.
Proof. unfold keyword_names. rewrite list_elem_of_fmap. setoid_rewrite list_elem_of_filter. naive_solver. Qed.

Lemma positional_only_keyword ps k : NoDup (p_name <$> ps) → k ∈ positional_only_names ps → k ∉ keyword_names ps.
Proof.
  rewrite positional_only_elem, keyword_names_elem. intros Hnd (p & Hp & Hk & Hn) (q & Hq & Ht & Hn').
  apply takes_keyword_kind in Ht as [_ Ht]. apply Ht. by rewrite (same_name q p ps) by congruence.
Qed.

Lemma name_of_kind_Some k ps n : name_of_kind k ps = Some n → ∃ p, p ∈ ps ∧ p_kind p = k ∧ p_name p = n.
Proof.
  induction ps as [|p ps IH]; [done|]. rewrite name_of_kind_cons. case_decide.
  - intros [= <-]. exists p. set_solver.
  - intros (q & Hq & Hkq & Hn)%IH. exists q. set_solver.
Qed.

Lemma one_kwargs ps k p : length (filter (λ p, p_kind p = VAR_KEYWORD) ps) ≤ 1 → name_of_kind VAR_KEYWORD ps = Some k →
  p ∈ ps → p_kind p = VAR_KEYWORD → p_name p = k.
Proof.
  intros Hlen Hk Hp Hkind. unfold name_of_kind in Hk.
  assert (p ∈ filter (λ p, p_kind p = VAR_KEYWORD) ps) as Hin by (by apply list_elem_of_filter).
  destruct (filter _ ps) as [|q [|]]; cbn in *; [set_solver| |lia]. apply list_elem_of_singleton in Hin. by simplify_eq.
Qed.

(** [dict_set] of what [**kwargs] collects. *)
Lemma set_others k o o' ps args kw :
  NoDup (p_name <$> ps) → (∀ p, p ∈ ps → p_kind p = VAR_KEYWORD ↔ p_name p = k) → k ∈ p_name <$> ps →
  dict_set k (mapping o') (locals_from o ps args kw) = locals_from o' ps args kw.
Proof.
  intros Hnd Hk Hin. revert args Hin. induction ps as [|p ps IH]; intros args Hin; cbn; [set_solver|].
  apply NoDup_cons in Hnd as [Hp Hnd].
  assert (∀ q, q ∈ ps → p_kind q = VAR_KEYWORD ↔ p_name q = k) as Hk' by (intros q Hq; apply Hk; set_solver).
  specialize (Hk p ltac:(set_solver)).
  destruct (decide (p_kind p = VAR_KEYWORD)) as [Hv|Hv].
  - rewrite Hv. apply Hk in Hv. cbn. rewrite decide_True by done. f_equal.
    assert (∀ args, locals_from o ps args kw = locals_from o' ps args kw) as ->; [|done].
    clear -Hp Hk' Hv. induction ps as [|q ps IH]; intros args; [done|]. cbn.
    assert (p_kind q ≠ VAR_KEYWORD) as Hq.
    { intros Hq%Hk'; [|set_solver]. apply Hp. rewrite Hv, <- Hq. set_solver. }
    destruct (p_kind q), (if is_positional q then args else []), (keyword_value kw q); try done; rewrite ?IH; set_solver.
  - assert (p_name p ≠ k) as Hne by (by rewrite <- Hk). cbn in Hin. apply elem_of_cons in Hin as [|Hin]; [done|].
    specialize (IH Hnd Hk').
    destruct (p_kind p), (if is_positional p then args else []), (keyword_value kw p); try done; cbn; rewrite ?decide_False, ?IH; done || congruence.
Qed.
Lemma wf_kwargs_iff ps k : signature_wf ps → name_of_kind VAR_KEYWORD ps = Some k →
  ∀ p, p ∈ ps → p_kind p = VAR_KEYWORD ↔ p_name p = k.
Proof.
  intros [Hnd _ Hone] Hk p Hp. split; [by eapply one_kwargs|]. intros Hn.
  apply name_of_kind_Some in Hk as (q & Hq & Hkq & Hnq). by rewrite (same_name p q ps) by congruence.
Qed.

(** What [bind_call_arguments] gives to [signature_bind]. *)
Section Aside.
Context (ps : list param) (kwargs : vdict) (Hps : signature_wf ps) (Hwf : dict_wf kwargs).

Definition aside : vdict := positional_keywords ps kwargs.
Definition passed : vdict := filter (λ kv, kv.1 ∉ dict_keys aside) kwargs.

Lemma dict_get_filter (P : string → Prop) `{!∀ k, Decision (P k)} k d :
  dict_get k (filter (λ kv, P kv.1) d) = if decide (P k) then dict_get k d else None.
Proof.
  induction d as [|[k' v] d IH]; csimpl; [by case_decide|]. rewrite filter_cons. cbn.
  destruct (decide (P k')) as [H1|H1]; cbn; rewrite IH; repeat case_decide; subst; done.
Qed.

Lemma dict_wf_filter (P : string → Prop) `{!∀ k, Decision (P k)} d : dict_wf d → dict_wf (filter (λ kv, P kv.1) d).
Proof.
  unfold dict_wf, dict_keys. induction d as [|[k' v] d IH]; csimpl; [done|]. intros [Hk Hd]%NoDup_cons.
  rewrite filter_cons. cbn. case_decide; [|auto]. csimpl. apply NoDup_cons. split; [|auto].
  intros Hin. apply Hk. apply list_elem_of_fmap in Hin as (kv & -> & [_ Hin]%list_elem_of_filter). by apply dict_keys_elem.
Qed.

Lemma aside_names k : k ∈ dict_keys aside → k ∉ keyword_names ps.
Proof.
  unfold aside, positional_keywords. destruct (name_of_kind VAR_KEYWORD ps); [|cbn; set_solver].
  intros (kv & -> & [Hk _]%list_elem_of_filter)%list_elem_of_fmap. by apply positional_only_keyword; [apply Hps|].
Qed.

Lemma passed_wf : dict_wf passed.
Proof. exact (dict_wf_filter (λ k, k ∉ dict_keys aside) kwargs Hwf). Qed.

Lemma passed_get k : k ∉ dict_keys aside → dict_get k passed = dict_get k kwargs.
Proof. intros Hk. etrans; [exact (dict_get_filter (λ k, k ∉ dict_keys aside) k kwargs)|]. by rewrite decide_True. Qed.

Lemma passed_agree : agree ps passed kwargs.
Proof.
  apply Forall_forall. intros p Hp. unfold keyword_of. destruct (takes_keyword p) eqn:Ht; [|done]. apply passed_get.
  intros Hin%aside_names. apply Hin, keyword_names_elem. eauto.
Qed.

Lemma passed_all : aside = [] → passed = kwargs.
Proof. intros Ha. unfold passed. rewrite Ha. apply filter_elem_all. intros kv _. cbn. set_solver. Qed.

Lemma passed_separate : name_of_kind VAR_KEYWORD ps ≠ None → separate ps passed.
Proof.
  intros Hk. apply Forall_forall. intros p Hp Hpo. etrans; [exact (dict_get_filter (λ k, k ∉ dict_keys aside) (p_name p) kwargs)|].
  case_decide as Hin; [|done]. apply dict_get_None. intros Hkw. apply Hin. unfold aside, positional_keywords.
  destruct (name_of_kind VAR_KEYWORD ps); [|done].
  apply list_elem_of_fmap in Hkw as (kv & Heq & Hkv). rewrite Heq. apply (list_elem_of_fmap_2 fst), list_elem_of_filter.
  split; [|done]. rewrite <- Heq. change (p_name p ∈ positional_only_names ps). apply positional_only_elem. eauto.
Qed.

(** The keywords that are collected, with those set aside. *)
Lemma others_rejoined :
  filter (λ kv, kv.1 ∈ dict_keys aside ∨ kv.1 ∈ dict_keys (other_keywords ps passed)) kwargs = other_keywords ps kwargs.
Proof.
  apply filter_elem_ext. intros kv Hkv. split.
  - intros [Hin|Hin]; [by apply aside_names|].
    apply list_elem_of_fmap in Hin as (kv' & -> & [Hin _]%list_elem_of_filter). done.
  - intros Hin. destruct (decide (kv.1 ∈ dict_keys aside)) as [|Hn]; [by left|right].
    apply dict_keys_elem, list_elem_of_filter. split; [done|]. by apply list_elem_of_filter.
Qed.
End Aside.
Lemma accepts_kwargs partial ps args kwargs k :
  name_of_kind VAR_KEYWORD ps = Some k → accepts partial ps args kwargs = each_has_a_value partial ps args kwargs.
Proof. intros Hk. unfold accepts. by rewrite Hk, andb_true_r. Qed.

Lemma accepts_no_kwargs partial ps args kwargs : name_of_kind VAR_KEYWORD ps = None →
  accepts partial ps args kwargs = (each_has_a_value partial ps args kwargs && bool_decide (other_keywords ps kwargs = []))%bool.
Proof.
  intros Hk. unfold accepts. rewrite Hk. cbn. f_equal. apply eq_true_iff_eq.
  rewrite forallb_forall, bool_decide_eq_true. unfold other_keywords. split.
  - intros Hall. destruct (filter _ kwargs) as [|kv l] eqn:Hf; [done|exfalso].
    assert (kv ∈ filter (λ kv, kv.1 ∉ keyword_names ps) kwargs) as [Hno Hkv]%list_elem_of_filter by (rewrite Hf; set_solver).
    apply Hno.
    apply dict_keys_elem, list_elem_of_In, Hall in Hkv. by apply bool_decide_eq_true in Hkv.
  - intros Hnil k' Hk'%list_elem_of_In. apply bool_decide_eq_true.
    destruct (decide (k' ∈ keyword_names ps)) as [|Hno]; [done|exfalso].
    apply list_elem_of_fmap in Hk' as (kv & -> & Hkv).
    apply (not_elem_of_nil kv). rewrite <- Hnil. by apply list_elem_of_filter.
Qed.

Lemma bind_with_kwargs partial ps args kwargs k :
  signature_wf ps → dict_wf kwargs → name_of_kind VAR_KEYWORD ps = Some k →
  bind_call_arguments ps args kwargs partial =
    if accepts partial ps args kwargs then Ok (python_locals ps args kwargs) else Raise TypeError.
Proof.
  intros Hps Hwf Hk. rewrite (accepts_kwargs _ _ _ _ k) by done. unfold bind_call_arguments.
  change (positional_keywords ps kwargs) with (aside ps kwargs). fold (passed ps kwargs).
  pose proof (passed_agree ps kwargs Hps Hwf) as Ha.
  rewrite signature_bind_collected by (apply Hps || by apply passed_wf || by apply passed_separate; rewrite Hk).
  rewrite (each_agree _ _ _ _ _ Ha), (given_agree _ _ _ _ Ha), Hk.
  destruct (each_has_a_value partial ps args kwargs) eqn:He; [|done].
  pose proof (wf_kwargs_iff ps k Hps Hk) as Hiff.
  assert (k ∈ p_name <$> ps) as Hin.
  { apply name_of_kind_Some in Hk as (p & Hp & _ & <-). by apply list_elem_of_fmap_2. }
  transitivity (result_bind (Ok (given ps args kwargs ++ kwargs_entry k (other_keywords ps (passed ps kwargs)))) (λ d,
    let bound := apply_defaults ps d in
    match aside ps kwargs with
    | [] => Ok bound
    | _ :: _ => match dict_get k bound with
                | Some captured => Ok (dict_set k (mapping (filter (λ kv, kv.1 ∈ dict_keys (aside ps kwargs) ∨ kv.1 ∈ mapping_keys captured) kwargs)) bound)
                | None => Raise KeyError
                end
    end)).
  { destruct (other_keywords ps (passed ps kwargs)); cbn [result_bind kwargs_entry]; [by rewrite app_nil_r|done]. }
  cbn [result_bind]. rewrite (defaults_complete partial) by (apply Hps || done || (intros p Hp; rewrite Hiff by done; tauto)).
  unfold python_locals. pose proof (set_others k (other_keywords ps (passed ps kwargs))) as Hset.
  destruct (aside ps kwargs) as [|x l] eqn:Hal; [by rewrite passed_all|]. rewrite <- Hal.
  rewrite <- (Hset (other_keywords ps (passed ps kwargs))) at 1 by (done || apply Hps).
  rewrite dict_get_set_eq, mapping_keys_mapping. f_equal. rewrite others_rejoined by done. apply Hset; done || apply Hps.
Qed.

Lemma bind_without_kwargs partial ps args kwargs :
  signature_wf ps → dict_wf kwargs → name_of_kind VAR_KEYWORD ps = None →
  bind_call_arguments ps args kwargs partial =
    if accepts partial ps args kwargs then Ok (python_locals ps args kwargs) else Raise TypeError.
Proof.
  intros Hps Hwf Hk. rewrite accepts_no_kwargs by done. unfold bind_call_arguments.
  change (positional_keywords ps kwargs) with (aside ps kwargs). fold (passed ps kwargs).
  assert (aside ps kwargs = []) as Hal by (unfold aside, positional_keywords; by rewrite Hk).
  rewrite Hal, passed_all by done.
  destruct (decide (Forall (λ p, p_kind p = POSITIONAL_ONLY → dict_get (p_name p) kwargs = None) ps)) as [Hs|Hs].
  - rewrite signature_bind_collected by (apply Hps || done). rewrite Hk.
    destruct (each_has_a_value partial ps args kwargs) eqn:He; [|done].
    unfold python_locals. destruct (other_keywords ps kwargs) eqn:Ho; [|done]. cbn.
    rewrite <- (defaults_complete partial ""%string); cbn; [by rewrite app_nil_r|apply Hps|apply Hps| |done|done].
    intros p Hp Hkind. rewrite name_of_kind_None in Hk. by apply Hk in Hp.
  - apply not_Forall_Exists in Hs; [|apply _]. apply Exists_exists in Hs as (p & Hp & Hno).
    assert (p_kind p = POSITIONAL_ONLY ∧ p_name p ∈ dict_keys kwargs) as [Hpo Hin].
    { rewrite <- dict_get_is_Some. destruct (decide (p_kind p = POSITIONAL_ONLY)), (dict_get (p_name p) kwargs) eqn:?; naive_solver. }
    rewrite (signature_bind_misplaced _ _ _ _ (p_name p)); [|done|done|done|].
    + cbn. rewrite bool_decide_eq_false_2; [by rewrite andb_false_r|]. intros Hnil.
      apply list_elem_of_fmap in Hin as (kv & Heq & Hkv). apply (not_elem_of_nil kv). rewrite <- Hnil.
      apply list_elem_of_filter. split; [|done]. rewrite <- Heq. apply positional_only_keyword; [apply Hps|].
      apply positional_only_elem. eauto.
    + intros q Hq Hn. by rewrite (same_name q p ps) by (apply Hps || done).
Qed.

Lemma bind_call_arguments_python partial ps args kwargs :
  signature_wf ps → dict_wf kwargs →
  bind_call_arguments ps args kwargs partial =
    if accepts partial ps args kwargs then Ok (python_locals ps args kwargs) else Raise TypeError.
Proof.
  intros Hps Hwf. destruct (name_of_kind VAR_KEYWORD ps) as [k|] eqn:Hk;
    [by eapply bind_with_kwargs|by apply bind_without_kwargs].
Qed.

(** ** [bound_parameters] *)

Lemma each_partial ps args kwargs : each_has_a_value false ps args kwargs = true → each_has_a_value true ps args kwargs = true.
Proof.
  revert args. induction ps as [|p ps IH]; intros args; [done|]. cbn.
  destruct (p_kind p), args; intros He; try (apply andb_prop in He as [H1 H2]; try rewrite H1); cbn; auto.
Qed.

Lemma accepts_partial ps args kwargs : accepts false ps args kwargs = true → accepts true ps args kwargs = true.
Proof. unfold accepts. intros [H1%each_partial H2]%andb_prop. by rewrite H1, H2. Qed.

(** Inside an accepted call every parameter has one value. *)
Lemma locals_names others ps args kwargs :
  each_has_a_value false ps args kwargs = true → dict_keys (locals_from others ps args kwargs) = p_name <$> ps.
Proof.
  unfold dict_keys. revert args. induction ps as [|p ps IH]; intros args; [done|]. cbn. unfold is_positional.
  destruct (p_kind p), args; try done; cbn; intros He;
    repeat match goal with H : (_ && _)%bool = true |- _ => apply andb_prop in H as [? ?] end;
    rewrite ?IH by done; try done;
    (destruct (keyword_value kwargs p); [cbn; by rewrite IH|by case_bool_decide as Hno; [destruct Hno|]]).
Qed.

Lemma no_more_arguments ps args kwargs partial : each_has_a_value partial ps args kwargs = true →
  name_of_kind VAR_POSITIONAL ps = None → length args ≤ length (filter (λ p, is_positional p = true) ps).
Proof.
  revert args. induction ps as [|p ps IH]; intros args; cbn [each_has_a_value]; [case_bool_decide; cbn; lia|].
  rewrite name_of_kind_cons.
  case_decide; [done|].
  assert (length (filter (λ p, is_positional p = true) (p :: ps)) = (if is_positional p then 1 else 0) + length (filter (λ p, is_positional p = true) ps)) as ->
    by (rewrite filter_cons; by destruct (is_positional p)).
  set (n := length _) in *. unfold is_positional at 1.
  destruct (p_kind p), args; cbn; intros He Hno; try done;
    repeat match goal with H : (_ && _)%bool = true |- _ => apply andb_prop in H as [? ?] end;
    match goal with H : each_has_a_value _ _ _ _ = true |- _ => apply IH in H; [cbn in *; lia|done] end.
Qed.

Lemma set_zip_names names args d k : k ∈ dict_keys (set_zip names args d) → k ∈ dict_keys d ∨ k ∈ names.
Proof.
  unfold set_zip. revert args d. induction names as [|n names IH]; intros [|a args] d; cbn; try (intros; by left).
  intros [Hk|Hk]%IH; [|set_solver]. apply elem_of_dict_keys_set in Hk. set_solver.
Qed.

Lemma overlay_get names kw d k :
  dict_get k (foldl (λ acc name, match dict_get name kw with Some v => dict_set name v acc | None => acc end) d names) =
    if decide (k ∈ names) then match dict_get k kw with Some v => Some v | None => dict_get k d end else dict_get k d.
Proof.
  revert d. induction names as [|n names IH]; intros d; cbn [foldl]; [by rewrite decide_False by set_solver|].
  rewrite IH. destruct (dict_get n kw) as [v|] eqn:Hn; rewrite ?dict_get_set.
  - destruct (decide (k = n)) as [->|Hne]; [rewrite Hn; repeat case_decide; done || set_solver|].
    repeat case_decide; done || set_solver.
  - destruct (decide (k = n)) as [->|Hne]; [rewrite Hn; repeat case_decide; done || set_solver|].
    repeat case_decide; done || set_solver.
Qed.
Lemma dict_get_eq_keys d d' k : dict_keys d = dict_keys d' → k ∉ dict_keys d → dict_get k d = dict_get k d'.
Proof. intros Heq Hk. rewrite (proj2 (dict_get_None k d)) by done. symmetry. apply dict_get_None. by rewrite <- Heq. Qed.

Lemma dict_get_present k d : k ∈ dict_keys d → ∃ v, dict_get k d = Some v.
Proof. intros Hk. by apply dict_get_is_Some in Hk. Qed.

(** The call that the runtime makes for the strategy. *)
Section AcceptedCall.
Context (method_name : string) (sig_str : option string) (is_async : bool) (sig : list param).
Context (args : list V) (kwargs : option vdict).
Notation ps := (without_self sig).
Notation supplied := (default [] kwargs).
Context (Hps : signature_wf ps) (Hwf : dict_wf supplied) (Haccepts : accepts false ps args supplied = true).

Definition the_call : CurrentCall := call_of method_name sig_str is_async (Some sig) args kwargs.

Lemma call_kwargs : cc_kwargs the_call = dict_update supplied (python_locals ps args supplied).
Proof.
  cbn. rewrite bind_call_arguments_python by done. by rewrite accepts_partial.
Qed.

Lemma call_each : each_has_a_value false ps args supplied = true.
Proof. by apply andb_prop in Haccepts as [? _]. Qed.

Lemma call_locals_names : dict_keys (python_locals ps args supplied) = p_name <$> ps.
Proof. apply locals_names, call_each. Qed.

Lemma call_kwargs_get k : dict_get k (cc_kwargs the_call) =
  match dict_get k (python_locals ps args supplied) with Some v => Some v | None => dict_get k supplied end.
Proof. rewrite call_kwargs. apply dict_get_update. unfold dict_wf. rewrite call_locals_names. apply Hps. Qed.

(** The keys of the positional part. *)
Lemma call_positional_names k d :
  d = (let names := p_name <$> filter (λ p, is_positional p = true) ps in
       let extra := drop (length names) args in
       match name_of_kind VAR_POSITIONAL ps with
       | Some n => dict_set n (tuple extra) (set_zip names args [])
       | None => set_synthetic (length names) extra (set_zip names args [])
       end) → k ∈ dict_keys d → k ∈ p_name <$> ps.
Proof.
  intros ->. cbn zeta. assert (∀ k, k ∈ dict_keys (set_zip (p_name <$> filter (λ p, is_positional p = true) ps) args []) → k ∈ p_name <$> ps) as Hzip.
  { intros k' [Hk|Hk]%set_zip_names; [cbn in Hk; set_solver|].
    apply list_elem_of_fmap in Hk as (p & -> & [_ Hp]%list_elem_of_filter). by apply list_elem_of_fmap_2. }
  destruct (name_of_kind VAR_POSITIONAL ps) as [n|] eqn:Hn.
  - intros [->|Hk]%elem_of_dict_keys_set; [|auto].
    apply name_of_kind_Some in Hn as (p & Hp & _ & <-). by apply list_elem_of_fmap_2.
  - rewrite drop_ge; [apply Hzip|]. rewrite length_fmap. eapply no_more_arguments; [apply call_each|done].
Qed.

Lemma supplied_names k : name_of_kind VAR_KEYWORD ps = None → k ∈ dict_keys supplied → k ∈ p_name <$> ps.
Proof.
  intros Hno Hk. apply andb_prop in Haccepts as [_ Hall]. rewrite Hno in Hall. cbn in Hall.
  rewrite forallb_forall in Hall. apply list_elem_of_In, Hall, bool_decide_eq_true in Hk. by apply keyword_names_names.
Qed.

Lemma bound_parameters_get k :
  dict_get k (bound_parameters the_call) = dict_get k (python_locals ps args supplied).
Proof.
  pose proof call_locals_names as Hnames.
  assert (∀ k, k ∈ p_name <$> ps → ∃ v, dict_get k (python_locals ps args supplied) = Some v) as Hin.
  { intros k'. rewrite <- Hnames. apply dict_get_present. }
  assert (∀ k, k ∉ p_name <$> ps → dict_get k (python_locals ps args supplied) = None) as Hout.
  { intros k'. rewrite <- Hnames. apply dict_get_None. }
  unfold bound_parameters. pose proof (call_kwargs_get k) as Hkw. remember (cc_kwargs the_call) as kw eqn:Hkw_def.
  cbn [cc_names the_call call_of signature_parameter_names positional_param_names var_positional_param_name
       var_keyword_param_name param_names cc_args].
  remember (match name_of_kind VAR_POSITIONAL ps with Some _ => _ | None => _ end) as acc eqn:Hacc.
  pose proof (call_positional_names k acc Hacc) as Hk. clear Hacc.
  destruct (name_of_kind VAR_KEYWORD ps) as [n|] eqn:Hn.
  - rewrite overlay_get, Hkw. case_decide as Hmem.
    + destruct (Hin k Hmem) as [v ->]. done.
    + rewrite Hout by done. apply dict_get_None. auto.
  - rewrite dict_get_update, Hkw by (rewrite Hkw_def, call_kwargs; by apply dict_wf_update).
    destruct (decide (k ∈ p_name <$> ps)) as [Hmem|Hmem]; [by destruct (Hin k Hmem) as [v ->]|].
    rewrite Hout by done. rewrite (proj2 (dict_get_None k supplied)) by (intros ?%supplied_names; auto).
    apply dict_get_None. auto.
Qed.

Lemma bound_parameters_wf : dict_wf (bound_parameters the_call).
Proof.
  assert (∀ names args, dict_wf (set_zip names args ([] : vdict))) as Hzip by (intros; apply dict_wf_update, dict_wf_nil).
  assert (∀ l i (d : vdict), dict_wf d → dict_wf (set_synthetic i l d)) as Hsyn.
  { induction l as [|v l IH]; intros i d Hd; cbn; [done|]. by apply IH, dict_wf_set. }
  unfold bound_parameters. cbn [cc_names the_call call_of signature_parameter_names positional_param_names var_positional_param_name
       var_keyword_param_name param_names cc_args].
  remember (match name_of_kind VAR_POSITIONAL ps with Some _ => _ | None => _ end) as acc eqn:Hacc.
  assert (dict_wf acc) as Hw by (rewrite Hacc; destruct (name_of_kind _ _); auto using dict_wf_set).
  clear Hacc. destruct (name_of_kind VAR_KEYWORD ps); [|by apply dict_wf_update].
  generalize (p_name <$> ps). intros names. revert acc Hw. induction names as [|n names IH]; intros acc Hw; cbn; [done|].
  apply IH. destruct (dict_get n _); [by apply dict_wf_set|done].
Qed.
End AcceptedCall.
End Runs.

(** ** What the strategies read from a call

    The theorems on [CallBinding], with their witnesses: the arguments are
    bound by Python's rules, the inputs of a [CurrentCall] are the locals of
    the method, the check of a generated call lets through the calls that
    Python accepts, and a parameter that cannot be shown. *)

Section Inputs.
Context {V : Type} `{!CallValues V}.
Notation vdict := (list (string * V)).
Implicit Types (ps sig : list (param V)) (args : list V) (kwargs : vdict).

(** C21.  [bind_call_arguments] binds as Python does, whatever the supported
    version of [inspect]: a call the rules accept gives each parameter the
    value of the method's local, with the defaults and with all the keywords
    that [**kwargs] collects, in their order; every other call is a
    [TypeError]. *)
Theorem arguments_bound_as_in_python partial ps args kwargs :
  signature_wf ps → dict_wf kwargs →
  bind_call_arguments ps args kwargs partial =
    if accepts partial ps args kwargs then Ok (python_locals ps args kwargs) else Raise TypeError.
Proof. apply bind_call_arguments_python. Qed.

(** C22.  The inputs that a strategy reads from a call that Python accepts are
    exactly the locals of the method, each once: although the positional
    arguments are in [args] and again in [kwargs], and the keywords of
    [**kwargs] are in [kwargs] and again in their dict. *)
Theorem inputs_are_the_locals method_name sig_str is_async sig args (kwargs : option vdict) :
  signature_wf (without_self sig) → dict_wf (default [] kwargs) →
  accepts false (without_self sig) args (default [] kwargs) = true →
  let inputs := bound_parameters (call_of method_name sig_str is_async (Some sig) args kwargs) in
  dict_wf inputs ∧
  ∀ name, dict_get name inputs = dict_get name (python_locals (without_self sig) args (default [] kwargs)).
Proof. intros Hps Hwf Ha. split; [by apply bound_parameters_wf|intros; by apply bound_parameters_get]. Qed.

Lemma check_bound_ok ps hints check (d : vdict) :
  check_bound ps hints check d = Ok () ↔
  Forall (λ nv, nv.1 ∈ hints → (∀ p, p ∈ ps → p_name p = nv.1 → is_variadic p = false) → check nv.1 nv.2 = Ok ()) d.
Proof.
  induction d as [|[n v] d IH]; [done|]. rewrite Forall_cons, <- IH. cbn. case_decide as Hh; [|naive_solver].
  destruct (existsb _ ps) eqn:He.
  - apply existsb_exists in He as (p & Hp%list_elem_of_In & [Hn Hv]%andb_prop). apply bool_decide_eq_true in Hn.
    split; [intros; split; [|done]|tauto]. intros _ Hall. by rewrite (Hall p Hp Hn) in Hv.
  - assert (∀ p, p ∈ ps → p_name p = n → is_variadic p = false) as Hall.
    { intros p Hp Hn. destruct (is_variadic p) eqn:Hv; [|done]. rewrite <- He. symmetry. apply existsb_exists.
      exists p. rewrite bool_decide_eq_true_2, Hv by done. split; [by apply list_elem_of_In|done]. }
    destruct (check n v) as [[]|e]; cbn; naive_solver.
Qed.

(** The check before a generated method runs lets a call through exactly
    when Python accepts it and every hinted parameter but [*args] and
    [**kwargs] passes the check of its type with the value it has inside the
    method, a default included. *)
Theorem checked_call_accepted sig hints check args kwargs :
  signature_wf (drop_self sig) → dict_wf kwargs →
  validate_call (Some sig) (Some hints) check args kwargs = Ok () ↔
  accepts false (drop_self sig) args kwargs = true ∧
  ∀ name v, (name, v) ∈ python_locals (drop_self sig) args kwargs → name ∈ hints →
    (∀ p, p ∈ drop_self sig → p_name p = name → is_variadic p = false) → check name v = Ok ().
Proof.
  intros Hps Hwf. unfold validate_call. rewrite bind_call_arguments_python by done.
  destruct (accepts _ _ _ _); cbn; [|naive_solver]. rewrite check_bound_ok, Forall_forall. split; [|intros [_ H] [n v]; apply H].
  intros H. split; [done|]. intros n v. apply (H (n, v)).
Qed.

Lemma format_lines_raises fmt (d : vdict) n v e : (n, v) ∈ d → fmt n v = Raise e → ∃ e', format_lines fmt d = Raise e'.
Proof.
  intros Hin Hf. induction d as [|[n' v'] d IH]; [by apply not_elem_of_nil in Hin|]. cbn.
  destruct (fmt n' v') as [t|e'] eqn:Hf'; cbn; [|eauto]. apply elem_of_cons in Hin as [[= -> ->]|Hin]; [by rewrite Hf' in Hf|].
  destruct (IH Hin) as [e' ->]. cbn. eauto.
Qed.

(** A parameter that cannot be shown fails the whole listing, whatever
    its exception: the second attempt lists the call's [kwargs], which hold
    the value of every parameter. *)
Theorem unprintable_parameter_raises method_name sig_str is_async sig args (kwargs : option vdict) fmt name v e :
  signature_wf (without_self sig) → dict_wf (default [] kwargs) →
  accepts false (without_self sig) args (default [] kwargs) = true →
  dict_get name (python_locals (without_self sig) args (default [] kwargs)) = Some v →
  fmt name v = Raise e →
  ∃ e', format_parameters_as_code fmt (call_of method_name sig_str is_async (Some sig) args kwargs) = Raise e'.
Proof.
  intros Hps Hwf Ha Hv Hf. unfold format_parameters_as_code.
  pose proof (bound_parameters_get method_name sig_str is_async sig args kwargs Hps Hwf Ha name) as Hb.
  pose proof (call_kwargs_get method_name sig_str is_async sig args kwargs Hps Hwf Ha name) as Hk.
  unfold the_call in *. rewrite Hv in Hb, Hk. apply dict_get_Some_elem in Hb, Hk.
  pose proof (format_lines_raises fmt _ _ _ _ Hb Hf) as [e1 He1]. pose proof (format_lines_raises fmt _ _ _ _ Hk Hf) as [e2 He2].
  destruct (bound_parameters _); [by apply not_elem_of_nil in Hb|]. rewrite He1. case_bool_decide; [|eauto].
  destruct (cc_kwargs _); [by apply not_elem_of_nil in Hk|]. rewrite He2. cbn. eauto.
Qed.
End Inputs.

(** ** Concrete calls *)

#[export] Instance pyval_calls : CallValues pyval := {
  tuple := VTuple;
  mapping := VDict;
  mapping_keys v := match v with VDict d => dict_keys d | _ => [] end;
  mapping_keys_mapping d := eq_refl
}.

(** [def f(self, a, /, b, c=7, *rest, key, **more)]. *)
Definition demo_signature : list (param pyval) :=
  [mk_param "self" POSITIONAL_OR_KEYWORD None; mk_param "a" POSITIONAL_ONLY None; mk_param "b" POSITIONAL_OR_KEYWORD None;
   mk_param "c" POSITIONAL_OR_KEYWORD (Some (VInt 7)); mk_param "rest" VAR_POSITIONAL None;
   mk_param "key" KEYWORD_ONLY None; mk_param "more" VAR_KEYWORD None]%string.

(** [f(1, 2, a=9, key=3, z=4)]. *)
Definition demo_kwargs : list (string * pyval) := [("a", VInt 9); ("key", VInt 3); ("z", VInt 4)]%string.

Example demo_inputs :
  bound_parameters (call_of "f" None true (Some demo_signature) [VInt 1; VInt 2] (Some demo_kwargs)) =
  [("a", VInt 1); ("b", VInt 2); ("rest", VTuple []); ("c", VInt 7); ("key", VInt 3);
   ("more", VDict [("a", VInt 9); ("z", VInt 4)])]%string.
Proof. reflexivity. Qed.

Lemma demo_signature_wf : signature_wf (without_self demo_signature).
Proof.
  assert (without_self demo_signature = tail demo_signature) as -> by reflexivity.
  split; [by apply (bool_decide_unpack _)|by apply (bool_decide_unpack _)|by apply (bool_decide_unpack _)].
Qed.

Lemma demo_kwargs_wf : dict_wf demo_kwargs.
Proof. by apply (bool_decide_unpack _). Qed.

Lemma arguments_bound_as_in_python_witness :
  bind_call_arguments (without_self demo_signature) [VInt 1; VInt 2] demo_kwargs false =
    Ok [("a", VInt 1); ("b", VInt 2); ("c", VInt 7); ("rest", VTuple []); ("key", VInt 3);
        ("more", VDict [("a", VInt 9); ("z", VInt 4)])]%string ∧
  bind_call_arguments (without_self demo_signature) [] demo_kwargs false = Raise TypeError.
Proof.
  split; (etrans; [apply arguments_bound_as_in_python; [exact demo_signature_wf|exact demo_kwargs_wf]|reflexivity]).
Defined.

Lemma inputs_are_the_locals_witness :
  dict_get "more"%string (bound_parameters (call_of "f" None true (Some demo_signature) [VInt 1; VInt 2] (Some demo_kwargs))) =
    Some (VDict [("a", VInt 9); ("z", VInt 4)]%string).
Proof.
  etrans; [apply (inputs_are_the_locals "f" None true demo_signature [VInt 1; VInt 2] (Some demo_kwargs)
    demo_signature_wf demo_kwargs_wf eq_refl)|reflexivity].
Defined.

(** The check of a value of [b] as an [int]. *)
Definition check_int (name : string) (v : pyval) : result () :=
  match v with VInt _ => Ok () | _ => Raise TypeError end.

Lemma checked_call_accepted_witness :
  accepts false (drop_self demo_signature) [VInt 1; VInt 2] demo_kwargs = true ∧
  check_int "c" (VInt 7) = Ok ().
Proof.
  destruct (proj1 (checked_call_accepted demo_signature ["b"; "c"]%string check_int [VInt 1; VInt 2] demo_kwargs
    demo_signature_wf demo_kwargs_wf) eq_refl) as [Ha Hc].
  split; [exact Ha|]. apply Hc; [by apply dict_get_Some_elem|by apply (bool_decide_unpack _)|].
  intros p Hp Hn. cbn in Hp. repeat (apply elem_of_cons in Hp as [->|Hp]; [done|]). by apply not_elem_of_nil in Hp.
Defined.

(** A [repr] that raises [AttributeError] for an integer argument. *)
Definition broken_repr (name : string) (v : pyval) : result string :=
  match v with VInt 1 => Raise AttributeError | _ => Ok "..."%string end.

Lemma unprintable_parameter_raises_witness :
  ∃ e, format_parameters_as_code broken_repr (call_of "f" None true (Some demo_signature) [VInt 1; VInt 2] (Some demo_kwargs)) = Raise e.
Proof.
  exact (unprintable_parameter_raises "f" None true demo_signature [VInt 1; VInt 2] (Some demo_kwargs) broken_repr "a"%string (VInt 1)
    AttributeError demo_signature_wf demo_kwargs_wf eq_refl eq_refl eq_refl).
Defined.
