(* ===== verification/Predict.v ===== *)
(** * Predict: one structured answer, validated

    Models [nooa/strategies/predict.py]: the response model made of the
    return type, the check of the parameter sizes, the parsing and validation
    of a reply, the feedback of a failed attempt and the loop over the
    attempts, between [BeforeTurn] and [AfterTurn].

    What the strategy calls is the record [predict_services]: the provider,
    pydantic, [json], [repr] and the templates of its prompts.  A service may
    change the world; [p_events] are the events that the strategy itself adds,
    in order. *)

From S2P Require Import Prelude PyDict PyStr PyText TruncStream ResponseCleanup StateM CodeAct CallBinding.
From Stdlib Require Import SpecFloat Ascii.
Local Open Scope string_scope.
Local Open Scope m_scope.
Local Open Scope nat_scope.

(** ** Data *)

(** Python objects: [PModel] is an instance of a pydantic model, [PObject] of
    any other class. *)
Inductive pyobj :=
  | PNone
  | PBool (b : bool)
  | PInt (z : Z)
  | PFloat (f : spec_float)
  | PText (s : text)
  | PList (l : list pyobj)
  | PTuple (l : list pyobj)
  | PSet (l : list pyobj)
  | PDict (d : list (pyobj * pyobj))
  | PModel (o : nat)
  | PObject (o : nat).

(** [bool(v)]; instances are true. *)
Definition truthy (v : pyobj) : bool :=
  match v with
  | PNone => false
  | PBool b => b
  | PInt z => negb (Z.eqb z 0)
  | PFloat f => match f with S754_zero _ => false | _ => true end
  | PText [] | PList [] | PTuple [] | PSet [] | PDict [] => false
  | _ => true
  end.

(** Model classes; [mc_hidden]: whether some field is hidden from the model. *)
Record model_class := mk_class { mc_id : nat; mc_hidden : bool }.

#[export] Instance model_class_eq_dec : EqDecision model_class.
Proof. solve_decision. Defined.

(** Return types, as the strategy tells them apart: [NoneType], model classes,
    [dict] with or without arguments, unions, and every other type. *)
Inductive rtype :=
  | TNone
  | TModel (c : model_class)
  | TDict (args : list rtype)
  | TUnion (args : list rtype)
  | TOther (name : string).

(** The class that [_create_response_model] returns. *)
Inductive response_model :=
  | AsIs (c : model_class)
  | PublicOf (c : model_class)
  | DictRoot (args : list rtype)
  | ValueWrapper (t : rtype).

(** An exception: its class (a subclass of [ValueError] counts as one), the
    name of its class, its text, and what the strategy reads of it. *)
Inductive failure_kind :=
  | JSONDecodeError
  | PydanticValidationError (errors : list (list text * text * text))   (* loc, msg, type *)
  | AnyException.
Record failure := mk_failure { f_class : exc; f_name : text; f_text : text; f_kind : failure_kind }.

Definition outcome (A : Type) : Type := failure + A.
Definition outcome_bind {A B} (r : outcome A) (k : A → outcome B) : outcome B :=
  match r with inl f => inl f | inr a => k a end.

(** What the strategy reads of an [LLMResponse]. *)
Record predict_response := mk_predict_response { pr_parsed : option pyobj; pr_content : pyobj; pr_reasoning : option text }.

Inductive predict_event :=
  | PTask (prompt : text) (images : list pyobj)
  | PError (content : text)
  | PToolCall (tool_call_id : string) (arguments : pyobj) (result : tool_result).

Inductive serialization := AsEvent | AsToolCall.

(** [PredictConfig], as far as the strategy reads it. *)
Record predict_config := mk_predict_config {
  pc_max_retries : Z;
  pc_max_error_chars : Z;
  pc_max_param_chars : option Z;
  pc_output : serialization
}.

Record failed_attempt := mk_attempt { fa_attempt : Z; fa_raw : text; fa_type : text; fa_message : text }.

(** The templates of the error messages. *)
Inductive feedback :=
  | JsonParsing (error : text)
  | PydanticErrors (error_list : text)
  | TypeValidation (return_type error : text).

#[export] Instance text_eq_dec : EqDecision text := list_eq_dec.

(** The tuples and dicts of the calls; the keywords of a call are text. *)
Definition keyword_key (kv : pyobj * pyobj) : list string := match kv.1 with PText s => [unlit s] | _ => [] end.

Lemma unlit_lit s : unlit (lit s) = s.
Proof.
  unfold unlit, lit. rewrite <- (String.string_of_list_ascii_of_string s) at 2. f_equal.
  induction (String.list_ascii_of_string s) as [|c l IH]; csimpl; [done|]. by rewrite ascii_N_embedding, IH.
Qed.

Lemma keyword_keys_lit (d : list (string * pyobj)) :
  concat (keyword_key <$> ((λ kv : string * pyobj, (PText (lit kv.1), kv.2)) <$> d)) = dict_keys d.
Proof. unfold dict_keys. induction d as [|[k v] d IH]; csimpl; [done|]. by rewrite unlit_lit, IH. Qed.

#[export] Instance pyobj_calls : CallValues pyobj := {
  tuple := PTuple;
  mapping d := PDict ((λ kv : string * pyobj, (PText (lit kv.1), kv.2)) <$> d);
  mapping_keys v := match v with PDict d => concat (keyword_key <$> d) | _ => [] end;
  mapping_keys_mapping d := keyword_keys_lit d
}.

Section Strategy.
Context {W : Type}.

Definition call_out (A : Type) : Type := W → W * A.

Record predict_services := mk_predict_services {
  ps_generate : response_model → call_out (outcome predict_response);
  ps_task_message : call_out (outcome text);                (* the task template *)
  ps_feedback : feedback → call_out (outcome text);         (* the error templates *)
  ps_turn_event : turn_event → call_out ();                 (* the handlers of the turn events *)
  ps_added : predict_event → call_out ();                   (* the handlers of the other events *)
  ps_wrapper_ok : rtype → bool;                             (* create_model accepts the type *)
  ps_schema_ok : response_model → bool;                     (* model_json_schema *)
  ps_loads : text → outcome pyobj;                          (* json.loads *)
  ps_word : N → bool;
  ps_model_dump : nat → outcome pyobj;
  ps_model_json : nat → outcome pyobj;                      (* model_dump(mode="json") *)
  ps_dump_text : pyobj → outcome text;                      (* the indented JSON of a model or dict *)
  ps_construct : response_model → pyobj → call_out (outcome nat);   (* the model of the data as keywords *)
  ps_root : list rtype → pyobj → call_out (outcome pyobj);  (* root model: model(data).root *)
  ps_original : model_class → pyobj → call_out (outcome pyobj);     (* the class itself, of the dump *)
  ps_value : nat → option pyobj;                            (* the attribute "value", if there is one *)
  ps_repr : pyobj → outcome text;
  ps_str : pyobj → outcome text;
  ps_type_name : pyobj → text;
  ps_type_text : rtype → text;                              (* str(return_type) *)
  ps_dumps : pyobj → outcome text;                          (* json.dumps *)
  ps_is_media : pyobj → bool;
  ps_media_block : pyobj → outcome pyobj;
  ps_uuid : call_out string
}.

(** The metrics [predict_retries], [xml_wrappers_stripped] and
    [content_to_reasoning_fallback]; [p_span]: the attributes of the current
    span, [None] when it does not record.  [p_asked] counts the calls of the
    provider. *)
Record pstate := mk_pstate {
  p_events : list predict_event;
  p_turns : list turn_event;
  p_retries : list text;
  p_wrappers : list text;
  p_fallbacks : nat;
  p_span : option (dict text text);
  p_asked : nat;
  p_world : W
}.
End Strategy.
Arguments predict_services : clear implicits.
Arguments pstate : clear implicits.
Arguments call_out : clear implicits.

(** ** The strategy *)

Section Operations.
Context {W : Type} (sv : predict_services W) (cf : predict_config).

Definition on_events (f : list predict_event → list predict_event) (s : pstate W) : pstate W :=
  mk_pstate (f (p_events s)) (p_turns s) (p_retries s) (p_wrappers s) (p_fallbacks s) (p_span s) (p_asked s) (p_world s).
Definition on_turns (f : list turn_event → list turn_event) (s : pstate W) : pstate W :=
  mk_pstate (p_events s) (f (p_turns s)) (p_retries s) (p_wrappers s) (p_fallbacks s) (p_span s) (p_asked s) (p_world s).
Definition on_retries (f : list text → list text) (s : pstate W) : pstate W :=
  mk_pstate (p_events s) (p_turns s) (f (p_retries s)) (p_wrappers s) (p_fallbacks s) (p_span s) (p_asked s) (p_world s).
Definition on_wrappers (f : list text → list text) (s : pstate W) : pstate W :=
  mk_pstate (p_events s) (p_turns s) (p_retries s) (f (p_wrappers s)) (p_fallbacks s) (p_span s) (p_asked s) (p_world s).
Definition on_fallbacks (f : nat → nat) (s : pstate W) : pstate W :=
  mk_pstate (p_events s) (p_turns s) (p_retries s) (p_wrappers s) (f (p_fallbacks s)) (p_span s) (p_asked s) (p_world s).
Definition on_span (f : option (dict text text) → option (dict text text)) (s : pstate W) : pstate W :=
  mk_pstate (p_events s) (p_turns s) (p_retries s) (p_wrappers s) (p_fallbacks s) (f (p_span s)) (p_asked s) (p_world s).
Definition on_asked (f : nat → nat) (s : pstate W) : pstate W :=
  mk_pstate (p_events s) (p_turns s) (p_retries s) (p_wrappers s) (p_fallbacks s) (p_span s) (f (p_asked s)) (p_world s).
Definition on_world (w : W) (s : pstate W) : pstate W :=
  mk_pstate (p_events s) (p_turns s) (p_retries s) (p_wrappers s) (p_fallbacks s) (p_span s) (p_asked s) w.

Definition out {A} (f : call_out W A) : M (pstate W) A :=
  λ s, let '(w, a) := f (p_world s) in (Ok a, on_world w s).

Definition predict_add (e : predict_event) : M (pstate W) () :=
  then! modify (on_events (λ l, l ++ [e])%list); out (ps_added sv e).

(** An exception that leaves the strategy. *)
Definition value_or_raise {A} (r : outcome A) : M (pstate W) A :=
  match r with inl f => raise (f_class f) | inr a => m_ret a end.

(** [except (PydanticValidationError, ValueError, TypeError, json.JSONDecodeError)]. *)
Definition correctable_failure (f : failure) : bool := bool_decide (f_class f = ValueError ∨ f_class f = TypeError).

(** [HarnessMetrics._append], with [_truncate]. *)
Definition metric_append (x : text) (l : list text) : list text :=
  if (length l <? 20) then (l ++ [if (length x <=? 500) then x else (take 500 x ++ lit "...")])%list else l.

(** *** [_create_response_model] *)

Definition is_none_type (t : rtype) : bool := match t with TNone => true | _ => false end.

Definition wrapper_model (t : rtype) : result response_model :=
  if ps_wrapper_ok sv t then Ok (ValueWrapper t) else Raise GenerationError.

Fixpoint create_response_model (t : rtype) : result response_model :=
  match t with
  | TNone => Raise GenerationError
  | TModel c => Ok (if mc_hidden c then PublicOf c else AsIs c)
  | TDict args => Ok (DictRoot args)
  | TUnion args =>
      match List.filter (λ tr, negb (is_none_type tr.1)) (List.map (λ t, (t, create_response_model t)) args) with
      | [(_, r)] => r
      | _ => wrapper_model t
      end
  | TOther _ => wrapper_model t
  end.

(** *** The parameters *)

(** [_assert_param_sizes]. *)
Definition assert_param_size (limit : Z) (v : pyobj) : outcome () :=
  let too_long := mk_failure ValueError (lit "ValueError") [] AnyException in
  match v with
  | PText s => if (limit <? zlen s)%Z then inl too_long
               else outcome_bind (ps_repr sv v) (λ r,
                    if was_truncated (trunc_write r (new_trunc limit None)) then inl too_long else inr ())
  | _ => outcome_bind (ps_repr sv v) (λ r,
         if was_truncated (trunc_write r (new_trunc limit None)) then inl too_long else inr ())
  end.

Fixpoint assert_sizes (limit : Z) (params : dict string pyobj) : outcome () :=
  match params with
  | [] => inr ()
  | (_, v) :: params' => outcome_bind (assert_param_size limit v) (λ _, assert_sizes limit params')
  end.

Definition assert_param_sizes (params : dict string pyobj) : outcome () :=
  match pc_max_param_chars cf with None => inr () | Some limit => assert_sizes limit params end.

(** The values that may be media: the elements of [*args] and [**kwargs] one
    by one. *)
Definition media_values (names : signature_names) (params : dict string pyobj) : list pyobj :=
  concat ((λ nv : string * pyobj,
    match nv.2 with
    | PTuple l => if bool_decide (Some nv.1 = var_positional_param_name names) then l else [nv.2]
    | PDict d => if bool_decide (Some nv.1 = var_keyword_param_name names) then d.*2 else [nv.2]
    | v => [v]
    end) <$> params).

Fixpoint media_blocks (values : list pyobj) : outcome (list pyobj) :=
  match values with
  | [] => inr []
  | v :: values' =>
      if ps_is_media sv v then
        outcome_bind (ps_media_block sv v) (λ b, outcome_bind (media_blocks values') (λ bs, inr (b :: bs)))
      else media_blocks values'
  end.

(** *** The reply *)

(** [_strip_xml_wrapper]. *)
Definition strip_wrapper (content : text) : M (pstate W) text :=
  let '(inner, tag) := strip_xml_wrapper (ps_word sv) (t_strip content) in
  then! (match tag with Some t => modify (on_wrappers (metric_append t)) | None => m_ret tt end);
  m_ret inner.

Definition value_key : pyobj := PText (lit "value").

(** [_parse_llm_response]. *)
Definition parse_llm_response (r : predict_response) : M (pstate W) (outcome pyobj) :=
  do content <-
    match pr_parsed r with
    | Some v => m_ret v
    | None =>
        if truthy (pr_content r) then m_ret (pr_content r)
        else match pr_reasoning r with
             | Some ((_ :: _) as t) => then! modify (on_fallbacks S); m_ret (PText t)
             | _ => m_ret (PText [])
             end
    end;
  match content with
  | PModel o => m_ret (ps_model_dump sv o)
  | PDict d => m_ret (inr (PDict d))
  | PText s =>
      do cleaned <- strip_wrapper s;
      m_ret (outcome_bind (ps_loads sv cleaned) (λ v,
        match v with PDict d => inr v | _ => inr (PDict [(value_key, v)]) end))
  | _ => m_ret (inl (mk_failure GenerationError (lit "GenerationError") [] AnyException))
  end.

(** [_validate_response]. *)
Definition validate_response (data : pyobj) (m : response_model) (rt : rtype) : M (pstate W) (outcome pyobj) :=
  match m with
  | DictRoot args => out (ps_root sv args data)
  | _ =>
      do validated <- out (ps_construct sv m data);
      match validated with
      | inl f => m_ret (inl f)
      | inr o =>
          match m, rt with
          | PublicOf c, _ =>
              match ps_model_dump sv o with
              | inl f => m_ret (inl f)
              | inr d => out (ps_original sv c d)
              end
          | _, TModel _ => m_ret (inr (PModel o))
          | _, _ => m_ret (inr (default (PModel o) (ps_value sv o)))
          end
      end
  end.

(** *** The synthetic tool call *)

(** [sorted] by a text, the equal ones in their order. *)
Fixpoint text_leb (a b : text) : bool :=
  match a, b with
  | [], _ => true
  | _ :: _, [] => false
  | x :: a', y :: b' => if N.eqb x y then text_leb a' b' else N.ltb x y
  end.

Fixpoint insert_by_text (x : text * pyobj) (l : list (text * pyobj)) : list (text * pyobj) :=
  match l with
  | [] => [x]
  | y :: l' => if text_leb y.1 x.1 then y :: insert_by_text x l' else x :: l
  end.

Definition sort_by_text (l : list (text * pyobj)) : list (text * pyobj) := foldl (λ acc x, insert_by_text x acc) [] l.

Fixpoint outcomes {A} (l : list (outcome A)) : outcome (list A) :=
  match l with
  | [] => inr []
  | r :: l' => outcome_bind r (λ a, outcome_bind (outcomes l') (λ rest, inr (a :: rest)))
  end.

Definition leaf_json (v : pyobj) : outcome pyobj :=
  match ps_dumps sv v with
  | inr _ => inr v
  | inl f => if decide (f_class f = TypeError) then outcome_bind (ps_str sv v) (λ t, inr (PText t)) else inl f
  end.

(** [_jsonable]. *)
Fixpoint predict_jsonable (v : pyobj) : outcome pyobj :=
  match v with
  | PModel o => ps_model_json sv o
  | PDict d =>
      let entries := List.map (λ kv, outcome_bind (ps_str sv kv.1) (λ k, outcome_bind (predict_jsonable kv.2) (λ x, inr (k, x)))) d in
      outcome_bind (outcomes entries) (λ es,
        inr (PDict ((λ kv : text * pyobj, (PText kv.1, kv.2)) <$> foldl (λ acc kv, dict_set kv.1 kv.2 acc) [] es)))
  | PSet l =>
      outcome_bind (outcomes (List.map predict_jsonable l)) (λ xs,
      outcome_bind (outcomes ((λ x, outcome_bind (ps_dumps sv x) (λ k, inr (k, x))) <$> xs)) (λ keyed,
        inr (PList (sort_by_text keyed).*2)))
  | PList l | PTuple l => outcome_bind (outcomes (List.map predict_jsonable l)) (λ xs, inr (PList xs))
  | _ => leaf_json v
  end.

(** [_append_tool_call]. *)
Definition append_tool_call (v : pyobj) : M (pstate W) (outcome ()) :=
  do id <- out (ps_uuid sv);
  let tool_call_id := "predict_" ++ id in
  match predict_jsonable v with
  | inl f => m_ret (inl f)
  | inr x =>
      then! predict_add (PToolCall tool_call_id (PDict [(PText (lit "result"), x)]) (mk_tool_result "Result accepted." COMPLETE));
      m_ret (inr ())
  end.

(** *** Feedback *)

(** [_extract_raw_from_llm_response]: an exception on the way becomes the
    text. *)
Definition newline_text : text := [10%N].

Definition reasoning_note (t : text) : text :=
  (lit "[REASONING]: " ++ (if length t <=? 1000 then t
   else take 1000 t ++ lit "... (truncated, " ++ t_nat (length t) ++ lit " total)"))%list.

Definition content_part (v : pyobj) : outcome text :=
  match v with
  | PText s => inr (lit "[CONTENT]: " ++ s)%list
  | PModel _ => outcome_bind (ps_dump_text sv v) (λ t, inr (lit "[CONTENT (Pydantic)]: " ++ t)%list)
  | PDict _ => outcome_bind (ps_dump_text sv v) (λ t, inr (lit "[CONTENT (dict)]: " ++ t)%list)
  | _ => outcome_bind (ps_str sv v) (λ t, inr (lit "[CONTENT (" ++ ps_type_name sv v ++ lit ")]: " ++ t)%list)
  end.

Definition extract_raw (r : predict_response) : text :=
  let parts :=
    outcome_bind (if truthy (pr_content r) then ps_str sv (pr_content r) else inr []) (λ _,
    outcome_bind (if truthy (pr_content r) then outcome_bind (content_part (pr_content r)) (λ t, inr [t]) else inr []) (λ c,
    inr (c ++ match pr_reasoning r with Some ((_ :: _) as t) => [reasoning_note t] | _ => [] end)%list)) in
  match parts with
  | inl f => lit "(error extracting: " ++ f_text f ++ lit ")"
  | inr [] => lit "(empty response - both content and reasoning were empty)"
  | inr ((_ :: _) as ps) => t_join newline_text ps
  end%list.

(** [_format_validation_error]. *)
Definition error_line (e : list text * text * text) : text :=
  let '(loc, msg, type) := e in
  (lit "  - Field `" ++ t_join (lit " -> ") loc ++ lit "`: " ++ msg ++ lit " (type: " ++ type ++ lit ")")%list.

Definition format_validation_error (f : failure) (rt : rtype) : M (pstate W) (outcome text) :=
  out (ps_feedback sv
    match f_kind f with
    | JSONDecodeError => JsonParsing (f_text f)
    | PydanticValidationError errors => PydanticErrors (t_join newline_text (error_line <$> errors))
    | AnyException => TypeValidation (ps_type_text sv rt) (f_text f)
    end).

(** The content of the [Error] event. *)
Definition z_text (z : Z) : text := lit (str_int z).

Definition correction_content (attempt : Z) (message raw : text) : text :=
  let max_err := pc_max_error_chars cf in
  let truncated :=
    (py_slice_to max_err raw ++
     (if (max_err <? zlen raw)%Z then newline_text ++ lit "... (truncated, " ++ t_nat (length raw) ++ lit " chars total)" else []))%list in
  (lit "Validation error (attempt " ++ z_text attempt ++ lit "/" ++ z_text (pc_max_retries cf) ++ lit "):" ++ newline_text ++ message ++
   newline_text ++ newline_text ++ lit "Raw LLM output:" ++ newline_text ++ truncated)%list.

(** [_add_all_failed_attempts_to_span]. *)
Definition span_attempt (d : dict text text) (a : failed_attempt) : dict text text :=
  let key (field : string) := (lit "predict.failed_attempt_" ++ z_text (fa_attempt a) ++ lit field)%list in
  let output := (take 2000 (fa_raw a) ++
    (if length (fa_raw a) <=? 2000 then [] else newline_text ++ lit "... (truncated from " ++ t_nat (length (fa_raw a)) ++ lit " chars)"))%list in
  dict_set (key ".error_message") (fa_message a) (dict_set (key ".error_type") (fa_type a) (dict_set (key ".raw_output") output d)).

Definition add_failed_attempts (failed : list failed_attempt) : M (pstate W) () :=
  modify (on_span (λ span, match span with
    | None => None
    | Some d => Some (dict_set (lit "predict.total_failed_attempts") (t_nat (length failed)) (foldl span_attempt d failed))
    end)).

(** *** The attempts *)

(** The [try] of one attempt; a failure comes with the text of the reply, when
    there is one. *)
Definition try_once (m : response_model) (rt : rtype) : M (pstate W) ((failure * option text) + pyobj) :=
  then! modify (on_asked S);
  do r <- out (ps_generate sv m);
  match r with
  | inl f => m_ret (inl (f, None))
  | inr response =>
      let raw := Some (extract_raw response) in
      do parsed <- parse_llm_response response;
      match parsed with
      | inl f => m_ret (inl (f, raw))
      | inr data =>
          do validated <- validate_response data m rt;
          match validated with
          | inl f => m_ret (inl (f, raw))
          | inr v =>
              match pc_output cf with
              | AsEvent => m_ret (inr v)
              | AsToolCall =>
                  do appended <- append_tool_call v;
                  m_ret (match appended with inl f => inl (f, raw) | inr _ => inr v end)
              end
          end
      end
  end.

(** [for attempt in range(1, max_retries + 1)]: [n] attempts are left.  The
    text of a reply is never missing once there is a response. *)
Fixpoint attempt_loop (m : response_model) (rt : rtype) (n : nat) (attempt : Z) (failed : list failed_attempt) : M (pstate W) pyobj :=
  match n with
  | 0 => raise GenerationError
  | S n' =>
      do r <- try_once m rt;
      match r with
      | inr v => m_ret v
      | inl (f, raw) =>
          if correctable_failure f then
            let raw := default (lit "(llm_response was None)") raw in
            then! modify (on_retries (metric_append (f_name f ++ lit ": " ++ take 200 (f_text f))%list));
            let failed := (failed ++ [mk_attempt attempt raw (f_name f) (take 500 (f_text f))])%list in
            if (pc_max_retries cf <=? attempt)%Z then
              then! add_failed_attempts failed;
              do details <- format_validation_error f rt;
              then! value_or_raise details;
              raise GenerationError
            else
              do details <- format_validation_error f rt;
              do message <- value_or_raise details;
              then! predict_add (PError (correction_content attempt message raw));
              attempt_loop m rt n' (attempt + 1)%Z failed
          else raise (f_class f)
      end
  end.

(** [_execute_inner]; [rt]: the return type of the call, if it has one. *)
Definition execute_inner (c : CurrentCall (V := pyobj)) (rt : option rtype) : M (pstate W) pyobj :=
  match rt with
  | None => raise GenerationError
  | Some rt =>
      do m <- lift (create_response_model rt);
      if ps_schema_ok sv m then
        do media <- value_or_raise (media_blocks (media_values (cc_names c) (bound_parameters c)));
        then! value_or_raise (assert_param_sizes (bound_parameters c));
        do prompt <- out (ps_task_message sv);
        do prompt <- value_or_raise prompt;
        then! predict_add (PTask prompt media);
        attempt_loop m rt (Z.to_nat (pc_max_retries cf)) 1 []
      else raise GenerationError
  end.

Definition emit_turn_event (e : turn_event) : M (pstate W) () :=
  then! modify (on_turns (λ l, l ++ [e])%list); out (ps_turn_event sv e).

(** The outcome of [m], for a [finally] that looks at it. *)
Definition settled {A} (m : M (pstate W) A) : M (pstate W) (result A) := λ s, let '(r, s') := m s in (Ok r, s').

Definition exception_of {A} (r : result A) : option exc := match r with Ok _ => None | Raise e => Some e end.

(** [execute]. *)
Definition predict (c : CurrentCall (V := pyobj)) (rt : option rtype) : M (pstate W) pyobj :=
  then! emit_turn_event (BeforeTurn 1);
  do r <- settled (execute_inner c rt);
  then! emit_turn_event (AfterTurn 1 true (is_ok r) (exception_of r));
  lift r.
End Operations.
