(* ===== verification/PredictRuns.v ===== *)
(** * PredictRuns: what a run of Predict does

    The conversation of a run: the events between the turn events, the number
    of calls of the provider and the outcome; the check of the parameter
    sizes; the type of the value. Then runs on concrete services, with the witnesses. *)

From S2P Require Import Prelude PyDict PyStr PyText TruncStream StateM CodeAct CallBinding Predict.
Local Open Scope m_scope.
Local Open Scope nat_scope.

Section Runs.
Context {W : Type} (sv : predict_services W) (cf : predict_config).
Implicit Types (s : pstate W) (m : response_model) (rt : rtype) (v : pyobj).

(** ** The conversation *)

(** What the parsing and the validation of a reply leave alone. *)
Definition quiet s s' : Prop := p_events s' = p_events s ∧ p_turns s' = p_turns s ∧ p_asked s' = p_asked s.

#[local] Instance quiet_preorder : PreOrder quiet.
Proof. split; [done|]. intros s1 s2 s3 (?&?&?) (?&?&?). repeat split; congruence. Qed.

(** A step that never raises and leaves all that alone. *)
Definition calm {A} (mm : M (pstate W) A) : Prop := ∀ s, ∃ a s', mm s = (Ok a, s') ∧ quiet s s'.

Lemma calm_ret {A} (a : A) : calm (m_ret a).
Proof. intros s. by exists a, s. Qed.
Lemma calm_out {A} (f : call_out W A) : calm (out f).
Proof. intros s. unfold out. destruct (f (p_world s)) as [w a]. by exists a, (on_world w s). Qed.
Lemma calm_modify f : (∀ s, quiet s (f s)) → calm (modify f).
Proof. intros Hf s. exists (), (f s). by split. Qed.
Lemma calm_bind {A B} (mm : M (pstate W) A) (k : A → M (pstate W) B) : calm mm → (∀ a, calm (k a)) → calm (m_bind mm k).
Proof.
  intros Hm Hk s. destruct (Hm s) as (a & s1 & H1 & Hq). destruct (Hk a s1) as (b & s2 & H2 & Hq2).
  exists b, s2. unfold m_bind. rewrite H1. split; [done|by etrans].
Qed.

Ltac calm_step :=
  match goal with
  | |- ∀ _, _ => intros
  | |- calm (m_bind _ _) => apply calm_bind
  | |- calm (m_ret _) => apply calm_ret
  | |- calm (out _) => apply calm_out
  | |- calm (modify _) => by apply calm_modify
  | |- calm (match ?x with _ => _ end) => destruct x
  end.

Lemma calm_parse r : calm (parse_llm_response sv r).
Proof. unfold parse_llm_response, strip_wrapper. repeat calm_step. Qed.
Lemma calm_validate v m rt : calm (validate_response sv v m rt).
Proof. unfold validate_response. repeat calm_step. Qed.

(** The synthetic call that carries the value into the history. *)
Definition sent v (l : list predict_event) : Prop :=
  match pc_output cf with
  | AsEvent => l = []
  | AsToolCall => ∃ id x, predict_jsonable sv v = inr x ∧
      l = [PToolCall (String.append "predict_" id) (PDict [(PText (lit "result"), x)]) (mk_tool_result "Result accepted." COMPLETE)]
  end.

(** The corrections after the attempts [a], [a + 1], ...: each with its message
    and the reply it is about. *)
Fixpoint corrections (a : Z) (l : list (text * text)) : list predict_event :=
  match l with
  | [] => []
  | (message, raw) :: l' => PError (correction_content cf a message raw) :: corrections (a + 1) l'
  end.

Lemma corrections_snoc a l x : corrections a (x :: l) = PError (correction_content cf a x.1 x.2) :: corrections (a + 1) l.
Proof. by destruct x. Qed.

Lemma append_sent v s : pc_output cf = AsToolCall →
  let '(r, s') := append_tool_call sv v s in
  p_asked s' = p_asked s ∧ p_turns s' = p_turns s ∧
  match r with
  | Ok (inl _) => p_events s' = p_events s
  | Ok (inr _) => ∃ l, p_events s' = (p_events s ++ l)%list ∧ sent v l
  | Raise _ => False
  end.
Proof.
  intros Ho. unfold append_tool_call, m_bind, out. destruct (ps_uuid sv (p_world s)) as [w id].
  destruct (predict_jsonable sv v) as [f|x] eqn:Hx; [done|]. unfold predict_add, m_bind, modify, out. cbn [p_world on_events on_world].
  destruct (ps_added sv _ _) as [w' []]. split_and!; [done|done|]. eexists. split; [reflexivity|].
  unfold sent. rewrite Ho. eauto.
Qed.

Definition one_attempt s (r : result ((failure * option text) + pyobj)) s' : Prop :=
  p_asked s' = S (p_asked s) ∧ p_turns s' = p_turns s ∧
  ∃ l, p_events s' = (p_events s ++ l)%list ∧
  match r with Ok (inr v) => sent v l | Ok (inl _) => l = [] | Raise _ => False end.
Lemma try_once_conversation m rt s : let '(r, s') := try_once sv cf m rt s in one_attempt s r s'.
Proof.
  unfold try_once, m_bind. cbn [modify]. unfold one_attempt.
  destruct (calm_out (ps_generate sv m) (on_asked S s)) as (r & s1 & -> & He1 & Ht1 & Ha1). cbn in *.
  destruct r as [f|response]; [cbn; split_and!; [done|done|]; exists []; by rewrite app_nil_r|].
  destruct (calm_parse response s1) as (parsed & s2 & -> & He2 & Ht2 & Ha2).
  destruct parsed as [f|data]; [cbn; split_and!; [congruence|congruence|]; exists []; rewrite app_nil_r; split; [congruence|done]|].
  destruct (calm_validate data m rt s2) as (validated & s3 & -> & He3 & Ht3 & Ha3).
  destruct validated as [f|v]; [cbn; split_and!; [congruence|congruence|]; exists []; rewrite app_nil_r; split; [congruence|done]|].
  destruct (pc_output cf) eqn:Ho.
  - cbn. split_and!; [congruence|congruence|]. exists []. rewrite app_nil_r. split; [congruence|]. unfold sent. by rewrite Ho.
  - pose proof (append_sent v s3 Ho) as Happ. destruct (append_tool_call sv v s3) as [[[f|u]|e] s4]; [..|tauto]; cbn;
      destruct Happ as (Ha4 & Ht4 & Hr); (split_and!; [congruence|congruence|]).
    + exists []. rewrite app_nil_r. split; [congruence|done].
    + destruct Hr as (l & Hl & Hs). exists l. split; [congruence|done].
Qed.

(** ** The loop *)

(** The templates of the error messages render. *)
Definition feedback_renders : Prop := ∀ t w, ∃ w' x, ps_feedback sv t w = (w', inr x).

Definition correctable (e : exc) : Prop := e = ValueError ∨ e = TypeError.

(** [n] attempts from number [a] on: [l] is the feedback between them. *)
Definition loop_result (n : nat) (a : Z) s (r : result pyobj) s' : Prop :=
  p_turns s' = p_turns s ∧
  ∃ l call, p_events s' = (p_events s ++ corrections a l ++ call)%list ∧ p_asked s' = p_asked s + S (length l) ∧
  match r with
  | Ok v => length l < n ∧ sent v call
  | Raise e => call = [] ∧ ((e = GenerationError ∧ S (length l) = n) ∨ (length l < n ∧ ¬ correctable e))
  end.

Lemma bind_ok {A B} (mm : M (pstate W) A) (k : A → M (pstate W) B) s a s' : mm s = (Ok a, s') → m_bind mm k s = k a s'.
Proof. unfold m_bind. by intros ->. Qed.

Lemma format_renders f rt s : feedback_renders →
  ∃ x s', format_validation_error sv f rt s = (Ok (inr x), s') ∧ quiet s s'.
Proof.
  intros Hf. unfold format_validation_error, out. edestruct (Hf) as (w & x & ->). by exists x, (on_world w s).
Qed.

Lemma add_appends e s : ∃ s', predict_add sv e s = (Ok (), s') ∧
  p_events s' = (p_events s ++ [e])%list ∧ p_turns s' = p_turns s ∧ p_asked s' = p_asked s.
Proof.
  unfold predict_add. destruct (calm_out (ps_added sv e) (on_events (λ l, (l ++ [e])%list) s)) as ([] & s' & Hs & He & Ht & Ha).
  exists s'. split; [|done]. erewrite bind_ok by done. exact Hs.
Qed.

(** The last attempt: the span, the details and [GenerationError]. *)
Lemma last_attempt failed x f rt s : feedback_renders →
  ∃ s', (then! modify (on_retries x); then! add_failed_attempts failed;
         do details <- format_validation_error sv f rt; then! value_or_raise details; raise (A := pyobj) GenerationError) s
    = (Raise GenerationError, s') ∧ quiet s s'.
Proof.
  intros Hf. erewrite bind_ok by done. unfold add_failed_attempts. erewrite bind_ok by done.
  edestruct (format_renders f rt) as (d & s' & Hs & Hq); [done|]. exists s'. by erewrite bind_ok by done.
Qed.

Lemma loop_result_more n a s s1 message raw r s2 :
  p_events s1 = (p_events s ++ [PError (correction_content cf a message raw)])%list → p_turns s1 = p_turns s → p_asked s1 = S (p_asked s) →
  loop_result n (a + 1) s1 r s2 → loop_result (S n) a s r s2.
Proof.
  intros He Ht Ha (Ht2 & l & call & He2 & Ha2 & Hr). split; [congruence|]. exists ((message, raw) :: l), call. cbn.
  split_and!; [by rewrite He2, He, <- !app_assoc|lia|].
  destruct r; [naive_solver lia|]. destruct Hr as [-> Hr]. split; [done|]. destruct Hr as [[-> Hr]|[Hr Hc]]; [left|right]; split; done || lia.
Qed.

Lemma attempts_conversation m rt n a failed s :
  feedback_renders → Z.of_nat n = (pc_max_retries cf - a + 1)%Z → n ≠ 0 →
  let '(r, s') := attempt_loop sv cf m rt n a failed s in loop_result n a s r s'.
Proof.
  intros Hf. revert a failed s. induction n as [|n IH]; intros a failed s Hn Hn0; [done|clear Hn0].
  cbn [attempt_loop]. unfold m_bind at 1. pose proof (try_once_conversation m rt s) as Hone.
  destruct (try_once sv cf m rt s) as [[[[f raw]|v]|e] s1]; destruct Hone as (Ha & Ht & l & He & Hl); [..|done].
  - subst l. rewrite app_nil_r in He. unfold correctable_failure. case_bool_decide as Hr.
    + destruct (Z.leb_spec (pc_max_retries cf) a) as [Hlast|Hmore].
      * match goal with |- let '(r, s') := ?p in _ => assert (∃ s', p = (Raise GenerationError, s') ∧ quiet s1 s') as Hend by by apply last_attempt end.
        destruct Hend as (s2 & -> & He2 & Ht2 & Ha2). split; [congruence|]. exists [], []. cbn.
        rewrite !app_nil_r. split_and!; [congruence|lia|done|left; split; [done|lia]].
      * erewrite bind_ok by done.
        edestruct (format_renders f rt) as (d & s2 & Hs2 & He2 & Ht2 & Ha2); [done|]. erewrite bind_ok by done.
        cbn [value_or_raise]. erewrite bind_ok by done.
        edestruct (add_appends) as (s3 & Hs3 & He3 & Ht3 & Ha3). erewrite bind_ok by done.
        match goal with |- context [attempt_loop sv cf m rt n (a + 1) ?fl s3] =>
          pose proof (IH (a + 1)%Z fl s3 ltac:(lia) ltac:(lia)) as Hrec end.
        destruct (attempt_loop _ _ _ _ _ _ _ _) as [r s4].
        cbn [on_retries p_events p_turns p_asked] in He2, Ht2, Ha2.
        eapply loop_result_more; [|..|exact Hrec]; [rewrite He3, He2, He; reflexivity|congruence|congruence].
    + cbn. split; [done|]. exists [], []. cbn. rewrite !app_nil_r. split_and!; [done|lia|done|]. right. split; [lia|exact Hr].
  - cbn. split; [done|]. exists [], l. cbn. split_and!; [done|lia|lia|done].
Qed.
(** ** A whole run *)

Definition max_attempts : nat := Z.to_nat (pc_max_retries cf).

(** [k] calls of the provider and the events of a run that ends with [r]. *)
Inductive conversation : nat → list predict_event → result pyobj → Prop :=
  | not_asked e : conversation 0 [] (Raise e)
  | no_attempts prompt images : max_attempts = 0 → conversation 0 [PTask prompt images] (Raise GenerationError)
  | answered prompt images l call v :
      length l < max_attempts → sent v call →
      conversation (S (length l)) (PTask prompt images :: corrections 1 l ++ call) (Ok v)
  | exhausted prompt images l :
      S (length l) = max_attempts →
      conversation max_attempts (PTask prompt images :: corrections 1 l) (Raise GenerationError)
  | not_correctable prompt images l e :
      length l < max_attempts → ¬ correctable e →
      conversation (S (length l)) (PTask prompt images :: corrections 1 l) (Raise e).

Definition inner_run s (r : result pyobj) s' : Prop :=
  p_turns s' = p_turns s ∧
  ∃ k l, conversation k l r ∧ p_events s' = (p_events s ++ l)%list ∧ p_asked s' = p_asked s + k.

Lemma inner_run_raise e s s' : quiet s s' → inner_run s (Raise e) s'.
Proof. intros (He & Ht & Ha). split; [done|]. exists 0, []. rewrite app_nil_r. split_and!; [constructor|done|lia]. Qed.

Lemma inner_conversation c ret s : feedback_renders → let '(r, s') := execute_inner sv cf c ret s in inner_run s r s'.
Proof.
  intros Hf. unfold execute_inner. destruct ret as [rt|]; [|by apply inner_run_raise].
  unfold m_bind at 1, lift. destruct (create_response_model sv rt) as [m|e]; [|by apply inner_run_raise].
  destruct (ps_schema_ok sv m); [|by apply inner_run_raise].
  unfold m_bind at 1, value_or_raise at 1. destruct (media_blocks _ _) as [f|media]; [by apply inner_run_raise|]. cbn [m_ret].
  unfold m_bind at 1, value_or_raise at 1. destruct (assert_param_sizes _ _ _) as [f|[]]; [by apply inner_run_raise|]. cbn [m_ret].
  destruct (calm_out (ps_task_message sv) s) as (prompt & s1 & Hs1 & Hq). erewrite bind_ok by done.
  unfold m_bind at 1, value_or_raise. destruct prompt as [f|prompt]; [by apply inner_run_raise|]. cbn [m_ret].
  destruct (add_appends (PTask prompt media) s1) as (s2 & Hs2 & He2 & Ht2 & Ha2). erewrite bind_ok by done.
  destruct Hq as (He1 & Ht1 & Ha1). destruct (decide (max_attempts = 0)) as [H0|Hpos].
  - fold max_attempts. rewrite H0. cbn. split; [congruence|]. exists 0, [PTask prompt media].
    split_and!; [by constructor|congruence|lia].
  - pose proof (attempts_conversation m rt max_attempts 1 [] s2 Hf) as Hatt. unfold max_attempts in *.
    destruct (attempt_loop _ _ _ _ _ _ _ _) as [r s3]. destruct Hatt as (Ht3 & l & call & He3 & Ha3 & Hr); [lia|done|].
    split; [congruence|]. destruct r as [v|e].
    + exists (S (length l)), (PTask prompt media :: corrections 1 l ++ call). split_and!; [apply answered; apply Hr| |lia].
      by rewrite He3, He2, He1, <- app_assoc.
    + destruct Hr as [-> Hr]. exists (S (length l)), (PTask prompt media :: corrections 1 l). split_and!; [| |lia].
      * destruct Hr as [[-> Hr]|[Hr Hc]]; [rewrite Hr; by apply exhausted|by apply not_correctable].
      * by rewrite He3, He2, He1, app_nil_r, <- app_assoc.
Qed.

Lemma conversation_bound k l r : conversation k l r → k ≤ max_attempts.
Proof. destruct 1; lia. Qed.

Lemma emit_turn e s : ∃ s', emit_turn_event sv e s = (Ok (), s') ∧
  p_events s' = p_events s ∧ p_turns s' = (p_turns s ++ [e])%list ∧ p_asked s' = p_asked s.
Proof.
  unfold emit_turn_event. destruct (calm_out (ps_turn_event sv e) (on_turns (λ l, (l ++ [e])%list) s)) as ([] & s' & Hs & He & Ht & Ha).
  exists s'. split; [|done]. erewrite bind_ok by done. exact Hs.
Qed.

(** C23.  A run of Predict is one turn, and its conversation is the task, then
    a correction after each refused reply but the last, numbered and with the
    reply it is about; the provider is called once more than there are
    corrections, at most [max_retries] times.  A value ends it (with the
    synthetic call in that mode); a reply that can be corrected never does
    before the last attempt, which raises [GenerationError]. *)
Theorem predict_conversation c ret s :
  feedback_renders →
  let '(r, s') := predict sv cf c ret s in
  p_turns s' = (p_turns s ++ [BeforeTurn 1; AfterTurn 1 true (is_ok r) (exception_of r)])%list ∧
  ∃ k l, conversation k l r ∧ k ≤ max_attempts ∧
    p_events s' = (p_events s ++ l)%list ∧ p_asked s' = p_asked s + k.
Proof.
  intros Hf. unfold predict. destruct (emit_turn (BeforeTurn 1) s) as (s1 & Hs1 & He1 & Ht1 & Ha1). erewrite bind_ok by done.
  pose proof (inner_conversation c ret s1 Hf) as Hin. unfold m_bind at 1, settled.
  destruct (execute_inner sv cf c ret s1) as [r s2]. destruct Hin as (Ht2 & k & l & Hc & He2 & Ha2).
  destruct (emit_turn (AfterTurn 1 true (is_ok r) (exception_of r)) s2) as (s3 & Hs3 & He3 & Ht3 & Ha3).
  erewrite bind_ok by done. cbn. split; [by rewrite Ht3, Ht2, Ht1, <- app_assoc|].
  exists k, l. split_and!; [done|by eapply conversation_bound|congruence|congruence].
Qed.
(** ** The sizes of the parameters *)

Lemma trunc_write_counts x t : tr_written (trunc_write x t) = (tr_written t + zlen x)%Z ∧ tr_limit (trunc_write x t) = tr_limit t.
Proof.
  unfold trunc_write, add_to_tail.
  repeat match goal with
  | |- context [if ?b then _ else _] => destruct b
  | |- context [let '(_, _) := ?p in _] => destruct p
  end; done.
Qed.

Lemma assert_param_size_ok limit v :
  (∀ x r, ps_repr sv (PText x) = inr r → (zlen x ≤ zlen r)%Z) →
  assert_param_size sv limit v = inr () ↔ ∃ r, ps_repr sv v = inr r ∧ (zlen r ≤ limit)%Z.
Proof.
  intros Hrepr. assert (∀ r, was_truncated (trunc_write r (new_trunc limit None)) = (limit <? zlen r)%Z) as Hw.
  { intros r. unfold was_truncated. destruct (trunc_write_counts r (new_trunc limit None)) as [-> ->]. done. }
  assert (∀ too_long : failure, outcome_bind (ps_repr sv v) (λ r, if was_truncated (trunc_write r (new_trunc limit None)) then inl too_long else inr ())
    = inr () ↔ ∃ r, ps_repr sv v = inr r ∧ (zlen r ≤ limit)%Z) as Hslow.
  { intros too_long. destruct (ps_repr sv v) as [f|r]; cbn [outcome_bind]; [naive_solver|]. rewrite Hw.
    destruct (Z.ltb_spec limit (zlen r)); [|naive_solver]. split; [done|]. intros (r' & [= ->] & ?). lia. }
  destruct v; try apply Hslow. cbn [assert_param_size]. destruct (Z.ltb_spec limit (zlen s)) as [Hlt|]; [|apply Hslow].
  split; [done|]. intros (r & Hr & Hle). specialize (Hrepr _ _ Hr). lia.
Qed.

(** The check before the prompt is built passes exactly when the [repr]
    of every parameter is within [max_param_chars]: the short cut for text
    never decides otherwise. *)
Theorem param_sizes_within limit params :
  pc_max_param_chars cf = Some limit →
  (∀ x r, ps_repr sv (PText x) = inr r → (zlen x ≤ zlen r)%Z) →
  assert_param_sizes sv cf params = inr () ↔
  Forall (λ nv, ∃ r, ps_repr sv nv.2 = inr r ∧ (zlen r ≤ limit)%Z) params.
Proof.
  intros Hl Hrepr. unfold assert_param_sizes. rewrite Hl. induction params as [|[n v] params IH]; [done|].
  rewrite Forall_cons, <- IH, <- assert_param_size_ok by done. cbn.
  destruct (assert_param_size sv limit v) as [f|[]]; cbn; naive_solver.
Qed.

(** ** The type of the value *)

Context (instance_of : model_class → pyobj → Prop) (is_dict_of : list rtype → pyobj → Prop) (has_type : string → pyobj → Prop).

(** The values of a return type. *)
Fixpoint fits (t : rtype) v : Prop :=
  match t with
  | TNone => v = PNone
  | TModel c => instance_of c v
  | TDict args => is_dict_of args v
  | TUnion args => (fix any (ts : list rtype) : Prop := match ts with [] => False | t :: ts' => fits t v ∨ any ts' end) args
  | TOther name => has_type name v
  end.

(** What pydantic documents of the models: a validated object is an instance,
    and its fields have their types. *)
Record pydantic_validates : Prop := {
  constructed c data w w' o : ps_construct sv (AsIs c) data w = (w', inr o) → instance_of c (PModel o);
  wrapped t data w w' o : ps_construct sv (ValueWrapper t) data w = (w', inr o) → ∃ v, ps_value sv o = Some v ∧ fits t v;
  rooted args data w w' v : ps_root sv args data w = (w', inr v) → is_dict_of args v;
  rebuilt c data w w' v : ps_original sv c data w = (w', inr v) → instance_of c v
}.

(** What a response model stands for. *)
Definition stands_for m v : Prop :=
  match m with
  | AsIs c | PublicOf c => instance_of c v
  | DictRoot args => is_dict_of args v
  | ValueWrapper t => fits t v
  end.

Section RtypeInd.
Context (P : rtype → Prop) (Hnone : P TNone) (Hmodel : ∀ c, P (TModel c)) (Hdict : ∀ args, P (TDict args))
  (Hunion : ∀ args, Forall P args → P (TUnion args)) (Hother : ∀ n, P (TOther n)).
Fixpoint rtype_ind' (t : rtype) : P t :=
  match t with
  | TNone => Hnone
  | TModel c => Hmodel c
  | TDict args => Hdict args
  | TUnion args => Hunion args ((fix go l : Forall P l := match l with [] => Forall_nil_2 P | t :: l' => Forall_cons_2 P t l' (rtype_ind' t) (go l') end) args)
  | TOther n => Hother n
  end.
End RtypeInd.

Lemma fits_union args v t : t ∈ args → fits t v → fits (TUnion args) v.
Proof. intros Ht Hv. induction args as [|t' args IH]; [by apply not_elem_of_nil in Ht|]. apply elem_of_cons in Ht as [->|Ht]; [by left|right; by apply IH]. Qed.

Lemma created_fits rt m v : create_response_model sv rt = Ok m → stands_for m v → fits rt v.
Proof.
  revert m. induction rt as [|c|args|args IH|n] using rtype_ind'; intros m Hm Hv; cbn [create_response_model] in Hm.
  - done.
  - destruct (mc_hidden c); by simplify_eq.
  - by simplify_eq.
  - unfold wrapper_model in Hm. destruct (List.filter _ _) as [|[t r] [|]] eqn:Hf.
    + destruct (ps_wrapper_ok _ _); by simplify_eq.
    + subst r. assert (In (t, Ok m) (List.filter (λ tr, negb (is_none_type tr.1)) (List.map (λ t, (t, create_response_model sv t)) args))) as Hin by (rewrite Hf; by left).
      apply filter_In in Hin as [Hin _]. apply in_map_iff in Hin as (t' & [= -> Ht'] & Hin%list_elem_of_In).
      rewrite Forall_forall in IH. eapply fits_union; [done|]. by eapply IH.
    + destruct (ps_wrapper_ok _ _); by simplify_eq.
  - unfold wrapper_model in Hm. destruct (ps_wrapper_ok _ _); by simplify_eq.
Qed.

(** The field [value] of a model that is not the return type itself. *)
Definition value_field rt v : Prop :=
  ∃ c o, create_response_model sv rt = Ok (AsIs c) ∧ (∀ c', rt ≠ TModel c') ∧ instance_of c (PModel o) ∧ ps_value sv o = Some v.

Definition fine rt v : Prop := fits rt v ∨ value_field rt v.
Lemma model_or_not rt : (∃ c, rt = TModel c) ∨ ∀ c, rt ≠ TModel c.
Proof. destruct rt; eauto. Qed.

Lemma validated_fine rt m data s v s' : pydantic_validates → create_response_model sv rt = Ok m →
  validate_response sv data m rt s = (Ok (inr v), s') → fine rt v.
Proof.
  intros [Hcon Hwrap Hroot Hreb] Hm Hv. unfold validate_response in Hv.
  destruct m as [c|c|args|t]; unfold m_bind, out in Hv.
  - destruct (ps_construct sv (AsIs c) data (p_world s)) as [w [f|o]] eqn:Hc; [by simplify_eq/=|]. apply Hcon in Hc.
    destruct (model_or_not rt) as [[c' ->]|Hno].
    + assert (v = PModel o) as -> by (unfold m_ret in Hv; cbn in Hv; congruence). left. eapply created_fits; [exact Hm|exact Hc].
    + assert (v = default (PModel o) (ps_value sv o)) as ->.
      { unfold m_ret in Hv. destruct rt; cbn in Hv; congruence. }
      destruct (ps_value sv o) as [v'|] eqn:Hval; cbn; [right; by exists c, o|left; eapply created_fits; [exact Hm|exact Hc]].
  - destruct (ps_construct sv (PublicOf c) data (p_world s)) as [w [f|o]] eqn:Hc; [by simplify_eq/=|]. cbn in Hv.
    destruct (ps_model_dump sv o) as [f|d]; [by simplify_eq/=|].
    cbn [p_world on_world] in Hv. destruct (ps_original sv c d w) as [w' r] eqn:Ho. assert (r = inr v) as -> by congruence.
    left. eapply created_fits; [exact Hm|]. exact (Hreb _ _ _ _ _ Ho).
  - destruct (ps_root sv args data (p_world s)) as [w r] eqn:Hr. assert (r = inr v) as -> by congruence.
    left. eapply created_fits; [exact Hm|]. exact (Hroot _ _ _ _ _ Hr).
  - destruct (ps_construct sv (ValueWrapper t) data (p_world s)) as [w [f|o]] eqn:Hc; [by simplify_eq/=|].
    apply Hwrap in Hc as (x & Hx & Hfit). assert (v = x) as ->.
    { unfold m_ret in Hv. rewrite Hx in Hv. destruct rt; cbn in Hv; try congruence.
      cbn in Hm. by destruct (mc_hidden _). }
    left. eapply created_fits; [exact Hm|exact Hfit].
Qed.

Lemma tried_fine rt m : pydantic_validates → create_response_model sv rt = Ok m →
  yields (λ r, match r with inr v => fine rt v | inl _ => True end) (try_once sv cf m rt).
Proof.
  intros Hp Hm. unfold try_once. apply yields_bind_any. intros _. apply yields_bind_any. intros [f|response]; [by apply yields_ret|].
  cbn zeta. apply yields_bind_any. intros [f|data]; [by apply yields_ret|].
  apply (yields_bind (λ r, match r with inr v => fine rt v | inl _ => True end)).
  - intros s r Hr. destruct r as [|v]; [done|]. destruct (validate_response sv data m rt s) as [r s'] eqn:Hv. cbn in Hr. subst r.
    by eapply validated_fine.
  - intros [f|v] Hv; [by apply yields_ret|]. destruct (pc_output cf); [by apply yields_ret|].
    apply yields_bind_any. intros [f|u]; by apply yields_ret.
Qed.

Lemma attempts_fine rt m n a failed : pydantic_validates → create_response_model sv rt = Ok m →
  yields (fine rt) (attempt_loop sv cf m rt n a failed).
Proof.
  intros Hp Hm. revert a failed. induction n as [|n IH]; intros a failed; [apply yields_raise|]. cbn [attempt_loop].
  eapply yields_bind; [by apply tried_fine|]. intros [[f raw]|v] Hv; [|by apply yields_ret].
  destruct (correctable_failure f); [|apply yields_raise]. cbn zeta. apply yields_bind_any. intros _. destruct (_ <=? _)%Z.
  - do 3 (apply yields_bind_any; intros ?). apply yields_raise.
  - do 3 (apply yields_bind_any; intros ?). apply IH.
Qed.

(** C24.  The value of a run fits the return type, [Optional] included, except
    that of an [Optional] of a model with a field [value] the field comes
    back in place of the model. *)
Theorem predicted_value_fits c rt s v :
  pydantic_validates → (predict sv cf c (Some rt) s).1 = Ok v → fits rt v ∨ value_field rt v.
Proof.
  intros Hp. assert (yields (fine rt) (predict sv cf c (Some rt))) as Hy; [|apply Hy].
  unfold predict. apply yields_bind_any. intros _.
  apply (yields_bind (λ r, ∀ v, r = Ok v → fine rt v)).
  - intros s0 r Hr v0 ->. unfold settled in Hr. destruct (execute_inner sv cf c (Some rt) s0) as [r s1] eqn:He.
    cbn in Hr. simplify_eq. assert (yields (fine rt) (execute_inner sv cf c (Some rt))) as Hin.
    { unfold execute_inner. apply (yields_bind (λ m, create_response_model sv rt = Ok m)); [by apply yields_lift|].
      intros m Hm. destruct (ps_schema_ok sv m); [|apply yields_raise].
      do 5 (apply yields_bind_any; intros ?). by apply attempts_fine. }
    apply (Hin s0). by rewrite He.
  - intros r Hr. apply yields_bind_any. intros _. by apply yields_lift.
Qed.
End Runs.

(** ** Runs of Predict on concrete services

    A provider that answers from a list of replies, a small JSON reader and a
    small pydantic, for the witnesses of the theorems of [PredictRuns] and for
    runs that show what the code does at its edges. *)

Local Open Scope m_scope.
Local Open Scope nat_scope.

Definition json_error : failure := mk_failure ValueError (lit "JSONDecodeError") (lit "Expecting value") JSONDecodeError.
Definition missing_value : failure :=
  mk_failure ValueError (lit "ValidationError") (lit "1 validation error") (PydanticValidationError [([lit "value"], lit "Field required", lit "missing")]).

(** Digits are numbers; everything else is not JSON. *)
Definition demo_loads (t : text) : outcome pyobj :=
  match digits (unlit t) with Some z => inr (PInt z) | None => inl json_error end.

(** Every model has one field, [value], a number. *)
Definition demo_construct (m : response_model) (data : pyobj) (w : list text) : list text * outcome nat :=
  (w, match m, data with
      | ValueWrapper (TOther _), PDict [(_, PInt z)] | (AsIs _ | PublicOf _), PDict [(_, PInt z)] => inr (Z.to_nat z)
      | _, _ => inl missing_value
      end).

Definition demo_reply (w : list text) : list text * outcome predict_response :=
  match w with
  | [] => ([], inl (mk_failure TimeoutError (lit "TimeoutError") [] AnyException))
  | t :: w' => (w', inr (mk_predict_response None (PText t) None))
  end.

(** The world: the replies to come. *)
Definition demo_predict : predict_services (list text) := {|
  ps_generate _ := demo_reply;
  ps_task_message w := (w, inr (lit "Count."));
  ps_feedback fb w := (w, inr (match fb with JsonParsing e | TypeValidation _ e | PydanticErrors e => e end));
  ps_turn_event _ w := (w, ());
  ps_added _ w := (w, ());
  ps_wrapper_ok _ := true;
  ps_schema_ok _ := true;
  ps_loads := demo_loads;
  ps_word c := false;
  ps_model_dump o := inr (PDict [(value_key, PInt (Z.of_nat o))]);
  ps_model_json o := inr (PDict [(value_key, PInt (Z.of_nat o))]);
  ps_dump_text _ := inr (lit "{}");
  ps_construct := demo_construct;
  ps_root _ data w := (w, match data with PDict _ => inr data | _ => inl missing_value end);
  ps_original _ _ w := (w, inr (PModel 0));
  ps_value o := Some (PInt (Z.of_nat o));
  ps_repr v := match v with PText t => inr (lit "'" ++ t ++ lit "'")%list | _ => inr (lit "...") end;
  ps_str _ := inr (lit "...");
  ps_type_name _ := lit "object";
  ps_type_text _ := lit "int";
  ps_dumps _ := inr (lit "...");
  ps_is_media _ := false;
  ps_media_block v := inr v;
  ps_uuid w := (w, "0a1b2c3d"%string)
|}.

Definition demo_predict_config (retries : Z) (mode : serialization) : predict_config := mk_predict_config retries 1000 (Some 20%Z) mode.

(** [count(self, data)], called with a text. *)
Definition count_call (data : text) : CurrentCall (V := pyobj) :=
  call_of "count" None true (Some [mk_param "self" POSITIONAL_OR_KEYWORD None; mk_param "data" POSITIONAL_OR_KEYWORD None]%string)
    [PText data] None.

Definition replies (l : list string) : pstate (list text) := mk_pstate [] [] [] [] 0 (Some []) 0 (lit <$> l).

Definition run_predict (retries : Z) (mode : serialization) (rt : rtype) (l : list string) : result pyobj * pstate (list text) :=
  predict demo_predict (demo_predict_config retries mode) (count_call (lit "abc")) (Some rt) (replies l).

Definition int_type : rtype := TOther "int".

(** ** Witnesses *)

Lemma demo_feedback_renders : feedback_renders demo_predict.
Proof. intros t w. eauto. Qed.

(** One refused reply, one correction, then the value. *)
Lemma predict_conversation_witness :
  (run_predict 2 AsToolCall int_type ["none"; "5"]%string).1 = Ok (PInt 5) ∧
  ∃ k l, conversation demo_predict (demo_predict_config 2 AsToolCall) k l (Ok (PInt 5)) ∧ k ≤ 2 ∧
    p_asked (run_predict 2 AsToolCall int_type ["none"; "5"]%string).2 = k.
Proof.
  pose proof (predict_conversation demo_predict (demo_predict_config 2 AsToolCall) (count_call (lit "abc")) (Some int_type)
    (replies ["none"; "5"]%string) demo_feedback_renders) as H.
  assert (run_predict 2 AsToolCall int_type ["none"; "5"]%string =
    predict demo_predict (demo_predict_config 2 AsToolCall) (count_call (lit "abc")) (Some int_type) (replies ["none"; "5"]%string)) as Hr by reflexivity.
  destruct (predict _ _ _ _ _) as [r s'] eqn:E. assert (r = Ok (PInt 5)) as -> by (vm_compute in E; congruence).
  rewrite Hr. destruct H as (_ & k & l & Hc & Hk & _ & Ha). split; [reflexivity|]. exists k, l. split; [exact Hc|]. split; [exact Hk|exact Ha].
Defined.

Lemma demo_repr_longer x r : ps_repr demo_predict (PText x) = inr r → (zlen x ≤ zlen r)%Z.
Proof. intros [= <-]. unfold zlen. cbn. rewrite length_app. cbn. lia. Qed.

Lemma param_sizes_within_witness :
  assert_param_sizes demo_predict (demo_predict_config 2 AsEvent) [("data", PText (lit "abc"))]%string = inr ().
Proof.
  apply (param_sizes_within demo_predict (demo_predict_config 2 AsEvent) 20 [("data", PText (lit "abc"))]%string eq_refl demo_repr_longer).
  apply Forall_singleton. exists (lit "'abc'"). split; [reflexivity|]. apply Z.leb_le. reflexivity.
Defined.

Definition demo_instance (c : model_class) (v : pyobj) : Prop := ∃ o, v = PModel o.
Definition demo_dict (args : list rtype) (v : pyobj) : Prop := ∃ d, v = PDict d.
Definition demo_has_type (name : string) (v : pyobj) : Prop := ∃ z, v = PInt z.

Lemma demo_validates : pydantic_validates demo_predict demo_instance demo_dict demo_has_type.
Proof.
  split.
  - intros c data w w' o _. by exists o.
  - intros t data w w' o H. exists (PInt (Z.of_nat o)). split; [done|]. cbn in H. destruct t; simplify_eq. by eexists.
  - intros args data w w' v H. cbn in H. destruct data; simplify_eq. by eexists.
  - intros c data w w' v [= _ <-]. by eexists.
Qed.

Lemma predicted_value_fits_witness :
  fits demo_instance demo_dict demo_has_type int_type (PInt 5).
Proof.
  destruct (predicted_value_fits demo_predict (demo_predict_config 2 AsEvent) demo_instance demo_dict demo_has_type
    (count_call (lit "abc")) int_type (replies ["5"]%string) (PInt 5) demo_validates eq_refl) as [H|H]; [exact H|].
  exfalso. destruct H as (c & o & H & _). vm_compute in H. discriminate H.
Defined.

(** ** At the edges *)

(** [Optional[Point]], where [Point] has a field [value]: the field comes back
    in place of the point. *)
Definition point : model_class := mk_class 0 false.

Example optional_model_loses_the_model :
  (run_predict 1 AsEvent (TModel point) ["5"]%string).1 = Ok (PModel 5) ∧
  (run_predict 1 AsEvent (TUnion [TModel point; TNone]) ["5"]%string).1 = Ok (PInt 5).
Proof. split; reflexivity. Qed.

(** A number where a dict was asked for is accepted, as the dict that wraps
    it. *)
Example number_accepted_as_dict :
  (run_predict 1 AsEvent (TDict []) ["5"]%string).1 = Ok (PDict [(value_key, PInt 5)]).
Proof. reflexivity. Qed.

(** Without attempts the task is recorded and the provider is not called. *)
Example no_attempts_allowed :
  let '(r, s) := run_predict 0 AsEvent int_type ["5"]%string in
  r = Raise GenerationError ∧ p_asked s = 0 ∧ p_events s = [PTask (lit "Count.") []].
Proof. vm_compute. split_and!; reflexivity. Qed.

(** An exception that no correction helps ends the run at once. *)
Example provider_failure_ends :
  let '(r, s) := run_predict 5 AsEvent int_type ["none"]%string in
  r = Raise TimeoutError ∧ p_asked s = 2 ∧ length (p_events s) = 2.
Proof. vm_compute. split_and!; reflexivity. Qed.

(** Every attempt refused: the span has both, and the last one is not answered. *)
Example attempts_exhausted :
  let '(r, s) := run_predict 2 AsEvent int_type ["none"; "nothing"]%string in
  r = Raise GenerationError ∧ p_asked s = 2 ∧ length (p_events s) = 2 ∧
  option_map (dict_get (lit "predict.total_failed_attempts")) (p_span s) = Some (Some (lit "2")).
Proof. vm_compute. split_and!; reflexivity. Qed.

(** An empty reply is read from its reasoning. *)
Example reasoning_is_the_last_resort :
  let '(r, s) := parse_llm_response demo_predict (mk_predict_response None (PText []) (Some (lit "42"))) (replies []) in
  (r, p_fallbacks s) = (Ok (inr (PDict [(value_key, PInt 42)])), 1).
Proof. vm_compute. reflexivity. Qed.

(** What a correction quotes of a reply: both parts, a line each. *)
Example reply_quoted_in_parts :
  extract_raw demo_predict (mk_predict_response None (PText (lit "{")) (Some (lit "hm"))) =
    lit "[CONTENT]: {" ++ newline_text ++ lit "[REASONING]: hm".
Proof. vm_compute. reflexivity. Qed.
