(* ===== verification/Summarizer.v ===== *)
(** * Summarizer: background summaries of the event log

    Models [nooa/agents/summarization.py] over any [EventManager]: the pending
    summary of a summarizer and its application before a turn, the fork of a
    completed request by the token-budget summarizer, and the range that the
    method summarizer chooses.  The code between two awaits is one function.
    What the model replies and what [json.loads] reads are arguments; so is
    [max_tokens] after its automatic update. *)

From S2P Require Import Prelude PyStr PyDict Values Events EventManager.

Open Scope nooa_scope.

(** [_pending_task]: a task that is not [done], or one that is. *)
Inductive pending_task := Unfinished | Finished.

#[export] Instance pending_task_eq_dec : EqDecision pending_task.
Proof. solve_decision. Defined.

(** The first and the last tag of a range; [None] when no event matched. *)
Definition tag_range : Type := option string * option string.

(** The events that a summary is about: their tags with their ids. *)
Definition source : Type := list (string * string).

(** The state of a summarizer.  [sz_hooked]: it intercepts model calls;
    [sz_listening]: it handles [BeforeTurn]. *)
Record summarizer := mk_summarizer {
  sz_task : option pending_task;
  sz_range : option tag_range;
  sz_summary : option string;
  sz_source : option source;
  sz_failed : nat;
  sz_hooked : bool;
  sz_listening : bool;
  sz_warned : bool
}.

Definition new_summarizer : summarizer := mk_summarizer None None None None 0 true true false.

Definition with_pending (t : option pending_task) (s : summarizer) : summarizer :=
  mk_summarizer t (sz_range s) (sz_summary s) (sz_source s) (sz_failed s) (sz_hooked s) (sz_listening s) (sz_warned s).
Definition with_summary (x : option string) (s : summarizer) : summarizer :=
  mk_summarizer (sz_task s) (sz_range s) x (sz_source s) (sz_failed s) (sz_hooked s) (sz_listening s) (sz_warned s).
Definition with_source (x : option source) (s : summarizer) : summarizer :=
  mk_summarizer (sz_task s) (sz_range s) (sz_summary s) x (sz_failed s) (sz_hooked s) (sz_listening s) (sz_warned s).
Definition with_failed (n : nat) (s : summarizer) : summarizer :=
  mk_summarizer (sz_task s) (sz_range s) (sz_summary s) (sz_source s) n (sz_hooked s) (sz_listening s) (sz_warned s).
Definition with_hooked (b : bool) (s : summarizer) : summarizer :=
  mk_summarizer (sz_task s) (sz_range s) (sz_summary s) (sz_source s) (sz_failed s) b (sz_listening s) (sz_warned s).
Definition with_warning (s : summarizer) : summarizer :=
  mk_summarizer (sz_task s) (sz_range s) (sz_summary s) (sz_source s) (sz_failed s) (sz_hooked s) (sz_listening s) true.

(** The pending state after a summary was applied or dropped. *)
Definition cleared (s : summarizer) : summarizer :=
  mk_summarizer None None None (sz_source s) (sz_failed s) (sz_hooked s) (sz_listening s) (sz_warned s).

(** A task started for a range; the token-budget summarizer keeps its source. *)
Definition task_started (r : tag_range) (x : option source) (s : summarizer) : summarizer :=
  mk_summarizer (Some Unfinished) (Some r) (sz_summary s) x (sz_failed s) (sz_hooked s) (sz_listening s) (sz_warned s).

(** [_uninstall]: a running task is cancelled. *)
Definition uninstall (s : summarizer) : summarizer :=
  mk_summarizer (if decide (sz_task s = Some Unfinished) then None else sz_task s) (sz_range s) (sz_summary s) (sz_source s)
    (sz_failed s) false false (sz_warned s).

(** [aclose]. *)
Definition aclose (s : summarizer) : summarizer := cleared (uninstall s).

(** *** Replies of a fork *)

Record fork_call := mk_fork_call { fc_name : string; fc_arguments : string }.
Record fork_reply := mk_fork_reply { fr_content : pyval; fr_calls : list fork_call; fr_finish : string }.

(** How [_run_fork] ends its [try]: a response (or none), an exception, or a
    cancellation. *)
Inductive fork_end := Replied (r : option fork_reply) | ForkRaised (e : exc) | ForkCancelled.

(** What the summarizer reads of a completed request: the input tokens of its
    usage, whether its history was filtered, whether it has a client and could
    be copied, and [max_tokens]. *)
Record completed := mk_completed {
  cp_usage : option Z;
  cp_filtered : bool;
  cp_client : bool;
  cp_copied : bool;
  cp_max_tokens : Z
}.

(** [MethodSummarizerConfig] and what is read of an [AfterTurn] event. *)
Record method_config := mk_method_config { mc_min_events : Z; mc_exclude_root : bool }.
Record ended_turn := mk_ended_turn { tu_final : bool; tu_number : Z; tu_call_id : option string }.

Section Summarizers.
Context {B : Type} `{EventBackend B}.
Variable call : hid → oid → manager B → manager B * houtcome.
Variable loads : string → result pyval.

(** ** Ranges and sources *)

Definition event_id (o : oid) (m : manager B) : result string :=
  match be_deref (em_backend m) o with Some e => Ok (ev_id e) | None => Raise OtherError end.

(** [_get_events_in_range]. *)
Fixpoint events_in (in_range : bool) (r : tag_range) (tags : list string) (m : manager B) : result (list (string * oid)) :=
  match tags with
  | [] => Ok []
  | t :: ts =>
      let in_range := (in_range || bool_decide (r.1 = Some t))%bool in
      let! here := if in_range then let! o := getitem t m in Ok [(t, o)] else Ok [] in
      if bool_decide (r.2 = Some t) then Ok here
      else let! rest := events_in in_range r ts m in Ok (here ++ rest)
  end.
Definition get_events_in_range (r : tag_range) (m : manager B) : result (list (string * oid)) := events_in false r (keys m) m.

(** [(tag, event.id)] of each. *)
Fixpoint with_ids (l : list (string * oid)) (m : manager B) : result source :=
  match l with
  | [] => Ok []
  | (t, o) :: l' => let! i := event_id o m in let! rest := with_ids l' m in Ok ((t, i) :: rest)
  end.

(** [tags[:-preserve_recent]], all of them for 0. *)
Definition selected_tags (preserve_recent : Z) (tags : list string) : list string :=
  if (preserve_recent =? 0)%Z then tags else py_slice_to (- preserve_recent) tags.

Fixpoint source_of (tags : list string) (m : manager B) : result source :=
  match tags with
  | [] => Ok []
  | t :: ts => let! o := getitem t m in let! i := event_id o m in let! rest := source_of ts m in Ok ((t, i) :: rest)
  end.

(** ** The pending summary *)

Definition collapse_range (new_id : string) (r : tag_range) (text : string) (m : manager B) : result (string * list hid * manager B) :=
  match r with
  | (Some st, Some et) => collapse call new_id st et (Some text) m
  | _ => Raise TypeError
  end.

(** [_apply_pending_summary]: an exception of [collapse] is logged, one that
    is no [Exception] leaves it. *)
Definition apply_pending_summary (new_id : string) (m : manager B) (s : summarizer) : result (manager B * summarizer) :=
  match sz_task s with
  | Some Finished =>
      match sz_summary s, sz_range s with
      | Some text, Some r =>
          match collapse_range new_id r text m with
          | Ok (_, _, m') => Ok (m', cleared s)
          | Raise OtherError => Raise OtherError
          | Raise _ => Ok (m, cleared s)
          end
      | _, _ => Ok (m, cleared s)
      end
  | _ => Ok (m, s)
  end.

(** The one of [TokenBudgetSummarizer]: a summary of events that are no longer
    the same is dropped. *)
Definition apply_budget_summary (new_id : string) (m : manager B) (s : summarizer) : result (manager B * summarizer) :=
  match sz_task s with
  | Some Finished =>
      let! s1 :=
        match sz_source s, sz_range s with
        | Some ((_ :: _) as src), Some r =>
            let! evs := get_events_in_range r m in
            let! current := with_ids evs m in
            Ok (if decide (current = src) then s else with_summary None s)
        | _, _ => Ok s
        end in
      apply_pending_summary new_id m (with_source None s1)
  | _ => apply_pending_summary new_id m s
  end.

(** ** The token-budget summarizer *)

(** [_fork_after_call] before the request: the source, unless the call only
    passes through. *)
Definition fork_begin (in_fork : bool) (preserve_recent : Z) (m : manager B) (s : summarizer) : result (option source) :=
  if (in_fork || bool_decide (sz_task s ≠ None))%bool then Ok None
  else let! src := source_of (selected_tags preserve_recent (keys m)) m in Ok (Some src).

Definition range_of (src : source) : tag_range := (fst <$> head src, fst <$> last src).

(** [_fork_after_call] after the request, up to the task. *)
Definition fork_after (src : source) (c : completed) (s : summarizer) : summarizer :=
  match sz_task s, src, cp_usage c with
  | None, _ :: _, Some input_tokens =>
      if (input_tokens <=? cp_max_tokens c)%Z then s
      else if cp_filtered c then with_warning s
      else if (cp_client c && cp_copied c)%bool then task_started (range_of src) (Some src) s
      else s
  | _, _, _ => s
  end.

(** The text of a reply that is a summary. *)
Definition summary_text (r : fork_reply) : result string :=
  let! text :=
    match fr_calls r with
    | [] => Ok (fr_content r)
    | [c] =>
        if String.eqb (fc_name c) "return_result" then
          let! args := loads (fc_arguments c) in
          match args with VDict d => Ok (default VNone (dict_get "result"%string d)) | _ => Raise AttributeError end
        else Raise ValueError
    | _ => Raise ValueError
    end in
  match text with
  | VStr t =>
      if String.eqb (strip t) "" then Raise ValueError
      else if (String.eqb (fr_finish r) "length" || String.eqb (fr_finish r) "error")%bool then Raise ValueError
      else Ok t
  | _ => Raise ValueError
  end.

Definition fork_failed (s : summarizer) : summarizer :=
  let s := with_failed (S (sz_failed s)) (with_summary None s) in
  if 2 <=? sz_failed s then with_hooked false s else s.

(** The task ends; [_uninstall] no longer holds the one that it cancelled. *)
Definition task_done (s : summarizer) : summarizer :=
  match sz_task s with Some _ => with_pending (Some Finished) s | None => s end.

(** [_run_fork] after its dispatch. *)
Definition run_fork (e : fork_end) (s : summarizer) : summarizer :=
  task_done
    match e with
    | Replied (Some r) =>
        match summary_text r with
        | Ok text => with_failed 0 (with_summary (Some text) s)
        | Raise _ => fork_failed s
        end
    | Replied None | ForkRaised _ => fork_failed s
    | ForkCancelled => s
    end.

(** ** The method summarizer *)

(** [_is_root_call] and [_should_summarize]. *)
Definition is_root_call (t : ended_turn) : bool := ((tu_number t =? 1)%Z && tu_final t)%bool.
Definition should_summarize (cf : method_config) (t : ended_turn) : bool :=
  if negb (tu_final t) then false
  else if (mc_exclude_root cf && is_root_call t)%bool then false
  else true.

(** [_compute_range]: the first and the last active event of the call. *)
Fixpoint call_tags (call_id : string) (tags : list string) (m : manager B) : result (list string) :=
  match tags with
  | [] => Ok []
  | t :: ts =>
      let! o := getitem t m in
      let! rest := call_tags call_id ts m in
      match be_deref (em_backend m) o with
      | Some e => Ok (if got_eq_str (dict_get "call_id"%string (ev_metadata e)) (Some call_id) then t :: rest else rest)
      | None => Raise OtherError
      end
  end.

Definition compute_range (cf : method_config) (t : ended_turn) (m : manager B) : result (option tag_range) :=
  match tu_call_id t with
  | None => Ok None
  | Some call_id =>
      let! tags := call_tags call_id (keys m) m in
      Ok (if (Z.of_nat (length tags) <? mc_min_events cf)%Z then None else Some (head tags, last tags))
  end.

(** [_handle_after_turn]. *)
Definition handle_after_turn (cf : method_config) (t : ended_turn) (m : manager B) (s : summarizer) : result summarizer :=
  match sz_task s with
  | Some _ => Ok s
  | None =>
      if should_summarize cf t then
        let! r := compute_range cf t m in
        Ok (match r with Some r => task_started r (sz_source s) s | None => s end)
      else Ok s
  end.

(** [_run_summarization] after [summarize]. *)
Definition run_summarization (r : result string) (s : summarizer) : summarizer :=
  task_done
    match r with
    | Ok text => with_summary (Some text) s
    | Raise CancelledError => s
    | Raise _ => with_summary None s
    end.
End Summarizers.
