(* ===== verification/SummarizerRuns.v ===== *)
(** * SummarizerRuns: what a background summary replaces

    Runs of an event manager with a token-budget summarizer, in which the
    application changes the log between the steps of any number of model
    calls.  A summary that is applied replaces exactly the events that its
    call was given: the same tags, one block, and the same event ids.
    Then concrete logs, with the witnesses. *)

From S2P Require Import Prelude PyStr PyDict Values Events EventBackend EventManager EventLog EventRuns Summarizer.

Open Scope nooa_scope.

(** ** Collapsing a block that is named by its first and last tag *)

Lemma tags_to_collapse_app lo hi l1 l2 a b :
  tags_to_collapse lo hi l1 = Ok a → tags_to_collapse lo hi l2 = Ok b →
  tags_to_collapse lo hi (l1 ++ l2) = Ok (a ++ b).
Proof.
  revert a. induction l1 as [|t l1 IH]; intros a; csimpl; [by intros [= <-]|].
  destruct (parse_tag_start t); simpl; [|done]. destruct (parse_tag_end t); simpl; [|done].
  destruct (tags_to_collapse lo hi l1) as [r|]; simpl; [|done].
  intros [= <-] H2. rewrite (IH r eq_refl H2). simpl. by case_match.
Qed.

Lemma tags_to_collapse_none lo hi l :
  Forall (λ t, ∃ s e, tag_span t = Some (s, e) ∧ (e < lo ∨ hi < s)%Z) l → tags_to_collapse lo hi l = Ok [].
Proof.
  induction 1 as [|t l (s & e & Hspan & Hout) _ IH]; simpl; [done|].
  destruct (tag_span_Some _ _ _ Hspan) as [-> ->]. rewrite IH. simpl.
  destruct (Z.leb_spec s hi), (Z.leb_spec lo e); simpl; (done || lia).
Qed.

Lemma tags_to_collapse_all lo hi l :
  Forall (λ t, ∃ s e, tag_span t = Some (s, e) ∧ (s ≤ hi ∧ lo ≤ e)%Z) l → tags_to_collapse lo hi l = Ok l.
Proof.
  induction 1 as [|t l (s & e & Hspan & Hs & He) _ IH]; simpl; [done|].
  destruct (tag_span_Some _ _ _ Hspan) as [-> ->]. rewrite IH. simpl.
  destruct (Z.leb_spec s hi), (Z.leb_spec lo e); simpl; (done || lia).
Qed.

Lemma last_end_last lo l t s e :
  last l = Some t → tag_span t = Some (s, e) → last_end lo l = e.
Proof.
  intros Hl Hs. apply last_Some in Hl as [l' ->]. rewrite last_end_app.
  unfold last_end at 1. simpl. by rewrite Hs.
Qed.

(** The range from the first to the last tag of a block selects the block. *)
Lemma block_selected lo pre mid post first lst a e b z :
  ordered lo (pre ++ mid ++ post) → head mid = Some first → last mid = Some lst →
  tag_span first = Some (a, e) → tag_span lst = Some (b, z) →
  tags_to_collapse a z (pre ++ mid ++ post) = Ok mid.
Proof.
  intros Ho Hh Hl Hf Hz. apply ordered_app in Ho as [Hpre Ho]. apply ordered_app in Ho as [Hmid Hpost].
  rewrite (last_end_last _ _ _ _ _ Hl Hz) in Hpost.
  assert (Hlow : ∀ t, t ∈ mid → ∃ s e, tag_span t = Some (s, e) ∧ (a ≤ e ∧ s ≤ z)%Z).
  { intros t Hin. destruct mid as [|f mid]; [done|]. injection Hh as ->.
    inversion Hmid as [|? ? ? ? ? Hspan' Hlo Hse Hmid']; simplify_eq.
    destruct (ordered_elem _ _ _ Hmid Hin) as (s & e' & Hs & _ & Hle & Hend).
    rewrite (last_end_last _ _ _ _ _ Hl Hz) in Hend. exists s, e'. split; [done|]. split; [|lia].
    apply elem_of_cons in Hin as [->|Hin]; [simplify_eq; lia|].
    destruct (ordered_elem _ _ _ Hmid' Hin) as (s2 & e2 & Hs2 & ? & ? & _). simplify_eq. lia. }
  assert (Ha : (last_end lo pre < a)%Z).
  { destruct mid as [|f mid]; [done|]. injection Hh as ->.
    inversion Hmid as [|? ? ? ? ? Hspan' Hlo Hse Hmid']; simplify_eq. lia. }
  change mid with ([] ++ mid) at 2. rewrite <- (app_nil_r mid) at 2.
  apply tags_to_collapse_app; [|apply tags_to_collapse_app].
  - apply tags_to_collapse_none, Forall_forall. intros t Hin.
    destruct (ordered_elem _ _ _ Hpre Hin) as (s & e' & ? & _ & ? & ?). exists s, e'. split; [done|lia].
  - apply tags_to_collapse_all, Forall_forall. intros t Hin.
    destruct (Hlow t Hin) as (s & e' & ? & ? & ?). exists s, e'. split; [done|lia].
  - apply tags_to_collapse_none, Forall_forall. intros t Hin.
    destruct (ordered_elem _ _ _ Hpost Hin) as (s & e' & ? & ? & ? & _). exists s, e'. split; [done|lia].
Qed.

Section Reading.
Context {B : Type} `{EventBackendLaws B}.

Definition tags_of (src : source) : list string := src.*1.

(** ** Reading the range of a source *)

Lemma events_in_prefix r tags (m : manager B) evs :
  events_in true r tags m = Ok evs → ∃ post, tags = evs.*1 ++ post.
Proof.
  revert evs. induction tags as [|t tags IH]; intros evs; csimpl; [intros [= <-]; by exists []|].
  destruct (getitem t m) as [o|]; simpl; [|done]. case_bool_decide; [intros [= <-]; by exists tags|].
  destruct (events_in true r tags m) as [l|]; simpl; [|done]. intros [= <-].
  destruct (IH _ eq_refl) as [post ->]. by exists post.
Qed.

Lemma events_in_block r tags (m : manager B) evs :
  events_in false r tags m = Ok evs → ∃ pre post, tags = pre ++ evs.*1 ++ post.
Proof.
  revert evs. induction tags as [|t tags IH]; intros evs; csimpl; [intros [= <-]; by exists [], []|].
  case_bool_decide as Hst; simpl.
  - destruct (getitem t m) as [o|]; simpl; [|done]. case_bool_decide; [intros [= <-]; by exists [], tags|].
    destruct (events_in true r tags m) as [l|] eqn:Hl; simpl; [|done]. intros [= <-].
    destruct (events_in_prefix _ _ _ _ Hl) as [post ->]. by exists [], post.
  - case_bool_decide; [intros [= <-]; by exists [], (t :: tags)|].
    destruct (events_in false r tags m) as [l|]; simpl; [|done]. intros [= <-].
    destruct (IH _ eq_refl) as (pre & post & ->). by exists (t :: pre), post.
Qed.

Lemma events_in_items b r tags (m : manager B) evs :
  events_in b r tags m = Ok evs → Forall (λ p, getitem p.1 m = Ok p.2) evs.
Proof.
  revert b evs. induction tags as [|t tags IH]; intros b evs; csimpl; [by intros [= <-]|].
  set (b' := (b || _)%bool). destruct b'.
  - destruct (getitem t m) as [o|] eqn:Ho; simpl; [|done]. case_bool_decide; [intros [= <-]; by repeat constructor|].
    destruct (events_in true r tags m) as [l|] eqn:Hl; simpl; [|done]. intros [= <-].
    constructor; [done|by eapply IH].
  - simpl. case_bool_decide; [by intros [= <-]|].
    destruct (events_in false r tags m) as [l|] eqn:Hl; simpl; [|done]. intros [= <-]. by eapply IH.
Qed.

(** The ids that the range is read with are those of its tags. *)
Lemma with_ids_source evs (m : manager B) :
  Forall (λ p, getitem p.1 m = Ok p.2) evs → with_ids evs m = source_of evs.*1 m.
Proof.
  induction 1 as [|[t o] evs Ho _ IH]; csimpl; [done|]. simpl in Ho. by rewrite Ho, IH.
Qed.

Lemma source_of_tags tags (m : manager B) src : source_of tags m = Ok src → tags_of src = tags.
Proof.
  revert src. induction tags as [|t tags IH]; intros src; simpl; [by intros [= <-]|].
  destruct (getitem t m); simpl; [|done]. destruct (event_id _ m); simpl; [|done].
  destruct (source_of tags m) as [l|]; simpl; [|done]. intros [= <-]. csimpl. by rewrite (IH l).
Qed.

Lemma events_in_skip a z pre tags (m : manager B) :
  a ∉ pre → z ∉ pre → events_in false (Some a, Some z) (pre ++ tags) m = events_in false (Some a, Some z) tags m.
Proof.
  intros Ha Hz. induction pre as [|t pre IH]; [done|]. csimpl.
  rewrite !bool_decide_false by set_solver. simpl. rewrite IH by set_solver.
  by destruct (events_in false (Some a, Some z) tags m).
Qed.

Lemma events_in_upto a z mid post (m : manager B) src :
  z ∉ mid → source_of (mid ++ [z]) m = Ok src →
  ∃ evs, events_in true (a, Some z) (mid ++ z :: post) m = Ok evs ∧ with_ids evs m = Ok src.
Proof.
  revert src. induction mid as [|t mid IH]; intros src Hz; csimpl.
  - destruct (getitem z m) as [o|]; simpl; [|done]. destruct (event_id o m) as [i|] eqn:Hi; simpl; [|done].
    intros [= <-]. rewrite bool_decide_true by done. eexists. split; [done|]. simpl. by rewrite Hi.
  - destruct (getitem t m) as [o|]; simpl; [|done]. destruct (event_id o m) as [i|] eqn:Hi; simpl; [|done].
    destruct (source_of (mid ++ [z]) m) as [l|]; simpl; [|done]. intros [= <-].
    destruct (IH l ltac:(set_solver) eq_refl) as (evs & Hevs & Hids).
    rewrite bool_decide_false by set_solver. rewrite Hevs. simpl. eexists. split; [done|]. simpl. by rewrite Hi, Hids.
Qed.

Lemma range_read pre post src (m : manager B) :
  NoDup (keys m) → keys m = pre ++ tags_of src ++ post → src ≠ [] → source_of (tags_of src) m = Ok src →
  ∃ evs, get_events_in_range (range_of src) m = Ok evs ∧ with_ids evs m = Ok src.
Proof.
  intros Hnd Hk Hne Hsrc. unfold get_events_in_range. rewrite Hk in *. clear Hk.
  destruct src as [|[a i] src]; [done|]. clear Hne.
  set (full := (a, i) :: src) in *. assert (Hr : range_of full = (Some a, last (tags_of full))).
  { unfold range_of, tags_of. rewrite fmap_last. done. }
  destruct (last (tags_of full)) as [z|] eqn:Hz; [|by apply last_None in Hz].
  apply last_Some in Hz as [mid Hmid]. rewrite Hr.
  apply NoDup_app in Hnd as (_ & Hd & Hnd). apply NoDup_app in Hnd as (Hnd & _ & _).
  rewrite events_in_skip.
  - rewrite Hmid in Hnd, Hsrc |- *. rewrite <- app_assoc. simpl.
    assert (Hstart : events_in false (Some a, Some z) (mid ++ z :: post) m =
                     events_in true (Some a, Some z) (mid ++ z :: post) m).
    { unfold full, tags_of in Hmid. csimpl in Hmid. destruct mid as [|t mid]; simplify_eq/=;
        by rewrite bool_decide_true by done. }
    rewrite Hstart. apply events_in_upto; [|done]. apply NoDup_app in Hnd as (_ & Hd' & _).
    intros Hin. apply (Hd' z Hin). set_solver.
  - intros Hin. apply (Hd a Hin). apply elem_of_app. left. unfold full, tags_of. csimpl. set_solver.
  - intros Hin. apply (Hd z Hin). rewrite Hmid. set_solver.
Qed.
Lemma good_keys_NoDup (m : manager B) : good m → NoDup (keys m).
Proof.
  intros [_ Hinv]. unfold keys. rewrite active_tags_view. eapply ordered_NoDup, li_ordered, Hinv.
Qed.

(** ** The range of a method call *)

(** The active event under [t] belongs to the call. *)
Definition in_call (call_id : string) (m : manager B) (t : string) : Prop :=
  ∃ o e, getitem t m = Ok o ∧ be_deref (em_backend m) o = Some e ∧
    got_eq_str (dict_get "call_id"%string (ev_metadata e)) (Some call_id) = true.

Lemma call_tags_cons c t ts (m : manager B) l :
  call_tags c (t :: ts) m = Ok l →
  ∃ rest, call_tags c ts m = Ok rest ∧ (in_call c m t ∧ l = t :: rest ∨ ¬ in_call c m t ∧ l = rest).
Proof.
  simpl. destruct (getitem t m) as [o|] eqn:Ho; simpl; [|done].
  destruct (call_tags c ts m) as [rest|]; simpl; [|done].
  destruct (be_deref (em_backend m) o) as [e|] eqn:He; [|done].
  destruct (got_eq_str _ _) eqn:Hg; intros [= <-]; exists rest; (split; [done|]).
  - left. split; [by exists o, e|done].
  - right. split; [|done]. intros (o' & e' & Ho' & He' & Hg'). congruence.
Qed.

Lemma call_tags_elem c ts (m : manager B) l t :
  call_tags c ts m = Ok l → t ∈ l ↔ t ∈ ts ∧ in_call c m t.
Proof.
  revert l. induction ts as [|t' ts IH]; intros l.
  - intros [= <-]. set_solver.
  - intros Hl. destruct (call_tags_cons _ _ _ _ _ Hl) as (rest & Hr & [[Hin ->]|[Hin ->]]);
      rewrite ?elem_of_cons, (IH _ Hr); naive_solver.
Qed.

Lemma call_in_upto c a z ts (m : manager B) l evs :
  NoDup ts → call_tags c ts m = Ok l → last l = Some z → events_in true (a, Some z) ts m = Ok evs →
  l ⊆ evs.*1.
Proof.
  revert l evs. induction ts as [|t ts IH]; intros l evs Hnd Hl Hz He; [by injection Hl as <-|].
  apply NoDup_cons in Hnd as [Hn Hnd]. destruct (call_tags_cons _ _ _ _ _ Hl) as (rest & Hr & Hcase).
  csimpl in He. destruct (getitem t m) as [o|]; simpl in He; [|done]. case_bool_decide as Htz; simplify_eq.
  - assert (rest = []) as ->.
    { destruct (last rest) as [z|] eqn:Hlr; [|by apply last_None in Hlr]. exfalso. apply Hn.
      assert (Hzl : last l = Some z) by (destruct Hcase as [[_ ->]|[_ ->]]; [by rewrite last_cons, Hlr|done]).
      assert (Hzr : z ∈ rest) by (apply last_Some in Hlr as [? ->]; set_solver).
      simplify_eq. by apply (call_tags_elem _ _ _ _ _ Hr) in Hzr as [? _]. }
    destruct Hcase as [[_ ->]|[_ ->]]; set_solver.
  - destruct (events_in true (a, Some z) ts m) as [evs'|] eqn:He'; simpl in He; [|done]. injection He as <-.
    destruct Hcase as [[_ ->]|[_ ->]].
    + rewrite last_cons in Hz. destruct (last rest) as [z'|] eqn:Hlr; [|by simplify_eq].
      pose proof (IH rest evs' Hnd Hr ltac:(congruence) eq_refl). csimpl. set_solver.
    + pose proof (IH rest evs' Hnd Hr Hz eq_refl). csimpl. set_solver.
Qed.

Lemma call_in_range c a z ts (m : manager B) l evs :
  NoDup ts → call_tags c ts m = Ok l → head l = Some a → last l = Some z →
  events_in false (Some a, Some z) ts m = Ok evs → l ⊆ evs.*1.
Proof.
  revert evs. induction ts as [|t ts IH]; intros evs Hnd Hl Hh Hz He; [by injection Hl as <-|].
  pose proof Hnd as [Hn Hnd']%NoDup_cons. destruct (call_tags_cons _ _ _ _ _ Hl) as (rest & Hr & [[Hin ->]|[Hin ->]]).
  - injection Hh as <-. eapply (call_in_upto c (Some t) z (t :: ts)); [done..|].
    revert He. csimpl. by rewrite bool_decide_true by done.
  - assert (Ha : a ≠ t ∧ z ≠ t).
    { split; intros ->; apply Hin.
      - destruct rest; [done|]. injection Hh as ->. apply (call_tags_elem _ _ _ _ t Hr). set_solver.
      - apply last_Some in Hz as [? ->]. apply (call_tags_elem _ _ _ _ t Hr). set_solver. }
    csimpl in He. rewrite !bool_decide_false in He by naive_solver. simpl in He.
    apply IH; [done..|]. by destruct (events_in _ _ ts m).
Qed.

(** The range of a finished method call takes in every active event of the
    call, with whatever lies between them. *)
Theorem method_range_covers cf tu c r (m : manager B) evs t :
  good m → tu_call_id tu = Some c → compute_range cf tu m = Ok (Some r) → (0 < mc_min_events cf)%Z →
  get_events_in_range r m = Ok evs →
  (t ∈ keys m ∧ in_call c m t → t ∈ evs.*1) ∧ (∃ pre post, keys m = pre ++ evs.*1 ++ post).
Proof.
  intros Hg Hc Hr Hmin He. split; [|exact (events_in_block _ _ _ _ He)]. intros Hin.
  unfold compute_range in Hr. rewrite Hc in Hr.
  destruct (call_tags c (keys m) m) as [l|] eqn:Hl; [|done]. cbn [result_bind] in Hr.
  destruct (Z.ltb_spec (Z.of_nat (length l)) (mc_min_events cf)); [done|]. injection Hr as <-.
  destruct l as [|a l0]; [simpl in *; lia|]. set (l := a :: l0) in *.
  destruct (last l) as [z|] eqn:Hz; [|by apply last_None in Hz].
  apply (call_in_range c a z (keys m) m l evs); [by apply good_keys_NoDup|done|done|done|done|].
  by apply (call_tags_elem _ _ _ _ _ Hl).
Qed.
End Reading.

Section SummarizerRuns.
Context {B : Type} `{EventBackendLaws B}.
Variable call : hid → oid → manager B → manager B * houtcome.
Variable loads : string → result pyval.

(** What [collapse] leaves when the block is replaced by a summary. *)
Definition block_replaced (id text : string) (pre mid post : list string) (m m' : manager B) : Prop :=
  ∃ a z o, keys m' = pre ++ range_tag a z :: post ∧ all_events m' = all_events m ++ [o] ∧
    be_get (range_tag a z) (em_backend m') = Some o ∧
    be_deref (em_backend m') o = Some (new_summary id a z mid (Some text)).

Lemma collapse_block id first lst text pre mid post (m : manager B) :
  observing call → good m → keys m = pre ++ mid ++ post → head mid = Some first → last mid = Some lst →
  collapse call id first lst (Some text) m = Raise OtherError ∨
  ∃ tag called m', collapse call id first lst (Some text) m = Ok (tag, called, m') ∧
    block_replaced id text pre mid post m m'.
Proof.
  intros Hobs [Hwf Hinv] Hk Hh Hl. pose proof (li_ordered _ Hinv) as Ho.
  unfold keys in Hk. rewrite active_tags_view in Hk. unfold mview in Ho. rewrite Hk in Ho.
  assert (Hf : first ∈ pre ++ mid ++ post) by (rewrite !elem_of_app; right; left; destruct mid; set_solver).
  assert (Hz : lst ∈ pre ++ mid ++ post).
  { rewrite !elem_of_app. right; left. apply last_Some in Hl as [? ->]. set_solver. }
  destruct (ordered_elem _ _ _ Ho Hf) as (a & e & Hfs & _), (ordered_elem _ _ _ Ho Hz) as (b & z & Hzs & _).
  pose proof (block_selected _ _ _ _ _ _ _ _ _ _ Ho Hh Hl Hfs Hzs) as Hsel.
  destruct (tag_span_Some _ _ _ Hfs) as [Hps _], (tag_span_Some _ _ _ Hzs) as [_ Hpe].
  destruct (replace_block_spec id (em_backend m) 0 pre first mid post (Some text) a e) as (_ & _ & b' & Hrep & Hwf' & Hv);
    [done..|].
  unfold collapse, collapse_backend. rewrite Hps, Hpe. cbn [result_bind]. rewrite active_tags_view, Hk, Hsel.
  cbn [result_bind].
  destruct mid as [|f mid'] eqn:Hmid; [done|]. rewrite <- Hmid in *.
  assert (f = first) as -> by (subst; naive_solver). rewrite Hrep. cbn [result_bind].
  destruct (emit call "Summary" _ _) as [[called m'] esc] eqn:Hem.
  pose proof (emit_backend' _ _ _ _ _ _ _ Hobs Hem) as Hb. simpl in Hb.
  destruct esc; [by left|right]. eexists _, called, m'. split; [done|].
  destruct (view_archive_all_fields mid (be_view (em_backend m))) as (_ & _ & _ & Hlen & _).
  eexists a, _, _. unfold keys, all_events. rewrite Hb, !active_tags_view, !all_events_view, get_view, deref_view, Hv.
  unfold collapsed_view. cbn [v_active v_log v_tags v_heap]. split_and!; [done|done|apply lookup_insert_eq|].
  rewrite lookup_app_r by lia. by rewrite Hlen, Nat.sub_diag.
Qed.
(** ** Applying a pending summary *)

(** The source is in the log as it was read: one block of active tags, under
    which the same events are found. *)
Definition current (src : source) (m : manager B) (pre post : list string) : Prop :=
  keys m = pre ++ tags_of src ++ post ∧ source_of (tags_of src) m = Ok src.

(** A finished task of the token-budget summarizer keeps what it read. *)
Definition task_source (s : summarizer) : Prop :=
  match sz_task s with
  | Some _ => ∃ src, src ≠ [] ∧ sz_source s = Some src ∧ sz_range s = Some (range_of src)
  | None => sz_summary s = None
  end.

Lemma range_of_ends src :
  src ≠ [] → ∃ a z, range_of src = (Some a, Some z) ∧ head (tags_of src) = Some a ∧ last (tags_of src) = Some z.
Proof.
  destruct src as [|[a i] src]; [done|]. intros _. unfold range_of, tags_of. rewrite fmap_last.
  destruct (last (((a, i) :: src).*1)) as [z|] eqn:Hz; [|by apply last_None in Hz].
  exists a, z. by rewrite <- fmap_last, Hz.
Qed.

(** A finished summary is applied when its source is current, and dropped
    otherwise; then nothing is pending. *)
Lemma apply_budget_spec id (m : manager B) s m' s' :
  observing call → good m → task_source s → apply_budget_summary call id m s = Ok (m', s') →
  sz_task s = Some Finished →
  task_source s' ∧ sz_task s' = None ∧ good m' ∧
  (m' = m ∧ (∀ src text pre post, sz_source s = Some src → sz_summary s = Some text → ¬ current src m pre post) ∨
   ∃ src text pre post, sz_source s = Some src ∧ sz_summary s = Some text ∧ current src m pre post ∧
     block_replaced id text pre (tags_of src) post m m').
Proof.
  intros Hobs Hg Hts Happ Htask. unfold task_source in Hts. rewrite Htask in Hts.
  destruct Hts as (src & Hne & Hsrc & Hr). pose proof (good_keys_NoDup m Hg) as Hnd.
  destruct (range_of_ends src Hne) as (a & z & Hends & Hhd & Hlst).
  unfold apply_budget_summary in Happ. rewrite Htask, Hsrc, Hr in Happ.
  destruct src as [|p src0] eqn:Hs; [done|]. cbn beta iota in Happ. rewrite <- Hs in *. clear Hne p src0 Hs.
  destruct (get_events_in_range (range_of src) m) as [evs|] eqn:Hevs; [|done]. cbn [result_bind] in Happ.
  destruct (with_ids evs m) as [cur|] eqn:Hcur; [|done]. cbn [result_bind] in Happ.
  assert (Hread : ∀ pre post, current src m pre post → cur = src).
  { intros pre post [Hk Hso]. assert (Hne : src ≠ []) by (by destruct src).
    destruct (range_read pre post src m Hnd Hk Hne Hso) as (evs' & Hevs' & Hids). congruence. }
  unfold apply_pending_summary, with_source, with_summary in Happ.
  destruct (decide (cur = src)) as [->|Hdiff]; cbn [sz_task sz_summary sz_range] in Happ; rewrite Htask in Happ.
  2:{ injection Happ as <- <-. split_and!; [done..|]. left. split; [done|].
      intros src' text pre post Hs' _ Hc. simplify_eq. by apply Hdiff, (Hread pre post). }
  rewrite Hr in Happ. destruct (sz_summary s) as [text|] eqn:Hsum.
  2:{ injection Happ as <- <-. split_and!; [done..|]. by left. }
  assert (Hcurr : ∃ pre post, current src m pre post).
  { unfold get_events_in_range in Hevs. destruct (events_in_block _ _ _ _ Hevs) as (pre & post & Hk).
    rewrite (with_ids_source evs m) in Hcur by (by eapply events_in_items).
    pose proof (source_of_tags _ _ _ Hcur) as Ht. exists pre, post. split; by rewrite Ht. }
  destruct Hcurr as (pre & post & Hc). pose proof Hc as [Hk _].
  unfold collapse_range in Happ. rewrite Hends in Happ.
  destruct (collapse_block id a z text pre (tags_of src) post m Hobs Hg Hk Hhd Hlst)
    as [He|(tag & called & m1 & He & Hb)]; rewrite He in Happ; [done|].
  injection Happ as <- <-. split_and!; [done..| |right; by exists src, text, pre, post].
  eapply op_step_good; [done|done|by eapply step_collapse].
Qed.

Lemma apply_budget_unfinished id (m : manager B) s :
  sz_task s ≠ Some Finished → apply_budget_summary call id m s = Ok (m, s).
Proof. unfold apply_budget_summary, apply_pending_summary. by destruct (sz_task s) as [[]|]. Qed.

(** ** Runs *)

(** The manager with its summarizer and the sources of the model calls that
    have begun and not returned. *)
Record sz_state := mk_sz_state { st_manager : manager B; st_summarizer : summarizer; st_open : list source }.

Inductive sz_label :=
  | SzEvent (op : mop)
  | SzBegin
  | SzReturn (c : completed)
  | SzEnd (e : fork_end)
  | SzBefore (id : string)
  | SzUninstall
  | SzClosed.

Variable preserve_recent : Z.

Inductive sz_step : sz_state → sz_label → sz_state → Prop :=
  | step_event m s l op m' : op_step call m op m' → sz_step (mk_sz_state m s l) (SzEvent op) (mk_sz_state m' s l)
  | step_begin m s l src :
      sz_hooked s = true → fork_begin false preserve_recent m s = Ok (Some src) →
      sz_step (mk_sz_state m s l) SzBegin (mk_sz_state m s (src :: l))
  | step_return m s l1 src l2 c :
      sz_step (mk_sz_state m s (l1 ++ src :: l2)) (SzReturn c) (mk_sz_state m (fork_after src c s) (l1 ++ l2))
  | step_end m s l e :
      sz_task s = Some Unfinished ∨ sz_listening s = false →
      sz_step (mk_sz_state m s l) (SzEnd e) (mk_sz_state m (run_fork loads e s) l)
  | step_before m s l id m' s' :
      sz_listening s = true → apply_budget_summary call id m s = Ok (m', s') →
      sz_step (mk_sz_state m s l) (SzBefore id) (mk_sz_state m' s' l)
  | step_uninstall m s l : sz_step (mk_sz_state m s l) SzUninstall (mk_sz_state m (uninstall s) l)
  | step_closed m s l :
      sz_listening s = false → sz_step (mk_sz_state m s l) SzClosed (mk_sz_state m (cleared s) l).

Definition sz_start : sz_state := mk_sz_state new_manager new_summarizer [].

(** A call of the run began when [src] was what it could summarize. *)
Definition was_read (ls : list sz_label) (src : source) : Prop :=
  ∃ l1 l2 st, ls = l1 ++ SzBegin :: l2 ∧ steps sz_step sz_start l1 st ∧
    source_of (selected_tags preserve_recent (keys (st_manager st))) (st_manager st) = Ok src.

(** ... and later a fork of the run replied with [text]. *)
Definition was_summarized (ls : list sz_label) (src : source) (text : string) : Prop :=
  ∃ l1 l2 r, ls = l1 ++ SzEnd (Replied (Some r)) :: l2 ∧ was_read l1 src ∧ summary_text loads r = Ok text.

Lemma was_read_snoc ls l src : was_read ls src → was_read (ls ++ [l]) src.
Proof. intros (l1 & l2 & st & -> & ?). exists l1, (l2 ++ [l]), st. by rewrite <- app_assoc. Qed.

Lemma was_summarized_snoc ls l src text : was_summarized ls src text → was_summarized (ls ++ [l]) src text.
Proof. intros (l1 & l2 & r & -> & ?). exists l1, (l2 ++ [l]), r. by rewrite <- app_assoc. Qed.

(** What the summarizer holds comes from the run. *)
Definition sourced (ls : list sz_label) (st : sz_state) : Prop :=
  let s := st_summarizer st in
  good (st_manager st) ∧
  (∀ src, src ∈ st_open st → was_read ls src) ∧
  (sz_listening s = true → task_source s ∧
     ∀ src, sz_task s ≠ None → sz_source s = Some src → was_read ls src ∧
       ∀ text, sz_summary s = Some text → sz_task s = Some Finished ∧ was_summarized ls src text).
Lemma sourced_snoc ls st l : sourced ls st → sourced (ls ++ [l]) st.
Proof.
  intros (Hg & Ho & Hs). split_and!; [done|eauto using was_read_snoc|].
  intros Hl. destruct (Hs Hl) as [Hts Hsrc]. split; [done|]. intros src Ht He.
  destruct (Hsrc src Ht He) as [? Hsum]. split; [by apply was_read_snoc|].
  intros text Htext. destruct (Hsum text Htext). eauto using was_summarized_snoc.
Qed.

(** A call that returns may start a task for what it began with. *)
Lemma fork_after_cases src c s :
  let s' := fork_after src c s in
  s' = s ∨ s' = with_warning s ∨ (sz_task s = None ∧ src ≠ [] ∧ s' = task_started (range_of src) (Some src) s).
Proof.
  unfold fork_after. destruct (sz_task s); [by left|]. destruct src as [|p src']; [by left|].
  destruct (cp_usage c); [|by left]. repeat case_match; eauto 10.
Qed.

(** A fork that ends keeps the source; a summary is the text of its reply. *)
Lemma run_fork_frame e s :
  let s' := run_fork loads e s in
  sz_source s' = sz_source s ∧ sz_range s' = sz_range s ∧ sz_listening s' = sz_listening s ∧
  sz_task s' = ((λ _, Finished) <$> sz_task s) ∧
  (sz_summary s' = sz_summary s ∨ sz_summary s' = None ∨
   ∃ r text, e = Replied (Some r) ∧ summary_text loads r = Ok text ∧ sz_summary s' = Some text).
Proof.
  assert (Hdone : ∀ x, sz_source (task_done x) = sz_source x ∧ sz_range (task_done x) = sz_range x ∧
    sz_listening (task_done x) = sz_listening x ∧ sz_task (task_done x) = (λ _, Finished) <$> sz_task x ∧
    sz_summary (task_done x) = sz_summary x).
  { intros x. unfold task_done. by destruct (sz_task x) eqn:Hx; simpl; rewrite ?Hx. }
  assert (Hfail : sz_source (fork_failed s) = sz_source s ∧ sz_range (fork_failed s) = sz_range s ∧
    sz_listening (fork_failed s) = sz_listening s ∧ sz_task (fork_failed s) = sz_task s ∧
    sz_summary (fork_failed s) = None).
  { unfold fork_failed. by destruct (2 <=? _). }
  destruct Hfail as (Hf1 & Hf2 & Hf3 & Hf4 & Hf5). unfold run_fork.
  match goal with |- context [task_done ?x] => destruct (Hdone x) as (-> & -> & -> & -> & ->) end.
  destruct e as [[r|]|exn|]; [destruct (summary_text loads r) as [text|] eqn:Hr|..];
    rewrite ?Hf1, ?Hf2, ?Hf3, ?Hf4, ?Hf5; (split_and!; [done..|]).
  - right; right. by exists r, text.
  - by right; left.
  - by right; left.
  - by right; left.
  - by left.
Qed.

Lemma step_return_sourced ls m s l1 src l2 c :
  sourced ls (mk_sz_state m s (l1 ++ src :: l2)) → sourced ls (mk_sz_state m (fork_after src c s) (l1 ++ l2)).
Proof.
  intros (Hg & Ho & Hs). simpl in *. split_and!; simpl; [done|intros; apply Ho; set_solver|].
  destruct (fork_after_cases src c s) as [-> |[-> |(Ht & Hne & ->)]]; [exact Hs|exact Hs|].
  simpl. intros Hl. destruct (Hs Hl) as [Hts _]. unfold task_source in Hts |- *. rewrite Ht in Hts. simpl.
  split; [by eauto|]. intros src' _ [= <-]. split; [apply Ho; set_solver|]. intros text. by rewrite Hts.
Qed.

Lemma step_end_sourced ls m s l e :
  sourced ls (mk_sz_state m s l) → sz_task s = Some Unfinished ∨ sz_listening s = false →
  sourced (ls ++ [SzEnd e]) (mk_sz_state m (run_fork loads e s) l).
Proof.
  intros Hsd Hun. pose proof (sourced_snoc _ _ (SzEnd e) Hsd) as (Hg & Ho & Hs).
  destruct Hsd as (_ & _ & Hs0). simpl in *. split_and!; simpl; [done|done|].
  destruct (run_fork_frame e s) as (Hsrc & Hr & -> & Ht & Hsum). intros Hl.
  destruct (Hs Hl) as [Hts Hsd], (Hs0 Hl) as [_ Hsd0]. destruct Hun as [Hun|]; [|congruence].
  unfold task_source in Hts |- *. rewrite Ht, Hsrc, Hr, Hun in *. simpl. split; [done|].
  intros src _ Hs'. destruct (Hsd src ltac:(done) Hs') as [Hrd Hold]. split; [done|].
  intros text Htext. split; [done|].
  destruct Hsum as [Hsum|[Hsum|(r & text' & -> & Hrep & Hsum)]]; rewrite Hsum in Htext; [|done|].
  - by destruct (Hold text Htext) as [? _].
  - simplify_eq. exists ls, [], r. split_and!; [done| |done]. by apply (Hsd0 src).
Qed.

Lemma sz_step_sourced ls st l st' :
  observing call → steps sz_step sz_start ls st → sourced ls st → sz_step st l st' → sourced (ls ++ [l]) st'.
Proof.
  intros Hobs Hrun Hsd Hstep. pose proof (sourced_snoc _ _ l Hsd) as Hnext.
  destruct Hstep as [m s op_l op m' Hop|m s lo src Hh Hb|m s l1 src l2 c|m s lo e Hun|m s lo id m' s' Hl Happ|m s lo|m s lo Hl].
  - destruct Hnext as (Hg & Ho & Hs). split_and!; [by eapply op_step_good|done|done].
  - destruct Hnext as (Hg & Ho & Hs). split_and!; [done| |done]. simpl in *.
    intros src' [-> |Hin]%elem_of_cons; [|by apply Ho]. exists ls, [], (mk_sz_state m s lo).
    split_and!; [done|done|]. unfold fork_begin in Hb. case_match; [done|].
    simpl. destruct (source_of _ _) eqn:Hso; simplify_eq/=. done.
  - by apply step_return_sourced.
  - by apply step_end_sourced.
  - destruct (decide (sz_task s = Some Finished)) as [Ht|Ht].
    + destruct Hnext as (Hg & Ho & Hs). simpl in *. destruct (Hs Hl) as [Hts Hsrc].
      destruct (apply_budget_spec _ _ _ _ _ Hobs Hg Hts Happ Ht) as (Hnone & Htask & Hg' & _).
      split_and!; simpl; [done|done|]. intros _. split; [done|]. by rewrite Htask.
    + rewrite (apply_budget_unfinished id m s Ht) in Happ. by injection Happ as <- <-.
  - destruct Hnext as (Hg & Ho & Hs). split_and!; [done|done|]. simpl. done.
  - destruct Hnext as (Hg & Ho & Hs). split_and!; [done|done|]. simpl in *. congruence.
Qed.
Lemma run_sourced ls st : observing call → steps sz_step sz_start ls st → sourced ls st.
Proof.
  intros Hobs. induction ls as [|l ls IH] using rev_ind in st |- *; intros Hrun.
  - inversion Hrun; subst. split_and!; simpl.
    + split; [apply new_wf|]. unfold mview. simpl. rewrite new_view. apply log_inv_empty.
    + set_solver.
    + done.
  - destruct (steps_snoc_inv _ _ _ _ _ Hrun) as (mid & Hls & Hl).
    by eapply sz_step_sourced; [| |apply IH|].
Qed.

(** C25.  In every run of a manager with a token-budget summarizer, in which the
    log changes in any way between the steps of any number of overlapping
    model calls, a summary that is applied replaces one block of active tags
    by one summary event: exactly the tags that some call of the run read when
    it began, under which the events with the same ids are still found, and
    its text is the reply of a fork that ended after that.  When nothing is
    applied the manager is untouched, and then no finished summary's events
    were still in the log as they were read. *)
Theorem summary_replaces_what_it_saw ls st id st' :
  observing call → steps sz_step sz_start ls st → sz_step st (SzBefore id) st' →
  let m := st_manager st in let s := st_summarizer st in
  (st_manager st' = m ∧
   ∀ src text pre post, sz_task s = Some Finished → sz_source s = Some src → sz_summary s = Some text →
     ¬ current src m pre post) ∨
  ∃ src text pre post,
    was_summarized ls src text ∧ keys m = pre ++ tags_of src ++ post ∧ source_of (tags_of src) m = Ok src ∧
    block_replaced id text pre (tags_of src) post m (st_manager st') ∧ sz_task (st_summarizer st') = None.
Proof.
  intros Hobs Hrun Hstep. destruct (run_sourced _ _ Hobs Hrun) as (Hg & _ & Hs).
  inversion Hstep as [| | | |m s lo id' m' s' Hl Happ| |]; subst. simpl in *. destruct (Hs Hl) as [Hts Hsrc].
  destruct (decide (sz_task s = Some Finished)) as [Ht|Ht].
  2:{ rewrite (apply_budget_unfinished id m s Ht) in Happ. injection Happ as <- <-. by left. }
  destruct (apply_budget_spec _ _ _ _ _ Hobs Hg Hts Happ Ht) as (_ & Htask & _ & [[-> Hno]|H1]).
  - left. split; [done|]. eauto.
  - right. destruct H1 as (src & text & pre & post & Hso & Hsu & [Hk Hcur] & Hb).
    exists src, text, pre, post. split_and!; [|done..].
    destruct (Hsrc src ltac:(congruence) Hso) as [_ Htext]. by destruct (Htext text Hsu).
Qed.

(** ** Failing forks *)

(** The forks of a run that end badly; one that is cancelled is neither. *)
Definition fork_fails (l : sz_label) : bool :=
  match l with
  | SzEnd (Replied (Some r)) => match summary_text loads r with Ok _ => false | Raise _ => true end
  | SzEnd (Replied None) | SzEnd (ForkRaised _) => true
  | _ => false
  end.
Definition fork_succeeds (l : sz_label) : bool :=
  match l with
  | SzEnd (Replied (Some r)) => match summary_text loads r with Ok _ => true | Raise _ => false end
  | _ => false
  end.

Lemma task_done_switch x : sz_failed (task_done x) = sz_failed x ∧ sz_hooked (task_done x) = sz_hooked x.
Proof. unfold task_done. by destruct (sz_task x). Qed.

Lemma fork_failed_switch s :
  sz_failed (fork_failed s) = S (sz_failed s) ∧ (sz_hooked s = false ∨ 1 ≤ sz_failed s → sz_hooked (fork_failed s) = false).
Proof.
  unfold fork_failed. simpl. destruct (sz_failed s); simpl; split; try done. intros [?|?]; [done|lia].
Qed.

(** What one step does to the count of failures and to the hook. *)
Lemma apply_budget_switch id (m : manager B) s m' s' :
  apply_budget_summary call id m s = Ok (m', s') → sz_failed s' = sz_failed s ∧ sz_hooked s' = sz_hooked s.
Proof.
  assert (Hpend : ∀ s0 m1 s1, apply_pending_summary call id m s0 = Ok (m1, s1) →
    sz_failed s1 = sz_failed s0 ∧ sz_hooked s1 = sz_hooked s0).
  { intros s0 m1 s1. unfold apply_pending_summary, cleared. repeat case_match; intros; by simplify_eq/=. }
  unfold apply_budget_summary. destruct (sz_task s) as [[]|]; [apply Hpend| |apply Hpend].
  destruct (sz_source s) as [[|p src]|], (sz_range s); cbn [result_bind];
    try (intros Ha; by apply Hpend in Ha).
  destruct (get_events_in_range t m); cbn [result_bind]; [|done].
  destruct (with_ids _ m); cbn [result_bind]; [|done]. intros Ha. apply Hpend in Ha. by case_decide.
Qed.

(** What one step does to the count of failures and to the hook. *)
Lemma step_switch st l st' :
  sz_step st l st' → fork_succeeds l = false →
  let s := st_summarizer st in let s' := st_summarizer st' in
  sz_failed s' = sz_failed s + (if fork_fails l then 1 else 0) ∧
  (sz_hooked s = false → sz_hooked s' = false) ∧
  (fork_fails l = true → 1 ≤ sz_failed s → sz_hooked s' = false).
Proof.
  intros Hstep Hno. destruct Hstep as [m s lo op m' Hop|m s lo src Hh Hb|m s l1 src l2 c|m s lo e Hun|m s lo id m' s' Hl Happ|m s lo|m s lo Hl];
    simpl in *; rewrite ?Nat.add_0_r; try done.
  - by destruct (fork_after_cases src c s) as [-> |[-> |(_ & _ & ->)]].
  - unfold run_fork. match goal with |- context [task_done ?x] => destruct (task_done_switch x) as [-> ->] end.
    destruct (fork_failed_switch s) as [Hf Hh].
    destruct e as [[r|]|exn|]; [destruct (summary_text loads r); [done|]|..]; rewrite ?Hf;
      (split_and!; [lia|by eauto|by eauto]).
  - by destruct (apply_budget_switch _ _ _ _ _ Happ) as [-> ->].
Qed.

Definition failures (ls : list sz_label) : nat := length (base.filter (λ l, fork_fails l = true) ls).

(** Two forks that fail with no success between them end the summaries for
    good: no later call is forked. *)
Theorem failing_forks_stop st ls st' :
  steps sz_step st ls st' → Forall (λ l, fork_succeeds l = false) ls → 2 ≤ failures ls →
  sz_hooked (st_summarizer st') = false ∧ ∀ st'', ¬ sz_step st' SzBegin st''.
Proof.
  intros Hrun Hno Hn. assert (Hh : sz_hooked (st_summarizer st') = false).
  { assert (Hgen : sz_hooked (st_summarizer st) = false ∨
      2 ≤ sz_failed (st_summarizer st) + failures ls ∧ 1 ≤ failures ls → sz_hooked (st_summarizer st') = false).
    2:{ apply Hgen. right. lia. }
    clear Hn. induction Hrun as [|s l s1 ls s2 Hstep Hrun IH]; [intros [?|[_ Hz]]; [done|by inversion Hz]|].
    apply Forall_cons in Hno as [Hl Hno]. destruct (step_switch _ _ _ Hstep Hl) as (Hf & Hk & Hoff).
    intros Hor. apply (IH Hno). unfold failures in *. rewrite filter_cons in Hor.
    destruct (fork_fails l) eqn:Hfl; [rewrite decide_True in Hor by done|rewrite decide_False in Hor by done];
      simpl in *; destruct Hor as [Hz|[Hz1 Hz2]]; [by left; apply Hk| |by left; apply Hk|right; lia].
    destruct (decide (1 ≤ sz_failed (st_summarizer s))) as [Hge|Hlt]; [left; by apply Hoff|right; lia]. }
  split; [done|]. intros st'' Hb. inversion Hb; subst; simpl in *. congruence.
Qed.
End SummarizerRuns.

(** ** Background summaries on concrete logs

    Runs of a summarizer on the in-memory backend: witnesses of the theorems
    of [SummarizerRuns], and what the two summarizers do at their edges. *)

Open Scope nooa_scope.

(** Arguments of a reply are not needed: every reply is a text. *)
Definition no_loads (_ : string) : result pyval := Raise ValueError.

Definition summary_reply (text : string) : fork_end := Replied (Some (mk_fork_reply (VStr text) [] "stop")).
Definition over_budget : completed := mk_completed (Some 900%Z) false true true 800.

(** The next state of a step that succeeds; a call that returns is the last
    one begun. *)
Definition sz_next (preserve : Z) (st : sz_state (B := mem_backend)) (l : sz_label) : sz_state :=
  let m := st_manager st in let s := st_summarizer st in let open := st_open st in
  match l with
  | SzEvent op => mk_sz_state (demo_apply op m) s open
  | SzBegin => match fork_begin false preserve m s with Ok (Some src) => mk_sz_state m s (src :: open) | _ => st end
  | SzReturn c => match open with src :: open' => mk_sz_state m (fork_after src c s) open' | [] => st end
  | SzEnd e => mk_sz_state m (run_fork no_loads e s) open
  | SzBefore id =>
      match apply_budget_summary demo_call id m s with Ok (m', s') => mk_sz_state m' s' open | Raise _ => st end
  | SzUninstall => mk_sz_state m (uninstall s) open
  | SzClosed => mk_sz_state m (cleared s) open
  end.

Definition add_event (id : string) : sz_label := SzEvent (OpAdd [] None (demo_event id) true).

(** Four events; a call that may summarize the first two; one more event
    while the call and its fork are running; the next turn. *)
Definition sz_labels : list sz_label :=
  [add_event "a"; add_event "b"; add_event "c"; add_event "d"; SzBegin; add_event "e"; SzReturn over_budget;
   SzEnd (summary_reply "a and b"); add_event "f"]%string.

Definition sz_pending : sz_state := foldl (sz_next 2) sz_start sz_labels.

Ltac sz_demo_step :=
  match goal with
  | |- sz_step _ _ _ _ (SzEvent _) _ => apply step_event; demo_step
  | |- sz_step _ _ _ _ SzBegin _ => apply step_begin; vm_compute; reflexivity
  | |- sz_step _ _ _ _ (SzReturn _) _ => refine (step_return _ _ _ _ _ [] _ [] _)
  | |- sz_step _ _ _ _ (SzEnd _) _ => apply step_end; left; reflexivity
  | |- sz_step _ _ _ _ (SzBefore _) _ => apply step_before; [reflexivity|vm_compute; reflexivity]
  end.

Lemma sz_demo_run : steps (sz_step demo_call no_loads 2) sz_start sz_labels sz_pending.
Proof. unfold sz_labels, add_event. do 9 (eapply steps_cons; [sz_demo_step|]). apply steps_nil. Qed.

Definition sz_applied : sz_state := sz_next 2 sz_pending (SzBefore "s").

Definition is_ok {A} (r : result A) : bool := match r with Ok _ => true | Raise _ => false end.

Lemma sz_before_step p st id :
  sz_listening (st_summarizer st) = true →
  is_ok (apply_budget_summary demo_call id (st_manager st) (st_summarizer st)) = true →
  sz_step demo_call no_loads p st (SzBefore id) (sz_next p st (SzBefore id)).
Proof.
  destruct st as [m s open]. simpl. intros Hl Ha.
  destruct (apply_budget_summary demo_call id m s) as [[m' s']|] eqn:He; [|done]. by apply step_before.
Qed.

Lemma sz_applied_step : sz_step demo_call no_loads 2 sz_pending (SzBefore "s") sz_applied.
Proof. apply sz_before_step; vm_compute; reflexivity. Qed.

#[local] Opaque sz_pending sz_applied.

Lemma summary_replaces_what_it_saw_witness :
  keys (st_manager sz_applied) = ["1..2"; "3"; "4"; "5"; "6"]%string ∧
  ∃ src text, was_summarized demo_call no_loads 2 sz_labels src text ∧ sz_task (st_summarizer sz_applied) = None.
Proof.
  split; [vm_compute; reflexivity|].
  destruct (summary_replaces_what_it_saw demo_call no_loads 2 sz_labels sz_pending "s" sz_applied)
    as [[He _]|(src & text & pre & post & Hw & _ & _ & _ & Ht)].
  - exact demo_observing.
  - exact sz_demo_run.
  - exact sz_applied_step.
  - apply (f_equal keys) in He. vm_compute in He. discriminate He.
  - exists src, text. exact (conj Hw Ht).
Defined.

(** Two calls whose forks fail, the second with an empty reply. *)
Definition sz_failing : list sz_label :=
  [add_event "a"; add_event "b"; add_event "c"; SzBegin; SzReturn over_budget; SzEnd (ForkRaised TimeoutError);
   SzBefore "s"; SzBegin; SzReturn over_budget; SzEnd (summary_reply " "); SzBefore "s"]%string.

Definition sz_disabled : sz_state := foldl (sz_next 2) sz_start sz_failing.

Lemma sz_failing_run : steps (sz_step demo_call no_loads 2) sz_start sz_failing sz_disabled.
Proof. unfold sz_failing, add_event. do 11 (eapply steps_cons; [sz_demo_step|]). apply steps_nil. Qed.

#[local] Opaque sz_disabled.

Lemma failing_forks_stop_witness :
  sz_hooked (st_summarizer sz_disabled) = false ∧ keys (st_manager sz_disabled) = ["1"; "2"; "3"]%string.
Proof.
  split; [|vm_compute; reflexivity].
  destruct (failing_forks_stop demo_call no_loads 2 sz_start sz_failing sz_disabled) as [H _]; [| |vm_compute; lia|exact H].
  - exact sz_failing_run.
  - repeat constructor.
Defined.

(** *** The method summarizer *)

(** The events of a call [c], with one of a nested call [d] between them. *)
Definition call_ops : list mop :=
  [OpAdd ["c"] None (demo_event "a") true; OpAdd ["c"; "d"] None (demo_event "b") true;
   OpAdd ["c"] None (demo_event "e") true; OpAdd [] None (demo_event "f") true]%string.
Definition call_log : manager mem_backend := foldl (λ m op, demo_apply op m) new_manager call_ops.

Lemma call_log_good : good call_log.
Proof.
  eapply (reachable_good demo_call call_ops); [exact demo_observing|].
  unfold call_ops. do 4 (eapply steps_cons; [demo_step|]). apply steps_nil.
Qed.

Definition ended_call : ended_turn := mk_ended_turn true 2 (Some "c"%string).

Lemma method_range_covers_witness :
  compute_range (mk_method_config 2 true) ended_call call_log = Ok (Some (Some "1", Some "3"))%string ∧
  "3"%string ∈ ["1"; "2"; "3"]%string.
Proof.
  split; [vm_compute; reflexivity|].
  apply (method_range_covers (mk_method_config 2 true) ended_call "c" (Some "1", Some "3")%string call_log
    [("1", 0); ("2", 1); ("3", 2)]%string "3").
  - exact call_log_good.
  - reflexivity.
  - vm_compute. reflexivity.
  - reflexivity.
  - vm_compute. reflexivity.
  - split; [apply (bool_decide_unpack _); vm_compute; exact I|].
    eexists _, _. split_and!; vm_compute; reflexivity.
Defined.

(** The first turn of a nested call that ends there counts as a root call, a
    root call of several turns does not. *)
Example root_call_by_turn_number :
  should_summarize (mk_method_config 1 true) (mk_ended_turn true 1 (Some "nested"%string)) = false ∧
  should_summarize (mk_method_config 1 true) (mk_ended_turn true 2 (Some "root"%string)) = true.
Proof. split; reflexivity. Qed.

(** A summary that waits while the log is cleared: tags start again at 1, so
    the method summarizer puts it in the place of other events ... *)
Definition recorded_again : manager mem_backend :=
  foldl (λ m op, demo_apply op m) call_log
    ([OpClear; OpAdd [] None (demo_event "x") true; OpAdd [] None (demo_event "y") true;
      OpAdd [] None (demo_event "z") true]%string).
Definition method_pending : summarizer :=
  run_summarization (Ok "c"%string) (task_started (Some "1", Some "3")%string None new_summarizer).

Example method_summary_outlives_clear :
  match apply_pending_summary demo_call "s" recorded_again method_pending with
  | Ok (m, _) => keys m = ["1..3"]%string
  | Raise _ => False
  end.
Proof. vm_compute. reflexivity. Qed.

(** ... while the token-budget summarizer drops it. *)
Definition budget_pending : summarizer :=
  run_fork no_loads (summary_reply "c")
    (task_started (Some "1", Some "3")%string (Some [("1", "a"); ("2", "b"); ("3", "e")]%string) new_summarizer).

Example budget_summary_dropped_after_clear :
  match apply_budget_summary demo_call "s" recorded_again budget_pending with
  | Ok (m, s) => keys m = ["1"; "2"; "3"]%string ∧ sz_task s = None
  | Raise _ => False
  end.
Proof. vm_compute. split; reflexivity. Qed.
